(* ===== verification/_CoqProject ===== *)
-Q . S2P
Prelude.v
Ordered.v
Base64url.v
Ids.v
Utf8.v
Json.v
JsonFacts.v
JsonReader.v
JsonText.v
Delivery.v
Clock.v
Canonical.v
Capabilities.v
Envelope.v
EnvelopeFacts.v
Keys.v
Trust.v
Signing.v
Replay.v
ReplayFacts.v
Receipt.v
Reply.v
Receiver.v
ReceiverFacts.v
SignedObject.v
Agreement.v
Pairing.v
PairingFacts.v
Registration.v
ReceiptLimit.v
Sender.v
RecordBook.v
Bindings.v
Authorization.v
AuthorizationFacts.v
AuthorizationSpec.v
AuthorizationSteps.v
AuthorizationRestart.v
Transport.v
Presence.v
Registry.v
PresenceAuth.v
ReceiptAuth.v
Sealing.v
AgreementKeys.v
IssuedPairing.v
SessionBinding.v
TrustFile.v
AtRest.v
AtomicFile.v
AgreementFile.v
TrustStore.v
TrustStoreLife.v
DurableRestart.v
HandOffFrame.v
WebSocket.v
MemoryNetwork.v
MemoryRuns.v
Connections.v
LocalCalls.v
ZenohTransport.v
Concurrent.v
PipelineData.v
PipelinePresence.v
PipelineSignals.v
PipelineBinding.v
PipelineEvents.v
PipelineSend.v
PipelineReceive.v
PipelineApi.v
PipelineInv.v
PipelineQuiet.v
PipelinePrograms.v
PipelineShare.v
PipelineJobs.v
PipelineTurn.v
PipelineSystem.v
McpTools.v
CodexReports.v
CodexPairing.v
