(* ===== verification/Prelude.v ===== *)
(** * OAC session channels: a verification library for the core crate

    OAC carries messages between coding sessions on different devices.  The crate [core/]
    holds all of its protocol logic; transports and harness adapters only move octets to and
    from it.  A message is a signed JSON _envelope_.  The sender builds it under the version
    and limits the destination declared, signs it, and tracks its delivery state from
    receipts.  The receiver validates the envelope (envelope stage), verifies the signature
    against its trusted keys, checks the replay window and asks the authorization engine
    (security stage, steps 1 to 4), reserves the envelope's duplicate key in a store shared by
    all receiving threads (step 5), checks the addressed session and the hand-off deadline,
    calls the harness adapter once, settles the reservation and reports a state, for which it
    may send a receipt within a rate limit.  The _pipelines_ run all of this for one device:
    they bind the attachments of harness adapters to sessions from native signals, announce
    the sessions to trusted peers, and carry payloads over a transport, sealed or plain.

    ** Files

    Every file models the source file its opening comment names; definitions keep the names of
    the source, prefixed with the type where Rust has several methods of one name.

    - [Prelude]: results, octets, byte literals, generic list and integer lemmas, and the
      tactics [bool_hyps], [dlia], [case_in], [inv_Forall] and [inv_binds]; the hint database
      is [oac].
    - [Base64url] ([base64url.rs]), [Ids] ([ids.rs]), [Utf8] (the UTF-8 and UTF-16 of Rust's
      strings), [Json] ([json.rs]: data, reader, walk, writer), with the theorems about the
      JSON code in [JsonFacts] (the walk against recursion over the value), [JsonReader]
      (progress and well-formedness of the reader) and [JsonText] (printing and parsing).
    - [Delivery] ([delivery.rs]), [Clock] ([clock.rs]), [Canonical] ([canonical.rs]),
      [Capabilities] ([capabilities.rs]).
    - [Envelope] ([envelope.rs]) and [EnvelopeFacts]; [Keys] ([keys.rs]), [Trust]
      ([trust.rs]), [Signing] ([signing.rs]).
    - [Replay] ([replay.rs]): the duplicate store under its lock, and the store as a state
      machine whose steps are the operations of any number of threads; [ReplayFacts] has the
      invariant and the theorems about runs.
    - [Receipt] ([receipt.rs]), [Reply] ([reply.rs], and the hand-off record of
      [authorization.rs]).
    - [Receiver] ([receiver.rs], and the outcome type of [adapter.rs]): a copy's processing is
      a program [prog] over the calls it makes (clock, session lookup, hand-off call, store,
      engine), each answer an argument of its continuation, so that other threads may run
      between two calls and any call may panic.  [ReceiverFacts] runs a pool of such programs
      over one store; [ReceiptLimit] is about the receipt limiter.
    - [Sender] ([sender.rs]).
    - [Ordered]: Rust's ordered maps and sets as sorted key lists, [max_by_key], the order
      of a hash map, and Rust's stable sorts and [dedup].
    - [SignedObject]: signed JSON objects other than envelopes ([signing.rs]); [Agreement]
      ([agreement.rs]: agreement statements), [Registration] ([registration.rs]).
    - [Pairing] ([authorization.rs]: grants and the facts they match; [pairing.rs]) and
      [PairingFacts]: the two sides of a pairing exchange, each a
      state with one operation per call, and the exchange of both.
    - [RecordBook] ([authorization.rs], the record book: partitions with a per-partition and a
      total cap); [Bindings] (the table of sessions bound from
      envelopes); [Authorization] (the engine: decisions, bindings, records, keys, grants,
      statements, and the store they are saved to).  [AuthorizationFacts] has the engine's
      invariant for every operation, [AuthorizationSpec] the declarative reading of a
      decision and the table theorem, [AuthorizationSteps] what single operations do,
      [AuthorizationRestart] saving and restoring.
    - [Transport] ([transport.rs]: keys, handles, errors of the contract), [Presence]
      ([presence.rs]), [Registry] ([registry.rs]: registry and issuer);
      [PresenceAuth] ([presence_auth.rs]) and [ReceiptAuth] ([receipt_auth.rs]) join the
      engine to presence and receipts.
    - [Sealing] ([sealing.rs]: sealed frames), [AgreementKeys] (the device's
      own agreement keys over a store), [IssuedPairing] ([issued_pairing.rs]: the windows of
      issued values), [SessionBinding] ([session_binding.rs]: the binding decision).
    - The durable stores: [TrustFile]
      ([cli/src/trust_store.rs]: the format of the trust file), [AtomicFile] (the checks and
      steps the two stores share, over an explicit disk: [trust_store.rs],
      [private_file.rs]), [TrustStore] and [TrustStoreLife] (the store, its saves and its
      floor), [DurableRestart] (the engine over it, with failing saves), [AtRest]
      ([core/src/at_rest.rs]: the sealed file of the agreement keys), [AgreementFile]
      ([cli/src/agreement_file.rs]: the store of that file, which is an [AtomicStore]).
    - [Concurrent]: programs of threads around one state (a region is one hold of the lock, a
      call is made with no lock held, a turn is had by one thread at a time), their runs in
      any interleaving, and the rely and guarantee rule for them; and the notation
      [r <| field := v |>].
    - The pipelines ([pipeline.rs]), which join all parts: [PipelineData] (settings, the core
      and the state beside it), [PipelinePresence] (lock, carriage, announcements),
      [PipelineSignals] (native signals, withholding, unbinding), [PipelineBinding] (binding
      and the pass over the pending signals), [PipelineEvents] (adapter events, connections),
      [PipelineSend], [PipelineReceive], [PipelineApi] (the public operations, the status, and
      the system of all jobs).  Each function is the program of its holds of the lock and its
      calls, so the theorems hold for every interleaving of them.
    - [PipelineInv] (the invariant, and what a region may change with and without the binding
      turn), [PipelineQuiet], [PipelinePrograms], [PipelineJobs] (every
      program but the pass keeps it without the turn), [PipelineTurn] (the pass keeps it with
      the turn), [PipelineShare] (whose signal makes room), [PipelineSystem] (the theorems
      about all runs, sample runs, sealed payloads and retries).
    - What the pipelines stand on: [Connections] ([connection.rs]: the closure barrier, the two
      halves of a connection, and a connection as a system of turns), [LocalCalls]
      ([local_call.rs]: admission, cancellation and commit of calls, as a system of holds of
      the locks).
    - The transports: [MemoryNetwork] ([transports/memory/], and [core/src/health.rs]: the
      network under its lock, fault injectors, the endpoint) and [MemoryRuns] (its delivery
      thread and its callers in any interleaving), [ZenohTransport] ([transports/zenoh/]: keys
      and tokens, the gate with the threads that pass and close it, dispatch, links, signals).
    - Of the codex adapter: [HandOffFrame] ([adapters/codex/src/frame.rs]: the text a hand-off
      is given to the harness in), [WebSocket] ([adapters/codex/src/ws.rs]: its client),
      [McpTools] ([adapters/mcp-tools/]: the tools a session calls, their arguments and
      results), [CodexReports] ([schema.rs], [threads.rs], [events.rs], [client.rs],
      [shim.rs]: what the app-server reports, the threads it is read into, and the serving of
      tool calls) and [CodexPairing] ([confirm.rs], [reveal.rs], [serving.rs], [pairing.rs]:
      the exchanges that confirm a request and reveal a value, as programs cut at the locks
      they take and at the calls they make, in any interleaving).
    ** State and integers

    Octets and strings are lists of integers; [u8], [u32], [u64] and [i128] values are [Z] with
    the bounds and saturation of the source written out.  Maps are [gmap]s, ordered sets of the
    source that are only read as sets are [gset]s; JSON objects are association lists, since
    member order is kept.  [Result] is the monad [result]; a panic ([expect], an adapter's
    panic) is [None].  Instants of the wall clock are nanoseconds, as in [Timestamp].

    ** What is assumed

    Ed25519, SHA-256 and the two writers of [serde_jcs] are the operations of the class
    [Crypto] of [Keys]; the theorems that need more than their types take [CryptoLaws]
    (signatures verify, are 64 octets with a reduced scalar, derived keys are canonical
    points), and [Keys.sample_laws] is an instance.  Random octets are arguments.  The
    receiver's theorems hold for any answers of the engine and the adapter.  The pairing
    store is the record [PairingStore] of its operations; restarting assumes [DurableStore],
    that what was saved is loaded.  The order of a hash map's keys is the class [HashOrder].
    The theorems about runs assume a clock that does not go backwards, and that copies with
    one duplicate key (key id and nonce) are copies of one envelope, so have one hand-off
    deadline.
    The [hpke] crate is the class [Hpke], with the laws of RFC 9180 and RFC 7748 in
    [HpkeLaws]; [Sealing.sample_hpke_laws] is an instance.  The agreement key store is
    [AtomicStore] where its saves matter: a save that fails leaves the old state or the new.
    Its PSK mode is [HpkePsk] with [HpkePskLaws].  The string writer of [serde_jcs] is
    [JcsStrings] where a file must be read back.  The pairing store of the engine is
    [RecoverableStore] in [DurableRestart]: a load, when it answers, gives the last snapshot
    saved; [DurableRestart.file_store_recoverable] shows that the trust store is one.  What the
    operating system answers to the calls of one operation on a file is a record [Io] of
    outcomes, arbitrary in the theorems; a rename is atomic.
    The order in which a hash map is iterated is the class [MapOrder], a permutation of the
    entries.  The results of the calls the pipelines make to adapters, the transport, the
    binding log, the random source and the pairing store are arbitrary in every run.
    A fault injector of the memory network is the class [FaultInjector]; its laws
    ([MemoryRuns.FaultLaws]) are that delays are not negative and that one that preserves order
    gives every copy the same delay, and the three injectors of the source are instances.  The
    noise that masks WebSocket frames is arbitrary, and what a stream delivers is a list of
    octets with the point at which it fails.  The zenoh session is a library: samples and
    frames arrive in any order.  The JSON tree the tools are called with is the class
    [McpJson], with the documented behaviour of its reading and building in [McpJsonLaws], of
    which the JSON values of the core are an instance ([McpTools.Json_McpJsonLaws]).  What the
    app-server and the core answer, the clock and the moment a wait ends are arbitrary.
    ** What is proved

    - Receiver: at most one hand-off per envelope under every interleaving
      (C2), the report of one copy
      (C30), no lost reservation, panics included
      (C31), no report outside the table
      ([ReceiverFacts.reports_unaltered]), the receipt limit
      ([ReceiptLimit.receipts_rate_limited]).
    - Sender: what the send stage prepares the receiver takes
      (C4), and the tracker is a refinement of the history
      of what the sender learned (C36).
    - Authorization: a permit rests on a declarative fact of the engine's state
      (C24), the delivery step on every branch
      (C3), the engine's tables agree after every
      operation (C25), removing a key takes it out of
      every table but the records of what was sent (C32), a restart restores what was saved
      ([AuthorizationRestart.restart_restores]), deciding keeps every reply open
      ([AuthorizationSteps.authorize_keeps_replies]); the record book's bounds and whose
      records it forgets ([RecordBook.record_book_invariant],
      [RecordBook.push_forgets_own_first]).
    - Pairing and registration: [PairingFacts.pairing_text_unambiguous],
      C33, [PairingFacts.pairing_confirmed_once],
      [PairingFacts.responder_answers_once], [Registration.register_usable].
    - Presence and receipts: what is accepted was signed by a trusted key for this device
      (C34, C35), what
      one device issues another accepts ([PresenceAuth.presence_issue_accept],
      [ReceiptAuth.receipt_issue_accept]); the registry's admission, bounds and discovery
      ([Registry.registry_admission], [Registry.registry_bounded],
      [Registry.discovery_exact]) and the issuer
      ([Registry.issuer_numbers_and_refreshes]).
    - Signing: canonical forms do not depend on member order and signing inputs are separated
      by domain and text ([Canonical.canonical_order_insensitive],
      [Canonical.signing_input_separates]); authentication is sound and complete
      (C5, [Signing.sign_then_authenticate]); a draft can be signed
      exactly when its numbers are in the double range (C40).
    - Envelopes: what is sealed is received, member for member
      ([EnvelopeFacts.seal_receive_round_trip]), and the verdict of validation is exact
      ([EnvelopeFacts.receive_envelope_verdict]).
    - Replay protection: the store's invariant and bounds (C29), no
      second admission before the deadline (C28).
    - I-JSON and forms: the reader ends on every input and returns only well-formed values
      (C39, [JsonReader.parse_total]); base64url is decoded exactly
      ([Base64url.decode_exact_spec]).  Further theorems of the same kind (round trips of
      identifiers, timestamps, values and statements) are in their files without a number.
    - Sealing: what is sealed opens to the same payload, within the limit
      ([Sealing.seal_open_round_trip]; [Sealing.opens_exactly],
      [Sealing.recipient_check_transparent]), the receiving pipeline treats it,
      unless it is for another device or too late, as the payload itself
      (C27), the statements of a device
      never contradict each other (C26) and a
      replaced key leaves no gap ([AgreementKeys.rotation_keeps_frames]).
    - The durable stores: a restart gives back what was last written, though saves fail
      (C6; [AuthorizationRestart.restart_restores] over
      a store that never fails), the trust file is read back as it was written
      ([TrustFile.trust_file_round_trip]), its saves are atomic
      (C22) and its floor is lowered only by a
      record of another key or after the maximum (C23); the agreement keys are opened as they were sealed
      ([AtRest.at_rest_round_trip]) and saved atomically
      ([AgreementFile.agreement_save_atomic]).
    - Bindings: what one native signal does ([SessionBinding.signal_effect]), native ids stay
      one to one ([SessionBinding.bindings_one_to_one]), every reveal is justified
      ([IssuedPairing.reveals_justified]; [IssuedPairing.windows_bounded]).
    - The pipelines, in every interleaving: a withheld attachment stays withheld until a later
      signal pairs (C1), pending signals are never
      outdated by a pairing ([PipelineSystem.pending_never_outdated]) and bounded
      ([PipelineSystem.pending_bounded]), the one that makes room is chosen fairly
      ([PipelineSystem.pending_victim_fair]), sets of announcements are a second apart
      ([PipelineSystem.appearance_sets_apart]), saves are retried ever later
      ([PipelineSystem.trust_save_backs_off]).  Two defects are exhibited: the status never
      shows a withholding (C37), and an unbind can leave a
      session without its attachment (C38).
    - Connections and calls: the streams are exact ([Connections.connection_streams_exact]), a
      close is a barrier (C9) and returns
      (C10); no ordinary call commits after a stop or a closure
      (C11; [LocalCalls.commit_once],
      [LocalCalls.pending_calls_bounded], [LocalCalls.composed_ms_exact]).
    - The transports: what is due is handed over, on every schedule of the network's threads, to
      exactly its recipients (C7), justified
      by a publication ([MemoryRuns.hand_over_justified]), in order and once
      ([MemoryRuns.hand_over_order]), never after a leave (C8),
      and a publisher learns nothing of subscriptions ([MemoryRuns.publish_blind]); after a
      close of the gate no other thread calls a handler (C12), the
      links are those of the last samples ([ZenohTransport.links_follow_samples]) and no event
      waits for ever ([ZenohTransport.pending_events_reported]).  That a handler which shuts its
      own transport down is followed by others is exhibited
      ([MemoryRuns.leave_inside_watcher], [ZenohTransport.shutdown_inside_handler]).
    - The codex adapter: a framed hand-off cannot be forged by its content
      (C20; [HandOffFrame.frame_refuses_only_content]), and the
      WebSocket client reads what the frames spell, or fails with the error and the close frame
      of their first fault (C21), and is read by
      a server ([WebSocket.client_frames_read]).  A tool call is parsed exactly
      (C18; [McpTools.request_as_written], [McpTools.refusal_identifies]),
      reports are served and read back ([CodexReports.report_served],
      [CodexReports.queue_add_reads_back], [CodexReports.served_exactly],
      [CodexReports.dispatch_exact]).  In every interleaving a call on a paired connection
      reaches the core on a report of that very call, claimed within its life (C13; the comparison of arguments is
      C16), a reveal is of a value refused on its own connection
      (C14), a stop holds (C15;
      [CodexPairing.wait_round]) and the memory of all this is bounded
      (C17).  One defect is exhibited: a window's end that
      falls inside a reveal leaves its thread unserved (C19).
    ** Fuel

    The reader's loop runs with [2 * length + 2] steps: each octet is consumed by one step and
    closes at most one container ([JsonReader.parse_total]).  The walk runs with one step more
    than the size of the value ([JsonFacts.walk_ref]).  Decimal printing of a [u64] has twenty
    digits.  Chunking is bounded by the length.  The WebSocket reader has one turn more than
    the stream has octets, since a frame has at least two ([WebSocket.next_text_exact] proves
    that it returns).  The loops of
    the pipelines ([drain_binding], [drain_requeued]) run for [fuel] rounds and then stop for
    good; the theorems about runs hold for every [fuel], so for every prefix of a run of the
    source.  All other recursion is structural.

    ** Not modelled

    The adapter contract's driver; of the zenoh transport the opening and closing of its
    session, its configuration and its certificates; of the harness adapters all but the tool
    surface and, of codex, the frame, the WebSocket client, the client, the threads and the
    pairing exchanges (left out: processes and sockets, connecting, the text of its health and
    its log, the adapter that hands off, and the claude adapter); of the command line all but the
    durable stores (of which the default directories and the checks of Windows are left out).
    They are listed in the manifest with the reason.  Of the pipelines: the joining of workers
    at shutdown, the health of transport and adapters in the status, and panics other than
    those of the hand-off call, after which a thread does nothing more.  The views for tests
    of the memory network are left out, and a script of faults is not added to while a network
    runs.
    Iterative destructors, [Debug] output and plain accessors are left out. *)

From stdpp Require Export base tactics option list list_numbers numbers strings gmap sets.
From Stdlib Require Export ZArith Lia.

#[global] Open Scope Z_scope.

(** ** Results

    Rust's [Result<A, E>], with the error type first so that [result E] is a monad; the bind
    is the [?] operator, which returns the error unchanged. *)

Inductive result (E A : Type) : Type :=
| Ok (a : A)
| Err (e : E).
Arguments Ok {E A} a.
Arguments Err {E A} e.

#[global] Instance result_ret {E} : MRet (result E) := λ A a, Ok a.
#[global] Instance result_bind {E} : MBind (result E) := λ A B k m,
  match m with Ok a => k a | Err e => Err e end.
#[global] Instance result_fmap {E} : FMap (result E) := λ A B f m,
  match m with Ok a => Ok (f a) | Err e => Err e end.

(** [Option::ok_or]. *)
Definition ok_or {E A} (o : option A) (e : E) : result E A :=
  match o with Some a => Ok a | None => Err e end.

(** [Result::map_err]. *)
Definition map_err {E F A} (f : E → F) (r : result E A) : result F A :=
  match r with Ok a => Ok a | Err e => Err (f e) end.

(** [Result::ok]. *)
Definition ok {E A} (r : result E A) : option A :=
  match r with Ok a => Some a | Err _ => None end.

Definition is_ok {E A} (r : result E A) : bool :=
  match r with Ok _ => true | Err _ => false end.

(** [Option::filter] and [bool::then_some]. *)
Definition opt_filter {A} (p : A → bool) (o : option A) : option A :=
  match o with Some a => if p a then Some a else None | None => None end.

Definition then_some {A} (b : bool) (a : A) : option A := if b then Some a else None.

Definition is_some {A} (o : option A) : bool :=
  match o with Some _ => true | None => false end.

(** ** Octets and strings

    An octet is a [Z] from 0 to 255; a Rust [String] or [&str] is the list of octets of its
    UTF-8 form, so [str::len], [str::as_bytes] and slicing at octet offsets are list
    operations.  [bs] writes an ASCII literal. *)

Definition bs (s : string) : list Z :=
  map (λ c, Z.of_N (Ascii.N_of_ascii c)) (String.list_ascii_of_string s).

Definition is_u8 (b : Z) : Prop := 0 ≤ b < 256.

(** The [u8] classification methods the code uses. *)
Definition in_range (lo hi b : Z) : bool := (lo <=? b) && (b <=? hi).
Definition is_ascii_digit (b : Z) : bool := in_range 48 57 b.
Definition is_ascii_lowercase (b : Z) : bool := in_range 97 122 b.
Definition is_ascii_uppercase (b : Z) : bool := in_range 65 90 b.
Definition is_ascii_alphanumeric (b : Z) : bool :=
  is_ascii_lowercase b || is_ascii_uppercase b || is_ascii_digit b.

(** Equality of strings and lists of octets as a [bool]. *)
Definition beq (a b : list Z) : bool := bool_decide (a = b).

(** [slice::chunks]: consecutive pieces of [n] elements, the last one possibly shorter. *)
Fixpoint chunks_fuel {A} (fuel n : nat) (l : list A) : list (list A) :=
  match fuel, l with
  | _, [] => []
  | O, _ => []
  | S f, _ => take n l :: chunks_fuel f n (drop n l)
  end.

Definition chunks {A} (n : nat) (l : list A) : list (list A) := chunks_fuel (length l) n l.

(** [usize::div_ceil] and [Ord::clamp], [u64] and [u32] bounds. *)
Definition div_ceil (a b : nat) : nat := ((a + b - 1) / b)%nat.
Definition clamp (v lo hi : nat) : nat := Nat.min (Nat.max v lo) hi.
Definition U16_MAX : Z := 65535.
Definition U32_MAX : Z := 4294967295.
Definition U64_MAX : Z := 18446744073709551615.

(** ** Automation *)

Create HintDb oac.

#[global] Arguments in_range : simpl never.
#[global] Arguments is_ascii_digit : simpl never.
#[global] Arguments Z.land : simpl never.
#[global] Arguments Z.lor : simpl never.
#[global] Arguments Z.shiftl : simpl never.
#[global] Arguments Z.shiftr : simpl never.
#[global] Arguments Z.div : simpl never.
#[global] Arguments Z.modulo : simpl never.
#[global] Arguments Z.pow : simpl never.

(** [lia] with quotients and remainders turned into equations. *)
Ltac dlia := Z.div_mod_to_equations; lia.

(** Splits every [bool] conjunction, disjunction and comparison in the hypotheses. *)
Ltac bool_hyps :=
  repeat match goal with
  | H : _ && _ = true |- _ => apply andb_true_iff in H; destruct H
  | H : negb _ = true |- _ => apply negb_true_iff in H
  | H : negb _ = false |- _ => apply negb_false_iff in H
  | H : _ || _ = false |- _ => apply orb_false_iff in H; destruct H
  | H : (_ <=? _)%Z = true |- _ => apply Z.leb_le in H
  | H : (_ <? _)%Z = true |- _ => apply Z.ltb_lt in H
  | H : (_ =? _)%Z = true |- _ => apply Z.eqb_eq in H
  | H : (_ <=? _)%Z = false |- _ => apply Z.leb_gt in H
  | H : (_ <? _)%Z = false |- _ => apply Z.ltb_ge in H
  | H : (_ =? _)%Z = false |- _ => apply Z.eqb_neq in H
  | H : bool_decide _ = true |- _ => apply bool_decide_eq_true in H
  | H : bool_decide _ = false |- _ => apply bool_decide_eq_false in H
  end.

(** Splits [Forall] hypotheses on literal lists. *)
Ltac inv_Forall :=
  repeat match goal with
  | H : Forall _ (_ :: _) |- _ => apply Forall_cons in H; destruct H
  | H : Forall _ [] |- _ => clear H
  end.

(** Case analysis on the innermost [match] or [if] of a hypothesis that equates it with a
    constructor; the impossible branches disappear. *)
Ltac case_in H :=
  repeat (match type of H with
  | context [match ?x with _ => _ end] =>
      lazymatch x with
      | context [match _ with _ => _ end] => fail
      | _ => let E := fresh "E" in destruct x eqn:E
      end
  end; try discriminate H); try (injection H as H; subst).

(** ** Shared lemmas *)

Lemma chunks_fuel_enough {A} (n : nat) f g (l : list A) :
  (0 < n)%nat → (length l ≤ f)%nat → (length l ≤ g)%nat →
  chunks_fuel f n l = chunks_fuel g n l.
Proof.
  intros Hn. revert g l. induction f as [|f IH]; intros g l Hf Hg.
  - destruct l; [by destruct g|simpl in Hf; lia].
  - destruct l as [|a l]; [by destruct g|].
    destruct g as [|g]; [simpl in Hg; lia|]. simpl. f_equal.
    destruct n as [|n]; [lia|]. simpl.
    apply IH; rewrite length_drop; simpl in *; lia.
Qed.

Lemma chunks_nil {A} n : @chunks A n [] = [].
Proof. done. Qed.

Lemma chunks_app {A} (n : nat) (c l : list A) :
  (0 < n)%nat → length c = n → chunks n (c ++ l) = c :: chunks n l.
Proof.
  intros Hn Hc. unfold chunks. destruct c as [|a c]; [simpl in Hc; lia|].
  simpl. f_equal.
  - subst n. simpl. f_equal. by rewrite take_app_length.
  - destruct n as [|n]; [lia|]. simpl. injection Hc as Hc.
    replace (drop n (c ++ l)) with l by (subst n; by rewrite drop_app_length).
    apply chunks_fuel_enough; rewrite ?length_app; lia.
Qed.

Lemma chunks_short {A} (n : nat) (l : list A) :
  (0 < length l ≤ n)%nat → chunks n l = [l].
Proof.
  intros [H1 H2]. unfold chunks. destruct l as [|a l]; [simpl in H1; lia|].
  simpl. rewrite take_ge, drop_ge by done. by destruct (length l).
Qed.

Lemma filter_sublist {A} (f : A → bool) l : List.filter f l `sublist_of` l.
Proof. induction l as [|a l IH]; simpl; [done|]. destruct (f a); by constructor. Qed.

Lemma ok_or_Ok {E A} (o : option A) (e : E) a : ok_or o e = Ok a ↔ o = Some a.
Proof. destruct o; simpl; split; congruence. Qed.

Lemma beq_true a b : beq a b = true ↔ a = b.
Proof. apply bool_decide_eq_true. Qed.

Lemma beq_refl a : beq a a = true.
Proof. by apply beq_true. Qed.

Lemma in_range_true lo hi b : in_range lo hi b = true ↔ lo ≤ b ≤ hi.
Proof. unfold in_range. rewrite andb_true_iff, !Z.leb_le. done. Qed.

(** Disjoint bit fields: a bitwise "or" of a multiple of [2^k] and a value below [2^k] is
    their sum. *)
Lemma lor_add k a b :
  0 ≤ k → a mod 2 ^ k = 0 → 0 ≤ b < 2 ^ k → Z.lor a b = a + b.
Proof.
  intros Hk Ha Hb.
  assert (Z.land a b = 0) as Hland.
  { apply Z.bits_inj'. intros i Hi. rewrite Z.land_spec, Z.bits_0.
    destruct (Z.lt_ge_cases i k) as [Hlt|Hge].
    - rewrite <- (Z.mod_pow2_bits_low a k i), Ha, Z.bits_0 by lia. done.
    - rewrite <- (Z.mod_small b (2 ^ k)), (Z.mod_pow2_bits_high b k i) by lia.
      apply andb_false_r. }
  pose proof (Z.add_lor_land a b). lia.
Qed.

Lemma land_mask k x : 0 ≤ k → Z.land x (2 ^ k - 1) = x mod 2 ^ k.
Proof. intros Hk. rewrite <- Z.land_ones by done. by rewrite Z.ones_equiv. Qed.

Lemma Forall_forallb {A} (p : A → bool) l : forallb p l = true ↔ Forall (λ x, p x = true) l.
Proof. rewrite forallb_forall, Forall_forall. by setoid_rewrite list_elem_of_In. Qed.

(** Induction by pieces of [n] elements, the recursion of [chunks]. *)
Lemma chunk_ind {A} (n : nat) (Hn : (0 < n)%nat) (P : list A → Prop) :
  P [] → (∀ l, (0 < length l < n)%nat → P l) →
  (∀ c l, length c = n → P l → P (c ++ l)) → ∀ l, P l.
Proof.
  intros H0 Hs Hc l.
  remember (length l) as m eqn:Hm. revert l Hm.
  induction m as [m IH] using (well_founded_induction lt_wf). intros l ->.
  destruct (decide (length l = 0)%nat) as [->%length_zero_iff_nil|]; [done|].
  destruct (decide (length l < n)%nat); [apply Hs; lia|].
  rewrite <- (take_drop n l). apply Hc; [rewrite length_take; lia|].
  eapply IH; [|done]. rewrite length_drop. lia.
Qed.

(** ** Positional notation

    The digits of a value in base [B], most significant first, and the value of a list of
    digits: big-endian octets ([B = 256]) and Crockford characters ([B = 32]). *)
Definition be_digits (B : Z) (n : nat) (v : Z) : list Z :=
  map (λ k, (v / B ^ Z.of_nat k) mod B) (rev (seq 0 n)).

Definition be_value (B : Z) (l : list Z) : Z := foldl (λ a d, a * B + d) 0 l.

Lemma be_digits_S B n v :
  0 < B → be_digits B (S n) v = be_digits B n (v / B) ++ [v mod B].
Proof.
  intros HB. unfold be_digits.
  change (seq 0 (S n)) with (0%nat :: seq 1 n). rewrite <- seq_shift. simpl.
  rewrite map_app. f_equal.
  - rewrite <- map_rev, map_map. apply map_ext_in. intros k _.
    rewrite Nat2Z.inj_succ, Z.pow_succ_r, Z.div_div by (try apply Z.pow_pos_nonneg; lia). done.
  - simpl. change (B ^ Z.of_nat 0) with 1. by rewrite Z.div_1_r.
Qed.

Lemma be_value_snoc B l d : be_value B (l ++ [d]) = be_value B l * B + d.
Proof. unfold be_value. by rewrite foldl_snoc. Qed.

Lemma length_be_digits B n v : length (be_digits B n v) = n.
Proof. unfold be_digits. by rewrite length_map, length_rev, length_seq. Qed.

Lemma be_digits_bound B n v : 0 < B → Forall (λ d, 0 ≤ d < B) (be_digits B n v).
Proof.
  intros HB. apply Forall_map, Forall_true. intros k. simpl. apply Z.mod_pos_bound. lia.
Qed.

Lemma be_value_digits B n v :
  0 < B → be_value B (be_digits B n v) = v mod B ^ Z.of_nat n.
Proof.
  intros HB. revert v. induction n as [|n IH]; intros v.
  - change (B ^ Z.of_nat 0) with 1. by rewrite Z.mod_1_r.
  - rewrite be_digits_S, be_value_snoc, IH, Nat2Z.inj_succ, Z.pow_succ_r by lia.
    rewrite Z.rem_mul_r by (try apply Z.pow_nonzero; try apply Z.pow_pos_nonneg; lia). lia.
Qed.

Lemma be_digits_value B l :
  0 < B → Forall (λ d, 0 ≤ d < B) l → be_digits B (length l) (be_value B l) = l.
Proof.
  intros HB. induction l as [|d l IH] using rev_ind; intros Hl; [done|].
  apply Forall_app in Hl as [Hl Hd]. apply Forall_cons in Hd as [Hd _].
  rewrite length_app, Nat.add_comm. simpl. rewrite be_digits_S, be_value_snoc by done.
  rewrite Z.div_add_l, Z.div_small, Z.add_0_r, IH by (done || lia).
  by rewrite Z.add_comm, Z.mod_add, Z.mod_small by lia.
Qed.

Lemma be_value_bound B l :
  0 < B → Forall (λ d, 0 ≤ d < B) l → 0 ≤ be_value B l < B ^ Z.of_nat (length l).
Proof.
  intros HB Hl.
  assert (be_value B l = be_value B l mod B ^ Z.of_nat (length l)) as ->
    by (rewrite <- be_value_digits, be_digits_value; done).
  apply Z.mod_pos_bound, Z.pow_pos_nonneg; lia.
Qed.

Lemma be_value_cons B d l :
  be_value B (d :: l) = d * B ^ Z.of_nat (length l) + be_value B l.
Proof.
  induction l as [|x l IH] using rev_ind; [unfold be_value; simpl; change (B ^ Z.of_nat 0) with 1; lia|].
  rewrite app_comm_cons, !be_value_snoc, IH, length_app, Nat.add_comm. simpl length.
  rewrite Nat2Z.inj_succ, Z.pow_succ_r by lia. lia.
Qed.

(** ** Inversion of the result and option monads *)

Lemma result_bind_Ok {E A B} (m : result E A) (k : A → result E B) b :
  m ≫= k = Ok b ↔ ∃ a, m = Ok a ∧ k a = Ok b.
Proof. destruct m; simpl; split; naive_solver. Qed.

Lemma option_bind_Some {A B} (m : option A) (k : A → option B) b :
  m ≫= k = Some b ↔ ∃ a, m = Some a ∧ k a = Some b.
Proof. destruct m; simpl; split; naive_solver. Qed.

(** Splits a hypothesis that a sequence of binds succeeded into its steps. *)
Ltac inv_binds :=
  repeat match goal with
  | H : mbind _ _ = Ok _ |- _ => apply result_bind_Ok in H as (? & ? & H)
  | H : mbind _ _ = Some _ |- _ => apply option_bind_Some in H as (? & ? & H)
  | H : ok_or _ _ = Ok _ |- _ => apply ok_or_Ok in H
  | H : Ok _ = Ok _ |- _ => injection H as H; try subst
  | H : Some _ = Some _ |- _ => injection H as H; try subst
  | H : (if ?b then Err _ else _) = Ok _ |- _ => destruct b eqn:?; [discriminate H|]
  | H : (if ?b then None else _) = Some _ |- _ => destruct b eqn:?; [discriminate H|]
  end.
