(* ===== verification/Ordered.v ===== *)
(** * Ordered maps and sets

    Rust's [BTreeMap] and [BTreeSet] are stdpp's [gmap] and [gset] together with the order of
    their keys ([Ord], derived): [first] and [last] are a set's least and greatest elements,
    [items] a map's entries in key order. *)

From Stdlib Require Import Sorting.Sorted.
From stdpp Require Import sorting.
From S2P Require Import Prelude.

(** ** Total orders as [bool] functions *)

Class Order (A : Type) := leb : A → A → bool.

Class OrderLaws (A : Type) `{Order A} := {
  leb_total (a b : A) : leb a b = true ∨ leb b a = true;
  leb_trans (a b c : A) : leb a b = true → leb b c = true → leb a c = true;
  leb_antisym (a b : A) : leb a b = true → leb b a = true → a = b }.

#[export] Instance Z_order : Order Z := Z.leb.
#[export] Instance Z_order_laws : OrderLaws Z.
Proof. split; unfold leb, Z_order; intros *; rewrite ?Z.leb_le; lia. Qed.

(** Derived orders: strings octet by octet, [None] below [Some], pairs lexicographically. *)
Fixpoint list_leb {A} `{Order A} `{EqDecision A} (a b : list A) : bool :=
  match a, b with
  | [], _ => true
  | _ :: _, [] => false
  | x :: a, y :: b => if decide (x = y) then list_leb a b else leb x y
  end.
#[export] Instance list_order {A} `{Order A} `{EqDecision A} : Order (list A) := list_leb.

#[export] Instance option_order {A} `{Order A} : Order (option A) := λ a b,
  match a, b with None, _ => true | Some _, None => false | Some x, Some y => leb x y end.

#[export] Instance prod_order {A B} `{Order A} `{EqDecision A} `{Order B} : Order (A * B) := λ p q,
  if decide (p.1 = q.1) then leb p.2 q.2 else leb p.1 q.1.

#[export] Instance list_order_laws {A} `{EqDecision A} `{OrderLaws A} : OrderLaws (list A).
Proof.
  split; unfold leb, list_order.
  - induction a as [|x a IH]; intros [|y b]; simpl; auto.
    destruct (decide (x = y)), (decide (y = x)); try congruence; auto. apply leb_total.
  - induction a as [|x a IH]; intros [|y b] [|z c]; simpl; try done.
    destruct (decide (x = y)), (decide (y = z)), (decide (x = z));
      intros; simplify_eq; eauto using leb_trans. by destruct n; apply leb_antisym.
  - induction a as [|x a IH]; intros [|y b]; simpl; try done.
    destruct (decide (x = y)), (decide (y = x)); try congruence; intros.
    + f_equal; auto. + by destruct n; apply leb_antisym.
Qed.

#[export] Instance option_order_laws {A} `{OrderLaws A} : OrderLaws (option A).
Proof.
  split; unfold leb, option_order.
  - intros [a|] [b|]; auto. apply leb_total.
  - intros [a|] [b|] [c|]; try done. apply leb_trans.
  - intros [a|] [b|]; try done. intros. f_equal. by apply leb_antisym.
Qed.

#[export] Instance prod_order_laws {A B} `{EqDecision A} `{OrderLaws A} `{OrderLaws B} : OrderLaws (A * B).
Proof.
  split; unfold leb, prod_order.
  - intros [a a'] [b b']; simpl. destruct (decide (a = b)), (decide (b = a)); try congruence; apply leb_total.
  - intros [a a'] [b b'] [c c']; simpl.
    destruct (decide (a = b)), (decide (b = c)), (decide (a = c));
      intros; simplify_eq; eauto using leb_trans. by destruct n; apply leb_antisym.
  - intros [a a'] [b b']; simpl. destruct (decide (a = b)), (decide (b = a)); try congruence; intros; simplify_eq.
    + f_equal. by apply leb_antisym. + by destruct n; apply leb_antisym.
Qed.

(** ** Least and greatest elements *)

Section Extremes.
Context {A : Type} `{OrderLaws A}.

Definition pick_min (x : A) (acc : option A) : option A :=
  match acc with Some y => if leb x y then Some x else Some y | None => Some x end.

(** [Iterator::min] of a list; [max] is the same in the reversed order. *)
Definition list_min (l : list A) : option A := foldr pick_min None l.

Definition pick_max (x : A) (acc : option A) : option A :=
  match acc with Some y => if leb y x then Some x else Some y | None => Some x end.

Definition list_max (l : list A) : option A := foldr pick_max None l.

Lemma list_min_Some l m : list_min l = Some m → m ∈ l ∧ ∀ x, x ∈ l → leb m x = true.
Proof.
  revert m. induction l as [|a l IH]; intros m; [done|]. simpl.
  assert (leb a a = true) by (destruct (leb_total a a); done).
  destruct (list_min l) as [y|] eqn:E; simpl.
  - destruct (IH y eq_refl) as [Hy Hl]. destruct (leb a y) eqn:Ea; intros [= <-].
    + split; [left|]. intros x [->|Hx]%elem_of_cons; eauto using leb_trans.
    + split; [by right|]. intros x [->|Hx]%elem_of_cons; [|auto]. destruct (leb_total a y); congruence.
  - intros [= <-]. split; [left|]. intros x [->|Hx]%elem_of_cons; [done|].
    destruct l as [|b l]; [by apply elem_of_nil in Hx|]. simpl in E. unfold pick_min in E. repeat case_match; done.
Qed.

Lemma list_min_None l : list_min l = None → l = [].
Proof. destruct l as [|a l]; [done|]. simpl. unfold pick_min. repeat case_match; done. Qed.

Lemma list_max_Some l m : list_max l = Some m → m ∈ l ∧ ∀ x, x ∈ l → leb x m = true.
Proof.
  revert m. induction l as [|a l IH]; intros m; [done|]. simpl.
  assert (leb a a = true) by (destruct (leb_total a a); done).
  destruct (list_max l) as [y|] eqn:E; simpl.
  - destruct (IH y eq_refl) as [Hy Hl]. destruct (leb y a) eqn:Ea; intros [= <-].
    + split; [left|]. intros x [->|Hx]%elem_of_cons; eauto using leb_trans.
    + split; [by right|]. intros x [->|Hx]%elem_of_cons; [|auto]. destruct (leb_total a y); congruence.
  - intros [= <-]. split; [left|]. intros x [->|Hx]%elem_of_cons; [done|].
    destruct l as [|b l]; [by apply elem_of_nil in Hx|]. simpl in E. unfold pick_max in E. repeat case_match; done.
Qed.

Lemma list_max_None l : list_max l = None → l = [].
Proof. destruct l as [|a l]; [done|]. simpl. unfold pick_max. repeat case_match; done. Qed.
End Extremes.

Section Sets.
Context {A : Type} `{Countable A} `{OrderLaws A}.

(** [BTreeSet::first] and [BTreeSet::last]. *)
Definition first (s : gset A) : option A := list_min (elements s).
Definition last (s : gset A) : option A := list_max (elements s).

Lemma first_Some s m : first s = Some m → m ∈ s ∧ ∀ x, x ∈ s → leb m x = true.
Proof.
  intros [Hm Hl]%list_min_Some. split; [by apply elem_of_elements|].
  intros x Hx. by apply Hl, elem_of_elements.
Qed.

Lemma first_None s : first s = None → s = ∅.
Proof. intros Hn%list_min_None. apply elements_empty_inv in Hn. by apply leibniz_equiv. Qed.

Lemma last_Some s m : last s = Some m → m ∈ s ∧ ∀ x, x ∈ s → leb x m = true.
Proof.
  intros [Hm Hl]%list_max_Some. split; [by apply elem_of_elements|].
  intros x Hx. by apply Hl, elem_of_elements.
Qed.

Lemma last_None s : last s = None → s = ∅.
Proof. intros Hn%list_max_None. apply elements_empty_inv in Hn. by apply leibniz_equiv. Qed.
End Sets.

(** ** Maps in key order *)

Section Maps.
Context {K V : Type} `{Countable K} `{Order K}.

Definition key_le (p q : K * V) : Prop := leb p.1 q.1 = true.
#[global] Instance key_le_dec p q : Decision (key_le p q) := bool_eq_dec _ _.

(** The entries, keys and values of a [BTreeMap], in key order. *)
Definition items (m : gmap K V) : list (K * V) := merge_sort key_le (map_to_list m).
Definition keys (m : gmap K V) : list K := (items m).*1.
Definition values (m : gmap K V) : list V := (items m).*2.

Lemma items_perm m : items m ≡ₚ map_to_list m.
Proof. apply merge_sort_Permutation. Qed.

Lemma elem_of_items m k v : (k, v) ∈ items m ↔ m !! k = Some v.
Proof. by rewrite items_perm, elem_of_map_to_list. Qed.

Lemma elem_of_keys m k : k ∈ keys m ↔ is_Some (m !! k).
Proof.
  unfold keys. rewrite list_elem_of_fmap. split.
  - intros ([k' v] & -> & Hv%elem_of_items). by exists v.
  - intros [v Hv]. exists (k, v). split; [done|]. by apply elem_of_items.
Qed.

Lemma elem_of_values m v : v ∈ values m ↔ ∃ k, m !! k = Some v.
Proof.
  unfold values. rewrite list_elem_of_fmap. split.
  - intros ([k v'] & -> & Hv%elem_of_items). by exists k.
  - intros [k Hk]. exists (k, v). split; [done|]. by apply elem_of_items.
Qed.

Lemma NoDup_keys m : NoDup (keys m).
Proof. unfold keys. rewrite items_perm. apply NoDup_fst_map_to_list. Qed.

Context `{!OrderLaws K}.

#[local] Instance key_le_total : Total key_le.
Proof. intros p q. apply leb_total. Qed.

#[local] Instance key_le_trans : Transitive key_le.
Proof. intros p q r. apply leb_trans. Qed.

Lemma items_sorted m : StronglySorted key_le (items m).
Proof. apply Sorted_StronglySorted; [apply _|]. apply Sorted_merge_sort, _. Qed.

(** The first value is the one of the least key. *)
Lemma head_values m v :
  head (values m) = Some v → ∃ k, m !! k = Some v ∧ ∀ k' v', m !! k' = Some v' → leb k k' = true.
Proof.
  unfold values. pose proof (items_sorted m) as Hs. pose proof (elem_of_items m) as He.
  destruct (items m) as [|[k v'] l]; simpl; [done|]. intros [= ->]. exists k. split.
  - apply He. left.
  - intros k' v' [[= -> ->]|Hin]%He%elem_of_cons; [by destruct (leb_total k k)|].
    apply StronglySorted_inv in Hs as [_ Hs]. rewrite Forall_forall in Hs. apply (Hs _ Hin).
Qed.

Lemma head_values_None m : head (values m) = None → m = ∅.
Proof.
  unfold values. intros Hn. destruct (items m) as [|[k v] l] eqn:E; [|done].
  apply map_to_list_empty_iff. apply Permutation_nil. by rewrite <- items_perm, E.
Qed.
End Maps.

(** [BTreeSet] in order. *)
Definition elem_le {A} `{Order A} (a b : A) : Prop := leb a b = true.
#[export] Instance elem_le_dec {A} `{Order A} (a b : A) : Decision (elem_le a b) := bool_eq_dec _ _.

Definition set_items {A} `{Countable A} `{Order A} (s : gset A) : list A :=
  merge_sort elem_le (elements s).

Lemma elem_of_set_items {A} `{Countable A} `{Order A} (s : gset A) x : x ∈ set_items s ↔ x ∈ s.
Proof. unfold set_items. by rewrite merge_sort_Permutation, elem_of_elements. Qed.

(** [Iterator::max_by_key]: the last of the greatest. *)
Definition max_by_key {A B} `{Order B} (f : A → B) (l : list A) : option A :=
  foldl (λ acc x, match acc with
                  | Some y => if leb (f y) (f x) then Some x else Some y
                  | None => Some x
                  end) None l.

Lemma max_by_key_elem {A B} `{Order B} (f : A → B) l x : max_by_key f l = Some x → x ∈ l.
Proof.
  unfold max_by_key. assert (∀ acc, foldl (λ acc x, match acc with Some y => if leb (f y) (f x) then Some x else Some y
    | None => Some x end) acc l = Some x → x ∈ l ∨ acc = Some x) as Hgen.
  { induction l as [|a l IH]; intros acc Hm; simpl in Hm; [by right|]. apply IH in Hm as [Hm|Hm]; [left; by right|].
    destruct acc as [y|]; [|injection Hm as ->; left; left].
    destruct (leb _ _); injection Hm as ->; [left; left|by right]. }
  intros Hm. by apply Hgen in Hm as [|].
Qed.

Lemma max_by_key_max {A B} `{OrderLaws B} (f : A → B) l x :
  max_by_key f l = Some x → ∀ y, y ∈ l → leb (f y) (f x) = true.
Proof.
  unfold max_by_key. assert (∀ z : B, leb z z = true) as Hrefl by (intros z; by destruct (leb_total z z)).
  assert (∀ acc, foldl (λ acc x, match acc with Some y => if leb (f y) (f x) then Some x else Some y
    | None => Some x end) acc l = Some x →
    (∀ y, y ∈ l → leb (f y) (f x) = true) ∧ ∀ y, acc = Some y → leb (f y) (f x) = true) as Hgen.
  { induction l as [|a l IH]; intros acc Hm; simpl in Hm.
    - split; [intros y Hy; by apply elem_of_nil in Hy|]. intros y ->. injection Hm as ->. done.
    - apply IH in Hm as [Hl Ha]. destruct acc as [y|].
      + destruct (leb (f y) (f a)) eqn:E; specialize (Ha _ eq_refl).
        * split; [intros z [->|Hz]%elem_of_cons; auto|]. intros z [= <-]. eauto using leb_trans.
        * assert (leb (f a) (f y) = true) by (destruct (leb_total (f a) (f y)); congruence).
          split; [intros z [->|Hz]%elem_of_cons; eauto using leb_trans|]. by intros z [= <-].
      + specialize (Ha _ eq_refl). split; [intros z [->|Hz]%elem_of_cons; auto|done]. }
  intros Hm. exact (proj1 (Hgen None Hm)).
Qed.

(** ** Hash maps *)

(** The order a [HashMap] is iterated in, which the language leaves open. *)
Class MapOrder := {
  map_items : ∀ {K V : Type} `{Countable K}, gmap K V → list (K * V);
  map_items_perm : ∀ {K V : Type} `{Countable K} (m : gmap K V), map_items m ≡ₚ map_to_list m }.

Definition map_keys `{MapOrder} {K V : Type} `{Countable K} (m : gmap K V) : list K := map fst (map_items m).

Lemma elem_of_map_items `{MapOrder} {K V : Type} `{Countable K} (m : gmap K V) k v : (k, v) ∈ map_items m ↔ m !! k = Some v.
Proof. by rewrite map_items_perm, elem_of_map_to_list. Qed.

Lemma elem_of_map_keys `{MapOrder} {K V : Type} `{Countable K} (m : gmap K V) k : k ∈ map_keys m ↔ is_Some (m !! k).
Proof.
  unfold map_keys. rewrite list_elem_of_fmap. split.
  - intros ([k' v] & -> & Hi%elem_of_map_items). by exists v.
  - intros [v Hv]. exists (k, v). split; [done|]. by apply elem_of_map_items.
Qed.

Lemma NoDup_map_keys `{MapOrder} {K V : Type} `{Countable K} (m : gmap K V) : NoDup (map_keys m).
Proof. unfold map_keys. change (map fst) with (fmap (M := list) (@fst K V)). rewrite map_items_perm. apply NoDup_fst_map_to_list. Qed.

(** ** Stable sorting by a key

    What [slice::sort], [slice::sort_by_key] and [Vec::dedup] do, over the orders of
    [Ordered]: the sorted list holds the same elements, in the order of their keys, those of
    equal keys in their old order. *)

Section Sort.
Context {A K : Type} `{Order K} (key : A → K).

Fixpoint insert_by_key (x : A) (l : list A) : list A :=
  match l with
  | [] => [x]
  | y :: r => if leb (key x) (key y) then x :: l else y :: insert_by_key x r
  end.

(** [slice::sort_by_key]: stable. *)
Fixpoint sort_by_key (l : list A) : list A :=
  match l with [] => [] | x :: r => insert_by_key x (sort_by_key r) end.

Lemma insert_by_key_perm x l : insert_by_key x l ≡ₚ x :: l.
Proof. induction l as [|y l IH]; cbn; [done|]. destruct (leb _ _); [done|]. rewrite IH. apply perm_swap. Qed.

Lemma sort_by_key_perm l : sort_by_key l ≡ₚ l.
Proof. induction l as [|x l IH]; cbn; [done|]. by rewrite insert_by_key_perm, IH. Qed.

Lemma insert_by_key_Forall (P : A → Prop) x l : P x → Forall P l → Forall P (insert_by_key x l).
Proof. intros Hx Hl. rewrite insert_by_key_perm. by constructor. Qed.

(** What is in order already stays as it is. *)
Lemma sort_by_key_fix l : StronglySorted (λ x y, leb (key x) (key y) = true) l → sort_by_key l = l.
Proof.
  induction 1 as [|x l Hl IH Hx]; cbn; [done|]. rewrite IH. destruct Hx as [|y r Hy _]; cbn; [done|]. by rewrite Hy.
Qed.

Context `{!OrderLaws K}.

Lemma sort_by_key_sorted l : StronglySorted (λ x y, leb (key x) (key y) = true) (sort_by_key l).
Proof.
  induction l as [|x l IH]; cbn; [constructor|]. induction IH as [|y r Hl IHl Hy]; cbn; [by repeat constructor|].
  destruct (leb (key x) (key y)) eqn:E.
  - constructor; [by constructor|]. constructor; [done|]. eapply Forall_impl; [exact Hy|]. intros z Hz. cbn in Hz |- *.
    by eapply leb_trans.
  - constructor; [done|]. apply insert_by_key_Forall; [|done]. destruct (leb_total (key x) (key y)) as [|]; congruence.
Qed.

Lemma sort_by_key_idem l : sort_by_key (sort_by_key l) = sort_by_key l.
Proof. apply sort_by_key_fix, sort_by_key_sorted. Qed.

(** Lists that hold the same elements under distinct keys sort to the same list. *)
Lemma sorted_unique l k :
  StronglySorted (λ x y, leb (key x) (key y) = true) l → StronglySorted (λ x y, leb (key x) (key y) = true) k →
  NoDup (map key l) → l ≡ₚ k → l = k.
Proof.
  intros Hl. revert k. induction Hl as [|x l Hl IH Hx]; intros k Hk Hnd Hp; [by apply Permutation_nil_l in Hp|].
  destruct Hk as [|y k Hk Hy]; [by apply Permutation_nil_r in Hp|].
  assert (x = y) as ->.
  { assert (x ∈ y :: k) as [->|Hin]%elem_of_cons by (rewrite <- Hp; left); [done|].
    assert (y ∈ x :: l) as [->|Hin']%elem_of_cons by (rewrite Hp; left); [done|].
    rewrite Forall_forall in Hx, Hy. cbn in Hnd. apply NoDup_cons in Hnd as [Hnd _]. destruct Hnd.
    rewrite (leb_antisym (key x) (key y)) by auto. apply list_elem_of_In, in_map, list_elem_of_In. done. }
  f_equal. cbn in Hnd. apply NoDup_cons in Hnd as [_ Hnd]. apply IH; [done|done|]. by apply Permutation_cons_inv in Hp.
Qed.

Lemma sort_by_key_unique l k : NoDup (map key l) → l ≡ₚ k → sort_by_key l = sort_by_key k.
Proof.
  intros Hnd Hp. apply sorted_unique; [apply sort_by_key_sorted..| |].
  - by rewrite sort_by_key_perm.
  - by rewrite !sort_by_key_perm.
Qed.
End Sort.

(** [slice::sort]. *)
Definition sort {A} `{Order A} (l : list A) : list A := sort_by_key id l.

(** [Vec::dedup]: of each run of equal elements, the first. *)
Fixpoint dedup {A} `{EqDecision A} (l : list A) : list A :=
  match l with
  | x :: (y :: _) as r => if bool_decide (x = y) then dedup r else x :: dedup r
  | _ => l
  end.

Section Dedup.
Context {A : Type} `{EqDecision A}.

Lemma dedup_cons x y (l : list A) : dedup (x :: y :: l) = if bool_decide (x = y) then dedup (y :: l) else x :: dedup (y :: l).
Proof. done. Qed.

Lemma elem_of_dedup (l : list A) x : x ∈ dedup l ↔ x ∈ l.
Proof.
  induction l as [|a [|b l] IH]; [done|done|]. rewrite dedup_cons. case_bool_decide as E.
  - subst. rewrite IH. rewrite !elem_of_cons. tauto.
  - rewrite elem_of_cons, IH. by rewrite (elem_of_cons (b :: l)).
Qed.

Lemma dedup_Forall (P : A → Prop) l : Forall P l → Forall P (dedup l).
Proof. rewrite !Forall_forall. intros Hl x Hx. apply Hl. by apply elem_of_dedup. Qed.

(** On a sorted list nothing is left twice, and the order stays. *)
Lemma dedup_sorted `{OrderLaws A} (l : list A) :
  StronglySorted (λ x y, leb x y = true) l → NoDup (dedup l) ∧ StronglySorted (λ x y, leb x y = true) (dedup l).
Proof.
  induction 1 as [|a l Hl [IH1 IH2] Ha]; [split; constructor|]. destruct l as [|b l]; [split; repeat constructor; set_solver|].
  rewrite dedup_cons. case_bool_decide as E; [done|].
  assert (Forall (λ y, leb a y = true) (dedup (b :: l))) as Hd by (by apply dedup_Forall).
  split; constructor; try done. intros Hin. rewrite elem_of_dedup in Hin.
  apply Forall_cons in Ha as [Hab _]. inversion Hl as [|? ? _ Hb]; subst. rewrite Forall_forall in Hb.
  apply elem_of_cons in Hin as [->|Hin]; [done|]. apply E. apply leb_antisym; [done|]. by apply Hb.
Qed.

Lemma dedup_fix (l : list A) : NoDup l → dedup l = l.
Proof.
  induction l as [|a [|b l] IH]; [done|done|]. intros [Ha Hl]%NoDup_cons. rewrite dedup_cons, bool_decide_false by set_solver.
  by rewrite IH.
Qed.
End Dedup.
