(* ===== verification/Base64url.v ===== *)
(** * Unpadded base64url ([core/src/base64url.rs])

    The encoder and the strict fixed-length decoder used for nonces, signatures and public
    keys.  The theorems show that decoding inverts encoding, and that the decoder accepts
    exactly one spelling of each octet string. *)

From S2P Require Import Prelude.

Definition ALPHABET : list Z :=
  bs "ABCDEFGHIJKLMNOPQRSTUVWXYZabcdefghijklmnopqrstuvwxyz0123456789-_".

(** The 24-bit word of a chunk of at most three octets: the fold of [encode]. *)
Definition chunk_word (chunk : list Z) : Z :=
  foldl (λ a '(k, b), Z.lor a (Z.shiftl b (16 - 8 * Z.of_nat k))) 0 (imap pair chunk).

(** The characters [encode] pushes for one chunk: [0..=chunk.len()]. *)
Definition encode_chunk (chunk : list Z) : list Z :=
  map (λ k, default 0
    (ALPHABET !! Z.to_nat (Z.land (Z.shiftr (chunk_word chunk) (18 - 6 * Z.of_nat k)) 63)))
    (seq 0 (S (length chunk))).

Definition encode (octets : list Z) : list Z := mjoin (map encode_chunk (chunks 3 octets)).

(** The value of one character of the alphabet. *)
Definition value (c : Z) : option Z :=
  if in_range 65 90 c then Some (c - 65)
  else if in_range 97 122 c then Some (c - 97 + 26)
  else if in_range 48 57 c then Some (c - 48 + 52)
  else if c =? 45 then Some 62
  else if c =? 95 then Some 63
  else None.

(** The inner loop of [decode_exact] over one chunk, with the early return of [value(c)?]. *)
Fixpoint decode_word (k : nat) (chunk : list Z) (n : Z) : option Z :=
  match chunk with
  | [] => Some n
  | c :: rest =>
      v ← value c;
      decode_word (S k) rest (Z.lor n (Z.shiftl v (18 - 6 * Z.of_nat k)))
  end.

(** One turn of the outer loop: the octets the chunk writes, or [None] for a character
    outside the alphabet or non-zero unused bits.  A chunk is never empty. *)
Definition decode_chunk (chunk : list Z) : option (list Z) :=
  n ← decode_word 0 chunk 0;
  let octets := (length chunk - 1)%nat in
  let unused := 24 - 8 * Z.of_nat octets in
  if (unused <? 24) && negb (Z.land n (Z.shiftl 1 unused - 1) =? 0) then None
  else Some (map (λ k, Z.shiftr n (16 - 8 * Z.of_nat k) mod 256) (seq 0 octets)).

(** The outer loop; [out] is the part of the output array written so far. *)
Fixpoint decode_loop (cs : list (list Z)) (out : list Z) : option (list Z) :=
  match cs with
  | [] => Some out
  | chunk :: rest => o ← decode_chunk chunk; decode_loop rest (out ++ o)
  end.

Definition decode_exact (N : nat) (s : list Z) : option (list Z) :=
  if negb (bool_decide (length s = div_ceil (N * 4) 3)) then None
  else
    out ← decode_loop (chunks 4 s) [];
    then_some (bool_decide (length out = N)) out.

(** ** One chunk *)

(** Six-bit fields of a word, as quotients and remainders. *)
Lemma sextet n k : 0 ≤ k → Z.land (Z.shiftr n k) 63 = (n / 2 ^ k) mod 64.
Proof. intros Hk. rewrite Z.shiftr_div_pow2 by done. by apply (land_mask 6). Qed.

Lemma alphabet_value v :
  0 ≤ v < 64 → ∃ c, ALPHABET !! Z.to_nat v = Some c ∧ value c = Some v.
Proof.
  intros Hv.
  assert (∀ i, (i < 64)%nat →
    match ALPHABET !! i with
    | Some c => value c = Some (Z.of_nat i) | None => False end) as Hall.
  { intros i Hi. do 64 (destruct i as [|i]; [by vm_compute|]). lia. }
  specialize (Hall (Z.to_nat v) ltac:(lia)).
  destruct (ALPHABET !! Z.to_nat v) as [c|]; [|done].
  exists c. split; [done|]. rewrite Hall. f_equal. lia.
Qed.

Lemma value_alphabet c v :
  value c = Some v → 0 ≤ v < 64 ∧ ALPHABET !! Z.to_nat v = Some c.
Proof.
  unfold value, in_range. intros H.
  assert (0 ≤ v < 64 ∧ (c = 45 ∨ c = 95 ∨ 48 ≤ c ≤ 57 ∨ 65 ≤ c ≤ 90 ∨ 97 ≤ c ≤ 122)) as [Hv Hc].
  { case_in H; bool_hyps; lia. }
  split; [done|].
  destruct (alphabet_value v Hv) as (c' & Hc' & Hval).
  assert (c = c') as ->; [|done].
  unfold value, in_range in Hval. case_in H; case_in Hval; bool_hyps; lia.
Qed.

Definition sextet_char (v : Z) : Z := default 0 (ALPHABET !! Z.to_nat v).

Lemma value_sextet_char v : 0 ≤ v < 64 → value (sextet_char v) = Some v.
Proof.
  intros Hv. destruct (alphabet_value v Hv) as (c & Hc & Hval).
  unfold sextet_char. by rewrite Hc.
Qed.

Lemma sextet_char_value c v : value c = Some v → sextet_char v = c.
Proof. intros [_ H]%value_alphabet. unfold sextet_char. by rewrite H. Qed.

(** The word of a chunk in arithmetic form. *)
Lemma chunk_word_1 a : chunk_word [a] = a * 65536.
Proof. unfold chunk_word; simpl. rewrite Z.lor_0_l, Z.shiftl_mul_pow2 by lia. lia. Qed.

Lemma chunk_word_2 a b : is_u8 a → is_u8 b → chunk_word [a; b] = a * 65536 + b * 256.
Proof.
  unfold is_u8. intros Ha Hb. unfold chunk_word; simpl.
  rewrite !Z.lor_0_l, !Z.shiftl_mul_pow2 by lia. simpl.
  rewrite (lor_add 16); [lia|lia|apply Z.mod_mul; lia|lia].
Qed.

Lemma chunk_word_3 a b c :
  is_u8 a → is_u8 b → is_u8 c → chunk_word [a; b; c] = a * 65536 + b * 256 + c.
Proof.
  unfold is_u8. intros Ha Hb Hc.
  change (chunk_word [a; b; c]) with (Z.lor (chunk_word [a; b]) (Z.shiftl c 0)).
  rewrite chunk_word_2 by done. rewrite Z.shiftl_0_r, (lor_add 8); [lia|lia| |lia].
  change (2 ^ 8) with 256. replace (a * 65536 + b * 256) with ((a * 256 + b) * 256) by lia.
  apply Z.mod_mul; lia.
Qed.

Lemma encode_chunk_sextets chunk :
  encode_chunk chunk =
  map (λ k, sextet_char ((chunk_word chunk / 2 ^ (18 - 6 * Z.of_nat k)) mod 64))
    (seq 0 (S (length chunk))) ∨ (3 < length chunk)%nat.
Proof.
  destruct (decide (3 < length chunk)%nat) as [|Hl]; [by right|left].
  unfold encode_chunk. apply map_ext_in. intros k Hk%in_seq.
  unfold sextet_char. by rewrite sextet by lia.
Qed.

(** The word [decode_word] reads from characters with known values. *)
Lemma decode_word_2 v0 v1 :
  0 ≤ v0 < 64 → 0 ≤ v1 < 64 →
  decode_word 0 (map sextet_char [v0; v1]) 0 = Some (v0 * 262144 + v1 * 4096).
Proof.
  intros H0 H1. cbn -[Z.shiftl Z.lor sextet_char]. rewrite !value_sextet_char by done.
  cbn -[Z.shiftl Z.lor sextet_char].
  rewrite Z.lor_0_l, !Z.shiftl_mul_pow2 by lia. simpl.
  rewrite (lor_add 18); [f_equal; lia|lia|apply Z.mod_mul; lia|lia].
Qed.

Lemma decode_word_snoc k s c n w v :
  decode_word k s n = Some w → value c = Some v →
  decode_word k (s ++ [c]) n = Some (Z.lor w (Z.shiftl v (18 - 6 * Z.of_nat (k + length s)))).
Proof.
  revert k n. induction s as [|d s IH]; intros k n Hw Hv; simpl in *.
  - injection Hw as ->. rewrite Hv. simpl. by rewrite Nat.add_0_r.
  - destruct (value d); [|done]. simpl in *. rewrite (IH _ _ Hw Hv).
    by replace (S k + length s)%nat with (k + S (length s))%nat by lia.
Qed.

Lemma decode_word_3 v0 v1 v2 :
  0 ≤ v0 < 64 → 0 ≤ v1 < 64 → 0 ≤ v2 < 64 →
  decode_word 0 (map sextet_char [v0; v1; v2]) 0 = Some (v0 * 262144 + v1 * 4096 + v2 * 64).
Proof.
  intros H0 H1 H2.
  change (map sextet_char [v0; v1; v2]) with (map sextet_char [v0; v1] ++ [sextet_char v2]).
  rewrite (decode_word_snoc _ _ _ _ _ _ (decode_word_2 _ _ H0 H1) (value_sextet_char _ H2)).
  simpl. rewrite Z.shiftl_mul_pow2 by lia. simpl. rewrite (lor_add 12); try lia.
  - f_equal; lia.
  - change (2 ^ 12) with 4096. dlia.
Qed.

Lemma decode_word_4 v0 v1 v2 v3 :
  0 ≤ v0 < 64 → 0 ≤ v1 < 64 → 0 ≤ v2 < 64 → 0 ≤ v3 < 64 →
  decode_word 0 (map sextet_char [v0; v1; v2; v3]) 0 =
  Some (v0 * 262144 + v1 * 4096 + v2 * 64 + v3).
Proof.
  intros H0 H1 H2 H3.
  change (map sextet_char [v0; v1; v2; v3])
    with (map sextet_char [v0; v1; v2] ++ [sextet_char v3]).
  rewrite (decode_word_snoc _ _ _ _ _ _ (decode_word_3 _ _ _ H0 H1 H2) (value_sextet_char _ H3)).
  simpl. rewrite Z.shiftl_0_r. rewrite (lor_add 6); [done|lia| |lia].
  change (2 ^ 6) with 64. dlia.
Qed.

(** The octets of a word, and the test on its unused bits, in arithmetic form. *)
Definition word_octets (n : Z) (octets : nat) : option (list Z) :=
  let unused := 24 - 8 * Z.of_nat octets in
  if (unused <? 24) && negb (Z.land n (Z.shiftl 1 unused - 1) =? 0) then None
  else Some (map (λ k, Z.shiftr n (16 - 8 * Z.of_nat k) mod 256) (seq 0 octets)).

Lemma word_octets_1 n :
  word_octets n 1 = if n mod 65536 =? 0 then Some [n / 65536 mod 256] else None.
Proof.
  unfold word_octets. simpl. change (Z.shiftl 1 (24 - 8 * Z.of_nat 1) - 1) with (2 ^ 16 - 1). rewrite land_mask by lia.
  rewrite Z.shiftr_div_pow2 by lia. change (2 ^ (16 - 8 * Z.of_nat 0)) with 65536.
  change (2 ^ 16) with 65536. by destruct (n mod 65536 =? 0).
Qed.

Lemma word_octets_2 n :
  word_octets n 2 =
  if n mod 256 =? 0 then Some [n / 65536 mod 256; n / 256 mod 256] else None.
Proof.
  unfold word_octets. simpl. change (Z.shiftl 1 (24 - 8 * Z.of_nat 2) - 1) with (2 ^ 8 - 1). rewrite land_mask by lia.
  rewrite !Z.shiftr_div_pow2 by lia.
  change (2 ^ (16 - 8 * Z.of_nat 0)) with 65536. change (2 ^ (16 - 8 * Z.of_nat 1)) with 256.
  change (2 ^ 8) with 256.
  by destruct (n mod 256 =? 0).
Qed.

Lemma word_octets_3 n :
  word_octets n 3 = Some [n / 65536 mod 256; n / 256 mod 256; n mod 256].
Proof.
  unfold word_octets. simpl. change (Z.shiftl 1 (24 - 8 * Z.of_nat 3) - 1) with 0. rewrite Z.land_0_r. simpl.
  rewrite !Z.shiftr_div_pow2 by lia.
  change (2 ^ (16 - 8 * Z.of_nat 0)) with 65536. change (2 ^ (16 - 8 * Z.of_nat 1)) with 256.
  change (2 ^ 8) with 256.
  change (2 ^ (16 - 8 * Z.of_nat 2)) with 1. by rewrite Z.div_1_r.
Qed.

Lemma decode_chunk_word s :
  decode_chunk s = (n ← decode_word 0 s 0; word_octets n (length s - 1)).
Proof. done. Qed.

Lemma cons_ext {A} (x y : A) l k : x = y → l = k → x :: l = y :: k.
Proof. congruence. Qed.

Ltac pow_consts :=
  change (2 ^ (18 - 6 * Z.of_nat 0)) with 262144;
  change (2 ^ (18 - 6 * Z.of_nat 1)) with 4096;
  change (2 ^ (18 - 6 * Z.of_nat 2)) with 64;
  change (2 ^ (18 - 6 * Z.of_nat 3)) with 1.

(** The characters of a chunk, as sextets of its word. *)
Lemma encode_chunk_1 a : is_u8 a →
  encode_chunk [a] = map sextet_char [a / 4; a mod 4 * 16].
Proof.
  unfold is_u8. intros Ha. destruct (encode_chunk_sextets [a]) as [->|H]; [|simpl in H; lia].
  rewrite chunk_word_1. cbn -[Z.div Z.modulo sextet_char Z.mul].
  repeat (apply cons_ext; [apply f_equal; pow_consts; dlia|]); done.
Qed.

Lemma encode_chunk_2 a b : is_u8 a → is_u8 b →
  encode_chunk [a; b] = map sextet_char [a / 4; a mod 4 * 16 + b / 16; b mod 16 * 4].
Proof.
  unfold is_u8. intros Ha Hb.
  destruct (encode_chunk_sextets [a; b]) as [->|H]; [|simpl in H; lia].
  rewrite chunk_word_2 by done. cbn -[Z.div Z.modulo sextet_char Z.mul].
  repeat (apply cons_ext; [apply f_equal; pow_consts; dlia|]); done.
Qed.

Lemma encode_chunk_3 a b c : is_u8 a → is_u8 b → is_u8 c →
  encode_chunk [a; b; c] =
  map sextet_char [a / 4; a mod 4 * 16 + b / 16; b mod 16 * 4 + c / 64; c mod 64].
Proof.
  unfold is_u8. intros Ha Hb Hc.
  destruct (encode_chunk_sextets [a; b; c]) as [->|H]; [|simpl in H; lia].
  rewrite chunk_word_3 by done. cbn -[Z.div Z.modulo sextet_char Z.mul].
  repeat (apply cons_ext; [apply f_equal; pow_consts; dlia|]); done.
Qed.

Lemma decode_encode_chunk c :
  (1 ≤ length c ≤ 3)%nat → Forall is_u8 c → decode_chunk (encode_chunk c) = Some c.
Proof.
  intros Hl Hc. rewrite decode_chunk_word.
  destruct c as [|a [|b [|d [|]]]]; simpl in Hl; try lia.
  all: inv_Forall.
  - rewrite encode_chunk_1 by done. unfold is_u8 in *.
    rewrite decode_word_2 by dlia. simpl. rewrite word_octets_1.
    destruct (_ =? 0) eqn:E; bool_hyps; [|dlia]. do 2 f_equal. dlia.
  - rewrite encode_chunk_2 by done. unfold is_u8 in *.
    rewrite decode_word_3 by dlia. simpl. rewrite word_octets_2.
    destruct (_ =? 0) eqn:E; bool_hyps; [|dlia].
    f_equal. repeat apply cons_ext; [dlia|dlia|done].
  - rewrite encode_chunk_3 by done. unfold is_u8 in *.
    rewrite decode_word_4 by dlia. simpl. rewrite word_octets_3.
    f_equal. repeat apply cons_ext; [dlia|dlia|dlia|done].
Qed.

Lemma decode_word_values k s n w :
  decode_word k s n = Some w →
  ∃ vs, s = map sextet_char vs ∧ Forall (λ v, 0 ≤ v < 64) vs.
Proof.
  revert k n. induction s as [|c s IH]; intros k n H; simpl in H.
  - by exists [].
  - destruct (value c) as [v|] eqn:Hv; [|done]. simpl in H.
    destruct (IH _ _ H) as (vs & -> & Hvs). exists (v :: vs). split.
    + simpl. by rewrite (sextet_char_value c v).
    + constructor; [|done]. by apply value_alphabet in Hv as [? _].
Qed.

Lemma encode_decode_chunk s o :
  (2 ≤ length s ≤ 4)%nat → decode_chunk s = Some o →
  s = encode_chunk o ∧ Forall is_u8 o ∧ length o = (length s - 1)%nat.
Proof.
  intros Hl H. rewrite decode_chunk_word in H.
  destruct (decode_word 0 s 0) as [w|] eqn:Hw; [|done]. simpl in H.
  destruct (decode_word_values _ _ _ _ Hw) as (vs & -> & Hvs).
  destruct vs as [|v0 [|v1 [|v2 [|v3 [|]]]]]; simpl in Hl; try lia.
  all: inv_Forall.
  - rewrite decode_word_2 in Hw by done. injection Hw as <-. simpl in H.
    rewrite word_octets_1 in H. case_in H; bool_hyps.
    rewrite encode_chunk_1 by (unfold is_u8; dlia).
    split_and!; [|repeat constructor; unfold is_u8; dlia|done].
    f_equal. repeat apply cons_ext; [dlia|dlia|done].
  - rewrite decode_word_3 in Hw by done. injection Hw as <-. simpl in H.
    rewrite word_octets_2 in H. case_in H; bool_hyps.
    rewrite encode_chunk_2 by (unfold is_u8; dlia).
    split_and!; [|repeat constructor; unfold is_u8; dlia|done].
    f_equal. repeat apply cons_ext; [dlia|dlia|dlia|done].
  - rewrite decode_word_4 in Hw by done. injection Hw as <-. simpl in H.
    rewrite word_octets_3 in H. injection H as <-.
    rewrite encode_chunk_3 by (unfold is_u8; dlia).
    split_and!; [|repeat constructor; unfold is_u8; dlia|done].
    f_equal. repeat apply cons_ext; [dlia|dlia|dlia|dlia|done].
Qed.

Lemma length_encode_chunk c : length (encode_chunk c) = S (length c).
Proof. unfold encode_chunk. by rewrite length_map, length_seq. Qed.

(** ** Whole strings *)

#[local] Opaque encode_chunk decode_chunk.

Lemma encode_app c l : length c = 3%nat → encode (c ++ l) = encode_chunk c ++ encode l.
Proof. intros Hc. unfold encode. by rewrite chunks_app by (done || lia). Qed.

Lemma encode_short c : (0 < length c ≤ 3)%nat → encode c = encode_chunk c.
Proof. intros Hc. unfold encode. rewrite chunks_short by done. apply app_nil_r. Qed.

Lemma div_ceil_add4 n : div_ceil ((3 + n) * 4) 3 = (4 + div_ceil (n * 4) 3)%nat.
Proof.
  unfold div_ceil. replace ((3 + n) * 4 + 3 - 1)%nat with (n * 4 + 3 - 1 + 4 * 3)%nat by lia.
  rewrite Nat.div_add by lia. lia.
Qed.

Lemma length_encode o : length (encode o) = div_ceil (length o * 4) 3.
Proof.
  induction o as [|o Ho|c o Hc IH] using (chunk_ind 3 ltac:(lia)); [done| |].
  - rewrite encode_short, length_encode_chunk by lia.
    destruct (length o) as [|[|[|]]]; try lia; done.
  - rewrite encode_app, !length_app, length_encode_chunk, IH, Hc by done.
    symmetry. apply div_ceil_add4.
Qed.

Lemma decode_loop_encode o acc :
  Forall is_u8 o → decode_loop (chunks 4 (encode o)) acc = Some (acc ++ o).
Proof.
  revert acc. induction o as [|o Ho|c o Hc IH] using (chunk_ind 3 ltac:(lia)); intros acc Hu.
  - simpl. by rewrite app_nil_r.
  - rewrite encode_short, chunks_short by (rewrite ?length_encode_chunk; lia).
    simpl. by rewrite decode_encode_chunk by (done || lia).
  - apply Forall_app in Hu as [Hc8 Ho8].
    rewrite encode_app, chunks_app by (rewrite ?length_encode_chunk; lia).
    simpl. rewrite decode_encode_chunk by (done || lia). simpl.
    rewrite IH by done. by rewrite app_assoc.
Qed.

Lemma decode_loop_canonical s acc out :
  (length s mod 4 ≠ 1)%nat → decode_loop (chunks 4 s) acc = Some out →
  ∃ o, out = acc ++ o ∧ Forall is_u8 o ∧ s = encode o.
Proof.
  revert acc. induction s as [|s Hs|c s Hc IH] using (chunk_ind 4 ltac:(lia)); intros acc Hm H.
  - injection H as <-. exists []. by rewrite app_nil_r.
  - assert (length s ≠ 1)%nat by (intros E; by rewrite E in Hm).
    rewrite chunks_short in H by lia. simpl in H.
    destruct (decode_chunk s) as [o|] eqn:E; [|done]. injection H as <-.
    apply encode_decode_chunk in E as (-> & Ho & Hl); [|lia].
    exists o. split_and!; [done|done|]. rewrite encode_short by lia. done.
  - rewrite chunks_app in H by lia. simpl in H.
    destruct (decode_chunk c) as [o|] eqn:E; [|done]. simpl in H.
    apply encode_decode_chunk in E as (-> & Ho & Hl); [|lia].
    rewrite length_app, Hc in Hm.
    destruct (IH (acc ++ o)) as (o' & -> & Ho' & ->); [|done|].
    { intros E. apply Hm. rewrite Nat.Div0.add_mod, E. done. }
    exists (o ++ o'). rewrite <- app_assoc, encode_app by lia.
    by split_and!; [|apply Forall_app|].
Qed.

Lemma ceil_length_mod N : (div_ceil (N * 4) 3 mod 4 ≠ 1)%nat.
Proof.
  unfold div_ceil. intros E.
  pose proof (Nat.div_mod_eq (N * 4 + 3 - 1) 3).
  pose proof (Nat.mod_upper_bound (N * 4 + 3 - 1) 3).
  pose proof (Nat.div_mod_eq ((N * 4 + 3 - 1) / 3) 4). lia.
Qed.

Lemma decode_exact_canonical N s o :
  decode_exact N s = Some o ↔ length o = N ∧ Forall is_u8 o ∧ s = encode o.
Proof.
  unfold decode_exact. split.
  - intros H. destruct (bool_decide (length s = _)) eqn:E; simpl in H; [|done]. bool_hyps.
    destruct (decode_loop (chunks 4 s) []) as [out|] eqn:Hd; [|done]. simpl in H.
    unfold then_some in H. case_in H. bool_hyps.
    apply decode_loop_canonical in Hd as (o' & -> & ? & ->); [done|].
    rewrite E. apply ceil_length_mod.
  - intros (<- & Ho & ->). rewrite length_encode, bool_decide_eq_true_2 by done. simpl.
    rewrite decode_loop_encode by done. simpl.
    unfold then_some. by rewrite bool_decide_eq_true_2.
Qed.

(** The base64url decoder accepts exactly the canonical spelling: [decode_exact N]
    returns [o] for a string [s] if and only if [o] is an octet string of length [N] and [s]
    is the output of [encode] on it.  So decoding inverts encoding, and padding, foreign
    characters, other lengths and non-zero unused bits are all refused. *)
Theorem decode_exact_spec (N : nat) (s o : list Z) :
  decode_exact N s = Some o ↔ length o = N ∧ Forall is_u8 o ∧ s = encode o.
Proof. apply decode_exact_canonical. Qed.

#[local] Transparent encode_chunk decode_chunk.

(** Spellings the unit tests of the module name. *)
Example encode_foobar : encode (bs "foobar") = bs "Zm9vYmFy".
Proof. vm_compute. reflexivity. Qed.

Example decode_refuses_unused_bits : decode_exact 2 (bs "Zm9") = None.
Proof. vm_compute. reflexivity. Qed.
