(* ===== verification/Ids.v ===== *)
(** * Identifiers and scalar forms ([core/src/ids.rs])

    Identifier tokens, session ids, key ids, versions, timestamps and content part types.
    Each Rust type is a newtype around a string that matched its form as a whole; here a
    token, a session id and a key id are the string itself (a list of octets) and the
    constructor is the [parse] function that returns it.  A timestamp keeps its spelling
    and the instant it names. *)

From S2P Require Import Prelude.

Abbreviation Token := (list Z) (only parsing).
Abbreviation SessionId := (list Z) (only parsing).
Abbreviation KeyId := (list Z) (only parsing).

(** ** Definitions *)

Definition EXTENSION_ID_V0 : list Z := bs "io.github.rossgraeber/oac-session-channels".

Definition is_token (s : list Z) : bool :=
  in_range 1 128 (Z.of_nat (length s)) &&
  forallb (λ b, is_ascii_alphanumeric b || (b =? 46) || (b =? 95) || (b =? 58) || (b =? 45)) s.

Definition Token_parse (s : list Z) : option Token := then_some (is_token s) s.

Definition CROCKFORD : list Z := bs "0123456789abcdefghjkmnpqrstvwxyz".

Definition is_session_id (s : list Z) : bool :=
  match s with
  | [] => false
  | b0 :: rest =>
      bool_decide (length s = 26%nat) && in_range 48 55 b0 &&
      forallb (λ c, bool_decide (c ∈ CROCKFORD)) rest
  end.

Definition SessionId_parse (s : list Z) : option SessionId := then_some (is_session_id s) s.

(** [u128::from_be_bytes]. *)
Definition from_be_bytes (octets : list Z) : Z := foldl (λ a b, a * 256 + b) 0 octets.

(** The 26 characters of [(0..26).rev()], five bits each, most significant first. *)
Definition from_random_octets (octets : list Z) : SessionId :=
  let v := from_be_bytes octets in
  map (λ k, default 0 (CROCKFORD !! Z.to_nat (Z.land (Z.shiftr v (5 * Z.of_nat k)) 31)))
    (rev (seq 0 26)).

Definition KeyId_parse (s : list Z) : option KeyId :=
  then_some (bool_decide (length s = 64%nat) &&
             forallb (λ b, is_ascii_digit b || in_range 97 102 b) s) s.

Record Version := mkVersion { major : Z; minor : Z }.

Definition IMPLEMENTED_VERSION : Version := mkVersion 0 1.

(** The fold of [digits]; also what [u16::from_str] and [u64::from_str] compute on a
    non-empty string of ASCII digits. *)
Definition dec_value (b : list Z) : Z := foldl (λ a d, a * 10 + (d - 48)) 0 b.

Definition version_part (s : list Z) : option Z :=
  if in_range 1 4 (Z.of_nat (length s)) && forallb is_ascii_digit s &&
     (bool_decide (length s = 1%nat) || negb (default 0 (s !! 0%nat) =? 48))
  then then_some (dec_value s <=? U16_MAX) (dec_value s) else None.

(** [str::split_once] at the first occurrence of an ASCII character. *)
Fixpoint split_once (c : Z) (s : list Z) : option (list Z * list Z) :=
  match s with
  | [] => None
  | b :: rest =>
      if b =? c then Some ([], rest)
      else '(p, q) ← split_once c rest; Some (b :: p, q)
  end.

Definition Version_parse (s : list Z) : option Version :=
  '(a, b) ← split_once 46 s;
  ma ← version_part a;
  mi ← version_part b;
  Some (mkVersion ma mi).

(** The decimal digits of a non-negative integer ([u64::to_string], at most twenty). *)
Fixpoint dec_digits (fuel : nat) (v : Z) : list Z :=
  match fuel with
  | O => []
  | S f => if v <? 10 then [48 + v] else dec_digits f (v / 10) ++ [48 + v mod 10]
  end.

Definition to_dec (v : Z) : list Z := dec_digits 20 v.

Definition Version_to_string (v : Version) : list Z :=
  to_dec (major v) ++ [46] ++ to_dec (minor v).

(** A formatting directive with a zero-padded minimum width, as in [{y:04}]. *)
Definition fmt_pad (w : nat) (v : Z) : list Z :=
  replicate (w - length (to_dec v)) 48 ++ to_dec v.

Record Timestamp := mkTimestamp { ts_text : list Z; unix_nanos : Z }.

Definition digits (b : list Z) : option Z :=
  if bool_decide (b = []) || negb (forallb is_ascii_digit b) then None
  else Some (dec_value b).

Definition days_from_civil (y m d : Z) : Z :=
  let y := if m <=? 2 then y - 1 else y in
  let era := y / 400 in
  let yoe := y - era * 400 in
  let doy := Z.quot (153 * (if m >? 2 then m - 3 else m + 9) + 2) 5 + d - 1 in
  let doe := yoe * 365 + Z.quot yoe 4 - Z.quot yoe 100 + doy in
  era * 146097 + doe - 719468.

Definition civil_from_days (z : Z) : Z * Z * Z :=
  let z := z + 719468 in
  let era := z / 146097 in
  let doe := z - era * 146097 in
  let yoe := Z.quot (doe - Z.quot doe 1460 + Z.quot doe 36524 - Z.quot doe 146096) 365 in
  let doy := doe - (365 * yoe + Z.quot yoe 4 - Z.quot yoe 100) in
  let mp := Z.quot (5 * doy + 2) 153 in
  let d := doy - Z.quot (153 * mp + 2) 5 + 1 in
  let m := if mp <? 10 then mp + 3 else mp - 9 in
  (yoe + era * 400 + (if m <=? 2 then 1 else 0), m, d).

#[global] Arguments civil_from_days : simpl never.
#[global] Arguments days_from_civil : simpl never.

Definition is_leap (y : Z) : bool :=
  ((Z.rem y 4 =? 0) && negb (Z.rem y 100 =? 0)) || (Z.rem y 400 =? 0).

Definition days_in_month (y m : Z) : Z :=
  default 0 ([31; if is_leap y then 29 else 28; 31; 30; 31; 30; 31; 31; 30; 31; 30; 31]
             !! Z.to_nat (m - 1)).

Definition NANOS_PER_SEC : Z := 1000000000.

(** [&b[i..j]]. *)
Definition slice (i j : nat) (b : list Z) : list Z := take (j - i) (drop i b).

(** Octet [i] differs from [c]; the index is in range at every use. *)
Definition octet_is_not (b : list Z) (i : nat) (c : Z) : bool :=
  negb (bool_decide (b !! i = Some c)).

(** The fraction digits between the seconds and the final [Z], scaled to nanoseconds. *)
Definition frac_nanos (frac : list Z) : option Z :=
  match frac with
  | [] => Some 0
  | c :: f =>
      if (c =? 46) && in_range 1 9 (Z.of_nat (length f))
      then v ← digits f; Some (v * 10 ^ (9 - Z.of_nat (length f)))
      else None
  end.

Definition Timestamp_parse (s : list Z) : option Timestamp :=
  if (length s <? 20)%nat || octet_is_not s 4 45 || octet_is_not s 7 45 ||
     octet_is_not s 10 84 || octet_is_not s 13 58 || octet_is_not s 16 58 ||
     octet_is_not s (length s - 1) 90
  then None
  else
    y ← digits (slice 0 4 s);
    mo ← digits (slice 5 7 s);
    d ← digits (slice 8 10 s);
    h ← digits (slice 11 13 s);
    mi ← digits (slice 14 16 s);
    sec ← digits (slice 17 19 s);
    frac ← frac_nanos (slice 19 (length s - 1) s);
    if negb (in_range 1 12 mo) || (h >? 23) || (mi >? 59) || (sec >? 59) ||
       (d <? 1) || (d >? days_in_month y mo)
    then None
    else
      let secs := days_from_civil y mo d * 86400 + (h * 3600 + mi * 60 + sec) in
      Some (mkTimestamp s (secs * NANOS_PER_SEC + frac)).

(** The text both constructors from an instant format: the date, the time of day and the
    fraction in [w] digits. *)
Definition timestamp_text (y m d sod frac : Z) (w : nat) : list Z :=
  fmt_pad 4 y ++ [45] ++ fmt_pad 2 m ++ [45] ++ fmt_pad 2 d ++ [84] ++
  fmt_pad 2 (Z.quot sod 3600) ++ [58] ++ fmt_pad 2 (Z.rem (Z.quot sod 60) 60) ++ [58] ++
  fmt_pad 2 (Z.rem sod 60) ++ [46] ++ fmt_pad w frac ++ [90].

Definition from_unix_millis (unix_millis : Z) : option Timestamp :=
  let secs := unix_millis / 1000 in
  let ms := unix_millis mod 1000 in
  let days := secs / 86400 in
  let sod := secs mod 86400 in
  let '(y, m, d) := civil_from_days days in
  if negb (in_range 0 9999 y) then None
  else Timestamp_parse (timestamp_text y m d sod ms 3).

Definition I64_MIN : Z := -9223372036854775808.
Definition I64_MAX : Z := 9223372036854775807.

Definition from_unix_nanos (nanos : Z) : option Timestamp :=
  let secs := nanos / NANOS_PER_SEC in
  if negb (in_range I64_MIN I64_MAX secs) then None
  else
    let ns := nanos mod NANOS_PER_SEC in
    let days := secs / 86400 in
    let sod := secs mod 86400 in
    let '(y, m, d) := civil_from_days days in
    if negb (in_range 0 9999 y) then None
    else Timestamp_parse (timestamp_text y m d sod ns 9).

(** A name [[a-z][a-z0-9-]*] of one to [max] octets: the tail shared by [is_core_type],
    [is_extension_type] and [is_error_code_form]. *)
Definition is_lower_name (max : Z) (b : list Z) : bool :=
  in_range 1 max (Z.of_nat (length b)) && is_ascii_lowercase (default 0 (b !! 0%nat)) &&
  forallb (λ c, is_ascii_lowercase c || is_ascii_digit c || (c =? 45)) b.

Definition is_core_type (t : list Z) : bool := is_lower_name 32 t.

Definition is_dns_label (l : list Z) : bool :=
  negb (bool_decide (l = [])) && is_ascii_alphanumeric (default 0 (l !! 0%nat)) &&
  is_ascii_alphanumeric (default 0 (l !! (length l - 1)%nat)) &&
  forallb (λ c, is_ascii_alphanumeric c || (c =? 45)) l.

(** [str::split] at an ASCII character: always at least one piece. *)
Fixpoint split_at (c : Z) (s : list Z) : list (list Z) :=
  match s with
  | [] => [[]]
  | b :: rest =>
      if b =? c then [] :: split_at c rest
      else match split_at c rest with
           | [] => [[b]]
           | p :: ps => (b :: p) :: ps
           end
  end.

Definition is_reverse_dns (p : list Z) : bool :=
  let labels := split_at 46 p in
  (2 <=? length labels)%nat && forallb is_dns_label labels.

Definition is_extension_type (t : list Z) : bool :=
  match split_once 47 t with
  | None => false
  | Some (prefix, name) => is_reverse_dns prefix && is_lower_name 64 name
  end.

(** [fresh_delimiter]: the octets drawn from the operating system are its argument. *)
Definition fresh_delimiter (octets : list Z) : list Z := from_random_octets octets.

#[global] Instance Version_eq_dec : EqDecision Version.
Proof. solve_decision. Defined.
#[global] Instance Timestamp_eq_dec : EqDecision Timestamp.
Proof. solve_decision. Defined.

Example timestamp_parse_ex :
  unix_nanos <$> Timestamp_parse (bs "2026-10-03T12:00:00.000Z") = Some 1791028800000000000.
Proof. vm_compute. reflexivity. Qed.
Example from_unix_nanos_ex :
  ts_text <$> from_unix_nanos 1791028800000000001 = Some (bs "2026-10-03T12:00:00.000000001Z").
Proof. vm_compute. reflexivity. Qed.

(** ** The calendar *)

Ltac qlia := Z.to_euclidean_division_equations; lia.

Lemma yoe_bounds doe :
  0 ≤ doe < 146097 →
  let yoe := (doe - doe / 1460 + doe / 36524 - doe / 146096) / 365 in
  0 ≤ yoe ≤ 399 ∧
  365 * yoe + yoe / 4 - yoe / 100 ≤ doe ≤ 365 * yoe + yoe / 4 - yoe / 100 + 365 ∧
  (yoe < 399 → doe < 365 * (yoe + 1) + (yoe + 1) / 4 - (yoe + 1) / 100).
Proof.
  intros H yoe.
  assert (0 ≤ doe / 36524 ≤ 4) by dlia.
  assert (0 ≤ doe / 146096 ≤ 1) by dlia.
  assert (0 ≤ yoe ≤ 399) by (unfold yoe; dlia).
  assert (365 * yoe + yoe / 4 - yoe / 100 ≤ doe) by (unfold yoe; dlia).
  assert (doe ≤ 365 * yoe + yoe / 4 - yoe / 100 + 365) by (unfold yoe; dlia).
  split_and!; [lia|lia|lia|lia|]. unfold yoe. dlia.
Qed.

(** A day number split as [civil_from_days] splits it, with the bounds of each part. *)
Lemma civil_parts z :
  ∃ era yoe mp doy,
    z + 719468 = era * 146097 + (365 * yoe + yoe / 4 - yoe / 100) + doy ∧
    0 ≤ yoe ≤ 399 ∧ 0 ≤ doy ≤ 365 ∧ mp = (5 * doy + 2) / 153 ∧ 0 ≤ mp ≤ 11 ∧
    (yoe < 399 → doy < 365 + ((yoe + 1) / 4 - yoe / 4) - ((yoe + 1) / 100 - yoe / 100)) ∧
    civil_from_days z =
      (yoe + era * 400 + (if (if mp <? 10 then mp + 3 else mp - 9) <=? 2 then 1 else 0),
       if mp <? 10 then mp + 3 else mp - 9, doy - (153 * mp + 2) / 5 + 1).
Proof.
  set (era := (z + 719468) / 146097). set (doe := z + 719468 - era * 146097).
  assert (0 ≤ doe < 146097) as Hdoe by (unfold doe, era; dlia).
  pose proof (yoe_bounds doe Hdoe) as Hy. cbv zeta in Hy.
  set (yoe := (doe - doe / 1460 + doe / 36524 - doe / 146096) / 365) in *.
  destruct Hy as (Hyoe & Hs & Hnext).
  set (doy := doe - (365 * yoe + yoe / 4 - yoe / 100)).
  exists era, yoe, ((5 * doy + 2) / 153), doy.
  split_and!; try (unfold doy, doe in *; dlia).
  unfold civil_from_days. fold era. fold doe.
  rewrite !(Z.quot_div_nonneg doe) by lia.
  rewrite (Z.quot_div_nonneg (doe - _ + _ - _)) by dlia. fold yoe.
  rewrite !(Z.quot_div_nonneg yoe) by lia. fold doy.
  rewrite (Z.quot_div_nonneg (5 * doy + 2)) by (unfold doy; lia).
  rewrite (Z.quot_div_nonneg (153 * _ + 2)) by (unfold doy; dlia). done.
Qed.

(** The guard of [Timestamp::parse] on the date. *)
Definition valid_date (y m d : Z) : bool :=
  in_range 1 12 m && (1 <=? d) && (d <=? days_in_month y m).

(** Months numbered from March, as both conversions number them. *)
Definition march_month (m : Z) : Z := if m >? 2 then m - 3 else m + 9.
Definition march_year (y m : Z) : Z := if m <=? 2 then y - 1 else y.

Lemma is_leap_spec y : is_leap y = ((y mod 4 =? 0) && negb (y mod 100 =? 0)) || (y mod 400 =? 0).
Proof.
  unfold is_leap.
  assert ((Z.rem y 4 =? 0) = (y mod 4 =? 0)) as -> by qlia.
  assert ((Z.rem y 100 =? 0) = (y mod 100 =? 0)) as -> by qlia.
  assert ((Z.rem y 400 =? 0) = (y mod 400 =? 0)) as -> by qlia.
  done.
Qed.

Ltac each_month m H :=
  let Hm := fresh in
  assert (m = 1 ∨ m = 2 ∨ m = 3 ∨ m = 4 ∨ m = 5 ∨ m = 6 ∨ m = 7 ∨ m = 8 ∨ m = 9 ∨
          m = 10 ∨ m = 11 ∨ m = 12) as Hm by (clear - H; lia);
  repeat destruct Hm as [->|Hm]; [..|subst m].

(** The length of the March-based year [y], which ends with the February of [y + 1]. *)
Definition march_year_length (y : Z) : Z := if is_leap (y + 1) then 366 else 365.

Lemma march_year_length_era era yoe :
  0 ≤ yoe ≤ 399 →
  march_year_length (yoe + era * 400) =
  if yoe =? 399 then 366
  else 365 + ((yoe + 1) / 4 - yoe / 4) - ((yoe + 1) / 100 - yoe / 100).
Proof.
  intros Hy. unfold march_year_length. rewrite is_leap_spec.
  assert ((yoe + era * 400 + 1) mod 4 = (yoe + 1) mod 4) as -> by dlia.
  assert ((yoe + era * 400 + 1) mod 100 = (yoe + 1) mod 100) as -> by dlia.
  assert ((yoe + era * 400 + 1) mod 400 = (yoe + 1) mod 400) as -> by dlia.
  destruct (yoe =? 399) eqn:E; bool_hyps; [subst yoe; done|].
  assert (((yoe + 1) mod 400 =? 0) = false) as -> by (apply Z.eqb_neq; dlia).
  destruct ((yoe + 1) mod 4 =? 0) eqn:E4; destruct ((yoe + 1) mod 100 =? 0) eqn:E100;
    bool_hyps; simpl; dlia.
Qed.

(** The day of the March-based year of a valid date. *)
Lemma valid_date_day y m d :
  valid_date y m d = true →
  let mp := march_month m in
  let doy := (153 * mp + 2) / 5 + d - 1 in
  0 ≤ mp ≤ 11 ∧ 0 ≤ doy < march_year_length (march_year y m) ∧ mp = (5 * doy + 2) / 153.
Proof.
  unfold valid_date, days_in_month, march_year, march_month, march_year_length.
  intros H. bool_hyps. apply in_range_true in H.
  each_month m H; simpl in *.
  all: rewrite ?(Z.sub_add 1 y).
  all: repeat (case_match; simplify_eq/=); split_and!; dlia.
Qed.

(** The same parts give back a valid date. *)
Lemma day_valid_date y mp doy :
  0 ≤ doy < march_year_length y → mp = (5 * doy + 2) / 153 →
  let m := if mp <? 10 then mp + 3 else mp - 9 in
  valid_date (y + (if m <=? 2 then 1 else 0)) m (doy - (153 * mp + 2) / 5 + 1) = true.
Proof.
  unfold march_year_length. intros Hd Hmp.
  assert (0 ≤ mp ≤ 11) as Hm by (destruct (is_leap (y + 1)); dlia).
  assert (mp = 0 ∨ mp = 1 ∨ mp = 2 ∨ mp = 3 ∨ mp = 4 ∨ mp = 5 ∨ mp = 6 ∨ mp = 7 ∨ mp = 8 ∨
          mp = 9 ∨ mp = 10 ∨ mp = 11 ∨ False) as Hc by lia.
  clear Hm. unfold valid_date, days_in_month, in_range.
  repeat destruct Hc as [->|Hc]; [..|done]; simpl.
  all: rewrite ?andb_true_iff, ?Z.leb_le; simpl.
  all: destruct (is_leap (y + 1)); split_and!; dlia.
Qed.

Lemma march_month_of mp :
  0 ≤ mp ≤ 11 → march_month (if mp <? 10 then mp + 3 else mp - 9) = mp.
Proof. intros. unfold march_month. repeat case_match; lia. Qed.

Lemma march_year_of y mp :
  0 ≤ mp ≤ 11 → let m := if mp <? 10 then mp + 3 else mp - 9 in
  march_year (y + (if m <=? 2 then 1 else 0)) m = y.
Proof. intros. unfold march_year. simpl. repeat case_match; lia. Qed.

Lemma march_month_inv m :
  1 ≤ m ≤ 12 → m = (if march_month m <? 10 then march_month m + 3 else march_month m - 9).
Proof. intros. unfold march_month. repeat case_match; lia. Qed.

Lemma days_from_civil_parts y m d :
  0 ≤ march_month m →
  days_from_civil y m d =
  let era := march_year y m / 400 in let yoe := march_year y m mod 400 in
  era * 146097 + (yoe * 365 + yoe / 4 - yoe / 100 + ((153 * march_month m + 2) / 5 + d - 1)) - 719468.
Proof.
  intros Hm. unfold days_from_civil. fold (march_month m). fold (march_year y m).
  assert (march_year y m - march_year y m / 400 * 400 = march_year y m mod 400) as -> by dlia.
  rewrite !Z.quot_div_nonneg by dlia. lia.
Qed.

(** The parts of a day number are determined by it. *)
Lemma civil_parts_unique era yoe doy era' yoe' doy' :
  era * 146097 + (365 * yoe + yoe / 4 - yoe / 100) + doy =
  era' * 146097 + (365 * yoe' + yoe' / 4 - yoe' / 100) + doy' →
  0 ≤ yoe ≤ 399 → 0 ≤ yoe' ≤ 399 →
  0 ≤ doy < march_year_length (yoe + era * 400) →
  0 ≤ doy' < march_year_length (yoe' + era' * 400) →
  era = era' ∧ yoe = yoe' ∧ doy = doy'.
Proof.
  intros Heq Hy Hy' Hd Hd'. rewrite march_year_length_era in Hd, Hd' by done.
  assert (era = era') as ->.
  { assert (∀ y d, 0 ≤ y ≤ 399 → 0 ≤ d < (if y =? 399 then 366 else
        365 + ((y + 1) / 4 - y / 4) - ((y + 1) / 100 - y / 100)) →
      0 ≤ 365 * y + y / 4 - y / 100 + d < 146097) as Hb.
    { intros y d. clear. intros. case_match; bool_hyps; [subst y|]; dlia. }
    pose proof (Hb _ _ Hy Hd). pose proof (Hb _ _ Hy' Hd'). lia. }
  assert (yoe = yoe') as ->; [|split_and!; lia].
  destruct (Z.lt_trichotomy yoe yoe') as [Hlt|[?|Hlt]]; [exfalso|done|exfalso].
  - destruct (yoe =? 399) eqn:E; bool_hyps; [lia|]. destruct Hd' as [Hd' _]. dlia.
  - destruct (yoe' =? 399) eqn:E; bool_hyps; [lia|]. destruct Hd as [Hd _]. dlia.
Qed.

Lemma civil_from_days_spec z y m d :
  civil_from_days z = (y, m, d) ↔ valid_date y m d = true ∧ days_from_civil y m d = z.
Proof.
  destruct (civil_parts z) as (era & yoe & mp & doy & Hz & Hy & Hd & Hmp & Hm11 & Hnext & Hciv).
  assert (0 ≤ doy < march_year_length (yoe + era * 400)) as Hdoy.
  { rewrite march_year_length_era by done. destruct (yoe =? 399) eqn:E; bool_hyps; lia. }
  rewrite Hciv. split.
  - intros [= <- <- <-]. split; [by apply day_valid_date|].
    rewrite days_from_civil_parts; rewrite march_month_of by done; [|lia].
    rewrite march_year_of by done. cbv zeta.
    rewrite Z.div_add, Z.div_small, Z.mod_add, Z.mod_small by lia. lia.
  - intros [Hv Hdays]. pose proof (valid_date_day _ _ _ Hv) as (Hmm & Hdd & Hmpp).
    cbv zeta in *. rewrite days_from_civil_parts in Hdays by lia. cbv zeta in Hdays.
    set (yy := march_year y m) in *.
    destruct (civil_parts_unique era yoe doy (yy / 400) (yy mod 400)
      ((153 * march_month m + 2) / 5 + d - 1)) as (-> & -> & ->); try lia; [dlia| |].
    { by replace (yy mod 400 + yy / 400 * 400) with yy by dlia. }
    assert (1 ≤ m ≤ 12) as Hm.
    { unfold valid_date in Hv. bool_hyps. by apply in_range_true. }
    rewrite <- Hmpp in Hmp. subst mp. rewrite <- (march_month_inv m) by done.
    replace (yy mod 400 + yy / 400 * 400) with yy by dlia.
    f_equal; [f_equal|lia]. unfold yy, march_year. destruct (m <=? 2); lia.
Qed.

(** Day numbers and civil dates correspond one to one: [civil_from_days z] is the date
    [(y, m, d)] if and only if that is a real calendar date (a month from 1 to 12, a day from
    1 to the length of that month in that year) and [days_from_civil] maps it to [z].  So
    the two conversions invert each other, for every day of the proleptic calendar. *)
Theorem civil_days_bijection (z y m d : Z) :
  civil_from_days z = (y, m, d) ↔ valid_date y m d = true ∧ days_from_civil y m d = z.
Proof. apply civil_from_days_spec. Qed.

(** ** Decimal numbers *)

Lemma dec_value_snoc b d : dec_value (b ++ [d]) = dec_value b * 10 + (d - 48).
Proof. unfold dec_value. by rewrite foldl_snoc. Qed.

Lemma dec_value_zeros n b : dec_value (replicate n 48 ++ b) = dec_value b.
Proof. unfold dec_value. induction n as [|n IH]; [done|]. exact IH. Qed.

Lemma pow10_S n : 10 ^ Z.of_nat (S n) = 10 * 10 ^ Z.of_nat n.
Proof. rewrite Nat2Z.inj_succ, Z.pow_succ_r by lia. done. Qed.

Lemma dec_digits_spec fuel v :
  (1 ≤ fuel)%nat → 0 ≤ v < 10 ^ Z.of_nat fuel →
  let s := dec_digits fuel v in
  forallb is_ascii_digit s = true ∧ dec_value s = v ∧ (1 ≤ length s)%nat ∧
  (s !! 0%nat = Some 48 → v = 0) ∧ (v = 0 → s = [48]) ∧
  (∀ w, (1 ≤ w)%nat → v < 10 ^ Z.of_nat w → (length s ≤ w)%nat).
Proof.
  revert v. induction fuel as [|f IH]; intros v Hf Hv; [lia|]. cbv zeta. simpl.
  destruct (v <? 10) eqn:E; bool_hyps.
  - split_and!.
    + unfold is_ascii_digit, in_range. simpl. rewrite andb_true_r. lia.
    + cbn -[Z.add Z.sub]. lia.
    + simpl. lia.
    + intros [= ?]. lia.
    + intros ->. done.
    + simpl. lia.
  - destruct f as [|f]; [change (10 ^ Z.of_nat 1) with 10 in Hv; lia|].
    rewrite pow10_S in Hv. specialize (IH (v / 10) ltac:(lia) ltac:(dlia)).
    cbv zeta in IH. set (s := dec_digits (S f) (v / 10)) in *.
    destruct IH as (H1 & H2 & H3 & H4 & H5 & H6). split_and!.
    + rewrite forallb_app, H1. simpl. unfold is_ascii_digit, in_range. rewrite andb_true_r. dlia.
    + rewrite dec_value_snoc, H2. dlia.
    + rewrite length_app. simpl. lia.
    + rewrite lookup_app_l by lia. intros H. apply H4 in H. dlia.
    + intros ->. lia.
    + intros w Hw Hv'. destruct w as [|[|w]]; [lia|change (10 ^ Z.of_nat 1) with 10 in Hv'; lia|].
      rewrite pow10_S in Hv'. rewrite length_app. simpl.
      specialize (H6 (S w) ltac:(lia) ltac:(dlia)). lia.
Qed.

Lemma to_dec_spec v :
  0 ≤ v ≤ U64_MAX →
  forallb is_ascii_digit (to_dec v) = true ∧ dec_value (to_dec v) = v ∧
  (1 ≤ length (to_dec v))%nat ∧ (to_dec v !! 0%nat = Some 48 → v = 0) ∧
  (v = 0 → to_dec v = [48]) ∧
  (∀ w, (1 ≤ w)%nat → v < 10 ^ Z.of_nat w → (length (to_dec v) ≤ w)%nat).
Proof.
  intros Hv. apply dec_digits_spec; [lia|].
  change (10 ^ Z.of_nat 20) with 100000000000000000000. unfold U64_MAX in Hv. lia.
Qed.

Lemma fmt_pad_spec w v :
  (1 ≤ w ≤ 9)%nat → 0 ≤ v < 10 ^ Z.of_nat w →
  length (fmt_pad w v) = w ∧ digits (fmt_pad w v) = Some v.
Proof.
  intros Hw Hv.
  assert (v ≤ U64_MAX).
  { assert (10 ^ Z.of_nat w ≤ 10 ^ 9) by (apply Z.pow_le_mono_r; lia).
    change (10 ^ 9) with 1000000000 in *. unfold U64_MAX. lia. }
  destruct (to_dec_spec v ltac:(lia)) as (H1 & H2 & H3 & _ & _ & H6).
  specialize (H6 w ltac:(lia) ltac:(lia)). unfold fmt_pad. split.
  - rewrite length_app, length_replicate. lia.
  - unfold digits. rewrite bool_decide_eq_false_2.
    + simpl. rewrite forallb_app, H1, dec_value_zeros, H2.
      assert (forallb is_ascii_digit (replicate (w - length (to_dec v)) 48) = true) as ->; [|done].
      apply Forall_forallb, Forall_replicate. done.
    + intros [_ E]%app_eq_nil. rewrite E in H3. simpl in H3. lia.
Qed.

(** ** Timestamps *)

(** What [Timestamp::parse] computes from the six numbers and the fraction. *)
Definition timestamp_of (s : list Z) (y mo d h mi sec frac : Z) : option Timestamp :=
  if negb (in_range 1 12 mo) || (h >? 23) || (mi >? 59) || (sec >? 59) ||
     (d <? 1) || (d >? days_in_month y mo)
  then None
  else Some (mkTimestamp s
    ((days_from_civil y mo d * 86400 + (h * 3600 + mi * 60 + sec)) * NANOS_PER_SEC + frac)).

(** Parsing a text with its separators in place reads the fields between them. *)
Lemma Timestamp_parse_fields Y Mo D H Mi S F :
  length Y = 4%nat → length Mo = 2%nat → length D = 2%nat → length H = 2%nat →
  length Mi = 2%nat → length S = 2%nat →
  let s := Y ++ [45] ++ Mo ++ [45] ++ D ++ [84] ++ H ++ [58] ++ Mi ++ [58] ++ S ++ F ++ [90] in
  Timestamp_parse s =
    (y ← digits Y; mo ← digits Mo; d ← digits D; h ← digits H; mi ← digits Mi;
     sec ← digits S; frac ← frac_nanos F; timestamp_of s y mo d h mi sec frac).
Proof.
  intros HY HMo HD HH HMi HS s.
  destruct Y as [|? [|? [|? [|? [|]]]]]; try discriminate HY.
  destruct Mo as [|? [|? [|]]]; try discriminate HMo.
  destruct D as [|? [|? [|]]]; try discriminate HD.
  destruct H as [|? [|? [|]]]; try discriminate HH.
  destruct Mi as [|? [|? [|]]]; try discriminate HMi.
  destruct S as [|? [|? [|]]]; try discriminate HS.
  assert (length s = 20 + length F)%nat as Hl.
  { unfold s. simpl. rewrite length_app. simpl. lia. }
  assert (octet_is_not s (length s - 1) 90 = false) as Hlast.
  { rewrite Hl. replace (20 + length F - 1)%nat with (19 + length F)%nat by lia.
    unfold octet_is_not, s. simpl. rewrite (lookup_app_r F), Nat.sub_diag by lia. done. }
  assert (slice 19 (length s - 1) s = F) as Hf.
  { rewrite Hl. unfold slice. replace (20 + length F - 1 - 19)%nat with (length F) by lia.
    unfold s. simpl. by rewrite drop_0, take_app_length. }
  unfold Timestamp_parse. rewrite Hlast, Hf.
  destruct (length s <? 20)%nat eqn:E; [apply Nat.ltb_lt in E; lia|]. reflexivity.
Qed.

Definition MIN_UNIX_NANOS : Z := -62167219200000000000.
Definition MAX_UNIX_NANOS : Z := 253402300799999999999.

(** The days of the years 0000 to 9999. *)
Lemma civil_year_range z y m d :
  civil_from_days z = (y, m, d) → (0 ≤ y ≤ 9999 ↔ -719528 ≤ z ≤ 2932896).
Proof.
  destruct (civil_parts z) as (era & yoe & mp & doy & Hz & Hy & Hd & Hmp & Hm11 & Hnext & ->).
  intros [= <- _ _].
  assert (yoe = 399 ∨ yoe < 399 ∧ 365 * yoe + yoe / 4 - yoe / 100 + doy < 145731) as Hb.
  { destruct (Z.lt_ge_cases yoe 399); [right|left; lia]. split; [done|]. dlia. }
  assert ((mp <? 10) = negb (306 <=? doy)) as Hmp' by (apply Bool.eq_iff_eq_true; rewrite Z.ltb_lt, negb_true_iff, Z.leb_gt; subst mp; dlia).
  rewrite Hmp'. destruct (306 <=? doy) eqn:E; simpl; bool_hyps.
  - destruct (mp - 9 <=? 2) eqn:E'; bool_hyps; [|lia]. clear Hnext Hmp Hmp'. dlia.
  - destruct (mp + 3 <=? 2) eqn:E'; bool_hyps; [lia|]. clear Hnext Hmp Hmp'. dlia.
Qed.

(** Formatting an instant and parsing the text gives the instant back. *)
Lemma parse_timestamp_text days sod frac w y m d :
  (w = 3 ∨ w = 9)%nat → civil_from_days days = (y, m, d) → 0 ≤ y ≤ 9999 →
  0 ≤ sod < 86400 → 0 ≤ frac < 10 ^ Z.of_nat w →
  let s := timestamp_text y m d sod frac w in
  Timestamp_parse s =
    Some (mkTimestamp s ((days * 86400 + sod) * NANOS_PER_SEC + frac * 10 ^ (9 - Z.of_nat w))).
Proof.
  intros Hw Hciv Hy Hsod Hfrac s.
  apply civil_from_days_spec in Hciv as [Hvalid Hdays].
  unfold valid_date in Hvalid. bool_hyps. apply in_range_true in H.
  assert (days_in_month y m ≤ 31) as H31.
  { unfold days_in_month. each_month m H; simpl; try lia. destruct (is_leap y); lia. }
  destruct (fmt_pad_spec 4 y) as [Hl1 Hd1]; [lia|change (10 ^ Z.of_nat 4) with 10000; lia|].
  destruct (fmt_pad_spec 2 m) as [Hl2 Hd2]; [lia|change (10 ^ Z.of_nat 2) with 100; lia|].
  destruct (fmt_pad_spec 2 d) as [Hl3 Hd3]; [lia|change (10 ^ Z.of_nat 2) with 100; lia|].
  destruct (fmt_pad_spec 2 (Z.quot sod 3600)) as [Hl4 Hd4]; [lia|change (10 ^ Z.of_nat 2) with 100; qlia|].
  destruct (fmt_pad_spec 2 (Z.rem (Z.quot sod 60) 60)) as [Hl5 Hd5]; [lia|change (10 ^ Z.of_nat 2) with 100; qlia|].
  destruct (fmt_pad_spec 2 (Z.rem sod 60)) as [Hl6 Hd6]; [lia|change (10 ^ Z.of_nat 2) with 100; qlia|].
  destruct (fmt_pad_spec w frac) as [Hl7 Hd7]; [lia|done|].
  pose proof (Timestamp_parse_fields _ _ _ _ _ _ ([46] ++ fmt_pad w frac) Hl1 Hl2 Hl3 Hl4 Hl5 Hl6) as Hp.
  cbv zeta in Hp. rewrite <- (app_assoc [46]) in Hp.
  change (Timestamp_parse s = _) in Hp || fold (timestamp_text y m d sod frac w) in Hp.
  rewrite Hd1, Hd2, Hd3, Hd4, Hd5, Hd6 in Hp. simpl in Hp.
  unfold s at 1. rewrite Hp.
  assert (in_range 1 9 (Z.of_nat (length (fmt_pad w frac))) = true) as ->
    by (rewrite Hl7; apply in_range_true; lia).
  rewrite Hd7. simpl. unfold timestamp_of.
  assert (in_range 1 12 m = true) as -> by (by apply in_range_true).
  replace (Z.quot sod 3600 >? 23) with false by qlia.
  replace (Z.rem (Z.quot sod 60) 60 >? 59) with false by qlia.
  replace (Z.rem sod 60 >? 59) with false by qlia.
  replace (d <? 1) with false by lia. replace (d >? days_in_month y m) with false by lia.
  simpl. rewrite Hl7, Hdays. do 2 f_equal.
  replace (Z.quot sod 3600 * 3600 + Z.rem (Z.quot sod 60) 60 * 60 + Z.rem sod 60) with sod by qlia.
  done.
Qed.

Lemma from_unix_nanos_spec n :
  MIN_UNIX_NANOS ≤ n ≤ MAX_UNIX_NANOS →
  ∃ t, from_unix_nanos n = Some t ∧ unix_nanos t = n.
Proof.
  unfold MIN_UNIX_NANOS, MAX_UNIX_NANOS. intros Hn.
  unfold from_unix_nanos, NANOS_PER_SEC.
  assert (in_range I64_MIN I64_MAX (n / 1000000000) = true) as ->
    by (apply in_range_true; unfold I64_MIN, I64_MAX; dlia).
  cbn [negb]. destruct (civil_from_days (n / 1000000000 / 86400)) as [[y m] d] eqn:Hc.
  assert (0 ≤ y ≤ 9999) as Hy by (apply (civil_year_range _ _ _ _ Hc); dlia).
  assert (in_range 0 9999 y = true) as -> by (by apply in_range_true). simpl.
  eexists. split.
  - apply parse_timestamp_text with (days := n / 1000000000 / 86400);
      [by right|done|done|dlia|change (10 ^ Z.of_nat 9) with 1000000000; dlia].
  - cbn. unfold NANOS_PER_SEC. change (10 ^ (9 - Z.of_nat 9)) with 1. dlia.
Qed.

Lemma from_unix_nanos_None n :
  ¬ (MIN_UNIX_NANOS ≤ n ≤ MAX_UNIX_NANOS) → from_unix_nanos n = None.
Proof.
  unfold MIN_UNIX_NANOS, MAX_UNIX_NANOS. intros Hn.
  unfold from_unix_nanos, NANOS_PER_SEC.
  destruct (in_range I64_MIN I64_MAX (n / 1000000000)); [|done]. cbn [negb].
  destruct (civil_from_days (n / 1000000000 / 86400)) as [[y m] d] eqn:Hc.
  destruct (in_range 0 9999 y) eqn:Hy; [|done].
  apply in_range_true, (civil_year_range _ _ _ _ Hc) in Hy. dlia.
Qed.

Lemma from_unix_millis_spec n :
  MIN_UNIX_NANOS ≤ n * 1000000 ≤ MAX_UNIX_NANOS →
  ∃ t, from_unix_millis n = Some t ∧ unix_nanos t = n * 1000000.
Proof.
  unfold MIN_UNIX_NANOS, MAX_UNIX_NANOS. intros Hn. unfold from_unix_millis.
  destruct (civil_from_days (n / 1000 / 86400)) as [[y m] d] eqn:Hc.
  assert (0 ≤ y ≤ 9999) as Hy by (apply (civil_year_range _ _ _ _ Hc); dlia).
  assert (in_range 0 9999 y = true) as -> by (by apply in_range_true). simpl.
  eexists. split.
  - apply parse_timestamp_text with (days := n / 1000 / 86400);
      [by left|done|done|dlia|change (10 ^ Z.of_nat 3) with 1000; dlia].
  - cbn. unfold NANOS_PER_SEC. change (10 ^ (9 - Z.of_nat 3)) with 1000000. dlia.
Qed.

(** A parsed timestamp keeps its spelling. *)
Lemma Timestamp_parse_text s t : Timestamp_parse s = Some t → ts_text t = s.
Proof.
  unfold Timestamp_parse, mbind, option_bind. intros H. case_in H. done.
Qed.

(** Timestamps written from an instant are exact: for every nanosecond instant of the
    years 0000 to 9999, [from_unix_nanos] writes a text that [Timestamp::parse] accepts and
    that names the same instant, and for every other instant it returns nothing. *)
Theorem from_unix_nanos_exact (n : Z) :
  match from_unix_nanos n with
  | Some t => unix_nanos t = n ∧ Timestamp_parse (ts_text t) = Some t
  | None => n < MIN_UNIX_NANOS ∨ MAX_UNIX_NANOS < n
  end.
Proof.
  destruct (decide (MIN_UNIX_NANOS ≤ n ≤ MAX_UNIX_NANOS)) as [Hn|Hn].
  - destruct (from_unix_nanos_spec n Hn) as (t & Ht & Hu). rewrite Ht. split; [done|].
    unfold from_unix_nanos in Ht. case_in Ht. by rewrite (Timestamp_parse_text _ _ Ht).
  - rewrite from_unix_nanos_None by done. lia.
Qed.

(** ** Session ids *)

Definition crockford_char (v : Z) : Z := default 0 (CROCKFORD !! Z.to_nat v).

Lemma crockford_char_spec v :
  0 ≤ v < 32 → crockford_char v ∈ CROCKFORD ∧ (v < 8 ↔ 48 ≤ crockford_char v ≤ 55) ∧
  is_u8 (crockford_char v) ∧ (∀ w, 0 ≤ w < 32 → crockford_char w = crockford_char v → w = v).
Proof.
  intros Hv. unfold crockford_char.
  assert (∀ i, (i < 32)%nat → match CROCKFORD !! i with
    | Some c => ((i < 8)%nat ↔ 48 ≤ c ≤ 55) ∧ is_u8 c
    | None => False end) as Hall.
  { intros i Hi. do 32 (destruct i as [|i]; [vm_compute; intuition (lia || discriminate)|]). lia. }
  pose proof (Hall (Z.to_nat v) ltac:(lia)) as H.
  destruct (CROCKFORD !! Z.to_nat v) as [c|] eqn:Ec; [|done]. simpl. destruct H as [H1 H2].
  split_and!; [by eapply list_elem_of_lookup_2|lia|exact H2|].
  intros w Hw Heq. pose proof (Hall (Z.to_nat w) ltac:(lia)) as H.
  destruct (CROCKFORD !! Z.to_nat w) as [c'|] eqn:Ec'; [|done]. simpl in Heq. subst c'.
  assert (NoDup CROCKFORD) as Hnd by (apply (bool_decide_unpack _); vm_compute; done).
  pose proof (NoDup_lookup _ _ _ _ Hnd Ec Ec'). lia.
Qed.

Lemma crockford_char_inv c :
  c ∈ CROCKFORD → ∃ v, 0 ≤ v < 32 ∧ crockford_char v = c.
Proof.
  intros [i Hi]%list_elem_of_lookup_1.
  pose proof (lookup_lt_Some _ _ _ Hi) as Hl. change (length CROCKFORD) with 32%nat in Hl.
  exists (Z.of_nat i). split; [lia|]. unfold crockford_char. by rewrite Nat2Z.id, Hi.
Qed.

Lemma from_random_octets_digits o :
  from_random_octets o = map crockford_char (be_digits 32 26 (from_be_bytes o)).
Proof.
  unfold from_random_octets, be_digits. rewrite map_map. apply map_ext_in. intros k _.
  unfold crockford_char. do 3 f_equal. rewrite Z.shiftr_div_pow2 by lia.
  change 31 with (2 ^ 5 - 1). rewrite land_mask by lia.
  change 32 with (2 ^ 5). rewrite <- Z.pow_mul_r by lia. done.
Qed.

Lemma from_be_bytes_value o : from_be_bytes o = be_value 256 o.
Proof. done. Qed.

Lemma be_digits_cons B n v :
  0 < B → be_digits B (S n) v = (v / B ^ Z.of_nat n) mod B :: be_digits B n v.
Proof.
  intros HB. unfold be_digits. rewrite seq_S, rev_app_distr. done.
Qed.

Lemma from_random_octets_is_session_id o :
  length o = 16%nat → Forall is_u8 o → is_session_id (from_random_octets o) = true.
Proof.
  intros Hl Ho. rewrite from_random_octets_digits, from_be_bytes_value.
  pose proof (be_value_bound 256 o ltac:(lia) Ho) as Hv. rewrite Hl in Hv.
  set (v := be_value 256 o) in *.
  rewrite be_digits_cons by lia. rewrite map_cons.
  pose proof (crockford_char_spec ((v / 32 ^ Z.of_nat 25) mod 32) ltac:(dlia)) as (_ & H8 & _ & _).
  unfold is_session_id. rewrite !andb_true_iff. split_and!.
  - apply bool_decide_eq_true. by rewrite length_cons, length_map, length_be_digits.
  - apply in_range_true, H8.
    change (256 ^ Z.of_nat 16) with 340282366920938463463374607431768211456 in Hv.
    change (32 ^ Z.of_nat 25) with 42535295865117307932921825928971026432. dlia.
  - apply forallb_forall. intros c (d & <- & Hd)%in_map_iff. apply bool_decide_eq_true.
    pose proof (be_digits_bound 32 25 v ltac:(lia)) as Hb. rewrite Forall_forall in Hb.
    apply crockford_char_spec, Hb. by apply list_elem_of_In.
Qed.

Lemma crockford_digits_inv s :
  Forall (λ c, c ∈ CROCKFORD) s →
  ∃ ds, s = map crockford_char ds ∧ Forall (λ d, 0 ≤ d < 32) ds.
Proof.
  induction 1 as [|c s Hc Hs (ds & -> & Hds)]; [by exists []|].
  destruct (crockford_char_inv c Hc) as (d & Hd & <-). exists (d :: ds). by split; [|constructor].
Qed.

Lemma session_id_digits s :
  is_session_id s = true →
  ∃ d ds, s = map crockford_char (d :: ds) ∧ 0 ≤ d < 8 ∧ length ds = 25%nat ∧
          Forall (λ d, 0 ≤ d < 32) ds.
Proof.
  destruct s as [|c s]; [done|]. unfold is_session_id. intros H. bool_hyps.
  apply in_range_true in H1. injection H as H. apply Forall_forallb in H0.
  destruct (crockford_digits_inv s) as (ds & -> & Hds).
  { eapply Forall_impl; [exact H0|]. intros x Hx. by apply bool_decide_eq_true in Hx. }
  rewrite length_map in H.
  exists (c - 48), ds. split_and!; try lia; try done. simpl. f_equal.
  assert (c = 48 ∨ c = 49 ∨ c = 50 ∨ c = 51 ∨ c = 52 ∨ c = 53 ∨ c = 54 ∨ c = 55 ∨ False) as Hc by lia.
  by repeat destruct Hc as [->|Hc].
Qed.

Lemma map_crockford_inj ds es :
  Forall (λ d, 0 ≤ d < 32) ds → Forall (λ d, 0 ≤ d < 32) es →
  map crockford_char ds = map crockford_char es → ds = es.
Proof.
  intros Hds. revert es. induction Hds as [|d ds Hd Hds IH]; intros [|e es] Hes; try done.
  simpl. intros [= Hc Hm]. inv_Forall. f_equal; [|by apply IH].
  by apply (crockford_char_spec e).
Qed.

(** Session ids are exactly the spellings of 128-bit values: a string has the session-id
    form if and only if [from_random_octets] produces it from some sixteen octets, and those
    octets are unique.  So minting loses no entropy, and no accepted id is unmintable. *)
Theorem session_id_bijection (s : list Z) :
  is_session_id s = true ↔
  ∃ o, (length o = 16%nat ∧ Forall is_u8 o ∧ from_random_octets o = s) ∧
       ∀ o', length o' = 16%nat → Forall is_u8 o' → from_random_octets o' = s → o' = o.
Proof.
  split; [|intros (o & (? & ? & <-) & _); by apply from_random_octets_is_session_id].
  intros (d & ds & -> & Hd & Hl & Hds)%session_id_digits.
  assert (Forall (λ d, 0 ≤ d < 32) (d :: ds)) as Hdd by (constructor; [lia|done]).
  set (v := be_value 32 (d :: ds)).
  assert (0 ≤ v < 256 ^ Z.of_nat 16) as Hv.
  { unfold v. pose proof (be_value_bound 32 ds ltac:(lia) Hds) as Hb. rewrite Hl in Hb.
    rewrite be_value_cons, Hl.
    change (256 ^ Z.of_nat 16) with (8 * 32 ^ 25). change (32 ^ Z.of_nat 25) with (32 ^ 25) in *. nia. }
  exists (be_digits 256 16 v). split_and!.
  - apply length_be_digits.
  - by apply be_digits_bound.
  - rewrite from_random_octets_digits, from_be_bytes_value, be_value_digits, Z.mod_small by lia.
    f_equal. unfold v. replace 26%nat with (length (d :: ds)) by (simpl; lia).
    by apply be_digits_value.
  - intros o' Hl' Ho' Heq. rewrite from_random_octets_digits in Heq.
    apply map_crockford_inj in Heq; [|by apply be_digits_bound|done].
    rewrite <- (be_digits_value 256 o') by (done || lia). rewrite Hl'. f_equal.
    unfold v. rewrite <- Heq, be_value_digits by lia. rewrite Z.mod_small.
    + done.
    + rewrite from_be_bytes_value. pose proof (be_value_bound 256 o' ltac:(lia) Ho') as Hb.
      rewrite Hl' in Hb. change (256 ^ Z.of_nat 16) with 340282366920938463463374607431768211456 in Hb.
      change (32 ^ Z.of_nat 26) with 1361129467683753853853498429727072845824. lia.
Qed.

Lemma crockford_token c :
  c ∈ CROCKFORD → (is_ascii_alphanumeric c || (c =? 46) || (c =? 95) || (c =? 58) || (c =? 45)) = true.
Proof.
  assert (Forall (λ c, is_ascii_alphanumeric c = true) CROCKFORD) as H
    by (apply Forall_forallb; vm_compute; done).
  rewrite Forall_forall in H. intros Hc. by rewrite (H c Hc).
Qed.

(** Every session id is an identifier token ([impl From<SessionId> for Token]). *)
Lemma session_id_is_token s : is_session_id s = true → is_token s = true.
Proof.
  destruct s as [|c s]; [done|]. unfold is_session_id, is_token. intros H. bool_hyps. rewrite H.
  rewrite andb_true_iff. split; [done|]. simpl. rewrite andb_true_iff. split.
  - apply crockford_token. apply in_range_true in H1.
    assert (c = 48 ∨ c = 49 ∨ c = 50 ∨ c = 51 ∨ c = 52 ∨ c = 53 ∨ c = 54 ∨ c = 55 ∨ False) as Hc by lia.
    repeat destruct Hc as [->|Hc]; [..|done]; apply (bool_decide_unpack _); vm_compute; done.
  - apply Forall_forallb in H0. apply Forall_forallb.
    eapply Forall_impl; [exact H0|]. intros x Hx. apply crockford_token.
    by apply bool_decide_eq_true in Hx.
Qed.

(** ** Versions *)

(** A decimal spelling with no superfluous zero is the one [to_dec] writes. *)
Lemma to_dec_value s :
  forallb is_ascii_digit s = true → (1 ≤ length s ≤ 20)%nat →
  (length s = 1%nat ∨ s !! 0%nat ≠ Some 48) → to_dec (dec_value s) = s.
Proof.
  unfold to_dec. generalize 20%nat as fuel. intros fuel Hd. revert fuel Hd.
  induction s as [|d s IH] using rev_ind; intros fuel Hd Hl Hz; [simpl in Hl; lia|].
  rewrite length_app in *. simpl in Hl, Hz. rewrite forallb_app in Hd. bool_hyps.
  simpl in H0. rewrite andb_true_r in H0. apply in_range_true in H0.
  rewrite dec_value_snoc. destruct fuel as [|fuel]; [lia|]. simpl.
  destruct (decide (s = [])) as [->|Hne].
  - change (dec_value []) with 0. replace (0 * 10 + (d - 48) <? 10) with true by lia.
    simpl. f_equal. lia.
  - assert (1 ≤ length s)%nat by (destruct s; [done|simpl; lia]).
    assert (s !! 0%nat ≠ Some 48) as Hs.
    { destruct Hz as [Hz|Hz]; [lia|]. rewrite lookup_app_l in Hz by lia. done. }
    assert (1 ≤ dec_value s) as Hpos.
    { clear - H Hs Hne. destruct s as [|c s]; [done|]. simpl in *. bool_hyps.
      apply in_range_true in H. unfold dec_value. simpl.
      assert (∀ l a, 1 ≤ a → forallb is_ascii_digit l = true →
        1 ≤ foldl (λ a d, a * 10 + (d - 48)) a l) as Hf.
      { induction l as [|x l IHl]; intros a Ha Hdig; [done|]. simpl in *. bool_hyps.
        apply in_range_true in H1. apply IHl; [lia|done]. }
      apply Hf; [|done]. assert (c ≠ 48) by congruence. lia. }
    replace (dec_value s * 10 + (d - 48) <? 10) with false by lia.
    f_equal.
    + replace ((dec_value s * 10 + (d - 48)) / 10) with (dec_value s) by dlia.
      apply IH; [done|lia|]. by right.
    + f_equal. dlia.
Qed.

Lemma version_part_spec s n :
  version_part s = Some n ↔ 0 ≤ n ≤ 9999 ∧ s = to_dec n.
Proof.
  unfold version_part. split.
  - intros H. destruct (_ && _) eqn:E; [|done].
    apply andb_true_iff in E as [[E H1]%andb_true_iff H0]. apply in_range_true in E.
    unfold then_some in H. case_in H. bool_hyps.
    assert (s = to_dec (dec_value s)) as Hs.
    { symmetry. apply to_dec_value; [done|lia|].
      apply orb_true_iff in H0 as [H0|H0]; bool_hyps; [by left|right].
      intros Hh. by rewrite Hh in H0. }
    split; [|done]. apply Forall_forallb in H1.
    assert (dec_value s = be_value 10 (map (λ d, d - 48) s)) as ->.
    { unfold dec_value, be_value. generalize 0. clear. induction s; intros a'; [done|]. simpl. apply IHs. }
    pose proof (be_value_bound 10 (map (λ d, d - 48) s) ltac:(lia)) as Hb.
    rewrite length_map in Hb.
    assert (10 ^ Z.of_nat (length s) ≤ 10 ^ 4) by (apply Z.pow_le_mono_r; lia).
    change (10 ^ 4) with 10000 in *.
    assert (Forall (λ d, 0 ≤ d < 10) (map (λ d, d - 48) s)) as HF; [|specialize (Hb HF); lia].
    apply Forall_map. eapply Forall_impl; [exact H1|]. intros d Hd%in_range_true. simpl. lia.
  - intros [Hn ->]. destruct (to_dec_spec n) as (H1 & H2 & H3 & H4 & H5 & H6); [unfold U64_MAX; lia|].
    specialize (H6 4%nat ltac:(lia)). change (10 ^ Z.of_nat 4) with 10000 in H6.
    rewrite H1, H2.
    assert (in_range 1 4 (Z.of_nat (length (to_dec n))) = true) as -> by (apply in_range_true; lia).
    assert ((bool_decide (length (to_dec n) = 1%nat) || negb (default 0 (to_dec n !! 0%nat) =? 48)) = true) as ->.
    { destruct (to_dec n !! 0%nat) as [c|] eqn:Ec.
      - destruct (Z.eq_dec c 48) as [->|]; [|apply orb_true_iff; right; simpl; lia].
        rewrite (H5 (H4 eq_refl)). done.
      - apply lookup_ge_None in Ec. lia. }
    unfold then_some, U16_MAX. by replace (n <=? 65535) with true by lia.
Qed.

Lemma split_once_app c p q : c ∉ p → split_once c (p ++ c :: q) = Some (p, q).
Proof.
  induction p as [|b p IH]; intros Hc; simpl.
  - by rewrite Z.eqb_refl.
  - apply not_elem_of_cons in Hc as [Hb Hc]. replace (b =? c) with false by lia.
    by rewrite IH.
Qed.

Lemma split_once_Some c s p q : split_once c s = Some (p, q) → s = p ++ c :: q.
Proof.
  revert p. induction s as [|b s IH]; intros p H; simpl in H; [done|].
  destruct (b =? c) eqn:E; bool_hyps; [by injection H as <- <-; subst|].
  destruct (split_once c s) as [[p' q']|]; [|done]. injection H as <- <-.
  by rewrite (IH p').
Qed.

Lemma Version_parse_iff s v :
  Version_parse s = Some v ↔
  0 ≤ major v ≤ 9999 ∧ 0 ≤ minor v ≤ 9999 ∧ s = Version_to_string v.
Proof.
  unfold Version_parse, Version_to_string. split.
  - intros H. destruct (split_once 46 s) as [[a b]|] eqn:E; [|done]. simpl in H.
    destruct (version_part a) as [ma|] eqn:Ea; [|done]. simpl in H.
    destruct (version_part b) as [mi|] eqn:Eb; [|done]. injection H as <-. simpl.
    apply version_part_spec in Ea as [? ->]. apply version_part_spec in Eb as [? ->].
    apply split_once_Some in E. done.
  - intros (Hma & Hmi & ->). change ([46] ++ ?b) with (46 :: b). rewrite split_once_app.
    + simpl. assert (version_part (to_dec (major v)) = Some (major v)) as -> by (by apply version_part_spec).
      simpl. assert (version_part (to_dec (minor v)) = Some (minor v)) as -> by (by apply version_part_spec).
      by destruct v.
    + destruct (to_dec_spec (major v)) as (H1 & _); [unfold U64_MAX; lia|].
      apply Forall_forallb in H1. rewrite Forall_forall in H1. intros Hin.
      apply H1 in Hin. by vm_compute in Hin.
Qed.

Lemma Version_parse_to_string v :
  0 ≤ major v ≤ 9999 → 0 ≤ minor v ≤ 9999 → Version_parse (Version_to_string v) = Some v.
Proof. intros H1 H2. by apply Version_parse_iff. Qed.

(** The version form is canonical: [Version::parse] accepts a string if and only if it is
    what [Display] writes for a major and a minor version from 0 to 9999, and it returns
    those numbers.  No leading zero, sign, blank or extra component is accepted. *)
Theorem version_parse_spec (s : list Z) (v : Version) :
  Version_parse s = Some v ↔
  0 ≤ major v ≤ 9999 ∧ 0 ≤ minor v ≤ 9999 ∧ s = Version_to_string v.
Proof. apply Version_parse_iff. Qed.
