(* ===== verification/Utf8.v ===== *)
(** * UTF-8 and UTF-16, as the Rust standard library provides them

    [std::str::from_utf8], [str::chars], [String::push] and [str::encode_utf16], which the
    JSON reader and writers ([core/src/json.rs]) use.  A character is its code point. *)

From S2P Require Import Prelude.

(** A Unicode scalar value: what a Rust [char] holds. *)
Definition is_scalar (c : Z) : bool := in_range 0 55295 c || in_range 57344 1114111 c.

(** [char::from_u32]. *)
Definition from_u32 (c : Z) : option Z := then_some (is_scalar c) c.

(** The octets of one character ([char::encode_utf8], [String::push]). *)
Definition utf8_encode (c : Z) : list Z :=
  if c <? 128 then [c]
  else if c <? 2048 then [192 + c / 64; 128 + c mod 64]
  else if c <? 65536 then [224 + c / 4096; 128 + c / 64 mod 64; 128 + c mod 64]
  else [240 + c / 262144; 128 + c / 4096 mod 64; 128 + c / 64 mod 64; 128 + c mod 64].

Definition is_cont (b : Z) : bool := in_range 128 191 b.

(** The second octet of a three-octet and of a four-octet sequence: overlong forms,
    surrogates and code points beyond U+10FFFF are refused here. *)
Definition second3_ok (b0 b1 : Z) : bool :=
  if b0 =? 224 then in_range 160 191 b1
  else if b0 =? 237 then in_range 128 159 b1
  else is_cont b1.

Definition second4_ok (b0 b1 : Z) : bool :=
  if b0 =? 240 then in_range 144 191 b1
  else if b0 =? 244 then in_range 128 143 b1
  else is_cont b1.

(** The characters of an octet string, [None] when it is not well-formed UTF-8:
    [from_utf8] and [chars] in one. *)
Fixpoint utf8_decode (s : list Z) : option (list Z) :=
  match s with
  | [] => Some []
  | b0 :: r0 =>
      if in_range 0 127 b0 then cons b0 <$> utf8_decode r0
      else match r0 with
      | [] => None
      | b1 :: r1 =>
        if in_range 194 223 b0 then
          if is_cont b1 then cons ((b0 - 192) * 64 + (b1 - 128)) <$> utf8_decode r1 else None
        else match r1 with
        | [] => None
        | b2 :: r2 =>
          if in_range 224 239 b0 then
            if second3_ok b0 b1 && is_cont b2
            then cons ((b0 - 224) * 4096 + (b1 - 128) * 64 + (b2 - 128)) <$> utf8_decode r2
            else None
          else match r2 with
          | [] => None
          | b3 :: r3 =>
            if in_range 240 244 b0 && second4_ok b0 b1 && is_cont b2 && is_cont b3
            then cons ((b0 - 240) * 262144 + (b1 - 128) * 4096 + (b2 - 128) * 64 + (b3 - 128))
                 <$> utf8_decode r3
            else None
          end
        end
      end
  end.

(** [std::str::from_utf8(s).is_ok()]; [str::chars] of a well-formed string. *)
Definition is_utf8 (s : list Z) : bool := is_some (utf8_decode s).
Definition chars (s : list Z) : list Z := default [] (utf8_decode s).

(** [str::encode_utf16]: the UTF-16 code units of the characters. *)
Definition utf16_units (c : Z) : list Z :=
  if c <? 65536 then [c] else [55296 + (c - 65536) / 1024; 56320 + (c - 65536) mod 1024].

Definition encode_utf16 (s : list Z) : list Z := mjoin (map utf16_units (chars s)).

(** ** Round trips *)

Ltac in_ranges :=
  repeat match goal with
  | H : in_range _ _ _ = true |- _ => apply in_range_true in H
  | H : in_range ?lo ?hi ?b = false |- _ =>
      assert (b < lo ∨ hi < b) by (unfold in_range in H; lia); clear H
  end.

Lemma is_scalar_true c : is_scalar c = true ↔ 0 ≤ c ≤ 55295 ∨ 57344 ≤ c ≤ 1114111.
Proof. unfold is_scalar. rewrite orb_true_iff, !in_range_true. done. Qed.

Ltac range_true := match goal with
  | |- context [in_range ?lo ?hi ?b] =>
      replace (in_range lo hi b) with true by (symmetry; apply in_range_true; dlia)
  end.
Ltac range_false := match goal with
  | |- context [in_range ?lo ?hi ?b] =>
      replace (in_range lo hi b) with false by (unfold in_range; dlia)
  end.

Lemma utf8_decode_encode c s :
  is_scalar c = true → utf8_decode (utf8_encode c ++ s) = cons c <$> utf8_decode s.
Proof.
  intros Hc%is_scalar_true. unfold utf8_encode.
  destruct (c <? 128) eqn:E1; bool_hyps; [simpl; by range_true|].
  destruct (c <? 2048) eqn:E2; bool_hyps.
  { simpl. range_false. range_true. unfold is_cont. range_true.
    f_equal. replace _ with (cons c : list Z → list Z); [done|]. f_equal. dlia. }
  destruct (c <? 65536) eqn:E3; bool_hyps.
  { simpl. do 2 range_false. range_true. unfold second3_ok, is_cont.
    destruct (224 + c / 4096 =? 224) eqn:E4; [|destruct (224 + c / 4096 =? 237) eqn:E5];
      bool_hyps; do 2 range_true; simpl;
      (replace ((224 + c / 4096 - 224) * 4096 + _ + _) with c by dlia); done. }
  simpl. do 3 range_false. range_true. unfold second4_ok, is_cont.
  destruct (240 + c / 262144 =? 240) eqn:E4; [|destruct (240 + c / 262144 =? 244) eqn:E5];
    bool_hyps; do 3 range_true; simpl;
    (replace ((240 + c / 262144 - 240) * 262144 + _ + _ + _) with c by dlia); done.
Qed.

Lemma utf8_decode_concat cs s :
  Forall (λ c, is_scalar c = true) cs →
  utf8_decode (mjoin (map utf8_encode cs) ++ s) = app cs <$> utf8_decode s.
Proof.
  induction 1 as [|c cs Hc Hcs IH]; simpl; [by destruct (utf8_decode s)|].
  rewrite <- app_assoc, utf8_decode_encode, IH by done. by destruct (utf8_decode s).
Qed.

Lemma fmap_cons_Some (c : Z) (o : option (list Z)) cs :
  cons c <$> o = Some cs → ∃ cs', o = Some cs' ∧ cs = c :: cs'.
Proof. destruct o; [|done]. intros [= <-]. eauto. Qed.

Lemma utf8_decode_cons b0 r0 cs :
  utf8_decode (b0 :: r0) = Some cs →
  ∃ c r cs', cs = c :: cs' ∧ b0 :: r0 = utf8_encode c ++ r ∧ is_scalar c = true ∧
             utf8_decode r = Some cs'.
Proof.
  simpl. intros H. destruct (in_range 0 127 b0) eqn:E0; in_ranges.
  { apply fmap_cons_Some in H as (cs' & ? & ->). exists b0, r0, cs'. split_and!; try done.
    - unfold utf8_encode. by replace (b0 <? 128) with true by lia.
    - apply is_scalar_true. lia. }
  destruct r0 as [|b1 r1]; [done|].
  destruct (in_range 194 223 b0) eqn:E1; in_ranges.
  { destruct (is_cont b1) eqn:E2; [|done]. unfold is_cont in *. in_ranges.
    apply fmap_cons_Some in H as (cs' & ? & ->).
    set (c := (b0 - 192) * 64 + (b1 - 128)). exists c, r1, cs'. split_and!; try done.
    - unfold utf8_encode, c. replace (_ <? 128) with false by lia.
      replace (_ <? 2048) with true by lia. simpl. repeat f_equal; dlia.
    - apply is_scalar_true. lia. }
  destruct r1 as [|b2 r2]; [done|].
  destruct (in_range 224 239 b0) eqn:E2; in_ranges.
  { destruct (second3_ok b0 b1 && is_cont b2) eqn:E3; [|done]. bool_hyps.
    assert (128 ≤ b1 ≤ 191 ∧ (b0 = 224 → 160 ≤ b1) ∧ (b0 = 237 → b1 ≤ 159)) as Hb1.
    { unfold second3_ok, is_cont in *. clear H.
      destruct (b0 =? 224) eqn:?, (b0 =? 237) eqn:?; bool_hyps; in_ranges; lia. }
    unfold is_cont in *. in_ranges. apply fmap_cons_Some in H as (cs' & ? & ->).
    set (c := (b0 - 224) * 4096 + (b1 - 128) * 64 + (b2 - 128)). exists c, r2, cs'.
    split_and!; try done.
    - unfold utf8_encode, c. replace (_ <? 128) with false by lia.
      replace (_ <? 2048) with false by lia. replace (_ <? 65536) with true by lia.
      simpl. repeat f_equal; dlia.
    - apply is_scalar_true. lia. }
  destruct r2 as [|b3 r3]; [done|].
  destruct (in_range 240 244 b0 && second4_ok b0 b1 && is_cont b2 && is_cont b3) eqn:E3; [|done].
  bool_hyps.
  assert (128 ≤ b1 ≤ 191 ∧ (b0 = 240 → 144 ≤ b1) ∧ (b0 = 244 → b1 ≤ 143)) as Hb1.
  { unfold second4_ok, is_cont in *. clear H.
    destruct (b0 =? 240) eqn:?, (b0 =? 244) eqn:?; bool_hyps; in_ranges; lia. }
  unfold is_cont in *. in_ranges. apply fmap_cons_Some in H as (cs' & ? & ->).
  set (c := (b0 - 240) * 262144 + (b1 - 128) * 4096 + (b2 - 128) * 64 + (b3 - 128)).
  exists c, r3, cs'. split_and!; try done.
  - unfold utf8_encode, c. replace (_ <? 128) with false by lia.
    replace (_ <? 2048) with false by lia. replace (_ <? 65536) with false by lia.
    simpl. repeat f_equal; dlia.
  - apply is_scalar_true. lia.
Qed.

Lemma utf8_encode_nonempty c : (0 < length (utf8_encode c))%nat.
Proof. unfold utf8_encode. repeat case_match; simpl; lia. Qed.

(** Well-formed UTF-8 is exactly a sequence of encoded characters. *)
Lemma utf8_decode_Some s cs :
  utf8_decode s = Some cs ↔
  s = mjoin (map utf8_encode cs) ∧ Forall (λ c, is_scalar c = true) cs.
Proof.
  split.
  - remember (length s) as n eqn:Hn. revert s Hn cs.
    induction n as [n IH] using (well_founded_induction lt_wf). intros s -> cs H.
    destruct s as [|b0 r0]; [by injection H as <-|].
    apply utf8_decode_cons in H as (c & r & cs' & -> & Heq & Hc & Hr).
    pose proof (utf8_encode_nonempty c).
    apply (IH (length r)) in Hr as [-> Hcs]; [|rewrite Heq, length_app; lia|done].
    rewrite Heq.
    split; [done|by constructor].
  - intros [-> Hcs]. rewrite <- (app_nil_r (mjoin _)), utf8_decode_concat by done.
    simpl. by rewrite app_nil_r.
Qed.

Lemma is_utf8_true s : is_utf8 s = true ↔ ∃ cs, utf8_decode s = Some cs.
Proof. unfold is_utf8. destruct (utf8_decode s); simpl; split; eauto; naive_solver. Qed.

Lemma chars_spec s :
  is_utf8 s = true → s = mjoin (map utf8_encode (chars s)) ∧
                     Forall (λ c, is_scalar c = true) (chars s).
Proof.
  intros [cs Hcs]%is_utf8_true. unfold chars. rewrite Hcs. simpl. by apply utf8_decode_Some.
Qed.

(** Concatenating and splitting at a character boundary. *)
Lemma utf8_decode_app a b ca :
  utf8_decode a = Some ca → utf8_decode (a ++ b) = app ca <$> utf8_decode b.
Proof. intros [-> Ha]%utf8_decode_Some. by apply utf8_decode_concat. Qed.

Lemma utf8_decode_ascii s :
  Forall (λ b, 0 ≤ b < 128) s → utf8_decode s = Some s.
Proof.
  induction 1 as [|b s Hb Hs IH]; [done|]. simpl. range_true. by rewrite IH.
Qed.
