(* ===== verification/Json.v ===== *)
(** * I-JSON trees, reading and writing ([core/src/json.rs])

    The tree, the strict reader with its explicit stack of open containers, the depth-first
    walk, the compact writer, and the copy and comparison built on the walk.  The reader's
    nested loops are a step function on a phase, a parser and a stack, run with fuel; the
    facts about it (it always returns, it accepts only I-JSON, it reads back what the writer
    writes) are in [JsonFacts]. *)

From S2P Require Import Prelude Ids Utf8.

(** ** The tree *)

Inductive Json : Type :=
| JNull
| JBool (b : bool)
| JNumber (raw : list Z)
| JString (s : list Z)
| JArray (items : list Json)
| JObject (members : list (list Z * Json)).

Abbreviation JsonObject := (list (list Z * Json)) (only parsing).

Inductive JsonError : Type :=
| NotUtf8
| Syntax (offset : nat) (reason : string)
| ForbiddenCodePoint
| DuplicateMember (name : list Z).

(** ** Characters *)

Definition is_noncharacter (u : Z) : bool :=
  in_range 64976 65007 u || (Z.land u 65534 =? 65534).

Definition is_ijson_string (s : list Z) : bool := negb (existsb is_noncharacter (chars s)).

(** ** The parser

    [p_i] is the field [i] of the Rust parser, [p_s] the octets from that offset on. *)

Record Parser := mkParser { p_i : nat; p_s : list Z }.

Definition perr {A} (p : Parser) (reason : string) : result JsonError A :=
  Err (Syntax (p_i p) reason).

Definition peek (p : Parser) : option Z := head (p_s p).

Definition advance (n : nat) (p : Parser) : Parser := mkParser (p_i p + n) (drop n (p_s p)).

Definition is_ws (b : Z) : bool := (b =? 32) || (b =? 9) || (b =? 10) || (b =? 13).

Fixpoint skip_ws (i : nat) (s : list Z) : Parser :=
  match s with
  | b :: r => if is_ws b then skip_ws (S i) r else mkParser i s
  | [] => mkParser i []
  end.

Definition ws (p : Parser) : Parser := skip_ws (p_i p) (p_s p).

(** [literal]: the octets must start with the word. *)
Fixpoint starts_with (word s : list Z) : bool :=
  match word, s with
  | [], _ => true
  | w :: word', b :: s' => (w =? b) && starts_with word' s'
  | _, [] => false
  end.

Definition literal (word : list Z) (v : Json) (p : Parser) : result JsonError (Json * Parser) :=
  if starts_with word (p_s p) then Ok (v, advance (length word) p) else perr p "bad literal".

(** [digits] of the parser: the run of ASCII digits at the parser. *)
Fixpoint take_digits (s : list Z) : list Z :=
  match s with
  | b :: r => if is_ascii_digit b then b :: take_digits r else []
  | [] => []
  end.

Definition read_digits (p : Parser) : list Z * Parser :=
  let ds := take_digits (p_s p) in (ds, advance (length ds) p).

(** [number]: the sign, the integer part, the optional fraction and the optional exponent;
    the value keeps the octets consumed. *)
Definition number_int (p : Parser) : result JsonError (list Z * Parser) :=
  match peek p with
  | Some b =>
      if b =? 48 then Ok ([48], advance 1 p)
      else if in_range 49 57 b then Ok (read_digits p)
      else perr p "bad number"
  | None => perr p "bad number"
  end.

Definition number_frac (p : Parser) : result JsonError (list Z * Parser) :=
  if bool_decide (peek p = Some 46) then
    let '(ds, p') := read_digits (advance 1 p) in
    if bool_decide (ds = []) then perr p' "bad number fraction" else Ok (46 :: ds, p')
  else Ok ([], p).

Definition number_exp (p : Parser) : result JsonError (list Z * Parser) :=
  match peek p with
  | Some e =>
      if (e =? 101) || (e =? 69) then
        let p1 := advance 1 p in
        let '(sign, p2) := match peek p1 with
                           | Some c => if (c =? 43) || (c =? 45) then ([c], advance 1 p1) else ([], p1)
                           | None => ([], p1)
                           end in
        let '(ds, p3) := read_digits p2 in
        if bool_decide (ds = []) then perr p3 "bad number exponent"
        else Ok (e :: sign ++ ds, p3)
      else Ok ([], p)
  | None => Ok ([], p)
  end.

Definition number (p : Parser) : result JsonError (Json * Parser) :=
  let '(sign, p0) := if bool_decide (peek p = Some 45) then ([45], advance 1 p) else ([], p) in
  '(int, p1) ← number_int p0;
  '(frac, p2) ← number_frac p1;
  '(exp, p3) ← number_exp p2;
  Ok (JNumber (sign ++ int ++ frac ++ exp), p3).

(** [char::to_digit(16)]. *)
Definition to_digit16 (b : Z) : option Z :=
  if in_range 48 57 b then Some (b - 48)
  else if in_range 97 102 b then Some (b - 97 + 10)
  else if in_range 65 70 b then Some (b - 65 + 10)
  else None.

Fixpoint hex_value (v : Z) (h : list Z) : option Z :=
  match h with
  | [] => Some v
  | b :: r => d ← to_digit16 b; hex_value (v * 16 + d) r
  end.

(** [hex4]: four hexadecimal digits at offset [i]; the caller advances past them. *)
Definition hex4 (i : nat) (s : list Z) : result JsonError Z :=
  match s with
  | a :: b :: c :: d :: _ =>
      match hex_value 0 [a; b; c; d] with
      | Some v => Ok v
      | None => Err (Syntax i "bad escape")
      end
  | _ => Err (Syntax i "bad escape")
  end.

(** The one-character escapes. *)
Definition simple_escape (e : Z) : option Z :=
  if e =? 34 then Some 34
  else if e =? 92 then Some 92
  else if e =? 47 then Some 47
  else if e =? 98 then Some 8
  else if e =? 102 then Some 12
  else if e =? 110 then Some 10
  else if e =? 114 then Some 13
  else if e =? 116 then Some 9
  else None.

(** The loop of [string], from just after the opening quote: [i] is the offset, [out] the
    decoded text so far. *)
Fixpoint string_loop (i : nat) (s : list Z) (out : list Z)
    : result JsonError (list Z * Parser) :=
  match s with
  | [] => Err (Syntax i "unterminated string")
  | b :: r =>
      if b =? 34 then Ok (out, mkParser (S i) r)
      else if b =? 92 then
        match r with
        | [] => Err (Syntax (i + 1) "bad escape")
        | e :: r2 =>
            match simple_escape e with
            | Some c => string_loop (i + 2) r2 (out ++ utf8_encode c)
            | None =>
                if e =? 117 then
                  match hex4 (i + 2) r2, r2 with
                  | Ok hi, _ :: _ :: _ :: _ :: r3 =>
                      if in_range 55296 56319 hi then
                        match r3 with
                        | b1 :: b2 :: r4 =>
                            if (b1 =? 92) && (b2 =? 117) then
                              match hex4 (i + 8) r4, r4 with
                              | Ok lo, _ :: _ :: _ :: _ :: r5 =>
                                  if in_range 56320 57343 lo then
                                    match from_u32 (65536 + Z.shiftl (hi - 55296) 10 + (lo - 56320)) with
                                    | Some c => string_loop (i + 12) r5 (out ++ utf8_encode c)
                                    | None => Err ForbiddenCodePoint
                                    end
                                  else Err ForbiddenCodePoint
                              | Err e, _ => Err e
                              | Ok _, _ => Err (Syntax (i + 8) "bad escape")
                              end
                            else Err ForbiddenCodePoint
                        | _ => Err ForbiddenCodePoint
                        end
                      else if in_range 56320 57343 hi then Err ForbiddenCodePoint
                      else match from_u32 hi with
                           | Some c => string_loop (i + 6) r3 (out ++ utf8_encode c)
                           | None => Err ForbiddenCodePoint
                           end
                  | Err e, _ => Err e
                  | Ok _, _ => Err (Syntax (i + 2) "bad escape")
                  end
                else Err (Syntax (i + 2) "bad escape")
            end
        end
      else if b <? 32 then Err (Syntax i "control character in string")
      else string_loop (S i) r (out ++ [b])
  end.

Definition read_string (p : Parser) : result JsonError (list Z * Parser) :=
  let p1 := advance 1 p in
  '(out, p2) ← string_loop (p_i p1) (p_s p1) [];
  if is_ijson_string out then Ok (out, p2) else Err ForbiddenCodePoint.

(** A member name and its colon. *)
Definition member_name (p : Parser) : result JsonError (list Z * Parser) :=
  let p := ws p in
  if bool_decide (peek p = Some 34) then
    '(name, p) ← read_string p;
    let p := ws p in
    if bool_decide (peek p = Some 58) then Ok (name, advance 1 p) else perr p "expected :"
  else perr p "expected member name".

(** A container the reader has opened and not yet closed; the head of a stack is the
    innermost. *)
Inductive Open : Type :=
| OArray (items : list Json)
| OObject (members : list (list Z * Json)) (seen : gset (list Z)) (name : list Z).

(** Where the two nested loops of [document] are: about to read a value, or with a complete
    value to add to the innermost container. *)
Inductive phase : Type :=
| Value
| Complete (v : Json).

Inductive progress : Type :=
| Next (ph : phase) (p : Parser) (stack : list Open)
| Finished (v : Json) (p : Parser).

Definition done_value (stack : list Open) (r : result JsonError (Json * Parser))
    : result JsonError progress :=
  '(v, p) ← r; Ok (Next (Complete v) p stack).

(** The head of the outer loop. *)
Definition read_value (p : Parser) (stack : list Open) : result JsonError progress :=
  let p := ws p in
  match peek p with
  | None => perr p "unexpected end"
  | Some b =>
      if b =? 91 then
        let p := ws (advance 1 p) in
        if bool_decide (peek p = Some 93) then Ok (Next (Complete (JArray [])) (advance 1 p) stack)
        else Ok (Next Value p (OArray [] :: stack))
      else if b =? 123 then
        let p := ws (advance 1 p) in
        if bool_decide (peek p = Some 125) then Ok (Next (Complete (JObject [])) (advance 1 p) stack)
        else '(name, p) ← member_name p; Ok (Next Value p (OObject [] ∅ name :: stack))
      else if b =? 34 then
        '(s, p) ← read_string p; Ok (Next (Complete (JString s)) p stack)
      else if b =? 116 then done_value stack (literal (bs "true") (JBool true) p)
      else if b =? 102 then done_value stack (literal (bs "false") (JBool false) p)
      else if b =? 110 then done_value stack (literal (bs "null") JNull p)
      else if (b =? 45) || is_ascii_digit b then done_value stack (number p)
      else perr p "unexpected character"
  end.

(** One turn of the inner loop: adds [v] to the innermost container and closes the
    container when it ends here. *)
Definition complete_value (v : Json) (p : Parser) (stack : list Open) : result JsonError progress :=
  match stack with
  | [] => Ok (Finished v p)
  | OArray items :: rest =>
      let items := items ++ [v] in
      let p := ws p in
      match peek p with
      | Some b =>
          if b =? 44 then Ok (Next Value (advance 1 p) (OArray items :: rest))
          else if b =? 93 then Ok (Next (Complete (JArray items)) (advance 1 p) rest)
          else perr p "expected , or ]"
      | None => perr p "expected , or ]"
      end
  | OObject members seen name :: rest =>
      if bool_decide (name ∈ seen) then Err (DuplicateMember name)
      else
        let seen := {[name]} ∪ seen in
        let members := members ++ [(name, v)] in
        let p := ws p in
        match peek p with
        | Some b =>
            if b =? 44 then
              '(next, p) ← member_name (advance 1 p);
              Ok (Next Value p (OObject members seen next :: rest))
            else if b =? 125 then Ok (Next (Complete (JObject members)) (advance 1 p) rest)
            else perr p "expected , or }"
        | None => perr p "expected , or }"
        end
  end.

Definition document_step (ph : phase) (p : Parser) (stack : list Open) : result JsonError progress :=
  match ph with Value => read_value p stack | Complete v => complete_value v p stack end.

(** The loops of [document]; [None] when the fuel runs out. *)
Fixpoint document_loop (fuel : nat) (ph : phase) (p : Parser) (stack : list Open)
    : option (result JsonError (Json * Parser)) :=
  match fuel with
  | O => None
  | S fuel =>
      match document_step ph p stack with
      | Err e => Some (Err e)
      | Ok (Finished v p) => Some (Ok (v, p))
      | Ok (Next ph p stack) => document_loop fuel ph p stack
      end
  end.

Definition parse_fuel (fuel : nat) (octets : list Z) : option (result JsonError Json) :=
  if is_utf8 octets then
    r ← document_loop fuel Value (mkParser 0 octets) [];
    Some ('(v, p) ← r;
          let p := ws p in
          if bool_decide (p_s p = []) then Ok v else perr p "trailing characters")
  else Some (Err NotUtf8).

(** Every step but one consumes an octet, so this many steps are enough
    ([JsonFacts.parse_fuel_enough]). *)
Definition document_fuel (octets : list Z) : nat := 2 * length octets + 2.

Definition parse (octets : list Z) : result JsonError Json :=
  default (Err (Syntax 0 "unexpected end")) (parse_fuel (document_fuel octets) octets).

(** ** Numbers and objects *)

(** [JsonNumber::plain_integer_in]: no sign, fraction, exponent or superfluous zero, and a
    [u64] value within the bounds. *)
Definition plain_integer_in (raw : list Z) (min max : Z) : option Z :=
  if negb (bool_decide (raw = [])) && forallb is_ascii_digit raw &&
     (bool_decide (length raw = 1%nat) || negb (default 0 (raw !! 0%nat) =? 48))
  then
    if dec_value raw <=? U64_MAX
    then then_some (in_range min max (dec_value raw)) (dec_value raw) else None
  else None.

(** [JsonNumber::from_u64]. *)
Definition from_u64 (v : Z) : list Z := to_dec v.

Definition obj_get (o : JsonObject) (name : list Z) : option Json :=
  snd <$> find (λ m, beq m.1 name) o.

Definition obj_contains (o : JsonObject) (name : list Z) : bool := is_some (obj_get o name).

Definition obj_names (o : JsonObject) : list (list Z) := map fst o.

(** [JsonObject::insert]: replaces in place the first member of that name, or appends. *)
Fixpoint obj_replace (o : JsonObject) (name : list Z) (v : Json) : option JsonObject :=
  match o with
  | [] => None
  | (k, w) :: r =>
      if beq k name then Some ((k, v) :: r)
      else r' ← obj_replace r name v; Some ((k, w) :: r')
  end.

Definition obj_insert (o : JsonObject) (name : list Z) (v : Json) : JsonObject :=
  match obj_replace o name v with Some o' => o' | None => o ++ [(name, v)] end.

(** [JsonObject::remove]: drops the first member of that name and returns its value. *)
Fixpoint obj_remove (o : JsonObject) (name : list Z) : option (Json * JsonObject) :=
  match o with
  | [] => None
  | (k, w) :: r =>
      if beq k name then Some (w, r)
      else '(v, r') ← obj_remove r name; Some (v, (k, w) :: r')
  end.

Definition as_str (v : Json) : option (list Z) :=
  match v with JString s => Some s | _ => None end.
Definition as_object (v : Json) : option JsonObject :=
  match v with JObject o => Some o | _ => None end.
Definition as_array (v : Json) : option (list Json) :=
  match v with JArray a => Some a | _ => None end.
Definition as_bool (v : Json) : option bool :=
  match v with JBool b => Some b | _ => None end.
Definition as_number (v : Json) : option (list Z) :=
  match v with JNumber n => Some n | _ => None end.

(** ** The depth-first walk *)

Inductive Event : Type :=
| EScalar (v : Json)
| EArrayStart
| EArrayEnd
| EObjectStart
| EName (k : list Z)
| EObjectEnd.

Inductive Frame : Type :=
| FArray (it : list Json)
| FObject (it : list (list Z * Json)).

Record Events := mkEvents { ev_stack : list Frame; ev_pending : option Json; ev_sorted : bool }.

(** Comparison of member names as arrays of UTF-16 code units. *)
Fixpoint units_lt (a b : list Z) : bool :=
  match a, b with
  | _, [] => false
  | [], _ :: _ => true
  | x :: a', y :: b' => (x <? y) || ((x =? y) && units_lt a' b')
  end.

Definition name_lt (a b : list Z) : bool := units_lt (encode_utf16 a) (encode_utf16 b).

(** [sort_by] on member names, a stable sort. *)
Section Sort.
Context {A : Type}.

Fixpoint insert_member (m : list Z * A) (l : list (list Z * A)) : list (list Z * A) :=
  match l with
  | [] => [m]
  | x :: r => if name_lt x.1 m.1 then x :: insert_member m r else m :: l
  end.

Fixpoint sort_members (l : list (list Z * A)) : list (list Z * A) :=
  match l with
  | [] => []
  | m :: r => insert_member m (sort_members r)
  end.
End Sort.

(** The part of [next] that takes the pending value: its first event, and the frame it
    opens. *)
Definition open_value (sorted : bool) (v : Json) (stack : list Frame) : Event * list Frame :=
  match v with
  | JArray a => (EArrayStart, FArray a :: stack)
  | JObject o => (EObjectStart, FObject (if sorted then sort_members o else o) :: stack)
  | scalar => (EScalar scalar, stack)
  end.

(** [Events::next]. *)
Definition events_next (e : Events) : option (Event * Events) :=
  let opened v stack :=
    let '(ev, stack') := open_value (ev_sorted e) v stack in
    Some (ev, mkEvents stack' None (ev_sorted e)) in
  match ev_pending e with
  | Some v => opened v (ev_stack e)
  | None =>
      match ev_stack e with
      | [] => None
      | FArray (v :: it) :: rest => opened v (FArray it :: rest)
      | FArray [] :: rest => Some (EArrayEnd, mkEvents rest None (ev_sorted e))
      | FObject ((k, v) :: it) :: rest =>
          Some (EName k, mkEvents (FObject it :: rest) (Some v) (ev_sorted e))
      | FObject [] :: rest => Some (EObjectEnd, mkEvents rest None (ev_sorted e))
      end
  end.

(** The events an iterator still yields; [None] when the fuel runs out. *)
Fixpoint collect (fuel : nat) (e : Events) : option (list Event) :=
  match fuel with
  | O => None
  | S fuel =>
      match events_next e with
      | None => Some []
      | Some (ev, e') => evs ← collect fuel e'; Some (ev :: evs)
      end
  end.

(** The number of nodes of a value, which bounds the length of its walk. *)
Fixpoint json_size (v : Json) : nat :=
  match v with
  | JArray a => 2 + list_sum (map json_size a)
  | JObject o => 2 + list_sum (map (λ m, 1 + json_size (snd m)) o)
  | _ => 1
  end%nat.

Definition walk (sorted : bool) (v : Json) : list Event :=
  default [] (collect (S (json_size v)) (mkEvents [] (Some v) sorted)).

Definition events (v : Json) : list Event := walk false v.
Definition events_sorted (v : Json) : list Event := walk true v.

(** [write_events]: [levels] holds, for each open container, whether it is an array and
    whether no element has been written yet. *)
Section WriteEvents.
Context {E : Type} (scalar : Json → result E (list Z)) (name : list Z → result E (list Z)).

Definition comma (l : bool * bool) : list Z := if l.2 then [] else [44].

Definition write_event (ev : Event) (levels : list (bool * bool)) (out : list Z)
    : result E (list (bool * bool) * list Z) :=
  match ev with
  | EArrayEnd => Ok (tail levels, out ++ [93])
  | EObjectEnd => Ok (tail levels, out ++ [125])
  | EName k =>
      let '(levels, out) := match levels with
        | l :: rest => ((l.1, false) :: rest, out ++ comma l)
        | [] => ([], out)
        end in
      t ← name k; Ok (levels, out ++ t ++ [58])
  | _ =>
      let '(levels, out) := match levels with
        | (true, first) :: rest => ((true, false) :: rest, out ++ comma (true, first))
        | _ => (levels, out)
        end in
      match ev with
      | EScalar v => t ← scalar v; Ok (levels, out ++ t)
      | EArrayStart => Ok ((true, true) :: levels, out ++ [91])
      | _ => Ok ((false, true) :: levels, out ++ [123])
      end
  end.

Fixpoint write_events_loop (evs : list Event) (levels : list (bool * bool)) (out : list Z)
    : result E (list Z) :=
  match evs with
  | [] => Ok out
  | ev :: rest => '(levels, out) ← write_event ev levels out; write_events_loop rest levels out
  end.

Definition write_events (evs : list Event) : result E (list Z) := write_events_loop evs [] [].
End WriteEvents.

(** ** The compact writer *)

Definition hex_digit (d : Z) : Z := if d <? 10 then 48 + d else 87 + d.

Definition write_char (c : Z) : list Z :=
  if c =? 34 then [92; 34]
  else if c =? 92 then [92; 92]
  else if c =? 8 then [92; 98]
  else if c =? 12 then [92; 102]
  else if c =? 10 then [92; 110]
  else if c =? 13 then [92; 114]
  else if c =? 9 then [92; 116]
  else if c <? 32 then [92; 117; 48; 48; hex_digit (c / 16); hex_digit (c mod 16)]
  else utf8_encode c.

Definition write_string (s : list Z) : list Z :=
  [34] ++ mjoin (map write_char (chars s)) ++ [34].

(** A scalar; the walk never yields a container as one. *)
Definition write_scalar (v : Json) : list Z :=
  match v with
  | JNull => bs "null"
  | JBool true => bs "true"
  | JBool false => bs "false"
  | JNumber n => n
  | JString s => write_string s
  | JArray _ | JObject _ => []
  end.

Definition to_compact (v : Json) : list Z :=
  match write_events (E := Empty_set) (λ v, Ok (write_scalar v)) (λ k, Ok (write_string k)) (events v) with
  | Ok s => s
  | Err e => match e with end
  end.

Definition contains_null (v : Json) : bool :=
  existsb (λ e, match e with EScalar JNull => true | _ => false end) (events v).

(** ** Copy and comparison by the walk *)

Inductive Building : Type :=
| BArray (items : list Json)
| BObject (members : list (list Z * Json)) (name : list Z).

(** One event of [clone]: [inl] the stack, or [inr] the finished copy. *)
Definition clone_add (done : Json) (stack : list Building) : list Building + Json :=
  match stack with
  | [] => inr done
  | BArray items :: rest => inl (BArray (items ++ [done]) :: rest)
  | BObject members name :: rest => inl (BObject (members ++ [(name, done)]) [] :: rest)
  end.

Definition clone_event (ev : Event) (stack : list Building) : option (list Building + Json) :=
  match ev with
  | EArrayStart => Some (inl (BArray [] :: stack))
  | EObjectStart => Some (inl (BObject [] [] :: stack))
  | EName k =>
      Some (inl (match stack with BObject m _ :: rest => BObject m k :: rest | _ => stack end))
  | EScalar v => Some (clone_add v stack)
  | EArrayEnd | EObjectEnd =>
      match stack with
      | BArray items :: rest => Some (clone_add (JArray items) rest)
      | BObject members _ :: rest => Some (clone_add (JObject members) rest)
      | [] => None
      end
  end.

Fixpoint clone_loop (evs : list Event) (stack : list Building) : option Json :=
  match evs with
  | [] => None
  | ev :: rest =>
      match clone_event ev stack with
      | Some (inl stack) => clone_loop rest stack
      | Some (inr v) => Some v
      | None => None
      end
  end.

(** [Json::clone]; [None] stands for the two [unreachable!] branches. *)
Definition json_clone (v : Json) : option Json := clone_loop (events v) [].

Definition scalar_eq (x y : Json) : bool :=
  match x, y with
  | JNull, JNull => true
  | JBool p, JBool q => Bool.eqb p q
  | JNumber p, JNumber q => beq p q
  | JString p, JString q => beq p q
  | _, _ => false
  end.

Definition event_eq (x y : Event) : bool :=
  match x, y with
  | EScalar a, EScalar b => scalar_eq a b
  | EArrayStart, EArrayStart | EArrayEnd, EArrayEnd
  | EObjectStart, EObjectStart | EObjectEnd, EObjectEnd => true
  | EName a, EName b => beq a b
  | _, _ => false
  end.

Fixpoint events_eq (a b : list Event) : bool :=
  match a, b with
  | [], [] => true
  | x :: a', y :: b' => event_eq x y && events_eq a' b'
  | _, _ => false
  end.

(** [PartialEq for Json]. *)
Definition json_eq (v w : Json) : bool := events_eq (events v) (events w).

(** JSON text with backquotes for the quotation marks, for examples. *)
Definition jtext (s : string) : list Z := map (λ b, if b =? 96 then 34 else b) (bs s).

Example parse_ex :
  to_compact <$> parse (jtext " { `b` : [ 1E-7 , { } , [ ] ] , `a` : { `\u0063` : -0.10 } } ") =
  Ok (jtext "{`b`:[1E-7,{},[]],`a`:{`c`:-0.10}}").
Proof. vm_compute. reflexivity. Qed.

Example parse_duplicate_ex :
  parse (jtext "{`a`:{`b`:1,`\u0062`:2}}") = Err (DuplicateMember (bs "b")).
Proof. vm_compute. reflexivity. Qed.

Example parse_lone_surrogate_ex : parse (jtext "[`\ud800`]") = Err ForbiddenCodePoint.
Proof. vm_compute. reflexivity. Qed.
