(* ===== verification/JsonFacts.v ===== *)
(** * Facts about the JSON reader and writers

    The walk visits a value as the recursive definition does; the writer built on it is the
    recursive writer; the copy and the comparison built on it are the identity and
    equality; the reader always returns, accepts only I-JSON values, and reads back what
    the compact writer writes. *)

From S2P Require Import Prelude Ids Utf8 Json.

(** ** Induction over trees *)

Section JsonInd.
Context (P : Json → Prop).
Context (Hnull : P JNull) (Hbool : ∀ b, P (JBool b)) (Hnum : ∀ n, P (JNumber n))
  (Hstr : ∀ s, P (JString s)) (Harr : ∀ a, Forall P a → P (JArray a))
  (Hobj : ∀ o, Forall (λ m, P m.2) o → P (JObject o)).

Fixpoint Json_nested_ind (v : Json) : P v :=
  match v with
  | JNull => Hnull
  | JBool b => Hbool b
  | JNumber n => Hnum n
  | JString s => Hstr s
  | JArray a => Harr a ((fix go (l : list Json) : Forall P l :=
      match l with [] => @List.Forall_nil _ _ | x :: l => @List.Forall_cons _ _ x l (Json_nested_ind x) (go l) end) a)
  | JObject o => Hobj o ((fix go (l : list (list Z * Json)) : Forall (λ m, P m.2) l :=
      match l with [] => @List.Forall_nil _ _ | m :: l => @List.Forall_cons _ _ m l (Json_nested_ind m.2) (go l) end) o)
  end.
End JsonInd.

(** ** The walk *)

(** The reference: a recursive depth-first walk. *)
Fixpoint ref_events (sorted : bool) (v : Json) : list Event :=
  match v with
  | JArray a => EArrayStart :: mjoin (map (ref_events sorted) a) ++ [EArrayEnd]
  | JObject o =>
      let ms := map (λ m, (m.1, ref_events sorted m.2)) o in
      let ms := if sorted then sort_members ms else ms in
      EObjectStart :: mjoin (map (λ m, EName m.1 :: m.2) ms) ++ [EObjectEnd]
  | scalar => [EScalar scalar]
  end.

Lemma insert_member_map {A B} (f : A → B) m l :
  insert_member (m.1, f m.2) (map (λ m, (m.1, f m.2)) l) =
  map (λ m, (m.1, f m.2)) (insert_member m l).
Proof.
  induction l as [|x l IH]; [done|]. simpl. destruct (name_lt x.1 m.1); simpl; [|done].
  by rewrite IH.
Qed.

Lemma sort_members_map {A B} (f : A → B) l :
  sort_members (map (λ m, (m.1, f m.2)) l) = map (λ m, (m.1, f m.2)) (sort_members l).
Proof.
  induction l as [|m l IH]; [done|]. simpl. rewrite IH. apply (insert_member_map f).
Qed.

Lemma insert_member_perm {A} m (l : list (list Z * A)) : insert_member m l ≡ₚ m :: l.
Proof.
  induction l as [|x l IH]; [done|]. simpl. case_match; [|done]. rewrite IH. constructor.
Qed.

Lemma sort_members_perm {A} (l : list (list Z * A)) : sort_members l ≡ₚ l.
Proof. induction l as [|m l IH]; [done|]. simpl. by rewrite insert_member_perm, IH. Qed.

Lemma list_sum_perm (l k : list nat) : l ≡ₚ k → list_sum l = list_sum k.
Proof. induction 1; simpl; lia. Qed.

Lemma length_mjoin_map {A B} (f : A → list B) l :
  length (mjoin (map f l)) = list_sum (map (λ x, length (f x)) l).
Proof. induction l as [|x l IH]; [done|]. simpl. by rewrite length_app, IH. Qed.

Lemma length_ref_events sorted v : length (ref_events sorted v) = json_size v.
Proof.
  induction v as [| | | |a IH|o IH] using Json_nested_ind; try done; simpl.
  - rewrite length_app, length_mjoin_map. simpl.
    assert (map (λ x, length (ref_events sorted x)) a = map json_size a) as ->; [|lia].
    apply map_ext_Forall. done.
  - rewrite length_app, length_mjoin_map. simpl.
    assert (list_sum (map (λ m : list Z * list Event, S (length m.2))
      (if sorted then sort_members (map (λ m, (m.1, ref_events sorted m.2)) o)
       else map (λ m, (m.1, ref_events sorted m.2)) o)) =
      list_sum (map (λ m, 1 + json_size m.2)%nat o)) as ->; [|simpl; lia].
    transitivity (list_sum (map (λ m : list Z * list Event, S (length m.2))
       (map (λ m, (m.1, ref_events sorted m.2)) o))).
    { apply list_sum_perm, Permutation_map. destruct sorted; [apply sort_members_perm|done]. }
    rewrite map_map. f_equal. apply map_ext_Forall.
    eapply Forall_impl; [exact IH|]. intros m Hm. simpl. by rewrite Hm.
Qed.

(** The values whose walk is already known to follow the reference. *)
Definition walks (sorted : bool) (v : Json) : Prop :=
  ∀ stack fuel,
    collect (json_size v + fuel) (mkEvents stack (Some v) sorted) =
    app (ref_events sorted v) <$> collect fuel (mkEvents stack None sorted).

Lemma collect_S fuel e :
  collect (S fuel) e =
  match events_next e with
  | None => Some []
  | Some (ev, e') => cons ev <$> collect fuel e'
  end.
Proof. simpl. destruct (events_next e) as [[ev e']|]; [|done]. by destruct (collect fuel e'). Qed.

Lemma events_next_array v it stack sorted :
  events_next (mkEvents (FArray (v :: it) :: stack) None sorted) =
  events_next (mkEvents (FArray it :: stack) (Some v) sorted).
Proof. done. Qed.

Lemma collect_array sorted it :
  Forall (walks sorted) it → ∀ stack fuel,
  collect (list_sum (map json_size it) + S fuel) (mkEvents (FArray it :: stack) None sorted) =
  app (mjoin (map (ref_events sorted) it) ++ [EArrayEnd]) <$> collect fuel (mkEvents stack None sorted).
Proof.
  induction 1 as [|v it Hv Hit IH]; intros stack fuel.
  - simpl map. simpl list_sum. rewrite Nat.add_0_l, collect_S. done.
  - simpl list_sum. rewrite <- Nat.add_assoc.
    destruct (json_size v) as [|n] eqn:Hn; [by destruct v|].
    transitivity (collect (json_size v + (list_sum (map json_size it) + S fuel))
      (mkEvents (FArray it :: stack) (Some v) sorted)).
    { rewrite Hn. simpl Nat.add. rewrite !collect_S. by rewrite events_next_array. }
    rewrite Hv, IH. simpl. destruct (collect fuel _); [|done]. simpl. by rewrite <- !app_assoc.
Qed.

Lemma collect_object sorted (it : list (list Z * Json)) :
  Forall (λ m, walks sorted m.2) it → ∀ stack fuel,
  collect (list_sum (map (λ m, 1 + json_size m.2) it) + S fuel)%nat
    (mkEvents (FObject it :: stack) None sorted) =
  app (mjoin (map (λ m, EName m.1 :: ref_events sorted m.2) it) ++ [EObjectEnd])
    <$> collect fuel (mkEvents stack None sorted).
Proof.
  induction 1 as [|[k v] it Hv Hit IH]; intros stack fuel.
  - simpl map. simpl list_sum. rewrite Nat.add_0_l, collect_S. done.
  - set (n := list_sum (map (λ m, 1 + json_size m.2)%nat it)) in *.
    replace (list_sum (map _ ((k, v) :: it)) + S fuel)%nat
      with (S (json_size v + (n + S fuel))) by (unfold n; simpl; lia).
    rewrite collect_S. cbn -[collect Nat.add]. simpl in Hv. rewrite Hv, IH. simpl. destruct (collect fuel _); [|done]. simpl.
    by rewrite <- !app_assoc.
Qed.

Lemma walks_all sorted v : walks sorted v.
Proof.
  induction v as [| | | |a IH|o IH] using Json_nested_ind; intros stack fuel;
    try (simpl Nat.add; rewrite collect_S; done).
  - simpl json_size. replace (S (S (list_sum (map json_size a))) + fuel)%nat
      with (S (list_sum (map json_size a) + S fuel)) by lia.
    rewrite collect_S. simpl. rewrite collect_array by done.
    by destruct (collect fuel _).
  - simpl json_size.
    set (o' := if sorted then sort_members o else o).
    assert (o' ≡ₚ o) as Hp by (unfold o'; destruct sorted; [apply sort_members_perm|done]).
    replace (S (S (list_sum (map (λ m, S (json_size m.2)) o))) + fuel)%nat
      with (S (list_sum (map (λ m, 1 + json_size m.2) o') + S fuel))%nat.
    2: { rewrite (list_sum_perm _ _ (Permutation_map (λ m, 1 + json_size m.2)%nat Hp)). simpl. lia. }
    rewrite collect_S. simpl. fold o'. rewrite collect_object by (by rewrite Hp).
    assert (map (λ m, EName m.1 :: m.2) (if sorted then sort_members (map (λ m, (m.1, ref_events sorted m.2)) o)
      else map (λ m, (m.1, ref_events sorted m.2)) o) =
      map (λ m, EName m.1 :: ref_events sorted m.2) o') as ->.
    { unfold o'. destruct sorted; rewrite ?(sort_members_map (ref_events true)), map_map; done. }
    by destruct (collect fuel _).
Qed.

Lemma walk_ref sorted v : walk sorted v = ref_events sorted v.
Proof.
  unfold walk. replace (S (json_size v)) with (json_size v + 1)%nat by lia.
  rewrite walks_all. simpl. apply app_nil_r.
Qed.

(** ** The writer *)

(** Elements separated by commas; [first] tells whether none has been written yet. *)
Fixpoint items_text (first : bool) (l : list (list Z)) : list Z :=
  match l with
  | [] => []
  | x :: r => (if first then [] else [44]) ++ x ++ items_text false r
  end.

Section Print.
Context (sorted : bool) (sc : Json → list Z) (nm : list Z → list Z).

(** The reference: a recursive writer. *)
Fixpoint print_with (v : Json) : list Z :=
  match v with
  | JArray a => [91] ++ items_text true (map print_with a) ++ [93]
  | JObject o =>
      let ms := map (λ m, (m.1, print_with m.2)) o in
      let ms := if sorted then sort_members ms else ms in
      [123] ++ items_text true (map (λ m, nm m.1 ++ [58] ++ m.2) ms) ++ [125]
  | scalar => sc scalar
  end.

#[local] Abbreviation loop := (write_events_loop (E := Empty_set) (λ v, Ok (sc v)) (λ k, Ok (nm k))).

(** Entering a value: in an array it is preceded by a comma unless it is the first. *)
Definition enter (levels : list (bool * bool)) : list (bool * bool) * list Z :=
  match levels with
  | (true, first) :: rest => ((true, false) :: rest, comma (true, first))
  | _ => (levels, [])
  end.

Definition prints (v : Json) : Prop :=
  ∀ evs levels out,
    loop (ref_events sorted v ++ evs) levels out =
    loop evs (enter levels).1 (out ++ (enter levels).2 ++ print_with v).

Lemma prints_items a :
  Forall prints a → ∀ evs first L out,
  loop (mjoin (map (ref_events sorted) a) ++ EArrayEnd :: evs) ((true, first) :: L) out =
  loop evs L (out ++ items_text first (map print_with a) ++ [93]).
Proof.
  induction 1 as [|v a Hv Ha IH]; intros evs first L out; [done|].
  simpl. rewrite <- app_assoc, Hv. simpl. rewrite IH. f_equal. unfold comma. simpl.
  by rewrite <- !app_assoc.
Qed.

Lemma prints_members (o : list (list Z * Json)) :
  Forall (λ m, prints m.2) o → ∀ evs first L out,
  loop (mjoin (map (λ m, EName m.1 :: ref_events sorted m.2) o) ++ EObjectEnd :: evs)
    ((false, first) :: L) out =
  loop evs L (out ++ items_text first (map (λ m, nm m.1 ++ [58] ++ print_with m.2) o) ++ [125]).
Proof.
  induction 1 as [|[k v] o Hv Ho IH]; intros evs first L out; [done|].
  simpl in *. rewrite <- app_assoc, Hv. simpl. rewrite IH. f_equal. unfold comma. simpl.
  by rewrite <- !app_assoc.
Qed.

Lemma prints_all v : prints v.
Proof.
  induction v as [| | | |a IH|o IH] using Json_nested_ind; intros evs levels out.
  1-4: simpl; unfold enter; destruct levels as [|[[] f] L]; simpl; by rewrite <- ?app_assoc.
  - assert (loop (ref_events sorted (JArray a) ++ evs) levels out =
      loop (mjoin (map (ref_events sorted) a) ++ EArrayEnd :: evs)
        ((true, true) :: (enter levels).1) ((out ++ (enter levels).2) ++ [91])) as ->.
    { simpl. rewrite <- app_assoc. unfold enter. destruct levels as [|[[] f] L]; simpl;
        by rewrite ?app_nil_r. }
    rewrite prints_items by done. simpl. by rewrite <- !app_assoc.
  - set (o' := if sorted then sort_members o else o).
    assert (o' ≡ₚ o) as Hp by (unfold o'; destruct sorted; [apply sort_members_perm|done]).
    assert (loop (ref_events sorted (JObject o) ++ evs) levels out =
      loop (mjoin (map (λ m, EName m.1 :: ref_events sorted m.2) o') ++ EObjectEnd :: evs)
        ((false, true) :: (enter levels).1) ((out ++ (enter levels).2) ++ [123])) as ->.
    { simpl. rewrite <- app_assoc.
      assert (map (λ m, EName m.1 :: m.2) (if sorted then sort_members (map (λ m, (m.1, ref_events sorted m.2)) o)
        else map (λ m, (m.1, ref_events sorted m.2)) o) =
        map (λ m, EName m.1 :: ref_events sorted m.2) o') as ->.
      { unfold o'. destruct sorted; rewrite ?(sort_members_map (ref_events true)), map_map; done. }
      unfold enter. destruct levels as [|[[] f] L]; simpl; by rewrite ?app_nil_r. }
    rewrite prints_members by (by rewrite Hp).
    assert (map (λ m, nm m.1 ++ [58] ++ print_with m.2) o' =
      map (λ m, nm m.1 ++ [58] ++ m.2) (if sorted then sort_members (map (λ m, (m.1, print_with m.2)) o)
        else map (λ m, (m.1, print_with m.2)) o)) as ->.
    { unfold o'. destruct sorted; rewrite ?(sort_members_map print_with), map_map; done. }
    simpl. by rewrite <- !app_assoc.
Qed.
End Print.

Lemma write_events_walk sorted sc nm v :
  write_events (E := Empty_set) (λ v, Ok (sc v)) (λ k, Ok (nm k)) (walk sorted v) =
  Ok (print_with sorted sc nm v).
Proof.
  unfold write_events. rewrite walk_ref, <- (app_nil_r (ref_events sorted v)).
  by rewrite (prints_all sorted sc nm v).
Qed.

(** The compact text of a value, written recursively. *)
Definition compact (v : Json) : list Z := print_with false write_scalar write_string v.

Lemma to_compact_ref v : to_compact v = compact v.
Proof. unfold to_compact, events. by rewrite write_events_walk. Qed.

(** ** Copy and comparison *)

Lemma clone_items a :
  Forall (λ v, ∀ evs stack, clone_loop (ref_events false v ++ evs) stack =
    match clone_add v stack with inl st => clone_loop evs st | inr w => Some w end) a →
  ∀ evs items stack,
  clone_loop (mjoin (map (ref_events false) a) ++ evs) (BArray items :: stack) =
  clone_loop evs (BArray (items ++ a) :: stack).
Proof.
  induction 1 as [|v a Hv Ha IH]; intros evs items stack; simpl; [by rewrite app_nil_r|].
  rewrite <- app_assoc, Hv. simpl. rewrite IH. by rewrite <- app_assoc.
Qed.

Lemma clone_members (o : list (list Z * Json)) :
  Forall (λ m, ∀ evs stack, clone_loop (ref_events false m.2 ++ evs) stack =
    match clone_add m.2 stack with inl st => clone_loop evs st | inr w => Some w end) o →
  ∀ evs ms name stack, ∃ name',
  clone_loop (mjoin (map (λ m, EName m.1 :: ref_events false m.2) o) ++ evs) (BObject ms name :: stack) =
  clone_loop evs (BObject (ms ++ o) name' :: stack).
Proof.
  induction 1 as [|[k v] o Hv Ho IH]; intros evs ms name stack; simpl.
  - exists name. by rewrite app_nil_r.
  - simpl in Hv. rewrite <- app_assoc, Hv. simpl.
    destruct (IH evs (ms ++ [(k, v)]) [] stack) as [n' ->]. exists n'. by rewrite <- app_assoc.
Qed.

Lemma clone_loop_ref v evs stack :
  clone_loop (ref_events false v ++ evs) stack =
  match clone_add v stack with inl st => clone_loop evs st | inr w => Some w end.
Proof.
  revert evs stack. induction v as [| | | |a IH|o IH] using Json_nested_ind; intros evs stack;
    try done; simpl.
  - rewrite <- app_assoc, clone_items by done. done.
  - rewrite <- app_assoc, map_map.
    destruct (clone_members o IH ([EObjectEnd] ++ evs) [] [] stack) as [n' H].
    simpl in H |- *. rewrite H. done.
Qed.

(** The events of a value determine it, also when more events follow. *)
Lemma events_eq_ref : ∀ v w evs evs',
  events_eq (ref_events false v ++ evs) (ref_events false w ++ evs') = true ↔
  v = w ∧ events_eq evs evs' = true.
Proof.
  assert (∀ a evs evs' b,
    Forall (λ v, ∀ w evs evs',
      events_eq (ref_events false v ++ evs) (ref_events false w ++ evs') = true ↔
      v = w ∧ events_eq evs evs' = true) a →
    events_eq (mjoin (map (ref_events false) a) ++ EArrayEnd :: evs)
              (mjoin (map (ref_events false) b) ++ EArrayEnd :: evs') = true ↔
    a = b ∧ events_eq evs evs' = true) as Harr.
  { intros a evs evs' b Ha. revert b. induction Ha as [|v a Hv Ha IH]; intros [|w b]; simpl.
    - naive_solver.
    - destruct w; simpl; split; try done; naive_solver.
    - destruct v; simpl; split; try done; naive_solver.
    - rewrite <- !app_assoc, Hv, IH. naive_solver. }
  assert (∀ (a b : list (list Z * Json)) evs evs',
    Forall (λ m, ∀ w evs evs',
      events_eq (ref_events false m.2 ++ evs) (ref_events false w ++ evs') = true ↔
      m.2 = w ∧ events_eq evs evs' = true) a →
    events_eq (mjoin (map (λ m, EName m.1 :: ref_events false m.2) a) ++ EObjectEnd :: evs)
              (mjoin (map (λ m, EName m.1 :: ref_events false m.2) b) ++ EObjectEnd :: evs') = true ↔
    a = b ∧ events_eq evs evs' = true) as Hobj.
  { intros a b evs evs' Ha. revert b. induction Ha as [|[k v] a Hv Ha IH]; intros [|[k' w] b]; simpl;
      [naive_solver..|].
    simpl in Hv. rewrite <- !app_assoc, andb_true_iff, beq_true, Hv, IH. naive_solver. }
  intros v. induction v as [|p|p|p|a IH|o IH] using Json_nested_ind; intros w evs evs'.
  1-4: destruct w; simpl; rewrite ?andb_true_iff, ?Bool.eqb_true_iff, ?beq_true; split; try done; naive_solver.
  - destruct w as [| | | |b|]; simpl; try (split; [done|naive_solver]).
    rewrite <- !app_assoc. simpl. rewrite Harr by done. naive_solver.
  - destruct w as [| | | | |b]; simpl; try (split; [done|naive_solver]).
    rewrite <- !app_assoc, !map_map. simpl. rewrite Hobj by done. naive_solver.
Qed.

(** The iterative code paths over trees compute what they stand for: the walk with an
    explicit stack yields the events of the recursive walk (with and without member sorting),
    the writer over it produces the recursive compact text, [clone] returns the same value,
    and [==] holds exactly for equal values. *)
Theorem walk_copy_compare (v w : Json) :
  walk false v = ref_events false v ∧ walk true v = ref_events true v ∧
  to_compact v = compact v ∧ json_clone v = Some v ∧ (json_eq v w = true ↔ v = w).
Proof.
  split_and!; try apply walk_ref.
  - apply to_compact_ref.
  - unfold json_clone, events. rewrite walk_ref, <- (app_nil_r (ref_events false v)).
    by rewrite clone_loop_ref.
  - unfold json_eq, events. rewrite !walk_ref.
    rewrite <- (app_nil_r (ref_events false v)), <- (app_nil_r (ref_events false w)).
    rewrite events_eq_ref. naive_solver.
Qed.

(** ** Objects *)

Lemma obj_get_cons k v o n : obj_get ((k, v) :: o) n = if beq k n then Some v else obj_get o n.
Proof. unfold obj_get. simpl. by destruct (beq k n). Qed.

Lemma obj_get_None o n : obj_get o n = None ↔ n ∉ obj_names o.
Proof.
  induction o as [|[k v] o IH]; [split; [intros _; apply not_elem_of_nil|done]|].
  rewrite obj_get_cons. unfold obj_names in *. simpl. rewrite not_elem_of_cons.
  destruct (beq k n) eqn:E; [apply beq_true in E as ->; naive_solver|].
  rewrite IH. split; [|by intros []]. intros H. split; [|done]. intros ->. by rewrite beq_refl in E.
Qed.

Lemma obj_replace_None o n v : obj_replace o n v = None ↔ obj_get o n = None.
Proof.
  induction o as [|[k w] o IH]; [done|]. rewrite obj_get_cons. simpl.
  destruct (beq k n); [done|]. rewrite <- IH. by destruct (obj_replace o n v).
Qed.

Lemma obj_insert_fresh o n v : obj_get o n = None → obj_insert o n v = o ++ [(n, v)].
Proof. intros H. unfold obj_insert. by rewrite (proj2 (obj_replace_None o n v) H). Qed.

Lemma obj_get_insert o n v m :
  obj_get (obj_insert o n v) m = if beq n m then Some v else obj_get o m.
Proof.
  unfold obj_insert. induction o as [|[k w] o IH]; simpl; [by rewrite obj_get_cons|].
  destruct (beq k n) eqn:E.
  - apply beq_true in E as ->. rewrite !obj_get_cons. by destruct (beq n m).
  - destruct (obj_replace o n v) as [o'|] eqn:Er; simpl; rewrite !obj_get_cons, IH.
    all: destruct (beq k m) eqn:E2; [|done]; apply beq_true in E2 as <-;
         destruct (beq n k) eqn:E3; [|done]; apply beq_true in E3 as ->; by rewrite beq_refl in E.
Qed.

Lemma obj_remove_None o n : obj_remove o n = None ↔ obj_get o n = None.
Proof.
  induction o as [|[k w] o IH]; [done|]. rewrite obj_get_cons. simpl.
  destruct (beq k n); [done|]. rewrite <- IH. by destruct (obj_remove o n) as [[]|].
Qed.

(** What removing a member leaves, given the member was set. *)
Definition obj_without (o : JsonObject) (n : list Z) : JsonObject :=
  match obj_remove o n with Some (_, o') => o' | None => o end.

Lemma obj_remove_insert o n v : obj_remove (obj_insert o n v) n = Some (v, obj_without o n).
Proof.
  unfold obj_insert, obj_without. induction o as [|[k w] o IH]; simpl; [by rewrite beq_refl|].
  destruct (beq k n) eqn:E; simpl; [by rewrite E|].
  destruct (obj_replace o n v) as [o'|] eqn:Er; simpl; rewrite E, IH; simpl;
    by destruct (obj_remove o n) as [[]|].
Qed.

Lemma obj_remove_get o n v o' : obj_remove o n = Some (v, o') → obj_get o n = Some v.
Proof.
  revert o'. induction o as [|[k w] o IH]; intros o'; [done|]. rewrite obj_get_cons. simpl.
  destruct (beq k n); [by intros [= -> ->]|].
  destruct (obj_remove o n) as [[x r]|]; [|done]. simpl. intros [= -> <-]. by eapply IH.
Qed.

Lemma obj_without_insert o n v : obj_without (obj_insert o n v) n = obj_without o n.
Proof. unfold obj_without at 1. by rewrite obj_remove_insert. Qed.
