(* ===== verification/JsonReader.v ===== *)
(** * The JSON reader always returns, and accepts only I-JSON

    Every step of the reader's loops consumes input, so the fuel of [Json.parse] is enough;
    a value the reader returns has numbers of the RFC 8259 grammar, strings and names of
    well-formed UTF-8 without noncharacters, and no repeated member name. *)

From S2P Require Import Prelude Ids Utf8 Json JsonFacts.

(** ** Splitting UTF-8 at an ASCII octet *)

Lemma utf8_encode_octets c :
  is_scalar c = true →
  (∃ b, utf8_encode c = [b] ∧ 0 ≤ b < 128) ∨ Forall (λ b, 128 ≤ b) (utf8_encode c).
Proof.
  intros Hc%is_scalar_true. unfold utf8_encode.
  destruct (c <? 128) eqn:E; bool_hyps; [left; exists c; split; [done|lia]|right].
  repeat case_match; bool_hyps; repeat constructor; dlia.
Qed.

Lemma utf8_split_ascii a b c :
  0 ≤ b < 128 → is_utf8 (a ++ b :: c) = true → is_utf8 a = true ∧ is_utf8 c = true.
Proof.
  intros Hb [cs Hcs]%is_utf8_true. apply utf8_decode_Some in Hcs as [Heq Hcs].
  revert a Heq. induction Hcs as [|x cs Hx Hcs IH]; intros a Heq; [by destruct a|].
  simpl in Heq. destruct a as [|a0 a].
  - split; [done|]. simpl in Heq.
    destruct (utf8_encode_octets x Hx) as [(y & Hy & _)|Hge].
    + rewrite Hy in Heq. injection Heq as -> ->. apply is_utf8_true. exists cs.
      by apply utf8_decode_Some.
    + destruct (utf8_encode x) as [|y ys] eqn:Ey; [pose proof (utf8_encode_nonempty x); rewrite Ey in *; simpl in *; lia|].
      injection Heq as -> _. inv_Forall. lia.
  - apply app_eq_inv in Heq as [(k & Hk1 & Hk2)|(k & Hk1 & Hk2)].
    + destruct (IH k (eq_sym Hk2)) as [H1 H2]. split; [|done].
      rewrite Hk1. apply is_utf8_true in H1 as [ck Hck]. apply is_utf8_true. exists (x :: ck).
      by rewrite utf8_decode_encode, Hck.
    + destruct k as [|k0 k].
      { rewrite app_nil_r in Hk1. simpl in Hk2. destruct (IH [] Hk2) as [_ H2].
        split; [|done]. rewrite <- Hk1, <- (app_nil_r (utf8_encode x)).
        apply is_utf8_true. exists [x]. by rewrite utf8_decode_encode. }
      injection Hk2 as -> Hk2. destruct (utf8_encode_octets x Hx) as [(y & Hy & _)|Hge].
      { rewrite Hy in Hk1. by destruct a. }
      rewrite Hk1 in Hge. apply Forall_app in Hge as [_ Hge]. inv_Forall. lia.
Qed.

Lemma utf8_cons_ascii b c : 0 ≤ b < 128 → is_utf8 (b :: c) = is_utf8 c.
Proof.
  intros Hb. unfold is_utf8. simpl. rewrite (proj2 (in_range_true 0 127 b)) by lia.
  by destruct (utf8_decode c).
Qed.

Lemma utf8_app_ascii l c : Forall (λ b, 0 ≤ b < 128) l → is_utf8 (l ++ c) = is_utf8 c.
Proof. induction 1; simpl; [done|]. by rewrite utf8_cons_ascii. Qed.

Lemma utf8_app a b : is_utf8 a = true → is_utf8 b = true → is_utf8 (a ++ b) = true.
Proof.
  intros [ca Ha]%is_utf8_true [cb Hb]%is_utf8_true. apply is_utf8_true.
  exists (ca ++ cb). by rewrite (utf8_decode_app _ _ _ Ha), Hb.
Qed.

Lemma utf8_char c : is_scalar c = true → is_utf8 (utf8_encode c) = true.
Proof.
  intros Hc. apply is_utf8_true. exists [c]. rewrite <- (app_nil_r (utf8_encode c)).
  by rewrite utf8_decode_encode.
Qed.

(** ** What the pieces of the reader consume

    [consumed p p' l]: [p'] is [p] moved past the ASCII octets [l]. *)

Definition ascii (l : list Z) : Prop := Forall (λ b, 0 ≤ b < 128) l.

Definition consumed (p p' : Parser) (l : list Z) : Prop := p_s p = l ++ p_s p' ∧ ascii l.

Lemma consumed_utf8 p p' l : consumed p p' l → is_utf8 (p_s p) = is_utf8 (p_s p').
Proof. intros [-> Hl]. by apply utf8_app_ascii. Qed.

Lemma consumed_length p p' l :
  consumed p p' l → length (p_s p) = (length l + length (p_s p'))%nat.
Proof. intros [-> _]. apply length_app. Qed.

Lemma consumed_refl p : consumed p p [].
Proof. split; [done|constructor]. Qed.

Lemma consumed_trans p q r l k : consumed p q l → consumed q r k → consumed p r (l ++ k).
Proof.
  intros [H1 H2] [H3 H4]. split; [by rewrite H1, H3, app_assoc|]. by apply Forall_app.
Qed.

Lemma consumed_advance p l r :
  p_s p = l ++ r → ascii l → consumed p (advance (length l) p) l.
Proof. intros H Hl. split; [|done]. simpl. by rewrite H, drop_app_length. Qed.

Lemma consumed_peek p b : peek p = Some b → 0 ≤ b < 128 → consumed p (advance 1 p) [b].
Proof.
  unfold peek. intros H Hb. destruct (p_s p) as [|x r] eqn:E; [done|]. injection H as ->.
  apply (consumed_advance p [b] r E). by apply Forall_singleton.
Qed.

Lemma ws_consumed p : ∃ l, consumed p (ws p) l ∧ Forall (λ b, is_ws b = true) l.
Proof.
  unfold ws. destruct p as [i s]. simpl. revert i. induction s as [|b s IH]; intros i; simpl.
  { exists []. split; [apply consumed_refl|apply Forall_nil_2]. }
  destruct (is_ws b) eqn:E; [|exists []; split; [apply consumed_refl|apply Forall_nil_2]].
  destruct (IH (S i)) as (l & [H1 H2] & H3). exists (b :: l). split; [|by constructor].
  split; [simpl in *; f_equal; exact H1|]. constructor; [|done]. unfold is_ws in E. lia.
Qed.

Lemma ws_utf8 p : is_utf8 (p_s (ws p)) = is_utf8 (p_s p).
Proof. destruct (ws_consumed p) as (l & H & _). symmetry. by eapply consumed_utf8. Qed.

Lemma ws_length p : (length (p_s (ws p)) ≤ length (p_s p))%nat.
Proof. destruct (ws_consumed p) as (l & H & _). rewrite (consumed_length _ _ _ H). lia. Qed.

Lemma peek_advance p b : peek p = Some b → length (p_s p) = S (length (p_s (advance 1 p))).
Proof. unfold peek. destruct p as [i [|x s]]; simpl; [done|]. by rewrite drop_0. Qed.

Lemma peek_utf8 p b :
  peek p = Some b → 0 ≤ b < 128 → is_utf8 (p_s p) = is_utf8 (p_s (advance 1 p)).
Proof. intros H Hb. by apply (consumed_utf8 _ _ [b]), consumed_peek. Qed.

(** ** Literals and numbers *)

Lemma starts_with_spec w s : starts_with w s = true ↔ ∃ r, s = w ++ r.
Proof.
  revert s. induction w as [|a w IH]; intros s; simpl; [split; eauto|].
  destruct s as [|b s]; [split; [done|by intros (? & ?)]|].
  rewrite andb_true_iff, IH, Z.eqb_eq. split.
  - intros [-> [r ->]]. eauto.
  - intros [r [= -> ->]]. eauto.
Qed.

Lemma literal_inv w v p v' p' :
  ascii w → literal w v p = Ok (v', p') → v' = v ∧ consumed p p' w.
Proof.
  unfold literal. intros Hw H. destruct (starts_with w (p_s p)) eqn:E; [|done].
  injection H as <- <-. split; [done|]. apply starts_with_spec in E as [r Hr].
  by apply (consumed_advance p w r).
Qed.

Definition digits (l : list Z) : Prop := Forall (λ b, is_ascii_digit b = true) l.

Lemma digits_ascii l : digits l → ascii l.
Proof.
  intros H. eapply Forall_impl; [exact H|]. intros b Hb. unfold is_ascii_digit in Hb.
  apply in_range_true in Hb. lia.
Qed.

Lemma take_digits_spec s : ∃ r, s = take_digits s ++ r ∧ digits (take_digits s) ∧
  (∀ b, head r = Some b → is_ascii_digit b = false).
Proof.
  induction s as [|b s (r & IH1 & IH2 & IH3)]; simpl; [by exists []; repeat split; try constructor|].
  destruct (is_ascii_digit b) eqn:E.
  - exists r. split_and!; [simpl; by f_equal|by constructor|done].
  - exists (b :: s). split_and!; [done|constructor|]. by intros ? [= <-].
Qed.

Lemma read_digits_inv p ds p' :
  read_digits p = (ds, p') → digits ds ∧ consumed p p' ds.
Proof.
  unfold read_digits. intros [= <- <-].
  destruct (take_digits_spec (p_s p)) as (r & H1 & H2 & _).
  split; [done|]. by apply (consumed_advance p _ r), digits_ascii.
Qed.

(** The RFC 8259 number grammar. *)
Definition is_int_part (l : list Z) : Prop :=
  l = [48] ∨ ∃ d ds, l = d :: ds ∧ 49 ≤ d ≤ 57 ∧ digits ds.
Definition is_frac_part (l : list Z) : Prop :=
  l = [] ∨ ∃ ds, l = 46 :: ds ∧ ds ≠ [] ∧ digits ds.
Definition is_exp_part (l : list Z) : Prop :=
  l = [] ∨ ∃ e sign ds, l = e :: sign ++ ds ∧ (e = 101 ∨ e = 69) ∧
    (sign = [] ∨ sign = [43] ∨ sign = [45]) ∧ ds ≠ [] ∧ digits ds.
Definition is_rfc_number (raw : list Z) : Prop :=
  ∃ sign i f e, raw = sign ++ i ++ f ++ e ∧ (sign = [] ∨ sign = [45]) ∧
    is_int_part i ∧ is_frac_part f ∧ is_exp_part e.

Lemma number_int_inv p l p' :
  number_int p = Ok (l, p') → is_int_part l ∧ consumed p p' l ∧ l ≠ [].
Proof.
  unfold number_int. intros H. destruct (peek p) as [b|] eqn:Ep; [|done].
  destruct (b =? 48) eqn:E1; bool_hyps.
  { injection H as <- <-. subst. split_and!; [by left|by apply consumed_peek|done]. }
  destruct (in_range 49 57 b) eqn:E2; [|done]. apply in_range_true in E2.
  assert (read_digits p = (l, p')) as Hr by congruence. clear H.
  destruct (read_digits_inv _ _ _ Hr) as [Hd Hc].
  unfold read_digits in Hr. unfold peek in Ep. destruct (p_s p) as [|x s]; [done|].
  injection Ep as ->. simpl in Hr.
  assert (is_ascii_digit b = true) as Hb by (apply in_range_true; lia).
  rewrite Hb in Hr. assert (l = b :: take_digits s) as -> by congruence.
  split_and!; [|done|done]. right. exists b, (take_digits s). unfold digits in *. inv_Forall. done.
Qed.

Lemma number_frac_inv p l p' :
  number_frac p = Ok (l, p') → is_frac_part l ∧ consumed p p' l.
Proof.
  unfold number_frac. intros H. case_bool_decide as Ep; [|injection H as <- <-; split; [by left|apply consumed_refl]].
  destruct (read_digits (advance 1 p)) as [ds q] eqn:Er.
  case_bool_decide; [done|]. injection H as <- <-. apply read_digits_inv in Er as [Hd Hc].
  split; [right; eauto|]. apply (consumed_trans p (advance 1 p) q [46] ds); [|done].
  by apply consumed_peek.
Qed.

Lemma number_exp_inv p l p' :
  number_exp p = Ok (l, p') → is_exp_part l ∧ consumed p p' l.
Proof.
  unfold number_exp. intros H.
  destruct (peek p) as [e|] eqn:Ep; [|injection H as <- <-; split; [by left|apply consumed_refl]].
  destruct ((e =? 101) || (e =? 69)) eqn:Ee; [|injection H as <- <-; split; [by left|apply consumed_refl]].
  assert (e = 101 ∨ e = 69) as He by lia.
  pose proof (consumed_peek p e Ep ltac:(lia)) as H0.
  remember (match peek (advance 1 p) with Some c => _ | None => _ end) as sp eqn:Hsp.
  assert ((sp.1 = [] ∨ sp.1 = [43] ∨ sp.1 = [45]) ∧ consumed (advance 1 p) sp.2 sp.1) as [Hs Hc].
  { destruct (peek (advance 1 p)) as [c|] eqn:Ec; [|subst sp; split; [by left|apply consumed_refl]].
    destruct ((c =? 43) || (c =? 45)) eqn:E2; subst sp; simpl.
    - assert (c = 43 ∨ c = 45) as Hc by lia. split; [destruct Hc as [-> | ->]; eauto|].
      apply consumed_peek; [done|lia].
    - split; [by left|apply consumed_refl]. }
  destruct sp as [sign p2]. cbn [fst snd] in *. destruct (read_digits p2) as [ds p3] eqn:Er.
  case_bool_decide; [done|]. injection H as <- <-. apply read_digits_inv in Er as [Hd Hc'].
  split; [right; exists e, sign, ds; split_and!; done|].
  apply (consumed_trans p (advance 1 p) p3 [e]); [done|]. by eapply consumed_trans.
Qed.

Lemma number_inv p v p' :
  number p = Ok (v, p') →
  ∃ raw, v = JNumber raw ∧ is_rfc_number raw ∧ consumed p p' raw ∧ raw ≠ [].
Proof.
  unfold number. intros H.
  remember (if bool_decide (peek p = Some 45) then _ else _) as sp eqn:Hsp.
  assert ((sp.1 = [] ∨ sp.1 = [45]) ∧ consumed p sp.2 sp.1) as [Hs Hc].
  { case_bool_decide; subst sp; simpl; [split; [by right|by apply consumed_peek]|].
    split; [by left|apply consumed_refl]. }
  destruct sp as [sign p0]. simpl in *.
  destruct (number_int p0) as [[i p1]|] eqn:E1; [|done]. simpl in H.
  destruct (number_frac p1) as [[f p2]|] eqn:E2; [|done]. simpl in H.
  destruct (number_exp p2) as [[e p3]|] eqn:E3; [|done]. simpl in H. injection H as <- <-.
  apply number_int_inv in E1 as (? & ? & ?). apply number_frac_inv in E2 as [??].
  apply number_exp_inv in E3 as [??].
  eexists. split; [done|]. split_and!.
  - exists sign, i, f, e. done.
  - repeat (eapply consumed_trans; [done|]). done.
  - intros Hnil. apply app_eq_nil in Hnil as [_ Hnil]. by apply app_eq_nil in Hnil as [? _].
Qed.

(** ** Strings *)

Lemma to_digit16_ascii b v : to_digit16 b = Some v → 0 ≤ b < 128 ∧ 0 ≤ v < 16.
Proof.
  unfold to_digit16. intros H.
  repeat case_match; try done; injection H as <-; in_ranges; lia.
Qed.

Lemma hex_value_cons v b r x :
  hex_value v (b :: r) = Some x → ∃ d, to_digit16 b = Some d ∧ hex_value (v * 16 + d) r = Some x.
Proof. simpl. destruct (to_digit16 b); [|done]. simpl. eauto. Qed.

Lemma hex4_inv i s v :
  hex4 i s = Ok v → ∃ a b c d r, s = a :: b :: c :: d :: r ∧ ascii [a; b; c; d] ∧ 0 ≤ v < 65536.
Proof.
  intros H. unfold hex4 in H. destruct s as [|a [|b [|c [|d r]]]]; try done.
  destruct (hex_value 0 [a; b; c; d]) as [x|] eqn:E; [|done]. injection H as ->.
  apply hex_value_cons in E as (d1 & H1 & E). apply hex_value_cons in E as (d2 & H2 & E).
  apply hex_value_cons in E as (d3 & H3 & E). apply hex_value_cons in E as (d4 & H4 & E).
  injection E as <-. apply to_digit16_ascii in H1 as [??], H2 as [??], H3 as [??], H4 as [??].
  exists a, b, c, d, r. split_and!; [done| |lia|lia]. by repeat (apply Forall_cons; split).
Qed.

Lemma simple_escape_inv e c :
  simple_escape e = Some c → 0 ≤ e < 128 ∧ is_scalar c = true.
Proof.
  unfold simple_escape. intros H. repeat case_match; try done; injection H as <-; bool_hyps;
    (split; [lia|done]).
Qed.

Lemma from_u32_inv c c' : from_u32 c = Some c' → c' = c ∧ is_scalar c = true.
Proof. unfold from_u32, then_some. case_match; [|done]. by intros [= ->]. Qed.

(** One turn of the loop: the closing quote, an octet copied, or an escape decoded. *)
Lemma string_loop_inv i s out o p :
  string_loop i s out = Ok (o, p) →
  (∃ r, s = 34 :: r ∧ o = out ∧ p = mkParser (S i) r) ∨
  (∃ b r, s = b :: r ∧ 32 ≤ b ∧ string_loop (S i) r (out ++ [b]) = Ok (o, p)) ∨
  (∃ esc r c i', s = 92 :: esc ++ r ∧ ascii esc ∧ is_scalar c = true ∧
     string_loop i' r (out ++ utf8_encode c) = Ok (o, p)).
Proof.
  intros H. destruct s as [|b r]; [done|]. cbn [string_loop] in H.
  destruct (b =? 34) eqn:E1; bool_hyps; [injection H as <- <-; subst; left; eauto|right].
  destruct (b =? 92) eqn:E2; bool_hyps; [|left].
  2: { destruct (b <? 32) eqn:E3; bool_hyps; [done|]. eauto. }
  right. subst b. destruct r as [|e r2]; [done|].
  destruct (simple_escape e) as [c|] eqn:Ee.
  { apply simple_escape_inv in Ee as [??]. exists [e], r2, c, (i + 2)%nat.
    split_and!; try done. by apply Forall_singleton. }
  destruct (e =? 117) eqn:E117; bool_hyps; [subst e|done].
  destruct (hex4 (i + 2) r2) as [hi|] eqn:Eh; [|done].
  apply hex4_inv in Eh as (a1 & a2 & a3 & a4 & r3 & -> & Ha & Hhi).
  destruct (in_range 55296 56319 hi) eqn:Esur.
  - destruct r3 as [|b1 [|b2 r4]]; try done.
    destruct ((b1 =? 92) && (b2 =? 117)) eqn:Eb; bool_hyps; [subst b1 b2|done].
    destruct (hex4 (i + 8) r4) as [lo|] eqn:El; [|done].
    apply hex4_inv in El as (c1 & c2 & c3 & c4 & r5 & -> & Hb & Hlo).
    destruct (in_range 56320 57343 lo) eqn:Elo; [|done].
    destruct (from_u32 _) as [c|] eqn:Ec; [|done]. apply from_u32_inv in Ec as [-> Hc].
    exists ([117; a1; a2; a3; a4] ++ [92; 117; c1; c2; c3; c4]), r5. eexists _, _.
    split_and!; [done| |done|done].
    apply Forall_app; split; apply Forall_cons; (split; [lia|]); [done|].
    apply Forall_cons; split; [lia|done].
  - destruct (in_range 56320 57343 hi) eqn:Elow; [done|].
    destruct (from_u32 hi) as [c|] eqn:Ec; [|done]. apply from_u32_inv in Ec as [-> Hc].
    exists [117; a1; a2; a3; a4], r3, hi, (i + 6)%nat. split_and!; try done.
    apply Forall_cons; split; [lia|done].
Qed.

(** The loop consumes input, and decodes UTF-8 to UTF-8. *)
Lemma string_loop_spec s : ∀ i out o p,
  string_loop i s out = Ok (o, p) →
  (length (p_s p) < length s)%nat ∧
  (is_utf8 (out ++ s) = true → is_utf8 o = true ∧ is_utf8 (p_s p) = true).
Proof.
  remember (length s) as n eqn:Hn. revert s Hn.
  induction n as [n IH] using (well_founded_induction lt_wf). intros s -> i out o p H.
  apply string_loop_inv in H as [(r & -> & -> & ->)|[(b & r & -> & Hb & H)|(esc & r & c & i' & -> & He & Hc & H)]].
  - split; [simpl; lia|]. apply utf8_split_ascii. lia.
  - apply (IH (length r)) in H as [H1 H2]; [|simpl; lia|done].
    split; [simpl; lia|]. intros H. apply H2. by rewrite <- app_assoc.
  - apply (IH (length r)) in H as [H1 H2]; [|simpl; rewrite length_app; lia|done].
    split; [simpl; rewrite length_app; lia|]. intros H. apply H2.
    apply utf8_split_ascii in H as [H3 H4]; [|lia]. rewrite utf8_app_ascii in H4 by done.
    rewrite <- app_assoc. apply utf8_app; [done|]. apply utf8_app; [by apply utf8_char|done].
Qed.

(** A well-formed string of I-JSON. *)
Definition ijson_text (s : list Z) : Prop := is_utf8 s = true ∧ is_ijson_string s = true.

Lemma read_string_inv p o p' :
  peek p = Some 34 → read_string p = Ok (o, p') →
  (length (p_s p') < length (p_s p))%nat ∧
  (is_utf8 (p_s p) = true → ijson_text o ∧ is_utf8 (p_s p') = true).
Proof.
  unfold read_string. intros Hp H. destruct (string_loop _ _ []) as [[o' q]|] eqn:E; [|done].
  simpl in H. destruct (is_ijson_string o') eqn:Ei; [|done]. injection H as <- <-.
  apply string_loop_spec in E as [H1 H2]. pose proof (peek_advance p 34 Hp).
  split; [lia|]. intros Hu. rewrite (peek_utf8 p 34) in Hu by (done || lia).
  destruct (H2 Hu). done.
Qed.

Lemma member_name_inv p o p' :
  member_name p = Ok (o, p') →
  (length (p_s p') < length (p_s p))%nat ∧
  (is_utf8 (p_s p) = true → ijson_text o ∧ is_utf8 (p_s p') = true).
Proof.
  unfold member_name. intros H. case_bool_decide as E1; [|done].
  destruct (read_string (ws p)) as [[s q]|] eqn:E2; [|done]. simpl in H.
  case_bool_decide as E3; [|done]. injection H as <- <-.
  apply read_string_inv in E2 as [H1 H2]; [|done]. rewrite ws_utf8 in H2.
  pose proof (ws_length p). pose proof (ws_length q). pose proof (peek_advance _ _ E3).
  split; [lia|]. intros Hu. destruct (H2 Hu) as [? Hq].
  split; [done|]. rewrite <- (peek_utf8 _ 58) by (done || lia). by rewrite ws_utf8.
Qed.

(** ** I-JSON values *)

Inductive wf_json : Json → Prop :=
| wf_null : wf_json JNull
| wf_bool b : wf_json (JBool b)
| wf_number n : is_rfc_number n → wf_json (JNumber n)
| wf_string s : ijson_text s → wf_json (JString s)
| wf_array a : Forall wf_json a → wf_json (JArray a)
| wf_object o :
    NoDup (obj_names o) → Forall ijson_text (obj_names o) → Forall (λ m, wf_json m.2) o →
    wf_json (JObject o).

(** An open container holds I-JSON values so far, and [seen] the names so far. *)
Definition wf_open (c : Open) : Prop :=
  match c with
  | OArray items => Forall wf_json items
  | OObject members seen name =>
      seen = list_to_set (obj_names members) ∧ NoDup (obj_names members) ∧
      Forall ijson_text (obj_names members) ∧ Forall (λ m, wf_json m.2) members ∧
      ijson_text name
  end.

Definition wf_phase (ph : phase) : Prop :=
  match ph with Value => True | Complete v => wf_json v end.

(** The octets left, twice, and one more when a complete value is at hand. *)
Definition phase_measure (ph : phase) (p : Parser) : nat :=
  match ph with Value => 2 * length (p_s p) | Complete _ => 2 * length (p_s p) + 1 end.

(** What a step keeps: the measure goes down and the invariant holds. *)
Definition step_ok (m : nat) (u : Prop) (r : progress) : Prop :=
  match r with
  | Next ph p stack =>
      (phase_measure ph p < m)%nat ∧
      (u → is_utf8 (p_s p) = true ∧ wf_phase ph ∧ Forall wf_open stack)
  | Finished v p => u → wf_json v
  end.

Lemma ascii_word (w : list Z) : forallb (in_range 0 127) w = true → ascii w.
Proof.
  intros H%Forall_forallb. eapply Forall_impl; [exact H|].
  intros b Hb%in_range_true. lia.
Qed.

Lemma done_value_ok m p stack v p' l r :
  r = Ok (v, p') → consumed p p' l → l ≠ [] → (2 * length (p_s p) ≤ m)%nat → wf_json v →
  ∃ g, done_value stack r = Ok g ∧
       step_ok m (is_utf8 (p_s p) = true ∧ Forall wf_open stack) g.
Proof.
  intros -> Hc Hl Hm Hv. eexists. split; [done|]. pose proof (consumed_length _ _ _ Hc).
  destruct l; [done|]. simpl in *. split; [lia|].
  intros [Hu Hs]. by rewrite <- (consumed_utf8 _ _ _ Hc).
Qed.

Lemma literal_step m p stack w v g :
  literal w v p ≫= (λ '(v, p), Ok (Next (Complete v) p stack)) = Ok g →
  ascii w → w ≠ [] → (2 * length (p_s p) ≤ m)%nat → wf_json v →
  step_ok m (is_utf8 (p_s p) = true ∧ Forall wf_open stack) g.
Proof.
  intros H Ha Hw Hm Hv. destruct (literal w v p) as [[v' p']|] eqn:E; [|done].
  pose proof E as E'. apply literal_inv in E' as [-> Hc]; [|done].
  destruct (done_value_ok m p stack v p' w _ eq_refl Hc Hw Hm Hv) as (g' & Hg & Hok).
  unfold done_value in Hg. rewrite Hg in H. by injection H as <-.
Qed.

Lemma number_step m p stack g :
  number p ≫= (λ '(v, p), Ok (Next (Complete v) p stack)) = Ok g →
  (2 * length (p_s p) ≤ m)%nat →
  step_ok m (is_utf8 (p_s p) = true ∧ Forall wf_open stack) g.
Proof.
  intros H Hm. destruct (number p) as [[v p']|] eqn:E; [|done].
  apply number_inv in E as (raw & -> & Hr & Hc & Hne).
  destruct (done_value_ok m p stack (JNumber raw) p' raw _ eq_refl Hc Hne Hm) as (g' & Hg & Hok);
    [by constructor|].
  unfold done_value in Hg. rewrite Hg in H. by injection H as <-.
Qed.

Lemma read_value_ok p stack g :
  read_value p stack = Ok g →
  step_ok (phase_measure Value p) (is_utf8 (p_s p) = true ∧ Forall wf_open stack) g.
Proof.
  intros H. unfold read_value, done_value in H. pose proof (ws_length p) as Hw.
  assert (is_utf8 (p_s p) = is_utf8 (p_s (ws p))) as Hu by (by rewrite ws_utf8). rewrite Hu.
  assert (2 * length (p_s (ws p)) ≤ phase_measure Value p)%nat as Hm by (simpl; lia).
  revert Hm. generalize (phase_measure Value p) as m. intros m Hm.
  clear Hu Hw. revert H Hm. generalize (ws p). clear p. intros p H Hm.
  destruct (peek p) as [b|] eqn:Ep; [|done].
  pose proof (peek_advance p b Ep) as Hlen.
  destruct (b =? 91) eqn:E1; bool_hyps.
  { subst b. set (q := ws (advance 1 p)) in *. pose proof (ws_length (advance 1 p)) as Hq.
    assert (is_utf8 (p_s q) = is_utf8 (p_s p)) as Hu.
    { unfold q. rewrite ws_utf8. symmetry. apply (peek_utf8 p 91); [done|lia]. }
    fold q in Hq. case_bool_decide as Ec; injection H as <-; simpl.
    - pose proof (peek_advance _ _ Ec) as Ha. pose proof (peek_utf8 _ _ Ec ltac:(lia)) as Hc.
      simpl in Ha, Hc. split; [lia|]. intros [??]. split_and!; [congruence| |done].
      constructor. constructor.
    - split; [lia|]. intros [??]. split_and!; [congruence|done|].
      constructor; [constructor|done]. }
  destruct (b =? 123) eqn:E2; bool_hyps.
  { subst b. set (q := ws (advance 1 p)) in *. pose proof (ws_length (advance 1 p)) as Hq.
    assert (is_utf8 (p_s q) = is_utf8 (p_s p)) as Hu.
    { unfold q. rewrite ws_utf8. symmetry. apply (peek_utf8 p 123); [done|lia]. }
    fold q in Hq. case_bool_decide as Ec.
    - injection H as <-. simpl. pose proof (peek_advance _ _ Ec) as Ha.
      pose proof (peek_utf8 _ _ Ec ltac:(lia)) as Hc.
      simpl in Ha, Hc. split; [lia|]. intros [??]. split_and!; [congruence| |done].
      constructor; constructor.
    - destruct (member_name q) as [[name p2]|] eqn:En; [|done]. injection H as <-.
      apply member_name_inv in En as [H1 H2]. simpl. split; [lia|]. intros [Hup ?].
      rewrite Hu in H2. destruct (H2 Hup). split_and!; [done|done|].
      constructor; [|done]. simpl. split_and!; try done; constructor. }
  destruct (b =? 34) eqn:E3; bool_hyps.
  { subst b. destruct (read_string p) as [[s p2]|] eqn:Es; [|done]. injection H as <-.
    apply read_string_inv in Es as [H1 H2]; [|done]. simpl. split; [lia|].
    intros [Hup ?]. destruct (H2 Hup). split_and!; [done|by constructor|done]. }
  destruct (b =? 116) eqn:E4; [eapply literal_step; try done; [by apply ascii_word|constructor]|].
  destruct (b =? 102) eqn:E5; [eapply literal_step; try done; [by apply ascii_word|constructor]|].
  destruct (b =? 110) eqn:E6; [eapply literal_step; try done; [by apply ascii_word|constructor]|].
  destruct ((b =? 45) || is_ascii_digit b) eqn:E7; [by apply number_step|done].
Qed.

Lemma complete_value_ok v p stack g :
  complete_value v p stack = Ok g →
  step_ok (phase_measure (Complete v) p)
    (is_utf8 (p_s p) = true ∧ wf_json v ∧ Forall wf_open stack) g.
Proof.
  intros H. destruct stack as [|[items|members seen name] rest]; cbn [complete_value] in H.
  { injection H as <-. simpl. tauto. }
  - pose proof (ws_length p) as Hw. pose proof (ws_utf8 p) as Hu.
    destruct (peek (ws p)) as [b|] eqn:Ep; [|done]. pose proof (peek_advance _ _ Ep) as Ha.
    destruct (b =? 44) eqn:E1; [|destruct (b =? 93) eqn:E2; [|done]]; bool_hyps;
      injection H as <-; subst b; pose proof (peek_utf8 _ _ Ep ltac:(lia)) as Hc;
      cbn [step_ok phase_measure]; (split; [lia|]); intros (? & Hv & Hs); apply Forall_cons in Hs as [Hi Hs];
      (split_and!; [congruence| |]); simpl; try done.
    + constructor; [|done]. simpl. apply Forall_app. split; [done|by apply Forall_singleton].
    + constructor. apply Forall_app. split; [done|by apply Forall_singleton].
  - case_bool_decide as Hseen; [done|].
    pose proof (ws_length p) as Hw. pose proof (ws_utf8 p) as Hu.
    destruct (peek (ws p)) as [b|] eqn:Ep; [|done]. pose proof (peek_advance _ _ Ep) as Ha.
    assert (wf_json v → wf_open (OObject members seen name) →
      ({[name]} ∪ seen : gset (list Z)) = list_to_set (obj_names (members ++ [(name, v)])) ∧
      NoDup (obj_names (members ++ [(name, v)])) ∧
      Forall ijson_text (obj_names (members ++ [(name, v)])) ∧
      Forall (λ m, wf_json m.2) (members ++ [(name, v)])) as Hadd.
    { intros Hv (-> & Hn & Ht & Hf & Hname). unfold obj_names. rewrite map_app. simpl. split_and!.
      - rewrite list_to_set_app_L. simpl. set_solver.
      - apply NoDup_app. split_and!; [done| |apply NoDup_singleton].
        intros x Hx Hx'%list_elem_of_singleton. subst x. apply Hseen. set_solver.
      - apply Forall_app. split; [done|by apply Forall_singleton].
      - apply Forall_app. split; [done|by apply Forall_singleton]. }
    destruct (b =? 44) eqn:E1; [|destruct (b =? 125) eqn:E2; [|done]]; bool_hyps; subst b;
      pose proof (peek_utf8 _ _ Ep ltac:(lia)) as Hc.
    + destruct (member_name (advance 1 (ws p))) as [[next p2]|] eqn:En; [|done]. injection H as <-.
      apply member_name_inv in En as [H1 H2]. cbn [step_ok phase_measure]. split; [lia|].
      intros (Hup & Hv & Hs). apply Forall_cons in Hs as [Ho Hs].
      destruct (Hadd Hv Ho) as (? & ? & ? & ?). destruct H2 as [? ?]; [congruence|].
      split_and!; [done|done|]. constructor; [|done]. simpl. done.
    + injection H as <-. cbn [step_ok phase_measure]. split; [lia|].
      intros (Hup & Hv & Hs). apply Forall_cons in Hs as [Ho Hs].
      destruct (Hadd Hv Ho) as (? & ? & ? & ?). split_and!; [congruence| |done].
      by constructor.
Qed.

Lemma document_step_ok ph p stack g :
  document_step ph p stack = Ok g →
  step_ok (phase_measure ph p) (is_utf8 (p_s p) = true ∧ wf_phase ph ∧ Forall wf_open stack) g.
Proof.
  destruct ph as [|v]; intros H; [|by apply complete_value_ok].
  apply read_value_ok in H. destruct g; simpl in *; [|tauto]. tauto.
Qed.

(** ** The loops return *)

Lemma document_loop_enough fuel ph p stack :
  (phase_measure ph p < fuel)%nat →
  ∃ r, document_loop fuel ph p stack = Some r.
Proof.
  revert ph p stack. induction fuel as [|fuel IH]; intros ph p stack Hf; [lia|]. simpl.
  destruct (document_step ph p stack) as [[ph' p' stack'|v p']|] eqn:E; eauto.
  apply document_step_ok in E as [Hlt _]. apply IH. lia.
Qed.

Lemma document_loop_mono fuel k ph p stack r :
  document_loop fuel ph p stack = Some r → document_loop (fuel + k) ph p stack = Some r.
Proof.
  revert ph p stack. induction fuel as [|fuel IH]; intros ph p stack H; [done|]. simpl in *.
  destruct (document_step ph p stack) as [[ph' p' stack'|v p']|]; auto.
Qed.

Lemma parse_fuel_enough octets k :
  parse_fuel (document_fuel octets + k) octets = Some (parse octets).
Proof.
  unfold parse, parse_fuel. destruct (is_utf8 octets); [|done].
  destruct (document_loop_enough (document_fuel octets) Value (mkParser 0 octets) []) as [r Hr].
  { unfold document_fuel. simpl. lia. }
  by rewrite (document_loop_mono _ k _ _ _ _ Hr), Hr.
Qed.

(** ** What is read is I-JSON *)

Lemma document_loop_wf fuel ph p stack v p' :
  document_loop fuel ph p stack = Some (Ok (v, p')) →
  is_utf8 (p_s p) = true → wf_phase ph → Forall wf_open stack → wf_json v.
Proof.
  revert ph p stack. induction fuel as [|fuel IH]; intros ph p stack H Hu Hp Hs; [done|].
  simpl in H. destruct (document_step ph p stack) as [[ph' q stack'|w q]|] eqn:E; [| |done].
  - apply document_step_ok in E as [_ E]. destruct E as (? & ? & ?); [done|]. by eapply IH.
  - injection H as -> ->. apply document_step_ok in E. by apply E.
Qed.

Lemma parse_inv octets v :
  parse octets = Ok v →
  is_utf8 octets = true ∧ ∃ p,
    document_loop (document_fuel octets) Value (mkParser 0 octets) [] = Some (Ok (v, p)) ∧
    p_s (ws p) = [].
Proof.
  unfold parse, parse_fuel. destruct (is_utf8 octets); [|done]. intros H. split; [done|].
  destruct (document_loop _ _ _ _) as [[[w p]|e]|]; try done. cbn in H.
  case_bool_decide; [|done]. injection H as <-. eauto.
Qed.

Lemma parse_wf octets v : parse octets = Ok v → wf_json v.
Proof.
  intros (Hu & p & H & _)%parse_inv. by eapply document_loop_wf.
Qed.

(** Reading returns on every input: with the fuel [2 * len + 2] of [parse], or any
    larger fuel, the loops of the reader finish, with the result [parse] gives. *)
Theorem parse_total (octets : list Z) (k : nat) :
  parse_fuel (document_fuel octets + k) octets = Some (parse octets).
Proof. apply parse_fuel_enough. Qed.
