(* ===== verification/JsonText.v ===== *)
(** * The JSON reader reads back what the compact writer writes

    Every I-JSON value, printed by [Json.to_compact] and followed by a separator or by
    nothing, is read by the loops of the reader to the same value; so are the integers that
    [JsonNumber::from_u64] writes and [plain_integer_in] reads. *)

From S2P Require Import Prelude Ids Utf8 Json JsonFacts JsonReader.

(** ** Strings *)

(** Octets that stand for themselves in a string. *)
Definition plain_octet (b : Z) : bool := (32 <=? b) && negb (b =? 34) && negb (b =? 92).

Lemma string_loop_plain l i r out :
  forallb plain_octet l = true → string_loop i (l ++ r) out = string_loop (i + length l) r (out ++ l).
Proof.
  revert i out. induction l as [|b l IH]; intros i out H; simpl app.
  { by rewrite app_nil_r, Nat.add_0_r. }
  simpl in H. apply andb_true_iff in H as [Hb H]. unfold plain_octet in Hb. bool_hyps.
  cbn [string_loop]. replace (b =? 34) with false by lia. replace (b =? 92) with false by lia.
  replace (b <? 32) with false by lia. rewrite IH by done. rewrite <- app_assoc. simpl.
  f_equal. lia.
Qed.

Lemma utf8_encode_plain c :
  is_scalar c = true → 32 ≤ c → c ≠ 34 → c ≠ 92 → forallb plain_octet (utf8_encode c) = true.
Proof.
  intros Hc H1 H2 H3. destruct (utf8_encode_octets c Hc) as [(b & Hb & Hlt)|Hge].
  - rewrite Hb. unfold utf8_encode in Hb. destruct (c <? 128); [|repeat case_match; done].
    injection Hb as <-. simpl. unfold plain_octet. lia.
  - apply Forall_forallb. eapply Forall_impl; [exact Hge|]. intros b Hb. simpl in Hb |- *. unfold plain_octet. lia.
Qed.

Lemma string_loop_control c i r out :
  0 ≤ c < 32 →
  string_loop i ([92; 117; 48; 48; hex_digit (c / 16); hex_digit (c mod 16)] ++ r) out =
  string_loop (i + 6) r (out ++ [c]).
Proof.
  intros Hc. assert (c ∈ seqZ 0 32) as Hin by (apply elem_of_seqZ; lia).
  repeat (apply elem_of_cons in Hin as [->|Hin]; [reflexivity|]). by apply elem_of_nil in Hin.
Qed.

Lemma string_loop_char c i r out :
  is_scalar c = true →
  ∃ j, string_loop i (write_char c ++ r) out = string_loop j r (out ++ utf8_encode c).
Proof.
  intros Hc. unfold write_char.
  destruct (c =? 34) eqn:E1; bool_hyps; [subst; by eexists|].
  destruct (c =? 92) eqn:E2; bool_hyps; [subst; by eexists|].
  destruct (c =? 8) eqn:E3; bool_hyps; [subst; by eexists|].
  destruct (c =? 12) eqn:E4; bool_hyps; [subst; by eexists|].
  destruct (c =? 10) eqn:E5; bool_hyps; [subst; by eexists|].
  destruct (c =? 13) eqn:E6; bool_hyps; [subst; by eexists|].
  destruct (c =? 9) eqn:E7; bool_hyps; [subst; by eexists|].
  destruct (c <? 32) eqn:E8; bool_hyps.
  - exists (i + 6)%nat. apply is_scalar_true in Hc. rewrite string_loop_control by lia.
    unfold utf8_encode. by replace (c <? 128) with true by lia.
  - exists (i + length (utf8_encode c))%nat. by apply string_loop_plain, utf8_encode_plain.
Qed.

Lemma string_loop_chars cs : Forall (λ c, is_scalar c = true) cs → ∀ i r out,
  ∃ j, string_loop i (mjoin (map write_char cs) ++ 34 :: r) out =
       Ok (out ++ mjoin (map utf8_encode cs), mkParser j r).
Proof.
  induction 1 as [|c cs Hc Hcs IH]; intros i r out; simpl; [rewrite app_nil_r; eauto|].
  rewrite <- app_assoc. destruct (string_loop_char c i (mjoin (map write_char cs) ++ 34 :: r) out Hc) as [j ->].
  destruct (IH j r (out ++ utf8_encode c)) as [j' ->]. exists j'. by rewrite <- app_assoc.
Qed.

Lemma read_string_write s i r :
  ijson_text s → ∃ j, read_string (mkParser i (write_string s ++ r)) = Ok (s, mkParser j r).
Proof.
  intros [Hu Hi]. destruct (chars_spec s Hu) as [Hs Hc]. unfold read_string, write_string.
  simpl. rewrite drop_0, <- app_assoc. simpl.
  destruct (string_loop_chars (chars s) Hc (i + 1) r []) as [j ->]. simpl.
  rewrite <- Hs, Hi. eauto.
Qed.

(** ** Numbers *)

#[local] Arguments read_digits : simpl never.

Lemma take_digits_app ds r :
  digits ds → (∀ b, head r = Some b → is_ascii_digit b = false) → take_digits (ds ++ r) = ds.
Proof.
  intros Hd Hr. induction Hd as [|d ds Hd Hds IH]; simpl.
  - destruct r as [|b r]; [done|]. simpl. by rewrite (Hr b).
  - by rewrite Hd, IH.
Qed.

Lemma read_digits_app i ds r :
  digits ds → (∀ b, head r = Some b → is_ascii_digit b = false) →
  read_digits (mkParser i (ds ++ r)) = (ds, mkParser (i + length ds) r).
Proof.
  intros Hd Hr. unfold read_digits. simpl. rewrite take_digits_app by done.
  unfold advance. simpl. by rewrite drop_app_length.
Qed.

(** What may follow a value inside a document. *)
Definition sep (k : list Z) : Prop := k = [] ∨ ∃ b r, k = b :: r ∧ (b = 44 ∨ b = 93 ∨ b = 125).

Definition no_digit (k : list Z) : Prop := ∀ b, head k = Some b → is_ascii_digit b = false.

Lemma sep_head k b : sep k → head k = Some b → b = 44 ∨ b = 93 ∨ b = 125.
Proof. intros [->|(x & r & -> & H)] Hb; [done|]. by injection Hb as <-. Qed.

Lemma sep_no_digit k : sep k → no_digit k.
Proof. intros Hk b Hb. apply (sep_head k b Hk) in Hb as [->|[->| ->]]; done. Qed.

Lemma exp_no_digit e k : is_exp_part e → sep k → no_digit (e ++ k).
Proof.
  intros [->|(x & s & ds & -> & Hx & _)] Hk; [by apply sep_no_digit|].
  intros b [= <-]. by destruct Hx as [-> | ->].
Qed.

Lemma frac_no_digit f e k : is_frac_part f → is_exp_part e → sep k → no_digit (f ++ e ++ k).
Proof.
  intros [->|(ds & -> & _)] He Hk; [exact (exp_no_digit e k He Hk)|]. by intros b [= <-].
Qed.

Lemma number_int_app j i r :
  is_int_part i → no_digit r → number_int (mkParser j (i ++ r)) = Ok (i, mkParser (j + length i) r).
Proof.
  intros [->|(d & ds & -> & Hd & Hds)] Hr; unfold number_int; simpl; [done|].
  - replace (d =? 48) with false by lia. rewrite (proj2 (in_range_true 49 57 d)) by lia.
    f_equal. apply (read_digits_app j (d :: ds) r); [|done].
    constructor; [apply in_range_true; lia|done].
Qed.

Lemma number_frac_app j f r :
  is_frac_part f → no_digit r → (f = [] → head r ≠ Some 46) →
  number_frac (mkParser j (f ++ r)) = Ok (f, mkParser (j + length f) r).
Proof.
  intros [->|(ds & -> & Hne & Hds)] Hr Hf; unfold number_frac, peek; cbn [p_s app head].
  - rewrite bool_decide_false by (by apply Hf). simpl. by rewrite Nat.add_0_r.
  - rewrite bool_decide_true by done. unfold advance. cbn [p_i p_s]. simpl drop. rewrite drop_0.
    rewrite read_digits_app by (exact Hds || exact Hr). rewrite bool_decide_false by done.
    simpl. by rewrite <- !Nat.add_assoc.
Qed.

Lemma number_exp_app j e k :
  is_exp_part e → sep k → number_exp (mkParser j (e ++ k)) = Ok (e, mkParser (j + length e) k).
Proof.
  intros He Hk. destruct He as [->|(x & s & ds & -> & Hx & Hs & Hne & Hds)].
  - unfold number_exp. simpl app. unfold peek. cbn [p_s].
    destruct (head k) as [b|] eqn:Hb; [|by rewrite Nat.add_0_r].
    apply (sep_head k b Hk) in Hb as [->|[->| ->]]; simpl; by rewrite Nat.add_0_r.
  - unfold number_exp. cbn [app peek p_s head].
    replace ((x =? 101) || (x =? 69)) with true by (destruct Hx; subst; done).
    unfold advance. cbn [p_i p_s]. simpl drop. rewrite drop_0, <- app_assoc.
    assert (∀ i, read_digits (mkParser i (ds ++ k)) = (ds, mkParser (i + length ds) k)) as Hrd.
    { intros i. apply read_digits_app; [done|]. by apply sep_no_digit. }
    destruct Hs as [->|Hs].
    + simpl app at 1. unfold peek. cbn [p_s]. destruct ds as [|d ds]; [done|].
      cbn [app head]. pose proof Hds as Hd. apply Forall_cons in Hd as [Hd _].
      unfold is_ascii_digit in Hd. apply in_range_true in Hd.
      replace ((d =? 43) || (d =? 45)) with false by lia.
      rewrite (Hrd (j + 1)%nat : read_digits (mkParser _ (d :: ds ++ k)) = _).
      rewrite bool_decide_false by done. simpl. by rewrite <- !Nat.add_assoc.
    + assert (∃ c, s = [c] ∧ (c = 43 ∨ c = 45)) as (c & -> & Hc) by naive_solver.
      cbn [app peek p_s head]. replace ((c =? 43) || (c =? 45)) with true by lia.
      cbn [drop]. simpl drop. rewrite Hrd, bool_decide_false by done. simpl. by rewrite <- !Nat.add_assoc.
Qed.

Lemma number_app j raw k :
  is_rfc_number raw → sep k →
  number (mkParser j (raw ++ k)) = Ok (JNumber raw, mkParser (j + length raw) k).
Proof.
  intros (s & i & f & e & -> & Hs & Hi & Hf & He) Hk. unfold number.
  assert ((if bool_decide (peek (mkParser j ((s ++ i ++ f ++ e) ++ k)) = Some 45)
    then ([45], advance 1 (mkParser j ((s ++ i ++ f ++ e) ++ k)))
    else ([], mkParser j ((s ++ i ++ f ++ e) ++ k))) =
    (s, mkParser (j + length s) (i ++ f ++ e ++ k))) as ->.
  { rewrite <- !app_assoc. destruct Hs as [-> | ->].
    - rewrite bool_decide_false; [simpl; by rewrite Nat.add_0_r|].
      destruct Hi as [->|(d & ds & -> & Hd & _)]; simpl; [done|]. intros [= ->]. lia.
    - rewrite bool_decide_true by done. unfold advance. simpl. by rewrite drop_0. }
  rewrite number_int_app by (try apply frac_no_digit; done). simpl.
  rewrite number_frac_app; [|done|by apply exp_no_digit|].
  2: { intros _ Hh. destruct He as [->|(x & sg & ds & -> & Hx & _)].
       - apply (sep_head k 46 Hk) in Hh. lia.
       - injection Hh as ->. lia. }
  simpl. rewrite number_exp_app by done. simpl. by rewrite !length_app, !Nat.add_assoc.
Qed.

(** ** Runs of the reader *)

(** The loops go from one state to the other, whatever fuel is left after it. *)
Definition leads (ph : phase) (p : Parser) (st : list Open)
    (ph' : phase) (p' : Parser) (st' : list Open) : Prop :=
  ∃ n, ∀ fuel, document_loop (n + fuel) ph p st = document_loop fuel ph' p' st'.

Lemma leads_trans ph1 p1 s1 ph2 p2 s2 ph3 p3 s3 :
  leads ph1 p1 s1 ph2 p2 s2 → leads ph2 p2 s2 ph3 p3 s3 → leads ph1 p1 s1 ph3 p3 s3.
Proof.
  intros [n Hn] [m Hm]. exists (n + m)%nat. intros fuel. by rewrite <- Nat.add_assoc, Hn, Hm.
Qed.

Lemma leads_step ph p st ph' p' st' :
  document_step ph p st = Ok (Next ph' p' st') → leads ph p st ph' p' st'.
Proof. intros H. exists 1%nat. intros fuel. simpl. by rewrite H. Qed.

Lemma ws_nonspace i b s : is_ws b = false → ws (mkParser i (b :: s)) = mkParser i (b :: s).
Proof. intros H. unfold ws. simpl. by rewrite H. Qed.

Lemma advance_1 i b s : advance 1 (mkParser i (b :: s)) = mkParser (i + 1) s.
Proof. done. Qed.

(** Reading the text of [v], in any container, before a separator, completes [v]. *)
Definition reads (v : Json) : Prop :=
  ∀ i st k, sep k →
  ∃ j, leads Value (mkParser i (compact v ++ k)) st (Complete v) (mkParser j k) st.

(** The first octet of a value's text. *)
Definition value_start (b : Z) : bool :=
  (b =? 91) || (b =? 123) || (b =? 34) || (b =? 116) || (b =? 102) || (b =? 110) ||
  (b =? 45) || is_ascii_digit b.

Lemma value_start_spec b :
  value_start b = true → is_ws b = false ∧ b ≠ 93 ∧ b ≠ 125.
Proof.
  unfold value_start, is_ws, is_ascii_digit. intros H.
  repeat (apply orb_true_iff in H as [H|H]); bool_hyps; subst; try done.
  apply in_range_true in H. lia.
Qed.

Lemma rfc_number_start raw :
  is_rfc_number raw → ∃ b r, raw = b :: r ∧ (b = 45 ∨ is_ascii_digit b = true).
Proof.
  intros (s & i & f & e & -> & [-> | ->] & Hi & _); [|simpl; eauto].
  destruct Hi as [->|(d & ds & -> & Hd & _)]; simpl; eexists _, _; (split; [done|]); right; [done|].
  apply in_range_true. lia.
Qed.

Lemma compact_start v : wf_json v → ∃ b r, compact v = b :: r ∧ value_start b = true.
Proof.
  intros Hv. destruct Hv as [|[]|n Hn|s Hs|a Ha|o H1 H2 H3]; try (simpl; by eauto).
  destruct (rfc_number_start n Hn) as (b & r & Hr & Hb).
  exists b, r. split; [done|]. unfold value_start. destruct Hb as [->|Hb]; [done|].
  rewrite Hb. apply orb_true_r.
Qed.

Lemma member_name_write name i s :
  ijson_text name →
  ∃ j, member_name (mkParser i (write_string name ++ 58 :: s)) = Ok (name, mkParser j s).
Proof.
  intros Hn. destruct (read_string_write name i (58 :: s) Hn) as [j Hj]. exists (j + 1)%nat.
  unfold member_name. change (write_string name ++ 58 :: s)
    with (34 :: (mjoin (map write_char (chars name)) ++ [34]) ++ 58 :: s) in *.
  rewrite ws_nonspace by done. unfold peek at 1. cbn [p_s head].
  rewrite bool_decide_true by done. rewrite Hj. simpl. rewrite ws_nonspace by done. done.
Qed.

(** With one element complete, the rest of an array's text completes the array. *)
Lemma reads_items a : Forall reads a → ∀ items i st k v,
  ∃ j, leads (Complete v) (mkParser i (items_text false (map compact a) ++ 93 :: k)) (OArray items :: st)
    (Complete (JArray (items ++ v :: a))) (mkParser j k) st.
Proof.
  induction 1 as [|w a Hw Ha IH]; intros items i st k v.
  - exists (i + 1)%nat. apply leads_step. simpl. rewrite ws_nonspace by done. done.
  - set (t := items_text false (map compact a) ++ 93 :: k).
    assert (sep t) as Ht.
    { right. unfold t. destruct a; simpl; eexists _, _; (split; [done|]); auto. }
    destruct (Hw (i + 1)%nat (OArray (items ++ [v]) :: st) t Ht) as [j1 H1].
    destruct (IH (items ++ [v]) j1 st k w) as [j2 H2]. rewrite <- app_assoc in H2.
    exists j2. eapply leads_trans; [apply leads_step|exact (leads_trans _ _ _ _ _ _ _ _ _ H1 H2)].
    simpl. rewrite <- app_assoc. fold t. rewrite ws_nonspace by done. done.
Qed.

(** The text of a member, and of the members that follow another one. *)
Definition member_text (m : list Z * Json) : list Z := write_string m.1 ++ [58] ++ compact m.2.

Lemma reads_members (o : list (list Z * Json)) :
  Forall (λ m, reads m.2) o → Forall ijson_text (obj_names o) → ∀ members seen name i st k v,
  NoDup (obj_names (members ++ (name, v) :: o)) → seen = list_to_set (obj_names members) →
  ∃ j, leads (Complete v) (mkParser i (items_text false (map member_text o) ++ 125 :: k))
         (OObject members seen name :: st)
         (Complete (JObject (members ++ (name, v) :: o))) (mkParser j k) st.
Proof.
  induction 1 as [|[n w] o Hw Ho IH]; intros Ht members seen name i st k v Hnd Hseen.
  all: assert (name ∉ seen) as Hfresh
    by (rewrite Hseen; unfold obj_names in Hnd |- *; rewrite map_app in Hnd;
        apply NoDup_app in Hnd as (_ & Hd & _); intros Hin%elem_of_list_to_set;
        by apply (Hd _ Hin), list_elem_of_here).
  - exists (i + 1)%nat. apply leads_step. cbn [document_step complete_value].
    rewrite bool_decide_false by done. simpl app. rewrite ws_nonspace by done. done.
  - apply Forall_cons in Ht as [Hn Ht].
    set (t := items_text false (map member_text o) ++ 125 :: k).
    assert (sep t) as Hs.
    { right. unfold t. destruct o; simpl; eexists _, _; (split; [done|]); auto. }
    set (seen' := {[name]} ∪ seen).
    destruct (member_name_write n (i + 1) (compact w ++ t) Hn) as [j0 H0].
    destruct (Hw j0 (OObject (members ++ [(name, v)]) seen' n :: st) t Hs) as [j1 H1].
    destruct (IH Ht (members ++ [(name, v)]) seen' n j1 st k w) as [j2 H2].
    { by rewrite <- app_assoc. }
    { unfold seen', obj_names. rewrite Hseen, map_app, list_to_set_app_L. simpl. set_solver. }
    rewrite <- app_assoc in H2.
    exists j2. eapply leads_trans; [apply leads_step|exact (leads_trans _ _ _ _ _ _ _ _ _ H1 H2)].
    assert (items_text false (map member_text ((n, w) :: o)) ++ 125 :: k =
      44 :: write_string n ++ 58 :: compact w ++ t) as ->.
    { unfold t. simpl. by rewrite <- !app_assoc. }
    cbn [document_step complete_value]. rewrite bool_decide_false by done.
    rewrite ws_nonspace by done. unfold peek at 1. cbn [p_s head].
    rewrite Z.eqb_refl, advance_1. by rewrite H0.
Qed.

Lemma read_literal_step i st k v word :
  read_value (mkParser i (word ++ k)) st = done_value st (literal word v (mkParser i (word ++ k))) →
  ∃ j, leads Value (mkParser i (word ++ k)) st (Complete v) (mkParser j k) st.
Proof.
  intros H. exists (i + length word)%nat. apply leads_step. simpl. rewrite H. unfold literal. simpl.
  rewrite (proj2 (starts_with_spec word (word ++ k))) by eauto. unfold advance. simpl.
  by rewrite drop_app_length.
Qed.

Lemma read_array_open i b s st :
  is_ws b = false → b ≠ 93 →
  leads Value (mkParser i (91 :: b :: s)) st Value (mkParser (i + 1) (b :: s)) (OArray [] :: st).
Proof.
  intros Hw Hb. apply leads_step. unfold document_step, read_value.
  rewrite ws_nonspace by done. cbn [peek p_s head]. rewrite Z.eqb_refl, advance_1.
  rewrite ws_nonspace by done. unfold peek. cbn [p_s head].
  rewrite bool_decide_false by congruence. done.
Qed.

Lemma read_object_open i name s st :
  ijson_text name →
  ∃ j, leads Value (mkParser i (123 :: write_string name ++ 58 :: s)) st
         Value (mkParser j s) (OObject [] ∅ name :: st).
Proof.
  intros Hn. destruct (member_name_write name (i + 1) s Hn) as [j Hj]. exists j.
  apply leads_step. unfold document_step, read_value. rewrite ws_nonspace by done.
  unfold peek at 1. cbn [p_s head].
  replace (123 =? 91) with false by done. rewrite Z.eqb_refl, advance_1.
  change (write_string name ++ 58 :: s)
    with (34 :: (mjoin (map write_char (chars name)) ++ [34]) ++ 58 :: s) in *.
  rewrite ws_nonspace by done. unfold peek at 1. cbn [p_s head].
  rewrite bool_decide_false by done. by rewrite Hj.
Qed.

Lemma read_scalar_text v : wf_json v →
  match v with JArray _ | JObject _ => True | _ => reads v end.
Proof.
  intros Hv. destruct Hv as [|b|n Hn|s Hs|a Ha|o H1 H2 H3]; try done; intros i st k Hk.
  - apply (read_literal_step i st k JNull (bs "null")). done.
  - destruct b; [apply (read_literal_step i st k (JBool true) (bs "true"))|
                 apply (read_literal_step i st k (JBool false) (bs "false"))]; done.
  - exists (i + length n)%nat. apply leads_step. simpl document_step.
    destruct (rfc_number_start n Hn) as (b & r & Hr & Hb).
    change (compact (JNumber n)) with n. pose proof (number_app i n k Hn Hk) as Hnum.
    assert (read_value (mkParser i (n ++ k)) st = done_value st (number (mkParser i (n ++ k)))) as ->.
    { subst n. unfold read_value. assert (value_start b = true ∧ b ≠ 91 ∧ b ≠ 123 ∧ b ≠ 34 ∧ b ≠ 116 ∧ b ≠ 102 ∧ b ≠ 110)
        as (Hv & ? & ? & ? & ? & ? & ?).
      { unfold value_start, is_ascii_digit in *. destruct Hb as [->|Hb]; [done|].
        rewrite Hb, orb_true_r. apply in_range_true in Hb. lia. }
      destruct (value_start_spec b Hv) as [Hws _]. simpl app. rewrite ws_nonspace by done.
      unfold peek. cbn [p_s head].
      do 6 (match goal with |- context [b =? ?x] => replace (b =? x) with false by lia end).
      replace ((b =? 45) || is_ascii_digit b) with true; [done|].
      destruct Hb as [->|Hb]; [done|]. by rewrite Hb, orb_true_r. }
    by rewrite Hnum.
  - destruct (read_string_write s i k Hs) as [j Hj]. exists j. apply leads_step.
    simpl document_step. change (compact (JString s)) with (write_string s).
    unfold read_value. change (write_string s ++ k)
      with (34 :: (mjoin (map write_char (chars s)) ++ [34]) ++ k) in *.
    rewrite ws_nonspace by done. cbn [peek p_s head].
    change (34 =? 91) with false. change (34 =? 123) with false. change (34 =? 34) with true.
    cbv iota. by rewrite Hj.
Qed.

Lemma reads_all v : wf_json v → reads v.
Proof.
  induction v as [| | | |a IH|o IH] using Json_nested_ind; intros Hv;
    try exact (read_scalar_text _ Hv); intros i st k Hk; inversion Hv as [| | | |? Ha|? Hnd Htx Hm]; subst.
  - assert (Forall reads a) as Hr by (apply Forall_forall; intros x Hx; rewrite Forall_forall in IH, Ha; auto).
    destruct a as [|v a].
    { exists (i + 1 + 1)%nat. by apply leads_step. }
    apply Forall_cons in Hr as [Hr Hrs]. apply Forall_cons in Ha as [Hv1 _].
    set (t := items_text false (map compact a) ++ 93 :: k).
    assert (sep t) as Ht.
    { right. unfold t. destruct a; simpl; eexists _, _; (split; [done|]); auto. }
    assert (compact (JArray (v :: a)) ++ k = 91 :: compact v ++ t) as ->.
    { unfold t. simpl. fold compact. by rewrite <- !app_assoc. }
    destruct (compact_start v Hv1) as (b & r & Hb & Hst). apply value_start_spec in Hst as (Hst1 & Hst2 & _).
    destruct (Hr (i + 1)%nat (OArray [] :: st) t Ht) as [j1 H1].
    destruct (reads_items a Hrs [] j1 st k v) as [j2 H2]. exists j2.
    eapply leads_trans; [|exact (leads_trans _ _ _ _ _ _ _ _ _ H1 H2)].
    rewrite Hb. by apply read_array_open.
  - assert (Forall (λ m : list Z * Json, reads m.2) o) as Hr
      by (apply Forall_forall; intros x Hx; rewrite Forall_forall in IH, Hm; auto).
    destruct o as [|[n v] o].
    { exists (i + 1 + 1)%nat. by apply leads_step. }
    apply Forall_cons in Hr as [Hr Hrs]. apply Forall_cons in Htx as [Hn Htx]. simpl in Hr, Hn.
    set (t := items_text false (map member_text o) ++ 125 :: k).
    assert (sep t) as Ht.
    { right. unfold t. destruct o; simpl; eexists _, _; (split; [done|]); auto. }
    assert (compact (JObject ((n, v) :: o)) ++ k = 123 :: write_string n ++ 58 :: compact v ++ t) as ->.
    { unfold t, compact. simpl. rewrite map_map, <- !app_assoc. done. }
    destruct (read_object_open i n (compact v ++ t) st Hn) as [j0 H0].
    destruct (Hr j0 (OObject [] ∅ n :: st) t Ht) as [j1 H1].
    destruct (reads_members o Hrs Htx [] ∅ n j1 st k v) as [j2 H2]; [done|done|].
    exists j2. eapply leads_trans; [exact H0|exact (leads_trans _ _ _ _ _ _ _ _ _ H1 H2)].
Qed.

(** ** The compact text is UTF-8 *)

Lemma ascii_utf8 l : ascii l → is_utf8 l = true.
Proof. intros H. rewrite <- (app_nil_r l), utf8_app_ascii by done. done. Qed.

Lemma utf8_mjoin l : Forall (λ x, is_utf8 x = true) l → is_utf8 (mjoin l) = true.
Proof. induction 1; [done|]. by apply utf8_app. Qed.

Lemma items_text_utf8 first l :
  Forall (λ x, is_utf8 x = true) l → is_utf8 (items_text first l) = true.
Proof.
  intros H. revert first. induction H as [|x l Hx Hl IH]; intros first; [done|].
  apply utf8_app; [by destruct first|]. by apply utf8_app.
Qed.

Lemma write_char_utf8 c : is_scalar c = true → is_utf8 (write_char c) = true.
Proof.
  intros Hc. unfold write_char. repeat case_match; try done; [|by apply utf8_char].
  bool_hyps. apply is_scalar_true in Hc. apply ascii_utf8.
  repeat (apply Forall_cons; split); try lia; try constructor;
    unfold hex_digit; case_match; bool_hyps; dlia.
Qed.

Lemma write_string_utf8 s : ijson_text s → is_utf8 (write_string s) = true.
Proof.
  intros [Hu _]. destruct (chars_spec s Hu) as [_ Hc]. unfold write_string.
  repeat apply utf8_app; try done. apply utf8_mjoin, Forall_map.
  eapply Forall_impl; [exact Hc|]. intros c. apply write_char_utf8.
Qed.

Lemma rfc_number_ascii raw : is_rfc_number raw → ascii raw.
Proof.
  intros (s & i & f & e & -> & Hs & Hi & Hf & He). repeat (apply Forall_app; split).
  - destruct Hs as [-> | ->]; [constructor|by apply Forall_singleton].
  - destruct Hi as [->|(d & ds & -> & Hd & Hds)]; [by apply Forall_singleton|].
    constructor; [lia|by apply digits_ascii].
  - destruct Hf as [->|(ds & -> & _ & Hds)]; [constructor|].
    constructor; [lia|by apply digits_ascii].
  - destruct He as [->|(x & g & ds & -> & Hx & Hg & _ & Hds)]; [constructor|].
    constructor; [lia|]. apply Forall_app; split; [|by apply digits_ascii].
    destruct Hg as [->|[-> | ->]]; [constructor|by apply Forall_singleton..].
Qed.

Lemma compact_utf8 v : wf_json v → is_utf8 (compact v) = true.
Proof.
  induction v as [|b| | |a IH|o IH] using Json_nested_ind; intros Hv;
    inversion Hv as [| |? Hn|? Hs|? Ha|? Hnd Htx Hm]; subst; try done.
  - by destruct b.
  - by apply ascii_utf8, rfc_number_ascii.
  - by apply write_string_utf8.
  - unfold compact. simpl. rewrite utf8_cons_ascii by lia. apply utf8_app; [|done].
    apply items_text_utf8, Forall_map, Forall_forall. intros x Hx.
    rewrite Forall_forall in IH, Ha. by apply IH, Ha.
  - unfold compact. simpl. rewrite utf8_cons_ascii by lia. apply utf8_app; [|done].
    rewrite map_map. apply items_text_utf8, Forall_map, Forall_forall. intros [n x] Hx.
    rewrite Forall_forall in IH, Hm. apply (utf8_app (write_string n) (58 :: compact x)).
    + apply write_string_utf8. rewrite Forall_forall in Htx. apply Htx.
      apply list_elem_of_fmap. by exists (n, x).
    + rewrite utf8_cons_ascii by lia. by apply (IH (n, x)), Hm.
Qed.

Lemma parse_compact v : wf_json v → parse (compact v) = Ok v.
Proof.
  intros Hv. destruct (reads_all v Hv 0%nat [] [] (or_introl eq_refl)) as (j & n & Hn).
  rewrite app_nil_r in Hn. pose proof (parse_fuel_enough (compact v) (n + 1)) as H.
  unfold parse_fuel in H. rewrite (compact_utf8 v Hv) in H.
  replace (document_fuel (compact v) + (n + 1))%nat
    with (n + S (document_fuel (compact v)))%nat in H by lia.
  rewrite Hn in H. cbn -[document_fuel] in H. injection H as H. by rewrite <- H.
Qed.

(** [C39] What the reader accepts is I-JSON, and loses nothing when written out: a value read
    from any octets has only RFC 8259 numbers, strings and names of well-formed UTF-8 without
    noncharacters, and no repeated member name in any object; and its compact text reads back
    as the same value. *)
Theorem parse_sound (octets : list Z) (v : Json) :
  parse octets = Ok v → wf_json v ∧ parse (to_compact v) = Ok v.
Proof.
  intros H%parse_wf. split; [done|]. rewrite to_compact_ref. by apply parse_compact.
Qed.

Lemma parse_sound_witness :
  parse (jtext "{`b`:[1,-2.5e3,`\u0007`]}") =
    Ok (JObject [(bs "b", JArray [JNumber (bs "1"); JNumber (bs "-2.5e3"); JString [7]])]) ∧
  parse (to_compact (JObject [(bs "b", JArray [JNumber (bs "1"); JNumber (bs "-2.5e3"); JString [7]])])) =
    Ok (JObject [(bs "b", JArray [JNumber (bs "1"); JNumber (bs "-2.5e3"); JString [7]])]).
Proof.
  split; [vm_compute; reflexivity|].
  apply (parse_sound (jtext "{`b`:[1,-2.5e3,`\u0007`]}")). vm_compute. reflexivity.
Defined.

(** Round trip of every I-JSON tree: the compact text of a tree that satisfies the I-JSON
    conditions is read back to exactly that tree, members in the same order and numbers with
    the same spelling. *)
Theorem compact_round_trip (v : Json) : wf_json v → parse (to_compact v) = Ok v.
Proof. intros H. rewrite to_compact_ref. by apply parse_compact. Qed.

Lemma compact_round_trip_witness :
  wf_json (JArray [JNull; JNumber (bs "0.5"); JString (bs "q")]) ∧
  parse (to_compact (JArray [JNull; JNumber (bs "0.5"); JString (bs "q")])) =
    Ok (JArray [JNull; JNumber (bs "0.5"); JString (bs "q")]).
Proof.
  assert (wf_json (JArray [JNull; JNumber (bs "0.5"); JString (bs "q")])) as H.
  { repeat constructor. exists [], [48], [46; 53], []. split; [reflexivity|].
    split; [by left|]. split; [by left|]. split; [|by left].
    right. exists [53]. split; [reflexivity|]. split; [done|]. by repeat constructor. }
  split; [exact H|]. exact (compact_round_trip _ H).
Defined.

(** ** Plain integers *)

Lemma plain_integer_from v lo hi :
  0 ≤ v ≤ U64_MAX → lo ≤ v ≤ hi → plain_integer_in (from_u64 v) lo hi = Some v.
Proof.
  intros Hv Hb. destruct (to_dec_spec v Hv) as (Hd & Hval & Hlen & Hz & H0 & _).
  unfold plain_integer_in, from_u64. rewrite Hd, Hval.
  rewrite (bool_decide_false (to_dec v = [])) by (intros E; rewrite E in Hlen; simpl in Hlen; lia).
  assert (bool_decide (length (to_dec v) = 1%nat) || negb (default 0 (to_dec v !! 0%nat) =? 48) = true) as ->.
  { destruct (to_dec v !! 0%nat) as [x|] eqn:E; [|apply lookup_ge_None in E; lia]. simpl.
    destruct (x =? 48) eqn:E2; [|apply orb_true_r]. bool_hyps. subst.
    rewrite (H0 (Hz eq_refl)). done. }
  simpl. replace (v <=? U64_MAX) with true by lia.
  by rewrite (proj2 (in_range_true lo hi v)).
Qed.

Lemma plain_range raw lo hi v : plain_integer_in raw lo hi = Some v → lo ≤ v ≤ hi.
Proof.
  unfold plain_integer_in, then_some. repeat case_match; intros [= <-].
  match goal with H : in_range _ _ _ = true |- _ => by apply in_range_true in H end.
Qed.

Lemma from_u64_rfc v : 0 ≤ v ≤ U64_MAX → is_rfc_number (from_u64 v).
Proof.
  intros Hv. destruct (to_dec_spec v Hv) as (Hd & Hval & Hlen & Hz & H0 & _).
  exists [], (from_u64 v), [], []. unfold from_u64. split_and!; [by rewrite !app_nil_r|by left| |by left|by left].
  apply Forall_forallb in Hd.
  destruct (to_dec v) as [|d ds] eqn:E; [simpl in Hlen; lia|]. apply Forall_cons in Hd as [Hd Hds].
  destruct (decide (d = 48)) as [->|Hne].
  - left. by apply H0, Hz.
  - right. exists d, ds. split_and!; try done; apply in_range_true in Hd; lia.
Qed.

(** ** Building I-JSON values *)

Lemma ascii_ijson s : ascii s → ijson_text s.
Proof.
  intros H. split; [by apply ascii_utf8|]. unfold is_ijson_string, chars.
  rewrite utf8_decode_ascii by done. simpl. apply negb_true_iff.
  induction H as [|b s Hb Hs IH]; [done|]. simpl. rewrite IH, orb_false_r.
  unfold is_noncharacter. apply orb_false_iff. split; [unfold in_range; lia|].
  apply Z.eqb_neq. intros Hl. apply (f_equal (λ z, Z.testbit z 15)) in Hl.
  rewrite Z.land_spec, <- (Z.mod_small b (2 ^ 7)), Z.mod_pow2_bits_high in Hl by lia. done.
Qed.

Lemma ascii_bs s : forallb (in_range 0 127) (bs s) = true → ijson_text (bs s).
Proof. intros H. by apply ascii_ijson, ascii_word. Qed.

Lemma obj_replace_names o n v o' : obj_replace o n v = Some o' → obj_names o' = obj_names o.
Proof.
  revert o'. induction o as [|[k w] o IH]; intros o' H; [done|]. simpl in H.
  destruct (beq k n); [by injection H as <-|].
  destruct (obj_replace o n v) as [r|]; [|done]. injection H as <-. unfold obj_names in *. simpl.
  by rewrite (IH r).
Qed.

Lemma obj_replace_Forall (P : list Z * Json → Prop) o n v o' :
  obj_replace o n v = Some o' → Forall P o → P (n, v) → Forall P o'.
Proof.
  revert o'. induction o as [|[k w] o IH]; intros o' H Ho Hv; [done|]. simpl in H. inv_Forall.
  destruct (beq k n) eqn:E; [apply beq_true in E as ->; injection H as <-; by constructor|].
  destruct (obj_replace o n v) as [r|]; [|done]. injection H as <-. constructor; [done|]. by apply IH.
Qed.

Lemma wf_insert o n v :
  wf_json (JObject o) → ijson_text n → wf_json v → wf_json (JObject (obj_insert o n v)).
Proof.
  intros Ho Hn Hv. inversion Ho as [| | | | |? Hnd Ht Hm]; subst. unfold obj_insert.
  destruct (obj_replace o n v) as [o'|] eqn:E.
  - constructor; [by rewrite (obj_replace_names _ _ _ _ E)..|].
    by eapply (obj_replace_Forall (λ m, wf_json m.2)).
  - apply obj_replace_None, obj_get_None in E. unfold obj_names in *. constructor; unfold obj_names.
    + rewrite map_app. apply NoDup_app. split_and!; [done| |apply NoDup_singleton].
      intros x Hx ->%list_elem_of_singleton. done.
    + rewrite map_app. apply Forall_app. split; [done|by apply Forall_singleton].
    + apply Forall_app. split; [done|by apply Forall_singleton].
Qed.

Lemma wf_empty : wf_json (JObject []).
Proof. by repeat constructor. Qed.

#[export] Hint Resolve wf_empty ascii_ijson : oac.

(** Strings of the identifier forms are ASCII. *)
Lemma token_ascii s : is_token s = true → ascii s.
Proof.
  unfold is_token. intros H. bool_hyps. apply Forall_forallb in H0. eapply Forall_impl; [exact H0|].
  intros b Hb. simpl in Hb. unfold is_ascii_alphanumeric, is_ascii_lowercase, is_ascii_uppercase, is_ascii_digit, in_range in Hb. lia.
Qed.

Lemma session_id_ascii s : is_session_id s = true → ascii s.
Proof. intros H. by apply token_ascii, session_id_is_token. Qed.

Lemma to_dec_ascii v : 0 ≤ v ≤ U64_MAX → ascii (to_dec v).
Proof.
  intros Hv. destruct (to_dec_spec v Hv) as (Hd & _). apply digits_ascii. by apply Forall_forallb.
Qed.

Lemma version_ascii v :
  0 ≤ major v ≤ 9999 → 0 ≤ minor v ≤ 9999 → ascii (Version_to_string v).
Proof.
  intros H1 H2. unfold Version_to_string. apply Forall_app. split; [apply to_dec_ascii; unfold U64_MAX; lia|].
  constructor; [lia|]. apply to_dec_ascii. unfold U64_MAX. lia.
Qed.

Lemma core_type_ascii t : is_core_type t = true → ascii t.
Proof.
  unfold is_core_type, is_lower_name. intros H. bool_hyps.
  match goal with H : forallb _ t = true |- _ => apply Forall_forallb in H; eapply Forall_impl; [exact H|] end.
  intros b Hb. simpl in Hb. unfold is_ascii_lowercase, is_ascii_digit, in_range in Hb. lia.
Qed.

Lemma split_at_ascii c p :
  0 ≤ c < 128 → Forall ascii (split_at c p) → ascii p.
Proof.
  intros Hc. induction p as [|b p IH]; simpl; intros H; [constructor|].
  destruct (b =? c) eqn:E; bool_hyps.
  - apply Forall_cons in H as [_ H]. constructor; [lia|by apply IH].
  - destruct (split_at c p) as [|q qs]; inv_Forall.
    + match goal with H : ascii [b] |- _ => unfold ascii in H; inv_Forall end.
      constructor; [done|]. apply IH. constructor.
    + match goal with H : ascii (b :: q) |- _ => unfold ascii in H; inv_Forall end.
      constructor; [done|]. apply IH. by constructor.
Qed.

Lemma extension_type_ascii t : is_extension_type t = true → ascii t.
Proof.
  unfold is_extension_type. destruct (split_once 47 t) as [[p n]|] eqn:E; [|done]. intros H.
  apply andb_true_iff in H as [Hp Hn]. apply split_once_Some in E as ->. unfold is_reverse_dns in Hp.
  apply andb_true_iff in Hp as [_ Hp]. apply Forall_app. split.
  - apply (split_at_ascii 46); [lia|]. apply Forall_forallb in Hp. eapply Forall_impl; [exact Hp|].
    intros l Hl. unfold is_dns_label in Hl. bool_hyps.
    match goal with H : forallb _ l = true |- _ => apply Forall_forallb in H; eapply Forall_impl; [exact H|] end.
    intros b Hb. simpl in Hb. unfold is_ascii_alphanumeric, is_ascii_lowercase, is_ascii_uppercase, is_ascii_digit, in_range in Hb. lia.
  - constructor; [lia|]. unfold is_lower_name in Hn. bool_hyps.
    match goal with H : forallb _ n = true |- _ => apply Forall_forallb in H; eapply Forall_impl; [exact H|] end.
    intros b Hb. simpl in Hb. unfold is_ascii_lowercase, is_ascii_digit, in_range in Hb. lia.
Qed.

Lemma slice_digit i j s v k b :
  Ids.digits (slice i j s) = Some v → (i ≤ k < j)%nat → s !! k = Some b → 0 ≤ b < 128.
Proof.
  unfold Ids.digits. intros H Hk Hb. destruct (bool_decide (slice i j s = []) || _) eqn:E; [done|].
  apply orb_false_iff in E as [_ E]. apply negb_false_iff, Forall_forallb, digits_ascii in E.
  unfold ascii in E. rewrite Forall_lookup in E. apply (E (k - i)%nat).
  unfold slice. rewrite lookup_take_lt by lia. rewrite lookup_drop. by replace (i + (k - i))%nat with k by lia.
Qed.

Lemma octet_is_ascii s i c b :
  octet_is_not s i c = false → 0 ≤ c < 128 → s !! i = Some b → 0 ≤ b < 128.
Proof.
  unfold octet_is_not. intros H Hc Hb. apply negb_false_iff, bool_decide_eq_true in H.
  rewrite H in Hb. by injection Hb as <-.
Qed.

Lemma frac_ascii f v : frac_nanos f = Some v → ascii f.
Proof.
  destruct f as [|c f]; [constructor|]. simpl. intros H.
  destruct (c =? 46) eqn:E; [|done]. destruct (in_range _ _ _); [|done]. simpl in H.
  destruct (Ids.digits f) eqn:Ed; [|done]. bool_hyps. constructor; [lia|].
  unfold Ids.digits in Ed. destruct (bool_decide (f = []) || _) eqn:E'; [done|].
  apply orb_false_iff in E' as [_ E']. by apply negb_false_iff, Forall_forallb, digits_ascii in E'.
Qed.

Lemma timestamp_ascii s t : Timestamp_parse s = Some t → ascii s.
Proof.
  unfold Timestamp_parse. intros H.
  destruct (_ || _) eqn:E; [done|]. repeat (apply orb_false_iff in E as [E ?]).
  destruct (Ids.digits (slice 0 4 s)) eqn:Hs1; [|done]. destruct (Ids.digits (slice 5 7 s)) eqn:Hs2; [|done].
  destruct (Ids.digits (slice 8 10 s)) eqn:Hs3; [|done]. destruct (Ids.digits (slice 11 13 s)) eqn:Hs4; [|done].
  destruct (Ids.digits (slice 14 16 s)) eqn:Hs5; [|done]. destruct (Ids.digits (slice 17 19 s)) eqn:Hs6; [|done].
  cbn [mbind option_bind] in H. destruct (frac_nanos _) eqn:Hs7 in H; [|done]. clear H.
  apply Forall_lookup. intros k b Hb. pose proof (lookup_lt_Some _ _ _ Hb).
  destruct (decide (k < 19)%nat) as [Hk|Hk].
  - do 19 (destruct k as [|k]; [first
      [ (eapply slice_digit; [exact Hs1| |exact Hb]; lia) | (eapply slice_digit; [exact Hs2| |exact Hb]; lia)
      | (eapply slice_digit; [exact Hs3| |exact Hb]; lia) | (eapply slice_digit; [exact Hs4| |exact Hb]; lia)
      | (eapply slice_digit; [exact Hs5| |exact Hb]; lia) | (eapply slice_digit; [exact Hs6| |exact Hb]; lia)
      | (eapply octet_is_ascii; [| |exact Hb]; [eassumption|lia]) ]|]). lia.
  - destruct (decide (k = length s - 1)%nat) as [->|].
    + (eapply octet_is_ascii; [| |exact Hb]; [eassumption|lia]).
    + apply frac_ascii in Hs7. unfold ascii in Hs7. rewrite Forall_lookup in Hs7. apply (Hs7 (k - 19)%nat).
      unfold slice. rewrite lookup_take_lt by lia. rewrite lookup_drop.
      by replace (19 + (k - 19))%nat with k by lia.
Qed.

Lemma key_id_ascii s k : KeyId_parse s = Some k → ascii k.
Proof.
  unfold KeyId_parse, then_some. case_match eqn:E; [|done]. intros [= <-]. bool_hyps.
  match goal with H : forallb _ s = true |- _ => apply Forall_forallb in H; eapply Forall_impl; [exact H|] end.
  intros b Hb. simpl in Hb. unfold is_ascii_digit, in_range in Hb. lia.
Qed.
