(* ===== verification/Delivery.v ===== *)
(** * Delivery states, observers and the error table ([core/src/delivery.rs])

    The eight delivery states, the two observers and the closed error taxonomy, with the
    table that gives each code its wire string, stage, state and scope. *)

From S2P Require Import Prelude.

Inductive DeliveryState : Type :=
| D_AcceptedByAdapter | D_HandedToHarness | D_Unknown | D_Rejected
| D_Expired | D_Duplicate | D_Unreachable | D_Failed.

Inductive Observer : Type := O_Sender | O_Receiver.

Inductive Stage : Type := St_Envelope | St_Security | St_Delivery | St_Request | St_Any.

Inductive Scope : Type := Sc_Sender | Sc_Receiver | Sc_Request.

Inductive ErrorCode : Type :=
| E_EnvelopeTooLarge | E_MalformedEnvelope | E_UnsupportedVersion | E_UnsupportedContentType
| E_Expired | E_UnknownKey | E_SignatureInvalid | E_OutsideReplayWindow | E_Duplicate
| E_Unauthorized | E_UnknownDestination | E_DestinationUnavailable | E_UnsupportedCapability
| E_HandoffFailed | E_TransportFailure | E_InternalError | E_InvalidRequest.

#[export] Instance DeliveryState_eq_dec : EqDecision DeliveryState.
Proof. solve_decision. Defined.
#[export] Instance Observer_eq_dec : EqDecision Observer.
Proof. solve_decision. Defined.
#[export] Instance Scope_eq_dec : EqDecision Scope.
Proof. solve_decision. Defined.
#[export] Instance ErrorCode_eq_dec : EqDecision ErrorCode.
Proof. solve_decision. Defined.

(** ** Delivery states *)

Definition DeliveryState_ALL : list DeliveryState :=
  [D_AcceptedByAdapter; D_HandedToHarness; D_Unknown; D_Rejected;
   D_Expired; D_Duplicate; D_Unreachable; D_Failed].

Definition DeliveryState_as_str (d : DeliveryState) : list Z :=
  match d with
  | D_AcceptedByAdapter => bs "accepted-by-adapter"
  | D_HandedToHarness => bs "handed-to-harness"
  | D_Unknown => bs "unknown"
  | D_Rejected => bs "rejected"
  | D_Expired => bs "expired"
  | D_Duplicate => bs "duplicate"
  | D_Unreachable => bs "unreachable"
  | D_Failed => bs "failed"
  end.

Definition DeliveryState_parse (s : list Z) : option DeliveryState :=
  find (λ d, beq (DeliveryState_as_str d) s) DeliveryState_ALL.

Definition allowed_for (d : DeliveryState) (o : Observer) : bool :=
  match o with
  | O_Sender =>
      match d with
      | D_AcceptedByAdapter | D_Unknown | D_Unreachable | D_Failed => true
      | _ => false
      end
  | O_Receiver => match d with D_AcceptedByAdapter => false | _ => true end
  end.

Definition carries_error (d : DeliveryState) : bool :=
  match d with
  | D_Rejected | D_Expired | D_Duplicate | D_Unreachable | D_Failed => true
  | _ => false
  end.

(** ** Observers *)

Definition Observer_as_str (o : Observer) : list Z :=
  match o with O_Sender => bs "sender" | O_Receiver => bs "receiver" end.

Definition Observer_parse (s : list Z) : option Observer :=
  if beq s (bs "sender") then Some O_Sender
  else if beq s (bs "receiver") then Some O_Receiver
  else None.

(** ** Error codes *)

Definition ErrorCode_ALL : list ErrorCode :=
  [E_EnvelopeTooLarge; E_MalformedEnvelope; E_UnsupportedVersion; E_UnsupportedContentType;
   E_Expired; E_UnknownKey; E_SignatureInvalid; E_OutsideReplayWindow; E_Duplicate;
   E_Unauthorized; E_UnknownDestination; E_DestinationUnavailable; E_UnsupportedCapability;
   E_HandoffFailed; E_TransportFailure; E_InternalError; E_InvalidRequest].

(** [ErrorCode::row], Table 8.3. *)
Definition row (c : ErrorCode) : list Z * Stage * option DeliveryState * list Scope :=
  let S := Sc_Sender in let R := Sc_Receiver in let Q := Sc_Request in
  match c with
  | E_EnvelopeTooLarge => (bs "envelope-too-large", St_Envelope, Some D_Rejected, [R; Q])
  | E_MalformedEnvelope => (bs "malformed-envelope", St_Envelope, Some D_Rejected, [R])
  | E_UnsupportedVersion => (bs "unsupported-version", St_Envelope, Some D_Rejected, [R; Q])
  | E_UnsupportedContentType => (bs "unsupported-content-type", St_Envelope, Some D_Rejected, [R; Q])
  | E_Expired => (bs "expired", St_Envelope, Some D_Expired, [R])
  | E_UnknownKey => (bs "unknown-key", St_Security, Some D_Rejected, [R])
  | E_SignatureInvalid => (bs "signature-invalid", St_Security, Some D_Rejected, [R])
  | E_OutsideReplayWindow => (bs "outside-replay-window", St_Security, Some D_Expired, [R])
  | E_Duplicate => (bs "duplicate", St_Security, Some D_Duplicate, [R])
  | E_Unauthorized => (bs "unauthorized", St_Security, Some D_Rejected, [R; Q])
  | E_UnknownDestination => (bs "unknown-destination", St_Delivery, Some D_Unreachable, [S; R; Q])
  | E_DestinationUnavailable => (bs "destination-unavailable", St_Delivery, Some D_Unreachable, [S; R; Q])
  | E_UnsupportedCapability => (bs "unsupported-capability", St_Delivery, Some D_Rejected, [R; Q])
  | E_HandoffFailed => (bs "handoff-failed", St_Delivery, Some D_Failed, [R])
  | E_TransportFailure => (bs "transport-failure", St_Delivery, Some D_Failed, [S])
  | E_InternalError => (bs "internal-error", St_Any, Some D_Failed, [S; R; Q])
  | E_InvalidRequest => (bs "invalid-request", St_Request, None, [Q])
  end.

Definition ErrorCode_as_str (c : ErrorCode) : list Z := let '(s, _, _, _) := row c in s.

Definition ErrorCode_stage (c : ErrorCode) : Stage := let '(_, st, _, _) := row c in st.

Definition ErrorCode_state (c : ErrorCode) : option DeliveryState := let '(_, _, d, _) := row c in d.

Definition ErrorCode_scope (c : ErrorCode) : list Scope := let '(_, _, _, sc) := row c in sc.

Definition ErrorCode_parse (s : list Z) : option ErrorCode :=
  find (λ c, beq (ErrorCode_as_str c) s) ErrorCode_ALL.

Definition fits_receipt (c : ErrorCode) (d : DeliveryState) (o : Observer) : bool :=
  let scope := match o with O_Sender => Sc_Sender | O_Receiver => Sc_Receiver end in
  bool_decide (ErrorCode_state c = Some d) && bool_decide (scope ∈ ErrorCode_scope c).

Definition is_error_code_form (s : list Z) : bool :=
  in_range 1 64 (Z.of_nat (length s)) &&
  match s with b :: _ => is_ascii_lowercase b | [] => false end &&
  forallb (λ c, is_ascii_lowercase c || is_ascii_digit c || (c =? 45)) s.

(** ** Facts *)

(** Looking up a wire string in a table of distinct ones. *)
Lemma find_name {A} (name : A → list Z) (l : list A) (x : A) s :
  NoDup (map name l) → x ∈ l → (find (λ y, beq (name y) s) l = Some x ↔ s = name x).
Proof.
  intros Hnd Hx. induction l as [|y l IH]; [by apply elem_of_nil in Hx|].
  simpl in Hnd. apply NoDup_cons in Hnd as [Hy Hnd]. simpl.
  destruct (beq (name y) s) eqn:E.
  - apply beq_true in E as <-. split; [by intros [= ->]|]. intros Heq.
    apply elem_of_cons in Hx as [->|Hx]; [done|]. destruct Hy. rewrite Heq.
    by apply list_elem_of_fmap_2.
  - apply elem_of_cons in Hx as [->|Hx]; [|by apply IH].
    split; [|intros ->; by rewrite beq_refl in E].
    intros Hf. apply List.find_some in Hf as [Hin Heq]. apply beq_true in Heq. done.
Qed.

Lemma ErrorCode_parse_spec s c : ErrorCode_parse s = Some c ↔ s = ErrorCode_as_str c.
Proof.
  apply find_name; [vm_compute; repeat (constructor; [set_solver|]); constructor|].
  destruct c; unfold ErrorCode_ALL; set_solver.
Qed.

Lemma DeliveryState_parse_spec s d : DeliveryState_parse s = Some d ↔ s = DeliveryState_as_str d.
Proof.
  apply find_name; [vm_compute; repeat (constructor; [set_solver|]); constructor|].
  destruct d; unfold DeliveryState_ALL; set_solver.
Qed.

Lemma Observer_parse_spec s o : Observer_parse s = Some o ↔ s = Observer_as_str o.
Proof.
  unfold Observer_parse. destruct (beq s (bs "sender")) eqn:E1.
  { apply beq_true in E1 as ->. destruct o; vm_compute; split; congruence. }
  destruct (beq s (bs "receiver")) eqn:E2.
  { apply beq_true in E2 as ->. destruct o; vm_compute; split; congruence. }
  split; [done|]. intros ->. destruct o; vm_compute in E1, E2; congruence.
Qed.

Lemma fits_receipt_spec d o :
  (∃ c, fits_receipt c d o = true) ↔ allowed_for d o = true ∧ carries_error d = true.
Proof.
  split.
  - intros [c Hc]. unfold fits_receipt in Hc. apply andb_true_iff in Hc as [H1 H2].
    apply bool_decide_eq_true in H1, H2. destruct c; simpl in H1; try done; injection H1 as <-;
      destruct o; (split; [|done]); simpl in H2 |- *; try done; exfalso; set_solver.
  - intros [H1 H2]. destruct d; try done; destruct o; try done.
    + by exists E_MalformedEnvelope.
    + by exists E_Expired.
    + by exists E_Duplicate.
    + by exists E_UnknownDestination.
    + by exists E_UnknownDestination.
    + by exists E_TransportFailure.
    + by exists E_HandoffFailed.
Qed.

(** The error table is coherent: the wire strings of codes, states and observers parse
    back to exactly the value they name and to nothing else, every code's string has the
    error-code form, and the states a code can accompany in a receipt of an observer are
    exactly the states of that observer that carry an error. *)
Theorem error_table_coherent :
  (∀ s c, ErrorCode_parse s = Some c ↔ s = ErrorCode_as_str c) ∧
  (∀ s d, DeliveryState_parse s = Some d ↔ s = DeliveryState_as_str d) ∧
  (∀ s o, Observer_parse s = Some o ↔ s = Observer_as_str o) ∧
  (∀ c, is_error_code_form (ErrorCode_as_str c) = true) ∧
  (∀ d o, (∃ c, fits_receipt c d o = true) ↔ allowed_for d o = true ∧ carries_error d = true).
Proof.
  split_and!.
  - apply ErrorCode_parse_spec.
  - apply DeliveryState_parse_spec.
  - apply Observer_parse_spec.
  - intros c. destruct c; vm_compute; reflexivity.
  - apply fits_receipt_spec.
Qed.
