(* ===== verification/Clock.v ===== *)
(** * Clocks ([core/src/clock.rs])

    What a clock reads, the system clock with its clamping to the instants a timestamp can
    write, and the manual clock. *)

From S2P Require Import Prelude Ids.

(** The trait [Clock]: a reading of a clock in a state. *)
Class Clock (C : Type) := now : C → Timestamp.

(** The system clock's state is the instant [SystemTime::now] gives, in nanoseconds from the
    epoch, negative before it; [i128::MAX] bounds it. *)
Record SystemClock := mkSystemClock { system_nanos : Z }.

Definition I128_MAX : Z := 170141183460469231731687303715884105727.

Definition EARLIEST : list Z := bs "0000-01-01T00:00:00Z".
Definition LATEST : list Z := bs "9999-12-31T23:59:59.999999999Z".

(** [SystemClock::now] before the [expect]: [None] stands for the panic. *)
Definition system_now (nanos : Z) : option Timestamp :=
  let nanos := if 0 <=? nanos then Z.min nanos I128_MAX else - Z.min (- nanos) I128_MAX in
  match from_unix_nanos nanos with
  | Some t => Some t
  | None => Timestamp_parse (if nanos <? 0 then EARLIEST else LATEST)
  end.

#[export] Instance SystemClock_clock : Clock SystemClock := λ c,
  default (mkTimestamp [] 0) (system_now (system_nanos c)).

(** [ManualClock]. *)
Record ManualClock := mkManualClock { manual_now : Timestamp }.

#[export] Instance ManualClock_clock : Clock ManualClock := manual_now.

Definition manual_set (t : Timestamp) (c : ManualClock) : ManualClock := mkManualClock t.

(** [advance_nanos]; [None] is the documented panic. *)
Definition advance_nanos (nanos : Z) (c : ManualClock) : option ManualClock :=
  mkManualClock <$> from_unix_nanos (unix_nanos (manual_now c) + nanos).

(** The system clock never panics and reads the nearest instant a timestamp can write:
    for any instant of the operating system, also far outside the years 0000 to 9999, the
    reading exists and is that instant clamped to the first and last nanosecond of those
    years. *)
Theorem system_clock_clamps (nanos : Z) :
  ∃ t, system_now nanos = Some t ∧
       unix_nanos t = Z.max MIN_UNIX_NANOS (Z.min nanos MAX_UNIX_NANOS).
Proof.
  unfold system_now.
  set (n := if 0 <=? nanos then Z.min nanos I128_MAX else - Z.min (- nanos) I128_MAX).
  assert (Z.max MIN_UNIX_NANOS (Z.min nanos MAX_UNIX_NANOS) =
          Z.max MIN_UNIX_NANOS (Z.min n MAX_UNIX_NANOS) ∧ (0 ≤ n ↔ 0 ≤ nanos)) as [-> Hs].
  { unfold n, MIN_UNIX_NANOS, MAX_UNIX_NANOS, I128_MAX.
    destruct (0 <=? nanos) eqn:E; bool_hyps; lia. }
  clearbody n. destruct (decide (MIN_UNIX_NANOS ≤ n ≤ MAX_UNIX_NANOS)) as [Hn|Hn].
  - destruct (from_unix_nanos_spec n Hn) as (t & Ht & Hu). rewrite Ht.
    exists t. split; [done|]. lia.
  - rewrite from_unix_nanos_None by done. destruct (n <? 0) eqn:E; bool_hyps.
    + exists (mkTimestamp EARLIEST MIN_UNIX_NANOS). split; [vm_compute; reflexivity|].
      simpl. unfold MIN_UNIX_NANOS, MAX_UNIX_NANOS in *. lia.
    + exists (mkTimestamp LATEST MAX_UNIX_NANOS). split; [vm_compute; reflexivity|].
      simpl. unfold MIN_UNIX_NANOS, MAX_UNIX_NANOS in *. lia.
Qed.
