(* ===== verification/Canonical.v ===== *)
(** * The canonical form and the signing input ([core/src/canonical.rs])

    The RFC 8785 canonical form of a tree, the text that is signed (the object without
    [security.signature]) and the signing input with its domain string.  [serde_jcs] writes
    the strings and the doubles; it is a parameter. *)

From Stdlib Require Import SpecFloat.
From S2P Require Import Prelude Ids Utf8 Json JsonFacts JsonReader.

Inductive SigningDomain : Type :=
| Dom_Envelope | Dom_Registration | Dom_Receipt | Dom_Presence | Dom_Agreement.

Definition SigningDomain_as_str (d : SigningDomain) : list Z :=
  match d with
  | Dom_Envelope => bs "oac-envelope-v1"
  | Dom_Registration => bs "oac-registration-v1"
  | Dom_Receipt => bs "oac-receipt-v1"
  | Dom_Presence => bs "oac-presence-v1"
  | Dom_Agreement => bs "oac-agreement-v1"
  end.

Inductive CanonicalError : Type :=
| NumberOutOfRange (raw : list Z)
| SecurityNotObject
| Serializer (e : list Z).

(** ** Numbers as doubles

    [JsonNumber::to_f64]: Rust's [f64] parser rounds the decimal value to the nearest double,
    ties to even.  The decimal value of an RFC 8259 number is its digits, as one integer,
    times a power of ten. *)
Record Decimal := mkDecimal { dec_negative : bool; dec_mantissa : Z; dec_exponent : Z }.

Definition decimal_of (raw : list Z) : Decimal :=
  let '(neg, s) := match raw with 45 :: r => (true, r) | _ => (false, raw) end in
  let int := take_digits s in
  let s := drop (length int) s in
  let frac := match s with 46 :: r => take_digits r | _ => [] end in
  let s := match s with 46 :: r => drop (length frac) r | _ => s end in
  let exp := match s with
             | e :: 45 :: r => - dec_value (take_digits r)
             | e :: 43 :: r => dec_value (take_digits r)
             | e :: r => dec_value (take_digits r)
             | [] => 0
             end in
  mkDecimal neg (dec_value (int ++ frac)) (exp - Z.of_nat (length frac)).

(** The nearest double, ties to even, by the standard library's correctly rounding
    operations on integers of any size. *)
Definition round_decimal (d : Decimal) : spec_float :=
  match dec_mantissa d with
  | Zpos m =>
      if 0 <=? dec_exponent d then
        match dec_mantissa d * 10 ^ dec_exponent d with
        | Zpos p => binary_round 53 1024 (dec_negative d) p 0
        | _ => S754_zero (dec_negative d)
        end
      else
        match 10 ^ (- dec_exponent d) with
        | Zpos q =>
            let '(mz, ez, lz) := SFdiv_core_binary 53 1024 (Zpos m) 0 (Zpos q) 0 in
            binary_round_aux 53 1024 (dec_negative d) mz ez lz
        | _ => S754_nan
        end
  | _ => S754_zero (dec_negative d)
  end.

Definition to_f64 (raw : list Z) : spec_float := round_decimal (decimal_of raw).

Definition is_finite (x : spec_float) : bool :=
  match x with S754_zero _ | S754_finite _ _ _ => true | _ => false end.

Section Canonical.
(** [serde_jcs::to_string] on a string and on a double. *)
Context (jcs_string : list Z → result (list Z) (list Z))
        (jcs_f64 : spec_float → result (list Z) (list Z)).

Definition jcs (r : result (list Z) (list Z)) : result CanonicalError (list Z) :=
  map_err Serializer r.

(** [scalar]; the walk never yields a container as one. *)
Definition scalar (v : Json) : result CanonicalError (list Z) :=
  match v with
  | JNull => Ok (bs "null")
  | JBool true => Ok (bs "true")
  | JBool false => Ok (bs "false")
  | JString s => jcs (jcs_string s)
  | JNumber n =>
      let x := to_f64 n in
      if negb (is_finite x) then Err (NumberOutOfRange n)
      else jcs (jcs_f64 (match x with S754_zero _ => S754_zero false | _ => x end))
  | JArray _ | JObject _ => Ok []
  end.

Definition canonical (v : Json) : result CanonicalError (list Z) :=
  write_events scalar (λ k, jcs (jcs_string k)) (events_sorted v).

Definition signed_text (obj : JsonObject) : result CanonicalError (list Z) :=
  match obj_remove obj (bs "security") with
  | Some (sec, copy) =>
      sec ← ok_or (as_object sec) SecurityNotObject;
      let sec := match obj_remove sec (bs "signature") with Some (_, sec') => sec' | None => sec end in
      canonical (JObject (obj_insert copy (bs "security") (JObject sec)))
  | None => canonical (JObject obj)
  end.

Definition signing_input (domain : SigningDomain) (obj : JsonObject)
    : result CanonicalError (list Z) :=
  text ← signed_text obj;
  Ok (SigningDomain_as_str domain ++ [0] ++ text).
End Canonical.

(** ** The order of member names *)

Lemma units_lt_irrefl a : units_lt a a = false.
Proof. induction a as [|x a IH]; simpl; [done|]. rewrite IH. lia. Qed.

Lemma units_lt_trans a b c : units_lt a b = true → units_lt b c = true → units_lt a c = true.
Proof.
  revert b c. induction a as [|x a IH]; intros [|y b] [|z c]; simpl; try done.
  intros H1 H2. apply orb_true_iff in H1, H2. apply orb_true_iff.
  destruct H1 as [H1|H1], H2 as [H2|H2]; bool_hyps; [left; lia..|].
  right. apply andb_true_iff. split; [lia|]. by eapply IH.
Qed.

Lemma units_lt_total a b : units_lt a b = false → units_lt b a = false → a = b.
Proof.
  revert b. induction a as [|x a IH]; intros [|y b]; simpl; try done.
  intros H1 H2. bool_hyps. assert (x = y) as -> by lia.
  f_equal. rewrite Z.eqb_refl in *. by apply IH.
Qed.

(** A unit that starts a character tells which kind of character it is. *)
Lemma utf16_units_inj c cs c' cs' :
  is_scalar c = true → is_scalar c' = true →
  utf16_units c ++ cs = utf16_units c' ++ cs' → c = c' ∧ cs = cs'.
Proof.
  intros Hc%is_scalar_true Hc'%is_scalar_true. unfold utf16_units.
  destruct (c <? 65536) eqn:E, (c' <? 65536) eqn:E'; bool_hyps; simpl; intros H.
  - by injection H.
  - injection H as H1 _. exfalso. dlia.
  - injection H as H1 _. exfalso. dlia.
  - injection H as H1 H2 ->. split; [dlia|done].
Qed.

Lemma utf16_units_nonempty c : ∃ u r, utf16_units c = u :: r.
Proof. unfold utf16_units. case_match; eauto. Qed.

Lemma utf16_inj cs cs' :
  Forall (λ c, is_scalar c = true) cs → Forall (λ c, is_scalar c = true) cs' →
  mjoin (map utf16_units cs) = mjoin (map utf16_units cs') → cs = cs'.
Proof.
  intros H. revert cs'. induction H as [|c cs Hc Hcs IH]; intros [|c' cs'] H' Heq; simpl in Heq;
    try done.
  1-2: destruct (utf16_units_nonempty c') as (u & r & E) || destruct (utf16_units_nonempty c) as (u & r & E);
       by rewrite E in Heq.
  apply Forall_cons in H' as [Hc' H']. apply utf16_units_inj in Heq as [-> Heq]; [|done..].
  f_equal. by apply IH.
Qed.

Lemma encode_utf16_inj a b :
  is_utf8 a = true → is_utf8 b = true → encode_utf16 a = encode_utf16 b → a = b.
Proof.
  intros Ha Hb H. apply chars_spec in Ha as [Ha1 Ha2], Hb as [Hb1 Hb2].
  rewrite Ha1, Hb1. f_equal. f_equal. by apply utf16_inj.
Qed.

Lemma name_lt_total a b :
  is_utf8 a = true → is_utf8 b = true → a ≠ b → name_lt a b = false → name_lt b a = true.
Proof.
  intros Ha Hb Hne H. destruct (name_lt b a) eqn:E; [done|]. destruct Hne.
  apply encode_utf16_inj; [done..|]. by apply units_lt_total.
Qed.

Lemma name_lt_asym a b : name_lt a b = true → name_lt b a = false.
Proof.
  intros H. destruct (name_lt b a) eqn:E; [|done]. unfold name_lt in *.
  pose proof (units_lt_trans _ _ _ H E) as Hx. by rewrite units_lt_irrefl in Hx.
Qed.

Lemma name_lt_trans a b c : name_lt a b = true → name_lt b c = true → name_lt a c = true.
Proof. apply units_lt_trans. Qed.

(** [¬ z < x] and [z < y] put [x] before [y]. *)
Lemma name_lt_le_trans x y z :
  is_utf8 x = true → is_utf8 z = true →
  name_lt z x = false → name_lt z y = true → name_lt x y = true.
Proof.
  intros Hx Hz H1 H2. destruct (decide (z = x)) as [->|Hne]; [done|].
  apply (name_lt_trans x z y); [|done]. by apply name_lt_total.
Qed.

Section SortPerm.
Context {A : Type}.
Implicit Types l : list (list Z * A).

Lemma insert_member_comm (x y : list Z * A) l :
  is_utf8 x.1 = true → is_utf8 y.1 = true → x.1 ≠ y.1 → Forall (λ m, is_utf8 m.1 = true) l →
  insert_member x (insert_member y l) = insert_member y (insert_member x l).
Proof.
  intros Hx Hy Hne Hl. induction Hl as [|z l Hz Hl IH]; simpl.
  - destruct (name_lt y.1 x.1) eqn:E.
    + by rewrite (name_lt_asym _ _ E).
    + by rewrite (name_lt_total y.1 x.1).
  - destruct (name_lt z.1 y.1) eqn:Ey, (name_lt z.1 x.1) eqn:Ex; simpl; rewrite ?Ey, ?Ex.
    + by rewrite IH.
    + rewrite (name_lt_le_trans x.1 y.1 z.1) by done. done.
    + rewrite (name_lt_le_trans y.1 x.1 z.1) by done. done.
    + destruct (name_lt y.1 x.1) eqn:E.
      * by rewrite (name_lt_asym _ _ E).
      * by rewrite (name_lt_total y.1 x.1).
Qed.

Lemma sort_members_Permutation l k :
  NoDup (map fst l) → Forall (λ m, is_utf8 m.1 = true) l → l ≡ₚ k →
  sort_members l = sort_members k.
Proof.
  intros Hnd Hu Hp. induction Hp as [|x l k Hp IH|x y l|l k m Hp1 IH1 Hp2 IH2].
  - done.
  - simpl in Hnd. apply NoDup_cons in Hnd as [_ Hnd]. apply Forall_cons in Hu as [_ Hu].
    simpl. by rewrite IH.
  - simpl in Hnd. apply NoDup_cons in Hnd as [Hxy Hnd]. apply Forall_cons in Hu as [Hux Hu].
    apply Forall_cons in Hu as [Huy Hu]. simpl. apply insert_member_comm; [done|done|set_solver|].
    by rewrite sort_members_perm.
  - rewrite IH1 by done. apply IH2; by rewrite <- Hp1.
Qed.
End SortPerm.

(** ** The canonical form does not depend on the order of members *)

(** [reordered v w]: [w] is [v] with the members of its objects, at any depth, in another
    order. *)
Inductive reordered : Json → Json → Prop :=
| reordered_null : reordered JNull JNull
| reordered_bool b : reordered (JBool b) (JBool b)
| reordered_number n : reordered (JNumber n) (JNumber n)
| reordered_string s : reordered (JString s) (JString s)
| reordered_array a b : Forall2 reordered a b → reordered (JArray a) (JArray b)
| reordered_object o o' p :
    Forall2 (λ m n, m.1 = n.1) o o' → Forall2 (λ m n, reordered m.2 n.2) o o' → o' ≡ₚ p →
    reordered (JObject o) (JObject p).

Lemma ref_events_reordered v : ∀ w,
  wf_json v → reordered v w → ref_events true v = ref_events true w.
Proof.
  induction v as [| | | |a IH|o IH] using Json_nested_ind; intros w Hv Hr;
    inversion Hr as [| | | |? b0 Hab|? o' p Hn Hm Hp]; subst; try done.
  - simpl. do 2 f_equal. f_equal. inversion Hv as [| | | |? Ha|]; subst. clear Hv Hr.
    revert b0 Hab. induction a as [|x a IHa]; intros b Hab; inversion Hab as [|? y ? b' Hxy Hab']; subst; [done|].
    inv_Forall. simpl. f_equal; auto.
  - inversion Hv as [| | | | |? Hnd Htx Hwf]; subst. simpl. do 2 f_equal. f_equal. f_equal.
    transitivity (sort_members (map (λ m, (m.1, ref_events true m.2)) o')).
    + f_equal. clear Hnd Htx Hv Hr Hp.
      revert o' Hn Hm. induction o as [|x o IHo]; intros o' Hn Hm;
        inversion Hn as [|? y ? b' Hxy Hab']; subst; inversion Hm; subst; [done|].
      inv_Forall. simpl. f_equal; [|by auto]. f_equal; auto.
    + assert (map fst (map (λ m, (m.1, ref_events true m.2)) o') = obj_names o) as Hnames.
      { rewrite map_map. simpl. clear -Hn. induction Hn; simpl; congruence. }
      apply sort_members_Permutation.
      * by rewrite Hnames.
      * apply (Forall_map fst (λ n, is_utf8 n = true)). rewrite Hnames.
        eapply Forall_impl; [exact Htx|]. by intros n [Hu _].
      * by apply Permutation_map.
Qed.

Lemma canonical_reordered js jf v w :
  wf_json v → reordered v w → canonical js jf v = canonical js jf w.
Proof.
  intros Hv Hr. unfold canonical, events_sorted. by rewrite !walk_ref, (ref_events_reordered v w).
Qed.

(** The canonical form depends on the value, not on the order in which members were
    written: reordering the members of any objects of an I-JSON value, at any depth, does not
    change its canonical form, whatever the string and number writers do. *)
Theorem canonical_order_insensitive
    (js : list Z → result (list Z) (list Z)) (jf : spec_float → result (list Z) (list Z))
    (v w : Json) :
  wf_json v → reordered v w → canonical js jf v = canonical js jf w.
Proof. apply canonical_reordered. Qed.

(** ** When a canonical form exists *)

(** Every number of the value is in the range of doubles. *)
Fixpoint numbers_finite (v : Json) : bool :=
  match v with
  | JNumber n => is_finite (to_f64 n)
  | JArray a => forallb numbers_finite a
  | JObject o => forallb (λ m, numbers_finite m.2) o
  | _ => true
  end.

Definition finite_event (ev : Event) : bool :=
  match ev with EScalar v => numbers_finite v | _ => true end.

Lemma forallb_mjoin {A} (p : A → bool) l : forallb p (mjoin l) = forallb (forallb p) l.
Proof. induction l as [|x l IH]; [done|]. simpl. by rewrite forallb_app, IH. Qed.

Lemma forallb_map' {A B} (p : B → bool) (f : A → B) l : forallb p (map f l) = forallb (λ x, p (f x)) l.
Proof. induction l as [|x l IH]; [done|]. simpl. by rewrite IH. Qed.

Lemma forallb_perm {A} (p : A → bool) (l k : list A) : l ≡ₚ k → forallb p l = forallb p k.
Proof.
  induction 1 as [|x l k _ IH|x y l|l k m _ IH1 _ IH2]; simpl; [done|by rewrite IH| |by rewrite IH1].
  by destruct (p x), (p y).
Qed.

Lemma finite_events sorted v : forallb finite_event (ref_events sorted v) = numbers_finite v.
Proof.
  induction v as [| | | |a IH|o IH] using Json_nested_ind; simpl; rewrite ?andb_true_r; try done.
  - rewrite forallb_app, forallb_mjoin, forallb_map'. simpl. rewrite andb_true_r.
    induction IH as [|v a Hv _ IHa]; [done|]. simpl. by rewrite Hv, IHa.
  - rewrite forallb_app, forallb_mjoin, forallb_map'. simpl. rewrite andb_true_r.
    transitivity (forallb (λ m, forallb finite_event m.2) (map (λ m, (m.1, ref_events sorted m.2)) o)).
    + destruct sorted; [|done]. by apply forallb_perm, sort_members_perm.
    + rewrite forallb_map'. simpl. induction IH as [|m o Hm _ IHo]; [done|]. simpl. by rewrite Hm, IHo.
Qed.

Lemma numbers_finite_insert o n v :
  numbers_finite (JObject o) = true → numbers_finite v = true → numbers_finite (JObject (obj_insert o n v)) = true.
Proof.
  cbn [numbers_finite]. intros Ho Hv. unfold obj_insert.
  assert (∀ o', obj_replace o n v = Some o' → forallb (λ m, numbers_finite m.2) o' = true) as Hr.
  { induction o as [|[k w] o IH]; intros o' Ho'; simpl in *; [done|]. apply andb_true_iff in Ho as [Hw Ho].
    destruct (beq k n); [injection Ho' as <-; simpl; by rewrite Hv|].
    destruct (obj_replace o n v) as [r|]; [|done]. injection Ho' as <-. simpl. rewrite Hw. by apply IH. }
  destruct (obj_replace o n v); [by apply Hr|]. rewrite forallb_app, Ho. simpl. by rewrite Hv.
Qed.

Lemma numbers_finite_get o n v :
  numbers_finite (JObject o) = true → obj_get o n = Some v → numbers_finite v = true.
Proof.
  cbn [numbers_finite]. unfold obj_get. rewrite forallb_forall. intros Ho H. apply fmap_Some in H as ([k w] & Hf & ->).
  apply find_some in Hf as [Hin _]. by apply (Ho (k, w)).
Qed.

Lemma numbers_finite_without o n :
  numbers_finite (JObject o) = true → numbers_finite (JObject (obj_without o n)) = true.
Proof.
  cbn [numbers_finite]. unfold obj_without. induction o as [|[k w] o IH]; [done|]. simpl. intros [Hw Ho]%andb_true_iff.
  destruct (beq k n); [done|]. specialize (IH Ho). destruct (obj_remove o n) as [[v r]|]; simpl; rewrite Hw; done.
Qed.

Lemma obj_get_without o n m : beq n m = false → obj_get (obj_without o n) m = obj_get o m.
Proof.
  intros Hne. unfold obj_without. induction o as [|[k w] o IH]; [done|]. simpl. destruct (beq k n) eqn:E.
  - apply beq_true in E as ->. by rewrite obj_get_cons, Hne.
  - destruct (obj_remove o n) as [[v r]|]; simpl; [|done]. by rewrite !obj_get_cons, IH.
Qed.

(** With writers that write every string and every finite double, a value has a canonical form
    exactly when its numbers are in range. *)
Section CanonicalTotal.
Context (js : list Z → result (list Z) (list Z)) (jf : spec_float → result (list Z) (list Z)).
Context (Hjs : ∀ s, ∃ t, js s = Ok t) (Hjf : ∀ x, is_finite x = true → ∃ t, jf x = Ok t).

Lemma scalar_ok v : is_ok (scalar js jf v) = match v with JNumber n => is_finite (to_f64 n) | _ => true end.
Proof.
  destruct v as [|b|n|s|a|o]; simpl; try done; [by destruct b| |].
  - destruct (is_finite (to_f64 n)) eqn:E; [|done]. simpl.
    destruct (Hjf (match to_f64 n with S754_zero _ => S754_zero false | x => x end)) as [t Ht].
    + by destruct (to_f64 n).
    + unfold jcs. destruct (to_f64 n); by rewrite Ht.
  - unfold jcs. by destruct (Hjs s) as [t ->].
Qed.

(** Scalars as the walk yields them. *)
Definition plain_event (ev : Event) : Prop :=
  match ev with EScalar (JArray _) | EScalar (JObject _) => False | _ => True end.

Lemma plain_events sorted v : Forall plain_event (ref_events sorted v).
Proof.
  induction v as [| | | |a IH|o IH] using Json_nested_ind; simpl;
    try (by apply Forall_singleton); (apply Forall_cons; split; [done|]); apply Forall_app;
    (split; [|by apply Forall_singleton]); apply Forall_join, Forall_map.
  - done.
  - assert (Forall (λ m : list Z * list Event, Forall plain_event m.2)
      (map (λ m, (m.1, ref_events sorted m.2)) o)) as H by (by apply Forall_map).
    eapply Forall_impl; [|intros m Hm; simpl; apply Forall_cons; split; [done|exact Hm]].
    destruct sorted; [|done]. by rewrite sort_members_perm.
Qed.

Lemma write_loop_ok evs : Forall plain_event evs → ∀ levels out,
  is_ok (write_events_loop (scalar js jf) (λ k, jcs (js k)) evs levels out) = forallb finite_event evs.
Proof.
  induction 1 as [|ev evs Hev _ IH]; intros levels out; [done|].
  destruct ev as [v| | | |k|]; cbn [write_events_loop write_event forallb finite_event andb].
  - assert (is_ok (scalar js jf v) = numbers_finite v) as Hs by (rewrite scalar_ok; by destruct v).
    destruct (scalar js jf v) as [t|e]; cbn [is_ok] in Hs; rewrite <-Hs;
      destruct levels as [|[[] f] L]; cbn [mbind result_bind andb is_ok]; try done; by rewrite IH.
  - destruct levels as [|[[] f] L]; simpl; by rewrite IH.
  - simpl. by rewrite IH.
  - destruct levels as [|[[] f] L]; simpl; by rewrite IH.
  - unfold jcs. destruct (Hjs k) as [t ->]. destruct levels as [|l L]; simpl; by rewrite IH.
  - simpl. by rewrite IH.
Qed.

Lemma canonical_ok v : is_ok (canonical js jf v) = numbers_finite v.
Proof.
  unfold canonical, events_sorted, write_events. rewrite walk_ref, write_loop_ok by apply plain_events.
  apply finite_events.
Qed.
End CanonicalTotal.

(** A writer for the witnesses: the compact writer for strings, nothing for numbers. *)
Definition sample_jcs_string (s : list Z) : result (list Z) (list Z) := Ok (write_string s).
Definition sample_jcs_f64 (x : spec_float) : result (list Z) (list Z) := Ok (bs "0").

Lemma canonical_order_insensitive_witness :
  canonical sample_jcs_string sample_jcs_f64 (JObject [(bs "b", JNull); (bs "a", JBool true)]) =
  canonical sample_jcs_string sample_jcs_f64 (JObject [(bs "a", JBool true); (bs "b", JNull)]).
Proof.
  apply (canonical_order_insensitive sample_jcs_string sample_jcs_f64).
  - apply wf_object.
    + repeat constructor; set_solver.
    + repeat constructor.
    + repeat constructor.
  - apply (reordered_object _ [(bs "b", JNull); (bs "a", JBool true)]).
    + repeat constructor.
    + repeat constructor.
    + apply perm_swap.
Defined.

(** ** The signed text *)

(** Two lists with the same octets up to the first zero. *)
Lemma zero_free_prefix (a b s t : list Z) :
  0 ∉ a → 0 ∉ b → a ++ 0 :: s = b ++ 0 :: t → a = b ∧ s = t.
Proof.
  revert b. induction a as [|x a IH]; intros [|y b] Ha Hb H; simpl in H.
  - by injection H as ->.
  - injection H as <- _. set_solver.
  - injection H as -> _. set_solver.
  - injection H as -> H. apply IH in H as [-> ->]; [done|set_solver..].
Qed.

Lemma domain_zero_free d : 0 ∉ SigningDomain_as_str d.
Proof. destruct d; vm_compute; set_solver. Qed.

Lemma domain_inj d d' : SigningDomain_as_str d = SigningDomain_as_str d' → d = d'.
Proof. destruct d, d'; vm_compute; congruence. Qed.

Section SignedText.
Context (jcs_string : list Z → result (list Z) (list Z))
        (jcs_f64 : spec_float → result (list Z) (list Z)).

#[local] Abbreviation text := (signed_text jcs_string jcs_f64).
#[local] Abbreviation input := (signing_input jcs_string jcs_f64).

Lemma signed_text_security obj sec :
  obj_get obj (bs "security") = Some (JObject sec) →
  text obj = canonical jcs_string jcs_f64
    (JObject (obj_insert (obj_without obj (bs "security")) (bs "security")
      (JObject (obj_without sec (bs "signature"))))).
Proof.
  intros H. unfold signed_text, obj_without at 1.
  destruct (obj_remove obj (bs "security")) as [[s copy]|] eqn:E.
  - apply obj_remove_get in E. rewrite H in E. injection E as <-. done.
  - apply obj_remove_None in E. congruence.
Qed.

Lemma signed_text_set_signature obj sec sig :
  obj_get obj (bs "security") = Some (JObject sec) →
  text (obj_insert obj (bs "security") (JObject (obj_insert sec (bs "signature") sig))) = text obj.
Proof.
  intros H. rewrite (signed_text_security obj sec H).
  rewrite (signed_text_security _ (obj_insert sec (bs "signature") sig)).
  - by rewrite !obj_without_insert.
  - by rewrite obj_get_insert, beq_refl.
Qed.

Lemma signing_input_set_signature d obj sec sig :
  obj_get obj (bs "security") = Some (JObject sec) →
  input d (obj_insert obj (bs "security") (JObject (obj_insert sec (bs "signature") sig))) =
  input d obj.
Proof. intros H. unfold signing_input. by rewrite (signed_text_set_signature obj sec). Qed.

End SignedText.

(** Signing inputs are separated by domain: when two signed objects have the same
    signing input, they were signed under the same domain string and have the same canonical
    text without the signature.  So a signature made for an envelope can verify neither a
    receipt, a presence record, a registration nor an agreement. *)
Theorem signing_input_separates
    (js : list Z → result (list Z) (list Z)) (jf : spec_float → result (list Z) (list Z))
    (d d' : SigningDomain) (obj obj' : JsonObject) (octets : list Z) :
  signing_input js jf d obj = Ok octets → signing_input js jf d' obj' = Ok octets →
  d = d' ∧ signed_text js jf obj = signed_text js jf obj'.
Proof.
  unfold signing_input. intros H H'.
  destruct (signed_text js jf obj) as [t|]; [|done].
  destruct (signed_text js jf obj') as [t'|]; [|done]. simpl in H, H'.
  injection H as <-. injection H' as H'.
  destruct (zero_free_prefix _ _ _ _ (domain_zero_free d') (domain_zero_free d) H') as [Hd ->].
  by rewrite (domain_inj _ _ Hd).
Qed.

Lemma signing_input_separates_witness :
  signing_input sample_jcs_string sample_jcs_f64 Dom_Receipt
    [(bs "b", JNull); (bs "security", JObject [(bs "signature", JNull)])] =
  signing_input sample_jcs_string sample_jcs_f64 Dom_Receipt
    [(bs "security", JObject []); (bs "b", JNull)] ∧
  signed_text sample_jcs_string sample_jcs_f64
    [(bs "b", JNull); (bs "security", JObject [(bs "signature", JNull)])] =
  signed_text sample_jcs_string sample_jcs_f64 [(bs "security", JObject []); (bs "b", JNull)].
Proof.
  split; [vm_compute; reflexivity|].
  apply (signing_input_separates sample_jcs_string sample_jcs_f64 Dom_Receipt Dom_Receipt
    [(bs "b", JNull); (bs "security", JObject [(bs "signature", JNull)])]
    [(bs "security", JObject []); (bs "b", JNull)]
    (bs "oac-receipt-v1" ++ [0] ++ jtext "{`b`:null,`security`:{}}"));
    vm_compute; reflexivity.
Defined.

(** ** Integers a double holds exactly

    A JSON number written by [JsonNumber::from_u64] below [2^53] is a finite double. *)

Lemma digits_iter m d : digits2_pos (Pos.iter xO m d) = (digits2_pos m + d)%positive.
Proof.
  induction d as [|d IH] using Pos.peano_ind; [simpl; lia|]. rewrite Pos.iter_succ. simpl. rewrite IH. lia.
Qed.

Lemma pow2_pos_bound n v : 1 ≤ v < 2 ^ n → 0 ≤ n ∧ (1 < v → 1 ≤ n ∧ 2 ^ n = 2 * 2 ^ (n - 1)).
Proof.
  intros Hv. destruct (Z.lt_ge_cases n 0); [rewrite Z.pow_neg_r in Hv by lia; lia|]. split; [done|]. intros H1.
  destruct (decide (n = 0)) as [->|]; [change (2 ^ 0) with 1 in Hv; lia|]. split; [lia|].
  rewrite <- Z.pow_succ_r by lia. f_equal. lia.
Qed.

Lemma digits_bound m n : Z.pos m < 2 ^ n → Z.pos (digits2_pos m) ≤ n.
Proof.
  revert n. induction m as [m IH|m IH|]; intros n Hm;
    match type of Hm with ?v < _ => destruct (pow2_pos_bound n v ltac:(lia)) as [H0 H1] end.
  - destruct H1 as [H1 H2]; [lia|]. specialize (IH (n - 1)). simpl. lia.
  - destruct H1 as [H1 H2]; [lia|]. specialize (IH (n - 1)). simpl. lia.
  - simpl. destruct (decide (n = 0)) as [->|]; [change (2 ^ 0) with 1 in Hm; lia|lia].
Qed.

Lemma round_aux_exact m e :
  digits2_pos m = 53%positive → -1074 ≤ e ≤ 971 → binary_round_aux 53 1024 false (Z.pos m) e loc_Exact = S754_finite false m e.
Proof.
  intros Hd He. assert (∀ l, l = loc_Exact → shr_fexp 53 1024 (Z.pos m) e l = (Build_shr_record (Z.pos m) false false, e)) as Hs.
  { intros l ->. unfold shr_fexp. simpl Zdigits2. rewrite Hd. unfold fexp, SpecFloat.emin.
    replace (Z.max (53 + e - 53) (3 - 1024 - 53) - e) with 0 by lia. done. }
  unfold binary_round_aux. rewrite Hs by done. simpl round_nearest_even. rewrite Hs by done. simpl shr_m.
  rewrite (proj2 (Z.leb_le _ _)); [done|lia].
Qed.

Lemma integer_finite m : Z.pos m < 2 ^ 53 → is_finite (binary_round 53 1024 false m 0) = true.
Proof.
  intros Hm. apply digits_bound in Hm. unfold binary_round, fexp, SpecFloat.emin, shl_align.
  replace (Z.max (Z.pos (digits2_pos m) + 0 - 53) (3 - 1024 - 53)) with (Z.pos (digits2_pos m) - 53) by lia. rewrite Z.sub_0_r.
  destruct (Z.pos (digits2_pos m) - 53) as [|p|p] eqn:E.
  - rewrite round_aux_exact; [done|lia|lia].
  - lia.
  - rewrite round_aux_exact; [done|rewrite digits_iter; lia|lia].
Qed.

Lemma take_digits_all s : forallb is_ascii_digit s = true → take_digits s = s.
Proof. induction s as [|x s IH]; simpl; [done|]. intros H. bool_hyps. by rewrite H, IH. Qed.

Lemma from_u64_finite v : 0 ≤ v < 2 ^ 53 → is_finite (to_f64 (from_u64 v)) = true.
Proof.
  intros Hv. destruct (to_dec_spec v) as (Hd & Hval & Hl & _ & Hz & _); [unfold U64_MAX; lia|].
  unfold to_f64, from_u64, decimal_of. destruct (to_dec v) as [|x s] eqn:E; [simpl in Hl; lia|].
  assert (match x :: s with 45 :: r => (true, r) | _ => (false, x :: s) end = (false, x :: s)) as ->.
  { simpl in Hd. bool_hyps. unfold is_ascii_digit in *. repeat case_match; try done. }
  rewrite (take_digits_all (x :: s)) by done. rewrite drop_all. cbn [length app]. rewrite app_nil_r, Hval. cbn [Z.of_nat Z.sub Z.opp Z.add].
  unfold round_decimal. cbn [dec_mantissa dec_exponent dec_negative]. destruct v as [|p|p]; [done| |lia].
  cbn [Z.leb Z.compare]. change (10 ^ 0) with 1. rewrite Z.mul_1_r. apply integer_finite. lia.
Qed.
