(* ===== verification/Capabilities.v ===== *)
(** * Capability declarations and session descriptors ([core/src/capabilities.rs])

    The capabilities entry with its builders and its reader, the declaration with version
    agreement, and the session descriptor. *)

From S2P Require Import Prelude Ids Utf8 Json JsonFacts JsonReader JsonText.

Definition DEFAULT_MAX_ENVELOPE_OCTETS : Z := 65536.
Definition MAX_ENVELOPE_OCTETS_LIMIT : Z := 9007199254740991.

Record Implemented := mkImplemented {
  imp_extension : list Z; imp_major : Z; imp_revision : Version }.

(** ** Entries *)

Record CapabilitiesEntry := mkEntry {
  ce_revision : Version;
  ce_active_inbound : bool;
  ce_content_types : option (list (list Z));
  ce_max_envelope_octets : option Z;
  ce_wire : JsonObject }.

Definition CapabilitiesEntry_new (revision : Version) (active_inbound : bool) : CapabilitiesEntry :=
  let wire := obj_insert [] (bs "revision") (JString (Version_to_string revision)) in
  let wire := obj_insert wire (bs "active_inbound") (JBool active_inbound) in
  mkEntry revision active_inbound None None wire.

Definition is_part_type (t : list Z) : bool := is_core_type t || is_extension_type t.

Definition with_content_types (e : CapabilitiesEntry) (types : list (list Z)) : option CapabilitiesEntry :=
  if negb (forallb is_part_type types) then None
  else Some (mkEntry (ce_revision e) (ce_active_inbound e) (Some types) (ce_max_envelope_octets e)
    (obj_insert (ce_wire e) (bs "content_types") (JArray (map JString types)))).

Definition with_max_envelope_octets (e : CapabilitiesEntry) (octets : Z) : option CapabilitiesEntry :=
  if negb (in_range DEFAULT_MAX_ENVELOPE_OCTETS MAX_ENVELOPE_OCTETS_LIMIT octets) then None
  else Some (mkEntry (ce_revision e) (ce_active_inbound e) (ce_content_types e) (Some octets)
    (obj_insert (ce_wire e) (bs "max_envelope_octets") (JNumber (from_u64 octets)))).

(** The optional members of an entry: absent, or present and of their form. *)
Definition read_content_types (o : JsonObject) : option (option (list (list Z))) :=
  match obj_get o (bs "content_types") with
  | None => Some None
  | Some t =>
      items ← as_array t;
      types ← mapM (λ t, opt_filter is_part_type (as_str t)) items;
      Some (Some types)
  end.

Definition read_max_octets (o : JsonObject) : option (option Z) :=
  match obj_get o (bs "max_envelope_octets") with
  | None => Some None
  | Some n =>
      raw ← as_number n;
      v ← plain_integer_in raw DEFAULT_MAX_ENVELOPE_OCTETS MAX_ENVELOPE_OCTETS_LIMIT;
      Some (Some v)
  end.

(** [CapabilitiesEntry::from_json]. *)
Definition CapabilitiesEntry_from_json (v : Json) (mj : Z) : option CapabilitiesEntry :=
  o ← as_object v;
  revision ← opt_filter (λ r, major r =? mj)
               (r ← obj_get o (bs "revision"); s ← as_str r; Version_parse s);
  active_inbound ← (b ← obj_get o (bs "active_inbound"); as_bool b);
  content_types ← read_content_types o;
  max_envelope_octets ← read_max_octets o;
  Some (mkEntry revision active_inbound content_types max_envelope_octets o).

Definition accepts_part_type (e : CapabilitiesEntry) (t : list Z) : bool :=
  beq t (bs "text") ||
  match ce_content_types e with Some l => existsb (λ x, beq x t) l | None => false end.

Definition max_envelope_octets (e : CapabilitiesEntry) : Z :=
  default DEFAULT_MAX_ENVELOPE_OCTETS (ce_max_envelope_octets e).

(** ** Declarations *)

Record Agreed := mkAgreed {
  ag_extension : list Z; ag_major : Z; ag_revision : Version; ag_entry : CapabilitiesEntry }.

Record SessionCapabilities := mkCapabilities { caps_wire : Json }.

Definition SessionCapabilities_from_json (v : Json) : SessionCapabilities := mkCapabilities v.

(** [SessionCapabilities::declare]: the loop over the entries. *)
Fixpoint declare_loop (entries : list (list Z * CapabilitiesEntry)) (o : JsonObject)
    : option SessionCapabilities :=
  match entries with
  | [] => Some (mkCapabilities (JObject o))
  | (ext, e) :: rest =>
      if negb (is_extension_type ext) || negb (is_ijson_string ext) then None
      else declare_loop rest (obj_insert o ext (JObject (ce_wire e)))
  end.

Definition declare (entries : list (list Z * CapabilitiesEntry)) : option SessionCapabilities :=
  declare_loop entries [].

Definition valid_entry (o : JsonObject) (imp : Implemented) : option Agreed :=
  v ← obj_get o (imp_extension imp);
  entry ← CapabilitiesEntry_from_json v (imp_major imp);
  Some (mkAgreed (imp_extension imp) (imp_major imp) (imp_revision imp) entry).

Definition valid_entries (c : SessionCapabilities) (implemented : list Implemented) : list Agreed :=
  match as_object (caps_wire c) with
  | None => []
  | Some o => omap (valid_entry o) implemented
  end.

(** [Iterator::max_by_key]: the last of the largest. *)
Definition max_by_major (l : list Agreed) : option Agreed :=
  foldl (λ best a, match best with
                   | None => Some a
                   | Some b => if ag_major a <? ag_major b then Some b else Some a
                   end) None l.

Definition agree (c : SessionCapabilities) (implemented : list Implemented) : option Agreed :=
  max_by_major (valid_entries c implemented).

(** ** Descriptors *)

Record SessionDescriptor := mkDescriptor {
  sd_session_id : SessionId; sd_capabilities : SessionCapabilities; sd_wire : JsonObject }.

Definition SessionDescriptor_new (session_id : SessionId) (capabilities : SessionCapabilities)
    (display_name : option (list Z)) (harness_label : option Token) : option SessionDescriptor :=
  if negb (is_some (as_object (caps_wire capabilities))) ||
     negb (match display_name with None => true | Some d => is_ijson_string d end)
  then None
  else
    let wire := obj_insert [] (bs "session_id") (JString session_id) in
    let wire := obj_insert wire (bs "capabilities") (caps_wire capabilities) in
    let wire := match display_name with
                | Some d => obj_insert wire (bs "display_name") (JString d) | None => wire end in
    let wire := match harness_label with
                | Some h => obj_insert wire (bs "harness_label") (JString h) | None => wire end in
    Some (mkDescriptor session_id capabilities wire).

Definition SessionDescriptor_from_json (v : Json) : option SessionDescriptor :=
  o ← as_object v;
  session_id ← (s ← obj_get o (bs "session_id"); t ← as_str s; SessionId_parse t);
  c ← obj_get o (bs "capabilities");
  Some (mkDescriptor session_id (SessionCapabilities_from_json c) o).

Definition display_name (d : SessionDescriptor) : option (list Z) :=
  v ← obj_get (sd_wire d) (bs "display_name"); as_str v.

Definition harness_label (d : SessionDescriptor) : option Token :=
  v ← obj_get (sd_wire d) (bs "harness_label"); s ← as_str v; Token_parse s.

(** ** Facts *)

(** The entries the builders make: the declared revision is one the wire form can write. *)
Inductive built_entry : CapabilitiesEntry → Prop :=
| built_new r b :
    0 ≤ major r ≤ 9999 → 0 ≤ minor r ≤ 9999 → built_entry (CapabilitiesEntry_new r b)
| built_types e types e' :
    built_entry e → with_content_types e types = Some e' → built_entry e'
| built_octets e n e' :
    built_entry e → with_max_envelope_octets e n = Some e' → built_entry e'.

Lemma mapM_part_types types :
  forallb is_part_type types = true →
  mapM (λ t, opt_filter is_part_type (as_str t)) (map JString types) = Some types.
Proof.
  induction types as [|t types IH]; [done|]. simpl. intros [Ht H]%andb_true_iff.
  rewrite Ht. simpl. by rewrite (IH H).
Qed.

(** What the wire object of a built entry holds. *)
Definition entry_wire_ok (e : CapabilitiesEntry) : Prop :=
  Version_parse (Version_to_string (ce_revision e)) = Some (ce_revision e) ∧
  obj_get (ce_wire e) (bs "revision") = Some (JString (Version_to_string (ce_revision e))) ∧
  obj_get (ce_wire e) (bs "active_inbound") = Some (JBool (ce_active_inbound e)) ∧
  read_content_types (ce_wire e) = Some (ce_content_types e) ∧
  read_max_octets (ce_wire e) = Some (ce_max_envelope_octets e).

Lemma built_entry_wire e : built_entry e → entry_wire_ok e.
Proof.
  induction 1 as [r b Hma Hmi|e types e' _ IH H|e n e' _ IH H]; unfold entry_wire_ok in *.
  - split_and!; try done. simpl. by apply Version_parse_to_string.
  - unfold with_content_types in H. destruct (forallb is_part_type types) eqn:Ht; [|done].
    injection H as <-. destruct IH as (H0 & H1 & H2 & H3 & H4). simpl.
    unfold read_content_types, read_max_octets in *. rewrite !obj_get_insert.
    split_and!; try done. simpl. by rewrite mapM_part_types.
  - unfold with_max_envelope_octets in H. destruct (in_range _ _ n) eqn:Hn; [|done].
    injection H as <-. destruct IH as (H0 & H1 & H2 & H3 & H4). simpl.
    unfold read_content_types, read_max_octets in *. rewrite !obj_get_insert.
    split_and!; try done. simpl. apply in_range_true in Hn.
    by rewrite plain_integer_from by (unfold DEFAULT_MAX_ENVELOPE_OCTETS, MAX_ENVELOPE_OCTETS_LIMIT, U64_MAX in *; lia).
Qed.

Lemma entry_from_json_built e :
  built_entry e → CapabilitiesEntry_from_json (JObject (ce_wire e)) (major (ce_revision e)) = Some e.
Proof.
  intros H. apply built_entry_wire in H as (H0 & H1 & H2 & H3 & H4).
  unfold CapabilitiesEntry_from_json. simpl. rewrite H1. simpl. rewrite H0. simpl.
  rewrite Z.eqb_refl, H2. simpl. rewrite H3. simpl. rewrite H4. simpl. by destruct e.
Qed.

Lemma part_type_ascii t : is_part_type t = true → ascii t.
Proof.
  unfold is_part_type. intros [H|H]%orb_true_iff; [by apply core_type_ascii|by apply extension_type_ascii].
Qed.

Lemma built_entry_wf e : built_entry e → wf_json (JObject (ce_wire e)).
Proof.
  induction 1 as [r b Hma Hmi|e types e' _ IH H|e n e' _ IH H].
  - simpl ce_wire. repeat apply wf_insert; try (by apply ascii_bs); auto with oac.
    + constructor. by apply ascii_ijson, version_ascii.
    + constructor.
  - unfold with_content_types in H. destruct (forallb is_part_type types) eqn:Ht; [|done].
    injection H as <-. apply wf_insert; [done|by apply ascii_bs|]. constructor.
    apply Forall_map. apply Forall_forallb in Ht. eapply Forall_impl; [exact Ht|].
    intros t Hp. constructor. by apply ascii_ijson, part_type_ascii.
  - unfold with_max_envelope_octets in H. destruct (in_range _ _ n) eqn:Hn; [|done].
    injection H as <-. apply wf_insert; [done|by apply ascii_bs|]. constructor.
    apply in_range_true in Hn. apply from_u64_rfc.
    unfold DEFAULT_MAX_ENVELOPE_OCTETS, MAX_ENVELOPE_OCTETS_LIMIT, U64_MAX in *. lia.
Qed.

(** What a declaration holds for an identifier: the last entry declared for it. *)
Definition last_entry (entries : list (list Z * CapabilitiesEntry)) (ext : list Z)
    : option CapabilitiesEntry :=
  snd <$> find (λ m, beq m.1 ext) (rev entries).

Lemma last_entry_cons m entries ext :
  last_entry (m :: entries) ext =
  match last_entry entries ext with
  | Some e => Some e
  | None => if beq m.1 ext then Some m.2 else None
  end.
Proof.
  unfold last_entry. simpl. generalize (rev entries). intros l.
  induction l as [|x l IH]; simpl; [by destruct (beq m.1 ext)|]. by destruct (beq x.1 ext).
Qed.

Lemma declare_loop_spec entries : ∀ o c,
  declare_loop entries o = Some c →
  ∃ o', caps_wire c = JObject o' ∧
    (∀ ext, obj_get o' ext =
       match last_entry entries ext with
       | Some e => Some (JObject (ce_wire e))
       | None => obj_get o ext
       end) ∧
    (Forall (λ m, built_entry m.2) entries → wf_json (JObject o) → wf_json (JObject o')).
Proof.
  induction entries as [|[ext e] entries IH]; intros o c H.
  - injection H as <-. exists o. done.
  - simpl in H. destruct (is_extension_type ext) eqn:Ex; [|done].
    destruct (is_ijson_string ext) eqn:Ei; [|done]. simpl in H.
    destruct (IH _ _ H) as (o' & Hc & Hget & Hwf). exists o'. split_and!; [done| |].
    + intros n. rewrite Hget, last_entry_cons, obj_get_insert. simpl.
      destruct (last_entry entries n); [done|]. by destruct (beq ext n).
    + intros Hb Ho. apply Forall_cons in Hb as [Hb Hbs]. apply Hwf; [done|].
      apply wf_insert; [done|by apply ascii_ijson, extension_type_ascii|by apply built_entry_wf].
Qed.

Lemma max_by_major_spec l :
  match max_by_major l with
  | None => l = []
  | Some a => a ∈ l ∧ Forall (λ b, ag_major b ≤ ag_major a) l
  end.
Proof.
  unfold max_by_major. induction l as [|x l IH] using rev_ind; [done|].
  rewrite foldl_snoc. destruct (foldl _ None l) as [b|].
  - destruct IH as [Hin Hall]. destruct (ag_major x <? ag_major b) eqn:E; bool_hyps.
    + split; [set_solver|]. apply Forall_app. split; [done|]. apply Forall_singleton. lia.
    + split; [set_solver|]. apply Forall_app. split; [|by apply Forall_singleton].
      eapply Forall_impl; [exact Hall|]. simpl. lia.
  - subst l. split; [set_solver|]. by apply Forall_singleton.
Qed.

(** Version agreement picks the highest common major version: when [agree] returns
    nothing, the declaration has a valid entry for none of the implemented identifiers; when
    it returns an agreement, that is a valid entry of an implemented identifier and no valid
    entry has a higher major version. *)
Theorem agree_highest (c : SessionCapabilities) (implemented : list Implemented) :
  match agree c implemented with
  | None => valid_entries c implemented = []
  | Some a =>
      a ∈ valid_entries c implemented ∧
      Forall (λ b, ag_major b ≤ ag_major a) (valid_entries c implemented)
  end.
Proof. apply max_by_major_spec. Qed.

(** Own declarations are read by peers as they were made: a declaration of entries made
    by the builders serializes to text that reads back as the same declaration, and a peer
    that implements an identifier with the entry's major version finds in it exactly the last
    entry declared for that identifier. *)
Theorem declare_round_trip (entries : list (list Z * CapabilitiesEntry))
    (c : SessionCapabilities) (imp : Implemented) (e : CapabilitiesEntry) :
  Forall (λ m, built_entry m.2) entries → declare entries = Some c →
  last_entry entries (imp_extension imp) = Some e → imp_major imp = major (ce_revision e) →
  parse (to_compact (caps_wire c)) = Ok (caps_wire c) ∧
  valid_entries c [imp] =
    [mkAgreed (imp_extension imp) (imp_major imp) (imp_revision imp) e].
Proof.
  intros Hb Hc He Hm. destruct (declare_loop_spec _ _ _ Hc) as (o & Ho & Hget & Hwf).
  assert (built_entry e) as Hbe.
  { unfold last_entry in He. destruct (find _ (rev entries)) as [m|] eqn:E; [|done].
    injection He as <-. apply find_some in E as [Hin _]. rewrite Forall_forall in Hb.
    apply Hb. apply list_elem_of_In. by apply in_rev. }
  rewrite Ho. split; [by rewrite to_compact_ref; apply parse_compact, Hwf; auto with oac|].
  unfold valid_entries, valid_entry. rewrite Ho. simpl. rewrite Hget, He. simpl.
  rewrite Hm, entry_from_json_built by done. done.
Qed.

Lemma declare_round_trip_witness :
  valid_entries
    (mkCapabilities (JObject [(EXTENSION_ID_V0, JObject
       [(bs "revision", JString (bs "0.1")); (bs "active_inbound", JBool true);
        (bs "max_envelope_octets", JNumber (bs "131072"))])]))
    [mkImplemented EXTENSION_ID_V0 0 IMPLEMENTED_VERSION] =
  [mkAgreed EXTENSION_ID_V0 0 IMPLEMENTED_VERSION
     (mkEntry IMPLEMENTED_VERSION true None (Some 131072)
       [(bs "revision", JString (bs "0.1")); (bs "active_inbound", JBool true);
        (bs "max_envelope_octets", JNumber (bs "131072"))])].
Proof.
  set (e := mkEntry IMPLEMENTED_VERSION true None (Some 131072)
       [(bs "revision", JString (bs "0.1")); (bs "active_inbound", JBool true);
        (bs "max_envelope_octets", JNumber (bs "131072"))]).
  assert (built_entry e) as He.
  { apply (built_octets (CapabilitiesEntry_new IMPLEMENTED_VERSION true) 131072).
    - apply built_new; simpl; lia.
    - vm_compute. reflexivity. }
  apply (declare_round_trip [(EXTENSION_ID_V0, e)] _ (mkImplemented EXTENSION_ID_V0 0 IMPLEMENTED_VERSION) e).
  - repeat constructor. exact He.
  - vm_compute. reflexivity.
  - vm_compute. reflexivity.
  - reflexivity.
Defined.
