(* ===== verification/Envelope.v ===== *)
(** * The message envelope ([core/src/envelope.rs])

    Content parts, the receiver's limits, envelope-stage validation of a received envelope in
    its step order, drafts, and sealing a draft into an envelope.  The writers of
    [serde_jcs] that the signing input uses are parameters. *)

From Stdlib Require Import SpecFloat.
From S2P Require Import Prelude Base64url Ids Utf8 Json JsonFacts JsonReader JsonText.
From S2P Require Import Delivery Canonical Capabilities.

Definition MAX_TTL_MS : Z := 86400000.

Definition SECURITY_MEMBERS : list (list Z) :=
  [bs "principal"; bs "key_id"; bs "nonce"; bs "signature"].

Record SecurityPrincipal := mkPrincipal { sp_principal : Token; sp_key_id : KeyId }.

#[export] Instance SecurityPrincipal_eq_dec : EqDecision SecurityPrincipal.
Proof. solve_decision. Defined.

(** [Nonce::from_octets] and [Signature::from_octets]: the base64url text of the octets. *)
Definition Nonce_from_octets (octets : list Z) : list Z := encode octets.
Definition Signature_from_octets (octets : list Z) : list Z := encode octets.

Record SecurityMetadata := mkSecurity {
  sm_principal : list Z; sm_key_id : list Z; sm_nonce : list Z; sm_signature : list Z }.

(** ** Content parts *)

Record TextPart := mkText { tp_text : list Z; tp_wire : JsonObject }.
Record OtherPart := mkOther { op_part_type : list Z; op_wire : JsonObject }.

Inductive ContentPart : Type :=
| CText (t : TextPart)
| COther (o : OtherPart).

Definition TextPart_new (text : list Z) : option TextPart :=
  if bool_decide (text = []) || negb (is_ijson_string text) then None
  else
    let wire := obj_insert [] (bs "type") (JString (bs "text")) in
    let wire := obj_insert wire (bs "text") (JString text) in
    Some (mkText text wire).

Definition part_type (p : ContentPart) : list Z :=
  match p with CText _ => bs "text" | COther o => op_part_type o end.

Definition part_wire (p : ContentPart) : JsonObject :=
  match p with CText t => tp_wire t | COther o => op_wire o end.

(** A string member of an object: [o.get(name).and_then(Json::as_str)]. *)
Definition get_str (o : JsonObject) (name : list Z) : option (list Z) :=
  v ← obj_get o name; as_str v.

Definition ContentPart_from_json (v : Json) : option ContentPart :=
  o ← as_object v;
  if contains_null v || negb (is_ok (parse (to_compact v))) then None
  else
    pt ← get_str o (bs "type");
    if beq pt (bs "text") then (t ← get_str o (bs "text"); CText <$> TextPart_new t)
    else then_some (is_core_type pt || is_extension_type pt) (COther (mkOther pt o)).

(** ** Limits *)

Record EnvelopeLimits := mkLimits {
  supported_majors : list Z; el_max_octets : Z; part_types : list (list Z) }.

Definition EnvelopeLimits_default : EnvelopeLimits :=
  mkLimits [major IMPLEMENTED_VERSION] DEFAULT_MAX_ENVELOPE_OCTETS [].

Definition with_supported_majors (l : EnvelopeLimits) (majors : list Z) : option EnvelopeLimits :=
  if bool_decide (majors = []) then None
  else Some (mkLimits majors (el_max_octets l) (part_types l)).

Definition limits_with_max_octets (l : EnvelopeLimits) (octets : Z) : option EnvelopeLimits :=
  if negb (in_range DEFAULT_MAX_ENVELOPE_OCTETS MAX_ENVELOPE_OCTETS_LIMIT octets) then None
  else Some (mkLimits (supported_majors l) octets (part_types l)).

Definition with_part_types (l : EnvelopeLimits) (types : list (list Z)) : option EnvelopeLimits :=
  if negb (forallb (λ t, is_core_type t || is_extension_type t) types) then None
  else Some (mkLimits (supported_majors l) (el_max_octets l) types).

(** ** Envelopes *)

Record EnvelopeRejection := mkRejection {
  rej_state : DeliveryState; rej_error : ErrorCode; rej_requirement : string }.

Definition rejected (error : ErrorCode) (requirement : string) : EnvelopeRejection :=
  mkRejection D_Rejected error requirement.

Record Envelope := mkEnvelope {
  env_octets : list Z;
  env_wire : JsonObject;
  env_version : Version;
  env_id : Token;
  env_from : SessionId;
  env_to : SessionId;
  env_conversation_id : option Token;
  env_reply_to : option Token;
  env_correlation_id : option Token;
  env_created_at : Timestamp;
  env_ttl_ms : option Z;
  env_content : list ContentPart;
  env_security : SecurityMetadata }.

Definition expiry_unix_nanos (e : Envelope) : option Z :=
  t ← env_ttl_ms e; Some (unix_nanos (env_created_at e) + t * 1000000).

Definition is_expired_at (e : Envelope) (now : Timestamp) : bool :=
  match expiry_unix_nanos e with Some x => x <=? unix_nanos now | None => false end.

Record ChannelMessage := mkMessage {
  cm_envelope : Envelope; cm_verified_by : option SecurityPrincipal }.

(** [ChannelMessage::verified]. *)
Definition verified (m : ChannelMessage) (entry : SecurityPrincipal) : ChannelMessage :=
  mkMessage (cm_envelope m) (Some entry).

Definition token_member (o : JsonObject) (name : list Z) : result EnvelopeRejection (option Token) :=
  match obj_get o name with
  | None => Ok None
  | Some v =>
      t ← ok_or (s ← as_str v; Token_parse s) (rejected E_MalformedEnvelope "SC-ENV-010");
      Ok (Some t)
  end.

(** ** Structure: step 4 *)

Definition fail (req : string) : EnvelopeRejection := rejected E_MalformedEnvelope req.

(** The members that must be present, with the requirement each failure names. *)
Definition required_members : list (list Z * string) :=
  [(bs "id", "SC-ENV-022"); (bs "from", "SC-ENV-025"); (bs "to", "SC-ENV-026");
   (bs "created_at", "SC-ENV-040"); (bs "content", "SC-ENV-060"); (bs "security", "SC-ENV-070")]%string.

Fixpoint check_required (o : JsonObject) (ms : list (list Z * string)) : result EnvelopeRejection unit :=
  match ms with
  | [] => Ok tt
  | (m, req) :: rest => if negb (obj_contains o m) then Err (fail req) else check_required o rest
  end.

Definition read_ttl (o : JsonObject) : result EnvelopeRejection (option Z) :=
  match obj_get o (bs "ttl_ms") with
  | None => Ok None
  | Some t =>
      v ← ok_or (n ← as_number t; plain_integer_in n 1 MAX_TTL_MS) (fail "SC-ENV-050");
      Ok (Some v)
  end.

(** One turn of the loop over [content]. *)
Definition read_part (part : Json) : result EnvelopeRejection ContentPart :=
  p ← ok_or (as_object part) (fail "SC-ENV-061");
  pt ← ok_or (get_str p (bs "type")) (fail "SC-ENV-061");
  if beq pt (bs "text") then
    text ← ok_or (opt_filter (λ t, negb (bool_decide (t = []))) (get_str p (bs "text"))) (fail "SC-ENV-062");
    Ok (CText (mkText text p))
  else Ok (COther (mkOther pt p)).

Fixpoint read_parts (parts : list Json) : result EnvelopeRejection (list ContentPart) :=
  match parts with
  | [] => Ok []
  | x :: rest => p ← read_part x; ps ← read_parts rest; Ok (p :: ps)
  end.

Definition read_security (o : JsonObject) : result EnvelopeRejection SecurityMetadata :=
  sec ← ok_or (v ← obj_get o (bs "security"); as_object v) (fail "SC-ENV-070");
  if existsb (λ m, negb (obj_contains sec m)) SECURITY_MEMBERS then Err (fail "SC-ENV-071")
  else
    let s m := ok_or (get_str sec m) (fail "SC-ENV-072") in
    principal ← s (bs "principal");
    key_id ← s (bs "key_id");
    nonce ← s (bs "nonce");
    signature ← s (bs "signature");
    if existsb (λ n, negb (existsb (beq n) SECURITY_MEMBERS)) (obj_names sec)
    then Err (fail "SC-ENV-073")
    else Ok (mkSecurity principal key_id nonce signature).

Definition structure (octets : list Z) (o : JsonObject) (version : Version)
    : result EnvelopeRejection Envelope :=
  if existsb (λ m, contains_null m.2) o then Err (fail "SC-ENV-003")
  else
    check_required o required_members ≫= λ _,
    id ← (t ← token_member o (bs "id"); ok_or t (fail "SC-ENV-022"));
    from ← (t ← token_member o (bs "from"); ok_or t (fail "SC-ENV-025"));
    to ← (t ← token_member o (bs "to"); ok_or t (fail "SC-ENV-026"));
    conversation_id ← token_member o (bs "conversation_id");
    reply_to ← token_member o (bs "reply_to");
    correlation_id ← token_member o (bs "correlation_id");
    from ← ok_or (SessionId_parse from) (fail "SC-ID-001");
    to ← ok_or (SessionId_parse to) (fail "SC-ID-001");
    created_at ← ok_or (s ← get_str o (bs "created_at"); Timestamp_parse s) (fail "SC-ENV-041");
    ttl_ms ← read_ttl o;
    parts ← ok_or (opt_filter (λ a, negb (bool_decide (length a = 0%nat)))
                     (v ← obj_get o (bs "content"); as_array v)) (fail "SC-ENV-060");
    content ← read_parts parts;
    security ← read_security o;
    Ok (mkEnvelope octets o version id from to conversation_id reply_to correlation_id
          created_at ttl_ms content security).

(** ** Receiving *)

Definition part_supported (l : EnvelopeLimits) (p : ContentPart) : bool :=
  beq (part_type p) (bs "text") || existsb (λ x, beq x (part_type p)) (part_types l).

Definition receive_envelope (octets : list Z) (limits : EnvelopeLimits) (now : Timestamp)
    : result EnvelopeRejection ChannelMessage :=
  if el_max_octets limits <? Z.of_nat (length octets)
  then Err (rejected E_EnvelopeTooLarge "SC-RCP-076")
  else
    v ← map_err (λ _, fail "SC-ENV-002") (parse octets);
    o ← ok_or (as_object v) (fail "SC-ENV-001");
    version ← ok_or (s ← get_str o (bs "version"); Version_parse s) (fail "SC-ENV-020");
    if negb (existsb (Z.eqb (major version)) (supported_majors limits))
    then Err (rejected E_UnsupportedVersion "SC-VER-001")
    else
      envelope ← structure octets o version;
      if existsb (λ p, negb (part_supported limits p)) (env_content envelope)
      then Err (rejected E_UnsupportedContentType "SC-ENV-065")
      else if is_expired_at envelope now
      then Err (mkRejection D_Expired E_Expired "SC-ENV-100")
      else Ok (mkMessage envelope None).

(** ** Drafts *)

Record EnvelopeDraft := mkDraft {
  dr_version : Version;
  dr_id : Token;
  dr_from : SessionId;
  dr_to : SessionId;
  dr_conversation_id : option Token;
  dr_reply_to : option Token;
  dr_correlation_id : option Token;
  dr_created_at : Timestamp;
  dr_ttl_ms : option Z;
  dr_content : list ContentPart }.

Definition with_parts (id : Token) (from to : SessionId) (created_at : Timestamp)
    (content : list ContentPart) : option EnvelopeDraft :=
  if bool_decide (length content = 0%nat) then None
  else Some (mkDraft IMPLEMENTED_VERSION id from to None None None created_at None content).

Definition EnvelopeDraft_new (id : Token) (from to : SessionId) (created_at : Timestamp)
    (content : list TextPart) : option EnvelopeDraft :=
  with_parts id from to created_at (map CText content).

Definition with_version (d : EnvelopeDraft) (v : Version) : EnvelopeDraft :=
  mkDraft v (dr_id d) (dr_from d) (dr_to d) (dr_conversation_id d) (dr_reply_to d)
    (dr_correlation_id d) (dr_created_at d) (dr_ttl_ms d) (dr_content d).

Definition with_conversation_id (d : EnvelopeDraft) (v : Token) : EnvelopeDraft :=
  mkDraft (dr_version d) (dr_id d) (dr_from d) (dr_to d) (Some v) (dr_reply_to d)
    (dr_correlation_id d) (dr_created_at d) (dr_ttl_ms d) (dr_content d).

Definition with_reply_to (d : EnvelopeDraft) (v : Token) : EnvelopeDraft :=
  mkDraft (dr_version d) (dr_id d) (dr_from d) (dr_to d) (dr_conversation_id d) (Some v)
    (dr_correlation_id d) (dr_created_at d) (dr_ttl_ms d) (dr_content d).

Definition with_correlation_id (d : EnvelopeDraft) (v : Token) : EnvelopeDraft :=
  mkDraft (dr_version d) (dr_id d) (dr_from d) (dr_to d) (dr_conversation_id d) (dr_reply_to d)
    (Some v) (dr_created_at d) (dr_ttl_ms d) (dr_content d).

Definition with_ttl_ms (d : EnvelopeDraft) (ttl_ms : Z) : option EnvelopeDraft :=
  if negb (in_range 1 MAX_TTL_MS ttl_ms) then None
  else Some (mkDraft (dr_version d) (dr_id d) (dr_from d) (dr_to d) (dr_conversation_id d)
    (dr_reply_to d) (dr_correlation_id d) (dr_created_at d) (Some ttl_ms) (dr_content d)).

(** An optional member: inserted when there is a value. *)
Definition insert_opt (o : JsonObject) (name : list Z) (v : option Json) : JsonObject :=
  match v with Some v => obj_insert o name v | None => o end.

Definition draft_wire (d : EnvelopeDraft) (security : JsonObject) : JsonObject :=
  let o := obj_insert [] (bs "version") (JString (Version_to_string (dr_version d))) in
  let o := obj_insert o (bs "id") (JString (dr_id d)) in
  let o := obj_insert o (bs "from") (JString (dr_from d)) in
  let o := obj_insert o (bs "to") (JString (dr_to d)) in
  let o := insert_opt o (bs "conversation_id") (JString <$> dr_conversation_id d) in
  let o := insert_opt o (bs "reply_to") (JString <$> dr_reply_to d) in
  let o := insert_opt o (bs "correlation_id") (JString <$> dr_correlation_id d) in
  let o := obj_insert o (bs "created_at") (JString (ts_text (dr_created_at d))) in
  let o := insert_opt o (bs "ttl_ms") ((λ t, JNumber (from_u64 t)) <$> dr_ttl_ms d) in
  let o := obj_insert o (bs "content") (JArray (map (λ p, JObject (part_wire p)) (dr_content d))) in
  obj_insert o (bs "security") (JObject security).

Definition draft_security (signer : SecurityPrincipal) (nonce : list Z) : JsonObject :=
  let s := obj_insert [] (bs "principal") (JString (sp_principal signer)) in
  let s := obj_insert s (bs "key_id") (JString (sp_key_id signer)) in
  obj_insert s (bs "nonce") (JString nonce).

Definition seal (d : EnvelopeDraft) (signer : SecurityPrincipal) (nonce signature : list Z) : Envelope :=
  let sec := obj_insert (draft_security signer nonce) (bs "signature") (JString signature) in
  let wire := draft_wire d sec in
  mkEnvelope (to_compact (JObject wire)) wire (dr_version d) (dr_id d) (dr_from d) (dr_to d)
    (dr_conversation_id d) (dr_reply_to d) (dr_correlation_id d) (dr_created_at d)
    (dr_ttl_ms d) (dr_content d)
    (mkSecurity (sp_principal signer) (sp_key_id signer) nonce signature).

Section SigningInput.
Context (jcs_string : list Z → result (list Z) (list Z))
        (jcs_f64 : spec_float → result (list Z) (list Z)).

Definition envelope_signing_input (e : Envelope) : result CanonicalError (list Z) :=
  signing_input jcs_string jcs_f64 Dom_Envelope (env_wire e).

Definition draft_signing_input (d : EnvelopeDraft) (signer : SecurityPrincipal) (nonce : list Z)
    : result CanonicalError (list Z) :=
  signing_input jcs_string jcs_f64 Dom_Envelope (draft_wire d (draft_security signer nonce)).
End SigningInput.
