(* ===== verification/EnvelopeFacts.v ===== *)
(** * Facts about envelopes

    What a sender seals, a receiver accepts unchanged; what a receiver accepts satisfies the
    envelope's rules; every refusal carries an envelope-stage code; and the signing input of
    a sealed envelope is the one the draft was signed with. *)

From Stdlib Require Import SpecFloat.
From S2P Require Import Prelude Base64url Ids Utf8 Json JsonFacts JsonReader JsonText.
From S2P Require Import Delivery Canonical Capabilities Envelope.

(** ** Lookups in objects built member by member *)

Lemma obj_get_insert_opt o n v m :
  obj_get (insert_opt o n v) m =
  match v with Some v => if beq n m then Some v else obj_get o m | None => obj_get o m end.
Proof. destruct v; [apply obj_get_insert|done]. Qed.

Lemma wf_insert_opt o n v :
  wf_json (JObject o) → ijson_text n → (∀ x, v = Some x → wf_json x) →
  wf_json (JObject (insert_opt o n v)).
Proof. intros Ho Hn Hv. destruct v; [|done]. apply wf_insert; auto. Qed.

Lemma obj_insert_insert o n v w : obj_insert (obj_insert o n v) n w = obj_insert o n w.
Proof.
  unfold obj_insert at 2 3. induction o as [|[k x] o IH]; simpl.
  - unfold obj_insert. simpl. by rewrite beq_refl.
  - unfold obj_insert in *. destruct (beq k n) eqn:E; simpl; [by rewrite E|].
    destruct (obj_replace o n v) as [o'|] eqn:E1.
    + destruct (obj_replace o n w) as [o''|] eqn:E2.
      2: { apply obj_replace_None in E2. apply (obj_replace_None o n v) in E2. congruence. }
      simpl. rewrite E. simpl in IH. destruct (obj_replace o' n w) as [z|] eqn:E3.
      * simpl. by rewrite IH.
      * apply obj_replace_None in E3. pose proof (obj_get_insert o n v n) as Hg.
        unfold obj_insert in Hg. rewrite E1, beq_refl in Hg. congruence.
    + destruct (obj_replace o n w) as [o''|] eqn:E2.
      { apply obj_replace_None, (obj_replace_None o n w) in E1. congruence. }
      simpl. rewrite E. destruct (obj_replace (o ++ [(n, v)]) n w) as [z|] eqn:E3.
      * simpl. simpl in IH. by rewrite IH.
      * apply obj_replace_None in E3. pose proof (obj_get_insert o n v n) as Hg.
        unfold obj_insert in Hg. rewrite E1, beq_refl in Hg. congruence.
Qed.

(** ** Nulls *)

Definition is_null_event (e : Event) : bool :=
  match e with EScalar JNull => true | _ => false end.

Lemma contains_null_ref v : contains_null v = existsb is_null_event (ref_events false v).
Proof. unfold contains_null, events. by rewrite walk_ref. Qed.

Lemma existsb_mjoin {A} (p : A → bool) l : existsb p (mjoin l) = existsb (existsb p) l.
Proof. induction l as [|x l IH]; [done|]. simpl. by rewrite existsb_app, IH. Qed.

Lemma contains_null_array a : contains_null (JArray a) = existsb contains_null a.
Proof.
  rewrite contains_null_ref. simpl. rewrite existsb_app, existsb_mjoin. simpl. rewrite orb_false_r.
  induction a as [|x a IH]; [done|]. simpl. by rewrite IH, contains_null_ref.
Qed.

Lemma contains_null_object o : contains_null (JObject o) = existsb (λ m, contains_null m.2) o.
Proof.
  rewrite contains_null_ref. simpl. rewrite existsb_app, existsb_mjoin, map_map. simpl. rewrite orb_false_r.
  induction o as [|x o IH]; [done|]. simpl. by rewrite IH, contains_null_ref.
Qed.

Lemma contains_null_insert o n v :
  existsb (λ m : list Z * Json, contains_null m.2) o = false → contains_null v = false →
  existsb (λ m, contains_null m.2) (obj_insert o n v) = false.
Proof.
  intros Ho Hv. unfold obj_insert.
  destruct (obj_replace o n v) as [o'|] eqn:E.
  2: { rewrite existsb_app, Ho. simpl. by rewrite Hv. }
  revert o' E. induction o as [|[k w] o IH]; intros o' E; [done|]. simpl in E, Ho.
  apply orb_false_iff in Ho as [Hw Ho]. destruct (beq k n); [injection E as <-; simpl; by rewrite Hv|].
  destruct (obj_replace o n v) as [r|]; [|done]. injection E as <-. simpl. by rewrite Hw, (IH Ho r).
Qed.

Lemma contains_null_insert_opt o n v :
  existsb (λ m : list Z * Json, contains_null m.2) o = false →
  (∀ x, v = Some x → contains_null x = false) →
  existsb (λ m, contains_null m.2) (insert_opt o n v) = false.
Proof. intros Ho Hv. destruct v; [|done]. apply contains_null_insert; auto. Qed.

(** ** Parts and drafts as the crate builds them *)

Inductive built_part : ContentPart → Prop :=
| built_text text t :
    is_utf8 text = true → TextPart_new text = Some t → built_part (CText t)
| built_from_json v p : wf_json v → ContentPart_from_json v = Some p → built_part p.

(** A part a receiver reads back. *)
Definition part_ok (p : ContentPart) : Prop :=
  wf_json (JObject (part_wire p)) ∧ contains_null (JObject (part_wire p)) = false ∧
  read_part (JObject (part_wire p)) = Ok p.

Lemma text_part_ok text t :
  is_utf8 text = true → TextPart_new text = Some t → part_ok (CText t).
Proof.
  intros Hu H. unfold TextPart_new in H. case_bool_decide as Hne; [done|].
  destruct (is_ijson_string text) eqn:Hi; [|done]. simpl in H. injection H as <-.
  split_and!.
  - simpl part_wire. apply (wf_insert [(bs "type", JString (bs "text"))]).
    + apply (wf_insert []); [apply wf_empty|by apply ascii_bs|]. constructor. by apply ascii_bs.
    + by apply ascii_bs.
    + by constructor.
  - done.
  - unfold read_part. simpl as_object. simpl ok_or. unfold get_str. simpl obj_get. simpl.
    by destruct text.
Qed.

Lemma wf_get o n v : wf_json (JObject o) → obj_get o n = Some v → wf_json v.
Proof.
  intros Ho H. inversion Ho as [| | | | |? _ _ Hm]; subst. unfold obj_get in H.
  destruct (find _ o) as [m|] eqn:E; [|done]. injection H as <-.
  apply find_some in E as [Hin _]. rewrite Forall_forall in Hm. apply Hm. by apply list_elem_of_In.
Qed.

Lemma get_str_text o n s : wf_json (JObject o) → get_str o n = Some s → ijson_text s.
Proof.
  intros Ho H. unfold get_str in H. destruct (obj_get o n) as [v|] eqn:E; [|done].
  apply (wf_get o n v Ho) in E. destruct v; try done. injection H as <-. by inversion E.
Qed.

Lemma built_part_ok p : built_part p → part_ok p.
Proof.
  intros [text t Hu H|v q Hv H]; [by eapply text_part_ok|].
  unfold ContentPart_from_json in H. destruct v as [| | | | |o]; try done. cbn [as_object mbind option_bind] in H.
  destruct (contains_null (JObject o)) eqn:Hn; [done|].
  destruct (is_ok (parse (to_compact (JObject o)))); [|done]. simpl in H.
  destruct (get_str o (bs "type")) as [pt|] eqn:Ht; [|done]. simpl in H.
  destruct (beq pt (bs "text")) eqn:Eb.
  - destruct (get_str o (bs "text")) as [tx|] eqn:Hx; [|done]. simpl in H.
    destruct (TextPart_new tx) as [t|] eqn:E; [|done]. injection H as <-.
    apply (text_part_ok tx); [|done]. by apply (get_str_text o (bs "text") tx Hv).
  - destruct (is_core_type pt || is_extension_type pt); [|done]. injection H as <-.
    split_and!; [done|done|]. unfold read_part. simpl as_object. simpl ok_or.
    cbn [mbind result_bind]. simpl op_wire. rewrite Ht. simpl. by rewrite Eb.
Qed.

Inductive built_draft : EnvelopeDraft → Prop :=
| bd_new id from to t content d :
    is_token id = true → is_session_id from = true → is_session_id to = true →
    Timestamp_parse (ts_text t) = Some t → Forall built_part content →
    with_parts id from to t content = Some d → built_draft d
| bd_version d v :
    built_draft d → 0 ≤ major v ≤ 9999 → 0 ≤ minor v ≤ 9999 → built_draft (with_version d v)
| bd_conversation d x : built_draft d → is_token x = true → built_draft (with_conversation_id d x)
| bd_reply d x : built_draft d → is_token x = true → built_draft (with_reply_to d x)
| bd_correlation d x : built_draft d → is_token x = true → built_draft (with_correlation_id d x)
| bd_ttl d n d' : built_draft d → with_ttl_ms d n = Some d' → built_draft d'.

(** The invariant of drafts. *)
Record draft_ok (d : EnvelopeDraft) : Prop := mk_draft_ok {
  do_major : 0 ≤ major (dr_version d) ≤ 9999;
  do_minor : 0 ≤ minor (dr_version d) ≤ 9999;
  do_id : is_token (dr_id d) = true;
  do_from : is_session_id (dr_from d) = true;
  do_to : is_session_id (dr_to d) = true;
  do_conversation : ∀ x, dr_conversation_id d = Some x → is_token x = true;
  do_reply : ∀ x, dr_reply_to d = Some x → is_token x = true;
  do_correlation : ∀ x, dr_correlation_id d = Some x → is_token x = true;
  do_created : Timestamp_parse (ts_text (dr_created_at d)) = Some (dr_created_at d);
  do_ttl : ∀ n, dr_ttl_ms d = Some n → 1 ≤ n ≤ MAX_TTL_MS;
  do_content : length (dr_content d) ≠ 0%nat;
  do_parts : Forall part_ok (dr_content d) }.

Lemma built_draft_ok d : built_draft d → draft_ok d.
Proof.
  induction 1 as [id from to t content d H1 H2 H3 H4 H5 H|d v _ [] ? ?|d x _ [] ?|d x _ [] ?|d x _ [] ?|d n d' _ [] H].
  - unfold with_parts in H. case_bool_decide as Hne; [done|]. injection H as <-.
    constructor; simpl; try done; try lia.
    eapply Forall_impl; [exact H5|]. apply built_part_ok.
  - by constructor.
  - constructor; simpl; try done. by intros ? [= <-].
  - constructor; simpl; try done. by intros ? [= <-].
  - constructor; simpl; try done. by intros ? [= <-].
  - unfold with_ttl_ms in H. destruct (in_range 1 MAX_TTL_MS n) eqn:E; [|done]. injection H as <-.
    apply in_range_true in E. constructor; simpl; try done. by intros ? [= <-].
Qed.

(** ** The wire object of a sealed envelope *)

Lemma encode_ascii o : ascii (encode o).
Proof.
  unfold encode. induction (chunks 3 o) as [|c cs IH]; [constructor|].
  change (ascii (encode_chunk c ++ mjoin (map encode_chunk cs))). apply Forall_app. split; [|done].
  apply Forall_map, Forall_true. intros k. simpl.
  destruct (ALPHABET !! _) as [b|] eqn:E; [|simpl; lia]. simpl.
  assert (ascii ALPHABET) as Ha by (by apply ascii_word).
  unfold ascii in Ha. rewrite Forall_lookup in Ha. by eapply Ha.
Qed.

(** A signer whose label and key id have their forms. *)
Definition signer_ok (s : SecurityPrincipal) : Prop :=
  is_token (sp_principal s) = true ∧ KeyId_parse (sp_key_id s) = Some (sp_key_id s).

Lemma wf_str s : ascii s → wf_json (JString s).
Proof. intros H. constructor. by apply ascii_ijson. Qed.

Lemma opt_str_wf (o : option (list Z)) :
  (∀ x, o = Some x → is_token x = true) → ∀ v, JString <$> o = Some v → wf_json v.
Proof. intros H v Hv. destruct o as [x|]; [|done]. injection Hv as <-. by apply wf_str, token_ascii, H. Qed.

(** The security object of a sealed envelope. *)
Definition sealed_security (signer : SecurityPrincipal) (nonce signature : list Z) : JsonObject :=
  [(bs "principal", JString (sp_principal signer)); (bs "key_id", JString (sp_key_id signer));
   (bs "nonce", JString nonce); (bs "signature", JString signature)].

Lemma sealed_security_eq signer nonce signature :
  obj_insert (draft_security signer nonce) (bs "signature") (JString signature) =
  sealed_security signer nonce signature.
Proof. done. Qed.

Lemma sealed_security_wf signer nonce signature :
  signer_ok signer → ascii nonce → ascii signature →
  wf_json (JObject (sealed_security signer nonce signature)).
Proof.
  intros [H1 H2] Hn Hs. apply wf_object; unfold sealed_security, obj_names; simpl.
  - repeat (apply NoDup_cons; split; [set_solver|]). apply NoDup_nil_2.
  - repeat (apply Forall_cons; split; [by apply ascii_bs|]). apply Forall_nil_2.
  - repeat (apply Forall_cons; split; [simpl; apply wf_str|]); [|by eapply key_id_ascii|done|done|apply Forall_nil_2].
    by apply token_ascii.
Qed.

Lemma draft_wire_wf d sec :
  draft_ok d → wf_json (JObject sec) → wf_json (JObject (draft_wire d sec)).
Proof.
  intros [] Hsec. unfold draft_wire.
  repeat first [apply wf_insert|apply wf_insert_opt]; try (by apply ascii_bs); try done; try apply wf_empty;
    try (by apply opt_str_wf).
  - by apply wf_str, version_ascii.
  - by apply wf_str, token_ascii.
  - by apply wf_str, session_id_ascii.
  - by apply wf_str, session_id_ascii.
  - by eapply wf_str, timestamp_ascii.
  - intros x Hx. destruct (dr_ttl_ms d) as [n|]; [|done]. injection Hx as <-. constructor.
    apply from_u64_rfc. specialize (do_ttl0 n eq_refl). unfold MAX_TTL_MS, U64_MAX in *. lia.
  - constructor. apply Forall_map. eapply Forall_impl; [exact do_parts0|]. by intros p (? & _).
Qed.

Lemma draft_wire_no_null d sec :
  draft_ok d → contains_null (JObject sec) = false →
  existsb (λ m, contains_null m.2) (draft_wire d sec) = false.
Proof.
  intros [] Hsec. unfold draft_wire.
  repeat first [apply contains_null_insert|apply contains_null_insert_opt]; try done.
  1-3: intros x Hx; match type of Hx with _ <$> ?o = _ => destruct o; [|done] end; by injection Hx as <-.
  - intros x Hx. destruct (dr_ttl_ms d); [|done]. by injection Hx as <-.
  - rewrite contains_null_array. clear -do_parts0.
    induction do_parts0 as [|p ps (_ & Hp & _) Hps IH]; [done|]. simpl. by rewrite Hp, IH.
Qed.

(** Evaluates a lookup in a draft's wire object. *)
Ltac wire_get :=
  unfold draft_wire, get_str, obj_contains;
  repeat first [rewrite obj_get_insert|rewrite obj_get_insert_opt]; cbn [fmap option_fmap option_map].

Lemma draft_wire_get d sec name :
  obj_get (draft_wire d sec) name =
  if beq (bs "security") name then Some (JObject sec)
  else if beq (bs "content") name then Some (JArray (map (λ p, JObject (part_wire p)) (dr_content d)))
  else if beq (bs "ttl_ms") name then (λ t, JNumber (from_u64 t)) <$> dr_ttl_ms d
  else if beq (bs "created_at") name then Some (JString (ts_text (dr_created_at d)))
  else if beq (bs "correlation_id") name then JString <$> dr_correlation_id d
  else if beq (bs "reply_to") name then JString <$> dr_reply_to d
  else if beq (bs "conversation_id") name then JString <$> dr_conversation_id d
  else if beq (bs "to") name then Some (JString (dr_to d))
  else if beq (bs "from") name then Some (JString (dr_from d))
  else if beq (bs "id") name then Some (JString (dr_id d))
  else if beq (bs "version") name then Some (JString (Version_to_string (dr_version d)))
  else None.
Proof.
  unfold draft_wire. rewrite !obj_get_insert, obj_get_insert_opt, !obj_get_insert.
  rewrite !obj_get_insert_opt, !obj_get_insert.
  destruct (beq (bs "security") name) eqn:?; [done|]. destruct (beq (bs "content") name) eqn:?; [done|].
  destruct (dr_ttl_ms d), (dr_correlation_id d), (dr_reply_to d), (dr_conversation_id d);
  cbn [fmap option_fmap option_map];
  repeat match goal with |- context [beq ?a name] => destruct (beq a name) eqn:? end;
  repeat match goal with H : beq _ name = true |- _ => apply beq_true in H end; try done; subst; try done.
Qed.

Section Wire.
Context (d : EnvelopeDraft) (sec : JsonObject).
Let w := draft_wire d sec.

Lemma wire_version : obj_get w (bs "version") = Some (JString (Version_to_string (dr_version d))).
Proof. unfold w. by rewrite draft_wire_get. Qed.
Lemma wire_id : obj_get w (bs "id") = Some (JString (dr_id d)).
Proof. unfold w. by rewrite draft_wire_get. Qed.
Lemma wire_from : obj_get w (bs "from") = Some (JString (dr_from d)).
Proof. unfold w. by rewrite draft_wire_get. Qed.
Lemma wire_to : obj_get w (bs "to") = Some (JString (dr_to d)).
Proof. unfold w. by rewrite draft_wire_get. Qed.
Lemma wire_conversation : obj_get w (bs "conversation_id") = JString <$> dr_conversation_id d.
Proof. unfold w. by rewrite draft_wire_get. Qed.
Lemma wire_reply : obj_get w (bs "reply_to") = JString <$> dr_reply_to d.
Proof. unfold w. by rewrite draft_wire_get. Qed.
Lemma wire_correlation : obj_get w (bs "correlation_id") = JString <$> dr_correlation_id d.
Proof. unfold w. by rewrite draft_wire_get. Qed.
Lemma wire_created : obj_get w (bs "created_at") = Some (JString (ts_text (dr_created_at d))).
Proof. unfold w. by rewrite draft_wire_get. Qed.
Lemma wire_ttl : obj_get w (bs "ttl_ms") = (λ t, JNumber (from_u64 t)) <$> dr_ttl_ms d.
Proof. unfold w. by rewrite draft_wire_get. Qed.
Lemma wire_content :
  obj_get w (bs "content") = Some (JArray (map (λ p, JObject (part_wire p)) (dr_content d))).
Proof. unfold w. by rewrite draft_wire_get. Qed.
Lemma wire_security : obj_get w (bs "security") = Some (JObject sec).
Proof. unfold w. by rewrite draft_wire_get. Qed.

Lemma wire_required : check_required w required_members = Ok tt.
Proof.
  unfold required_members, check_required, obj_contains.
  by rewrite wire_id, wire_from, wire_to, wire_created, wire_content, wire_security.
Qed.
End Wire.

Lemma token_parse_ok s : is_token s = true → Token_parse s = Some s.
Proof. unfold Token_parse. by intros ->. Qed.

Lemma session_parse_ok s : is_session_id s = true → SessionId_parse s = Some s.
Proof. unfold SessionId_parse. by intros ->. Qed.

Lemma token_member_opt o n x :
  obj_get o n = JString <$> x → (∀ t, x = Some t → is_token t = true) → token_member o n = Ok x.
Proof.
  unfold token_member. intros -> Hx. destruct x as [t|]; [|done]. simpl.
  by rewrite token_parse_ok by auto.
Qed.

Lemma token_member_some o n t :
  obj_get o n = Some (JString t) → is_token t = true → token_member o n = Ok (Some t).
Proof. intros H Ht. apply (token_member_opt o n (Some t) H). by intros ? [= <-]. Qed.

Lemma read_ttl_ok o x :
  obj_get o (bs "ttl_ms") = (λ t, JNumber (from_u64 t)) <$> x →
  (∀ n, x = Some n → 1 ≤ n ≤ MAX_TTL_MS) → read_ttl o = Ok x.
Proof.
  unfold read_ttl. intros -> Hx. destruct x as [n|]; [|done]. simpl.
  rewrite plain_integer_from; [done| |by apply Hx]. specialize (Hx n eq_refl).
  unfold MAX_TTL_MS, U64_MAX in *. lia.
Qed.

Lemma read_parts_ok ps :
  Forall part_ok ps → read_parts (map (λ p, JObject (part_wire p)) ps) = Ok ps.
Proof.
  induction 1 as [|p ps (_ & _ & Hp) Hps IH]; [done|]. simpl. rewrite Hp. simpl. by rewrite IH.
Qed.

Lemma read_security_ok o signer nonce signature :
  obj_get o (bs "security") = Some (JObject (sealed_security signer nonce signature)) →
  read_security o = Ok (mkSecurity (sp_principal signer) (sp_key_id signer) nonce signature).
Proof. intros H. unfold read_security. rewrite H. reflexivity. Qed.

Lemma structure_seal octets d signer nonce signature :
  draft_ok d →
  structure octets (draft_wire d (sealed_security signer nonce signature)) (dr_version d) =
  Ok (mkEnvelope octets (draft_wire d (sealed_security signer nonce signature))
        (dr_version d) (dr_id d) (dr_from d) (dr_to d)
        (dr_conversation_id d) (dr_reply_to d) (dr_correlation_id d) (dr_created_at d)
        (dr_ttl_ms d) (dr_content d)
        (mkSecurity (sp_principal signer) (sp_key_id signer) nonce signature)).
Proof.
  intros Hok. pose proof Hok as []. unfold structure.
  rewrite draft_wire_no_null by (try done; by rewrite contains_null_object).
  rewrite wire_required. cbn [mbind result_bind].
  rewrite (token_member_some _ _ _ (wire_id _ _)) by done.
  rewrite (token_member_some _ _ _ (wire_from _ _)) by (by apply session_id_is_token).
  rewrite (token_member_some _ _ _ (wire_to _ _)) by (by apply session_id_is_token).
  rewrite (token_member_opt _ _ _ (wire_conversation _ _)) by done.
  rewrite (token_member_opt _ _ _ (wire_reply _ _)) by done.
  rewrite (token_member_opt _ _ _ (wire_correlation _ _)) by done.
  cbn [mbind result_bind ok_or].
  rewrite (session_parse_ok (dr_from d)), (session_parse_ok (dr_to d)) by done.
  cbn [mbind result_bind ok_or]. unfold get_str. rewrite wire_created.
  cbn [mbind option_bind as_str]. rewrite do_created0. cbn [mbind result_bind ok_or].
  rewrite (read_ttl_ok _ _ (wire_ttl _ _)) by done. cbn [mbind result_bind ok_or].
  rewrite wire_content. cbn [mbind option_bind as_array opt_filter].
  rewrite length_map, bool_decide_false by done. cbn [negb ok_or mbind result_bind].
  rewrite read_parts_ok by done. cbn [mbind result_bind].
  rewrite (read_security_ok _ signer nonce signature) by apply wire_security. done.
Qed.

Lemma existsb_Forall_negb {A} (p : A → bool) l :
  Forall (λ x, p x = true) l ↔ existsb (λ x, negb (p x)) l = false.
Proof.
  induction l as [|x l IH]; [done|]. simpl. rewrite Forall_cons, IH, orb_false_iff, negb_false_iff. done.
Qed.

Lemma existsb_eqb (n : Z) l : existsb (Z.eqb n) l = true ↔ n ∈ l.
Proof.
  rewrite existsb_exists. split.
  - intros (x & Hx & ->%Z.eqb_eq). by apply list_elem_of_In.
  - intros H. exists n. split; [by apply list_elem_of_In|apply Z.eqb_refl].
Qed.

Lemma seal_receive (d : EnvelopeDraft) (signer : SecurityPrincipal)
    (nonce signature : list Z) (limits : EnvelopeLimits) (now : Timestamp) :
  built_draft d → signer_ok signer →
  let e := seal d signer (Nonce_from_octets nonce) (Signature_from_octets signature) in
  Z.of_nat (length (env_octets e)) ≤ el_max_octets limits →
  major (dr_version d) ∈ supported_majors limits →
  Forall (λ p, part_supported limits p = true) (dr_content d) →
  is_expired_at e now = false →
  receive_envelope (env_octets e) limits now = Ok (mkMessage e None).
Proof.
  intros Hd Hs e Hlen Hmaj Hparts Hexp. apply built_draft_ok in Hd.
  set (n := Nonce_from_octets nonce) in *. set (s := Signature_from_octets signature) in *.
  assert (e = mkEnvelope (to_compact (JObject (draft_wire d (sealed_security signer n s))))
    (draft_wire d (sealed_security signer n s)) (dr_version d) (dr_id d) (dr_from d) (dr_to d)
    (dr_conversation_id d) (dr_reply_to d) (dr_correlation_id d) (dr_created_at d) (dr_ttl_ms d)
    (dr_content d) (mkSecurity (sp_principal signer) (sp_key_id signer) n s)) as He by done.
  assert (parse (env_octets e) = Ok (JObject (env_wire e))) as Hp.
  { rewrite He. simpl. rewrite to_compact_ref. apply parse_compact.
    apply draft_wire_wf; [done|]. apply sealed_security_wf; [done|apply encode_ascii..]. }
  clearbody e. subst e. cbn [env_octets env_wire] in *.
  unfold receive_envelope. replace (el_max_octets limits <? _) with false by lia.
  rewrite Hp. cbn [map_err mbind result_bind as_object ok_or].
  unfold get_str at 1. rewrite wire_version. cbn [mbind option_bind as_str].
  rewrite Version_parse_to_string by apply Hd. cbn [ok_or mbind result_bind].
  rewrite (proj2 (existsb_eqb _ _) Hmaj). cbn [negb].
  rewrite structure_seal by done. cbn [mbind result_bind env_content].
  by rewrite (proj1 (existsb_Forall_negb _ _) Hparts), Hexp.
Qed.

(** Sealing and receiving are inverse: the octets of an envelope sealed from a draft
    that the crate's builders made, under any signer and any nonce and signature octets, are
    accepted by every receiver whose limits admit its size, major version and part types
    before it expires, and the receiver's envelope is the sender's, member for member:
    the same wire object, identifiers, time, lifetime, content parts and security member. *)
Theorem seal_receive_round_trip (d : EnvelopeDraft) (signer : SecurityPrincipal)
    (nonce signature : list Z) (limits : EnvelopeLimits) (now : Timestamp) :
  built_draft d → signer_ok signer →
  let e := seal d signer (Nonce_from_octets nonce) (Signature_from_octets signature) in
  Z.of_nat (length (env_octets e)) ≤ el_max_octets limits →
  major (dr_version d) ∈ supported_majors limits →
  Forall (λ p, part_supported limits p = true) (dr_content d) →
  is_expired_at e now = false →
  receive_envelope (env_octets e) limits now = Ok (mkMessage e None).
Proof. apply seal_receive. Qed.

(** A draft, a signer and a receiver for the witnesses. *)
Definition sample_session : SessionId := from_random_octets (replicate 16 7).
Definition sample_peer : SessionId := from_random_octets (replicate 16 9).
Definition sample_time : Timestamp := default (mkTimestamp [] 0) (from_unix_nanos 1000000000).
Definition sample_part : TextPart := default (mkText [] []) (TextPart_new (bs "hello")).
Definition sample_draft : EnvelopeDraft :=
  mkDraft IMPLEMENTED_VERSION (bs "m-1") sample_session sample_peer None None None sample_time None
    [CText sample_part].
Definition sample_signer : SecurityPrincipal := mkPrincipal (bs "alice") (replicate 64 97).

Lemma sample_draft_built : built_draft sample_draft.
Proof.
  apply (bd_new (bs "m-1") sample_session sample_peer sample_time [CText sample_part]).
  - vm_compute. reflexivity.
  - vm_compute. reflexivity.
  - vm_compute. reflexivity.
  - vm_compute. reflexivity.
  - repeat constructor. apply (built_text (bs "hello")); vm_compute; reflexivity.
  - vm_compute. reflexivity.
Defined.

Lemma seal_receive_round_trip_witness :
  receive_envelope
    (env_octets (seal sample_draft sample_signer (Nonce_from_octets (replicate 16 1))
                   (Signature_from_octets (replicate 64 2))))
    EnvelopeLimits_default sample_time =
  Ok (mkMessage (seal sample_draft sample_signer (Nonce_from_octets (replicate 16 1))
                   (Signature_from_octets (replicate 64 2))) None).
Proof.
  apply (seal_receive_round_trip sample_draft sample_signer (replicate 16 1) (replicate 64 2)
    EnvelopeLimits_default sample_time).
  - exact sample_draft_built.
  - split; vm_compute; reflexivity.
  - vm_compute. discriminate.
  - apply list_elem_of_here.
  - repeat constructor.
  - reflexivity.
Defined.

Lemma seal_input js jf d signer nonce signature :
  envelope_signing_input js jf (seal d signer nonce signature) =
  draft_signing_input js jf d signer nonce.
Proof.
  unfold envelope_signing_input, draft_signing_input, seal. cbn [env_wire].
  rewrite <- (signing_input_set_signature js jf Dom_Envelope
    (draft_wire d (draft_security signer nonce)) (draft_security signer nonce) (JString signature)).
  - f_equal. unfold draft_wire. by rewrite obj_insert_insert.
  - apply wire_security.
Qed.

(** Signing and sealing agree on the octets: the signing input a receiver computes from
    a sealed envelope, signature included, is the one the draft was signed with, for any
    signature put in. *)
Theorem seal_signing_input
    (js : list Z → result (list Z) (list Z)) (jf : spec_float → result (list Z) (list Z))
    (d : EnvelopeDraft) (signer : SecurityPrincipal) (nonce signature : list Z) :
  envelope_signing_input js jf (seal d signer nonce signature) =
  draft_signing_input js jf d signer nonce.
Proof. apply seal_input. Qed.

(** ** What a receiver accepts and refuses *)

(** A refusal of a structure step is [malformed-envelope]. *)
Definition malformed {A} (r : result EnvelopeRejection A) : Prop :=
  ∀ e, r = Err e → ∃ req, e = fail req.

Lemma malformed_Ok {A} (a : A) : malformed (Ok a).
Proof. done. Qed.
Lemma malformed_Err {A} req : malformed (A := A) (Err (fail req)).
Proof. intros e [= <-]. eauto. Qed.
Lemma malformed_ok_or {A} (o : option A) req : malformed (ok_or o (fail req)).
Proof. destruct o; [apply malformed_Ok|apply malformed_Err]. Qed.
Lemma malformed_bind {A B} (m : result EnvelopeRejection A) (k : A → result EnvelopeRejection B) :
  malformed m → (∀ a, m = Ok a → malformed (k a)) → malformed (m ≫= k).
Proof. intros Hm Hk. destruct m as [a|e]; [by apply Hk|]. intros e' [= <-]. by apply Hm. Qed.

Create HintDb malformed.
#[export] Hint Resolve malformed_Ok malformed_Err malformed_ok_or : malformed.

Ltac solve_malformed :=
  repeat first
    [ progress eauto with malformed
    | apply malformed_bind; [|intros ? ?]
    | match goal with |- malformed (if ?b then _ else _) => destruct b end
    | match goal with |- malformed (match ?b with _ => _ end) => destruct b end ].

Lemma token_member_malformed o n : malformed (token_member o n).
Proof. unfold token_member. destruct (obj_get o n); [apply malformed_bind|]; [apply malformed_ok_or|intros; apply malformed_Ok|apply malformed_Ok]. Qed.

Lemma check_required_malformed o ms : malformed (check_required o ms).
Proof. induction ms as [|[m req] ms IH]; simpl; solve_malformed. Qed.

Lemma read_ttl_malformed o : malformed (read_ttl o).
Proof. unfold read_ttl. solve_malformed. Qed.

Lemma read_part_malformed v : malformed (read_part v).
Proof. unfold read_part. solve_malformed. Qed.

#[export] Hint Resolve token_member_malformed check_required_malformed read_ttl_malformed
  read_part_malformed : malformed.

Lemma read_parts_malformed l : malformed (read_parts l).
Proof. induction l as [|x l IH]; simpl; solve_malformed. Qed.

Lemma read_security_malformed o : malformed (read_security o).
Proof. unfold read_security. solve_malformed. Qed.

#[export] Hint Resolve read_parts_malformed read_security_malformed : malformed.

Lemma structure_malformed octets o v : malformed (structure octets o v).
Proof. unfold structure. solve_malformed. Qed.

(** What envelope-stage validation guarantees of an accepted envelope. *)
Record envelope_ok (limits : EnvelopeLimits) (now : Timestamp) (octets : list Z) (e : Envelope) : Prop := {
  eo_octets : env_octets e = octets;
  eo_size : Z.of_nat (length octets) ≤ el_max_octets limits;
  eo_wire : parse octets = Ok (JObject (env_wire e));
  eo_null : contains_null (JObject (env_wire e)) = false;
  eo_version : obj_get (env_wire e) (bs "version") = Some (JString (Version_to_string (env_version e)));
  eo_major : major (env_version e) ∈ supported_majors limits;
  eo_id : obj_get (env_wire e) (bs "id") = Some (JString (env_id e)) ∧ is_token (env_id e) = true;
  eo_from : obj_get (env_wire e) (bs "from") = Some (JString (env_from e)) ∧ is_session_id (env_from e) = true;
  eo_to : obj_get (env_wire e) (bs "to") = Some (JString (env_to e)) ∧ is_session_id (env_to e) = true;
  eo_created : obj_get (env_wire e) (bs "created_at") = Some (JString (ts_text (env_created_at e))) ∧
               Timestamp_parse (ts_text (env_created_at e)) = Some (env_created_at e);
  eo_ttl : ∀ n, env_ttl_ms e = Some n → 1 ≤ n ≤ MAX_TTL_MS;
  eo_content : env_content e ≠ [] ∧ Forall (λ p, part_supported limits p = true) (env_content e);
  eo_security : ∃ sec, obj_get (env_wire e) (bs "security") = Some (JObject sec) ∧
    Forall (λ n, n ∈ SECURITY_MEMBERS) (obj_names sec) ∧
    get_str sec (bs "principal") = Some (sm_principal (env_security e)) ∧
    get_str sec (bs "key_id") = Some (sm_key_id (env_security e)) ∧
    get_str sec (bs "nonce") = Some (sm_nonce (env_security e)) ∧
    get_str sec (bs "signature") = Some (sm_signature (env_security e));
  eo_expiry : ∀ n, env_ttl_ms e = Some n →
    unix_nanos now < unix_nanos (env_created_at e) + n * 1000000 }.

Lemma token_member_Some o n t :
  token_member o n = Ok (Some t) → obj_get o n = Some (JString t) ∧ is_token t = true.
Proof.
  unfold token_member. destruct (obj_get o n) as [v|]; [|done]. intros H. inv_binds.
  destruct v; try done. match goal with H : as_str _ = Some _ |- _ => injection H as -> end.
  match goal with H : Token_parse _ = Some _ |- _ => unfold Token_parse, then_some in H; case_match; [|done]; by injection H as -> end.
Qed.

Lemma read_parts_nonempty l ps : read_parts l = Ok ps → length ps = length l.
Proof.
  revert ps. induction l as [|x l IH]; intros ps H; simpl in H; [by injection H as <-|].
  inv_binds. simpl. f_equal. by apply IH.
Qed.

Lemma read_ttl_Some o n : read_ttl o = Ok (Some n) → 1 ≤ n ≤ MAX_TTL_MS.
Proof.
  unfold read_ttl. destruct (obj_get o (bs "ttl_ms")); [|done]. intros H. inv_binds.
  match goal with H : plain_integer_in _ _ _ = Some _ |- _ => unfold plain_integer_in, then_some in H end.
  repeat case_match; try done. inv_binds. by apply in_range_true.
Qed.

Lemma get_str_Some o n s : get_str o n = Some s → obj_get o n = Some (JString s).
Proof. unfold get_str. intros H. inv_binds. by destruct x; simplify_eq/=. Qed.

Lemma read_security_Ok o m :
  read_security o = Ok m →
  ∃ sec, obj_get o (bs "security") = Some (JObject sec) ∧
    Forall (λ n, n ∈ SECURITY_MEMBERS) (obj_names sec) ∧
    get_str sec (bs "principal") = Some (sm_principal m) ∧
    get_str sec (bs "key_id") = Some (sm_key_id m) ∧
    get_str sec (bs "nonce") = Some (sm_nonce m) ∧
    get_str sec (bs "signature") = Some (sm_signature m).
Proof.
  unfold read_security. intros H. inv_binds.
  match goal with H : as_object ?v = Some ?s |- _ => destruct v; try discriminate H; injection H as -> end.
  eexists. split; [eassumption|]. split_and!; try assumption.
  match goal with H : existsb _ (obj_names _) = false |- _ =>
    apply (existsb_Forall_negb (λ n, existsb (beq n) SECURITY_MEMBERS)) in H; eapply Forall_impl; [exact H|] end.
  intros n Hn. simpl in Hn. unfold SECURITY_MEMBERS.
  repeat (apply orb_true_iff in Hn as [Hn|Hn]); try done; apply beq_true in Hn as ->; set_solver.
Qed.

Lemma structure_Ok octets o v e :
  structure octets o v = Ok e →
  env_octets e = octets ∧ env_wire e = o ∧ env_version e = v ∧
  contains_null (JObject o) = false ∧
  (obj_get o (bs "id") = Some (JString (env_id e)) ∧ is_token (env_id e) = true) ∧
  (obj_get o (bs "from") = Some (JString (env_from e)) ∧ is_session_id (env_from e) = true) ∧
  (obj_get o (bs "to") = Some (JString (env_to e)) ∧ is_session_id (env_to e) = true) ∧
  (obj_get o (bs "created_at") = Some (JString (ts_text (env_created_at e))) ∧
   Timestamp_parse (ts_text (env_created_at e)) = Some (env_created_at e)) ∧
  (∀ n, env_ttl_ms e = Some n → 1 ≤ n ≤ MAX_TTL_MS) ∧ env_content e ≠ [] ∧
  read_security o = Ok (env_security e).
Proof.
  unfold structure. intros H. inv_binds.
  repeat match goal with H : token_member o _ = Ok ?t, E : ?t = Some _ |- _ => rewrite E in H end.
  repeat match goal with H : token_member o _ = Ok (Some _) |- _ => apply token_member_Some in H as [??] end.
  repeat match goal with H : SessionId_parse _ = Some _ |- _ =>
    unfold SessionId_parse, then_some in H; case_match; [|discriminate H]; injection H as <- end.
  match goal with H : get_str o (bs "created_at") = Some _ |- _ => apply get_str_Some in H end.
  match goal with H : Timestamp_parse ?s = Some ?t |- _ => pose proof (Timestamp_parse_text _ _ H) as Htx end.
  cbn [env_octets env_wire env_version env_id env_from env_to env_created_at env_ttl_ms env_content env_security].
  split_and!; try done; try congruence.
  - by rewrite contains_null_object.
  - intros n ->. by eapply read_ttl_Some.
  - match goal with H : read_parts ?l = Ok ?ps, E : opt_filter _ _ = Some ?l |- ?ps ≠ [] =>
      apply read_parts_nonempty in H; unfold opt_filter in E; intros ->; destruct (obj_get o (bs "content")) as [c|]; [|discriminate E];
      cbn in E; destruct (as_array c); [|discriminate E]; case_match; [|discriminate E]; injection E as ->; bool_hyps; simpl in H; congruence end.
Qed.

Lemma receive_envelope_Ok octets limits now m :
  receive_envelope octets limits now = Ok m →
  cm_verified_by m = None ∧ envelope_ok limits now octets (cm_envelope m).
Proof.
  unfold receive_envelope. intros H. inv_binds. split; [done|]. cbn [cm_envelope].
  destruct (parse octets) as [v|] eqn:Hp; [|done]. simplify_eq/=.
  match goal with H : as_object ?v = Some ?s |- _ => destruct v; try discriminate H; injection H as -> end.
  match goal with H : structure _ _ _ = Ok _ |- _ =>
    apply structure_Ok in H as (Ho & Hw & Hv & Hnull & Hid & Hfrom & Hto & Hc & Httl & Hne & Hsec) end.
  match goal with H : get_str _ (bs "version") = Some _ |- _ => apply get_str_Some in H as Hver end.
  match goal with H : Version_parse _ = Some _ |- _ => apply Version_parse_iff in H as (Hma & Hmi & ->) end.
  match goal with H : negb (existsb (Z.eqb _) _) = false |- _ => apply negb_false_iff, existsb_eqb in H as Hmaj end.
  match goal with H : existsb _ (env_content _) = false |- _ => apply existsb_Forall_negb in H as Hparts end.
  constructor; try (by rewrite ?Hw, ?Hv); try done.
  - lia.
  - rewrite Hw. by apply read_security_Ok.
  - intros n Hn. match goal with H : is_expired_at _ now = false |- _ => unfold is_expired_at, expiry_unix_nanos in H; rewrite Hn in H; simpl in H end. lia.
Qed.

Lemma receive_envelope_Err octets limits now r :
  receive_envelope octets limits now = Err r →
  fits_receipt (rej_error r) (rej_state r) O_Receiver = true ∧
  ErrorCode_stage (rej_error r) = St_Envelope.
Proof.
  assert (∀ req, fits_receipt (rej_error (fail req)) (rej_state (fail req)) O_Receiver = true ∧
    ErrorCode_stage (rej_error (fail req)) = St_Envelope) as Hfail by done.
  unfold receive_envelope. destruct (_ <? _); [by intros [= <-]|].
  destruct (parse octets) as [v|]; [|by intros [= <-]]. cbn [map_err mbind result_bind].
  destruct (as_object v) as [o|]; [|by intros [= <-]]. cbn [ok_or mbind result_bind].
  destruct (get_str o (bs "version") ≫= Version_parse) as [ver|] eqn:E; cbn [mbind option_bind] in *; [|intros H; injection H as <-; apply Hfail].
  cbn [ok_or mbind result_bind]. destruct (negb _); [by intros [= <-]|].
  destruct (structure octets o ver) as [e|x] eqn:Es.
  - cbn [mbind result_bind]. destruct (existsb _ _); [by intros [= <-]|].
    destruct (is_expired_at e now); [by intros [= <-]|done].
  - intros [= <-]. destruct (structure_malformed _ _ _ _ Es) as [req ->]. apply Hfail.
Qed.

(** The verdict of envelope-stage validation: an accepted envelope has not been verified
    yet, is within the size limit, is the I-JSON object of the octets with no null in it, has
    a supported major version, well-formed identifiers and time read from its own members, a
    lifetime from 1 ms to 24 h that has not run out, at least one content part, all of
    supported types, and a security object of exactly the four defined string members; and a
    refusal carries an envelope-stage error code whose delivery state a receiver may report. *)
Theorem receive_envelope_verdict (octets : list Z) (limits : EnvelopeLimits) (now : Timestamp) :
  match receive_envelope octets limits now with
  | Ok m => cm_verified_by m = None ∧ envelope_ok limits now octets (cm_envelope m)
  | Err r =>
      fits_receipt (rej_error r) (rej_state r) O_Receiver = true ∧
      ErrorCode_stage (rej_error r) = St_Envelope
  end.
Proof.
  destruct (receive_envelope octets limits now) eqn:E;
    [by apply receive_envelope_Ok|by eapply receive_envelope_Err].
Qed.
