(* ===== verification/Keys.v ===== *)
(** * Device keys, public keys and the signing identity ([core/src/keys.rs])

    The public-key admission rule, the key store interface with the in-memory store, the
    device key and the identity that signs.  The cryptographic primitives ([ed25519-dalek],
    [sha2]) and the canonical writers ([serde_jcs]) are operations of the class [Crypto];
    what the code relies on about them is the class [CryptoLaws]. *)

From Stdlib Require Import SpecFloat.
From S2P Require Import Prelude Base64url Ids Utf8 Json JsonFacts JsonReader JsonText.
From S2P Require Import Delivery Canonical Capabilities Envelope.

(** ** Little-endian numbers *)

Fixpoint le_value (l : list Z) : Z :=
  match l with [] => 0 | b :: r => b + 256 * le_value r end.

Lemma le_value_app a b : le_value (a ++ b) = le_value a + 256 ^ Z.of_nat (length a) * le_value b.
Proof.
  induction a as [|x a IH]; simpl; [change (256 ^ Z.of_nat 0) with 1; lia|].
  rewrite IH, Nat2Z.inj_succ, Z.pow_succ_r by lia. lia.
Qed.

Lemma le_value_bound l : Forall is_u8 l → 0 ≤ le_value l < 256 ^ Z.of_nat (length l).
Proof.
  induction 1 as [|b l Hb Hl IH]; simpl; [change (256 ^ Z.of_nat 0) with 1; lia|].
  rewrite Nat2Z.inj_succ, Z.pow_succ_r by lia. unfold is_u8 in Hb. lia.
Qed.

Lemma le_value_max l :
  Forall is_u8 l → (forallb (Z.eqb 255) l = true ↔ le_value l = 256 ^ Z.of_nat (length l) - 1).
Proof.
  induction 1 as [|b l Hb Hl IH]; cbn [forallb le_value length]; [change (256 ^ Z.of_nat 0) with 1; done|].
  rewrite Nat2Z.inj_succ, Z.pow_succ_r, andb_true_iff, IH, Z.eqb_eq by lia.
  pose proof (le_value_bound l Hl). unfold is_u8 in Hb. lia.
Qed.

(** ** The primitives *)

Class Crypto := {
  jcs_string : list Z → result (list Z) (list Z);
  jcs_f64 : spec_float → result (list Z) (list Z);
  sha256 : list Z → list Z;
  (** [SigningKey::from_bytes(seed).verifying_key().to_bytes()] *)
  ed_public : list Z → list Z;
  (** [VerifyingKey::from_bytes(octets).is_ok()] and [VerifyingKey::is_weak] *)
  ed_decodes : list Z → bool;
  ed_is_weak : list Z → bool;
  ed_sign : list Z → list Z → list Z;
  (** [VerifyingKey::verify_strict(message, signature).is_ok()] *)
  ed_verify_strict : list Z → list Z → list Z → bool }.

(** The order of the Ed25519 base point (RFC 8032, section 5.1). *)
Definition ORDER_L : Z := 2 ^ 252 + 27742317777372353535851937790883648493.

(** ** Public keys *)

Definition y_is_canonical (octets : list Z) : bool :=
  let top := Z.land (default 0 (octets !! 31%nat)) 127 in
  negb ((top =? 127) && forallb (Z.eqb 255) (slice 1 31 octets) &&
        (237 <=? default 0 (octets !! 0%nat))).

Record PublicKey := mkPublicKey { pk_octets : list Z }.

#[export] Instance PublicKey_eq_dec : EqDecision PublicKey.
Proof. solve_decision. Defined.

(** [u8] written as two lower-case hexadecimal digits: [format!("{b:02x}")]. *)
Definition hex2 (b : Z) : list Z := [hex_digit (b / 16); hex_digit (b mod 16)].

(** What the code relies on: documented behaviour of the crates. *)
Class CryptoLaws (C : Crypto) := {
  jcs_string_ok : ∀ s, ∃ t, jcs_string s = Ok t;
  jcs_f64_ok : ∀ x, is_finite x = true → ∃ t, jcs_f64 x = Ok t;
  sha256_len : ∀ m, length (sha256 m) = 32%nat;
  sha256_u8 : ∀ m, Forall is_u8 (sha256 m);
  ed_public_len : ∀ seed, length seed = 32%nat → length (ed_public seed) = 32%nat;
  ed_public_u8 : ∀ seed, length seed = 32%nat → Forall is_u8 (ed_public seed);
  ed_public_canonical : ∀ seed, length seed = 32%nat →
    y_is_canonical (ed_public seed) = true ∧ ed_decodes (ed_public seed) = true ∧
    ed_is_weak (ed_public seed) = false;
  ed_sign_len : ∀ seed m, length (ed_sign seed m) = 64%nat;
  ed_sign_u8 : ∀ seed m, Forall is_u8 (ed_sign seed m);
  ed_sign_reduced : ∀ seed m, le_value (drop 32 (ed_sign seed m)) < ORDER_L;
  ed_sign_verifies : ∀ seed m, length seed = 32%nat →
    ed_verify_strict (ed_public seed) m (ed_sign seed m) = true }.

Section Keys.
Context `{C : Crypto}.

Definition PublicKey_from_octets (octets : list Z) : option PublicKey :=
  if negb (y_is_canonical octets) then None
  else if negb (ed_decodes octets) then None
  else if ed_is_weak octets then None
  else Some (mkPublicKey octets).

Definition PublicKey_from_base64url (s : list Z) : option PublicKey :=
  octets ← decode_exact 32 s; PublicKey_from_octets octets.

Definition to_base64url (k : PublicKey) : list Z := encode (pk_octets k).

(** [PublicKey::key_id] before the [expect]. *)
Definition key_id_text (k : PublicKey) : list Z := mjoin (map hex2 (sha256 (pk_octets k))).

Definition key_id (k : PublicKey) : KeyId := default [] (KeyId_parse (key_id_text k)).

(** ** Trusted keys ([core/src/trust.rs]) *)

Record TrustedKey := mkTrusted { tk_principal : Token; tk_key_id : KeyId; tk_public_key : PublicKey }.

Definition TrustedKey_new (principal : Token) (public_key : PublicKey) : TrustedKey :=
  mkTrusted principal (key_id public_key) public_key.

Definition security_principal (t : TrustedKey) : SecurityPrincipal :=
  mkPrincipal (tk_principal t) (tk_key_id t).

(** ** Seeds and key stores *)

Inductive KeyStoreError : Type :=
| Unavailable (e : string)
| Locked (e : string)
| Corrupt (e : string)
| Failed (e : string).

Definition SecretSeed_from_slice (octets : list Z) : option (list Z) :=
  if negb (bool_decide (length octets = 32%nat)) then None else Some octets.

(** The trait [KeyStore] over a store state: [load] reads it, [save] may change it. *)
Record KeyStore (S : Type) := mkKeyStore {
  ks_load : S → result KeyStoreError (option (list Z));
  ks_save : list Z → S → result KeyStoreError unit * S }.

(** [MemoryKeyStore], whose state is the slot. *)
Definition memory_load (slot : option (list Z)) : result KeyStoreError (option (list Z)) := Ok slot.

Definition memory_save (seed : list Z) (slot : option (list Z))
    : result KeyStoreError unit * option (list Z) :=
  match slot with
  | Some _ => (Err (Failed "a device key is already stored"), slot)
  | None => (Ok tt, Some seed)
  end.

Definition MemoryKeyStore : KeyStore (option (list Z)) := mkKeyStore _ memory_load memory_save.

(** ** Device keys *)

Record DeviceKey := mkDeviceKey { dk_seed : list Z; dk_public : PublicKey }.

(** [DeviceKey::from_seed]; [None] is the [expect] on the derived public key. *)
Definition DeviceKey_from_seed (seed : list Z) : option DeviceKey :=
  mkDeviceKey seed <$> PublicKey_from_octets (ed_public seed).

(** [DeviceKey::load_or_generate] with the fresh seed as an argument: the inner [option] is
    the panic of [from_seed]. *)
Definition load_or_generate {S} (ks : KeyStore S) (fresh : list Z) (s : S)
    : result KeyStoreError (option DeviceKey) * S :=
  match ks_load S ks s with
  | Err e => (Err e, s)
  | Ok (Some seed) => (Ok (DeviceKey_from_seed seed), s)
  | Ok None =>
      match ks_save S ks fresh s with
      | (Err e, s) => (Err e, s)
      | (Ok _, s) =>
          match ks_load S ks s with
          | Err e => (Err e, s)
          | Ok (Some back) =>
              if beq back fresh then (Ok (DeviceKey_from_seed fresh), s)
              else (Err (Failed "the saved device key did not read back"), s)
          | Ok None => (Err (Failed "the saved device key did not read back"), s)
          end
      end
  end.

Definition sign (k : DeviceKey) (message : list Z) : list Z := ed_sign (dk_seed k) message.

(** ** The device identity *)

Record DeviceIdentity := mkIdentity { di_key : DeviceKey; di_entry : TrustedKey }.

Definition DeviceIdentity_new (key : DeviceKey) (principal : Token) : DeviceIdentity :=
  mkIdentity key (TrustedKey_new principal (dk_public key)).

Definition identity_principal (d : DeviceIdentity) : SecurityPrincipal := security_principal (di_entry d).

(** [sign_envelope_with_nonce]; [None] is the [expect] on the signing input. *)
Definition sign_envelope_with_nonce (d : DeviceIdentity) (draft : EnvelopeDraft) (nonce : list Z)
    : option Envelope :=
  let signer := identity_principal d in
  match draft_signing_input jcs_string jcs_f64 draft signer nonce with
  | Err _ => None
  | Ok input =>
      let signature := Signature_from_octets (sign (di_key d) input) in
      Some (seal draft signer nonce signature)
  end.

(** [sign_envelope], with the sixteen random octets as an argument. *)
Definition sign_envelope (d : DeviceIdentity) (draft : EnvelopeDraft) (random : list Z) : option Envelope :=
  sign_envelope_with_nonce d draft (Nonce_from_octets random).

Definition sign_object (d : DeviceIdentity) (domain : SigningDomain) (obj : JsonObject)
    : result CanonicalError (list Z) :=
  input ← signing_input jcs_string jcs_f64 domain obj;
  Ok (Signature_from_octets (sign (di_key d) input)).
End Keys.

(** ** Facts *)

(** The public-key check reads the encoding as it claims: for 32 octets, it refuses exactly
    the encodings whose y-coordinate, the little-endian value without the sign bit, is not
    below p = 2^255 - 19. *)
Lemma y_canonical (octets : list Z) :
  length octets = 32%nat → Forall is_u8 octets →
  y_is_canonical octets = true ↔ le_value octets mod 2 ^ 255 < 2 ^ 255 - 19.
Proof.
  intros Hlen Hu. destruct octets as [|lo rest]; [done|]. simpl in Hlen.
  assert (∃ mid top, rest = mid ++ [top] ∧ length mid = 30%nat) as (mid & top & -> & Hmid).
  { destruct rest as [|x r] using rev_ind; [done|]. exists r, x. rewrite length_app in Hlen. simpl in Hlen. split; [done|lia]. }
  apply Forall_cons in Hu as [Hlo Hu]. apply Forall_app in Hu as [Hm Ht]. apply Forall_singleton in Ht.
  unfold y_is_canonical. replace (slice 1 31 (lo :: mid ++ [top])) with mid.
  2: { unfold slice. simpl. rewrite drop_0, take_app_le, take_ge; lia || done. }
  assert ((lo :: mid ++ [top]) !! 31%nat = Some top) as ->.
  { simpl. rewrite lookup_app_r, Hmid by lia. done. }
  simpl default. rewrite negb_true_iff.
  change (Z.land top 127) with (Z.land top (2 ^ 7 - 1)). rewrite land_mask by lia. change (2 ^ 7) with 128.
  pose proof (le_value_max mid Hm) as Hmax. pose proof (le_value_bound mid Hm) as Hb. rewrite Hmid in Hmax, Hb.
  cbn [le_value]. rewrite le_value_app, Hmid. simpl le_value.
  change (256 ^ Z.of_nat 30) with (2 ^ 240) in *. unfold is_u8 in *.
  assert ((lo + 256 * (le_value mid + 2 ^ 240 * (top + 256 * 0))) mod 2 ^ 255 =
          lo + 256 * le_value mid + 2 ^ 248 * (top mod 128)) as ->.
  { symmetry. apply (Z.mod_unique _ _ (top / 128)); change (2 ^ 248) with (256 * 2 ^ 240); change (2 ^ 255) with (32768 * 2 ^ 240);
    dlia. }
  change (2 ^ 248) with (256 * 2 ^ 240). change (2 ^ 255) with (32768 * 2 ^ 240).
  assert (0 ≤ top mod 128 < 128) by dlia.
  rewrite !andb_false_iff, Z.eqb_neq, Z.leb_gt.
  assert (forallb (Z.eqb 255) mid = false ↔ le_value mid ≠ 2 ^ 240 - 1) as Hf.
  { rewrite <- Hmax. by destruct (forallb _ mid). }
  rewrite Hf. generalize dependent (2 ^ 240). intros P. intros. nia.
Qed.

Section KeyFacts.
Context {C : Crypto} {HC : CryptoLaws C}.

Lemma hex_digit_ok d : 0 ≤ d < 16 → is_ascii_digit (hex_digit d) || in_range 97 102 (hex_digit d) = true.
Proof.
  intros Hd. unfold hex_digit, is_ascii_digit, in_range. destruct (d <? 10) eqn:E; bool_hyps; lia.
Qed.

Lemma hex_ok l :
  Forall is_u8 l → length (mjoin (map hex2 l)) = (2 * length l)%nat ∧
  forallb (λ b, is_ascii_digit b || in_range 97 102 b) (mjoin (map hex2 l)) = true.
Proof.
  induction 1 as [|b l Hb Hl [IH1 IH2]]; [done|]. unfold is_u8 in Hb. split.
  - simpl in *. lia.
  - simpl. rewrite !hex_digit_ok by dlia. exact IH2.
Qed.

(** The [expect] of [PublicKey::key_id] never fires. *)
Lemma key_id_parse k : KeyId_parse (key_id_text k) = Some (key_id k) ∧ KeyId_parse (key_id k) = Some (key_id k).
Proof.
  unfold key_id. destruct (hex_ok (sha256 (pk_octets k)) (sha256_u8 _)) as [H1 H2].
  rewrite sha256_len in H1. fold (key_id_text k) in H1, H2.
  assert (KeyId_parse (key_id_text k) = Some (key_id_text k)) as E.
  { unfold KeyId_parse, then_some. rewrite H1, bool_decide_true by done. by rewrite H2. }
  by rewrite E.
Qed.

Lemma DeviceKey_from_seed_ok seed :
  length seed = 32%nat → DeviceKey_from_seed seed = Some (mkDeviceKey seed (mkPublicKey (ed_public seed))).
Proof.
  intros Hl. destruct (ed_public_canonical seed Hl) as (H1 & H2 & H3).
  unfold DeviceKey_from_seed, PublicKey_from_octets. by rewrite H1, H2, H3.
Qed.
End KeyFacts.

(** A device keeps one key: whatever the key store does, when [load_or_generate]
    succeeds, the store then holds the seed of the key it returned, so a later call finds
    that key, returns it again whatever seed would be fresh then, and changes nothing; and a
    key already in the store is returned, never replaced. *)
Theorem device_keeps_one_key `{C : Crypto} {S : Type} (ks : KeyStore S) (fresh fresh' : list Z)
    (s s' : S) (k : option DeviceKey) :
  load_or_generate ks fresh s = (Ok k, s') →
  (∃ seed, ks_load S ks s' = Ok (Some seed) ∧ k = DeviceKey_from_seed seed) ∧
  load_or_generate ks fresh' s' = (Ok k, s') ∧
  (∀ seed, ks_load S ks s = Ok (Some seed) → s' = s ∧ k = DeviceKey_from_seed seed).
Proof.
  unfold load_or_generate at 1. intros H.
  assert (∃ seed, ks_load S ks s' = Ok (Some seed) ∧ k = DeviceKey_from_seed seed) as Hs.
  { destruct (ks_load S ks s) as [[seed|]|] eqn:E1; [injection H as <- <-; eauto| |done].
    destruct (ks_save S ks fresh s) as [[]  s1]; [|done].
    destruct (ks_load S ks s1) as [[back|]|] eqn:E2; [|done|done].
    destruct (beq back fresh) eqn:Eb; [|done]. apply beq_true in Eb as ->.
    injection H as <- <-. eauto. }
  split; [done|]. split.
  - destruct Hs as (seed & Hl & ->). unfold load_or_generate. by rewrite Hl.
  - intros seed E. rewrite E in H. by injection H as <- <-.
Qed.

(** Primitives for the witnesses: every signature is the same and verifies. *)
#[local] Instance sample_crypto : Crypto := {|
  jcs_string := sample_jcs_string;
  jcs_f64 := sample_jcs_f64;
  sha256 := λ _, replicate 32 7;
  ed_public := λ _, replicate 32 5;
  ed_decodes := λ _, true;
  ed_is_weak := λ _, false;
  ed_sign := λ _ _, replicate 64 1;
  ed_verify_strict := λ _ _ s, bool_decide (s = replicate 64 1) |}.

Definition sample : Crypto := sample_crypto.

Lemma device_keeps_one_key_witness :
  load_or_generate (C := sample) MemoryKeyStore (replicate 32 1)
    (snd (load_or_generate (C := sample) MemoryKeyStore (replicate 32 3) None)) =
  (Ok (DeviceKey_from_seed (C := sample) (replicate 32 3)), Some (replicate 32 3)).
Proof.
  apply (device_keeps_one_key (C := sample) MemoryKeyStore (replicate 32 3) (replicate 32 1) None
    (Some (replicate 32 3)) (DeviceKey_from_seed (C := sample) (replicate 32 3))).
  vm_compute. reflexivity.
Defined.

Lemma sample_laws : CryptoLaws sample.
Proof.
  assert (∀ n, Forall is_u8 (replicate n 7) ∧ Forall is_u8 (replicate n 5) ∧ Forall is_u8 (replicate n 1)) as Hu.
  { intros n. split_and!; apply Forall_replicate; unfold is_u8; lia. }
  constructor; unfold sample; simpl; try done; intros.
  - unfold sample_jcs_string. eauto.
  - unfold sample_jcs_f64. eauto.
  - apply (Hu 32%nat).
  - apply (Hu 32%nat).
  - apply (Hu 64%nat).
Qed.
