(* ===== verification/Trust.v ===== *)
(** * The trusted key set ([core/src/trust.rs])

    The keys an implementation accepts signatures from, as a map from key id to entry, with
    key resolution, pairing additions and removal. *)

From S2P Require Import Prelude Base64url Ids Utf8 Json JsonFacts JsonReader JsonText.
From S2P Require Import Delivery Canonical Capabilities Envelope Keys.

Section Trust.
Context `{C : Crypto}.

Inductive AddKeyError : Type := AlreadyTrusted (principal : Token).

Record TrustedKeySet := mkKeySet { ts_entries : gmap (list Z) TrustedKey }.

Definition TrustedKeySet_new (own : DeviceIdentity) : TrustedKeySet :=
  mkKeySet {[ tk_key_id (di_entry own) := di_entry own ]}.

Definition add_paired_key (principal : Token) (public_key : PublicKey) (s : TrustedKeySet)
    : result AddKeyError TrustedKey * TrustedKeySet :=
  let entry := TrustedKey_new principal public_key in
  match ts_entries s !! tk_key_id entry with
  | Some existing => (Err (AlreadyTrusted (tk_principal existing)), s)
  | None => (Ok entry, mkKeySet (<[ tk_key_id entry := entry ]> (ts_entries s)))
  end.

Definition resolve (s : TrustedKeySet) (principal key_id : list Z) : option TrustedKey :=
  principal ← Token_parse principal;
  key_id ← KeyId_parse key_id;
  opt_filter (λ e, beq (tk_principal e) principal) (ts_entries s !! key_id).

Definition keyset_remove (key_id : KeyId) (s : TrustedKeySet) : option TrustedKey * TrustedKeySet :=
  (ts_entries s !! key_id, mkKeySet (delete key_id (ts_entries s))).

Definition keyset_get (s : TrustedKeySet) (key_id : KeyId) : option TrustedKey := ts_entries s !! key_id.

(** ** The invariant

    Every entry is filed under the key id of its own public key, and its principal is a
    token. *)
Definition keyset_inv (s : TrustedKeySet) : Prop :=
  map_Forall (λ id e, id = tk_key_id e ∧ tk_key_id e = key_id (tk_public_key e) ∧
                      is_token (tk_principal e) = true) (ts_entries s).

(** The operations on a set, and the sets they reach from a device's own. *)
Inductive keyset_op : Type :=
| OpAdd (principal : Token) (public_key : PublicKey)
| OpRemove (id : KeyId).

Definition run_op (o : keyset_op) (s : TrustedKeySet) : TrustedKeySet :=
  match o with
  | OpAdd p k => (add_paired_key p k s).2
  | OpRemove id => (keyset_remove id s).2
  end.

Definition op_ok (o : keyset_op) : Prop :=
  match o with OpAdd p _ => is_token p = true | OpRemove _ => True end.

Lemma run_op_inv o s : op_ok o → keyset_inv s → keyset_inv (run_op o s).
Proof.
  intros Ho Hs. destruct o as [p k|id]; simpl.
  - unfold add_paired_key. simpl. destruct (ts_entries s !! key_id k) eqn:E; simpl; [done|].
    by apply map_Forall_insert_2.
  - unfold keyset_inv, keyset_remove. simpl. by apply map_Forall_delete.
Qed.

Lemma run_ops_inv ops s :
  Forall op_ok ops → keyset_inv s → keyset_inv (foldl (λ s o, run_op o s) s ops).
Proof.
  intros Ho. revert s. induction Ho as [|o ops Ho Hops IH]; intros s Hs; simpl; [done|].
  by apply IH, run_op_inv.
Qed.

(** An identity whose entry is for its own key under a token. *)
Definition identity_ok (d : DeviceIdentity) : Prop :=
  di_entry d = TrustedKey_new (tk_principal (di_entry d)) (dk_public (di_key d)) ∧
  is_token (tk_principal (di_entry d)) = true.

Lemma keyset_new_inv d : identity_ok d → keyset_inv (TrustedKeySet_new d).
Proof.
  intros [He Ht]. unfold keyset_inv, TrustedKeySet_new. simpl. apply map_Forall_singleton.
  split_and!; [done| |done]. by rewrite He at 1 2.
Qed.

Lemma resolve_Some s p id e :
  keyset_inv s → resolve s p id = Some e →
  tk_principal e = p ∧ tk_key_id e = id ∧ ts_entries s !! id = Some e ∧
  id = key_id (tk_public_key e).
Proof.
  intros Hs H. unfold resolve in H. inv_binds.
  unfold Token_parse, KeyId_parse, then_some in *. repeat case_match; try done. inv_binds.
  unfold opt_filter in H. repeat case_match; try done. inv_binds.
  match goal with H : beq _ _ = true |- _ => apply beq_true in H end.
  match goal with H : ts_entries s !! _ = Some e |- _ => destruct (Hs _ _ H) as (-> & ? & ?) end. done.
Qed.
End Trust.

(** The trusted key set only ever resolves keys to themselves: after any sequence of
    pairing additions and removals from a device's own set, resolving a principal and a key
    id finds an entry only under exactly those two values, and the key id is the digest of
    the entry's own public key; adding a key that is already there is refused and changes
    nothing. *)
Theorem keyset_resolves_own_keys `{C : Crypto} (own : DeviceIdentity) (ops : list keyset_op)
    (p id : list Z) (e : TrustedKey) :
  identity_ok own → Forall op_ok ops →
  let s := foldl (λ s o, run_op o s) (TrustedKeySet_new own) ops in
  (resolve s p id = Some e →
   tk_principal e = p ∧ tk_key_id e = id ∧ id = key_id (tk_public_key e)) ∧
  (ts_entries s !! key_id (tk_public_key e) = Some e →
   ∀ p', add_paired_key p' (tk_public_key e) s = (Err (AlreadyTrusted (tk_principal e)), s)).
Proof.
  intros Hown Hops s. assert (keyset_inv s) as Hs by (apply run_ops_inv, keyset_new_inv; done).
  split.
  - intros H. apply (resolve_Some s p id e Hs) in H. tauto.
  - intros H p'. unfold add_paired_key. simpl. by rewrite H.
Qed.

Definition sample_key : DeviceKey := mkDeviceKey (replicate 32 3) (mkPublicKey (replicate 32 5)).
Definition sample_identity : DeviceIdentity := DeviceIdentity_new (C := sample) sample_key (bs "alice").

Lemma keyset_resolves_own_keys_witness :
  resolve (TrustedKeySet_new sample_identity) (bs "alice") (mjoin (replicate 32 (bs "07"))) =
    Some (di_entry sample_identity) ∧
  tk_principal (di_entry sample_identity) = bs "alice".
Proof.
  assert (resolve (TrustedKeySet_new sample_identity) (bs "alice") (mjoin (replicate 32 (bs "07"))) =
    Some (di_entry sample_identity)) as H by (vm_compute; reflexivity).
  split; [exact H|].
  apply (proj1 (keyset_resolves_own_keys (C := sample) sample_identity [] (bs "alice")
    (mjoin (replicate 32 (bs "07"))) (di_entry sample_identity)
    ltac:(split; vm_compute; reflexivity) (@Forall_nil_2 _ _)) H).
Defined.
