(* ===== verification/Signing.v ===== *)
(** * Signature verification and authentication ([core/src/signing.rs])

    Verification of a signed object against the trusted key set, in the order of its checks,
    and the first two steps of the security stage. *)

From Stdlib Require Import SpecFloat.
From S2P Require Import Prelude Base64url Ids Utf8 Json JsonFacts JsonReader JsonText.
From S2P Require Import Delivery Canonical Capabilities Envelope EnvelopeFacts Keys Trust.

Definition security_members (domain : SigningDomain) : list (list Z) :=
  match domain with
  | Dom_Envelope => [bs "principal"; bs "key_id"; bs "nonce"; bs "signature"]
  | _ => [bs "principal"; bs "key_id"; bs "signature"]
  end.

Inductive VerifyError : Type := MalformedSecurity | UnknownKey | SignatureInvalid.

(** [ED25519_L], little-endian. *)
Definition ED25519_L : list Z :=
  [237; 211; 245; 92; 26; 99; 18; 88; 214; 156; 247; 162; 222; 249; 222; 20;
   0; 0; 0; 0; 0; 0; 0; 0; 0; 0; 0; 0; 0; 0; 0; 16].

(** The loop of [scalar_is_reduced] from octet [n - 1] down. *)
Fixpoint scalar_loop (n : nat) (s : list Z) : bool :=
  match n with
  | O => false
  | S i =>
      let a := default 0 (s !! i) in
      let l := default 0 (ED25519_L !! i) in
      if negb (a =? l) then a <? l else scalar_loop i s
  end.

Definition scalar_is_reduced (s : list Z) : bool := scalar_loop 32 s.

Record SecurityRejection := mkSecurityRejection {
  sr_state : DeliveryState; sr_error : ErrorCode; sr_requirement : string }.

Section Signing.
Context `{C : Crypto}.

Definition verify_with_requirement (keys : TrustedKeySet) (domain : SigningDomain) (obj : JsonObject)
    : result (VerifyError * string) TrustedKey :=
  let malformed := (MalformedSecurity, "SC-ENV-070"%string) in
  sec ← ok_or (v ← obj_get obj (bs "security"); as_object v) malformed;
  let members := security_members domain in
  if negb (bool_decide (length sec = length members)) ||
     existsb (λ m, negb (obj_contains sec m)) members
  then Err malformed
  else
    let member m := ok_or (get_str sec m) malformed in
    principal ← member (bs "principal");
    key_id ← member (bs "key_id");
    signature ← member (bs "signature");
    nonce ← (match domain with
             | Dom_Envelope => n ← member (bs "nonce"); Ok (Some n)
             | _ => Ok None
             end);
    let invalid req := (SignatureInvalid, req) in
    entry ← ok_or (resolve keys principal key_id) (UnknownKey, "SEC-KEY-030"%string);
    if (match nonce with Some n => negb (is_some (decode_exact 16 n)) | None => false end)
    then Err (invalid "SEC-SIG-003"%string)
    else
      octets ← ok_or (decode_exact 64 signature) (invalid "SEC-SIG-004"%string);
      input ← map_err (λ _, invalid "SEC-SIG-013"%string)
                (signing_input jcs_string jcs_f64 domain obj);
      if negb (scalar_is_reduced (drop 32 octets)) then Err (invalid "SEC-SIG-021"%string)
      else if negb (ed_verify_strict (pk_octets (tk_public_key entry)) input octets)
      then Err (invalid "SEC-SIG-024"%string)
      else Ok entry.

Definition verify_signed (keys : TrustedKeySet) (domain : SigningDomain) (obj : JsonObject)
    : result VerifyError TrustedKey :=
  map_err fst (verify_with_requirement keys domain obj).

Definition authenticate (msg : ChannelMessage) (keys : TrustedKeySet)
    : result SecurityRejection ChannelMessage :=
  let reject error requirement := mkSecurityRejection D_Rejected error requirement in
  match verify_with_requirement keys Dom_Envelope (env_wire (cm_envelope msg)) with
  | Ok entry => Ok (verified msg (security_principal entry))
  | Err (UnknownKey, req) => Err (reject E_UnknownKey req)
  | Err (SignatureInvalid, req) => Err (reject E_SignatureInvalid req)
  | Err (MalformedSecurity, req) => Err (reject E_MalformedEnvelope req)
  end.
End Signing.

(** ** The scalar comparison *)

Lemma take_S_snoc (l : list Z) i b : l !! i = Some b → take (S i) l = take i l ++ [b].
Proof. intros H. by apply take_S_r. Qed.

Lemma scalar_loop_spec n s :
  length s = 32%nat → Forall is_u8 s → (n ≤ 32)%nat →
  scalar_loop n s = true ↔ le_value (take n s) < le_value (take n ED25519_L).
Proof.
  intros Hlen Hu. assert (Forall is_u8 ED25519_L) as HL.
  { apply Forall_forall. intros b Hb. unfold is_u8.
    repeat (apply elem_of_cons in Hb as [->|Hb]; [lia|]). by apply elem_of_nil in Hb. }
  induction n as [|i IH]; intros Hn; [simpl; lia|].
  destruct (lookup_lt_is_Some_2 s i) as [a Ha]; [lia|].
  destruct (lookup_lt_is_Some_2 ED25519_L i) as [l Hl]; [simpl; lia|].
  rewrite (take_S_snoc s i a Ha), (take_S_snoc _ i l Hl), !le_value_app, !length_take.
  replace (i `min` length s)%nat with i by lia.
  replace (i `min` length ED25519_L)%nat with i by (simpl; lia).
  pose proof (le_value_bound (take i s) (Forall_take _ _ _ Hu)) as H1.
  pose proof (le_value_bound (take i ED25519_L) (Forall_take _ _ _ HL)) as H2.
  rewrite length_take in H1, H2.
  replace (i `min` length s)%nat with i in H1 by lia.
  replace (i `min` length ED25519_L)%nat with i in H2 by (simpl; lia).
  simpl scalar_loop. rewrite Ha, Hl. simpl default. simpl le_value.
  destruct (a =? l) eqn:E; bool_hyps; simpl negb; cbv iota.
  - subst. rewrite IH by lia. lia.
  - rewrite Z.ltb_lt. nia.
Qed.

Lemma scalar_reduced_iff s :
  length s = 32%nat → Forall is_u8 s →
  scalar_is_reduced s = true ↔ le_value s < ORDER_L.
Proof.
  intros Hl Hu. unfold scalar_is_reduced. rewrite scalar_loop_spec by (done || lia).
  rewrite take_ge by lia. by change (le_value (take 32 ED25519_L)) with ORDER_L.
Qed.

(** The scalar check is the comparison it stands for: on a 32-octet scalar,
    [scalar_is_reduced] holds exactly when the little-endian value is below the order L of
    the Ed25519 base point. *)
Theorem scalar_is_reduced_spec (s : list Z) :
  length s = 32%nat → Forall is_u8 s →
  scalar_is_reduced s = true ↔ le_value s < ORDER_L.
Proof. apply scalar_reduced_iff. Qed.

Lemma scalar_is_reduced_spec_witness :
  scalar_is_reduced ED25519_L = false ∧ scalar_is_reduced (236 :: tail ED25519_L) = true.
Proof.
  split; [vm_compute; reflexivity|].
  apply (scalar_is_reduced_spec (236 :: tail ED25519_L)).
  - reflexivity.
  - apply Forall_forall. intros b Hb. unfold is_u8.
    repeat (apply elem_of_cons in Hb as [->|Hb]; [lia|]). apply elem_of_nil in Hb. destruct Hb.
  - vm_compute. reflexivity.
Defined.

(** ** What verification establishes *)

Section Facts.
Context {C : Crypto}.

(** A verified object: its security member names the entry, and the entry's key accepted the
    signature over the signing input. *)
Definition verified_under (keys : TrustedKeySet) (domain : SigningDomain) (obj : JsonObject)
    (entry : TrustedKey) : Prop :=
  ∃ sec signature octets input,
    obj_get obj (bs "security") = Some (JObject sec) ∧
    length sec = length (security_members domain) ∧
    get_str sec (bs "principal") = Some (tk_principal entry) ∧
    get_str sec (bs "key_id") = Some (tk_key_id entry) ∧
    ts_entries keys !! tk_key_id entry = Some entry ∧
    get_str sec (bs "signature") = Some signature ∧ decode_exact 64 signature = Some octets ∧
    (domain = Dom_Envelope → ∃ nonce n, get_str sec (bs "nonce") = Some nonce ∧ decode_exact 16 nonce = Some n) ∧
    signing_input jcs_string jcs_f64 domain obj = Ok input ∧
    le_value (drop 32 octets) < ORDER_L ∧
    ed_verify_strict (pk_octets (tk_public_key entry)) input octets = true.

Lemma decode_exact_length N s o : decode_exact N s = Some o → length o = N ∧ Forall is_u8 o.
Proof. intros H. apply Base64url.decode_exact_canonical in H. tauto. Qed.

Lemma verify_Ok keys domain obj entry :
  keyset_inv keys → verify_with_requirement keys domain obj = Ok entry →
  verified_under keys domain obj entry.
Proof.
  intros Hk H. unfold verify_with_requirement in H. inv_binds.
  match goal with H : as_object ?v = Some ?s |- _ => destruct v; try discriminate H; injection H as -> end.
  match goal with H : resolve _ _ _ = Some entry |- _ => apply (resolve_Some _ _ _ _ Hk) in H as (<- & <- & He & _) end.
  match goal with H : _ || _ = false |- _ => apply orb_false_iff in H as [Hlen _]; apply negb_false_iff, bool_decide_eq_true in Hlen end.
  match goal with H : map_err _ _ = Ok ?i |- _ => destruct (signing_input jcs_string jcs_f64 domain obj) eqn:Hin; [|discriminate H]; injection H as -> end.
  match goal with H : decode_exact 64 _ = Some ?o |- _ => pose proof (decode_exact_length _ _ _ H) as [Ho Hu] end.
  eexists _, _, _, _. split_and!; try eassumption; try done.
  - intros ->. inv_binds. eexists. match goal with H : get_str _ (bs "nonce") = Some ?n |- _ => rewrite H end.
    match goal with H : negb (is_some (decode_exact 16 ?n)) = false |- _ => destruct (decode_exact 16 n) eqn:?; [|discriminate H] end. eauto.
  - match goal with H : negb (scalar_is_reduced _) = false |- _ => apply negb_false_iff in H; apply scalar_reduced_iff in H end; [done| |].
    + rewrite length_drop. lia.
    + by apply Forall_drop.
  - by apply negb_false_iff.
Qed.
End Facts.

Section SignVerify.
Context {C : Crypto} {HC : CryptoLaws C}.

(** The security member a device signs with passes every check of verification up to the
    signature, which the primitives' laws accept. *)
Lemma verify_sealed (own : DeviceIdentity) keys draft random input :
  identity_ok own → dk_public (di_key own) = mkPublicKey (ed_public (dk_seed (di_key own))) →
  length (dk_seed (di_key own)) = 32%nat →
  ts_entries keys !! tk_key_id (di_entry own) = Some (di_entry own) →
  length random = 16%nat → Forall is_u8 random →
  let nonce := Nonce_from_octets random in
  draft_signing_input jcs_string jcs_f64 draft (identity_principal own) nonce = Ok input →
  let signature := Signature_from_octets (sign (di_key own) input) in
  verify_with_requirement keys Dom_Envelope
    (draft_wire draft (sealed_security (identity_principal own) nonce signature)) = Ok (di_entry own).
Proof.
  intros [He Ht] Hpub Hseed Hk Hrl Hru nonce Hin signature.
  assert (KeyId_parse (tk_key_id (di_entry own)) = Some (tk_key_id (di_entry own))) as Hkid.
  { rewrite He. simpl. apply key_id_parse. }
  assert (decode_exact 16 nonce = Some random) as Hn by (by apply decode_exact_canonical).
  assert (decode_exact 64 signature = Some (sign (di_key own) input)) as Hs.
  { apply decode_exact_canonical. split_and!; [apply ed_sign_len|apply ed_sign_u8|done]. }
  assert (signing_input jcs_string jcs_f64 Dom_Envelope
    (draft_wire draft (sealed_security (identity_principal own) nonce signature)) = Ok input) as Hsig.
  { rewrite <- Hin. exact (EnvelopeFacts.seal_input jcs_string jcs_f64 draft (identity_principal own) nonce signature). }
  assert (resolve keys (tk_principal (di_entry own)) (tk_key_id (di_entry own)) = Some (di_entry own)) as Hr.
  { unfold resolve. rewrite (token_parse_ok _ Ht). simpl. rewrite Hkid. simpl. rewrite Hk. simpl. by rewrite beq_refl. }
  unfold verify_with_requirement. rewrite wire_security. cbn [mbind option_bind as_object ok_or result_bind].
  replace (negb (bool_decide (length (sealed_security (identity_principal own) nonce signature) = _)) || _)
    with false by reflexivity.
  unfold get_str. replace (obj_get (sealed_security (identity_principal own) nonce signature) (bs "principal"))
    with (Some (JString (tk_principal (di_entry own)))) by reflexivity.
  replace (obj_get (sealed_security (identity_principal own) nonce signature) (bs "key_id"))
    with (Some (JString (tk_key_id (di_entry own)))) by reflexivity.
  replace (obj_get (sealed_security (identity_principal own) nonce signature) (bs "signature"))
    with (Some (JString signature)) by reflexivity.
  replace (obj_get (sealed_security (identity_principal own) nonce signature) (bs "nonce"))
    with (Some (JString nonce)) by reflexivity.
  cbn [mbind option_bind as_str ok_or result_bind]. rewrite Hr. cbn [ok_or mbind result_bind].
  rewrite Hn, Hs. cbn [is_some negb ok_or mbind result_bind]. rewrite Hsig. cbn [map_err mbind result_bind].
  assert (scalar_is_reduced (drop 32 (sign (di_key own) input)) = true) as ->.
  { apply scalar_reduced_iff; unfold sign; [by rewrite length_drop, ed_sign_len| |apply ed_sign_reduced].
    apply Forall_drop, ed_sign_u8. }
  cbn [negb]. rewrite He. simpl tk_public_key. rewrite Hpub. simpl pk_octets.
  unfold sign. by rewrite ed_sign_verifies.
Qed.
End SignVerify.

(** Signing a built draft gives an envelope that is received and authenticated. *)
Lemma sign_authenticates {C : Crypto} {HC : CryptoLaws C}
    (seed principal random : list Z) (key : DeviceKey) (draft : EnvelopeDraft) (e : Envelope)
    (keys : TrustedKeySet) (limits : EnvelopeLimits) (now : Timestamp) :
  let own := DeviceIdentity_new key principal in
  DeviceKey_from_seed seed = Some key → length seed = 32%nat → is_token principal = true →
  built_draft draft → length random = 16%nat → Forall is_u8 random →
  sign_envelope own draft random = Some e →
  ts_entries keys !! tk_key_id (di_entry own) = Some (di_entry own) →
  Z.of_nat (length (env_octets e)) ≤ el_max_octets limits →
  major (dr_version draft) ∈ supported_majors limits →
  Forall (λ p, part_supported limits p = true) (dr_content draft) →
  is_expired_at e now = false →
  ∃ m, receive_envelope (env_octets e) limits now = Ok m ∧
       authenticate m keys = Ok (mkMessage e (Some (identity_principal own))).
Proof.
  intros own Hkey Hseed Ht Hd Hrl Hru Hsign Hk Hlen Hmaj Hparts Hexp.
  rewrite DeviceKey_from_seed_ok in Hkey by done. injection Hkey as <-.
  assert (identity_ok own) as Hown by done.
  unfold sign_envelope, sign_envelope_with_nonce in Hsign.
  destruct (draft_signing_input _ _ _ _ _) as [input|] eqn:Hin; [|done]. injection Hsign as <-.
  exists (mkMessage (seal draft (identity_principal own) (Nonce_from_octets random)
    (Signature_from_octets (sign (di_key own) input))) None). split.
  - apply seal_receive; try done. split; [done|]. simpl. apply key_id_parse.
  - unfold authenticate. cbn [cm_envelope]. unfold seal. cbn [env_wire].
    rewrite sealed_security_eq, (verify_sealed own keys draft random input); done.
Qed.

(** A signed envelope authenticates at every receiver that trusts the device: an
    envelope that a device signs from a draft of the crate's builders, received within the
    receiver's limits before its expiry, passes the security stage's steps 1 and 2 against
    any trusted key set that holds the device's entry, and the message is then attributed to
    that device's principal and key and otherwise unchanged. *)
Theorem sign_then_authenticate {C : Crypto} {HC : CryptoLaws C}
    (seed principal random : list Z) (key : DeviceKey) (draft : EnvelopeDraft) (e : Envelope)
    (keys : TrustedKeySet) (limits : EnvelopeLimits) (now : Timestamp) :
  let own := DeviceIdentity_new key principal in
  DeviceKey_from_seed seed = Some key → length seed = 32%nat → is_token principal = true →
  built_draft draft → length random = 16%nat → Forall is_u8 random →
  sign_envelope own draft random = Some e →
  ts_entries keys !! tk_key_id (di_entry own) = Some (di_entry own) →
  Z.of_nat (length (env_octets e)) ≤ el_max_octets limits →
  major (dr_version draft) ∈ supported_majors limits →
  Forall (λ p, part_supported limits p = true) (dr_content draft) →
  is_expired_at e now = false →
  ∃ m, receive_envelope (env_octets e) limits now = Ok m ∧
       authenticate m keys = Ok (mkMessage e (Some (identity_principal own))).
Proof. apply sign_authenticates. Qed.

Definition sample_envelope : Envelope :=
  default (seal sample_draft sample_signer [] [])
    (sign_envelope (C := sample) sample_identity sample_draft (replicate 16 1)).

Lemma sign_then_authenticate_witness :
  ∃ m, receive_envelope (env_octets sample_envelope) EnvelopeLimits_default sample_time = Ok m ∧
       authenticate (C := sample) m (TrustedKeySet_new sample_identity) =
       Ok (mkMessage sample_envelope (Some (identity_principal sample_identity))).
Proof.
  apply (sign_then_authenticate (C := sample) (HC := sample_laws) (replicate 32 3) (bs "alice")
    (replicate 16 1) sample_key sample_draft sample_envelope (TrustedKeySet_new sample_identity)
    EnvelopeLimits_default sample_time).
  - vm_compute. reflexivity.
  - reflexivity.
  - vm_compute. reflexivity.
  - exact sample_draft_built.
  - reflexivity.
  - apply Forall_replicate. unfold is_u8. lia.
  - vm_compute. reflexivity.
  - vm_compute. reflexivity.
  - vm_compute. discriminate.
  - apply list_elem_of_here.
  - repeat constructor.
  - vm_compute. reflexivity.
Defined.

(** The security member of an accepted envelope has exactly the four members. *)
Lemma security_length limits now octets e so :
  envelope_ok limits now octets e → obj_get (env_wire e) (bs "security") = Some (JObject so) →
  length so = 4%nat.
Proof.
  intros Heo Hso. destruct (eo_security _ _ _ _ Heo) as (so' & Hso' & Hnames & H1 & H2 & H3 & H4).
  rewrite Hso in Hso'. injection Hso' as <-.
  pose proof (parse_wf _ _ (eo_wire _ _ _ _ Heo)) as Hwf. apply (wf_get _ _ _ Hwf) in Hso.
  inversion Hso as [| | | | |? Hnd _ _]; subst.
  assert (obj_names so ≡ₚ SECURITY_MEMBERS) as Hp.
  { apply NoDup_Permutation; [done|vm_compute; repeat (constructor; [set_solver|]); constructor|].
    intros n. split; [rewrite Forall_forall in Hnames; apply Hnames|].
    intros Hn. apply get_str_Some in H1, H2, H3, H4. unfold SECURITY_MEMBERS in Hn.
    destruct (decide (n ∈ obj_names so)) as [|Hnot]; [done|]. apply obj_get_None in Hnot.
    repeat (apply elem_of_cons in Hn as [->|Hn]; [congruence|]). by apply elem_of_nil in Hn. }
  apply Permutation_length in Hp. unfold obj_names in Hp. by rewrite length_map in Hp.
Qed.

(** [C5] Authentication is sound and its refusals are exact: when steps 1 and 2 pass an
    envelope that envelope-stage validation accepted, the message is unchanged but for its
    attribution, and the entry it is attributed to is a trusted entry with the very principal
    and key id the security member names, whose public key strictly verified the signature
    over the envelope's signing input; otherwise the refusal is [unknown-key] when no trusted
    entry has that pair and [signature-invalid] when one has, never any other code. *)
Theorem authenticate_sound {C : Crypto} (octets : list Z) (limits : EnvelopeLimits) (now : Timestamp)
    (keys : TrustedKeySet) (m : ChannelMessage) :
  keyset_inv keys → receive_envelope octets limits now = Ok m →
  let sec := env_security (cm_envelope m) in
  match authenticate m keys with
  | Ok m' =>
      cm_envelope m' = cm_envelope m ∧
      ∃ entry, cm_verified_by m' = Some (security_principal entry) ∧
        verified_under keys Dom_Envelope (env_wire (cm_envelope m)) entry ∧
        resolve keys (sm_principal sec) (sm_key_id sec) = Some entry
  | Err r =>
      sr_state r = D_Rejected ∧
      ((sr_error r = E_UnknownKey ∧ resolve keys (sm_principal sec) (sm_key_id sec) = None) ∨
       (sr_error r = E_SignatureInvalid ∧
        is_some (resolve keys (sm_principal sec) (sm_key_id sec)) = true))
  end.
Proof.
  intros Hk Hm sec. pose proof (receive_envelope_Ok _ _ _ _ Hm) as [_ Heo].
  destruct (eo_security _ _ _ _ Heo) as (so & Hso & Hnames & H1 & H2 & H3 & H4).
  unfold authenticate.
  destruct (verify_with_requirement keys Dom_Envelope (env_wire (cm_envelope m))) as [entry|[err req]] eqn:Ev.
  - split; [done|]. exists entry. pose proof (verify_Ok _ _ _ _ Hk Ev) as Hv. split_and!; [done|done|].
    unfold verify_with_requirement in Ev. rewrite Hso in Ev. inv_binds. simplify_eq/=.
    unfold sec. congruence.
  - assert (length so = 4%nat) as Hlen by (by eapply security_length).
    unfold verify_with_requirement in Ev. rewrite Hso in Ev.
    cbn [mbind option_bind as_object ok_or result_bind] in Ev.
    rewrite Hlen in Ev. rewrite (bool_decide_true (4%nat = length (security_members Dom_Envelope))) in Ev by done.
    replace (existsb (λ m, negb (obj_contains so m)) (security_members Dom_Envelope)) with false in Ev.
    2: { unfold security_members, obj_contains. cbn [existsb].
         apply get_str_Some in H1, H2, H3, H4. by rewrite H1, H2, H3, H4. }
    cbn [negb orb] in Ev. rewrite H1, H2, H3, H4 in Ev. cbn [ok_or mbind result_bind] in Ev.
    fold sec in Ev. unfold sec in *.
    destruct (resolve keys _ _) as [entry|] eqn:Er; cbn [ok_or mbind result_bind] in Ev.
    + assert (err = SignatureInvalid) as -> by (unfold ok_or, map_err, mbind, result_bind in Ev; repeat case_match; congruence).
      split; [done|]. right. done.
    + injection Ev as <- <-. split; [done|]. left. done.
Qed.

Lemma authenticate_sound_witness :
  ∃ m, receive_envelope (env_octets sample_envelope) EnvelopeLimits_default sample_time = Ok m ∧
  match authenticate (C := sample) m (mkKeySet ∅) with
  | Ok m' => False
  | Err r => sr_state r = D_Rejected
  end.
Proof.
  eexists. split; [vm_compute; reflexivity|].
  pose proof (authenticate_sound (C := sample) (env_octets sample_envelope) EnvelopeLimits_default
    sample_time (mkKeySet ∅) (mkMessage sample_envelope None)
    ltac:(apply map_Forall_empty) ltac:(vm_compute; reflexivity)) as H.
  cbv zeta in H. vm_compute in H |- *. exact (proj1 H).
Defined.

(** ** The drafts that can be signed *)

(** Every number of the content is in the range of doubles. *)
Definition content_finite (draft : EnvelopeDraft) : bool :=
  forallb (λ p, numbers_finite (JObject (part_wire p))) (dr_content draft).

Lemma numbers_finite_insert_opt o n v :
  numbers_finite (JObject o) = true → (∀ x, v = Some x → numbers_finite x = true) →
  numbers_finite (JObject (insert_opt o n v)) = true.
Proof. intros Ho Hv. destruct v as [v|]; [|done]. by apply numbers_finite_insert, Hv. Qed.

(** The wire object of a draft has no other number but a time to live. *)
Lemma draft_wire_finite draft sec :
  draft_ok draft → numbers_finite (JObject sec) = true → content_finite draft = true →
  numbers_finite (JObject (draft_wire draft sec)) = true.
Proof.
  intros Hd Hsec Hc. unfold draft_wire.
  repeat first [apply numbers_finite_insert|apply numbers_finite_insert_opt]; try done.
  1-3: intros x Hx; match type of Hx with _ <$> ?o = _ => destruct o; [|done] end; by injection Hx as <-.
  - intros x Hx. destruct (dr_ttl_ms draft) as [n|] eqn:E; [|done]. injection Hx as <-. cbn [numbers_finite]. apply from_u64_finite.
    pose proof (do_ttl _ Hd n E). unfold MAX_TTL_MS in *. lia.
  - cbn [numbers_finite]. by rewrite forallb_map'.
Qed.

(** [C40] A draft the builders accept can be signed exactly when its content holds no number
    beyond the double range: [sign_envelope] then returns an envelope, under any device key and
    nonce, and otherwise the [expect] in it fires, although its message says that a draft always
    canonicalizes.  Such a draft exists: [ContentPart::from_json] takes a part with the number
    1e400. *)
Theorem signed_iff_numbers_finite {C : Crypto} (HC : CryptoLaws C) (d : DeviceIdentity) (draft : EnvelopeDraft) (random : list Z) :
  built_draft draft → is_some (sign_envelope d draft random) = content_finite draft.
Proof.
  intros Hb. apply built_draft_ok in Hb. unfold sign_envelope, sign_envelope_with_nonce, draft_signing_input, signing_input.
  set (sec := draft_security (identity_principal d) (Nonce_from_octets random)).
  rewrite (signed_text_security jcs_string jcs_f64 _ sec) by apply wire_security.
  set (v := JObject (obj_insert _ _ _)). pose proof (canonical_ok _ _ jcs_string_ok jcs_f64_ok v) as Hok.
  transitivity (numbers_finite v); [rewrite <- Hok; by destruct (canonical _ _ v)|]. apply eq_true_iff_eq. split.
  - intros Hv. assert (obj_get (obj_insert (obj_without (draft_wire draft sec) (bs "security")) (bs "security")
      (JObject (obj_without sec (bs "signature")))) (bs "content") = Some (JArray (map (λ p, JObject (part_wire p)) (dr_content draft)))) as Hg.
    { rewrite obj_get_insert. change (beq (bs "security") (bs "content")) with false. cbn match.
      rewrite obj_get_without by done. by rewrite draft_wire_get. }
    pose proof (numbers_finite_get _ _ _ Hv Hg) as H. cbn [numbers_finite] in H. by rewrite forallb_map' in H.
  - intros Hc. apply numbers_finite_insert; [|by apply numbers_finite_without].
    by apply numbers_finite_without, draft_wire_finite.
Qed.

(** A part a harness may ask to send, whose number no double holds. *)
Definition large_number_part : ContentPart :=
  COther (mkOther (bs "com.example/x")
    [(bs "type", JString (bs "com.example/x")); (bs "n", JNumber (bs "1e400"))]).

Definition large_number_draft : EnvelopeDraft :=
  mkDraft IMPLEMENTED_VERSION (bs "m-1") sample_session sample_peer None None None sample_time None
    [large_number_part].

Lemma large_number_draft_built : built_draft large_number_draft.
Proof.
  apply (bd_new (bs "m-1") sample_session sample_peer sample_time [large_number_part]);
    try (vm_compute; reflexivity).
  repeat constructor.
  apply (built_from_json (JObject [(bs "type", JString (bs "com.example/x")); (bs "n", JNumber (bs "1e400"))]));
    [|vm_compute; reflexivity].
  apply (parse_wf (jtext "{`type`:`com.example/x`,`n`:1e400}")). vm_compute. reflexivity.
Qed.

Lemma signed_iff_numbers_finite_witness :
  built_draft large_number_draft ∧ is_some (sign_envelope (C := sample) sample_identity large_number_draft []) = false.
Proof.
  split; [apply large_number_draft_built|].
  rewrite (signed_iff_numbers_finite sample_laws sample_identity large_number_draft [] large_number_draft_built).
  vm_compute. reflexivity.
Defined.
