(* ===== verification/Replay.v ===== *)
(** * Replay window, hand-off deadline and duplicate store ([core/src/replay.rs])

    The window and deadline arithmetic, the duplicate store's data and operations under its
    lock, and the store as a state machine: the operations of any number of threads, in any
    order, with the clock between them. *)

From S2P Require Import Prelude Ids Json Delivery Envelope Signing.

Definition REPLAY_WINDOW_MS : Z := 300000.
Definition WINDOW_NANOS : Z := REPLAY_WINDOW_MS * 1000000.
Definition DEFAULT_CAPACITY : nat := Z.to_nat 65536.
Definition DEFAULT_KEY_SHARE_DIVISOR : nat := 4.

Definition unverified : SecurityRejection := mkSecurityRejection D_Failed E_InternalError "SEC-STG-003".

(** ** Step 3 and the deadline *)

Definition inside_replay_window (created_at now : Timestamp) : bool :=
  let c := unix_nanos created_at in
  let t := unix_nanos now in
  (t - WINDOW_NANOS <? c) && (c <? t + WINDOW_NANOS).

Definition check_replay_window (msg : ChannelMessage) (now : Timestamp) : result SecurityRejection unit :=
  if negb (is_some (cm_verified_by msg)) then Err unverified
  else if inside_replay_window (env_created_at (cm_envelope msg)) now then Ok tt
  else Err (mkSecurityRejection D_Expired E_OutsideReplayWindow "SEC-RPL-002").

Inductive BindingBound : Type := B_Expiry | B_ReplayWindow.

Record HandOffDeadline := mkDeadline { hd_unix_nanos : Z; hd_bound : BindingBound }.

Definition HandOffDeadline_of (env : Envelope) : HandOffDeadline :=
  let window_end := unix_nanos (env_created_at env) + WINDOW_NANOS in
  match expiry_unix_nanos env with
  | Some e => if e <=? window_end then mkDeadline e B_Expiry else mkDeadline window_end B_ReplayWindow
  | None => mkDeadline window_end B_ReplayWindow
  end.

Definition passed_at (d : HandOffDeadline) (now : Timestamp) : bool := hd_unix_nanos d <=? unix_nanos now.

Definition refusal_at (d : HandOffDeadline) (now : Timestamp) : option (DeliveryState * ErrorCode) :=
  then_some (passed_at d now)
    (D_Expired, match hd_bound d with B_Expiry => E_Expired | B_ReplayWindow => E_OutsideReplayWindow end).

(** ** The store *)

Record DuplicateKey := mkDupKey { dup_key_id : list Z; dup_nonce : list Z }.

#[export] Instance DuplicateKey_eq_dec : EqDecision DuplicateKey.
Proof. solve_decision. Defined.
#[export] Instance DuplicateKey_countable : Countable DuplicateKey.
Proof.
  apply (inj_countable' (λ k, (dup_key_id k, dup_nonce k)) (λ p, mkDupKey p.1 p.2)). by intros [].
Defined.

Definition DuplicateKey_of (msg : ChannelMessage) : option DuplicateKey :=
  by_ ← cm_verified_by msg;
  Some (mkDupKey (sp_key_id by_) (sm_nonce (env_security (cm_envelope msg)))).

Inductive Phase : Type := InFlight | HandedOff.

#[export] Instance Phase_eq_dec : EqDecision Phase.
Proof. solve_decision. Defined.

Record Entry := mkDupEntry { en_deadline : Z; en_phase : Phase; en_receipt_sent : bool }.

(** What the mutex guards; a callback is a number. [by_deadline] is the ordered set. *)
Record Inner := mkInner {
  entries : gmap DuplicateKey Entry;
  by_deadline : gset (Z * DuplicateKey);
  per_key : gmap (list Z) nat;
  waiters : gmap DuplicateKey (list nat) }.

Definition inner_default : Inner := mkInner ∅ ∅ ∅ ∅.

Definition phase_of (i : Inner) (k : DuplicateKey) : option Phase := en_phase <$> entries i !! k.

(** [Inner::remove]. *)
Definition count_down (per_key : gmap (list Z) nat) (id : list Z) : gmap (list Z) nat :=
  match per_key !! id with
  | Some n => if (n - 1 =? 0)%nat then delete id per_key else <[id := (n - 1)%nat]> per_key
  | None => per_key
  end.

Definition inner_remove (key : DuplicateKey) (i : Inner) : Inner :=
  match entries i !! key with
  | None => i
  | Some e =>
      mkInner (delete key (entries i)) (by_deadline i ∖ {[ (en_deadline e, key) ]})
        (count_down (per_key i) (dup_key_id key)) (waiters i)
  end.

(** [Inner::evict]: the deadlines at or before [now], which are a prefix of the ordered set,
    whose entries are settled. *)
Definition is_due (i : Inner) (now : Z) (x : Z * DuplicateKey) : Prop :=
  x.1 ≤ now ∧ phase_of i x.2 = Some HandedOff.
#[export] Instance is_due_dec i now x : Decision (is_due i now x) := _.

Definition evict (now : Z) (i : Inner) : Inner :=
  foldl (λ i x, inner_remove x.2 i) i (elements (filter (is_due i now) (by_deadline i))).

Definition held_by (i : Inner) (key_id : list Z) : nat := default 0%nat (per_key i !! key_id).

Definition inner_has_room (i : Inner) (key_id : list Z) (capacity per_key_share : nat) : bool :=
  let n := held_by i key_id in
  (n <? per_key_share)%nat && (size (entries i) + n <? capacity)%nat.

Definition inner_insert (key : DuplicateKey) (deadline : Z) (phase : Phase) (i : Inner) : Inner :=
  mkInner (<[key := mkDupEntry deadline phase false]> (entries i))
    ({[ (deadline, key) ]} ∪ by_deadline i)
    (<[dup_key_id key := S (held_by i (dup_key_id key))]> (per_key i))
    (waiters i).

(** The limits of a store, as [with_limits] sets them. *)
Record Limits := mkStoreLimits { st_capacity : nat; st_per_key_share : nat }.

Definition with_limits (capacity per_key_share : nat) : Limits :=
  mkStoreLimits capacity (clamp per_key_share 1 (Nat.max capacity 1)).

Definition with_capacity (capacity : nat) : Limits :=
  with_limits capacity (capacity / DEFAULT_KEY_SHARE_DIVISOR)%nat.

Definition full : SecurityRejection := mkSecurityRejection D_Failed E_InternalError "SEC-RPL-023".

(** [Admission]; [AdmitTaken] is the source's variant for an entry reserved by this copy. *)
Inductive Admission : Type :=
| AdmitTaken (reservation : DuplicateKey)
| Duplicate (receipt_allowed : bool).

Definition has_room (l : Limits) (i : Inner) (key : DuplicateKey) : bool :=
  inner_has_room i (dup_key_id key) (st_capacity l) (st_per_key_share l).

(** [DuplicateStore::decide] at the clock's reading [now]; [None] while the entry is in
    flight. *)
Definition store_decide (l : Limits) (now : Z) (key : DuplicateKey) (deadline : Z) (i : Inner)
    : option (result SecurityRejection Admission) * Inner :=
  let i := evict now i in
  let room := has_room l i key in
  match entries i !! key with
  | Some e =>
      match en_phase e with
      | InFlight => (None, i)
      | HandedOff =>
          let receipt_allowed := negb (en_receipt_sent e) in
          (Some (Ok (Duplicate receipt_allowed)),
           mkInner (<[key := mkDupEntry (en_deadline e) (en_phase e) true]> (entries i))
             (by_deadline i) (per_key i) (waiters i))
      end
  | None =>
      if negb room then (Some (Err full), i)
      else (Some (Ok (AdmitTaken key)), inner_insert key deadline InFlight i)
  end.

Definition key_and_deadline (msg : ChannelMessage) : result SecurityRejection (DuplicateKey * Z) :=
  key ← ok_or (DuplicateKey_of msg) unverified;
  Ok (key, hd_unix_nanos (HandOffDeadline_of (cm_envelope msg))).

(** [try_admit]; [admit] repeats it after every settlement until it decides. *)
Definition try_admit (l : Limits) (now : Z) (msg : ChannelMessage) (i : Inner)
    : result SecurityRejection (option Admission) * Inner :=
  match key_and_deadline msg with
  | Err e => (Err e, i)
  | Ok (key, deadline) =>
      match store_decide l now key deadline i with
      | (None, i) => (Ok None, i)
      | (Some (Ok a), i) => (Ok (Some a), i)
      | (Some (Err e), i) => (Err e, i)
      end
  end.

(** [settle]: the new state, and the callbacks to run. *)
Definition settle (key : DuplicateKey) (handed_off : bool) (i : Inner) : list nat * Inner :=
  let i :=
    if handed_off then
      match entries i !! key with
      | Some e =>
          mkInner (<[key := mkDupEntry (en_deadline e) HandedOff (en_receipt_sent e)]> (entries i))
            (by_deadline i) (per_key i) (waiters i)
      | None => i
      end
    else inner_remove key i in
  (default [] (waiters i !! key),
   mkInner (entries i) (by_deadline i) (per_key i) (delete key (waiters i))).

(** [when_settled]: the callbacks run at once, and the new state. *)
Definition when_settled (key : DuplicateKey) (notify : nat) (i : Inner) : list nat * Inner :=
  if bool_decide (phase_of i key = Some InFlight) then
    ([], mkInner (entries i) (by_deadline i) (per_key i)
           (<[key := default [] (waiters i !! key) ++ [notify]]> (waiters i)))
  else ([notify], i).

(** [insert_handed_off]. *)
Definition insert_handed_off (l : Limits) (now : Z) (key : DuplicateKey) (deadline : Z) (i : Inner)
    : result SecurityRejection unit * Inner :=
  let i := evict now i in
  match entries i !! key with
  | Some _ => (Ok tt, i)
  | None =>
      if negb (has_room l i key) then (Err full, i)
      else (Ok tt, inner_insert key deadline HandedOff i)
  end.

(** ** The store as a state machine

    [sys_reserved] are the reservations that callers hold: settling one consumes it, and so
    does dropping it, which counts as handed off. *)

Record Sys := mkSys { sys_now : Z; sys_inner : Inner; sys_reserved : gset DuplicateKey }.

Inductive Op : Type :=
| OpTick (now : Z)
| OpAdmit (key : DuplicateKey) (deadline : Z)
| OpSettle (key : DuplicateKey) (handed_off : bool)
| OpEvict
| OpPreload (key : DuplicateKey) (deadline : Z)
| OpWhenSettled (key : DuplicateKey) (notify : nat).

Inductive Out : Type :=
| OutUnit
| OutDecided (d : option (result SecurityRejection Admission))
| OutRan (callbacks : list nat)
| OutPreloaded (r : result SecurityRejection unit).

Definition step (l : Limits) (o : Op) (s : Sys) : Out * Sys :=
  match o with
  | OpTick t => (OutUnit, mkSys t (sys_inner s) (sys_reserved s))
  | OpAdmit key deadline =>
      let '(d, i) := store_decide l (sys_now s) key deadline (sys_inner s) in
      (OutDecided d, mkSys (sys_now s) i
         (match d with Some (Ok (AdmitTaken k)) => {[ k ]} ∪ sys_reserved s | _ => sys_reserved s end))
  | OpSettle key b =>
      let '(cbs, i) := settle key b (sys_inner s) in
      (OutRan cbs, mkSys (sys_now s) i (sys_reserved s ∖ {[ key ]}))
  | OpEvict => (OutUnit, mkSys (sys_now s) (evict (sys_now s) (sys_inner s)) (sys_reserved s))
  | OpPreload key deadline =>
      let '(r, i) := insert_handed_off l (sys_now s) key deadline (sys_inner s) in
      (OutPreloaded r, mkSys (sys_now s) i (sys_reserved s))
  | OpWhenSettled key cb =>
      let '(cbs, i) := when_settled key cb (sys_inner s) in
      (OutRan cbs, mkSys (sys_now s) i (sys_reserved s))
  end.

(** A caller settles only a reservation it holds; the clock goes forwards. *)
Definition op_allowed (s : Sys) (o : Op) : Prop :=
  match o with
  | OpTick t => sys_now s ≤ t
  | OpSettle key _ => key ∈ sys_reserved s
  | _ => True
  end.

(** Runs, with the reading of the clock, the operation and its outcome at each step. *)
Inductive run (l : Limits) : Sys → list (Z * Op * Out) → Sys → Prop :=
| run_nil s : run l s [] s
| run_snoc s tr s' o out s'' :
    run l s tr s' → op_allowed s' o → step l o s' = (out, s'') →
    run l s (tr ++ [(sys_now s', o, out)]) s''.

Definition sys_init (now : Z) : Sys := mkSys now inner_default ∅.
