(* ===== verification/ReplayFacts.v ===== *)
(** * Facts about the duplicate store

    The store's invariant (its index, its per-key counts, its bounds, its waiters), and the
    guarantees of every run of the state machine: a key handed off is not admitted again
    before its deadline, each entry draws at most one duplicate receipt, and no callback is
    lost. *)

From S2P Require Import Prelude Ids Json Delivery Envelope EnvelopeFacts Signing Replay.

Definition under (id : list Z) (kv : DuplicateKey * Entry) : Prop := dup_key_id kv.1 = id.
#[export] Instance under_dec id kv : Decision (under id kv).
Proof. unfold under. apply _. Defined.

(** The number of entries of a key id. *)
Definition entries_of (i : Inner) (id : list Z) : nat := size (filter (under id) (entries i)).

Record core_inv (i : Inner) : Prop := {
  inv_index : ∀ d k, (d, k) ∈ by_deadline i ↔ ∃ e, entries i !! k = Some e ∧ en_deadline e = d;
  inv_count : ∀ id, held_by i id = entries_of i id;
  inv_positive : ∀ id n, per_key i !! id = Some n → n ≠ 0%nat }.

Record bound_inv (l : Limits) (i : Inner) : Prop := {
  inv_capacity : (size (entries i) ≤ st_capacity l)%nat;
  inv_share : ∀ id, (entries_of i id ≤ st_per_key_share l)%nat }.

Definition waiters_inv (i : Inner) : Prop :=
  ∀ k, is_Some (waiters i !! k) → phase_of i k = Some InFlight.

(** ** Removing *)

Lemma held_by_count_down (pk : gmap (list Z) nat) id id' n :
  pk !! id = Some n →
  default 0%nat (count_down pk id !! id') = if decide (id = id') then (n - 1)%nat else default 0%nat (pk !! id').
Proof.
  intros H. unfold count_down. rewrite H. destruct (n - 1 =? 0)%nat eqn:E.
  - apply Nat.eqb_eq in E. case_decide; [subst; by rewrite lookup_delete_eq, E|by rewrite lookup_delete_ne].
  - case_decide; [subst; by rewrite lookup_insert_eq|by rewrite lookup_insert_ne].
Qed.

Lemma entries_of_delete i k e id :
  entries i !! k = Some e →
  size (filter (under id) (delete k (entries i))) =
  if decide (dup_key_id k = id) then (entries_of i id - 1)%nat else entries_of i id.
Proof.
  intros He. unfold entries_of. rewrite map_filter_delete. case_decide as Hid.
  - rewrite map_size_delete_Some; [lia|]. exists e. by apply map_lookup_filter_Some_2.
  - rewrite map_size_delete_None; [done|]. apply map_lookup_filter_None_2. right.
    intros x Hx. done.
Qed.

Lemma entries_of_pos i k e : entries i !! k = Some e → (0 < entries_of i (dup_key_id k))%nat.
Proof.
  intros He. unfold entries_of. apply Nat.neq_0_lt_0. intros H. apply map_size_empty_inv in H.
  assert (filter (under (dup_key_id k)) (entries i) !! k = Some e) as Hk by (by apply map_lookup_filter_Some_2).
  by rewrite H, lookup_empty in Hk.
Qed.

Lemma remove_core i k : core_inv i → core_inv (inner_remove k i).
Proof.
  intros [Hidx Hcnt Hpos]. unfold inner_remove. destruct (entries i !! k) as [e|] eqn:He; [|done].
  assert (∃ n, per_key i !! dup_key_id k = Some n) as [n Hn].
  { specialize (Hcnt (dup_key_id k)). pose proof (entries_of_pos i k e He). unfold held_by in Hcnt.
    destruct (per_key i !! dup_key_id k); [eauto|simpl in Hcnt; lia]. }
  constructor.
  - intros d k'. simpl. rewrite elem_of_difference, elem_of_singleton, Hidx.
    destruct (decide (k = k')) as [<-|Hne].
    + rewrite lookup_delete_eq. naive_solver.
    + rewrite lookup_delete_ne by done. naive_solver.
  - intros id. unfold held_by, entries_of. simpl. rewrite (held_by_count_down _ _ _ n Hn).
    rewrite (entries_of_delete i k e id He). specialize (Hcnt id). unfold held_by in Hcnt.
    case_decide as Hid; [subst; rewrite Hn in Hcnt; simpl in Hcnt; lia|done].
  - intros id m. simpl. unfold count_down. rewrite Hn. destruct (n - 1 =? 0)%nat eqn:E.
    + intros [_ Hm]%lookup_delete_Some. by eapply Hpos.
    + apply Nat.eqb_neq in E. intros [[<- <-]|[_ Hm]]%lookup_insert_Some; [done|by eapply Hpos].
Qed.

Lemma remove_lookup i k k' :
  entries (inner_remove k i) !! k' = if decide (k = k') then None else entries i !! k'.
Proof.
  unfold inner_remove. destruct (entries i !! k) as [e|] eqn:He; simpl.
  - case_decide; [subst; by rewrite lookup_delete_eq|by rewrite lookup_delete_ne].
  - case_decide; [by subst|done].
Qed.

Lemma remove_size i k : (size (entries (inner_remove k i)) ≤ size (entries i))%nat.
Proof.
  unfold inner_remove. destruct (entries i !! k) as [e|] eqn:He; [|done]. simpl.
  rewrite map_size_delete_Some by eauto. lia.
Qed.

Lemma remove_entries_of i k id : (entries_of (inner_remove k i) id ≤ entries_of i id)%nat.
Proof.
  unfold inner_remove. destruct (entries i !! k) as [e|] eqn:He; [|done].
  unfold entries_of at 1. simpl. rewrite (entries_of_delete i k e id He). case_decide; lia.
Qed.

Lemma remove_bound l i k : bound_inv l i → bound_inv l (inner_remove k i).
Proof.
  intros [H1 H2]. split.
  - pose proof (remove_size i k). lia.
  - intros id. pose proof (remove_entries_of i k id). specialize (H2 id). lia.
Qed.

Lemma remove_waiters i k : waiters (inner_remove k i) = waiters i.
Proof. unfold inner_remove. by destruct (entries i !! k). Qed.

(** ** Evicting *)

Section Fold.
Context (P : Inner → Prop) (HP : ∀ i k, P i → P (inner_remove k i)).

Lemma fold_remove (l : list (Z * DuplicateKey)) i :
  P i → P (foldl (λ i x, inner_remove x.2 i) i l).
Proof. revert i. induction l as [|x l IH]; intros i Hi; simpl; auto. Qed.
End Fold.

Lemma fold_remove_lookup (l : list (Z * DuplicateKey)) i k :
  entries (foldl (λ i x, inner_remove x.2 i) i l) !! k =
  if decide (k ∈ l.*2) then None else entries i !! k.
Proof.
  revert i. induction l as [|x l IH]; intros i; simpl; [done|]. rewrite IH, remove_lookup.
  destruct (decide (k ∈ l.*2)) as [Hin|Hnot].
  - rewrite decide_True; [done|]. by right.
  - destruct (decide (x.2 = k)) as [->|Hne].
    + rewrite decide_True; [done|]. by left.
    + rewrite decide_False; [done|]. rewrite not_elem_of_cons. auto.
Qed.

Lemma fold_remove_waiters (l : list (Z * DuplicateKey)) i :
  waiters (foldl (λ i x, inner_remove x.2 i) i l) = waiters i.
Proof. revert i. induction l as [|x l IH]; intros i; simpl; [done|]. by rewrite IH, remove_waiters. Qed.

(** An entry that eviction at [now] removes. *)
Definition expired_entry (now : Z) (e : Entry) : bool :=
  (en_deadline e <=? now) && bool_decide (en_phase e = HandedOff).

Lemma evict_lookup now i k :
  core_inv i →
  entries (evict now i) !! k =
  match entries i !! k with
  | Some e => if expired_entry now e then None else Some e
  | None => None
  end.
Proof.
  intros Hi. unfold evict. rewrite fold_remove_lookup.
  assert (k ∈ (elements (filter (is_due i now) (by_deadline i))).*2 ↔
    ∃ e, entries i !! k = Some e ∧ expired_entry now e = true) as Hin.
  { rewrite list_elem_of_fmap. split.
    - intros ([d k'] & -> & Hx). apply elem_of_elements, elem_of_filter in Hx as [[Hd Hp] Hx].
      apply (inv_index i Hi) in Hx as (e & He & <-). exists e. split; [done|]. simpl in *.
      unfold phase_of in Hp. rewrite He in Hp. injection Hp as Hp. unfold expired_entry.
      rewrite Hp. apply andb_true_iff. split; [lia|done].
    - intros (e & He & Hx). unfold expired_entry in Hx. bool_hyps. exists (en_deadline e, k). split; [done|].
      apply elem_of_elements, elem_of_filter. split; [split; [done|]|].
      + unfold phase_of. simpl. rewrite He. simpl. congruence.
      + apply (inv_index i Hi). eauto. }
  destruct (entries i !! k) as [e|] eqn:He.
  - destruct (expired_entry now e) eqn:Ex.
    + rewrite decide_True; [done|]. apply Hin. eauto.
    + rewrite decide_False; [done|]. intros H. apply Hin in H as (e' & He' & Hx'). congruence.
  - by case_decide.
Qed.

Lemma evict_core now i : core_inv i → core_inv (evict now i).
Proof. apply fold_remove. intros i' k. apply remove_core. Qed.
Lemma evict_bound l now i : bound_inv l i → bound_inv l (evict now i).
Proof. apply fold_remove. intros i' k. apply remove_bound. Qed.
Lemma evict_waiters now i : waiters (evict now i) = waiters i.
Proof. apply fold_remove_waiters. Qed.

Lemma evict_in_flight now i k e :
  core_inv i → entries i !! k = Some e → en_phase e = InFlight → entries (evict now i) !! k = Some e.
Proof.
  intros Hi He Hp. rewrite evict_lookup, He by done. unfold expired_entry. rewrite Hp.
  by rewrite (bool_decide_false (InFlight = HandedOff)), andb_false_r.
Qed.

Lemma evict_phase now i k :
  core_inv i → phase_of (evict now i) k = Some InFlight ↔ phase_of i k = Some InFlight.
Proof.
  intros Hi. unfold phase_of. rewrite evict_lookup by done. destruct (entries i !! k) as [e|]; [|done].
  unfold expired_entry. destruct (en_phase e) eqn:Hp.
  - rewrite bool_decide_false, andb_false_r by done. done.
  - rewrite bool_decide_true, andb_true_r by done. destruct (_ <=? _); simpl; [|done]. rewrite Hp. done.
Qed.

Lemma evict_waiters_inv now i : core_inv i → waiters_inv i → waiters_inv (evict now i).
Proof. intros Hi Hw k Hk. rewrite evict_waiters in Hk. apply evict_phase; auto. Qed.

(** ** Inserting and changing an entry *)

Lemma insert_entries_of i k d p id :
  entries i !! k = None →
  entries_of (inner_insert k d p i) id =
  if decide (dup_key_id k = id) then S (entries_of i id) else entries_of i id.
Proof.
  intros Hk. unfold entries_of. simpl. case_decide as Hid.
  - rewrite map_filter_insert_True by done. rewrite map_size_insert_None; [done|].
    apply map_lookup_filter_None_2. by left.
  - rewrite map_filter_insert_False by done. by rewrite delete_id.
Qed.

Lemma insert_core i k d p : entries i !! k = None → core_inv i → core_inv (inner_insert k d p i).
Proof.
  intros Hk [Hidx Hcnt Hpos]. constructor.
  - intros d' k'. simpl. rewrite elem_of_union, elem_of_singleton, Hidx.
    destruct (decide (k = k')) as [<-|Hne].
    + rewrite lookup_insert_eq, Hk. naive_solver.
    + rewrite lookup_insert_ne by done. naive_solver.
  - intros id. rewrite insert_entries_of by done. unfold held_by at 1. simpl. case_decide as Hid.
    + subst id. rewrite lookup_insert_eq. simpl. by rewrite Hcnt.
    + rewrite lookup_insert_ne by done. apply Hcnt.
  - intros id n. simpl. intros [[<- <-]|[_ Hn]]%lookup_insert_Some; [done|by eapply Hpos].
Qed.

Lemma insert_bound l i k d p :
  entries i !! k = None → core_inv i → has_room l i k = true → bound_inv l i →
  bound_inv l (inner_insert k d p i).
Proof.
  intros Hk Hi Hr [H1 H2]. unfold has_room, inner_has_room in Hr.
  apply andb_true_iff in Hr as [Hr1 Hr2]. apply Nat.ltb_lt in Hr1, Hr2. split.
  - simpl. rewrite map_size_insert_None by done. lia.
  - intros id. rewrite insert_entries_of by done. case_decide as Hid; [|done]. subst id.
    rewrite (inv_count i Hi) in Hr1. lia.
Qed.

(** Replacing an entry by one with the same deadline. *)
Definition set_entry (k : DuplicateKey) (e : Entry) (i : Inner) : Inner :=
  mkInner (<[k := e]> (entries i)) (by_deadline i) (per_key i) (waiters i).

Lemma set_entries_of i k e e' id :
  entries i !! k = Some e → entries_of (set_entry k e' i) id = entries_of i id.
Proof.
  intros Hk. unfold entries_of. simpl. destruct (decide (dup_key_id k = id)) as [Hid|Hid].
  - rewrite map_filter_insert_True by done. rewrite map_size_insert_Some; [done|].
    exists e. by apply map_lookup_filter_Some_2.
  - rewrite map_filter_insert_False by done. rewrite map_filter_delete, delete_id; [done|].
    apply map_lookup_filter_None_2. right. intros x _. done.
Qed.

Lemma set_core i k e e' :
  entries i !! k = Some e → en_deadline e' = en_deadline e → core_inv i → core_inv (set_entry k e' i).
Proof.
  intros Hk Hd [Hidx Hcnt Hpos]. constructor.
  - intros d k'. simpl. rewrite Hidx. destruct (decide (k = k')) as [<-|Hne].
    + rewrite lookup_insert_eq, Hk. naive_solver.
    + by rewrite lookup_insert_ne.
  - intros id. rewrite (set_entries_of i k e) by done. apply Hcnt.
  - done.
Qed.

Lemma set_bound l i k e e' : entries i !! k = Some e → bound_inv l i → bound_inv l (set_entry k e' i).
Proof.
  intros Hk [H1 H2]. split.
  - simpl. by rewrite map_size_insert_Some by eauto.
  - intros id. by rewrite (set_entries_of i k e).
Qed.

(** ** The invariant of the state machine *)

Record sys_inv (l : Limits) (s : Sys) : Prop := {
  si_core : core_inv (sys_inner s);
  si_bound : bound_inv l (sys_inner s);
  si_waiters : waiters_inv (sys_inner s);
  si_reserved : ∀ k, k ∈ sys_reserved s ↔ phase_of (sys_inner s) k = Some InFlight }.

Lemma init_inv l now : sys_inv l (sys_init now).
Proof.
  constructor; simpl.
  - constructor; simpl.
    + intros d k. rewrite lookup_empty. split; [set_solver|naive_solver].
    + intros id. unfold held_by, entries_of. simpl. by rewrite lookup_empty, map_filter_empty, map_size_empty.
    + intros id n. by rewrite lookup_empty.
  - constructor; simpl; [rewrite map_size_empty; lia|]. intros id. unfold entries_of. simpl.
    rewrite map_filter_empty, map_size_empty. lia.
  - intros k [x Hk]. simpl in Hk. by rewrite lookup_empty in Hk.
  - intros k. unfold phase_of. simpl. rewrite lookup_empty. set_solver.
Qed.

Lemma evict_inv l now s :
  sys_inv l s → sys_inv l (mkSys (sys_now s) (evict now (sys_inner s)) (sys_reserved s)).
Proof.
  intros []. constructor; simpl; auto using evict_core, evict_bound, evict_waiters_inv.
  intros k. by rewrite evict_phase.
Qed.

(** What [store_decide] does on each branch, after eviction. *)
Lemma decide_cases l now key deadline i d i' :
  store_decide l now key deadline i = (d, i') →
  let j := evict now i in
  (∃ e, entries j !! key = Some e ∧ en_phase e = InFlight ∧ d = None ∧ i' = j) ∨
  (∃ e, entries j !! key = Some e ∧ en_phase e = HandedOff ∧
        d = Some (Ok (Duplicate (negb (en_receipt_sent e)))) ∧
        i' = set_entry key (mkDupEntry (en_deadline e) HandedOff true) j) ∨
  (entries j !! key = None ∧ has_room l j key = false ∧ d = Some (Err full) ∧ i' = j) ∨
  (entries j !! key = None ∧ has_room l j key = true ∧ d = Some (Ok (AdmitTaken key)) ∧
   i' = inner_insert key deadline InFlight j).
Proof.
  intros H. cbv zeta. unfold store_decide in H. destruct (entries (evict now i) !! key) as [e|] eqn:He.
  - destruct (en_phase e) eqn:Hp; injection H as <- <-.
    + left. eauto.
    + right; left. exists e. by rewrite <- Hp.
  - right; right. destruct (has_room l (evict now i) key) eqn:Hr; simpl in H; injection H as <- <-; auto.
Qed.

Lemma phase_insert i k d p k' :
  phase_of (inner_insert k d p i) k' = if decide (k = k') then Some p else phase_of i k'.
Proof.
  unfold phase_of. simpl. case_decide; [subst; by rewrite lookup_insert_eq|by rewrite lookup_insert_ne].
Qed.

Lemma phase_set i k e k' :
  phase_of (set_entry k e i) k' = if decide (k = k') then Some (en_phase e) else phase_of i k'.
Proof.
  unfold phase_of. simpl. case_decide; [subst; by rewrite lookup_insert_eq|by rewrite lookup_insert_ne].
Qed.

Lemma admit_inv l s key deadline :
  sys_inv l s → sys_inv l (step l (OpAdmit key deadline) s).2.
Proof.
  intros Hs. simpl. destruct (store_decide l (sys_now s) key deadline (sys_inner s)) as [d i'] eqn:Ed.
  apply decide_cases in Ed. pose proof (evict_inv l (sys_now s) s Hs) as [Hc Hb Hw Hr]. simpl in *.
  set (j := evict (sys_now s) (sys_inner s)) in *.
  destruct Ed as [(e & He & Hp & -> & ->)|[(e & He & Hp & -> & ->)|[(He & Hroom & -> & ->)|(He & Hroom & -> & ->)]]].
  - by constructor.
  - constructor; simpl.
    + by apply (set_core j key e).
    + by apply (set_bound l j key e).
    + intros k Hk. rewrite phase_set. specialize (Hw k Hk). case_decide; [|done]. subst.
      unfold phase_of in Hw. rewrite He in Hw. simpl in Hw. congruence.
    + intros k. rewrite phase_set, Hr. case_decide; [|done]. subst. unfold phase_of. rewrite He. simpl. by rewrite Hp.
  - by constructor.
  - constructor; simpl.
    + by apply insert_core.
    + by apply insert_bound.
    + intros k Hk. rewrite phase_insert. case_decide; [done|]. by apply Hw.
    + intros k. rewrite phase_insert, elem_of_union, elem_of_singleton, Hr. case_decide; naive_solver.
Qed.

Lemma settle_inv l s key b :
  key ∈ sys_reserved s → sys_inv l s → sys_inv l (step l (OpSettle key b) s).2.
Proof.
  intros Hk [Hc Hb Hw Hr]. apply Hr in Hk as Hp. unfold phase_of in Hp.
  destruct (entries (sys_inner s) !! key) as [e|] eqn:He; [|done]. injection Hp as Hp.
  simpl. destruct b; simpl.
  - rewrite He. set (e' := mkDupEntry (en_deadline e) HandedOff (en_receipt_sent e)).
    pose proof (set_core (sys_inner s) key e e' He eq_refl Hc) as Hc'.
    pose proof (set_bound l (sys_inner s) key e e' He Hb) as Hb'.
    constructor; simpl; try (destruct Hc'; by constructor); try (destruct Hb'; by constructor).
    + intros k [x Hx]. simpl in Hx. apply lookup_delete_Some in Hx as [Hne Hx].
      change (phase_of (set_entry key e' (sys_inner s)) k = Some InFlight). rewrite phase_set, decide_False by done.
      apply Hw. eauto.
    + intros k. change (k ∈ sys_reserved s ∖ {[key]} ↔ phase_of (set_entry key e' (sys_inner s)) k = Some InFlight).
      rewrite phase_set, elem_of_difference, elem_of_singleton, Hr. case_decide; naive_solver.
  - pose proof (remove_core _ key Hc) as Hc'. pose proof (remove_bound l _ key Hb) as Hb'.
    constructor; simpl; try (destruct Hc'; by constructor); try (destruct Hb'; by constructor).
    + intros k [x Hx]. simpl in Hx. rewrite remove_waiters in Hx. apply lookup_delete_Some in Hx as [Hne Hx].
      unfold phase_of. simpl. rewrite remove_lookup, decide_False by done. apply Hw. eauto.
    + intros k. unfold phase_of. simpl. rewrite remove_lookup, elem_of_difference, elem_of_singleton, Hr.
      unfold phase_of. case_decide; naive_solver.
Qed.

Lemma preload_inv l s key deadline :
  sys_inv l s → sys_inv l (step l (OpPreload key deadline) s).2.
Proof.
  intros Hs. pose proof (evict_inv l (sys_now s) s Hs) as He. simpl. unfold insert_handed_off.
  destruct (entries (evict (sys_now s) (sys_inner s)) !! key) eqn:Hk; [done|].
  destruct (has_room l (evict (sys_now s) (sys_inner s)) key) eqn:Hroom; [|done]. simpl.
  destruct He as [Hc Hb Hw Hr]. simpl in *. constructor; simpl.
  - by apply insert_core.
  - by apply insert_bound.
  - intros k Hk'. rewrite phase_insert. specialize (Hw k Hk'). case_decide; [|done]. subst.
    unfold phase_of in Hw. by rewrite Hk in Hw.
  - intros k. rewrite phase_insert, Hr. case_decide; [|done]. subst. unfold phase_of. by rewrite Hk.
Qed.

Lemma when_settled_inv l s key cb :
  sys_inv l s → sys_inv l (step l (OpWhenSettled key cb) s).2.
Proof.
  intros [Hc Hb Hw Hr]. simpl. unfold when_settled. case_bool_decide as Hp; simpl; [|by constructor].
  constructor; simpl; try (destruct Hc; by constructor); try (destruct Hb; by constructor); [|done].
  intros k [x Hx]. simpl in Hx. change (phase_of (sys_inner s) k = Some InFlight).
  apply lookup_insert_Some in Hx as [[<- _]|[_ Hx]]; [done|]. apply Hw. eauto.
Qed.

Lemma step_inv l o s : op_allowed s o → sys_inv l s → sys_inv l (step l o s).2.
Proof.
  intros Ho Hs. destruct o as [t|key d|key b| |key d|key cb].
  - destruct Hs. by constructor.
  - by apply admit_inv.
  - by apply settle_inv.
  - by apply evict_inv.
  - by apply preload_inv.
  - by apply when_settled_inv.
Qed.

Lemma run_inv l s tr s' : run l s tr s' → sys_inv l s → sys_inv l s'.
Proof.
  induction 1 as [|s tr s' o out s'' Hrun IH Ho Hstep]; [done|]. intros Hs.
  specialize (IH Hs). pose proof (step_inv l o s' Ho IH) as H. by rewrite Hstep in H.
Qed.

(** ** No second hand-off before the deadline *)

(** Copies with the same duplicate key are copies of one signed envelope, so they have one
    deadline. *)
Definition deadline_of_op (dl : DuplicateKey → Z) (o : Op) : Prop :=
  match o with OpAdmit k d | OpPreload k d => d = dl k | _ => True end.

Definition deadlines_agree (dl : DuplicateKey → Z) (tr : list (Z * Op * Out)) : Prop :=
  Forall (λ x, deadline_of_op dl x.1.2) tr.

(** A copy with the key was handed off, or its outcome was indeterminate. *)
Definition handed (key : DuplicateKey) (tr : list (Z * Op * Out)) : Prop :=
  ∃ t out, (t, OpSettle key true, out) ∈ tr.

Record ghost_inv (dl : DuplicateKey → Z) (tr : list (Z * Op * Out)) (s : Sys) : Prop := {
  gi_deadline : ∀ k e, entries (sys_inner s) !! k = Some e → en_deadline e = dl k;
  gi_handed : ∀ k, handed k tr →
    phase_of (sys_inner s) k = Some HandedOff ∨ dl k ≤ sys_now s }.

Lemma handed_snoc key tr x :
  handed key (tr ++ [x]) → handed key tr ∨ ∃ t out, x = (t, OpSettle key true, out).
Proof.
  intros (t & out & H). apply elem_of_app in H as [H|H%list_elem_of_singleton]; [left|right]; unfold handed; eauto.
Qed.

(** Evicting keeps a handed-off entry, or its deadline has passed. *)
Lemma evict_handed dl now i k :
  core_inv i → (∀ k e, entries i !! k = Some e → en_deadline e = dl k) →
  phase_of i k = Some HandedOff → phase_of (evict now i) k = Some HandedOff ∨ dl k ≤ now.
Proof.
  intros Hi Hdl Hp. unfold phase_of in *. rewrite evict_lookup by done.
  destruct (entries i !! k) as [e|] eqn:He; [|done]. injection Hp as Hp. specialize (Hdl k e He).
  unfold expired_entry. rewrite Hp, bool_decide_true, andb_true_r by done.
  destruct (en_deadline e <=? now) eqn:E; bool_hyps; [right; lia|left; simpl; congruence].
Qed.

Lemma evict_deadlines dl now i :
  core_inv i → (∀ k e, entries i !! k = Some e → en_deadline e = dl k) →
  ∀ k e, entries (evict now i) !! k = Some e → en_deadline e = dl k.
Proof.
  intros Hi Hdl k e. rewrite evict_lookup by done. destruct (entries i !! k) as [e'|] eqn:He; [|done].
  case_match; [done|]. intros [= <-]. by apply Hdl.
Qed.

(** The ghost invariant only reads the entries' phases and deadlines. *)
Lemma ghost_after_evict dl tr s :
  core_inv (sys_inner s) → ghost_inv dl tr s →
  ghost_inv dl tr (mkSys (sys_now s) (evict (sys_now s) (sys_inner s)) (sys_reserved s)).
Proof.
  intros Hi [H1 H2]. constructor; simpl; [by apply evict_deadlines|]. intros k Hk.
  destruct (H2 k Hk) as [Hp|]; [|by right]. by apply evict_handed.
Qed.

(** Settling as handed off leaves the entry handed off; settling otherwise forgets it. *)
Lemma ghost_settle l dl tr s key b out s' :
  sys_inv l s → key ∈ sys_reserved s → step l (OpSettle key b) s = (out, s') →
  ghost_inv dl tr s → ghost_inv dl (tr ++ [(sys_now s, OpSettle key b, out)]) s'.
Proof.
  intros Hs Ho Hstep [H1 H2]. cbn [step] in Hstep.
  destruct (settle key b (sys_inner s)) as [cbs i'] eqn:Ese. injection Hstep as <- <-.
  apply (si_reserved l s Hs) in Ho as Hp. unfold phase_of in Hp.
  destruct (entries (sys_inner s) !! key) as [e|] eqn:He; [|done]. injection Hp as Hp.
  unfold settle in Ese. destruct b; rewrite ?He in Ese; injection Ese as <- <-.
  + constructor; simpl.
    * intros k e'. intros [[<- <-]|[_ Hk]]%lookup_insert_Some; [simpl; by apply H1|by apply H1].
    * intros k Hk. change (phase_of (set_entry key (mkDupEntry (en_deadline e) HandedOff (en_receipt_sent e)) (sys_inner s)) k = Some HandedOff ∨ dl k ≤ sys_now s).
      rewrite phase_set. case_decide; [by left|].
      apply handed_snoc in Hk as [Hk|(? & ? & [= <-])]; [by apply H2|done].
  + constructor; simpl.
    * intros k e'. rewrite remove_lookup. case_decide; [done|by apply H1].
    * intros k Hk. unfold phase_of. simpl. rewrite remove_lookup.
      apply handed_snoc in Hk as [Hk|(? & ? & ?)]; [|done]. case_decide as Hkk; [subst k|by apply H2].
      destruct (H2 key Hk) as [Hq|]; [|by right]. unfold phase_of in Hq. rewrite He in Hq. simpl in Hq. congruence.
Qed.

Lemma ghost_step l dl tr s o out s' :
  sys_inv l s → op_allowed s o → deadline_of_op dl o → step l o s = (out, s') →
  ghost_inv dl tr s → ghost_inv dl (tr ++ [(sys_now s, o, out)]) s'.
Proof.
  intros Hs Ho Hd Hstep Hg.
  assert (∀ i, ghost_inv dl tr (mkSys (sys_now s) i (sys_reserved s)) → ∀ r x,
    (∀ k, ¬ ∃ t out, x = (t, OpSettle k true, out)) → ghost_inv dl (tr ++ [x]) (mkSys (sys_now s) i r)) as Hkeep.
  { intros i [H1 H2] r x Hx. constructor; [done|]. intros k Hk.
    apply handed_snoc in Hk as [Hk|Hk]; [by apply H2|]. by destruct (Hx k). }
  pose proof (ghost_after_evict dl tr s (si_core l s Hs) Hg) as Hev.
  destruct o as [t|key d|key b| |key d|key cb]; simpl in Hstep, Ho, Hd.
  - injection Hstep as <- <-. destruct Hg as [H1 H2]. constructor; [done|]. simpl. intros k Hk.
    apply handed_snoc in Hk as [Hk|(? & ? & ?)]; [|done]. destruct (H2 k Hk); [by left|right; lia].
  - destruct (store_decide l (sys_now s) key d (sys_inner s)) as [dc i'] eqn:Ed. injection Hstep as <- <-.
    apply Hkeep; [|by intros k (? & ? & ?)].
    apply decide_cases in Ed. destruct Hev as [H1 H2]. simpl in H1, H2.
    destruct Ed as [(e & He & Hp & -> & ->)|[(e & He & Hp & -> & ->)|[(He & Hroom & -> & ->)|(He & Hroom & -> & ->)]]];
      constructor; try done; simpl.
    + intros k e'. intros [[<- <-]|[_ Hk]]%lookup_insert_Some; [simpl; by apply H1|by apply H1].
    + intros k Hk. rewrite phase_set. case_decide; [by left|by apply H2].
    + intros k e'. intros [[<- <-]|[_ Hk]]%lookup_insert_Some; [done|by apply H1].
    + intros k Hk. rewrite phase_insert. case_decide as Hkk; [subst k|by apply H2].
      destruct (H2 key Hk) as [Hp|]; [|by right]. unfold phase_of in Hp. by rewrite He in Hp.
  - by eapply ghost_settle.
  - injection Hstep as <- <-. apply Hkeep; [done|by intros k (? & ? & ?)].
  - destruct (insert_handed_off l (sys_now s) key d (sys_inner s)) as [r i'] eqn:Ei. injection Hstep as <- <-.
    apply Hkeep; [|by intros k (? & ? & ?)]. unfold insert_handed_off in Ei.
    destruct (entries (evict (sys_now s) (sys_inner s)) !! key) eqn:He; [by injection Ei as <- <-|].
    destruct (has_room l _ key); simpl in Ei; injection Ei as <- <-; [|done].
    destruct Hev as [H1 H2]. constructor; simpl.
    + intros k e'. intros [[<- <-]|[_ Hk]]%lookup_insert_Some; [done|by apply H1].
    + intros k Hk. rewrite phase_insert. case_decide; [by left|by apply H2].
  - destruct (when_settled key cb (sys_inner s)) as [cbs i'] eqn:Ew. injection Hstep as <- <-.
    apply Hkeep; [|by intros k (? & ? & ?)]. unfold when_settled in Ew. destruct Hg as [H1 H2].
    case_bool_decide; injection Ew as <- <-; by constructor.
Qed.

Lemma run_ghost l dl now tr s :
  run l (sys_init now) tr s → deadlines_agree dl tr → ghost_inv dl tr s.
Proof.
  remember (sys_init now) as s0 eqn:E. induction 1 as [|s0 tr s' o out s'' Hrun IH Ho Hstep]; subst; intros Hd.
  - constructor; simpl.
    + intros k e. by rewrite lookup_empty.
    + intros k (? & ? & H). by apply elem_of_nil in H.
  - apply Forall_app in Hd as [Hd Hx]. apply Forall_cons in Hx as [Hx _].
    eapply ghost_step; [by eapply run_inv, init_inv|done|exact Hx|done|]. by apply IH.
Qed.

(** A key that was settled as handed off is admitted again only after its deadline. *)
Lemma readmitted_after_deadline (l : Limits) (dl : DuplicateKey → Z) (t0 : Z)
    (tr : list (Z * Op * Out)) (s s' : Sys) (key : DuplicateKey) (deadline : Z) :
  run l (sys_init t0) tr s → deadlines_agree dl tr → handed key tr →
  step l (OpAdmit key deadline) s = (OutDecided (Some (Ok (AdmitTaken key))), s') →
  dl key ≤ sys_now s.
Proof.
  intros Hrun Hd Hh Hstep. pose proof (run_inv _ _ _ _ Hrun (init_inv l t0)) as Hs.
  pose proof (ghost_after_evict dl tr s (si_core l s Hs) (run_ghost _ _ _ _ _ Hrun Hd)) as [_ Hg].
  destruct (Hg key Hh) as [Hp|]; [|done]. simpl in Hp, Hstep.
  destruct (store_decide l (sys_now s) key deadline (sys_inner s)) as [d i'] eqn:Ed.
  injection Hstep as -> _. apply decide_cases in Ed. unfold phase_of in Hp.
  destruct Ed as [(e & He & ? & ? & ?)|[(e & He & ? & ? & ?)|[(He & ? & ? & ?)|(He & ? & ? & ?)]]]; try done.
  by rewrite He in Hp.
Qed.

(** [C28] No second hand-off before the deadline: in every run of the store, with any
    interleaving of admissions, settlements, evictions and callbacks and a clock that does
    not go backwards, once a copy of an envelope has been settled as handed off, a further
    copy with its duplicate key is admitted only at or after the envelope's hand-off
    deadline. *)
Theorem no_readmission_before_deadline (l : Limits) (dl : DuplicateKey → Z) (t0 : Z)
    (tr : list (Z * Op * Out)) (s s' : Sys) (key : DuplicateKey) (deadline : Z) :
  run l (sys_init t0) tr s → deadlines_agree dl tr → handed key tr →
  step l (OpAdmit key deadline) s = (OutDecided (Some (Ok (AdmitTaken key))), s') →
  dl key ≤ sys_now s.
Proof. apply readmitted_after_deadline. Qed.

Definition sample_dup : DuplicateKey := mkDupKey (bs "k") (bs "n").

(** A key admitted, settled as handed off, and admitted again once its deadline passed. *)
Definition sample_ops : list Op :=
  [OpAdmit sample_dup 10; OpSettle sample_dup true; OpAdmit sample_dup 10; OpTick 10].

Fixpoint run_ops (l : Limits) (ops : list Op) (s : Sys) : list (Z * Op * Out) * Sys :=
  match ops with
  | [] => ([], s)
  | o :: rest =>
      let '(out, s') := step l o s in
      let '(tr, s'') := run_ops l rest s' in ((sys_now s, o, out) :: tr, s'')
  end.

Lemma run_cons l s o out s1 tr s2 :
  op_allowed s o → step l o s = (out, s1) → run l s1 tr s2 → run l s ((sys_now s, o, out) :: tr) s2.
Proof.
  intros Ho Hs Hr. remember s1 as s1' eqn:E. revert E.
  induction Hr as [s0|s0 tr s' o' out' s'' Hrun IH Ho' Hstep]; intros ->.
  - apply (run_snoc l s [] s o out s1); [constructor|done|done].
  - rewrite app_comm_cons. eapply run_snoc; [by apply IH|done|done].
Qed.

#[export] Instance op_allowed_dec s o : Decision (op_allowed s o).
Proof. destruct o; simpl; apply _. Defined.

Fixpoint ops_allowed (l : Limits) (ops : list Op) (s : Sys) : bool :=
  match ops with
  | [] => true
  | o :: rest => bool_decide (op_allowed s o) && ops_allowed l rest (step l o s).2
  end.

(** An executable run is a run of the machine. *)
Lemma run_ops_run l ops s :
  ops_allowed l ops s = true → run l s (run_ops l ops s).1 (run_ops l ops s).2.
Proof.
  revert s. induction ops as [|o ops IH]; intros s H; [constructor|]. simpl in H |- *.
  apply andb_true_iff in H as [Ho H]. apply bool_decide_eq_true in Ho.
  destruct (step l o s) as [out s'] eqn:E. simpl in H. specialize (IH s' H).
  destruct (run_ops l ops s') as [tr s''] eqn:E2. simpl in *. by eapply run_cons.
Qed.

Lemma no_readmission_before_deadline_witness :
  let s := (run_ops (with_capacity 8) sample_ops (sys_init 0)).2 in
  (step (with_capacity 8) (OpAdmit sample_dup 10) s).1 = OutDecided (Some (Ok (AdmitTaken sample_dup))) ∧
  10 ≤ sys_now s.
Proof.
  set (s := (run_ops (with_capacity 8) sample_ops (sys_init 0)).2).
  split; [vm_compute; reflexivity|].
  apply (no_readmission_before_deadline (with_capacity 8) (λ _, 10) 0
    (run_ops (with_capacity 8) sample_ops (sys_init 0)).1 s
    (step (with_capacity 8) (OpAdmit sample_dup 10) s).2 sample_dup 10).
  - apply run_ops_run. vm_compute. reflexivity.
  - unfold deadlines_agree. apply Forall_forall. intros x Hx. vm_compute in Hx.
    repeat (apply elem_of_cons in Hx as [->|Hx]; [vm_compute; try reflexivity; exact I|]).
    apply elem_of_nil in Hx. destruct Hx.
  - exists 0, (OutRan []). vm_compute. apply list_elem_of_further, list_elem_of_here.
  - vm_compute. reflexivity.
Defined.

(** [C29] The store keeps its books and its bounds: in every state a run reaches, the deadline
    index holds exactly the entries' deadlines, every key id's count is the number of its
    entries, no more than [capacity] entries are held and no key id holds more than its
    share, and the reservations callers hold are exactly the entries in flight. *)
Theorem store_invariant (l : Limits) (t0 : Z) (tr : list (Z * Op * Out)) (s : Sys) :
  run l (sys_init t0) tr s →
  let i := sys_inner s in
  (∀ d k, (d, k) ∈ by_deadline i ↔ ∃ e, entries i !! k = Some e ∧ en_deadline e = d) ∧
  (∀ id, held_by i id = entries_of i id) ∧
  (size (entries i) ≤ st_capacity l)%nat ∧
  (∀ id, (held_by i id ≤ st_per_key_share l)%nat) ∧
  (∀ k, k ∈ sys_reserved s ↔ phase_of i k = Some InFlight).
Proof.
  intros Hrun i. destruct (run_inv _ _ _ _ Hrun (init_inv l t0)) as [Hc Hb _ Hr].
  split_and!.
  - apply (inv_index _ Hc).
  - apply (inv_count _ Hc).
  - apply (inv_capacity _ _ Hb).
  - intros id. rewrite (inv_count _ Hc). apply (inv_share _ _ Hb).
  - exact Hr.
Qed.

Lemma store_invariant_witness :
  (size (entries (sys_inner (run_ops (with_capacity 8) sample_ops (sys_init 0)).2)) ≤
   st_capacity (with_capacity 8))%nat.
Proof.
  pose proof (store_invariant (with_capacity 8) 0 (run_ops (with_capacity 8) sample_ops (sys_init 0)).1
    (run_ops (with_capacity 8) sample_ops (sys_init 0)).2
    (run_ops_run (with_capacity 8) sample_ops (sys_init 0) ltac:(vm_compute; reflexivity))) as (_ & _ & H & _).
  exact H.
Defined.

(** ** At most one duplicate receipt per entry *)

Definition is_receipt (key : DuplicateKey) (x : Z * Op * Out) : bool :=
  match x with
  | (_, OpAdmit k _, OutDecided (Some (Ok (Duplicate true)))) => bool_decide (k = key)
  | _ => false
  end.

(** Steps that may add an entry for the key. *)
Definition is_creation (key : DuplicateKey) (x : Z * Op * Out) : bool :=
  match x with
  | (_, OpAdmit _ _, OutDecided (Some (Ok (AdmitTaken k)))) => bool_decide (k = key)
  | (_, OpPreload k _, OutPreloaded (Ok _)) => bool_decide (k = key)
  | _ => false
  end.

Definition count_if {A} (p : A → bool) (l : list A) : nat := length (List.filter p l).

Lemma count_if_snoc {A} (p : A → bool) l x : count_if p (l ++ [x]) = (count_if p l + if p x then 1 else 0)%nat.
Proof. unfold count_if. rewrite List.filter_app, length_app. simpl. by destruct (p x). Qed.

(** One while the key's entry could still draw its receipt. *)
Definition receipt_left (i : Inner) (key : DuplicateKey) : nat :=
  match entries i !! key with Some e => if en_receipt_sent e then 0 else 1 | None => 0 end%nat.

Lemma receipt_left_evict now i key :
  core_inv i → (receipt_left (evict now i) key ≤ receipt_left i key)%nat.
Proof.
  intros Hi. unfold receipt_left. rewrite evict_lookup by done.
  destruct (entries i !! key) as [e|]; [|lia]. destruct (expired_entry now e); [|lia].
  destruct (en_receipt_sent e); lia.
Qed.

Lemma receipts_step l s o out s' key n c :
  sys_inv l s → op_allowed s o → step l o s = (out, s') →
  (n + receipt_left (sys_inner s) key ≤ c)%nat →
  ((n + if is_receipt key (sys_now s, o, out) then 1 else 0) + receipt_left (sys_inner s') key ≤
   c + if is_creation key (sys_now s, o, out) then 1 else 0)%nat.
Proof.
  intros Hs Ho Hstep Hn. pose proof (receipt_left_evict (sys_now s) _ key (si_core l s Hs)) as Hev.
  destruct o as [t|k d|k b| |k d|k cb]; cbn [step op_allowed] in Hstep, Ho.
  - injection Hstep as <- <-. simpl. lia.
  - destruct (store_decide l (sys_now s) k d (sys_inner s)) as [dc i'] eqn:Ed. injection Hstep as <- <-.
    apply decide_cases in Ed.
    destruct Ed as [(e & He & Hp & -> & ->)|[(e & He & Hp & -> & ->)|[(He & Hroom & -> & ->)|(He & Hroom & -> & ->)]]];
      simpl; try lia.
    + unfold receipt_left at 1 in Hev. unfold receipt_left at 1. simpl.
      destruct (decide (k = key)) as [->|Hne].
      * rewrite lookup_insert_eq. simpl. rewrite He in Hev. destruct (en_receipt_sent e); simpl; [lia|].
        rewrite bool_decide_true by done. lia.
      * rewrite lookup_insert_ne by done. destruct (en_receipt_sent e); simpl; [|rewrite bool_decide_false by done]; lia.
    + unfold receipt_left at 1. simpl. unfold receipt_left at 1 in Hev.
      destruct (decide (k = key)) as [->|Hne].
      * rewrite lookup_insert_eq, bool_decide_true by done. simpl. lia.
      * rewrite lookup_insert_ne, bool_decide_false by done. lia.
  - destruct (settle k b (sys_inner s)) as [cbs i'] eqn:Ese. injection Hstep as <- <-. simpl.
    assert (receipt_left i' key ≤ receipt_left (sys_inner s) key)%nat; [|lia].
    unfold settle in Ese. destruct b; injection Ese as <- <-.
    + destruct (entries (sys_inner s) !! k) as [e|] eqn:He; [|done]. unfold receipt_left. simpl.
      destruct (decide (k = key)) as [->|Hne]; [by rewrite lookup_insert_eq, He|by rewrite lookup_insert_ne].
    + unfold receipt_left. simpl. rewrite remove_lookup. case_decide; [lia|done].
  - injection Hstep as <- <-. simpl. lia.
  - destruct (insert_handed_off l (sys_now s) k d (sys_inner s)) as [r i'] eqn:Ei. injection Hstep as <- <-. simpl.
    unfold insert_handed_off in Ei. destruct (entries (evict (sys_now s) (sys_inner s)) !! k) eqn:He.
    { injection Ei as <- <-. lia. }
    destruct (has_room l _ k); simpl in Ei; injection Ei as <- <-; [|lia].
    unfold receipt_left at 1. simpl. unfold receipt_left at 1 in Hev. destruct (decide (k = key)) as [->|Hne].
    + rewrite lookup_insert_eq, bool_decide_true by done. simpl. lia.
    + rewrite lookup_insert_ne, bool_decide_false by done. lia.
  - destruct (when_settled k cb (sys_inner s)) as [cbs i'] eqn:Ew. injection Hstep as <- <-. simpl.
    unfold when_settled in Ew. case_bool_decide; injection Ew as <- <-; unfold receipt_left in *; simpl; lia.
Qed.

Lemma run_receipts l now tr s key :
  run l (sys_init now) tr s →
  (count_if (is_receipt key) tr + receipt_left (sys_inner s) key ≤ count_if (is_creation key) tr)%nat.
Proof.
  remember (sys_init now) as s0 eqn:E. induction 1 as [|s0 tr s' o out s'' Hrun IH Ho Hstep]; subst.
  - unfold receipt_left. simpl. rewrite lookup_empty. done.
  - rewrite !count_if_snoc. eapply receipts_step; [by eapply run_inv, init_inv|done|done|]. by apply IH.
Qed.

(** At most one duplicate receipt per entry: over any run, the copies that were told
    they may draw a duplicate receipt for a key are no more than the entries that were added
    for it, however often copies are replayed. *)
Theorem one_duplicate_receipt_per_entry (l : Limits) (t0 : Z) (tr : list (Z * Op * Out)) (s : Sys)
    (key : DuplicateKey) :
  run l (sys_init t0) tr s →
  (count_if (is_receipt key) tr ≤ count_if (is_creation key) tr)%nat.
Proof. intros H. pose proof (run_receipts _ _ _ _ key H). lia. Qed.

Definition replayed_ops : list Op :=
  [OpAdmit sample_dup 10; OpSettle sample_dup true; OpAdmit sample_dup 10; OpAdmit sample_dup 10].

Lemma one_duplicate_receipt_per_entry_witness :
  (count_if (is_receipt sample_dup) (run_ops (with_capacity 8) replayed_ops (sys_init 0)).1 ≤
   count_if (is_creation sample_dup) (run_ops (with_capacity 8) replayed_ops (sys_init 0)).1)%nat.
Proof.
  exact (one_duplicate_receipt_per_entry (with_capacity 8) 0
    (run_ops (with_capacity 8) replayed_ops (sys_init 0)).1
    (run_ops (with_capacity 8) replayed_ops (sys_init 0)).2 sample_dup
    (run_ops_run (with_capacity 8) replayed_ops (sys_init 0) ltac:(vm_compute; reflexivity))).
Defined.

Example replayed_receipts :
  count_if (is_receipt sample_dup) (run_ops (with_capacity 8) replayed_ops (sys_init 0)).1 = 1%nat.
Proof. vm_compute. reflexivity. Qed.

(** ** No callback is lost *)

(** The callbacks still waiting, registered in a run, and run in it. *)
Definition waiting (i : Inner) : list nat := mjoin (map_to_list (waiters i)).*2.

Definition registered (x : Z * Op * Out) : list nat :=
  match x with (_, OpWhenSettled _ cb, _) => [cb] | _ => [] end.

Definition ran (x : Z * Op * Out) : list nat := match x with (_, _, OutRan cbs) => cbs | _ => [] end.

Lemma mjoin_perm {A} (l k : list (list A)) : l ≡ₚ k → mjoin l ≡ₚ mjoin k.
Proof.
  induction 1 as [|x l k Hp IH|x y l|l k m Hp1 IH1 Hp2 IH2]; simpl.
  - done.
  - by rewrite IH.
  - by rewrite !app_assoc, (Permutation_app_comm x y).
  - by rewrite IH1.
Qed.

(** Taking one key's callbacks out of the map. *)
Lemma waiting_delete (w : gmap DuplicateKey (list nat)) k :
  mjoin (map_to_list w).*2 ≡ₚ default [] (w !! k) ++ mjoin (map_to_list (delete k w)).*2.
Proof.
  destruct (w !! k) as [x|] eqn:E; simpl.
  - rewrite <- (insert_delete_id w k x E) at 1.
    assert ((map_to_list (<[k:=x]> (delete k w))).*2 ≡ₚ x :: (map_to_list (delete k w)).*2) as Hp.
    { rewrite map_to_list_insert by apply lookup_delete_eq. done. }
    rewrite (mjoin_perm _ _ Hp). done.
  - by rewrite delete_id.
Qed.

Lemma callbacks_step l s o out s' :
  op_allowed s o → step l o s = (out, s') →
  waiting (sys_inner s) ++ registered (sys_now s, o, out) ≡ₚ
  ran (sys_now s, o, out) ++ waiting (sys_inner s').
Proof.
  intros Ho Hstep.
  destruct o as [t|k d|k b| |k d|k cb]; cbn [step op_allowed] in Hstep, Ho; unfold registered, ran.
  - injection Hstep as <- <-. by rewrite app_nil_r.
  - destruct (store_decide l (sys_now s) k d (sys_inner s)) as [dc i'] eqn:Ed. injection Hstep as <- <-.
    rewrite app_nil_r. simpl. apply decide_cases in Ed. unfold waiting.
    destruct Ed as [(e & He & Hp & -> & ->)|[(e & He & Hp & -> & ->)|[(He & Hroom & -> & ->)|(He & Hroom & -> & ->)]]];
      cbn [waiters set_entry inner_insert]; by rewrite evict_waiters.
  - destruct (settle k b (sys_inner s)) as [cbs i'] eqn:Ese. injection Hstep as <- <-. rewrite app_nil_r.
    unfold settle in Ese. injection Ese as <- <-. unfold waiting. cbn [sys_inner waiters].
    assert (waiters (if b then match entries (sys_inner s) !! k with
      | Some e => mkInner (<[k:=mkDupEntry (en_deadline e) HandedOff (en_receipt_sent e)]> (entries (sys_inner s)))
          (by_deadline (sys_inner s)) (per_key (sys_inner s)) (waiters (sys_inner s))
      | None => sys_inner s end else inner_remove k (sys_inner s)) = waiters (sys_inner s)) as ->.
    { destruct b; [by destruct (entries (sys_inner s) !! k)|apply remove_waiters]. }
    apply waiting_delete.
  - injection Hstep as <- <-. rewrite app_nil_r. simpl. unfold waiting. by rewrite evict_waiters.
  - destruct (insert_handed_off l (sys_now s) k d (sys_inner s)) as [r i'] eqn:Ei. injection Hstep as <- <-.
    rewrite app_nil_r. simpl. unfold insert_handed_off in Ei. unfold waiting.
    assert (waiters i' = waiters (sys_inner s)) as ->; [|done].
    destruct (entries (evict (sys_now s) (sys_inner s)) !! k); [injection Ei as <- <-; apply evict_waiters|].
    destruct (has_room l _ k); simpl in Ei; injection Ei as <- <-; [cbn [waiters inner_insert]|]; apply evict_waiters.
  - destruct (when_settled k cb (sys_inner s)) as [cbs i'] eqn:Ew. injection Hstep as <- <-.
    unfold when_settled in Ew. case_bool_decide; injection Ew as <- <-.
    + unfold waiting. cbn [sys_inner waiters app]. rewrite (waiting_delete (waiters (sys_inner s)) k).
      rewrite (waiting_delete (<[k:=_]> _) k), lookup_insert_eq. simpl. rewrite delete_insert_eq.
      rewrite <- !app_assoc. by apply Permutation_app_head, Permutation_app_comm.
    + unfold waiting. cbn [sys_inner]. by rewrite Permutation_app_comm.
Qed.

Lemma run_callbacks l now tr s :
  run l (sys_init now) tr s →
  mjoin (map registered tr) ≡ₚ mjoin (map ran tr) ++ waiting (sys_inner s).
Proof.
  remember (sys_init now) as s0 eqn:E. induction 1 as [|s0 tr s' o out s'' Hrun IH Ho Hstep]; subst; [done|].
  rewrite !map_app. unfold mjoin. rewrite !join_app. simpl. rewrite !app_nil_r.
  specialize (IH eq_refl). unfold mjoin in IH. rewrite IH.
  rewrite <- !app_assoc. apply Permutation_app_head. by eapply callbacks_step.
Qed.

(** No callback is lost and none runs twice: over any run, the callbacks registered with
    [when_settled] are exactly those that have run together with those waiting; and once no
    hand-off is in flight, each has run exactly once. *)
Theorem callbacks_run_once (l : Limits) (t0 : Z) (tr : list (Z * Op * Out)) (s : Sys) :
  run l (sys_init t0) tr s →
  mjoin (map registered tr) ≡ₚ mjoin (map ran tr) ++ waiting (sys_inner s) ∧
  (sys_reserved s = ∅ → mjoin (map registered tr) ≡ₚ mjoin (map ran tr)).
Proof.
  intros Hrun. pose proof (run_callbacks _ _ _ _ Hrun) as Hp. split; [done|]. intros He.
  destruct (run_inv _ _ _ _ Hrun (init_inv l t0)) as [_ _ Hw Hr].
  assert (waiters (sys_inner s) = ∅) as Hempty.
  { apply map_empty. intros k. destruct (waiters (sys_inner s) !! k) eqn:E; [|done].
    assert (k ∈ sys_reserved s) as Hk by (apply Hr, Hw; eauto). set_solver. }
  unfold waiting in Hp. rewrite Hempty, map_to_list_empty in Hp. simpl in Hp. by rewrite app_nil_r in Hp.
Qed.

Definition callback_ops : list Op :=
  [OpAdmit sample_dup 10; OpWhenSettled sample_dup 1; OpWhenSettled sample_dup 2; OpSettle sample_dup false;
   OpWhenSettled sample_dup 3].

Lemma callbacks_run_once_witness :
  mjoin (map registered (run_ops (with_capacity 8) callback_ops (sys_init 0)).1) ≡ₚ
  mjoin (map ran (run_ops (with_capacity 8) callback_ops (sys_init 0)).1).
Proof.
  apply (proj2 (callbacks_run_once (with_capacity 8) 0
    (run_ops (with_capacity 8) callback_ops (sys_init 0)).1
    (run_ops (with_capacity 8) callback_ops (sys_init 0)).2
    (run_ops_run (with_capacity 8) callback_ops (sys_init 0) ltac:(vm_compute; reflexivity)))).
  vm_compute. reflexivity.
Defined.

(** ** The decision *)

Lemma with_limits_share c sh : (1 ≤ st_per_key_share (with_limits c sh))%nat.
Proof. unfold with_limits, clamp. simpl. lia. Qed.

(** The outcome of step 5, in any reached state of a store made by [with_limits]: a
    copy waits exactly when its entry is in flight; it is a duplicate exactly when a
    handed-off entry outlives the clock's reading; it is refused as full only when no entry
    holds its key and its key id is at its share or leaves less headroom than it holds; and
    a key id that holds nothing is refused only by a full store. *)
Theorem decide_outcome (c sh : nat) (t0 : Z) (tr : list (Z * Op * Out)) (s : Sys)
    (key : DuplicateKey) (deadline : Z) :
  run (with_limits c sh) (sys_init t0) tr s →
  let i := sys_inner s in
  let j := evict (sys_now s) i in
  match (store_decide (with_limits c sh) (sys_now s) key deadline i).1 with
  | None => phase_of i key = Some InFlight
  | Some (Ok (Duplicate _)) =>
      ∃ e, entries i !! key = Some e ∧ en_phase e = HandedOff ∧ sys_now s < en_deadline e
  | Some (Ok (AdmitTaken k)) => k = key ∧ entries j !! key = None
  | Some (Err r) =>
      r = full ∧ entries j !! key = None ∧
      (st_per_key_share (with_limits c sh) ≤ held_by j (dup_key_id key) ∨
       c ≤ size (entries j) + held_by j (dup_key_id key))%nat ∧
      (held_by j (dup_key_id key) = 0%nat → c ≤ size (entries j))%nat
  end.
Proof.
  intros Hrun i j. pose proof (run_inv _ _ _ _ Hrun (init_inv _ t0)) as Hs.
  destruct (store_decide (with_limits c sh) (sys_now s) key deadline i) as [d i'] eqn:Ed. simpl.
  apply decide_cases in Ed. fold j in Ed. pose proof (si_core _ _ Hs) as Hc. fold i in Hc.
  destruct Ed as [(e & He & Hp & -> & ->)|[(e & He & Hp & -> & ->)|[(He & Hroom & -> & ->)|(He & Hroom & -> & ->)]]].
  - apply (evict_phase (sys_now s) i key Hc). unfold phase_of. fold j. by rewrite He, <- Hp.
  - unfold j in He. rewrite (evict_lookup (sys_now s) i key Hc) in He.
    destruct (entries i !! key) as [e'|]; [|done]. destruct (expired_entry (sys_now s) e') eqn:Ex; [done|].
    injection He as <-. exists e'. split_and!; [done|done|]. unfold expired_entry in Ex.
    rewrite Hp, bool_decide_true, andb_true_r in Ex by done. lia.
  - unfold has_room, inner_has_room in Hroom. pose proof (with_limits_share c sh).
    apply andb_false_iff in Hroom. split_and!; [done|done| |].
    + destruct Hroom as [H1|H1]; [left|right]; apply Nat.ltb_ge in H1; simpl in *; lia.
    + intros H0. rewrite H0 in Hroom. destruct Hroom as [H1|H1]; apply Nat.ltb_ge in H1; simpl in *; lia.
  - done.
Qed.

Lemma decide_outcome_witness :
  (store_decide (with_limits 1 1) 0 sample_dup 10 inner_default).1 = Some (Ok (AdmitTaken sample_dup)) ∧
  entries (evict 0 inner_default) !! sample_dup = None.
Proof.
  split; [vm_compute; reflexivity|].
  pose proof (decide_outcome 1 1 0 [] (sys_init 0) sample_dup 10 (run_nil _ _)) as H.
  exact (proj2 H).
Defined.

(** ** The window and the deadline *)

(** The hand-off deadline fits the arrival checks: it is the earlier of the expiry
    instant and the end of the replay window, it passes no sooner than the checks on arrival
    allow (an envelope inside the window and not expired at [now] is not refused at [now]),
    and once it has passed, every later reading refuses the envelope with [expired] and the
    code of the bound that binds. *)
Theorem deadline_spec (env : Envelope) (now later : Timestamp) :
  let d := HandOffDeadline_of env in
  hd_unix_nanos d =
    match expiry_unix_nanos env with
    | Some e => Z.min e (unix_nanos (env_created_at env) + WINDOW_NANOS)
    | None => unix_nanos (env_created_at env) + WINDOW_NANOS
    end ∧
  (inside_replay_window (env_created_at env) now = true → is_expired_at env now = false →
   refusal_at d now = None) ∧
  (passed_at d now = true → unix_nanos now ≤ unix_nanos later →
   ∃ c, refusal_at d later = Some (D_Expired, c) ∧ fits_receipt c D_Expired O_Receiver = true ∧
        (c = E_Expired ↔ ∃ e, expiry_unix_nanos env = Some e ∧ hd_unix_nanos d = e)).
Proof.
  cbv zeta. unfold HandOffDeadline_of, refusal_at, passed_at, inside_replay_window, is_expired_at.
  destruct (expiry_unix_nanos env) as [e|] eqn:Ee.
  - destruct (e <=? unix_nanos (env_created_at env) + WINDOW_NANOS) eqn:Ew; bool_hyps; simpl; split_and!; try lia.
    + intros Hw Hx. unfold then_some. replace (e <=? unix_nanos now) with false by lia. done.
    + intros Hp Hl. replace (e <=? unix_nanos later) with true by lia. simpl. eexists. split_and!; [done|done|].
      split; eauto.
    + intros Hw Hx. bool_hyps. unfold then_some.
      replace (unix_nanos (env_created_at env) + WINDOW_NANOS <=? unix_nanos now) with false by lia. done.
    + intros Hp Hl. replace (unix_nanos (env_created_at env) + WINDOW_NANOS <=? unix_nanos later) with true by lia.
      simpl. eexists. split_and!; [done|done|]. split; [done|]. intros (x & [= <-] & ?). lia.
  - simpl. split_and!; [done| |].
    + intros Hw _. bool_hyps. unfold then_some.
      replace (unix_nanos (env_created_at env) + WINDOW_NANOS <=? unix_nanos now) with false by lia. done.
    + intros Hp Hl. replace (unix_nanos (env_created_at env) + WINDOW_NANOS <=? unix_nanos later) with true by lia.
      simpl. eexists. split_and!; [done|done|]. split; [done|]. intros (x & ? & ?). done.
Qed.

Lemma deadline_spec_witness : refusal_at (HandOffDeadline_of sample_envelope) sample_time = None.
Proof.
  destruct (deadline_spec sample_envelope sample_time sample_time) as (_ & H & _).
  apply H; vm_compute; reflexivity.
Defined.
