(* ===== verification/Receipt.v ===== *)
(** * Delivery receipts ([core/src/receipt.rs])

    Reading a receipt in the order of its checks, building the receipts an implementation
    reports, and the state a peer processes a receipt as. *)

From S2P Require Import Prelude Ids Utf8 Json JsonFacts JsonReader JsonText.
From S2P Require Import Delivery Envelope EnvelopeFacts.

Inductive ReceiptError : Type :=
| RE_Known (c : ErrorCode)
| RE_Unrecognized (s : list Z).

Definition ReceiptError_as_str (e : ReceiptError) : list Z :=
  match e with RE_Known c => ErrorCode_as_str c | RE_Unrecognized s => s end.

Inductive ReceiptViolation : Type :=
| RV_NotIJsonObject | RV_MissingMember | RV_NotToken | RV_UnknownState | RV_BadObserver
| RV_StateNotForObserver | RV_BadTimestamp | RV_MissingError | RV_UnexpectedError
| RV_BadErrorForm | RV_ErrorNotForState.

Record DeliveryReceipt := mkReceipt {
  rc_envelope_id : Token;
  rc_envelope_from : Token;
  rc_state : DeliveryState;
  rc_observer : Observer;
  rc_error : option ReceiptError;
  rc_observed_at : Timestamp;
  rc_wire : JsonObject }.

(** ** Reading *)

Definition receipt_members : list (list Z) :=
  [bs "envelope_id"; bs "envelope_from"; bs "state"; bs "observer"; bs "observed_at"].

(** The [match] on [state.carries_error()] and the [error] member. *)
Definition read_receipt_error (state : DeliveryState) (observer : Observer) (member : option Json)
    : result ReceiptViolation (option ReceiptError) :=
  match carries_error state, member with
  | true, None => Err RV_MissingError
  | false, Some _ => Err RV_UnexpectedError
  | false, None => Ok None
  | true, Some e =>
      e ← ok_or (opt_filter is_error_code_form (as_str e)) RV_BadErrorForm;
      match ErrorCode_parse e with
      | Some code =>
          if negb (fits_receipt code state observer) then Err RV_ErrorNotForState
          else Ok (Some (RE_Known code))
      | None => Ok (Some (RE_Unrecognized e))
      end
  end.

Definition receipt_from_json (v : Json) : result ReceiptViolation DeliveryReceipt :=
  o ← ok_or (opt_filter (λ _, negb (contains_null v)) (as_object v)) RV_NotIJsonObject;
  if existsb (λ m, negb (obj_contains o m)) receipt_members then Err RV_MissingMember
  else
    let token m := ok_or (s ← get_str o m; Token_parse s) RV_NotToken in
    envelope_id ← token (bs "envelope_id");
    envelope_from ← token (bs "envelope_from");
    state ← ok_or (s ← get_str o (bs "state"); DeliveryState_parse s) RV_UnknownState;
    observer ← ok_or (s ← get_str o (bs "observer"); Observer_parse s) RV_BadObserver;
    if negb (allowed_for state observer) then Err RV_StateNotForObserver
    else
      observed_at ← ok_or (s ← get_str o (bs "observed_at"); Timestamp_parse s) RV_BadTimestamp;
      error ← read_receipt_error state observer (obj_get o (bs "error"));
      Ok (mkReceipt envelope_id envelope_from state observer error observed_at o).

Definition receipt_from_octets (octets : list Z) : result ReceiptViolation DeliveryReceipt :=
  v ← map_err (λ _, RV_NotIJsonObject) (parse octets);
  receipt_from_json v.

(** ** Building *)

Definition receipt_wire (envelope_id envelope_from : Token) (state : DeliveryState)
    (observer : Observer) (error : option ErrorCode) (observed_at : Timestamp) : JsonObject :=
  let wire := obj_insert [] (bs "envelope_id") (JString envelope_id) in
  let wire := obj_insert wire (bs "envelope_from") (JString envelope_from) in
  let wire := obj_insert wire (bs "state") (JString (DeliveryState_as_str state)) in
  let wire := obj_insert wire (bs "observer") (JString (Observer_as_str observer)) in
  let wire := insert_opt wire (bs "error") ((λ c, JString (ErrorCode_as_str c)) <$> error) in
  obj_insert wire (bs "observed_at") (JString (ts_text observed_at)).

Definition DeliveryReceipt_new (envelope_id envelope_from : Token) (state : DeliveryState)
    (observer : Observer) (error : option ErrorCode) (observed_at : Timestamp)
    : result ReceiptViolation DeliveryReceipt :=
  if negb (allowed_for state observer) then Err RV_StateNotForObserver
  else
    let built :=
      Ok (mkReceipt envelope_id envelope_from state observer (RE_Known <$> error) observed_at
            (receipt_wire envelope_id envelope_from state observer error observed_at)) in
    match carries_error state, error with
    | true, None => Err RV_MissingError
    | false, Some _ => Err RV_UnexpectedError
    | true, Some c => if negb (fits_receipt c state observer) then Err RV_ErrorNotForState else built
    | false, None => built
    end.

Definition effective_state (r : DeliveryReceipt) : DeliveryState :=
  match rc_error r with
  | Some (RE_Unrecognized _) =>
      if bool_decide (rc_state r ≠ D_Duplicate) then D_Failed else rc_state r
  | _ => rc_state r
  end.

Definition receipt_to_octets (r : DeliveryReceipt) : list Z := to_compact (JObject (rc_wire r)).

(** ** Facts *)

(** The arguments a receipt is built from: values of the types [Token] and [Timestamp]. *)
Definition receipt_args (id from : Token) (at_ : Timestamp) : Prop :=
  is_token id = true ∧ is_token from = true ∧ Timestamp_parse (ts_text at_) = Some at_.

(** A state and an error that Table 8.3 allows together for an observer. *)
Definition fits_report (d : DeliveryState) (o : Observer) (e : option ErrorCode) : bool :=
  allowed_for d o &&
  match e with None => negb (carries_error d) | Some c => fits_receipt c d o end.

Lemma fits_carries c d o : fits_receipt c d o = true → carries_error d = true.
Proof. intros H. apply (fits_receipt_spec d o). by exists c. Qed.

(** [new] succeeds exactly on the combinations of Table 8.3. *)
Lemma new_Ok id from d o e at_ :
  fits_report d o e = true →
  DeliveryReceipt_new id from d o e at_ =
    Ok (mkReceipt id from d o (RE_Known <$> e) at_ (receipt_wire id from d o e at_)).
Proof.
  unfold fits_report, DeliveryReceipt_new. intros [-> He]%andb_true_iff. simpl.
  destruct e as [c|].
  - rewrite (fits_carries _ _ _ He). by rewrite He.
  - apply negb_true_iff in He. by rewrite He.
Qed.

Lemma new_fits id from d o e at_ r :
  DeliveryReceipt_new id from d o e at_ = Ok r → fits_report d o e = true.
Proof.
  unfold fits_report, DeliveryReceipt_new. destruct (allowed_for d o); [|done]. simpl.
  destruct (carries_error d), e as [c|]; try done. by destruct (fits_receipt c d o).
Qed.

(** Text whose octets are all below 128, by evaluation. *)
Lemma ascii_const l : forallb (in_range 0 127) l = true → ascii l.
Proof.
  intros H. apply Forall_forallb in H. eapply Forall_impl; [exact H|]. intros b Hb.
  apply in_range_true in Hb. simpl. lia.
Qed.

Lemma state_ascii d : ascii (DeliveryState_as_str d).
Proof. apply ascii_const. destruct d; vm_compute; reflexivity. Qed.
Lemma observer_ascii o : ascii (Observer_as_str o).
Proof. apply ascii_const. destruct o; vm_compute; reflexivity. Qed.
Lemma error_code_ascii c : ascii (ErrorCode_as_str c).
Proof. apply ascii_const. destruct c; vm_compute; reflexivity. Qed.
#[export] Hint Resolve state_ascii observer_ascii error_code_ascii : oac.

Lemma error_code_form c : is_error_code_form (ErrorCode_as_str c) = true.
Proof. destruct c; vm_compute; reflexivity. Qed.

Lemma receipt_wire_wf id from d o e at_ :
  receipt_args id from at_ → wf_json (JObject (receipt_wire id from d o e at_)).
Proof.
  intros (Hi & Hf & Ht). unfold receipt_wire.
  repeat first [apply wf_insert|apply wf_insert_opt]; try (by apply ascii_bs); try apply wf_empty;
    try (apply wf_str); auto with oac.
  - by apply token_ascii.
  - by apply token_ascii.
  - intros v Hv. destruct e as [c|]; [|done]. injection Hv as <-. apply wf_str. auto with oac.
  - by eapply timestamp_ascii.
Qed.

Lemma receipt_wire_no_null id from d o e at_ :
  contains_null (JObject (receipt_wire id from d o e at_)) = false.
Proof.
  rewrite contains_null_object. unfold receipt_wire.
  repeat first [apply contains_null_insert|apply contains_null_insert_opt]; try done.
  intros v Hv. destruct e; [|done]. by injection Hv as <-.
Qed.

Lemma receipt_wire_get id from d o e at_ name :
  obj_get (receipt_wire id from d o e at_) name =
  if beq (bs "observed_at") name then Some (JString (ts_text at_))
  else if beq (bs "error") name then (λ c, JString (ErrorCode_as_str c)) <$> e
  else if beq (bs "observer") name then Some (JString (Observer_as_str o))
  else if beq (bs "state") name then Some (JString (DeliveryState_as_str d))
  else if beq (bs "envelope_from") name then Some (JString from)
  else if beq (bs "envelope_id") name then Some (JString id) else None.
Proof.
  unfold receipt_wire. repeat first [rewrite obj_get_insert|rewrite obj_get_insert_opt].
  destruct (beq (bs "observed_at") name); [done|].
  destruct (beq (bs "error") name) eqn:E; [|by destruct e]. destruct e; [done|]. apply beq_true in E as <-. vm_compute. reflexivity.
Qed.

Lemma read_error_known d o e :
  fits_report d o e = true →
  read_receipt_error d o ((λ c, JString (ErrorCode_as_str c)) <$> e) = Ok (RE_Known <$> e).
Proof.
  unfold fits_report, read_receipt_error. intros [_ He]%andb_true_iff. destruct e as [c|]; simpl.
  - rewrite (fits_carries _ _ _ He). rewrite error_code_form. simpl.
    rewrite (proj2 (ErrorCode_parse_spec _ c) eq_refl). by rewrite He.
  - apply negb_true_iff in He. by rewrite He.
Qed.

(** The checks of [from_json] that do not concern the error, on a built receipt. *)
Lemma from_json_wire id from d o e at_ :
  receipt_args id from at_ → fits_report d o e = true →
  receipt_from_json (JObject (receipt_wire id from d o e at_)) =
    Ok (mkReceipt id from d o (RE_Known <$> e) at_ (receipt_wire id from d o e at_)).
Proof.
  intros (Hi & Hf & Ht) He. pose proof He as [Ha _]%andb_true_iff.
  unfold receipt_from_json. rewrite receipt_wire_no_null. cbn [as_object opt_filter negb ok_or mbind result_bind].
  replace (existsb _ receipt_members) with false
    by (symmetry; unfold receipt_members, obj_contains; cbn [existsb]; rewrite !receipt_wire_get; reflexivity).
  unfold get_str. rewrite !receipt_wire_get.
  repeat match goal with |- context [beq ?a ?b] => 
    let x := eval vm_compute in (beq a b) in change (beq a b) with x end.
  cbn [mbind option_bind result_bind as_str ok_or].
  rewrite (token_parse_ok _ Hi), (token_parse_ok _ Hf). cbn [ok_or mbind result_bind].
  rewrite (proj2 (DeliveryState_parse_spec _ d) eq_refl), (proj2 (Observer_parse_spec _ o) eq_refl).
  cbn [ok_or mbind result_bind]. rewrite Ha, Ht. cbn [negb ok_or mbind result_bind].
  by rewrite read_error_known.
Qed.

Lemma new_round_trip id from d o e at_ r :
  receipt_args id from at_ → DeliveryReceipt_new id from d o e at_ = Ok r →
  receipt_from_octets (receipt_to_octets r) = Ok r.
Proof.
  intros Hargs Hr. pose proof (new_fits _ _ _ _ _ _ _ Hr) as He. rewrite new_Ok in Hr by done.
  injection Hr as <-. unfold receipt_from_octets, receipt_to_octets. cbn [rc_wire].
  rewrite to_compact_ref, parse_compact by by apply receipt_wire_wf. by apply from_json_wire.
Qed.

Lemma read_error_Ok d o m e :
  read_receipt_error d o m = Ok e →
  match e with
  | None => carries_error d = false
  | Some (RE_Known c) => fits_receipt c d o = true
  | Some (RE_Unrecognized s) => carries_error d = true ∧ is_error_code_form s = true ∧ ErrorCode_parse s = None
  end.
Proof.
  unfold read_receipt_error. intros H. destruct (carries_error d), m as [j|]; try done.
  - inv_binds. destruct (as_str j) as [s|]; [|done]. simpl in *.
    destruct (is_error_code_form s) eqn:Ef; [|done]. simplify_eq.
    destruct (ErrorCode_parse _) as [c|] eqn:Ec; [|by simplify_eq].
    destruct (fits_receipt c d o) eqn:Eg; by simplify_eq/=.
  - by injection H as <-.
Qed.

Lemma from_json_Ok v r :
  receipt_from_json v = Ok r →
  v = JObject (rc_wire r) ∧ is_token (rc_envelope_id r) = true ∧ is_token (rc_envelope_from r) = true ∧
  Timestamp_parse (ts_text (rc_observed_at r)) = Some (rc_observed_at r) ∧
  allowed_for (rc_state r) (rc_observer r) = true ∧
  (is_some (rc_error r) = carries_error (rc_state r)) ∧
  match rc_error r with
  | Some (RE_Known c) => fits_receipt c (rc_state r) (rc_observer r) = true
  | Some (RE_Unrecognized s) => ErrorCode_parse s = None
  | None => True
  end.
Proof.
  unfold receipt_from_json. intros H. inv_binds.
  cbn [rc_envelope_id rc_envelope_from rc_state rc_observer rc_error rc_observed_at rc_wire].
  repeat match goal with
  | H : Token_parse ?a = Some ?b |- _ =>
      unfold Token_parse, then_some in H; destruct (is_token a) eqn:?; [|done]; simplify_eq
  end.
  match goal with H : read_receipt_error _ _ _ = _ |- _ => apply read_error_Ok in H end.
  match goal with H : negb (allowed_for _ _) = _ |- _ => apply negb_false_iff in H; rename H into Ha end.
  match goal with H : Timestamp_parse _ = _ |- _ =>
    pose proof (Timestamp_parse_text _ _ H) as Ht; rewrite <-Ht in H end.
  split_and!; try done.
  - destruct v; try done. cbn [as_object opt_filter] in H0. destruct (negb _); by simplify_eq.
  - destruct x9 as [[c|s]|]; simpl; [|by destruct H10 as (-> & _)|by rewrite H10].
    by rewrite (fits_carries _ _ _ H10).
  - destruct x9 as [[c|s]|]; [done|by destruct H10 as (_ & _ & ?)|done].
Qed.

(** The state a receipt is processed as is one its observer may report. *)
Lemma effective_allowed r :
  allowed_for (rc_state r) (rc_observer r) = true →
  allowed_for (effective_state r) (rc_observer r) = true.
Proof.
  intros H. unfold effective_state. destruct (rc_error r) as [[c|s]|]; [done| |done].
  case_bool_decide; [by destruct (rc_observer r)|done].
Qed.

Lemma effective_carries r :
  is_some (rc_error r) = carries_error (rc_state r) →
  carries_error (effective_state r) = is_some (rc_error r).
Proof.
  intros H. unfold effective_state. destruct (rc_error r) as [[c|s]|]; [done| |done].
  by case_bool_decide.
Qed.

(** Reported receipts are readable.  [DeliveryReceipt::new] succeeds exactly on the states and
    errors Table 8.3 lists for the observer, and the octets of the receipt it builds read
    back as the same receipt, processed as the state it was built with. *)
Theorem new_receipt_round_trip (id from : Token) (d : DeliveryState) (o : Observer)
    (e : option ErrorCode) (at_ : Timestamp) :
  receipt_args id from at_ →
  (is_ok (DeliveryReceipt_new id from d o e at_) = fits_report d o e) ∧
  (∀ r, DeliveryReceipt_new id from d o e at_ = Ok r →
     receipt_from_octets (receipt_to_octets r) = Ok r ∧ effective_state r = d).
Proof.
  intros Ha. split.
  - destruct (fits_report d o e) eqn:He; [by rewrite new_Ok|].
    destruct (DeliveryReceipt_new id from d o e at_) as [r|v] eqn:Hr; [|done].
    apply new_fits in Hr. congruence.
  - intros r Hr. split; [by eapply new_round_trip|].
    rewrite new_Ok in Hr by (by eapply new_fits). injection Hr as <-. by destruct e.
Qed.

Lemma new_receipt_round_trip_witness :
  receipt_from_octets (jtext
    "{`envelope_id`:`m1`,`envelope_from`:`abc`,`state`:`rejected`,`observer`:`receiver`,`error`:`unauthorized`,`observed_at`:`2026-10-03T12:00:00.000Z`}") =
  DeliveryReceipt_new (bs "m1") (bs "abc") D_Rejected O_Receiver (Some E_Unauthorized)
    (mkTimestamp (bs "2026-10-03T12:00:00.000Z") 1791028800000000000).
Proof.
  set (r := mkReceipt (bs "m1") (bs "abc") D_Rejected O_Receiver (Some (RE_Known E_Unauthorized))
    (mkTimestamp (bs "2026-10-03T12:00:00.000Z") 1791028800000000000)
    (receipt_wire (bs "m1") (bs "abc") D_Rejected O_Receiver (Some E_Unauthorized)
       (mkTimestamp (bs "2026-10-03T12:00:00.000Z") 1791028800000000000))).
  apply (new_receipt_round_trip (bs "m1") (bs "abc") D_Rejected O_Receiver (Some E_Unauthorized)
    (mkTimestamp (bs "2026-10-03T12:00:00.000Z") 1791028800000000000)) with (r := r).
  - split_and!; vm_compute; reflexivity.
  - vm_compute. reflexivity.
Defined.

(** An accepted receipt is consistent and kept whole.  Its identifiers are tokens, its time a
    timestamp, its state one its observer may report, and it holds an error exactly when the
    state carries one, a known error fitting the state and observer; the state it is processed
    as is again one of its observer that carries an error exactly then; and writing it out and
    reading it again gives the same receipt, unrecognized members included. *)
Theorem receipt_from_octets_sound (octets : list Z) (r : DeliveryReceipt) :
  receipt_from_octets octets = Ok r →
  is_token (rc_envelope_id r) = true ∧ is_token (rc_envelope_from r) = true ∧
  allowed_for (rc_state r) (rc_observer r) = true ∧
  is_some (rc_error r) = carries_error (rc_state r) ∧
  (∀ c, rc_error r = Some (RE_Known c) → fits_receipt c (rc_state r) (rc_observer r) = true) ∧
  allowed_for (effective_state r) (rc_observer r) = true ∧
  carries_error (effective_state r) = is_some (rc_error r) ∧
  receipt_from_octets (receipt_to_octets r) = Ok r.
Proof.
  unfold receipt_from_octets at 1. intros H. apply result_bind_Ok in H as (v & Hp & Hv).
  pose proof (from_json_Ok _ _ Hv) as (-> & Hi & Hf & Ht & Ha & He & Hk).
  split_and!; try done.
  - intros c Hc. by rewrite Hc in Hk.
  - by apply effective_allowed.
  - by apply effective_carries.
  - destruct (parse octets) as [w|] eqn:Hw; [|done]. injection Hp as ->. apply parse_wf in Hw.
    unfold receipt_from_octets, receipt_to_octets. by rewrite to_compact_ref, parse_compact.
Qed.

Lemma receipt_from_octets_sound_witness :
  receipt_from_octets (jtext
    "{`envelope_id`:`m1`,`envelope_from`:`abc`,`x`:[1.50],`state`:`rejected`,`observer`:`receiver`,`error`:`later`,`observed_at`:`2026-10-03T12:00:00.000Z`}")
  = Ok (mkReceipt (bs "m1") (bs "abc") D_Rejected O_Receiver (Some (RE_Unrecognized (bs "later")))
    (mkTimestamp (bs "2026-10-03T12:00:00.000Z") 1791028800000000000)
    [(bs "envelope_id", JString (bs "m1")); (bs "envelope_from", JString (bs "abc"));
     (bs "x", JArray [JNumber (bs "1.50")]); (bs "state", JString (bs "rejected"));
     (bs "observer", JString (bs "receiver")); (bs "error", JString (bs "later"));
     (bs "observed_at", JString (bs "2026-10-03T12:00:00.000Z"))]).
Proof.
  match goal with |- receipt_from_octets ?o = Ok ?r =>
    pose proof (receipt_from_octets_sound o r) as H end.
  apply H. vm_compute. reflexivity.
Defined.
