(* ===== verification/Reply.v ===== *)
(** * Replies and correlation ([core/src/reply.rs])

    The records of envelopes sent and handed off, the reply headers a sending implementation
    sets, and the envelope a received reply answers.  [HandOffRecord] is the engine's record
    of a hand-off ([core/src/authorization.rs]), which reads as an [EnvelopeRecord]. *)

From S2P Require Import Prelude Ids Json Envelope EnvelopeFacts.

Record EnvelopeRecord := mkRecord {
  er_id : Token;
  er_from : SessionId;
  er_to : SessionId;
  er_conversation_id : option Token;
  er_correlation_id : option Token }.

#[export] Instance EnvelopeRecord_eq_dec : EqDecision EnvelopeRecord.
Proof. solve_decision. Defined.

Definition EnvelopeRecord_of (env : Envelope) : EnvelopeRecord :=
  mkRecord (env_id env) (env_from env) (env_to env) (env_conversation_id env) (env_correlation_id env).

Record HandOffRecord := mkHandOff {
  ho_id : Token;
  ho_from : SessionId;
  ho_to : SessionId;
  ho_created_at : Timestamp;
  ho_conversation_id : option Token;
  ho_correlation_id : option Token;
  ho_key_id : option KeyId }.

Definition HandOffRecord_of (env : Envelope) : HandOffRecord :=
  mkHandOff (env_id env) (env_from env) (env_to env) (env_created_at env)
    (env_conversation_id env) (env_correlation_id env) (KeyId_parse (sm_key_id (env_security env))).

Definition envelope_record (h : HandOffRecord) : EnvelopeRecord :=
  mkRecord (ho_id h) (ho_from h) (ho_to h) (ho_conversation_id h) (ho_correlation_id h).

Record ReplyHeaders := mkHeaders {
  rh_reply_to : option Token;
  rh_conversation_id : option Token;
  rh_correlation_id : option Token }.

Definition ReplyHeaders_default : ReplyHeaders := mkHeaders None None None.

Definition correlated (h : ReplyHeaders) : bool := is_some (rh_reply_to h).

Definition apply_headers (h : ReplyHeaders) (draft : EnvelopeDraft) : EnvelopeDraft :=
  let draft := match rh_reply_to h with Some v => with_reply_to draft v | None => draft end in
  let draft := match rh_conversation_id h with Some v => with_conversation_id draft v | None => draft end in
  match rh_correlation_id h with Some v => with_correlation_id draft v | None => draft end.

Definition reply_headers (handed_off : list EnvelopeRecord) (from to : SessionId)
    (requested_target : option (list Z)) : ReplyHeaders :=
  match requested_target with
  | None => ReplyHeaders_default
  | Some target =>
      match find (λ r, beq (er_id r) target && beq (er_to r) from && beq (er_from r) to) handed_off with
      | Some r => mkHeaders (Some (er_id r)) (er_conversation_id r) (er_correlation_id r)
      | None => ReplyHeaders_default
      end
  end.

Definition answered (sent : list EnvelopeRecord) (reply : Envelope) : option EnvelopeRecord :=
  target ← env_reply_to reply;
  find (λ r, beq (er_id r) target && beq (er_from r) (env_to reply) && beq (er_to r) (env_from reply)) sent.

(** ** Facts *)

(** A record of an envelope that went from [a] to [b] under the id [id]. *)
Definition matches (r : EnvelopeRecord) (id : list Z) (a b : SessionId) : Prop :=
  er_id r = id ∧ er_from r = a ∧ er_to r = b.

Lemma find_record (p : EnvelopeRecord → bool) (l : list EnvelopeRecord) id a b :
  (∀ r, p r = true ↔ matches r id a b) →
  match find p l with
  | Some r => r ∈ l ∧ matches r id a b
  | None => ∀ r, r ∈ l → ¬ matches r id a b
  end.
Proof.
  intros Hp. destruct (find p l) as [r|] eqn:E.
  - apply find_some in E as [Hin Hr]. split; [by apply list_elem_of_In|by apply Hp].
  - intros r Hr Hm. apply Hp in Hm. rewrite (List.find_none _ _ E r) in Hm; [done|by apply list_elem_of_In].
Qed.

Lemma reply_headers_spec handed from to target :
  match reply_headers handed from to target with
  | mkHeaders (Some id) conv corr =>
      ∃ r, r ∈ handed ∧ target = Some id ∧ matches r id to from ∧
           conv = er_conversation_id r ∧ corr = er_correlation_id r
  | h => h = ReplyHeaders_default ∧ ∀ r, r ∈ handed → target = Some (er_id r) → ¬ matches r (er_id r) to from
  end.
Proof.
  unfold reply_headers. destruct target as [t|]; [|by split].
  pose proof (find_record (λ r, beq (er_id r) t && beq (er_to r) from && beq (er_from r) to) handed t to from) as Hf.
  destruct (find _ handed) as [r|].
  - destruct Hf as [Hr (Hi & Ha & Hb)].
    { intros r'. unfold matches. rewrite !andb_true_iff, !beq_true. naive_solver. }
    subst t. exists r. done.
  - split; [done|]. intros r Hr [= ->]. apply Hf; [|done].
    intros r'. unfold matches. rewrite !andb_true_iff, !beq_true. naive_solver.
Qed.

Lemma answered_spec sent reply :
  match answered sent reply with
  | Some r => r ∈ sent ∧ ∃ t, env_reply_to reply = Some t ∧ matches r t (env_to reply) (env_from reply)
  | None => ∀ t r, env_reply_to reply = Some t → r ∈ sent → ¬ matches r t (env_to reply) (env_from reply)
  end.
Proof.
  unfold answered. destruct (env_reply_to reply) as [t|]; [|by intros]. cbn [mbind option_bind].
  pose proof (find_record (λ r, beq (er_id r) t && beq (er_from r) (env_to reply) && beq (er_to r) (env_from reply))
    sent t (env_to reply) (env_from reply)) as Hf.
  destruct (find _ sent) as [r|].
  - destruct Hf as [Hr Hm]; [|by eauto].
    intros r'. unfold matches. rewrite !andb_true_iff, !beq_true. naive_solver.
  - intros t' r [= <-] Hr. apply Hf; [|done].
    intros r'. unfold matches. rewrite !andb_true_iff, !beq_true. naive_solver.
Qed.

(** The first of two options that has a value. *)
Definition option_or {A} (a b : option A) : option A := match a with Some _ => a | None => b end.

Lemma apply_headers_fields h d :
  dr_from (apply_headers h d) = dr_from d ∧ dr_to (apply_headers h d) = dr_to d ∧
  dr_reply_to (apply_headers h d) = option_or (rh_reply_to h) (dr_reply_to d) ∧
  dr_conversation_id (apply_headers h d) =
    option_or (rh_conversation_id h) (dr_conversation_id d) ∧
  dr_correlation_id (apply_headers h d) =
    option_or (rh_correlation_id h) (dr_correlation_id d).
Proof.
  destruct h as [r cv cr]. unfold apply_headers. cbn [rh_reply_to rh_conversation_id rh_correlation_id].
  by destruct r, cv, cr.
Qed.

(** A correlated reply answers the envelope it names, and no other: a reply from a session
    to a session is correlated exactly when its target was handed off between them, and then
    carries that envelope's id, conversation and correlation ids; the sender that recorded
    the envelope matches the sealed reply to a record of that id between the same two
    sessions; a reply left uncorrelated is matched to nothing. *)
Theorem correlated_reply_answered (env : Envelope) (handed sent : list EnvelopeRecord)
    (draft : EnvelopeDraft) (target : option (list Z)) (signer : SecurityPrincipal) (nonce signature : list Z) :
  dr_reply_to draft = None → EnvelopeRecord_of env ∈ sent →
  let h := reply_headers handed (dr_from draft) (dr_to draft) target in
  let reply := seal (apply_headers h draft) signer nonce signature in
  (correlated h = true ↔
     ∃ r, r ∈ handed ∧ target = Some (er_id r) ∧ er_from r = dr_to draft ∧ er_to r = dr_from draft) ∧
  (correlated h = false → answered sent reply = None) ∧
  (correlated h = true →
   ∃ r, r ∈ handed ∧ target = Some (er_id r) ∧ env_reply_to reply = target ∧
     (is_some (er_conversation_id r) = true → env_conversation_id reply = er_conversation_id r) ∧
     (is_some (er_correlation_id r) = true → env_correlation_id reply = er_correlation_id r)) ∧
  (target = Some (env_id env) → env_from env = dr_to draft → env_to env = dr_from draft →
   correlated h = true →
   ∃ r, answered sent reply = Some r ∧ r ∈ sent ∧ matches r (env_id env) (env_from env) (env_to env)).
Proof.
  intros Hd Hin h reply. pose proof (reply_headers_spec handed (dr_from draft) (dr_to draft) target) as Hs.
  fold h in Hs.
  destruct (apply_headers_fields h draft) as (Hfrom & Hto & Hrt & Hcv & Hcr).
  assert (env_from reply = dr_from draft) as Hrf by done. assert (env_to reply = dr_to draft) as Hrto by done.
  assert (env_reply_to reply = option_or (rh_reply_to h) (dr_reply_to draft)) as Hr by done.
  change (dr_conversation_id (apply_headers h draft)) with (env_conversation_id reply) in Hcv.
  change (dr_correlation_id (apply_headers h draft)) with (env_correlation_id reply) in Hcr.
  pose proof (answered_spec sent reply) as Ha.
  destruct h as [[id|] conv corr] eqn:Eh; cbn [correlated rh_reply_to is_some] in *.
  - destruct Hs as (r & Hh & -> & (<- & Hf & Ht) & -> & ->). split_and!; [|done| |].
    + split; [|done]. intros _. by exists r.
    + intros _. exists r. split_and!; [done|done|done| |]; intros Hsome.
      * rewrite Hcv. cbn. by destruct (er_conversation_id r).
      * rewrite Hcr. cbn. by destruct (er_correlation_id r).
    + intros [= Heq] H1 H2 _. destruct (answered sent reply) as [r'|].
      * destruct Ha as [Hr' (t & Ht' & Hm)]. exists r'. split_and!; [done|done|].
        rewrite Hr in Ht'. injection Ht' as <-. rewrite Hrto, Hrf in Hm. rewrite <-Heq. by rewrite H1, H2.
      * exfalso. apply (Ha (er_id r) (EnvelopeRecord_of env)); [done|done|]. 
        split_and!; cbn [EnvelopeRecord_of er_id er_from er_to]; [done|by rewrite Hrto|by rewrite Hrf].
  - destruct Hs as [_ Hs]. split_and!; [|intros _|done|done].
    + split; [done|]. intros (r & Hh & -> & Hf & Ht). by destruct (Hs r Hh eq_refl).
    + unfold answered. by rewrite Hr, Hd.
Qed.

Lemma correlated_reply_answered_witness :
  ∃ r, answered [mkRecord (bs "m1") (bs "a") (bs "b") (Some (bs "c")) None]
    (seal (apply_headers
       (reply_headers [mkRecord (bs "m1") (bs "a") (bs "b") (Some (bs "c")) None] (bs "b") (bs "a") (Some (bs "m1")))
       (mkDraft IMPLEMENTED_VERSION (bs "m2") (bs "b") (bs "a") None None None
          (mkTimestamp (bs "2026-10-03T12:00:00.000Z") 1791028800000000000) None []))
      (mkPrincipal [] []) [] []) = Some r ∧ er_id r = bs "m1".
Proof.
  set (env := mkEnvelope [] [] IMPLEMENTED_VERSION (bs "m1") (bs "a") (bs "b") (Some (bs "c")) None None
    (mkTimestamp (bs "2026-10-03T12:00:00.000Z") 1791028800000000000) None [] (mkSecurity [] [] [] [])).
  destruct (correlated_reply_answered env [EnvelopeRecord_of env] [EnvelopeRecord_of env]
    (mkDraft IMPLEMENTED_VERSION (bs "m2") (bs "b") (bs "a") None None None
       (mkTimestamp (bs "2026-10-03T12:00:00.000Z") 1791028800000000000) None [])
    (Some (bs "m1")) (mkPrincipal [] []) [] []) as (_ & _ & _ & H).
  - reflexivity.
  - apply list_elem_of_here.
  - destruct H as (r & Hr & _ & Hm & _); [reflexivity|reflexivity|reflexivity|vm_compute; reflexivity|].
    exists r. split; [exact Hr|exact Hm].
Defined.
