(* ===== verification/Receiver.v ===== *)
(** * The receiving side of a delivery ([core/src/receiver.rs])

    The delivery checks, the reports of a receiver, one copy's way through the security stage
    and the delivery stage, and the receipt limiter.

    A copy's way is a program over the calls it makes on the things around it: the clock, the
    session lookup, the adapter's hand-off call, the duplicate store and the authorization
    engine.  Other threads may run between two calls, a call of the caller's closures or of
    the clock may panic, and the engine ([core/src/authorization.rs]) answers whatever it
    answers, so each answer is an argument of the program's continuation. *)

From S2P Require Import Prelude Ids Json Delivery Envelope Keys Trust Signing Replay Receipt Reply.

(** ** Delivery stage, steps 1 to 3 *)

Record DeliveryTarget := mkTarget {
  dt_accepting : bool;
  dt_active_inbound : bool;
  dt_content_types : list (list Z);
  dt_max_envelope_octets : option Z }.

Definition delivery_checks (env : Envelope) (target : option DeliveryTarget)
    : result (DeliveryState * ErrorCode) unit :=
  t ← ok_or target (D_Unreachable, E_UnknownDestination);
  if negb (dt_accepting t) then Err (D_Unreachable, E_DestinationUnavailable)
  else
    let lacks :=
      negb (dt_active_inbound t) ||
      negb (forallb (λ p, beq (part_type p) (bs "text") ||
                          existsb (λ c, beq c (part_type p)) (dt_content_types t)) (env_content env)) ||
      match dt_max_envelope_octets t with
      | Some m => m <? Z.of_nat (length (env_octets env))
      | None => false
      end in
    if lacks then Err (D_Rejected, E_UnsupportedCapability) else Ok tt.

(** ** Hand-off outcomes ([core/src/adapter.rs]) *)

Inductive HandOffOutcome : Type := HO_Completed | HO_NotNow | HO_Failed | HO_Indeterminate | HO_Refused.

Definition recorded (o : HandOffOutcome) : DeliveryState * option ErrorCode :=
  match o with
  | HO_Completed => (D_HandedToHarness, None)
  | HO_NotNow => (D_Unreachable, Some E_DestinationUnavailable)
  | HO_Failed => (D_Failed, Some E_HandoffFailed)
  | HO_Indeterminate => (D_Unknown, None)
  | HO_Refused => (D_Failed, Some E_InternalError)
  end.

Definition may_be_handed_off (o : HandOffOutcome) : bool :=
  match o with HO_Completed | HO_Indeterminate => true | _ => false end.

(** ** Reports *)

Record ReceiverReport := mkReport {
  rp_state : DeliveryState;
  rp_error : option ErrorCode;
  rp_duplicate_receipt_allowed : option bool }.

Definition ReceiverReport_of (state : DeliveryState) (error : option ErrorCode) : ReceiverReport :=
  let valid :=
    allowed_for state O_Receiver &&
    match error with None => negb (carries_error state) | Some c => fits_receipt c state O_Receiver end in
  let '(state, error) := if valid then (state, error) else (D_Failed, Some E_InternalError) in
  mkReport state error None.

Definition from_rejection (r : SecurityRejection) : ReceiverReport :=
  ReceiverReport_of (sr_state r) (Some (sr_error r)).

Definition report_receipt (r : ReceiverReport) (env : Envelope) (observed_at : Timestamp)
    : result ReceiptViolation DeliveryReceipt :=
  DeliveryReceipt_new (env_id env) (env_from env) (rp_state r) O_Receiver (rp_error r) observed_at.

(** ** Step 4's answers ([core/src/authorization.rs]) *)

Record BindingFinding := mkFinding { bf_session_id : SessionId; bf_bound_to : KeyId; bf_claimed_by : KeyId }.

Record AuthorizationRefusal := mkRefusal {
  ar_state : DeliveryState;
  ar_error : ErrorCode;
  ar_requirement : string;
  ar_finding : option BindingFinding }.

Section Receiver.
(** The decision an authorized message carries, which the receiver passes on unread. *)
Context {D : Type} {C : Crypto}.

Record AuthorizedMessage := mkAuthorized { am_message : ChannelMessage; am_decision : D }.

Inductive Received : Type :=
| RInFlight (key : DuplicateKey)
| RReported (r : ReceiverReport).

Record ReceiveOutcome := mkOutcome {
  ro_received : Received;
  ro_requeue : option AuthorizedMessage;
  ro_verified_by : option KeyId;
  ro_finding : bool }.

(** ** Programs

    The answer [None] of a call stands for a panic in it. *)

Inductive prog (A : Type) : Type :=
| Ret (a : A)
| Unwound
| TryAdmit (msg : AuthorizedMessage)
    (k : result SecurityRejection (option Admission) → prog A)
| Settle (key : DuplicateKey) (handed_off : bool) (k : prog A)
| Now (k : option Timestamp → prog A)
| Target (to : SessionId) (k : option (option DeliveryTarget) → prog A)
| HandOffCall (msg : ChannelMessage) (k : option HandOffOutcome → prog A)
| TrustedKeys (k : TrustedKeySet → prog A)
| AuthorizeDelivery (msg : ChannelMessage)
    (k : result AuthorizationRefusal AuthorizedMessage → prog A)
| RecordHandOff (record : HandOffRecord) (state : DeliveryState) (k : prog A).
Arguments Ret {A} a.
Arguments Unwound {A}.
Arguments TryAdmit {A} msg k.
Arguments Settle {A} key handed_off k.
Arguments Now {A} k.
Arguments Target {A} to k.
Arguments HandOffCall {A} msg k.
Arguments TrustedKeys {A} k.
Arguments AuthorizeDelivery {A} msg k.
Arguments RecordHandOff {A} record state k.

#[global] Instance prog_bind : MBind prog := λ A B f,
  fix go (m : prog A) : prog B :=
    match m with
    | Ret a => f a
    | Unwound => Unwound
    | TryAdmit msg k => TryAdmit msg (λ r, go (k r))
    | Settle key b k => Settle key b (go k)
    | Now k => Now (λ r, go (k r))
    | Target to k => Target to (λ r, go (k r))
    | HandOffCall msg k => HandOffCall msg (λ r, go (k r))
    | TrustedKeys k => TrustedKeys (λ r, go (k r))
    | AuthorizeDelivery msg k => AuthorizeDelivery msg (λ r, go (k r))
    | RecordHandOff rec st k => RecordHandOff rec st (go k)
    end.

(** A reading of the clock with nothing to release when it panics. *)
Definition now : prog Timestamp := Now (λ r, match r with Some t => Ret t | None => Unwound end).

(** [BeforeHandOff]: a refusal, and a panic before the hand-off call, settle the reservation as
    not handed off. *)
Definition refuse (key : DuplicateKey) (refusal : DeliveryState * ErrorCode) : prog ReceiverReport :=
  Settle key false (Ret (ReceiverReport_of refusal.1 (Some refusal.2))).

Definition drop_before {A} (key : DuplicateKey) : prog A := Settle key false Unwound.

Definition delivery_stage (reservation : DuplicateKey) (msg : ChannelMessage) : prog ReceiverReport :=
  let env := cm_envelope msg in
  Target (env_to env) (λ t,
    match t with
    | None => drop_before reservation
    | Some target =>
        match delivery_checks env target with
        | Err refusal => refuse reservation refusal
        | Ok _ =>
            Now (λ t,
              match t with
              | None => drop_before reservation
              | Some now =>
                  match refusal_at (HandOffDeadline_of env) now with
                  | Some refusal => refuse reservation refusal
                  | None =>
                      HandOffCall msg (λ o,
                        match o with
                        | None => Settle reservation true Unwound
                        | Some outcome =>
                            Settle reservation (may_be_handed_off outcome)
                              (let '(state, error) := recorded outcome in
                               Ret (ReceiverReport_of state error))
                        end)
                  end
              end)
        end
    end).

Definition deliver (msg : AuthorizedMessage) : prog (result SecurityRejection Received) :=
  TryAdmit msg (λ r,
    match r with
    | Err e => Ret (Err e)
    | Ok None =>
        Ret (Ok (match DuplicateKey_of (am_message msg) with
                 | Some key => RInFlight key
                 | None => RReported (ReceiverReport_of D_Failed (Some E_InternalError))
                 end))
    | Ok (Some (Duplicate receipt_allowed)) =>
        let r := ReceiverReport_of D_Duplicate (Some E_Duplicate) in
        Ret (Ok (RReported (mkReport (rp_state r) (rp_error r) (Some receipt_allowed))))
    | Ok (Some (AdmitTaken reservation)) =>
        r ← delivery_stage reservation (am_message msg); Ret (Ok (RReported r))
    end).

Definition verified_key (msg : ChannelMessage) : option KeyId := sp_key_id <$> cm_verified_by msg.

Definition deliver_unrecorded (msg : AuthorizedMessage) : prog (ReceiveOutcome * HandOffRecord) :=
  let verified_by := verified_key (am_message msg) in
  let record := HandOffRecord_of (cm_envelope (am_message msg)) in
  r ← deliver msg;
  let received := match r with Ok r => r | Err r => RReported (from_rejection r) end in
  let requeue := match received with RInFlight _ => Some msg | RReported _ => None end in
  Ret (mkOutcome received requeue verified_by false, record).

Definition record_outcome (record : HandOffRecord) (out : ReceiveOutcome) : prog unit :=
  match ro_received out with
  | RReported r =>
      match rp_state r with
      | D_HandedToHarness | D_Unknown => RecordHandOff record (rp_state r) (Ret tt)
      | _ => Ret tt
      end
  | RInFlight _ => Ret tt
  end.

Definition redeliver (msg : AuthorizedMessage) : prog ReceiveOutcome :=
  x ← deliver_unrecorded msg;
  record_outcome x.2 x.1 ≫= λ _, Ret x.1.

Definition security_steps (msg : ChannelMessage) : prog (result ReceiveOutcome AuthorizedMessage) :=
  let reported r verified_by finding := mkOutcome (RReported r) None verified_by finding in
  TrustedKeys (λ keys,
    match authenticate msg keys with
    | Err r => Ret (Err (reported (from_rejection r) None false))
    | Ok msg =>
        let verified_by := verified_key msg in
        t ← now;
        match check_replay_window msg t with
        | Err r => Ret (Err (reported (from_rejection r) verified_by false))
        | Ok _ =>
            AuthorizeDelivery msg (λ a,
              match a with
              | Ok authorized => Ret (Ok authorized)
              | Err r =>
                  Ret (Err (reported (ReceiverReport_of (ar_state r) (Some (ar_error r)))
                              verified_by (is_some (ar_finding r))))
              end)
        end
    end).

Definition receive (msg : ChannelMessage) : prog ReceiveOutcome :=
  r ← security_steps msg;
  match r with Ok authorized => redeliver authorized | Err refused => Ret refused end.

Definition receive_octets (octets : list Z) (limits : EnvelopeLimits) : prog ReceiveOutcome :=
  t ← now;
  match receive_envelope octets limits t with
  | Ok msg => receive msg
  | Err r =>
      Ret (mkOutcome (RReported (ReceiverReport_of (rej_state r) (Some (rej_error r)))) None None false)
  end.
End Receiver.
Arguments AuthorizedMessage D : clear implicits.
Arguments ReceiveOutcome D : clear implicits.
Arguments prog D A : clear implicits.
Arguments Ret {D A} a.
Arguments Unwound {D A}.
Arguments TryAdmit {D A} msg k.
Arguments Settle {D A} key handed_off k.
Arguments Now {D A} k.
Arguments Target {D A} to k.
Arguments HandOffCall {D A} msg k.
Arguments TrustedKeys {D A} k.
Arguments AuthorizeDelivery {D A} msg k.
Arguments RecordHandOff {D A} record state k.

(** ** The receipt limiter

    Instants and durations are nanoseconds. *)

Inductive ReceiptRefusal : Type := RR_NotVerified | RR_DuplicateReceiptSpent | RR_RateLimited.


Record Bucket := mkBucket { bk_tokens : Z; bk_last : Z }.

Record ReceiptLimiter := mkLimiter {
  lm_burst : Z;
  lm_interval : Z;
  lm_max_devices : nat;
  lm_buckets : gmap (list Z) Bucket }.

Definition ReceiptLimiter_new (burst interval : Z) (max_devices : nat) : ReceiptLimiter :=
  mkLimiter (Z.max burst 1) (Z.max interval 1) (Nat.max max_devices 1) ∅.

Definition DEFAULT_RECEIPT_BURST : Z := 32.
Definition DEFAULT_RECEIPT_INTERVAL : Z := 100000000.
Definition DEFAULT_RECEIPT_DEVICES : nat := Z.to_nat 4096.

Definition ReceiptLimiter_default : ReceiptLimiter :=
  ReceiptLimiter_new DEFAULT_RECEIPT_BURST DEFAULT_RECEIPT_INTERVAL DEFAULT_RECEIPT_DEVICES.

Definition refill (l : ReceiptLimiter) (b : Bucket) (now : Z) : Bucket :=
  let elapsed := Z.max 0 (now - bk_last b) in
  let back := elapsed / lm_interval l in
  if back =? 0 then b
  else
    let back := if back <=? U32_MAX then back else U32_MAX in
    let tokens := Z.min (Z.min (bk_tokens b + back) U32_MAX) (lm_burst l) in
    mkBucket tokens (if tokens =? lm_burst l then now else bk_last b + lm_interval l * back).

Definition is_full (l : ReceiptLimiter) (now : Z) (b : Bucket) : bool :=
  bk_tokens (refill l b now) =? lm_burst l.

(** Drops the full buckets. *)
Definition drop_full (l : ReceiptLimiter) (now : Z) : gmap (list Z) Bucket :=
  filter (λ kb, is_full l now kb.2 = false) (lm_buckets l).

Definition with_buckets (l : ReceiptLimiter) (bs : gmap (list Z) Bucket) : ReceiptLimiter :=
  mkLimiter (lm_burst l) (lm_interval l) (lm_max_devices l) bs.

Definition allow (l : ReceiptLimiter) (device : list Z) (now : Z) : bool * ReceiptLimiter :=
  let crowded (m : gmap (list Z) Bucket) := (lm_max_devices l <=? size m)%nat in
  let l :=
    if negb (is_some (lm_buckets l !! device)) && crowded (lm_buckets l)
    then with_buckets l (drop_full l now) else l in
  if negb (is_some (lm_buckets l !! device)) && crowded (lm_buckets l) then (false, l)
  else
    let b := default (mkBucket (lm_burst l) now) (lm_buckets l !! device) in
    let b := refill l b now in
    let ok := 0 <? bk_tokens b in
    let b := if ok then mkBucket (bk_tokens b - 1) (bk_last b) else b in
    (ok, with_buckets l (<[device := b]> (lm_buckets l))).

Definition may_send_receipt (verified_by : option KeyId) (report : ReceiverReport)
    (limiter : ReceiptLimiter) (now : Z) : result ReceiptRefusal unit * ReceiptLimiter :=
  match verified_by with
  | None => (Err RR_NotVerified, limiter)
  | Some device =>
      if bool_decide (rp_duplicate_receipt_allowed report = Some false)
      then (Err RR_DuplicateReceiptSpent, limiter)
      else
        let '(ok, limiter) := allow limiter device now in
        (if negb ok then Err RR_RateLimited else Ok tt, limiter)
  end.
