(* ===== verification/ReceiverFacts.v ===== *)
(** * The receiver under concurrency

    The events of a receiver program, the pool of receiver threads around one duplicate store,
    the discipline each program keeps with its reservation, and the theorems about one copy
    and about all copies of an envelope. *)

From S2P Require Import Prelude Ids Json Delivery Envelope EnvelopeFacts Keys Trust Signing.
From S2P Require Import Replay ReplayFacts Receipt Reply Receiver.

(** ** Events and threads *)

Section Pool.
Context {D : Type} {C : Crypto}.

(** A call of a program with its answer. *)
Inductive event : Type :=
| EvTryAdmit (msg : AuthorizedMessage D) (r : result SecurityRejection (option Admission))
| EvSettle (key : DuplicateKey) (handed_off : bool)
| EvNow (r : option Timestamp)
| EvTarget (to : SessionId) (r : option (option DeliveryTarget))
| EvHandOff (msg : ChannelMessage) (o : option HandOffOutcome)
| EvTrustedKeys (keys : TrustedKeySet)
| EvAuthorize (msg : ChannelMessage) (r : result AuthorizationRefusal (AuthorizedMessage D))
| EvRecord (record : HandOffRecord) (state : DeliveryState).

(** One call of a program. *)
Inductive pstep {A} : prog D A → event → prog D A → Prop :=
| p_try_admit msg k r : pstep (TryAdmit msg k) (EvTryAdmit msg r) (k r)
| p_settle key b k : pstep (Settle key b k) (EvSettle key b) k
| p_now k r : pstep (Now k) (EvNow r) (k r)
| p_target to k r : pstep (Target to k) (EvTarget to r) (k r)
| p_hand_off msg k o : pstep (HandOffCall msg k) (EvHandOff msg o) (k o)
| p_keys k keys : pstep (TrustedKeys k) (EvTrustedKeys keys) (k keys)
| p_authorize msg k r : pstep (AuthorizeDelivery msg k) (EvAuthorize msg r) (k r)
| p_record rec st k : pstep (RecordHandOff rec st k) (EvRecord rec st) k.

(** The calls of a program so far, with any answers. *)
Inductive ptrace {A} : prog D A → list event → prog D A → Prop :=
| pt_nil p : ptrace p [] p
| pt_cons p ev p' tr p'' : pstep p ev p' → ptrace p' tr p'' → ptrace p (ev :: tr) p''.

(** What the surroundings answer: the text of the clock's reading or a panic, the session
    lookup, the adapter's outcome, the engine's key set and its decision. *)
Record Oracle := mkOracle {
  or_now : option (list Z);
  or_target : option (option DeliveryTarget);
  or_outcome : option HandOffOutcome;
  or_keys : TrustedKeySet;
  or_decision : result AuthorizationRefusal D }.

(** One call of a thread, on the store: the clock reads the store's time, and the engine
    returns the message it authorizes. *)
Definition thread_step {A} (l : Limits) (o : Oracle) (s : Sys) (p : prog D A)
    : option (event * Sys * prog D A) :=
  match p with
  | Ret _ | Unwound => None
  | TryAdmit msg k =>
      let '(r, i) := try_admit l (sys_now s) (am_message msg) (sys_inner s) in
      let reserved :=
        match r with Ok (Some (AdmitTaken key)) => {[ key ]} ∪ sys_reserved s | _ => sys_reserved s end in
      Some (EvTryAdmit msg r, mkSys (sys_now s) i reserved, k r)
  | Settle key b k => Some (EvSettle key b, (step l (OpSettle key b) s).2, k)
  | Now k =>
      let r := (λ text, mkTimestamp text (sys_now s)) <$> or_now o in
      Some (EvNow r, s, k r)
  | Target to k => Some (EvTarget to (or_target o), s, k (or_target o))
  | HandOffCall msg k => Some (EvHandOff msg (or_outcome o), s, k (or_outcome o))
  | TrustedKeys k => Some (EvTrustedKeys (or_keys o), s, k (or_keys o))
  | AuthorizeDelivery msg k =>
      let r := match or_decision o with Ok d => Ok (mkAuthorized msg d) | Err e => Err e end in
      Some (EvAuthorize msg r, s, k r)
  | RecordHandOff rec st k => Some (EvRecord rec st, s, k)
  end.

(** The pool: receiver threads around one store. *)
Record Pool := mkPool { pl_sys : Sys; pl_threads : list (prog D (ReceiveOutcome D)) }.

Inductive Action : Type :=
| AReceive (octets : list Z) (limits : EnvelopeLimits)
| ARedeliver (msg : AuthorizedMessage D)
| AStore (o : Op)
| AThread (i : nat) (o : Oracle).

(** The store operations that are not a thread's own. *)
Definition environment_op (s : Sys) (o : Op) : bool :=
  match o with
  | OpTick t => sys_now s <=? t
  | OpEvict | OpPreload _ _ | OpWhenSettled _ _ => true
  | OpAdmit _ _ | OpSettle _ _ => false
  end.

Definition pool_step (l : Limits) (a : Action) (w : Pool) : option (list (event + Op) * Pool) :=
  match a with
  | AReceive octets limits => Some ([], mkPool (pl_sys w) (pl_threads w ++ [receive_octets octets limits]))
  | ARedeliver msg => Some ([], mkPool (pl_sys w) (pl_threads w ++ [redeliver msg]))
  | AStore o =>
      if environment_op (pl_sys w) o
      then Some ([inr o], mkPool (step l o (pl_sys w)).2 (pl_threads w)) else None
  | AThread i o =>
      p ← pl_threads w !! i;
      '(ev, s, p') ← thread_step l o (pl_sys w) p;
      Some ([inl ev], mkPool s (<[i := p']> (pl_threads w)))
  end.

Fixpoint pool_run (l : Limits) (acts : list Action) (w : Pool) : option (list (event + Op) * Pool) :=
  match acts with
  | [] => Some ([], w)
  | a :: rest =>
      '(evs, w') ← pool_step l a w;
      '(log, w'') ← pool_run l rest w';
      Some (evs ++ log, w'')
  end.

Definition pool_init (t0 : Z) : Pool := mkPool (sys_init t0) [].

(** ** The discipline of a program with its reservation *)

Inductive hold : Type :=
| HNone
| HReserved (key : DuplicateKey)
| HChecked (key : DuplicateKey)
| HCalled (key : DuplicateKey) (handed : bool).

Definition hold_key (h : hold) : option DuplicateKey :=
  match h with HNone => None | HReserved k | HChecked k | HCalled k _ => Some k end.

(** A panic in the hand-off call counts as handed off. *)
Definition counts_as_handed (o : option HandOffOutcome) : bool :=
  match o with Some o => may_be_handed_off o | None => true end.

Definition message_deadline (msg : ChannelMessage) : Z := hd_unix_nanos (HandOffDeadline_of (cm_envelope msg)).

(** From hold [h] on, the program reserves at most one key at a time, calls the adapter only
    while it holds a reservation and after a reading of the clock before the deadline, settles
    the reservation once, as the outcome says, and keeps none when it ends. *)
Fixpoint safe {A} (dl : DuplicateKey → Z) (h : hold) (p : prog D A) : Prop :=
  match p with
  | Ret _ | Unwound => h = HNone
  | TryAdmit msg k =>
      h = HNone ∧
      (∀ r, (∀ key, r ≠ Ok (Some (AdmitTaken key))) → safe dl HNone (k r)) ∧
      (∀ key, DuplicateKey_of (am_message msg) = Some key → message_deadline (am_message msg) = dl key →
         safe dl (HReserved key) (k (Ok (Some (AdmitTaken key)))))
  | Settle key b k => (h = HReserved key ∧ b = false ∨ h = HCalled key b) ∧ safe dl HNone k
  | Now k =>
      match h with
      | HNone => ∀ r, safe dl HNone (k r)
      | HReserved key =>
          safe dl h (k None) ∧
          ∀ t, safe dl (if unix_nanos t <? dl key then HChecked key else h) (k (Some t))
      | _ => False
      end
  | Target _ k => match h with HNone | HReserved _ => ∀ r, safe dl h (k r) | _ => False end
  | HandOffCall msg k =>
      match h with
      | HChecked key =>
          DuplicateKey_of msg = Some key ∧ ∀ o, safe dl (HCalled key (counts_as_handed o)) (k o)
      | _ => False
      end
  | TrustedKeys k => h = HNone ∧ ∀ r, safe dl HNone (k r)
  | AuthorizeDelivery _ k => h = HNone ∧ ∀ r, safe dl HNone (k r)
  | RecordHandOff _ _ k => h = HNone ∧ safe dl HNone k
  end.

Lemma safe_bind {A B} dl (f : A → prog D B) (m : prog D A) :
  (∀ a, safe dl HNone (f a)) → ∀ h, safe dl h m → safe dl h (m ≫= f).
Proof.
  intros Hf. induction m as [a| |msg k IH|key b k IH|k IH|to k IH|msg k IH|k IH|msg k IH|rec st k IH];
    intros h; simpl.
  - by intros ->.
  - done.
  - intros (-> & H1 & H2). split_and!; [done| |]; intros; apply IH; auto.
  - intros [Hh Hk]. split; [done|]. by apply IH.
  - destruct h; try done.
    + intros H r. apply IH, H.
    + intros [H1 H2]. split; [by apply IH|]. intros t. by apply IH.
  - destruct h; try done; intros H r; apply IH, H.
  - destruct h; try done. intros [Hk H]. split; [done|]. intros o. by apply IH.
  - intros [-> H]. split; [done|]. intros r. by apply IH.
  - intros [-> H]. split; [done|]. intros r. by apply IH.
  - intros [-> H]. split; [done|]. by apply IH.
Qed.

Lemma safe_now dl : safe dl HNone (now (D := D)).
Proof. intros []; done. Qed.

Lemma safe_delivery_stage dl key msg :
  DuplicateKey_of msg = Some key → message_deadline msg = dl key →
  safe dl (HReserved key) (delivery_stage (D := D) key msg).
Proof.
  intros Hk Hd. unfold delivery_stage. simpl. intros [target|]; [|simpl; auto].
  destruct (delivery_checks (cm_envelope msg) target) as [u|refusal]; [|simpl; auto].
  simpl. split; [simpl; auto|]. intros t. unfold refusal_at, passed_at, then_some.
  change (hd_unix_nanos (HandOffDeadline_of (cm_envelope msg))) with (message_deadline msg). rewrite Hd.
  destruct (unix_nanos t <? dl key) eqn:Et.
  - replace (dl key <=? unix_nanos t) with false by lia. simpl. split; [done|].
    intros [o|]; simpl; [|auto]. destruct o; simpl; auto.
  - replace (dl key <=? unix_nanos t) with true by lia. simpl. auto.
Qed.

Lemma safe_redeliver dl (msg : AuthorizedMessage D) : safe dl HNone (redeliver msg).
Proof.
  unfold redeliver, deliver_unrecorded. apply safe_bind.
  { intros [out rec]. apply safe_bind; [done|]. unfold record_outcome. cbn [fst snd].
    destruct (ro_received out) as [|r]; [done|]. by destruct (rp_state r). }
  apply safe_bind; [done|]. unfold deliver. split; [done|]. split.
  - intros [[[key|b]|]|e] Hr; try done. by destruct (Hr key).
  - intros key Hk Hd. apply (safe_bind dl (λ r, Ret (Ok (RReported r)))); [done|].
    by apply safe_delivery_stage.
Qed.

Lemma safe_receive_octets dl octets limits : safe dl HNone (receive_octets (D := D) octets limits).
Proof.
  unfold receive_octets. apply safe_bind; [|apply safe_now]. intros t.
  destruct (receive_envelope octets limits t) as [msg|]; [|done].
  unfold receive. apply safe_bind; [intros [a|]; [apply safe_redeliver|done]|].
  unfold security_steps. split; [done|]. intros keys.
  destruct (authenticate msg keys) as [m|]; [|done]. apply safe_bind; [|apply safe_now].
  intros t'. destruct (check_replay_window m t'); [|done]. split; [done|]. by intros [].
Qed.

(** ** What the pool keeps *)

(** The log has a hand-off of the key that counts as handed off. *)
Definition positive (k : DuplicateKey) (log : list (event + Op)) : Prop :=
  ∃ msg o, inl (EvHandOff msg o) ∈ log ∧ DuplicateKey_of msg = Some k ∧ counts_as_handed o = true.

(** Copies with one duplicate key are copies of one envelope, so they have one deadline. *)
Definition label_deadline (dl : DuplicateKey → Z) (x : event + Op) : Prop :=
  match x with
  | inl (EvTryAdmit msg _) =>
      ∀ k, DuplicateKey_of (am_message msg) = Some k → message_deadline (am_message msg) = dl k
  | inl _ => True
  | inr o => deadline_of_op dl o
  end.

Definition hold_inv (dl : DuplicateKey → Z) (log : list (event + Op)) (now : Z) (h : hold) : Prop :=
  match h with
  | HNone => True
  | HReserved k => positive k log → dl k ≤ now
  | HChecked k => ¬ positive k log
  | HCalled k b => positive k log → b = true
  end.

(** Every reservation is held by exactly one thread. *)
Record owns (holds : list hold) (R : gset DuplicateKey) : Prop := {
  ow_held : ∀ k, k ∈ R ↔ ∃ i h, holds !! i = Some h ∧ hold_key h = Some k;
  ow_excl : ∀ i j h h' k, holds !! i = Some h → holds !! j = Some h' →
    hold_key h = Some k → hold_key h' = Some k → i = j }.

Record pool_inv (l : Limits) (dl : DuplicateKey → Z) (t0 : Z) (tr : list (Z * Op * Out))
    (log : list (event + Op)) (holds : list hold) (w : Pool) : Prop := {
  pi_run : run l (sys_init t0) tr (pl_sys w);
  pi_agree : deadlines_agree dl tr;
  pi_safe : Forall2 (safe dl) holds (pl_threads w);
  pi_owns : owns holds (sys_reserved (pl_sys w));
  pi_hold : ∀ i h, holds !! i = Some h → hold_inv dl log (sys_now (pl_sys w)) h;
  pi_positive : ∀ k, positive k log → handed k tr ∨ ∃ i, holds !! i = Some (HCalled k true) }.

Lemma owns_snoc holds R : owns holds R → owns (holds ++ [HNone]) R.
Proof.
  intros [H1 H2]. constructor.
  - intros k. rewrite H1. split; intros (i & h & Hi & Hk); exists i, h; (split; [|done]).
    + by apply lookup_app_l_Some.
    + apply lookup_app_Some in Hi as [Hi|[_ Hi]]; [done|]. apply list_lookup_singleton_Some in Hi as [_ <-]. done.
  - intros i j h h' k Hi Hj Hk Hk'.
    apply lookup_app_Some in Hi as [Hi|[_ Hi]]; [|by apply list_lookup_singleton_Some in Hi as [_ <-]].
    apply lookup_app_Some in Hj as [Hj|[_ Hj]]; [|by apply list_lookup_singleton_Some in Hj as [_ <-]].
    by eapply H2.
Qed.

Lemma lookup_set (holds : list hold) i h h' j x :
  holds !! i = Some h → (<[i := h']> holds !! j = Some x ↔ (i = j ∧ x = h') ∨ (i ≠ j ∧ holds !! j = Some x)).
Proof.
  intros Hi. rewrite list_lookup_insert_Some. apply lookup_lt_Some in Hi. naive_solver.
Qed.

(** Changing what thread [i] holds from one key (or none) to another. *)
Lemma owns_set holds R R' i h h' :
  holds !! i = Some h → owns holds R →
  (∀ k, k ∈ R' ↔ hold_key h' = Some k ∨ (k ∈ R ∧ hold_key h ≠ Some k)) →
  (∀ k, hold_key h' = Some k → hold_key h = Some k ∨ k ∉ R) →
  owns (<[i := h']> holds) R'.
Proof.
  intros Hi [H1 H2] HR Hnew. constructor.
  - intros k. rewrite HR, H1. split.
    + intros [Hk|[(j & x & Hj & Hk) Hne]].
      * exists i, h'. split; [|done]. apply (lookup_set _ _ h); auto.
      * exists j, x. split; [|done]. apply (lookup_set _ _ h); [done|]. right. split; [|done]. intros ->. congruence.
    + intros (j & x & Hj & Hk). apply (lookup_set _ _ h) in Hj as [[-> ->]|[Hne Hj]]; [by left| |done].
      right. split; [by eauto|]. intros Hh. apply Hne. by eapply H2.
  - assert (∀ j x k, i ≠ j → holds !! j = Some x → hold_key x = Some k → hold_key h' ≠ Some k) as Hno.
    { intros j x k Hne Hj Hk Hk'. destruct (Hnew k Hk') as [Hh|Hn]; [apply Hne; by eapply H2|].
      apply Hn, H1. eauto. }
    intros a b x y k Ha Hb Hx Hy.
    apply (lookup_set _ _ h) in Ha as [[<- ->]|[Hna Ha]]; [| |done];
      apply (lookup_set _ _ h) in Hb as [[<- ->]|[Hnb Hb]]; try done.
    + by destruct (Hno b y k).
    + by destruct (Hno a x k).
    + by eapply H2.
Qed.

(** Thread [i] keeps the key it holds. *)
Lemma owns_same holds R i h h' :
  holds !! i = Some h → hold_key h' = hold_key h → owns holds R → owns (<[i := h']> holds) R.
Proof.
  intros Hi Hk Ho. eapply owns_set; [done|exact Ho| |intros k Hk'; left; congruence].
  intros k. rewrite Hk. split; [|intros [Hh|[? _]]; [|done]].
  - intros Hr. destruct (decide (hold_key h = Some k)); [by left|by right].
  - apply (ow_held _ _ Ho). eauto.
Qed.

Lemma positive_app k log log' : positive k (log ++ log') ↔ positive k log ∨ positive k log'.
Proof. unfold positive. setoid_rewrite elem_of_app. naive_solver. Qed.

Lemma positive_one k x :
  positive k [x] ↔ ∃ msg o, x = inl (EvHandOff msg o) ∧ DuplicateKey_of msg = Some k ∧ counts_as_handed o = true.
Proof. unfold positive. setoid_rewrite list_elem_of_singleton. naive_solver. Qed.

(** A label that is no hand-off leaves [positive] alone. *)
Lemma positive_skip k log x :
  (∀ msg o, x ≠ inl (EvHandOff msg o)) → positive k (log ++ [x]) ↔ positive k log.
Proof. intros Hx. rewrite positive_app, positive_one. naive_solver. Qed.

Lemma hold_inv_mono dl log log' now now' h :
  (∀ k, hold_key h = Some k → positive k log' → positive k log) → now ≤ now' →
  hold_inv dl log now h → hold_inv dl log' now' h.
Proof.
  intros Hp Hn. destruct h as [|k|k|k b]; simpl in *; [done| | |]; intros H Hpos;
    specialize (Hp k eq_refl Hpos); [specialize (H Hp); lia|by apply H|by apply H].
Qed.

(** Thread [i] makes a step that takes what it holds from [h] to [h']. *)
Lemma pool_move l dl t0 tr tr' log x holds w s' i h h' p' :
  pool_inv l dl t0 tr log holds w → holds !! i = Some h →
  run l (sys_init t0) tr' s' → deadlines_agree dl tr' → (∀ k, handed k tr → handed k tr') →
  safe dl h' p' → owns (<[i := h']> holds) (sys_reserved s') → sys_now (pl_sys w) ≤ sys_now s' →
  (∀ k, positive k (log ++ [x]) → positive k log ∨ (hold_key h = Some k ∧ h' = HCalled k true)) →
  (∀ k, h = HCalled k true → handed k tr' ∨ h' = HCalled k true) →
  hold_inv dl (log ++ [x]) (sys_now s') h' →
  pool_inv l dl t0 tr' (log ++ [x]) (<[i := h']> holds) (mkPool s' (<[i := p']> (pl_threads w))).
Proof.
  intros [Hrun Hag Hsafe Hown Hhold Hpos] Hi Hrun' Hag' Hh Hs Hown' Hnow Hx Hcall Hinv.
  constructor; simpl; try done.
  - by apply Forall2_insert.
  - intros j y Hj. apply (lookup_set _ _ h) in Hj as [[<- ->]|[Hne Hj]]; [done| |done].
    eapply hold_inv_mono; [|exact Hnow|by apply (Hhold j)].
    intros k Hk Hp. destruct (Hx k Hp) as [|[Hk' _]]; [done|].
    destruct Hne. by eapply (ow_excl _ _ Hown).
  - intros k Hk. destruct (Hx k Hk) as [Hk'|[_ ->]].
    + destruct (Hpos k Hk') as [|[j Hj]]; [left; auto|].
      destruct (decide (i = j)) as [<-|Hne].
      * rewrite Hi in Hj. injection Hj as ->. destruct (Hcall k eq_refl) as [Hd|Hd]; [by left|]. subst h'.
        right. exists i. apply (lookup_set _ _ (HCalled k true)); auto.
      * right. exists j. apply (lookup_set _ _ h); auto.
    + right. exists i. apply (lookup_set _ _ h); auto.
Qed.

(** A step that leaves the store and the hold alone. *)
Lemma pool_stay l dl t0 tr log ev holds w i h p' :
  pool_inv l dl t0 tr log holds w → holds !! i = Some h → safe dl h p' →
  (∀ msg o, ev ≠ EvHandOff msg o) →
  pool_inv l dl t0 tr (log ++ [inl ev]) holds (mkPool (pl_sys w) (<[i := p']> (pl_threads w))).
Proof.
  intros Hpi Hi Hs Hev. rewrite <-(list_insert_id holds i h Hi). pose proof Hpi as [].
  eapply pool_move; try done.
  - by rewrite list_insert_id.
  - intros k. rewrite positive_skip by congruence. by left.
  - by right.
  - eapply hold_inv_mono; [|done|by eapply pi_hold0].
    intros k _. by rewrite positive_skip by congruence.
Qed.

Lemma run_step l t0 tr s o out s' :
  run l (sys_init t0) tr s → op_allowed s o → step l o s = (out, s') →
  run l (sys_init t0) (tr ++ [(sys_now s, o, out)]) s'.
Proof. intros. by eapply run_snoc. Qed.

Lemma handed_app k tr tr' : handed k tr → handed k (tr ++ tr').
Proof. intros (t & out & H). exists t, out. apply elem_of_app. by left. Qed.

Lemma agree_snoc dl tr x : deadlines_agree dl tr → deadline_of_op dl x.1.2 → deadlines_agree dl (tr ++ [x]).
Proof. intros H Hx. apply Forall_app. split; [done|]. by apply Forall_singleton. Qed.

(** An operation of the surroundings on the store. *)
Lemma pool_store l dl t0 tr log holds w o :
  pool_inv l dl t0 tr log holds w → environment_op (pl_sys w) o = true → deadline_of_op dl o →
  ∃ tr', pool_inv l dl t0 tr' (log ++ [inr o]) holds (mkPool (step l o (pl_sys w)).2 (pl_threads w)).
Proof.
  intros [Hrun Hag Hsafe Hown Hhold Hpos] Ho Hd.
  destruct (step l o (pl_sys w)) as [out s'] eqn:Es. simpl.
  assert (op_allowed (pl_sys w) o) as Hal by (destruct o; simpl in *; try done; lia).
  assert (sys_reserved s' = sys_reserved (pl_sys w) ∧ sys_now (pl_sys w) ≤ sys_now s') as [Hr Hn].
  { destruct o; simpl in Es, Ho; try done; repeat case_match; simplify_eq/=; split; try done; lia. }
  exists (tr ++ [(sys_now (pl_sys w), o, out)]). constructor; simpl; try done.
  - by eapply run_step.
  - by apply agree_snoc.
  - by rewrite Hr.
  - intros i h Hi. eapply hold_inv_mono; [|exact Hn|by apply (Hhold i)].
    intros k _. by rewrite positive_skip.
  - intros k. rewrite positive_skip by done. intros Hk. destruct (Hpos k Hk); [left; by apply handed_app|by right].
Qed.

(** A thread's attempt to reserve is the store's admission, or does nothing. *)
Lemma try_admit_step l (s : Sys) (msg : ChannelMessage) r i :
  try_admit l (sys_now s) msg (sys_inner s) = (r, i) →
  let s' := mkSys (sys_now s) i
    (match r with Ok (Some (AdmitTaken key)) => {[ key ]} ∪ sys_reserved s | _ => sys_reserved s end) in
  (DuplicateKey_of msg = None ∧ s' = s ∧ ∀ key, r ≠ Ok (Some (AdmitTaken key))) ∨
  ∃ key d, DuplicateKey_of msg = Some key ∧
    step l (OpAdmit key (message_deadline msg)) s = (OutDecided d, s') ∧
    (∀ key', r = Ok (Some (AdmitTaken key')) → key' = key ∧ d = Some (Ok (AdmitTaken key))).
Proof.
  unfold try_admit, key_and_deadline. destruct (DuplicateKey_of msg) as [key|]; cbn [ok_or mbind result_bind].
  - intros H. right. cbn [step]. fold (message_deadline msg) in *.
    destruct (store_decide l (sys_now s) key (message_deadline msg) (sys_inner s)) as [d i'] eqn:Ed.
    exists key, d. split; [done|]. rewrite Ed. apply decide_cases in Ed.
    destruct Ed as [(e & _ & _ & -> & _)|[(e & _ & _ & -> & _)|[(_ & _ & -> & _)|(_ & _ & -> & _)]]];
      injection H as <- <-; (split; [done|]); intros key' Hk; simplify_eq; done.
  - intros H. injection H as <- <-. left. split_and!; [done|by destruct s|done].
Qed.

(** A key admitted now is held by no thread and, if a copy of it was handed off, its deadline
    has passed. *)
Lemma admitted_fresh l dl t0 tr log holds w key s' :
  pool_inv l dl t0 tr log holds w →
  step l (OpAdmit key (dl key)) (pl_sys w) = (OutDecided (Some (Ok (AdmitTaken key))), s') →
  key ∉ sys_reserved (pl_sys w) ∧ sys_now s' = sys_now (pl_sys w) ∧
  sys_reserved s' = {[ key ]} ∪ sys_reserved (pl_sys w) ∧
  (positive key log → dl key ≤ sys_now (pl_sys w)).
Proof.
  intros Hpi Hstep. pose proof (run_inv _ _ _ _ (pi_run _ _ _ _ _ _ _ Hpi) (init_inv l t0)) as Hs.
  assert (key ∉ sys_reserved (pl_sys w)) as Hn.
  { intros Hr. apply (si_reserved _ _ Hs) in Hr. simpl in Hstep.
    destruct (store_decide l (sys_now (pl_sys w)) key (dl key) (sys_inner (pl_sys w))) as [d i'] eqn:Ed.
    injection Hstep as -> _. apply decide_cases in Ed.
    apply (evict_phase (sys_now (pl_sys w)) _ key (si_core _ _ Hs)) in Hr. unfold phase_of in Hr.
    destruct Ed as [(e & He & ? & ? & ?)|[(e & He & ? & ? & ?)|[(He & ? & ? & ?)|(He & ? & ? & ?)]]]; try done.
    by rewrite He in Hr. }
  assert (sys_now s' = sys_now (pl_sys w) ∧ sys_reserved s' = {[ key ]} ∪ sys_reserved (pl_sys w)) as [H1 H2].
  { simpl in Hstep. destruct (store_decide _ _ _ _ _) as [d i']. injection Hstep as -> <-. done. }
  split_and!; [done|done|done|]. intros Hp.
  destruct (pi_positive _ _ _ _ _ _ _ Hpi key Hp) as [Hh|[j Hj]].
  - by eapply readmitted_after_deadline; [exact (pi_run _ _ _ _ _ _ _ Hpi)|exact (pi_agree _ _ _ _ _ _ _ Hpi)| |].
  - destruct Hn. apply (ow_held _ _ (pi_owns _ _ _ _ _ _ _ Hpi)). by exists j, (HCalled key true).
Qed.

Lemma pool_admit l dl t0 tr log holds w i msg r inner p' :
  pool_inv l dl t0 tr log holds w → holds !! i = Some HNone →
  try_admit l (sys_now (pl_sys w)) (am_message msg) (sys_inner (pl_sys w)) = (r, inner) →
  label_deadline dl (inl (EvTryAdmit msg r)) →
  ((∀ key, r ≠ Ok (Some (AdmitTaken key))) → safe dl HNone p') →
  (∀ key, r = Ok (Some (AdmitTaken key)) → DuplicateKey_of (am_message msg) = Some key → safe dl (HReserved key) p') →
  ∃ tr' holds', pool_inv l dl t0 tr' (log ++ [inl (EvTryAdmit msg r)]) holds'
    (mkPool (mkSys (sys_now (pl_sys w)) inner
      (match r with Ok (Some (AdmitTaken key)) => {[ key ]} ∪ sys_reserved (pl_sys w) | _ => sys_reserved (pl_sys w) end))
      (<[i := p']> (pl_threads w))).
Proof.
  intros Hpi Hi Ht Hd Hs1 Hs2. pose proof (try_admit_step _ _ _ _ _ Ht) as Hstep. cbv zeta in Hstep.
  destruct Hstep as [(Hk & -> & Hr)|(key & d & Hk & Hstep & Hr)].
  { exists tr, holds. eapply pool_stay; try done. by apply Hs1. }
  simpl in Hd. specialize (Hd key Hk). rewrite Hd in Hstep.
  assert (run l (sys_init t0) (tr ++ [(sys_now (pl_sys w), OpAdmit key (dl key), OutDecided d)])
    (mkSys (sys_now (pl_sys w)) inner
      (match r with Ok (Some (AdmitTaken key)) => {[ key ]} ∪ sys_reserved (pl_sys w) | _ => sys_reserved (pl_sys w) end)))
    as Hrun by (eapply run_step; [exact (pi_run _ _ _ _ _ _ _ Hpi)|done|exact Hstep]).
  assert (deadlines_agree dl (tr ++ [(sys_now (pl_sys w), OpAdmit key (dl key), OutDecided d)])) as Hag
    by (apply agree_snoc; [exact (pi_agree _ _ _ _ _ _ _ Hpi)|done]).
  set (s' := mkSys _ _ _) in *.
  assert ((∃ key', r = Ok (Some (AdmitTaken key'))) ∨ ∀ key', r ≠ Ok (Some (AdmitTaken key'))) as [Had|Hno]
    by (destruct r as [[[k|]|]|]; [left; by exists k|by right..]).
  - assert (r = Ok (Some (AdmitTaken key)) ∧ d = Some (Ok (AdmitTaken key))) as [-> ->].
    { destruct Had as [key' ->]. by destruct (Hr key' eq_refl) as [-> ->]. }
    destruct (admitted_fresh _ _ _ _ _ _ _ _ _ Hpi Hstep) as (Hn & Hnow & Hres & Hp).
    eexists _, _. eapply (pool_move _ _ _ _ _ _ _ _ _ _ i HNone (HReserved key)); try done.
    + intros k. apply handed_app.
    + by apply Hs2.
    + rewrite Hres. eapply owns_set; [done|exact (pi_owns _ _ _ _ _ _ _ Hpi)| |]; simpl.
      * intros k. rewrite elem_of_union, elem_of_singleton. naive_solver.
      * intros k [= <-]. by right.
    + intros k. rewrite positive_skip by done. by left.
    + simpl. rewrite positive_skip by done. done.
  - eexists _, _. eapply (pool_move _ _ _ _ _ _ _ _ _ _ i HNone HNone); try done.
    + intros k. apply handed_app.
    + by apply Hs1.
    + rewrite list_insert_id by done. replace (sys_reserved s') with (sys_reserved (pl_sys w)).
      * exact (pi_owns _ _ _ _ _ _ _ Hpi).
      * simpl. destruct r as [[[k|]|]|]; try done. by destruct (Hno k).
    + intros k. rewrite positive_skip by done. by left.
Qed.

Lemma pool_settle l dl t0 tr log holds w i key b h p' :
  pool_inv l dl t0 tr log holds w → holds !! i = Some h →
  (h = HReserved key ∧ b = false ∨ h = HCalled key b) → safe dl HNone p' →
  ∃ tr' holds', pool_inv l dl t0 tr' (log ++ [inl (EvSettle key b)]) holds'
    (mkPool (step l (OpSettle key b) (pl_sys w)).2 (<[i := p']> (pl_threads w))).
Proof.
  intros Hpi Hi Hh Hs. assert (hold_key h = Some key) as Hk by (destruct Hh as [[-> _]| ->]; done).
  assert (key ∈ sys_reserved (pl_sys w)) as Hr
    by (apply (ow_held _ _ (pi_owns _ _ _ _ _ _ _ Hpi)); eauto).
  destruct (step l (OpSettle key b) (pl_sys w)) as [out s'] eqn:Es. simpl.
  assert (sys_now s' = sys_now (pl_sys w) ∧ sys_reserved s' = sys_reserved (pl_sys w) ∖ {[ key ]}) as [Hn Hres].
  { cbn [step] in Es. destruct (settle key b (sys_inner (pl_sys w))). by injection Es as <- <-. }
  exists (tr ++ [(sys_now (pl_sys w), OpSettle key b, out)]), (<[i := HNone]> holds).
  eapply pool_move; try done.
  - eapply run_step; [exact (pi_run _ _ _ _ _ _ _ Hpi)|done|done].
  - apply agree_snoc; [exact (pi_agree _ _ _ _ _ _ _ Hpi)|done].
  - intros k. apply handed_app.
  - rewrite Hres. eapply owns_set; [done|exact (pi_owns _ _ _ _ _ _ _ Hpi)| |done].
    intros k. rewrite Hk, elem_of_difference, elem_of_singleton. simpl. naive_solver.
  - lia.
  - intros k. rewrite positive_skip by done. by left.
  - intros k ->. left. destruct Hh as [[? _]|[= <- <-]]; [done|].
    exists (sys_now (pl_sys w)), out. apply elem_of_app. right. by apply list_elem_of_singleton.
Qed.

Lemma pool_hand_off l dl t0 tr log holds w i key msg o p' :
  pool_inv l dl t0 tr log holds w → holds !! i = Some (HChecked key) →
  DuplicateKey_of msg = Some key → safe dl (HCalled key (counts_as_handed o)) p' →
  pool_inv l dl t0 tr (log ++ [inl (EvHandOff msg o)]) (<[i := HCalled key (counts_as_handed o)]> holds)
    (mkPool (pl_sys w) (<[i := p']> (pl_threads w))).
Proof.
  intros Hpi Hi Hk Hs. pose proof (pi_hold _ _ _ _ _ _ _ Hpi i _ Hi) as Hno. simpl in Hno.
  assert (∀ k, positive k (log ++ [inl (EvHandOff msg o)]) →
    positive k log ∨ (k = key ∧ counts_as_handed o = true)) as Hx.
  { intros k. rewrite positive_app, positive_one. intros [|(m & o' & [= <- <-] & Hk' & Ho)]; [by left|].
    right. rewrite Hk in Hk'. by injection Hk' as <-. }
  eapply pool_move; try done.
  - exact (pi_run _ _ _ _ _ _ _ Hpi).
  - exact (pi_agree _ _ _ _ _ _ _ Hpi).
  - eapply owns_same; [done|done|exact (pi_owns _ _ _ _ _ _ _ Hpi)].
  - intros k Hp. destruct (Hx k Hp) as [|[-> Ho]]; [by left|right]. by rewrite Ho.
  - simpl. intros Hp. by destruct (Hx key Hp) as [|[_ ?]].
Qed.

(** The hold of a thread after a reading of the clock. *)
Lemma pool_checked l dl t0 tr log holds w i key text p' :
  let t := mkTimestamp text (sys_now (pl_sys w)) in
  pool_inv l dl t0 tr log holds w → holds !! i = Some (HReserved key) →
  safe dl (if unix_nanos t <? dl key then HChecked key else HReserved key) p' →
  ∃ holds', pool_inv l dl t0 tr (log ++ [inl (EvNow (Some t))]) holds'
    (mkPool (pl_sys w) (<[i := p']> (pl_threads w))).
Proof.
  intros t Hpi Hi Hs. simpl in Hs. destruct (sys_now (pl_sys w) <? dl key) eqn:E.
  - exists (<[i := HChecked key]> holds). eapply pool_move; try done.
    + exact (pi_run _ _ _ _ _ _ _ Hpi).
    + exact (pi_agree _ _ _ _ _ _ _ Hpi).
    + eapply owns_same; [done|done|exact (pi_owns _ _ _ _ _ _ _ Hpi)].
    + intros k. rewrite positive_skip by done. by left.
    + simpl. rewrite positive_skip by done. intros Hp.
      pose proof (pi_hold _ _ _ _ _ _ _ Hpi i _ Hi Hp). lia.
  - exists holds. by eapply pool_stay.
Qed.

(** Every call of a thread keeps the pool's invariant, and a hand-off call is made only for a
    key with no earlier hand-off that counts. *)
Lemma pool_thread l dl t0 tr log holds w i o p ev s p' :
  pool_inv l dl t0 tr log holds w → pl_threads w !! i = Some p →
  thread_step l o (pl_sys w) p = Some (ev, s, p') → label_deadline dl (inl ev) →
  (∃ tr' holds', pool_inv l dl t0 tr' (log ++ [inl ev]) holds' (mkPool s (<[i := p']> (pl_threads w)))) ∧
  (∀ msg oc key, ev = EvHandOff msg oc → DuplicateKey_of msg = Some key → ¬ positive key log).
Proof.
  intros Hpi Hp Hstep Hd.
  destruct (Forall2_lookup_r _ _ _ _ _ (pi_safe _ _ _ _ _ _ _ Hpi) Hp) as (h & Hi & Hs).
  destruct p as [a| |msg k|key b k|k|to k|msg k|k|msg k|rec st k]; simpl in Hstep; try done.
  - destruct (try_admit _ _ _ _) as [r inner] eqn:Et. injection Hstep as <- <- <-.
    destruct Hs as (-> & Hs1 & Hs2). split; [|done].
    eapply pool_admit; try done.
    + intros Hr. by apply Hs1.
    + intros key -> Hk. apply Hs2; [done|]. by apply (Hd key).
  - injection Hstep as <- <- <-. destruct Hs as [Hh Hs]. split; [|done]. by eapply pool_settle.
  - injection Hstep as <- <- <-. split; [|done]. destruct h as [|key|key|key b]; try done.
    + exists tr, holds. by eapply pool_stay.
    + destruct Hs as [H1 H2]. destruct (or_now o) as [text|].
      * exists tr. eapply pool_checked; [done|done|]. apply H2.
      * exists tr, holds. by eapply pool_stay.
  - injection Hstep as <- <- <-. split; [|done]. exists tr, holds.
    destruct h; try done; (eapply pool_stay; [done|done|apply Hs|done]).
  - injection Hstep as <- <- <-. destruct h as [|key|key|key b]; try done. destruct Hs as [Hk Hs]. split.
    + exists tr. eexists. by eapply pool_hand_off.
    + intros m oc k' [= <- <-] Hk'. rewrite Hk in Hk'. injection Hk' as <-.
      exact (pi_hold _ _ _ _ _ _ _ Hpi i _ Hi).
  - injection Hstep as <- <- <-. destruct Hs as [-> Hs]. split; [|done]. exists tr, holds.
    by eapply pool_stay.
  - injection Hstep as <- <- <-. destruct Hs as [-> Hs]. split; [|done]. exists tr, holds.
    by eapply pool_stay.
  - injection Hstep as <- <- <-. destruct Hs as [-> Hs]. split; [|done]. exists tr, holds.
    by eapply pool_stay.
Qed.

Lemma pool_spawn l dl t0 tr log holds w p :
  pool_inv l dl t0 tr log holds w → safe dl HNone p →
  pool_inv l dl t0 tr log (holds ++ [HNone]) (mkPool (pl_sys w) (pl_threads w ++ [p])).
Proof.
  intros [] Hs. constructor; simpl; try done.
  - apply Forall2_app; [done|]. by constructor.
  - by apply owns_snoc.
  - intros i h Hi. apply lookup_app_Some in Hi as [Hi|[_ Hi]]; [by eapply pi_hold0|].
    by apply list_lookup_singleton_Some in Hi as [_ <-].
  - intros k Hk. destruct (pi_positive0 k Hk) as [|[i Hi]]; [by left|right].
    exists i. by apply lookup_app_l_Some.
Qed.

(** A hand-off call in a log comes after no hand-off of its key that counts. *)
Definition handed_once (before log : list (event + Op)) : Prop :=
  ∀ pre msg o key post, log = pre ++ inl (EvHandOff msg o) :: post →
    DuplicateKey_of msg = Some key → ¬ positive key (before ++ pre).

Lemma pool_run_inv l dl t0 acts : ∀ tr log holds w log' w',
  pool_inv l dl t0 tr log holds w → pool_run l acts w = Some (log', w') →
  Forall (label_deadline dl) log' →
  (∃ tr' holds', pool_inv l dl t0 tr' (log ++ log') holds' w') ∧ handed_once log log'.
Proof.
  induction acts as [|a acts IH]; intros tr log holds w log' w' Hpi Hrun Hd; cbn [pool_run] in Hrun.
  { injection Hrun as <- <-. rewrite app_nil_r. split; [eauto|]. intros pre msg o key post H. by destruct pre. }
  apply option_bind_Some in Hrun as ([evs w1] & Hstep & Hrun).
  apply option_bind_Some in Hrun as ([log1 w2] & Hrun & Heq). injection Heq as <- <-.
  apply Forall_app in Hd as [Hd1 Hd2].
  assert ((∃ tr1 holds1, pool_inv l dl t0 tr1 (log ++ evs) holds1 w1) ∧ handed_once log evs) as [(tr1 & holds1 & Hpi1) Hev].
  { destruct a as [octets limits|msg|o|i o]; cbn [pool_step] in Hstep.
    - injection Hstep as <- <-. rewrite app_nil_r. split; [|by intros []].
      eexists _, _. apply pool_spawn; [done|]. apply safe_receive_octets.
    - injection Hstep as <- <-. rewrite app_nil_r. split; [|by intros []].
      eexists _, _. apply pool_spawn; [done|]. apply safe_redeliver.
    - destruct (environment_op (pl_sys w) o) eqn:Ho; [|done]. injection Hstep as <- <-.
      apply Forall_cons in Hd1 as [Hd1 _]. split.
      + destruct (pool_store _ _ _ _ _ _ _ _ Hpi Ho Hd1) as [tr1 H1]. by exists tr1, holds.
      + intros pre m oc key post H. by destruct pre as [|? []].
    - apply option_bind_Some in Hstep as (p & Hp & Hstep).
      apply option_bind_Some in Hstep as ([[ev s] p'] & Ht & Heq). injection Heq as <- <-.
      apply Forall_cons in Hd1 as [Hd1 _]. destruct (pool_thread _ _ _ _ _ _ _ _ _ _ _ _ _ Hpi Hp Ht Hd1) as [H1 H2].
      split; [done|]. intros pre m oc key post H Hk. destruct pre as [|? pre]; [|by destruct pre].
      injection H as -> _. rewrite app_nil_r. by eapply H2. }
  destruct (IH _ _ _ _ _ _ Hpi1 Hrun Hd2) as [(tr2 & holds2 & Hpi2) Hlog1].
  split; [rewrite app_assoc; eauto|].
  intros pre msg o key post Heq Hk.
  apply app_eq_app in Heq as [x [[-> Heq]|[-> Heq]]].
  - destruct x as [|y x].
    + apply (Hlog1 [] msg o key post) in Hk; [|done]. by rewrite !app_nil_r in Hk.
    + injection Heq as <- ->. by eapply (Hev pre msg o key x).
  - rewrite app_assoc. by eapply Hlog1.
Qed.

Lemma pool_init_inv l dl t0 : pool_inv l dl t0 [] [] [] (pool_init t0).
Proof.
  constructor; simpl; try done.
  - constructor.
  - by apply Forall_nil_2.
  - constructor; [|done]. intros k. split; [set_solver|]. intros (i & h & H & _). done.
  - intros k (m & o & H & _). by apply elem_of_nil in H.
Qed.
End Pool.
Arguments event D : clear implicits.
Arguments Oracle D : clear implicits.
Arguments Pool D : clear implicits.
Arguments Action D : clear implicits.

(** [C2] Each envelope is handed to the harness at most once: whatever the interleaving of
    any number of receiver threads over one duplicate store, with copies arriving and
    re-offered at any time, evictions, other store operations, a clock that does not go
    backwards, panics, and any answers of the adapter, the session lookup and the engine, a
    hand-off call for a copy is followed by another for a copy with the same duplicate key
    only if the first returned an outcome that rules a hand-off out. *)
Theorem handed_off_at_most_once {D : Type} {C : Crypto} (l : Limits) (dl : DuplicateKey → Z) (t0 : Z)
    (acts : list (Action D)) (log pre mid post : list (event D + Op)) (w : Pool D)
    (msg1 msg2 : ChannelMessage) (o1 o2 : option HandOffOutcome) (key : DuplicateKey) :
  pool_run l acts (pool_init t0) = Some (log, w) → Forall (label_deadline dl) log →
  log = pre ++ inl (EvHandOff msg1 o1) :: mid ++ inl (EvHandOff msg2 o2) :: post →
  DuplicateKey_of msg1 = Some key → DuplicateKey_of msg2 = Some key →
  ∃ o, o1 = Some o ∧ may_be_handed_off o = false.
Proof.
  intros Hrun Hd Hlog Hk1 Hk2.
  destruct (pool_run_inv l dl t0 acts _ _ _ _ _ _ (pool_init_inv l dl t0) Hrun Hd) as [_ Honce].
  specialize (Honce (pre ++ inl (EvHandOff msg1 o1) :: mid) msg2 o2 key post). simpl in Honce.
  rewrite <-app_assoc in Honce. specialize (Honce Hlog Hk2).
  destruct (counts_as_handed o1) eqn:Ho.
  - destruct Honce. exists msg1, o1. split_and!; [|done|done]. apply elem_of_app. right. apply list_elem_of_here.
  - destruct o1 as [o|]; [by exists o|done].
Qed.

(** Two copies of the sample envelope, the first refused by the harness for now. *)
Definition sample_message : AuthorizedMessage unit :=
  mkAuthorized (mkMessage sample_envelope (Some (identity_principal sample_identity))) tt.

Definition sample_oracle (o : HandOffOutcome) : Oracle unit :=
  mkOracle (Some []) (Some (Some (mkTarget true true [] None))) (Some o) (mkKeySet ∅) (Ok tt).

Definition sample_actions : list (Action unit) :=
  let now := sample_oracle HO_NotNow in
  let later := sample_oracle HO_Completed in
  [ARedeliver sample_message; ARedeliver sample_message;
   AThread 0 now; AThread 0 now; AThread 0 now; AThread 0 now; AThread 0 now;
   AThread 1 later; AThread 1 later; AThread 1 later; AThread 1 later; AThread 1 later].

(** A log of events on copies of one message agrees on its deadline. *)
Definition label_message {D} (m : ChannelMessage) (x : event D + Op) : ChannelMessage :=
  match x with inl (EvTryAdmit a _) => am_message a | _ => m end.

Lemma one_message_labels {D} (log : list (event D + Op)) m n :
  map (label_message m) log = replicate n m →
  forallb (λ x : event D + Op, match x with inr _ => false | _ => true end) log = true →
  Forall (label_deadline (λ _, message_deadline m)) log.
Proof.
  intros Hm He. apply Forall_forallb in He. rewrite !Forall_forall in *. intros x Hx. specialize (He x Hx).
  destruct x as [ev|]; [|done]. destruct ev as [a r| | | | | | |]; try done. intros k _. f_equal.
  apply (list_elem_of_fmap_2 (label_message m)) in Hx.
  change (label_message m <$> log) with (map (label_message m) log) in Hx. rewrite Hm in Hx.
  by apply elem_of_replicate in Hx as [Hx _].
Qed.

Definition sample_log : list (event unit + Op) :=
  default [] (fst <$> pool_run (C := sample) (with_capacity 8) sample_actions (pool_init (unix_nanos sample_time))).

Lemma handed_off_at_most_once_witness :
  sample_log !! 3%nat = Some (inl (EvHandOff (am_message sample_message) (Some HO_NotNow))) ∧
  sample_log !! 8%nat = Some (inl (EvHandOff (am_message sample_message) (Some HO_Completed))) ∧
  ∃ o, Some HO_NotNow = Some o ∧ may_be_handed_off o = false.
Proof.
  split_and!; [vm_compute; reflexivity|vm_compute; reflexivity|].
  assert (is_some (pool_run (C := sample) (with_capacity 8) sample_actions (pool_init (unix_nanos sample_time))) = true)
    as Hsome by (vm_compute; reflexivity).
  destruct (pool_run (C := sample) (with_capacity 8) sample_actions (pool_init (unix_nanos sample_time)))
    as [[log w]|] eqn:E; [|discriminate Hsome].
  assert (log = sample_log) as -> by (unfold sample_log; rewrite E; reflexivity).
  apply (handed_off_at_most_once (C := sample) (with_capacity 8)
    (λ _, message_deadline (am_message sample_message)) (unix_nanos sample_time) sample_actions
    sample_log (take 3 sample_log) (take 4 (drop 4 sample_log)) (drop 9 sample_log) w
    (am_message sample_message) (am_message sample_message) (Some HO_NotNow) (Some HO_Completed)
    (default sample_dup (DuplicateKey_of (am_message sample_message)))).
  - exact E.
  - apply (one_message_labels _ _ 10); vm_compute; reflexivity.
  - vm_compute. reflexivity.
  - vm_compute. reflexivity.
  - vm_compute. reflexivity.
Defined.

(** ** One copy *)

Section OneCopy.
Context {D : Type} {C : Crypto}.
Implicit Types (tr : list (event D)).

Definition hand_offs (tr : list (event D)) : list (ChannelMessage * option HandOffOutcome) :=
  omap (λ e, match e with EvHandOff m o => Some (m, o) | _ => None end) tr.

Definition records (tr : list (event D)) : list (HandOffRecord * DeliveryState) :=
  omap (λ e, match e with EvRecord r s => Some (r, s) | _ => None end) tr.

Definition handed_state (d : DeliveryState) : bool :=
  match d with D_HandedToHarness | D_Unknown => true | _ => false end.

(** What a report says: a state and error Table 8.3 lists for a receiver. *)
Definition report_valid (r : ReceiverReport) : Prop := fits_report (rp_state r) O_Receiver (rp_error r) = true.

Lemma report_of_valid d e : report_valid (ReceiverReport_of d e).
Proof.
  unfold report_valid, ReceiverReport_of. fold (fits_report d O_Receiver e).
  destruct (fits_report d O_Receiver e) eqn:E; [done|]. vm_compute. reflexivity.
Qed.

Lemma report_of_fits d e : fits_report d O_Receiver e = true → ReceiverReport_of d e = mkReport d e None.
Proof. unfold ReceiverReport_of. fold (fits_report d O_Receiver e). by intros ->. Qed.

(** A report made with a code is of a state that carries one. *)
Lemma report_of_error d c : handed_state (rp_state (ReceiverReport_of d (Some c))) = false.
Proof.
  unfold ReceiverReport_of. destruct (_ && _) eqn:E; [|done]. simpl.
  apply andb_true_iff in E as [_ E]. apply fits_carries in E. by destruct d.
Qed.

Lemma recorded_fits o : fits_report (recorded o).1 O_Receiver (recorded o).2 = true.
Proof. by destruct o. Qed.

Lemma recorded_handed o : handed_state (recorded o).1 = may_be_handed_off o.
Proof. by destruct o. Qed.

Lemma ptrace_bind {A B} (f : A → prog D B) (m : prog D A) tr b :
  ptrace (m ≫= f) tr (Ret b) →
  ∃ tr1 a tr2, tr = tr1 ++ tr2 ∧ ptrace m tr1 (Ret a) ∧ ptrace (f a) tr2 (Ret b).
Proof.
  revert tr. induction m as [a| |msg k IH|key d k IH|k IH|to k IH|msg k IH|k IH|msg k IH|rec st k IH]; intros tr H.
  1: { exists [], a, tr. split_and!; [done|constructor|done]. }
  1: { inversion H as [|? ? ? ? ? Hs]; subst. inversion Hs. }
  all: inversion H as [|p0 ev p1 tr' p2 Hs Ht]; subst; inversion Hs; subst; clear Hs;
    apply IH in Ht as (tr1 & a & tr2 & -> & H1 & H2);
    eexists (_ :: tr1), a, tr2; split_and!; [done| |done]; econstructor; [constructor|done].
Qed.

(** The first call of a finished trace, by the program's head. *)
Lemma ptrace_inv {A} (p : prog D A) tr b :
  ptrace p tr (Ret b) →
  match p with
  | Ret a => tr = [] ∧ a = b
  | Unwound => False
  | TryAdmit msg k => ∃ r tr', tr = EvTryAdmit msg r :: tr' ∧ ptrace (k r) tr' (Ret b)
  | Settle key h k => ∃ r tr', tr = EvSettle key r :: tr' ∧ r = h ∧ ptrace k tr' (Ret b)
  | Now k => ∃ r tr', tr = EvNow r :: tr' ∧ ptrace (k r) tr' (Ret b)
  | Target to k => ∃ r tr', tr = EvTarget to r :: tr' ∧ ptrace (k r) tr' (Ret b)
  | HandOffCall msg k => ∃ o tr', tr = EvHandOff msg o :: tr' ∧ ptrace (k o) tr' (Ret b)
  | TrustedKeys k => ∃ keys tr', tr = EvTrustedKeys keys :: tr' ∧ ptrace (k keys) tr' (Ret b)
  | AuthorizeDelivery msg k => ∃ r tr', tr = EvAuthorize msg r :: tr' ∧ ptrace (k r) tr' (Ret b)
  | RecordHandOff rec st k => ∃ s tr', tr = EvRecord rec s :: tr' ∧ s = st ∧ ptrace k tr' (Ret b)
  end.
Proof.
  intros H. inversion H as [|p0 ev p1 tr' p2 Hs Ht]; subst; [done|].
  inversion Hs; subst; eauto.
Qed.

Ltac next_call H r :=
  apply ptrace_inv in H; cbn beta iota in H; destruct H as (r & ? & -> & H).

Lemma refuse_trace key refusal tr rep :
  ptrace (refuse (D := D) key refusal) tr (Ret rep) →
  records tr = [] ∧ hand_offs tr = [] ∧ rep = ReceiverReport_of refusal.1 (Some refusal.2).
Proof.
  unfold refuse. intros H. next_call H b. destruct H as [_ H]. by apply ptrace_inv in H as [-> <-].
Qed.

(** The delivery stage refuses before the hand-off call, or makes it once and reports it. *)
Definition stage_outcome (msg : ChannelMessage) (tr : list (event D)) (rep : ReceiverReport) : Prop :=
  records tr = [] ∧
  ((hand_offs tr = [] ∧ report_valid rep ∧ handed_state (rp_state rep) = false) ∨
   ∃ o, hand_offs tr = [(msg, Some o)] ∧ rep = mkReport (recorded o).1 (recorded o).2 None).

Lemma delivery_stage_trace key msg tr rep :
  ptrace (delivery_stage (D := D) key msg) tr (Ret rep) → stage_outcome msg tr rep.
Proof.
  assert (∀ refusal tr, ptrace (refuse (D := D) key refusal) tr (Ret rep) →
    ∀ evs, hand_offs evs = [] → records evs = [] → stage_outcome msg (evs ++ tr) rep) as Hrefuse.
  { intros refusal tr' H evs He1 He2. apply refuse_trace in H as (Hr & Hh & ->). split.
    - unfold records in *. by rewrite omap_app, He2, Hr.
    - left. split_and!; [unfold hand_offs in *; by rewrite omap_app, He1, Hh| |].
      + apply report_of_valid.
      + apply report_of_error. }
  assert (∀ tr, ptrace (drop_before (D := D) key) tr (Ret rep) → False) as Hdrop.
  { unfold drop_before. intros tr' H. next_call H b. destruct H as [_ H]. by apply ptrace_inv in H. }
  unfold delivery_stage. intros H. next_call H target. destruct target as [target|]; [|by destruct (Hdrop _ H)].
  destruct (delivery_checks (cm_envelope msg) target) as [|refusal]; [|by apply (Hrefuse _ _ H [_])].
  next_call H t. destruct t as [t|]; [|by destruct (Hdrop _ H)].
  destruct (refusal_at _ t) as [refusal|]; [by apply (Hrefuse _ _ H [_; _])|].
  next_call H o. destruct o as [o|]; next_call H b; destruct H as [_ H]; [|by apply ptrace_inv in H].
  pose proof (recorded_fits o) as Hf. destruct (recorded o) as [d e] eqn:Ho. simpl in Hf.
  apply ptrace_inv in H as [-> <-]. split; [done|]. right. exists o. split; [done|].
  rewrite Ho. by apply report_of_fits.
Qed.

(** What is true of one copy once its program has returned. *)
Record copy_outcome (tr : list (event D)) (out : ReceiveOutcome D) : Prop := {
  co_handed :
    match hand_offs tr with
    | [] => records tr = [] ∧
        ∀ r, ro_received out = RReported r → handed_state (rp_state r) = false
    | [(msg, Some o)] =>
        ro_received out = RReported (mkReport (recorded o).1 (recorded o).2 None) ∧
        ro_verified_by out = verified_key msg ∧
        records tr =
          if may_be_handed_off o then [(HandOffRecord_of (cm_envelope msg), (recorded o).1)] else []
    | _ => False
    end;
  co_valid : ∀ r, ro_received out = RReported r → report_valid r;
  co_requeue : is_some (ro_requeue out) = match ro_received out with RInFlight _ => true | _ => false end }.

Lemma copy_refused tr out r :
  hand_offs tr = [] → records tr = [] → ro_received out = RReported r → ro_requeue out = None →
  report_valid r → handed_state (rp_state r) = false → copy_outcome tr out.
Proof.
  intros H1 H2 H3 H4 H5 H6. constructor; [rewrite H1; split; [done|]| |]; rewrite H3.
  - by intros ? [= <-].
  - by intros ? [= <-].
  - by rewrite H4.
Qed.

(** Calls before the first hand-off and record do not matter to the outcome. *)
Lemma copy_outcome_app tr1 tr2 out :
  hand_offs tr1 = [] → records tr1 = [] → copy_outcome tr2 out → copy_outcome (tr1 ++ tr2) out.
Proof.
  intros H1 H2 [H3 H4 H5]. unfold hand_offs, records in *. constructor; [|done|done].
  unfold hand_offs, records. by rewrite !omap_app, H1, H2.
Qed.

Lemma deliver_trace (msg : AuthorizedMessage D) tr r :
  ptrace (deliver msg) tr (Ret r) →
  records tr = [] ∧
  match r with
  | Ok (RReported rep) =>
      (hand_offs tr = [] ∧ report_valid rep ∧ handed_state (rp_state rep) = false) ∨
      ∃ o, hand_offs tr = [(am_message msg, Some o)] ∧ rep = mkReport (recorded o).1 (recorded o).2 None
  | _ => hand_offs tr = []
  end.
Proof.
  unfold deliver. intros H. next_call H a. destruct a as [[[key|b]|]|e].
  - apply ptrace_bind in H as (tr1 & rep & tr2 & -> & H1 & H2). apply ptrace_inv in H2 as [-> <-].
    rewrite app_nil_r. apply delivery_stage_trace in H1 as [H1 H2]. split; [done|]. exact H2.
  - apply ptrace_inv in H as [-> <-]. split; [done|]. left. done.
  - apply ptrace_inv in H as [-> <-]. split; [done|].
    destruct (DuplicateKey_of (am_message msg)); [done|]. left. done.
  - apply ptrace_inv in H as [-> <-]. done.
Qed.

Lemma redeliver_trace (msg : AuthorizedMessage D) tr out :
  ptrace (redeliver msg) tr (Ret out) → copy_outcome tr out.
Proof.
  unfold redeliver, deliver_unrecorded. intros H.
  apply ptrace_bind in H as (tr1 & [out' rec] & tr2 & -> & H1 & H2).
  apply ptrace_bind in H1 as (tr3 & r & tr4 & -> & H1 & H3). apply ptrace_inv in H3 as [-> [= <- <-]].
  rewrite app_nil_r. apply ptrace_bind in H2 as (tr5 & u & tr6 & -> & H2 & H3).
  apply ptrace_inv in H3 as [-> <-]. rewrite app_nil_r. apply deliver_trace in H1 as [Hr H1].
  unfold record_outcome in H2. cbn [ro_received fst snd] in *.
  destruct r as [[key|rep]|e].
  - apply ptrace_inv in H2 as [-> _]. rewrite app_nil_r. constructor; simpl; [|done|done].
    rewrite H1. done.
  - destruct H1 as [(Hh & Hv & Hs)|(o & Hh & ->)].
    + assert (tr5 = []) as -> by (destruct (rp_state rep); try done; by apply ptrace_inv in H2 as [-> _]).
      rewrite app_nil_r. by apply (copy_refused _ _ rep).
    + assert (hand_offs tr5 = [] ∧ records tr5 =
        if may_be_handed_off o then [(HandOffRecord_of (cm_envelope (am_message msg)), (recorded o).1)] else []) as [H5 H6].
      { cbn [rp_state] in H2. destruct o; cbn [recorded fst] in H2; try (by apply ptrace_inv in H2 as [-> _]);
          next_call H2 s; destruct H2 as [-> H2]; by apply ptrace_inv in H2 as [-> _]. }
      constructor; simpl; [|intros ? [= <-]; apply recorded_fits|done].
      unfold hand_offs, records in *. by rewrite !omap_app, Hh, Hr, H5, H6.
  - assert (tr5 = []) as ->.
    { pose proof (report_of_error (sr_state e) (sr_error e)) as Hs. unfold from_rejection in H2.
      destruct (rp_state _); try done; by apply ptrace_inv in H2 as [-> _]. }
    rewrite app_nil_r. apply (copy_refused _ _ (from_rejection e)); try done.
    + apply report_of_valid.
    + apply report_of_error.
Qed.

Lemma now_trace tr t : ptrace (now (D := D)) tr (Ret t) → hand_offs tr = [] ∧ records tr = [].
Proof.
  unfold now. intros H. next_call H r. destruct r; apply ptrace_inv in H; [|done]. by destruct H as [-> _].
Qed.

Lemma reported_refusal d c vb fd :
  copy_outcome [] (mkOutcome (RReported (ReceiverReport_of d (Some c))) None vb fd).
Proof. eapply copy_refused; try done; [apply report_of_valid|apply report_of_error]. Qed.

Lemma receive_octets_trace octets limits tr out :
  ptrace (receive_octets (D := D) octets limits) tr (Ret out) → copy_outcome tr out.
Proof.
  unfold receive_octets. intros H. apply ptrace_bind in H as (tr0 & t & tr1 & -> & H0 & H).
  apply now_trace in H0 as [H0 H0']. apply copy_outcome_app; [done|done|].
  destruct (receive_envelope octets limits t) as [msg|rj].
  2: { apply ptrace_inv in H as [-> <-]. apply reported_refusal. }
  unfold receive in H. apply ptrace_bind in H as (tr2 & r & tr3 & -> & H2 & H3).
  assert (hand_offs tr2 = [] ∧ records tr2 = [] ∧ (∀ out, r = Err out → copy_outcome [] out)) as (Hh & Hr & He).
  { unfold security_steps in H2. next_call H2 keys. destruct (authenticate msg keys) as [m|rj].
    2: { apply ptrace_inv in H2 as [-> <-]. split_and!; [done|done|]. intros ? [= <-]. apply reported_refusal. }
    apply ptrace_bind in H2 as (tr4 & t' & tr5 & -> & H4 & H5). apply now_trace in H4 as [H4 H4'].
    assert (hand_offs tr5 = [] ∧ records tr5 = [] ∧ (∀ out, r = Err out → copy_outcome [] out)) as (H6 & H7 & H8).
    { destruct (check_replay_window m t') as [u|rj].
      - next_call H5 a. destruct a; apply ptrace_inv in H5 as [-> <-]; (split_and!; [done|done|]);
          intros ? [= <-]; apply reported_refusal.
      - apply ptrace_inv in H5 as [-> <-]. split_and!; [done|done|]. intros ? [= <-]. apply reported_refusal. }
    unfold hand_offs, records in *. cbn [omap list_omap]. by rewrite !omap_app, H4, H4', H6, H7. }
  apply copy_outcome_app; [done|done|]. destruct r as [a|refused].
  - by eapply redeliver_trace.
  - apply ptrace_inv in H3 as [-> <-]. by apply He.
Qed.
End OneCopy.

(** [C30] What one copy's processing returns tells what happened to it: the hand-off call was
    made at most once; if it was made, the copy is reported with exactly the state and error of
    Table 5.3 for its outcome, and the engine's hand-off record was written exactly when the
    harness may hold the content; if it was not, no record was written and the report claims
    no hand-off; the copy comes back for re-queueing exactly when its twin is in flight; and
    every report can be sent as a receipt. *)
Theorem one_copy_outcome {D : Type} {C : Crypto} (octets : list Z) (limits : EnvelopeLimits)
    (tr : list (event D)) (out : ReceiveOutcome D) :
  ptrace (receive_octets octets limits) tr (Ret out) →
  copy_outcome tr out ∧
  (∀ r env at_, ro_received out = RReported r → is_ok (report_receipt r env at_) = true).
Proof.
  intros H. pose proof (receive_octets_trace _ _ _ _ H) as Hc. split; [done|].
  intros r env at_ Hr. unfold report_receipt. rewrite new_Ok; [done|]. by apply (co_valid _ _ Hc).
Qed.

Lemma one_copy_outcome_witness :
  copy_outcome (D := unit) [EvNow (Some sample_time)]
    (mkOutcome (RReported (mkReport D_Rejected (Some E_MalformedEnvelope) None)) None None false).
Proof.
  assert (ptrace (D := unit) (receive_octets (C := sample) [] EnvelopeLimits_default) [EvNow (Some sample_time)]
    (Ret (mkOutcome (RReported (mkReport D_Rejected (Some E_MalformedEnvelope) None)) None None false))) as H.
  { eapply pt_cons; [apply p_now|]. vm_compute. apply pt_nil. }
  exact (proj1 (one_copy_outcome (C := sample) _ _ _ _ H)).
Defined.

(** A program that has no call left. *)
Definition ended {D A} (p : prog D A) : bool := match p with Ret _ | Unwound => true | _ => false end.

(** [C31] No reservation is ever lost: once every receiver thread of a pool has ended, by
    returning or by a panic anywhere on its way, no reservation is outstanding and no entry of
    the store is in flight, so no later copy waits for a hand-off that will not settle. *)
Theorem reservations_settled {D : Type} {C : Crypto} (l : Limits) (dl : DuplicateKey → Z) (t0 : Z)
    (acts : list (Action D)) (log : list (event D + Op)) (w : Pool D) :
  pool_run l acts (pool_init t0) = Some (log, w) → Forall (label_deadline dl) log →
  Forall (λ p, ended p = true) (pl_threads w) →
  sys_reserved (pl_sys w) = ∅ ∧ ∀ k, phase_of (sys_inner (pl_sys w)) k ≠ Some InFlight.
Proof.
  intros Hrun Hd Hend.
  destruct (pool_run_inv l dl t0 acts _ _ _ _ _ _ (pool_init_inv l dl t0) Hrun Hd) as [(tr & holds & Hpi) _].
  assert (sys_reserved (pl_sys w) = ∅) as Hr.
  { apply set_eq. intros k. split; [|set_solver]. intros Hk.
    apply (ow_held _ _ (pi_owns _ _ _ _ _ _ _ Hpi)) in Hk as (i & h & Hi & Hk).
    destruct (Forall2_lookup_l _ _ _ _ _ (pi_safe _ _ _ _ _ _ _ Hpi) Hi) as (p & Hp & Hs).
    rewrite Forall_lookup in Hend. specialize (Hend i p Hp). destruct p; try done; simpl in Hs; by subst h. }
  split; [done|]. intros k Hk.
  apply (si_reserved _ _ (run_inv _ _ _ _ (pi_run _ _ _ _ _ _ _ Hpi) (init_inv l t0))) in Hk. set_solver.
Qed.

(** A thread that panics in the session lookup, and one whose adapter call panics. *)
Definition panic_actions : list (Action unit) :=
  let lookup := mkOracle (Some []) None None (mkKeySet ∅) (Ok tt) in
  let call := mkOracle (Some []) (Some (Some (mkTarget true true [] None))) None (mkKeySet ∅) (Ok tt) in
  [ARedeliver sample_message; ARedeliver sample_message;
   AThread 0 lookup; AThread 0 lookup; AThread 0 lookup;
   AThread 1 call; AThread 1 call; AThread 1 call; AThread 1 call; AThread 1 call].

Definition panic_run := pool_run (C := sample) (with_capacity 8) panic_actions (pool_init (unix_nanos sample_time)).
Definition panic_log : list (event unit + Op) := default [] (fst <$> panic_run).
Definition panic_pool : Pool unit := default (pool_init 0) (snd <$> panic_run).

Lemma reservations_settled_witness :
  length (pl_threads panic_pool) = 2%nat ∧ sys_reserved (pl_sys panic_pool) = ∅.
Proof.
  split; [vm_compute; reflexivity|].
  assert (is_some panic_run = true) as Hsome by (vm_compute; reflexivity).
  assert (panic_run = Some (panic_log, panic_pool)) as E.
  { unfold panic_log, panic_pool. destruct panic_run as [[log w]|]; [reflexivity|discriminate Hsome]. }
  apply (reservations_settled (C := sample) (with_capacity 8)
    (λ _, message_deadline (am_message sample_message)) (unix_nanos sample_time) panic_actions panic_log panic_pool).
  - exact E.
  - apply (one_message_labels _ _ 8); vm_compute; reflexivity.
  - apply Forall_forallb. vm_compute. reflexivity.
Defined.

Lemma fits_report_error c d o : fits_receipt c d o = true → fits_report d o (Some c) = true.
Proof.
  intros H. unfold fits_report. rewrite H, andb_true_r. by apply (proj1 (fits_receipt_spec d o)); exists c.
Qed.

Lemma try_admit_Err l now msg i r : (try_admit l now msg i).1 = Err r → r = unverified ∨ r = full.
Proof.
  unfold try_admit, key_and_deadline. destruct (DuplicateKey_of msg) as [key|]; cbn [ok_or mbind result_bind].
  - destruct (store_decide _ _ _ _ _) as [d j] eqn:Ed. apply decide_cases in Ed.
    destruct Ed as [(e & _ & _ & -> & _)|[(e & _ & _ & -> & _)|[(_ & _ & -> & _)|(_ & _ & -> & _)]]];
      simpl; intros [= <-]. by right.
  - intros [= <-]. by left.
Qed.

Lemma delivery_checks_Err env target refusal :
  delivery_checks env target = Err refusal →
  refusal = (D_Unreachable, E_UnknownDestination) ∨ refusal = (D_Unreachable, E_DestinationUnavailable) ∨
  refusal = (D_Rejected, E_UnsupportedCapability).
Proof.
  unfold delivery_checks. destruct target as [t|]; cbn [ok_or mbind result_bind]; [|intros [= <-]; by left].
  destruct (negb (dt_accepting t)); [intros [= <-]; auto|]. destruct (_ || _); [intros [= <-]; auto|done].
Qed.

(** No report is ever replaced: every state and error pair that the receiver makes a report of,
    from envelope-stage validation, the security stage, the duplicate store, the delivery
    checks, the hand-off deadline and the adapter's outcomes, is one Table 8.3 lists for a
    receiver, so the fallback to [internal-error] (and the debug assertion before it) is never
    reached; with step 4 refusing only as it documents, that is every report of a copy. *)
Theorem reports_unaltered {C : Crypto} :
  (∀ octets limits now r, receive_envelope octets limits now = Err r →
     fits_report (rej_state r) O_Receiver (Some (rej_error r)) = true) ∧
  (∀ msg keys r, authenticate msg keys = Err r →
     fits_report (sr_state r) O_Receiver (Some (sr_error r)) = true) ∧
  (∀ msg now r, check_replay_window msg now = Err r →
     fits_report (sr_state r) O_Receiver (Some (sr_error r)) = true) ∧
  (∀ l now msg i r, (try_admit l now msg i).1 = Err r →
     fits_report (sr_state r) O_Receiver (Some (sr_error r)) = true) ∧
  (∀ env target refusal, delivery_checks env target = Err refusal →
     fits_report refusal.1 O_Receiver (Some refusal.2) = true) ∧
  (∀ env now refusal, refusal_at (HandOffDeadline_of env) now = Some refusal →
     fits_report refusal.1 O_Receiver (Some refusal.2) = true) ∧
  (∀ o, ReceiverReport_of (recorded o).1 (recorded o).2 = mkReport (recorded o).1 (recorded o).2 None) ∧
  (∀ d e, fits_report d O_Receiver e = true → ReceiverReport_of d e = mkReport d e None).
Proof.
  split_and!.
  - intros octets limits now r H. apply receive_envelope_Err in H as [H _]. by apply fits_report_error.
  - intros msg keys r H. unfold authenticate in H. repeat case_match; simplify_eq; reflexivity.
  - intros msg now r H. unfold check_replay_window in H. repeat case_match; simplify_eq; reflexivity.
  - intros l now msg i r H. apply try_admit_Err in H as [->| ->]; reflexivity.
  - intros env target refusal H. apply delivery_checks_Err in H. by destruct H as [->|[->| ->]].
  - intros env now refusal H. unfold refusal_at in H.
    destruct (passed_at _ _); [|done]. injection H as <-. by destruct (hd_bound _).
  - intros o. apply report_of_fits, recorded_fits.
  - apply report_of_fits.
Qed.
