(* ===== verification/SignedObject.v ===== *)
(** * Objects signed outside an envelope

    Receipts, presence records, registrations and agreement statements are signed the same
    way: a [security] member with the device's principal and key id is added, the object is
    signed under its domain, and the signature goes into the member.  What is signed so
    verifies, and it can be signed exactly when every number in it is in range. *)

From S2P Require Import Prelude Base64url Ids Utf8 Json JsonFacts JsonReader JsonText.
From S2P Require Import Delivery Canonical Envelope EnvelopeFacts Keys Trust Signing.

Section SignedObject.
Context `{C : Crypto}.

(** The [security] member before its signature. *)
Definition own_security (d : DeviceIdentity) : JsonObject :=
  obj_insert (obj_insert [] (bs "principal") (JString (tk_principal (di_entry d))))
    (bs "key_id") (JString (tk_key_id (di_entry d))).

(** The steps the issuing functions share; [None] is the [expect] on the canonical form. *)
Definition attach_signature (d : DeviceIdentity) (domain : SigningDomain) (o : JsonObject) : option JsonObject :=
  let sec := own_security d in
  let o := obj_insert o (bs "security") (JObject sec) in
  signature ← ok (sign_object d domain o);
  Some (obj_insert o (bs "security") (JObject (obj_insert sec (bs "signature") (JString signature)))).
End SignedObject.

Lemma obj_insert_get o n v : obj_get (obj_insert o n v) n = Some v.
Proof. by rewrite obj_get_insert, beq_refl. Qed.

Lemma obj_insert_other o n v m : beq n m = false → obj_get (obj_insert o n v) m = obj_get o m.
Proof. intros H. rewrite obj_get_insert. by rewrite H. Qed.

(** A device made from a seed, whose principal is a token. *)
Definition device_ok `{C : Crypto} (d : DeviceIdentity) : Prop :=
  identity_ok d ∧ dk_public (di_key d) = mkPublicKey (ed_public (dk_seed (di_key d))) ∧
  length (dk_seed (di_key d)) = 32%nat.

Section Facts.
Context {C : Crypto}.

Lemma attach_members d domain o w m :
  attach_signature d domain o = Some w → beq (bs "security") m = false → obj_get w m = obj_get o m.
Proof.
  unfold attach_signature. intros H Hm. inv_binds. by rewrite !obj_insert_other.
Qed.

Lemma obj_insert_length o n v : length (obj_insert o n v) = if obj_contains o n then length o else S (length o).
Proof.
  unfold obj_insert, obj_contains, obj_get.
  assert (match obj_replace o n v with
          | Some o' => is_some (snd <$> find (λ m, beq m.1 n) o) = true ∧ length o' = length o
          | None => is_some (snd <$> find (λ m, beq m.1 n) o) = false end) as H.
  { induction o as [|[k w] o IH]; simpl; [done|]. destruct (beq k n); simpl; [done|].
    destruct (obj_replace o n v); simpl; [|done]. destruct IH as [-> IH]. simpl. by rewrite IH. }
  destruct (obj_replace o n v); [destruct H as [-> H]; done|rewrite H, length_app; simpl; lia].
Qed.

Lemma attach_length d domain o w :
  attach_signature d domain o = Some w →
  length w = if obj_contains o (bs "security") then length o else S (length o).
Proof.
  unfold attach_signature. intros H. inv_binds. rewrite !obj_insert_length.
  unfold obj_contains at 1. by rewrite obj_insert_get.
Qed.

Context {HC : CryptoLaws C}.

Lemma attach_verifies d domain o w keys :
  device_ok d → domain ≠ Dom_Envelope → ts_entries keys !! tk_key_id (di_entry d) = Some (di_entry d) →
  attach_signature d domain o = Some w → verify_with_requirement keys domain w = Ok (di_entry d).
Proof.
  intros ([He Ht] & Hpub & Hseed) Hdom Hk Hw.
  unfold attach_signature, sign_object in Hw. apply option_bind_Some in Hw as (signature & Hs & [= <-]).
  set (o1 := obj_insert o (bs "security") (JObject (own_security d))) in *.
  destruct (signing_input jcs_string jcs_f64 domain o1) as [input|] eqn:Hin; [|done].
  cbn [mbind result_bind ok] in Hs. injection Hs as <-.
  assert (decode_exact 64 (Signature_from_octets (sign (di_key d) input)) = Some (sign (di_key d) input)) as Hsg.
  { apply decode_exact_canonical. split_and!; [apply ed_sign_len|apply ed_sign_u8|done]. }
  assert (resolve keys (tk_principal (di_entry d)) (tk_key_id (di_entry d)) = Some (di_entry d)) as Hr.
  { unfold resolve. rewrite (token_parse_ok _ Ht). simpl.
    assert (KeyId_parse (tk_key_id (di_entry d)) = Some (tk_key_id (di_entry d))) as ->.
    { rewrite He. simpl. apply key_id_parse. }
    simpl. rewrite Hk. simpl. by rewrite beq_refl. }
  unfold verify_with_requirement. rewrite obj_insert_get. cbn [mbind option_bind as_object ok_or result_bind].
  set (sec := obj_insert (own_security d) _ _).
  assert (security_members domain = [bs "principal"; bs "key_id"; bs "signature"]) as Hmem by (by destruct domain).
  rewrite Hmem. replace (negb (bool_decide (length sec = _)) || _) with false by reflexivity.
  unfold get_str. replace (obj_get sec (bs "principal")) with (Some (JString (tk_principal (di_entry d)))) by reflexivity.
  replace (obj_get sec (bs "key_id")) with (Some (JString (tk_key_id (di_entry d)))) by reflexivity.
  replace (obj_get sec (bs "signature")) with (Some (JString (Signature_from_octets (sign (di_key d) input)))) by reflexivity.
  cbn [mbind option_bind as_str ok_or result_bind].
  replace (match domain with Dom_Envelope => _ | _ => Ok None end) with (Ok (E := VerifyError * string) (@None (list Z)))
    by (by destruct domain).
  cbn [mbind result_bind]. rewrite Hr. cbn [ok_or mbind result_bind]. rewrite Hsg. cbn [ok_or mbind result_bind].
  unfold sec. rewrite (signing_input_set_signature jcs_string jcs_f64 domain o1) by apply obj_insert_get.
  rewrite Hin. cbn [map_err mbind result_bind].
  assert (scalar_is_reduced (drop 32 (sign (di_key d) input)) = true) as ->.
  { apply scalar_reduced_iff; unfold sign; [by rewrite length_drop, ed_sign_len| |apply ed_sign_reduced].
    apply Forall_drop, ed_sign_u8. }
  cbn [negb]. rewrite He. simpl tk_public_key. rewrite Hpub. simpl pk_octets. unfold sign. by rewrite ed_sign_verifies.
Qed.

(** Objects without numbers beyond the doubles sign. *)
Lemma attach_total d domain o :
  obj_get o (bs "security") = None → numbers_finite (JObject o) = true → is_some (attach_signature d domain o) = true.
Proof.
  intros Hsec Ho. unfold attach_signature, sign_object, signing_input.
  rewrite (signed_text_security jcs_string jcs_f64 _ (own_security d)) by apply obj_insert_get.
  assert (is_ok (canonical jcs_string jcs_f64 (JObject (obj_insert (obj_without (obj_insert o (bs "security")
    (JObject (own_security d))) (bs "security")) (bs "security") (JObject (obj_without (own_security d) (bs "signature")))))) = true) as Hok.
  { rewrite (canonical_ok _ _ jcs_string_ok jcs_f64_ok). rewrite obj_without_insert.
    apply numbers_finite_insert; [|done]. unfold obj_without. by rewrite (proj2 (obj_remove_None o (bs "security")) Hsec). }
  by destruct (canonical _ _ _).
Qed.

(** What is signed so is text that reads back as it is. *)
Lemma attach_wf d domain o w :
  device_ok d → wf_json (JObject o) → attach_signature d domain o = Some w → wf_json (JObject w).
Proof.
  intros ([He Ht] & _) Ho Hw. unfold attach_signature in Hw. apply option_bind_Some in Hw as (sg & Hs & [= <-]).
  assert (ascii sg) as Hsg.
  { unfold sign_object in Hs. destruct (signing_input _ _ _ _); [|done]. injection Hs as <-. apply encode_ascii. }
  assert (wf_json (JObject (own_security d))) as Hsec.
  { unfold own_security. repeat apply wf_insert; try (by apply ascii_bs); [apply wf_empty| |].
    - by apply wf_str, token_ascii.
    - apply wf_str. rewrite He. cbn. eapply key_id_ascii, key_id_parse. }
  apply wf_insert; [apply wf_insert; [done|by apply ascii_bs|done]|by apply ascii_bs|].
  apply wf_insert; [done|by apply ascii_bs|by apply wf_str].
Qed.
End Facts.
