(* ===== verification/Agreement.v ===== *)
(** * Agreement keys and statements ([core/src/sealing.rs])

    The X25519 agreement keys a device may hold, the statements that bind one to a device key,
    and their admission by a consumer: the checks in their order, and the floors a pairing
    sets. *)

From S2P Require Import Prelude Base64url Ids Utf8 Json JsonFacts JsonReader JsonText.
From S2P Require Import Canonical Envelope EnvelopeFacts Keys Trust Signing Replay SignedObject.

Definition MAX_STATEMENT_SEQ : Z := 9007199254740991.

(** ** Agreement public keys *)

(** [SMALL_ORDER]: the u-coordinates of small order, little-endian. *)
Definition SMALL_ORDER : list (list Z) :=
  [replicate 32 0;
   1 :: replicate 31 0;
   [236; 255; 255; 255; 255; 255; 255; 255; 255; 255; 255; 255; 255; 255; 255; 255; 255; 255; 255; 255; 255;
    255; 255; 255; 255; 255; 255; 255; 255; 255; 255; 127];
   [224; 235; 122; 124; 59; 65; 184; 174; 22; 86; 227; 250; 241; 159; 196; 106; 218; 9; 141; 235; 156; 50; 177;
    253; 134; 98; 5; 22; 95; 73; 184; 0];
   [95; 156; 149; 188; 163; 80; 140; 36; 177; 208; 177; 85; 156; 131; 239; 91; 4; 68; 92; 196; 88; 28; 142; 134;
    216; 34; 78; 221; 208; 159; 17; 87]].

Definition is_acceptable_agreement_key (octets : list Z) : bool :=
  let top := default 0 (octets !! 31%nat) in
  if negb (Z.land top 128 =? 0) then false
  else if (top =? 127) && forallb (Z.eqb 255) (slice 1 31 octets) && (237 <=? default 0 (octets !! 0%nat)) then false
  else negb (existsb (λ s, beq s octets) SMALL_ORDER).

Record AgreementPublicKey := mkAgreement { ak_octets : list Z }.

#[export] Instance AgreementPublicKey_eq_dec : EqDecision AgreementPublicKey.
Proof. solve_decision. Defined.

Definition AgreementPublicKey_from_octets (octets : list Z) : option AgreementPublicKey :=
  then_some (is_acceptable_agreement_key octets) (mkAgreement octets).

Definition AgreementPublicKey_from_base64url (s : list Z) : option AgreementPublicKey :=
  octets ← decode_exact 32 s; AgreementPublicKey_from_octets octets.

Definition agreement_to_base64url (k : AgreementPublicKey) : list Z := encode (ak_octets k).

(** ** Statements *)

Definition STATEMENT_MEMBERS : list (list Z) :=
  [bs "agreement_key"; bs "seq"; bs "issued_at"; bs "security"].

Record AgreementStatement := mkStatement { as_wire : JsonObject }.

Record ConfirmedValues := mkConfirmed {
  cv_agreement_key : AgreementPublicKey; cv_seq : Z; cv_issued_at : Timestamp }.

Record HeldStatement := mkHeld {
  hs_key_id : KeyId; hs_agreement_key : AgreementPublicKey; hs_seq : Z; hs_issued_at : Timestamp }.

#[export] Instance Timestamp_eq_dec : EqDecision Timestamp.
Proof. solve_decision. Defined.
#[export] Instance HeldStatement_eq_dec : EqDecision HeldStatement.
Proof. solve_decision. Defined.
#[export] Instance ConfirmedValues_eq_dec : EqDecision ConfirmedValues.
Proof. solve_decision. Defined.

Definition ConfirmedValues_from_store (k : AgreementPublicKey) (seq : Z) (issued_at : Timestamp) : option ConfirmedValues :=
  then_some (seq <=? MAX_STATEMENT_SEQ) (mkConfirmed k seq issued_at).

Definition of_held (h : HeldStatement) : ConfirmedValues :=
  mkConfirmed (hs_agreement_key h) (hs_seq h) (hs_issued_at h).

Definition HeldStatement_from_store (key_id : KeyId) (k : AgreementPublicKey) (seq : Z) (issued_at : Timestamp)
    : option HeldStatement :=
  then_some (seq <=? MAX_STATEMENT_SEQ) (mkHeld key_id k seq issued_at).

(** [PairingStoreError] ([core/src/pairing.rs]), which a refusal may carry. *)
Inductive PairingStoreError : Type :=
| PS_Corrupt (why : string)
| PS_Failed (why : string).

Inductive StatementRefusal : Type :=
| SR_Malformed | SR_Signature | SR_UnacceptableKey | SR_TooFarAhead | SR_NotNewer
| SR_BelowConfirmed | SR_EarlierThanConfirmed | SR_NoConfirmedValues
| SR_NotSaved (e : PairingStoreError).

Definition statement_wire (key : AgreementPublicKey) (seq : Z) (issued_at : Timestamp) : JsonObject :=
  let o := obj_insert [] (bs "agreement_key") (JString (agreement_to_base64url key)) in
  let o := obj_insert o (bs "seq") (JNumber (from_u64 seq)) in
  obj_insert o (bs "issued_at") (JString (ts_text issued_at)).

Definition statement_from_json (v : Json) : option AgreementStatement := mkStatement <$> as_object v.

Definition claimed_values (st : AgreementStatement) : option ConfirmedValues :=
  let o := as_wire st in
  agreement_key ← (v ← obj_get o (bs "agreement_key"); s ← as_str v; AgreementPublicKey_from_base64url s);
  issued_at ← (v ← obj_get o (bs "issued_at"); s ← as_str v; Timestamp_parse s);
  seq ← (v ← obj_get o (bs "seq"); n ← as_number v; plain_integer_in n 0 MAX_STATEMENT_SEQ);
  Some (mkConfirmed agreement_key seq issued_at).

Section Agreement.
Context `{C : Crypto}.

(** [AgreementStatement::issue]; the inner [option] is the [expect] on the canonical form. *)
Definition statement_issue (identity : DeviceIdentity) (key : AgreementPublicKey) (seq : Z) (issued_at : Timestamp)
    : option (option AgreementStatement) :=
  if MAX_STATEMENT_SEQ <? seq then None
  else Some (mkStatement <$> attach_signature identity Dom_Agreement (statement_wire key seq issued_at)).

Definition check_statement (statement : AgreementStatement) (trusted : TrustedKeySet)
    (held : KeyId → option HeldStatement) (now : Timestamp) : result StatementRefusal HeldStatement :=
  let o := as_wire statement in
  if negb (bool_decide (length o = length STATEMENT_MEMBERS)) || existsb (λ m, negb (obj_contains o m)) STATEMENT_MEMBERS
  then Err SR_Malformed
  else
    key_id ← (match verify_signed trusted Dom_Agreement o with
              | Ok entry => Ok (tk_key_id entry)
              | Err MalformedSecurity => Err SR_Malformed
              | Err _ => Err SR_Signature
              end);
    agreement_key ← (match v ← obj_get o (bs "agreement_key"); as_str v with
                     | Some s => ok_or (AgreementPublicKey_from_base64url s) SR_UnacceptableKey
                     | None => Err SR_Malformed
                     end);
    issued_at ← ok_or (v ← obj_get o (bs "issued_at"); s ← as_str v; Timestamp_parse s) SR_Malformed;
    seq ← ok_or (v ← obj_get o (bs "seq"); n ← as_number v; plain_integer_in n 0 MAX_STATEMENT_SEQ) SR_Malformed;
    if unix_nanos now + WINDOW_NANOS <=? unix_nanos issued_at then Err SR_TooFarAhead
    else if match held key_id with Some h => seq <=? hs_seq h | None => false end then Err SR_NotNewer
    else Ok (mkHeld key_id agreement_key seq issued_at).
End Agreement.

Definition check_confirmed (statement : HeldStatement) (confirmed : option ConfirmedValues)
    : result StatementRefusal unit :=
  c ← ok_or confirmed SR_NoConfirmedValues;
  if (hs_seq statement <? cv_seq c) ||
     ((hs_seq statement =? cv_seq c) && negb (bool_decide (hs_agreement_key statement = cv_agreement_key c)))
  then Err SR_BelowConfirmed
  else if unix_nanos (hs_issued_at statement) <? unix_nanos (cv_issued_at c) then Err SR_EarlierThanConfirmed
  else Ok tt.

(** ** Facts *)

(** p = 2^255 - 19, and the values of small order. *)
Definition FIELD_P : Z := 2 ^ 255 - 19.

Lemma le_value_inj a b :
  length a = length b → Forall is_u8 a → Forall is_u8 b → le_value a = le_value b → a = b.
Proof.
  revert b. induction a as [|x a IH]; intros [|y b] Hl Ha Hb Hv; try done.
  inv_Forall. simpl in *. unfold is_u8 in *. assert (x = y ∧ le_value a = le_value b) as [-> Hv'] by lia.
  f_equal. apply IH; [lia|done|done|done].
Qed.

(** The top bit of an octet and the rest of it. *)
Lemma top_bit t : is_u8 t → (Z.land t 128 =? 0) = (t <? 128) ∧ (t < 128 → Z.land t 127 = t).
Proof.
  unfold is_u8. intros Ht. split; [|intros; change 127 with (2 ^ 7 - 1); rewrite land_mask, Z.mod_small by (change (2 ^ 7) with 128; lia); done].
  assert (forallb (λ t, eqb (Z.land t 128 =? 0) (t <? 128)) (map Z.of_nat (seq 0 256)) = true) as HF by (vm_compute; reflexivity).
  rewrite forallb_forall in HF. apply eqb_prop, HF, in_map_iff.
  exists (Z.to_nat t). split; [lia|]. apply in_seq. lia.
Qed.

Lemma acceptable_iff (octets : list Z) :
  length octets = 32%nat → Forall is_u8 octets →
  is_acceptable_agreement_key octets = true ↔
  le_value octets < FIELD_P ∧ Forall (λ s, le_value octets ≠ le_value s) SMALL_ORDER.
Proof.
  intros Hlen Hu. unfold is_acceptable_agreement_key.
  assert (negb (existsb (λ s, beq s octets) SMALL_ORDER) = true ↔ Forall (λ s, le_value octets ≠ le_value s) SMALL_ORDER) as Hsm.
  { rewrite negb_true_iff, <- not_true_iff_false, existsb_exists. rewrite Forall_forall. split.
    - intros Hn s Hs Hv. apply Hn. exists s. split; [by apply list_elem_of_In|]. apply beq_true.
      assert (length s = 32%nat ∧ Forall is_u8 s) as [Hsl Hsu].
      { clear -Hs. assert (Forall (λ s, length s = 32%nat ∧ forallb (in_range 0 255) s = true) SMALL_ORDER) as HF
          by (repeat constructor). rewrite Forall_forall in HF. destruct (HF _ Hs) as [H1 H2]. split; [done|].
        apply Forall_forallb in H2. eapply Forall_impl; [exact H2|]. intros x Hx%in_range_true. unfold is_u8. lia. }
      symmetry. apply le_value_inj; [congruence|done|done|done].
    - intros HF (s & Hs%list_elem_of_In & Hb%beq_true). subst. by eapply HF. }
  destruct (lookup_lt_is_Some_2 octets 31) as [top Htop]; [lia|].
  assert (is_u8 top) as Ht by (rewrite Forall_forall in Hu; apply Hu; by apply list_elem_of_lookup_2 in Htop).
  assert (le_value octets = le_value (take 31 octets) + 256 ^ 31 * top) as Hval.
  { rewrite <- (take_drop 31 octets) at 1. rewrite le_value_app, length_take, Hlen.
    rewrite (drop_S octets top 31 Htop), drop_ge by lia. simpl. change (Z.of_nat 31) with 31. lia. }
  pose proof (le_value_bound (take 31 octets) (Forall_take _ _ _ Hu)) as Hb.
  rewrite length_take, Hlen in Hb. change (256 ^ Z.of_nat (31 `min` 32)) with (256 ^ 31) in Hb.
  pose proof (y_canonical octets Hlen Hu) as Hy. unfold y_is_canonical in Hy. rewrite Htop in Hy |- *. cbn [default id] in Hy |- *.
  destruct (top_bit top Ht) as [-> Hl]. unfold is_u8 in Ht.
  assert (2 ^ 255 = 256 ^ 31 * 128) as Hp by (vm_compute; reflexivity).
  assert (0 < 256 ^ 31) as H0 by (vm_compute; reflexivity). unfold FIELD_P.
  destruct (top <? 128) eqn:Et; bool_hyps; cbn [negb].
  2: { split; [done|]. intros [Hlt _]. exfalso. generalize dependent (256 ^ 31). intros. nia. }
  rewrite Hl in Hy by lia. rewrite (Z.mod_small (le_value octets)) in Hy
    by (rewrite Hp; generalize dependent (256 ^ 31); intros; nia).
  destruct (_ && _ && _); cbn [negb] in Hy; [|by rewrite Hsm; tauto].
  split; [done|]. intros [Hlt _]. by apply Hy in Hlt.
Qed.

(** ** What an issued statement says *)

Section Issue.
Context {C : Crypto}.

Lemma issue_Some d key seq t st :
  statement_issue d key seq t = Some (Some st) →
  seq ≤ MAX_STATEMENT_SEQ ∧ attach_signature d Dom_Agreement (statement_wire key seq t) = Some (as_wire st).
Proof.
  unfold statement_issue. destruct (_ <? seq) eqn:E; [done|]. bool_hyps. intros H. split; [lia|].
  destruct (attach_signature _ _ _); simpl in H; [|done]. by injection H as <-.
Qed.

Lemma issue_members d key seq t st :
  statement_issue d key seq t = Some (Some st) →
  obj_get (as_wire st) (bs "agreement_key") = Some (JString (agreement_to_base64url key)) ∧
  obj_get (as_wire st) (bs "issued_at") = Some (JString (ts_text t)) ∧
  obj_get (as_wire st) (bs "seq") = Some (JNumber (from_u64 seq)) ∧
  length (as_wire st) = 4%nat ∧ existsb (λ m, negb (obj_contains (as_wire st) m)) STATEMENT_MEMBERS = false.
Proof.
  intros [_ H]%issue_Some. pose proof (attach_members _ _ _ _ (bs "agreement_key") H eq_refl) as H1.
  pose proof (attach_members _ _ _ _ (bs "issued_at") H eq_refl) as H2.
  pose proof (attach_members _ _ _ _ (bs "seq") H eq_refl) as H3.
  assert (is_some (obj_get (as_wire st) (bs "security")) = true) as H4.
  { unfold attach_signature in H. inv_binds. by rewrite <- H, obj_insert_get. }
  apply attach_length in H as H5. split_and!.
  - by rewrite H1.
  - by rewrite H2.
  - by rewrite H3.
  - by rewrite H5.
  - unfold STATEMENT_MEMBERS, obj_contains. cbn [existsb]. rewrite H1, H2, H3, H4. done.
Qed.

(** A key that may be stated, at a time that reads back. *)
Definition statable (key : AgreementPublicKey) (seq : Z) (t : Timestamp) : Prop :=
  AgreementPublicKey_from_base64url (agreement_to_base64url key) = Some key ∧ 0 ≤ seq ∧
  Timestamp_parse (ts_text t) = Some t.

Lemma plain_seq seq : 0 ≤ seq ≤ MAX_STATEMENT_SEQ → plain_integer_in (from_u64 seq) 0 MAX_STATEMENT_SEQ = Some seq.
Proof. intros H. apply plain_integer_from; unfold MAX_STATEMENT_SEQ, U64_MAX in *; lia. Qed.

Lemma issue_claims d key seq t st :
  statable key seq t → statement_issue d key seq t = Some (Some st) →
  claimed_values st = Some (mkConfirmed key seq t).
Proof.
  intros (Hk & Hs & Ht) H. destruct (issue_Some _ _ _ _ _ H) as [Hm _].
  destruct (issue_members _ _ _ _ _ H) as (H1 & H2 & H3 & _). unfold claimed_values.
  rewrite H1, H2, H3. cbn [mbind option_bind as_str as_number]. rewrite Hk, Ht. cbn [mbind option_bind].
  by rewrite plain_seq by lia.
Qed.

Context {HC : CryptoLaws C}.

Lemma issue_check d key seq t st trusted held now :
  device_ok d → ts_entries trusted !! tk_key_id (di_entry d) = Some (di_entry d) →
  statable key seq t → statement_issue d key seq t = Some (Some st) →
  check_statement st trusted held now =
    if unix_nanos now + WINDOW_NANOS <=? unix_nanos t then Err SR_TooFarAhead
    else if match held (tk_key_id (di_entry d)) with Some h => seq <=? hs_seq h | None => false end then Err SR_NotNewer
    else Ok (mkHeld (tk_key_id (di_entry d)) key seq t).
Proof.
  intros Hd Htr (Hk & Hs & Ht) H. destruct (issue_Some _ _ _ _ _ H) as [Hm Ha].
  destruct (issue_members _ _ _ _ _ H) as (H1 & H2 & H3 & H4 & H5). unfold check_statement.
  rewrite H4, H5. cbn [negb bool_decide orb]. rewrite bool_decide_true by done. cbn [negb orb].
  unfold verify_signed. rewrite (attach_verifies d Dom_Agreement _ (as_wire st) trusted Hd) by done.
  cbn [map_err mbind result_bind]. rewrite H1, H2, H3. cbn [mbind option_bind as_str as_number].
  rewrite Hk, Ht. cbn [ok_or mbind result_bind option_bind]. rewrite plain_seq by lia. done.
Qed.
End Issue.

(** An admitted statement was signed by the trusted key it is held for, states an acceptable
    key, and is newer than the one held. *)
Lemma check_statement_Ok {C : Crypto} st trusted held now h :
  keyset_inv trusted → check_statement st trusted held now = Ok h →
  (∃ entry, verified_under trusted Dom_Agreement (as_wire st) entry ∧ hs_key_id h = tk_key_id entry) ∧
  is_acceptable_agreement_key (ak_octets (hs_agreement_key h)) = true ∧ length (ak_octets (hs_agreement_key h)) = 32%nat ∧
  0 ≤ hs_seq h ≤ MAX_STATEMENT_SEQ ∧ unix_nanos (hs_issued_at h) < unix_nanos now + WINDOW_NANOS ∧
  (∀ h', held (hs_key_id h) = Some h' → hs_seq h' < hs_seq h) ∧
  claimed_values st = Some (of_held h).
Proof.
  intros Hk H. unfold check_statement in H. inv_binds. unfold verify_signed in *.
  destruct (verify_with_requirement trusted Dom_Agreement (as_wire st)) as [entry|[[] ?]] eqn:Ev; simplify_eq/=.
  match goal with H : match ?x with _ => _ end = Ok _ |- _ => destruct x as [s|] eqn:Es; [|discriminate H] end.
  inv_binds. match goal with H : AgreementPublicKey_from_base64url s = Some _ |- _ => rename H into Hag end.
  pose proof Hag as Hag'. unfold AgreementPublicKey_from_base64url in Hag'. inv_binds.
  unfold AgreementPublicKey_from_octets, then_some in *. case_match; [|done]. inv_binds.
  match goal with H : decode_exact 32 s = Some _ |- _ => pose proof (decode_exact_length _ _ _ H) as [Hl _] end.
  cbn [hs_key_id hs_agreement_key hs_seq hs_issued_at ak_octets of_held]. split_and!.
  - exists entry. split; [by apply verify_Ok|done].
  - done.
  - done.
  - match goal with H : plain_integer_in _ _ _ = Some _ |- _ => apply plain_range in H end. lia.
  - match goal with H : plain_integer_in _ _ _ = Some _ |- _ => apply plain_range in H end. lia.
  - bool_hyps. lia.
  - intros h' Hh. match goal with H : match held _ with _ => _ end = false |- _ => rewrite Hh in H end. bool_hyps. lia.
  - unfold claimed_values. cbn [mbind option_bind].
    repeat match goal with H : obj_get _ _ = Some _ |- _ => rewrite H; clear H; cbn [mbind option_bind] end.
    repeat match goal with H : ?x = Some _ |- context [?x] => rewrite H; cbn [mbind option_bind] end. done.
Qed.
