(* ===== verification/Pairing.v ===== *)
(** * Pairing ([core/src/pairing.rs])

    The commit-then-reveal exchange of two devices, the code it gives them, the operator's
    confirmation, and the store of what pairing established. *)

From S2P Require Import Prelude Base64url Ids Utf8 Json JsonFacts JsonReader JsonText Canonical Envelope EnvelopeFacts Keys Trust Signing Replay.
From S2P Require Import SignedObject Agreement.

(** ** Grants and binding-table entries ([core/src/authorization.rs])

    The two sides of a grant and what each covers, and an entry of the binding table. *)

(** [WorkingDirectoryScope], as recorded. *)
Definition WorkingDirectoryScope : Type := list Z.

Inductive LocalSide : Type :=
| LS_Session (s : SessionId)
| LS_Scope (scope : WorkingDirectoryScope)
| LS_Device.

Definition includes (side : LocalSide) (s : SessionId) (own : gmap SessionId WorkingDirectoryScope) : bool :=
  match side with
  | LS_Session id => beq id s
  | LS_Scope scope => bool_decide (own !! s = Some scope)
  | LS_Device => is_some (own !! s)
  end.

Record PeerSide := mkPeer { pe_key_id : KeyId; pe_session_id : option SessionId }.

Definition peer_device (key_id : KeyId) : PeerSide := mkPeer key_id None.
Definition peer_session (key_id : KeyId) (session_id : SessionId) : PeerSide := mkPeer key_id (Some session_id).

Definition peer_names (p : PeerSide) (key : KeyId) (session : SessionId) : bool :=
  beq (pe_key_id p) key && match pe_session_id p with Some s => beq s session | None => true end.

Inductive Grant : Type :=
| Inbound (writer : PeerSide) (target : LocalSide)
| Outbound (writer : LocalSide) (target : PeerSide).

#[export] Instance LocalSide_eq_dec : EqDecision LocalSide.
Proof. solve_decision. Defined.
#[export] Instance PeerSide_eq_dec : EqDecision PeerSide.
Proof. solve_decision. Defined.
#[export] Instance Grant_eq_dec : EqDecision Grant.
Proof. solve_decision. Defined.

Definition names_key (g : Grant) (key : KeyId) : bool :=
  match g with
  | Inbound writer _ => beq (pe_key_id writer) key
  | Outbound _ target => beq (pe_key_id target) key
  end.

Inductive Binding : Type :=
| BKey (k : KeyId)
| BConflict (keys : gset KeyId).

#[export] Instance Binding_eq_dec : EqDecision Binding.
Proof. solve_decision. Defined.

Definition binding_names (b : Binding) (key : KeyId) : bool :=
  match b with BKey k => beq k key | BConflict keys => bool_decide (key ∈ keys) end.

Inductive BindOutcome : Type := Bound | AlreadyBound | BoundToOther (k : KeyId) | UnderConflict.

Definition PAIRING_VALIDITY_MS : Z := 120000.
Definition PAIRING_MAX_ATTEMPTS : Z := 5.
Definition COMMIT_DOMAIN : list Z := bs "oac-pairing-commit-v2".
Definition CODE_DOMAIN : list Z := bs "oac-pairing-code-v2".

Definition deadline (start : Timestamp) : Z := unix_nanos start + PAIRING_VALIDITY_MS * 1000000.

(** ** Statement values *)

Inductive StatementValue : Type :=
| SV_None
| SV_Given (v : ConfirmedValues)
| SV_Refused.

#[export] Instance StatementValue_eq_dec : EqDecision StatementValue.
Proof. solve_decision. Defined.

Definition of_own (statement : option AgreementStatement) : StatementValue :=
  match statement with
  | None => SV_None
  | Some st => match claimed_values st with Some v => SV_Given v | None => SV_Refused end
  end.

Definition given (v : StatementValue) : option ConfirmedValues :=
  match v with SV_Given v => Some v | _ => None end.

(** ** What is hashed *)

(** [put_principal]: a token is at most 128 octets, so its length is one octet. *)
Definition put_principal (p : Token) : list Z := Z.of_nat (length p) :: p.

(** [put_value]; a key has 43 octets and a timestamp at most 30. *)
Definition put_value (v : StatementValue) : list Z :=
  match v with
  | SV_None => [0]
  | SV_Given c =>
      let key := agreement_to_base64url (cv_agreement_key c) in
      let at_ := ts_text (cv_issued_at c) in
      [1] ++ [Z.of_nat (length key)] ++ key ++ be_digits 256 8 (cv_seq c) ++ [Z.of_nat (length at_)] ++ at_
  | SV_Refused => [2]
  end.

Record Party := mkParty {
  pa_principal : Token; pa_key : PublicKey; pa_value : StatementValue; pa_nonce : list Z }.

Definition commitment_input (principal : Token) (pk : PublicKey) (statement : StatementValue) (nonce : list Z) : list Z :=
  COMMIT_DOMAIN ++ [0] ++ put_principal principal ++ pk_octets pk ++ put_value statement ++ nonce.

Definition code_input (i r : Party) : list Z :=
  CODE_DOMAIN ++ [0] ++ put_principal (pa_principal i) ++ pk_octets (pa_key i) ++ put_value (pa_value i) ++
  put_principal (pa_principal r) ++ pk_octets (pa_key r) ++ put_value (pa_value r) ++ pa_nonce i ++ pa_nonce r.

(** ** The messages *)

Record PairingOffer := mkOffer {
  of_principal : Token; of_public_key : PublicKey; of_commitment : list Z;
  of_statement : option AgreementStatement }.

Record PairingResponse := mkResponse {
  re_principal : Token; re_public_key : PublicKey; re_nonce : list Z;
  re_statement : option AgreementStatement }.

(** [PairingReveal] is its nonce. *)

Inductive PairingEnd : Type := PE_SecondOffer | PE_Abandoned | PE_Expired | PE_OwnKey | PE_CommitmentMismatch.

Inductive PairingError : Type := OwnKey | CommitmentMismatch | Expired | Ended (why : PairingEnd).

#[export] Instance PairingEnd_eq_dec : EqDecision PairingEnd.
Proof. solve_decision. Defined.

(** ** Records and peers *)

Record PairingRecord := mkPairing {
  pr_principal : Token; pr_public_key : PublicKey; pr_paired_at : Timestamp;
  pr_confirmed : option ConfirmedValues }.

Definition PairingRecord_from_store (principal : Token) (public_key : PublicKey) (paired_at : Timestamp) : PairingRecord :=
  mkPairing principal public_key paired_at None.

Definition with_confirmed (r : PairingRecord) (confirmed : option ConfirmedValues) : PairingRecord :=
  mkPairing (pr_principal r) (pr_public_key r) (pr_paired_at r) confirmed.

Record PairedPeer := mkPaired { pp_record : PairingRecord; pp_statement : option AgreementStatement }.

Definition with_agreement_statement (p : PairedPeer) (st : AgreementStatement) : PairedPeer :=
  mkPaired (pp_record p) (Some st).

(** ** A session: from the code to the confirmation *)

Inductive ConfirmError : Type :=
| Mismatch (attempts_left : Z)
| CE_Expired | CE_Aborted | CE_Completed.

Inductive SessionState : Type :=
| Open (attempts_left : Z)
| Aborted
| Completed.

Record PairingSession := mkSession {
  ps_peer_principal : Token; ps_peer_public_key : PublicKey; ps_code : list Z; ps_started : Timestamp;
  ps_state : SessionState; ps_own_value : StatementValue; ps_peer_value : StatementValue;
  ps_peer_statement : option AgreementStatement }.

Definition PairingSession_new (peer_principal : Token) (peer_public_key : PublicKey) (code : list Z)
    (started : Timestamp) (own_value peer_value : StatementValue)
    (peer_statement : option AgreementStatement) : PairingSession :=
  mkSession peer_principal peer_public_key code started (Open PAIRING_MAX_ATTEMPTS) own_value peer_value
    (opt_filter (λ _, is_some (given peer_value)) peer_statement).

Definition check_open (s : PairingSession) (now : Timestamp) : result ConfirmError unit :=
  match ps_state s with
  | Aborted => Err CE_Aborted
  | Completed => Err CE_Completed
  | Open _ => if deadline (ps_started s) <=? unix_nanos now then Err CE_Expired else Ok tt
  end.

Definition set_state (s : PairingSession) (st : SessionState) (statement : option AgreementStatement) : PairingSession :=
  mkSession (ps_peer_principal s) (ps_peer_public_key s) (ps_code s) (ps_started s) st (ps_own_value s)
    (ps_peer_value s) statement.

Definition complete (s : PairingSession) (now : Timestamp) : PairedPeer * PairingSession :=
  (mkPaired (mkPairing (ps_peer_principal s) (ps_peer_public_key s) now None) (ps_peer_statement s),
   set_state s Completed None).

Definition confirm_entered (s : PairingSession) (entered : list Z) (now : Timestamp)
    : result ConfirmError PairedPeer * PairingSession :=
  match check_open s now with
  | Err e => (Err e, s)
  | Ok _ =>
      if beq entered (ps_code s) then let '(p, s) := complete s now in (Ok p, s)
      else
        match ps_state s with
        | Open attempts_left =>
            let attempts_left := attempts_left - 1 in
            (Err (Mismatch attempts_left),
             set_state s (if attempts_left =? 0 then Aborted else Open attempts_left) (ps_peer_statement s))
        | _ => (Err CE_Aborted, s)
        end
  end.

Definition confirm_match (s : PairingSession) (now : Timestamp) : result ConfirmError PairedPeer * PairingSession :=
  match check_open s now with
  | Err e => (Err e, s)
  | Ok _ => let '(p, s) := complete s now in (Ok p, s)
  end.

Section Pairing.
Context `{C : Crypto}.

Definition record_key_id (r : PairingRecord) : KeyId := key_id (pr_public_key r).

Definition by_key_id_comparison (principal : Token) (public_key : PublicKey) (confirmed_key_id : KeyId)
    (now : Timestamp) : option PairedPeer :=
  then_some (beq (key_id public_key) confirmed_key_id) (mkPaired (mkPairing principal public_key now None) None).

Definition judge_with (own_set : TrustedKeySet) (peer_principal : Token) (peer_key : PublicKey)
    (statement : option AgreementStatement) (now : Timestamp) : StatementValue :=
  match statement with
  | None => SV_None
  | Some st =>
      match add_paired_key peer_principal peer_key own_set with
      | (Err _, _) => SV_Refused
      | (Ok _, trusted) =>
          match check_statement st trusted (λ _, None) now with
          | Ok h => if beq (hs_key_id h) (key_id peer_key) then SV_Given (Agreement.of_held h) else SV_Refused
          | Err _ => SV_Refused
          end
      end
  end.

Definition judge_statement (own : DeviceIdentity) (peer_principal : Token) (peer_key : PublicKey)
    (statement : option AgreementStatement) (now : Timestamp) : StatementValue :=
  judge_with (TrustedKeySet_new own) peer_principal peer_key statement now.

Definition commitment (principal : Token) (pk : PublicKey) (statement : StatementValue) (nonce : list Z) : list Z :=
  sha256 (commitment_input principal pk statement nonce).

Definition code (initiator responder : Party) : list Z :=
  fmt_pad 6 (be_value 256 (take 8 (sha256 (code_input initiator responder))) mod 1000000).

(** ** The initiator *)

Record PairingInitiator := mkInitiator {
  in_principal : Token; in_public_key : PublicKey; in_nonce : list Z; in_started : Timestamp;
  in_own_set : TrustedKeySet; in_own_value : StatementValue }.

(** [start_inner]; [start] and [start_with_statement] draw the nonce. *)
Definition initiator_start (own : DeviceIdentity) (statement : option AgreementStatement) (nonce : list Z)
    (now : Timestamp) : PairingInitiator * PairingOffer :=
  let own_value := of_own statement in
  let principal := tk_principal (di_entry own) in
  let public_key := tk_public_key (di_entry own) in
  (mkInitiator principal public_key nonce now (TrustedKeySet_new own) own_value,
   mkOffer principal public_key (commitment principal public_key own_value nonce) statement).

Definition initiator_receive (i : PairingInitiator) (response : PairingResponse) (now : Timestamp)
    : result PairingError (PairingSession * list Z) :=
  if bool_decide (re_public_key response = in_public_key i) then Err OwnKey
  else if deadline (in_started i) <=? unix_nanos now then Err Expired
  else
    let peer_value := judge_with (in_own_set i) (re_principal response) (re_public_key response)
                        (re_statement response) now in
    let code := code (mkParty (in_principal i) (in_public_key i) (in_own_value i) (in_nonce i))
                  (mkParty (re_principal response) (re_public_key response) peer_value (re_nonce response)) in
    Ok (PairingSession_new (re_principal response) (re_public_key response) code (in_started i)
          (in_own_value i) peer_value (re_statement response),
        in_nonce i).

(** ** The responder *)

Record PairingResponder := mkResponder {
  rs_principal : Token; rs_public_key : PublicKey; rs_nonce : list Z; rs_offer : PairingOffer;
  rs_started : Timestamp; rs_own_set : TrustedKeySet; rs_own_value : StatementValue }.

Definition respond_inner (own : DeviceIdentity) (statement : option AgreementStatement) (offer : PairingOffer)
    (nonce : list Z) (now : Timestamp) : result PairingError (PairingResponder * PairingResponse) :=
  let principal := tk_principal (di_entry own) in
  let public_key := tk_public_key (di_entry own) in
  if bool_decide (of_public_key offer = public_key) then Err OwnKey
  else
    let own_value := of_own statement in
    Ok (mkResponder principal public_key nonce offer now (TrustedKeySet_new own) own_value,
        mkResponse principal public_key nonce statement).

Definition responder_receive (r : PairingResponder) (reveal : list Z) (now : Timestamp)
    : result PairingError PairingSession :=
  if deadline (rs_started r) <=? unix_nanos now then Err Expired
  else
    let offer := rs_offer r in
    let claimed := of_own (of_statement offer) in
    let expected := commitment (of_principal offer) (of_public_key offer) claimed reveal in
    if negb (beq expected (of_commitment offer)) then Err CommitmentMismatch
    else
      let peer_value := judge_with (rs_own_set r) (of_principal offer) (of_public_key offer) (of_statement offer) now in
      let code := code (mkParty (of_principal offer) (of_public_key offer) peer_value reveal)
                    (mkParty (rs_principal r) (rs_public_key r) (rs_own_value r) (rs_nonce r)) in
      Ok (PairingSession_new (of_principal offer) (of_public_key offer) code (rs_started r) (rs_own_value r)
            peer_value (of_statement offer)).

(** ** One operator-started pairing on the responding side *)

Inductive ResponderState : Type :=
| AwaitingOffer
| AwaitingReveal (r : PairingResponder)
| RS_Ended (why : PairingEnd)
| RS_Completed.

Record ResponderPairing := mkResponding {
  rp_started : Timestamp; rp_phase : ResponderState; rp_statement : option AgreementStatement }.

Definition responder_start (now : Timestamp) : ResponderPairing := mkResponding now AwaitingOffer None.

Definition responder_start_with_statement (now : Timestamp) (statement : AgreementStatement) : ResponderPairing :=
  mkResponding now AwaitingOffer (Some statement).

Definition set_phase (p : ResponderPairing) (st : ResponderState) : ResponderPairing :=
  mkResponding (rp_started p) st (rp_statement p).

Definition pairing_end (p : ResponderPairing) (why : PairingEnd) : PairingError * ResponderPairing :=
  (Ended why, set_phase p (RS_Ended why)).

(** [answer], with the fresh nonce as an argument. *)
Definition answer (p : ResponderPairing) (own : DeviceIdentity) (offer : PairingOffer) (nonce : list Z) (now : Timestamp)
    : result PairingError PairingResponse * ResponderPairing :=
  match rp_phase p with
  | AwaitingReveal _ | RS_Completed => let '(e, p) := pairing_end p PE_SecondOffer in (Err e, p)
  | RS_Ended why => (Err (Ended why), p)
  | AwaitingOffer =>
      if deadline (rp_started p) <=? unix_nanos now then let '(e, p) := pairing_end p PE_Expired in (Err e, p)
      else
        match respond_inner own (rp_statement p) offer nonce (rp_started p) with
        | Ok (responder, response) => (Ok response, set_phase p (AwaitingReveal responder))
        | Err _ => let '(e, p) := pairing_end p PE_OwnKey in (Err e, p)
        end
  end.

Definition reveal (p : ResponderPairing) (nonce : list Z) (now : Timestamp)
    : result PairingError PairingSession * ResponderPairing :=
  let state := rp_phase p in
  let p := set_phase p RS_Completed in
  let failed why := let '(e, p) := pairing_end p why in (Err e, p) in
  match state with
  | AwaitingOffer => failed PE_Abandoned
  | RS_Ended why => failed why
  | RS_Completed => failed PE_SecondOffer
  | AwaitingReveal responder =>
      match responder_receive responder nonce now with
      | Ok session => (Ok session, p)
      | Err CommitmentMismatch => failed PE_CommitmentMismatch
      | Err _ => failed PE_Abandoned
      end
  end.

Definition abandon (p : ResponderPairing) : ResponderPairing :=
  match rp_phase p with
  | RS_Completed | RS_Ended _ => p
  | _ => set_phase p (RS_Ended PE_Abandoned)
  end.

Definition ended (p : ResponderPairing) (now : Timestamp) : option PairingEnd * ResponderPairing :=
  let p :=
    if deadline (rp_started p) <=? unix_nanos now then
      match rp_phase p with
      | AwaitingOffer => set_phase p (RS_Ended PE_Expired)
      | AwaitingReveal _ => set_phase p (RS_Ended PE_Abandoned)
      | _ => p
      end
    else p in
  (match rp_phase p with RS_Ended why => Some why | _ => None end, p).
End Pairing.

(** ** The pairing store *)

Record PairingSnapshot := mkSnapshot {
  sp_paired : list PairingRecord; sp_grants : list Grant; sp_relay_enabled : list SessionId;
  sp_agreement_statements : list HeldStatement }.

Definition PairingSnapshot_default : PairingSnapshot := mkSnapshot [] [] [] [].

(** The trait [PairingStore] over a store's state. *)
Record PairingStore (S : Type) := mkPairingStore {
  pst_load : S → result PairingStoreError PairingSnapshot;
  pst_save : PairingSnapshot → S → result PairingStoreError unit * S }.

(** [MemoryPairingStore]: the snapshot, and whether saves fail. *)
Definition memory_pairing_save (snapshot : PairingSnapshot) (s : PairingSnapshot * bool)
    : result PairingStoreError unit * (PairingSnapshot * bool) :=
  if s.2 then (Err (PS_Failed "save refused (test double)"), s) else (Ok tt, (snapshot, s.2)).

Definition MemoryPairingStore : PairingStore (PairingSnapshot * bool) :=
  mkPairingStore _ (λ s, Ok s.1) memory_pairing_save.
