(* ===== verification/PairingFacts.v ===== *)
(** * Pairing: what the exchange and the confirmation establish

    Honest devices show the same code; the hashed text determines who took part and with what;
    a session is confirmed at most once; a responder answers one offer. *)

From S2P Require Import Prelude Base64url Ids Utf8 Json JsonFacts JsonReader JsonText.
From S2P Require Import Canonical Envelope EnvelopeFacts Keys Trust Signing Replay SignedObject Agreement Pairing.

#[local] Arguments be_digits : simpl never.

(** ** The hashed text determines the parties *)

Lemma len_prefix_inj (p p' x x' : list Z) :
  put_principal p ++ x = put_principal p' ++ x' → p = p' ∧ x = x'.
Proof. unfold put_principal. simpl. intros [= Hl Hp]. apply app_inj_1 in Hp; [done|]. lia. Qed.

(** Values as the exchange derives them: a 32-octet key, a [u64], a timestamp that reads. *)
Definition value_ok (v : StatementValue) : Prop :=
  match v with
  | SV_Given c => length (ak_octets (cv_agreement_key c)) = 32%nat ∧ Forall is_u8 (ak_octets (cv_agreement_key c)) ∧
      0 ≤ cv_seq c ≤ U64_MAX ∧ Timestamp_parse (ts_text (cv_issued_at c)) = Some (cv_issued_at c)
  | _ => True
  end.

Record party_ok (p : Party) : Prop := {
  po_key : length (pk_octets (pa_key p)) = 32%nat;
  po_value : value_ok (pa_value p);
  po_nonce : length (pa_nonce p) = 32%nat }.

Lemma seq_digits_inj a b : 0 ≤ a ≤ U64_MAX → 0 ≤ b ≤ U64_MAX → be_digits 256 8 a = be_digits 256 8 b → a = b.
Proof.
  intros Ha Hb Heq. assert (∀ x, 0 ≤ x ≤ U64_MAX → be_value 256 (be_digits 256 8 x) = x) as Hv.
  { intros x Hx. rewrite be_value_digits by lia. apply Z.mod_small. unfold U64_MAX in Hx. change (256 ^ Z.of_nat 8) with 18446744073709551616. lia. }
  by rewrite <- (Hv a Ha), <- (Hv b Hb), Heq.
Qed.

Lemma encode_inj a b :
  length a = 32%nat → Forall is_u8 a → length b = 32%nat → Forall is_u8 b → encode a = encode b → a = b.
Proof.
  intros Ha Hua Hb Hub Heq.
  assert (decode_exact 32 (encode a) = Some a) as H1 by (by apply decode_exact_canonical).
  assert (decode_exact 32 (encode b) = Some b) as H2 by (by apply decode_exact_canonical). congruence.
Qed.

Lemma put_value_inj v v' x x' :
  value_ok v → value_ok v' → put_value v ++ x = put_value v' ++ x' → v = v' ∧ x = x'.
Proof.
  destruct v as [|c|], v' as [|c'|]; cbn [put_value value_ok]; try (intros _ _ H; by simplify_eq).
  intros (Hl & Hu & Hs & Ht) (Hl' & Hu' & Hs' & Ht').
  pose proof (length_be_digits 256 8 (cv_seq c)) as Hd. pose proof (length_be_digits 256 8 (cv_seq c')) as Hd'.
  pose proof (seq_digits_inj (cv_seq c) (cv_seq c') Hs Hs') as Hq.
  set (d := be_digits 256 8 (cv_seq c)) in *. set (d' := be_digits 256 8 (cv_seq c')) in *. clearbody d d'.
  intros H. rewrite <- !app_assoc in H. cbn [app] in H. injection H as Hkl H.
  apply app_inj_1 in H as [Hk H]; [|lia]. apply app_inj_1 in H as [Hdd H]; [|lia].
  injection H as Hal H. apply app_inj_1 in H as [Hat Hx]; [|lia].
  split; [|done]. f_equal. destruct c as [[k] s t], c' as [[k'] s' t']. cbn in *. f_equal.
  - f_equal. by apply encode_inj.
  - by apply Hq.
  - rewrite Hat in Ht. congruence.
Qed.

Lemma code_input_inj i r i' r' :
  party_ok i → party_ok r → party_ok i' → party_ok r' → code_input i r = code_input i' r' → i = i' ∧ r = r'.
Proof.
  intros [Hk1 Hv1 Hn1] [Hk2 Hv2 Hn2] [Hk3 Hv3 Hn3] [Hk4 Hv4 Hn4] H. unfold code_input in H.
  apply app_inv_head in H. simpl in H. injection H as H0 H.
  change (put_principal (pa_principal i) ++ ?x) with (Z.of_nat (length (pa_principal i)) :: pa_principal i ++ x) in H.
  apply app_inj_1 in H as [Hp1 H]; [|lia]. apply app_inj_1 in H as [Hk1' H]; [|lia].
  apply put_value_inj in H as [Hv1' H]; [|done..]. apply len_prefix_inj in H as [Hp2 H].
  apply app_inj_1 in H as [Hk2' H]; [|lia]. apply put_value_inj in H as [Hv2' H]; [|done..].
  apply app_inj_1 in H as [Hn1' Hn2']; [|lia].
  destruct i as [? [] ? ?], r as [? [] ? ?], i' as [? [] ? ?], r' as [? [] ? ?]; simpl in *; subst. done.
Qed.

(** The pairing code is taken over an unambiguous text: two code inputs, or two
    commitment inputs, are equal only for the same principals, public keys, statement values
    and nonces in the same roles, and no commitment input is a code input.  So two devices
    that hash the same text saw the same two devices with the same statements. *)
Theorem pairing_text_unambiguous (i r i' r' : Party) :
  party_ok i → party_ok r → party_ok i' → party_ok r' →
  (code_input i r = code_input i' r' → i = i' ∧ r = r') ∧
  (commitment_input (pa_principal i) (pa_key i) (pa_value i) (pa_nonce i) =
   commitment_input (pa_principal i') (pa_key i') (pa_value i') (pa_nonce i') → i = i') ∧
  commitment_input (pa_principal i) (pa_key i) (pa_value i) (pa_nonce i) ≠ code_input i' r'.
Proof.
  intros Hi Hr Hi' Hr'. split_and!; [by apply code_input_inj| |].
  - destruct Hi as [Hk Hv Hn], Hi' as [Hk' Hv' Hn']. intros H. unfold commitment_input in H.
    apply app_inv_head in H. change ([0] ++ ?x = [0] ++ ?y) with (0 :: x = 0 :: y) in H. injection H as Hl H.
    apply app_inj_1 in H as [Hp1 H]; [|lia]. apply app_inj_1 in H as [Hk1' H]; [|lia].
    apply put_value_inj in H as [Hv1' H]; [|done..].
    destruct i as [? [] ? ?], i' as [? [] ? ?]; simpl in *; subst. done.
  - unfold commitment_input, code_input. intros H.
    apply (f_equal (take 19)) in H. rewrite !take_app_le in H by (vm_compute; lia). vm_compute in H. discriminate H.
Qed.

Definition sample_party (name : string) (n : Z) : Party :=
  mkParty (bs name) (mkPublicKey (replicate 32 n)) SV_None (replicate 32 n).

Lemma pairing_text_unambiguous_witness :
  commitment_input (bs "alice") (mkPublicKey (replicate 32 1)) SV_None (replicate 32 1) ≠
  code_input (sample_party "alice" 1) (sample_party "bob" 2).
Proof.
  assert (∀ name n, party_ok (sample_party name n)) as Hok by (intros; constructor; vm_compute; done).
  apply (pairing_text_unambiguous (sample_party "alice" 1) (sample_party "bob" 2)
           (sample_party "alice" 1) (sample_party "bob" 2)); apply Hok.
Defined.

(** ** A session is confirmed at most once *)

Inductive confirm_op : Type :=
| CEnter (entered : list Z) (now : Timestamp)
| CMatch (now : Timestamp).

Definition run_confirm (o : confirm_op) (s : PairingSession) : result ConfirmError PairedPeer * PairingSession :=
  match o with CEnter e now => confirm_entered s e now | CMatch now => confirm_match s now end.

Fixpoint run_confirms (ops : list confirm_op) (s : PairingSession)
    : list (confirm_op * result ConfirmError PairedPeer) * PairingSession :=
  match ops with
  | [] => ([], s)
  | o :: ops =>
      let '(r, s) := run_confirm o s in
      let '(rs, s) := run_confirms ops s in ((o, r) :: rs, s)
  end.

Definition confirmed_one (x : confirm_op * result ConfirmError PairedPeer) : bool := is_ok x.2.
Definition missed_one (x : confirm_op * result ConfirmError PairedPeer) : bool :=
  match x.2 with Err (Mismatch _) => true | _ => false end.

Definition count_of {A} (f : A → bool) (l : list A) : Z := Z.of_nat (length (List.filter f l)).

Lemma count_of_cons {A} (f : A → bool) x l : count_of f (x :: l) = (if f x then 1 else 0) + count_of f l.
Proof. unfold count_of. simpl. destruct (f x); simpl length; lia. Qed.

Lemma count_of_nonneg {A} (f : A → bool) l : 0 ≤ count_of f l.
Proof. unfold count_of. lia. Qed.

(** The peer a session is for, and a confirmation of it. *)
Definition peer_of (s : PairingSession) (now : Timestamp) (statement : option AgreementStatement) : PairedPeer :=
  mkPaired (mkPairing (ps_peer_principal s) (ps_peer_public_key s) now None) statement.

Definition confirmation_ok (s : PairingSession) (x : confirm_op * result ConfirmError PairedPeer) : Prop :=
  ∀ p, x.2 = Ok p →
    match x.1 with
    | CEnter e now => e = ps_code s ∧ unix_nanos now < deadline (ps_started s) ∧ p = peer_of s now (ps_peer_statement s)
    | CMatch now => unix_nanos now < deadline (ps_started s) ∧ p = peer_of s now (ps_peer_statement s)
    end.

(** What the answers of a session with [a] attempts left amount to. *)
Record tallied (s : PairingSession) (a : Z) (outs : list (confirm_op * result ConfirmError PairedPeer)) : Prop := {
  ta_once : count_of confirmed_one outs ≤ 1;
  ta_attempts : count_of missed_one outs ≤ a;
  ta_spent : count_of missed_one outs = a → 0 < a → count_of confirmed_one outs = 0;
  ta_sound : Forall (confirmation_ok s) outs }.

Lemma tallied_cons s a b o r outs :
  tallied s b outs → confirmation_ok s (o, r) →
  (if confirmed_one (o, r) then b = 0 ∧ count_of confirmed_one outs = 0 ∧ 0 < a
   else if missed_one (o, r) then b = a - 1 ∧ (b = 0 → count_of confirmed_one outs = 0) else b = a) →
  tallied s a ((o, r) :: outs).
Proof.
  intros [H1 H2 H3 H4] Hc Hab. pose proof (count_of_nonneg missed_one outs). pose proof (count_of_nonneg confirmed_one outs).
  assert (confirmed_one (o, r) = true → missed_one (o, r) = false) as Hx by (unfold confirmed_one, missed_one; by destruct r).
  split; [..|by constructor]; rewrite !count_of_cons;
    destruct (confirmed_one (o, r)); rewrite ?Hx by done; try destruct (missed_one (o, r)); naive_solver lia.
Qed.

(** One answer of an open session. *)
Lemma run_confirm_open o s a :
  ps_state s = Open a →
  (∃ p s', run_confirm o s = (Ok p, s') ∧ ps_state s' = Completed ∧ confirmation_ok s (o, Ok p)) ∨
  (∃ s', run_confirm o s = (Err (Mismatch (a - 1)), s') ∧
     s' = set_state s (if a - 1 =? 0 then Aborted else Open (a - 1)) (ps_peer_statement s)) ∨
  run_confirm o s = (Err CE_Expired, s).
Proof.
  intros Hs. destruct o as [e now|now]; cbn [run_confirm]; unfold confirm_entered, confirm_match, check_open;
    rewrite Hs; destruct (deadline (ps_started s) <=? unix_nanos now) eqn:Ed; auto; bool_hyps.
  - destruct (beq e (ps_code s)) eqn:Ee.
    + left. eexists _, _. split_and!; [done|done|]. apply beq_true in Ee. intros p [= <-]. cbn. split_and!; [done|lia|done].
    + right. left. eauto.
  - left. eexists _, _. split_and!; [done|done|]. intros p [= <-]. cbn. split; [lia|done].
Qed.

(** A session that is over confirms nothing more, and says so. *)
Lemma confirms_closed ops s :
  (ps_state s = Aborted ∨ ps_state s = Completed) →
  count_of confirmed_one (run_confirms ops s).1 = 0 ∧ count_of missed_one (run_confirms ops s).1 = 0.
Proof.
  intros Hs. induction ops as [|o ops IH]; [done|].
  assert (run_confirm o s = (Err CE_Aborted, s) ∨ run_confirm o s = (Err CE_Completed, s)) as He.
  { destruct o; cbn [run_confirm]; unfold confirm_entered, confirm_match, check_open; destruct Hs as [-> | ->]; auto. }
  cbn [run_confirms]. destruct He as [-> | ->]; destruct (run_confirms ops s) as [rs s'];
    cbn [fst] in *; rewrite !count_of_cons; cbn; lia.
Qed.

Lemma closed_tallied ops s s0 :
  (ps_state s = Aborted ∨ ps_state s = Completed) →
  tallied s0 0 (run_confirms ops s).1 ∧ count_of confirmed_one (run_confirms ops s).1 = 0.
Proof.
  intros Hs. destruct (confirms_closed ops s Hs) as [H1 H2]. split; [|done]. split; [lia|lia|lia|].
  apply Forall_forall. intros x Hx p Hp. exfalso.
  assert (x ∈ List.filter confirmed_one (run_confirms ops s).1) as Hin.
  { apply list_elem_of_In, filter_In. split; [by apply list_elem_of_In|]. unfold confirmed_one. by rewrite Hp. }
  unfold count_of in H1. destruct (List.filter _ _); [by apply elem_of_nil in Hin|simpl in H1; lia].
Qed.

Lemma confirms_open ops s a :
  ps_state s = Open a → 0 < a → tallied s a (run_confirms ops s).1.
Proof.
  revert s a. induction ops as [|o ops IH]; intros s a Hs Ha; [split; [unfold count_of; simpl; lia..|constructor]|].
  cbn [run_confirms]. destruct (run_confirm_open o s a Hs) as [(p & s' & -> & Hc & Hok)|[(s' & -> & Hs')| ->]].
  - destruct (closed_tallied ops s' s (or_intror Hc)) as [Ht H0].
    destruct (run_confirms ops s') as [rs s'']. by apply (tallied_cons s a 0).
  - destruct (a - 1 =? 0) eqn:Ea; bool_hyps.
    + assert (ps_state s' = Aborted) as Hst by (by subst).
      destruct (closed_tallied ops s' s (or_introl Hst)) as [Ht H0].
      destruct (run_confirms ops s') as [rs s'']. apply (tallied_cons s a 0); [done|by intros ? ?|]. cbn. split; [lia|done].
    + assert (ps_state s' = Open (a - 1)) as Hst by (by subst).
      pose proof (IH s' (a - 1) Hst ltac:(lia)) as [H1 H2 H3 H4].
      destruct (run_confirms ops s') as [rs s'']. apply (tallied_cons s a (a - 1)); [|by intros ? ?|unfold confirmed_one, missed_one; cbn [snd is_ok]; split; [done|intros; lia]].
      split; [done..|]. eapply Forall_impl; [exact H4|]. subst s'. done.
  - pose proof (IH s a Hs Ha) as Ht. destruct (run_confirms ops s) as [rs s'']. by apply (tallied_cons s a a).
Qed.

(** A pairing is confirmed at most once, in time and by the code it showed: whatever an
    operator enters or confirms, and whenever, a session yields its peer at most once, to an
    entry of exactly its code or to a confirmed comparison, strictly within 120 seconds of
    the start; at most five wrong entries are taken, and after the fifth it never yields the
    peer. *)
Theorem pairing_confirmed_once (peer : Token) (key : PublicKey) (code : list Z) (started : Timestamp)
    (own_value peer_value : StatementValue) (statement : option AgreementStatement) (ops : list confirm_op) :
  let s := PairingSession_new peer key code started own_value peer_value statement in
  let outs := (run_confirms ops s).1 in
  count_of confirmed_one outs ≤ 1 ∧ count_of missed_one outs ≤ PAIRING_MAX_ATTEMPTS ∧
  (count_of missed_one outs = PAIRING_MAX_ATTEMPTS → count_of confirmed_one outs = 0) ∧
  Forall (confirmation_ok s) outs.
Proof.
  intros s outs. destruct (confirms_open ops s PAIRING_MAX_ATTEMPTS eq_refl ltac:(vm_compute; reflexivity)) as [H1 H2 H3 H4].
  fold outs in H1, H2, H3, H4. split_and!; [done|done| |done]. intros H. by apply H3.
Qed.

(** ** A responder answers one offer *)

Inductive respond_op : Type :=
| RAnswer (own : DeviceIdentity) (offer : PairingOffer) (nonce : list Z) (now : Timestamp)
| RReveal (nonce : list Z) (now : Timestamp)
| RAbandon
| REnded (now : Timestamp).

Inductive respond_out : Type :=
| RAnswered (r : result PairingError PairingResponse)
| RRevealed (r : result PairingError PairingSession)
| RNothing.

Section Respond.
Context `{C : Crypto}.

Definition run_respond (o : respond_op) (p : ResponderPairing) : respond_out * ResponderPairing :=
  match o with
  | RAnswer own offer nonce now => let '(r, p) := answer p own offer nonce now in (RAnswered r, p)
  | RReveal nonce now => let '(r, p) := reveal p nonce now in (RRevealed r, p)
  | RAbandon => (RNothing, abandon p)
  | REnded now => (RNothing, (ended p now).2)
  end.

Fixpoint run_responds (ops : list respond_op) (p : ResponderPairing) : list (respond_op * respond_out) * ResponderPairing :=
  match ops with
  | [] => ([], p)
  | o :: ops =>
      let '(r, p) := run_respond o p in
      let '(rs, p) := run_responds ops p in ((o, r) :: rs, p)
  end.

Definition answered_one (x : respond_op * respond_out) : bool :=
  match x.2 with RAnswered (Ok _) => true | _ => false end.
Definition revealed_one (x : respond_op * respond_out) : bool :=
  match x.2 with RRevealed (Ok _) => true | _ => false end.

(** A revealed session is the answered offer's, its commitment opened, in time. *)
Definition reveal_ok (started : Timestamp) (offer : PairingOffer) (x : respond_op * respond_out) : Prop :=
  ∀ nonce now s, x.1 = RReveal nonce now → x.2 = RRevealed (Ok s) →
    ps_peer_principal s = of_principal offer ∧ ps_peer_public_key s = of_public_key offer ∧
    sha256 (commitment_input (of_principal offer) (of_public_key offer) (of_own (of_statement offer)) nonce) =
      of_commitment offer ∧ unix_nanos now < deadline started.

Definition over (p : ResponderPairing) : Prop :=
  match rp_phase p with RS_Ended _ | RS_Completed => True | _ => False end.

Lemma run_respond_over o p : over p →
  over (run_respond o p).2 ∧ answered_one (o, (run_respond o p).1) = false ∧ revealed_one (o, (run_respond o p).1) = false.
Proof.
  unfold over. intros Hp. destruct o; cbn [run_respond]; unfold answer, reveal, abandon, ended, pairing_end;
    destruct (rp_phase p) eqn:E; try done; cbn; rewrite ?E; try done;
    destruct (_ <=? _); cbn; rewrite ?E; done.
Qed.

Lemma responds_over ops p : over p →
  count_of answered_one (run_responds ops p).1 = 0 ∧ count_of revealed_one (run_responds ops p).1 = 0.
Proof.
  revert p. induction ops as [|o ops IH]; intros p Hp; [done|]. cbn [run_responds].
  destruct (run_respond_over o p Hp) as (Hp' & Ha & Hr). destruct (run_respond o p) as [r p']. cbn [fst snd] in *.
  destruct (IH p' Hp') as [H1 H2]. destruct (run_responds ops p') as [rs p'']. cbn [fst] in *.
  by rewrite !count_of_cons, Ha, Hr, H1, H2.
Qed.

(** Waiting for the reveal of [r]. *)
Lemma run_respond_revealing o p r : rp_phase p = AwaitingReveal r → rs_started r = rp_started p →
  let '(out, p') := run_respond o p in
  answered_one (o, out) = false ∧ reveal_ok (rp_started p) (rs_offer r) (o, out) ∧
  (over p' ∨ p' = p ∧ revealed_one (o, out) = false).
Proof.
  intros Hp Hs. destruct o as [own offer nonce now|nonce now| |now]; cbn [run_respond];
    unfold answer, reveal, abandon, ended, pairing_end; rewrite Hp; cbn.
  - split_and!; [done|by intros ????|by left].
  - destruct (responder_receive r nonce now) as [s|[| | |]] eqn:Er; cbn; split_and!; try done; try (by left); try by intros ????.
    intros ? ? ? [= <- <-] [= <-]. unfold responder_receive in Er.
    destruct (deadline (rs_started r) <=? unix_nanos now) eqn:Ed; [done|].
    destruct (negb (beq _ _)) eqn:Ec; [done|]. injection Er as <-. apply negb_false_iff, beq_true in Ec. bool_hyps.
    cbn. split_and!; [done|done|done|]. rewrite <- Hs. lia.
  - split_and!; [done|by intros ????|by left].
  - destruct (_ <=? _); cbn; rewrite ?Hp; split_and!; try done; try (by intros ????); [by left|by right].
Qed.

Definition sessions_bound (started : Timestamp) (outs : list (respond_op * respond_out)) : Prop :=
  ∃ offer, (∀ own o nonce now resp, (RAnswer own o nonce now, RAnswered (Ok resp)) ∈ outs → o = offer) ∧
    Forall (reveal_ok started offer) outs.

Lemma over_outs ops p started offer : over p →
  (∀ own o nonce now resp, (RAnswer own o nonce now, RAnswered (Ok resp)) ∉ (run_responds ops p).1) ∧
  Forall (reveal_ok started offer) (run_responds ops p).1.
Proof.
  intros Hp. destruct (responds_over ops p Hp) as [H1 H2].
  assert (∀ f x, count_of f (run_responds ops p).1 = 0 → x ∈ (run_responds ops p).1 → f x = false) as Hz.
  { intros f x Hf Hx. destruct (f x) eqn:E; [|done].
    assert (x ∈ List.filter f (run_responds ops p).1) as Hin by (apply list_elem_of_In, filter_In; split; [by apply list_elem_of_In|done]).
    unfold count_of in Hf. destruct (List.filter _ _); [by apply elem_of_nil in Hin|simpl in Hf; lia]. }
  split.
  - intros own o nonce now resp Hin. by apply (Hz answered_one) in Hin.
  - apply Forall_forall. intros [o out] Hin nonce now s _ Hout. cbn in Hout. subst. by apply (Hz revealed_one) in Hin.
Qed.

Lemma responds_revealing ops p r : rp_phase p = AwaitingReveal r → rs_started r = rp_started p →
  let outs := (run_responds ops p).1 in
  count_of answered_one outs = 0 ∧ count_of revealed_one outs ≤ 1 ∧ Forall (reveal_ok (rp_started p) (rs_offer r)) outs.
Proof.
  revert p. induction ops as [|o ops IH]; intros p Hp Hs; [cbv zeta; split_and!; done|]. cbv zeta. cbn [run_responds].
  pose proof (run_respond_revealing o p r Hp Hs) as Hr. destruct (run_respond o p) as [out p'].
  destruct Hr as (Ha & Hok & [Hov|[-> Hnr]]).
  - destruct (responds_over ops p' Hov) as [H1 H2]. destruct (over_outs ops p' (rp_started p) (rs_offer r) Hov) as [_ H3].
    destruct (run_responds ops p') as [rs p'']. cbn [fst] in *. rewrite !count_of_cons, Ha, H1, H2.
    split_and!; [done|by destruct (revealed_one _)|by constructor].
  - destruct (IH p Hp Hs) as (H1 & H2 & H3). destruct (run_responds ops p) as [rs p'']. cbn [fst] in *.
    rewrite !count_of_cons, Ha, Hnr, H1. split_and!; [done|lia|by constructor].
Qed.

Lemma run_responds_cons o ops p :
  (run_responds (o :: ops) p).1 = (o, (run_respond o p).1) :: (run_responds ops (run_respond o p).2).1.
Proof. cbn [run_responds]. destruct (run_respond o p) as [r p']. cbn [fst snd]. by destruct (run_responds ops p'). Qed.

(** Waiting for an offer. *)
Lemma run_respond_waiting o p : rp_phase p = AwaitingOffer →
  let '(out, p') := run_respond o p in
  rp_started p' = rp_started p ∧
  ((∃ own offer nonce now resp r, o = RAnswer own offer nonce now ∧ out = RAnswered (Ok resp) ∧
      rp_phase p' = AwaitingReveal r ∧ rs_offer r = offer ∧ rs_started r = rp_started p) ∨
   (over p' ∨ p' = p) ∧ answered_one (o, out) = false ∧ revealed_one (o, out) = false).
Proof.
  intros Hp. destruct o as [own offer nonce now|nonce now| |now]; cbn [run_respond];
    unfold answer, reveal, abandon, ended, pairing_end; rewrite ?Hp.
  - destruct (_ <=? _); [split; [done|right; split_and!; [by left|done|done]]|].
    unfold respond_inner. case_bool_decide; cbn; (split; [done|]); [right; split_and!; [by left|done|done]|].
    left. by eexists own, offer, nonce, now, _, _.
  - cbn. split; [done|]. right. split_and!; [by left|done|done].
  - cbn. split; [done|]. right. split_and!; [by left|done|done].
  - destruct (_ <=? _); rewrite ?Hp; cbn; (split; [done|]); right; (split_and!; [by auto; by left|done|done]) || auto.
Qed.

Lemma responds_waiting ops p : rp_phase p = AwaitingOffer →
  let outs := (run_responds ops p).1 in
  count_of answered_one outs ≤ 1 ∧ count_of revealed_one outs ≤ count_of answered_one outs ∧
  sessions_bound (rp_started p) outs.
Proof.
  set (nobody := mkOffer [] (mkPublicKey []) [] None).
  revert p. induction ops as [|o ops IH]; intros p Hp; cbv zeta.
  { split_and!; [done|done|]. exists nobody. split; [|constructor]. intros ????? Hin. by apply not_elem_of_nil in Hin. }
  rewrite run_responds_cons. pose proof (run_respond_waiting o p Hp) as Hw. destruct (run_respond o p) as [out p']. cbn [fst snd].
  destruct Hw as (Hst & [(own & offer & nonce & now & resp & r & -> & -> & Hph & Ho & Hs)|([Hov| ->] & Ha & Hr)]).
  - destruct (responds_revealing ops p' r Hph ltac:(congruence)) as (H1 & H2 & H3).
    rewrite !count_of_cons, H1. cbn [answered_one revealed_one snd]. split_and!; [done|lia|]. exists offer. split.
    + intros ????? [[= _ <- _ _ _]|Hin]%elem_of_cons; [done|]. exfalso. unfold count_of in H1.
      assert (List.filter answered_one (run_responds ops p').1 = []) as Hnil by (destruct (List.filter _ _); [done|simpl in H1; lia]).
      apply list_elem_of_In in Hin. by apply (in_nil (a := (RAnswer own0 o nonce0 now0, RAnswered (Ok resp0)))); rewrite <- Hnil; apply filter_In.
    + constructor; [by intros ????|]. by rewrite <- Ho, <- Hst.
  - destruct (responds_over ops p' Hov) as [H1 H2]. rewrite !count_of_cons, Ha, Hr, H1, H2. split_and!; [lia|lia|].
    destruct (over_outs ops p' (rp_started p) nobody Hov) as [H3 H4]. exists nobody. split.
    + intros ????? [[= <- <-]|Hin]%elem_of_cons; [done|by apply H3 in Hin].
    + constructor; [|done]. intros ??? _ Hout. cbn in Hout. by subst.
  - destruct (IH p Hp) as (H1 & H2 & offer & H3 & H4). rewrite !count_of_cons, Ha, Hr. split_and!; [lia|lia|]. exists offer. split.
    + intros ????? [[= <- <-]|Hin]%elem_of_cons; [done|]. by eapply H3.
    + constructor; [|done]. intros ??? _ Hout. cbn in Hout. by subst.
Qed.
End Respond.

(** A responder answers one offer for each pairing an operator starts: whatever offers,
    reveals, abandonments and checks arrive, and in whatever order, at most one offer is
    answered and at most one session results, of that offer's device; the nonce revealed for
    it opened the offer's commitment, within 120 seconds of the start. *)
Theorem responder_answers_once `{C : Crypto} (started : Timestamp) (statement : option AgreementStatement)
    (ops : list respond_op) :
  let outs := (run_responds ops (mkResponding started AwaitingOffer statement)).1 in
  count_of answered_one outs ≤ 1 ∧ count_of revealed_one outs ≤ count_of answered_one outs ∧
  sessions_bound started outs.
Proof. apply (responds_waiting ops (mkResponding started AwaitingOffer statement)). done. Qed.

(** ** Honest devices show the same code *)

(** What a device carries into a pairing at [now]: nothing, or a statement it issued that is
    not dated beyond the window. *)
Definition statement_fresh `{C : Crypto} (d : DeviceIdentity) (statement : option AgreementStatement) (now : Timestamp) : Prop :=
  match statement with
  | None => True
  | Some st => ∃ key seq t, statable key seq t ∧ statement_issue d key seq t = Some (Some st) ∧
                 unix_nanos t < unix_nanos now + WINDOW_NANOS
  end.

Section Honest.
Context {C : Crypto} {HC : CryptoLaws C}.

Lemma judge_fresh own d statement now :
  device_ok own → device_ok d → tk_key_id (di_entry d) ≠ tk_key_id (di_entry own) → statement_fresh d statement now →
  judge_with (TrustedKeySet_new own) (tk_principal (di_entry d)) (tk_public_key (di_entry d)) statement now = of_own statement.
Proof.
  intros _ Hd Hne Hst. destruct statement as [st|]; [|done]. destruct Hst as (key & seq & t & Hsb & Hiss & Ht).
  cbn [judge_with of_own]. rewrite (issue_claims d key seq t st Hsb Hiss).
  assert (TrustedKey_new (tk_principal (di_entry d)) (tk_public_key (di_entry d)) = di_entry d) as Hentry.
  { destruct Hd as ([He _] & _). rewrite He. done. }
  assert (key_id (tk_public_key (di_entry d)) = tk_key_id (di_entry d)) as Hkid by (by rewrite <- Hentry).
  unfold add_paired_key. rewrite Hentry. unfold TrustedKeySet_new. cbn [ts_entries].
  rewrite lookup_singleton_ne by done.
  rewrite (issue_check d key seq t st _ _ now Hd) by (done || apply lookup_insert_eq).
  rewrite (proj2 (Z.leb_gt _ _)) by lia. cbn. by rewrite Hkid, beq_refl.
Qed.

Lemma honest_exchange (i r : DeviceIdentity) (st_i st_r : option AgreementStatement) (n_i n_r : list Z)
    (t_i t_r at_answer at_response at_reveal : Timestamp) :
  device_ok i → device_ok r → tk_key_id (di_entry i) ≠ tk_key_id (di_entry r) →
  statement_fresh i st_i at_reveal → statement_fresh r st_r at_response →
  unix_nanos at_answer < deadline t_r → unix_nanos at_response < deadline t_i → unix_nanos at_reveal < deadline t_r →
  let '(initiator, offer) := initiator_start i st_i n_i t_i in
  ∃ response p s_i s_r,
    answer (mkResponding t_r AwaitingOffer st_r) r offer n_r at_answer = (Ok response, p) ∧
    initiator_receive initiator response at_response = Ok (s_i, n_i) ∧
    (reveal p n_i at_reveal).1 = Ok s_r ∧
    ps_code s_i = ps_code s_r ∧
    ps_peer_public_key s_i = tk_public_key (di_entry r) ∧ ps_peer_public_key s_r = tk_public_key (di_entry i) ∧
    ps_peer_value s_i = ps_own_value s_r ∧ ps_own_value s_i = ps_peer_value s_r.
Proof.
  intros Hi Hr Hne Hsi Hsr Ha Hresp Hrev. cbn [initiator_start].
  assert (tk_public_key (di_entry i) ≠ tk_public_key (di_entry r)) as Hpk.
  { intros Heq. apply Hne. destruct Hi as ([Hi _] & _), Hr as ([Hr _] & _).
    rewrite Hi, Hr. cbn. rewrite Hi, Hr in Heq. cbn in Heq. by rewrite Heq. }
  unfold answer. cbn [rp_phase rp_started rp_statement]. rewrite (proj2 (Z.leb_gt _ _)) by lia.
  unfold respond_inner. cbn [of_public_key]. rewrite bool_decide_false by done.
  eexists _, _, _, _. split_and!; [reflexivity|..].
  - unfold initiator_receive. cbn [re_public_key in_public_key in_started]. rewrite bool_decide_false by done.
    rewrite (proj2 (Z.leb_gt _ _)) by lia. reflexivity.
  - unfold reveal. cbn [rp_phase set_phase]. unfold responder_receive. cbn [rs_started rs_offer].
    rewrite (proj2 (Z.leb_gt _ _)) by lia. cbn [of_principal of_public_key of_statement of_commitment].
    rewrite beq_refl. reflexivity.
  - cbn. rewrite judge_fresh by done. rewrite judge_fresh by done. done.
  - done.
  - done.
  - cbn. by rewrite judge_fresh.
  - cbn. by rewrite judge_fresh.
Qed.
End Honest.

(** [C33] Two honest devices always reach the same code: when an offer, its answer and the
    reveal pass unaltered and in time between two devices with different keys, each with or
    without an agreement statement it issued, both sides end with a session for the other's
    key that shows the same code and the same two statement values. *)
Theorem honest_pairing_codes_match {C : Crypto} {HC : CryptoLaws C}
    (i r : DeviceIdentity) (st_i st_r : option AgreementStatement) (n_i n_r : list Z)
    (t_i t_r at_answer at_response at_reveal : Timestamp) :
  device_ok i → device_ok r → tk_key_id (di_entry i) ≠ tk_key_id (di_entry r) →
  statement_fresh i st_i at_reveal → statement_fresh r st_r at_response →
  unix_nanos at_answer < deadline t_r → unix_nanos at_response < deadline t_i → unix_nanos at_reveal < deadline t_r →
  let '(initiator, offer) := initiator_start i st_i n_i t_i in
  ∃ response p s_i s_r,
    answer (mkResponding t_r AwaitingOffer st_r) r offer n_r at_answer = (Ok response, p) ∧
    initiator_receive initiator response at_response = Ok (s_i, n_i) ∧
    (reveal p n_i at_reveal).1 = Ok s_r ∧
    ps_code s_i = ps_code s_r ∧
    ps_peer_public_key s_i = tk_public_key (di_entry r) ∧ ps_peer_public_key s_r = tk_public_key (di_entry i) ∧
    ps_peer_value s_i = ps_own_value s_r ∧ ps_own_value s_i = ps_peer_value s_r.
Proof. apply honest_exchange. Qed.

(** Primitives that tell two devices apart, for the witnesses: the digest and the public key
    are the first octets of what they are taken of. *)
Definition prefix32 (m : list Z) : list Z := take 31 (map (λ b, b mod 256) m ++ replicate 31 0) ++ [0].

Definition sample_pair : Crypto := {|
  jcs_string := sample_jcs_string;
  jcs_f64 := sample_jcs_f64;
  sha256 := prefix32;
  ed_public := prefix32;
  ed_decodes := λ _, true;
  ed_is_weak := λ _, false;
  ed_sign := λ _ _, replicate 64 1;
  ed_verify_strict := λ _ _ s, bool_decide (s = replicate 64 1) |}.

Lemma prefix32_ok m : length (prefix32 m) = 32%nat ∧ Forall is_u8 (prefix32 m) ∧ y_is_canonical (prefix32 m) = true.
Proof.
  assert (length (take 31 (map (λ b, b mod 256) m ++ replicate 31 0)) = 31%nat) as Hl.
  { rewrite length_take, length_app, length_replicate. lia. }
  unfold prefix32. split_and!.
  - rewrite length_app, Hl. done.
  - apply Forall_app. split; [|by repeat constructor]. apply Forall_take, Forall_app. split.
    + apply Forall_map, Forall_true. intros x. unfold is_u8. apply Z.mod_pos_bound. lia.
    + apply Forall_replicate. unfold is_u8. lia.
  - unfold y_is_canonical. rewrite lookup_app_r, Hl by lia. done.
Qed.

Lemma sample_pair_laws : CryptoLaws sample_pair.
Proof.
  constructor; cbn; intros; try apply prefix32_ok; try done.
  - unfold sample_jcs_string. eauto.
  - unfold sample_jcs_f64. eauto.
  - split_and!; [apply prefix32_ok|done|done].
  - apply (Forall_replicate is_u8 64). unfold is_u8. lia.
Qed.

Definition sample_device (name : string) (n : Z) : DeviceIdentity :=
  DeviceIdentity_new (C := sample_pair) (mkDeviceKey (replicate 32 n) (mkPublicKey (prefix32 (replicate 32 n)))) (bs name).

Lemma sample_device_ok name n : is_token (bs name) = true → device_ok (C := sample_pair) (sample_device name n).
Proof. intros Ht. repeat split; done. Qed.

Lemma honest_pairing_codes_match_witness :
  let i := sample_device "alice" 1 in
  let r := sample_device "bob" 2 in
  let t := mkTimestamp [] 0 in
  let '(initiator, offer) := initiator_start (C := sample_pair) i None (replicate 32 7) t in
  ∃ response p s_i s_r,
    answer (mkResponding t AwaitingOffer None) r offer (replicate 32 8) t = (Ok response, p) ∧
    initiator_receive (C := sample_pair) initiator response t = Ok (s_i, replicate 32 7) ∧
    (reveal (C := sample_pair) p (replicate 32 7) t).1 = Ok s_r ∧ ps_code s_i = ps_code s_r.
Proof.
  cbv zeta.
  pose proof (honest_pairing_codes_match (C := sample_pair) (HC := sample_pair_laws)
    (sample_device "alice" 1) (sample_device "bob" 2) None None (replicate 32 7) (replicate 32 8)
    (mkTimestamp [] 0) (mkTimestamp [] 0) (mkTimestamp [] 0) (mkTimestamp [] 0) (mkTimestamp [] 0)
    (sample_device_ok "alice" 1 eq_refl) (sample_device_ok "bob" 2 eq_refl)
    ltac:(vm_compute; discriminate) I I ltac:(vm_compute; reflexivity) ltac:(vm_compute; reflexivity)
    ltac:(vm_compute; reflexivity)) as H.
  destruct (initiator_start _ _ _ _) as [initiator offer].
  destruct H as (response & p & s_i & s_r & H1 & H2 & H3 & H4 & _). exists response, p, s_i, s_r.
  exact (conj H1 (conj H2 (conj H3 H4))).
Defined.
