(* ===== verification/Registration.v ===== *)
(** * Registration records ([core/src/registration.rs])

    The local, signed record that binds a session id to the device key. *)

From S2P Require Import Prelude Base64url Ids Utf8 Json JsonFacts JsonReader JsonText.
From S2P Require Import Canonical Envelope EnvelopeFacts Keys Trust Signing SignedObject.

Definition REGISTRATION_MEMBERS : list (list Z) :=
  [bs "session_id"; bs "harness_label"; bs "native_id"; bs "working_directory"; bs "registered_at"; bs "security"].

Record RegistrationRecord := mkRegistration {
  rg_session_id : SessionId; rg_harness_label : Token; rg_registered_at : Timestamp; rg_wire : JsonObject }.

Definition registration_from_json (v : Json) : option RegistrationRecord :=
  o ← as_object v;
  if negb (bool_decide (length o = length REGISTRATION_MEMBERS)) ||
     existsb (λ m, negb (obj_contains o m)) REGISTRATION_MEMBERS
  then None
  else
    let s m := get_str o m in
    session_id ← (x ← s (bs "session_id"); SessionId_parse x);
    harness_label ← (x ← s (bs "harness_label"); Token_parse x);
    _ ← s (bs "native_id");
    _ ← s (bs "working_directory");
    registered_at ← (x ← s (bs "registered_at"); Timestamp_parse x);
    sec ← (x ← obj_get o (bs "security"); as_object x);
    let names := [bs "principal"; bs "key_id"; bs "signature"] in
    if negb (bool_decide (length sec = length names)) || existsb (λ m, negb (is_some (get_str sec m))) names
    then None
    else Some (mkRegistration session_id harness_label registered_at o).

Definition native_id (r : RegistrationRecord) : list Z := default [] (get_str (rg_wire r) (bs "native_id")).

Definition working_directory (r : RegistrationRecord) : list Z :=
  default [] (get_str (rg_wire r) (bs "working_directory")).

Definition registration_wire (session_id : SessionId) (harness_label : Token) (native_id working_directory : list Z)
    (registered_at : Timestamp) : JsonObject :=
  let o := obj_insert [] (bs "session_id") (JString session_id) in
  let o := obj_insert o (bs "harness_label") (JString harness_label) in
  let o := obj_insert o (bs "native_id") (JString native_id) in
  let o := obj_insert o (bs "working_directory") (JString working_directory) in
  obj_insert o (bs "registered_at") (JString (ts_text registered_at)).

Section Registration.
Context `{C : Crypto}.

Definition registration_verify (r : RegistrationRecord) (keys : TrustedKeySet) : result VerifyError TrustedKey :=
  verify_signed keys Dom_Registration (rg_wire r).

Definition binding_usable (r : RegistrationRecord) (own : DeviceIdentity) : bool :=
  match registration_verify r (TrustedKeySet_new own) with
  | Ok e => beq (tk_key_id e) (tk_key_id (di_entry own))
  | Err _ => false
  end.

(** [DeviceIdentity::register]; the inner [option] is the [expect] on the canonical form. *)
Definition register (d : DeviceIdentity) (session_id : SessionId) (harness_label : Token)
    (native_id working_directory : list Z) (registered_at : Timestamp) : option (option RegistrationRecord) :=
  if negb (is_ijson_string native_id) || negb (is_ijson_string working_directory) then None
  else Some (mkRegistration session_id harness_label registered_at <$>
    attach_signature d Dom_Registration
      (registration_wire session_id harness_label native_id working_directory registered_at)).
End Registration.

(** ** Facts *)

Section Facts.
Context {C : Crypto}.

Lemma usable_sound r own :
  identity_ok own → binding_usable r own = true →
  verified_under (TrustedKeySet_new own) Dom_Registration (rg_wire r) (di_entry own).
Proof.
  intros Hown. unfold binding_usable, registration_verify, verify_signed.
  destruct (verify_with_requirement _ _ _) as [e|] eqn:E; [|done]. cbn [map_err]. intros Hb%beq_true.
  pose proof (verify_Ok _ _ _ _ (keyset_new_inv _ Hown) E) as Hv.
  pose proof Hv as (_ & _ & _ & _ & _ & _ & _ & _ & He & _). rewrite Hb in He. unfold TrustedKeySet_new in He. cbn in He.
  rewrite lookup_singleton_eq in He. injection He as <-. done.
Qed.

Context {HC : CryptoLaws C}.

Lemma register_total d s h n w t :
  is_ijson_string n = true → is_ijson_string w = true →
  ∃ r, register d s h n w t = Some (Some r) ∧
       attach_signature d Dom_Registration (registration_wire s h n w t) = Some (rg_wire r) ∧
       rg_session_id r = s ∧ rg_harness_label r = h ∧ rg_registered_at r = t.
Proof.
  intros Hn Hw. unfold register. rewrite Hn, Hw. cbn [negb orb].
  pose proof (attach_total d Dom_Registration (registration_wire s h n w t) eq_refl eq_refl) as Hs.
  destruct (attach_signature _ _ _) as [wire|]; [|done]. cbn. eexists. by split_and!.
Qed.

Lemma registered_usable d s h n w t r :
  device_ok d → attach_signature d Dom_Registration (registration_wire s h n w t) = Some (rg_wire r) →
  binding_usable r d = true.
Proof.
  intros Hd Ha. unfold binding_usable, registration_verify, verify_signed.
  rewrite (attach_verifies d Dom_Registration _ (rg_wire r) _ Hd) by (done || apply lookup_insert_eq).
  cbn. apply beq_refl.
Qed.

Lemma registered_reads d s h n w t r :
  SessionId_parse s = Some s → Token_parse h = Some h → Timestamp_parse (ts_text t) = Some t →
  attach_signature d Dom_Registration (registration_wire s h n w t) = Some (rg_wire r) →
  rg_session_id r = s → rg_harness_label r = h → rg_registered_at r = t →
  registration_from_json (JObject (rg_wire r)) = Some r ∧ native_id r = n ∧ working_directory r = w.
Proof.
  intros Hs Hh Ht Ha <- <- <-.
  assert (∀ m, beq (bs "security") m = false → obj_get (rg_wire r) m =
    obj_get (registration_wire (rg_session_id r) (rg_harness_label r) n w (rg_registered_at r)) m) as Hm.
  { intros m. by apply (attach_members _ _ _ _ m Ha). }
  pose proof (attach_length _ _ _ _ Ha) as Hl. unfold attach_signature in Ha. apply option_bind_Some in Ha as (sg & _ & Ha).
  injection Ha as Ha. assert (obj_get (rg_wire r) (bs "security") = Some (JObject (obj_insert (own_security d) (bs "signature") (JString sg)))) as Hsec.
  { by rewrite <- Ha, obj_insert_get. }
  assert (∀ m v, beq (bs "security") m = false →
    obj_get (registration_wire (rg_session_id r) (rg_harness_label r) n w (rg_registered_at r)) m = Some (JString v) →
    get_str (rg_wire r) m = Some v ∧ obj_contains (rg_wire r) m = true) as Hg.
  { intros m v Hne Hv. unfold get_str, obj_contains. by rewrite Hm, Hv. }
  destruct (Hg (bs "session_id") (rg_session_id r) eq_refl eq_refl) as [G1 K1].
  destruct (Hg (bs "harness_label") (rg_harness_label r) eq_refl eq_refl) as [G2 K2].
  destruct (Hg (bs "native_id") n eq_refl eq_refl) as [G3 K3].
  destruct (Hg (bs "working_directory") w eq_refl eq_refl) as [G4 K4].
  destruct (Hg (bs "registered_at") (ts_text (rg_registered_at r)) eq_refl eq_refl) as [G5 K5].
  unfold registration_from_json, native_id, working_directory. split_and!; [|by rewrite G3|by rewrite G4].
  cbn [mbind option_bind as_object]. unfold REGISTRATION_MEMBERS. cbn [existsb].
  assert (obj_contains (rg_wire r) (bs "security") = true) as K6 by (unfold obj_contains; by rewrite Hsec).
  rewrite Hl, K1, K2, K3, K4, K5, K6. cbn [negb orb]. replace (negb (bool_decide _) || false) with false by reflexivity.
  rewrite G1, G2, G3, G4, G5, Hsec. cbn [mbind option_bind as_object]. rewrite Hs, Hh, Ht. cbn [mbind option_bind].
  replace (negb (bool_decide _) || _) with false by reflexivity. by destruct r.
Qed.
End Facts.

(** Registering a session always succeeds on strings that I-JSON allows, and only the
    device that signed a record may use its binding: [register] returns a record for the
    session that the device finds usable and that reads back, with its native id and working
    directory, from its own object; and whenever a device finds a record usable, its own key
    verified the signature over the record under the registration domain. *)
Theorem register_usable {C : Crypto} {HC : CryptoLaws C} (d own : DeviceIdentity) (s : SessionId) (h : Token)
    (n w : list Z) (t : Timestamp) (record : RegistrationRecord) :
  device_ok d → identity_ok own → SessionId_parse s = Some s → Token_parse h = Some h →
  Timestamp_parse (ts_text t) = Some t → is_ijson_string n = true → is_ijson_string w = true →
  (∃ r, register d s h n w t = Some (Some r) ∧ rg_session_id r = s ∧ binding_usable r d = true ∧
        registration_from_json (JObject (rg_wire r)) = Some r ∧ native_id r = n ∧ working_directory r = w) ∧
  (binding_usable record own = true →
   verified_under (TrustedKeySet_new own) Dom_Registration (rg_wire record) (di_entry own)).
Proof.
  intros Hd Hown Hs Hh Ht Hn Hw. split; [|by apply usable_sound].
  destruct (register_total d s h n w t Hn Hw) as (r & Hr & Ha & H1 & H2 & H3). exists r.
  destruct (registered_reads d s h n w t r Hs Hh Ht Ha H1 H2 H3) as (H4 & H5 & H6).
  split_and!; [done|done|by eapply registered_usable|done|done|done].
Qed.

Lemma register_usable_witness :
  ∃ r, register (C := sample) sample_identity sample_session (bs "claude") (bs "n1") (bs "/work") sample_time = Some (Some r) ∧
       rg_session_id r = sample_session ∧ binding_usable (C := sample) r sample_identity = true ∧
       registration_from_json (JObject (rg_wire r)) = Some r ∧ native_id r = bs "n1" ∧ working_directory r = bs "/work".
Proof.
  apply (register_usable (C := sample) (HC := sample_laws) sample_identity sample_identity sample_session (bs "claude")
    (bs "n1") (bs "/work") sample_time (mkRegistration [] [] sample_time [])).
  - split; [split; reflexivity|split; reflexivity].
  - split; reflexivity.
  - vm_compute. reflexivity.
  - vm_compute. reflexivity.
  - vm_compute. reflexivity.
  - vm_compute. reflexivity.
  - vm_compute. reflexivity.
Defined.
