(* ===== verification/ReceiptLimit.v ===== *)
(** * The receipt rate limit

    The token buckets of [core/src/receiver.rs]: what a refill and a draw do to a bucket, and
    the bounds that hold over every sequence of calls. *)

From S2P Require Import Prelude Receiver.

(** A limiter as [ReceiptLimiter::new] makes it, its buckets last used at or before [now]. *)
Record limiter_ok (l : ReceiptLimiter) (now : Z) : Prop := {
  lo_burst : 1 ≤ lm_burst l ≤ U32_MAX;
  lo_interval : 1 ≤ lm_interval l;
  lo_max : (1 ≤ lm_max_devices l)%nat;
  lo_size : (size (lm_buckets l) ≤ lm_max_devices l)%nat;
  lo_buckets : map_Forall (λ _ b, 0 ≤ bk_tokens b ≤ lm_burst l ∧ bk_last b ≤ now) (lm_buckets l) }.

(** Nanoseconds of allowance in a bucket at [now], and the most one can hold. *)
Definition raw (l : ReceiptLimiter) (b : Bucket) (now : Z) : Z :=
  bk_tokens b * lm_interval l + (now - bk_last b).

Definition cap (l : ReceiptLimiter) : Z := lm_burst l * lm_interval l + lm_interval l - 1.

Definition allowance (l : ReceiptLimiter) (d : list Z) (now : Z) : Z :=
  match lm_buckets l !! d with
  | Some b => Z.min (raw l b now) (cap l)
  | None => lm_burst l * lm_interval l
  end.

Lemma refill_spec l b now :
  1 ≤ lm_burst l ≤ U32_MAX → 1 ≤ lm_interval l → 0 ≤ bk_tokens b ≤ lm_burst l → bk_last b ≤ now →
  let b' := refill l b now in
  bk_tokens b ≤ bk_tokens b' ≤ lm_burst l ∧ bk_last b' ≤ now ∧ now - bk_last b' < lm_interval l ∧
  raw l b' now ≤ raw l b now.
Proof.
  intros Hb HI Ht Hl. unfold refill, raw. rewrite Z.max_r by lia.
  set (e := now - bk_last b). set (I := lm_interval l) in *. set (q := e / I).
  pose proof (Z.div_mod e I ltac:(lia)) as Hdm. pose proof (Z.mod_pos_bound e I ltac:(lia)) as Hmod.
  fold q in Hdm. assert (0 ≤ q) as Hq by (apply Z.div_pos; lia).
  cbv zeta. destruct (q =? 0) eqn:Eq; bool_hyps; cbn [bk_tokens bk_last].
  { rewrite Eq in Hdm. split_and!; lia. }
  destruct (q <=? U32_MAX) eqn:Eu; bool_hyps.
  - destruct (Z.min (Z.min (bk_tokens b + q) U32_MAX) (lm_burst l) =? lm_burst l) eqn:Ef; bool_hyps.
    + assert (lm_burst l ≤ bk_tokens b + q) by lia. rewrite Ef. split_and!; try lia. nia.
    + replace (Z.min (Z.min (bk_tokens b + q) U32_MAX) (lm_burst l)) with (bk_tokens b + q) by lia.
      split_and!; try lia; nia.
  - replace (Z.min (Z.min (bk_tokens b + U32_MAX) U32_MAX) (lm_burst l)) with (lm_burst l) by lia.
    rewrite Z.eqb_refl. split_and!; try lia. nia.
Qed.

(** A bucket that is dropped as full held a whole burst. *)
Lemma full_raw l b now :
  1 ≤ lm_burst l ≤ U32_MAX → 1 ≤ lm_interval l → 0 ≤ bk_tokens b ≤ lm_burst l → bk_last b ≤ now →
  is_full l now b = true → lm_burst l * lm_interval l ≤ raw l b now.
Proof.
  intros Hb HI Ht Hl Hf. destruct (refill_spec l b now Hb HI Ht Hl) as (_ & Hl' & _ & Hr).
  unfold is_full in Hf. apply Z.eqb_eq in Hf. unfold raw in *. rewrite Hf in Hr. lia.
Qed.

(** [allow], as one draw on the buckets left after the full ones were dropped. *)
Definition kept (l : ReceiptLimiter) (d : list Z) (now : Z) : gmap (list Z) Bucket :=
  if negb (is_some (lm_buckets l !! d)) && (lm_max_devices l <=? size (lm_buckets l))%nat
  then drop_full l now else lm_buckets l.

Definition drawn (l : ReceiptLimiter) (b : Bucket) (now : Z) : Bucket :=
  let b := refill l b now in
  if 0 <? bk_tokens b then mkBucket (bk_tokens b - 1) (bk_last b) else b.

Lemma allow_cases l d now :
  let m := kept l d now in
  (m !! d = None ∧ lm_max_devices l ≤ size m ∧ allow l d now = (false, with_buckets l m))%nat ∨
  (let b := default (mkBucket (lm_burst l) now) (m !! d) in
   (m !! d = None → size m < lm_max_devices l)%nat ∧
   allow l d now = (0 <? bk_tokens (refill l b now), with_buckets l (<[d := drawn l b now]> m))).
Proof.
  cbv zeta. unfold allow, kept.
  destruct (negb (is_some (lm_buckets l !! d)) && (lm_max_devices l <=? size (lm_buckets l))%nat) eqn:E.
  - cbn [with_buckets lm_buckets lm_max_devices].
    destruct (negb (is_some (drop_full l now !! d)) && (lm_max_devices l <=? size (drop_full l now))%nat) eqn:E2.
    + left. apply andb_true_iff in E2 as [E2 E3]. apply Nat.leb_le in E3. split_and!; try done.
      by destruct (drop_full l now !! d).
    + right. split; [|by destruct l]. intros Hn. rewrite Hn in E2. simpl in E2. by apply Nat.leb_gt.
  - rewrite E. right. split; [|by destruct l]. intros Hn. rewrite Hn in E. simpl in E. by apply Nat.leb_gt.
Qed.

Lemma kept_lookup l d now k :
  kept l d now !! k = lm_buckets l !! k ∨
  (kept l d now !! k = None ∧ ∃ b, lm_buckets l !! k = Some b ∧ is_full l now b = true).
Proof.
  unfold kept. destruct (_ && _); [|by left]. unfold drop_full.
  destruct (lm_buckets l !! k) as [b|] eqn:Hb.
  - destruct (is_full l now b) eqn:Hf.
    + right. split; [|eauto]. apply map_lookup_filter_None. right. intros b' Hb'. simpl. congruence.
    + left. by apply map_lookup_filter_Some.
  - left. apply map_lookup_filter_None. by left.
Qed.

Lemma kept_size l d now : (size (kept l d now) ≤ size (lm_buckets l))%nat.
Proof. unfold kept. destruct (_ && _); [|done]. apply map_size_filter. Qed.

Section Draw.
Context (l : ReceiptLimiter) (now : Z) (Hok : limiter_ok l now).

Lemma bucket_ok d b : lm_buckets l !! d = Some b → 0 ≤ bk_tokens b ≤ lm_burst l ∧ bk_last b ≤ now.
Proof. apply (lo_buckets _ _ Hok). Qed.

Lemma drawn_spec b :
  0 ≤ bk_tokens b ≤ lm_burst l → bk_last b ≤ now →
  0 ≤ bk_tokens (drawn l b now) ≤ lm_burst l ∧ bk_last (drawn l b now) ≤ now ∧
  Z.min (raw l (drawn l b now) now) (cap l) + (if 0 <? bk_tokens (refill l b now) then lm_interval l else 0)
    ≤ Z.min (raw l b now) (cap l).
Proof.
  intros Ht Hl. destruct Hok as [Hb HI _ _ _].
  destruct (refill_spec l b now Hb HI Ht Hl) as (H1 & H2 & H3 & H4).
  unfold drawn, cap. destruct (0 <? bk_tokens (refill l b now)) eqn:E; bool_hyps; unfold raw in *;
    cbn [bk_tokens bk_last]; split_and!; try lia; nia.
Qed.

Lemma kept_bucket d k b : kept l d now !! k = Some b → lm_buckets l !! k = Some b.
Proof. intros H. destruct (kept_lookup l d now k) as [<-|[Hn _]]; [done|congruence]. Qed.

Lemma draw_bucket d :
  let b := default (mkBucket (lm_burst l) now) (kept l d now !! d) in
  0 ≤ bk_tokens b ≤ lm_burst l ∧ bk_last b ≤ now.
Proof.
  destruct (kept l d now !! d) as [b|] eqn:E; simpl.
  - by apply (bucket_ok d), (kept_bucket d).
  - pose proof (lo_burst _ _ Hok). lia.
Qed.

Lemma allow_ok d : limiter_ok (allow l d now).2 now.
Proof.
  pose proof Hok as [Hb HI Hm Hs Hbk].
  assert (map_Forall (λ _ b, 0 ≤ bk_tokens b ≤ lm_burst l ∧ bk_last b ≤ now) (kept l d now)) as Hk.
  { intros k b Hkb. by apply (Hbk k), (kept_bucket d). }
  pose proof (kept_size l d now) as Hsz.
  destruct (allow_cases l d now) as [(Hn & _ & ->)|[Hroom ->]]; constructor; simpl; try done; [lia| |].
  - destruct (kept l d now !! d) as [b|] eqn:E.
    + rewrite map_size_insert_Some by eauto. lia.
    + rewrite map_size_insert_None by done. specialize (Hroom eq_refl). lia.
  - apply map_Forall_insert_2; [|done]. destruct (draw_bucket d) as [H1 H2].
    by destruct (drawn_spec _ H1 H2) as (? & ? & _).
Qed.

(** Dropping the full buckets takes no allowance away and gives none. *)
Lemma kept_allowance d k :
  match kept l d now !! k with
  | Some b => Z.min (raw l b now) (cap l)
  | None => lm_burst l * lm_interval l
  end ≤ allowance l k now.
Proof.
  unfold allowance. destruct (kept_lookup l d now k) as [->|(-> & b & Hb & Hf)]; [done|].
  rewrite Hb. destruct (bucket_ok k b Hb) as [H1 H2].
  pose proof (full_raw l b now (lo_burst _ _ Hok) (lo_interval _ _ Hok) H1 H2 Hf).
  unfold cap. pose proof (lo_interval _ _ Hok). lia.
Qed.

(** A draw costs the device one interval of allowance, and no other device any. *)
Lemma allow_allowance d k :
  allowance (allow l d now).2 k now +
    (if bool_decide (d = k) && (allow l d now).1 then lm_interval l else 0) ≤ allowance l k now.
Proof.
  pose proof (kept_allowance d k) as Hk.
  destruct (allow_cases l d now) as [(Hn & _ & ->)|[Hroom ->]]; cbn [fst snd].
  - rewrite andb_false_r. unfold allowance at 1. cbn [with_buckets lm_buckets lm_burst lm_interval].
    unfold raw, cap in *. cbn [with_buckets lm_burst lm_interval]. destruct (kept l d now !! k); lia.
  - unfold allowance at 1. cbn [with_buckets lm_buckets lm_burst lm_interval].
    case_bool_decide as Hdk; cbn [andb].
    + subst k. rewrite lookup_insert_eq. destruct (draw_bucket d) as [H1 H2].
      destruct (drawn_spec _ H1 H2) as (_ & _ & H3). unfold raw, cap in *. cbn [with_buckets lm_burst lm_interval].
      destruct (kept l d now !! d) as [b|]; cbn [default id] in *; [lia|].
      cbn [bk_tokens bk_last] in H3. pose proof (lo_interval _ _ Hok). lia.
    + rewrite lookup_insert_ne by done. unfold raw, cap in *. cbn [with_buckets lm_burst lm_interval].
      destruct (kept l d now !! k); lia.
Qed.

Lemma allow_params d :
  lm_burst (allow l d now).2 = lm_burst l ∧ lm_interval (allow l d now).2 = lm_interval l ∧
  lm_max_devices (allow l d now).2 = lm_max_devices l.
Proof. by destruct (allow_cases l d now) as [(_ & _ & ->)|[_ ->]]. Qed.

Lemma limiter_later now' : now ≤ now' → limiter_ok l now'.
Proof.
  intros Hn. destruct Hok. constructor; try done. intros k b Hb. specialize (lo_buckets0 k b Hb). simpl in *. lia.
Qed.

Lemma allowance_later d now' : now ≤ now' → allowance l d now' ≤ allowance l d now + (now' - now).
Proof. intros Hn. unfold allowance, raw. destruct (lm_buckets l !! d); lia. Qed.

Lemma allowance_bounds d : 0 ≤ allowance l d now ≤ cap l.
Proof.
  pose proof Hok as [Hb HI _ _ _]. unfold allowance, raw, cap. destruct (lm_buckets l !! d) as [b|] eqn:E.
  - destruct (bucket_ok d b E) as [H1 H2]. nia.
  - nia.
Qed.
End Draw.

(** ** Sequences of calls *)

Fixpoint limiter_run (l : ReceiptLimiter) (calls : list (list Z * Z)) : list bool * ReceiptLimiter :=
  match calls with
  | [] => ([], l)
  | (d, t) :: rest =>
      let '(ok, l) := allow l d t in
      let '(oks, l) := limiter_run l rest in (ok :: oks, l)
  end.

(** The calls' instants do not go backwards, from [t0] on and up to [t1]. *)
Fixpoint in_order (t0 : Z) (calls : list (list Z * Z)) (t1 : Z) : bool :=
  match calls with
  | [] => t0 <=? t1
  | (_, t) :: rest => (t0 <=? t) && in_order t rest t1
  end.

(** The receipts a device drew. *)
Definition draws (d : list Z) (calls : list (list Z * Z)) (oks : list bool) : nat :=
  length (filter (λ x, x.1.1 = d ∧ x.2 = true) (zip calls oks)).

Lemma run_bound calls : ∀ l t0 t1 d,
  limiter_ok l t0 → in_order t0 calls t1 = true →
  limiter_ok (limiter_run l calls).2 t1 ∧
  lm_burst (limiter_run l calls).2 = lm_burst l ∧ lm_interval (limiter_run l calls).2 = lm_interval l ∧
  lm_max_devices (limiter_run l calls).2 = lm_max_devices l ∧
  Z.of_nat (draws d calls (limiter_run l calls).1) * lm_interval l
    + allowance (limiter_run l calls).2 d t1 ≤ allowance l d t0 + (t1 - t0).
Proof.
  induction calls as [|[d' t] calls IH]; intros l t0 t1 d Hok Ho; simpl in Ho.
  - apply Z.leb_le in Ho. simpl. split_and!; try done; [by eapply limiter_later|].
    pose proof (allowance_later l t0 d t1 Ho). unfold draws. simpl. lia.
  - apply andb_true_iff in Ho as [H1 H2]. apply Z.leb_le in H1.
    pose proof (limiter_later l t0 Hok t H1) as Hokt.
    pose proof (allow_ok l t Hokt d') as Hok'. pose proof (allow_allowance l t Hokt d' d) as Ha.
    pose proof (allowance_later l t0 d t H1) as Hl. destruct (allow_params l t d') as (P1 & P2 & P3).
    cbn [limiter_run]. destruct (allow l d' t) as [ok l'] eqn:Ea. cbn [fst snd] in *.
    destruct (IH l' t t1 d Hok' H2) as (I1 & I2 & I3 & I4 & I5).
    destruct (limiter_run l' calls) as [oks l''] eqn:Er. cbn [fst snd] in *.
    rewrite I2, I3, I4, P1, P2, P3. split_and!; try done. rewrite P2 in I5.
    assert (draws d ((d', t) :: calls) (ok :: oks) =
      ((if bool_decide (d' = d) && ok then 1 else 0) + draws d calls oks)%nat) as ->.
    { unfold draws. cbn [zip zip_with]. rewrite filter_cons. simpl.
      case_decide as Hc; case_bool_decide; destruct ok; simpl; try done; naive_solver. }
    destruct (bool_decide (d' = d) && ok); lia.
Qed.

Lemma limiter_new_ok burst interval max_devices t :
  burst ≤ U32_MAX → limiter_ok (ReceiptLimiter_new burst interval max_devices) t.
Proof.
  intros Hb. constructor; simpl; [unfold U32_MAX in *; lia|lia|lia|rewrite map_size_empty; lia|].
  apply map_Forall_empty.
Qed.

(** The receipt limit holds: over any sequence of calls for any devices, in order of
    time, a device draws in any stretch of it no more than the burst plus one receipt per
    interval of the stretch, begun intervals included, whatever the other devices do and
    whichever buckets are dropped and made again; and the limiter never tracks more devices
    than its limit. *)
Theorem receipts_rate_limited (burst interval : Z) (max_devices : nat) (before calls : list (list Z * Z))
    (d : list Z) (t0 t1 t2 : Z) :
  burst ≤ U32_MAX → in_order t0 before t1 = true → in_order t1 calls t2 = true →
  let l := (limiter_run (ReceiptLimiter_new burst interval max_devices) before).2 in
  let I := Z.max interval 1 in
  Z.of_nat (draws d calls (limiter_run l calls).1) ≤ Z.max burst 1 + (t2 - t1 + I - 1) / I ∧
  (size (lm_buckets (limiter_run l calls).2) ≤ Nat.max max_devices 1)%nat.
Proof.
  intros Hb H1 H2 l I.
  destruct (run_bound before _ t0 t1 d (limiter_new_ok burst interval max_devices t0 Hb) H1)
    as (Hl & Hlb & Hli & Hlm & _). fold l in Hl, Hlb, Hli, Hlm.
  destruct (run_bound calls l t1 t2 d Hl H2) as (Hl2 & _ & _ & Hm2 & Hbound). split.
  - pose proof (allowance_bounds l t1 Hl d) as [_ Hc]. pose proof (allowance_bounds _ t2 Hl2 d) as [Hz _].
    unfold cap in Hc. rewrite Hlb, Hli in Hc. rewrite Hli in Hbound. simpl in Hc, Hbound. fold I in Hc, Hbound.
    set (n := Z.of_nat _) in *. enough (n - Z.max burst 1 ≤ (t2 - t1 + I - 1) / I) by lia.
    apply Z.div_le_lower_bound; [lia|]. nia.
  - pose proof (lo_size _ _ Hl2) as Hs. rewrite Hm2, Hlm in Hs. exact Hs.
Qed.

Lemma receipts_rate_limited_witness :
  let calls := [(bs "k", 0); (bs "k", 0); (bs "k", 0); (bs "k", 10); (bs "k", 10)] in
  let l := ReceiptLimiter_new 2 10 4 in
  (limiter_run l calls).1 = [true; true; false; true; false] ∧
  Z.of_nat (draws (bs "k") calls (limiter_run l calls).1) ≤ 3.
Proof.
  split; [vm_compute; reflexivity|].
  exact (proj1 (receipts_rate_limited 2 10 4 [] [(bs "k", 0); (bs "k", 0); (bs "k", 0); (bs "k", 10); (bs "k", 10)]
    (bs "k") 0 0 10 ltac:(unfold U32_MAX; lia) eq_refl eq_refl)).
Defined.
