(* ===== verification/Sender.v ===== *)
(** * The sending side of a delivery ([core/src/sender.rs])

    The send decision, the send stage that builds and signs the envelope, and the
    delivery-state machine a sending implementation keeps for each envelope. *)

From S2P Require Import Prelude Ids Json Delivery Canonical Capabilities Envelope EnvelopeFacts Keys Trust Signing Replay Receipt Reply Receiver.

(** ** The send decision

    [presence] is the presence step; [envelope_octets] measures the envelope, and what it
    leaves behind for the caller is returned beside the agreement; [None] is a panic in it. *)
Definition check_send {B} (requester : option SessionId) (to : SessionId)
    (presence : SessionId → SessionId → result ErrorCode SessionCapabilities)
    (implemented : list Implemented) (part_types : list (list Z))
    (envelope_octets : Version → option (Z * B)) : option (result ErrorCode (Agreed * B)) :=
  match requester with
  | None => Some (Err E_Unauthorized)
  | Some requester =>
      match presence requester to with
      | Err e => Some (Err e)
      | Ok declaration =>
          match agree declaration implemented with
          | None => Some (Err E_UnsupportedVersion)
          | Some agreed =>
              if negb (ce_active_inbound (ag_entry agreed)) then Some (Err E_UnsupportedCapability)
              else if negb (forallb (accepts_part_type (ag_entry agreed)) part_types)
              then Some (Err E_UnsupportedContentType)
              else
                '(n, left_behind) ← envelope_octets (ag_revision agreed);
                if max_envelope_octets (ag_entry agreed) <? n then Some (Err E_EnvelopeTooLarge)
                else Some (Ok (agreed, left_behind))
          end
      end
  end.

(** ** The send stage *)

(** [SendRequest] ([core/src/adapter.rs]); its attachment has been resolved to the requester. *)
Record SendRequest := mkRequest {
  rq_to : SessionId;
  rq_content : list ContentPart;
  rq_requested_target : option (list Z);
  rq_conversation_id : option (list Z);
  rq_correlation_id : option (list Z) }.

Inductive Correlation : Type := Correlated | Uncorrelated.

Record PreparedSend := mkPrepared {
  ps_envelope : Envelope;
  ps_agreed : Agreed;
  ps_correlation : option Correlation }.

Definition request_token (v : option (list Z)) : result ErrorCode (option Token) :=
  match v with
  | None => Ok None
  | Some s => t ← ok_or (Token_parse s) E_InvalidRequest; Ok (Some t)
  end.

Definition request_headers (request : SendRequest) (reply : ReplyHeaders)
    : result ErrorCode (ReplyHeaders * option Correlation) :=
  match rq_requested_target request with
  | Some _ => Ok (reply, Some (if correlated reply then Correlated else Uncorrelated))
  | None =>
      conversation_id ← request_token (rq_conversation_id request);
      correlation_id ← request_token (rq_correlation_id request);
      Ok (mkHeaders None conversation_id correlation_id, None)
  end.

Section Prepare.
Context `{C : Crypto}.

(** The closure that builds and signs the envelope: its size, and the envelope. *)
Definition build_envelope (identity : DeviceIdentity) (id : Token) (from : SessionId)
    (request : SendRequest) (created_at : Timestamp) (headers : ReplyHeaders) (random : list Z)
    (version : Version) : option (Z * option Envelope) :=
  match with_parts id from (rq_to request) created_at (rq_content request) with
  | None => Some (U64_MAX, None)
  | Some draft =>
      env ← sign_envelope identity (apply_headers headers (with_version draft version)) random;
      Some (Z.of_nat (length (env_octets env)), Some env)
  end.

(** [prepare_send], with the nonce's random octets as an argument; [None] is the panic of
    signing a draft that has no canonical form. *)
Definition prepare_send (requester : option SessionId) (request : SendRequest)
    (presence : SessionId → SessionId → result ErrorCode SessionCapabilities)
    (implemented : list Implemented) (reply : ReplyHeaders) (identity : DeviceIdentity)
    (id : Token) (created_at : Timestamp) (random : list Z) : option (result ErrorCode PreparedSend) :=
  match requester with
  | None => Some (Err E_Unauthorized)
  | Some from =>
      if bool_decide (length (rq_content request) = 0%nat) then Some (Err E_InvalidRequest)
      else
        match request_headers request reply with
        | Err e => Some (Err e)
        | Ok (headers, correlation) =>
            r ← check_send (Some from) (rq_to request) presence implemented
                  (map part_type (rq_content request))
                  (build_envelope identity id from request created_at headers random);
            Some (match r with
                  | Err e => Err e
                  | Ok (agreed, built) =>
                      envelope ← ok_or built E_InternalError;
                      Ok (mkPrepared envelope agreed correlation)
                  end)
        end
  end.
End Prepare.

(** ** The states held for an envelope *)

(** [ObservedReceipt]: a receipt of this receiver, or an authenticated one. *)
Record ObservedReceipt := mkObserved { ob_receipt : DeliveryReceipt }.

Record HeldState := mkHeldState { hs_state : DeliveryState; hs_observer : Observer }.

Definition HeldState_processed (state : DeliveryState) (observer : Observer) (error : option (list Z))
    : HeldState :=
  let state :=
    match error with
    | Some e =>
        if negb (is_some (ErrorCode_parse e)) && negb (bool_decide (state = D_Duplicate))
        then D_Failed else state
    | None => state
    end in
  mkHeldState state observer.

Definition is_error_state (s : DeliveryState) : bool :=
  match s with D_Rejected | D_Expired | D_Unreachable | D_Failed => true | _ => false end.

Record Held := mkHeld {
  hl_handed_to_harness : bool;
  hl_duplicate : bool;
  hl_receiver_unknown : bool;
  hl_first_receiver_error : option DeliveryState;
  hl_first_sender_error : option DeliveryState }.

Definition Held_new : Held := mkHeld false false false None None.

(** [Option::get_or_insert]. *)
Definition get_or_insert {A} (o : option A) (a : A) : option A :=
  match o with Some b => Some b | None => Some a end.

Definition held_add (s : Held) (h : HeldState) : Held :=
  let '(mkHeld hh d u r e) := s in
  match hs_state h, hs_observer h with
  | D_HandedToHarness, _ => mkHeld true d u r e
  | D_Duplicate, _ => mkHeld hh true u r e
  | D_Unknown, O_Receiver => mkHeld hh d true r e
  | st, O_Receiver => if is_error_state st then mkHeld hh d u (get_or_insert r st) e else s
  | st, O_Sender => if is_error_state st then mkHeld hh d u r (get_or_insert e st) else s
  end.

Definition Held_of (held : list HeldState) : Held := foldl held_add Held_new held.

Definition combined_state (copies_passed : Z) (held : Held) (handoff_deadline_passed : bool)
    : DeliveryState :=
  if hl_handed_to_harness held then D_HandedToHarness
  else if hl_duplicate held then D_Duplicate
  else if hl_receiver_unknown held then D_Unknown
  else
    match (if copies_passed =? 1 then hl_first_receiver_error held else None) with
    | Some s => s
    | None =>
        match (if copies_passed =? 0 then hl_first_sender_error held else None) with
        | Some s => s
        | None => if handoff_deadline_passed then D_Unknown else D_AcceptedByAdapter
        end
    end.

Definition retry_allowed (copies_passed : Z) (held : Held) (state : DeliveryState)
    (retry_deadline_passed : bool) : bool :=
  if copies_passed =? 0 then is_error_state state
  else
    retry_deadline_passed &&
    negb (match state with D_HandedToHarness | D_Duplicate => true | _ => false end) &&
    negb (hl_receiver_unknown held).

(** ** The tracker *)

Record EnvelopeTracker := mkTracker {
  tk_id : Token;
  tk_from : SessionId;
  tk_deadline : HandOffDeadline;
  tk_copies_passed : Z;
  tk_held : Held }.

Definition EnvelopeTracker_new (env : Envelope) : EnvelopeTracker :=
  mkTracker (env_id env) (env_from env) (HandOffDeadline_of env) 0 Held_new.

Definition tracker_passed (t : EnvelopeTracker) : EnvelopeTracker :=
  mkTracker (tk_id t) (tk_from t) (tk_deadline t) (Z.min (tk_copies_passed t + 1) U64_MAX) (tk_held t).

(** Adds a state to the tracker's. *)
Definition with_held (t : EnvelopeTracker) (h : HeldState) : EnvelopeTracker :=
  mkTracker (tk_id t) (tk_from t) (tk_deadline t) (tk_copies_passed t) (held_add (tk_held t) h).

Definition not_passed (code : ErrorCode) (t : EnvelopeTracker) : bool * EnvelopeTracker :=
  if negb (fits_receipt code D_Failed O_Sender) then (false, t)
  else (true, with_held t (mkHeldState D_Failed O_Sender)).

Definition tracker_receipt (r : ObservedReceipt) (t : EnvelopeTracker) : bool * EnvelopeTracker :=
  let r := ob_receipt r in
  if negb (beq (rc_envelope_id r) (tk_id t)) || negb (beq (rc_envelope_from r) (tk_from t)) then (false, t)
  else (true, with_held t (mkHeldState (effective_state r) (rc_observer r))).

Definition handoff_deadline_passed (t : EnvelopeTracker) (now : Timestamp) : bool :=
  passed_at (tk_deadline t) now.

Definition retry_deadline_passed (t : EnvelopeTracker) (now : Timestamp) : bool :=
  hd_unix_nanos (tk_deadline t) + REPLAY_WINDOW_MS * 1000000 <=? unix_nanos now.

Definition tracker_state (t : EnvelopeTracker) (now : Timestamp) : DeliveryState :=
  combined_state (tk_copies_passed t) (tk_held t) (handoff_deadline_passed t now).

Definition tracker_retry_allowed (t : EnvelopeTracker) (now : Timestamp) : bool :=
  retry_allowed (tk_copies_passed t) (tk_held t) (tracker_state t now) (retry_deadline_passed t now).

Definition retransmit_allowed (t : EnvelopeTracker) (now : Timestamp) : bool :=
  negb (handoff_deadline_passed t now) &&
  match tracker_state t now with
  | D_AcceptedByAdapter | D_Unknown | D_Unreachable | D_Failed => true
  | _ => false
  end.

(** ** The sender's promises

    The tracker against the full history of what the sender learned, and the send stage
    against the receiver's checks. *)

(** ** The tracker and its history *)

Inductive tracker_op : Type :=
| TPassed
| TNotPassed (code : ErrorCode)
| TReceipt (r : ObservedReceipt).

Definition tracker_step (t : EnvelopeTracker) (o : tracker_op) : EnvelopeTracker :=
  match o with
  | TPassed => tracker_passed t
  | TNotPassed code => (not_passed code t).2
  | TReceipt r => (tracker_receipt r t).2
  end.

Definition run_tracker (ops : list tracker_op) (t : EnvelopeTracker) : EnvelopeTracker :=
  foldl tracker_step t ops.

(** Whether a receipt names the envelope. *)
Definition names (env : Envelope) (r : DeliveryReceipt) : bool :=
  beq (rc_envelope_id r) (env_id env) && beq (rc_envelope_from r) (env_from env).

(** The state an operation tells the sender of, and the whole history of them. *)
Definition told (env : Envelope) (o : tracker_op) : option HeldState :=
  match o with
  | TPassed => None
  | TNotPassed code => then_some (fits_receipt code D_Failed O_Sender) (mkHeldState D_Failed O_Sender)
  | TReceipt r =>
      then_some (names env (ob_receipt r))
        (mkHeldState (effective_state (ob_receipt r)) (rc_observer (ob_receipt r)))
  end.

Definition history (env : Envelope) (ops : list tracker_op) : list HeldState := omap (told env) ops.

Definition copies (ops : list tracker_op) : Z :=
  Z.of_nat (length (List.filter (λ o, match o with TPassed => true | _ => false end) ops)).

(** The rules of the combined state, on the history. *)
Definition held_is (d : DeliveryState) (h : HeldState) : bool := bool_decide (hs_state h = d).
Definition error_from (o : Observer) (h : HeldState) : bool :=
  is_error_state (hs_state h) && bool_decide (hs_observer h = o).
Definition receiver_unknown (h : HeldState) : bool :=
  held_is D_Unknown h && bool_decide (hs_observer h = O_Receiver).

Definition history_state (n : Z) (h : list HeldState) (deadline_passed : bool) : DeliveryState :=
  if existsb (held_is D_HandedToHarness) h then D_HandedToHarness
  else if existsb (held_is D_Duplicate) h then D_Duplicate
  else if existsb receiver_unknown h then D_Unknown
  else
    match n, find (error_from O_Receiver) h, find (error_from O_Sender) h with
    | 1, Some e, _ => hs_state e
    | 0, _, Some e => hs_state e
    | _, _, _ => if deadline_passed then D_Unknown else D_AcceptedByAdapter
    end.

Lemma find_snoc {A} (p : A → bool) l x :
  find p (l ++ [x]) = match find p l with Some y => Some y | None => if p x then Some x else None end.
Proof. induction l as [|y l IH]; [done|]. simpl. by destruct (p y). Qed.

Lemma existsb_snoc {A} (p : A → bool) l x : existsb p (l ++ [x]) = existsb p l || p x.
Proof. by rewrite existsb_app; simpl; rewrite orb_false_r. Qed.

(** The fixed-size summary is a function of the history. *)
Lemma held_of_history h :
  Held_of h = mkHeld (existsb (held_is D_HandedToHarness) h) (existsb (held_is D_Duplicate) h)
    (existsb receiver_unknown h) (hs_state <$> find (error_from O_Receiver) h)
    (hs_state <$> find (error_from O_Sender) h).
Proof.
  induction h as [|x h IH] using rev_ind; [done|]. unfold Held_of in *. rewrite foldl_snoc, IH.
  rewrite !existsb_snoc, !find_snoc. destruct x as [d o].
  destruct d, o; simpl; rewrite ?orb_false_r, ?orb_true_r;
    destruct (find (error_from O_Receiver) h), (find (error_from O_Sender) h); done.
Qed.

Lemma combined_history n h b : combined_state n (Held_of h) b = history_state n h b.
Proof.
  rewrite held_of_history. unfold combined_state, history_state.
  cbn [hl_handed_to_harness hl_duplicate hl_receiver_unknown hl_first_receiver_error hl_first_sender_error].
  destruct (existsb (held_is D_HandedToHarness) h); [done|].
  destruct (existsb (held_is D_Duplicate) h); [done|].
  destruct (existsb receiver_unknown h); [done|].
  destruct n as [|[p|p|]|p]; simpl; destruct (find (error_from O_Receiver) h), (find (error_from O_Sender) h); done.
Qed.

Lemma copies_snoc ops o : copies (ops ++ [o]) = copies ops + match o with TPassed => 1 | _ => 0 end.
Proof.
  unfold copies. rewrite List.filter_app, length_app. destruct o; simpl; lia.
Qed.

Lemma run_tracker_history env ops :
  run_tracker ops (EnvelopeTracker_new env) =
  mkTracker (env_id env) (env_from env) (HandOffDeadline_of env) (Z.min (copies ops) U64_MAX)
    (Held_of (history env ops)).
Proof.
  induction ops as [|o ops IH] using rev_ind; [done|].
  unfold run_tracker in *. rewrite foldl_snoc, IH, copies_snoc. unfold history. rewrite omap_app.
  assert (∀ h, held_add (Held_of (omap (told env) ops)) h = Held_of (omap (told env) ops ++ [h])) as Hadd
    by (intros h; unfold Held_of; by rewrite foldl_snoc).
  destruct o as [|code|r]; unfold tracker_step, tracker_passed, not_passed, tracker_receipt, with_held;
    cbn [tk_id tk_from tk_deadline tk_copies_passed tk_held omap list_omap told].
  - rewrite app_nil_r. f_equal. assert (0 ≤ copies ops) by (unfold copies; lia). unfold U64_MAX. lia.
  - unfold then_some. rewrite Z.add_0_r. destruct (fits_receipt code D_Failed O_Sender); simpl.
    + by rewrite Hadd.
    + by rewrite app_nil_r.
  - unfold then_some, names. rewrite Z.add_0_r.
    destruct (beq (rc_envelope_id _) _), (beq (rc_envelope_from _) _); simpl; rewrite ?app_nil_r; try done.
    by rewrite Hadd.
Qed.

Lemma history_handed n h b :
  history_state n h b = D_HandedToHarness → existsb (held_is D_HandedToHarness) h = true.
Proof.
  unfold history_state. destruct (existsb (held_is D_HandedToHarness) h); [done|].
  destruct (existsb (held_is D_Duplicate) h); [done|]. destruct (existsb receiver_unknown h); [done|].
  assert (∀ o e, find (error_from o) h = Some e → hs_state e ≠ D_HandedToHarness) as Hne.
  { intros o e He Heq. apply find_some in He as [_ He]. unfold error_from in He. by rewrite Heq in He. }
  destruct (find (error_from O_Receiver) h) as [e1|] eqn:E1, (find (error_from O_Sender) h) as [e2|] eqn:E2;
    destruct n as [|[p|p|]|p], b; try done; intros H;
    first [by destruct (Hne _ _ E1)|by destruct (Hne _ _ E2)].
Qed.

(** [C36] The tracker is the history in fixed size: after any sequence of copies passed, copies
    not passed and receipts, its combined state is the one the rules give on the whole history
    of states the sender was told of, receipts naming other envelopes left out; it reports
    [handed-to-harness] exactly when a receipt for this very envelope said so, and then for
    ever, with no retry and no retransmission allowed. *)
Theorem tracker_refines_history (env : Envelope) (ops : list tracker_op) (now : Timestamp) :
  let t := run_tracker ops (EnvelopeTracker_new env) in
  tracker_state t now =
    history_state (Z.min (copies ops) U64_MAX) (history env ops) (passed_at (HandOffDeadline_of env) now) ∧
  (tracker_state t now = D_HandedToHarness ↔
     ∃ r, TReceipt r ∈ ops ∧ names env (ob_receipt r) = true ∧
          effective_state (ob_receipt r) = D_HandedToHarness) ∧
  (tracker_state t now = D_HandedToHarness → ∀ more later,
     let t' := run_tracker more t in
     tracker_state t' later = D_HandedToHarness ∧
     tracker_retry_allowed t' later = false ∧ retransmit_allowed t' later = false).
Proof.
  cbv zeta.
  assert (∀ ops now, tracker_state (run_tracker ops (EnvelopeTracker_new env)) now =
    history_state (Z.min (copies ops) U64_MAX) (history env ops) (passed_at (HandOffDeadline_of env) now)) as Hst.
  { intros ops' now'. rewrite run_tracker_history. unfold tracker_state, handoff_deadline_passed.
    cbn [tk_copies_passed tk_held tk_deadline]. apply combined_history. }
  assert (∀ ops now, tracker_state (run_tracker ops (EnvelopeTracker_new env)) now = D_HandedToHarness ↔
    existsb (held_is D_HandedToHarness) (history env ops) = true) as Hhand.
  { intros ops' now'. rewrite Hst. split; [apply history_handed|]. unfold history_state. by intros ->. }
  split_and!; [apply Hst| |].
  - rewrite Hhand, existsb_exists. split.
    + intros (h & Hin & Hh). apply list_elem_of_In, list_elem_of_omap in Hin as (o & Ho & Htold).
      apply bool_decide_eq_true in Hh. destruct o as [|code|r]; simpl in Htold; [done| |].
      * destruct (fits_receipt _ _ _); [|done]. injection Htold as <-. done.
      * destruct (names env (ob_receipt r)) eqn:En; [|done]. injection Htold as <-. by exists r.
    + intros (r & Hin & Hn & He). exists (mkHeldState D_HandedToHarness (rc_observer (ob_receipt r))).
      split; [|done]. apply list_elem_of_In, list_elem_of_omap. exists (TReceipt r). split; [done|].
      simpl. by rewrite Hn, He.
  - intros H more later. rewrite Hhand in H.
    assert (tracker_state (run_tracker more (run_tracker ops (EnvelopeTracker_new env))) later = D_HandedToHarness) as Hl.
    { unfold run_tracker. rewrite <-foldl_app. fold (run_tracker (ops ++ more) (EnvelopeTracker_new env)).
      apply Hhand. unfold history in *. by rewrite omap_app, existsb_app, H. }
    split_and!; [done| |].
    + unfold tracker_retry_allowed, retry_allowed. rewrite Hl. case_match; [done|]. by rewrite andb_false_r.
    + unfold retransmit_allowed. rewrite Hl. apply andb_false_r.
Qed.

(** ** The send stage and the receiver *)

(** The headers a request leads to are tokens when the records' are. *)
Definition headers_ok (h : ReplyHeaders) : Prop :=
  (∀ x, rh_reply_to h = Some x → is_token x = true) ∧
  (∀ x, rh_conversation_id h = Some x → is_token x = true) ∧
  (∀ x, rh_correlation_id h = Some x → is_token x = true).

Lemma request_token_ok v t : request_token v = Ok (Some t) → is_token t = true.
Proof.
  unfold request_token. destruct v as [s|]; [|done]. intros H. inv_binds.
  unfold Token_parse, then_some in *. by destruct (is_token s) eqn:E; simplify_eq.
Qed.

Lemma request_headers_ok request reply h c :
  headers_ok reply → request_headers request reply = Ok (h, c) → headers_ok h.
Proof.
  intros Hr. unfold request_headers. destruct (rq_requested_target request).
  - by intros [= <- _].
  - intros H. inv_binds. simplify_eq. split_and!; simpl; [done| |]; intros y ->; by eapply request_token_ok.
Qed.

Lemma apply_headers_built h d : headers_ok h → built_draft d → built_draft (apply_headers h d).
Proof.
  intros (H1 & H2 & H3) Hd. unfold apply_headers.
  destruct (rh_reply_to h) as [x|] eqn:E1, (rh_conversation_id h) as [y|] eqn:E2, (rh_correlation_id h) as [z|] eqn:E3;
    repeat first [apply bd_correlation|apply bd_conversation|apply bd_reply]; auto.
Qed.

(** What the send decision and the closure did on a prepared send. *)
Lemma prepare_send_Ok {C : Crypto} requester request presence implemented reply identity id created_at random p :
  prepare_send requester request presence implemented reply identity id created_at random = Some (Ok p) →
  ∃ from caps headers draft,
    requester = Some from ∧ presence from (rq_to request) = Ok caps ∧
    agree caps implemented = Some (ps_agreed p) ∧
    ce_active_inbound (ag_entry (ps_agreed p)) = true ∧
    forallb (accepts_part_type (ag_entry (ps_agreed p))) (map part_type (rq_content request)) = true ∧
    Z.of_nat (length (env_octets (ps_envelope p))) ≤ max_envelope_octets (ag_entry (ps_agreed p)) ∧
    request_headers request reply = Ok (headers, ps_correlation p) ∧
    with_parts id from (rq_to request) created_at (rq_content request) = Some draft ∧
    sign_envelope identity (apply_headers headers (with_version draft (ag_revision (ps_agreed p)))) random =
      Some (ps_envelope p).
Proof.
  unfold prepare_send. destruct requester as [from|]; [|done]. case_bool_decide as Hne; [done|].
  destruct (request_headers request reply) as [[headers corr]|] eqn:Eh; [|done]. intros H.
  apply option_bind_Some in H as (r & Hc & H). injection H as H. destruct r as [[agreed built]|]; [|done].
  inv_binds. unfold check_send in Hc.
  destruct (presence from (rq_to request)) as [caps|] eqn:Ep; [|done].
  destruct (agree caps implemented) as [a|] eqn:Ea; [|done].
  destruct (ce_active_inbound (ag_entry a)) eqn:Ei; [|done]. cbn [negb] in Hc.
  destruct (forallb _ _) eqn:Ef; [|done]. cbn [negb] in Hc.
  apply option_bind_Some in Hc as ([n lb] & Hb & Hc). destruct (_ <? n) eqn:En; [done|].
  injection Hc as -> ->. unfold build_envelope in Hb.
  destruct (with_parts id from (rq_to request) created_at (rq_content request)) as [draft|] eqn:Ed; [|by simplify_eq].
  apply option_bind_Some in Hb as (env & Hs & Hb). injection Hb as <- ->.
  exists from, caps, headers, draft. cbn [ps_envelope ps_agreed ps_correlation]. split_and!; try done. lia.
Qed.

(** A local session whose own limits are at least those of the entry it declared. *)
Definition target_honours (t : DeliveryTarget) (e : CapabilitiesEntry) : Prop :=
  dt_accepting t = true ∧ dt_active_inbound t = ce_active_inbound e ∧
  (∀ ty, accepts_part_type e ty = true →
     beq ty (bs "text") || existsb (λ c, beq c ty) (dt_content_types t) = true) ∧
  (∀ m, dt_max_envelope_octets t = Some m → max_envelope_octets e ≤ m).

Lemma delivery_checks_pass env t e :
  target_honours t e → ce_active_inbound e = true →
  forallb (accepts_part_type e) (map part_type (env_content env)) = true →
  Z.of_nat (length (env_octets env)) ≤ max_envelope_octets e →
  delivery_checks env (Some t) = Ok tt.
Proof.
  intros (Ha & Hi & Ht & Hm) He Hp Hl. unfold delivery_checks. cbn [ok_or mbind result_bind].
  rewrite Ha, Hi, He. cbn [negb orb].
  replace (forallb _ (env_content env)) with true.
  - cbn [negb orb]. destruct (dt_max_envelope_octets t) as [m|]; [|done].
    specialize (Hm m eq_refl). replace (m <? _) with false by lia. done.
  - symmetry. apply Forall_forallb. apply Forall_forallb, Forall_map in Hp.
    eapply Forall_impl; [exact Hp|]. intros p. apply Ht.
Qed.

(** A receiver whose limits are at least those of an entry. *)
Definition limits_honour (l : EnvelopeLimits) (e : CapabilitiesEntry) (v : Version) : Prop :=
  max_envelope_octets e ≤ el_max_octets l ∧ major v ∈ supported_majors l ∧
  (∀ ty, accepts_part_type e ty = true →
     beq ty (bs "text") || existsb (λ x, beq x ty) (part_types l) = true).

(** The values a request is prepared from are of the crate's types. *)
Record request_ok (requester : option SessionId) (request : SendRequest) (reply : ReplyHeaders)
    (implemented : list Implemented) (id : Token) (created_at : Timestamp) (random : list Z) : Prop := {
  rk_from : ∀ from, requester = Some from → is_session_id from = true;
  rk_to : is_session_id (rq_to request) = true;
  rk_parts : Forall built_part (rq_content request);
  rk_reply : headers_ok reply;
  rk_versions : Forall (λ i, 0 ≤ major (imp_revision i) ≤ 9999 ∧ 0 ≤ minor (imp_revision i) ≤ 9999) implemented;
  rk_id : is_token id = true;
  rk_created : Timestamp_parse (ts_text created_at) = Some created_at;
  rk_random : length random = 16%nat ∧ Forall is_u8 random }.

(** The agreed revision is one of the implemented list. *)
Lemma agree_revision caps implemented a :
  agree caps implemented = Some a → ∃ i, i ∈ implemented ∧ ag_revision a = imp_revision i.
Proof.
  intros H. unfold agree in H. pose proof (max_by_major_spec (valid_entries caps implemented)) as Hm.
  rewrite H in Hm. destruct Hm as [Hin _]. unfold valid_entries in Hin.
  destruct (as_object (caps_wire caps)) as [o|]; [|by apply elem_of_nil in Hin].
  apply list_elem_of_omap in Hin as (i & Hi & Hv). exists i. split; [done|].
  unfold valid_entry in Hv. inv_binds. done.
Qed.

Lemma apply_headers_rest h d :
  dr_version (apply_headers h d) = dr_version d ∧ dr_content (apply_headers h d) = dr_content d ∧
  dr_ttl_ms (apply_headers h d) = dr_ttl_ms d.
Proof. destruct h as [[] [] []]; done. Qed.

Lemma sign_envelope_fields {C : Crypto} identity draft random e :
  sign_envelope identity draft random = Some e →
  env_content e = dr_content draft ∧ env_ttl_ms e = dr_ttl_ms draft ∧ env_version e = dr_version draft.
Proof.
  unfold sign_envelope, sign_envelope_with_nonce. destruct (draft_signing_input _ _ _ _ _); [|done].
  by intros [= <-].
Qed.

(** [C4] What the send stage prepares, the receiver takes: an envelope that [prepare_send] built
    for a destination is, at any reading of the receiver's clock, accepted by envelope-stage
    validation at a receiver whose limits honour the destination's declared
    entry, authenticates there against any trusted key set that holds the sending device, and
    passes the delivery checks of a destination session that accepts input and honours the
    entry: none of size, version, part types or [active_inbound] can still refuse it. *)
Theorem prepared_send_accepted {C : Crypto} {HC : CryptoLaws C} (seed principal random : list Z)
    (key : DeviceKey) (requester : option SessionId) (request : SendRequest)
    (presence : SessionId → SessionId → result ErrorCode SessionCapabilities)
    (implemented : list Implemented) (reply : ReplyHeaders) (id : Token) (created_at now : Timestamp)
    (p : PreparedSend) (keys : TrustedKeySet) (limits : EnvelopeLimits) (target : DeliveryTarget) :
  let own := DeviceIdentity_new key principal in
  DeviceKey_from_seed seed = Some key → length seed = 32%nat → is_token principal = true →
  request_ok requester request reply implemented id created_at random →
  prepare_send requester request presence implemented reply own id created_at random = Some (Ok p) →
  ts_entries keys !! tk_key_id (di_entry own) = Some (di_entry own) →
  limits_honour limits (ag_entry (ps_agreed p)) (ag_revision (ps_agreed p)) →
  target_honours target (ag_entry (ps_agreed p)) →
  (∃ m, receive_envelope (env_octets (ps_envelope p)) limits now = Ok m ∧
        authenticate m keys = Ok (mkMessage (ps_envelope p) (Some (identity_principal own)))) ∧
  delivery_checks (ps_envelope p) (Some target) = Ok tt.
Proof.
  intros own Hkey Hseed Hprin [Hfrom Hto Hparts Hreply Hver Hid Hcr [Hrl Hru]] Hp Hk (L1 & L2 & L3) Ht.
  apply prepare_send_Ok in Hp as (from & caps & headers & draft & -> & _ & Hag & Hin & Hacc & Hsz & Hh & Hd & Hsign).
  destruct (agree_revision _ _ _ Hag) as (i & Hi & Hrev). rewrite Forall_forall in Hver. destruct (Hver i Hi) as [V1 V2].
  set (d := apply_headers headers (with_version draft (ag_revision (ps_agreed p)))) in *.
  assert (built_draft d) as Hb.
  { apply apply_headers_built; [by eapply request_headers_ok|].
    apply bd_version; [|by rewrite Hrev..]. apply (bd_new id from (rq_to request) created_at (rq_content request)); try done.
    by apply Hfrom. }
  assert (dr_content draft = rq_content request ∧ dr_ttl_ms draft = None) as [Hc0 Httl0].
  { unfold with_parts in Hd. case_bool_decide; [done|]. by injection Hd as <-. }
  destruct (apply_headers_rest headers (with_version draft (ag_revision (ps_agreed p)))) as (Hv & Hc & Httl).
  fold d in Hv, Hc, Httl. cbn [with_version dr_version dr_content dr_ttl_ms] in Hv, Hc, Httl.
  rewrite Hc0 in Hc. rewrite Httl0 in Httl. destruct (sign_envelope_fields _ _ _ _ Hsign) as (Fc & Ft & _). split.
  - eapply (sign_authenticates seed principal random key d (ps_envelope p) keys limits now); try done.
    + lia.
    + by rewrite Hv.
    + rewrite Hc. apply Forall_forallb, Forall_map in Hacc. eapply Forall_impl; [exact Hacc|].
      intros q Hq. by apply L3.
    + unfold is_expired_at, expiry_unix_nanos. by rewrite Ft, Httl.
  - apply (delivery_checks_pass _ _ (ag_entry (ps_agreed p))); [done|done| |done]. by rewrite Fc, Hc.
Qed.

(** A send from one sample session to another, whose declaration takes text. *)
Definition sample_caps : SessionCapabilities :=
  mkCapabilities (JObject [(EXTENSION_ID_V0, JObject (ce_wire (CapabilitiesEntry_new IMPLEMENTED_VERSION true)))]).

Definition sample_request : SendRequest :=
  mkRequest sample_peer [CText sample_part] None (Some (bs "c1")) None.

Definition sample_prepared : option (result ErrorCode PreparedSend) :=
  prepare_send (C := sample) (Some sample_session) sample_request (λ _ _, Ok sample_caps)
    [mkImplemented EXTENSION_ID_V0 0 IMPLEMENTED_VERSION] ReplyHeaders_default
    (DeviceIdentity_new (C := sample) sample_key (bs "alice")) (bs "m1") sample_time (replicate 16 1).

Lemma prepared_send_accepted_witness :
  match sample_prepared with
  | Some (Ok p) => delivery_checks (ps_envelope p) (Some (mkTarget true true [] None)) = Ok tt
  | _ => False
  end.
Proof.
  assert (match sample_prepared with
          | Some (Ok p) => ag_entry (ps_agreed p) = CapabilitiesEntry_new IMPLEMENTED_VERSION true ∧
                           ag_revision (ps_agreed p) = IMPLEMENTED_VERSION
          | _ => False end) as Ha by (vm_compute; split; reflexivity).
  destruct sample_prepared as [[p|]|] eqn:E; [|destruct Ha|destruct Ha]. destruct Ha as [He Hr].
  apply (prepared_send_accepted (C := sample) (HC := sample_laws) (replicate 32 3) (bs "alice") (replicate 16 1)
    sample_key (Some sample_session) sample_request (λ _ _, Ok sample_caps)
    [mkImplemented EXTENSION_ID_V0 0 IMPLEMENTED_VERSION] ReplyHeaders_default (bs "m1") sample_time sample_time p
    (TrustedKeySet_new sample_identity) EnvelopeLimits_default (mkTarget true true [] None)).
  - vm_compute. reflexivity.
  - reflexivity.
  - vm_compute. reflexivity.
  - constructor.
    + intros from [= <-]. vm_compute. reflexivity.
    + vm_compute. reflexivity.
    + apply Forall_singleton. eapply (built_text (bs "hello")); vm_compute; reflexivity.
    + split; [|split]; discriminate.
    + apply Forall_singleton. simpl. lia.
    + vm_compute. reflexivity.
    + vm_compute. reflexivity.
    + split; [reflexivity|]. apply Forall_replicate. unfold is_u8. lia.
  - exact E.
  - vm_compute. reflexivity.
  - rewrite He, Hr. split; [vm_compute; discriminate|]. split; [apply list_elem_of_here|].
    intros ty Hty. unfold accepts_part_type in Hty. simpl in Hty. rewrite orb_false_r in Hty. by rewrite Hty.
  - rewrite He. split; [reflexivity|]. split; [reflexivity|]. split; [|discriminate].
    intros ty Hty. unfold accepts_part_type in Hty. simpl in Hty. rewrite orb_false_r in Hty. by rewrite Hty.
Defined.
