(* ===== verification/RecordBook.v ===== *)
(** * Record lists in partitions ([core/src/authorization.rs])

    The bounded lists in which the authorization engine keeps the envelopes its sessions sent
    and were handed: partitions of records, indexes of the partitions by size and by expiry,
    and counts of records per partition and sending session. *)

From S2P Require Import Prelude Ordered Ids Envelope Replay Reply.

Definition REPLY_PERIOD_MS : Z := 86400000.
Definition NANOS_PER_MS : Z := 1000000.
Definition MAX_RECORDS_PER_PARTITION : Z := 4096.
Definition MAX_RECORD_PARTITIONS : Z := 4096.
Definition MAX_RECORDS_TOTAL : Z := 262144.

Definition period_end (t : Timestamp) : Z := unix_nanos t + REPLY_PERIOD_MS * NANOS_PER_MS.

Definition within_reply_period (created_at now : Timestamp) : bool :=
  unix_nanos now <? unix_nanos created_at + REPLY_PERIOD_MS * NANOS_PER_MS.

(** The trait [Dated]. *)
Class Dated (R : Type) := { created_at : R → Timestamp; sender : R → SessionId }.

(** ** The two kinds of record *)

Record SentRecord := mkSent {
  sn_id : Token;
  sn_from : SessionId;
  sn_to : SessionId;
  sn_to_key_id : KeyId;
  sn_created_at : Timestamp;
  sn_nonce : option (list Z);
  sn_ttl_ms : option Z }.

Definition SentRecord_of (env : Envelope) (to_key : KeyId) : SentRecord :=
  mkSent (env_id env) (env_from env) (env_to env) to_key (env_created_at env)
    (Some (sm_nonce (env_security env))) (env_ttl_ms env).

Definition handoff_deadline_unix_nanos (r : SentRecord) : Z :=
  let created := unix_nanos (sn_created_at r) in
  let window_end := created + REPLAY_WINDOW_MS * 1000000 in
  match sn_ttl_ms r with
  | Some t => Z.min window_end (created + t * 1000000)
  | None => window_end
  end.

#[export] Instance SentRecord_dated : Dated SentRecord := { created_at := sn_created_at; sender := sn_from }.
#[export] Instance HandOffRecord_dated : Dated HandOffRecord := { created_at := ho_created_at; sender := ho_from }.

(** A container's length as a [usize]. *)
Definition len {A} (l : list A) : Z := Z.of_nat (length l).

Section RecordBook.
Context {K R : Type} `{Countable K} `{Order K} `{Dated R}.

(** ** Counts per partition and sender *)

Record SenderIndex := mkSenders {
  si_enabled : bool;
  si_counts : gmap (K * SessionId) Z;
  si_changes : list (K * SessionId * bool) }.

Definition senders_add (key : K) (s : SessionId) (i : SenderIndex) : SenderIndex :=
  if negb (si_enabled i) then i
  else
    let n := default 0 (si_counts i !! (key, s)) + 1 in
    mkSenders (si_enabled i) (<[ (key, s) := n ]> (si_counts i))
      (if n =? 1 then si_changes i ++ [(key, s, true)] else si_changes i).

Definition senders_remove (key : K) (s : SessionId) (i : SenderIndex) : SenderIndex :=
  match si_counts i !! (key, s) with
  | None => i
  | Some n =>
      let n := n - 1 in
      if n =? 0
      then mkSenders (si_enabled i) (delete (key, s) (si_counts i)) (si_changes i ++ [(key, s, false)])
      else mkSenders (si_enabled i) (<[ (key, s) := n ]> (si_counts i)) (si_changes i)
  end.

(** ** The book *)

Record Partition := mkPartition { pt_records : list R; pt_ends : Z }.

Record RecordBook := mkBook {
  parts : gmap K Partition;
  by_size : gset (Z * K);
  by_end : gset (Z * K);
  senders : SenderIndex;
  total : Z;
  max_partitions : Z }.

Definition with_max_partitions (max_partitions : Z) (index_senders : bool) : RecordBook :=
  mkBook ∅ ∅ ∅ (mkSenders index_senders ∅ []) 0 max_partitions.

Definition RecordBook_new (index_senders : bool) : RecordBook :=
  with_max_partitions MAX_RECORD_PARTITIONS index_senders.

Definition holds_sender (b : RecordBook) (key : K) (s : SessionId) : bool :=
  is_some (si_counts (senders b) !! (key, s)).

Definition set_senders (i : SenderIndex) (b : RecordBook) : RecordBook :=
  mkBook (parts b) (by_size b) (by_end b) i (total b) (max_partitions b).

Definition take_sender_changes (b : RecordBook) : list (K * SessionId * bool) * RecordBook :=
  (si_changes (senders b),
   set_senders (mkSenders (si_enabled (senders b)) (si_counts (senders b)) []) b).

Definition forget_partition (key : K) (n ends : Z) (b : RecordBook) : RecordBook :=
  mkBook (parts b) (by_size b ∖ {[ (n, key) ]}) (by_end b ∖ {[ (ends, key) ]}) (senders b)
    (total b) (max_partitions b).

Definition resized (key : K) (before after : Z) (b : RecordBook) : RecordBook :=
  if before =? after then b
  else
    let total := total b - (before - after) in
    let by_size := by_size b ∖ {[ (before, key) ]} in
    if 0 <? after
    then mkBook (parts b) (by_size ∪ {[ (after, key) ]}) (by_end b) (senders b) total (max_partitions b)
    else
      match parts b !! key with
      | Some p => mkBook (delete key (parts b)) by_size (by_end b ∖ {[ (pt_ends p, key) ]}) (senders b)
                    total (max_partitions b)
      | None => mkBook (parts b) by_size (by_end b) (senders b) total (max_partitions b)
      end.

(** The records of partition [key] replaced in place. *)
Definition set_records (key : K) (rs : list R) (ends : Z) (b : RecordBook) : RecordBook :=
  mkBook (<[ key := mkPartition rs ends ]> (parts b)) (by_size b) (by_end b) (senders b)
    (total b) (max_partitions b).

Definition pop_front (key : K) (b : RecordBook) : RecordBook :=
  match parts b !! key with
  | None => b
  | Some p =>
      match pt_records p with
      | [] => b
      | r :: rs =>
          let n := len (pt_records p) in
          let b := set_records key rs (pt_ends p) b in
          let b := set_senders (senders_remove key (sender r) (senders b)) b in
          resized key n (n - 1) b
      end
  end.

Definition drop_partition (key : K) (b : RecordBook) : RecordBook :=
  match parts b !! key with
  | None => b
  | Some p =>
      let n := len (pt_records p) in
      let i := foldl (λ i r, senders_remove key (sender r) i) (senders b) (pt_records p) in
      forget_partition key n (pt_ends p)
        (mkBook (delete key (parts b)) (by_size b) (by_end b) i (total b - n) (max_partitions b))
  end.

(** The loop of [sweep]; each pass takes an entry off [by_end], so its size is fuel enough. *)
Fixpoint sweep_loop (fuel : nat) (now : Z) (b : RecordBook) : RecordBook :=
  match fuel with
  | O => b
  | S fuel =>
      match first (by_end b) with
      | Some (ends, key) =>
          if ends <=? now
          then sweep_loop fuel now
                 (drop_partition key
                    (mkBook (parts b) (by_size b) (by_end b ∖ {[ (ends, key) ]}) (senders b)
                       (total b) (max_partitions b)))
          else b
      | None => b
      end
  end.

Definition sweep (now : Z) (b : RecordBook) : RecordBook := sweep_loop (size (by_end b)) now b.

(** The records of partition [key], none when there is no such partition. *)
Definition partition (b : RecordBook) (key : K) : list R :=
  match parts b !! key with Some p => pt_records p | None => [] end.

(** [push]'s loop over the partition's own expired records, at most all of them. *)
Fixpoint pop_expired (fuel : nat) (key : K) (now : Z) (b : RecordBook) : RecordBook :=
  match fuel with
  | O => b
  | S fuel =>
      match head (partition b key) with
      | Some f => if period_end (created_at f) <=? now then pop_expired fuel key now (pop_front key b) else b
      | None => b
      end
  end.

(** The end of [push]: the record goes to the back of its partition. *)
Definition push_back (key : K) (r : R) (b : RecordBook) : RecordBook :=
  let ends := period_end (created_at r) in
  let senders := senders_add key (sender r) (senders b) in
  let p := default (mkPartition [] ends) (parts b !! key) in
  let n := len (pt_records p) in
  let before := pt_ends p in
  let after := Z.max before ends in
  let parts := <[ key := mkPartition (pt_records p ++ [r]) after ]> (parts b) in
  let '(by_size, by_end) :=
    if 0 <? n
    then (by_size b ∖ {[ (n, key) ]},
          if negb (after =? before) then (by_end b ∖ {[ (before, key) ]}) ∪ {[ (after, key) ]} else by_end b)
    else (by_size b, by_end b ∪ {[ (after, key) ]}) in
  mkBook parts (by_size ∪ {[ (n + 1, key) ]}) by_end senders (total b + 1) (max_partitions b).

Definition push (key : K) (r : R) (now : Timestamp) (b : RecordBook) : bool * RecordBook :=
  let now := unix_nanos now in
  let b := sweep now b in
  if negb (is_some (parts b !! key)) && (max_partitions b <=? Z.of_nat (size (parts b)))
  then (false, b)
  else
    let b := pop_expired (length (partition b key)) key now b in
    let b := if MAX_RECORDS_PER_PARTITION <=? len (partition b key) then pop_front key b else b in
    let b := if MAX_RECORDS_TOTAL <=? total b
             then match last (by_size b) with Some (_, largest) => pop_front largest b | None => b end
             else b in
    (true, push_back key r b).

Definition iter (b : RecordBook) : list R := mjoin (map pt_records (values (parts b))).

(** [VecDeque::retain] with the sender counts of what goes. *)
Definition retain_partition (keep : R → bool) (key : K) (b : RecordBook) : RecordBook :=
  match parts b !! key with
  | None => b
  | Some p =>
      let before := len (pt_records p) in
      let i := foldl (λ i r, if keep r then i else senders_remove key (sender r) i) (senders b) (pt_records p) in
      let kept := List.filter keep (pt_records p) in
      resized key before (len kept) (set_senders i (set_records key kept (pt_ends p) b))
  end.

Definition retain (keep : R → bool) (b : RecordBook) : RecordBook :=
  foldl (λ b k, retain_partition keep k b) b (keys (parts b)).

Definition drop_partitions (matches : K → bool) (b : RecordBook) : RecordBook :=
  foldl (λ b k, drop_partition k b) b (List.filter matches (keys (parts b))).

(** The position of the first record that matches, as the records before it and after it. *)
Fixpoint split_first (matches : R → bool) (rs : list R) : option (list R * R * list R) :=
  match rs with
  | [] => None
  | r :: rs =>
      if matches r then Some ([], r, rs)
      else match split_first matches rs with
           | Some (pre, x, post) => Some (r :: pre, x, post)
           | None => None
           end
  end.

Definition remove_first (key : K) (matches : R → bool) (b : RecordBook) : bool * RecordBook :=
  match parts b !! key with
  | None => (false, b)
  | Some p =>
      match split_first matches (pt_records p) with
      | None => (false, b)
      | Some (pre, r, post) =>
          let n := len (pt_records p) in
          let b := set_records key (pre ++ post) (pt_ends p) b in
          let b := set_senders (senders_remove key (sender r) (senders b)) b in
          (true, resized key n (n - 1) b)
      end
  end.
End RecordBook.
Arguments SenderIndex K {_ _} : assert.
Arguments Partition R : assert, clear implicits.
Arguments RecordBook K R {_ _} : assert.

(** ** Record lists: invariant, bounds and eviction

    A book's indexes, total and sender counts always agree with its partitions; the number of
    partitions, of records in one and of records in all stay within their bounds; and what a
    push forgets is what its partition may forget. *)

Section Facts.
Context {K R : Type} `{Countable K} `{OrderLaws K} `{Dated R}.
Implicit Types (m : gmap K (Partition R)) (k : K) (i : SenderIndex K) (p : Partition R) (f : Partition R → Z).

(** ** The indexes as functions of the partitions *)

Definition index (f : Partition R → Z) (m : gmap K (Partition R)) : gset (Z * K) :=
  map_to_set (λ k p, (f p, k)) m.

Lemma elem_of_index f m n k : (n, k) ∈ index f m ↔ ∃ p, m !! k = Some p ∧ n = f p.
Proof.
  unfold index. rewrite elem_of_map_to_set. split.
  - intros (k' & p & Hp & [= <- <-]). eauto.
  - intros (p & Hp & ->). eauto.
Qed.

Lemma index_ext f m (s : gset (Z * K)) :
  (∀ n k, (n, k) ∈ s ↔ ∃ p, m !! k = Some p ∧ n = f p) → s = index f m.
Proof. intros Hs. apply set_eq. intros [n k]. by rewrite Hs, elem_of_index. Qed.

Lemma index_delete f m k p :
  m !! k = Some p → index f m ∖ {[ (f p, k) ]} = index f (delete k m).
Proof.
  intros Hk. apply index_ext. intros n k'. rewrite elem_of_difference, elem_of_index, elem_of_singleton.
  setoid_rewrite lookup_delete_Some. naive_solver.
Qed.

Lemma index_insert f m k p :
  m !! k = None → index f m ∪ {[ (f p, k) ]} = index f (<[ k := p ]> m).
Proof.
  intros Hk. apply index_ext. intros n k'. rewrite elem_of_union, elem_of_index, elem_of_singleton.
  setoid_rewrite lookup_insert_Some. destruct (decide (k = k')); naive_solver.
Qed.

Lemma index_update f m k p p' :
  m !! k = Some p → index f m ∖ {[ (f p, k) ]} ∪ {[ (f p', k) ]} = index f (<[ k := p' ]> m).
Proof.
  intros Hk. rewrite (index_delete f m k p Hk), index_insert by apply lookup_delete_eq.
  by rewrite insert_delete_eq.
Qed.

Lemma index_same f m k p p' :
  m !! k = Some p → f p = f p' → index f m = index f (<[ k := p' ]> m).
Proof.
  intros Hk Hf. apply index_ext. intros n k'. rewrite elem_of_index.
  setoid_rewrite lookup_insert_Some. destruct (decide (k = k')); naive_solver.
Qed.

Definition size_of (p : Partition R) : Z := len (pt_records p).

Definition total_of (m : gmap K (Partition R)) : Z := map_fold (λ _ p n, size_of p + n) 0 m.

Lemma total_insert m k p : m !! k = None → total_of (<[ k := p ]> m) = size_of p + total_of m.
Proof. intros Hk. unfold total_of. rewrite map_fold_insert_L; [done|intros; lia|done]. Qed.

Lemma total_delete m k p : m !! k = Some p → total_of m = size_of p + total_of (delete k m).
Proof.
  intros Hk. rewrite <- (insert_delete_id m k p Hk) at 1. apply total_insert, lookup_delete_eq.
Qed.

Lemma total_update m k p p' :
  m !! k = Some p → total_of (<[ k := p' ]> m) = total_of m - size_of p + size_of p'.
Proof.
  intros Hk. rewrite (total_delete m k p Hk), <- (insert_delete_eq m k p').
  rewrite total_insert by apply lookup_delete_eq. lia.
Qed.

Lemma total_nonneg m : 0 ≤ total_of m.
Proof.
  unfold total_of. apply (map_fold_weak_ind (λ n m, 0 ≤ n)); [lia|].
  intros k p m' n _ Hn. unfold size_of, len. lia.
Qed.

(** ** Sender counts *)

Definition records_at (m : gmap K (Partition R)) (k : K) : list R :=
  match m !! k with Some p => pt_records p | None => [] end.

Definition sent_by (s : SessionId) (rs : list R) : Z :=
  len (List.filter (λ r, beq (sender r) s) rs).

Definition count (n : Z) : option Z := if n =? 0 then None else Some n.

Definition exact (i : SenderIndex K) (m : gmap K (Partition R)) : Prop :=
  if si_enabled i then ∀ k s, si_counts i !! (k, s) = count (sent_by s (records_at m k))
  else si_counts i = ∅.

(** A partition's records replaced, the partition dropped when none is left. *)
Definition put (k : K) (rs : list R) (ends : Z) (m : gmap K (Partition R)) : gmap K (Partition R) :=
  match rs with [] => delete k m | _ => <[ k := mkPartition rs ends ]> m end.

#[local] Arguments put : simpl never.

Lemma records_put m k rs ends k' :
  records_at (put k rs ends m) k' = if decide (k' = k) then rs else records_at m k'.
Proof.
  unfold records_at, put. destruct (decide (k' = k)) as [->|Hne].
  - destruct rs; [by rewrite lookup_delete_eq|by rewrite lookup_insert_eq].
  - destruct rs; [by rewrite lookup_delete_ne|by rewrite lookup_insert_ne].
Qed.

Lemma sent_by_nonneg s rs : 0 ≤ sent_by s rs.
Proof. unfold sent_by, len. lia. Qed.

Lemma sent_by_cons s r rs :
  sent_by s (r :: rs) = (if beq (sender r) s then 1 else 0) + sent_by s rs.
Proof. unfold sent_by, len. simpl. destruct (beq _ _); simpl length; lia. Qed.

Lemma sent_by_app s a b : sent_by s (a ++ b) = sent_by s a + sent_by s b.
Proof. unfold sent_by, len. rewrite List.filter_app, length_app. lia. Qed.

Lemma sent_by_perm s a b : a ≡ₚ b → sent_by s a = sent_by s b.
Proof.
  induction 1; rewrite ?sent_by_cons; try lia. all: repeat case_match; lia.
Qed.

Lemma sent_by_pos s rs : 0 < sent_by s rs ↔ ∃ r, r ∈ rs ∧ sender r = s.
Proof.
  induction rs as [|r rs IH]; [unfold sent_by, len; simpl|rewrite sent_by_cons].
  - split; [lia|]. intros (r & Hr & _). by apply elem_of_nil in Hr.
  - pose proof (sent_by_nonneg s rs). destruct (beq (sender r) s) eqn:E.
    + apply beq_true in E. split; [|lia]. intros _. exists r. split; [left|done].
    + rewrite Z.add_0_l, IH. split; intros (x & Hx & Hs).
      * exists x. split; [by right|done].
      * apply elem_of_cons in Hx as [->|Hx]; [|eauto]. rewrite Hs, beq_refl in E. done.
Qed.

Lemma count_lookup (c : option Z) n : 0 ≤ n → c = count n → default 0 c = n.
Proof. unfold count. intros Hn ->. destruct (n =? 0) eqn:E; simpl; bool_hyps; lia. Qed.

Lemma senders_remove_enabled k s (i : SenderIndex K) : si_enabled (senders_remove k s i) = si_enabled i.
Proof. unfold senders_remove. by repeat case_match. Qed.

Lemma senders_add_enabled k s (i : SenderIndex K) : si_enabled (senders_add k s i) = si_enabled i.
Proof. unfold senders_add. by repeat case_match. Qed.

(** Taking one record out of a partition and its sender off the counts. *)
Lemma exact_remove i m k p r rs ends :
  exact i m → m !! k = Some p → pt_records p ≡ₚ r :: rs →
  exact (senders_remove k (sender r) i) (put k rs ends m).
Proof.
  intros Hi Hk Hp. unfold exact in *. rewrite senders_remove_enabled.
  destruct (si_enabled i) eqn:En; [|unfold senders_remove; by rewrite Hi, lookup_empty].
  intros k' s'. rewrite records_put. unfold senders_remove.
  assert (sent_by (sender r) (records_at m k) = 1 + sent_by (sender r) rs) as Hr.
  { unfold records_at. rewrite Hk, (sent_by_perm _ _ _ Hp), sent_by_cons, beq_refl. done. }
  pose proof (sent_by_nonneg (sender r) rs) as Hz.
  rewrite (Hi k (sender r)), Hr. unfold count at 1. rewrite (proj2 (Z.eqb_neq _ 0)) by lia.
  assert (∀ s, s ≠ sender r → sent_by s (records_at m k) = sent_by s rs) as Ho.
  { intros s Hs. unfold records_at. rewrite Hk, (sent_by_perm _ _ _ Hp), sent_by_cons.
    destruct (beq (sender r) s) eqn:E; [|lia]. apply beq_true in E. by subst. }
  destruct (decide ((k', s') = (k, sender r))) as [[= -> ->]|Hne].
  - rewrite decide_True by done. unfold count. replace (1 + _ - 1) with (sent_by (sender r) rs) by lia.
    destruct (_ =? 0) eqn:E; simpl; [by rewrite lookup_delete_eq|by rewrite lookup_insert_eq].
  - transitivity (si_counts i !! (k', s')).
    { destruct (_ =? 0); simpl; [by rewrite lookup_delete_ne by congruence|by rewrite lookup_insert_ne by congruence]. }
    rewrite Hi. destruct (decide (k' = k)) as [->|]; [|done]. rewrite Ho; [done|]. congruence.
Qed.

Lemma put_put k a b e e' (m : gmap K (Partition R)) : put k a e (put k b e' m) = put k a e m.
Proof.
  unfold put. destruct a, b; rewrite ?delete_delete_eq, ?delete_insert_eq, ?insert_delete_eq, ?insert_insert_eq; done.
Qed.

Lemma put_same k p (m : gmap K (Partition R)) :
  m !! k = Some p → pt_records p ≠ [] → put k (pt_records p) (pt_ends p) m = m.
Proof. intros Hk Hp. unfold put. destruct p as [[|r rs] e]; simpl in *; [done|]. by apply insert_id. Qed.

Lemma exact_perm i m k p rs ends :
  exact i m → m !! k = Some p → pt_records p ≡ₚ rs → exact i (put k rs ends m).
Proof.
  intros Hi Hk Hp. unfold exact in *. destruct (si_enabled i); [|done].
  intros k' s. rewrite records_put, Hi. destruct (decide (k' = k)) as [->|]; [|done].
  unfold records_at. by rewrite Hk, (sent_by_perm _ _ _ Hp).
Qed.

Lemma put_lookup k rs e (m : gmap K (Partition R)) :
  rs ≠ [] → put k rs e m !! k = Some (mkPartition rs e).
Proof. intros Hr. unfold put. destruct rs; [done|]. by rewrite lookup_insert_eq. Qed.

(** Taking several out. *)
Lemma exact_removes i m k p out rs ends :
  exact i m → m !! k = Some p → pt_records p ≡ₚ out ++ rs →
  exact (foldl (λ i r, senders_remove k (sender r) i) i out) (put k rs ends m).
Proof.
  revert i m p. induction out as [|r out IH]; intros i m p Hi Hk Hp; simpl.
  - by eapply exact_perm.
  - destruct (decide (out ++ rs = [])) as [Hnil|Hne].
    + apply app_nil in Hnil as [-> ->]. simpl. by eapply exact_remove.
    + rewrite <- (put_put k rs (out ++ rs) ends ends m).
      eapply (IH _ _ (mkPartition (out ++ rs) ends)); [by eapply exact_remove| |done].
      by apply put_lookup.
Qed.

Lemma foldl_unless {A B} (keep : A → bool) (f : B → A → B) b l :
  foldl (λ b a, if keep a then b else f b a) b l = foldl f b (List.filter (λ a, negb (keep a)) l).
Proof. revert b. induction l as [|a l IH]; intros b; simpl; [done|]. destruct (keep a); simpl; apply IH. Qed.

Lemma filter_split_perm {A} (keep : A → bool) l :
  l ≡ₚ List.filter (λ a, negb (keep a)) l ++ List.filter keep l.
Proof.
  induction l as [|a l IH]; simpl; [done|]. destruct (keep a); simpl; rewrite IH at 1; [|done].
  apply Permutation_middle.
Qed.

Lemma exact_add i m k r :
  exact i m → exact (senders_add k (sender r) i)
    (<[ k := mkPartition (records_at m k ++ [r]) 0 ]> m).
Proof.
  intros Hi. unfold exact in *. rewrite senders_add_enabled. unfold senders_add.
  destruct (si_enabled i) eqn:En; simpl; [|done].
  intros k' s'. assert (records_at (<[ k := mkPartition (records_at m k ++ [r]) 0 ]> m) k' =
    if decide (k' = k) then records_at m k ++ [r] else records_at m k') as ->.
  { rewrite <- records_put with (ends := 0). unfold put. by destruct (records_at m k). }
  rewrite (count_lookup _ _ (sent_by_nonneg _ _) (Hi k (sender r))).
  pose proof (sent_by_nonneg (sender r) (records_at m k)) as Hz.
  destruct (decide ((k', s') = (k, sender r))) as [[= -> ->]|Hne].
  - rewrite lookup_insert_eq, decide_True, sent_by_app, sent_by_cons, beq_refl by done.
    unfold count. rewrite (proj2 (Z.eqb_neq _ 0)); [|unfold sent_by, len in *; simpl; lia].
    f_equal; unfold sent_by, len; simpl; lia.
  - rewrite lookup_insert_ne, Hi by congruence. destruct (decide (k' = k)) as [->|]; [|done].
    rewrite sent_by_app, sent_by_cons. destruct (beq (sender r) s') eqn:E.
    { apply beq_true in E. congruence. }
    f_equal; unfold sent_by, len; simpl; lia.
Qed.

(** [exact] reads only the records. *)
Lemma exact_ext i m m' : (∀ k, records_at m k = records_at m' k) → exact i m → exact i m'.
Proof. unfold exact. intros Hm. destruct (si_enabled i); [|done]. intros Hi k s. by rewrite Hi, Hm. Qed.

(** ** The invariant *)

Record book_inv (b : RecordBook K R) : Prop := {
  bi_parts : map_Forall (λ _ p, 0 < size_of p ≤ MAX_RECORDS_PER_PARTITION ∧
    Forall (λ r, period_end (created_at r) ≤ pt_ends p) (pt_records p)) (parts b);
  bi_size : by_size b = index size_of (parts b);
  bi_end : by_end b = index pt_ends (parts b);
  bi_total : total b = total_of (parts b);
  bi_senders : exact (senders b) (parts b) }.

(** What an operation leaves: its partitions and counts, with the invariant and the cap. *)
Definition became (b b' : RecordBook K R) (m : gmap K (Partition R)) (i : SenderIndex K) : Prop :=
  parts b' = m ∧ senders b' = i ∧ max_partitions b' = max_partitions b ∧ book_inv b'.

Lemma size_of_nil p : size_of p = 0 → pt_records p = [].
Proof. unfold size_of, len. destruct (pt_records p); simpl; [done|lia]. Qed.

Lemma parts_put m k p rs :
  map_Forall (λ _ p, 0 < size_of p ≤ MAX_RECORDS_PER_PARTITION ∧
    Forall (λ r, period_end (created_at r) ≤ pt_ends p) (pt_records p)) m →
  m !! k = Some p → rs ⊆ pt_records p → len rs ≤ size_of p →
  map_Forall (λ _ p, 0 < size_of p ≤ MAX_RECORDS_PER_PARTITION ∧
    Forall (λ r, period_end (created_at r) ≤ pt_ends p) (pt_records p)) (put k rs (pt_ends p) m).
Proof.
  intros Hm Hk Hsub Hlen. unfold put. destruct (Hm _ _ Hk) as [Hs Hf]. destruct rs as [|r rs].
  - by apply map_Forall_delete.
  - apply map_Forall_insert_2; [|done]. simpl. split; [unfold size_of, len in *; simpl in *; lia|].
    rewrite Forall_forall in Hf |- *. auto.
Qed.

(** The bookkeeping after a partition's records have been cut down in place. *)
Lemma resized_became b k p rs i :
  book_inv b → parts b !! k = Some p → rs ⊆ pt_records p → len rs ≤ size_of p →
  exact i (put k rs (pt_ends p) (parts b)) →
  became b (resized k (size_of p) (len rs) (set_senders i (set_records k rs (pt_ends p) b)))
    (put k rs (pt_ends p) (parts b)) i.
Proof.
  intros Hb Hk Hsub Hlen Hi. pose proof (parts_put _ _ _ _ (bi_parts b Hb) Hk Hsub Hlen) as Hparts.
  destruct (bi_parts b Hb _ _ Hk) as [Hpos _].
  unfold resized, set_senders, set_records. cbn [parts by_size by_end senders total max_partitions].
  rewrite lookup_insert_eq. cbn [pt_ends]. rewrite (bi_size b Hb), (bi_end b Hb), (bi_total b Hb).
  unfold became. destruct (size_of p =? len rs) eqn:E; bool_hyps.
  - assert (put k rs (pt_ends p) (parts b) = <[k:=mkPartition rs (pt_ends p)]> (parts b)) as Hput.
    { unfold put. destruct rs; [|done]. unfold len in E. simpl in E. lia. }
    rewrite Hput in Hparts, Hi |- *. split_and!; [done..|]. split; cbn [parts by_size by_end senders total].
    + done.
    + by apply (index_same size_of _ _ p).
    + by apply (index_same pt_ends _ _ p).
    + rewrite (total_update _ _ p _ Hk). unfold size_of at 2. simpl. lia.
    + done.
  - destruct (0 <? len rs) eqn:E0; bool_hyps.
    + assert (put k rs (pt_ends p) (parts b) = <[k:=mkPartition rs (pt_ends p)]> (parts b)) as Hput.
      { unfold put. destruct rs; [|done]. unfold len in E0. simpl in E0. lia. }
      rewrite Hput in Hparts, Hi |- *. split_and!; [done..|]. split; cbn [parts by_size by_end senders total].
      * done.
      * by apply (index_update size_of _ _ p (mkPartition rs (pt_ends p))).
      * by apply (index_same pt_ends _ _ p).
      * rewrite (total_update _ _ p _ Hk). unfold size_of at 3. simpl. lia.
      * done.
    + assert (rs = []) as -> by (destruct rs; [done|unfold len in E0; simpl in E0; lia]).
      unfold put in *. split_and!; [by apply delete_insert_eq|done..|].
      split; cbn [parts by_size by_end senders total]; rewrite ?delete_insert_eq.
      * done.
      * by apply (index_delete size_of).
      * by apply (index_delete pt_ends).
      * rewrite (total_delete _ _ p Hk). unfold len. simpl. lia.
      * done.
Qed.

Lemma pop_front_became b k p r rs :
  book_inv b → parts b !! k = Some p → pt_records p = r :: rs →
  became b (pop_front k b) (put k rs (pt_ends p) (parts b)) (senders_remove k (sender r) (senders b)).
Proof.
  intros Hb Hk Hp. unfold pop_front. rewrite Hk, Hp. cbn [senders].
  replace (len (r :: rs)) with (size_of p) by (unfold size_of; by rewrite Hp).
  replace (size_of p - 1) with (len rs) by (unfold size_of, len; rewrite Hp; simpl; lia).
  apply resized_became; [done|done|rewrite Hp; by right| |].
  - unfold size_of. rewrite Hp. unfold len. simpl. lia.
  - eapply exact_remove; [apply Hb|done|by rewrite Hp].
Qed.

Lemma retain_partition_became keep b k p :
  book_inv b → parts b !! k = Some p →
  became b (retain_partition keep k b) (put k (List.filter keep (pt_records p)) (pt_ends p) (parts b))
    (foldl (λ i r, senders_remove k (sender r) i) (senders b)
       (List.filter (λ r, negb (keep r)) (pt_records p))).
Proof.
  intros Hb Hk. unfold retain_partition. rewrite Hk, foldl_unless.
  apply resized_became; [done|done| | |].
  - intros r Hr. by apply list_elem_of_In, filter_In in Hr as [Hr%list_elem_of_In _].
  - unfold size_of, len. pose proof (filter_length_le keep (pt_records p)). lia.
  - eapply exact_removes; [apply Hb|done|apply filter_split_perm].
Qed.

Lemma drop_partition_became b k p :
  book_inv b → parts b !! k = Some p →
  became b (drop_partition k b) (delete k (parts b))
    (foldl (λ i r, senders_remove k (sender r) i) (senders b) (pt_records p)).
Proof.
  intros Hb Hk. unfold drop_partition, forget_partition. rewrite Hk.
  cbn [parts by_size by_end senders total max_partitions]. split_and!; [done..|].
  split; cbn [parts by_size by_end senders total].
  - apply map_Forall_delete, Hb.
  - rewrite (bi_size b Hb). by apply (index_delete size_of).
  - rewrite (bi_end b Hb). by apply (index_delete pt_ends).
  - rewrite (bi_total b Hb), (total_delete _ _ p Hk). unfold size_of. lia.
  - apply (exact_removes _ _ _ p _ [] 0); [apply Hb|done|by rewrite app_nil_r].
Qed.

(** ** Every operation but a push takes records out

    [P] is what the partition of a record says of its sender; the sender counts move by
    steps on such pairs only. *)

Inductive sender_step (P : K → SessionId → Prop) (i : SenderIndex K) : SenderIndex K → Prop :=
| step_add k s : P k s → sender_step P i (senders_add k s i)
| step_remove k s : P k s → sender_step P i (senders_remove k s i).

Definition filed (P : K → SessionId → Prop) (b : RecordBook K R) : Prop :=
  ∀ k r, r ∈ records_at (parts b) k → P k (sender r).

Record shrinks (P : K → SessionId → Prop) (b b' : RecordBook K R) : Prop := {
  sh_inv : book_inv b → book_inv b';
  sh_max : max_partitions b' = max_partitions b;
  sh_steps : book_inv b → filed P b → rtc (sender_step P) (senders b) (senders b');
  sh_records : book_inv b → ∀ k, records_at (parts b') k `sublist_of` records_at (parts b) k }.

Lemma filed_sublist P b b' :
  (∀ k, records_at (parts b') k `sublist_of` records_at (parts b) k) → filed P b → filed P b'.
Proof. intros Hs Hf k r Hr. apply Hf. by eapply elem_of_submseteq, sublist_submseteq, Hs. Qed.

#[global] Instance shrinks_preorder P : PreOrder (shrinks P).
Proof.
  split.
  - intros b. split; [done|done|by constructor|done].
  - intros b1 b2 b3 [I1 M1 S1 R1] [I2 M2 S2 R2]. split; [auto|congruence| |].
    + intros Hb Hf. transitivity (senders b2); [auto|]. apply S2; [auto|]. apply (filed_sublist P b1 b2); auto.
    + intros Hb k. transitivity (records_at (parts b2) k); auto.
Qed.

Lemma removes_steps P k i out :
  Forall (λ r, P k (sender r)) out →
  rtc (sender_step P) i (foldl (λ i r, senders_remove k (sender r) i) i out).
Proof.
  intros Hout. revert i. induction Hout as [|r out Hr Hout IH]; intros i; simpl; [done|].
  eapply rtc_l; [by apply step_remove|apply IH].
Qed.

Lemma records_parts b k p : parts b !! k = Some p → records_at (parts b) k = pt_records p.
Proof. unfold records_at. by intros ->. Qed.

(** A partition cut down to a sublist of its records, the rest taken off the counts. *)
Lemma became_shrinks P b b' k p out rs :
  parts b !! k = Some p → rs `sublist_of` pt_records p → (∀ r, r ∈ out → r ∈ pt_records p) →
  (max_partitions b' = max_partitions b) →
  (book_inv b → became b b' (put k rs (pt_ends p) (parts b))
     (foldl (λ i r, senders_remove k (sender r) i) (senders b) out)) →
  shrinks P b b'.
Proof.
  intros Hk Hrs Hout Hmax Hb'. split; [by intros Hb; apply Hb'|done| |].
  - intros Hb Hf. destruct (Hb' Hb) as (_ & -> & _). apply removes_steps, Forall_forall.
    intros r Hr. apply Hf. rewrite (records_parts b k p Hk). auto.
  - intros Hb k'. destruct (Hb' Hb) as (-> & _). rewrite records_put.
    destruct (decide (k' = k)) as [->|]; [|done]. by rewrite (records_parts b k p Hk).
Qed.

Lemma resized_max k x y (b : RecordBook K R) : max_partitions (resized k x y b) = max_partitions b.
Proof. unfold resized. by repeat case_match. Qed.

Lemma pop_front_shrinks P k b : shrinks P b (pop_front k b).
Proof.
  destruct (parts b !! k) as [p|] eqn:Hk; [|unfold pop_front; by rewrite Hk].
  destruct (pt_records p) as [|r rs] eqn:Hp; [unfold pop_front; by rewrite Hk, Hp|].
  apply (became_shrinks P b _ k p [r] rs); [done|rewrite Hp; by constructor| | |].
  - intros x Hx. rewrite Hp. apply list_elem_of_singleton in Hx as ->. left.
  - unfold pop_front. rewrite Hk, Hp. by rewrite resized_max.
  - intros Hb. by apply pop_front_became.
Qed.

Lemma retain_partition_shrinks P keep k b : shrinks P b (retain_partition keep k b).
Proof.
  destruct (parts b !! k) as [p|] eqn:Hk; [|unfold retain_partition; by rewrite Hk].
  apply (became_shrinks P b _ k p (List.filter (λ r, negb (keep r)) (pt_records p)) (List.filter keep (pt_records p)));
    [done|apply filter_sublist| | |].
  - intros r Hr. by apply list_elem_of_In, filter_In in Hr as [Hr%list_elem_of_In _].
  - unfold retain_partition. rewrite Hk. by rewrite resized_max.
  - intros Hb. by apply retain_partition_became.
Qed.

Lemma drop_partition_shrinks P k b : shrinks P b (drop_partition k b).
Proof.
  destruct (parts b !! k) as [p|] eqn:Hk; [|unfold drop_partition; by rewrite Hk].
  apply (became_shrinks P b _ k p (pt_records p) []); [done|apply sublist_nil_l|done| |].
  - unfold drop_partition. by rewrite Hk.
  - intros Hb. by apply drop_partition_became.
Qed.

Lemma fold_shrinks {A} P (f : A → RecordBook K R → RecordBook K R) l b :
  (∀ a b, shrinks P b (f a b)) → shrinks P b (foldl (λ b a, f a b) b l).
Proof.
  intros Hf. revert b. induction l as [|a l IH]; intros b; simpl; [done|].
  transitivity (f a b); [apply Hf|apply IH].
Qed.

Lemma retain_shrinks P keep b : shrinks P b (retain keep b).
Proof. unfold retain. apply (fold_shrinks P (λ k b, retain_partition keep k b)). intros. apply retain_partition_shrinks. Qed.

Lemma drop_partitions_shrinks P matches b : shrinks P b (drop_partitions matches b).
Proof. apply (fold_shrinks P (λ k b, drop_partition k b)). intros. apply drop_partition_shrinks. Qed.

Lemma split_first_Some (f : R → bool) (rs : list R) pre r post :
  split_first f rs = Some (pre, r, post) → rs = pre ++ r :: post ∧ f r = true ∧ Forall (λ x, f x = false) pre.
Proof.
  revert pre. induction rs as [|x rs IH]; intros pre; simpl; [done|].
  destruct (f x) eqn:E; [by intros [= <- <- <-]|]. case_match; [|done]. repeat case_match; simplify_eq.
  intros [= <- <- <-]. destruct (IH _ eq_refl) as (-> & ? & ?). split_and!; auto.
Qed.

Lemma remove_first_shrinks P k (f : R → bool) b : shrinks P b (remove_first k f b).2.
Proof.
  unfold remove_first. destruct (parts b !! k) as [p|] eqn:Hk; [|done].
  destruct (split_first f (pt_records p)) as [[[pre r] post]|] eqn:Hs; [|done]. cbn [snd].
  apply split_first_Some in Hs as (Hp & _).
  apply (became_shrinks P b _ k p [r] (pre ++ post)); [done| | |by rewrite resized_max|].
  - rewrite Hp. apply sublist_app; [done|]. by constructor.
  - intros x Hx. apply list_elem_of_singleton in Hx as ->. rewrite Hp. set_solver.
  - intros Hb. cbn [senders set_records]. change (len (pt_records p)) with (size_of p).
    replace (size_of p - 1) with (len (pre ++ post))
      by (unfold size_of, len; rewrite Hp, !length_app; simpl; lia).
    apply resized_became; [done|done|rewrite Hp; set_solver| |].
    + unfold size_of, len. rewrite Hp, !length_app. simpl. lia.
    + simpl. eapply exact_remove; [apply Hb|done|]. rewrite Hp. symmetry. apply Permutation_middle.
Qed.

(** ** The sweep *)

Definition live (now : Z) : gmap K (Partition R) → gmap K (Partition R) :=
  filter (λ x, now < pt_ends x.2).

(** [by_end] without the entry the loop took off first. *)
Lemma drop_partition_taken b k p :
  book_inv b → parts b !! k = Some p →
  drop_partition k (mkBook (parts b) (by_size b) (by_end b ∖ {[ (pt_ends p, k) ]}) (senders b)
    (total b) (max_partitions b)) = drop_partition k b.
Proof.
  intros Hb Hk. unfold drop_partition, forget_partition. cbn [parts]. rewrite Hk.
  cbn [parts by_size by_end senders total max_partitions]. f_equal. set_solver.
Qed.

Lemma live_delete now m k p :
  m !! k = Some p → pt_ends p ≤ now → live now (delete k m) = live now m.
Proof.
  intros Hk Hp. unfold live. rewrite map_filter_delete, delete_id; [done|].
  apply map_lookup_filter_None. right. intros p' Hp'. simpl. naive_solver lia.
Qed.

Lemma sweep_loop_spec P fuel now b :
  book_inv b → (size (by_end b) ≤ fuel)%nat →
  shrinks P b (sweep_loop fuel now b) ∧ parts (sweep_loop fuel now b) = live now (parts b).
Proof.
  revert b. induction fuel as [|fuel IH]; intros b Hb Hf.
  - assert (by_end b = ∅) as He by (apply leibniz_equiv, size_empty_inv; lia).
    simpl. split; [done|]. symmetry. apply map_filter_id. intros k p Hk. exfalso.
    assert ((pt_ends p, k) ∈ by_end b) as Hin by (rewrite (bi_end b Hb); apply elem_of_index; eauto).
    rewrite He in Hin. set_solver.
  - simpl. destruct (first (by_end b)) as [[ends k]|] eqn:Ef.
    + apply first_Some in Ef as [Hin Hmin]. rewrite (bi_end b Hb) in Hin.
      apply elem_of_index in Hin as (p & Hk & ->). destruct (pt_ends p <=? now) eqn:E; bool_hyps.
      * rewrite (drop_partition_taken b k p Hb Hk).
        destruct (drop_partition_became b k p Hb Hk) as (Hparts & _ & _ & Hb').
        destruct (IH (drop_partition k b) Hb') as [Hs Hl].
        { rewrite (bi_end _ Hb'), Hparts, <- (index_delete pt_ends _ _ p Hk), <- (bi_end b Hb).
          rewrite size_difference by (rewrite (bi_end b Hb); apply singleton_subseteq_l, elem_of_index; eauto).
          rewrite size_singleton. lia. }
        split; [by transitivity (drop_partition k b); [apply drop_partition_shrinks|]|].
        by rewrite Hl, Hparts, (live_delete _ _ _ p).
      * split; [done|]. symmetry. apply map_filter_id. intros k' p' Hk'. simpl.
        assert ((pt_ends p', k') ∈ by_end b) as Hin by (rewrite (bi_end b Hb); apply elem_of_index; eauto).
        apply Hmin in Hin. unfold leb, prod_order in Hin. cbn [fst snd] in Hin.
        case_decide; [lia|]. unfold leb, Z_order in Hin. bool_hyps. lia.
    + apply first_None in Ef. split; [done|]. symmetry. apply map_filter_id. intros k p Hk. exfalso.
      assert ((pt_ends p, k) ∈ by_end b) as Hin by (rewrite (bi_end b Hb); apply elem_of_index; eauto).
      rewrite Ef in Hin. set_solver.
Qed.

Lemma sweep_spec P now b :
  book_inv b → shrinks P b (sweep now b) ∧ parts (sweep now b) = live now (parts b).
Proof. intros Hb. by apply sweep_loop_spec. Qed.

(** ** A push's own partition *)

Fixpoint drop_expired (now : Z) (rs : list R) : list R :=
  match rs with
  | r :: rs' => if period_end (created_at r) <=? now then drop_expired now rs' else rs
  | [] => []
  end.

Lemma pop_front_records b k k' :
  book_inv b →
  records_at (parts (pop_front k b)) k' = if decide (k' = k) then tail (records_at (parts b) k) else records_at (parts b) k'.
Proof.
  intros Hb. destruct (parts b !! k) as [p|] eqn:Hk.
  - destruct (pt_records p) as [|r rs] eqn:Hp.
    + unfold pop_front. rewrite Hk, Hp. case_decide; [subst|done]. by rewrite (records_parts _ _ _ Hk), Hp.
    + destruct (pop_front_became b k p r rs Hb Hk Hp) as (-> & _). rewrite records_put.
      case_decide; [subst|done]. by rewrite (records_parts _ _ _ Hk), Hp.
  - unfold pop_front. rewrite Hk. case_decide; [subst|done]. unfold records_at. by rewrite Hk.
Qed.

Lemma pop_expired_spec P fuel now k b :
  book_inv b → (length (records_at (parts b) k) ≤ fuel)%nat →
  shrinks P b (pop_expired fuel k now b) ∧
  ∀ k', records_at (parts (pop_expired fuel k now b)) k' =
    if decide (k' = k) then drop_expired now (records_at (parts b) k) else records_at (parts b) k'.
Proof.
  revert b. induction fuel as [|fuel IH]; intros b Hb Hf; simpl.
  - split; [done|]. intros k'. case_decide; [subst|done].
    destruct (records_at (parts b) k); [done|simpl in Hf; lia].
  - change (partition b k) with (records_at (parts b) k).
    destruct (records_at (parts b) k) as [|f rs] eqn:Hr; simpl.
    + split; [done|]. intros k'. case_decide; [by subst|done].
    + destruct (period_end (created_at f) <=? now) eqn:E; simpl.
      * pose proof (pop_front_shrinks P k b) as Hs. destruct (IH (pop_front k b) (sh_inv _ _ _ Hs Hb)) as [Hs' Hk'].
        { rewrite pop_front_records, decide_True, Hr by done. simpl in *. lia. }
        split; [by transitivity (pop_front k b)|]. intros k'.
        rewrite Hk', (pop_front_records b k k), (pop_front_records b k k'), Hr by done.
        rewrite (decide_True (P := k = k)) by done. by case_decide.
      * split; [done|]. intros k'. case_decide; [by subst|done].
Qed.

(** ** Totals *)

Lemma records_delete m k k' :
  records_at (delete k m) k' = if decide (k' = k) then [] else records_at m k'.
Proof. apply (records_put m k [] 0 k'). Qed.

Lemma total_le m m' :
  (∀ k, (length (records_at m' k) ≤ length (records_at m k))%nat) → total_of m' ≤ total_of m.
Proof.
  revert m. induction m' as [|k p m' Hk IH] using map_ind; intros m Hm.
  - unfold total_of at 1. rewrite map_fold_empty. apply total_nonneg.
  - rewrite total_insert by done. pose proof (Hm k) as Hk'. unfold records_at in Hk' at 1.
    rewrite lookup_insert_eq in Hk'.
    assert (∀ m0 : gmap K (Partition R), (∀ k', k' ≠ k → records_at m0 k' = records_at m k') →
      total_of m' ≤ total_of m0) as IH'.
    { intros m0 Hm0. apply IH. intros k'. destruct (decide (k' = k)) as [->|Hne].
      - unfold records_at at 1. rewrite Hk. simpl. lia.
      - rewrite Hm0 by done. rewrite <- Hm. unfold records_at. by rewrite lookup_insert_ne. }
    destruct (m !! k) as [q|] eqn:Hq.
    + rewrite (total_delete m k q Hq). rewrite (records_parts (mkBook m ∅ ∅ (mkSenders true ∅ []) 0 0) k q Hq) in Hk'.
      assert (total_of m' ≤ total_of (delete k m)).
      { apply IH'. intros k' Hne. rewrite records_delete. by rewrite decide_False. }
      unfold size_of, len. lia.
    + specialize (IH' m ltac:(done)). unfold records_at in Hk'. rewrite Hq in Hk'. simpl in Hk'.
      unfold size_of, len. lia.
Qed.

Lemma total_le_mul m n :
  map_Forall (λ _ p, size_of p ≤ n) m → total_of m ≤ n * Z.of_nat (size m).
Proof.
  induction m as [|k p m Hk IH] using map_ind; intros Hm.
  - unfold total_of. rewrite map_fold_empty, map_size_empty. lia.
  - rewrite total_insert, map_size_insert_None by done. apply map_Forall_insert in Hm as [Hp Hm]; [|done].
    specialize (IH Hm). lia.
Qed.

Lemma dom_sublist m m' :
  map_Forall (λ _ p, 0 < size_of p) m' →
  (∀ k, records_at m' k `sublist_of` records_at m k) → dom (D := gset K) m' ⊆ dom m.
Proof.
  intros Hpos Hm k [p Hp]%elem_of_dom. specialize (Hm k). specialize (Hpos _ _ Hp). simpl in Hpos.
  unfold records_at in Hm. rewrite Hp in Hm. destruct (m !! k) eqn:Hk; [by eapply elem_of_dom_2|].
  apply sublist_nil_r in Hm. unfold size_of, len in Hpos. rewrite Hm in Hpos. simpl in Hpos. lia.
Qed.

Lemma size_sublist m m' :
  map_Forall (λ _ p, 0 < size_of p) m' →
  (∀ k, records_at m' k `sublist_of` records_at m k) → (size m' ≤ size m)%nat.
Proof.
  intros Hpos Hm. rewrite <- !(size_dom (D := gset K)). by apply subseteq_size, dom_sublist.
Qed.

Definition bounded (b : RecordBook K R) : Prop :=
  Z.of_nat (size (parts b)) ≤ max_partitions b ∧ total b ≤ MAX_RECORDS_TOTAL.

Lemma inv_positive b : book_inv b → map_Forall (λ _ p, 0 < size_of p) (parts b).
Proof. intros Hb k p Hk. destruct (bi_parts b Hb k p Hk) as [Hp _]. lia. Qed.

Lemma shrinks_le P b b' :
  book_inv b → shrinks P b b' → (size (parts b') ≤ size (parts b))%nat ∧ total b' ≤ total b.
Proof.
  intros Hb Hs. pose proof (sh_inv _ _ _ Hs Hb) as Hb'. split.
  - apply size_sublist; [by apply inv_positive|apply (sh_records _ _ _ Hs Hb)].
  - rewrite (bi_total b Hb), (bi_total b' Hb'). apply total_le. intros k. apply sublist_length, (sh_records _ _ _ Hs Hb).
Qed.

Lemma shrinks_bounded P b b' : book_inv b → shrinks P b b' → bounded b → bounded b'.
Proof.
  intros Hb Hs [H3 H4]. pose proof (shrinks_le P b b' Hb Hs). pose proof (sh_max _ _ _ Hs). unfold bounded. lia.
Qed.

Lemma shrinks_lost P b b' k p :
  book_inv b → shrinks P b b' → parts b !! k = Some p → parts b' !! k = None →
  (size (parts b') < size (parts b))%nat.
Proof.
  intros Hb Hs Hk Hk'. rewrite <- !(size_dom (D := gset K)). apply subset_size. split.
  - apply dom_sublist; [by apply inv_positive, Hs|apply (sh_records _ _ _ Hs Hb)].
  - intros Hsub. specialize (Hsub k). rewrite !elem_of_dom, Hk, Hk' in Hsub.
    destruct (Hsub ltac:(by eexists)) as [? ?]. done.
Qed.

(** ** The end of a push *)

Lemma push_back_spec b k r :
  book_inv b → len (records_at (parts b) k) < MAX_RECORDS_PER_PARTITION →
  book_inv (push_back k r b) ∧ max_partitions (push_back k r b) = max_partitions b ∧
  total (push_back k r b) = total b + 1 ∧
  senders (push_back k r b) = senders_add k (sender r) (senders b) ∧
  ∃ ends, parts (push_back k r b) = <[ k := mkPartition (records_at (parts b) k ++ [r]) ends ]> (parts b).
Proof.
  intros Hb Hlen. unfold push_back.
  assert (∀ e, exact (senders_add k (sender r) (senders b))
    (<[ k := mkPartition (records_at (parts b) k ++ [r]) e ]> (parts b))) as Hex.
  { intros e. eapply exact_ext; [|apply (exact_add _ _ k r (bi_senders b Hb))]. intros k'. unfold records_at at 1 3.
    destruct (decide (k' = k)) as [->|]; [by rewrite !lookup_insert_eq|by rewrite !lookup_insert_ne]. }
  destruct (parts b !! k) as [p|] eqn:Hk.
  - destruct (bi_parts b Hb k p Hk) as [Hpos Hf]. rewrite (records_parts b k p Hk) in *.
    cbn [default id]. unfold size_of in Hpos. rewrite (proj2 (Z.ltb_lt 0 _)) by lia.
    cbn [parts by_size by_end senders total max_partitions]. split; [|by eauto 10].
    split; cbn [parts by_size by_end senders total].
    + apply map_Forall_insert_2; [|apply Hb]. cbn [pt_records pt_ends]. split.
      * unfold size_of, len in *. cbn [pt_records]. rewrite length_app. simpl. lia.
      * apply Forall_app. split; [|repeat constructor; lia]. eapply Forall_impl; [apply Hf|]. simpl. lia.
    + rewrite (bi_size b Hb). rewrite <- (index_update size_of _ k p) by done. do 2 f_equal.
      unfold size_of, len. cbn [pt_records]. rewrite length_app. simpl. f_equal. lia.
    + rewrite (bi_end b Hb). destruct (_ =? pt_ends p) eqn:E; cbn [negb]; bool_hyps.
      * apply (index_same pt_ends _ _ p); [done|]. cbn [pt_ends]. by rewrite E.
      * by apply (index_update pt_ends _ k p (mkPartition _ _)).
    + rewrite (bi_total b Hb), (total_update _ _ p _ Hk). unfold size_of, len. cbn [pt_records].
      rewrite length_app. simpl. lia.
    + apply Hex.
  - assert (records_at (parts b) k = []) as Hnil by (unfold records_at; by rewrite Hk). rewrite Hnil in *.
    cbn [default id pt_records pt_ends]. change (0 <? len []) with false. cbv iota. rewrite Z.max_id.
    cbn [parts by_size by_end senders total max_partitions]. split; [|by eauto 10].
    split; cbn [parts by_size by_end senders total].
    + apply map_Forall_insert_2; [|apply Hb]. cbn [pt_records pt_ends]. split; [by vm_compute|]. repeat constructor. lia.
    + rewrite (bi_size b Hb). by apply (index_insert size_of _ k (mkPartition [r] _)).
    + rewrite (bi_end b Hb). by apply (index_insert pt_ends _ k (mkPartition [r] _)).
    + rewrite (bi_total b Hb), total_insert by done. unfold size_of, len. simpl. lia.
    + apply Hex.
Qed.

(** ** A push *)

(** The state of a push before its record is added: swept, its partition's expired records
    gone, then its oldest at the partition's cap. *)
Definition own_room (k : K) (now : Z) (b : RecordBook K R) : RecordBook K R :=
  let b := pop_expired (length (partition b k)) k now b in
  if MAX_RECORDS_PER_PARTITION <=? len (partition b k) then pop_front k b else b.

(** Then, past the total, the oldest record of a largest partition. *)
Definition all_room (b : RecordBook K R) : RecordBook K R :=
  if MAX_RECORDS_TOTAL <=? total b
  then match last (by_size b) with Some (_, largest) => pop_front largest b | None => b end
  else b.

Lemma push_eq k r now b :
  push k r now b =
  (let b := sweep (unix_nanos now) b in
   if negb (is_some (parts b !! k)) && (max_partitions b <=? Z.of_nat (size (parts b))) then (false, b)
   else (true, push_back k r (all_room (own_room k (unix_nanos now) b)))).
Proof. done. Qed.

Lemma own_room_spec P k now b :
  book_inv b →
  shrinks P b (own_room k now b) ∧
  (len (records_at (parts (own_room k now b)) k) < MAX_RECORDS_PER_PARTITION) ∧
  (∀ k', k' ≠ k → records_at (parts (own_room k now b)) k' = records_at (parts b) k') ∧
  let own := drop_expired now (records_at (parts b) k) in
  records_at (parts (own_room k now b)) k =
    if MAX_RECORDS_PER_PARTITION <=? len own then tail own else own.
Proof.
  intros Hb. unfold own_room.
  destruct (pop_expired_spec P (length (partition b k)) now k b Hb) as [Hs Hr]; [done|].
  pose proof (sh_inv _ _ _ Hs Hb) as Hb1. set (b1 := pop_expired _ k now b) in *.
  change (partition b1 k) with (records_at (parts b1) k).
  pose proof (Hr k) as Hrk. rewrite decide_True in Hrk by done. rewrite <- Hrk. cbv zeta.
  assert (len (records_at (parts b1) k) ≤ MAX_RECORDS_PER_PARTITION) as Hle.
  { unfold records_at. destruct (parts b1 !! k) as [p|] eqn:E; [|unfold len; simpl; by vm_compute].
    destruct (bi_parts b1 Hb1 _ _ E). unfold size_of in *. lia. }
  assert (∀ k', k' ≠ k → records_at (parts b1) k' = records_at (parts b) k') as Hother.
  { intros k' Hne. rewrite Hr. by rewrite decide_False. }
  destruct (_ <=? _) eqn:E; bool_hyps; [|by split_and!].
  split_and!.
  - transitivity b1; [done|apply pop_front_shrinks].
  - rewrite pop_front_records, decide_True by done.
    destruct (records_at (parts b1) k); unfold len, MAX_RECORDS_PER_PARTITION in *; simpl length in *; lia.
  - intros k' Hne. rewrite pop_front_records, decide_False by done. auto.
  - rewrite pop_front_records, decide_True by done. done.
Qed.

Lemma all_room_spec P b :
  book_inv b → bounded b →
  shrinks P b (all_room b) ∧ total (all_room b) < MAX_RECORDS_TOTAL ∧
  ∀ k, records_at (parts (all_room b)) k = records_at (parts b) k ∨
       MAX_RECORDS_TOTAL ≤ total b ∧
       MAX_RECORDS_TOTAL ≤ len (records_at (parts b) k) * max_partitions b ∧
       records_at (parts (all_room b)) k = tail (records_at (parts b) k).
Proof.
  intros Hb [Hsz Htot]. unfold all_room. destruct (_ <=? total b) eqn:E; bool_hyps; [|split_and!; [done|lia|by left]].
  destruct (last (by_size b)) as [[n k]|] eqn:El.
  2: { apply last_None in El. rewrite (bi_total b Hb) in E. exfalso.
       assert (parts b = ∅) as Hp.
       { apply map_eq. intros k. rewrite lookup_empty. destruct (parts b !! k) as [p|] eqn:Hk; [|done].
         assert ((size_of p, k) ∈ by_size b) as Hin by (rewrite (bi_size b Hb); apply elem_of_index; eauto).
         rewrite El in Hin. set_solver. }
       rewrite Hp in E. unfold total_of in E. rewrite map_fold_empty in E. by vm_compute in E. }
  apply last_Some in El as [Hin Hmax]. rewrite (bi_size b Hb) in Hin.
  apply elem_of_index in Hin as (p & Hk & ->).
  pose proof (bi_parts b Hb k p Hk) as [Hpos _].
  destruct (pt_records p) as [|r rs] eqn:Hp; [unfold size_of in Hpos; rewrite Hp in Hpos; unfold len in Hpos; simpl in Hpos; lia|].
  split_and!; [apply pop_front_shrinks| |].
  - destruct (pop_front_became b k p r rs Hb Hk Hp) as (Hparts & _ & _ & Hb').
    rewrite (bi_total _ Hb'), Hparts. unfold put. rewrite (bi_total b Hb) in Htot.
    destruct rs as [|x rs].
    + rewrite (total_delete _ _ p Hk) in Htot. lia.
    + rewrite (total_update _ _ p _ Hk). unfold size_of, len. cbn [pt_records]. rewrite Hp. simpl length. lia.
  - intros k'. rewrite pop_front_records by done. case_decide; [subst k'; right|by left]. split_and!; [done| |done].
    rewrite (records_parts b k p Hk). change (len (pt_records p)) with (size_of p).
    assert (total_of (parts b) ≤ size_of p * Z.of_nat (size (parts b))) as Hmul.
    { apply total_le_mul. intros k' p' Hk'.
      assert ((size_of p', k') ∈ by_size b) as Hin by (rewrite (bi_size b Hb); apply elem_of_index; eauto).
      apply Hmax in Hin. unfold leb, prod_order in Hin. cbn [fst snd] in Hin.
      case_decide; [lia|]. unfold leb, Z_order in Hin. bool_hyps. lia. }
    rewrite (bi_total b Hb) in E. nia.
Qed.

Lemma drop_1_tail {A} (l : list A) : drop 1 l = tail l.
Proof. by destruct l. Qed.

(** The records a push leaves under a key of its own partition: what it may forget goes from
    the front. *)
Definition front_cut (n : nat) (now : Z) (rs : list R) : list R := drop n (drop_expired now rs).

Record pushed (P : K → SessionId → Prop) (k : K) (r : R) (now : Timestamp) (b : RecordBook K R)
    (kept : bool) (b' : RecordBook K R) : Prop := {
  pu_inv : book_inv b';
  pu_bounded : bounded b';
  pu_max : max_partitions b' = max_partitions b;
  pu_steps : filed P b → P k (sender r) → rtc (sender_step P) (senders b) (senders b');
  pu_own : kept = true → ∃ n, (n ≤ 2)%nat ∧
    records_at (parts b') k = front_cut n (unix_nanos now) (records_at (live (unix_nanos now) (parts b)) k) ++ [r] ∧
    (len (records_at (parts b) k) < MAX_RECORDS_PER_PARTITION → total b < MAX_RECORDS_TOTAL → n = 0%nat);
  pu_other k' : (kept = true → k' ≠ k) →
    let before := records_at (live (unix_nanos now) (parts b)) k' in
    records_at (parts b') k' = before ∨
    MAX_RECORDS_TOTAL ≤ total b ∧ MAX_RECORDS_TOTAL ≤ len before * max_partitions b ∧
    records_at (parts b') k' = tail before }.

Lemma front_cut_len now rs n : len (front_cut n now rs) ≤ len rs.
Proof.
  unfold front_cut, len. rewrite length_drop. induction rs as [|x rs IH]; simpl; [lia|]. case_match; simpl; lia.
Qed.

Lemma push_spec P k r now b :
  book_inv b → bounded b → pushed P k r now b (push k r now b).1 (push k r now b).2.
Proof.
  intros Hb Hbd. rewrite push_eq. cbv zeta. set (t := unix_nanos now).
  destruct (sweep_spec P t b Hb) as [Hsw Hlive]. pose proof (sh_inv _ _ _ Hsw Hb) as Hb0.
  pose proof (shrinks_bounded _ _ _ Hb Hsw Hbd) as Hbd0. pose proof (shrinks_le _ _ _ Hb Hsw) as [_ Ht0].
  set (b0 := sweep t b) in *. destruct (negb _ && _) eqn:Eg; cbn [fst snd].
  { split; [done|done|apply Hsw|by intros Hf _; apply Hsw|done|]. intros k' _. left. fold t. by rewrite <- Hlive. }
  destruct (own_room_spec P k t b0 Hb0) as (Hs1 & Hlen1 & Hother1 & Hown1).
  pose proof (sh_inv _ _ _ Hs1 Hb0) as Hb1. pose proof (shrinks_bounded _ _ _ Hb0 Hs1 Hbd0) as Hbd1.
  pose proof (shrinks_le _ _ _ Hb0 Hs1) as [Hsz1 Ht1].
  set (b1 := own_room k t b0) in *.
  destruct (all_room_spec P b1 Hb1 Hbd1) as (Hs2 & Htot2 & Hr2).
  pose proof (sh_inv _ _ _ Hs2 Hb1) as Hb2. pose proof (shrinks_bounded _ _ _ Hb1 Hs2 Hbd1) as [Hsz2 _].
  pose proof (shrinks_le _ _ _ Hb1 Hs2) as [Hsz12 _]. set (b2 := all_room b1) in *.
  assert (len (records_at (parts b2) k) < MAX_RECORDS_PER_PARTITION) as Hlen2.
  { pose proof (sublist_length _ _ (sh_records _ _ _ Hs2 Hb1 k)). unfold len in *. lia. }
  destruct (push_back_spec b2 k r Hb2 Hlen2) as (Hb3 & Hmax3 & Htot3 & Hsend3 & ends & Hparts3).
  assert (max_partitions b2 = max_partitions b) as Hmax2.
  { rewrite (sh_max _ _ _ Hs2), (sh_max _ _ _ Hs1). apply Hsw. }
  split; [done| |congruence| | |].
  - split; [|lia]. rewrite Hmax3, Hparts3. destruct (parts b2 !! k) as [p|] eqn:Hk2.
    + rewrite map_size_insert_Some by eauto. done.
    + rewrite map_size_insert_None by done. apply andb_false_iff in Eg as [Eg|Eg].
      * apply negb_false_iff in Eg. destruct (parts b0 !! k) as [p|] eqn:Hk0; [|done].
        assert (shrinks P b0 b2) as Hs02 by (by transitivity b1).
        pose proof (shrinks_lost P b0 b2 k p Hb0 Hs02 Hk0 Hk2). destruct Hbd0 as [Hsz0 _].
        pose proof (sh_max _ _ _ Hsw). lia.
      * apply Z.leb_gt in Eg. pose proof (sh_max _ _ _ Hsw). lia.
  - intros Hf HP. rewrite Hsend3. transitivity (senders b0); [by apply Hsw|].
    pose proof (filed_sublist P _ _ (sh_records _ _ _ Hsw Hb) Hf) as Hf0.
    pose proof (filed_sublist P _ _ (sh_records _ _ _ Hs1 Hb0) Hf0) as Hf1.
    transitivity (senders b1); [by apply Hs1|]. transitivity (senders b2); [by apply Hs2|].
    apply rtc_once. by apply step_add.
  - intros _. rewrite Hparts3. unfold records_at at 1. rewrite lookup_insert_eq. cbn [pt_records].
    fold t. rewrite <- Hlive. unfold front_cut.
    assert (∃ n, (n ≤ 1)%nat ∧ records_at (parts b1) k = drop n (drop_expired t (records_at (parts b0) k)) ∧
      (len (records_at (parts b) k) < MAX_RECORDS_PER_PARTITION → n = 0%nat)) as (n1 & Hn1 & Hk1 & Hz1).
    { cbv zeta in Hown1. rewrite Hown1.
      destruct (MAX_RECORDS_PER_PARTITION <=? _) eqn:E; bool_hyps.
      - exists 1%nat. split_and!; [done|by rewrite drop_1_tail|]. intros Hlt. exfalso.
        pose proof (front_cut_len t (records_at (parts b0) k) 0) as Hc. unfold front_cut in Hc. rewrite drop_0 in Hc.
        pose proof (sublist_length _ _ (sh_records _ _ _ Hsw Hb k)). unfold len in *. lia.
      - exists 0%nat. split_and!; [lia|by rewrite drop_0|done]. }
    destruct (Hr2 k) as [Hk2|(Hge & _ & Hk2)].
    + exists n1. split_and!; [lia|by rewrite Hk2, Hk1|auto].
    + exists (S n1). split_and!; [lia| |lia].
      rewrite Hk2, Hk1, <- drop_1_tail, drop_drop. f_equal. f_equal. lia.
  - intros k' Hne. specialize (Hne eq_refl). cbv zeta. fold t. rewrite <- Hlive, Hparts3.
    assert (∀ l e, records_at (<[ k := mkPartition l e ]> (parts b2)) k' = records_at (parts b2) k') as ->.
    { intros l e. unfold records_at. by rewrite lookup_insert_ne. }
    rewrite <- (Hother1 k' Hne). destruct (Hr2 k') as [Hk2|(Hge & Hmul & Hk2)]; [by left|right].
    rewrite <- (sh_max _ _ _ Hsw), <- (sh_max _ _ _ Hs1). split_and!; [lia|done|done].
Qed.

(** ** The change list

    The changes an indexed book emits tell, in order, which pairs gained their first record
    and lost their last, so replaying them on what was held gives what is held. *)

Definition holds (i : SenderIndex K) (k : K) (s : SessionId) : bool := is_some (si_counts i !! (k, s)).

Definition replay (h : K → SessionId → bool) (cs : list (K * SessionId * bool)) (k : K) (s : SessionId) : bool :=
  foldl (λ now c, if decide ((k, s) = c.1) then c.2 else now) (h k s) cs.

Definition positive (i : SenderIndex K) : Prop := map_Forall (λ _ n, 0 < n) (si_counts i).

Lemma exact_positive i m : exact i m → positive i.
Proof.
  unfold exact, positive. destruct (si_enabled i); [|intros ->; apply map_Forall_empty].
  intros Hi [k s] n Hn. rewrite Hi in Hn. unfold count in Hn. pose proof (sent_by_nonneg s (records_at m k)).
  destruct (_ =? 0) eqn:E; [done|]. bool_hyps. injection Hn as <-. lia.
Qed.

Lemma replay_one h k s v k' s' :
  replay h [(k, s, v)] k' s' = if decide ((k', s') = (k, s)) then v else h k' s'.
Proof. done. Qed.

Definition tracks (P : K → SessionId → Prop) i i' : Prop :=
  positive i' ∧ ∃ cs, si_changes i' = si_changes i ++ cs ∧ Forall (λ c, P c.1.1 c.1.2) cs ∧
    ∀ k s, holds i' k s = replay (holds i) cs k s.

Lemma tracks_refl P i : positive i → tracks P i i.
Proof. intros Hp. split; [done|]. exists []. by rewrite app_nil_r. Qed.

Lemma tracks_trans P i1 i2 i3 : tracks P i1 i2 → tracks P i2 i3 → tracks P i1 i3.
Proof.
  intros (_ & cs & H3 & H4 & H5) (Hp & cs' & H6 & H7 & H8). split; [done|]. exists (cs ++ cs').
  split_and!; [by rewrite H6, H3, app_assoc|by apply Forall_app|].
  intros k s. rewrite H8. unfold replay. rewrite H5. unfold replay. by rewrite foldl_app.
Qed.

Lemma step_tracks P i i' : positive i → sender_step P i i' → tracks P i i'.
Proof.
  intros Hp [k s HP|k s HP].
  - unfold senders_add. destruct (si_enabled i); simpl; [|by apply tracks_refl].
    set (n := default 0 (si_counts i !! (k, s)) + 1).
    assert (0 < n ∧ (n =? 1 = negb (holds i k s))) as [Hn Hone].
    { unfold n, holds. destruct (si_counts i !! (k, s)) as [x|] eqn:Ex; [|done]. cbn [default id is_some negb].
      pose proof (Hp _ _ Ex). simpl in *. split; [lia|]. apply Z.eqb_neq. lia. }
    split; [by apply map_Forall_insert_2|]. cbn [si_changes]. rewrite Hone. destruct (holds i k s) eqn:Eh; simpl.
    + exists []. rewrite app_nil_r. split_and!; [done|done|]. intros k' s'. unfold holds at 1, replay. cbn [si_counts foldl].
      destruct (decide ((k', s') = (k, s))) as [[= -> ->]|]; [by rewrite lookup_insert_eq|by rewrite lookup_insert_ne].
    + exists [(k, s, true)]. split_and!; [done|by repeat constructor|]. intros k' s'. rewrite replay_one. unfold holds at 1.
      cbn [si_counts]. case_decide as Hd; [by rewrite Hd, lookup_insert_eq|by rewrite lookup_insert_ne].
  - unfold senders_remove. destruct (si_counts i !! (k, s)) as [n|] eqn:En; [|by apply tracks_refl].
    pose proof (Hp _ _ En) as Hn. simpl in Hn. destruct (n - 1 =? 0) eqn:E; bool_hyps.
    + split; [by apply map_Forall_delete|]. exists [(k, s, false)]. split_and!; [done|by repeat constructor|].
      intros k' s'. rewrite replay_one. unfold holds at 1. cbn [si_counts].
      case_decide as Hd; [by rewrite Hd, lookup_delete_eq|by rewrite lookup_delete_ne].
    + split; [apply map_Forall_insert_2; [lia|done]|]. exists []. rewrite app_nil_r. split_and!; [done|done|].
      intros k' s'. unfold holds, replay. cbn [si_counts foldl].
      destruct (decide ((k', s') = (k, s))) as [[= -> ->]|]; [by rewrite lookup_insert_eq, En|by rewrite lookup_insert_ne].
Qed.

Lemma steps_track P i i' : positive i → rtc (sender_step P) i i' → tracks P i i'.
Proof.
  intros Hp Hs. induction Hs as [i|i1 i2 i3 Hs _ IH]; [by apply tracks_refl|].
  pose proof (step_tracks P i1 i2 Hp Hs) as Ht. eapply tracks_trans; [done|]. by apply IH, Ht.
Qed.

Lemma holds_record b k s :
  book_inv b → si_enabled (senders b) = true →
  holds_sender b k s = true ↔ ∃ r, r ∈ records_at (parts b) k ∧ sender r = s.
Proof.
  intros Hb He. pose proof (bi_senders b Hb) as Hx. unfold exact in Hx. rewrite He in Hx.
  unfold holds_sender. rewrite Hx, <- sent_by_pos. unfold count.
  pose proof (sent_by_nonneg s (records_at (parts b) k)). destruct (_ =? 0) eqn:E; simpl; bool_hyps; split; lia || done.
Qed.

(** ** Books the operations reach *)

Inductive book_op : Type :=
| BPush (k : K) (r : R) (now : Timestamp)
| BRetain (keep : R → bool)
| BDropPartitions (matches : K → bool)
| BRemoveFirst (k : K) (matches : R → bool)
| BTakeChanges.

Definition run_book (b : RecordBook K R) (o : book_op) : RecordBook K R :=
  match o with
  | BPush k r now => (push k r now b).2
  | BRetain keep => retain keep b
  | BDropPartitions matches => drop_partitions matches b
  | BRemoveFirst k matches => (remove_first k matches b).2
  | BTakeChanges => (take_sender_changes b).2
  end.

Definition any (k : K) (s : SessionId) : Prop := True.

Lemma take_changes_inv b : book_inv b → book_inv (take_sender_changes b).2.
Proof. intros [H3 H4 H5 H6 H7]. split; done. Qed.

Lemma run_book_inv b o : book_inv b → bounded b →
  book_inv (run_book b o) ∧ bounded (run_book b o) ∧ max_partitions (run_book b o) = max_partitions b.
Proof.
  intros Hb Hbd.
  assert (∀ b', shrinks any b b' → book_inv b' ∧ bounded b' ∧ max_partitions b' = max_partitions b) as Hsh.
  { intros b' Hs. split_and!; [by apply Hs|by eapply shrinks_bounded|apply Hs]. }
  destruct o; simpl.
  - destruct (push_spec any k r now b Hb Hbd); done.
  - apply Hsh, retain_shrinks.
  - apply Hsh, drop_partitions_shrinks.
  - apply Hsh, remove_first_shrinks.
  - split; [by apply take_changes_inv|]. done.
Qed.

Lemma run_books b ops : book_inv b → bounded b →
  book_inv (foldl run_book b ops) ∧ bounded (foldl run_book b ops) ∧
  max_partitions (foldl run_book b ops) = max_partitions b.
Proof.
  revert b. induction ops as [|o ops IH]; intros b Hb Hbd; simpl; [done|].
  destruct (run_book_inv b o Hb Hbd) as (Hb' & Hbd' & <-). by apply IH.
Qed.

Lemma book_new_inv max idx : 0 ≤ max →
  book_inv (with_max_partitions max idx) ∧ bounded (with_max_partitions max idx).
Proof.
  intros Hmax. split; [|split; [done|by vm_compute]]. split; simpl.
  - apply map_Forall_empty.
  - done.
  - done.
  - done.
  - unfold exact. simpl. destruct idx; [|done]. intros k s. by rewrite lookup_empty.
Qed.

Lemma steps_enabled P i i' : rtc (sender_step P) i i' → si_enabled i' = si_enabled i.
Proof.
  induction 1 as [i|i1 i2 i3 Hs _ IH]; [done|]. rewrite IH.
  destruct Hs; [apply senders_add_enabled|apply senders_remove_enabled].
Qed.

Lemma run_book_enabled b o : book_inv b → bounded b →
  si_enabled (senders (run_book b o)) = si_enabled (senders b).
Proof.
  intros Hb Hbd.
  assert (∀ b', shrinks any b b' → si_enabled (senders b') = si_enabled (senders b)) as Hsh.
  { intros b' Hs. by apply (steps_enabled any), Hs. }
  destruct o; simpl.
  - destruct (push_spec any k r now b Hb Hbd). by apply (steps_enabled any), pu_steps0.
  - apply Hsh, retain_shrinks.
  - apply Hsh, drop_partitions_shrinks.
  - apply Hsh, remove_first_shrinks.
  - done.
Qed.

Lemma run_books_enabled b ops : book_inv b → bounded b →
  si_enabled (senders (foldl run_book b ops)) = si_enabled (senders b).
Proof.
  revert b. induction ops as [|o ops IH]; intros b Hb Hbd; simpl; [done|].
  destruct (run_book_inv b o Hb Hbd) as (Hb' & Hbd' & _). rewrite IH by done. by apply run_book_enabled.
Qed.

(** A partition every record of which has expired forgets them all, swept or not. *)
Lemma drop_expired_live now b k :
  book_inv b → drop_expired now (records_at (live now (parts b)) k) = drop_expired now (records_at (parts b) k).
Proof.
  intros Hb. unfold records_at, live. rewrite map_lookup_filter.
  destruct (parts b !! k) as [p|] eqn:Hk; simpl; [|done].
  case_guard; simpl; [done|]. destruct (bi_parts b Hb _ _ Hk) as [_ Hf].
  induction (pt_records p) as [|r rs IH]; [done|]. apply Forall_cons in Hf as [Hr Hf]. simpl.
  rewrite (proj2 (Z.leb_le _ _)) by lia. by apply IH.
Qed.

Lemma live_records now b k r :
  book_inv b → r ∈ records_at (parts b) k → now < period_end (created_at r) →
  records_at (live now (parts b)) k = records_at (parts b) k.
Proof.
  intros Hb Hr Hn. unfold records_at, live in *. rewrite map_lookup_filter.
  destruct (parts b !! k) as [p|] eqn:Hk; simpl; [|done]. case_guard as Hg; simpl; [done|].
  destruct (bi_parts b Hb _ _ Hk) as [_ Hf]. rewrite Forall_forall in Hf. specialize (Hf _ Hr). simpl in *. lia.
Qed.
End Facts.
#[global] Arguments book_op K R : clear implicits.

(** The record lists stay within their bounds and their indexes tell the truth: after
    any sequence of pushes, retentions, partition drops, removals and index reads, no more
    than the allowed number of partitions is held, none of them empty or above its cap, and
    no more than the total number of records; the total is the number of records held, the
    size and expiry indexes hold exactly one entry per partition with its present size and
    expiry, and the sender index names exactly the senders with a record in a partition. *)
Theorem record_book_invariant {K R} `{Countable K} `{OrderLaws K} `{Dated R}
    (max : Z) (index_senders : bool) (ops : list (book_op K R)) :
  0 ≤ max →
  let b := foldl run_book (with_max_partitions max index_senders) ops in
  Z.of_nat (size (parts b)) ≤ max ∧ total b ≤ MAX_RECORDS_TOTAL ∧
  map_Forall (λ _ p, 0 < len (pt_records p) ≤ MAX_RECORDS_PER_PARTITION) (parts b) ∧
  total b = total_of (parts b) ∧
  (∀ n k, (n, k) ∈ by_size b ↔ ∃ p, parts b !! k = Some p ∧ n = len (pt_records p)) ∧
  (∀ n k, (n, k) ∈ by_end b ↔ ∃ p, parts b !! k = Some p ∧ n = pt_ends p) ∧
  (index_senders = true → ∀ k s,
     holds_sender b k s = true ↔ ∃ r, r ∈ partition b k ∧ sender r = s).
Proof.
  intros Hmax b. destruct (book_new_inv (K := K) (R := R) max index_senders Hmax) as [H0' H1'].
  destruct (run_books _ ops H0' H1') as (Hb & [Hsz Ht] & Hm). fold b in Hb, Hsz, Ht, Hm. rewrite Hm in Hsz.
  split_and!; [done|done| |apply Hb| | |].
  - intros k p Hk. apply (bi_parts b Hb _ _ Hk).
  - intros n k. rewrite (bi_size b Hb). apply elem_of_index.
  - intros n k. rewrite (bi_end b Hb). apply elem_of_index.
  - intros -> k s. apply holds_record; [done|]. unfold b. by rewrite run_books_enabled.
Qed.

Definition sample_at (n : Z) : Timestamp := mkTimestamp [] n.

Definition sample_handoff (id from : string) (n : Z) : HandOffRecord :=
  mkHandOff (bs id) (bs from) (bs "to") (sample_at n) None None None.

Definition sample_ops : list (book_op (list Z) HandOffRecord) :=
  [BPush (bs "a") (sample_handoff "m1" "s1" 0) (sample_at 0);
   BPush (bs "b") (sample_handoff "m2" "s2" 1) (sample_at 1)].

Lemma record_book_invariant_witness :
  let b := foldl run_book (with_max_partitions 2 true) sample_ops in
  Z.of_nat (size (parts b)) ≤ 2 ∧ holds_sender b (bs "a") (bs "s1") = true.
Proof.
  destruct (record_book_invariant 2 true sample_ops) as (H1 & _ & _ & _ & _ & _ & H2); [lia|].
  split; [exact H1|]. apply (H2 eq_refl). exists (sample_handoff "m1" "s1" 0). split; [|reflexivity].
  vm_compute. left.
Defined.

(** What a push forgets: with a place for its partition, the record is the last of its
    partition, from the front of which only expired records and at most two more have gone,
    and no more than the expired ones while neither the partition nor the whole list is
    full.  Another partition that still holds a live record is untouched, unless the list is
    full in all: then it may lose its oldest record, and only if it holds at least its share
    of the total. *)
Theorem push_forgets_own_first {K R} `{Countable K} `{OrderLaws K} `{Dated R}
    (max : Z) (index_senders : bool) (ops : list (book_op K R)) (k : K) (r : R) (now : Timestamp) :
  0 ≤ max →
  let b := foldl run_book (with_max_partitions max index_senders) ops in
  let '(kept, b') := push k r now b in
  (kept = true → ∃ n, (n ≤ 2)%nat ∧
     partition b' k = drop n (drop_expired (unix_nanos now) (partition b k)) ++ [r] ∧
     (len (partition b k) < MAX_RECORDS_PER_PARTITION → total b < MAX_RECORDS_TOTAL → n = 0%nat)) ∧
  ∀ k' x, (kept = true → k' ≠ k) → x ∈ partition b k' → unix_nanos now < period_end (created_at x) →
    partition b' k' = partition b k' ∨
    MAX_RECORDS_TOTAL ≤ total b ∧ MAX_RECORDS_TOTAL ≤ len (partition b k') * max ∧
    partition b' k' = tail (partition b k').
Proof.
  intros Hmax b. destruct (book_new_inv (K := K) (R := R) max index_senders Hmax) as [H0' H1'].
  destruct (run_books _ ops H0' H1') as (Hb & Hbd & Hm). fold b in Hb, Hbd, Hm.
  pose proof (push_spec any k r now b Hb Hbd) as Hp. destruct (push k r now b) as [kept b']. cbn [fst snd] in Hp.
  destruct Hp as [_ _ _ _ Hown Hother]. split.
  - intros Hk. destruct (Hown Hk) as (n & Hn & Hrec & Hz). exists n. split_and!; [done| |done].
    unfold front_cut in Hrec. rewrite drop_expired_live in Hrec by done. exact Hrec.
  - intros k' x Hne Hx Hl. specialize (Hother k' Hne). cbv zeta in Hother.
    rewrite (live_records _ _ _ _ Hb Hx Hl), Hm in Hother. exact Hother.
Qed.

Lemma push_forgets_own_first_witness :
  let b := foldl run_book (with_max_partitions 2 true) sample_ops in
  let '(kept, b') := push (bs "a") (sample_handoff "m3" "s1" 2) (sample_at 2) b in
  kept = true ∧ partition b' (bs "a") = [sample_handoff "m1" "s1" 0; sample_handoff "m3" "s1" 2].
Proof.
  pose proof (push_forgets_own_first 2 true sample_ops (bs "a") (sample_handoff "m3" "s1" 2) (sample_at 2)) as Hp.
  cbv zeta in Hp |- *.
  destruct (push _ _ _ _) as [kept b'] eqn:Ep. destruct Hp as [Hown _]; [lia|].
  assert (kept = true) as ->.
  { replace kept with (fst (kept, b')) by reflexivity. rewrite <- Ep. vm_compute. reflexivity. }
  split; [reflexivity|]. destruct (Hown eq_refl) as (n & _ & -> & Hn).
  rewrite Hn by (vm_compute; reflexivity). vm_compute. reflexivity.
Defined.
