(* ===== verification/Bindings.v ===== *)
(** * Bindings that envelopes create ([core/src/authorization.rs], [EnvelopeBindings])

    The binding-table entries that security step 4 creates and nothing else refers to: a
    share per key, a capacity in all, and which entry goes for a new one. *)

From S2P Require Import Prelude Ordered Ids RecordBook.

Definition MAX_ENVELOPE_BINDINGS_PER_KEY : Z := 2 * MAX_RECORDS_PER_PARTITION.
Definition MAX_ENVELOPE_BINDINGS : Z := 65536.

Record EnvelopeBinding := mkEB { eb_key : KeyId; eb_seq : Z; eb_pinned : bool }.

Record KeyBindings := mkKB { kb_free : gmap Z SessionId; kb_pinned : Z; kb_latest : Z }.

Definition KeyBindings_default : KeyBindings := mkKB ∅ 0 0.

Definition kb_len (kb : KeyBindings) : Z := Z.of_nat (size (kb_free kb)) + kb_pinned kb.

Record EnvelopeBindings := mkBindings {
  eb_sessions : gmap SessionId EnvelopeBinding;
  eb_keys : gmap KeyId KeyBindings;
  eb_next : Z;
  eb_per_key : Z;
  eb_capacity : Z }.

(** [Ord::clamp]. *)
Definition zclamp (v lo hi : Z) : Z := Z.min (Z.max v lo) hi.

Definition EnvelopeBindings_new (capacity per_key : Z) : EnvelopeBindings :=
  let capacity := Z.max capacity 1 in
  mkBindings ∅ ∅ 0 (zclamp per_key 1 capacity) capacity.

Definition eb_held_by (b : EnvelopeBindings) (key : KeyId) : Z :=
  match eb_keys b !! key with Some kb => kb_len kb | None => 0 end.

Definition untrack (session : SessionId) (b : EnvelopeBindings) : EnvelopeBindings :=
  match eb_sessions b !! session with
  | None => b
  | Some e =>
      let sessions := delete session (eb_sessions b) in
      let keys :=
        match eb_keys b !! eb_key e with
        | None => eb_keys b
        | Some kb =>
            let kb := if eb_pinned e then mkKB (kb_free kb) (kb_pinned kb - 1) (kb_latest kb)
                      else mkKB (delete (eb_seq e) (kb_free kb)) (kb_pinned kb) (kb_latest kb) in
            if kb_len kb =? 0 then delete (eb_key e) (eb_keys b) else <[ eb_key e := kb ]> (eb_keys b)
        end in
      mkBindings sessions keys (eb_next b) (eb_per_key b) (eb_capacity b)
  end.

Definition track (session : SessionId) (key : KeyId) (pinned : bool) (b : EnvelopeBindings) : EnvelopeBindings :=
  let b := untrack session b in
  let seq := eb_next b + 1 in
  let kb := default KeyBindings_default (eb_keys b !! key) in
  let kb := if pinned then mkKB (kb_free kb) (kb_pinned kb + 1) seq
            else mkKB (<[ seq := session ]> (kb_free kb)) (kb_pinned kb) seq in
  mkBindings (<[ session := mkEB key seq pinned ]> (eb_sessions b)) (<[ key := kb ]> (eb_keys b)) seq
    (eb_per_key b) (eb_capacity b).

Definition set_pinned (session : SessionId) (key : KeyId) (pinned : bool) (b : EnvelopeBindings) : EnvelopeBindings :=
  match eb_sessions b !! session with
  | None => b
  | Some e =>
      if negb (beq (eb_key e) key) || eqb (eb_pinned e) pinned then b
      else
        let sessions := <[ session := mkEB (eb_key e) (eb_seq e) pinned ]> (eb_sessions b) in
        match eb_keys b !! key with
        | None => mkBindings sessions (eb_keys b) (eb_next b) (eb_per_key b) (eb_capacity b)
        | Some kb =>
            let kb := if pinned then mkKB (delete (eb_seq e) (kb_free kb)) (kb_pinned kb + 1) (kb_latest kb)
                      else mkKB (<[ eb_seq e := session ]> (kb_free kb)) (kb_pinned kb - 1) (kb_latest kb) in
            mkBindings sessions (<[ key := kb ]> (eb_keys b)) (eb_next b) (eb_per_key b) (eb_capacity b)
        end
  end.

Definition eb_has_room (b : EnvelopeBindings) (key : KeyId) : bool :=
  (eb_held_by b key <? eb_per_key b) && (Z.of_nat (size (eb_sessions b)) <? eb_capacity b).

Definition victim (b : EnvelopeBindings) (key : KeyId) : option SessionId :=
  let n := eb_held_by b key in
  if eb_per_key b <=? n
  then kb ← eb_keys b !! key; head (values (kb_free kb))
  else
    let candidates :=
      List.filter (λ x, negb (beq x.1 key) && (n + 2 <=? kb_len x.2) && negb (bool_decide (kb_free x.2 = ∅)))
        (items (eb_keys b)) in
    '(_, kb) ← max_by_key (λ x, (kb_len x.2, kb_latest x.2)) candidates;
    head (values (kb_free kb)).

(** ** The invariant *)

Definition cnt (ss : gmap SessionId EnvelopeBinding) (k : KeyId) (pinned : bool) : Z :=
  Z.of_nat (size (filter (λ x, eb_key x.2 = k ∧ eb_pinned x.2 = pinned) ss)).

Definition kb_ok (ss : gmap SessionId EnvelopeBinding) (k : KeyId) (okb : option KeyBindings) : Prop :=
  match okb with
  | Some kb =>
      (∀ q s, kb_free kb !! q = Some s ↔ ss !! s = Some (mkEB k q false)) ∧
      Z.of_nat (size (kb_free kb)) = cnt ss k false ∧ kb_pinned kb = cnt ss k true ∧ 0 < kb_len kb
  | None => ∀ s e, ss !! s = Some e → eb_key e ≠ k
  end.

Record bindings_inv (b : EnvelopeBindings) : Prop := {
  ei_keys k : kb_ok (eb_sessions b) k (eb_keys b !! k);
  ei_next s e : eb_sessions b !! s = Some e → eb_seq e ≤ eb_next b;
  ei_seq s s' e e' : eb_sessions b !! s = Some e → eb_sessions b !! s' = Some e' → eb_seq e = eb_seq e' → s = s' }.

Definition here (k : KeyId) (p : bool) (e : EnvelopeBinding) : Z :=
  if bool_decide (eb_key e = k ∧ eb_pinned e = p) then 1 else 0.

Lemma cnt_insert ss s e k p : ss !! s = None → cnt (<[ s := e ]> ss) k p = cnt ss k p + here k p e.
Proof.
  intros Hs. unfold cnt, here. case_bool_decide as Hd.
  - rewrite map_filter_insert_True by done. rewrite map_size_insert_None; [lia|].
    apply map_lookup_filter_None. by left.
  - rewrite map_filter_insert_False, delete_id by done. lia.
Qed.

Lemma cnt_delete ss s e k p : ss !! s = Some e → cnt (delete s ss) k p = cnt ss k p - here k p e.
Proof.
  intros Hs. rewrite <- (insert_delete_id ss s e Hs) at 2. rewrite cnt_insert by apply lookup_delete_eq. lia.
Qed.

Lemma cnt_update ss s e e' k p :
  ss !! s = Some e → cnt (<[ s := e' ]> ss) k p = cnt ss k p - here k p e + here k p e'.
Proof.
  intros Hs. rewrite <- (insert_delete_eq ss s e'), cnt_insert by apply lookup_delete_eq.
  by rewrite (cnt_delete ss s e).
Qed.

Lemma here_other k p e : eb_key e ≠ k → here k p e = 0.
Proof. intros Hk. unfold here. rewrite bool_decide_false; [done|tauto]. Qed.

Lemma here_own k p e : eb_key e = k → here k p e = if eqb (eb_pinned e) p then 1 else 0.
Proof.
  intros Hk. unfold here. destruct (eqb (eb_pinned e) p) eqn:E.
  - apply eqb_prop in E. by rewrite bool_decide_true.
  - rewrite bool_decide_false; [done|]. intros [_ Hp]. rewrite Hp, eqb_reflx in E. done.
Qed.

Lemma cnt_nonneg ss k p : 0 ≤ cnt ss k p.
Proof. unfold cnt. lia. Qed.

Lemma cnt_pos ss s e : ss !! s = Some e → 0 < cnt ss (eb_key e) (eb_pinned e).
Proof.
  intros Hs. pose proof (cnt_delete ss s e (eb_key e) (eb_pinned e) Hs).
  pose proof (cnt_nonneg (delete s ss) (eb_key e) (eb_pinned e)). rewrite here_own, eqb_reflx in * by done. lia.
Qed.

Lemma cnt_zero ss k : cnt ss k true = 0 → cnt ss k false = 0 → ∀ s e, ss !! s = Some e → eb_key e ≠ k.
Proof. intros H1 H2 s e Hs <-. pose proof (cnt_pos _ _ _ Hs). destruct (eb_pinned e); lia. Qed.

(** A change of one session's entry leaves the other keys' records right. *)
Lemma kb_ok_other ss ss' k okb s :
  (∀ s', s' ≠ s → ss' !! s' = ss !! s') →
  (∀ e, ss !! s = Some e → eb_key e ≠ k) → (∀ e, ss' !! s = Some e → eb_key e ≠ k) →
  (∀ p, cnt ss' k p = cnt ss k p) → kb_ok ss k okb → kb_ok ss' k okb.
Proof.
  intros Hne Hs Hs' Hc. unfold kb_ok. destruct okb as [kb|].
  - intros (Hf & Hn & Hp & Hl). rewrite !Hc. split_and!; [|done..]. intros q s'. rewrite Hf.
    destruct (decide (s' = s)) as [->|]; [|by rewrite Hne]. split; intros He; [by apply Hs in He|by apply Hs' in He].
  - intros Hf s' e He. destruct (decide (s' = s)) as [->|]; [by apply Hs'|]. rewrite Hne in He by done. by eapply Hf.
Qed.

Lemma untrack_sessions s b : eb_sessions (untrack s b) = delete s (eb_sessions b).
Proof. unfold untrack. destruct (eb_sessions b !! s) eqn:E; [done|]. by rewrite delete_id. Qed.

Lemma untrack_limits s b :
  eb_per_key (untrack s b) = eb_per_key b ∧ eb_capacity (untrack s b) = eb_capacity b ∧ eb_next (untrack s b) = eb_next b.
Proof. unfold untrack. by destruct (eb_sessions b !! s). Qed.

Lemma untrack_inv s b : bindings_inv b → bindings_inv (untrack s b).
Proof.
  intros [Hk Hn Hq]. destruct (eb_sessions b !! s) as [e|] eqn:Es; [|unfold untrack; by rewrite Es].
  split.
  2: { rewrite untrack_sessions. intros s' e' He. apply lookup_delete_Some in He as [_ He].
       destruct (untrack_limits s b) as (_ & _ & ->). eauto. }
  2: { rewrite untrack_sessions. intros ???? [_ H1]%lookup_delete_Some [_ H2]%lookup_delete_Some. eauto. }
  intros k. rewrite untrack_sessions. unfold untrack. rewrite Es. cbn [eb_keys].
  destruct (decide (eb_key e = k)) as [Hke|Hke].
  2: { replace (match eb_keys b !! eb_key e with Some _ => _ | None => _ end !! k) with (eb_keys b !! k).
       - apply (kb_ok_other (eb_sessions b) _ k _ s).
         + intros s' Hne. by rewrite lookup_delete_ne.
         + intros e' He. by simplify_eq.
         + intros e'. by rewrite lookup_delete_eq.
         + intros p. rewrite (cnt_delete _ _ e), here_other by done. lia.
         + apply Hk.
       - destruct (eb_keys b !! eb_key e); [|done].
         destruct (_ =? 0); [by rewrite lookup_delete_ne|by rewrite lookup_insert_ne]. }
  pose proof (Hk k) as Hkb. rewrite Hke. destruct (eb_keys b !! k) as [kb|] eqn:Ek.
  2: { by pose proof (Hkb _ _ Es). }
  destruct Hkb as (Hf & Hsz & Hp & Hl).
  set (kb' := if eb_pinned e then _ else _).
  assert ((∀ q s', kb_free kb' !! q = Some s' ↔ delete s (eb_sessions b) !! s' = Some (mkEB k q false)) ∧
    Z.of_nat (size (kb_free kb')) = cnt (delete s (eb_sessions b)) k false ∧
    kb_pinned kb' = cnt (delete s (eb_sessions b)) k true) as (Hf' & Hsz' & Hp').
  { rewrite !(cnt_delete _ _ e), !here_own by done. unfold kb'. destruct (eb_pinned e) eqn:Epin; cbn [kb_free kb_pinned eqb].
    - split_and!; [|lia..]. intros q s'. rewrite Hf, lookup_delete_Some. split; [|tauto].
      intros He. split; [|done]. intros ->. rewrite Es in He. injection He as ->. done.
    - destruct e as [ek eq epn]. simpl in Hke, Epin. subst ek epn. cbn [eb_seq].
      assert (kb_free kb !! eq = Some s) as Hfs by (by apply Hf). split_and!; [| |lia].
      + intros q s'. rewrite !lookup_delete_Some, Hf. split.
        * intros [Hne He]. split; [|done]. intros ->. rewrite Es in He. congruence.
        * intros [Hne He]. split; [|done]. intros ->. apply Hne. symmetry. eapply Hq; [done|exact Es|done].
      + rewrite map_size_delete_Some by eauto. assert (size (kb_free kb) ≠ 0)%nat; [|lia].
        apply map_size_non_empty_iff. intros Hem. by rewrite Hem in Hfs. }
  destruct (kb_len kb' =? 0) eqn:El; bool_hyps.
  - rewrite lookup_delete_eq. unfold kb_len in El.
    pose proof (cnt_nonneg (delete s (eb_sessions b)) k false). pose proof (cnt_nonneg (delete s (eb_sessions b)) k true).
    refine (cnt_zero (delete s (eb_sessions b)) k _ _); lia.
  - rewrite lookup_insert_eq. cbn [kb_ok]. split_and!; [done..|]. unfold kb_len in *.
    pose proof (cnt_nonneg (delete s (eb_sessions b)) k false). pose proof (cnt_nonneg (delete s (eb_sessions b)) k true). lia.
Qed.

Lemma track_inv s key pinned b : bindings_inv b → bindings_inv (track s key pinned b).
Proof.
  intros Hb. unfold track. pose proof (untrack_inv s b Hb) as [Hk Hn Hq].
  assert (eb_sessions (untrack s b) !! s = None) as Es by (rewrite untrack_sessions; apply lookup_delete_eq).
  set (b0 := untrack s b) in *. clearbody b0. clear b Hb. split; cbn [eb_sessions eb_keys eb_next].
  2: { intros s' e [[<- <-]|[_ He]]%lookup_insert_Some; [simpl; lia|]. specialize (Hn _ _ He). lia. }
  2: { intros s1 s2 e1 e2 [[<- <-]|[_ H1]]%lookup_insert_Some [[<- <-]|[_ H2]]%lookup_insert_Some; simpl; intros Hs; try done.
       - specialize (Hn _ _ H2). lia.
       - specialize (Hn _ _ H1). lia.
       - eauto. }
  intros k. destruct (decide (k = key)) as [->|Hne].
  2: { rewrite lookup_insert_ne by done. apply (kb_ok_other (eb_sessions b0) _ k _ s).
       - intros s' Hs. by rewrite lookup_insert_ne.
       - by rewrite Es.
       - intros e. rewrite lookup_insert_eq. by intros [= <-].
       - intros p. rewrite cnt_insert, here_other by done. lia.
       - apply Hk. }
  rewrite lookup_insert_eq. set (kb := default KeyBindings_default (eb_keys b0 !! key)).
  assert ((∀ q s', kb_free kb !! q = Some s' ↔ eb_sessions b0 !! s' = Some (mkEB key q false)) ∧
    Z.of_nat (size (kb_free kb)) = cnt (eb_sessions b0) key false ∧
    kb_pinned kb = cnt (eb_sessions b0) key true) as (Hf & Hsz & Hp).
  { unfold kb. specialize (Hk key). destruct (eb_keys b0 !! key) as [kb'|]; [by destruct Hk as (? & ? & ? & _)|].
    cbn [default id KeyBindings_default kb_free kb_pinned]. simpl in Hk.
    assert (∀ p, cnt (eb_sessions b0) key p = 0) as Hz.
    { intros p. unfold cnt. rewrite map_empty_filter_2; [done|]. intros s' e He [Hke _]. by eapply Hk. }
    rewrite !Hz. split_and!; [|done..]. intros q s'. rewrite lookup_empty. split; [done|]. intros He. by eapply Hk in He. }
  assert (kb_free kb !! (eb_next b0 + 1) = None) as Hfresh.
  { destruct (kb_free kb !! _) eqn:E; [|done]. apply Hf, Hn in E. simpl in E. lia. }
  pose proof (cnt_nonneg (eb_sessions b0) key false). pose proof (cnt_nonneg (eb_sessions b0) key true).
  cbn [kb_ok]. rewrite !cnt_insert, !here_own by done.
  destruct pinned; cbn [kb_free kb_pinned eb_pinned eqb kb_len].
  - split_and!; [|lia..|unfold kb_len; simpl; lia]. intros q s'. rewrite Hf, lookup_insert_Some. split; [|intros [[_ ?]|[_ ?]]; done].
    intros He. right. split; [|done]. intros ->. by rewrite Es in He.
  - rewrite map_size_insert_None by done. split_and!; [|lia..|unfold kb_len; simpl; rewrite map_size_insert_None by done; lia].
    intros q s'. rewrite !lookup_insert_Some, Hf. split.
    + intros [[<- <-]|[Hq' He]]; [by left|right]. split; [|done]. intros ->. by rewrite Es in He.
    + intros [[<- [= <-]]|[Hs He]]; [by left|right]. split; [|done]. intros <-. apply Hn in He. simpl in He. lia.
Qed.

Lemma eb_eta e k q p : eb_key e = k → eb_seq e = q → eb_pinned e = p → e = mkEB k q p.
Proof. destruct e. simpl. congruence. Qed.

Lemma set_pinned_sessions s k p b s' :
  eb_sessions (set_pinned s k p b) !! s' =
  (λ e, if decide (s' = s ∧ eb_key e = k) then mkEB (eb_key e) (eb_seq e) p else e) <$> eb_sessions b !! s'.
Proof.
  unfold set_pinned. destruct (eb_sessions b !! s) as [e|] eqn:Es.
  - destruct (negb (beq (eb_key e) k) || eqb (eb_pinned e) p) eqn:Ec.
    + destruct (eb_sessions b !! s') as [e'|] eqn:Es'; simpl; [|done]. f_equal. case_decide as Hd; [|done].
      destruct Hd as [-> Hk]. simplify_eq. rewrite beq_refl in Ec. simpl in Ec. apply eqb_prop in Ec. by apply eb_eta.
    + apply orb_false_iff in Ec as [Ek _]. apply negb_false_iff, beq_true in Ek.
      transitivity (<[s:=mkEB (eb_key e) (eb_seq e) p]> (eb_sessions b) !! s').
      { by destruct (eb_keys b !! k). }
      destruct (decide (s' = s)) as [->|Hne].
      * rewrite lookup_insert_eq, Es. simpl. by rewrite decide_True.
      * rewrite lookup_insert_ne by done. destruct (eb_sessions b !! s'); simpl; [|done]. by rewrite decide_False by tauto.
  - destruct (eb_sessions b !! s') eqn:Es'; simpl; [|done]. rewrite decide_False; [done|]. intros [-> _]. congruence.
Qed.

Lemma set_pinned_limits s k p b :
  eb_per_key (set_pinned s k p b) = eb_per_key b ∧ eb_capacity (set_pinned s k p b) = eb_capacity b ∧
  eb_next (set_pinned s k p b) = eb_next b ∧ size (eb_sessions (set_pinned s k p b)) = size (eb_sessions b).
Proof.
  unfold set_pinned. destruct (eb_sessions b !! s) as [e|] eqn:Es; [|done]. destruct (_ || _); [done|].
  destruct (eb_keys b !! k); simpl; rewrite map_size_insert_Some by eauto; done.
Qed.

Lemma set_pinned_inv s k p b : bindings_inv b → bindings_inv (set_pinned s k p b).
Proof.
  intros [Hk Hn Hq].
  assert (∀ s' e', eb_sessions (set_pinned s k p b) !! s' = Some e' → ∃ e, eb_sessions b !! s' = Some e ∧ eb_seq e' = eb_seq e) as Hs.
  { intros s' e'. rewrite set_pinned_sessions. destruct (eb_sessions b !! s') as [e|]; simpl; [|done].
    intros [= <-]. exists e. split; [done|]. by case_decide. }
  split.
  2: { intros s' e' (e & He & ->)%Hs. destruct (set_pinned_limits s k p b) as (_ & _ & -> & _). eauto. }
  2: { intros s1 s2 e1 e2 (e & He & ->)%Hs (e' & He' & ->)%Hs. eauto. }
  clear Hs. intros k'. unfold set_pinned. destruct (eb_sessions b !! s) as [e|] eqn:Es; [|done].
  destruct (negb (beq (eb_key e) k) || eqb (eb_pinned e) p) eqn:Ec; [done|].
  apply orb_false_iff in Ec as [Ek Ep]. apply negb_false_iff, beq_true in Ek.
  set (ss := <[s:=mkEB (eb_key e) (eb_seq e) p]> (eb_sessions b)).
  assert (∀ pp, cnt ss k' pp = cnt (eb_sessions b) k' pp - here k' pp e + here k' pp (mkEB (eb_key e) (eb_seq e) p)) as Hc.
  { intros pp. by apply cnt_update. }
  pose proof (Hk k) as Hkb. destruct (eb_keys b !! k) as [kb|] eqn:Ekb; [|by eapply Hkb in Es].
  cbn [eb_sessions eb_keys]. fold ss. destruct (decide (k' = k)) as [->|Hne].
  2: { rewrite lookup_insert_ne by done. apply (kb_ok_other (eb_sessions b) ss k' _ s); [| | | |apply Hk].
       - intros s' Hs. unfold ss. by rewrite lookup_insert_ne.
       - intros e' He. simplify_eq. congruence.
       - intros e'. unfold ss. rewrite lookup_insert_eq. intros [= <-]. simpl. congruence.
       - intros pp. rewrite Hc, !here_other by (simpl; congruence). lia. }
  rewrite lookup_insert_eq. destruct Hkb as (Hf & Hsz & Hp & Hl).
  pose proof (Hc true) as Hct. pose proof (Hc false) as Hcf.
  rewrite !here_own in Hct, Hcf by done. cbn [eb_pinned] in Hct, Hcf.
  destruct p; destruct (eb_pinned e) eqn:Epin; try done; cbn [eqb] in Hct, Hcf; cbn [kb_ok kb_free kb_pinned].
  - assert (kb_free kb !! eb_seq e = Some s) as Hfs by (apply Hf; rewrite Es; f_equal; by apply eb_eta).
    assert (size (delete (eb_seq e) (kb_free kb)) = size (kb_free kb) - 1)%nat as Hd by (rewrite map_size_delete_Some by eauto; lia).
    assert (size (kb_free kb) ≠ 0)%nat as Hz by (apply map_size_non_empty_iff; intros Hem; by rewrite Hem in Hfs).
    split_and!; [|lia|lia|unfold kb_len in *; simpl; lia].
    intros q s'. rewrite lookup_delete_Some, Hf. unfold ss. rewrite lookup_insert_Some. split.
    + intros [Hqe He]. right. split; [|done]. intros <-. rewrite Es in He. injection He as ->. simpl in *. congruence.
    + intros [[_ ?]|[Hs He]]; [done|]. split; [|done]. intros Hqe. apply Hs. eapply Hq; [exact Es|exact He|done].
  - assert (kb_free kb !! eb_seq e = None) as Hfs.
    { destruct (kb_free kb !! eb_seq e) as [s'|] eqn:Ef; [|done]. apply Hf in Ef.
      assert (s = s') as <- by (eapply Hq; [exact Es|exact Ef|done]). rewrite Es in Ef. injection Ef as Ef. by rewrite Ef in Epin. }
    rewrite map_size_insert_None by done. split_and!; [|lia|lia|unfold kb_len in *; simpl; rewrite map_size_insert_None by done; lia].
    intros q s'. unfold ss. rewrite !lookup_insert_Some, Hf. split.
    + intros [[<- <-]|[Hqe He]]; [left; by rewrite Ek|right]. split; [|done]. intros <-. rewrite Es in He. injection He as ->. simpl in *. congruence.
    + intros [[<- [= _ <-]]|[Hs He]]; [by left|right]. split; [|done]. intros Hqe. apply Hs. eapply Hq; [exact Es|exact He|done].
Qed.

(** ** Shares *)

Lemma held_count b k :
  bindings_inv b → eb_held_by b k = cnt (eb_sessions b) k false + cnt (eb_sessions b) k true.
Proof.
  intros Hb. pose proof (ei_keys b Hb k) as Hk. unfold eb_held_by. destruct (eb_keys b !! k) as [kb|].
  - destruct Hk as (_ & Hf & Hp & _). unfold kb_len. lia.
  - unfold cnt. simpl in Hk. rewrite !map_empty_filter_2; [done|..]; intros s e He [Hke _]; by eapply Hk.
Qed.

(** The entry that goes is unpinned and the oldest of its key's, and the key is the adder's
    own at its share, or else a key of the largest holding that stays level with the
    adder's. *)
Record victim_ok (b : EnvelopeBindings) (key : KeyId) (v : SessionId) (e : EnvelopeBinding) : Prop := {
  vo_entry : eb_sessions b !! v = Some e;
  vo_free : eb_pinned e = false;
  vo_oldest s e' : eb_sessions b !! s = Some e' → eb_key e' = eb_key e → eb_pinned e' = false → eb_seq e ≤ eb_seq e';
  vo_share : eb_per_key b ≤ eb_held_by b key → eb_key e = key;
  vo_fair : eb_held_by b key < eb_per_key b →
    eb_key e ≠ key ∧ eb_held_by b key + 2 ≤ eb_held_by b (eb_key e) ∧
    ∀ s e', eb_sessions b !! s = Some e' → eb_key e' ≠ key → eb_pinned e' = false →
      eb_held_by b (eb_key e') ≤ eb_held_by b (eb_key e) }.

Lemma free_head b k kb v :
  bindings_inv b → eb_keys b !! k = Some kb → head (values (kb_free kb)) = Some v →
  ∃ e, eb_sessions b !! v = Some e ∧ eb_key e = k ∧ eb_pinned e = false ∧
    ∀ s e', eb_sessions b !! s = Some e' → eb_key e' = k → eb_pinned e' = false → eb_seq e ≤ eb_seq e'.
Proof.
  intros Hb Hk Hv. pose proof (ei_keys b Hb k) as Hkb. rewrite Hk in Hkb. destruct Hkb as (Hf & _).
  apply head_values in Hv as (q & Hq & Hmin). exists (mkEB k q false). split_and!; [by apply Hf|done|done|].
  intros s e' He Hke Hpe. assert (kb_free kb !! eb_seq e' = Some s) as Hs by (apply Hf; rewrite He; f_equal; by apply eb_eta).
  apply Hmin in Hs. unfold leb, Z_order in Hs. by apply Z.leb_le in Hs.
Qed.

Lemma victim_spec b key v : bindings_inv b → victim b key = Some v → ∃ e, victim_ok b key v e.
Proof.
  intros Hb Hv. unfold victim in Hv. destruct (eb_per_key b <=? eb_held_by b key) eqn:E; bool_hyps.
  - inv_binds. edestruct free_head as (e & He & Hke & Hp & Hmin); [done|eassumption|eassumption|].
    exists e. split; [done|done| |done|lia]. intros s e' Hs Hk'. apply (Hmin s); [done|congruence].
  - apply option_bind_Some in Hv as ([k kb] & Hmax & Hv).
    pose proof (max_by_key_elem _ _ _ Hmax) as Hin. apply list_elem_of_In, filter_In in Hin as [Hin Hc].
    apply list_elem_of_In, elem_of_items in Hin. cbn [fst snd] in Hc. bool_hyps.
    edestruct free_head as (e & He & Hke & Hp & Hmin); [done|exact Hin|exact Hv|].
    assert (eb_held_by b k = kb_len kb) as Hheld by (unfold eb_held_by; by rewrite Hin).
    exists e. split; [done|done| |lia|].
    { intros s e' Hs Hk'. apply (Hmin s); [done|congruence]. }
    intros _. rewrite Hke, Hheld. split_and!; [|lia|].
    { match goal with H : beq _ _ = false |- _ => apply bool_decide_eq_false in H end. done. }
    intros s e' Hs Hk' Hp'. destruct (Z.le_gt_cases (eb_held_by b (eb_key e')) (kb_len kb)) as [|Hgt]; [done|exfalso].
    pose proof (ei_keys b Hb (eb_key e')) as Hkb'. unfold eb_held_by in Hgt at 1.
    destruct (eb_keys b !! eb_key e') as [kb'|] eqn:Ek'; [|by eapply Hkb'].
    destruct Hkb' as (Hf' & _).
    assert (leb (kb_len kb', kb_latest kb') (kb_len kb, kb_latest kb) = true) as Hle.
    { apply (max_by_key_max _ _ _ Hmax (eb_key e', kb')). apply list_elem_of_In, filter_In. split.
      - by apply list_elem_of_In, elem_of_items.
      - cbn [fst snd]. apply andb_true_iff. split; [apply andb_true_iff; split|].
        + apply negb_true_iff, bool_decide_eq_false. done.
        + apply Z.leb_le. lia.
        + apply negb_true_iff, bool_decide_eq_false. intros Hem.
          assert (kb_free kb' !! eb_seq e' = Some s) as Hs' by (apply Hf'; rewrite Hs; f_equal; by apply eb_eta).
          by rewrite Hem in Hs'. }
    unfold leb, prod_order in Hle. cbn [fst snd] in Hle. case_decide; [lia|]. unfold leb, Z_order in Hle. bool_hyps. lia.
Qed.

(** ** Making room for a new entry *)

(** What [bind_from_envelope] does before it adds an entry for [key]: the table it adds to,
    and the session that lost its entry. *)
Definition make_room (b : EnvelopeBindings) (key : KeyId) : option (option SessionId * EnvelopeBindings) :=
  if eb_has_room b key then Some (None, b)
  else v ← victim b key; Some (Some v, untrack v b).

Definition within_limits (b : EnvelopeBindings) : Prop :=
  Z.of_nat (size (eb_sessions b)) ≤ eb_capacity b ∧ ∀ k, eb_held_by b k ≤ eb_per_key b.

Lemma held_untrack b s e k :
  bindings_inv b → eb_sessions b !! s = Some e →
  eb_held_by (untrack s b) k = eb_held_by b k - (if decide (eb_key e = k) then 1 else 0).
Proof.
  intros Hb Hs. rewrite !held_count by auto using untrack_inv. rewrite untrack_sessions, !(cnt_delete _ _ e) by done.
  case_decide; [rewrite !here_own by done; destruct (eb_pinned e); simpl; lia|rewrite !here_other by done; lia].
Qed.

Lemma held_track b s key p k :
  bindings_inv b → eb_sessions b !! s = None →
  eb_held_by (track s key p b) k = eb_held_by b k + (if decide (key = k) then 1 else 0).
Proof.
  intros Hb Hs. rewrite !held_count by auto using track_inv. unfold track. cbn [eb_sessions].
  rewrite untrack_sessions, delete_id, !cnt_insert by done.
  case_decide; [rewrite !here_own by done; destruct p; simpl; lia|rewrite !here_other by done; lia].
Qed.

Lemma track_sessions s key p b :
  eb_sessions (track s key p b) = <[ s := mkEB key (eb_next b + 1) p ]> (eb_sessions b).
Proof.
  unfold track. cbn [eb_sessions]. rewrite untrack_sessions, insert_delete_eq.
  by destruct (untrack_limits s b) as (_ & _ & ->).
Qed.

Lemma track_limits s key p b :
  eb_per_key (track s key p b) = eb_per_key b ∧ eb_capacity (track s key p b) = eb_capacity b.
Proof. unfold track. simpl. destruct (untrack_limits s b) as (-> & -> & _). done. Qed.

(** An entry added in the room made never takes a table, or a key, past its bound. *)
Lemma make_room_limits b key s p v b' :
  bindings_inv b → within_limits b → eb_sessions b !! s = None → make_room b key = Some (v, b') →
  within_limits (track s key p b').
Proof.
  intros Hb [Hcap Hshare] Hs. unfold make_room. unfold eb_has_room. destruct (_ && _) eqn:Er.
  - intros [= <- <-]. bool_hyps. destruct (track_limits s key p b) as [H1 H2]. split.
    + rewrite track_sessions, H2, map_size_insert_None by done. lia.
    + intros k. rewrite H1, held_track by done. case_decide; [subst; lia|]. specialize (Hshare k). lia.
  - intros Hm. apply option_bind_Some in Hm as (x & Hx & [= <- <-]).
    destruct (victim_spec b key x Hb Hx) as [e Hvo]. pose proof (vo_entry _ _ _ _ Hvo) as He.
    destruct (track_limits s key p (untrack x b)) as [H1 H2]. destruct (untrack_limits x b) as (H3 & H4 & _).
    assert (eb_sessions (untrack x b) !! s = None) as Hs' by (rewrite untrack_sessions, lookup_delete_None; auto).
    assert (size (eb_sessions b) ≠ 0)%nat as Hz by (apply map_size_non_empty_iff; intros Hem; by rewrite Hem in He).
    split.
    + rewrite track_sessions, H2, H4, map_size_insert_None by done.
      rewrite untrack_sessions, map_size_delete_Some by eauto. lia.
    + intros k. rewrite H1, H3, held_track, (held_untrack b x e) by auto using untrack_inv.
      specialize (Hshare k). destruct (decide (key = k)) as [->|]; [|case_decide; lia].
      destruct (Z.le_gt_cases (eb_per_key b) (eb_held_by b k)) as [Hge|Hlt]; [|case_decide; lia].
      rewrite decide_True by (by apply Hvo). lia.
Qed.
