(* ===== verification/Authorization.v ===== *)
(** * The authorization engine ([core/src/authorization.rs])

    The trusted keys, grants, bindings, own sessions, records and settings an implementation
    decides by, the operations that change them, and the decisions over them.  The engine's
    clock is the [now] an operation is given; the log is a list, newest last, with an operator
    change kept as data in place of the text written for it. *)

From S2P Require Import Prelude Ordered Base64url Ids Utf8 Json JsonFacts JsonReader JsonText.
From S2P Require Import Delivery Canonical Envelope EnvelopeFacts Keys Trust Signing Replay Receipt Reply Receiver.
From S2P Require Import SignedObject Agreement Pairing Registration RecordBook Bindings.

(** ** Questions and answers *)

Inductive Kind : Type := K_Deliver | K_Discover | K_ReleasePresence | K_AcceptPresence | K_RelayPermission.

#[export] Instance Kind_eq_dec : EqDecision Kind.
Proof. solve_decision. Defined.

Record DeliverQuestion := mkDeliver {
  dq_verifying_key : KeyId; dq_from : SessionId; dq_to : SessionId; dq_reply_to : option Token }.

Inductive Requester : Type :=
| Rq_Session (s : SessionId)
| Rq_Device (k : KeyId).

Inductive AuthorizationRequest : Type :=
| Q_Deliver (q : DeliverQuestion)
| Q_Discover (requester : Requester) (session : SessionId)
| Q_ReleasePresence (session : SessionId) (device : KeyId)
| Q_AcceptPresence (signing_key : KeyId) (session : SessionId)
| Q_RelayPermission (session : SessionId).

(** [AuthorizationRequest::deliver]. *)
Definition deliver_request (msg : ChannelMessage) : option DeliverQuestion :=
  by_ ← cm_verified_by msg;
  let env := cm_envelope msg in
  Some (mkDeliver (sp_key_id by_) (env_from env) (env_to env) (env_reply_to env)).

Definition request_kind (r : AuthorizationRequest) : Kind :=
  match r with
  | Q_Deliver _ => K_Deliver
  | Q_Discover _ _ => K_Discover
  | Q_ReleasePresence _ _ => K_ReleasePresence
  | Q_AcceptPresence _ _ => K_AcceptPresence
  | Q_RelayPermission _ => K_RelayPermission
  end.

Inductive Basis : Type :=
| InboundGrant (g : Grant)
| OutboundGrant (g : Grant)
| ReplyRight (r : SentRecord)
| Sent (r : SentRecord)
| HandOff (r : HandOffRecord)
| RelaySetting (s : SessionId).

Definition basis_label (b : Basis) : string :=
  match b with
  | InboundGrant _ => "inbound-grant"
  | OutboundGrant _ => "outbound-grant"
  | ReplyRight _ => "reply-right"
  | Sent _ => "sent-record"
  | HandOff _ => "hand-off-record"
  | RelaySetting _ => "relay-setting"
  end.

Inductive Outcome : Type :=
| Permit (b : Basis)
| Deny.

Record AuthorizationDecision := mkDecision { ad_kind : Kind; ad_outcome : Outcome }.

Definition decision_basis (d : AuthorizationDecision) : option Basis :=
  match ad_outcome d with Permit b => Some b | Deny => None end.

Definition permits (d : AuthorizationDecision) (kind : Kind) : bool :=
  bool_decide (ad_kind d = kind) && match ad_outcome d with Permit _ => true | Deny => false end.

(** ** The log *)

Record DecisionRecord := mkDecisionRecord {
  dc_at : Timestamp; dc_kind : Kind; dc_permitted : bool; dc_basis : option string;
  dc_principal : option SecurityPrincipal; dc_key_id : option KeyId; dc_from : option SessionId;
  dc_session : option SessionId }.

Inductive Change : Type :=
| Ch_Paired (k : KeyId) (with_statement : bool)
| Ch_Admitted (seq : Z) (k : KeyId)
| Ch_OwnStatement (seq : Z)
| Ch_RemovedKey (k : KeyId) (grants bindings : Z)
| Ch_AddedGrant (g : option Grant)
| Ch_RemovedGrant (g : Grant)
| Ch_Relay (s : SessionId) (enabled : bool).

Inductive LogEntry : Type :=
| L_Decision (d : DecisionRecord)
| L_Finding (f : BindingFinding)
| L_Change (c : Change).

(** ** The engine's state *)

(** [HandOffPartition]. *)
Definition HandOffPartition : Type := option KeyId * option SessionId.

Record Engine := mkEngine {
  own_key : KeyId;
  trusted : TrustedKeySet;
  paired : gmap KeyId PairingRecord;
  own_sessions : gmap SessionId WorkingDirectoryScope;
  grants : list Grant;
  bindings : gmap SessionId Binding;
  envelope_bound : EnvelopeBindings;
  sent : RecordBook SessionId SentRecord;
  handed_off : RecordBook HandOffPartition HandOffRecord;
  relay : gset SessionId;
  agreements : gmap KeyId HeldStatement;
  log : list LogEntry }.

Definition Engine_new (own : DeviceIdentity) : Engine :=
  mkEngine (tk_key_id (di_entry own)) (TrustedKeySet_new own) ∅ ∅ [] ∅
    (EnvelopeBindings_new MAX_ENVELOPE_BINDINGS MAX_ENVELOPE_BINDINGS_PER_KEY)
    (RecordBook_new false) (RecordBook_new true) ∅ ∅ [].

(** Assignments to the engine's fields. *)
Definition set_keys (t : TrustedKeySet) (p : gmap KeyId PairingRecord) (a : gmap KeyId HeldStatement) (e : Engine) : Engine :=
  mkEngine (own_key e) t p (own_sessions e) (grants e) (bindings e) (envelope_bound e) (sent e) (handed_off e) (relay e) a (log e).
Definition set_own_sessions (o : gmap SessionId WorkingDirectoryScope) (e : Engine) : Engine :=
  mkEngine (own_key e) (trusted e) (paired e) o (grants e) (bindings e) (envelope_bound e) (sent e) (handed_off e) (relay e) (agreements e) (log e).
Definition set_grants (g : list Grant) (e : Engine) : Engine :=
  mkEngine (own_key e) (trusted e) (paired e) (own_sessions e) g (bindings e) (envelope_bound e) (sent e) (handed_off e) (relay e) (agreements e) (log e).
Definition set_bindings (b : gmap SessionId Binding) (eb : EnvelopeBindings) (e : Engine) : Engine :=
  mkEngine (own_key e) (trusted e) (paired e) (own_sessions e) (grants e) b eb (sent e) (handed_off e) (relay e) (agreements e) (log e).
Definition set_sent (s : RecordBook SessionId SentRecord) (e : Engine) : Engine :=
  mkEngine (own_key e) (trusted e) (paired e) (own_sessions e) (grants e) (bindings e) (envelope_bound e) s (handed_off e) (relay e) (agreements e) (log e).
Definition set_handed_off (h : RecordBook HandOffPartition HandOffRecord) (e : Engine) : Engine :=
  mkEngine (own_key e) (trusted e) (paired e) (own_sessions e) (grants e) (bindings e) (envelope_bound e) (sent e) h (relay e) (agreements e) (log e).
Definition set_relay (r : gset SessionId) (e : Engine) : Engine :=
  mkEngine (own_key e) (trusted e) (paired e) (own_sessions e) (grants e) (bindings e) (envelope_bound e) (sent e) (handed_off e) r (agreements e) (log e).
Definition add_log (l : LogEntry) (e : Engine) : Engine :=
  mkEngine (own_key e) (trusted e) (paired e) (own_sessions e) (grants e) (bindings e) (envelope_bound e) (sent e) (handed_off e) (relay e) (agreements e) (log e ++ [l]).

Definition change (c : Change) (e : Engine) : Engine := add_log (L_Change c) e.

Definition handoff_partition (e : Engine) (key : option KeyId) (from : SessionId) : HandOffPartition :=
  let own := bool_decide (key = Some (own_key e)) in
  (key, then_some own from).

(** The hand-off records of envelopes from [from]. *)
Definition handoffs_from (e : Engine) (from : SessionId) : list HandOffRecord :=
  match bindings e !! from with
  | Some (BKey k) => partition (handed_off e) (handoff_partition e (Some k) from) ++ partition (handed_off e) (None, None)
  | _ => partition (handed_off e) (None, None)
  end.

Definition sent_records_from (e : Engine) (from : SessionId) : list SentRecord := partition (sent e) from.

Definition engine_reply_headers (e : Engine) (from to : SessionId) (requested_target : option (list Z)) : ReplyHeaders :=
  let records := map envelope_record
    (List.filter (λ r, beq (ho_to r) from && beq (ho_from r) to) (handoffs_from e to)) in
  reply_headers records from to requested_target.

(** ** Sessions and the binding table *)

Definition sync_pins (e : Engine) : Engine :=
  let '(changes, h) := take_sender_changes (handed_off e) in
  let eb := foldl (λ eb c, match c with
                           | ((Some k, _), sender, held) => set_pinned sender k held eb
                           | ((None, _), _, _) => eb
                           end) (envelope_bound e) changes in
  set_handed_off h (set_bindings (bindings e) eb e).

Definition end_session (session : SessionId) (e : Engine) : bool * Engine :=
  match own_sessions e !! session with
  | None => (false, e)
  | Some _ =>
      let e := set_own_sessions (delete session (own_sessions e)) e in
      let e := set_bindings (delete session (bindings e)) (envelope_bound e) e in
      let e := set_sent (drop_partitions (λ k, beq k session) (sent e)) e in
      let h := retain (λ r, negb (beq (ho_to r) session)) (handed_off e) in
      let h := drop_partitions (λ x, bool_decide (x.1 = Some (own_key e)) && bool_decide (x.2 = Some session)) h in
      (true, sync_pins (set_handed_off h e))
  end.

Definition bind (session : SessionId) (key : KeyId) (e : Engine) : BindOutcome * Engine :=
  match bindings e !! session with
  | None => (Bound, set_bindings (<[ session := BKey key ]> (bindings e)) (envelope_bound e) e)
  | Some (BKey k) =>
      if beq k key then (AlreadyBound, set_bindings (bindings e) (untrack session (envelope_bound e)) e)
      else (BoundToOther k, e)
  | Some (BConflict _) => (UnderConflict, e)
  end.

Definition mark_conflict (session : SessionId) (claimant : KeyId) (e : Engine) : bool * Engine :=
  if is_some (own_sessions e !! session) then (false, e)
  else
    match bindings e !! session with
    | None => (false, e)
    | Some entry =>
        let keys := match entry with BKey k => {[ k; claimant ]} | BConflict keys => keys ∪ {[ claimant ]} end in
        (true, set_bindings (<[ session := BConflict keys ]> (bindings e)) (untrack session (envelope_bound e)) e)
    end.

Definition forget_binding (session : SessionId) (e : Engine) : bool * Engine :=
  if is_some (own_sessions e !! session) ||
     match bindings e !! session with Some (BConflict _) | None => true | _ => false end
  then (false, e)
  else (true, set_bindings (delete session (bindings e)) (untrack session (envelope_bound e)) e).

Definition with_envelope_binding_limits (capacity per_key : Z) (e : Engine) : Engine :=
  set_bindings (bindings e) (EnvelopeBindings_new capacity per_key) e.

Definition bind_from_envelope (from : SessionId) (key : KeyId) (e : Engine) : bool * Engine :=
  let go e :=
    let pinned := holds_sender (handed_off e) (handoff_partition e (Some key) from) from in
    (true, set_bindings (<[ from := BKey key ]> (bindings e)) (track from key pinned (envelope_bound e)) e) in
  if eb_has_room (envelope_bound e) key then go e
  else
    match victim (envelope_bound e) key with
    | None => (false, e)
    | Some v => go (set_bindings (delete v (bindings e)) (untrack v (envelope_bound e)) e)
    end.

(** ** Records *)

Definition record_sent (now : Timestamp) (record : SentRecord) (e : Engine) : Engine :=
  set_sent (push (sn_from record) record now (sent e)).2 e.

Definition record_handoff (now : Timestamp) (record : HandOffRecord) (outcome : DeliveryState) (e : Engine) : Engine :=
  match outcome with
  | D_HandedToHarness | D_Unknown =>
      let own := bool_decide (ho_key_id record = Some (own_key e)) in
      if own && negb (is_some (own_sessions e !! ho_from record)) then e
      else
        let rebind := match own, ho_key_id record, bindings e !! ho_from record with
                      | false, Some k, None => then_some (is_some (keyset_get (trusted e) k)) k
                      | _, _, _ => None
                      end in
        let from := ho_from record in
        let key := handoff_partition e (ho_key_id record) from in
        let e := set_handed_off (push key record now (handed_off e)).2 e in
        let e := sync_pins e in
        match rebind with
        | None => e
        | Some k =>
            let e := if eb_has_room (envelope_bound e) k then e
                     else match victim (envelope_bound e) k with
                          | Some v => set_bindings (delete v (bindings e)) (untrack v (envelope_bound e)) e
                          | None => e
                          end in
            let pinned := holds_sender (handed_off e) key from in
            set_bindings (<[ from := BKey k ]> (bindings e)) (track from k pinned (envelope_bound e)) e
        end
  | _ => e
  end.

Definition forget_handoff (record : HandOffRecord) (e : Engine) : bool * Engine :=
  let key := handoff_partition e (ho_key_id record) (ho_from record) in
  let '(removed, h) := remove_first key
    (λ r, beq (ho_id r) (ho_id record) && beq (ho_from r) (ho_from record) && beq (ho_to r) (ho_to record)) (handed_off e) in
  (removed, sync_pins (set_handed_off h e)).

Definition prune (now : Timestamp) (e : Engine) : Engine :=
  let e := set_sent (retain (λ r, within_reply_period (sn_created_at r) now) (sent e)) e in
  sync_pins (set_handed_off (retain (λ r, within_reply_period (ho_created_at r) now) (handed_off e)) e).

(** ** Decisions *)

Definition covers_inbound (q_key : KeyId) (q_from q_to : SessionId) (own : gmap SessionId WorkingDirectoryScope) (g : Grant) : bool :=
  match g with
  | Inbound writer target => peer_names writer q_key q_from && includes target q_to own
  | Outbound _ _ => false
  end.

Definition engine_deliver (e : Engine) (q : DeliverQuestion) (now : Timestamp) : option Basis :=
  if match bindings e !! dq_from q with
     | Some (BKey k) => negb (beq k (dq_verifying_key q))
     | Some (BConflict _) => true
     | None => false
     end
  then None
  else
    match find (covers_inbound (dq_verifying_key q) (dq_from q) (dq_to q) (own_sessions e)) (grants e) with
    | Some g => Some (InboundGrant g)
    | None =>
        reply_to ← dq_reply_to q;
        ReplyRight <$> find (λ r, beq (sn_to_key_id r) (dq_verifying_key q) && beq (sn_to r) (dq_from q) &&
                                  beq (sn_from r) (dq_to q) && beq (sn_id r) reply_to &&
                                  within_reply_period (sn_created_at r) now && is_some (own_sessions e !! sn_from r))
                           (partition (sent e) (dq_to q))
    end.

Definition engine_discover (e : Engine) (l s : SessionId) (now : Timestamp) : option Basis :=
  let own := own_sessions e in
  if negb (is_some (own !! l)) then None
  else
    let by_grant :=
      if is_some (own !! s) then find (covers_inbound (own_key e) l s own) (grants e)
      else
        match bindings e !! s with
        | Some (BKey k) =>
            find (λ g, match g with
                       | Outbound writer target => includes writer l own && peer_names target k s
                       | Inbound _ _ => false
                       end) (grants e)
        | _ => None
        end in
    match by_grant with
    | Some (Inbound _ _ as g) => Some (InboundGrant g)
    | Some (Outbound _ _ as g) => Some (OutboundGrant g)
    | None =>
        HandOff <$> find (λ h, beq (ho_to h) l && beq (ho_from h) s && within_reply_period (ho_created_at h) now)
                         (handoffs_from e s)
    end.

(** [Iterator::find_map]. *)
Fixpoint find_map {A B} (f : A → option B) (l : list A) : option B :=
  match l with
  | [] => None
  | a :: l => match f a with Some b => Some b | None => find_map f l end
  end.

Definition engine_release (e : Engine) (s : SessionId) (k : KeyId) : option Basis :=
  let own := own_sessions e in
  if negb (is_some (own !! s)) then None
  else
    find_map (λ g, match g with
                   | Inbound writer target => then_some (beq (pe_key_id writer) k && includes target s own) (InboundGrant g)
                   | Outbound writer target => then_some (beq (pe_key_id target) k && includes writer s own) (OutboundGrant g)
                   end) (grants e).

Definition engine_related (e : Engine) (k : KeyId) (r : SessionId) (now : Timestamp) : option Basis :=
  match find_map (λ g, match g with
                       | Inbound writer _ => then_some (peer_names writer k r) (InboundGrant g)
                       | Outbound _ target => then_some (peer_names target k r) (OutboundGrant g)
                       end) (grants e) with
  | Some b => Some b
  | None =>
      match find (λ x, beq (sn_to x) r && beq (sn_to_key_id x) k && within_reply_period (sn_created_at x) now) (iter (sent e)) with
      | Some x => Some (Sent x)
      | None =>
          HandOff <$> find (λ h, beq (ho_from h) r && within_reply_period (ho_created_at h) now) (handoffs_from e r)
      end
  end.

Definition evaluate (e : Engine) (request : AuthorizationRequest) (now : Timestamp) : Outcome :=
  let found :=
    match request with
    | Q_Deliver q => engine_deliver e q now
    | Q_Discover (Rq_Session l) session => engine_discover e l session now
    | Q_Discover (Rq_Device k) session => engine_release e session k
    | Q_ReleasePresence session device => engine_release e session device
    | Q_AcceptPresence signing_key session => engine_related e signing_key session now
    | Q_RelayPermission session =>
        then_some (is_some (own_sessions e !! session) && bool_decide (session ∈ relay e)) (RelaySetting session)
    end in
  match found with Some b => Permit b | None => Deny end.

Definition record_of (e : Engine) (request : AuthorizationRequest) (decision : AuthorizationDecision) (now : Timestamp) : DecisionRecord :=
  let '(key, from, session) :=
    match request with
    | Q_Deliver q => (Some (dq_verifying_key q), Some (dq_from q), Some (dq_to q))
    | Q_Discover (Rq_Session s) session => (None, Some s, Some session)
    | Q_Discover (Rq_Device k) session => (Some k, None, Some session)
    | Q_ReleasePresence session device => (Some device, None, Some session)
    | Q_AcceptPresence signing_key session => (Some signing_key, None, Some session)
    | Q_RelayPermission session => (None, None, Some session)
    end in
  mkDecisionRecord now (ad_kind decision) (match ad_outcome decision with Permit _ => true | Deny => false end)
    (basis_label <$> decision_basis decision) (security_principal <$> (k ← key; keyset_get (trusted e) k)) key from session.

Definition decide_at (request : AuthorizationRequest) (now : Timestamp) (e : Engine) : AuthorizationDecision * Engine :=
  let decision := mkDecision (request_kind request) (evaluate e request now) in
  (decision, add_log (L_Decision (record_of e request decision now)) e).

(** [authorize_delivery_at]: security step 4. *)
Definition authorize_delivery (msg : ChannelMessage) (now : Timestamp) (e : Engine)
    : result AuthorizationRefusal (AuthorizedMessage AuthorizationDecision) * Engine :=
  let refuse requirement finding := mkRefusal D_Rejected E_Unauthorized requirement finding in
  match deliver_request msg with
  | None => (Err (refuse "SEC-STG-003"%string None), e)
  | Some q =>
      let from := dq_from q in
      let key := dq_verifying_key q in
      let '(decision, e) := decide_at (Q_Deliver q) now e in
      let pass :=
        if negb (permits decision K_Deliver) then (Err (refuse "SEC-AUZ-001"%string None), e)
        else
          let '(bound, e) := if is_some (bindings e !! from) then (true, e) else bind_from_envelope from key e in
          if bound then (Ok (mkAuthorized msg decision), e)
          else (Err (mkRefusal D_Failed E_InternalError "SEC-PRS-005"%string None), e) in
      match bindings e !! from with
      | Some (BKey bound) =>
          if negb (beq bound key)
          then let finding := mkFinding from bound key in
               (Err (refuse "SEC-AUZ-003"%string (Some finding)), add_log (L_Finding finding) e)
          else pass
      | Some (BConflict _) => (Err (refuse "SEC-PRS-012"%string None), e)
      | None => pass
      end
  end.

(** ** Keys, grants, settings and statements, with the store they are saved to *)

Definition snapshot (e : Engine) : PairingSnapshot :=
  mkSnapshot (values (paired e)) (grants e) (set_items (relay e))
    (List.filter (λ h, negb (beq (hs_key_id h) (own_key e))) (values (agreements e))).

Inductive RemoveKeyError : Type := RK_OwnKey | RK_NotTrusted | RK_NotSaved (err : PairingStoreError).
Inductive PairError : Type := PA_AlreadyTrusted (err : AddKeyError) | PA_NotSaved (err : PairingStoreError).
Inductive RestoreError : Type :=
| RE_Store (err : PairingStoreError)
| RE_DuplicateKey (k : KeyId)
| RE_StatementWithoutKey (k : KeyId)
| RE_StatementBelowConfirmed (k : KeyId).

Record KeyRemoval := mkRemoval {
  kr_grants : list Grant; kr_bindings : list SessionId; kr_statement : option HeldStatement;
  kr_confirmed : option ConfirmedValues }.

Section Stored.
Context `{C : Crypto} {S : Type} (store : PairingStore S).

Definition save (e : Engine) (s : S) : result PairingStoreError unit * S := pst_save S store (snapshot e) s.

Definition pair_key (peer : PairedPeer) (now : Timestamp) (e : Engine) (s : S) : result PairError unit * Engine * S :=
  let record := pp_record peer in
  let key := record_key_id record in
  match add_paired_key (pr_principal record) (pr_public_key record) (trusted e) with
  | (Err err, _) => (Err (PA_AlreadyTrusted err), e, s)
  | (Ok _, t) =>
      let admitted :=
        st ← pp_statement peer;
        opt_filter (λ h, beq (hs_key_id h) key) (ok (check_statement st t (λ _, None) now)) in
      let record := with_confirmed record (Agreement.of_held <$> admitted) in
      let e' := set_keys t (<[ key := record ]> (paired e))
                  (match admitted with Some h => <[ key := h ]> (agreements e) | None => agreements e end) e in
      match save e' s with
      | (Err err, s) =>
          (Err (PA_NotSaved err),
           set_keys (keyset_remove key (trusted e')).2 (delete key (paired e')) (delete key (agreements e')) e', s)
      | (Ok _, s) => (Ok tt, change (Ch_Paired key (is_some admitted)) e', s)
      end
  end.

(** [admit_own_statement]. *)
Definition admit_own_statement (statement : AgreementStatement) (now : Timestamp) (e : Engine)
    : result StatementRefusal (option HeldStatement) * Engine :=
  match check_statement statement (trusted e) (λ _, None) now with
  | Err err => (Err err, e)
  | Ok held =>
      if negb (beq (hs_key_id held) (own_key e)) then (Err SR_Signature, e)
      else
        let key := own_key e in
        let keep e := set_keys (trusted e) (paired e) (<[ key := held ]> (agreements e)) (change (Ch_OwnStatement (hs_seq held)) e) in
        match agreements e !! key with
        | Some h =>
            if bool_decide (h = held) then (Ok (Some h), e)
            else if hs_seq held <=? hs_seq h then (Err SR_NotNewer, e)
            else (Ok (Some held), keep e)
        | None => (Ok (Some held), keep e)
        end
  end.

Definition admit_statement (statement : AgreementStatement) (now : Timestamp) (e : Engine) (s : S)
    : result StatementRefusal (option HeldStatement) * Engine * S :=
  match check_statement statement (trusted e) (λ k, agreements e !! k) now with
  | Err err => (Err err, e, s)
  | Ok held =>
      let key := hs_key_id held in
      if beq key (own_key e) then let '(r, e) := admit_own_statement statement now e in (r, e, s)
      else
        match check_confirmed held (r ← paired e !! key; pr_confirmed r) with
        | Err err => (Err err, e, s)
        | Ok _ =>
            let previous := agreements e !! key in
            let e' := set_keys (trusted e) (paired e) (<[ key := held ]> (agreements e)) e in
            match save e' s with
            | (Err err, s) =>
                (Err (SR_NotSaved err),
                 set_keys (trusted e') (paired e')
                   (match previous with Some p => <[ key := p ]> (agreements e') | None => delete key (agreements e') end) e', s)
            | (Ok _, s) => (Ok (Some held), change (Ch_Admitted (hs_seq held) key) e', s)
            end
        end
  end.

Definition remove_key (key_id : KeyId) (e : Engine) (s : S) : result RemoveKeyError KeyRemoval * Engine * S :=
  if beq key_id (own_key e) then (Err RK_OwnKey, e, s)
  else
    match keyset_remove key_id (trusted e) with
    | (None, _) => (Err RK_NotTrusted, e, s)
    | (Some _, t) =>
        let confirmed := r ← paired e !! key_id; pr_confirmed r in
        let agreement_statement := agreements e !! key_id in
        let e := set_keys t (delete key_id (paired e)) (delete key_id (agreements e)) e in
        let removed := List.filter (λ g, names_key g key_id) (grants e) in
        let e := set_grants (List.filter (λ g, negb (names_key g key_id)) (grants e)) e in
        let gone := map fst (List.filter (λ x, binding_names x.2 key_id) (items (bindings e))) in
        let e := foldl (λ e s, set_bindings (delete s (bindings e)) (untrack s (envelope_bound e)) e) e gone in
        let e := set_handed_off (drop_partitions (λ x, bool_decide (x.1 = Some key_id)) (handed_off e)) e in
        let e := sync_pins e in
        let e := change (Ch_RemovedKey key_id (len removed) (len gone)) e in
        match save e s with
        | (Err err, s) => (Err (RK_NotSaved err), e, s)
        | (Ok _, s) => (Ok (mkRemoval removed gone agreement_statement confirmed), e, s)
        end
    end.

Definition add_grant (grant : Grant) (e : Engine) (s : S) : result PairingStoreError bool * Engine * S :=
  if bool_decide (grant ∈ grants e) then (Ok false, e, s)
  else
    let e' := set_grants (grants e ++ [grant]) e in
    match save e' s with
    | (Err err, s) => (Err err, set_grants (removelast (grants e')) e', s)
    | (Ok _, s) => (Ok true, change (Ch_AddedGrant (List.last (map Some (grants e')) None)) e', s)
    end.

Definition remove_grant (grant : Grant) (e : Engine) (s : S) : result PairingStoreError bool * Engine * S :=
  let before := length (grants e) in
  let e' := set_grants (List.filter (λ g, negb (bool_decide (g = grant))) (grants e)) e in
  if bool_decide (length (grants e') = before) then (Ok false, e', s)
  else
    let e' := change (Ch_RemovedGrant grant) e' in
    match save e' s with
    | (Err err, s) => (Err err, e', s)
    | (Ok _, s) => (Ok true, e', s)
    end.

(** [AuthorizationEngine::set_relay]. *)
Definition engine_set_relay (session : SessionId) (enabled : bool) (e : Engine) (s : S)
    : result PairingStoreError unit * Engine * S :=
  if enabled
  then
    let added := negb (bool_decide (session ∈ relay e)) in
    let e' := set_relay (relay e ∪ {[ session ]}) e in
    match save e' s with
    | (Err err, s) => (Err err, if added then set_relay (relay e' ∖ {[ session ]}) e' else e', s)
    | (Ok _, s) => (Ok tt, change (Ch_Relay session enabled) e', s)
    end
  else
    let e' := set_relay (relay e ∖ {[ session ]}) e in
    match save e' s with
    | (Err err, s) => (Err err, e', s)
    | (Ok _, s) => (Ok tt, change (Ch_Relay session enabled) e', s)
    end.

Definition register_session (record : RegistrationRecord) (own : DeviceIdentity) (e : Engine) : bool * Engine :=
  if negb (beq (tk_key_id (di_entry own)) (own_key e)) || negb (binding_usable record own) then (false, e)
  else
    let s := rg_session_id record in
    let e := set_own_sessions (<[ s := working_directory record ]> (own_sessions e)) e in
    (true, set_bindings (<[ s := BKey (own_key e) ]> (bindings e)) (untrack s (envelope_bound e)) e).

(** [AuthorizationEngine::restore]: the paired keys, then the statements. *)
Fixpoint restore_paired (records : list PairingRecord) (e : Engine) : result RestoreError Engine :=
  match records with
  | [] => Ok e
  | record :: records =>
      let key := record_key_id record in
      match add_paired_key (pr_principal record) (pr_public_key record) (trusted e) with
      | (Err _, _) => Err (RE_DuplicateKey key)
      | (Ok _, t) => restore_paired records (set_keys t (<[ key := record ]> (paired e)) (agreements e) e)
      end
  end.

Fixpoint restore_statements (held : list HeldStatement) (e : Engine) : result RestoreError Engine :=
  match held with
  | [] => Ok e
  | h :: held =>
      let key := hs_key_id h in
      if negb (is_some (paired e !! key)) || is_some (agreements e !! key) then Err (RE_StatementWithoutKey key)
      else
        match check_confirmed h (r ← paired e !! key; pr_confirmed r) with
        | Err _ => Err (RE_StatementBelowConfirmed key)
        | Ok _ => restore_statements held (set_keys (trusted e) (paired e) (<[ key := h ]> (agreements e)) e)
        end
  end.

Definition restore (own : DeviceIdentity) (s : S) : result RestoreError Engine :=
  snap ← map_err RE_Store (pst_load S store s);
  e ← restore_paired (sp_paired snap) (Engine_new own);
  let e := set_grants (foldl (λ gs g, if bool_decide (g ∈ gs) then gs else gs ++ [g]) (grants e) (sp_grants snap)) e in
  let e := set_relay (list_to_set (sp_relay_enabled snap)) e in
  restore_statements (sp_agreement_statements snap) e.
End Stored.
