(* ===== verification/AuthorizationFacts.v ===== *)
(** * The authorization engine: invariant and eviction

    What holds of the engine's tables after any sequence of its operations: own sessions are
    bound to the own key, the entries envelopes created are the ones counted, those a hand-off
    record is looked up through are pinned, and the record lists keep their own invariant. *)

From S2P Require Import Prelude Ordered Base64url Ids Utf8 Json JsonFacts JsonReader JsonText.
From S2P Require Import Delivery Canonical Envelope EnvelopeFacts Keys Trust Signing Replay Receipt Reply Receiver.
From S2P Require Import SignedObject Agreement Pairing Registration RecordBook Bindings Authorization.

(** The partition a record of that key and sender is filed under. *)
Definition part_of (own : KeyId) (key : option KeyId) (from : SessionId) : HandOffPartition :=
  (key, then_some (bool_decide (key = Some own)) from).

Lemma handoff_partition_eq e key from : handoff_partition e key from = part_of (own_key e) key from.
Proof. done. Qed.

(** What a hand-off partition says of its senders. *)
Definition sender_filed (own : KeyId) (p : HandOffPartition) (s : SessionId) : Prop := p = part_of own p.1 s.

(** The pin of each tracked entry says whether a hand-off record is looked up through it. *)
Definition pinned_by (own : KeyId) (h : KeyId → SessionId → bool) (eb : EnvelopeBindings) : Prop :=
  ∀ s b, eb_sessions eb !! s = Some b → eb_pinned b = h (eb_key b) s.

Definition held_for (own : KeyId) (i : SenderIndex HandOffPartition) (k : KeyId) (s : SessionId) : bool :=
  holds i (part_of own (Some k) s) s.

(** Own sessions, the binding table and the entries envelopes created. *)
Record tables_inv (own : KeyId) (os : gmap SessionId WorkingDirectoryScope) (bnd : gmap SessionId Binding)
    (eb : EnvelopeBindings) : Prop := {
  ti_own s : is_Some (os !! s) → bnd !! s = Some (BKey own);
  ti_tracked s b : eb_sessions eb !! s = Some b → bnd !! s = Some (BKey (eb_key b)) ∧ os !! s = None;
  ti_bound : bindings_inv eb }.

Record sent_inv (b : RecordBook SessionId SentRecord) : Prop := {
  si_inv : book_inv b;
  si_bounded : bounded b;
  si_filed k r : r ∈ partition b k → sn_from r = k }.

Record handed_inv (own : KeyId) (b : RecordBook HandOffPartition HandOffRecord) : Prop := {
  hi_inv : book_inv b;
  hi_bounded : bounded b;
  hi_filed p r : r ∈ partition b p → p = part_of own (ho_key_id r) (ho_from r);
  hi_enabled : si_enabled (senders b) = true }.

Record engine_inv (e : Engine) : Prop := {
  ei_tables : tables_inv (own_key e) (own_sessions e) (bindings e) (envelope_bound e);
  ei_sent : sent_inv (sent e);
  ei_handed : handed_inv (own_key e) (handed_off e);
  ei_changes : si_changes (senders (handed_off e)) = [];
  ei_pins : pinned_by (own_key e) (held_for (own_key e) (senders (handed_off e))) (envelope_bound e) }.

(** ** The pins follow the changes *)

Definition apply_pins (eb : EnvelopeBindings) (cs : list (HandOffPartition * SessionId * bool)) : EnvelopeBindings :=
  foldl (λ eb c, match c with
                 | ((Some k, _), sender, held) => set_pinned sender k held eb
                 | ((None, _), _, _) => eb
                 end) eb cs.

Lemma apply_pins_sessions own cs eb s :
  Forall (λ c, sender_filed own c.1.1 c.1.2) cs →
  eb_sessions (apply_pins eb cs) !! s =
  (λ b, mkEB (eb_key b) (eb_seq b) (replay (λ _ _, eb_pinned b) cs (part_of own (Some (eb_key b)) s) s)) <$> eb_sessions eb !! s.
Proof.
  intros Hcs. revert eb. induction Hcs as [|[[[ko f] sender] held] cs Hc _ IH]; intros eb.
  - cbn. destruct (eb_sessions eb !! s) as [[]|]; done.
  - unfold apply_pins in *. cbn [foldl]. unfold sender_filed in Hc. cbn [fst snd] in Hc. destruct ko as [k|].
    + rewrite IH, set_pinned_sessions. destruct (eb_sessions eb !! s) as [b|]; cbn [fmap option_fmap option_map]; [|done]. f_equal.
      destruct (decide (s = sender ∧ eb_key b = k)) as [[-> <-]|Hne]; cbn [eb_key eb_seq eb_pinned]; f_equal;
        unfold replay; cbn [foldl fst snd].
      * rewrite (decide_True (P := (part_of own (Some (eb_key b)) sender, sender) = (Some (eb_key b), f, sender))); [done|].
        by rewrite Hc.
      * rewrite (decide_False (P := (part_of own (Some (eb_key b)) s, s) = (Some k, f, sender))); [done|].
        intros [= H1 _ H2]. apply Hne. split; congruence.
    + rewrite IH. destruct (eb_sessions eb !! s) as [b|]; cbn [fmap option_fmap option_map]; [|done]. do 2 f_equal.
Qed.

Lemma apply_pins_inv cs eb : bindings_inv eb → bindings_inv (apply_pins eb cs).
Proof.
  revert eb. induction cs as [|[[[[k|] f] s] h] cs IH]; intros eb Hb; cbn; [done| |by apply IH].
  by apply IH, set_pinned_inv.
Qed.

Lemma apply_pins_limits cs eb :
  eb_per_key (apply_pins eb cs) = eb_per_key eb ∧ eb_capacity (apply_pins eb cs) = eb_capacity eb.
Proof.
  revert eb. induction cs as [|[[[[k|] f] s] h] cs IH]; intros eb; cbn; [done| |by apply IH].
  destruct (set_pinned_limits s k h eb) as (H1 & H2 & _). destruct (IH (set_pinned s k h eb)) as [H3 H4].
  unfold apply_pins in *. split; congruence.
Qed.

Lemma sync_pins_eq e :
  sync_pins e = set_handed_off (take_sender_changes (handed_off e)).2
    (set_bindings (bindings e) (apply_pins (envelope_bound e) (si_changes (senders (handed_off e)))) e).
Proof. done. Qed.

(** A change of the hand-off records, then [sync_pins]. *)
Lemma sync_pins_pins own eb i i' :
  pinned_by own (held_for own i) eb → positive i → si_changes i = [] → rtc (sender_step (sender_filed own)) i i' →
  pinned_by own (held_for own i') (apply_pins eb (si_changes i')).
Proof.
  intros Hp Hpos Hch Hsteps. destruct (steps_track _ _ _ Hpos Hsteps) as (_ & cs & Hcs & Hf & Hr).
  rewrite Hch in Hcs. cbn in Hcs. rewrite Hcs. intros s b Hb. rewrite (apply_pins_sessions own) in Hb by done.
  destruct (eb_sessions eb !! s) as [b0|] eqn:E; [|done]. cbn in Hb. injection Hb as <-. cbn [eb_pinned eb_key].
  unfold held_for. rewrite Hr. unfold replay. by rewrite (Hp s b0 E).
Qed.

Lemma handed_filed own h : handed_inv own h → filed (sender_filed own) h.
Proof.
  intros Hh p r Hr. pose proof (hi_filed own h Hh p r Hr) as Hp. unfold sender_filed. rewrite Hp at 1. by rewrite Hp.
Qed.

Lemma shrinks_handed own h h' : handed_inv own h → shrinks (sender_filed own) h h' → handed_inv own h'.
Proof.
  intros Hh Hs. pose proof (hi_inv _ _ Hh) as Hb. split.
  - by apply Hs.
  - by eapply shrinks_bounded; [|exact Hs|apply Hh].
  - intros p r Hr. apply (hi_filed own h Hh). by eapply elem_of_submseteq, sublist_submseteq, (sh_records _ _ _ Hs Hb p).
  - rewrite <- (hi_enabled own h Hh). apply (steps_enabled (sender_filed own)), Hs; [done|by apply handed_filed].
Qed.

Lemma shrinks_sent b b' : sent_inv b → shrinks any b b' → sent_inv b'.
Proof.
  intros Hh Hs. pose proof (si_inv _ Hh) as Hb. split.
  - by apply Hs.
  - by eapply shrinks_bounded; [|exact Hs|apply Hh].
  - intros p r Hr. apply (si_filed b Hh). by eapply elem_of_submseteq, sublist_submseteq, (sh_records _ _ _ Hs Hb p).
Qed.

(** Records after a push are the pushed one or were there. *)
Lemma pushed_elem {K R} `{Countable K} `{OrderLaws K} `{Dated R} (P : K → SessionId → Prop) (k : K) (r : R) now b k' x :
  book_inv b → bounded b → x ∈ partition (push k r now b).2 k' → (k' = k ∧ x = r) ∨ x ∈ partition b k'.
Proof.
  intros Hb Hbd Hx. pose proof (push_spec P k r now b Hb Hbd) as Hp. destruct (push k r now b) as [kept b']. cbn [fst snd] in *.
  assert (∀ k0 x0, x0 ∈ records_at (live (unix_nanos now) (parts b)) k0 → x0 ∈ partition b k0) as Hlive.
  { intros k0 x0. unfold records_at, live, partition. rewrite map_lookup_filter.
    destruct (parts b !! k0) as [p|]; cbn; [|done]. case_guard; cbn; [done|]. by intros ?%elem_of_nil. }
  assert (∀ t (l : list R) x0, x0 ∈ drop_expired t l → x0 ∈ l) as Hde.
  { intros t l. induction l as [|y l IH]; cbn; [done|]. intros x0. case_match; [|done]. intros ?%IH. by right. }
  assert (∀ k0, (kept = true → k0 ≠ k) → x ∈ partition b' k0 → x ∈ partition b k0) as Hother.
  { intros k0 Hne Hx0. destruct (pu_other _ _ _ _ _ _ _ Hp k0 Hne) as [Heq|(_ & _ & Heq)].
    - apply Hlive. unfold partition in Hx0. unfold records_at in Heq at 1. by rewrite <- Heq.
    - apply Hlive. unfold partition in Hx0. unfold records_at in Heq at 1. rewrite Heq in Hx0.
      destruct (records_at _ k0); [done|by right]. }
  destruct kept; [|right; by apply Hother].
  destruct (decide (k' = k)) as [->|]; [|right; by apply Hother].
  destruct (pu_own _ _ _ _ _ _ _ Hp eq_refl) as (n & _ & Hrec & _). unfold partition in Hx. unfold records_at in Hrec at 1.
  rewrite Hrec in Hx. apply elem_of_app in Hx as [Hx|Hx%list_elem_of_singleton]; [right|by left].
  unfold front_cut in Hx. apply Hlive, (Hde (unix_nanos now)).
  by eapply elem_of_submseteq, sublist_submseteq, sublist_drop.
Qed.

Lemma push_sent now r b : sent_inv b → sent_inv (push (sn_from r) r now b).2.
Proof.
  intros [Hb Hbd Hf]. destruct (push_spec any (sn_from r) r now b Hb Hbd) as [H1 H2 _ _ _ _]. split; [done|done|].
  intros k x Hx. apply (pushed_elem any) in Hx as [[-> ->]|Hx]; [done|by apply Hf|done|done].
Qed.

Lemma push_handed own now r h :
  handed_inv own h →
  let h' := (push (part_of own (ho_key_id r) (ho_from r)) r now h).2 in
  handed_inv own h' ∧ rtc (sender_step (sender_filed own)) (senders h) (senders h').
Proof.
  intros Hh. pose proof Hh as [Hb Hbd Hf Hen]. set (p := part_of own (ho_key_id r) (ho_from r)).
  destruct (push_spec (sender_filed own) p r now h Hb Hbd) as [H1 H2 _ H3 _ _].
  assert (rtc (sender_step (sender_filed own)) (senders h) (senders (push p r now h).2)) as Hst.
  { apply H3; [by apply handed_filed|]. done. }
  split; [|done]. split; [done|done| |].
  - intros k x Hx. apply (pushed_elem (sender_filed own)) in Hx as [[-> ->]|Hx]; [done|by apply Hf|done|done].
  - by rewrite (steps_enabled _ _ _ Hst).
Qed.

Lemma take_changes_handed own h : handed_inv own h → handed_inv own (take_sender_changes h).2.
Proof. intros [H1 H2 H3 H4]. split; [by apply take_changes_inv|done|done|done]. Qed.

(** The hand-off records replaced, then the pins brought up to date. *)
Lemma sync_inv e h :
  tables_inv (own_key e) (own_sessions e) (bindings e) (envelope_bound e) → sent_inv (sent e) →
  handed_inv (own_key e) (handed_off e) → si_changes (senders (handed_off e)) = [] →
  pinned_by (own_key e) (held_for (own_key e) (senders (handed_off e))) (envelope_bound e) →
  handed_inv (own_key e) h → rtc (sender_step (sender_filed (own_key e))) (senders (handed_off e)) (senders h) →
  engine_inv (sync_pins (set_handed_off h e)).
Proof.
  intros [Ho Ht Hb] Hs Hh Hc Hp Hh' Hst. rewrite sync_pins_eq.
  destruct (steps_track _ _ _ (exact_positive _ _ (bi_senders _ (hi_inv _ _ Hh))) Hst) as (_ & cs & Hcs & Hf & _).
  rewrite Hc in Hcs. cbn in Hcs. split; cbn [own_key own_sessions bindings envelope_bound sent handed_off set_handed_off set_bindings].
  - split; [done| |by apply apply_pins_inv]. intros s b. cbn [senders set_handed_off handed_off].
    rewrite Hcs, (apply_pins_sessions (own_key e)) by done. destruct (eb_sessions (envelope_bound e) !! s) as [b0|] eqn:E; [|done].
    cbn. intros [= <-]. cbn. by apply Ht.
  - done.
  - by apply take_changes_handed.
  - done.
  - apply (sync_pins_pins (own_key e) (envelope_bound e) (senders (handed_off e)) (senders h)); [done| |done|done].
    apply (exact_positive _ _ (bi_senders _ (hi_inv _ _ Hh))).
Qed.

Lemma sync_shrink e h :
  engine_inv e → shrinks (sender_filed (own_key e)) (handed_off e) h → engine_inv (sync_pins (set_handed_off h e)).
Proof.
  intros [Ht Hs Hh Hc Hp] Hsh. apply sync_inv; try done; [by eapply shrinks_handed|].
  apply Hsh; [apply Hh|by apply handed_filed].
Qed.

(** ** The binding table *)

Lemma set_bindings_inv e bnd eb :
  engine_inv e → tables_inv (own_key e) (own_sessions e) bnd eb →
  pinned_by (own_key e) (held_for (own_key e) (senders (handed_off e))) eb → engine_inv (set_bindings bnd eb e).
Proof. intros [Ht Hs Hh Hc Hp] Ht' Hp'. by split. Qed.

Lemma untrack_lookup s s' eb b : eb_sessions (untrack s eb) !! s' = Some b ↔ s ≠ s' ∧ eb_sessions eb !! s' = Some b.
Proof. by rewrite untrack_sessions, lookup_delete_Some. Qed.

Lemma untrack_pins own h s eb : pinned_by own h eb → pinned_by own h (untrack s eb).
Proof. intros Hp s' b [_ Hb]%untrack_lookup. by apply Hp. Qed.

Lemma unbind_inv e s :
  engine_inv e → own_sessions e !! s = None →
  engine_inv (set_bindings (delete s (bindings e)) (untrack s (envelope_bound e)) e).
Proof.
  intros He Hs. destruct (ei_tables e He) as [Ho Ht Hb]. apply set_bindings_inv; [done| |by apply untrack_pins, He].
  split; [| |by apply untrack_inv].
  - intros s' Hs'. rewrite lookup_delete_ne; [by apply Ho|]. intros <-. rewrite Hs in Hs'. by destruct Hs'.
  - intros s' b [Hne Hb']%untrack_lookup. rewrite lookup_delete_ne by done. by apply Ht.
Qed.

(** An entry replaced by one that no envelope accounts for. *)
Lemma rebound_inv e s x :
  engine_inv e → (is_Some (own_sessions e !! s) → x = BKey (own_key e)) →
  engine_inv (set_bindings (<[ s := x ]> (bindings e)) (untrack s (envelope_bound e)) e).
Proof.
  intros He Hx. destruct (ei_tables e He) as [Ho Ht Hb]. apply set_bindings_inv; [done| |by apply untrack_pins, He].
  split; [| |by apply untrack_inv].
  - intros s' Hs'. destruct (decide (s = s')) as [<-|Hne]; [rewrite lookup_insert_eq; by rewrite Hx|].
    rewrite lookup_insert_ne by done. by apply Ho.
  - intros s' b [Hne Hb']%untrack_lookup. rewrite lookup_insert_ne by done. by apply Ht.
Qed.

Lemma unbound_not_own e s : engine_inv e → bindings e !! s = None → own_sessions e !! s = None.
Proof.
  intros He Hs. destruct (own_sessions e !! s) eqn:E; [|done]. rewrite (ti_own _ _ _ _ (ei_tables e He) s) in Hs; eauto. done.
Qed.

(** A new entry that envelopes account for. *)
Lemma track_inv_engine e s key :
  engine_inv e → bindings e !! s = None →
  engine_inv (set_bindings (<[ s := BKey key ]> (bindings e))
    (track s key (holds_sender (handed_off e) (handoff_partition e (Some key) s) s) (envelope_bound e)) e).
Proof.
  intros He Hs. pose proof (unbound_not_own e s He Hs) as Hos. destruct (ei_tables e He) as [Ho Ht Hb].
  apply set_bindings_inv; [done| |].
  - split; [| |by apply track_inv].
    + intros s' Hs'. rewrite lookup_insert_ne; [by apply Ho|]. intros <-. rewrite Hos in Hs'. by destruct Hs'.
    + intros s' b. rewrite track_sessions. intros [[<- <-]|[Hne Hb']]%lookup_insert_Some.
      * by rewrite lookup_insert_eq.
      * rewrite lookup_insert_ne by done. by apply Ht.
  - intros s' b. rewrite track_sessions. intros [[<- <-]|[Hne Hb']]%lookup_insert_Some; [done|by apply He].
Qed.

Lemma unbind_victim_inv e key v :
  engine_inv e → victim (envelope_bound e) key = Some v →
  engine_inv (set_bindings (delete v (bindings e)) (untrack v (envelope_bound e)) e).
Proof.
  intros He Hv. destruct (ei_tables e He) as [Ho Ht Hb]. destruct (victim_spec _ _ _ Hb Hv) as [b Hvo].
  apply unbind_inv; [done|]. by apply (Ht v b), Hvo.
Qed.

Lemma victim_bound e key v s :
  engine_inv e → victim (envelope_bound e) key = Some v → bindings e !! s = None → v ≠ s.
Proof.
  intros He Hv Hs ->. destruct (ei_tables e He) as [Ho Ht Hb]. destruct (victim_spec _ _ _ Hb Hv) as [b Hvo].
  destruct (Ht s b (vo_entry _ _ _ _ Hvo)). congruence.
Qed.

Lemma bind_from_envelope_inv from key e :
  engine_inv e → bindings e !! from = None → engine_inv (bind_from_envelope from key e).2.
Proof.
  intros He Hf. unfold bind_from_envelope. destruct (eb_has_room _ _); [by apply track_inv_engine|].
  destruct (victim (envelope_bound e) key) as [v|] eqn:Ev; [|done]. cbn [snd].
  apply (track_inv_engine (set_bindings (delete v (bindings e)) (untrack v (envelope_bound e)) e)); [by eapply unbind_victim_inv|].
  cbn. rewrite lookup_delete_ne; [done|]. by eapply victim_bound.
Qed.

(** ** The other operations *)

(** Engines that differ in what the invariant does not read. *)
Definition same_tables (e e' : Engine) : Prop :=
  own_key e' = own_key e ∧ own_sessions e' = own_sessions e ∧ bindings e' = bindings e ∧
  envelope_bound e' = envelope_bound e ∧ sent e' = sent e ∧ handed_off e' = handed_off e.

Lemma same_tables_inv e e' : same_tables e e' → engine_inv e → engine_inv e'.
Proof. intros (H1 & H2 & H3 & H4 & H5 & H6) [Ht Hs Hh Hc Hp]. split; by rewrite ?H1, ?H2, ?H3, ?H4, ?H5, ?H6. Qed.

Lemma end_session_inv s e : engine_inv e → engine_inv (end_session s e).2.
Proof.
  intros He. unfold end_session. destruct (own_sessions e !! s) as [w|] eqn:Es; [|done]. cbn [snd].
  pose proof He as [[Ho Ht Hb] Hs Hh Hc Hp].
  set (e1 := set_sent _ _). set (h := drop_partitions _ _).
  assert (shrinks (sender_filed (own_key e)) (handed_off e) h) as Hsh.
  { unfold h. transitivity (retain (λ r, negb (beq (ho_to r) s)) (handed_off e1)); [apply retain_shrinks|apply drop_partitions_shrinks]. }
  apply (sync_inv e1 h); cbn [e1 own_key own_sessions bindings envelope_bound sent handed_off set_sent set_bindings set_own_sessions].
  - split; [| |done].
    + intros s' [x Hx]. apply lookup_delete_Some in Hx as [Hne Hx]. rewrite lookup_delete_ne by done. eauto.
    + intros s' b Hb'. destruct (Ht s' b Hb') as [H1 H2]. assert (s ≠ s') by congruence.
      by rewrite !lookup_delete_ne.
  - eapply shrinks_sent; [done|]. apply drop_partitions_shrinks.
  - done.
  - done.
  - done.
  - by eapply shrinks_handed.
  - apply Hsh; [apply Hh|by apply handed_filed].
Qed.

Lemma record_handoff_inv now record outcome e : engine_inv e → engine_inv (record_handoff now record outcome e).
Proof.
  intros He. unfold record_handoff. destruct outcome; try done.
  all: set (own := bool_decide (ho_key_id record = Some (own_key e))).
  all: destruct (own && negb (is_some (own_sessions e !! ho_from record))); [done|].
  all: destruct (push_handed (own_key e) now record (handed_off e) (ei_handed e He)) as [Hh' Hst].
  all: rewrite handoff_partition_eq; set (h := (push _ record now (handed_off e)).2) in *.
  all: assert (engine_inv (sync_pins (set_handed_off h e))) as He1 by (destruct He; by apply sync_inv).
  all: destruct (match own, ho_key_id record, bindings e !! ho_from record with | false, Some k, None => _ | _, _, _ => _ end)
         as [k|] eqn:Er; [|done].
  all: assert (own = false ∧ ho_key_id record = Some k ∧ bindings e !! ho_from record = None) as (Hown & Hk & Hb)
         by (unfold then_some in Er; repeat case_match; simplify_eq; done).
  all: set (e1 := sync_pins (set_handed_off h e)) in *.
  all: assert (bindings e1 !! ho_from record = None) as Hb1 by done.
  all: assert (part_of (own_key e) (ho_key_id record) (ho_from record) = handoff_partition e1 (Some k) (ho_from record)) as Hpart
         by (by rewrite Hk).
  all: rewrite Hpart; destruct (eb_has_room (envelope_bound e1) k); [by apply track_inv_engine|].
  all: destruct (victim (envelope_bound e1) k) as [v|] eqn:Ev; [|by apply track_inv_engine].
  all: apply (track_inv_engine (set_bindings (delete v (bindings e1)) (untrack v (envelope_bound e1)) e1)); [by eapply unbind_victim_inv|].
  all: cbn [bindings set_bindings]; rewrite lookup_delete_ne; [done|by eapply victim_bound].
Qed.

Lemma forget_handoff_inv record e : engine_inv e → engine_inv (forget_handoff record e).2.
Proof.
  intros He. unfold forget_handoff.
  pose proof (remove_first_shrinks (sender_filed (own_key e)) (handoff_partition e (ho_key_id record) (ho_from record))
    (λ r, beq (ho_id r) (ho_id record) && beq (ho_from r) (ho_from record) && beq (ho_to r) (ho_to record)) (handed_off e)) as Hs.
  destruct (remove_first _ _ _) as [removed h]. by apply sync_shrink.
Qed.

Lemma prune_inv now e : engine_inv e → engine_inv (prune now e).
Proof.
  intros He. unfold prune. set (e1 := set_sent _ e). assert (engine_inv e1) as He1.
  { destruct He as [Ht Hs Hh Hc Hp]. split; try done. eapply shrinks_sent; [done|]. apply retain_shrinks. }
  apply sync_shrink; [done|]. apply retain_shrinks.
Qed.

Lemma bind_inv s k e : engine_inv e → engine_inv (bind s k e).2.
Proof.
  intros He. unfold bind. destruct (bindings e !! s) as [[k'|ks]|] eqn:Es; cbn [snd]; try done.
  - destruct (beq k' k) eqn:Ek; cbn [snd]; [|done]. destruct (ei_tables e He) as [Ho Ht Hb].
    apply set_bindings_inv; [done| |by apply untrack_pins, He]. split; [done| |by apply untrack_inv].
    intros s' b [Hne Hb']%untrack_lookup. by apply Ht.
  - pose proof (unbound_not_own e s He Es) as Hos. destruct (ei_tables e He) as [Ho Ht Hb].
    apply set_bindings_inv; [done| |apply He]. split; [| |done].
    + intros s' Hs'. rewrite lookup_insert_ne; [by apply Ho|]. intros <-. rewrite Hos in Hs'. by destruct Hs'.
    + intros s' b Hb'. destruct (Ht s' b Hb') as [H1 H2]. rewrite lookup_insert_ne by congruence. done.
Qed.

Lemma mark_conflict_inv s k e : engine_inv e → engine_inv (mark_conflict s k e).2.
Proof.
  intros He. unfold mark_conflict. destruct (own_sessions e !! s) eqn:Eo; [done|]. cbn [is_some].
  destruct (bindings e !! s) as [x|] eqn:Es; cbn [snd]; [|done]. apply rebound_inv; [done|]. rewrite Eo. by intros [].
Qed.

Lemma forget_binding_inv s e : engine_inv e → engine_inv (forget_binding s e).2.
Proof.
  intros He. unfold forget_binding. destruct (own_sessions e !! s) eqn:Eo; [done|]. cbn [is_some orb].
  destruct (bindings e !! s) as [[k|ks]|] eqn:Es; cbn [snd]; [|done|done]. by apply unbind_inv.
Qed.

Lemma register_session_inv `{C : Crypto} record own e : engine_inv e → engine_inv (register_session record own e).2.
Proof.
  intros He. unfold register_session. destruct (_ || _); [done|]. cbn [snd]. destruct He as [[Ho Ht Hb] Hs Hh Hc Hp].
  split; cbn [own_key own_sessions bindings envelope_bound sent handed_off set_bindings set_own_sessions]; try done.
  - split; [| |by apply untrack_inv].
    + intros s' Hs'. destruct (decide (rg_session_id record = s')) as [<-|Hne]; [by rewrite lookup_insert_eq|].
      rewrite lookup_insert_ne in Hs' by done. rewrite lookup_insert_ne by done. by apply Ho.
    + intros s' b [Hne Hb']%untrack_lookup. rewrite !lookup_insert_ne by done. by apply Ht.
  - by apply untrack_pins.
Qed.

Lemma unbind_all_inv gone e :
  engine_inv e → Forall (λ s, own_sessions e !! s = None) gone →
  let e' := foldl (λ e s, set_bindings (delete s (bindings e)) (untrack s (envelope_bound e)) e) e gone in
  engine_inv e' ∧ own_key e' = own_key e ∧ own_sessions e' = own_sessions e ∧ handed_off e' = handed_off e ∧ grants e' = grants e ∧
  trusted e' = trusted e ∧ paired e' = paired e ∧ agreements e' = agreements e ∧ sent e' = sent e ∧ relay e' = relay e ∧
  ∀ s, bindings e' !! s = if decide (s ∈ gone) then None else bindings e !! s.
Proof.
  intros He Hg. revert e He Hg. induction gone as [|s gone IH]; intros e He Hg; cbv zeta; cbn [foldl].
  - split_and!; try done.
  - apply Forall_cons in Hg as [Hs Hg].
    destruct (IH (set_bindings (delete s (bindings e)) (untrack s (envelope_bound e)) e)) as (H1 & H2 & H3 & H4 & H5 & H6 & H7 & H8 & H9 & H10 & H11);
      [by apply unbind_inv|done|]. split_and!; try done. intros s'. rewrite H11. cbn [bindings set_bindings].
    destruct (decide (s' ∈ gone)) as [Hin|Hnin]; [by rewrite decide_True by (by right)|].
    destruct (decide (s' ∈ s :: gone)) as [Hin|Hnin'].
    + apply elem_of_cons in Hin as [->|]; [apply lookup_delete_eq|done].
    + rewrite lookup_delete_ne; [done|]. intros ->. apply Hnin'. left.
Qed.

Lemma named_bindings e key_id s :
  s ∈ map fst (List.filter (λ x, binding_names x.2 key_id) (items (bindings e))) ↔
  ∃ b, bindings e !! s = Some b ∧ binding_names b key_id = true.
Proof.
  rewrite list_elem_of_In, in_map_iff. setoid_rewrite filter_In. split.
  - intros ([s' b] & <- & Hin & Hb). exists b. split; [|done]. by apply list_elem_of_In, elem_of_items in Hin.
  - intros (b & Hs & Hb). exists (s, b). split_and!; [done| |done]. by apply list_elem_of_In, elem_of_items.
Qed.

(** The engine once a key's material is out of its tables. *)
Definition purge (key_id : KeyId) (e : Engine) : Engine :=
  let gone := map fst (List.filter (λ x, binding_names x.2 key_id) (items (bindings e))) in
  let e := foldl (λ e s, set_bindings (delete s (bindings e)) (untrack s (envelope_bound e)) e) e gone in
  sync_pins (set_handed_off (drop_partitions (λ x, bool_decide (x.1 = Some key_id)) (handed_off e)) e).

Lemma purge_own e key_id :
  engine_inv e → key_id ≠ own_key e →
  Forall (λ s, own_sessions e !! s = None) (map fst (List.filter (λ x, binding_names x.2 key_id) (items (bindings e)))).
Proof.
  intros He Hne. apply Forall_forall. intros s Hs. apply named_bindings in Hs as (b & Hb & Hn).
  destruct (own_sessions e !! s) eqn:E; [|done]. rewrite (ti_own _ _ _ _ (ei_tables e He) s) in Hb by eauto.
  injection Hb as <-. cbn in Hn. apply beq_true in Hn. by subst.
Qed.

Lemma purge_inv e key_id : engine_inv e → key_id ≠ own_key e → engine_inv (purge key_id e).
Proof.
  intros He Hne. unfold purge. destruct (unbind_all_inv _ e He (purge_own e key_id He Hne)) as (H1 & _).
  apply sync_shrink; [done|]. apply drop_partitions_shrinks.
Qed.

Lemma remove_key_inv `{C : Crypto} {S} (store : PairingStore S) key_id e s :
  engine_inv e → engine_inv (remove_key store key_id e s).1.2.
Proof.
  intros He. unfold remove_key. destruct (beq key_id (own_key e)) eqn:Ek; [done|].
  assert (key_id ≠ own_key e) as Hne by (intros ->; by rewrite beq_refl in Ek).
  destruct (keyset_remove key_id (trusted e)) as [[t|] ts]; [|done].
  set (e1 := set_grants _ (set_keys _ _ _ e)). assert (engine_inv e1) as He1 by (by apply (same_tables_inv e)).
  set (e2 := change _ _). assert (engine_inv e2) as He2.
  { apply (same_tables_inv (purge key_id e1)); [done|]. by apply purge_inv. }
  destruct (save store e2 s) as [[]]; done.
Qed.

Lemma authorize_delivery_inv msg now e : engine_inv e → engine_inv (authorize_delivery msg now e).2.
Proof.
  intros He. unfold authorize_delivery. destruct (deliver_request msg) as [q|]; [|done]. cbn [decide_at].
  set (e1 := add_log _ e). assert (engine_inv e1) as He1 by (by apply (same_tables_inv e)).
  destruct (bindings e1 !! dq_from q) as [[k|ks]|] eqn:Eb; cbn [is_some].
  - destruct (beq k (dq_verifying_key q)); cbn [negb snd]; [|by apply (same_tables_inv e1)].
    by destruct (negb (permits _ _)).
  - done.
  - destruct (negb (permits _ _)); [done|].
    pose proof (bind_from_envelope_inv (dq_from q) (dq_verifying_key q) e1 He1 Eb) as Hb.
    destruct (bind_from_envelope _ _ _) as [[] e2]; done.
Qed.
