(* ===== verification/AuthorizationSpec.v ===== *)
(** * The authorization engine: what its decisions rest on

    Theorems on every engine its operations reach: the agreement of its tables, the facts a
    permit rests on, security step 4, the removal of a key, and restoring a snapshot. *)

From S2P Require Import Prelude Ordered Base64url Ids Utf8 Json JsonFacts JsonReader JsonText.
From S2P Require Import Delivery Canonical Envelope EnvelopeFacts Keys Trust Signing Replay Receipt Reply Receiver.
From S2P Require Import SignedObject Agreement Pairing PairingFacts Registration RecordBook.
From S2P Require Import Bindings Authorization AuthorizationFacts.

(** ** The engines the operations reach *)

Inductive engine_op : Type :=
| EPair (peer : PairedPeer) (now : Timestamp)
| EAdmit (st : AgreementStatement) (now : Timestamp)
| EAdmitOwn (st : AgreementStatement) (now : Timestamp)
| ERemoveKey (k : KeyId)
| EAddGrant (g : Grant)
| ERemoveGrant (g : Grant)
| ESetRelay (s : SessionId) (enabled : bool)
| ERegister (record : RegistrationRecord) (own : DeviceIdentity)
| EEndSession (s : SessionId)
| EBind (s : SessionId) (k : KeyId)
| EMarkConflict (s : SessionId) (k : KeyId)
| EForgetBinding (s : SessionId)
| ERecordSent (now : Timestamp) (r : SentRecord)
| ERecordHandoff (now : Timestamp) (r : HandOffRecord) (outcome : DeliveryState)
| EForgetHandoff (r : HandOffRecord)
| EPrune (now : Timestamp)
| EDecide (q : AuthorizationRequest) (now : Timestamp)
| EAuthorize (msg : ChannelMessage) (now : Timestamp).

Section Ops.
Context `{C : Crypto} {S : Type} (store : PairingStore S).

Definition run_engine (es : Engine * S) (o : engine_op) : Engine * S :=
  let '(e, s) := es in
  match o with
  | EPair peer now => let '(_, e, s) := pair_key store peer now e s in (e, s)
  | EAdmit st now => let '(_, e, s) := admit_statement store st now e s in (e, s)
  | EAdmitOwn st now => ((admit_own_statement st now e).2, s)
  | ERemoveKey k => let '(_, e, s) := remove_key store k e s in (e, s)
  | EAddGrant g => let '(_, e, s) := add_grant store g e s in (e, s)
  | ERemoveGrant g => let '(_, e, s) := remove_grant store g e s in (e, s)
  | ESetRelay x b => let '(_, e, s) := engine_set_relay store x b e s in (e, s)
  | ERegister record own => ((register_session record own e).2, s)
  | EEndSession x => ((end_session x e).2, s)
  | EBind x k => ((bind x k e).2, s)
  | EMarkConflict x k => ((mark_conflict x k e).2, s)
  | EForgetBinding x => ((forget_binding x e).2, s)
  | ERecordSent now r => (record_sent now r e, s)
  | ERecordHandoff now r out => (record_handoff now r out e, s)
  | EForgetHandoff r => ((forget_handoff r e).2, s)
  | EPrune now => (prune now e, s)
  | EDecide q now => ((decide_at q now e).2, s)
  | EAuthorize msg now => ((authorize_delivery msg now e).2, s)
  end.

Lemma admit_own_same st now e : same_tables e (admit_own_statement st now e).2.
Proof.
  unfold admit_own_statement. destruct (check_statement _ _ _ _) as [h|]; [|done].
  destruct (negb _); [done|]. destruct (agreements e !! own_key e) as [h'|]; [|done].
  case_bool_decide; [done|]. by destruct (_ <=? _).
Qed.

Lemma run_engine_inv es o : engine_inv es.1 → engine_inv (run_engine es o).1.
Proof.
  destruct es as [e s]. cbn [fst]. intros He.
  assert (∀ e', same_tables e e' → engine_inv e') as Hsame by (intros e' H; by apply (same_tables_inv e)).
  destruct o; cbn [run_engine].
  - unfold pair_key. destruct (add_paired_key _ _ _) as [[] t]; [|by apply Hsame].
    destruct (save _ _ _) as [[] s']; by apply Hsame.
  - unfold admit_statement. destruct (check_statement _ _ _ _) as [h|]; [|by apply Hsame]. destruct (beq _ _).
    + pose proof (admit_own_same st now e) as H. destruct (admit_own_statement st now e) as [r e']. by apply Hsame.
    + destruct (check_confirmed _ _); [|by apply Hsame]. destruct (save _ _ _) as [[] s']; by apply Hsame.
  - apply Hsame, admit_own_same.
  - pose proof (remove_key_inv store k e s He) as H. by destruct (remove_key store k e s) as [[r e'] s'].
  - unfold add_grant. case_bool_decide; [by apply Hsame|]. destruct (save _ _ _) as [[] s']; by apply Hsame.
  - unfold remove_grant. case_bool_decide; [by apply Hsame|]. destruct (save _ _ _) as [[] s']; by apply Hsame.
  - unfold engine_set_relay. destruct enabled; destruct (save _ _ _) as [[] s']; try case_match; by apply Hsame.
  - by apply register_session_inv.
  - by apply end_session_inv.
  - by apply bind_inv.
  - by apply mark_conflict_inv.
  - by apply forget_binding_inv.
  - destruct He as [Ht Hs Hh Hc Hp]. split; try done. by apply push_sent.
  - by apply record_handoff_inv.
  - by apply forget_handoff_inv.
  - by apply prune_inv.
  - by apply Hsame.
  - by apply authorize_delivery_inv.
Qed.

Definition run_engine_all (own : DeviceIdentity) (s : S) (ops : list engine_op) : Engine * S :=
  foldl run_engine (Engine_new own, s) ops.

Lemma new_inv own : engine_inv (Engine_new own).
Proof.
  destruct (book_new_inv (K := SessionId) (R := SentRecord) MAX_RECORD_PARTITIONS false) as [H1 H2]; [by vm_compute|].
  destruct (book_new_inv (K := HandOffPartition) (R := HandOffRecord) MAX_RECORD_PARTITIONS true) as [H3 H4]; [by vm_compute|].
  split; cbn.
  - split.
    + intros s. rewrite lookup_empty. by intros [].
    + intros s b. cbn. by rewrite lookup_empty.
    + split; cbn.
      * intros k. rewrite lookup_empty. cbn. intros s e. by rewrite lookup_empty.
      * intros s e. by rewrite lookup_empty.
      * intros s s' e e'. by rewrite lookup_empty.
  - split; [done|done|]. intros k r. cbn. intros Hr. by apply elem_of_nil in Hr.
  - split; [done|done| |done]. intros k r. cbn. intros Hr. by apply elem_of_nil in Hr.
  - done.
  - intros s b. cbn. by rewrite lookup_empty.
Qed.

Lemma run_engine_all_inv own s ops : engine_inv (run_engine_all own s ops).1.
Proof.
  unfold run_engine_all. assert (engine_inv (Engine_new own, s).1) as H by apply new_inv. revert H.
  generalize (Engine_new own, s). induction ops as [|o ops IH]; intros es Hes; cbn; [done|].
  by apply IH, run_engine_inv.
Qed.
End Ops.

(** [C25] The engine's tables agree after any sequence of its operations, whatever its store
    answers: an own session is bound to the own key; an entry envelopes account for is in the
    binding table under its key and is not an own session's; it is pinned exactly when the
    partition of its key holds a hand-off record its session sent; and both record lists are
    within their bounds. *)
Theorem engine_tables_agree `{C : Crypto} {S : Type} (store : PairingStore S) (own : DeviceIdentity) (s : S)
    (ops : list engine_op) :
  let e := (run_engine_all store own s ops).1 in
  (∀ x, is_Some (own_sessions e !! x) → bindings e !! x = Some (BKey (own_key e))) ∧
  (∀ x b, eb_sessions (envelope_bound e) !! x = Some b →
     bindings e !! x = Some (BKey (eb_key b)) ∧ own_sessions e !! x = None ∧
     (eb_pinned b = true ↔ ∃ r, r ∈ partition (handed_off e) (handoff_partition e (Some (eb_key b)) x) ∧ ho_from r = x)) ∧
  Z.of_nat (size (parts (sent e))) ≤ max_partitions (sent e) ∧ total (sent e) ≤ MAX_RECORDS_TOTAL ∧
  Z.of_nat (size (parts (handed_off e))) ≤ max_partitions (handed_off e) ∧ total (handed_off e) ≤ MAX_RECORDS_TOTAL.
Proof.
  intros e. pose proof (run_engine_all_inv store own s ops) as He. fold e in He.
  destruct He as [[Ho Ht Hb] [_ [Hs1 Hs2] _] Hh Hc Hp]. pose proof Hh as [Hhi [Hh1 Hh2] _ Hen]. split_and!; try done.
  intros x b Hx. destruct (Ht x b Hx) as [H1 H2]. split_and!; [done|done|].
  rewrite (Hp x b Hx). unfold held_for. apply (holds_record (handed_off e) _ x Hhi Hen).
Qed.

(** ** What a permit rests on *)

(** A grant's sides, read as relations. *)
Definition peer_covers (p : PeerSide) (k : KeyId) (s : SessionId) : Prop :=
  pe_key_id p = k ∧ (pe_session_id p = None ∨ pe_session_id p = Some s).

Definition local_covers (side : LocalSide) (s : SessionId) (e : Engine) : Prop :=
  match side with
  | LS_Session id => id = s
  | LS_Scope scope => own_sessions e !! s = Some scope
  | LS_Device => is_Some (own_sessions e !! s)
  end.

(** Which grants release an own session to a device. *)
Inductive releases (e : Engine) : SessionId → KeyId → Basis → Prop :=
| Re_in s writer target :
    is_Some (own_sessions e !! s) → Inbound writer target ∈ grants e → local_covers target s e →
    releases e s (pe_key_id writer) (InboundGrant (Inbound writer target))
| Re_out s writer target :
    is_Some (own_sessions e !! s) → Outbound writer target ∈ grants e → local_covers writer s e →
    releases e s (pe_key_id target) (OutboundGrant (Outbound writer target)).

(** The facts of an engine that permit a request, by the kind of request and of fact. *)
Inductive supports (e : Engine) (now : Timestamp) : AuthorizationRequest → Basis → Prop :=
| Su_grant q writer target :
    bindings e !! dq_from q = None ∨ bindings e !! dq_from q = Some (BKey (dq_verifying_key q)) →
    Inbound writer target ∈ grants e → peer_covers writer (dq_verifying_key q) (dq_from q) → local_covers target (dq_to q) e →
    supports e now (Q_Deliver q) (InboundGrant (Inbound writer target))
| Su_reply q r :
    bindings e !! dq_from q = None ∨ bindings e !! dq_from q = Some (BKey (dq_verifying_key q)) →
    r ∈ sent_records_from e (dq_to q) → dq_reply_to q = Some (sn_id r) → sn_from r = dq_to q → sn_to r = dq_from q →
    sn_to_key_id r = dq_verifying_key q → is_Some (own_sessions e !! sn_from r) →
    within_reply_period (sn_created_at r) now = true →
    supports e now (Q_Deliver q) (ReplyRight r)
| Su_discover_own l s writer target :
    is_Some (own_sessions e !! l) → is_Some (own_sessions e !! s) →
    Inbound writer target ∈ grants e → peer_covers writer (own_key e) l → local_covers target s e →
    supports e now (Q_Discover (Rq_Session l) s) (InboundGrant (Inbound writer target))
| Su_discover_peer l s k writer target :
    is_Some (own_sessions e !! l) → own_sessions e !! s = None → bindings e !! s = Some (BKey k) →
    Outbound writer target ∈ grants e → local_covers writer l e → peer_covers target k s →
    supports e now (Q_Discover (Rq_Session l) s) (OutboundGrant (Outbound writer target))
| Su_discover_handoff l s r :
    is_Some (own_sessions e !! l) → r ∈ handoffs_from e s → ho_to r = l → ho_from r = s →
    within_reply_period (ho_created_at r) now = true →
    supports e now (Q_Discover (Rq_Session l) s) (HandOff r)
| Su_release s k b : releases e s k b → supports e now (Q_ReleasePresence s k) b
| Su_discover_device s k b : releases e s k b → supports e now (Q_Discover (Rq_Device k) s) b
| Su_accept_in k s writer target :
    Inbound writer target ∈ grants e → peer_covers writer k s →
    supports e now (Q_AcceptPresence k s) (InboundGrant (Inbound writer target))
| Su_accept_out k s writer target :
    Outbound writer target ∈ grants e → peer_covers target k s →
    supports e now (Q_AcceptPresence k s) (OutboundGrant (Outbound writer target))
| Su_accept_sent k s r :
    r ∈ iter (sent e) → sn_to r = s → sn_to_key_id r = k → within_reply_period (sn_created_at r) now = true →
    supports e now (Q_AcceptPresence k s) (Sent r)
| Su_accept_handoff k s r :
    r ∈ handoffs_from e s → ho_from r = s → within_reply_period (ho_created_at r) now = true →
    supports e now (Q_AcceptPresence k s) (HandOff r)
| Su_relay s : is_Some (own_sessions e !! s) → s ∈ relay e → supports e now (Q_RelayPermission s) (RelaySetting s).

Lemma peer_names_covers p k s : peer_names p k s = true ↔ peer_covers p k s.
Proof.
  unfold peer_names, peer_covers. rewrite andb_true_iff, beq_true. destruct (pe_session_id p) as [x|]; [|naive_solver].
  rewrite beq_true. naive_solver.
Qed.

Lemma includes_covers side s e : includes side s (own_sessions e) = true ↔ local_covers side s e.
Proof.
  destruct side; cbn; [apply beq_true|apply bool_decide_eq_true|]. destruct (own_sessions e !! s); cbn; split; try done; eauto.
Qed.

Lemma is_some_iff {A} (o : option A) : is_some o = true ↔ is_Some o.
Proof. destruct o; cbn; split; try done; eauto. Qed.

Lemma find_iff {A} (f : A → bool) l : is_Some (find f l) ↔ ∃ x, x ∈ l ∧ f x = true.
Proof.
  destruct (find f l) as [x|] eqn:E; split; intros H; eauto.
  - exists x. apply find_some in E as [H1 H2]. split; [by apply list_elem_of_In|done].
  - by destruct H.
  - destruct H as (x & Hx & Hf). apply list_elem_of_In in Hx. by rewrite (find_none f l E x Hx) in Hf.
Qed.

Lemma find_elem {A} (f : A → bool) l x : find f l = Some x → x ∈ l ∧ f x = true.
Proof. intros [H1 H2]%find_some. split; [by apply list_elem_of_In|done]. Qed.

Lemma find_map_elem {A B} (f : A → option B) l b : find_map f l = Some b → ∃ a, a ∈ l ∧ f a = Some b.
Proof.
  induction l as [|a l IH]; cbn; [done|]. destruct (f a) eqn:E; [intros [= ->]; exists a; split; [left|done]|].
  intros (a' & H1 & H2)%IH. exists a'. split; [by right|done].
Qed.

Lemma find_map_iff {A B} (f : A → option B) l : is_Some (find_map f l) ↔ ∃ a, a ∈ l ∧ is_Some (f a).
Proof.
  induction l as [|a l IH]; cbn.
  - split; [by intros []|]. intros (a & Ha & _). by apply elem_of_nil in Ha.
  - destruct (f a) as [b|] eqn:E.
    + split; [|eauto]. intros _. exists a. split; [left|by rewrite E].
    + rewrite IH. split; intros (x & Hx & Hf); exists x; (split; [|done]); [by right|].
      apply elem_of_cons in Hx as [->|]; [|done]. rewrite E in Hf. by destruct Hf.
Qed.

(** Boolean conditions of the decision functions, as the relations above. *)
Ltac conditions H :=
  rewrite ?andb_true_iff, ?beq_true, ?is_some_iff, ?peer_names_covers, ?includes_covers, ?bool_decide_eq_true in H.
Ltac conditions_goal :=
  rewrite ?andb_true_iff, ?beq_true, ?is_some_iff, ?peer_names_covers, ?includes_covers, ?bool_decide_eq_true.

Lemma covers_inbound_iff k from to e g :
  covers_inbound k from to (own_sessions e) g = true ↔
  ∃ writer target, g = Inbound writer target ∧ peer_covers writer k from ∧ local_covers target to e.
Proof.
  unfold covers_inbound. destruct g as [w t|]; [|naive_solver]. conditions_goal. naive_solver.
Qed.

Lemma release_sound e s k b : engine_release e s k = Some b → releases e s k b.
Proof.
  unfold engine_release. destruct (own_sessions e !! s) as [w|] eqn:Eo; [|done]. cbn [is_some negb].
  intros (g & Hg & Hb)%find_map_elem. unfold then_some in Hb. destruct g as [w' t|w' t]; case_match eqn:E; try done;
    injection Hb as <-; conditions E; destruct E as [<- E]; by constructor.
Qed.

Lemma release_complete e s k b : releases e s k b → is_Some (engine_release e s k).
Proof.
  intros H. unfold engine_release. destruct H as [s w t Ho Hg Hc|s w t Ho Hg Hc]; rewrite (proj2 (is_some_iff _) Ho); cbn [negb];
    apply find_map_iff; eexists; (split; [exact Hg|]); cbn; rewrite beq_refl, (proj2 (includes_covers _ _ _) Hc); eauto.
Qed.

Lemma discover_sound e l s now b :
  engine_discover e l s now = Some b → supports e now (Q_Discover (Rq_Session l) s) b.
Proof.
  unfold engine_discover. destruct (own_sessions e !! l) as [w|] eqn:El; [|done]. cbn [is_some negb].
  assert (is_Some (own_sessions e !! l)) as Hl by eauto.
  destruct (is_some (own_sessions e !! s)) eqn:Es; [apply is_some_iff in Es|apply not_true_iff_false in Es; rewrite is_some_iff, <- eq_None_not_Some in Es].
  - destruct (find _ (grants e)) as [g|] eqn:Eg.
    + apply find_elem in Eg as [Hg Hc]. apply covers_inbound_iff in Hc as (w' & t & -> & H1 & H2). intros [= <-]. by econstructor.
    + intros (r & Hr & ->)%fmap_Some. apply find_elem in Hr as [Hr Hc]. conditions Hc. by constructor; naive_solver.
  - destruct (match bindings e !! s with Some (BKey k) => _ | _ => _ end) as [g|] eqn:Eg.
    + destruct (bindings e !! s) as [[k|]|] eqn:Eb; try done. apply find_elem in Eg as [Hg Hc]. destruct g as [|w' t]; [done|].
      conditions Hc. intros [= <-]. econstructor; naive_solver.
    + intros (r & Hr & ->)%fmap_Some. apply find_elem in Hr as [Hr Hc]. conditions Hc. by constructor; naive_solver.
Qed.

Lemma related_sound e k r now b : engine_related e k r now = Some b → supports e now (Q_AcceptPresence k r) b.
Proof.
  unfold engine_related. destruct (find_map _ (grants e)) as [b'|] eqn:Eg.
  - intros [= ->]. apply find_map_elem in Eg as (g & Hg & Hb). unfold then_some in Hb.
    destruct g; case_match eqn:E; try done; injection Hb as <-; conditions E; by constructor.
  - destruct (find _ (iter (sent e))) as [x|] eqn:Ex.
    + intros [= <-]. apply find_elem in Ex as [Hx Hc]. conditions Hc. constructor; naive_solver.
    + intros (h & Hh & ->)%fmap_Some. apply find_elem in Hh as [Hr Hc]. conditions Hc. constructor; naive_solver.
Qed.

Definition not_contradicted (e : Engine) (s : SessionId) (k : KeyId) : Prop :=
  bindings e !! s = None ∨ bindings e !! s = Some (BKey k).

Lemma contradicted_bool e s k :
  match bindings e !! s with Some (BKey k') => negb (beq k' k) | Some (BConflict _) => true | None => false end = false ↔
  not_contradicted e s k.
Proof.
  unfold not_contradicted. destruct (bindings e !! s) as [[k'|]|]; [|naive_solver|naive_solver].
  rewrite negb_false_iff, beq_true. naive_solver.
Qed.

Lemma deliver_sound e q now b : engine_deliver e q now = Some b → supports e now (Q_Deliver q) b.
Proof.
  unfold engine_deliver. destruct (match bindings e !! dq_from q with Some (BKey k') => _ | _ => _ end) eqn:Eb; [done|].
  apply contradicted_bool in Eb. destruct (find _ (grants e)) as [g|] eqn:Eg.
  - apply find_elem in Eg as [Hg (w & t & -> & H1 & H2)%covers_inbound_iff]. intros [= <-]. by constructor.
  - intros (rt & Hrt & (r & Hr & ->)%fmap_Some)%option_bind_Some. apply find_elem in Hr as [Hr Hc]. conditions Hc.
    destruct Hc as (((((H1 & H2) & H3) & H4) & H5) & H6). constructor; try done. congruence.
Qed.

Lemma deliver_complete e q now b : supports e now (Q_Deliver q) b → is_Some (engine_deliver e q now).
Proof.
  intros H. unfold engine_deliver. inversion H as [q' w t Hb Hg H1 H2|q' r Hb Hr Hi Hf Ht Hk Ho Hw| | | | | | | | | |]; subst;
    rewrite (proj2 (contradicted_bool e (dq_from q) (dq_verifying_key q)) Hb).
  - destruct (find _ (grants e)) as [g|] eqn:Eg; [eauto|].
    exfalso. apply eq_None_not_Some in Eg. apply Eg, find_iff. eexists. split; [exact Hg|]. apply covers_inbound_iff. eauto 10.
  - destruct (find _ (grants e)) as [g|] eqn:Eg; [eauto|]. rewrite Hi. cbn [mbind option_bind]. apply fmap_is_Some, find_iff.
    exists r. split; [exact Hr|]. conditions_goal. naive_solver.
Qed.

Lemma discover_complete e l s now b :
  supports e now (Q_Discover (Rq_Session l) s) b → is_Some (engine_discover e l s now).
Proof.
  intros H. unfold engine_discover.
  inversion H as [| |l' s' w t Hl Hs Hg H1 H2|l' s' k w t Hl Hs Hb Hg H1 H2|l' s' r Hl Hr H1 H2 H3| | | | | | |]; subst;
    rewrite (proj2 (is_some_iff _) Hl); cbn [negb].
  - rewrite (proj2 (is_some_iff _) Hs). destruct (find _ (grants e)) as [[]|] eqn:Eg; [eauto|eauto|].
    exfalso. apply eq_None_not_Some in Eg. apply Eg, find_iff. eexists. split; [exact Hg|]. apply covers_inbound_iff. eauto 10.
  - rewrite Hs, Hb. cbn [is_some]. destruct (find _ (grants e)) as [[]|] eqn:Eg; [eauto|eauto|].
    exfalso. apply eq_None_not_Some in Eg. apply Eg, find_iff. eexists. split; [exact Hg|]. conditions_goal. done.
  - match goal with |- is_Some (match ?x with _ => _ end) => destruct x as [[]|]; [eauto|eauto|] end.
    apply fmap_is_Some, find_iff. exists r. split; [exact Hr|]. conditions_goal. naive_solver.
Qed.

Lemma related_complete e k s now b : supports e now (Q_AcceptPresence k s) b → is_Some (engine_related e k s now).
Proof.
  intros H. unfold engine_related. destruct (find_map _ (grants e)) as [b'|] eqn:Eg; [eauto|].
  apply eq_None_not_Some in Eg. rewrite find_map_iff in Eg.
  destruct (find _ (iter (sent e))) as [x|] eqn:Ex; [eauto|]. apply eq_None_not_Some in Ex. rewrite find_iff in Ex.
  inversion H as [| | | | | | |k' s' w t Hg Hc|k' s' w t Hg Hc|k' s' r Hr H1 H2 H3|k' s' r Hr H1 H2|]; subst.
  - exfalso. apply Eg. eexists. split; [exact Hg|]. cbn. rewrite (proj2 (peer_names_covers _ _ _) Hc). eauto.
  - exfalso. apply Eg. eexists. split; [exact Hg|]. cbn. rewrite (proj2 (peer_names_covers _ _ _) Hc). eauto.
  - exfalso. apply Ex. exists r. split; [exact Hr|]. conditions_goal. naive_solver.
  - apply fmap_is_Some, find_iff. exists r. split; [exact Hr|]. conditions_goal. naive_solver.
Qed.

(** [C24] Deny is the default and a permit always rests on a recorded fact: an engine permits a
    request exactly when one of its grants, sent records, hand-off records or relay settings
    supports it, and the basis it names is such a fact.  No envelope of a session the binding
    table gives to another key, or holds under conflict, is permitted. *)
Theorem decisions_rest_on_facts (e : Engine) (q : AuthorizationRequest) (now : Timestamp) :
  (∀ b, evaluate e q now = Permit b → supports e now q b) ∧
  (evaluate e q now = Deny ↔ ∀ b, ¬ supports e now q b).
Proof.
  assert ((∀ b, evaluate e q now = Permit b → supports e now q b) ∧ (∀ b, supports e now q b → evaluate e q now ≠ Deny)) as [Hs Hc].
  { unfold evaluate. split; intros b; cbv zeta;
      (destruct (match q with Q_Deliver q => _ | _ => _ end) as [b'|] eqn:E; try done).
    - intros [= ->]. destruct q as [q|[l|k] s|s k|k s|s].
      + by apply deliver_sound. + by apply discover_sound. + by apply Su_discover_device, release_sound.
      + by apply Su_release, release_sound. + by apply related_sound.
      + unfold then_some in E. case_match eqn:Ec; [|done]. conditions Ec. destruct Ec as [Eo Er]. injection E as <-. by constructor.
    - intros H _. apply eq_None_not_Some in E. apply E. destruct q as [q|[l|k] s|s k|k s|s].
      + by eapply deliver_complete. + by eapply discover_complete.
      + inversion H; subst; by eapply release_complete. + inversion H; subst; by eapply release_complete.
      + by eapply related_complete.
      + inversion H as [| | | | | | | | | | |s' Ho Hr]; subst. unfold then_some.
        rewrite (proj2 (is_some_iff _) Ho), bool_decide_true by done. eauto. }
  split; [done|]. split.
  - intros Hd b Hb. by apply (Hc b Hb).
  - intros Hn. destruct (evaluate e q now) as [b|] eqn:E; [|done]. exfalso. by apply (Hn b), Hs.
Qed.
