(* ===== verification/AuthorizationSteps.v ===== *)
(** * The authorization engine: step 4, key removal and restarts

    What security step 4 does to a message and to the binding table, what the removal of a key
    leaves behind, and the engine that restoring a saved snapshot gives back. *)

From S2P Require Import Prelude Ordered Base64url Ids Utf8 Json JsonFacts JsonReader JsonText.
From S2P Require Import Delivery Canonical Envelope EnvelopeFacts Keys Trust Signing Replay Receipt Reply Receiver.
From S2P Require Import SignedObject Agreement Pairing PairingFacts Registration RecordBook.
From S2P Require Import Bindings Authorization AuthorizationFacts AuthorizationSpec.

(** ** Step 4 *)

(** Everything but the binding table and the log. *)
Record frame (e e' : Engine) : Prop := {
  fr_own : own_key e' = own_key e;
  fr_trusted : trusted e' = trusted e;
  fr_paired : paired e' = paired e;
  fr_sessions : own_sessions e' = own_sessions e;
  fr_grants : grants e' = grants e;
  fr_sent : sent e' = sent e;
  fr_handed : handed_off e' = handed_off e;
  fr_relay : relay e' = relay e;
  fr_agreements : agreements e' = agreements e }.

(** The table once [lost] is out of it. *)
Definition without (lost : option SessionId) (m : gmap SessionId Binding) : gmap SessionId Binding :=
  match lost with Some v => delete v m | None => m end.

Lemma bind_from_envelope_spec from key e :
  match bind_from_envelope from key e with
  | (true, e') => ∃ lost eb, make_room (envelope_bound e) key = Some (lost, eb) ∧ frame e e' ∧ log e' = log e ∧
      bindings e' = <[ from := BKey key ]> (without lost (bindings e)) ∧
      envelope_bound e' = track from key (holds_sender (handed_off e) (handoff_partition e (Some key) from) from) eb
  | (false, e') => e' = e ∧ make_room (envelope_bound e) key = None
  end.
Proof.
  unfold bind_from_envelope, make_room. destruct (eb_has_room _ _).
  - exists None. eexists. split_and!; done.
  - destruct (victim (envelope_bound e) key) as [v|]; [|done]. exists (Some v). eexists. split_and!; done.
Qed.

(** What the receiver is told, by the state of the table and the engine's facts. *)
Inductive step4 (e : Engine) (msg : ChannelMessage) (now : Timestamp)
    : result AuthorizationRefusal (AuthorizedMessage AuthorizationDecision) → option (option SessionId) → Prop :=
| S4_unverified :
    cm_verified_by msg = None →
    step4 e msg now (Err (mkRefusal D_Rejected E_Unauthorized "SEC-STG-003" None)) None
| S4_other q bound :
    deliver_request msg = Some q → bindings e !! dq_from q = Some (BKey bound) → bound ≠ dq_verifying_key q →
    step4 e msg now (Err (mkRefusal D_Rejected E_Unauthorized "SEC-AUZ-003"
      (Some (mkFinding (dq_from q) bound (dq_verifying_key q))))) None
| S4_conflict q keys :
    deliver_request msg = Some q → bindings e !! dq_from q = Some (BConflict keys) →
    step4 e msg now (Err (mkRefusal D_Rejected E_Unauthorized "SEC-PRS-012" None)) None
| S4_denied q :
    deliver_request msg = Some q → not_contradicted e (dq_from q) (dq_verifying_key q) →
    (∀ b, ¬ supports e now (Q_Deliver q) b) →
    step4 e msg now (Err (mkRefusal D_Rejected E_Unauthorized "SEC-AUZ-001" None)) None
| S4_full q b :
    deliver_request msg = Some q → supports e now (Q_Deliver q) b → bindings e !! dq_from q = None →
    make_room (envelope_bound e) (dq_verifying_key q) = None →
    step4 e msg now (Err (mkRefusal D_Failed E_InternalError "SEC-PRS-005" None)) None
| S4_bound q b :
    deliver_request msg = Some q → supports e now (Q_Deliver q) b → bindings e !! dq_from q = Some (BKey (dq_verifying_key q)) →
    step4 e msg now (Ok (mkAuthorized msg (mkDecision K_Deliver (Permit b)))) None
| S4_binds q b lost eb :
    deliver_request msg = Some q → supports e now (Q_Deliver q) b → bindings e !! dq_from q = None →
    make_room (envelope_bound e) (dq_verifying_key q) = Some (lost, eb) →
    step4 e msg now (Ok (mkAuthorized msg (mkDecision K_Deliver (Permit b)))) (Some lost).

(** The table after: the same, or with an entry for the message's sender. *)
Definition step4_table (e : Engine) (msg : ChannelMessage) (binds : option (option SessionId)) : gmap SessionId Binding :=
  match binds, deliver_request msg with
  | Some lost, Some q => <[ dq_from q := BKey (dq_verifying_key q) ]> (without lost (bindings e))
  | _, _ => bindings e
  end.

Lemma deliver_permits e q now :
  match evaluate e (Q_Deliver q) now with
  | Permit b => supports e now (Q_Deliver q) b
  | Deny => ∀ b, ¬ supports e now (Q_Deliver q) b
  end.
Proof.
  unfold evaluate. cbv zeta. destruct (engine_deliver e q now) as [b|] eqn:E; [by apply deliver_sound|].
  intros b Hb%deliver_complete. rewrite E in Hb. by destruct Hb.
Qed.

Lemma authorize_step4 msg now e :
  ∃ binds, step4 e msg now (authorize_delivery msg now e).1 binds ∧
    bindings (authorize_delivery msg now e).2 = step4_table e msg binds ∧
    frame e (authorize_delivery msg now e).2 ∧
    (binds = None → envelope_bound (authorize_delivery msg now e).2 = envelope_bound e).
Proof.
  unfold authorize_delivery. destruct (deliver_request msg) as [q|] eqn:Eq.
  2: { exists None. split_and!; [|by unfold step4_table; rewrite ?Eq|done|done]. constructor.
       unfold deliver_request in Eq. by destruct (cm_verified_by msg). }
  pose proof (deliver_permits e q now) as Hp. cbn [decide_at request_kind].
  set (dec := mkDecision _ _). set (e1 := add_log _ e). change (bindings e1) with (bindings e).
  assert (frame e e1) as He1 by (by split).
  assert (permits dec K_Deliver = match evaluate e (Q_Deliver q) now with Permit _ => true | Deny => false end) as ->.
  { unfold permits, dec. cbn [ad_kind ad_outcome]. by rewrite bool_decide_true. }
  subst dec. destruct (bindings e !! dq_from q) as [[bound|keys]|] eqn:Eb; cbn [is_some].
  - destruct (beq bound (dq_verifying_key q)) eqn:Ek; cbn [negb].
    + apply beq_true in Ek as ->. destruct (evaluate e (Q_Deliver q) now) as [b|]; cbn [negb fst snd]; exists None; (split_and!; [|done..]).
      * by eapply S4_bound. * eapply S4_denied; [done|by right|done].
    + exists None. split_and!; [|by unfold step4_table|by split|done]. cbn [fst]. eapply S4_other; [done|done|]. intros ->. by rewrite beq_refl in Ek.
  - exists None. split_and!; [|done..]. by eapply S4_conflict.
  - destruct (evaluate e (Q_Deliver q) now) as [b|]; cbn [negb].
    2: { exists None. split_and!; [|done..]. eapply S4_denied; [done|by left|done]. }
    pose proof (bind_from_envelope_spec (dq_from q) (dq_verifying_key q) e1) as Hs.
    destruct (bind_from_envelope _ _ _) as [[] e2]; cbn [fst snd].
    + destruct Hs as (lost & eb & Hroom & Hf & _ & Hb & _). exists (Some lost). split_and!; [by eapply S4_binds| | |done].
      * rewrite Hb. unfold step4_table. by rewrite Eq.
      * destruct Hf as [H1 H2 H3 H4 H5 H6 H7 H8 H9]. by split.
    + destruct Hs as [-> Hr]. exists None. split_and!; [|done..]. by eapply S4_full.
Qed.

Lemma step4_err e msg now r binds : step4 e msg now r binds → is_ok r = false → binds = None.
Proof. by destruct 1. Qed.

Lemma evicted_spec e key v eb :
  engine_inv e → make_room (envelope_bound e) key = Some (Some v, eb) →
  ∃ b, victim_ok (envelope_bound e) key v b ∧ bindings e !! v = Some (BKey (eb_key b)) ∧ own_sessions e !! v = None ∧
    ∀ r, r ∈ partition (handed_off e) (handoff_partition e (Some (eb_key b)) v) → ho_from r ≠ v.
Proof.
  intros [[Ho Ht Hb] _ Hh _ Hp] Hm. unfold make_room in Hm. destruct (eb_has_room _ _); [done|].
  apply option_bind_Some in Hm as (x & Hx & [= -> <-]). destruct (victim_spec _ _ _ Hb Hx) as [b Hvo]. exists b.
  destruct (Ht v b (vo_entry _ _ _ _ Hvo)) as [H1 H2]. split_and!; [done|done|done|]. intros r Hr Hf.
  assert (eb_pinned b = true) as Hpin; [|by rewrite (vo_free _ _ _ _ Hvo) in Hpin].
  rewrite (Hp v b (vo_entry _ _ _ _ Hvo)). unfold held_for.
  apply (holds_record (handed_off e) _ v (hi_inv _ _ Hh) (hi_enabled _ _ Hh)). eauto.
Qed.

(** The hand-off records a reply from [from] to [to] is looked up in. *)
Definition reply_records (e : Engine) (from to : SessionId) : list HandOffRecord :=
  List.filter (λ r, beq (ho_to r) from && beq (ho_from r) to) (handoffs_from e to).

Lemma filter_none {A} (f : A → bool) l : (∀ x, x ∈ l → f x = false) → List.filter f l = [].
Proof.
  induction l as [|a l IH]; intros Hf; cbn; [done|]. rewrite (Hf a) by left. apply IH. intros x Hx. apply Hf. by right.
Qed.

Lemma reply_records_evicted e from to b :
  bindings e !! to = Some (BKey b) →
  (∀ r, r ∈ partition (handed_off e) (handoff_partition e (Some b) to) → ho_from r ≠ to) →
  reply_records e from to = List.filter (λ r, beq (ho_to r) from && beq (ho_from r) to) (partition (handed_off e) (None, None)).
Proof.
  intros Hb Hn. unfold reply_records, handoffs_from. rewrite Hb, List.filter_app, (filter_none _ (partition _ (handoff_partition _ _ _))); [done|].
  intros r Hr. apply andb_false_iff. right. apply bool_decide_eq_false. by apply Hn.
Qed.

Lemma handoffs_frame e e' to :
  own_key e' = own_key e → handed_off e' = handed_off e → bindings e' !! to = bindings e !! to → handoffs_from e' to = handoffs_from e to.
Proof. intros H1 H2 H3. unfold handoffs_from, handoff_partition. by rewrite H1, H2, H3. Qed.

Lemma step4_replies e msg now r binds e' from to :
  engine_inv e → step4 e msg now r binds → bindings e' = step4_table e msg binds → frame e e' →
  to ≠ env_from (cm_envelope msg) → reply_records e' from to = reply_records e from to.
Proof.
  intros He Hs Hb Hf Hto. destruct binds as [lost|].
  2: { unfold reply_records. f_equal. apply handoffs_frame; [apply Hf|apply Hf|]. rewrite Hb. done. }
  inversion Hs as [| | | | | |q b lost' eb Hq Hsup Hun Hroom]; subst. unfold step4_table in Hb. rewrite Hq in Hb.
  assert (dq_from q = env_from (cm_envelope msg)) as Hfrom.
  { unfold deliver_request in Hq. destruct (cm_verified_by msg); [|done]. injection Hq as <-. done. }
  rewrite <- Hfrom in Hto. assert (bindings e' !! to = without lost (bindings e) !! to) as Hbt by (by rewrite Hb, lookup_insert_ne).
  destruct lost as [v|]; cbn [without] in Hbt.
  2: { unfold reply_records. f_equal. apply handoffs_frame; [apply Hf|apply Hf|done]. }
  destruct (decide (v = to)) as [->|Hne].
  - destruct (evicted_spec e _ _ _ He Hroom) as (x & _ & Hx & _ & Hnone).
    rewrite (reply_records_evicted e from to _ Hx Hnone). unfold reply_records, handoffs_from.
    rewrite Hbt, lookup_delete_eq. by rewrite (fr_handed _ _ Hf).
  - rewrite lookup_delete_ne in Hbt by done. unfold reply_records. f_equal. apply handoffs_frame; [apply Hf|apply Hf|done].
Qed.

(** [C3] Security step 4, for every message, at every engine the operations reach: it lets a
    message through, unchanged, only when an identity verified it, a recorded fact supports
    the delivery, and the binding table either gives its sender to the verifying key or had
    no entry and now does; every refusal is one of five, by the table and the engine's facts,
    and changes no table.  Making room for the new entry costs at most one other session its
    entry: one that envelopes created, that is no own session's, of the key with the largest
    holding or at its share, the oldest of that key's, and through which no hand-off record
    is looked up. *)
Theorem authorize_delivery_spec `{C : Crypto} {S : Type} (store : PairingStore S) (own : DeviceIdentity) (s : S)
    (ops : list engine_op) (msg : ChannelMessage) (now : Timestamp) :
  let e := (run_engine_all store own s ops).1 in
  let r := (authorize_delivery msg now e).1 in
  let e' := (authorize_delivery msg now e).2 in
  ∃ binds, step4 e msg now r binds ∧ bindings e' = step4_table e msg binds ∧ frame e e' ∧
    (is_ok r = false → binds = None ∧ envelope_bound e' = envelope_bound e) ∧
    ∀ v, binds = Some (Some v) → ∃ key b, victim_ok (envelope_bound e) key v b ∧
      (sp_key_id <$> cm_verified_by msg) = Some key ∧ own_sessions e !! v = None ∧ bindings e !! v = Some (BKey (eb_key b)) ∧
      ∀ x, x ∈ partition (handed_off e) (handoff_partition e (Some (eb_key b)) v) → ho_from x ≠ v.
Proof.
  intros e r e'. pose proof (run_engine_all_inv store own s ops) as He. fold e in He.
  destruct (authorize_step4 msg now e) as (binds & Hs & Hb & Hf & Hn). fold r in Hs. fold e' in Hb, Hf, Hn.
  exists binds. split_and!; [done|done|done| |].
  - intros Hr. assert (binds = None) as -> by (by eapply step4_err). auto.
  - intros v ->. inversion Hs as [| | | | | |q b lost' eb Hq Hsup Hun Hroom]; subst.
    destruct (evicted_spec e _ _ _ He Hroom) as (x & H1 & H2 & H3 & H4). exists (dq_verifying_key q), x. split_and!; try done.
    unfold deliver_request in Hq. destruct (cm_verified_by msg); [|done]. injection Hq as <-. done.
Qed.

Lemma find_target {l : list EnvelopeRecord} {from to : SessionId} {target t} :
  rh_reply_to (reply_headers l from to target) = Some t ↔
  target = Some t ∧ ∃ r, r ∈ l ∧ er_id r = t ∧ er_to r = from ∧ er_from r = to.
Proof.
  unfold reply_headers. destruct target as [x|]; [|naive_solver].
  destruct (find _ l) as [r|] eqn:E; cbn [rh_reply_to].
  - apply find_elem in E as [Hr Hc]. conditions Hc. destruct Hc as [[<- H1] H2]. split; [intros [= <-]; eauto 10|naive_solver].
  - split; [done|]. intros ([= ->] & r & Hr & H1 & H2 & H3). apply eq_None_not_Some in E. exfalso. apply E, find_iff.
    exists r. split; [done|]. conditions_goal. done.
Qed.

Lemma reply_records_grow e from to k e' :
  bindings e !! to = None → frame e e' → bindings e' !! to = Some (BKey k) →
  ∀ r, r ∈ reply_records e from to → r ∈ reply_records e' from to.
Proof.
  intros Hun Hf Hb r. unfold reply_records, handoffs_from. rewrite Hun, Hb, (fr_handed _ _ Hf), List.filter_app, elem_of_app. auto.
Qed.

(** No reply loses its target at step 4: whatever entry a message's acceptance evicts,
    the headers of a reply to any session other than the message's sender are unchanged, and
    a reply to that sender keeps a target it had. *)
Theorem authorize_keeps_replies `{C : Crypto} {S : Type} (store : PairingStore S) (own : DeviceIdentity) (s : S)
    (ops : list engine_op) (msg : ChannelMessage) (now : Timestamp) (from to : SessionId) (target : option (list Z)) :
  let e := (run_engine_all store own s ops).1 in
  let e' := (authorize_delivery msg now e).2 in
  (to ≠ env_from (cm_envelope msg) → engine_reply_headers e' from to target = engine_reply_headers e from to target) ∧
  ∀ t, rh_reply_to (engine_reply_headers e from to target) = Some t → rh_reply_to (engine_reply_headers e' from to target) = Some t.
Proof.
  intros e e'. pose proof (run_engine_all_inv store own s ops) as He. fold e in He.
  destruct (authorize_step4 msg now e) as (binds & Hs & Hb & Hf & Hn). fold e' in Hb, Hf, Hn.
  assert (∀ to', to' ≠ env_from (cm_envelope msg) → engine_reply_headers e' from to' target = engine_reply_headers e from to' target) as Hne.
  { intros to' Hto. pose proof (step4_replies e msg now _ binds _ from to' He Hs Hb Hf Hto) as H. unfold reply_records in H.
    unfold engine_reply_headers. by rewrite H. }
  split; [by apply Hne|]. intros t. destruct (decide (to = env_from (cm_envelope msg))) as [->|Hto]; [|by rewrite Hne].
  destruct binds as [lost|].
  2: { unfold engine_reply_headers. erewrite (handoffs_frame e e'); [done|apply Hf|apply Hf|by rewrite Hb]. }
  inversion Hs as [| | | | | |q b lost' eb Hq Hsup Hun Hroom]; subst. unfold step4_table in Hb. rewrite Hq in Hb.
  assert (dq_from q = env_from (cm_envelope msg)) as Hfrom.
  { unfold deliver_request in Hq. destruct (cm_verified_by msg); [|done]. injection Hq as <-. done. }
  rewrite <- Hfrom. unfold engine_reply_headers. rewrite !find_target. intros (-> & x & Hx & Hid). split; [done|].
  exists x. split; [|done]. apply list_elem_of_In, in_map_iff in Hx as (y & <- & Hy). apply list_elem_of_In, in_map_iff.
  exists y. split; [done|]. apply list_elem_of_In. apply list_elem_of_In in Hy.
  apply (reply_records_grow e from (dq_from q) (dq_verifying_key q)); [done|done|by rewrite Hb, lookup_insert_eq|done].
Qed.

(** ** Removing a key *)

Lemma drop_partitions_lookup {K R} `{Countable K} `{OrderLaws K} `{Dated R} (matches : K → bool) (b : RecordBook K R) k :
  partition (drop_partitions matches b) k = if matches k then [] else partition b k.
Proof.
  assert (∀ (b : RecordBook K R) x, parts (drop_partition x b) = delete x (parts b)) as Hdrop.
  { intros b0 x. unfold drop_partition, forget_partition. destruct (parts b0 !! x) eqn:E; [done|]. by rewrite delete_id. }
  assert (∀ l (b : RecordBook K R), parts (foldl (λ b k, drop_partition k b) b l) !! k = if decide (k ∈ l) then None else parts b !! k) as Hfold.
  { induction l as [|x l IH]; intros b0; cbn [foldl]; [by rewrite decide_False by (apply not_elem_of_nil)|].
    rewrite IH, Hdrop. destruct (decide (k ∈ l)) as [Hin|Hn]; [by rewrite decide_True by (by right)|].
    destruct (decide (x = k)) as [->|Hne]; [by rewrite lookup_delete_eq, decide_True by left|].
    rewrite lookup_delete_ne, decide_False by (rewrite ?not_elem_of_cons; auto). done. }
  unfold partition, drop_partitions. rewrite Hfold.
  assert (k ∈ List.filter matches (keys (parts b)) ↔ is_Some (parts b !! k) ∧ matches k = true) as Hin.
  { rewrite list_elem_of_In, filter_In, <- list_elem_of_In, elem_of_keys. done. }
  destruct (parts b !! k) as [p|] eqn:Ek; [|case_decide; by destruct (matches k)].
  destruct (matches k) eqn:Em.
  - rewrite decide_True by (apply Hin; eauto). done.
  - rewrite decide_False by (rewrite Hin; naive_solver). done.
Qed.

(** The entries of one engine that name a key. *)
Record names_nowhere (k : KeyId) (e : Engine) : Prop := {
  nn_trusted : keyset_get (trusted e) k = None;
  nn_paired : paired e !! k = None;
  nn_agreements : agreements e !! k = None;
  nn_grants g : g ∈ grants e → names_key g k = false;
  nn_bindings s b : bindings e !! s = Some b → binding_names b k = false;
  nn_tracked s b : eb_sessions (envelope_bound e) !! s = Some b → eb_key b ≠ k;
  nn_handed s : partition (handed_off e) (handoff_partition e (Some k) s) = [] }.

(** What of [e] is still in [e'] once [k] is out of it. *)
Record keeps_others (k : KeyId) (e e' : Engine) : Prop := {
  ko_trusted k' : k' ≠ k → keyset_get (trusted e') k' = keyset_get (trusted e) k';
  ko_paired : paired e' = delete k (paired e);
  ko_agreements : agreements e' = delete k (agreements e);
  ko_grants : grants e' = List.filter (λ g, negb (names_key g k)) (grants e);
  ko_bindings s b : bindings e !! s = Some b → binding_names b k = false → bindings e' !! s = Some b;
  ko_handed k' s : k' ≠ Some k → partition (handed_off e') (handoff_partition e k' s) = partition (handed_off e) (handoff_partition e k' s);
  ko_sessions : own_sessions e' = own_sessions e;
  ko_sent : sent e' = sent e;
  ko_relay : relay e' = relay e;
  ko_own : own_key e' = own_key e }.

Lemma purge_spec e k :
  engine_inv e → k ≠ own_key e →
  let e' := purge k e in
  (∀ s, bindings e' !! s = match bindings e !! s with Some b => if binding_names b k then None else Some b | None => None end) ∧
  (∀ p, partition (handed_off e') p = if bool_decide (p.1 = Some k) then [] else partition (handed_off e) p) ∧
  own_key e' = own_key e ∧ own_sessions e' = own_sessions e ∧ grants e' = grants e ∧ trusted e' = trusted e ∧
  paired e' = paired e ∧ agreements e' = agreements e ∧ sent e' = sent e ∧ relay e' = relay e.
Proof.
  intros He Hk e'. pose proof (unbind_all_inv _ e He (purge_own e k He Hk)) as Hu. subst e'. unfold purge.
  set (gone := map fst (List.filter (λ x, binding_names x.2 k) (items (bindings e)))) in *.
  assert (∀ s, s ∈ gone ↔ ∃ b, bindings e !! s = Some b ∧ binding_names b k = true) as Hgone by (intros s; apply named_bindings).
  cbv zeta in Hu. set (e1 := foldl _ e gone) in *. destruct Hu as (_ & H1 & H2 & H3 & H4 & H5 & H6 & H7 & H8 & H9 & Hb).
  rewrite sync_pins_eq. cbn [bindings set_handed_off set_bindings handed_off own_key own_sessions grants trusted paired agreements sent relay].
  split_and!; try done.
  - intros s. rewrite Hb. destruct (bindings e !! s) as [b|] eqn:E; [|by case_decide].
    destruct (binding_names b k) eqn:En; [rewrite decide_True; [done|apply Hgone; eauto]|].
    rewrite decide_False; [done|]. intros (b2 & Hb2 & Hn2)%Hgone. congruence.
  - intros p. change (partition (take_sender_changes ?h).2 p) with (partition h p). rewrite drop_partitions_lookup, H3. done.
Qed.

Lemma filter_elem {A} (f : A → bool) l x : x ∈ List.filter f l ↔ x ∈ l ∧ f x = true.
Proof. by rewrite list_elem_of_In, filter_In, <- list_elem_of_In. Qed.

Lemma remove_key_purged `{C : Crypto} {S : Type} (store : PairingStore S) e s k r e' s' :
  engine_inv e → remove_key store k e s = (r, e', s') →
  match r with
  | Err RK_OwnKey => k = own_key e ∧ e' = e ∧ s' = s
  | Err RK_NotTrusted => k ≠ own_key e ∧ keyset_get (trusted e) k = None ∧ e' = e ∧ s' = s
  | Err (RK_NotSaved err) => names_nowhere k e' ∧ keeps_others k e e' ∧ save store e' s = (Err err, s')
  | Ok removal => names_nowhere k e' ∧ keeps_others k e e' ∧ save store e' s = (Ok tt, s') ∧
      kr_statement removal = agreements e !! k ∧ (∀ g, g ∈ kr_grants removal ↔ g ∈ grants e ∧ names_key g k = true) ∧
      (∀ x, x ∈ kr_bindings removal ↔ ∃ b, bindings e !! x = Some b ∧ binding_names b k = true)
  end.
Proof.
  intros He. unfold remove_key. destruct (beq k (own_key e)) eqn:Ek; [intros [= <- <- <-]; by apply beq_true in Ek|].
  assert (k ≠ own_key e) as Hne by (intros ->; by rewrite beq_refl in Ek).
  unfold keyset_remove. destruct (ts_entries (trusted e) !! k) as [t|] eqn:Et; [|by intros [= <- <- <-]].
  set (e1 := set_grants _ (set_keys _ _ _ e)). assert (engine_inv e1) as He1 by (by apply (same_tables_inv e)).
  set (e2 := change _ _).
  assert (e2 = change (Ch_RemovedKey k (len (List.filter (λ g, names_key g k) (grants e))) (len (map fst (List.filter (λ x, binding_names x.2 k) (items (bindings e1)))))) (purge k e1)) as He2 by done.
  clearbody e2. destruct (purge_spec e1 k He1 Hne) as (Hb & Hp & H1 & H2 & H3 & H4 & H5 & H6 & H7 & H8).
  pose proof (purge_inv e1 k He1 Hne) as Hi.
  assert (names_nowhere k e2) as Hnn.
  { subst e2. split; cbn [change add_log trusted paired agreements grants bindings envelope_bound handed_off].
    - rewrite H4. unfold keyset_get. cbn. apply lookup_delete_eq.
    - rewrite H5. apply lookup_delete_eq.
    - rewrite H6. apply lookup_delete_eq.
    - intros g. rewrite H3. intros [_ Hg]%filter_elem. by apply negb_true_iff in Hg.
    - intros x b. rewrite Hb. destruct (bindings e1 !! x) as [b'|]; [|done]. destruct (binding_names b' k) eqn:E; [done|]. by intros [= <-].
    - intros x b Hx. destruct (ti_tracked _ _ _ _ (ei_tables _ Hi) x b Hx) as [Hbx _]. rewrite Hb in Hbx.
      destruct (bindings e1 !! x) as [b'|]; [|done]. destruct (binding_names b' k) eqn:E; [done|]. injection Hbx as ->.
      cbn in E. intros <-. by rewrite beq_refl in E.
    - intros x. rewrite Hp. unfold handoff_partition. cbn [fst]. by rewrite bool_decide_true. }
  assert (keeps_others k e e2) as Hko.
  { subst e2. split; cbn [change add_log trusted paired agreements grants bindings envelope_bound handed_off own_sessions sent relay own_key];
      try done.
    - intros k' Hk'. rewrite H4. unfold keyset_get. cbn. by rewrite lookup_delete_ne.
    - intros x b Hx Hn. rewrite Hb. change (bindings e1) with (bindings e). by rewrite Hx, Hn.
    - intros k' x Hk'. rewrite Hp. unfold handoff_partition. cbn [fst]. by rewrite bool_decide_false. }
  destruct (save store e2 s) as [[[]|err] s2] eqn:Es; intros [= <- <- <-]; [|done].
  split_and!; try done; cbn [kr_grants kr_bindings].
  - intros g. by rewrite filter_elem.
  - intros x. apply named_bindings.
Qed.

