(* ===== verification/AuthorizationRestart.v ===== *)
(** * The authorization engine: restarts

    What a pairing store promises the engine, and the engine that a restart gives back: the
    one restored from what the operations saved holds the same keys, grants, settings and
    statements as the one that saved them. *)

From S2P Require Import Prelude Ordered Base64url Ids Utf8 Json JsonFacts JsonReader JsonText.
From S2P Require Import Delivery Canonical Envelope EnvelopeFacts Keys Trust Signing Replay Receipt Reply Receiver.
From S2P Require Import SignedObject Agreement Pairing PairingFacts Registration RecordBook.
From S2P Require Import Bindings Authorization AuthorizationFacts AuthorizationSpec AuthorizationSteps.

(** ** The store's promise *)

(** A store that takes every save, in the states [I], and reads back what was saved last. *)
Class DurableStore {S : Type} (store : PairingStore S) (I : S → Prop) : Prop := {
  durable_save snap s : I s → ∃ s', pst_save S store snap s = (Ok tt, s') ∧ I s' ∧ pst_load S store s' = Ok snap }.

#[export] Instance memory_store_durable : DurableStore MemoryPairingStore (λ s, s.2 = false).
Proof. split. intros snap [x b] Hb. cbn in Hb. subst b. exists (snap, false). done. Qed.

(** ** What the engine's keys and statements keep to *)

Section Restart.
Context `{C : Crypto}.

Definition entry_of (r : PairingRecord) : TrustedKey := TrustedKey_new (pr_principal r) (pr_public_key r).

(** The trusted keys are the own one and the paired ones, each under its own id; a statement
    held for a peer meets the values its pairing confirmed. *)
Record keys_inv (own : DeviceIdentity) (e : Engine) : Prop := {
  ki_own : own_key e = tk_key_id (di_entry own) ∧ ts_entries (trusted e) !! own_key e = Some (di_entry own);
  ki_paired k r : paired e !! k = Some r → record_key_id r = k ∧ k ≠ own_key e ∧ ts_entries (trusted e) !! k = Some (entry_of r);
  ki_trusted k : is_Some (ts_entries (trusted e) !! k) → k = own_key e ∨ is_Some (paired e !! k);
  ki_held k h : agreements e !! k = Some h → hs_key_id h = k ∧
    (k = own_key e ∨ ∃ r, paired e !! k = Some r ∧ check_confirmed h (pr_confirmed r) = Ok tt);
  ki_grants : NoDup (grants e) }.

Definition same_keys (e e' : Engine) : Prop :=
  own_key e' = own_key e ∧ trusted e' = trusted e ∧ paired e' = paired e ∧ agreements e' = agreements e ∧
  grants e' = grants e ∧ relay e' = relay e.

Lemma same_keys_inv own e e' : same_keys e e' → keys_inv own e → keys_inv own e'.
Proof. intros (H1 & H2 & H3 & H4 & H5 & H6) [A B D E F]. split; by rewrite ?H1, ?H2, ?H3, ?H4, ?H5. Qed.

Lemma new_keys own : keys_inv own (Engine_new own).
Proof.
  split; cbn.
  - split; [done|]. by rewrite lookup_singleton_eq.
  - intros k r. by rewrite lookup_empty.
  - intros k [t Ht]. apply lookup_singleton_Some in Ht as [<- _]. by left.
  - intros k h. by rewrite lookup_empty.
  - constructor.
Qed.

Lemma untrusted_absent own e k :
  keys_inv own e → ts_entries (trusted e) !! k = None → paired e !! k = None ∧ agreements e !! k = None ∧ k ≠ own_key e.
Proof.
  intros Hi Ht. split_and!.
  - destruct (paired e !! k) as [r|] eqn:E; [|done]. destruct (ki_paired own e Hi k r E) as (_ & _ & H). congruence.
  - destruct (agreements e !! k) as [h|] eqn:E; [|done]. destruct (ki_held own e Hi k h E) as (_ & [->|(r & Hr & _)]).
    + destruct (ki_own own e Hi). congruence.
    + destruct (ki_paired own e Hi k r Hr) as (_ & _ & H). congruence.
  - intros ->. destruct (ki_own own e Hi). congruence.
Qed.

(** A statement meets the values taken from it. *)
Lemma confirmed_self h : check_confirmed h (Some (of_held h)) = Ok tt.
Proof.
  unfold check_confirmed, of_held. cbn [ok_or mbind result_bind cv_seq cv_agreement_key cv_issued_at].
  by rewrite !Z.ltb_irrefl, bool_decide_true, andb_false_r by done.
Qed.

(** A paired key added with the statement admitted for it. *)
Lemma add_pair_keys own e t r key admitted :
  keys_inv own e → add_paired_key (pr_principal r) (pr_public_key r) (trusted e) = (Ok (entry_of r), t) →
  key = record_key_id r → (∀ h, admitted = Some h → hs_key_id h = key) →
  keys_inv own (set_keys t (<[ key := with_confirmed r (of_held <$> admitted) ]> (paired e))
    (match admitted with Some h => <[ key := h ]> (agreements e) | None => agreements e end) e).
Proof.
  intros Hi Ha -> Hadm. unfold add_paired_key in Ha. cbn [TrustedKey_new tk_key_id] in Ha.
  destruct (ts_entries (trusted e) !! key_id (pr_public_key r)) as [x|] eqn:Ex; [done|]. injection Ha as <-.
  destruct (untrusted_absent own e _ Hi Ex) as (Hp & Hg & Hne). set (k := key_id (pr_public_key r)) in *.
  change (record_key_id r) with k in *. destruct Hi as [[Ho1 Ho2] Hpa Htr Hh Hgr].
  split; cbn [own_key trusted paired agreements grants set_keys ts_entries].
  - split; [done|]. rewrite lookup_insert_ne by done. done.
  - intros k' r' Hr'. apply lookup_insert_Some in Hr' as [[<- <-]|[Hk Hr']].
    + split_and!; [done|done|]. apply lookup_insert_eq.
    + rewrite lookup_insert_ne by done. by apply Hpa.
  - intros k' [t Ht]. apply lookup_insert_Some in Ht as [[<- <-]|[Hk Ht]]; [right; rewrite lookup_insert_eq; eauto|].
    rewrite lookup_insert_ne by done. apply Htr. eauto.
  - intros k' h Hk'. destruct (decide (k' = k)) as [->|Hkk].
    + destruct admitted as [h'|]; [|congruence]. rewrite lookup_insert_eq in Hk'. injection Hk' as <-. split; [auto|right].
      rewrite lookup_insert_eq. eexists. split; [done|]. cbn [with_confirmed pr_confirmed fmap option_fmap option_map]. apply confirmed_self.
    + assert (agreements e !! k' = Some h) as Hk2 by (destruct admitted; [by rewrite lookup_insert_ne in Hk'|done]).
      rewrite lookup_insert_ne by done. by apply Hh.
  - done.
Qed.

Lemma set_statement_keys own e h :
  keys_inv own e →
  hs_key_id h = own_key e ∨ (∃ r, paired e !! hs_key_id h = Some r ∧ check_confirmed h (pr_confirmed r) = Ok tt) →
  keys_inv own (set_keys (trusted e) (paired e) (<[ hs_key_id h := h ]> (agreements e)) e).
Proof.
  intros [Ho Hpa Htr Hh Hgr] Hc. split; cbn [own_key trusted paired agreements grants set_keys]; try done.
  intros k h' Hk. apply lookup_insert_Some in Hk as [[<- <-]|[_ Hk]]; [done|by apply Hh].
Qed.

Lemma set_grants_keys own e g : keys_inv own e → NoDup g → keys_inv own (set_grants g e).
Proof. intros [Ho Hpa Htr Hh Hgr] Hg. by split. Qed.

Lemma removed_keys own e e' k :
  keys_inv own e → k ≠ own_key e → own_key e' = own_key e → ts_entries (trusted e') = delete k (ts_entries (trusted e)) →
  paired e' = delete k (paired e) → agreements e' = delete k (agreements e) → NoDup (grants e') → keys_inv own e'.
Proof.
  intros [[Ho1 Ho2] Hpa Htr Hh Hgr] Hne H1 H2 H3 H4 H5. split; rewrite ?H1, ?H2, ?H3, ?H4; [| | | |done].
  - split; [done|]. by rewrite lookup_delete_ne.
  - intros k' r [Hk Hr]%lookup_delete_Some. rewrite lookup_delete_ne by done. by apply Hpa.
  - intros k' [t [Hk Ht]%lookup_delete_Some]. rewrite lookup_delete_ne by done. apply Htr. eauto.
  - intros k' h [Hk Hx]%lookup_delete_Some. rewrite lookup_delete_ne by done. by apply Hh.
Qed.

(** ** Snapshots *)

(** A snapshot that says what the engine holds, whatever the order of its lists. *)
Record describes (snap : PairingSnapshot) (e : Engine) : Prop := {
  de_paired r : r ∈ sp_paired snap ↔ ∃ k, paired e !! k = Some r;
  de_paired_nodup : NoDup (map record_key_id (sp_paired snap));
  de_grants : sp_grants snap = grants e;
  de_relay x : x ∈ sp_relay_enabled snap ↔ x ∈ relay e;
  de_held h : h ∈ sp_agreement_statements snap ↔ ∃ k, k ≠ own_key e ∧ agreements e !! k = Some h;
  de_held_nodup : NoDup (map hs_key_id (sp_agreement_statements snap)) }.

Lemma values_keys {V} (f : V → KeyId) (m : gmap KeyId V) :
  (∀ k v, m !! k = Some v → f v = k) → map f (values m) = keys m.
Proof.
  intros Hf. unfold values, keys. assert (Forall (λ x, f x.2 = x.1) (items m)) as Hall.
  { apply Forall_forall. intros [k v] Hx. apply elem_of_items in Hx. cbn. by apply Hf. }
  induction Hall as [|[k v] l Hx _ IH]; cbn; [done|]. cbn in Hx. by rewrite Hx, IH.
Qed.

Lemma map_filter_sublist {A B} (f : A → B) (p : A → bool) l : map f (List.filter p l) `sublist_of` map f l.
Proof. induction l as [|a l IH]; cbn; [done|]. destruct (p a); cbn; by constructor. Qed.

Lemma snapshot_describes own e : keys_inv own e → describes (snapshot e) e.
Proof.
  intros [_ Hpa _ Hh _]. split; cbn [snapshot sp_paired sp_grants sp_relay_enabled sp_agreement_statements].
  - intros r. apply elem_of_values.
  - rewrite values_keys; [apply NoDup_keys|]. intros k r Hr. by apply Hpa.
  - done.
  - intros x. apply elem_of_set_items.
  - intros h. rewrite filter_elem, elem_of_values. split.
    + intros [[k Hk] Hn]. exists k. split; [|done]. intros ->. destruct (Hh _ _ Hk) as [E _]. by rewrite E, beq_refl in Hn.
    + intros (k & Hk & Hx). split; [eauto|]. destruct (Hh _ _ Hx) as [-> _]. by apply negb_true_iff, bool_decide_eq_false.
  - eapply sublist_NoDup; [|apply map_filter_sublist]. rewrite values_keys; [apply NoDup_keys|]. intros k h Hk. by apply Hh.
Qed.

(** A snapshot still describes an engine whose own statement changed. *)
Lemma describes_frame snap e e' :
  own_key e' = own_key e → paired e' = paired e → grants e' = grants e → relay e' = relay e →
  (∀ k, k ≠ own_key e → agreements e' !! k = agreements e !! k) → describes snap e → describes snap e'.
Proof.
  intros H1 H2 H3 H4 H5 [A B D E F G]. split; rewrite ?H1, ?H2, ?H3, ?H4; try done. intros h. rewrite F.
  split; intros (k & Hk & Hx); exists k; (split; [done|]); [by rewrite H5|by rewrite <- H5].
Qed.
End Restart.

(** ** Every operation keeps the store in step *)

Section Synced.
Context `{C : Crypto} {S : Type} (store : PairingStore S) (I : S → Prop) `{!DurableStore store I} (own : DeviceIdentity).

Record synced (es : Engine * S) : Prop := {
  sy_keys : keys_inv own es.1;
  sy_state : I es.2;
  sy_snap : ∃ snap, pst_load S store es.2 = Ok snap ∧ describes snap es.1 }.

Lemma saved e s : keys_inv own e → I s → ∃ s', save store e s = (Ok tt, s') ∧ synced (e, s').
Proof.
  intros He Hs. unfold save. destruct (durable_save (snapshot e) s Hs) as (s' & H1 & H2 & H3). exists s'. split; [done|].
  split; [done|done|]. exists (snapshot e). split; [done|]. by eapply snapshot_describes.
Qed.

Lemma synced_same e e' s : same_keys e e' → synced (e, s) → synced (e', s).
Proof.
  intros Hs [H1 H2 (snap & H3 & H4)]. split; [by eapply same_keys_inv|done|]. exists snap. split; [done|]. cbn [fst] in *.
  destruct Hs as (A & B & D & E & F & G). apply (describes_frame snap e); try done. intros k _. by rewrite E.
Qed.

(** The operations that touch neither keys nor settings. *)
Lemma pins_same e : same_keys e (sync_pins e).
Proof. done. Qed.

Lemma bind_from_envelope_same from key e : same_keys e (bind_from_envelope from key e).2.
Proof.
  pose proof (bind_from_envelope_spec from key e) as H. destruct (bind_from_envelope from key e) as [[] e']; cbn [snd].
  - destruct H as (_ & _ & _ & [] & _). by split_and!.
  - by destruct H as [-> _].
Qed.

Lemma authorize_same msg now e : same_keys e (authorize_delivery msg now e).2.
Proof. destruct (authorize_step4 msg now e) as (_ & _ & _ & [] & _). by split_and!. Qed.

Lemma record_handoff_same now r out e : same_keys e (record_handoff now r out e).
Proof. unfold record_handoff. destruct out; try done; repeat case_match; done. Qed.

Lemma forget_handoff_same r e : same_keys e (forget_handoff r e).2.
Proof. unfold forget_handoff. destruct (remove_first _ _ _) as [b h]. done. Qed.

Lemma table_ops_same e :
  (∀ x, same_keys e (end_session x e).2) ∧ (∀ x k, same_keys e (bind x k e).2) ∧ (∀ x k, same_keys e (mark_conflict x k e).2) ∧
  (∀ x, same_keys e (forget_binding x e).2) ∧ (∀ r o, same_keys e (register_session r o e).2).
Proof.
  split_and!; intros.
  - unfold end_session. by destruct (own_sessions e !! x).
  - unfold bind. destruct (bindings e !! x) as [[]|]; try done. by destruct (beq _ _).
  - unfold mark_conflict. destruct (is_some _); [done|]. by destruct (bindings e !! x).
  - unfold forget_binding. by destruct (_ || _).
  - unfold register_session. by destruct (_ || _).
Qed.

Lemma pair_synced peer now e s : synced (e, s) → let '(_, e', s') := pair_key store peer now e s in synced (e', s').
Proof.
  intros Hs. pose proof Hs as [He Hst _]. cbn [fst snd] in He, Hst. unfold pair_key.
  destruct (add_paired_key _ _ _) as [[t0|] t] eqn:Ea; [|done].
  assert (t0 = entry_of (pp_record peer)) as ->.
  { unfold add_paired_key in Ea. destruct (ts_entries (trusted e) !! _); [done|]. by injection Ea as <-. }
  set (admitted := x ← pp_statement peer; _).
  assert (∀ h, admitted = Some h → hs_key_id h = record_key_id (pp_record peer)) as Hadm.
  { intros h. subst admitted. destruct (pp_statement peer) as [x|]; [|done]. cbn [mbind option_bind].
    destruct (check_statement _ _ _ _) as [h'|]; [|done]. cbn [ok opt_filter]. destruct (beq _ _) eqn:E; [|done].
    intros [= <-]. by apply beq_true in E. }
  pose proof (add_pair_keys own e t (pp_record peer) _ admitted He Ea eq_refl Hadm) as Hk.
  set (e' := set_keys _ _ _ e) in *. clearbody e'. destruct (saved e' s Hk Hst) as (s' & -> & Hs').
  by apply (synced_same e').
Qed.

Lemma admit_own_synced st now e s : synced (e, s) → synced ((admit_own_statement st now e).2, s).
Proof.
  intros Hs. unfold admit_own_statement. destruct (check_statement _ _ _ _) as [h|]; [|done].
  destruct (negb (beq (hs_key_id h) (own_key e))) eqn:Ek; [done|]. apply negb_false_iff, beq_true in Ek.
  assert (synced (set_keys (trusted e) (paired e) (<[ own_key e := h ]> (agreements e)) (change (Ch_OwnStatement (hs_seq h)) e), s)) as Hadd.
  { destruct Hs as [He Hst (snap & Hl & Hd)]. split; [|done|].
    - cbn [fst snd] in *. rewrite <- Ek. apply (same_keys_inv own (set_keys (trusted e) (paired e) (<[ hs_key_id h := h ]> (agreements e)) e)); [done|].
      apply set_statement_keys; [done|by left].
    - exists snap. split; [done|]. apply (describes_frame snap e); try done. intros k Hk. cbn. by rewrite lookup_insert_ne. }
  destruct (agreements e !! own_key e) as [h'|]; [|done]. case_bool_decide; [done|]. by destruct (_ <=? _).
Qed.

Lemma admit_synced st now e s : synced (e, s) → let '(_, e', s') := admit_statement store st now e s in synced (e', s').
Proof.
  intros Hs. pose proof Hs as [He Hst _]. cbn [fst snd] in He, Hst. unfold admit_statement.
  destruct (check_statement _ _ _ _) as [h|]; [|done]. destruct (beq (hs_key_id h) (own_key e)).
  { pose proof (admit_own_synced st now e s Hs) as H. by destruct (admit_own_statement st now e). }
  destruct (check_confirmed h _) as [[]|] eqn:Ec; [|done].
  assert (keys_inv own (set_keys (trusted e) (paired e) (<[ hs_key_id h := h ]> (agreements e)) e)) as Hk.
  { apply set_statement_keys; [done|]. right. destruct (paired e !! hs_key_id h) as [r|]; [eauto|done]. }
  set (e' := set_keys _ _ _ e) in *. destruct (saved e' s Hk Hst) as (s' & -> & Hs'). by apply (synced_same e').
Qed.

Lemma remove_key_synced k e s :
  engine_inv e → synced (e, s) → let '(_, e', s') := remove_key store k e s in synced (e', s').
Proof.
  intros Hinv Hs. pose proof Hs as [He Hst _]. cbn [fst snd] in He, Hst.
  destruct (remove_key store k e s) as [[r e'] s'] eqn:E. pose proof (remove_key_purged store e s k r e' s' Hinv E) as H.
  assert (names_nowhere k e' → keeps_others k e e' → k ≠ own_key e → keys_inv own e') as Hkeys.
  { intros Hn Hk Hne. apply (removed_keys own e e' k He Hne); try apply Hk.
    - apply map_eq. intros k'. destruct (decide (k' = k)) as [->|Hkk].
      + rewrite lookup_delete_eq. apply Hn.
      + rewrite lookup_delete_ne by done. by apply Hk.
    - rewrite (ko_grants _ _ _ Hk). eapply sublist_NoDup; [apply He|]. apply filter_sublist. }
  assert (k = own_key e → r = Err RK_OwnKey) as Hown.
  { intros ->. unfold remove_key in E. rewrite beq_refl in E. by injection E. }
  destruct r as [rem|[| |err]].
  - destruct H as (Hn & Hk & Hsave & _).
    destruct (saved e' s) as (s2 & Hs2 & Hsy); [apply Hkeys; [done|done|naive_solver]|done|]. rewrite Hsave in Hs2. by injection Hs2 as ->.
  - by destruct H as (_ & -> & ->).
  - by destruct H as (_ & _ & -> & ->).
  - destruct H as (Hn & Hk & Hsave).
    destruct (saved e' s) as (s2 & Hs2 & Hsy); [apply Hkeys; [done|done|naive_solver]|done|]. by rewrite Hsave in Hs2.
Qed.

Lemma filter_same_length {A} (f : A → bool) l : length (List.filter f l) = length l → List.filter f l = l.
Proof.
  induction l as [|a l IH]; cbn; [done|]. pose proof (List.filter_length_le f l) as Hle. destruct (f a); cbn; [|lia].
  intros H. f_equal. apply IH. lia.
Qed.

Lemma grants_synced g e s :
  synced (e, s) → (let '(_, e', s') := add_grant store g e s in synced (e', s')) ∧
  (let '(_, e', s') := remove_grant store g e s in synced (e', s')).
Proof.
  intros Hs. pose proof Hs as [He Hst _]. cbn [fst snd] in He, Hst. split.
  - unfold add_grant. case_bool_decide as Hin; [done|]. set (e' := set_grants _ e).
    assert (keys_inv own e') as Hk.
    { apply set_grants_keys; [done|]. apply NoDup_app. split_and!; [apply He| |apply NoDup_singleton].
      intros x Hx Hx'. apply list_elem_of_singleton in Hx'. congruence. }
    destruct (saved e' s Hk Hst) as (s' & -> & Hs'). by apply (synced_same e').
  - unfold remove_grant. set (e' := set_grants _ e).
    assert (keys_inv own e') as Hk by (apply set_grants_keys; [done|]; eapply sublist_NoDup; [apply He|apply filter_sublist]).
    case_bool_decide as Hl; [|destruct (saved (change (Ch_RemovedGrant g) e') s) as (s' & -> & Hs'); [by apply (same_keys_inv own e')|done|done]].
    apply (synced_same e); [|done]. unfold same_keys, e'. cbn [set_grants own_key trusted paired agreements grants relay].
    split_and!; try done. by apply filter_same_length.
Qed.

Lemma relay_synced x b e s : synced (e, s) → let '(_, e', s') := engine_set_relay store x b e s in synced (e', s').
Proof.
  intros [He Hst _]. cbn [fst snd] in He, Hst. unfold engine_set_relay. destruct b; set (e' := set_relay _ e);
    (destruct (saved e' s) as (s' & -> & Hs'); [by destruct He|done|by apply (synced_same e')]).
Qed.

Lemma run_engine_synced es o : engine_inv es.1 → synced es → synced (run_engine store es o).
Proof.
  destruct es as [e s]. cbn [fst]. intros Hi Hs. destruct (table_ops_same e) as (T1 & T2 & T3 & T4 & T5).
  destruct o; cbn [run_engine].
  - pose proof (pair_synced peer now e s Hs). by destruct (pair_key store peer now e s) as [[] ].
  - pose proof (admit_synced st now e s Hs). by destruct (admit_statement store st now e s) as [[] ].
  - by apply admit_own_synced.
  - pose proof (remove_key_synced k e s Hi Hs). by destruct (remove_key store k e s) as [[] ].
  - destruct (grants_synced g e s Hs) as [H _]. by destruct (add_grant store g e s) as [[] ].
  - destruct (grants_synced g e s Hs) as [_ H]. by destruct (remove_grant store g e s) as [[] ].
  - pose proof (relay_synced s0 enabled e s Hs). by destruct (engine_set_relay store s0 enabled e s) as [[] ].
  - by apply (synced_same e).
  - by apply (synced_same e).
  - by apply (synced_same e).
  - by apply (synced_same e).
  - by apply (synced_same e).
  - by apply (synced_same e).
  - apply (synced_same e); [apply record_handoff_same|done].
  - apply (synced_same e); [apply forget_handoff_same|done].
  - by apply (synced_same e).
  - by apply (synced_same e).
  - apply (synced_same e); [apply authorize_same|done].
Qed.
End Synced.

(** ** Restoring *)

Section Restore.
Context `{C : Crypto}.

Lemma restore_paired_spec rs e :
  NoDup (map record_key_id rs) → (∀ r, r ∈ rs → ts_entries (trusted e) !! record_key_id r = None) →
  ∃ t p, restore_paired rs e = Ok (set_keys t p (agreements e) e) ∧
    (∀ r, r ∈ rs → p !! record_key_id r = Some r ∧ ts_entries t !! record_key_id r = Some (entry_of r)) ∧
    (∀ k, (∀ r, r ∈ rs → record_key_id r ≠ k) → p !! k = paired e !! k ∧ ts_entries t !! k = ts_entries (trusted e) !! k).
Proof.
  revert e. induction rs as [|r rs IH]; intros e Hnd Hnew; cbn [restore_paired].
  - exists (trusted e), (paired e). split_and!; [by destruct e| |done]. intros r Hr. by apply elem_of_nil in Hr.
  - cbn in Hnd. apply NoDup_cons in Hnd as [Hr Hnd]. pose proof (Hnew r ltac:(left)) as Hn.
    assert (∀ r', r' ∈ rs → record_key_id r ≠ record_key_id r') as Hne.
    { intros r' Hr' E. apply Hr. rewrite E. apply list_elem_of_In, in_map, list_elem_of_In. done. }
    unfold add_paired_key. cbn [TrustedKey_new tk_key_id]. change (key_id (pr_public_key r)) with (record_key_id r). rewrite Hn.
    set (e1 := set_keys _ _ _ e). destruct (IH e1 Hnd) as (t & p & Hres & Hin & Hout).
    { intros r' Hr'. cbn. rewrite lookup_insert_ne by auto. apply Hnew. by right. }
    exists t, p. split_and!; [exact Hres| |].
    + intros r' [->|Hr']%elem_of_cons; [|by apply Hin]. destruct (Hout (record_key_id r)) as [-> ->]; [intros x Hx; symmetry; by apply Hne|].
      cbn. by rewrite !lookup_insert_eq.
    + intros k Hk. destruct (Hout k) as [-> ->]; [intros x Hx; apply Hk; by right|]. cbn.
      assert (record_key_id r ≠ k) by (apply Hk; left). by rewrite !lookup_insert_ne.
Qed.

Lemma restore_statements_spec hs e :
  NoDup (map hs_key_id hs) → (∀ h, h ∈ hs → agreements e !! hs_key_id h = None) →
  (∀ h, h ∈ hs → ∃ r, paired e !! hs_key_id h = Some r ∧ check_confirmed h (pr_confirmed r) = Ok tt) →
  ∃ a, restore_statements hs e = Ok (set_keys (trusted e) (paired e) a e) ∧
    (∀ h, h ∈ hs → a !! hs_key_id h = Some h) ∧ (∀ k, (∀ h, h ∈ hs → hs_key_id h ≠ k) → a !! k = agreements e !! k).
Proof.
  revert e. induction hs as [|h hs IH]; intros e Hnd Hnew Hok; cbn [restore_statements].
  - exists (agreements e). split_and!; [by destruct e| |done]. intros r Hr. by apply elem_of_nil in Hr.
  - cbn in Hnd. apply NoDup_cons in Hnd as [Hr Hnd]. destruct (Hok h ltac:(left)) as (r & Hp & Hc).
    assert (∀ h', h' ∈ hs → hs_key_id h ≠ hs_key_id h') as Hne.
    { intros h' Hh' E. apply Hr. rewrite E. apply list_elem_of_In, in_map, list_elem_of_In. done. }
    rewrite Hp, (Hnew h) by left. cbn [is_some negb orb mbind option_bind]. rewrite Hc. set (e1 := set_keys _ _ _ e).
    destruct (IH e1 Hnd) as (a & Hres & Hin & Hout).
    { intros h' Hh'. cbn. rewrite lookup_insert_ne by auto. apply Hnew. by right. }
    { intros h' Hh'. apply Hok. by right. }
    exists a. split_and!; [exact Hres| |].
    + intros h' [->|Hh']%elem_of_cons; [|by apply Hin]. rewrite Hout by (intros x Hx; symmetry; by apply Hne). apply lookup_insert_eq.
    + intros k Hk. rewrite Hout by (intros x Hx; apply Hk; by right). cbn. rewrite lookup_insert_ne; [done|]. apply Hk. left.
Qed.

Lemma fold_grants (gs acc : list Grant) :
  NoDup (acc ++ gs) → foldl (λ gs g, if bool_decide (g ∈ gs) then gs else gs ++ [g]) acc gs = acc ++ gs.
Proof.
  revert acc. induction gs as [|g gs IH]; intros acc Hnd; cbn [foldl]; [by rewrite app_nil_r|].
  rewrite bool_decide_false.
  - rewrite IH; rewrite <- app_assoc; [done|]. exact Hnd.
  - intros Hin. apply NoDup_app in Hnd as (_ & Hd & _). apply (Hd g Hin). left.
Qed.

(** The engine restored from a snapshot that describes [e]. *)
Lemma restore_described {S} (store : PairingStore S) own e s snap :
  keys_inv own e → pst_load S store s = Ok snap → describes snap e →
  ∃ e', restore store own s = Ok e' ∧ own_key e' = own_key e ∧ trusted e' = trusted e ∧ paired e' = paired e ∧
    grants e' = grants e ∧ relay e' = relay e ∧ agreements e' = delete (own_key e) (agreements e).
Proof.
  intros [[Ho1 Ho2] Hpa Htr Hh Hgr] Hl [A B D E F G]. unfold restore. rewrite Hl. cbn [map_err mbind result_bind].
  assert (∀ r, r ∈ sp_paired snap → paired e !! record_key_id r = Some r) as Hin.
  { intros r (k & Hk)%A. by destruct (Hpa k r Hk) as (-> & _). }
  destruct (restore_paired_spec (sp_paired snap) (Engine_new own) B) as (t & p & -> & Hp1 & Hp2).
  { intros r Hr. destruct (Hpa _ _ (Hin r Hr)) as (_ & Hne & _). cbn. rewrite lookup_singleton_ne; [done|]. congruence. }
  assert (p = paired e) as ->.
  { apply map_eq. intros k. destruct (paired e !! k) as [r|] eqn:Ek.
    - destruct (Hpa k r Ek) as (<- & _). apply Hp1, A. eauto.
    - destruct (Hp2 k) as [-> _]; [|by cbn; rewrite lookup_empty]. intros r Hr <-. rewrite Hin in Ek; done. }
  assert (ts_entries t = ts_entries (trusted e)) as Ht.
  { apply map_eq. intros k. destruct (paired e !! k) as [r|] eqn:Ek.
    - destruct (Hpa k r Ek) as (<- & _ & ->). apply Hp1, A. eauto.
    - destruct (Hp2 k) as [_ ->]; [intros r Hr <-; rewrite Hin in Ek; done|]. cbn.
      destruct (decide (k = own_key e)) as [->|Hk]; [by rewrite Ho1 in *; rewrite lookup_singleton_eq|].
      rewrite lookup_singleton_ne by congruence. symmetry. apply eq_None_not_Some. intros [->|[x Hx]]%Htr; congruence. }
  assert (t = trusted e) as -> by (destruct t, (trusted e); cbn in Ht; congruence). clear Ht.
  cbn [mbind result_bind]. rewrite D. cbn [Engine_new set_keys grants]. rewrite (fold_grants (grants e) []) by done.
  set (e1 := set_relay _ _).
  assert (∀ h, h ∈ sp_agreement_statements snap → agreements e !! hs_key_id h = Some h ∧ hs_key_id h ≠ own_key e) as Hst.
  { intros h (k & Hk & Hx)%F. by destruct (Hh k h Hx) as (-> & _). }
  destruct (restore_statements_spec (sp_agreement_statements snap) e1 G) as (a & -> & Ha1 & Ha2).
  { intros h _. cbn. by rewrite lookup_empty. }
  { intros h Hx. destruct (Hst h Hx) as [H1 H2]. destruct (Hh _ _ H1) as (_ & [|H3]); [done|]. exact H3. }
  eexists. split; [reflexivity|]. cbn [e1 set_keys set_relay set_grants own_key trusted paired grants relay agreements]. split_and!; try done.
  - apply set_eq. intros x. by rewrite elem_of_list_to_set, E.
  - apply map_eq. intros k. destruct (decide (k = own_key e)) as [->|Hk].
    + rewrite lookup_delete_eq, Ha2 by (intros h Hx; by apply Hst). cbn. apply lookup_empty.
    + rewrite lookup_delete_ne by done. destruct (agreements e !! k) as [h|] eqn:Ek.
      * destruct (Hh k h Ek) as (<- & _). apply Ha1, F. eauto.
      * rewrite Ha2; [cbn; apply lookup_empty|]. intros h Hx <-. destruct (Hst h Hx). congruence.
Qed.
End Restore.

(** A restart loses nothing the operator decided: over a store that keeps what it is
    given, restoring after any sequence of operations always succeeds and gives back exactly
    the trusted keys, pairing records, grants and relay settings, and every peer's agreement
    statement; only the device's own statement, which another store holds, is left out. *)
Theorem restart_restores `{C : Crypto} {S : Type} (store : PairingStore S) (I : S → Prop) (HS : DurableStore store I)
    (own : DeviceIdentity) (s : S) (ops : list engine_op) :
  I s → pst_load S store s = Ok (snapshot (Engine_new own)) →
  let '(e, s') := run_engine_all store own s ops in
  ∃ e', restore store own s' = Ok e' ∧ own_key e' = own_key e ∧ trusted e' = trusted e ∧ paired e' = paired e ∧
    grants e' = grants e ∧ relay e' = relay e ∧ agreements e' = delete (own_key e) (agreements e).
Proof.
  intros Hi Hl. unfold run_engine_all.
  assert (engine_inv (Engine_new own, s).1 ∧ synced store I own (Engine_new own, s)) as H.
  { split; [apply new_inv|]. split; [apply new_keys|done|]. exists (snapshot (Engine_new own)). split; [done|].
    eapply snapshot_describes, new_keys. }
  revert H. generalize (Engine_new own, s). induction ops as [|o ops IH]; intros es [He Hs]; cbn [foldl].
  - destruct es as [e s']. destruct Hs as [Hk _ (snap & Hsn & Hd)]. by eapply restore_described.
  - apply IH. split; [by apply run_engine_inv|by apply run_engine_synced].
Qed.

Lemma restart_restores_witness :
  let own := sample_device "alice" 1 in
  let g := Inbound (peer_device (bs "k")) LS_Device in
  let '(e, s') := run_engine_all (C := sample_pair) MemoryPairingStore own (snapshot (Engine_new own), false) [EAddGrant g; ESetRelay (bs "s") true] in
  grants e = [g] ∧ ∃ e', restore (C := sample_pair) MemoryPairingStore own s' = Ok e' ∧ grants e' = grants e ∧ relay e' = relay e.
Proof.
  cbv zeta. pose proof (restart_restores (C := sample_pair) MemoryPairingStore (λ s, s.2 = false) memory_store_durable
    (sample_device "alice" 1) (snapshot (Engine_new (sample_device "alice" 1)), false)
    [EAddGrant (Inbound (peer_device (bs "k")) LS_Device); ESetRelay (bs "s") true] eq_refl eq_refl) as H.
  destruct (run_engine_all _ _ _ _) as [e s'] eqn:E. split.
  - cbn in E. injection E as <- _. reflexivity.
  - destruct H as (e' & H1 & _ & _ & _ & H2 & H3 & _). exists e'. done.
Defined.
