(* ===== verification/Transport.v ===== *)
(** * The transport contract's data ([core/src/transport.rs])

    Where a payload goes, what a payload is, the events a transport yields, and the
    declaration it makes when it starts. *)

From S2P Require Import Prelude Ids.

Inductive Destination : Type :=
| Dest_Session (s : SessionId)
| Dest_Device (k : KeyId).

#[export] Instance Destination_eq_dec : EqDecision Destination.
Proof. solve_decision. Defined.

Inductive PayloadKind : Type := PK_Envelope | PK_Presence | PK_Receipt | PK_Sealed.

#[export] Instance PayloadKind_eq_dec : EqDecision PayloadKind.
Proof. solve_decision. Defined.

Definition PayloadKind_as_str (k : PayloadKind) : list Z :=
  match k with
  | PK_Envelope => bs "envelope"
  | PK_Presence => bs "presence"
  | PK_Receipt => bs "receipt"
  | PK_Sealed => bs "sealed"
  end.

(** [PayloadKind::fits]. *)
Definition payload_fits (k : PayloadKind) (destination : Destination) : bool :=
  match k, destination with
  | PK_Envelope, Dest_Session _ | PK_Presence, Dest_Device _ | PK_Receipt, Dest_Device _ | PK_Sealed, Dest_Device _ => true
  | _, _ => false
  end.

Record Payload := mkPayload { pl_kind : PayloadKind; pl_octets : list Z }.

#[export] Instance Payload_eq_dec : EqDecision Payload.
Proof. solve_decision. Defined.

(** [Deadline]: an instant in nanoseconds on the passing implementation's clock. *)
Definition Deadline : Type := Z.
Definition has_passed_at (d : Deadline) (now : Z) : bool := d <=? now.

(** [CarrierHandle]: the transport's own octets, only ever compared. *)
Definition CarrierHandle : Type := list Z.

Record InboundPayload := mkInbound { ib_payload : Payload; ib_carrier : CarrierHandle }.

Inductive PresenceEvent : Type :=
| PE_Record (payload : Payload) (carrier : CarrierHandle)
| PE_CarrierLoss (carrier : CarrierHandle)
| PE_CarrierAppeared (carrier : CarrierHandle).

Inductive PublishResult : Type := Taken | NotTaken.

Inductive Reach : Type := LocalOnly | CrossImplementation.

Definition MIN_MAX_PAYLOAD_OCTETS : Z := 65536.
Definition MIN_SEALING_MAX_PAYLOAD_OCTETS : Z := 65590.

Record TransportCapabilities := mkTransportCaps {
  tc_reliability : bool; tc_persistence : bool; tc_offline_queueing : bool; tc_ordering : bool;
  tc_multicast_discovery : bool; tc_routing_federation : bool; tc_reach : Reach;
  tc_destination_restricted : bool; tc_max_payload_octets : Z; tc_sealing : bool }.

Definition contract_violations (c : TransportCapabilities) : list string :=
  (if tc_persistence c || tc_offline_queueing c then ["IFC-TRN-026"%string] else []) ++
  (if tc_max_payload_octets c <? MIN_MAX_PAYLOAD_OCTETS then ["IFC-TRN-023"%string] else []) ++
  (if tc_sealing c && (tc_max_payload_octets c <? MIN_SEALING_MAX_PAYLOAD_OCTETS) then ["IFC-TRN-109"%string] else []).

Inductive TransportError : Type :=
| TE_NotStarted | TE_AlreadyStarted | TE_InvalidConfiguration (why : string) | TE_NotLocalDevice.
