(* ===== verification/Presence.v ===== *)
(** * Presence records ([core/src/presence.rs])

    Reading a presence record in the order of its checks, and the announcements and
    withdrawals an implementation issues. *)

From S2P Require Import Prelude Ids Utf8 Json JsonFacts JsonReader JsonText.
From S2P Require Import Delivery Capabilities Envelope EnvelopeFacts Receipt.

Definition MAX_SEQ : Z := 9007199254740991.
Definition LIFETIME_MS_MIN : Z := 1000.
Definition LIFETIME_MS_MAX : Z := 3600000.

Inductive PresenceState : Type := PS_Online | PS_Unreachable | PS_Unknown.

#[export] Instance PresenceState_eq_dec : EqDecision PresenceState.
Proof. solve_decision. Defined.

Inductive PresenceViolation : Type :=
| PV_NotIJsonObject | PV_MissingMember | PV_BadSessionId | PV_BadSeq | PV_BadPresent | PV_BadIssuedAt
| PV_AnnouncementIncomplete | PV_BadLifetime | PV_BadDescriptor | PV_DescriptorOtherSession
| PV_WithdrawalWithAnnouncementMember.

Inductive PresenceKind : Type :=
| Announcement (lifetime_ms : Z) (descriptor : SessionDescriptor)
| Withdrawal.

Record PresenceRecord := mkPresence {
  pn_session_id : SessionId; pn_seq : Z; pn_issued_at : Timestamp; pn_kind : PresenceKind; pn_wire : JsonObject }.

Definition presence_members : list (list Z) := [bs "session_id"; bs "seq"; bs "present"; bs "issued_at"].

(** The members of an announcement or of a withdrawal. *)
Definition read_presence_kind (o : JsonObject) (session_id : SessionId) (present : bool) : result PresenceViolation PresenceKind :=
  if present
  then
    match obj_get o (bs "lifetime_ms"), obj_get o (bs "descriptor") with
    | Some lifetime, Some descriptor =>
        lifetime_ms ← ok_or (n ← as_number lifetime; plain_integer_in n LIFETIME_MS_MIN LIFETIME_MS_MAX) PV_BadLifetime;
        descriptor ← ok_or (SessionDescriptor_from_json descriptor) PV_BadDescriptor;
        if negb (beq (sd_session_id descriptor) session_id) then Err PV_DescriptorOtherSession
        else Ok (Announcement lifetime_ms descriptor)
    | _, _ => Err PV_AnnouncementIncomplete
    end
  else if obj_contains o (bs "lifetime_ms") || obj_contains o (bs "descriptor") then Err PV_WithdrawalWithAnnouncementMember
  else Ok Withdrawal.

Definition presence_from_json (v : Json) : result PresenceViolation PresenceRecord :=
  o ← ok_or (opt_filter (λ _, negb (contains_null v)) (as_object v)) PV_NotIJsonObject;
  if existsb (λ m, negb (obj_contains o m)) presence_members then Err PV_MissingMember
  else
    session_id ← ok_or (s ← get_str o (bs "session_id"); SessionId_parse s) PV_BadSessionId;
    seq ← ok_or (v ← obj_get o (bs "seq"); n ← as_number v; plain_integer_in n 0 MAX_SEQ) PV_BadSeq;
    present ← ok_or (v ← obj_get o (bs "present"); as_bool v) PV_BadPresent;
    issued_at ← ok_or (s ← get_str o (bs "issued_at"); Timestamp_parse s) PV_BadIssuedAt;
    kind ← read_presence_kind o session_id present;
    Ok (mkPresence session_id seq issued_at kind o).

Definition presence_from_octets (octets : list Z) : result PresenceViolation PresenceRecord :=
  v ← map_err (λ _, PV_NotIJsonObject) (parse octets);
  presence_from_json v.

(** [PresenceRecord::header]. *)
Definition presence_header (session_id : SessionId) (seq : Z) (present : bool) (issued_at : Timestamp) : JsonObject :=
  let wire := obj_insert [] (bs "session_id") (JString session_id) in
  let wire := obj_insert wire (bs "seq") (JNumber (from_u64 seq)) in
  let wire := obj_insert wire (bs "present") (JBool present) in
  obj_insert wire (bs "issued_at") (JString (ts_text issued_at)).

Definition announcement (seq : Z) (issued_at : Timestamp) (lifetime_ms : Z) (descriptor : SessionDescriptor)
    : result PresenceViolation PresenceRecord :=
  if MAX_SEQ <? seq then Err PV_BadSeq
  else if negb (in_range LIFETIME_MS_MIN LIFETIME_MS_MAX lifetime_ms) then Err PV_BadLifetime
  else
    let session_id := sd_session_id descriptor in
    let wire := presence_header session_id seq true issued_at in
    let wire := obj_insert wire (bs "lifetime_ms") (JNumber (from_u64 lifetime_ms)) in
    let wire := obj_insert wire (bs "descriptor") (JObject (sd_wire descriptor)) in
    Ok (mkPresence session_id seq issued_at (Announcement lifetime_ms descriptor) wire).

Definition withdrawal (session_id : SessionId) (seq : Z) (issued_at : Timestamp) : result PresenceViolation PresenceRecord :=
  if MAX_SEQ <? seq then Err PV_BadSeq
  else Ok (mkPresence session_id seq issued_at Withdrawal (presence_header session_id seq false issued_at)).

(** [PresenceRecord::present]. *)
Definition pn_present (r : PresenceRecord) : bool :=
  match pn_kind r with Announcement _ _ => true | Withdrawal => false end.

Definition presence_to_octets (r : PresenceRecord) : list Z := to_compact (JObject (pn_wire r)).

(** ** Facts *)

(** A descriptor as the type holds one: read back from its own object. *)
Definition descriptor_ok (d : SessionDescriptor) : Prop :=
  SessionDescriptor_from_json (JObject (sd_wire d)) = Some d ∧ wf_json (JObject (sd_wire d)) ∧
  contains_null (JObject (sd_wire d)) = false.

(** The records an implementation issues for its own sessions. *)
Inductive issued_record : PresenceRecord → Prop :=
| issued_announcement seq at_ ms d r :
    descriptor_ok d → 0 ≤ seq → Timestamp_parse (ts_text at_) = Some at_ → announcement seq at_ ms d = Ok r → issued_record r
| issued_withdrawal s seq at_ r :
    is_session_id s = true → 0 ≤ seq → Timestamp_parse (ts_text at_) = Some at_ → withdrawal s seq at_ = Ok r → issued_record r.

Lemma presence_header_get s seq p at_ name :
  obj_get (presence_header s seq p at_) name =
  if beq (bs "issued_at") name then Some (JString (ts_text at_))
  else if beq (bs "present") name then Some (JBool p)
  else if beq (bs "seq") name then Some (JNumber (from_u64 seq))
  else if beq (bs "session_id") name then Some (JString s) else None.
Proof. unfold presence_header. by rewrite !obj_get_insert. Qed.

Lemma presence_header_wf s seq p at_ :
  is_session_id s = true → 0 ≤ seq ≤ MAX_SEQ → Timestamp_parse (ts_text at_) = Some at_ → wf_json (JObject (presence_header s seq p at_)).
Proof.
  intros Hs Hq Ht. unfold presence_header. repeat apply wf_insert; try (by apply ascii_bs); [apply wf_empty|..].
  - by apply wf_str, session_id_ascii.
  - constructor. apply from_u64_rfc. unfold MAX_SEQ, U64_MAX in *. lia.
  - constructor.
  - by eapply wf_str, timestamp_ascii.
Qed.

Lemma presence_header_null s seq p at_ : contains_null (JObject (presence_header s seq p at_)) = false.
Proof. rewrite contains_null_object. unfold presence_header. by repeat apply contains_null_insert. Qed.

Lemma plain_seq_presence seq : 0 ≤ seq ≤ MAX_SEQ → plain_integer_in (from_u64 seq) 0 MAX_SEQ = Some seq.
Proof. intros H. apply plain_integer_from; unfold MAX_SEQ, U64_MAX in *; lia. Qed.

(** Comparisons of two literal names, evaluated. *)
Ltac eval_names :=
  repeat match goal with |- context [beq (bs ?a) (bs ?b)] =>
    let x := eval vm_compute in (beq (bs a) (bs b)) in change (beq (bs a) (bs b)) with x end; cbv iota.

Lemma issued_wf r : issued_record r → wf_json (JObject (pn_wire r)) ∧ presence_from_json (JObject (pn_wire r)) = Ok r.
Proof.
  destruct 1 as [seq at_ ms d r (Hd1 & Hd2 & Hd3) Hq Ht Hr|s seq at_ r Hs Hq Ht Hr].
  - unfold announcement in Hr. destruct (MAX_SEQ <? seq) eqn:Eq; [done|].
    destruct (in_range LIFETIME_MS_MIN LIFETIME_MS_MAX ms) eqn:Em; [|done]. cbn [negb] in Hr. injection Hr as <-. bool_hyps. apply in_range_true in Em.
    assert (is_session_id (sd_session_id d) = true) as Hs.
    { clear -Hd1. unfold SessionDescriptor_from_json in Hd1. inv_binds. unfold SessionId_parse, then_some in *.
      case_match eqn:E; [|done]. by simplify_eq/=. }
    cbn [pn_wire]. split.
    + apply wf_insert; [apply wf_insert; [by apply presence_header_wf; [|lia|]|by apply ascii_bs|]|by apply ascii_bs|done].
      constructor. apply from_u64_rfc. unfold LIFETIME_MS_MIN, LIFETIME_MS_MAX, U64_MAX in *. lia.
    + unfold presence_from_json. rewrite contains_null_object.
      rewrite contains_null_insert; [|apply contains_null_insert; [|done]|done]; [|by rewrite <- contains_null_object, presence_header_null].
      cbn [negb as_object opt_filter ok_or mbind result_bind].
      unfold presence_members, obj_contains, get_str. cbn [existsb]. rewrite !obj_get_insert, !presence_header_get. eval_names.
      cbn [is_some negb orb mbind option_bind as_str as_number as_bool ok_or result_bind].
      unfold SessionId_parse, then_some. rewrite Hs. cbn [ok_or mbind result_bind]. rewrite plain_seq_presence by lia.
      cbn [ok_or mbind result_bind]. rewrite Ht. cbn [ok_or mbind result_bind]. unfold read_presence_kind.
      rewrite !obj_get_insert. eval_names. cbn [as_number mbind option_bind].
      rewrite plain_integer_from by (unfold LIFETIME_MS_MIN, LIFETIME_MS_MAX, U64_MAX in *; lia).
      cbn [ok_or mbind result_bind]. rewrite Hd1. cbn [ok_or mbind result_bind]. by rewrite beq_refl.
  - unfold withdrawal in Hr. destruct (MAX_SEQ <? seq) eqn:Eq; [done|]. injection Hr as <-. bool_hyps. cbn [pn_wire]. split.
    + apply presence_header_wf; [done|lia|done].
    + unfold presence_from_json. rewrite presence_header_null. cbn [negb as_object opt_filter ok_or mbind result_bind].
      unfold presence_members, obj_contains, get_str. cbn [existsb]. rewrite !presence_header_get. eval_names.
      cbn [is_some negb orb mbind option_bind as_str as_number as_bool ok_or result_bind].
      unfold SessionId_parse, then_some. rewrite Hs. cbn [ok_or mbind result_bind]. rewrite plain_seq_presence by lia.
      cbn [ok_or mbind result_bind]. rewrite Ht. cbn [ok_or mbind result_bind]. unfold read_presence_kind, obj_contains.
      rewrite !presence_header_get. eval_names. done.
Qed.

(** A record read keeps its object, so it is written out and read again as it is. *)
Lemma presence_from_json_wire v r : presence_from_json v = Ok r → v = JObject (pn_wire r).
Proof.
  unfold presence_from_json. intros H. destruct v as [| | | | |o]; try done.
  cbn [as_object] in H. unfold opt_filter at 1 in H. destruct (negb (contains_null _)); [|done]. cbn [ok_or mbind result_bind] in H.
  destruct (existsb _ _); [done|]. by inv_binds.
Qed.

(** What a record that was read holds. *)
Lemma presence_from_json_Ok v r :
  presence_from_json v = Ok r →
  is_session_id (pn_session_id r) = true ∧ 0 ≤ pn_seq r ≤ MAX_SEQ ∧
  match pn_kind r with
  | Announcement ms d => LIFETIME_MS_MIN ≤ ms ≤ LIFETIME_MS_MAX ∧ sd_session_id d = pn_session_id r
  | Withdrawal => obj_get (pn_wire r) (bs "lifetime_ms") = None ∧ obj_get (pn_wire r) (bs "descriptor") = None
  end.
Proof.
  unfold presence_from_json. intros H. destruct v as [| | | | |o]; try done.
  cbn [as_object] in H. unfold opt_filter at 1 in H. destruct (negb (contains_null _)); [|done]. cbn [ok_or mbind result_bind] in H.
  destruct (existsb _ _); [done|]. inv_binds. cbn [pn_session_id pn_seq pn_kind pn_wire].
  match goal with H : SessionId_parse _ = Some _ |- _ => unfold SessionId_parse, then_some in H; case_match; [|done]; injection H as <- end.
  match goal with H : plain_integer_in _ 0 MAX_SEQ = Some _ |- _ => apply plain_range in H end.
  match goal with H : read_presence_kind _ _ ?b = Ok ?k |- _ => unfold read_presence_kind in H; rename H into Hk; destruct b end.
  - destruct (obj_get o (bs "lifetime_ms")) as [l|], (obj_get o (bs "descriptor")) as [d|]; try done. inv_binds.
    match goal with H : negb (beq _ _) = false |- _ => apply negb_false_iff, beq_true in H end.
    match goal with H : plain_integer_in _ LIFETIME_MS_MIN _ = Some _ |- _ => apply plain_range in H end. done.
  - destruct (obj_contains o (bs "lifetime_ms")) eqn:E1; [done|]. destruct (obj_contains o (bs "descriptor")) eqn:E2; [done|].
    injection Hk as <-. unfold obj_contains in *.
    destruct (obj_get o (bs "lifetime_ms")); [done|]. by destruct (obj_get o (bs "descriptor")).
Qed.

(** Presence records are readable and kept whole: the octets of an announcement or
    withdrawal an implementation issues read back as the same record, and so do those of any
    record it accepted, unrecognized members included; an accepted record's session id and
    sequence number are in form, an announcement's lifetime is in range and its descriptor
    names the same session, and a withdrawal carries neither. *)
Theorem presence_round_trip (r : PresenceRecord) :
  (issued_record r → presence_from_octets (presence_to_octets r) = Ok r) ∧
  (∀ octets, presence_from_octets octets = Ok r →
     presence_from_octets (presence_to_octets r) = Ok r ∧ is_session_id (pn_session_id r) = true ∧ 0 ≤ pn_seq r ≤ MAX_SEQ ∧
     match pn_kind r with
     | Announcement ms d => LIFETIME_MS_MIN ≤ ms ≤ LIFETIME_MS_MAX ∧ sd_session_id d = pn_session_id r
     | Withdrawal => obj_get (pn_wire r) (bs "lifetime_ms") = None ∧ obj_get (pn_wire r) (bs "descriptor") = None
     end).
Proof.
  split.
  - intros [Hwf Hr]%issued_wf. unfold presence_from_octets, presence_to_octets. by rewrite to_compact_ref, parse_compact.
  - intros octets H. unfold presence_from_octets in H at 1. apply result_bind_Ok in H as (v & Hp & Hv).
    destruct (parse octets) as [w|] eqn:Hw; [|done]. injection Hp as ->. apply parse_wf in Hw.
    split; [|by apply (presence_from_json_Ok v)]. pose proof (presence_from_json_wire _ _ Hv) as ->.
    unfold presence_from_octets, presence_to_octets. by rewrite to_compact_ref, parse_compact.
Qed.
