(* ===== verification/Registry.v ===== *)
(** * The presence registry and issuer ([core/src/registry.rs])

    What one implementation knows about which sessions are reachable: its own sessions, the
    latest record accepted for others, the bound on both and the shares of the bound, the
    states computed from them, and the answers to discovery and send requests.  Instants are
    nanoseconds on the caller's monotonic clock. *)

From S2P Require Import Prelude Ordered Ids Json Delivery Capabilities Transport Presence.

(** The order a [HashMap] keyed by session id is iterated in, which the language leaves open. *)
Class HashOrder := {
  hash_items : ∀ {V : Type}, gmap SessionId V → list (SessionId * V);
  hash_items_perm : ∀ {V : Type} (m : gmap SessionId V), hash_items m ≡ₚ map_to_list m }.

Definition CROSS_IMPLEMENTATION_PRESENCE_CAP_MS : Z := 300000.
Definition DEFAULT_PRESENCE_CAPACITY : Z := 4096.
Definition DEFAULT_ISSUER_SHARE_DIVISOR : Z := 4.

Inductive RecordOrigin : Type := SameImplementation | OtherImplementation.

Inductive PresenceDiscard : Type :=
| PD_Invalid (v : PresenceViolation)
| PD_NotNewer
| PD_Full
| PD_IssuerQuota.

Inductive PresenceAcceptance : Type :=
| PAccepted (effective_lifetime_ms : option Z)
| PDiscarded (why : PresenceDiscard).

Record Held := mkHeldRecord {
  hd_record : PresenceRecord; hd_stale_at : option Z; hd_carrier : CarrierHandle; hd_carrier_lost : bool;
  hd_issuer : option KeyId; hd_admitted : Z }.

(** [Held::state]. *)
Definition held_state (h : Held) (now : Z) : PresenceState :=
  match hd_stale_at h with
  | Some at_ => if negb (hd_carrier_lost h) && (now <? at_) then PS_Online else PS_Unreachable
  | None => PS_Unreachable
  end.

Record Own := mkOwn { ow_descriptor : SessionDescriptor; ow_withheld : bool }.

Record PresenceRegistry := mkRegistry {
  rr_own : gmap SessionId Own;
  rr_ended : gset SessionId;
  rr_held : gmap SessionId Held;
  rr_capacity : Z;
  rr_quota : Z;
  rr_forgotten : list SessionId;
  rr_admitted : Z }.

Definition with_limits (capacity per_issuer_quota : Z) : PresenceRegistry :=
  let capacity := Z.max capacity 1 in
  mkRegistry ∅ ∅ ∅ capacity (Z.min (Z.max per_issuer_quota 1) capacity) [] 0.

Definition with_capacity (capacity : Z) : PresenceRegistry :=
  with_limits capacity (capacity / DEFAULT_ISSUER_SHARE_DIVISOR).

Definition PresenceRegistry_new : PresenceRegistry := with_capacity DEFAULT_PRESENCE_CAPACITY.

Definition set_held (h : gmap SessionId Held) (r : PresenceRegistry) : PresenceRegistry :=
  mkRegistry (rr_own r) (rr_ended r) h (rr_capacity r) (rr_quota r) (rr_forgotten r) (rr_admitted r).
Definition set_ended (x : gset SessionId) (r : PresenceRegistry) : PresenceRegistry :=
  mkRegistry (rr_own r) x (rr_held r) (rr_capacity r) (rr_quota r) (rr_forgotten r) (rr_admitted r).
Definition set_own (o : gmap SessionId Own) (r : PresenceRegistry) : PresenceRegistry :=
  mkRegistry o (rr_ended r) (rr_held r) (rr_capacity r) (rr_quota r) (rr_forgotten r) (rr_admitted r).

Definition held_by (r : PresenceRegistry) (issuer : option KeyId) : Z :=
  Z.of_nat (size (filter (λ x, hd_issuer x.2 = issuer) (rr_held r))).

(** [PresenceRegistry::len]. *)
Definition registry_len (r : PresenceRegistry) : Z := Z.of_nat (size (rr_held r)) + Z.of_nat (size (rr_ended r)).

Definition note_forgotten (s : SessionId) (r : PresenceRegistry) : PresenceRegistry :=
  let f := if rr_capacity r <=? Z.of_nat (length (rr_forgotten r)) then drop 1 (rr_forgotten r) else rr_forgotten r in
  mkRegistry (rr_own r) (rr_ended r) (rr_held r) (rr_capacity r) (rr_quota r) (f ++ [s]) (rr_admitted r).

Definition take_forgotten (r : PresenceRegistry) : list SessionId * PresenceRegistry :=
  (rr_forgotten r, mkRegistry (rr_own r) (rr_ended r) (rr_held r) (rr_capacity r) (rr_quota r) [] (rr_admitted r)).

Definition evict (s : SessionId) (r : PresenceRegistry) : PresenceRegistry :=
  if is_some (rr_held r !! s) then note_forgotten s (set_held (delete s (rr_held r)) r) else r.

Section Registry.
Context `{HO : HashOrder}.

Definition registry_sweep (now : Z) (r : PresenceRegistry) : PresenceRegistry :=
  let stale :=
    map fst (List.filter (λ x, negb (is_some (rr_own r !! x.1)) && negb (bool_decide (held_state x.2 now = PS_Online)))
                         (hash_items (rr_held r))) ++ set_items (rr_ended r) in
  foldl (λ r s, note_forgotten s (set_ended (rr_ended r ∖ {[ s ]}) (set_held (delete s (rr_held r)) r))) r stale.

(** The sessions each issuer holds. *)
Definition issuer_counts (r : PresenceRegistry) : gmap (option KeyId) Z :=
  foldl (λ c x, <[ hd_issuer x.2 := default 0 (c !! hd_issuer x.2) + 1 ]> c) ∅ (hash_items (rr_held r)).

(** The session that fair share takes: the newest of the issuers holding [most]. *)
Definition fair_victim (r : PresenceRegistry) (most : Z) : option SessionId :=
  fst <$> max_by_key (λ x, hd_admitted x.2)
            (List.filter (λ x, bool_decide (issuer_counts r !! hd_issuer x.2 = Some most)) (hash_items (rr_held r))).

(** The issuer's own unreachable sessions, when it is at its quota. *)
Definition evict_own_stale (issuer : option KeyId) (now : Z) (r : PresenceRegistry) : PresenceRegistry :=
  let own_stale :=
    map fst (List.filter (λ x, bool_decide (hd_issuer x.2 = issuer) && negb (bool_decide (held_state x.2 now = PS_Online)))
                         (hash_items (rr_held r))) in
  foldl (λ r s, evict s r) r own_stale.

Definition fair_share (issuer : option KeyId) (r : PresenceRegistry) : result PresenceDiscard unit * PresenceRegistry :=
  let mine := held_by r issuer in
  let most := default 0 (list_max (values (issuer_counts r))) in
  if most <? mine + 2 then (Err PD_Full, r)
  else
    match fair_victim r most with
    | Some v => (Ok tt, evict v r)
    | None => (Err PD_Full, r)
    end.

(** [PresenceRegistry::make_room]. *)
Definition registry_make_room (issuer : option KeyId) (now : Z) (r : PresenceRegistry)
    : result PresenceDiscard unit * PresenceRegistry :=
  let r := if rr_quota r <=? held_by r issuer then evict_own_stale issuer now r else r in
  if rr_quota r <=? held_by r issuer then (Err PD_IssuerQuota, r)
  else if registry_len r <? rr_capacity r then (Ok tt, r)
  else
    let r := registry_sweep now r in
    if registry_len r <? rr_capacity r then (Ok tt, r) else fair_share issuer r.

(** ** Own sessions *)

Definition register_own (d : SessionDescriptor) (r : PresenceRegistry) : PresenceRegistry :=
  let id := sd_session_id d in
  let r := set_ended (rr_ended r ∖ {[ id ]}) r in
  let withheld := match rr_own r !! id with Some o => ow_withheld o | None => false end in
  set_own (<[ id := mkOwn d withheld ]> (rr_own r)) r.

Definition set_withheld (s : SessionId) (withheld : bool) (r : PresenceRegistry) : bool * PresenceRegistry :=
  match rr_own r !! s with
  | Some o => (true, set_own (<[ s := mkOwn (ow_descriptor o) withheld ]> (rr_own r)) r)
  | None => (false, r)
  end.

Definition deregister_own (s : SessionId) (r : PresenceRegistry) : bool * PresenceRegistry :=
  match rr_own r !! s with
  | Some _ =>
      let r := set_own (delete s (rr_own r)) r in
      let r :=
        match (if rr_capacity r <=? registry_len r then head (set_items (rr_ended r)) else None) with
        | Some evicted =>
            note_forgotten evicted (set_held (delete evicted (rr_held r)) (set_ended (rr_ended r ∖ {[ evicted ]}) r))
        | None => r
        end in
      (true, set_ended (rr_ended r ∪ {[ s ]}) r)
  | None => (false, r)
  end.

(** ** Records *)

(** How long a record counts from when it is accepted. *)
Definition effective_lifetime (record : PresenceRecord) (origin : RecordOrigin) : option Z :=
  match pn_kind record with
  | Announcement ms _ =>
      Some (match origin with
            | SameImplementation => ms
            | OtherImplementation => Z.min ms CROSS_IMPLEMENTATION_PRESENCE_CAP_MS
            end)
  | Withdrawal => None
  end.

(** [PresenceRegistry::insert]. *)
Definition registry_insert (record : PresenceRecord) (carrier : CarrierHandle) (origin : RecordOrigin)
    (issuer : option KeyId) (now : Z) (r : PresenceRegistry) : PresenceAcceptance * PresenceRegistry :=
  let s := pn_session_id record in
  if match rr_held r !! s with Some h => pn_seq record <=? pn_seq (hd_record h) | None => false end
  then (PDiscarded PD_NotNewer, r)
  else
    match (if is_some (rr_held r !! s) then (Ok tt, r) else registry_make_room issuer now r) with
    | (Err why, r) => (PDiscarded why, r)
    | (Ok _, r) =>
        let effective := effective_lifetime record origin in
        let stale_at := (λ ms, now + ms * 1000000) <$> effective in
        let '(admitted, counter) := match rr_held r !! s with
                                    | Some h => (hd_admitted h, rr_admitted r)
                                    | None => (rr_admitted r + 1, rr_admitted r + 1)
                                    end in
        (PAccepted effective,
         mkRegistry (rr_own r) (rr_ended r) (<[ s := mkHeldRecord record stale_at carrier false issuer admitted ]> (rr_held r))
           (rr_capacity r) (rr_quota r) (rr_forgotten r) counter)
    end.

Definition registry_accept (record : PresenceRecord) (carrier : CarrierHandle) (origin : RecordOrigin) (now : Z)
    (r : PresenceRegistry) : PresenceAcceptance * PresenceRegistry :=
  registry_insert record carrier origin None now r.

Definition accept_json (record : Json) (carrier : CarrierHandle) (origin : RecordOrigin) (now : Z)
    (r : PresenceRegistry) : PresenceAcceptance * PresenceRegistry :=
  match presence_from_json record with
  | Ok x => registry_accept x carrier origin now r
  | Err v => (PDiscarded (PD_Invalid v), r)
  end.

Definition accept_signed (record : PresenceRecord) (carrier : CarrierHandle) (issuer : KeyId) (now : Z)
    (r : PresenceRegistry) : PresenceAcceptance * PresenceRegistry :=
  registry_insert record carrier OtherImplementation (Some issuer) now r.

Definition loses (carrier : CarrierHandle) (h : Held) : bool :=
  beq (hd_carrier h) carrier && pn_present (hd_record h) && negb (hd_carrier_lost h).

Definition carrier_loss (carrier : CarrierHandle) (r : PresenceRegistry) : Z * PresenceRegistry :=
  (Z.of_nat (size (filter (λ x, loses carrier x.2 = true) (rr_held r))),
   set_held ((λ h, if loses carrier h
                   then mkHeldRecord (hd_record h) (hd_stale_at h) (hd_carrier h) true (hd_issuer h) (hd_admitted h)
                   else h) <$> rr_held r) r).

Definition latest_seq (r : PresenceRegistry) (s : SessionId) : option Z := (λ h, pn_seq (hd_record h)) <$> rr_held r !! s.

(** ** States and answers *)

Definition registry_state (r : PresenceRegistry) (s : SessionId) (now : Z) : PresenceState :=
  match rr_own r !! s with
  | Some o => if ow_withheld o then PS_Unreachable else PS_Online
  | None =>
      if bool_decide (s ∈ rr_ended r) then PS_Unreachable
      else match rr_held r !! s with Some h => held_state h now | None => PS_Unknown end
  end.

Definition forget (s : SessionId) (now : Z) (r : PresenceRegistry) : bool * PresenceRegistry :=
  if negb (bool_decide (registry_state r s now = PS_Unreachable)) then (false, r)
  else
    (bool_decide (s ∈ rr_ended r) || is_some (rr_held r !! s),
     set_held (delete s (rr_held r)) (set_ended (rr_ended r ∖ {[ s ]}) r)).

Definition online_descriptor (r : PresenceRegistry) (s : SessionId) (now : Z) : option SessionDescriptor :=
  if negb (bool_decide (registry_state r s now = PS_Online)) then None
  else
    match rr_own r !! s with
    | Some o => Some (ow_descriptor o)
    | None =>
        match (λ h, pn_kind (hd_record h)) <$> rr_held r !! s with
        | Some (Announcement _ d) => Some d
        | _ => None
        end
    end.

(** [PresenceRegistry::sessions]. *)
Definition registry_sessions (r : PresenceRegistry) : list SessionId :=
  keys (rr_own r) ++ set_items (rr_ended r) ++
  List.filter (λ s, negb (is_some (rr_own r !! s)) && negb (bool_decide (s ∈ rr_ended r))) (map fst (hash_items (rr_held r))).

Definition discovery_result (requester : option SessionId)
    (candidates : list (SessionId * PresenceState * option SessionDescriptor)) (may_discover : SessionId → SessionId → bool)
    : result ErrorCode (list SessionDescriptor) :=
  requester ← ok_or requester E_Unauthorized;
  let out := foldl (λ out x, let '(session, state, descriptor) := x in
                             if negb (bool_decide (state = PS_Online)) || negb (may_discover requester session) then out
                             else match descriptor with Some d => <[ session := d ]> out | None => out end)
                   (∅ : gmap SessionId SessionDescriptor) candidates in
  Ok (values out).

(** [PresenceRegistry::discover]. *)
Definition registry_discover (r : PresenceRegistry) (requester : option SessionId) (may_discover : SessionId → SessionId → bool)
    (now : Z) : result ErrorCode (list SessionDescriptor) :=
  discovery_result requester (map (λ s, (s, registry_state r s now, online_descriptor r s now)) (registry_sessions r)) may_discover.

Definition send_presence (r : PresenceRegistry) (requester to : SessionId) (may_discover : SessionId → SessionId → bool) (now : Z)
    : result ErrorCode SessionCapabilities :=
  if negb (may_discover requester to) then Err E_UnknownDestination
  else
    match registry_state r to now with
    | PS_Unknown => Err E_UnknownDestination
    | PS_Unreachable => Err E_DestinationUnavailable
    | PS_Online => ok_or (sd_capabilities <$> online_descriptor r to now) E_InternalError
    end.
End Registry.

(** ** Issuing *)

Record Issued := mkIssued { is_next_seq : Z; is_announced_at : option Z }.

Record PresenceIssuer := mkIssuer { pi_lifetime_ms : Z; pi_sessions : gmap SessionId Issued }.

Definition PresenceIssuer_new (lifetime_ms : Z) : option PresenceIssuer :=
  then_some (in_range LIFETIME_MS_MIN LIFETIME_MS_MAX lifetime_ms) (mkIssuer lifetime_ms ∅).

(** [PresenceIssuer::next]: the entry, made when there is none. *)
Definition issuer_next (s : SessionId) (p : PresenceIssuer) : Issued * PresenceIssuer :=
  let i := default (mkIssued 0 None) (pi_sessions p !! s) in
  (i, mkIssuer (pi_lifetime_ms p) (<[ s := i ]> (pi_sessions p))).

Definition announce (d : SessionDescriptor) (issued_at : Timestamp) (now : Z) (p : PresenceIssuer)
    : option PresenceRecord * PresenceIssuer :=
  let s := sd_session_id d in
  let '(i, p) := issuer_next s p in
  match announcement (is_next_seq i) issued_at (pi_lifetime_ms p) d with
  | Err _ => (None, p)
  | Ok record =>
      (Some record, mkIssuer (pi_lifetime_ms p) (<[ s := mkIssued (is_next_seq i + 1) (Some now) ]> (pi_sessions p)))
  end.

Definition withdraw (s : SessionId) (issued_at : Timestamp) (ended : bool) (p : PresenceIssuer)
    : option PresenceRecord * PresenceIssuer :=
  let '(i, p) := issuer_next s p in
  match withdrawal s (is_next_seq i) issued_at with
  | Err _ => (None, p)
  | Ok record =>
      let sessions := <[ s := mkIssued (is_next_seq i + 1) None ]> (pi_sessions p) in
      (Some record, mkIssuer (pi_lifetime_ms p) (if ended then delete s sessions else sessions))
  end.

(** The loop of [withdraw_all] over the announced sessions. *)
Fixpoint withdraw_each (sessions : list SessionId) (issued_at : Timestamp) (p : PresenceIssuer)
    : list PresenceRecord * PresenceIssuer :=
  match sessions with
  | [] => ([], p)
  | s :: sessions =>
      let '(r, p) := withdraw s issued_at true p in
      let '(rs, p) := withdraw_each sessions issued_at p in
      (match r with Some r => r :: rs | None => rs end, p)
  end.

Definition withdraw_all (issued_at : Timestamp) (p : PresenceIssuer) : list PresenceRecord * PresenceIssuer :=
  withdraw_each (map fst (List.filter (λ x, is_some (is_announced_at x.2)) (items (pi_sessions p)))) issued_at p.

Definition refresh_at (p : PresenceIssuer) (at_ : Z) : Z := at_ + pi_lifetime_ms p * 2 / 5 * 1000000.

Definition next_refresh_at (p : PresenceIssuer) : option Z :=
  list_min (omap (λ i, refresh_at p <$> is_announced_at i) (values (pi_sessions p))).

Definition refresh_due (p : PresenceIssuer) (now : Z) : list SessionId :=
  map fst (List.filter (λ x, match is_announced_at x.2 with Some a => refresh_at p a <=? now | None => false end)
                       (items (pi_sessions p))).

(** ** The presence registry: bounds, shares and answers

    What the registry holds after any sequence of its operations, whom a full registry takes
    a place from, how long a record counts, and what discovery lists. *)

(** ** Counting the entries of a map *)

Section Counts.
Context {V : Type}.
Implicit Types (m : gmap SessionId V) (P : SessionId * V → Prop).

Definition count P `{∀ x, Decision (P x)} m : Z := Z.of_nat (size (filter P m)).

Lemma count_nonneg P `{∀ x, Decision (P x)} m : 0 ≤ count P m.
Proof. unfold count. lia. Qed.

Lemma count_insert P `{∀ x, Decision (P x)} m s v :
  m !! s = None → count P (<[ s := v ]> m) = count P m + (if decide (P (s, v)) then 1 else 0).
Proof.
  intros Hs. unfold count. case_decide.
  - rewrite map_filter_insert_True by done. rewrite map_size_insert_None; [lia|]. apply map_lookup_filter_None. by left.
  - rewrite map_filter_insert_not' by (done || (intros y Hy; congruence)). lia.
Qed.

Lemma count_delete P `{∀ x, Decision (P x)} m s v :
  m !! s = Some v → count P (delete s m) = count P m - (if decide (P (s, v)) then 1 else 0).
Proof.
  intros Hs. rewrite <- (insert_delete_id m s v Hs) at 2. rewrite count_insert by apply lookup_delete_eq. lia.
Qed.

Lemma count_le P `{∀ x, Decision (P x)} m m' : m' ⊆ m → count P m' ≤ count P m.
Proof. intros Hm. unfold count. apply inj_le, map_subseteq_size, map_filter_strong_subseteq_ext. intros i x [Hp Hi]. split; [done|]. by eapply lookup_weaken. Qed.

Lemma count_pos P `{∀ x, Decision (P x)} m s v : m !! s = Some v → P (s, v) → 0 < count P m.
Proof. intros Hs Hp. pose proof (count_delete P m s v Hs). pose proof (count_nonneg P (delete s m)). rewrite decide_True in H0 by done. lia. Qed.

Lemma count_witness P `{∀ x, Decision (P x)} m : 0 < count P m → ∃ s v, m !! s = Some v ∧ P (s, v).
Proof.
  unfold count. intros Hc. destruct (map_choose (filter P m)) as (s & v & Hs).
  - intros E. rewrite E, map_size_empty in Hc. lia.
  - apply map_lookup_filter_Some in Hs as [H1 H2]. eauto.
Qed.

(** Counting over the entries in any order. *)
Lemma count_list P `{∀ x, Decision (P x)} m (l : list (SessionId * V)) :
  l ≡ₚ map_to_list m → count P m = Z.of_nat (length (filter P l)).
Proof.
  intros ->. unfold count. f_equal. induction m as [|s v m Hs IH] using map_ind; [done|].
  rewrite map_to_list_insert, filter_cons by done. destruct (decide (P (s, v))).
  - rewrite map_filter_insert_True by done. rewrite map_size_insert_None by (apply map_lookup_filter_None; by left). cbn. by rewrite IH.
  - rewrite map_filter_insert_not' by (done || (intros y Hy; congruence)). done.
Qed.
End Counts.

Definition of_issuer (i : option KeyId) (x : SessionId * Held) : Prop := hd_issuer x.2 = i.
#[export] Instance of_issuer_dec i x : Decision (of_issuer i x) := decide_rel (=) _ _.

Lemma held_by_count r i : held_by r i = count (of_issuer i) (rr_held r).
Proof. done. Qed.

(** ** The counts per issuer, and the victim *)

Section Shares.
Context `{HO : HashOrder}.

Lemma hash_elem {V} (m : gmap SessionId V) s v : (s, v) ∈ hash_items m ↔ m !! s = Some v.
Proof. by rewrite hash_items_perm, elem_of_map_to_list. Qed.

Lemma counts_fold (l : list (SessionId * Held)) (c : gmap (option KeyId) Z) i :
  foldl (λ c x, <[ hd_issuer x.2 := default 0 (c !! hd_issuer x.2) + 1 ]> c) c l !! i =
  if decide (filter (of_issuer i) l = []) then c !! i else Some (default 0 (c !! i) + Z.of_nat (length (filter (of_issuer i) l))).
Proof.
  revert c. induction l as [|x l IH]; intros c; cbn [foldl]; [by rewrite decide_True|]. rewrite IH, filter_cons.
  destruct (decide (of_issuer i x)) as [Hx|Hx]; unfold of_issuer in Hx.
  - rewrite (decide_False (P := x :: _ = [])) by done. subst i. rewrite lookup_insert_eq. cbn [default length].
    case_decide as E; [by rewrite E|]. f_equal. cbn. lia.
  - rewrite lookup_insert_ne by done. done.
Qed.

Lemma issuer_counts_spec r i : issuer_counts r !! i = if decide (held_by r i = 0) then None else Some (held_by r i).
Proof.
  unfold issuer_counts. rewrite counts_fold, lookup_empty, held_by_count, (count_list _ _ _ (hash_items_perm (rr_held r))). cbn [default].
  destruct (filter (of_issuer i) (hash_items (rr_held r))) as [|x l]; [by rewrite !decide_True|].
  rewrite !decide_False by (cbn; lia || done). done.
Qed.

(** The most any issuer holds. *)
Lemma most_spec r : let most := default 0 (list_max (values (issuer_counts r))) in
  (∀ i, held_by r i ≤ most) ∧ (0 < most → ∃ i, held_by r i = most).
Proof.
  intros most. subst most. destruct (list_max (values (issuer_counts r))) as [m|] eqn:E; cbn [default from_option]; unfold id.
  - apply list_max_Some in E as [Hin Hmax]. split.
    + intros i. destruct (decide (held_by r i = 0)) as [->|Hne].
      * apply elem_of_values in Hin as [j Hj]. rewrite issuer_counts_spec in Hj. case_decide; [done|]. injection Hj as <-.
        rewrite held_by_count. apply count_nonneg.
      * assert (held_by r i ∈ values (issuer_counts r)) as Hi.
        { apply elem_of_values. exists i. by rewrite issuer_counts_spec, decide_False. }
        apply Hmax in Hi. unfold leb, Z_order in Hi. lia.
    + intros _. apply elem_of_values in Hin as [j Hj]. rewrite issuer_counts_spec in Hj. case_decide; [done|]. injection Hj as <-. eauto.
  - apply list_max_None in E. split; [|lia]. intros i. destruct (decide (held_by r i = 0)) as [->|Hne]; [done|].
    assert (held_by r i ∈ values (issuer_counts r)) as Hi by (apply elem_of_values; exists i; by rewrite issuer_counts_spec, decide_False).
    rewrite E in Hi. by apply elem_of_nil in Hi.
Qed.

Lemma fair_victim_spec r most :
  0 < most →
  match fair_victim r most with
  | Some v => ∃ h, rr_held r !! v = Some h ∧ held_by r (hd_issuer h) = most ∧
      ∀ s' h', rr_held r !! s' = Some h' → held_by r (hd_issuer h') = most → hd_admitted h' ≤ hd_admitted h
  | None => ∀ i, held_by r i ≠ most
  end.
Proof.
  intros Hm. unfold fair_victim. set (l := List.filter _ _).
  assert (∀ s h, (s, h) ∈ l ↔ rr_held r !! s = Some h ∧ held_by r (hd_issuer h) = most) as Hl.
  { intros s h. unfold l. rewrite list_elem_of_In, filter_In, <- list_elem_of_In, hash_elem, bool_decide_eq_true. cbn [snd].
    rewrite issuer_counts_spec. split; intros [H1 H2]; (split; [done|]).
    - case_decide; [done|]. by injection H2.
    - rewrite decide_False by lia. by rewrite H2. }
  destruct (max_by_key _ l) as [[v h]|] eqn:E; cbn [fmap option_fmap option_map fst].
  - exists h. pose proof (max_by_key_elem _ _ _ E) as Hv. apply Hl in Hv as [H1 H2]. split_and!; [done|done|].
    intros s' h' H3 H4. assert ((s', h') ∈ l) as Hin by (by apply Hl). pose proof (max_by_key_max _ _ _ E _ Hin) as Hle.
    unfold leb, Z_order in Hle. cbn [snd] in Hle. lia.
  - intros i Hi. destruct (count_witness (of_issuer i) (rr_held r)) as (s & h & Hs & Ho); [rewrite <- held_by_count; lia|].
    unfold of_issuer in Ho. cbn in Ho. assert ((s, h) ∈ l) as Hin by (apply Hl; subst i; done).
    destruct l as [|x l']; [by apply elem_of_nil in Hin|]. revert E. unfold max_by_key. cbn [foldl].
    clear. generalize x. induction l' as [|y l' IH]; intros z; cbn; [done|]. destruct (leb _ _); apply IH.
Qed.
End Shares.

(** ** The invariant *)

Record reg_inv (r : PresenceRegistry) : Prop := {
  ri_admitted s h : rr_held r !! s = Some h → hd_admitted h ≤ rr_admitted r;
  ri_inj s s' h h' : rr_held r !! s = Some h → rr_held r !! s' = Some h' → hd_admitted h = hd_admitted h' → s = s';
  ri_filed s h : rr_held r !! s = Some h → pn_session_id (hd_record h) = s;
  ri_stale s h : rr_held r !! s = Some h → is_some (hd_stale_at h) = pn_present (hd_record h);
  ri_limits : 1 ≤ rr_quota r ≤ rr_capacity r;
  ri_held : Z.of_nat (size (rr_held r)) ≤ rr_capacity r;
  ri_len : registry_len r ≤ rr_capacity r + 1;
  ri_own s : s ∈ rr_ended r → rr_own r !! s = None;
  ri_forgotten : Z.of_nat (length (rr_forgotten r)) ≤ rr_capacity r }.

(** A registry that lost entries and nothing else. *)
Record smaller (r r' : PresenceRegistry) : Prop := {
  sm_held : rr_held r' ⊆ rr_held r;
  sm_ended : rr_ended r' ⊆ rr_ended r;
  sm_own : rr_own r' = rr_own r;
  sm_capacity : rr_capacity r' = rr_capacity r;
  sm_quota : rr_quota r' = rr_quota r;
  sm_admitted : rr_admitted r' = rr_admitted r;
  sm_forgotten : 1 ≤ rr_capacity r → Z.of_nat (length (rr_forgotten r)) ≤ rr_capacity r → Z.of_nat (length (rr_forgotten r')) ≤ rr_capacity r }.

#[export] Instance smaller_preorder : PreOrder smaller.
Proof.
  split.
  - intros r. by split.
  - intros r1 r2 r3 [] []. split; try congruence; try (by etrans). intros H1 H2. rewrite <- sm_capacity0. apply sm_forgotten1; rewrite sm_capacity0; auto.
Qed.

Lemma smaller_len r r' : smaller r r' → registry_len r' ≤ registry_len r ∧ Z.of_nat (size (rr_held r')) ≤ Z.of_nat (size (rr_held r)).
Proof.
  intros [Hh He _ _ _ _ _]. pose proof (map_subseteq_size _ _ Hh). pose proof (subseteq_size _ _ He). unfold registry_len. lia.
Qed.

Lemma smaller_inv r r' : smaller r r' → reg_inv r → reg_inv r'.
Proof.
  intros Hs Hi. pose proof (smaller_len r r' Hs) as [Hl Hz]. destruct Hs as [Hh He Ho Hc Hq Ha Hf], Hi as [A B D E F G H I J].
  assert (∀ s h, rr_held r' !! s = Some h → rr_held r !! s = Some h) as Hw by (intros s h Hx; by eapply lookup_weaken).
  split; rewrite ?Hc, ?Hq, ?Ha, ?Ho; eauto; try lia.
Qed.

Lemma noted_smaller s r held' ended' :
  held' ⊆ rr_held r → ended' ⊆ rr_ended r → smaller r (note_forgotten s (set_ended ended' (set_held held' r))).
Proof.
  intros Hh He. split; cbn; try done. intros Hc Hl. rewrite length_app. cbn. case_match; bool_hyps; [rewrite length_drop|]; lia.
Qed.

Lemma evict_smaller s r : smaller r (evict s r).
Proof.
  unfold evict. destruct (is_some _); [|done].
  apply (noted_smaller s r (delete s (rr_held r)) (rr_ended r)); [apply delete_subseteq|reflexivity].
Qed.

Lemma evict_held s r : rr_held (evict s r) = delete s (rr_held r).
Proof. unfold evict. destruct (rr_held r !! s) eqn:E; [done|]. by rewrite delete_id. Qed.

Lemma fold_smaller {A} (f : PresenceRegistry → A → PresenceRegistry) l r :
  (∀ r a, smaller r (f r a)) → smaller r (foldl f r l).
Proof. intros Hf. revert r. induction l as [|a l IH]; intros r; cbn; [done|]. etrans; [apply Hf|apply IH]. Qed.

(** A held session that reads online, and a step that loses no such session. *)
Definition online_held (r : PresenceRegistry) (s : SessionId) (h : Held) (now : Z) : Prop :=
  rr_held r !! s = Some h ∧ held_state h now = PS_Online ∧ s ∉ rr_ended r.

Definition spares (now : Z) (r r' : PresenceRegistry) : Prop := ∀ s h, online_held r s h now → rr_held r' !! s = Some h.

Section Steps.
Context `{HO : HashOrder}.

Lemma evict_own_stale_spec issuer now r :
  smaller r (evict_own_stale issuer now r) ∧ spares now r (evict_own_stale issuer now r).
Proof.
  unfold evict_own_stale. set (gone := map fst _). split; [apply fold_smaller; intros; apply evict_smaller|].
  intros s h (Hs & Ho & _). assert (s ∉ gone) as Hn.
  { unfold gone. rewrite list_elem_of_In, in_map_iff. intros ([s' h'] & <- & [Hin Hc]%filter_In). apply list_elem_of_In, hash_elem in Hin.
    cbn in *. rewrite Hs in Hin. injection Hin as <-. apply andb_true_iff in Hc as [_ Hc]. by rewrite Ho in Hc. }
  clearbody gone. revert r Hs. induction gone as [|x gone IH]; intros r Hs; cbn; [done|]. apply not_elem_of_cons in Hn as [Hx Hn].
  apply IH; [done|]. rewrite evict_held. by rewrite lookup_delete_ne.
Qed.

Lemma registry_sweep_spec now r :
  let r' := registry_sweep now r in
  smaller r r' ∧ rr_ended r' = ∅ ∧ spares now r r'.
Proof.
  unfold registry_sweep. set (gone := _ ++ _). cbv zeta.
  set (f := λ r s, note_forgotten s (set_ended (rr_ended r ∖ {[s]}) (set_held (delete s (rr_held r)) r))).
  assert (∀ l r, smaller r (foldl f r l)) as Hsm.
  { intros l r0. apply fold_smaller. intros r1 s. apply (noted_smaller s r1 (delete s (rr_held r1)) (rr_ended r1 ∖ {[s]})); [apply delete_subseteq|set_solver]. }
  assert (∀ l r s, s ∈ rr_ended (foldl f r l) ↔ s ∈ rr_ended r ∧ s ∉ l) as Hend.
  { induction l as [|x l IH]; intros r0 s; cbn [foldl]; [set_solver|]. rewrite IH. cbn. set_solver. }
  assert (∀ l r s, s ∉ l → rr_held (foldl f r l) !! s = rr_held r !! s) as Hheld.
  { induction l as [|x l IH]; intros r0 s Hs; cbn [foldl]; [done|]. apply not_elem_of_cons in Hs as [Hx Hs]. rewrite IH by done. cbn.
    by rewrite lookup_delete_ne. }
  split_and!; [apply Hsm| |].
  - apply set_eq. intros s. rewrite Hend. unfold gone. rewrite elem_of_app, elem_of_set_items. set_solver.
  - intros s h (Hs & Ho & Hn). rewrite Hheld; [done|]. unfold gone. rewrite elem_of_app, elem_of_set_items. intros [Hin|]; [|done].
    rewrite list_elem_of_In, in_map_iff in Hin. destruct Hin as ([s' h'] & <- & [Hin Hc]%filter_In). apply list_elem_of_In, hash_elem in Hin.
    cbn in *. rewrite Hs in Hin. injection Hin as <-. apply andb_true_iff in Hc as [_ Hc]. by rewrite Ho in Hc.
Qed.

Lemma smaller_held_by r r' i : smaller r r' → held_by r' i ≤ held_by r i.
Proof. intros Hs. rewrite !held_by_count. apply count_le, Hs. Qed.

Lemma spares_trans now r1 r2 r3 : smaller r1 r2 → spares now r1 r2 → spares now r2 r3 → spares now r1 r3.
Proof.
  intros Hs H12 H23 s h Ho. apply H23. pose proof (H12 s h Ho) as Hh. destruct Ho as (_ & Ho & Hn). split_and!; [done|done|].
  intros Hin. apply Hn. by apply Hs.
Qed.

(** The place taken under fair share: from [r1], which lost nothing online, the session [v]. *)
Record fair_taken (issuer : option KeyId) (now : Z) (r r1 r' : PresenceRegistry) (v : SessionId) (h : Held) : Prop := {
  ft_smaller : smaller r r1;
  ft_spares : spares now r r1;
  ft_victim : rr_held r1 !! v = Some h;
  ft_held : rr_held r' = delete v (rr_held r1);
  ft_fair : held_by r1 issuer + 2 ≤ held_by r1 (hd_issuer h);
  ft_most i : held_by r1 i ≤ held_by r1 (hd_issuer h);
  ft_newest s' h' : rr_held r1 !! s' = Some h' → held_by r1 (hd_issuer h') = held_by r1 (hd_issuer h) → hd_admitted h' ≤ hd_admitted h }.

Lemma fair_share_spec issuer now r r1 :
  smaller r r1 → spares now r r1 →
  match fair_share issuer r1 with
  | (Ok _, r') => smaller r1 r' ∧ rr_ended r' = rr_ended r1 ∧ ∃ v h, fair_taken issuer now r r1 r' v h
  | (Err why, r') => r' = r1 ∧ why = PD_Full
  end.
Proof.
  intros Hs Hsp. unfold fair_share. destruct (most_spec r1) as [Hmax Hatt]. set (most := default 0 _) in *.
  destruct (most <? held_by r1 issuer + 2) eqn:E; [done|]. bool_hyps.
  assert (0 < most) as Hpos by (pose proof (count_nonneg (of_issuer issuer) (rr_held r1)); rewrite <- held_by_count in *; lia).
  pose proof (fair_victim_spec r1 most Hpos) as Hv. destruct (fair_victim r1 most) as [v|]; [|done].
  destruct Hv as (h & Hh & Hm & Hnew). split_and!; [apply evict_smaller| |].
  - unfold evict. by destruct (is_some _).
  - exists v, h. split; [done|done|done|apply evict_held|lia|intros i; rewrite Hm; apply Hmax|].
    intros s' h' H1 H2. apply (Hnew s'); [done|lia].
Qed.

Lemma make_room_spec issuer now r :
  reg_inv r →
  match registry_make_room issuer now r with
  | (Err why, r') => smaller r r' ∧ spares now r r' ∧ why ≠ PD_NotNewer
  | (Ok _, r') => smaller r r' ∧ held_by r' issuer < rr_quota r ∧ registry_len r' < rr_capacity r ∧
      (spares now r r' ∨ ∃ r1 v h, fair_taken issuer now r r1 r' v h)
  end.
Proof.
  intros Hi. unfold registry_make_room.
  set (r0 := if rr_quota r <=? held_by r issuer then evict_own_stale issuer now r else r).
  assert (smaller r r0 ∧ spares now r r0) as [Hs0 Hp0].
  { subst r0. destruct (_ <=? _); [apply evict_own_stale_spec|]. split; [done|]. intros s h Ho. apply Ho. }
  clearbody r0. cbv zeta. rewrite (sm_quota _ _ Hs0), (sm_capacity _ _ Hs0).
  destruct (rr_quota r <=? held_by r0 issuer) eqn:Eq; [done|]. bool_hyps.
  destruct (registry_len r0 <? rr_capacity r) eqn:El; [bool_hyps; split_and!; try done; by left|].
  destruct (registry_sweep_spec now r0) as (Hs1 & He1 & Hp1). set (r1 := registry_sweep now r0) in *. clearbody r1.
  assert (smaller r r1) as Hs by (by etrans). assert (spares now r r1) as Hp by (by apply (spares_trans now r r0)).
  pose proof (smaller_held_by r0 r1 issuer Hs1) as Hb1. rewrite (sm_capacity _ _ Hs1), (sm_capacity _ _ Hs0).
  destruct (registry_len r1 <? rr_capacity r) eqn:El1; [bool_hyps; split_and!; try done; [lia|by left]|].
  pose proof (fair_share_spec issuer now r r1 Hs Hp) as Hf. destruct (fair_share issuer r1) as [[[]|why] r2]; [|by destruct Hf as [-> ->]].
  destruct Hf as (Hs2 & He2 & v & h & Hft). split_and!; [by etrans| | |right; eauto].
  - pose proof (smaller_held_by r1 r2 issuer Hs2). lia.
  - pose proof (smaller_inv r r1 Hs Hi) as Hi1. pose proof (ri_held _ Hi1) as Hh. rewrite (sm_capacity _ _ Hs) in Hh.
    unfold registry_len. rewrite He2, He1, size_empty, (ft_held _ _ _ _ _ _ _ Hft).
    rewrite map_size_delete_Some by (exists h; apply (ft_victim _ _ _ _ _ _ _ Hft)).
    assert (size (rr_held r1) ≠ 0)%nat by (apply map_size_non_empty_iff; intros E; pose proof (ft_victim _ _ _ _ _ _ _ Hft) as X; by rewrite E in X). lia.
Qed.
End Steps.

(** ** Accepting a record *)

(** The entry an accepted record becomes. *)
Definition held_entry (record : PresenceRecord) (carrier : CarrierHandle) (origin : RecordOrigin) (issuer : option KeyId)
    (now admitted : Z) : Held :=
  mkHeldRecord record ((λ ms, now + ms * 1000000) <$> effective_lifetime record origin) carrier false issuer admitted.

Lemma held_entry_stale record carrier origin issuer now n :
  is_some (hd_stale_at (held_entry record carrier origin issuer now n)) = pn_present record.
Proof. unfold held_entry, effective_lifetime, pn_present. cbn. by destruct (pn_kind record). Qed.

Section Insert.
Context `{HO : HashOrder}.

(** An insertion that is not refused: the registry room was made in, and the entry. *)
Lemma insert_cases record carrier origin issuer now r :
  reg_inv r →
  match registry_insert record carrier origin issuer now r with
  | (PDiscarded why, r') =>
      (why = PD_NotNewer ∧ r' = r ∧ ∃ q, latest_seq r (pn_session_id record) = Some q ∧ pn_seq record ≤ q) ∨
      (rr_held r !! pn_session_id record = None ∧ smaller r r' ∧ spares now r r' ∧ why ≠ PD_NotNewer)
  | (PAccepted eff, r') =>
      eff = effective_lifetime record origin ∧ (∀ q, latest_seq r (pn_session_id record) = Some q → q < pn_seq record) ∧
      ∃ r0 n, smaller r r0 ∧ rr_own r' = rr_own r ∧ rr_ended r' = rr_ended r0 ∧ rr_capacity r' = rr_capacity r ∧ rr_quota r' = rr_quota r ∧
        rr_forgotten r' = rr_forgotten r0 ∧
        rr_held r' = <[ pn_session_id record := held_entry record carrier origin issuer now n ]> (rr_held r0) ∧
        match rr_held r !! pn_session_id record with
        | Some h => r0 = r ∧ n = hd_admitted h ∧ rr_admitted r' = rr_admitted r
        | None => n = rr_admitted r + 1 ∧ rr_admitted r' = n ∧ held_by r0 issuer < rr_quota r ∧ registry_len r0 < rr_capacity r ∧
            (spares now r r0 ∨ ∃ r1 v h, fair_taken issuer now r r1 r0 v h)
        end
  end.
Proof.
  intros Hi. unfold registry_insert, latest_seq. set (s := pn_session_id record).
  destruct (rr_held r !! s) as [h|] eqn:Es; cbn [is_some].
  - destruct (pn_seq record <=? pn_seq (hd_record h)) eqn:Eq; bool_hyps; [left; eauto 10|]. rewrite Es. split_and!; [done| |].
    + intros q [= <-]. done.
    + exists r, (hd_admitted h). split_and!; done.
  - pose proof (make_room_spec issuer now r Hi) as Hm. destruct (registry_make_room issuer now r) as [[[]|why] r0]; [|by right].
    destruct Hm as (Hs & Hq & Hl & Hcase).
    assert (rr_held r0 !! s = None) as Hn.
    { destruct (rr_held r0 !! s) eqn:E; [|done]. apply (lookup_weaken _ (rr_held r)) in E; [congruence|apply Hs]. }
    rewrite Hn. split_and!; [done|by intros q|]. exists r0, (rr_admitted r0 + 1). destruct Hs as [H1 H2 H3 H4 H5 H6 H7].
    split_and!; try done; by rewrite ?H6.
Qed.

Lemma insert_inv record carrier origin issuer now r :
  reg_inv r → reg_inv (registry_insert record carrier origin issuer now r).2.
Proof.
  intros Hi. pose proof (insert_cases record carrier origin issuer now r Hi) as H.
  destruct (registry_insert record carrier origin issuer now r) as [[eff|why] r']; cbn [snd].
  2: { destruct H as [(_ & -> & _)|(_ & Hs & _)]; [done|by eapply smaller_inv]. }
  destruct H as (_ & _ & r0 & n & Hs & Ho & He & Hc & Hq & Hf & Hh & Hcase). set (s := pn_session_id record) in *.
  pose proof (smaller_inv _ _ Hs Hi) as Hi0. set (x := held_entry record carrier origin issuer now n) in *.
  assert (hd_admitted x = n) as Hn by done.
  assert (n ≤ rr_admitted r' ∧ rr_admitted r0 ≤ rr_admitted r' ∧ (∀ s' h', rr_held r0 !! s' = Some h' → s' ≠ s → hd_admitted h' ≠ n)) as (Ha1 & Ha2 & Ha3).
  { rewrite (sm_admitted _ _ Hs). destruct (rr_held r !! s) as [h|] eqn:Es.
    - destruct Hcase as (-> & -> & ->). pose proof (ri_admitted r Hi s h Es). split_and!; [done|done|].
      intros s' h' H1 H2 H3. apply H2. by apply (ri_inj r Hi s' s h' h).
    - destruct Hcase as (-> & -> & _). split_and!; [done|lia|]. intros s' h' H1 H2. pose proof (ri_admitted r0 Hi0 s' h' H1) as H3.
      rewrite (sm_admitted _ _ Hs) in H3. lia. }
  assert (Z.of_nat (size (rr_held r')) ≤ rr_capacity r ∧ registry_len r' ≤ rr_capacity r + 1) as [Hz Hl].
  { unfold registry_len. rewrite Hh, He. destruct (rr_held r !! s) as [h|] eqn:Es.
    - destruct Hcase as (-> & _). rewrite map_size_insert_Some by eauto. pose proof (ri_held r Hi). pose proof (ri_len r Hi). unfold registry_len in *. lia.
    - destruct Hcase as (_ & _ & _ & Hlen & _). unfold registry_len in Hlen. rewrite map_size_insert_None; [lia|].
      destruct (rr_held r0 !! s) eqn:E; [|done]. apply (lookup_weaken _ (rr_held r)) in E; [congruence|apply Hs]. }
  destruct Hi0 as [A B D E F G H I J]. rewrite (sm_capacity _ _ Hs), (sm_quota _ _ Hs) in *.
  split.
  - intros s' h'. rewrite Hh. intros [[<- <-]|[_ Hx]]%lookup_insert_Some; [lia|]. pose proof (A _ _ Hx). lia.
  - intros s1 s2 h1 h2. rewrite Hh.
    intros [[<- <-]|[N1 X1]]%lookup_insert_Some [[<- <-]|[N2 X2]]%lookup_insert_Some Heq; [done| | |by eapply B].
    + exfalso. eapply Ha3; [exact X2|congruence|]. by rewrite <- Heq.
    + exfalso. eapply Ha3; [exact X1|congruence|]. by rewrite Heq.
  - intros s' h'. rewrite Hh. intros [[<- <-]|[_ Hx]]%lookup_insert_Some; [done|by apply D].
  - intros s' h'. rewrite Hh. intros [[<- <-]|[_ Hx]]%lookup_insert_Some; [apply held_entry_stale|by eapply E].
  - by rewrite Hc, Hq.
  - by rewrite Hc.
  - by rewrite Hc.
  - intros s'. rewrite He, Ho, <- (sm_own _ _ Hs). apply I.
  - by rewrite Hf, Hc.
Qed.
End Insert.

(** ** Registries the operations reach *)

Inductive registry_op : Type :=
| ROwn (d : SessionDescriptor)
| RWithhold (s : SessionId) (withheld : bool)
| REnd (s : SessionId)
| RAccept (record : PresenceRecord) (carrier : CarrierHandle) (origin : RecordOrigin) (now : Z)
| RSigned (record : PresenceRecord) (carrier : CarrierHandle) (issuer : KeyId) (now : Z)
| RJson (v : Json) (carrier : CarrierHandle) (origin : RecordOrigin) (now : Z)
| RLoss (carrier : CarrierHandle)
| RForget (s : SessionId) (now : Z)
| RTake.

(** Who offered a record, and when. *)
Inductive offers (record : PresenceRecord) : RecordOrigin → option KeyId → Z → registry_op → Prop :=
| Of_accept carrier origin now : offers record origin None now (RAccept record carrier origin now)
| Of_signed carrier issuer now : offers record OtherImplementation (Some issuer) now (RSigned record carrier issuer now)
| Of_json v carrier origin now : presence_from_json v = Ok record → offers record origin None now (RJson v carrier origin now).

(** Where an entry comes from: a record some operation offered, counted from then. *)
Definition traced (ops : list registry_op) (s : SessionId) (h : Held) : Prop :=
  ∃ origin now o, o ∈ ops ∧ offers (hd_record h) origin (hd_issuer h) now o ∧ pn_session_id (hd_record h) = s ∧
    hd_stale_at h = (λ ms, now + ms * 1000000) <$> effective_lifetime (hd_record h) origin.

Section Ops.
Context `{HO : HashOrder}.

Definition run_registry (r : PresenceRegistry) (o : registry_op) : PresenceRegistry :=
  match o with
  | ROwn d => register_own d r
  | RWithhold s b => (set_withheld s b r).2
  | REnd s => (deregister_own s r).2
  | RAccept record carrier origin now => (registry_accept record carrier origin now r).2
  | RSigned record carrier issuer now => (accept_signed record carrier issuer now r).2
  | RJson v carrier origin now => (accept_json v carrier origin now r).2
  | RLoss carrier => (carrier_loss carrier r).2
  | RForget s now => (forget s now r).2
  | RTake => (take_forgotten r).2
  end.

Lemma own_op_inv r o e :
  reg_inv r → (∀ s, s ∈ e → o !! s = None) → e ⊆ rr_ended r → reg_inv (set_own o (set_ended e r)).
Proof.
  intros [A B D E F G H I J] Ho He. split; cbn; try done. unfold registry_len in *. cbn. pose proof (subseteq_size _ _ He). lia.
Qed.

Lemma deregister_inv s r : reg_inv r → reg_inv (deregister_own s r).2.
Proof.
  intros Hi. unfold deregister_own. destruct (rr_own r !! s) as [o|] eqn:Eo; [|done]. cbn [snd].
  set (r1 := set_own (delete s (rr_own r)) r). assert (reg_inv r1) as Hi1.
  { change r1 with (set_own (delete s (rr_own r)) (set_ended (rr_ended r) r)). apply own_op_inv; [done| |done].
    intros x Hx. rewrite lookup_delete_None. right. by apply Hi. }
  assert (rr_own r1 !! s = None) as Hs1 by apply lookup_delete_eq. clearbody r1.
  set (r2 := match _ with Some e => _ | None => r1 end).
  assert (reg_inv r2 ∧ rr_own r2 = rr_own r1 ∧ rr_capacity r2 = rr_capacity r1 ∧ registry_len r2 < rr_capacity r1 + 1) as (Hi2 & Ho2 & Hc2 & Hl2).
  { subst r2. destruct (rr_capacity r1 <=? registry_len r1) eqn:Ec; bool_hyps; [|split_and!; try done; lia].
    destruct (head (set_items (rr_ended r1))) as [x|] eqn:Ex.
    - assert (x ∈ rr_ended r1) as Hx.
      { apply elem_of_set_items. destruct (set_items (rr_ended r1)); [done|]. injection Ex as ->. left. }
      assert (smaller r1 (note_forgotten x (set_held (delete x (rr_held r1)) (set_ended (rr_ended r1 ∖ {[x]}) r1)))) as Hs.
      { apply (noted_smaller x r1 (delete x (rr_held r1)) (rr_ended r1 ∖ {[x]})); [apply delete_subseteq|set_solver]. }
      split_and!; [by eapply smaller_inv|done|done|]. pose proof (ri_len r1 Hi1). unfold registry_len in *. cbn.
      assert (size (delete x (rr_held r1)) ≤ size (rr_held r1))%nat by (apply map_subseteq_size, delete_subseteq).
      assert (size (rr_ended r1 ∖ {[x]}) < size (rr_ended r1))%nat by (apply subset_size; set_solver). lia.
    - split_and!; try done. assert (rr_ended r1 = ∅) as He.
      { apply set_eq. intros x. rewrite <- elem_of_set_items. destruct (set_items (rr_ended r1)); [set_solver|done]. }
      pose proof (ri_held r1 Hi1). unfold registry_len. rewrite He, size_empty. lia. }
  clearbody r2. destruct Hi2 as [A B D E F G H I J]. split; cbn; try done.
  - unfold registry_len in *. cbn. assert (size (rr_ended r2 ∪ {[s]}) ≤ size (rr_ended r2) + 1)%nat.
    { rewrite size_union_alt. etrans; [apply Nat.add_le_mono_l, (subseteq_size _ {[s]}); set_solver|]. rewrite size_singleton. done. }
    rewrite Hc2. lia.
  - intros x [Hx| ->%elem_of_singleton]%elem_of_union; [by apply I|]. by rewrite Ho2.
Qed.

Lemma loss_inv c r : reg_inv r → reg_inv (carrier_loss c r).2.
Proof.
  intros [A B D E F G H I J]. cbn [carrier_loss snd].
  set (f := λ h, if loses c h then mkHeldRecord (hd_record h) (hd_stale_at h) (hd_carrier h) true (hd_issuer h) (hd_admitted h) else h).
  assert (∀ s h, (f <$> rr_held r) !! s = Some h → ∃ h0, rr_held r !! s = Some h0 ∧ hd_admitted h = hd_admitted h0 ∧
    hd_record h = hd_record h0 ∧ hd_stale_at h = hd_stale_at h0) as Hf.
  { intros s h. rewrite lookup_fmap. intros (h0 & Hh & ->)%fmap_Some. exists h0. split; [done|]. subst f. cbn. by destruct (loses c h0). }
  split; cbn [set_held rr_held rr_admitted rr_quota rr_capacity rr_ended rr_own rr_forgotten]; try done.
  - intros s h (h0 & Hh & -> & _)%Hf. by eapply A.
  - intros s s' h h' (h0 & Hh & -> & _)%Hf (h1 & Hh' & -> & _)%Hf. by apply B.
  - intros s h (h0 & Hh & _ & -> & _)%Hf. by apply D.
  - intros s h (h0 & Hh & _ & -> & ->)%Hf. by eapply E.
  - by rewrite map_size_fmap.
  - unfold registry_len in *. cbn. by rewrite map_size_fmap.
Qed.

Lemma run_registry_inv r o : reg_inv r → reg_inv (run_registry r o).
Proof.
  intros Hi. destruct o; cbn [run_registry].
  - unfold register_own. apply own_op_inv; [done| |set_solver]. intros s Hs. apply elem_of_difference in Hs as [Hs Hn].
    rewrite lookup_insert_ne by set_solver. by apply Hi.
  - unfold set_withheld. destruct (rr_own r !! s) as [o|] eqn:Eo; [|done]. cbn [snd].
    change (reg_inv (set_own (<[ s := mkOwn (ow_descriptor o) withheld ]> (rr_own r)) (set_ended (rr_ended r) r))).
    apply own_op_inv; [done| |done]. intros x Hx. rewrite lookup_insert_ne; [by apply Hi|]. intros ->. by rewrite (ri_own r Hi _ Hx) in Eo.
  - by apply deregister_inv.
  - by apply insert_inv.
  - by apply insert_inv.
  - unfold accept_json. destruct (presence_from_json v); [by apply insert_inv|done].
  - by apply loss_inv.
  - unfold forget. destruct (negb _); [done|]. cbn [snd]. apply (smaller_inv r); [|done]. split; cbn; try done; [apply delete_subseteq|set_solver].
  - apply (smaller_inv r); [|done]. split; cbn; try done. pose proof (ri_limits r Hi). lia.
Qed.

Lemma limits_inv capacity quota : reg_inv (with_limits capacity quota).
Proof.
  split; unfold registry_len; cbn [with_limits rr_held rr_ended rr_own rr_quota rr_capacity rr_forgotten rr_admitted];
    rewrite ?map_size_empty, ?size_empty; cbn [length]; try lia; intros *; rewrite ?lookup_empty; done.
Qed.

Definition run_registry_all (r : PresenceRegistry) (ops : list registry_op) : PresenceRegistry := foldl run_registry r ops.

Lemma run_registry_all_inv capacity quota ops : reg_inv (run_registry_all (with_limits capacity quota) ops).
Proof.
  unfold run_registry_all. generalize (limits_inv capacity quota). generalize (with_limits capacity quota).
  induction ops as [|o ops IH]; intros r Hr; cbn; [done|]. by apply IH, run_registry_inv.
Qed.

(** An entry after an operation was there before, or the operation offered it. *)
Definition same_entry (h h0 : Held) : Prop :=
  hd_record h = hd_record h0 ∧ hd_issuer h = hd_issuer h0 ∧ hd_stale_at h = hd_stale_at h0.

Lemma insert_traced record carrier origin issuer now r s h :
  reg_inv r → rr_held (registry_insert record carrier origin issuer now r).2 !! s = Some h →
  rr_held r !! s = Some h ∨
  (s = pn_session_id record ∧ hd_record h = record ∧ hd_issuer h = issuer ∧
   hd_stale_at h = (λ ms, now + ms * 1000000) <$> effective_lifetime record origin).
Proof.
  intros Hi. pose proof (insert_cases record carrier origin issuer now r Hi) as H.
  destruct (registry_insert record carrier origin issuer now r) as [[eff|why] r']; cbn [snd].
  - destruct H as (_ & _ & r0 & n & Hs & _ & _ & _ & _ & _ & -> & _). intros [[<- <-]|[_ Hx]]%lookup_insert_Some; [by right|left].
    eapply lookup_weaken; [exact Hx|apply Hs].
  - destruct H as [(_ & -> & _)|(_ & Hs & _)]; [by left|]. intros Hx. left. eapply lookup_weaken; [exact Hx|apply Hs].
Qed.

Lemma run_registry_traced r o s h :
  reg_inv r → rr_held (run_registry r o) !! s = Some h →
  (∃ h0, rr_held r !! s = Some h0 ∧ same_entry h h0) ∨ traced [o] s h.
Proof.
  intros Hi. assert (∀ r', rr_held r' ⊆ rr_held r → rr_held r' !! s = Some h → ∃ h0, rr_held r !! s = Some h0 ∧ same_entry h h0) as Hsub.
  { intros r' Hs Hh. exists h. split; [by eapply lookup_weaken|done]. }
  assert (∀ record carrier origin issuer now o, (offers record origin issuer now o) →
    rr_held (registry_insert record carrier origin issuer now r).2 !! s = Some h →
    (∃ h0, rr_held r !! s = Some h0 ∧ same_entry h h0) ∨ traced [o] s h) as Hins.
  { intros record carrier origin issuer now o' Ho Hh. apply insert_traced in Hh as [Hh|(-> & Hr & Hiss & Hst)]; [left; by exists h| |done].
    right. exists origin, now, o'. subst. split_and!; [left|done|done|done]. }
  destruct o; cbn [run_registry].
  - intros Hh. left. by exists h.
  - unfold set_withheld. destruct (rr_own r !! s0); intros Hh; left; by exists h.
  - intros Hh. left. apply (Hsub (deregister_own s0 r).2); [|done]. unfold deregister_own.
    destruct (rr_own r !! s0); cbn [snd]; [|done]. case_match; [apply delete_subseteq|done].
  - apply Hins. constructor.
  - apply Hins. constructor.
  - unfold accept_json. destruct (presence_from_json v) as [x|] eqn:Ev; [apply Hins; by constructor|]. intros Hh. left. by exists h.
  - cbn [carrier_loss snd set_held rr_held]. rewrite lookup_fmap. intros (h0 & Hh & ->)%fmap_Some. left. exists h0. split; [done|].
    by destruct (loses carrier h0).
  - unfold forget. destruct (negb _); cbn [snd]; intros Hh; left; [by exists h|]. apply (Hsub _ (delete_subseteq _ _) Hh).
  - intros Hh. left. by exists h.
Qed.

Lemma traced_all capacity quota ops s h :
  rr_held (run_registry_all (with_limits capacity quota) ops) !! s = Some h → traced ops s h.
Proof.
  revert s h. unfold run_registry_all. induction ops as [|o ops IH] using rev_ind; intros s h.
  - cbn. by rewrite lookup_empty.
  - rewrite foldl_snoc. intros Hh.
    apply run_registry_traced in Hh as [(h0 & Hh0 & Hr & Hiss & Hst)|Ht]; [| |apply run_registry_all_inv].
    + apply IH in Hh0 as (origin & now & o' & Hin & Ho & Hs & Hx). exists origin, now, o'. rewrite Hr, Hiss, Hst.
      split_and!; [apply elem_of_app; by left|done|done|done].
    + destruct Ht as (origin & now & o' & Hin & Ht). exists origin, now, o'. split; [apply elem_of_app; by right|done].
Qed.
End Ops.

(** The registry stays bounded and holds only what was offered: after any sequence of its
    operations it holds records of at most [capacity] sessions, one session more at most with
    the ended own ones, and remembers at most [capacity] forgotten ids; no session is both
    bound and ended; and every entry is the record some operation offered for that session,
    counted from then, so that one signed by another implementation reads online for less
    than 300 seconds after it was offered. *)
Theorem registry_bounded `{HO : HashOrder} (capacity quota : Z) (ops : list registry_op) :
  let r := run_registry_all (with_limits capacity quota) ops in
  Z.of_nat (size (rr_held r)) ≤ rr_capacity r ∧ registry_len r ≤ rr_capacity r + 1 ∧
  Z.of_nat (length (rr_forgotten r)) ≤ rr_capacity r ∧ (∀ s, s ∈ rr_ended r → rr_own r !! s = None) ∧
  ∀ s h, rr_held r !! s = Some h → traced ops s h ∧
    ∀ k t, hd_issuer h = Some k → held_state h t = PS_Online →
      ∃ carrier now, RSigned (hd_record h) carrier k now ∈ ops ∧ t < now + 300 * 1000000000.
Proof.
  intros r. pose proof (run_registry_all_inv capacity quota ops) as Hi. fold r in Hi. split_and!; try apply Hi.
  intros s h Hh. pose proof (traced_all capacity quota ops s h Hh) as Ht. split; [done|]. intros k t Hk Ho.
  destruct Ht as (origin & now & o & Hin & Hof & _ & Hst). rewrite Hk in Hof. inversion Hof as [|carrier issuer now' Hor Hiss Hnow|]; subst.
  exists carrier, now. split; [done|]. unfold held_state in Ho. rewrite Hst in Ho. unfold effective_lifetime in Ho.
  destruct (pn_kind (hd_record h)) as [ms d|]; cbn in Ho; [|done]. destruct (hd_carrier_lost h); [done|]. cbn in Ho.
  destruct (t <? _) eqn:E; [|done]. bool_hyps. unfold CROSS_IMPLEMENTATION_PRESENCE_CAP_MS in E. lia.
Qed.

Lemma smaller_none r r' s : smaller r r' → rr_held r !! s = None → rr_held r' !! s = None.
Proof. intros Hs Hn. destruct (rr_held r' !! s) eqn:E; [|done]. apply (lookup_weaken _ (rr_held r)) in E; [congruence|apply Hs]. Qed.

Lemma held_by_insert r r0 s x i :
  rr_held r0 !! s = None → rr_held r = <[ s := x ]> (rr_held r0) → held_by r i = held_by r0 i + (if decide (hd_issuer x = i) then 1 else 0).
Proof. intros Hs Hr. rewrite !held_by_count, Hr, count_insert by done. unfold of_issuer. cbn. done. Qed.

Lemma held_by_delete r r0 s x i :
  rr_held r0 !! s = Some x → rr_held r = delete s (rr_held r0) → held_by r i = held_by r0 i - (if decide (hd_issuer x = i) then 1 else 0).
Proof. intros Hs Hr. rewrite !held_by_count, Hr, (count_delete _ _ _ x) by done. unfold of_issuer. cbn. done. Qed.

(** What a session that lost its place to a newcomer tells of the shares. *)
Record fairly_lost (issuer : option KeyId) (r' : PresenceRegistry) (h : Held) : Prop := {
  fl_level : held_by r' issuer ≤ held_by r' (hd_issuer h);
  fl_most i : i ≠ issuer → held_by r' i ≤ held_by r' (hd_issuer h) + 1;
  fl_newest s' h' : rr_held r' !! s' = Some h' → hd_issuer h' = hd_issuer h → hd_admitted h' ≤ hd_admitted h }.

Lemma fair_taken_lost issuer now r r1 r0 v h r' s x :
  fair_taken issuer now r r1 r0 v h → rr_held r0 !! s = None → rr_held r' = <[ s := x ]> (rr_held r0) → hd_issuer x = issuer →
  fairly_lost issuer r' h.
Proof.
  intros [Hs Hsp Hv Hd Hf Hm Hn] Hx Hr' Hi.
  assert (∀ i, held_by r' i = held_by r1 i - (if decide (hd_issuer h = i) then 1 else 0) + (if decide (issuer = i) then 1 else 0)) as Hc.
  { intros i. rewrite (held_by_insert r' r0 s x i Hx Hr'), (held_by_delete r0 r1 v h i Hv Hd), Hi. done. }
  assert (issuer ≠ hd_issuer h) as Hne by (intros E; rewrite E in Hf; lia).
  split.
  - rewrite !Hc. rewrite (decide_True (P := issuer = issuer)), (decide_True (P := hd_issuer h = hd_issuer h)) by done.
    rewrite !decide_False by congruence. lia.
  - intros i Hii. rewrite !Hc. rewrite (decide_True (P := hd_issuer h = hd_issuer h)), !(decide_False (P := issuer = _)) by congruence.
    pose proof (Hm i). case_decide; lia.
  - intros s' h' Hh Hiss. rewrite Hr' in Hh. apply lookup_insert_Some in Hh as [[<- <-]|[_ Hh]]; [congruence|].
    rewrite Hd in Hh. apply lookup_delete_Some in Hh as [_ Hh]. apply (Hn s'); [done|]. by rewrite Hiss.
Qed.

(** Whom a full registry takes a place from: a record that is not newer is discarded with
    nothing changed, and one discarded for want of room costs no online session its entry.  An
    accepted record is newer than the one it replaces and becomes the session's entry; a new
    session never takes its issuer past the quota; and it costs at most one other online
    session its entry, the newest of an issuer that still holds at least as many sessions as
    the newcomer's issuer, and within one of the most any other issuer holds. *)
Theorem registry_admission `{HO : HashOrder} (capacity quota : Z) (ops : list registry_op) (record : PresenceRecord)
    (carrier : CarrierHandle) (origin : RecordOrigin) (issuer : option KeyId) (now : Z) :
  let r := run_registry_all (with_limits capacity quota) ops in
  let '(a, r') := registry_insert record carrier origin issuer now r in
  let s := pn_session_id record in
  match a with
  | PDiscarded PD_NotNewer => r' = r ∧ ∃ q, latest_seq r s = Some q ∧ pn_seq record ≤ q
  | PDiscarded _ => latest_seq r s = None ∧ rr_held r' ⊆ rr_held r ∧ ∀ v h, online_held r v h now → rr_held r' !! v = Some h
  | PAccepted eff =>
      eff = effective_lifetime record origin ∧ (∀ q, latest_seq r s = Some q → q < pn_seq record) ∧
      (∃ n, rr_held r' !! s = Some (held_entry record carrier origin issuer now n)) ∧
      (latest_seq r s = None → held_by r' issuer ≤ rr_quota r) ∧
      ∀ v h, online_held r v h now → v ≠ s → rr_held r' !! v ≠ Some h →
        latest_seq r s = None ∧ rr_held r' !! v = None ∧ fairly_lost issuer r' h ∧
        ∀ v' h', online_held r v' h' now → v' ≠ s → rr_held r' !! v' ≠ Some h' → v' = v
  end.
Proof.
  intros r. pose proof (run_registry_all_inv capacity quota ops) as Hi. fold r in Hi. clearbody r.
  pose proof (insert_cases record carrier origin issuer now r Hi) as H. unfold latest_seq in *. cbv zeta.
  set (s := pn_session_id record) in *.
  destruct (registry_insert record carrier origin issuer now r) as [[eff|why] r'].
  - destruct H as (Heff & Hq & r0 & n & Hs & _ & _ & _ & _ & _ & Hh & Hcase). set (x := held_entry record carrier origin issuer now n) in *.
    split_and!; [done|done|exists n; by rewrite Hh, lookup_insert_eq| |].
    + destruct (rr_held r !! s) as [y|] eqn:Es; [done|]. intros _. destruct Hcase as (_ & _ & Hb & _).
      rewrite (held_by_insert r' r0 s x issuer (smaller_none _ _ _ Hs Es) Hh). case_decide; lia.
    + assert (∀ v h, v ≠ s → rr_held r' !! v ≠ Some h ↔ rr_held r0 !! v ≠ Some h) as Hv.
      { intros v h Hne. by rewrite Hh, lookup_insert_ne. }
      intros v h Ho Hne Hl. apply Hv in Hl; [|done]. destruct (rr_held r !! s) as [y|] eqn:Es.
      { destruct Hcase as (-> & _). by destruct Ho. }
      destruct Hcase as (_ & _ & _ & _ & [Hsp|(r1 & w & g & Hft)]); [by destruct (Hl (Hsp v h Ho))|].
      assert (∀ v' h', online_held r v' h' now → rr_held r0 !! v' ≠ Some h' → v' = w ∧ h' = g) as Hw.
      { intros v' h' Ho' Hl'. pose proof (ft_spares _ _ _ _ _ _ _ Hft v' h' Ho') as H1. rewrite (ft_held _ _ _ _ _ _ _ Hft) in Hl'.
        destruct (decide (w = v')) as [<-|]; [|by rewrite lookup_delete_ne in Hl']. split; [done|].
        pose proof (ft_victim _ _ _ _ _ _ _ Hft). congruence. }
      destruct (Hw v h Ho Hl) as [-> ->]. split_and!; [done| | |].
      * by rewrite Hh, lookup_insert_ne, (ft_held _ _ _ _ _ _ _ Hft), lookup_delete_eq by done.
      * by eapply (fair_taken_lost issuer now r r1 r0 w g r' s x Hft (smaller_none _ _ _ Hs Es) Hh).
      * intros v' h' Ho' Hne' Hl'. apply Hv in Hl'; [|done]. by destruct (Hw v' h' Ho' Hl').
  - destruct H as [(-> & -> & q & Hq1 & Hq2)|(Hn & Hs & Hsp & Hw)]; [eauto|].
    destruct why; try done; rewrite Hn; (split_and!; [done|apply Hs|exact Hsp]).
Qed.

(** ** Answers *)

Section Answers.
Context `{HO : HashOrder}.

Lemma sessions_known r s : s ∈ registry_sessions r ↔ is_Some (rr_own r !! s) ∨ s ∈ rr_ended r ∨ is_Some (rr_held r !! s).
Proof.
  unfold registry_sessions. rewrite !elem_of_app, elem_of_keys, elem_of_set_items.
  rewrite (list_elem_of_In _ s), filter_In, in_map_iff.
  assert ((∃ x : SessionId * Held, x.1 = s ∧ In x (hash_items (rr_held r))) ↔ is_Some (rr_held r !! s)) as ->.
  { split.
    - intros ([s' h] & <- & Hin). apply list_elem_of_In, hash_elem in Hin. eauto.
    - intros [h Hh]. exists (s, h). split; [done|]. by apply list_elem_of_In, hash_elem. }
  destruct (rr_own r !! s); cbn; [naive_solver|]. case_bool_decide; cbn; naive_solver.
Qed.

Lemma online_has_descriptor r s now : reg_inv r → registry_state r s now = PS_Online → is_Some (online_descriptor r s now).
Proof.
  intros Hi Hs. unfold online_descriptor. rewrite bool_decide_true by done. cbn [negb]. unfold registry_state in Hs.
  destruct (rr_own r !! s) as [o|]; [eauto|]. case_bool_decide; [done|]. destruct (rr_held r !! s) as [h|] eqn:Eh; [|done].
  pose proof (ri_stale r Hi s h Eh) as Hst. unfold held_state in Hs. destruct (hd_stale_at h); [|done]. cbn in *.
  unfold pn_present in Hst. destruct (pn_kind (hd_record h)); [eauto|done].
Qed.

Definition listed (r : PresenceRegistry) (may : SessionId → SessionId → bool) (req : SessionId) (now : Z) (s : SessionId) : bool :=
  bool_decide (registry_state r s now = PS_Online) && may req s.

Lemma discover_fold (r : PresenceRegistry) (may : SessionId → SessionId → bool) (req : SessionId) (now : Z) (l : list SessionId)
    (acc : gmap SessionId SessionDescriptor) (s : SessionId) :
  foldl (λ out x, let '(session, state, descriptor) := x in
                  if negb (bool_decide (state = PS_Online)) || negb (may req session) then out
                  else match descriptor with Some d => <[ session := d ]> out | None => out end) acc
    (map (λ s, (s, registry_state r s now, online_descriptor r s now)) l) !! s =
  if bool_decide (s ∈ l) && listed r may req now s
  then match online_descriptor r s now with Some d => Some d | None => acc !! s end else acc !! s.
Proof.
  revert acc. induction l as [|x l IH]; intros acc; cbn [map foldl]; [done|]. rewrite IH. clear IH.
  rewrite <- negb_andb. change (bool_decide (registry_state r x now = PS_Online) && may req x) with (listed r may req now x).
  destruct (decide (x = s)) as [->|Hne].
  - rewrite (bool_decide_true (s ∈ s :: l)) by left. destruct (listed r may req now s); cbn [negb andb].
    + destruct (online_descriptor r s now) as [d|]; [rewrite lookup_insert_eq|]; by destruct (bool_decide (s ∈ l)).
    + by rewrite !andb_false_r.
  - assert (bool_decide (s ∈ x :: l) = bool_decide (s ∈ l)) as -> by (apply bool_decide_ext; rewrite elem_of_cons; naive_solver).
    assert (∀ d, <[ x := d ]> acc !! s = acc !! s) as Hd by (intros d; by rewrite lookup_insert_ne).
    destruct (listed r may req now x); cbn [negb]; [|done]. destruct (online_descriptor r x now) as [d|]; [|done]. by rewrite Hd.
Qed.
End Answers.

(** Discovery and sending answer from the same view: for every requester, discovery lists,
    once each and in session-id order, exactly the sessions that are online and that the
    requester may discover, every online session having a descriptor to list; a send decision
    succeeds exactly for the sessions listed, with the capabilities listed, and otherwise
    reports a session the requester may not discover as it reports an unknown one.  A request
    that is bound to no session is refused. *)
Theorem discovery_exact `{HO : HashOrder} (capacity quota : Z) (ops : list registry_op) (req : SessionId)
    (may : SessionId → SessionId → bool) (now : Z) :
  let r := run_registry_all (with_limits capacity quota) ops in
  registry_discover r None may now = Err E_Unauthorized ∧
  ∃ out : gmap SessionId SessionDescriptor, registry_discover r (Some req) may now = Ok (values out) ∧
    (∀ s, is_Some (out !! s) ↔ registry_state r s now = PS_Online ∧ may req s = true) ∧
    (∀ s d, out !! s = Some d → online_descriptor r s now = Some d) ∧
    ∀ to, send_presence r req to may now =
      match out !! to with
      | Some d => Ok (sd_capabilities d)
      | None => if may req to && bool_decide (registry_state r to now = PS_Unreachable) then Err E_DestinationUnavailable
                else Err E_UnknownDestination
      end.
Proof.
  intros r. pose proof (run_registry_all_inv capacity quota ops) as Hi. fold r in Hi. clearbody r. split; [done|].
  unfold registry_discover, discovery_result. cbn [ok_or mbind result_bind]. eexists. split; [reflexivity|].
  set (out := foldl _ _ _).
  assert (∀ s, out !! s = if listed r may req now s then online_descriptor r s now else None) as Hout.
  { intros s. unfold out. rewrite discover_fold, lookup_empty. unfold listed. destruct (bool_decide (registry_state r s now = PS_Online)) eqn:Eo.
    - apply bool_decide_eq_true in Eo. rewrite (bool_decide_true (s ∈ registry_sessions r)).
      + cbn [andb]. destruct (may req s); [|done]. by destruct (online_descriptor r s now).
      + apply sessions_known. unfold registry_state in Eo. destruct (rr_own r !! s); [eauto|]. case_bool_decide; [done|].
        destruct (rr_held r !! s); [eauto|done].
    - by rewrite andb_false_r. }
  clearbody out.
  assert (∀ s, is_Some (out !! s) ↔ registry_state r s now = PS_Online ∧ may req s = true) as Hdom.
  { intros s. rewrite Hout. unfold listed. destruct (bool_decide (registry_state r s now = PS_Online)) eqn:Eo; cbn [andb].
    - apply bool_decide_eq_true in Eo. destruct (may req s); [|split; [by intros []|naive_solver]].
      split; [done|]. intros _. by apply online_has_descriptor.
    - apply bool_decide_eq_false in Eo. split; [by intros []|naive_solver]. }
  split_and!; [done| |].
  - intros s d. rewrite Hout. by destruct (listed r may req now s).
  - intros to. unfold send_presence. destruct (may req to) eqn:Em; cbn [negb andb].
    + destruct (registry_state r to now) eqn:Es.
      * destruct (online_has_descriptor r to now Hi Es) as [d Hd]. rewrite Hd. cbn.
        rewrite Hout. unfold listed. rewrite Es, Em, Hd. done.
      * rewrite Hout. unfold listed. rewrite Es. done.
      * rewrite Hout. unfold listed. rewrite Es. done.
    + rewrite Hout. unfold listed. by rewrite Em, andb_false_r.
Qed.

(** ** Issuing *)

Inductive issuer_op : Type :=
| IAnnounce (d : SessionDescriptor) (issued_at : Timestamp) (now : Z)
| IWithdraw (s : SessionId) (issued_at : Timestamp).

Definition run_issuer (x : list PresenceRecord * PresenceIssuer) (o : issuer_op) : list PresenceRecord * PresenceIssuer :=
  let '(out, p) := x in
  let '(r, p) := match o with
                 | IAnnounce d at_ now => announce d at_ now p
                 | IWithdraw s at_ => withdraw s at_ false p
                 end in
  (match r with Some r => out ++ [r] | None => out end, p).

(** The records issued for one session so far. *)
Definition issued_for (s : SessionId) (out : list PresenceRecord) : list PresenceRecord :=
  List.filter (λ r, beq (pn_session_id r) s) out.

Definition next_seq_of (p : PresenceIssuer) (s : SessionId) : Z :=
  match pi_sessions p !! s with Some i => is_next_seq i | None => 0 end.

Record issuer_inv (x : list PresenceRecord * PresenceIssuer) : Prop := {
  ii_next s : next_seq_of x.2 s = Z.of_nat (length (issued_for s x.1));
  ii_seq s i r : issued_for s x.1 !! i = Some r → pn_seq r = Z.of_nat i }.

Lemma issued_for_app s out r : issued_for s (out ++ [r]) = issued_for s out ++ (if beq (pn_session_id r) s then [r] else []).
Proof. unfold issued_for. rewrite List.filter_app. cbn. by destruct (beq _ _). Qed.

Lemma issuer_step out p s i a r :
  issuer_inv (out, p) → next_seq_of p s = i → pn_session_id r = s → pn_seq r = i →
  issuer_inv (out ++ [r], mkIssuer (pi_lifetime_ms p) (<[ s := mkIssued (i + 1) a ]> (pi_sessions p))).
Proof.
  intros [Hn Hs] Hi Hr Hq. cbn [fst snd] in *. split; cbn [fst snd].
  - intros s'. rewrite issued_for_app, length_app, Nat2Z.inj_add, <- Hn. unfold next_seq_of. cbn [pi_sessions].
    destruct (decide (s = s')) as [<-|Hne].
    + rewrite lookup_insert_eq, Hr, beq_refl. cbn. unfold next_seq_of in Hi. rewrite Hi. lia.
    + rewrite lookup_insert_ne by done. rewrite Hr. assert (beq s s' = false) as -> by (by apply bool_decide_eq_false). cbn. lia.
  - intros s' j x. rewrite issued_for_app. intros [Hj|[Hle Hj]]%lookup_app_Some; [by eapply Hs|].
    destruct (beq (pn_session_id r) s') eqn:E; [|done]. apply beq_true in E. subst s'.
    destruct (j - length _)%nat eqn:Ej; [|done]. injection Hj as <-. rewrite Hq, <- Hi. rewrite <- Hr, Hn. f_equal. lia.
Qed.

Lemma next_same p s : next_seq_of p s = is_next_seq (default (mkIssued 0 None) (pi_sessions p !! s)) ∧
  ∀ s', next_seq_of (mkIssuer (pi_lifetime_ms p) (<[ s := default (mkIssued 0 None) (pi_sessions p !! s) ]> (pi_sessions p))) s' = next_seq_of p s'.
Proof.
  unfold next_seq_of. split; [by destruct (pi_sessions p !! s)|]. intros s'. cbn.
  destruct (decide (s = s')) as [<-|]; [rewrite lookup_insert_eq|by rewrite lookup_insert_ne]. by destruct (pi_sessions p !! s).
Qed.

Lemma run_issuer_inv x o : issuer_inv x → issuer_inv (run_issuer x o).
Proof.
  destruct x as [out p]. intros Hi.
  assert (∀ s, issuer_inv (out, (issuer_next s p).2)) as Hnext.
  { intros s. destruct Hi as [Hn Hs]. split; [|done]. intros s'. cbn [issuer_next snd]. rewrite <- Hn. by apply next_same. }
  destruct o as [d at_ now|s at_]; cbn [run_issuer].
  - unfold announce. specialize (Hnext (sd_session_id d)). cbn [issuer_next snd] in *.
    set (i := default _ _) in *. unfold announcement. destruct (MAX_SEQ <? _); [done|]. destruct (negb _); [done|].
    apply (issuer_step out (mkIssuer (pi_lifetime_ms p) (<[sd_session_id d:=i]> (pi_sessions p))) (sd_session_id d) (is_next_seq i)); try done.
    unfold next_seq_of. cbn. by rewrite lookup_insert_eq.
  - unfold withdraw. specialize (Hnext s). cbn [issuer_next snd] in *.
    set (i := default _ _) in *. unfold withdrawal. destruct (MAX_SEQ <? _); [done|].
    apply (issuer_step out (mkIssuer (pi_lifetime_ms p) (<[s:=i]> (pi_sessions p))) s (is_next_seq i)); try done.
    unfold next_seq_of. cbn. by rewrite lookup_insert_eq.
Qed.

(** Records are numbered and refreshed in time: whatever announcements and withdrawals an
    issuer makes, the records of each session carry 0, 1, 2 and so on in the order issued; and
    at any instant, a refresh is due exactly when the one timer's instant has come, which for
    every announced session is no later than two fifths, and so before half, of the lifetime
    its announcement carries. *)
Theorem issuer_numbers_and_refreshes (lifetime_ms : Z) (ops : list issuer_op) (now : Z) :
  let '(out, p) := foldl run_issuer ([], mkIssuer lifetime_ms ∅) ops in
  (∀ s i r, issued_for s out !! i = Some r → pn_seq r = Z.of_nat i) ∧
  (refresh_due p now ≠ [] ↔ ∃ t, next_refresh_at p = Some t ∧ t ≤ now) ∧
  (∀ s i a, pi_sessions p !! s = Some i → is_announced_at i = Some a →
     (∃ t, next_refresh_at p = Some t ∧ t ≤ refresh_at p a) ∧
     (0 ≤ pi_lifetime_ms p → 2 * (refresh_at p a - a) ≤ pi_lifetime_ms p * 1000000)).
Proof.
  assert (issuer_inv (foldl run_issuer ([], mkIssuer lifetime_ms ∅) ops)) as Hi.
  { assert (issuer_inv ([], mkIssuer lifetime_ms ∅)) as H by (split; [intros s; unfold next_seq_of; cbn; by rewrite lookup_empty|done]).
    revert H. generalize ([] : list PresenceRecord, mkIssuer lifetime_ms ∅).
    induction ops as [|o ops IH]; intros x Hx; cbn; [done|]. by apply IH, run_issuer_inv. }
  destruct (foldl run_issuer _ ops) as [out p]. destruct Hi as [_ Hseq]. cbn [fst snd] in Hseq. split; [done|].
  set (l := omap (λ i, refresh_at p <$> is_announced_at i) (values (pi_sessions p))).
  assert (∀ t, t ∈ l ↔ ∃ s i a, pi_sessions p !! s = Some i ∧ is_announced_at i = Some a ∧ t = refresh_at p a) as Hl.
  { intros t. unfold l. rewrite list_elem_of_omap. setoid_rewrite elem_of_values. split.
    - intros (i & (s & Hs) & (a & Ha & ->)%fmap_Some). eauto 10.
    - intros (s & i & a & Hs & Ha & ->). exists i. split; [eauto|]. by rewrite Ha. }
  assert (∀ t, t ∈ l → ∃ m, next_refresh_at p = Some m ∧ m ∈ l ∧ m ≤ t) as Hmin.
  { intros t Ht. unfold next_refresh_at. fold l. destruct (list_min l) as [m|] eqn:E.
    - apply list_min_Some in E as [Hm Hle]. exists m. split_and!; [done|done|]. apply Hle in Ht. unfold leb, Z_order in Ht. lia.
    - apply list_min_None in E. rewrite E in Ht. by apply elem_of_nil in Ht. }
  assert (∀ s, s ∈ refresh_due p now ↔ ∃ i a, pi_sessions p !! s = Some i ∧ is_announced_at i = Some a ∧ refresh_at p a ≤ now) as Hdue.
  { intros s. unfold refresh_due. rewrite list_elem_of_In, in_map_iff. split.
    - intros ([s' i] & <- & [Hin Hc]%filter_In). apply list_elem_of_In, elem_of_items in Hin. cbn in Hc.
      destruct (is_announced_at i) as [a|] eqn:Ea; [|done]. bool_hyps. eauto 10.
    - intros (i & a & Hs & Ha & Hle). exists (s, i). split; [done|]. apply filter_In. split; [by apply list_elem_of_In, elem_of_items|].
      cbn. rewrite Ha. lia. }
  split_and!.
  - split.
    + intros Hne. destruct (refresh_due p now) as [|s rest] eqn:E; [done|]. assert (s ∈ s :: rest) as Hs by left.
      apply Hdue in Hs as (i & a & H1 & H2 & H3). destruct (Hmin (refresh_at p a)) as (m & Hm & _ & Hle); [apply Hl; eauto 10|].
      exists m. split; [done|lia].
    + intros (t & Ht & Hle) E. assert (t ∈ l) as Hin by (unfold next_refresh_at in Ht; by apply list_min_Some in Ht as [? _]).
      apply Hl in Hin as (s & i & a & H1 & H2 & ->). assert (s ∈ refresh_due p now) as Hs by (apply Hdue; eauto 10).
      rewrite E in Hs. by apply elem_of_nil in Hs.
  - intros s i a Hs Ha. split.
    + destruct (Hmin (refresh_at p a)) as (m & Hm & _ & Hle); [apply Hl; eauto 10|]. eauto.
    + intros Hp. unfold refresh_at. pose proof (Z.mul_div_le (pi_lifetime_ms p * 2) 5). lia.
Qed.

(** ** A registry of one session over its capacity *)

Definition list_order : HashOrder := {| hash_items := λ V m, map_to_list m; hash_items_perm := λ V m, Permutation_refl _ |}.

Definition plain_descriptor (s : string) : SessionDescriptor := mkDescriptor (bs s) (mkCapabilities (JObject [])) [].
Definition plain_withdrawal (s : string) : PresenceRecord := mkPresence (bs s) 0 (mkTimestamp [] 0) Withdrawal [].

(** An own session that ends while records fill the registry, none ended before it, is held
    beyond the capacity. *)
Lemma ended_over_capacity :
  let r := run_registry_all (HO := list_order) (with_limits 1 1)
             [ROwn (plain_descriptor "a"); RAccept (plain_withdrawal "b") [] SameImplementation 0; REnd (bs "a")] in
  rr_capacity r = 1 ∧ registry_len r = 2.
Proof. vm_compute. done. Qed.
