(* ===== verification/PresenceAuth.v ===== *)
(** * Presence records between implementations ([core/src/presence_auth.rs])

    Issuing an authenticated presence record to one device, and the consumer's checks, in
    their order, over the authorization engine and the presence registry. *)

From S2P Require Import Prelude Ordered Base64url Ids Utf8 Json JsonFacts JsonReader JsonText.
From S2P Require Import Delivery Canonical Capabilities Envelope EnvelopeFacts Keys Trust Signing Replay Receipt Reply Receiver.
From S2P Require Import SignedObject Agreement Pairing PairingFacts Registration RecordBook.
From S2P Require Import Bindings Authorization AuthorizationFacts AuthorizationSpec Transport Presence Registry.

Record AuthenticatedPresenceRecord := mkAuthPresence { apw_wire : JsonObject }.

Inductive PresenceAuthDiscard : Type :=
| AD_Malformed | AD_Signature | AD_Audience | AD_Stale | AD_UnderConflict | AD_BoundElsewhere | AD_Unrelated
| AD_WithdrawalUnbound | AD_Registry.

Record PresenceAuthOutcome := mkAuthOutcome { ao_result : result PresenceAuthDiscard PresenceAcceptance; ao_finding : bool }.

Definition auth_discard (why : PresenceAuthDiscard) : PresenceAuthOutcome := mkAuthOutcome (Err why) false.

Definition ao_accepted (o : PresenceAuthOutcome) : bool :=
  match ao_result o with Ok (PAccepted _) => true | _ => false end.

Definition apr_from_json (v : Json) : option AuthenticatedPresenceRecord := mkAuthPresence <$> as_object v.

Definition apr_to_payload (a : AuthenticatedPresenceRecord) : option (Destination * Payload) :=
  audience ← (s ← get_str (apw_wire a) (bs "audience"); KeyId_parse s);
  Some (Dest_Device audience, mkPayload PK_Presence (to_compact (JObject (apw_wire a)))).

(** The object [issue] signs. *)
Definition presence_object (record : PresenceRecord) (audience : KeyId) : JsonObject :=
  let o := obj_insert [] (bs "record") (JObject (pn_wire record)) in
  obj_insert o (bs "audience") (JString audience).

(** The relation test: the engine's decision, logged. *)
Definition related (at_ : Timestamp) (key : KeyId) (s : SessionId) (e : Engine) : bool * Engine :=
  let '(d, e) := decide_at (Q_AcceptPresence key s) at_ e in (permits d K_AcceptPresence, e).

Section PresenceAuth.
Context `{C : Crypto} `{HO : HashOrder}.

(** [AuthenticatedPresenceRecord::issue]; [None] is its [expect]. *)
Definition presence_issue (d : DeviceIdentity) (record : PresenceRecord) (audience : KeyId) : option AuthenticatedPresenceRecord :=
  mkAuthPresence <$> attach_signature d Dom_Presence (presence_object record audience).

(** From the parsed record on: the registry's own rules and the first binding. *)
Definition accept_parsed (parsed : PresenceRecord) (key : KeyId) (entry : option Binding) (carrier : CarrierHandle) (now : Z)
    (e : Engine) (r : PresenceRegistry) : PresenceAuthOutcome * Engine * PresenceRegistry :=
  let sid := pn_session_id parsed in
  if match latest_seq r sid with Some q => pn_seq parsed <=? q | None => false end then (auth_discard AD_Registry, e, r)
  else if negb (pn_present parsed) && negb (is_some entry) then (auth_discard AD_WithdrawalUnbound, e, r)
  else
    let '(acceptance, r) := accept_signed parsed carrier key now r in
    let '(forgotten, r) := take_forgotten r in
    let e := foldl (λ e s, (forget_binding s e).2) e forgotten in
    match acceptance with
    | PDiscarded _ => (auth_discard AD_Registry, e, r)
    | PAccepted _ => (mkAuthOutcome (Ok acceptance) false, (bind sid key e).2, r)
    end.

(** [accept_authenticated_record]; [at_] is the engine clock's time and [now] its instant. *)
Definition accept_authenticated_record (record : AuthenticatedPresenceRecord) (carrier : CarrierHandle) (at_ : Timestamp) (now : Z)
    (e : Engine) (r : PresenceRegistry) : PresenceAuthOutcome * Engine * PresenceRegistry :=
  let o := apw_wire record in
  match obj_get o (bs "record"), obj_get o (bs "audience") with
  | Some inner, Some audience =>
      match verify_signed (trusted e) Dom_Presence o with
      | Err MalformedSecurity => (auth_discard AD_Malformed, e, r)
      | Err _ => (auth_discard AD_Signature, e, r)
      | Ok entry =>
          let key := tk_key_id entry in
          if negb (bool_decide (as_str audience = Some (own_key e))) then (auth_discard AD_Audience, e, r)
          else
            match as_object inner with
            | None => (auth_discard AD_Registry, e, r)
            | Some io =>
                let fresh := match (s ← get_str io (bs "issued_at"); Timestamp_parse s) with
                             | Some t => inside_replay_window t at_
                             | None => false
                             end in
                if negb fresh then (auth_discard AD_Stale, e, r)
                else
                  let session := s ← get_str io (bs "session_id"); SessionId_parse s in
                  let present := v ← obj_get io (bs "present"); as_bool v in
                  let entry := s ← session; bindings e !! s in
                  let go :=
                    let '(ok, e) := if bool_decide (present = Some true)
                                    then match session with Some s => related at_ key s e | None => (false, e) end
                                    else (true, e) in
                    if negb ok then (auth_discard AD_Unrelated, e, r)
                    else
                      match presence_from_json inner with
                      | Err _ => (auth_discard AD_Registry, e, r)
                      | Ok parsed => accept_parsed parsed key entry carrier now e r
                      end in
                  match entry, session with
                  | Some (BConflict _), _ => (auth_discard AD_UnderConflict, e, r)
                  | Some (BKey b), Some s =>
                      if beq b key then go
                      else
                        let e := if is_some (own_sessions e !! s) then e
                                 else let '(rel, e) := related at_ key s e in if rel then (mark_conflict s key e).2 else e in
                        (mkAuthOutcome (Err AD_BoundElsewhere) true, e, r)
                  | _, _ => go
                  end
            end
      end
  | _, _ => (auth_discard AD_Malformed, e, r)
  end.
End PresenceAuth.

(** ** Facts *)

(** The members the checks read before the record is parsed, once it parses. *)
Lemma presence_members_read io p :
  presence_from_json (JObject io) = Ok p →
  (s ← get_str io (bs "issued_at"); Timestamp_parse s) = Some (pn_issued_at p) ∧
  (s ← get_str io (bs "session_id"); SessionId_parse s) = Some (pn_session_id p) ∧
  (v ← obj_get io (bs "present"); as_bool v) = Some (pn_present p).
Proof.
  unfold presence_from_json. intros H. cbn [as_object] in H. unfold opt_filter at 1 in H.
  destruct (negb (contains_null _)); [|done]. cbn [ok_or mbind result_bind] in H. destruct (existsb _ _); [done|].
  destruct (s ← get_str io (bs "session_id"); SessionId_parse s) as [sid|]; [|done]. cbn [ok_or mbind result_bind] in H.
  destruct (v ← obj_get io (bs "seq"); _) as [q|]; [|done]. cbn [ok_or mbind result_bind] in H.
  destruct (v ← obj_get io (bs "present"); as_bool v) as [b|]; [|done]. cbn [ok_or mbind result_bind] in H.
  destruct (s ← get_str io (bs "issued_at"); Timestamp_parse s) as [t|]; [|done]. cbn [ok_or mbind result_bind] in H.
  destruct (read_presence_kind io sid b) as [k|] eqn:Ek; [|done]. cbn [mbind result_bind] in H. injection H as <-.
  cbn [pn_issued_at pn_session_id]. split_and!; [done|done|]. f_equal. unfold read_presence_kind in Ek. unfold pn_present. cbn.
  destruct b; [|destruct (_ || _); [done|by injection Ek as <-]].
  destruct (obj_get io (bs "lifetime_ms")), (obj_get io (bs "descriptor")); try done. inv_binds. done.
Qed.

Lemma related_spec at_ key s e :
  (related at_ key s e).1 = true ↔ ∃ b, supports e at_ (Q_AcceptPresence key s) b.
Proof.
  unfold related, decide_at, permits. cbn [fst ad_kind ad_outcome request_kind]. rewrite bool_decide_true by done. cbn [andb].
  unfold evaluate. cbv zeta. destruct (engine_related e key s at_) as [b|] eqn:E.
  - split; [|done]. intros _. exists b. by apply related_sound.
  - split; [done|]. intros [b Hb%related_complete]. rewrite E in Hb. by destruct Hb.
Qed.

Lemma related_same at_ key s e : same_tables e (related at_ key s e).2 ∧ trusted (related at_ key s e).2 = trusted e.
Proof. done. Qed.

(** Bindings removed with what the registry forgot. *)
Lemma forget_bindings_spec l e :
  engine_inv e →
  let e' := foldl (λ e s, (forget_binding s e).2) e l in
  engine_inv e' ∧ own_sessions e' = own_sessions e ∧ own_key e' = own_key e ∧
  ∀ s, bindings e' !! s = bindings e !! s ∨ bindings e' !! s = None.
Proof.
  revert e. induction l as [|x l IH]; intros e He; cbn [foldl]; [split_and!; auto|].
  destruct (IH (forget_binding x e).2) as (H1 & H2 & H3 & H4); [by apply forget_binding_inv|].
  assert (own_sessions (forget_binding x e).2 = own_sessions e ∧ own_key (forget_binding x e).2 = own_key e ∧
    ∀ s, bindings (forget_binding x e).2 !! s = bindings e !! s ∨ bindings (forget_binding x e).2 !! s = None) as (F1 & F2 & F3).
  { unfold forget_binding. destruct (_ || _); [split_and!; auto|]. cbn. split_and!; [done|done|]. intros s.
    destruct (decide (x = s)) as [<-|]; [right; apply lookup_delete_eq|left; by rewrite lookup_delete_ne]. }
  split_and!; [done|congruence|congruence|]. intros s. destruct (H4 s) as [->|]; [apply F3|by right].
Qed.

Lemma bind_confirms sid key e :
  not_contradicted e sid key → bindings (bind sid key e).2 !! sid = Some (BKey key) ∧
  ∀ s, s ≠ sid → bindings (bind sid key e).2 !! s = bindings e !! s.
Proof.
  intros [Hb|Hb]; unfold bind; rewrite Hb; cbn [snd].
  - cbn. split; [apply lookup_insert_eq|]. intros s Hs. by rewrite lookup_insert_ne.
  - rewrite beq_refl. cbn. split; [done|]. done.
Qed.

(** What a discard may change in the binding table: nothing, or a conflict mark, or less. *)
Definition discard_table (e e' : Engine) (at_ : Timestamp) (why : PresenceAuthDiscard) : Prop :=
  ∀ x b, bindings e' !! x = Some b → bindings e !! x = Some b ∨
    (why = AD_BoundElsewhere ∧ ∃ k key basis, b = BConflict {[ k; key ]} ∧ k ≠ key ∧ bindings e !! x = Some (BKey k) ∧
      own_sessions e !! x = None ∧ supports e at_ (Q_AcceptPresence key x) basis).

(** The verdict on one record, over the engine and registry it was offered to. *)
Record presence_accepted `{C : Crypto} (record : AuthenticatedPresenceRecord) (at_ : Timestamp) (e : Engine) (r : PresenceRegistry)
    (e' : Engine) (r' : PresenceRegistry) (parsed : PresenceRecord) (entry : TrustedKey) : Prop := {
  pa_verified : verified_under (trusted e) Dom_Presence (apw_wire record) entry;
  pa_audience : obj_get (apw_wire record) (bs "audience") = Some (JString (own_key e));
  pa_record : obj_get (apw_wire record) (bs "record") = Some (JObject (pn_wire parsed));
  pa_parsed : presence_from_json (JObject (pn_wire parsed)) = Ok parsed;
  pa_fresh : inside_replay_window (pn_issued_at parsed) at_ = true;
  pa_binding : not_contradicted e (pn_session_id parsed) (tk_key_id entry);
  pa_related : pn_present parsed = true → ∃ b, supports e at_ (Q_AcceptPresence (tk_key_id entry) (pn_session_id parsed)) b;
  pa_withdrawal : pn_present parsed = false → bindings e !! pn_session_id parsed = Some (BKey (tk_key_id entry));
  pa_newer q : latest_seq r (pn_session_id parsed) = Some q → q < pn_seq parsed;
  pa_bound : bindings e' !! pn_session_id parsed = Some (BKey (tk_key_id entry));
  pa_held : latest_seq r' (pn_session_id parsed) = Some (pn_seq parsed) }.

Section Facts.
Context {C : Crypto} `{HO : HashOrder}.

Lemma accept_parsed_spec parsed key entry carrier at_ now e r :
  engine_inv e → reg_inv r → not_contradicted e (pn_session_id parsed) key → entry = bindings e !! pn_session_id parsed →
  let '(out, e', r') := accept_parsed parsed key entry carrier now e r in
  engine_inv e' ∧ reg_inv r' ∧
  match ao_result out with
  | Ok a => (∃ eff, a = PAccepted eff) ∧ ao_finding out = false ∧
      (pn_present parsed = false → bindings e !! pn_session_id parsed = Some (BKey key)) ∧
      (∀ q, latest_seq r (pn_session_id parsed) = Some q → q < pn_seq parsed) ∧
      bindings e' !! pn_session_id parsed = Some (BKey key) ∧ latest_seq r' (pn_session_id parsed) = Some (pn_seq parsed)
  | Err why => ao_finding out = false ∧ (why = AD_Registry ∨ why = AD_WithdrawalUnbound) ∧ (why ≠ AD_Registry → r' = r) ∧
      discard_table e e' at_ why
  end.
Proof.
  intros He Hr Hc ->. unfold accept_parsed. set (sid := pn_session_id parsed) in *.
  assert (discard_table e e at_ AD_Registry ∧ discard_table e e at_ AD_WithdrawalUnbound) as [D1 D2] by (split; intros x b Hx; by left).
  destruct (match latest_seq r sid with Some q => _ | None => _ end); [cbn; split_and!; auto|].
  destruct (negb (pn_present parsed) && negb (is_some (bindings e !! sid))) eqn:Ew; [cbn; split_and!; auto|].
  unfold accept_signed. pose proof (insert_cases parsed carrier OtherImplementation (Some key) now r Hr) as Hins.
  pose proof (insert_inv parsed carrier OtherImplementation (Some key) now r Hr) as Hinv.
  destruct (registry_insert parsed carrier OtherImplementation (Some key) now r) as [acc r1]. cbn [snd] in Hinv. cbn [take_forgotten].
  set (r2 := mkRegistry _ _ _ _ _ [] _). assert (reg_inv r2) as Hr2 by (apply (run_registry_inv r1 RTake); done).
  destruct (forget_bindings_spec (rr_forgotten r1) e He) as (He1 & Hos & Hok & Hb). set (e1 := foldl _ e (rr_forgotten r1)) in *.
  destruct acc as [eff|why]; cbn [ao_result ao_finding auth_discard].
  - destruct Hins as (_ & Hq & r0 & n & _ & _ & _ & _ & _ & _ & Hh & _).
    assert (not_contradicted e1 sid key) as Hc1.
    { destruct (Hb sid) as [E|E]; unfold not_contradicted in *; rewrite E; [done|by left]. }
    destruct (bind_confirms sid key e1 Hc1) as [Hbs _]. split_and!; [by apply bind_inv|done|eauto|done| |done|done|].
    + intros Hp. rewrite Hp in Ew. cbn in Ew. destruct Hc as [Hc|Hc]; [by rewrite Hc in Ew|done].
    + unfold latest_seq, r2. cbn [rr_held]. rewrite Hh. fold sid. by rewrite lookup_insert_eq.
  - split_and!; [done|done|done|by left|done|]. intros x b Hx. left. destruct (Hb x) as [E|E]; rewrite E in Hx; done.
Qed.

Lemma accept_record_spec record carrier at_ now e r :
  engine_inv e → reg_inv r → keyset_inv (trusted e) →
  let '(out, e', r') := accept_authenticated_record record carrier at_ now e r in
  engine_inv e' ∧ reg_inv r' ∧
  match ao_result out with
  | Ok a => ao_finding out = false ∧ (∃ eff, a = PAccepted eff) ∧ ∃ parsed entry, presence_accepted record at_ e r e' r' parsed entry
  | Err why => (ao_finding out = true ↔ why = AD_BoundElsewhere) ∧ (why ≠ AD_Registry → r' = r) ∧ discard_table e e' at_ why
  end.
Proof.
  intros He Hr Hk.
  assert (∀ why, why ≠ AD_BoundElsewhere → engine_inv e ∧ reg_inv r ∧
    (false = true ↔ why = AD_BoundElsewhere) ∧ (why ≠ AD_Registry → r = r) ∧ discard_table e e at_ why) as Hd.
  { intros why Hw. split_and!; try done. intros x b Hx. by left. }
  unfold accept_authenticated_record.
  destruct (obj_get (apw_wire record) (bs "record")) as [inner|] eqn:Ei; [|by apply Hd].
  destruct (obj_get (apw_wire record) (bs "audience")) as [audience|] eqn:Ea; [|by apply Hd].
  unfold verify_signed. destruct (verify_with_requirement (trusted e) Dom_Presence (apw_wire record)) as [entry|[[] ?]] eqn:Ev;
    cbn [map_err]; try (by apply Hd).
  apply (verify_Ok _ _ _ _ Hk) in Ev. cbv zeta.
  case_bool_decide as Hau; cbn [negb]; [|by apply Hd]. destruct audience as [| | |a| |]; try done. injection Hau as ->.
  destruct (as_object inner) as [io|] eqn:Eio; [|by apply Hd]. destruct inner as [| | | | |io']; try done. injection Eio as ->.
  destruct (match (s ← get_str io (bs "issued_at"); Timestamp_parse s) with Some t => _ | None => _ end) eqn:Ef; cbn [negb]; [|by apply Hd].
  set (key := tk_key_id entry) in *. set (session := s ← get_str io (bs "session_id"); SessionId_parse s) in *.
  set (present := v ← obj_get io (bs "present"); as_bool v) in *. set (bnd := s ← session; bindings e !! s).
  (* the checks from the relation on *)
  set (go := let '(ok, e0) := if bool_decide (present = Some true) then _ else _ in _).
  assert ((∀ s, session = Some s → not_contradicted e s key) →
    let '(out, e', r') := go in
    engine_inv e' ∧ reg_inv r' ∧
    match ao_result out with
    | Ok a => ao_finding out = false ∧ (∃ eff, a = PAccepted eff) ∧ ∃ parsed entry, presence_accepted record at_ e r e' r' parsed entry
    | Err why => (ao_finding out = true ↔ why = AD_BoundElsewhere) ∧ (why ≠ AD_Registry → r' = r) ∧ discard_table e e' at_ why
    end) as Hgo.
  { intros Hnc. subst go.
    set (x := if bool_decide (present = Some true) then _ else (true, e)).
    assert (∃ l, x.2 = e ∨ x.2 = add_log l e) as Hx2.
    { subst x. case_bool_decide; [|by exists (L_Finding (mkFinding [] [] [])); left]. destruct session as [s|]; [|by exists (L_Finding (mkFinding [] [] [])); left].
      eexists. right. reflexivity. }
    assert (x.1 = true → present = Some true → ∃ s b, session = Some s ∧ supports e at_ (Q_AcceptPresence key s) b) as Hx1.
    { subst x. intros H1 H2. rewrite bool_decide_true in H1 by done. destruct session as [s|]; [|done]. apply related_spec in H1 as [b Hb]. eauto. }
    destruct x as [okx e2]. cbn [fst snd] in *.
    assert (engine_inv e2 ∧ trusted e2 = trusted e ∧ bindings e2 = bindings e ∧ own_key e2 = own_key e) as (He2 & Ht2 & Hb2 & Ho2).
    { destruct Hx2 as [l [->| ->]]; [done|]. split; [|done]. by apply (same_tables_inv e). }
    assert (∀ why, why ≠ AD_BoundElsewhere → engine_inv e2 ∧ reg_inv r ∧
      (false = true ↔ why = AD_BoundElsewhere) ∧ (why ≠ AD_Registry → r = r) ∧ discard_table e e2 at_ why) as Hd2.
    { intros why Hw. split_and!; try done. intros y b Hy. left. by rewrite Hb2 in Hy. }
    destruct okx; cbn [negb]; [|by apply Hd2]. destruct (presence_from_json (JObject io)) as [parsed|] eqn:Ep; [|by apply Hd2].
    destruct (presence_members_read io parsed Ep) as (Hm1 & Hm2 & Hm3). rewrite Hm1 in Ef. fold session in Hm2. fold present in Hm3.
    pose proof (presence_from_json_wire _ _ Ep) as Hw. injection Hw as Hw.
    assert (not_contradicted e2 (pn_session_id parsed) key) as Hnc2 by (unfold not_contradicted; rewrite Hb2; by apply Hnc).
    assert (bnd = bindings e2 !! pn_session_id parsed) as Hbnd by (unfold bnd; rewrite Hm2, Hb2; done).
    pose proof (accept_parsed_spec parsed key bnd carrier at_ now e2 r He2 Hr Hnc2 Hbnd) as Hs.
    destruct (accept_parsed parsed key bnd carrier now e2 r) as [[out e'] r']. destruct Hs as (H1 & H2 & H3). split_and!; [done|done|].
    destruct (ao_result out) as [a|why].
    - destruct H3 as (Ha & Hf & Hwd & Hq & Hbs & Hl). split_and!; [done|done|]. exists parsed, entry.
      split; try done; rewrite <- ?Hw; try done.
      + by apply Hnc.
      + intros Hp. destruct (Hx1 eq_refl) as (s & b & Hs & Hb); [rewrite Hm3, Hp; done|]. rewrite Hm2 in Hs. injection Hs as <-. eauto.
      + by rewrite <- Hb2.
    - destruct H3 as (Hf & Hw2 & Hr' & Ht). rewrite Hf. split_and!; [|done|].
      + split; [done|]. by destruct Hw2 as [-> | ->].
      + intros y b Hy. apply Ht in Hy as [Hy|(-> & _)]; [left; by rewrite Hb2 in Hy|by destruct Hw2]. }
  clearbody go. subst bnd. destruct session as [s|] eqn:Es; cbn [mbind option_bind].
  2: { apply Hgo. done. }
  destruct (bindings e !! s) as [[b|ks]|] eqn:Eb.
  - destruct (beq b key) eqn:Ek.
    + apply beq_true in Ek as ->. apply Hgo. intros s' [= <-]. by right.
    + assert (b ≠ key) as Hne by (intros ->; by rewrite beq_refl in Ek).
      cbn [ao_result ao_finding]. destruct (own_sessions e !! s) as [w|] eqn:Eo; cbn [is_some].
      { split_and!; try done. intros x y Hx. by left. }
      pose proof (related_spec at_ key s e) as Hrel. pose proof (related_same at_ key s e) as [Hsame _].
      destruct (related at_ key s e) as [rel e2]. cbn [fst snd] in *. pose proof (same_tables_inv e e2 Hsame He) as He2.
      destruct Hsame as (S1 & S2 & S3 & _). destruct rel.
      * split_and!; try done; [by apply mark_conflict_inv|]. intros x y. unfold mark_conflict. rewrite S2, Eo. cbn [is_some].
        rewrite S3, Eb. cbn [snd bindings set_bindings]. intros [[<- <-]|[_ Hx]]%lookup_insert_Some; [right|by left].
        destruct Hrel as [Hrel _]. destruct (Hrel eq_refl) as [basis Hbasis]. split; [done|]. exists b, key, basis. split_and!; done.
      * split_and!; try done. intros x y. rewrite S3. by left.
  - by apply Hd.
  - apply Hgo. intros s' [= <-]. by left.
Qed.
End Facts.

Section Issue.
Context {C : Crypto} {HC : CryptoLaws C} `{HO : HashOrder}.

Lemma presence_object_get record audience name :
  obj_get (presence_object record audience) name =
  if beq (bs "audience") name then Some (JString audience)
  else if beq (bs "record") name then Some (JObject (pn_wire record)) else None.
Proof. unfold presence_object. by rewrite !obj_get_insert. Qed.

Lemma presence_issue_total d record audience :
  numbers_finite (JObject (pn_wire record)) = true → is_some (presence_issue d record audience) = true.
Proof.
  intros Hf. unfold presence_issue.
  assert (is_some (attach_signature d Dom_Presence (presence_object record audience)) = true) as H.
  { apply attach_total; [by rewrite presence_object_get|]. unfold presence_object. by repeat apply numbers_finite_insert. }
  by destruct (attach_signature _ _ _).
Qed.

(** The payload of an issued record reads back as it is and goes to its audience. *)
Lemma presence_issue_octets d record audience apr :
  device_ok d → wf_json (JObject (pn_wire record)) → KeyId_parse audience = Some audience → presence_issue d record audience = Some apr →
  ∃ p, apr_to_payload apr = Some (Dest_Device audience, p) ∧ pl_kind p = PK_Presence ∧
    (v ← ok (parse (pl_octets p)); apr_from_json v) = Some apr.
Proof.
  intros Hd Hw Ha H. unfold presence_issue in H. apply fmap_Some in H as (w & Hat & ->).
  assert (wf_json (JObject w)) as Hwf.
  { eapply attach_wf; [done| |done]. unfold presence_object.
    apply wf_insert; [apply wf_insert; [apply wf_empty|by apply ascii_bs|done]|by apply ascii_bs|]. by eapply wf_str, key_id_ascii. }
  unfold apr_to_payload, get_str. cbn [apw_wire]. rewrite (attach_members _ _ _ _ _ Hat) by reflexivity. rewrite presence_object_get.
  eval_names. cbn [mbind option_bind as_str]. rewrite Ha. cbn [mbind option_bind]. eexists. split_and!; [reflexivity|done|].
  cbn [pl_octets]. by rewrite to_compact_ref, parse_compact.
Qed.

Lemma issue_accepted d record e r apr carrier at_ now eff :
  device_ok d → ts_entries (trusted e) !! tk_key_id (di_entry d) = Some (di_entry d) →
  presence_from_json (JObject (pn_wire record)) = Ok record → inside_replay_window (pn_issued_at record) at_ = true →
  bindings e !! pn_session_id record = Some (BKey (tk_key_id (di_entry d))) ∨
    (bindings e !! pn_session_id record = None ∧ pn_present record = true) →
  (pn_present record = true → ∃ b, supports e at_ (Q_AcceptPresence (tk_key_id (di_entry d)) (pn_session_id record)) b) →
  (accept_signed record carrier (tk_key_id (di_entry d)) now r).1 = PAccepted eff →
  presence_issue d record (own_key e) = Some apr →
  (accept_authenticated_record apr carrier at_ now e r).1.1 = mkAuthOutcome (Ok (PAccepted eff)) false.
Proof.
  intros Hd Ht Hp Hf Hb Hrel Hacc Hi. unfold presence_issue in Hi. apply fmap_Some in Hi as (w & Hat & ->).
  unfold accept_authenticated_record. cbn [apw_wire]. rewrite !(attach_members _ _ _ _ _ Hat) by reflexivity.
  rewrite !presence_object_get. eval_names.
  unfold verify_signed. rewrite (attach_verifies d Dom_Presence _ w _ Hd) by done. cbn [map_err as_str as_object]. cbv zeta.
  rewrite bool_decide_true by done. cbn [negb].
  destruct (presence_members_read _ _ Hp) as (Hm1 & Hm2 & Hm3). rewrite Hm1, Hf. cbn [negb]. rewrite Hm2, Hm3. cbn [mbind option_bind].
  set (key := tk_key_id (di_entry d)) in *. set (sid := pn_session_id record) in *.
  assert ((if bool_decide (Some (pn_present record) = Some true) then related at_ key sid e else (true, e)).1 = true) as Hok.
  { case_bool_decide as Hpr; [|done]. apply related_spec, Hrel. by injection Hpr. }
  destruct (if bool_decide (Some (pn_present record) = Some true) then _ else _) as [okx e2]. cbn [fst] in Hok. subst okx. cbn [negb].
  rewrite Hp.
  assert (∀ entry, (pn_present record = false → is_some entry = true) →
    (accept_parsed record key entry carrier now e2 r).1.1 = mkAuthOutcome (Ok (PAccepted eff)) false) as Hgo.
  { intros entry Hent. unfold accept_parsed. fold sid.
    replace (match latest_seq r sid with Some q => pn_seq record <=? q | None => false end) with false.
    2: { unfold accept_signed, registry_insert in Hacc. fold sid in Hacc. unfold latest_seq. destruct (rr_held r !! sid) as [h|]; [|done].
         cbn in *. destruct (_ <=? _); done. }
    replace (negb (pn_present record) && negb (is_some entry)) with false.
    2: { destruct (pn_present record); [done|]. by rewrite Hent. }
    destruct (accept_signed record carrier key now r) as [acc r1]. cbn [fst] in Hacc. subst acc. done. }
  destruct Hb as [Hb|[Hb Hpr]]; rewrite Hb; [rewrite beq_refl; by apply Hgo|]. apply Hgo. congruence.
Qed.
End Issue.

(** [C34] A presence record counts only when all of it checks out: at every engine and registry
    their operations reach, a record is accepted only if a trusted key signed it for this
    device, it was issued within the replay window, the binding table gives its session to
    that key or to none, a recorded fact relates an announcement's key to the session, and it
    is newer than the one held; the session is then bound to the key and the record held.  A
    withdrawal never binds.  A discarded record is a finding exactly when the session is bound
    elsewhere, changes the registry only when the registry discarded it, and binds nothing: it
    may only turn an entry into a conflict mark, for a related claimant and never for an own
    session, or drop entries of sessions the registry forgot. *)
Theorem presence_acceptance_sound {C : Crypto} `{HO : HashOrder} {S : Type} (store : PairingStore S) (own : DeviceIdentity) (s : S)
    (ops : list engine_op) (capacity quota : Z) (rops : list registry_op) (record : AuthenticatedPresenceRecord)
    (carrier : CarrierHandle) (at_ : Timestamp) (now : Z) :
  let e := (run_engine_all store own s ops).1 in
  let r := run_registry_all (with_limits capacity quota) rops in
  keyset_inv (trusted e) →
  let '(out, e', r') := accept_authenticated_record record carrier at_ now e r in
  (∀ x, is_Some (own_sessions e' !! x) → bindings e' !! x = Some (BKey (own_key e'))) ∧
  match ao_result out with
  | Ok a => ao_finding out = false ∧ (∃ eff, a = PAccepted eff) ∧ ∃ parsed entry, presence_accepted record at_ e r e' r' parsed entry
  | Err why => (ao_finding out = true ↔ why = AD_BoundElsewhere) ∧ (why ≠ AD_Registry → r' = r) ∧ discard_table e e' at_ why
  end.
Proof.
  intros e r Hk.
  pose proof (accept_record_spec record carrier at_ now e r (run_engine_all_inv store own s ops) (run_registry_all_inv capacity quota rops) Hk) as H.
  destruct (accept_authenticated_record record carrier at_ now e r) as [[out e'] r']. destruct H as ([[Ho _ _] _ _ _ _] & _ & H). done.
Qed.

(** What a related device issues is accepted: a record it issues for this device always
    signs, its payload is addressed to this device and reads back as the same authenticated
    record, and the consumer's checks pass it to the registry, whose answer stands. *)
Theorem presence_issue_accept {C : Crypto} {HC : CryptoLaws C} `{HO : HashOrder} (d : DeviceIdentity) (record : PresenceRecord)
    (e : Engine) (r : PresenceRegistry) (carrier : CarrierHandle) (at_ : Timestamp) (now : Z) (eff : option Z) :
  device_ok d → ts_entries (trusted e) !! tk_key_id (di_entry d) = Some (di_entry d) → KeyId_parse (own_key e) = Some (own_key e) →
  issued_record record → numbers_finite (JObject (pn_wire record)) = true → inside_replay_window (pn_issued_at record) at_ = true →
  bindings e !! pn_session_id record = Some (BKey (tk_key_id (di_entry d))) ∨
    (bindings e !! pn_session_id record = None ∧ pn_present record = true) →
  (pn_present record = true → ∃ b, supports e at_ (Q_AcceptPresence (tk_key_id (di_entry d)) (pn_session_id record)) b) →
  (accept_signed record carrier (tk_key_id (di_entry d)) now r).1 = PAccepted eff →
  ∃ apr p, presence_issue d record (own_key e) = Some apr ∧ apr_to_payload apr = Some (Dest_Device (own_key e), p) ∧
    (v ← ok (parse (pl_octets p)); apr_from_json v) = Some apr ∧
    (accept_authenticated_record apr carrier at_ now e r).1.1 = mkAuthOutcome (Ok (PAccepted eff)) false.
Proof.
  intros Hd Ht Hk Hiss Hfin Hf Hb Hrel Hacc. destruct (issued_wf record Hiss) as [Hwf Hp].
  pose proof (presence_issue_total d record (own_key e) Hfin) as Htot. destruct (presence_issue d record (own_key e)) as [apr|] eqn:E; [|done].
  destruct (presence_issue_octets d record (own_key e) apr Hd Hwf Hk E) as (p & Hp1 & _ & Hp2).
  exists apr, p. split_and!; [done|done|done|]. by eapply (issue_accepted d record e r apr).
Qed.

(** A device whose engine has one session bound to its own key, and that session's withdrawal. *)
Definition sample_withdrawal : PresenceRecord :=
  mkPresence sample_session 0 sample_time Withdrawal (presence_header sample_session 0 false sample_time).
Definition sample_holder : DeviceIdentity := sample_device "alice" 1.
Definition sample_holding : Engine * (PairingSnapshot * bool) :=
  run_engine_all (C := sample_pair) MemoryPairingStore sample_holder (snapshot (Engine_new sample_holder), false)
    [EBind sample_session (tk_key_id (di_entry sample_holder))].

Lemma sample_holding_facts :
  ts_entries (trusted sample_holding.1) !! tk_key_id (di_entry sample_holder) = Some (di_entry sample_holder) ∧
  bindings sample_holding.1 !! sample_session = Some (BKey (tk_key_id (di_entry sample_holder))).
Proof. split; [apply lookup_singleton_eq|]. cbn. apply lookup_insert_eq. Defined.

Lemma presence_issue_accept_witness :
  ∃ apr p, presence_issue (C := sample_pair) sample_holder sample_withdrawal (own_key sample_holding.1) = Some apr ∧
    apr_to_payload apr = Some (Dest_Device (own_key sample_holding.1), p) ∧
    (v ← ok (parse (pl_octets p)); apr_from_json v) = Some apr ∧
    (accept_authenticated_record (C := sample_pair) (HO := list_order) apr [] sample_time 0 sample_holding.1 (with_limits 4 4)).1.1 =
      mkAuthOutcome (Ok (PAccepted None)) false.
Proof.
  destruct sample_holding_facts as [H1 H2].
  apply (presence_issue_accept (C := sample_pair) (HC := sample_pair_laws) (HO := list_order) sample_holder sample_withdrawal
    sample_holding.1 (with_limits 4 4) [] sample_time 0 None).
  - apply sample_device_ok. reflexivity.
  - exact H1.
  - vm_compute. reflexivity.
  - apply (issued_withdrawal sample_session 0 sample_time); [vm_compute; reflexivity|lia|vm_compute; reflexivity|vm_compute; reflexivity].
  - vm_compute. reflexivity.
  - vm_compute. reflexivity.
  - left. exact H2.
  - intros H. discriminate H.
  - vm_compute. reflexivity.
Defined.

Lemma presence_acceptance_sound_witness :
  ∃ apr parsed entry e' r',
    presence_accepted (C := sample_pair) apr sample_time sample_holding.1 (run_registry_all (HO := list_order) (with_limits 4 4) []) e' r' parsed entry.
Proof.
  destruct sample_holding_facts as [H1 H2].
  destruct (presence_issue (C := sample_pair) sample_holder sample_withdrawal (own_key sample_holding.1)) as [apr|] eqn:E.
  2: { exfalso. revert E. vm_compute. discriminate. }
  assert ((accept_authenticated_record (C := sample_pair) (HO := list_order) apr [] sample_time 0 sample_holding.1 (with_limits 4 4)).1.1 =
      mkAuthOutcome (Ok (PAccepted None)) false) as Ha.
  { apply (issue_accepted (C := sample_pair) (HC := sample_pair_laws) (HO := list_order) sample_holder sample_withdrawal).
    - apply sample_device_ok. reflexivity.
    - exact H1.
    - vm_compute. reflexivity.
    - vm_compute. reflexivity.
    - left. exact H2.
    - intros H. discriminate H.
    - vm_compute. reflexivity.
    - exact E. }
  pose proof (presence_acceptance_sound (C := sample_pair) (HO := list_order) MemoryPairingStore sample_holder
    (snapshot (Engine_new sample_holder), false) [EBind sample_session (tk_key_id (di_entry sample_holder))] 4 4 [] apr [] sample_time 0) as H.
  cbv zeta in H. fold sample_holding in H. specialize (H ltac:(apply keyset_new_inv; split; [reflexivity|vm_compute; reflexivity])).
  change (run_registry_all (HO := list_order) (with_limits 4 4) []) with (with_limits 4 4) in *.
  destruct (accept_authenticated_record (C := sample_pair) (HO := list_order) apr [] sample_time 0 sample_holding.1 (with_limits 4 4)) as [[out e'] r'].
  cbn [fst] in Ha. subst out. destruct H as (_ & _ & _ & parsed & entry & H). exists apr, parsed, entry, e', r'. exact H.
Defined.
