(* ===== verification/ReceiptAuth.v ===== *)
(** * Receipts between implementations ([core/src/receipt_auth.rs])

    Issuing an authenticated receipt, and the checks a sending implementation makes before it
    holds a receiver-observed state. *)

From S2P Require Import Prelude Ordered Base64url Ids Utf8 Json JsonFacts JsonReader JsonText.
From S2P Require Import Delivery Canonical Envelope EnvelopeFacts Keys Trust Signing Replay Receipt Reply Receiver Sender.
From S2P Require Import SignedObject Agreement Pairing PairingFacts Registration RecordBook.
From S2P Require Import Bindings Authorization AuthorizationFacts AuthorizationSpec Transport.

Record AuthenticatedReceipt := mkAuthReceipt { aw_wire : JsonObject }.

Inductive ReceiptDiscard : Type :=
| RD_Malformed | RD_InvalidReceipt | RD_Signature | RD_NotSent | RD_WrongReceiver | RD_NotReceiver.

Definition ar_from_json (v : Json) : option AuthenticatedReceipt := mkAuthReceipt <$> as_object v.

Definition ar_to_payload (ar : AuthenticatedReceipt) (sender_device : KeyId) : Destination * Payload :=
  (Dest_Device sender_device, mkPayload PK_Receipt (to_compact (JObject (aw_wire ar)))).

(** The object [issue] signs. *)
Definition receipt_object (receipt : DeliveryReceipt) (env : Envelope) : JsonObject :=
  let o := obj_insert [] (bs "receipt") (JObject (rc_wire receipt)) in
  let o := obj_insert o (bs "envelope_to") (JString (env_to env)) in
  obj_insert o (bs "envelope_nonce") (JString (sm_nonce (env_security env))).

Section ReceiptAuth.
Context `{C : Crypto}.

(** [AuthenticatedReceipt::issue]; [None] is its [expect]. *)
Definition receipt_issue (d : DeviceIdentity) (receipt : DeliveryReceipt) (env : Envelope) : option AuthenticatedReceipt :=
  mkAuthReceipt <$> attach_signature d Dom_Receipt (receipt_object receipt env).

Definition accept_receipt (ar : AuthenticatedReceipt) (e : Engine) : result ReceiptDiscard ObservedReceipt :=
  let o := aw_wire ar in
  match obj_get o (bs "receipt"), get_str o (bs "envelope_to"), get_str o (bs "envelope_nonce") with
  | Some inner, Some to, Some nonce =>
      receipt ← map_err (λ _, RD_InvalidReceipt) (receipt_from_json inner);
      key ← (match verify_signed (trusted e) Dom_Receipt o with
             | Ok entry => Ok (tk_key_id entry)
             | Err MalformedSecurity => Err RD_Malformed
             | Err _ => Err RD_Signature
             end);
      let sent :=
        match SessionId_parse (rc_envelope_from receipt) with
        | Some from =>
            existsb (λ r, beq (sn_id r) (rc_envelope_id receipt) && beq (sn_from r) (rc_envelope_from receipt) &&
                          beq (sn_to r) to && bool_decide (sn_nonce r = Some nonce)) (sent_records_from e from)
        | None => false
        end in
      if negb sent then Err RD_NotSent
      else
        let bound := sid ← SessionId_parse to; bindings e !! sid in
        if negb (bool_decide (bound = Some (BKey key))) then Err RD_WrongReceiver
        else if negb (bool_decide (rc_observer receipt = O_Receiver)) then Err RD_NotReceiver
        else Ok (mkObserved receipt)
  | _, _, _ => Err RD_Malformed
  end.
End ReceiptAuth.

(** ** Facts *)

Lemma receipt_object_get r env name :
  obj_get (receipt_object r env) name =
  if beq (bs "envelope_nonce") name then Some (JString (sm_nonce (env_security env)))
  else if beq (bs "envelope_to") name then Some (JString (env_to env))
  else if beq (bs "receipt") name then Some (JObject (rc_wire r)) else None.
Proof. unfold receipt_object. by rewrite !obj_get_insert. Qed.

Lemma receipt_numbers id from st o e at_ : numbers_finite (JObject (receipt_wire id from st o e at_)) = true.
Proof.
  unfold receipt_wire. repeat apply numbers_finite_insert; try done. destruct e; [|by repeat apply numbers_finite_insert].
  cbn [fmap option_fmap option_map insert_opt]. by repeat apply numbers_finite_insert.
Qed.

Section Facts.
Context {C : Crypto}.

(** What an accepted receipt rests on. *)
Lemma accept_receipt_Ok ar e ob :
  keyset_inv (trusted e) → accept_receipt ar e = Ok ob →
  rc_observer (ob_receipt ob) = O_Receiver ∧
  obj_get (aw_wire ar) (bs "receipt") = Some (JObject (rc_wire (ob_receipt ob))) ∧
  ∃ entry record, verified_under (trusted e) Dom_Receipt (aw_wire ar) entry ∧
    record ∈ sent_records_from e (rc_envelope_from (ob_receipt ob)) ∧
    sn_id record = rc_envelope_id (ob_receipt ob) ∧ sn_from record = rc_envelope_from (ob_receipt ob) ∧
    get_str (aw_wire ar) (bs "envelope_to") = Some (sn_to record) ∧
    get_str (aw_wire ar) (bs "envelope_nonce") = sn_nonce record ∧
    bindings e !! sn_to record = Some (BKey (tk_key_id entry)).
Proof.
  intros Hk H. unfold accept_receipt in H. destruct (obj_get (aw_wire ar) (bs "receipt")) as [inner|] eqn:Ei; [|done].
  destruct (get_str (aw_wire ar) (bs "envelope_to")) as [to|] eqn:Et; [|done].
  destruct (get_str (aw_wire ar) (bs "envelope_nonce")) as [nonce|] eqn:En; [|done].
  destruct (receipt_from_json inner) as [r|] eqn:Er; [|done]. cbn [map_err mbind result_bind] in H.
  unfold verify_signed in H. destruct (verify_with_requirement (trusted e) Dom_Receipt (aw_wire ar)) as [entry|[[] ?]] eqn:Ev; try done.
  cbn [map_err mbind result_bind] in H. destruct (SessionId_parse (rc_envelope_from r)) as [from|] eqn:Ef; [|done].
  destruct (existsb _ _) eqn:Ex; [|done]. cbn [negb] in H. case_bool_decide as Hb; [|done]. cbn [negb] in H.
  case_bool_decide as Ho; [|done]. cbn [negb] in H. injection H as <-. cbn [ob_receipt].
  apply from_json_Ok in Er as (-> & _). split_and!; [done|done|]. apply existsb_exists in Ex as (x & Hx & Hc). bool_hyps.
  apply list_elem_of_In in Hx. unfold SessionId_parse, then_some in Ef, Hb. destruct (is_session_id (rc_envelope_from r)); [|done]. injection Ef as <-.
  destruct (is_session_id to); [|done]. cbn [mbind option_bind] in Hb.
  repeat match goal with H : beq _ _ = true |- _ => apply beq_true in H | H : bool_decide _ = true |- _ => apply bool_decide_eq_true in H end.
  exists entry, x. split_and!; try done; try congruence. by apply verify_Ok.
Qed.

Context {HC : CryptoLaws C}.

(** The receipts a receiver reports always sign. *)
Lemma issue_total d env id from st e at_ r :
  DeliveryReceipt_new id from st O_Receiver e at_ = Ok r → is_some (receipt_issue d r env) = true.
Proof.
  intros Hr. unfold receipt_issue. assert (is_some (attach_signature d Dom_Receipt (receipt_object r env)) = true) as H.
  { apply attach_total; [by rewrite receipt_object_get|]. unfold receipt_object. repeat apply numbers_finite_insert; try done.
    rewrite new_Ok in Hr by (by eapply new_fits). injection Hr as <-. apply receipt_numbers. }
  by destruct (attach_signature _ _ _).
Qed.

(** A receipt issued for an envelope the engine recorded as sent, by the device the
    destination is bound to. *)
Lemma issue_accept d e env st err at_ r ar record :
  device_ok d → ts_entries (trusted e) !! tk_key_id (di_entry d) = Some (di_entry d) →
  receipt_args (env_id env) (env_from env) at_ → is_session_id (env_from env) = true → is_session_id (env_to env) = true →
  DeliveryReceipt_new (env_id env) (env_from env) st O_Receiver err at_ = Ok r →
  record ∈ sent_records_from e (env_from env) → record = SentRecord_of env (tk_key_id (di_entry d)) →
  bindings e !! env_to env = Some (BKey (tk_key_id (di_entry d))) →
  receipt_issue d r env = Some ar → accept_receipt ar e = Ok (mkObserved r).
Proof.
  intros Hd Ht Ha Hf Hto Hr Hrec Heq Hb Hi. unfold receipt_issue in Hi. apply fmap_Some in Hi as (w & Hw & ->).
  pose proof (new_fits _ _ _ _ _ _ _ Hr) as Hfit. rewrite new_Ok in Hr by done. injection Hr as <-.
  unfold accept_receipt, get_str. cbn [aw_wire].
  rewrite !(attach_members _ _ _ _ _ Hw) by reflexivity. rewrite !receipt_object_get.
  repeat match goal with |- context [beq ?a ?b] => let x := eval vm_compute in (beq a b) in progress change (beq a b) with x end.
  cbn [mbind option_bind as_str rc_wire]. rewrite from_json_wire by done. cbn [map_err mbind result_bind].
  unfold verify_signed. rewrite (attach_verifies d Dom_Receipt _ w _ Hd) by done. cbn [map_err mbind result_bind].
  cbn [rc_envelope_from rc_envelope_id rc_observer]. unfold SessionId_parse, then_some. rewrite Hf, Hto.
  replace (existsb _ _) with true.
  2: { symmetry. apply existsb_exists. exists record. split; [by apply list_elem_of_In|]. subst record. cbn.
       by rewrite !beq_refl, bool_decide_true. }
  cbn [negb mbind option_bind]. rewrite Hb. by rewrite bool_decide_true, bool_decide_true.
Qed.

(** Its payload reads back. *)
Lemma issue_octets d env id from st err at_ r ar k :
  device_ok d → receipt_args id from at_ → is_session_id (env_to env) = true → ascii (sm_nonce (env_security env)) →
  DeliveryReceipt_new id from st O_Receiver err at_ = Ok r → receipt_issue d r env = Some ar →
  (v ← ok (parse (pl_octets (ar_to_payload ar k).2)); ar_from_json v) = Some ar.
Proof.
  intros Hd Ha Hto Hn Hr Hi. unfold receipt_issue in Hi. apply fmap_Some in Hi as (w & Hw & ->).
  rewrite new_Ok in Hr by (by eapply new_fits). injection Hr as <-.
  assert (wf_json (JObject w)) as Hwf.
  { eapply attach_wf; [done| |done]. unfold receipt_object. 
    apply wf_insert; [apply wf_insert; [apply wf_insert; [apply wf_empty|by apply ascii_bs|]|by apply ascii_bs|]|by apply ascii_bs|].
    - by apply receipt_wire_wf.
    - by apply wf_str, session_id_ascii.
    - by apply wf_str. }
  unfold ar_to_payload. cbn [snd pl_octets aw_wire]. rewrite to_compact_ref, parse_compact by done. done.
Qed.
End Facts.

(** A receiver's report reaches the sender whole: the receipt a receiver builds for an
    envelope always signs, its payload reads back as the same authenticated receipt, and an
    engine that recorded the envelope as sent, trusts the device and has the destination
    bound to its key accepts it as exactly the receipt that was built. *)
Theorem receipt_issue_accept {C : Crypto} {HC : CryptoLaws C} (d : DeviceIdentity) (e : Engine) (env : Envelope)
    (st : DeliveryState) (err : option ErrorCode) (at_ : Timestamp) (r : DeliveryReceipt) (k : KeyId) :
  device_ok d → ts_entries (trusted e) !! tk_key_id (di_entry d) = Some (di_entry d) →
  receipt_args (env_id env) (env_from env) at_ → is_session_id (env_from env) = true → is_session_id (env_to env) = true →
  ascii (sm_nonce (env_security env)) →
  DeliveryReceipt_new (env_id env) (env_from env) st O_Receiver err at_ = Ok r →
  SentRecord_of env (tk_key_id (di_entry d)) ∈ sent_records_from e (env_from env) →
  bindings e !! env_to env = Some (BKey (tk_key_id (di_entry d))) →
  ∃ ar, receipt_issue d r env = Some ar ∧
    (v ← ok (parse (pl_octets (ar_to_payload ar k).2)); ar_from_json v) = Some ar ∧
    accept_receipt ar e = Ok (mkObserved r).
Proof.
  intros Hd Ht Ha Hf Hto Hn Hr Hrec Hb. pose proof (issue_total d env _ _ _ _ _ _ Hr) as Hi.
  destruct (receipt_issue d r env) as [ar|] eqn:E; [|done]. exists ar. split_and!; [done| |].
  - by eapply issue_octets.
  - by eapply issue_accept.
Qed.

(** [C35] An accepted receipt has passed the five checks of [SEC-RCT-003]: it was signed by a
    trusted key, reports a receiver's observation, is about an envelope this engine recorded
    as sent, with its destination and nonce, and that destination is bound, when the receipt
    is accepted, to the signing key and under no conflict.  The key the destination was bound
    to when the envelope was sent, which the record keeps, is not compared. *)
Theorem accepted_receipt_sound {C : Crypto} (ar : AuthenticatedReceipt) (e : Engine) (ob : ObservedReceipt) :
  keyset_inv (trusted e) → accept_receipt ar e = Ok ob →
  rc_observer (ob_receipt ob) = O_Receiver ∧
  obj_get (aw_wire ar) (bs "receipt") = Some (JObject (rc_wire (ob_receipt ob))) ∧
  ∃ entry record, verified_under (trusted e) Dom_Receipt (aw_wire ar) entry ∧
    record ∈ sent_records_from e (rc_envelope_from (ob_receipt ob)) ∧
    sn_id record = rc_envelope_id (ob_receipt ob) ∧ sn_from record = rc_envelope_from (ob_receipt ob) ∧
    get_str (aw_wire ar) (bs "envelope_to") = Some (sn_to record) ∧
    get_str (aw_wire ar) (bs "envelope_nonce") = sn_nonce record ∧
    bindings e !! sn_to record = Some (BKey (tk_key_id entry)).
Proof. apply accept_receipt_Ok. Qed.

(** A device's engine that recorded one envelope to a session bound to its own key. *)
Definition sample_receiver : DeviceIdentity := sample_device "alice" 1.
Definition sample_record : SentRecord := SentRecord_of sample_envelope (tk_key_id (di_entry sample_receiver)).
Definition sample_engine : Engine :=
  let e := Engine_new sample_receiver in
  set_sent (mkBook {[ env_from sample_envelope := mkPartition [sample_record] 0 ]} ∅ ∅ (mkSenders false ∅ []) 1 MAX_RECORD_PARTITIONS)
    (set_bindings {[ env_to sample_envelope := BKey (tk_key_id (di_entry sample_receiver)) ]} (envelope_bound e) e).
Definition sample_report : DeliveryReceipt :=
  mkReceipt (env_id sample_envelope) (env_from sample_envelope) D_HandedToHarness O_Receiver None sample_time
    (receipt_wire (env_id sample_envelope) (env_from sample_envelope) D_HandedToHarness O_Receiver None sample_time).

Lemma sample_engine_facts :
  ts_entries (trusted sample_engine) !! tk_key_id (di_entry sample_receiver) = Some (di_entry sample_receiver) ∧
  sample_record ∈ sent_records_from sample_engine (env_from sample_envelope) ∧
  bindings sample_engine !! env_to sample_envelope = Some (BKey (tk_key_id (di_entry sample_receiver))).
Proof.
  split_and!.
  - apply lookup_singleton_eq.
  - unfold sent_records_from, partition, sample_engine. cbn [sent set_sent parts]. rewrite lookup_singleton_eq. left.
  - apply lookup_singleton_eq.
Defined.

Lemma receipt_issue_accept_witness :
  ∃ ar, receipt_issue (C := sample_pair) sample_receiver sample_report sample_envelope = Some ar ∧
    (v ← ok (parse (pl_octets (ar_to_payload ar []).2)); ar_from_json v) = Some ar ∧
    accept_receipt (C := sample_pair) ar sample_engine = Ok (mkObserved sample_report).
Proof.
  destruct sample_engine_facts as (H1 & H2 & H3).
  apply (receipt_issue_accept (C := sample_pair) (HC := sample_pair_laws) sample_receiver sample_engine sample_envelope
    D_HandedToHarness None sample_time sample_report []).
  - apply sample_device_ok. reflexivity.
  - exact H1.
  - split_and!; vm_compute; reflexivity.
  - vm_compute. reflexivity.
  - vm_compute. reflexivity.
  - apply ascii_const. vm_compute. reflexivity.
  - reflexivity.
  - exact H2.
  - exact H3.
Defined.

Lemma accepted_receipt_sound_witness :
  ∃ ar, accept_receipt (C := sample_pair) ar sample_engine = Ok (mkObserved sample_report) ∧
    ∃ entry record, verified_under (C := sample_pair) (trusted sample_engine) Dom_Receipt (aw_wire ar) entry ∧
      bindings sample_engine !! sn_to record = Some (BKey (tk_key_id entry)).
Proof.
  destruct sample_engine_facts as (H1 & H2 & H3).
  destruct (receipt_issue (C := sample_pair) sample_receiver sample_report sample_envelope) as [ar|] eqn:E.
  2: { exfalso. revert E. vm_compute. discriminate. }
  assert (accept_receipt (C := sample_pair) ar sample_engine = Ok (mkObserved sample_report)) as Ha.
  { apply (issue_accept (C := sample_pair) (HC := sample_pair_laws) sample_receiver sample_engine sample_envelope
      D_HandedToHarness None sample_time sample_report ar sample_record).
    - apply sample_device_ok. reflexivity.
    - exact H1.
    - split_and!; vm_compute; reflexivity.
    - vm_compute. reflexivity.
    - vm_compute. reflexivity.
    - reflexivity.
    - exact H2.
    - reflexivity.
    - exact H3.
    - exact E. }
  exists ar. split; [exact Ha|].
  destruct (accepted_receipt_sound (C := sample_pair) ar sample_engine (mkObserved sample_report)) as (_ & _ & entry & record & Hv & _ & _ & _ & _ & _ & Hb).
  - apply keyset_new_inv. split; [reflexivity|vm_compute; reflexivity].
  - exact Ha.
  - exists entry, record. split; [exact Hv|exact Hb].
Defined.
