(* ===== verification/Sealing.v ===== *)
(** * Sealed frames ([core/src/sealing.rs])

    The frame a payload travels in: its padding, how it is sealed to an agreement key and
    opened with the private one, and the recipient an opened payload names.  The [hpke] crate
    is the class [Hpke]; the plaintext and frame layouts (Tables 14.1 and 14.2 of the security
    specification) are built and checked here. *)

From S2P Require Import Prelude Base64url Ids Json Canonical Envelope EnvelopeFacts Keys Trust Signing Replay Receipt Reply Receiver SignedObject.
From S2P Require Import Agreement Pairing Sender RecordBook Bindings Authorization AuthorizationFacts Transport Presence Registry PresenceAuth.
From S2P Require Import ReceiptAuth.

(** ** The [hpke] crate

    Keys, encapsulated keys and tags are held as their octets.  [hpke_seal] is
    [single_shot_seal_in_place_detached] in base mode with the randomness it draws as its
    first argument; it gives the encapsulated key, the ciphertext and the tag. *)
Class Hpke := {
  (** [PrivateKey::from_bytes], [sk_to_pk(..).to_bytes()], [PublicKey::from_bytes] *)
  hpke_private : list Z → option (list Z);
  hpke_public_of : list Z → list Z;
  hpke_public : list Z → option (list Z);
  (** [EncappedKey::from_bytes] and [AeadTag::from_bytes] *)
  hpke_encapped : list Z → option (list Z);
  hpke_tag : list Z → option (list Z);
  hpke_seal : list Z → list Z → list Z → list Z → list Z → option (list Z * list Z * list Z);
  hpke_open : list Z → list Z → list Z → list Z → list Z → list Z → option (list Z) }.

Definition SEAL_INFO : list Z := bs "oac-seal-v1".
Definition FRAME_VERSION : Z := 1.
Definition ENC_LEN : Z := 32.
Definition TAG_LEN : Z := 16.
Definition PLAINTEXT_HEADER : Z := 5.
Definition FRAME_OVERHEAD : Z := 1 + ENC_LEN + PLAINTEXT_HEADER + TAG_LEN.
Definition PADDING_BLOCK : Z := 256.

(** [usize::checked_add] and [usize::checked_mul] on a 64-bit target. *)
Definition checked (n : Z) : option Z := then_some (n <=? U64_MAX) n.

Definition kind_octet (kind : PayloadKind) : option Z :=
  match kind with
  | PK_Envelope => Some 1
  | PK_Presence => Some 2
  | PK_Receipt => Some 3
  | PK_Sealed => None
  end.

Definition kind_of (octet : Z) : option PayloadKind :=
  if octet =? 1 then Some PK_Envelope
  else if octet =? 2 then Some PK_Presence
  else if octet =? 3 then Some PK_Receipt
  else None.

Inductive SealError : Type := SE_NotSealable | SE_TooLarge | SE_Hpke.

(** [padding_for]; [None <= Some _] in Rust's order of options, so an overflowing frame
    length would count as one that fits. *)
Definition padding_for (payload_len max_frame_octets : Z) : option Z :=
  plain ← checked (payload_len + PLAINTEXT_HEADER);
  let fits p := match checked (p + (1 + ENC_LEN + TAG_LEN)) with Some f => f <=? max_frame_octets | None => true end in
  padded ← checked ((plain + PADDING_BLOCK - 1) / PADDING_BLOCK * PADDING_BLOCK);
  if fits padded then Some (padded - plain)
  else if fits plain then Some 0
  else None.

Record Opened := mkOpened { op_kind : PayloadKind; op_payload : list Z }.

(** The plaintext of Table 14.1. *)
Definition plaintext (k : Z) (payload : list Z) (padding : Z) : list Z :=
  k :: be_digits 256 4 (Z.of_nat (length payload)) ++ payload ++ replicate (Z.to_nat padding) 0.

Section Frames.
Context `{H : Hpke}.

Definition public_of (octets : list Z) : option (list Z * list Z) :=
  sk ← hpke_private octets; Some (sk, hpke_public_of sk).

Definition seal_padded (rnd : list Z) (recipient : AgreementPublicKey) (kind : PayloadKind) (payload : list Z) (padding : Z)
    : result SealError (list Z) :=
  k ← ok_or (kind_octet kind) SE_NotSealable;
  _ ← (if Z.of_nat (length payload) <=? U32_MAX then Ok tt else Err SE_TooLarge);
  _ ← ok_or (n ← checked (Z.of_nat (length payload) + PLAINTEXT_HEADER); checked (n + padding)) SE_TooLarge;
  let buf := plaintext k payload padding in
  pk ← ok_or (hpke_public (ak_octets recipient)) SE_Hpke;
  '(enc, ct, tag) ← ok_or (hpke_seal rnd pk SEAL_INFO buf []) SE_Hpke;
  Ok (FRAME_VERSION :: enc ++ ct ++ tag).

Definition seal (rnd : list Z) (recipient : AgreementPublicKey) (kind : PayloadKind) (payload : list Z) (max_frame_octets : Z)
    : result SealError (list Z) :=
  padding ← ok_or (padding_for (Z.of_nat (length payload)) max_frame_octets) SE_TooLarge;
  seal_padded rnd recipient kind payload padding.

(** [open_under]: the index operations on [pt] cannot fail, since it has at least
    [PLAINTEXT_HEADER] octets, as many as the ciphertext. *)
Definition open_under (sk frame : list Z) : option Opened :=
  if (Z.of_nat (length frame) <? FRAME_OVERHEAD) || negb (default 0 (head frame) =? FRAME_VERSION) then None
  else
    enc ← hpke_encapped (slice 1 33 frame);
    let body := drop 33 frame in
    let ct := take (length body - 16) body in
    tag ← hpke_tag (drop (length body - 16) body);
    pt ← hpke_open sk enc SEAL_INFO ct [] tag;
    kind ← kind_of (default 0 (head pt));
    let l := be_value 256 (slice 1 5 pt) in
    if Z.of_nat (length pt) - PLAINTEXT_HEADER <? l then None
    else
      let end_ := (5 + Z.to_nat l)%nat in
      if negb (foldl Z.lor 0 (drop end_ pt) =? 0) then None
      else Some (mkOpened kind (slice 5 end_ pt)).

(** [open] with one private key. *)
Definition open_frame (key frame : list Z) : option Opened :=
  '(sk, _) ← public_of key; open_under sk frame.
End Frames.

(** ** The recipient an opened payload names *)

Inductive Recipient : Type := Rc_Own | Rc_Another | Rc_Unnamed.

Definition sent_record_for_receipt (octets : list Z) (e : Engine) : option SentRecord :=
  parsed ← ok (parse octets);
  o ← as_object parsed;
  inner ← (v ← obj_get o (bs "receipt"); as_object v);
  id ← get_str inner (bs "envelope_id");
  from ← get_str inner (bs "envelope_from");
  to ← get_str o (bs "envelope_to");
  nonce ← get_str o (bs "envelope_nonce");
  from ← SessionId_parse from;
  List.find (λ r, beq (sn_id r) id && beq (sn_to r) to && bool_decide (sn_nonce r = Some nonce)) (sent_records_from e from).

Definition recipient_of (kind : PayloadKind) (octets : list Z) (e : Engine) : Recipient :=
  let named (read : JsonObject → option (list Z)) :=
    match (parsed ← ok (parse octets); as_object parsed) with
    | None => Rc_Unnamed
    | Some o =>
        match read o with
        | Some k => if beq k (own_key e) then Rc_Own else Rc_Another
        | None => Rc_Unnamed
        end
    end in
  match kind with
  | PK_Receipt => if is_some (sent_record_for_receipt octets e) then Rc_Own else Rc_Another
  | PK_Envelope =>
      named (λ o, to ← (s ← get_str o (bs "to"); SessionId_parse s);
                  match bindings e !! to with Some (BKey k) => Some k | _ => None end)
  | PK_Presence => named (λ o, get_str o (bs "audience"))
  | PK_Sealed => Rc_Unnamed
  end.

(** ** What the crate promises

    RFC 9180: what was sealed to a key's public part opens with its private part, to the same
    octets; ciphertexts are as long as their plaintexts, encapsulated keys have 32 octets and
    tags 16, and both read back.  RFC 7748, section 6.1: the shared secret is zero only for a
    public key of small order, so sealing to an acceptable key does not fail. *)
Class HpkeLaws (H : Hpke) : Prop := {
  hpke_private_32 k : length k = 32%nat → is_Some (hpke_private k);
  hpke_public_32 sk : length (hpke_public_of sk) = 32%nat ∧ Forall is_u8 (hpke_public_of sk);
  hpke_seal_ok rnd key info pt aad :
    length key = 32%nat → Forall is_u8 key → Forall is_u8 pt → is_acceptable_agreement_key key = true →
    ∃ pk enc ct tag, hpke_public key = Some pk ∧ hpke_seal rnd pk info pt aad = Some (enc, ct, tag);
  hpke_seal_form rnd pk info pt aad enc ct tag :
    hpke_seal rnd pk info pt aad = Some (enc, ct, tag) →
    length enc = 32%nat ∧ length ct = length pt ∧ length tag = 16%nat ∧
    is_Some (hpke_encapped enc) ∧ is_Some (hpke_tag tag);
  hpke_open_seal rnd sk pk info pt aad enc ct tag enc' tag' :
    Forall is_u8 pt → hpke_public (hpke_public_of sk) = Some pk → hpke_seal rnd pk info pt aad = Some (enc, ct, tag) →
    hpke_encapped enc = Some enc' → hpke_tag tag = Some tag' →
    hpke_open sk enc' info ct aad tag' = Some pt;
  hpke_open_form sk enc info ct aad tag pt :
    hpke_open sk enc info ct aad tag = Some pt → length pt = length ct ∧ Forall is_u8 pt }.

(** ** Facts about sealed frames

    Opening accepts exactly the frames of Table 14.2 whose plaintext is that of Table 14.1,
    and what is sealed within a transport's limit fits it and opens to the same payload. *)

(** ** Kinds, padding and the plaintext *)

Lemma kind_octet_of k x : kind_octet k = Some x ↔ kind_of x = Some k.
Proof.
  unfold kind_of. split.
  - destruct k; intros [= <-]; done.
  - repeat case_match; bool_hyps; intros [= <-]; simpl; congruence.
Qed.

Lemma kind_octet_u8 k x : kind_octet k = Some x → is_u8 x.
Proof. unfold is_u8. destruct k; intros [= <-]; lia. Qed.

(** The plaintext rounded up to whole blocks. *)
Definition padded_len (plain : Z) : Z := (plain + PADDING_BLOCK - 1) / PADDING_BLOCK * PADDING_BLOCK.

Lemma padded_len_spec plain :
  plain ≤ padded_len plain < plain + PADDING_BLOCK ∧ padded_len plain mod PADDING_BLOCK = 0.
Proof. unfold padded_len, PADDING_BLOCK. rewrite Z.mod_mul by lia. dlia. Qed.

Lemma padding_for_spec len max :
  0 ≤ len ≤ U32_MAX →
  padding_for len max =
    let plain := len + PLAINTEXT_HEADER in
    if padded_len plain + (1 + ENC_LEN + TAG_LEN) <=? max then Some (padded_len plain - plain)
    else if plain + (1 + ENC_LEN + TAG_LEN) <=? max then Some 0
    else None.
Proof.
  intros Hl. pose proof (padded_len_spec (len + PLAINTEXT_HEADER)) as [Hp _].
  assert (∀ n, n ≤ U32_MAX + 1000 → checked n = Some n) as Hc.
  { intros n Hn. unfold checked, then_some. assert (n <=? U64_MAX = true) as -> by (unfold U64_MAX, U32_MAX in *; lia). done. }
  unfold PLAINTEXT_HEADER, ENC_LEN, TAG_LEN, PADDING_BLOCK in *.
  unfold padding_for. fold (padded_len (len + 5)). unfold PLAINTEXT_HEADER, ENC_LEN, TAG_LEN.
  rewrite (Hc (len + 5)) by lia. cbn [mbind option_bind].
  change ((len + 5 + PADDING_BLOCK - 1) / PADDING_BLOCK * PADDING_BLOCK) with (padded_len (len + 5)).
  rewrite (Hc (padded_len (len + 5))) by lia. cbn [mbind option_bind]. rewrite !Hc by lia. done.
Qed.

Lemma length_plaintext k payload padding :
  0 ≤ padding → Z.of_nat (length (plaintext k payload padding)) = PLAINTEXT_HEADER + Z.of_nat (length payload) + padding.
Proof.
  intros Hp. unfold plaintext. cbn [length]. rewrite !length_app, length_be_digits, length_replicate. unfold PLAINTEXT_HEADER. lia.
Qed.

Lemma plaintext_u8 k payload padding : is_u8 k → Forall is_u8 payload → Forall is_u8 (plaintext k payload padding).
Proof.
  intros Hk Hp. unfold plaintext. constructor; [done|]. rewrite !Forall_app. split_and!; [by apply be_digits_bound|done|].
  apply Forall_replicate. unfold is_u8. lia.
Qed.

(** The bitwise "or" of octets is zero exactly when all are. *)
Lemma fold_lor_zero l a : foldl Z.lor a l = 0 ↔ a = 0 ∧ Forall (Z.eq 0) l.
Proof.
  revert a. induction l as [|x l IH]; intros a; cbn [foldl]; [rewrite Forall_nil; tauto|].
  rewrite IH, Forall_cons, Z.lor_eq_0_iff. intuition congruence.
Qed.

Lemma zeros_replicate l : Forall (Z.eq 0) l ↔ l = replicate (length l) 0.
Proof.
  split.
  - induction 1 as [|x l Hx _ IH]; [done|]. simpl. rewrite <- IH. by rewrite <- Hx.
  - intros Hl. rewrite Hl. by apply Forall_replicate.
Qed.

(** ** Reading the plaintext *)

(** What [open_under] does with the decrypted octets. *)
Definition read_plaintext (pt : list Z) : option Opened :=
  kind ← kind_of (default 0 (head pt));
  let l := be_value 256 (slice 1 5 pt) in
  if Z.of_nat (length pt) - PLAINTEXT_HEADER <? l then None
  else
    let end_ := (5 + Z.to_nat l)%nat in
    if negb (foldl Z.lor 0 (drop end_ pt) =? 0) then None
    else Some (mkOpened kind (slice 5 end_ pt)).

Lemma read_plaintext_iff pt kind payload :
  Forall is_u8 pt → (5 ≤ length pt)%nat →
  read_plaintext pt = Some (mkOpened kind payload) ↔
  ∃ k padding, kind_octet kind = Some k ∧ 0 ≤ padding ∧ Z.of_nat (length payload) ≤ U32_MAX ∧ pt = plaintext k payload padding.
Proof.
  intros Hu Hlen. destruct pt as [|k rest]; [simpl in Hlen; lia|]. simpl in Hlen. inv_Forall.
  assert (rest = take 4 rest ++ drop 4 rest) as Hr by (by rewrite take_drop).
  set (l4 := take 4 rest) in *. assert (length l4 = 4%nat) as H4 by (unfold l4; rewrite length_take; lia).
  set (body := drop 4 rest) in *. assert (Forall is_u8 l4) as H4u by (by apply Forall_take).
  unfold read_plaintext. cbn [head default]. unfold id.
  assert (slice 1 5 (k :: rest) = l4) as -> by (by unfold slice, l4; cbn [drop]; rewrite drop_0).
  assert (∀ n, drop (5 + n) (k :: rest) = drop n body) as Hd by (intros n; cbn [drop Nat.add]; unfold body; rewrite drop_drop; f_equal; lia).
  assert (∀ n, slice 5 (5 + n) (k :: rest) = take n body) as Hs.
  { intros n. unfold slice. replace (5 + n - 5)%nat with n by lia. by rewrite (Hd 0%nat : drop 5 _ = _), drop_0. }
  rewrite Hd, Hs. pose proof (be_value_bound 256 l4 ltac:(lia) H4u) as Hb. rewrite H4 in Hb. change (256 ^ Z.of_nat 4) with (U32_MAX + 1) in Hb.
  assert (Z.of_nat (length (k :: rest)) - PLAINTEXT_HEADER = Z.of_nat (length body)) as ->
    by (unfold PLAINTEXT_HEADER, body; rewrite length_drop; cbn [length]; lia).
  set (v := be_value 256 l4) in *. split.
  - intros Hx. inv_binds. bool_hyps. match goal with H : foldl _ _ _ = 0 |- _ => apply fold_lor_zero in H as [_ Hz] end.
    subst kind payload.
    exists k, (Z.of_nat (length body) - v). split_and!.
    + by apply kind_octet_of.
    + lia.
    + rewrite length_take. lia.
    + unfold plaintext. rewrite length_take, Nat.min_l by lia. rewrite Z2Nat.id by lia.
      assert (be_digits 256 4 v = l4) as -> by (rewrite <- H4 at 1; by apply be_digits_value). f_equal. rewrite Hr at 1. f_equal.
      rewrite <- (take_drop (Z.to_nat v) body) at 1. f_equal. apply zeros_replicate in Hz. rewrite Hz, length_drop. f_equal. lia.
  - intros (k' & padding & Hk & Hp & Hl & Hpt). unfold plaintext in Hpt. injection Hpt as <- Hrest.
    assert (l4 = be_digits 256 4 (Z.of_nat (length payload)) ∧ body = payload ++ replicate (Z.to_nat padding) 0) as [El Eb].
    { apply app_inj_1; [by rewrite H4, length_be_digits|]. by rewrite <- Hr. }
    assert (v = Z.of_nat (length payload)) as ->.
    { unfold v. rewrite El, be_value_digits by lia. change (256 ^ Z.of_nat 4) with (U32_MAX + 1). apply Z.mod_small. lia. }
    apply kind_octet_of in Hk. rewrite Hk. cbn [mbind option_bind]. rewrite Eb, length_app, Nat2Z.id.
    assert (Z.of_nat (length payload + length (replicate (Z.to_nat padding) 0)) <? Z.of_nat (length payload) = false) as -> by (apply Z.ltb_ge; lia).
    rewrite drop_app_length, take_app_length.
    assert (foldl Z.lor 0 (replicate (Z.to_nat padding) 0) = 0) as -> by (apply fold_lor_zero; split; [done|by apply Forall_replicate]). done.
Qed.

(** ** Frames *)

Section Frames.
Context `{HL : HpkeLaws}.

(** The octets of a frame of Table 14.2. *)
Definition frame_of (enc ct tag : list Z) : list Z := FRAME_VERSION :: enc ++ ct ++ tag.

Lemma frame_parts frame :
  FRAME_OVERHEAD ≤ Z.of_nat (length frame) → head frame = Some FRAME_VERSION →
  let body := drop 33 frame in
  frame = frame_of (slice 1 33 frame) (take (length body - 16) body) (drop (length body - 16) body) ∧
  length (slice 1 33 frame) = 32%nat ∧ length (drop (length body - 16) body) = 16%nat ∧
  (5 ≤ length (take (length body - 16) body))%nat.
Proof.
  unfold FRAME_OVERHEAD, ENC_LEN, PLAINTEXT_HEADER, TAG_LEN. intros Hl Hh. destruct frame as [|v rest]; [done|].
  injection Hh as ->. cbn [length] in Hl. cbn zeta. cbn [drop]. unfold slice, frame_of. cbn [drop Nat.sub]. rewrite drop_0.
  rewrite !length_drop, !length_take, length_drop. split_and!; [|lia|lia|lia]. f_equal. by rewrite take_drop, take_drop.
Qed.

Lemma frame_split enc ct tag :
  length enc = 32%nat → length tag = 16%nat → let frame := frame_of enc ct tag in let body := drop 33 frame in
  slice 1 33 frame = enc ∧ take (length body - 16) body = ct ∧ drop (length body - 16) body = tag.
Proof.
  intros He Ht. unfold frame_of, slice. cbn zeta. cbn [drop Nat.sub]. rewrite drop_0.
  replace 32%nat with (length enc) at 1. rewrite take_app_length. replace 32%nat with (length enc). rewrite drop_app_length.
  rewrite length_app, Ht. replace (length ct + 16 - 16)%nat with (length ct) by lia.
  by rewrite take_app_length, drop_app_length.
Qed.

Lemma open_under_eq sk enc ct tag :
  length enc = 32%nat → length tag = 16%nat →
  open_under sk (frame_of enc ct tag) =
    if (length ct <? 5)%nat then None
    else (enc' ← hpke_encapped enc; tag' ← hpke_tag tag; pt ← hpke_open sk enc' SEAL_INFO ct [] tag'; read_plaintext pt).
Proof.
  intros He Ht. destruct (frame_split enc ct tag He Ht) as (H1 & H2 & H3). unfold open_under. rewrite H1, H2, H3.
  unfold frame_of at 1 2. cbn [length head default]. unfold id. rewrite !length_app, He, Ht, Z.eqb_refl. cbn [negb]. rewrite orb_false_r.
  unfold FRAME_OVERHEAD, ENC_LEN, PLAINTEXT_HEADER, TAG_LEN.
  destruct (Nat.ltb_spec (length ct) 5) as [Hc|Hc].
  - by rewrite (proj2 (Z.ltb_lt _ _)) by lia.
  - by rewrite (proj2 (Z.ltb_ge _ _)) by lia.
Qed.

(** A frame that opens under [sk] to [payload] of [kind], as Tables 14.1 and 14.2 lay it out. *)
Definition sealed_frame (sk frame : list Z) (kind : PayloadKind) (payload : list Z) : Prop :=
  ∃ enc ct tag enc' tag' k padding,
    frame = frame_of enc ct tag ∧ length enc = 32%nat ∧ length tag = 16%nat ∧
    hpke_encapped enc = Some enc' ∧ hpke_tag tag = Some tag' ∧
    hpke_open sk enc' SEAL_INFO ct [] tag' = Some (plaintext k payload padding) ∧
    kind_octet kind = Some k ∧ 0 ≤ padding ∧ Z.of_nat (length payload) ≤ U32_MAX.

Lemma open_under_iff sk frame kind payload :
  open_under sk frame = Some (mkOpened kind payload) ↔ sealed_frame sk frame kind payload.
Proof.
  split.
  - intros Ho. destruct (decide (FRAME_OVERHEAD ≤ Z.of_nat (length frame) ∧ head frame = Some FRAME_VERSION)) as [[Hl Hh]|Hn].
    + destruct (frame_parts frame Hl Hh) as (Hf & He & Ht & Hc). rewrite Hf, open_under_eq in Ho by done.
      destruct (Nat.ltb_spec (length (take (length (drop 33 frame) - 16) (drop 33 frame))) 5); [done|]. inv_binds.
      match goal with H : hpke_open _ _ _ _ _ _ = Some _ |- _ => pose proof (hpke_open_form _ _ _ _ _ _ _ H) as [Hpl Hpu] end.
      apply read_plaintext_iff in Ho as (k & padding & Hk & Hp & Hlen & ->); [|done|lia].
      repeat eexists; eauto.
    + exfalso. apply Hn. unfold open_under in Ho. destruct (_ || _) eqn:Eb; [done|]. bool_hyps. split; [lia|].
      destruct frame; [done|]. cbn in *. congruence.
  - intros (enc & ct & tag & enc' & tag' & k & padding & -> & He & Ht & He' & Ht' & Ho & Hk & Hp & Hl).
    destruct (hpke_open_form _ _ _ _ _ _ _ Ho) as [Hpl Hpu]. pose proof (length_plaintext k payload padding Hp) as Hlen.
    unfold PLAINTEXT_HEADER in Hlen. rewrite open_under_eq by done.
    destruct (Nat.ltb_spec (length ct) 5); [lia|]. rewrite He', Ht'. cbn [mbind option_bind]. rewrite Ho. cbn [mbind option_bind].
    apply read_plaintext_iff; [done|lia|]. by exists k, padding.
Qed.

(** ** Sealing *)

Lemma seal_padded_ok rnd key kind payload padding :
  length (ak_octets key) = 32%nat → Forall is_u8 (ak_octets key) → is_acceptable_agreement_key (ak_octets key) = true →
  Forall is_u8 payload → 0 ≤ padding ≤ PADDING_BLOCK →
  match kind_octet kind with
  | None => seal_padded rnd key kind payload padding = Err SE_NotSealable
  | Some k =>
      if Z.of_nat (length payload) <=? U32_MAX then
        ∃ pk enc ct tag, hpke_public (ak_octets key) = Some pk ∧
          hpke_seal rnd pk SEAL_INFO (plaintext k payload padding) [] = Some (enc, ct, tag) ∧
          seal_padded rnd key kind payload padding = Ok (frame_of enc ct tag)
      else seal_padded rnd key kind payload padding = Err SE_TooLarge
  end.
Proof.
  intros Hl Hu Ha Hp Hpad. unfold seal_padded. destruct (kind_octet kind) as [k|] eqn:Ek; [|done]. cbn [ok_or mbind result_bind].
  destruct (_ <=? U32_MAX) eqn:El; [|done]. bool_hyps. cbn [mbind result_bind]. unfold checked, then_some.
  unfold PLAINTEXT_HEADER, PADDING_BLOCK, U32_MAX, U64_MAX in *.
  rewrite (proj2 (Z.leb_le (Z.of_nat (length payload) + 5) _)) by lia. cbn [mbind option_bind].
  rewrite (proj2 (Z.leb_le (Z.of_nat (length payload) + 5 + padding) _)) by lia. cbn [ok_or mbind result_bind].
  destruct (hpke_seal_ok rnd (ak_octets key) SEAL_INFO (plaintext k payload padding) []) as (pk & enc & ct & tag & H1 & H2); try done.
  { apply plaintext_u8; [by eapply kind_octet_u8|done]. }
  exists pk, enc, ct, tag. rewrite H1. cbn [ok_or mbind result_bind]. rewrite H2. cbn [ok_or mbind result_bind]. done.
Qed.

Lemma padding_bounds len max padding :
  0 ≤ len ≤ U32_MAX → padding_for len max = Some padding →
  0 ≤ padding ≤ PADDING_BLOCK ∧ FRAME_OVERHEAD + len + padding ≤ max ∧
  (padding = 0 ∨ (PLAINTEXT_HEADER + len + padding) mod PADDING_BLOCK = 0).
Proof.
  intros Hl. rewrite padding_for_spec by done. pose proof (padded_len_spec (len + PLAINTEXT_HEADER)) as [Hb Hm].
  cbn zeta. unfold FRAME_OVERHEAD. intros Hp. repeat case_match; bool_hyps; simplify_eq.
  - split_and!; [lia|lia|lia|]. right. rewrite <- Hm. f_equal. lia.
  - unfold PADDING_BLOCK in *. split_and!; [lia|lia|lia|]. by left.
Qed.

Lemma padding_none len max :
  0 ≤ len ≤ U32_MAX → is_Some (padding_for len max) ↔ FRAME_OVERHEAD + len ≤ max.
Proof.
  intros Hl. rewrite padding_for_spec by done. pose proof (padded_len_spec (len + PLAINTEXT_HEADER)) as [Hb Hm].
  cbn zeta. unfold FRAME_OVERHEAD. split.
  - intros [x Hx]. repeat case_match; bool_hyps; simplify_eq; lia.
  - intros Hm'. repeat case_match; bool_hyps; [done|done|lia].
Qed.
End Frames.

(** ** What sealing and opening give together *)

Lemma seal_spec {H : Hpke} (HL : HpkeLaws H) (rnd key sk pub : list Z) (recipient : AgreementPublicKey)
    (kind : PayloadKind) (payload : list Z) (max : Z) :
  public_of key = Some (sk, pub) → AgreementPublicKey_from_octets pub = Some recipient →
  Forall is_u8 payload → Z.of_nat (length payload) ≤ U32_MAX →
  match seal rnd recipient kind payload max with
  | Ok frame =>
      kind ≠ PK_Sealed ∧ open_frame key frame = Some (mkOpened kind payload) ∧
      FRAME_OVERHEAD + Z.of_nat (length payload) ≤ Z.of_nat (length frame) ≤ max ∧
      (Z.of_nat (length frame) = FRAME_OVERHEAD + Z.of_nat (length payload) ∨
       (Z.of_nat (length frame) - (1 + ENC_LEN + TAG_LEN)) mod PADDING_BLOCK = 0)
  | Err SE_TooLarge => max < FRAME_OVERHEAD + Z.of_nat (length payload)
  | Err SE_NotSealable => kind = PK_Sealed ∧ FRAME_OVERHEAD + Z.of_nat (length payload) ≤ max
  | Err SE_Hpke => False
  end.
Proof.
  intros Hkey Hrec Hu Hl. apply option_bind_Some in Hkey as (x & Hpriv & Hx). injection Hx as -> <-.
  unfold AgreementPublicKey_from_octets, then_some in Hrec.
  destruct (is_acceptable_agreement_key (hpke_public_of sk)) eqn:Ha; [|done]. injection Hrec as <-. destruct (hpke_public_32 sk) as [H32 H8].
  unfold seal. pose proof (padding_none (Z.of_nat (length payload)) max ltac:(lia)) as Hn.
  destruct (padding_for _ max) as [padding|] eqn:Ep; cbn [ok_or mbind result_bind].
  2: { apply Z.lt_nge. intros [? ?]%Hn. done. }
  destruct (padding_bounds (Z.of_nat (length payload)) max padding ltac:(lia) Ep) as (Hp & Hmax & Hpad).
  pose proof (seal_padded_ok rnd (mkAgreement (hpke_public_of sk)) kind payload padding H32 H8 Ha Hu Hp) as Hs.
  destruct (kind_octet kind) as [k|] eqn:Ek; [|rewrite Hs; destruct kind; try done; split; [done|lia]].
  rewrite (proj2 (Z.leb_le _ _)) in Hs by done. destruct Hs as (pk & enc & ct & tag & Hpk & Hse & ->).
  destruct (hpke_seal_form _ _ _ _ _ _ _ _ Hse) as (He & Hc & Ht & [enc' He'] & [tag' Ht']).
  pose proof (length_plaintext k payload padding ltac:(lia)) as Hlen. split_and!.
  - by destruct kind.
  - unfold open_frame, public_of. rewrite Hpriv. cbn [mbind option_bind].
    apply open_under_iff. exists enc, ct, tag, enc', tag', k, padding. split_and!; try done; [|lia].
    eapply hpke_open_seal; try done. apply plaintext_u8; [by eapply kind_octet_u8|done].
  - unfold frame_of, FRAME_OVERHEAD, ENC_LEN, TAG_LEN in *. cbn [length]. rewrite !length_app. lia.
  - unfold frame_of, FRAME_OVERHEAD, ENC_LEN, TAG_LEN in *. cbn [length]. rewrite !length_app. lia.
  - unfold frame_of, FRAME_OVERHEAD, ENC_LEN, TAG_LEN in *. cbn [length]. rewrite !length_app.
    destruct Hpad as [->|Hm]; [left; lia|right]. rewrite <- Hm. f_equal. lia.
Qed.

(** A payload sealed to the public part of an agreement key within a transport's limit
    gives a frame that is no longer than the limit, is padded to whole blocks or not at all,
    and opens with the private key to the same kind and octets; sealing is refused exactly
    for a frame over the limit, or else for the kind that is never sealed again. *)
Theorem seal_open_round_trip {H : Hpke} (HL : HpkeLaws H) (rnd key sk pub : list Z) (recipient : AgreementPublicKey)
    (kind : PayloadKind) (payload : list Z) (max : Z) :
  public_of key = Some (sk, pub) → AgreementPublicKey_from_octets pub = Some recipient →
  Forall is_u8 payload → Z.of_nat (length payload) ≤ U32_MAX →
  match seal rnd recipient kind payload max with
  | Ok frame =>
      kind ≠ PK_Sealed ∧ open_frame key frame = Some (mkOpened kind payload) ∧
      FRAME_OVERHEAD + Z.of_nat (length payload) ≤ Z.of_nat (length frame) ≤ max ∧
      (Z.of_nat (length frame) = FRAME_OVERHEAD + Z.of_nat (length payload) ∨
       (Z.of_nat (length frame) - (1 + ENC_LEN + TAG_LEN)) mod PADDING_BLOCK = 0)
  | Err SE_TooLarge => max < FRAME_OVERHEAD + Z.of_nat (length payload)
  | Err SE_NotSealable => kind = PK_Sealed ∧ FRAME_OVERHEAD + Z.of_nat (length payload) ≤ max
  | Err SE_Hpke => False
  end.
Proof. intros Hk Hr Hu Hl. by apply (seal_spec HL rnd key sk pub). Qed.

(** A frame opens under a private key to a payload exactly when it is laid out as
    Table 14.2 and decrypts to the plaintext of Table 14.1 for that payload, with zeros after
    it; everything else is refused. *)
Theorem opens_exactly {H : Hpke} (HL : HpkeLaws H) (sk frame : list Z) (kind : PayloadKind) (payload : list Z) :
  open_under sk frame = Some (mkOpened kind payload) ↔ sealed_frame sk frame kind payload.
Proof. apply open_under_iff. Qed.

(** ** The recipient check *)

Lemma receipt_from_json_members w r :
  receipt_from_json (JObject w) = Ok r →
  get_str w (bs "envelope_id") = Some (rc_envelope_id r) ∧ get_str w (bs "envelope_from") = Some (rc_envelope_from r).
Proof.
  unfold receipt_from_json. cbn [as_object]. unfold opt_filter. destruct (negb _); [|done]. cbn [ok_or mbind result_bind].
  destruct (existsb _ _); [done|]. intros Hr. inv_binds. cbn [rc_envelope_id rc_envelope_from].
  repeat match goal with E : Token_parse ?s = Some ?t |- _ => unfold Token_parse, then_some in E; case_match; [|done]; injection E as -> end.
  done.
Qed.

Section Recipient.
Context `{C : Crypto} `{HO : HashOrder}.

Lemma accepted_members ar e ob :
  accept_receipt ar e = Ok ob →
  ∃ inner nonce, obj_get (aw_wire ar) (bs "receipt") = Some inner ∧ receipt_from_json inner = Ok (ob_receipt ob) ∧
    is_some (SessionId_parse (rc_envelope_from (ob_receipt ob))) = true ∧ get_str (aw_wire ar) (bs "envelope_nonce") = Some nonce.
Proof.
  unfold accept_receipt. intros H. destruct (obj_get _ _) as [inner|]; [|done]. destruct (get_str (aw_wire ar) (bs "envelope_to")); [|done].
  destruct (get_str (aw_wire ar) (bs "envelope_nonce")) as [nonce|]; [|done].
  destruct (receipt_from_json inner) as [r|] eqn:Er; [|done]. cbn [map_err mbind result_bind] in H. exists inner, nonce.
  apply result_bind_Ok in H as (key & _ & H). cbv zeta in H.
  destruct (SessionId_parse (rc_envelope_from r)) eqn:Es; [|done]. inv_binds. cbn [ob_receipt]. by rewrite Es.
Qed.

Lemma receipt_recipient octets o e ob :
  keyset_inv (trusted e) → parse octets = Ok (JObject o) → accept_receipt (mkAuthReceipt o) e = Ok ob →
  recipient_of PK_Receipt octets e = Rc_Own.
Proof.
  intros Hk Hp Ha. destruct (accept_receipt_Ok _ _ _ Hk Ha) as (_ & Hr & entry & record & _ & Hin & Hid & Hfrom & Hto & Hno & _).
  destruct (accepted_members _ _ _ Ha) as (inner & nonce & Hi & Hrj & Hs & Hn). cbn [aw_wire] in *. rewrite Hi in Hr. injection Hr as ->.
  apply receipt_from_json_members in Hrj as [H1 H2].
  unfold recipient_of, sent_record_for_receipt. rewrite Hp. cbn [ok mbind option_bind as_object]. rewrite Hi. cbn [mbind option_bind as_object].
  rewrite H1, H2, Hto, Hn. cbn [mbind option_bind]. unfold SessionId_parse, then_some in *.
  destruct (is_session_id _); [|done]. cbn [mbind option_bind]. destruct (List.find _ _) eqn:Ef; [done|]. exfalso.
  pose proof (find_none _ _ Ef record) as Hf. rewrite <- list_elem_of_In in Hf. specialize (Hf Hin). cbn beta in Hf.
  rewrite Hid, !beq_refl, bool_decide_true in Hf by congruence. done.
Qed.

Lemma presence_recipient octets o carrier at_ now e r :
  parse octets = Ok (JObject o) → is_ok (ao_result (accept_authenticated_record (mkAuthPresence o) carrier at_ now e r).1.1) = true →
  recipient_of PK_Presence octets e = Rc_Own.
Proof.
  intros Hp Ha. unfold accept_authenticated_record in Ha. cbn [apw_wire] in Ha.
  destruct (obj_get o (bs "record")) as [inner|]; [|done]. destruct (obj_get o (bs "audience")) as [a|] eqn:Ea; [|done].
  destruct (verify_signed _ _ _) as [entry|[]]; try done. case_bool_decide as Ho; [|done].
  unfold recipient_of. rewrite Hp. cbn [ok mbind option_bind as_object]. unfold get_str. rewrite Ea. cbn [mbind option_bind].
  rewrite Ho. by rewrite beq_refl.
Qed.

Lemma envelope_recipient octets limits now m e :
  engine_inv e → receive_envelope octets limits now = Ok m → is_Some (own_sessions e !! env_to (cm_envelope m)) →
  recipient_of PK_Envelope octets e = Rc_Own.
Proof.
  intros He [_ Hr]%receive_envelope_Ok Hs. destruct (eo_to _ _ _ _ Hr) as [Hto Hid]. unfold recipient_of. rewrite (eo_wire _ _ _ _ Hr).
  cbn [ok mbind option_bind as_object]. unfold get_str. rewrite Hto. cbn [mbind option_bind as_str]. unfold SessionId_parse, then_some.
  rewrite Hid. cbn [mbind option_bind]. rewrite (ti_own _ _ _ _ (ei_tables e He) _ Hs). by rewrite beq_refl.
Qed.
End Recipient.

(** The recipient check drops no payload its own checks would take: an opened receipt
    that would be accepted, a presence record that would be accepted, and an envelope to one
    of this device's sessions all name this device. *)
Theorem recipient_check_transparent `{C : Crypto} `{HO : HashOrder} (octets : list Z) (e : Engine) :
  (∀ o ob, keyset_inv (trusted e) → parse octets = Ok (JObject o) → accept_receipt (mkAuthReceipt o) e = Ok ob →
     recipient_of PK_Receipt octets e = Rc_Own) ∧
  (∀ o carrier at_ now r, parse octets = Ok (JObject o) →
     is_ok (ao_result (accept_authenticated_record (mkAuthPresence o) carrier at_ now e r).1.1) = true →
     recipient_of PK_Presence octets e = Rc_Own) ∧
  (∀ limits now m, engine_inv e → receive_envelope octets limits now = Ok m →
     is_Some (own_sessions e !! env_to (cm_envelope m)) → recipient_of PK_Envelope octets e = Rc_Own).
Proof. split_and!; intros; [by eapply receipt_recipient|by eapply presence_recipient|by eapply envelope_recipient]. Qed.

(** ** An instance of the crate's promises: no secrecy, but the same shape *)

Definition octets32 (l : list Z) : bool := bool_decide (length l = 32%nat) && forallb (in_range 0 255) l.

Definition sample_public_of (sk : list Z) : list Z := if octets32 sk then sk else 9 :: replicate 31 0.

#[export] Instance sample_hpke : Hpke := {|
  hpke_private k := then_some (bool_decide (length k = 32%nat)) k;
  hpke_public_of := sample_public_of;
  hpke_public k := Some k;
  hpke_encapped enc := Some enc;
  hpke_tag tag := Some tag;
  hpke_seal _ pk _ pt _ := then_some (octets32 pk && forallb (in_range 0 255) pt) (pk, pt, replicate 16 0);
  hpke_open sk enc _ ct _ _ := then_some (bool_decide (sample_public_of sk = enc) && forallb (in_range 0 255) ct) ct |}.

Lemma octets_u8 l : forallb (in_range 0 255) l = true ↔ Forall is_u8 l.
Proof.
  rewrite (Forall_forallb (in_range 0 255)). split; intros H; (eapply Forall_impl; [exact H|]); intros x; cbn beta; rewrite in_range_true; unfold is_u8; lia.
Qed.

#[export] Instance sample_hpke_laws : HpkeLaws sample_hpke.
Proof.
  split.
  - intros k Hk. unfold hpke_private, sample_hpke. rewrite bool_decide_true by done. by eexists.
  - intros sk. unfold hpke_public_of, sample_hpke, sample_public_of, octets32. destruct (_ && _) eqn:E.
    + bool_hyps. by split; [|apply octets_u8].
    + split; [done|]. by apply octets_u8.
  - intros rnd key info pt aad Hl Hk Hp _. exists key. unfold hpke_public, hpke_seal, sample_hpke, octets32.
    rewrite bool_decide_true by done. apply octets_u8 in Hk as ->, Hp as ->. by do 3 eexists.
  - unfold hpke_seal, hpke_encapped, hpke_tag, sample_hpke, octets32, then_some. intros rnd pk info pt aad enc ct tag H.
    destruct (_ && _) eqn:E in H; [|done]. bool_hyps. simplify_eq. by split_and!.
  - unfold hpke_public, hpke_seal, hpke_encapped, hpke_tag, hpke_open, hpke_public_of, sample_hpke, then_some.
    intros rnd sk pk info pt aad enc ct tag enc' tag' Hp [= <-] H [= <-] _.
    destruct (_ && _) in H; [|done]. simplify_eq. rewrite bool_decide_true by done. by apply octets_u8 in Hp as ->.
  - unfold hpke_open, sample_hpke, then_some. intros sk enc info ct aad tag pt H.
    destruct (_ && _) eqn:E in H; [|done]. bool_hyps. simplify_eq. split; [done|]. by apply octets_u8.
Qed.

Definition sample_agreement : list Z := 9 :: replicate 31 0.

Lemma seal_open_round_trip_witness :
  ∃ frame, seal [] (mkAgreement sample_agreement) PK_Receipt (bs "{}") 65536 = Ok frame ∧
    open_frame sample_agreement frame = Some (mkOpened PK_Receipt (bs "{}")) ∧ length frame = 305%nat.
Proof.
  pose proof (seal_open_round_trip sample_hpke_laws [] sample_agreement sample_agreement sample_agreement (mkAgreement sample_agreement)
    PK_Receipt (bs "{}") 65536 ltac:(vm_compute; reflexivity) ltac:(vm_compute; reflexivity)
    ltac:(apply octets_u8; vm_compute; reflexivity) ltac:(vm_compute; discriminate)) as H.
  destruct (seal [] (mkAgreement sample_agreement) PK_Receipt (bs "{}") 65536) as [frame|] eqn:E.
  - exists frame. split; [done|]. split; [apply H|]. vm_compute in E. injection E as <-. reflexivity.
  - vm_compute in E. discriminate E.
Defined.

Lemma opens_exactly_witness :
  open_under sample_agreement (frame_of sample_agreement (plaintext 1 [7] 3) (replicate 16 0)) = Some (mkOpened PK_Envelope [7]).
Proof.
  apply (opens_exactly sample_hpke_laws). exists sample_agreement, (plaintext 1 [7] 3), (replicate 16 0), sample_agreement, (replicate 16 0), 1, 3.
  split_and!; try reflexivity; vm_compute; discriminate.
Defined.
