(* ===== verification/AgreementKeys.v ===== *)
(** * This device's agreement keys ([core/src/sealing.rs])

    The private keys a device opens frames with, newest first, the count of the statements it
    issued, and the store both are saved to and read back from before a statement is given
    out. *)

From stdpp Require Import sorting.
From S2P Require Import Prelude Base64url Ids Json JsonFacts Canonical Envelope EnvelopeFacts Keys Trust Signing Replay SignedObject Agreement Pairing.
From S2P Require Import PairingFacts RecordBook Bindings Authorization Transport Sealing.

Record StoredAgreementKey := mkStoredKey { sk_private_key : list Z; sk_seq : Z; sk_issued_at : Timestamp }.

Record AgreementKeyState := mkKeyState { kst_keys : list StoredAgreementKey; kst_highest_seq : option Z }.

Record AgreementKeyStore (S : Type) := mkAgreementKeyStore {
  aks_load : S → result KeyStoreError (option AgreementKeyState);
  aks_save : AgreementKeyState → S → result KeyStoreError unit * S }.

(** [MemoryAgreementKeyStore]: the state, and whether saves fail. *)
Definition memory_agreement_save (state : AgreementKeyState) (s : option AgreementKeyState * bool)
    : result KeyStoreError unit * (option AgreementKeyState * bool) :=
  if s.2 then (Err (Failed "save refused (test double)"), s) else (Ok tt, (Some state, s.2)).

Definition MemoryAgreementKeyStore : AgreementKeyStore (option AgreementKeyState * bool) :=
  mkAgreementKeyStore _ (λ s, Ok s.1) memory_agreement_save.

Inductive AgreementKeyError : Type :=
| AE_Store (e : KeyStoreError) | AE_Corrupt | AE_SeqExhausted | AE_RestartNotAllowed | AE_ReadBack.

Record OwnKey := mkOwnKey {
  ok_private_key : list Z; ok_hpke_key : list Z; ok_seq : Z; ok_issued_at : Timestamp; ok_statement : AgreementStatement }.

Record AgreementKeys := mkAgreementKeys { ag_keys : list OwnKey; ag_highest_seq : Z }.

#[export] Instance StoredAgreementKey_eq_dec : EqDecision StoredAgreementKey.
Proof. solve_decision. Defined.

(** A computation that ends in a [Result], or does not end: a panic, or a loop that draws
    random octets and has not seen usable ones yet. *)
Definition outcome (A : Type) : Type := option (result AgreementKeyError A).

Definition obind {A B} (m : outcome A) (k : A → outcome B) : outcome B :=
  match m with
  | None => None
  | Some (Err e) => Some (Err e)
  | Some (Ok a) => k a
  end.

(** [slice::sort_by], which is stable, with the comparison of [from_state]: later [issued_at]
    first, then the higher [seq]. *)
Definition newer_or_same (a b : OwnKey) : bool :=
  if unix_nanos (ok_issued_at b) <? unix_nanos (ok_issued_at a) then true
  else (unix_nanos (ok_issued_at a) =? unix_nanos (ok_issued_at b)) && (ok_seq b <=? ok_seq a).

Fixpoint insert_newest (k : OwnKey) (l : list OwnKey) : list OwnKey :=
  match l with
  | [] => [k]
  | x :: l' => if newer_or_same k x then k :: x :: l' else x :: insert_newest k l'
  end.

Definition sort_newest (l : list OwnKey) : list OwnKey := foldr insert_newest [] l.

Section AgreementKeys.
Context `{C : Crypto} `{H : Hpke}.

(** [fresh_private_key]: the first of the octets drawn whose public key is acceptable. *)
Fixpoint fresh_private_key (draws : list (list Z)) : option (list Z) :=
  match draws with
  | [] => None
  | octets :: rest =>
      if match public_of octets with Some (_, pk) => is_acceptable_agreement_key pk | None => false end
      then Some octets
      else fresh_private_key rest
  end.

Definition own_key_of (d : DeviceIdentity) (stored : StoredAgreementKey) : outcome OwnKey :=
  match public_of (sk_private_key stored) with
  | None => Some (Err AE_Corrupt)
  | Some (hpke_key, pk) =>
      match AgreementPublicKey_from_octets pk with
      | None => Some (Err AE_Corrupt)
      | Some public =>
          match statement_issue d public (sk_seq stored) (sk_issued_at stored) with
          | None => Some (Err AE_Corrupt)
          | Some None => None
          | Some (Some statement) =>
              Some (Ok (mkOwnKey (sk_private_key stored) hpke_key (sk_seq stored) (sk_issued_at stored) statement))
          end
      end
  end.

Fixpoint own_keys (d : DeviceIdentity) (highest : Z) (stored : list StoredAgreementKey) : outcome (list OwnKey) :=
  match stored with
  | [] => Some (Ok [])
  | k :: rest =>
      if highest <? sk_seq k then Some (Err AE_Corrupt)
      else obind (own_key_of d k) (λ o, obind (own_keys d highest rest) (λ os, Some (Ok (o :: os))))
  end.

Definition from_state (d : DeviceIdentity) (state : AgreementKeyState) : outcome AgreementKeys :=
  match kst_highest_seq state with
  | None => Some (Err AE_Corrupt)
  | Some highest =>
      obind (own_keys d highest (kst_keys state)) (λ keys,
        match keys with
        | [] => Some (Err AE_Corrupt)
        | _ => Some (Ok (mkAgreementKeys (sort_newest keys) highest))
        end)
  end.

Definition stored_key (k : OwnKey) : StoredAgreementKey := mkStoredKey (ok_private_key k) (ok_seq k) (ok_issued_at k).

(** [AgreementKeys::state]. *)
Definition keys_state (ks : AgreementKeys) : AgreementKeyState :=
  mkKeyState (map stored_key (ag_keys ks)) (Some (ag_highest_seq ks)).

Definition next_seq (highest : option Z) : result AgreementKeyError Z :=
  match highest with
  | None => Ok 0
  | Some h => if MAX_STATEMENT_SEQ <=? h then Err AE_SeqExhausted else Ok (h + 1)
  end.

(** [AgreementKeys::statement]; the index [self.keys[0]] panics on no keys. *)
Definition current_key (ks : AgreementKeys) : option OwnKey :=
  match List.find (λ k, ok_seq k =? ag_highest_seq ks) (ag_keys ks) with
  | Some k => Some k
  | None => head (ag_keys ks)
  end.

Definition keys_statement (ks : AgreementKeys) : option AgreementStatement := ok_statement <$> current_key ks.

(** [AgreementKeys::open]. *)
Definition keys_open (ks : AgreementKeys) (frame : list Z) : option Opened :=
  head (omap (λ k, open_under (ok_hpke_key k) frame) (ag_keys ks)).

(** ** Operations on the store *)

Context {S : Type} (store : AgreementKeyStore S).

Definition save_checked (state : AgreementKeyState) (s : S) : result AgreementKeyError unit * S :=
  match aks_save S store state s with
  | (Err e, s) => (Err (AE_Store e), s)
  | (Ok _, s) =>
      (match aks_load S store s with
       | Err e => Err (AE_Store e)
       | Ok None => Err AE_ReadBack
       | Ok (Some back) =>
           if bool_decide (kst_highest_seq back = kst_highest_seq state) &&
              bool_decide (length (kst_keys back) = length (kst_keys state)) &&
              forallb (λ '(a, b), (sk_seq a =? sk_seq b) && bool_decide (sk_issued_at a = sk_issued_at b) &&
                                  beq (sk_private_key a) (sk_private_key b))
                (combine (kst_keys back) (kst_keys state))
           then Ok tt
           else Err AE_ReadBack
       end, s)
  end.

Definition generate (d : DeviceIdentity) (draws : list (list Z)) (keys : list StoredAgreementKey) (seq : Z)
    (now : Timestamp) (s : S) : option (result AgreementKeyError AgreementKeys * S) :=
  private_key ← fresh_private_key draws;
  let state := mkKeyState (mkStoredKey private_key seq now :: keys) (Some seq) in
  match save_checked state s with
  | (Err e, s) => Some (Err e, s)
  | (Ok _, s) => r ← from_state d state; Some (r, s)
  end.

Definition keys_load_or_generate (d : DeviceIdentity) (draws : list (list Z)) (now : Timestamp) (s : S)
    : option (result AgreementKeyError AgreementKeys * S) :=
  match aks_load S store s with
  | Err e => Some (Err (AE_Store e), s)
  | Ok (Some state) =>
      match kst_keys state with
      | [] =>
          match next_seq (kst_highest_seq state) with
          | Err e => Some (Err e, s)
          | Ok seq => generate d draws [] seq now s
          end
      | _ => r ← from_state d state; Some (r, s)
      end
  | Ok None => generate d draws [] 0 now s
  end.

Definition restart_count (d : DeviceIdentity) (draws : list (list Z)) (now : Timestamp) (s : S)
    : option (result AgreementKeyError AgreementKeys * S) :=
  match aks_load S store s with
  | Err e => Some (Err (AE_Store e), s)
  | Ok held =>
      let allowed := match held with
                     | None => true
                     | Some state => match kst_highest_seq state with None => true | Some h => MAX_STATEMENT_SEQ <=? h end
                     end in
      if negb allowed then Some (Err AE_RestartNotAllowed, s)
      else generate d draws [] 0 now s
  end.

(** [AgreementKeys::replace]: the result, the keys in memory and the store after it. *)
Definition keys_replace (d : DeviceIdentity) (draws : list (list Z)) (now : Timestamp) (ks : AgreementKeys) (s : S)
    : option (result AgreementKeyError AgreementStatement * AgreementKeys * S) :=
  match next_seq (Some (ag_highest_seq ks)) with
  | Err e => Some (Err e, ks, s)
  | Ok seq =>
      '(r, s) ← generate d draws (kst_keys (keys_state ks)) seq now s;
      match r with
      | Err e => Some (Err e, ks, s)
      | Ok ks => st ← keys_statement ks; Some (Ok st, ks, s)
      end
  end.

(** [AgreementKeys::erase_replaced]; [swap_remove] panics on no keys. *)
Definition erase_replaced (ks : AgreementKeys) (s : S) : option (result AgreementKeyError Z * AgreementKeys * S) :=
  kept ← current_key ks;
  match save_checked (mkKeyState [stored_key kept] (Some (ag_highest_seq ks))) s with
  | (Err e, s) => Some (Err e, ks, s)
  | (Ok _, s) => Some (Ok (Z.of_nat (length (ag_keys ks)) - 1), mkAgreementKeys [kept] (ag_highest_seq ks), s)
  end.
End AgreementKeys.

(** ** Facts about this device's agreement keys

    What loading, replacing and erasing keep, over a store that may fail at any call; that no
    two statements a device gave out contradict each other, across restarts; and that a
    replaced key is admitted by peers while frames sealed to the old one still open. *)

(** ** Sorting *)

Lemma insert_newest_perm k l : insert_newest k l ≡ₚ k :: l.
Proof.
  induction l as [|x l IH]; simpl; [done|]. case_match; [done|]. rewrite IH. apply Permutation_swap.
Qed.

Lemma sort_newest_perm l : sort_newest l ≡ₚ l.
Proof. induction l as [|x l IH]; simpl; [done|]. by rewrite insert_newest_perm, IH. Qed.

Definition newest_first (a b : OwnKey) : Prop := newer_or_same a b = true.

Lemma newer_total a b : newer_or_same a b = false → newest_first b a.
Proof. unfold newest_first, newer_or_same. repeat case_match; bool_hyps; try done; try lia. all: rewrite andb_true_iff, andb_false_iff in *; lia. Qed.

Lemma newest_trans a b c : newest_first a b → newest_first b c → newest_first a c.
Proof. unfold newest_first, newer_or_same. repeat case_match; bool_hyps; try done; try lia. all: rewrite ?andb_true_iff in *; lia. Qed.

Lemma insert_newest_sorted k l : StronglySorted newest_first l → StronglySorted newest_first (insert_newest k l).
Proof.
  induction 1 as [|x l Hs IH Hx]; simpl; [by repeat constructor|]. destruct (newer_or_same k x) eqn:E.
  - constructor; [by constructor|]. constructor; [done|]. eapply Forall_impl; [exact Hx|]. intros y Hy. by eapply newest_trans.
  - constructor; [done|]. rewrite insert_newest_perm. constructor; [by apply newer_total|done].
Qed.

Lemma sort_newest_sorted l : StronglySorted newest_first (sort_newest l).
Proof. induction l as [|x l IH]; simpl; [constructor|by apply insert_newest_sorted]. Qed.

(** ** Keys and what is stored of them *)

(** Values of their types: 32 octets, [u64] numbers, timestamps that keep their spelling. *)
Definition typed_octets (o : list Z) : Prop := length o = 32%nat ∧ Forall is_u8 o.
Definition typed_time (t : Timestamp) : Prop := Timestamp_parse (ts_text t) = Some t.

Definition typed_stored (k : StoredAgreementKey) : Prop :=
  typed_octets (sk_private_key k) ∧ 0 ≤ sk_seq k ≤ U64_MAX ∧ typed_time (sk_issued_at k).

Record typed_state (st : AgreementKeyState) : Prop := {
  ty_keys : Forall typed_stored (kst_keys st);
  ty_highest h : kst_highest_seq st = Some h → 0 ≤ h ≤ U64_MAX }.

Section Keys.
Context `{C : Crypto} `{HC : !CryptoLaws C} `{H : Hpke} (d : DeviceIdentity).

(** A key in memory is what its stored form reads back as. *)
Definition own_ok (k : OwnKey) : Prop := typed_stored (stored_key k) ∧ own_key_of d (stored_key k) = Some (Ok k).

Lemma own_key_of_stored st k : typed_stored st → own_key_of d st = Some (Ok k) → stored_key k = st ∧ own_ok k.
Proof.
  intros Ht Hk. assert (stored_key k = st) as Hst.
  { unfold own_key_of in Hk. destruct (public_of _) as [[??]|]; [|done]. destruct (AgreementPublicKey_from_octets _); [|done].
    destruct (statement_issue _ _ _ _) as [[]|]; [|done|done]. injection Hk as <-. by destruct st. }
  split; [done|]. unfold own_ok. by rewrite Hst.
Qed.

Lemma own_keys_of h os :
  Forall own_ok os → Forall (λ k, ok_seq k ≤ h) os → own_keys d h (map stored_key os) = Some (Ok os).
Proof.
  induction os as [|k os IH]; intros Ho Hs; [done|]. inv_Forall. cbn [map own_keys]. unfold own_ok in *.
  assert (h <? sk_seq (stored_key k) = false) as -> by (apply Z.ltb_ge; done).
  destruct_and!. match goal with E : own_key_of _ _ = _ |- _ => rewrite E end. cbn [obind]. by rewrite IH.
Qed.

Lemma statement_total key seq t : 0 ≤ seq ≤ MAX_STATEMENT_SEQ → ∃ st, statement_issue d key seq t = Some (Some st).
Proof.
  intros Hs. unfold statement_issue. rewrite (proj2 (Z.ltb_ge _ _)) by lia.
  assert (is_some (attach_signature d Dom_Agreement (statement_wire key seq t)) = true) as Ht.
  { apply attach_total; [done|]. unfold statement_wire. repeat apply numbers_finite_insert; try done.
    cbn [numbers_finite]. apply from_u64_finite. unfold MAX_STATEMENT_SEQ in *. lia. }
  destruct (attach_signature _ _ _) as [w|]; [|done]. by eexists.
Qed.

(** A drawn private key that is taken makes a key, up to the highest count. *)
Lemma fresh_own_key draws p seq t :
  fresh_private_key draws = Some p → 0 ≤ seq ≤ MAX_STATEMENT_SEQ →
  ∃ k, own_key_of d (mkStoredKey p seq t) = Some (Ok k) ∧ p ∈ draws.
Proof.
  intros Hf Hs. induction draws as [|x draws IH]; [done|]. cbn [fresh_private_key] in Hf.
  destruct (public_of x) as [[sk pk]|] eqn:Ep; [destruct (is_acceptable_agreement_key pk) eqn:Ea|].
  - injection Hf as ->. unfold own_key_of. cbn [sk_private_key sk_seq sk_issued_at]. rewrite Ep.
    unfold AgreementPublicKey_from_octets, then_some. rewrite Ea. destruct (statement_total (mkAgreement pk) seq t Hs) as [st ->].
    eexists. split; [done|left].
  - destruct (IH Hf) as (k & ? & ?). exists k. split; [done|by right].
  - destruct (IH Hf) as (k & ? & ?). exists k. split; [done|by right].
Qed.

Lemma own_ok_seq k : own_ok k → ok_seq k ≤ MAX_STATEMENT_SEQ.
Proof.
  intros [_ Hk]. revert Hk. unfold own_key_of. destruct (public_of _) as [[??]|]; [|done]. destruct (AgreementPublicKey_from_octets _); [|done].
  unfold statement_issue. destruct (_ <? _) eqn:E; [done|]. bool_hyps. done.
Qed.

(** The keys of a count: each its stored form's, with different numbers up to the count,
    which one of them has. *)
Record counted (os : list OwnKey) (h : Z) : Prop := {
  co_own : Forall own_ok os;
  co_range : Forall (λ k, 0 ≤ ok_seq k ≤ h) os;
  co_nodup : NoDup (map ok_seq os);
  co_highest : h ∈ map ok_seq os }.

Lemma counted_perm os os' h : os ≡ₚ os' → counted os h → counted os' h.
Proof. intros Hp [H1 H2 H3 H4]. split; by rewrite <- Hp. Qed.

Definition keys_ok (ks : AgreementKeys) : Prop :=
  counted (ag_keys ks) (ag_highest_seq ks) ∧ StronglySorted newest_first (ag_keys ks).

Definition state_ok (st : AgreementKeyState) (h : Z) : Prop :=
  ∃ os, st = mkKeyState (map stored_key os) (Some h) ∧ counted os h.

Lemma counted_unique os h a b : counted os h → a ∈ os → b ∈ os → ok_seq a = ok_seq b → a = b.
Proof.
  intros [_ _ Hn _] Ha Hb He. apply list_elem_of_lookup in Ha as [i Ha]. apply list_elem_of_lookup in Hb as [j Hb].
  assert (i = j) as ->; [|congruence].
  eapply NoDup_lookup; [exact Hn| |]; rewrite list_lookup_fmap; [by rewrite Ha|by rewrite Hb; simpl; f_equal].
Qed.

Lemma current_key_spec ks :
  keys_ok ks → ∃ k, current_key ks = Some k ∧ k ∈ ag_keys ks ∧ ok_seq k = ag_highest_seq ks.
Proof.
  intros [[_ _ _ Hh] _]. apply list_elem_of_fmap in Hh as (k & Hk & Hin). unfold current_key.
  destruct (List.find _ _) as [x|] eqn:Ef.
  - apply find_some in Ef as [Hx Hs]. bool_hyps. apply list_elem_of_In in Hx. by exists x.
  - apply list_elem_of_In in Hin. pose proof (find_none _ _ Ef k Hin) as Hf. cbn beta in Hf. bool_hyps. lia.
Qed.

Lemma current_key_unique ks k : keys_ok ks → k ∈ ag_keys ks → ok_seq k = ag_highest_seq ks → current_key ks = Some k.
Proof.
  intros Hk Hin Hs. destruct (current_key_spec ks Hk) as (k' & -> & Hin' & Hs'). f_equal.
  eapply counted_unique; [apply Hk|done|done|congruence].
Qed.

Lemma from_state_ok st h :
  state_ok st h → ∃ ks, from_state d st = Some (Ok ks) ∧ keys_ok ks ∧ ag_highest_seq ks = h ∧
    map stored_key (ag_keys ks) ≡ₚ kst_keys st.
Proof.
  intros (os & -> & Hc). pose proof Hc as [Ho Hr Hn Hh]. unfold from_state. cbn [kst_highest_seq kst_keys].
  rewrite own_keys_of; [|done|by eapply Forall_impl; [exact Hr|]; intros k [_ Hk]]. cbn [obind].
  destruct os as [|k os]; [by apply not_elem_of_nil in Hh|]. eexists. split; [done|]. cbn [ag_highest_seq ag_keys].
  split_and!; [split|done|].
  - eapply counted_perm; [symmetry; apply sort_newest_perm|done].
  - apply sort_newest_sorted.
  - by rewrite sort_newest_perm.
Qed.

Lemma keys_state_ok ks : keys_ok ks → state_ok (keys_state ks) (ag_highest_seq ks).
Proof. intros [Hc _]. by exists (ag_keys ks). Qed.

Lemma counted_seq os h : counted os h → 0 ≤ h ≤ MAX_STATEMENT_SEQ.
Proof.
  intros [Ho Hr _ (k & -> & Hi)%list_elem_of_fmap]. rewrite Forall_forall in Ho, Hr. split; [apply (Hr k Hi)|apply own_ok_seq; auto].
Qed.

Lemma state_ok_typed st h : state_ok st h → typed_state st.
Proof.
  intros (os & -> & Hc). pose proof (counted_seq os h Hc). split; cbn [kst_keys kst_highest_seq].
  - apply Forall_fmap. eapply Forall_impl; [apply Hc|]. by intros k [Hk _].
  - intros ? [= <-]. unfold MAX_STATEMENT_SEQ, U64_MAX in *. lia.
Qed.

Lemma new_state_ok draws p now os h seq :
  Forall typed_octets draws → typed_time now → fresh_private_key draws = Some p → (os = [] ∨ counted os h) → (os ≠ [] → h < seq) → 0 ≤ seq ≤ MAX_STATEMENT_SEQ →
  state_ok (mkKeyState (mkStoredKey p seq now :: map stored_key os) (Some seq)) seq.
Proof.
  intros Hd Hn Hf Hos Hlt Hs. destruct (fresh_own_key draws p seq now Hf ltac:(lia)) as (k & Hk & Hp). rewrite Forall_forall in Hd.
  apply own_key_of_stored in Hk as [Hst Hk]; [|split_and!; [by apply Hd|cbn [sk_seq]; unfold MAX_STATEMENT_SEQ, U64_MAX in *; lia..|done]]. exists (k :: os). split; [by cbn [map]; rewrite Hst|].
  assert (ok_seq k = seq) as Hseq by (by injection Hst).
  assert (Forall own_ok os ∧ Forall (λ k, 0 ≤ ok_seq k < seq) os ∧ NoDup (map ok_seq os)) as (H1 & H2 & H3).
  { destruct Hos as [->|[H1 H2 H3 H4]]; [split_and!; constructor|]. split_and!; [done| |done].
    destruct os as [|o os]; [done|]. specialize (Hlt ltac:(done)). eapply Forall_impl; [exact H2|]. cbn beta. lia. }
  split.
  - by constructor.
  - constructor; [lia|]. eapply Forall_impl; [exact H2|]. cbn beta. lia.
  - cbn [map]. constructor; [|done]. rewrite Hseq. intros (x & Hx & Hin)%list_elem_of_fmap. rewrite Forall_forall in H2. specialize (H2 x Hin). lia.
  - cbn [map]. rewrite Hseq. left.
Qed.
End Keys.

(** ** Operations *)

(** A store whose loads give what it durably holds, and whose saves, failing or not, leave it
    holding that or the state saved: [AgreementKeyStore::save] is one write. *)
Class AtomicStore {S : Type} (store : AgreementKeyStore S) (held : S → option AgreementKeyState) : Prop := {
  atomic_load s x : aks_load S store s = Ok x → x = held s;
  atomic_save st s r s' : typed_state st → aks_save S store st s = (r, s') → held s' = held s ∨ held s' = Some st }.

#[export] Instance memory_agreement_atomic : AtomicStore MemoryAgreementKeyStore fst.
Proof.
  split.
  - intros s x [= <-]. done.
  - intros st [x b] r s' _. cbn. unfold memory_agreement_save. destruct b; intros [= <- <-]; auto.
Qed.

Section Store.
Context `{C : Crypto} `{HC : !CryptoLaws C} `{H : Hpke} (d : DeviceIdentity).
Context {S : Type} (store : AgreementKeyStore S) (held : S → option AgreementKeyState) `{HS : !AtomicStore store held}.

Lemma same_states a b :
  length a = length b →
  forallb (λ '(a, b), (sk_seq a =? sk_seq b) && bool_decide (sk_issued_at a = sk_issued_at b) &&
                      beq (sk_private_key a) (sk_private_key b)) (combine a b) = true → a = b.
Proof.
  revert b. induction a as [|x a IH]; intros [|y b] Hl Hf; try done. cbn [combine forallb] in Hf. bool_hyps.
  match goal with E : beq _ _ = true |- _ => apply beq_true in E end. destruct x, y. cbn in *. f_equal; [congruence|]. apply IH; [lia|done].
Qed.

Lemma save_checked_spec state s r s' :
  typed_state state → save_checked store state s = (r, s') →
  match r with Ok _ => held s' = Some state | Err _ => held s' = held s ∨ held s' = Some state end.
Proof.
  intros Hst. unfold save_checked. destruct (aks_save S store state s) as [[] s1] eqn:Es; intros [= <- <-];
    pose proof (atomic_save _ _ _ _ Hst Es) as Hh; [|done].
  destruct (aks_load S store s1) as [[back|]|] eqn:El; [|done|done]. pose proof (atomic_load _ _ El) as Hb.
  destruct (_ && _ && _) eqn:E; [|done]. bool_hyps. rewrite <- Hb. f_equal. destruct back, state. cbn in *. f_equal; [|done]. by apply same_states.
Qed.

(** Generating a key on top of [os]: the new state, saved or not, and the keys made of it. *)
Lemma generate_spec draws os h seq now s r s' :
  Forall typed_octets draws → typed_time now → (os = [] ∨ counted d os h) → (os ≠ [] → h < seq) → 0 ≤ seq ≤ MAX_STATEMENT_SEQ →
  generate store d draws (map stored_key os) seq now s = Some (r, s') →
  ∃ st, state_ok d st seq ∧ (∃ p, kst_keys st = mkStoredKey p seq now :: map stored_key os) ∧
    match r with
    | Ok ks => held s' = Some st ∧ from_state d st = Some (Ok ks) ∧ keys_ok d ks ∧ ag_highest_seq ks = seq ∧
               map stored_key (ag_keys ks) ≡ₚ kst_keys st
    | Err _ => held s' = held s ∨ held s' = Some st
    end.
Proof.
  intros Hd Hn Hos Hlt Hs Hg. unfold generate in Hg. apply option_bind_Some in Hg as (p & Hp & Hg).
  pose proof (new_state_ok d draws p now os h seq Hd Hn Hp Hos Hlt Hs) as Hok. cbv zeta in Hg.
  set (st := mkKeyState _ _) in *. exists st. split; [done|]. split; [by eexists|].
  destruct (save_checked store st s) as [[] s1] eqn:Ec; apply save_checked_spec in Ec; try by eapply state_ok_typed.
  - destruct (from_state_ok d st seq Hok) as (ks & Hf & Hk & Hh & Hm). rewrite Hf in Hg. injection Hg as <- <-. done.
  - by injection Hg as <- <-.
Qed.

(** ** A device over its life

    [lf_given] lists the keys whose statements were given out, in order.  The life is that of a
    count: [restart_count], by which a count that is lost or at its maximum starts again from
    zero where a peer has removed the device's key ([SEC-SEL-052]), begins another life. *)
Record Life := mkLife { lf_keys : option AgreementKeys; lf_store : S; lf_given : list OwnKey }.

Definition give (ks : AgreementKeys) (s : S) (given : list OwnKey) : Life :=
  mkLife (Some ks) s (given ++ match current_key ks with Some k => [k] | None => [] end).

Inductive life_step : Life → Life → Prop :=
| Li_start_ok s given draws now ks s' :
    Forall typed_octets draws → typed_time now → keys_load_or_generate store d draws now s = Some (Ok ks, s') →
    life_step (mkLife None s given) (give ks s' given)
| Li_start_failed s given draws now e s' :
    Forall typed_octets draws → typed_time now → keys_load_or_generate store d draws now s = Some (Err e, s') →
    life_step (mkLife None s given) (mkLife None s' given)
| Li_replace_ok ks s given draws now st ks' s' :
    Forall typed_octets draws → typed_time now → keys_replace store d draws now ks s = Some (Ok st, ks', s') →
    life_step (mkLife (Some ks) s given) (give ks' s' given)
| Li_replace_failed ks s given draws now e ks' s' :
    Forall typed_octets draws → typed_time now → keys_replace store d draws now ks s = Some (Err e, ks', s') →
    life_step (mkLife (Some ks) s given) (mkLife (Some ks') s' given)
| Li_erase ks s given r ks' s' :
    erase_replaced store ks s = Some (r, ks', s') →
    life_step (mkLife (Some ks) s given) (mkLife (Some ks') s' given)
| Li_stop ks s given : life_step (mkLife ks s given) (mkLife None s given)
| Li_outside ks s given s' : held s' = held s → life_step (mkLife ks s given) (mkLife ks s' given).

(** What was given out is below a count, or the key that has it. *)
Definition covered (given : list OwnKey) (h : Z) (os : list StoredAgreementKey) : Prop :=
  Forall (λ k, ok_seq k < h ∨ (ok_seq k = h ∧ stored_key k ∈ os)) given.

Definition in_order (a b : OwnKey) : Prop := ok_seq a < ok_seq b ∨ a = b.

Record life_ok (l : Life) : Prop := {
  lo_given : StronglySorted in_order (lf_given l) ∧ Forall (own_ok d) (lf_given l);
  lo_keys ks : lf_keys l = Some ks → keys_ok d ks ∧ covered (lf_given l) (ag_highest_seq ks) (map stored_key (ag_keys ks)) ∧
    current_key ks = list.last (lf_given l);
  lo_store : match held (lf_store l) with
             | None => lf_given l = []
             | Some st => ∃ h, state_ok d st h ∧ covered (lf_given l) h (kst_keys st)
             end }.

Lemma own_ok_inj a b : own_ok d a → own_ok d b → stored_key a = stored_key b → a = b.
Proof. intros [_ ?] [_ ?] ?. congruence. Qed.

Lemma covered_perm given h os os' : os ≡ₚ os' → covered given h os → covered given h os'.
Proof. intros Hp Hc. eapply Forall_impl; [exact Hc|]. intros k [?|[??]]; [by left|right; by rewrite <- Hp]. Qed.

Lemma covered_below given h h' os os' : h < h' → covered given h os → covered given h' os'.
Proof. intros Hlt Hc. eapply Forall_impl; [exact Hc|]. intros k [?|[? _]]; left; lia. Qed.

Lemma covered_states given h os os' :
  Forall (own_ok d) given → counted d os h → (∀ k, k ∈ os → ok_seq k = h → stored_key k ∈ os') →
  covered given h (map stored_key os) → covered given h os'.
Proof.
  intros Hg Hc Hin Hv. eapply Forall_impl; [exact Hv|]. intros k [?|[Hh (x & Hx & Hi)%list_elem_of_fmap]]; [by left|]. right. split; [done|].
  rewrite Hx. apply Hin; [done|]. injection Hx. congruence.
Qed.

(** Giving out the statement of the current key, when all given so far is covered. *)
Lemma give_ok ks st s h given :
  keys_ok d ks → ag_highest_seq ks = h → held s = Some st → state_ok d st h → map stored_key (ag_keys ks) ≡ₚ kst_keys st →
  covered given h (kst_keys st) → StronglySorted in_order given ∧ Forall (own_ok d) given → life_ok (give ks s given).
Proof.
  intros Hk <- Hh Hst Hm Hcov [Hs Ho]. destruct (current_key_spec d ks Hk) as (k & Hc & Hin & Hseq). unfold give. rewrite Hc.
  assert (own_ok d k) as Hok by (destruct Hk as [[Hf _ _ _] _]; rewrite Forall_forall in Hf; by apply Hf).
  assert (stored_key k ∈ kst_keys st) as Hkin by (rewrite <- Hm; by apply list_elem_of_fmap_2).
  assert (covered (given ++ [k]) (ag_highest_seq ks) (kst_keys st)) as Hcov'
    by (unfold covered; rewrite Forall_app, Forall_singleton; split; [done|by right]).
  split; cbn [lf_given lf_keys lf_store].
  - split; [|by rewrite Forall_app, Forall_singleton]. apply StronglySorted_app. split_and!; [|done|by repeat constructor].
    intros a b Ha ->%list_elem_of_singleton. unfold covered in Hcov. rewrite Forall_forall in Hcov. destruct (Hcov a Ha) as [?|[He Hi]]; [left; lia|right].
    rewrite <- Hm in Hi. apply list_elem_of_fmap in Hi as (x & Hx & Hxin). rewrite Forall_forall in Ho.
    assert (x = k) as -> by (eapply counted_unique; [apply Hk|done|done|injection Hx; congruence]). apply own_ok_inj; auto.
  - intros ks' [= <-]. split_and!; [done|by eapply covered_perm|by rewrite last_snoc].
  - rewrite Hh. eauto.
Qed.

Lemma held_failed s s' given st h :
  match held s with None => given = [] | Some st => ∃ h, state_ok d st h ∧ covered given h (kst_keys st) end →
  state_ok d st h ∧ covered given h (kst_keys st) → held s' = held s ∨ held s' = Some st →
  match held s' with None => given = [] | Some st => ∃ h, state_ok d st h ∧ covered given h (kst_keys st) end.
Proof. intros Hs Hst [->| ->]; eauto. Qed.

(** Starting from the store: the keys it holds, or the first. *)
Lemma start_cases s draws now r s' (given : list OwnKey) :
  Forall typed_octets draws → typed_time now →
  match held s with None => given = [] | Some st => ∃ h, state_ok d st h ∧ covered given h (kst_keys st) end →
  keys_load_or_generate store d draws now s = Some (r, s') →
  (∃ e, r = Err e ∧ held s' = held s) ∨
  ∃ st h, state_ok d st h ∧ covered given h (kst_keys st) ∧
    match r with
    | Ok ks => held s' = Some st ∧ keys_ok d ks ∧ ag_highest_seq ks = h ∧ map stored_key (ag_keys ks) ≡ₚ kst_keys st
    | Err _ => held s' = held s ∨ held s' = Some st
    end.
Proof.
  intros Hd Hn Hs Hl. unfold keys_load_or_generate in Hl. destruct (aks_load S store s) as [x|] eqn:El.
  2: { injection Hl as <- <-. left. by eexists. }
  apply atomic_load in El. rewrite <- El in Hs. destruct x as [st|].
  - destruct Hs as (h & Hst & Hc). destruct (from_state_ok d st h Hst) as (ks & Hf & Hk & Hh & Hm).
    destruct (kst_keys st) as [|k ks0] eqn:Ek.
    + exfalso. destruct Hst as (os & -> & [_ _ _ Hin]). destruct os; [by apply not_elem_of_nil in Hin|done].
    + rewrite Hf in Hl. injection Hl as <- <-. right. exists st, h. split_and!; try done; by rewrite ?Ek.
  - subst given. apply (generate_spec draws [] 0) in Hl as (st & Hst & _ & Hr); [|done|done|by left|done|unfold MAX_STATEMENT_SEQ; lia].
    right. exists st, 0. split_and!; [done|constructor|]. destruct r as [ks|]; [by destruct Hr as (? & _ & ?)|done].
Qed.

Lemma replace_cases ks s draws now r ks' s' :
  Forall typed_octets draws → typed_time now → keys_ok d ks → keys_replace store d draws now ks s = Some (r, ks', s') →
  (∃ e, r = Err e ∧ ks' = ks ∧ s' = s) ∨
  ∃ st, state_ok d st (ag_highest_seq ks + 1) ∧ (∃ p, kst_keys st = mkStoredKey p (ag_highest_seq ks + 1) now :: map stored_key (ag_keys ks)) ∧
    match r with
    | Ok out => held s' = Some st ∧ keys_ok d ks' ∧ ag_highest_seq ks' = ag_highest_seq ks + 1 ∧
                map stored_key (ag_keys ks') ≡ₚ kst_keys st ∧ keys_statement ks' = Some out
    | Err _ => ks' = ks ∧ (held s' = held s ∨ held s' = Some st)
    end.
Proof.
  intros Hd Hn Hk Hr. pose proof Hk as [Hc _]. unfold keys_replace, next_seq in Hr. destruct (_ <=? _) eqn:E; bool_hyps.
  { injection Hr as <- <- <-. left. by eexists. }
  apply option_bind_Some in Hr as ([r1 s1] & Hg & Hr). right.
  pose proof (counted_seq d _ _ Hc) as H0.
  apply (generate_spec draws (ag_keys ks) (ag_highest_seq ks)) in Hg as (st & Hst & Hp & Hg); [|done|done|by right|lia|lia].
  exists st. split; [done|]. split; [done|]. destruct r1 as [ks1|].
  - destruct Hg as (Hh & _ & Hk1 & Hseq & Hm). unfold keys_statement in *. destruct (current_key_spec d ks1 Hk1) as (k & Hck & _).
    rewrite Hck in Hr. injection Hr as <- <- <-. rewrite Hck. done.
  - injection Hr as <- <- <-. done.
Qed.

Lemma erase_cases ks s r ks' s' :
  keys_ok d ks → erase_replaced store ks s = Some (r, ks', s') →
  ∃ k, current_key ks = Some k ∧
    let st := mkKeyState [stored_key k] (Some (ag_highest_seq ks)) in
    state_ok d st (ag_highest_seq ks) ∧
    match r with
    | Ok n => ks' = mkAgreementKeys [k] (ag_highest_seq ks) ∧ keys_ok d ks' ∧ held s' = Some st ∧ n = Z.of_nat (length (ag_keys ks)) - 1
    | Err _ => ks' = ks ∧ (held s' = held s ∨ held s' = Some st)
    end.
Proof.
  intros Hk He. destruct (current_key_spec d ks Hk) as (k & Hc & Hin & Hseq). exists k. split; [done|]. cbn zeta.
  unfold erase_replaced in He. rewrite Hc in He. cbn [mbind option_bind] in He.
  assert (counted d [k] (ag_highest_seq ks)) as Hcount.
  { destruct Hk as [[Ho Hr _ _] _]. rewrite Forall_forall in Ho, Hr. split; cbn [map]; rewrite ?Forall_singleton; auto using NoDup_singleton.
    rewrite Hseq. left. }
  assert (state_ok d (mkKeyState [stored_key k] (Some (ag_highest_seq ks))) (ag_highest_seq ks)) as Hst by (by exists [k]).
  split; [done|]. destruct (save_checked store _ s) as [[] s1] eqn:Es; (apply save_checked_spec in Es; [|by eapply state_ok_typed]);
    injection He as <- <- <-; [|done].
  split_and!; try done. split; [done|]. by repeat constructor.
Qed.

Lemma life_step_ok l l' : life_step l l' → life_ok l → life_ok l'.
Proof.
  intros Hs [Hg Hk Ht]. destruct Hs as [s given draws now ks s' Hdr Hno Hl|s given draws now e s' Hdr Hno Hl|ks s given draws now st ks' s' Hdr Hno Hr
    |ks s given draws now e ks' s' Hdr Hno Hr|ks s given r ks' s' He|ks s given|ks s given s' Hh]; cbn [lf_given lf_keys lf_store] in *.
  - apply (start_cases _ _ _ _ _ given) in Hl as [(e & ? & _)|(st & h & Hst & Hc & Hh & Hko & Hhs & Hm)]; [done| |done..].
    by eapply give_ok.
  - split; [done|done|]. cbn [lf_store lf_given]. apply (start_cases _ _ _ _ _ given) in Hl as [(e' & _ & ->)|(st & h & Hst & Hc & Hh)]; [done| |done..].
    cbn [lf_store]. by eapply held_failed.
  - destruct (Hk ks eq_refl) as (Hko & Hc & _).
    apply replace_cases in Hr as [(e & ? & _)|(st1 & Hst & _ & Hh & Hk' & Hseq & Hm & _)]; [done| |done..].
    eapply give_ok; try done. eapply covered_below; [|exact Hc]. lia.
  - destruct (Hk ks eq_refl) as (Hko & Hc & Hcur).
    apply replace_cases in Hr as [(e' & _ & -> & ->)|(st1 & Hst & _ & -> & Hh)]; [by split| |done..]. split; [done|done|].
    cbn [lf_store]. eapply held_failed; [done|split; [exact Hst|]|done]. eapply covered_below; [|exact Hc]. lia.
  - destruct (Hk ks eq_refl) as (Hko & Hc & Hcur). apply erase_cases in He as (k & Hck & Hst & He); [|done]. cbv zeta in *.
    assert (covered given (ag_highest_seq ks) [stored_key k]) as Hcov.
    { eapply covered_states; [apply Hg|apply Hko| |done]. intros x Hx Hseq.
      rewrite (current_key_unique d ks x Hko Hx Hseq) in Hck. injection Hck as ->. left. }
    destruct r as [n|]; [destruct He as (-> & Hk' & Hh & _)|destruct He as (-> & Hh)]; split; try done.
    + intros ks' [= <-]. cbn [lf_given ag_keys ag_highest_seq map]. split_and!; [done|done|]. rewrite <- Hcur, Hck. unfold current_key.
      cbn [ag_keys List.find]. by destruct (_ =? _).
    + cbn [lf_store lf_given]. rewrite Hh. eauto.
    + cbn [lf_store lf_given]. by eapply held_failed.
  - by split.
  - split; [done|done|]. cbn [lf_store]. by rewrite Hh.
Qed.

Lemma life_reachable_ok s l : held s = None → rtc life_step (mkLife None s []) l → life_ok l.
Proof.
  intros Hs Hr. assert (life_ok (mkLife None s [])) as H0.
  { split; [split; constructor|done|]. cbn [lf_store lf_given]. by rewrite Hs. }
  revert H0. induction Hr as [|x y z Hxy _ IH]; [done|]. intros Hx. by apply IH, (life_step_ok x).
Qed.
End Store.

(** ** Statements given out *)

(** [C26] Over a device's life of starts, replacements, erasures, stops and failures of the
    store at any call, the statements it gives out never contradict each other: a later one
    has a higher number, or is the same statement again.  The keys in memory have different
    numbers up to the count, and the last statement given is the current key's. *)
Theorem statements_never_contradict `{C : Crypto} (HC : CryptoLaws C) `{H : Hpke} (d : DeviceIdentity) {S : Type}
    (store : AgreementKeyStore S) (held : S → option AgreementKeyState) (HS : AtomicStore store held) (s : S) (l : Life) :
  held s = None → rtc (life_step d store held) (mkLife None s []) l →
  StronglySorted (λ a b, ok_seq a < ok_seq b ∨ a = b) (lf_given l) ∧
  ∀ ks, lf_keys l = Some ks →
    NoDup (map ok_seq (ag_keys ks)) ∧ Forall (λ k, 0 ≤ ok_seq k ≤ ag_highest_seq ks) (ag_keys ks) ∧
    StronglySorted newest_first (ag_keys ks) ∧ keys_statement ks = ok_statement <$> list.last (lf_given l).
Proof.
  intros Hs Hr. destruct (life_reachable_ok d store held s l Hs Hr) as [[Hg _] Hk _]. split; [done|].
  intros ks Hks. destruct (Hk ks Hks) as ([[_ Hr' Hn _] Hso] & _ & Hc). split_and!; try done. unfold keys_statement. by rewrite Hc.
Qed.

Section Rotation.
Context `{C : Crypto} `{HC : !CryptoLaws C} `{H : Hpke} `{HL : !HpkeLaws H} (d : DeviceIdentity).

Lemma own_ok_public k :
  own_ok d k → ∃ pk, public_of (ok_private_key k) = Some (ok_hpke_key k, ak_octets pk) ∧
    AgreementPublicKey_from_octets (ak_octets pk) = Some pk ∧
    statement_issue d pk (ok_seq k) (ok_issued_at k) = Some (Some (ok_statement k)).
Proof.
  intros [_ Hk]. revert Hk. unfold own_key_of. cbn [sk_private_key sk_seq sk_issued_at stored_key]. destruct (public_of _) as [[sk pk]|]; [|done].
  destruct (AgreementPublicKey_from_octets pk) as [key|] eqn:Ek; [|done].
  destruct (statement_issue _ _ _ _) as [[st|]|] eqn:Es; [|done|done]. intros [= Hk]. exists key.
  pose proof Ek as Ek'. unfold AgreementPublicKey_from_octets, then_some in Ek'. destruct (is_acceptable_agreement_key pk); [|done].
  injection Ek' as <-. cbn [ak_octets]. rewrite <- Hk. cbn. done.
Qed.

Lemma keys_open_iff ks frame : is_Some (keys_open ks frame) ↔ ∃ k, k ∈ ag_keys ks ∧ is_Some (open_under (ok_hpke_key k) frame).
Proof.
  unfold keys_open. induction (ag_keys ks) as [|k l IH]; cbn [omap list_omap head].
  - split; [by intros [? ?]|]. by intros (k & ?%not_elem_of_nil & _).
  - destruct (open_under (ok_hpke_key k) frame) eqn:E.
    + split; [|done]. intros _. exists k. split; [left|by rewrite E].
    + rewrite IH. split; intros (x & Hx & Ho); exists x; [split; [by right|done]|].
      apply elem_of_cons in Hx as [->|Hx]; [rewrite E in Ho; by destruct Ho|done].
Qed.

Lemma public_statable sk key seq t :
  AgreementPublicKey_from_octets (hpke_public_of sk) = Some key → 0 ≤ seq → Timestamp_parse (ts_text t) = Some t → statable key seq t.
Proof.
  intros Hk Hs Ht. destruct (hpke_public_32 sk) as [H32 H8]. split_and!; [|done|done].
  assert (ak_octets key = hpke_public_of sk) as Ho.
  { unfold AgreementPublicKey_from_octets, then_some in Hk. destruct (is_acceptable_agreement_key _); [|done]. by injection Hk as <-. }
  unfold AgreementPublicKey_from_base64url, agreement_to_base64url.
  rewrite Ho. assert (decode_exact 32 (encode (hpke_public_of sk)) = Some (hpke_public_of sk)) as ->.
  { by apply decode_exact_canonical. }
  done.
Qed.

Lemma kept_open ks ks' frame :
  keys_ok d ks → keys_ok d ks' → (∀ k, k ∈ ag_keys ks → stored_key k ∈ map stored_key (ag_keys ks')) →
  is_Some (keys_open ks frame) → is_Some (keys_open ks' frame).
Proof.
  rewrite !keys_open_iff. intros [[Ho _ _ _] _] [[Ho' _ _ _] _] Hin (k & Hk & Hop). rewrite Forall_forall in Ho, Ho'.
  specialize (Hin k Hk). apply list_elem_of_fmap in Hin as (x & Hx & Hxin).
  exists x. split; [done|]. by rewrite <- (own_ok_inj d k x (Ho k Hk) (Ho' x Hxin) Hx).
Qed.

(** A peer that trusts the device admits the statement of its current key, and what it seals
    to that key opens. *)
Lemma current_admitted ks st trusted heldf at_ :
  device_ok d → keys_ok d ks → keys_statement ks = Some st →
  ts_entries trusted !! tk_key_id (di_entry d) = Some (di_entry d) →
  (∀ k, current_key ks = Some k → Timestamp_parse (ts_text (ok_issued_at k)) = Some (ok_issued_at k) ∧
     unix_nanos (ok_issued_at k) < unix_nanos at_ + WINDOW_NANOS) →
  (∀ h, heldf (tk_key_id (di_entry d)) = Some h → hs_seq h < ag_highest_seq ks) →
  ∃ hs, check_statement st trusted heldf at_ = Ok hs ∧ hs_key_id hs = tk_key_id (di_entry d) ∧ hs_seq hs = ag_highest_seq ks ∧
    ∀ rnd kind payload max frame, Forall is_u8 payload → Z.of_nat (length payload) ≤ U32_MAX →
      seal rnd (hs_agreement_key hs) kind payload max = Ok frame → is_Some (keys_open ks frame).
Proof.
  intros Hd Hk Hst Htr Hnow Hheld. destruct (current_key_spec d ks Hk) as (k & Hc & Hin & Hseq). destruct (Hnow k Hc) as [Hp Hw].
  unfold keys_statement in Hst. rewrite Hc in Hst. injection Hst as <-. destruct Hk as [[Ho Hr _ _] _]. rewrite Forall_forall in Ho, Hr.
  destruct (own_ok_public k (Ho k Hin)) as (pk & Hpub & Hof & Hiss). specialize (Hr k Hin).
  assert (ak_octets pk = hpke_public_of (ok_hpke_key k)) as Hpk.
  { unfold public_of in Hpub. apply option_bind_Some in Hpub as (sk & _ & [= -> ->]). done. }
  assert (statable pk (ok_seq k) (ok_issued_at k)) as Hs by (eapply public_statable; [by rewrite <- Hpk|lia|done]).
  exists (mkHeld (tk_key_id (di_entry d)) pk (ok_seq k) (ok_issued_at k)). split_and!; [|done|done|].
  - rewrite (issue_check d pk (ok_seq k) (ok_issued_at k) (ok_statement k) trusted heldf at_ Hd Htr Hs Hiss).
    rewrite (proj2 (Z.leb_gt _ _)) by done. destruct (heldf _) as [h|] eqn:Eh; [|done].
    rewrite (proj2 (Z.leb_gt _ _)); [done|]. rewrite Hseq. by apply Hheld.
  - cbn [hs_agreement_key]. intros rnd kind payload max frame Hu Hl Hf.
    pose proof (seal_spec HL rnd (ok_private_key k) (ok_hpke_key k) (ak_octets pk) pk kind payload max Hpub Hof Hu Hl) as Hx.
    rewrite Hf in Hx. destruct Hx as (_ & Hopen & _). unfold open_frame in Hopen. rewrite Hpub in Hopen. cbn [mbind option_bind] in Hopen.
    apply keys_open_iff. exists k. split; [done|]. by rewrite Hopen.
Qed.
End Rotation.

(** A replaced agreement key leaves no gap.  A peer that trusts the device and holds
    any earlier statement of it admits the new one, unless it is issued too far ahead of the
    peer's clock; what the peer then seals opens, and what was sealed to any key held before
    the replacement still opens. *)
Theorem rotation_keeps_frames `{C : Crypto} (HC : CryptoLaws C) `{H : Hpke} (HL : HpkeLaws H) (d : DeviceIdentity) {S : Type}
    (store : AgreementKeyStore S) (held : S → option AgreementKeyState) (HS : AtomicStore store held) (s0 : S) (l : Life)
    (ks ks' : AgreementKeys) (draws : list (list Z)) (now : Timestamp) (st : AgreementStatement) (s' : S) :
  device_ok d → held s0 = None → rtc (life_step d store held) (mkLife None s0 []) l → lf_keys l = Some ks →
  Forall typed_octets draws → typed_time now → keys_replace store d draws now ks (lf_store l) = Some (Ok st, ks', s') →
  (∀ trusted heldf at_,
     ts_entries trusted !! tk_key_id (di_entry d) = Some (di_entry d) → unix_nanos now < unix_nanos at_ + WINDOW_NANOS →
     (∀ h, heldf (tk_key_id (di_entry d)) = Some h → hs_seq h ≤ ag_highest_seq ks) →
     ∃ hs, check_statement st trusted heldf at_ = Ok hs ∧ hs_key_id hs = tk_key_id (di_entry d) ∧
       hs_seq hs = ag_highest_seq ks + 1 ∧
       ∀ rnd kind payload max frame, Forall is_u8 payload → Z.of_nat (length payload) ≤ U32_MAX →
         seal rnd (hs_agreement_key hs) kind payload max = Ok frame → is_Some (keys_open ks' frame)) ∧
  (∀ frame, is_Some (keys_open ks frame) → is_Some (keys_open ks' frame)).
Proof.
  intros Hd Hs0 Hr Hks Hdr Hnow Hrep. destruct (life_reachable_ok d store held s0 l Hs0 Hr) as [_ Hk _].
  destruct (Hk ks Hks) as (Hko & _ & _).
  apply (replace_cases d store held) in Hrep as [(e & ? & _)|(x & _ & [p Hp] & _ & Hk' & Hseq & Hm & Hst)]; [done| |done..].
  split.
  - intros trusted heldf at_ Htr Hw Hheld. rewrite <- Hseq.
    apply (current_admitted d ks' st trusted heldf at_ Hd Hk' Hst Htr).
    + intros k Hc. destruct (current_key_spec d ks' Hk') as (k' & Hc' & Hin & Hkseq). rewrite Hc in Hc'. injection Hc' as <-.
      assert (stored_key k ∈ kst_keys x) as Hi by (rewrite <- Hm; by apply list_elem_of_fmap_2).
      rewrite Hp in Hi. apply elem_of_cons in Hi as [Hi|(y & Hy & Hyin)%list_elem_of_fmap].
      * injection Hi as _ _ ->. done.
      * exfalso. destruct Hko as [[_ Hra _ _] _]. rewrite Forall_forall in Hra. specialize (Hra y Hyin). injection Hy. lia.
    + intros h Hh. specialize (Hheld h Hh). lia.
  - intros frame. apply (kept_open d ks ks' frame Hko Hk'). intros k Hin. rewrite Hm, Hp. right. by apply list_elem_of_fmap_2.
Qed.

(** ** A device that starts with no key and replaces its first *)

Definition sample_start : option (result AgreementKeyError AgreementKeys * (option AgreementKeyState * bool)) :=
  keys_load_or_generate (C := sample_pair) MemoryAgreementKeyStore (sample_device "alice" 1) [replicate 32 0; sample_agreement]
    sample_time (None, false).

Definition sample_first : AgreementKeys :=
  match sample_start with Some (Ok ks, _) => ks | _ => mkAgreementKeys [] 0 end.
Definition sample_held : option AgreementKeyState * bool :=
  match sample_start with Some (_, s) => s | _ => (None, false) end.

Lemma sample_life :
  rtc (life_step (C := sample_pair) (sample_device "alice" 1) MemoryAgreementKeyStore fst) (mkLife None (None, false) [])
    (give sample_first sample_held []).
Proof.
  apply rtc_once. eapply (Li_start_ok _ _ _ _ _ [replicate 32 0; sample_agreement] sample_time);
    [repeat constructor; vm_compute; congruence|vm_compute; reflexivity|vm_compute; reflexivity].
Qed.

Lemma rotation_keeps_frames_witness :
  ∃ st ks' s', keys_replace (C := sample_pair) MemoryAgreementKeyStore (sample_device "alice" 1) [5 :: replicate 31 0] sample_time
      sample_first sample_held = Some (Ok st, ks', s') ∧ ag_highest_seq ks' = 1 ∧
    ∀ frame, is_Some (keys_open sample_first frame) → is_Some (keys_open ks' frame).
Proof.
  destruct (keys_replace (C := sample_pair) MemoryAgreementKeyStore (sample_device "alice" 1) [5 :: replicate 31 0] sample_time
      sample_first sample_held) as [[[[st|] ks'] s']|] eqn:E; [|exfalso; vm_compute in E; discriminate E|exfalso; vm_compute in E; discriminate E].
  exists st, ks', s'. split; [reflexivity|]. split; [vm_compute in E; by injection E as _ <- _|].
  apply (rotation_keeps_frames (C := sample_pair) sample_pair_laws sample_hpke_laws (sample_device "alice" 1) MemoryAgreementKeyStore fst
    memory_agreement_atomic (None, false) (give sample_first sample_held []) sample_first ks' [5 :: replicate 31 0] sample_time st s'
    (sample_device_ok "alice" 1 eq_refl) eq_refl sample_life eq_refl ltac:(repeat constructor; vm_compute; congruence) ltac:(vm_compute; reflexivity) E).
Defined.
