(* ===== verification/IssuedPairing.v ===== *)
(** * Pairing windows of issued values ([core/src/issued_pairing.rs])

    The core issues a value on an attachment and opens a window for it; a later reveal of the
    value names the attachment, once and within the window.  Instants are nanoseconds. *)

From S2P Require Import Prelude Ids Json.

Definition PAIRING_VALUE_PREFIX : list Z := bs "oac-pair-".
Definition MAX_WINDOW : Z := 60 * 1000000000.
Definition MAX_WINDOWS : Z := 3.
Definition MAX_RECORDS : Z := 16.

Inductive RevealOutcome (A : Type) : Type :=
| Rv_Unknown
| Rv_Ended (a : A)
| Rv_Replayed (a : A)
| Rv_Conflict (a : A)
| Rv_Refused (a : A)
| Rv_Fresh (a : A).
Arguments Rv_Unknown {A}.
Arguments Rv_Ended {A} a.
Arguments Rv_Replayed {A} a.
Arguments Rv_Conflict {A} a.
Arguments Rv_Refused {A} a.
Arguments Rv_Fresh {A} a.

Inductive WindowState : Type := Ws_Open | Ws_Paired (native_id : list Z).

Record WindowRecord := mkWindow { wr_value : list Z; wr_opened : Z; wr_state : WindowState }.

Record Windows := mkWindows { wn_since_paired : Z; wn_records : list WindowRecord }.

(** [fresh_value] with what the random source gives; [None] when it fails. *)
Definition fresh_value (random : option (list Z)) : option (list Z) :=
  octets ← random;
  Some (PAIRING_VALUE_PREFIX ++ mjoin (map (λ o, [hex_digit (Z.shiftr o 4); hex_digit (Z.land o 15)]) octets)).

Section Windows.
Context {A : Type} `{Countable A}.

Record PairingWindows := mkPairingWindows {
  pw_window : Z; pw_by_attachment : gmap A Windows; pw_by_value : gmap (list Z) A }.

(** [PairingWindows::new]. *)
Definition windows_new (window : Z) : PairingWindows :=
  mkPairingWindows (Z.min (Z.max window 1000000) MAX_WINDOW) ∅ ∅.

Definition is_open (r : WindowRecord) : bool := match wr_state r with Ws_Open => true | Ws_Paired _ => false end.

Definition live (p : PairingWindows) (r : WindowRecord) (now : Z) : bool :=
  is_open r && (now <? wr_opened r + pw_window p).

(** [while records.len() > MAX_RECORDS]: the oldest go, with their values. *)
Fixpoint drop_oldest (l : list WindowRecord) (by_value : gmap (list Z) A) : list WindowRecord * gmap (list Z) A :=
  match l with
  | old :: rest =>
      if MAX_RECORDS <? Z.of_nat (length l) then drop_oldest rest (delete (wr_value old) by_value) else (l, by_value)
  | [] => ([], by_value)
  end.

Definition open_window (a : A) (value : list Z) (now : Z) (p : PairingWindows) : PairingWindows :=
  let w := default (mkWindows 0 []) (pw_by_attachment p !! a) in
  let '(records, by_value) := drop_oldest (wn_records w ++ [mkWindow value now Ws_Open]) (pw_by_value p) in
  mkPairingWindows (pw_window p) (<[ a := mkWindows (wn_since_paired w + 1) records ]> (pw_by_attachment p))
    (<[ value := a ]> by_value).

(** [PairingWindows::issue]. *)
Definition issue (a : A) (now : Z) (random : option (list Z)) (p : PairingWindows) : option (list Z) * PairingWindows :=
  let held := w ← pw_by_attachment p !! a; opt_filter (λ r, live p r now) (list.last (wn_records w)) in
  match held with
  | Some r => (Some (wr_value r), p)
  | None =>
      if match pw_by_attachment p !! a with Some w => MAX_WINDOWS <=? wn_since_paired w | None => false end then (None, p)
      else
        match fresh_value random with
        | None => (None, p)
        | Some value =>
            if is_some (pw_by_value p !! value) then (None, p)
            else (Some value, open_window a value now p)
        end
  end.

(** [iter_mut().find(|r| r.value == value)], and the record replaced. *)
Definition find_record (value : list Z) (l : list WindowRecord) : option WindowRecord :=
  List.find (λ r, beq (wr_value r) value) l.

Fixpoint set_first (value : list Z) (s : WindowState) (l : list WindowRecord) : list WindowRecord :=
  match l with
  | [] => []
  | r :: rest => if beq (wr_value r) value then mkWindow (wr_value r) (wr_opened r) s :: rest else r :: set_first value s rest
  end.

(** [PairingWindows::reveal]; [acceptable] is the caller's answer for the attachment. *)
Definition reveal (value native_id : list Z) (now : Z) (acceptable : A → bool) (p : PairingWindows)
    : RevealOutcome A * PairingWindows :=
  match pw_by_value p !! value with
  | None => (Rv_Unknown, p)
  | Some a =>
      match pw_by_attachment p !! a with
      | None => (Rv_Unknown, p)
      | Some w =>
          match find_record value (wn_records w) with
          | None => (Rv_Unknown, p)
          | Some r =>
              match wr_state r with
              | Ws_Paired n => if beq n native_id then (Rv_Replayed a, p) else (Rv_Conflict a, p)
              | Ws_Open =>
                  if wr_opened r + pw_window p <=? now then (Rv_Ended a, p)
                  else if negb (acceptable a) then (Rv_Refused a, p)
                  else (Rv_Fresh a, mkPairingWindows (pw_window p)
                          (<[ a := mkWindows (wn_since_paired w) (set_first value (Ws_Paired native_id) (wn_records w)) ]>
                             (pw_by_attachment p)) (pw_by_value p))
              end
          end
      end
  end.

(** [PairingWindows::paired] and [PairingWindows::forget]. *)
Definition windows_paired (a : A) (p : PairingWindows) : PairingWindows :=
  match pw_by_attachment p !! a with
  | Some w => mkPairingWindows (pw_window p) (<[ a := mkWindows 0 (wn_records w) ]> (pw_by_attachment p)) (pw_by_value p)
  | None => p
  end.

Definition windows_forget (a : A) (p : PairingWindows) : PairingWindows :=
  match pw_by_attachment p !! a with
  | Some w => mkPairingWindows (pw_window p) (delete a (pw_by_attachment p))
                (foldl (λ m r, delete (wr_value r) m) (pw_by_value p) (wn_records w))
  | None => p
  end.

Definition knows (a : A) (p : PairingWindows) : bool := is_some (pw_by_attachment p !! a).

(** ** Runs, with what was seen of them *)

Inductive window_op : Type :=
| Wo_Issue (a : A) (now : Z) (random : option (list Z))
| Wo_Reveal (value native_id : list Z) (now : Z) (acceptable : A → bool)
| Wo_Paired (a : A)
| Wo_Forget (a : A).

Inductive window_event : Type :=
| We_Opened (a : A) (value : list Z) (now : Z)
| We_Revealed (value native_id : list Z) (now : Z) (outcome : RevealOutcome A)
| We_Paired (a : A)
| We_Forgot (a : A).

Definition window_step (o : window_op) (p : PairingWindows) : list window_event * PairingWindows :=
  match o with
  | Wo_Issue a now random =>
      let '(v, p') := issue a now random p in
      (match v with Some v => if is_some (pw_by_value p !! v) then [] else [We_Opened a v now] | None => [] end, p')
  | Wo_Reveal value native_id now acceptable =>
      let '(out, p') := reveal value native_id now acceptable p in ([We_Revealed value native_id now out], p')
  | Wo_Paired a => ([We_Paired a], windows_paired a p)
  | Wo_Forget a => ([We_Forgot a], windows_forget a p)
  end.

Definition window_run (window : Z) (ops : list window_op) : list window_event * PairingWindows :=
  foldl (λ '(tr, p) o, let '(es, p) := window_step o p in (tr ++ es, p)) ([], windows_new window) ops.
End Windows.

(** ** Facts about the pairing windows

    The index of values is exact, the records and windows are bounded, and every outcome of a
    reveal is justified by what happened before it: a value pairs once, on the attachment it
    was issued on, within its window. *)

Section Facts.
Context {A : Type} `{Countable A}.
Implicit Types p : @PairingWindows A _ _.
Implicit Types tr : list (@window_event A).

(** ** The state *)

Definition has_record p (a : A) (r : WindowRecord) : Prop := ∃ w, pw_by_attachment p !! a = Some w ∧ r ∈ wn_records w.

Record windows_inv p : Prop := {
  wv_index v a : pw_by_value p !! v = Some a ↔ ∃ r, has_record p a r ∧ wr_value r = v;
  wv_nodup a w : pw_by_attachment p !! a = Some w → NoDup (map wr_value (wn_records w));
  wv_bounds a w : pw_by_attachment p !! a = Some w →
    Z.of_nat (length (wn_records w)) ≤ MAX_RECORDS ∧ 0 ≤ wn_since_paired w ≤ MAX_WINDOWS }.

Lemma find_record_spec v l r : NoDup (map wr_value l) → find_record v l = Some r ↔ r ∈ l ∧ wr_value r = v.
Proof.
  intros Hn. unfold find_record. split.
  - intros [Hr Hv%beq_true]%find_some. split; [by apply list_elem_of_In|done].
  - intros [Hr Hv]. induction l as [|x l IH]; [by apply not_elem_of_nil in Hr|]. cbn [map] in Hn. apply NoDup_cons in Hn as [Hx Hn].
    cbn [List.find]. destruct (beq (wr_value x) v) eqn:E.
    + apply beq_true in E. apply elem_of_cons in Hr as [->|Hr]; [done|]. exfalso. apply Hx. rewrite E, <- Hv. by apply list_elem_of_fmap_2.
    + apply elem_of_cons in Hr as [->|Hr]; [|by apply IH]. apply not_true_iff_false in E. exfalso. by apply E, beq_true.
Qed.

Lemma set_first_values v s l : map wr_value (set_first v s l) = map wr_value l.
Proof. induction l as [|x l IH]; [done|]. cbn [set_first]. destruct (beq _ _); cbn [map]; [done|]. by rewrite IH. Qed.

Lemma set_first_spec v s l x :
  NoDup (map wr_value l) →
  x ∈ set_first v s l ↔ (x ∈ l ∧ wr_value x ≠ v) ∨ ∃ r, r ∈ l ∧ wr_value r = v ∧ x = mkWindow v (wr_opened r) s.
Proof.
  induction l as [|y l IH]; intros Hn.
  - split; [by intros ?%not_elem_of_nil|]. intros [[?%not_elem_of_nil _]|(? & ?%not_elem_of_nil & _)]; done.
  - cbn [map] in Hn. apply NoDup_cons in Hn as [Hy Hn]. cbn [set_first]. destruct (beq (wr_value y) v) eqn:E.
    + apply beq_true in E. assert (∀ z, z ∈ l → wr_value z ≠ v) as Hz.
      { intros z Hz Hv. apply Hy. rewrite E, <- Hv. by apply list_elem_of_fmap_2. }
      rewrite elem_of_cons, E. split.
      * intros [->|Hx]; [right; exists y; split; [left|done]|left; split; [by right|auto]].
      * intros [[[->|Hx]%elem_of_cons Hv]|(r & [->|Hr]%elem_of_cons & Hv & ->)]; [done|by right|by left|by destruct (Hz r Hr)].
    + assert (wr_value y ≠ v) as Hv by (intros Hv; apply beq_true in Hv; congruence).
      rewrite elem_of_cons, (IH Hn). split.
      * intros [->|[[Hx Hxv]|(r & Hr & Hrv & ->)]]; [left; split; [left|done]|left; split; [by right|done]|right; exists r; split; [by right|done]].
      * intros [[[->|Hx]%elem_of_cons Hxv]|(r & [->|Hr]%elem_of_cons & Hrv & ->)]; [by left|right; left; done|done|right; right; by exists r].
Qed.

(** Dropping the oldest takes a prefix of the list, and its values. *)
Lemma drop_oldest_spec l m :
  let '(l', m') := drop_oldest (A := A) l m in
  ∃ gone, l = gone ++ l' ∧ Z.of_nat (length l') = Z.min (Z.of_nat (length l)) MAX_RECORDS ∧
    ∀ v, m' !! v = if decide (v ∈ map wr_value gone) then None else m !! v.
Proof.
  revert m. induction l as [|x l IH]; intros m; cbn [drop_oldest].
  - exists []. split_and!; [done|unfold MAX_RECORDS in *; cbn [length] in *; lia|]. intros v. by rewrite decide_False by apply not_elem_of_nil.
  - destruct (MAX_RECORDS <? _) eqn:E; bool_hyps.
    + specialize (IH (delete (wr_value x) m)). destruct (drop_oldest l _) as [l' m']. destruct IH as (gone & -> & Hl & Hm).
      exists (x :: gone). split_and!; [done|cbn [length] in *; lia|].
      intros v. rewrite Hm. cbn [map]. destruct (decide (v = wr_value x)) as [->|Hne].
      * rewrite (decide_True (P := wr_value x ∈ _ :: _)) by left. case_decide; [done|]. by rewrite lookup_delete_eq.
      * destruct (decide (v ∈ map wr_value gone)) as [Hi|Hi].
        -- by rewrite decide_True by (by right).
        -- rewrite decide_False by (rewrite elem_of_cons; tauto). by rewrite lookup_delete_ne.
    + exists []. split_and!; [done|unfold MAX_RECORDS in *; cbn [length] in *; lia|]. intros v. by rewrite decide_False by apply not_elem_of_nil.
Qed.

Definition since p (a : A) : Z := default 0 (wn_since_paired <$> pw_by_attachment p !! a).

Lemma no_value_no_record p v : windows_inv p → pw_by_value p !! v = None → ∀ a r, has_record p a r → wr_value r ≠ v.
Proof. intros Hi Hv a r Hr He. assert (pw_by_value p !! v = Some a) by (apply wv_index; [done|]; by exists r). congruence. Qed.

Lemma record_attachment p a a' r r' : windows_inv p → has_record p a r → has_record p a' r' → wr_value r = wr_value r' → a = a' ∧ r = r'.
Proof.
  intros Hi Hr Hr' Hv.
  assert (pw_by_value p !! wr_value r = Some a) as H1 by (apply wv_index; [done|]; by exists r).
  assert (pw_by_value p !! wr_value r' = Some a') as H2 by (apply wv_index; [done|]; by exists r').
  rewrite Hv in H1. assert (a = a') as -> by congruence. split; [done|].
  destruct Hr as (w & Hw & Hr), Hr' as (w' & Hw' & Hr'). assert (w = w') as <- by congruence.
  pose proof (wv_nodup p Hi a' w Hw) as Hn.
  pose proof (proj2 (find_record_spec (wr_value r) _ r Hn) (conj Hr eq_refl)).
  pose proof (proj2 (find_record_spec (wr_value r) _ r' Hn) (conj Hr' (eq_sym Hv))). congruence.
Qed.

Lemma open_window_spec a v now p :
  windows_inv p → pw_by_value p !! v = None → since p a < MAX_WINDOWS →
  let p' := open_window a v now p in let r0 := mkWindow v now Ws_Open in
  windows_inv p' ∧ pw_window p' = pw_window p ∧
  (∀ a' r, has_record p' a' r → has_record p a' r ∨ (a' = a ∧ r = r0)) ∧
  since p' a = since p a + 1 ∧ (∀ a', a' ≠ a → pw_by_attachment p' !! a' = pw_by_attachment p !! a') ∧
  ∃ w, pw_by_attachment p' !! a = Some w ∧ list.last (wn_records w) = Some r0.
Proof.
  intros Hi Hv Hs. unfold open_window, since in *. set (w := default (mkWindows 0 []) (pw_by_attachment p !! a)) in *.
  set (r0 := mkWindow v now Ws_Open).
  assert (0 ≤ wn_since_paired w < MAX_WINDOWS ∧ NoDup (map wr_value (wn_records w)) ∧ Z.of_nat (length (wn_records w)) ≤ MAX_RECORDS) as (Hw & Hn & Hl).
  { unfold w in *. destruct (pw_by_attachment p !! a) as [w0|] eqn:E; cbn in *.
    - pose proof (wv_bounds p Hi a w0 E). pose proof (wv_nodup p Hi a w0 E). unfold id in *. split_and!; try done; lia.
    - unfold MAX_WINDOWS, MAX_RECORDS. split_and!; [lia|lia|constructor|lia]. }
  assert (∀ r, r ∈ wn_records w → has_record p a r) as Hrec.
  { intros r Hr. unfold w in Hr. destruct (pw_by_attachment p !! a) as [w0|] eqn:E; cbn in Hr; [by exists w0|by apply not_elem_of_nil in Hr]. }
  pose proof (drop_oldest_spec (wn_records w ++ [r0]) (pw_by_value p)) as Hd.
  destruct (drop_oldest _ _) as [l' m']. destruct Hd as (gone & Hg & Hlen & Hm). cbn zeta. cbn [pw_by_attachment pw_by_value pw_window].
  assert (∃ l1, l' = l1 ++ [r0] ∧ wn_records w = gone ++ l1) as (l1 & -> & Hw1).
  { destruct l' as [|x l' _] using rev_ind; [rewrite length_app in Hlen; simpl in Hlen; unfold MAX_RECORDS in Hlen; lia|].
    rewrite app_assoc in Hg. apply app_inj_tail in Hg as [Hg <-]. by exists l'. }
  rewrite Hw1 in Hn. rewrite map_app in Hn. apply NoDup_app in Hn as (Hn1 & Hn12 & Hn2).
  assert (∀ r, r ∈ wn_records w → wr_value r ≠ v) as Hne by (intros r Hr; eapply no_value_no_record; eauto).
  assert (∀ a' r, has_record (mkPairingWindows (pw_window p) (<[a:=mkWindows (wn_since_paired w + 1) (l1 ++ [r0])]> (pw_by_attachment p)) (<[v:=a]> m')) a' r
    ↔ (a' ≠ a ∧ has_record p a' r) ∨ (a' = a ∧ (r ∈ l1 ∨ r = r0))) as Hh.
  { intros a' r. unfold has_record. cbn [pw_by_attachment]. destruct (decide (a' = a)) as [->|Ha].
    - setoid_rewrite lookup_insert_eq. split.
      + intros (w' & [= <-] & [Hr|Hr%list_elem_of_singleton]%elem_of_app); right; split; auto.
      + intros [[? _]|[_ Hr]]; [done|]. eexists. split; [done|]. cbn [wn_records]. rewrite elem_of_app, list_elem_of_singleton. done.
    - setoid_rewrite lookup_insert_ne; [|done]. split; [intros; by left|]. by intros [[_ ?]|[? _]]. }
  split_and!.
  - split; cbn [pw_by_value pw_by_attachment].
    + intros u b. setoid_rewrite Hh. destruct (decide (u = v)) as [->|Hu].
      * rewrite lookup_insert_eq. split.
        -- intros [= <-]. exists r0. split; [right; auto|done].
        -- intros (r & [[_ Hr]|[-> _]] & Hrv); [|done]. by destruct (no_value_no_record p v Hi Hv _ _ Hr).
      * rewrite lookup_insert_ne by done. rewrite Hm. case_decide as Hgo.
        -- split; [done|]. intros (r & [[Hb Hr]|[-> [Hr| ->]]] & Hrv); [| |done].
           ++ apply list_elem_of_fmap in Hgo as (g & Hgv & Hgo).
              assert (has_record p a g) as Hga by (apply Hrec; rewrite Hw1; apply elem_of_app; by left).
              destruct (record_attachment p b a r g Hi Hr Hga ltac:(congruence)). done.
           ++ exfalso. apply (Hn12 u Hgo). rewrite <- Hrv. by apply list_elem_of_fmap_2.
        -- rewrite (wv_index p Hi). split.
           ++ intros (r & Hr & Hrv). exists r. split; [|done]. destruct (decide (b = a)) as [->|]; [|by left]. right. split; [done|]. left.
              assert (r ∈ wn_records w) as Hrw.
              { destruct Hr as (w0 & E & Hr). unfold w. rewrite E. done. }
              rewrite Hw1 in Hrw. apply elem_of_app in Hrw as [Hrw|]; [|done]. exfalso. apply Hgo. rewrite <- Hrv. by apply list_elem_of_fmap_2.
           ++ intros (r & [[_ Hr]|[-> [Hr| ->]]] & Hrv); [by exists r| |done]. exists r. split; [|done]. apply Hrec. rewrite Hw1. apply elem_of_app. by right.
    + intros b w' Hb. destruct (decide (b = a)) as [->|]; [|rewrite lookup_insert_ne in Hb by done; by eapply wv_nodup].
      rewrite lookup_insert_eq in Hb. injection Hb as <-. cbn [wn_records]. rewrite map_app. apply NoDup_app. split_and!; [done| |apply NoDup_singleton].
      intros x Hx ->%list_elem_of_singleton. apply list_elem_of_fmap in Hx as (r & Hrv & Hr).
      apply (Hne r); [|done]. rewrite Hw1. apply elem_of_app. by right.
    + intros b w' Hb. destruct (decide (b = a)) as [->|]; [|rewrite lookup_insert_ne in Hb by done; by eapply wv_bounds].
      rewrite lookup_insert_eq in Hb. injection Hb as <-. cbn [wn_records wn_since_paired]. lia.
  - done.
  - intros a' r [[? ?]|[-> [Hr| ->]]]%Hh; [by left| |by right]. left. apply Hrec. rewrite Hw1. apply elem_of_app. by right.
  - rewrite lookup_insert_eq. cbn. unfold w. by destruct (pw_by_attachment p !! a).
  - intros a' Ha. by rewrite lookup_insert_ne.
  - rewrite lookup_insert_eq. eexists. split; [done|]. cbn [wn_records]. by rewrite last_snoc.
Qed.

Lemma has_record_insert p a w a' r :
  has_record (mkPairingWindows (pw_window p) (<[ a := w ]> (pw_by_attachment p)) (pw_by_value p)) a' r ↔
  (a' ≠ a ∧ has_record p a' r) ∨ (a' = a ∧ r ∈ wn_records w).
Proof.
  unfold has_record. cbn [pw_by_attachment]. destruct (decide (a' = a)) as [->|Ha].
  - setoid_rewrite lookup_insert_eq. split; [intros (? & [= <-] & ?); by right|]. intros [[? _]|[_ ?]]; [done|by eexists].
  - setoid_rewrite lookup_insert_ne; [|done]. split; [by left|]. by intros [[_ ?]|[? _]].
Qed.

(** Replacing the windows of an attachment by ones with the same values. *)
Lemma same_values_inv p a w w' :
  windows_inv p → pw_by_attachment p !! a = Some w → map wr_value (wn_records w') = map wr_value (wn_records w) →
  0 ≤ wn_since_paired w' ≤ MAX_WINDOWS →
  windows_inv (mkPairingWindows (pw_window p) (<[ a := w' ]> (pw_by_attachment p)) (pw_by_value p)).
Proof.
  intros Hi Hw Hv Hs. assert (∀ v, (∃ r, r ∈ wn_records w' ∧ wr_value r = v) ↔ ∃ r, r ∈ wn_records w ∧ wr_value r = v) as Hvals.
  { intros v. transitivity (v ∈ map wr_value (wn_records w')); [|rewrite Hv]; rewrite list_elem_of_fmap; naive_solver. }
  split; cbn [pw_by_value pw_by_attachment].
  - intros v b. rewrite (wv_index p Hi). setoid_rewrite has_record_insert. destruct (decide (b = a)) as [->|Hb].
    + split.
      * intros (r & (w0 & E & Hr) & Hrv). assert (w0 = w) as -> by congruence. destruct (proj2 (Hvals v)) as (r' & ? & ?); [by eexists|]. eauto 10.
      * intros (r & [[? _]|[_ Hr]] & Hrv); [done|]. destruct (proj1 (Hvals v)) as (r' & ? & ?); [by eexists|]. exists r'. split; [by exists w|done].
    + split; [intros (r & ? & ?); exists r; auto|]. intros (r & [[_ ?]|[? _]] & ?); [by exists r|done].
  - intros b w0 Hb. destruct (decide (b = a)) as [->|]; [|rewrite lookup_insert_ne in Hb by done; by eapply wv_nodup].
    rewrite lookup_insert_eq in Hb. injection Hb as <-. rewrite Hv. by eapply wv_nodup.
  - intros b w0 Hb. destruct (decide (b = a)) as [->|]; [|rewrite lookup_insert_ne in Hb by done; by eapply wv_bounds].
    rewrite lookup_insert_eq in Hb. injection Hb as <-. split; [|done]. rewrite <- (length_map wr_value), Hv, length_map. by eapply wv_bounds.
Qed.

Lemma reveal_spec v n now acceptable p :
  windows_inv p →
  let '(out, p') := reveal v n now acceptable p in
  match out with
  | Rv_Unknown => p' = p ∧ ∀ a r, has_record p a r → wr_value r ≠ v
  | Rv_Fresh a => ∃ r, has_record p a r ∧ wr_value r = v ∧ wr_state r = Ws_Open ∧ now < wr_opened r + pw_window p ∧ acceptable a = true ∧
      windows_inv p' ∧ pw_window p' = pw_window p ∧ (∀ b, since p' b = since p b) ∧
      (∀ b w, pw_by_attachment p' !! b = Some w → ∃ w0, pw_by_attachment p !! b = Some w0) ∧
      ∀ b x, has_record p' b x ↔ (has_record p b x ∧ wr_value x ≠ v) ∨ (b = a ∧ x = mkWindow v (wr_opened r) (Ws_Paired n))
  | Rv_Ended a => p' = p ∧ ∃ r, has_record p a r ∧ wr_value r = v ∧ wr_state r = Ws_Open ∧ wr_opened r + pw_window p ≤ now
  | Rv_Refused a => p' = p ∧ ∃ r, has_record p a r ∧ wr_value r = v ∧ wr_state r = Ws_Open ∧ now < wr_opened r + pw_window p ∧ acceptable a = false
  | Rv_Replayed a => p' = p ∧ ∃ r, has_record p a r ∧ wr_value r = v ∧ wr_state r = Ws_Paired n
  | Rv_Conflict a => p' = p ∧ ∃ r n', has_record p a r ∧ wr_value r = v ∧ wr_state r = Ws_Paired n' ∧ n' ≠ n
  end.
Proof.
  intros Hi. unfold reveal. destruct (pw_by_value p !! v) as [a|] eqn:Ev.
  2: { split; [done|]. by apply no_value_no_record. }
  destruct (proj1 (wv_index p Hi v a) Ev) as (r & (w & Hw & Hr) & Hrv). rewrite Hw.
  pose proof (wv_nodup p Hi a w Hw) as Hn. rewrite (proj2 (find_record_spec v _ r Hn)) by done.
  assert (has_record p a r) as Hhr by (by exists w). destruct (wr_state r) as [|n'] eqn:Es.
  2: { destruct (beq n' n) eqn:En; [apply beq_true in En; subst n'; eauto 10|].
       split; [done|]. exists r, n'. split_and!; try done. intros ->. by rewrite beq_refl in En. }
  destruct (_ <=? now) eqn:El; bool_hyps; [by eauto 10|]. destruct (acceptable a) eqn:Ea; cbn [negb]; [|eauto 10].
  exists r. split_and!; try done.
  - eapply same_values_inv; [done|done|apply set_first_values|]. cbn. by eapply wv_bounds.
  - intros b. unfold since. cbn. destruct (decide (b = a)) as [->|]; [by rewrite lookup_insert_eq, Hw|by rewrite lookup_insert_ne].
  - intros b w0. cbn. destruct (decide (b = a)) as [->|]; [by eauto|rewrite lookup_insert_ne by done; eauto].
  - intros b x. rewrite has_record_insert. cbn [wn_records]. rewrite set_first_spec by done. split.
    + intros [[Hb Hx]|[-> [[Hx Hxv]|(r' & Hr' & Hv' & ->)]]].
      * left. split; [done|]. intros Hxv. destruct (record_attachment p b a x r Hi Hx Hhr ltac:(congruence)). done.
      * left. split; [by exists w|done].
      * right. split; [done|]. assert (r' = r) as -> by (by apply (record_attachment p a a r' r Hi); [exists w|exists w|congruence]). done.
    + intros [[Hx Hxv]|[-> ->]].
      * destruct (decide (b = a)) as [->|]; [|by left]. right. split; [done|]. left. destruct Hx as (w0 & E & Hx). assert (w0 = w) as -> by congruence. done.
      * right. split; [done|]. right. by exists r.
Qed.

Lemma fold_delete_lookup (l : list WindowRecord) (m : gmap (list Z) A) (v : list Z) :
  foldl (λ m r, delete (wr_value r) m) m l !! v = if decide (v ∈ map wr_value l) then None else m !! v.
Proof.
  revert m. induction l as [|x l IH]; intros m; cbn [foldl map]; [by rewrite decide_False by apply not_elem_of_nil|]. rewrite IH.
  destruct (decide (v = wr_value x)) as [->|Hne].
  - rewrite (decide_True (P := wr_value x ∈ _ :: _)) by left. case_decide; [done|]. by rewrite lookup_delete_eq.
  - rewrite lookup_delete_ne by done. do 2 case_decide; try done; rewrite elem_of_cons in *; tauto.
Qed.

Lemma forget_spec a p :
  windows_inv p →
  let p' := windows_forget a p in
  windows_inv p' ∧ pw_window p' = pw_window p ∧ since p' a = 0 ∧ (∀ b, b ≠ a → since p' b = since p b) ∧
  ∀ b r, has_record p' b r ↔ b ≠ a ∧ has_record p b r.
Proof.
  intros Hi. unfold windows_forget. destruct (pw_by_attachment p !! a) as [w|] eqn:Ea; cbn zeta.
  2: { split_and!; try done; [by unfold since; rewrite Ea|]. intros b r. split; [|tauto]. intros Hr. split; [|done].
       intros ->. destruct Hr as (? & ? & _). congruence. }
  set (p' := mkPairingWindows _ _ _). assert (∀ b r, has_record p' b r ↔ b ≠ a ∧ has_record p b r) as Hh.
  { intros b r. unfold has_record, p'. cbn. destruct (decide (b = a)) as [->|].
    - setoid_rewrite lookup_delete_eq. split; [by intros (? & ? & _)|by intros [? _]].
    - setoid_rewrite lookup_delete_ne; [|done]. tauto. }
  split_and!; [|done|by unfold since, p'; cbn; rewrite lookup_delete_eq|intros b Hb; unfold since, p'; cbn; by rewrite lookup_delete_ne|done].
  split.
  - intros v b. setoid_rewrite Hh. unfold p'. cbn [pw_by_value]. rewrite fold_delete_lookup. case_decide as Hv.
    + split; [done|]. intros (r & [Hb Hr] & Hrv). exfalso. apply list_elem_of_fmap in Hv as (x & Hx & Hxin).
      destruct (record_attachment p b a r x Hi Hr) as [? _]; [by exists w|congruence|done].
    + rewrite (wv_index p Hi). split; [|intros (r & [_ ?] & ?); eauto]. intros (r & Hr & Hrv). exists r. split; [split; [|done]|done].
      intros ->. apply Hv. destruct Hr as (w0 & E & Hr). assert (w0 = w) as -> by congruence. rewrite <- Hrv. by apply list_elem_of_fmap_2.
  - intros b w0. unfold p'. cbn. intros [_ Hb]%lookup_delete_Some. by eapply wv_nodup.
  - intros b w0. unfold p'. cbn. intros [_ Hb]%lookup_delete_Some. by eapply wv_bounds.
Qed.

Lemma paired_spec a p :
  windows_inv p →
  let p' := windows_paired a p in
  windows_inv p' ∧ pw_window p' = pw_window p ∧ since p' a = 0 ∧ (∀ b, b ≠ a → since p' b = since p b) ∧
  ∀ b r, has_record p' b r ↔ has_record p b r.
Proof.
  intros Hi. unfold windows_paired. destruct (pw_by_attachment p !! a) as [w|] eqn:Ea; cbn zeta.
  2: { split_and!; try done. by unfold since; rewrite Ea. }
  split_and!.
  - eapply same_values_inv; [done|done|done|]. unfold MAX_WINDOWS. cbn. lia.
  - done.
  - unfold since. cbn. by rewrite lookup_insert_eq.
  - intros b Hb. unfold since. cbn. by rewrite lookup_insert_ne.
  - intros b r. rewrite has_record_insert. cbn [wn_records]. split.
    + intros [[_ ?]|[-> ?]]; [done|by exists w].
    + intros Hr. destruct (decide (b = a)) as [->|]; [|by left]. right. split; [done|]. destruct Hr as (w0 & E & Hr). by assert (w0 = w) as -> by congruence.
Qed.

(** ** The newest record of an attachment *)

Definition last_record p (a : A) : option WindowRecord := w ← pw_by_attachment p !! a; list.last (wn_records w).

Definition mark (v n : list Z) (r : WindowRecord) : WindowRecord :=
  if beq (wr_value r) v then mkWindow (wr_value r) (wr_opened r) (Ws_Paired n) else r.

Lemma set_first_map v n l : NoDup (map wr_value l) → set_first v (Ws_Paired n) l = map (mark v n) l.
Proof.
  induction l as [|x l IH]; [done|]. cbn [map set_first]. intros [Hx Hn]%NoDup_cons. unfold mark at 1.
  destruct (beq (wr_value x) v) eqn:E; [|by rewrite IH]. f_equal. apply beq_true in E. rewrite <- (map_id l) at 1. apply map_ext_in.
  intros y Hy%list_elem_of_In. unfold mark. destruct (beq (wr_value y) v) eqn:Ey; [|done]. apply beq_true in Ey. exfalso. apply Hx.
  rewrite E, <- Ey. by apply list_elem_of_fmap_2.
Qed.

Lemma reveal_last v n now acceptable p a :
  windows_inv p → (reveal v n now acceptable p).1 = Rv_Fresh a →
  ∀ b, last_record (reveal v n now acceptable p).2 b = mark v n <$> last_record p b.
Proof.
  intros Hi Ho b. pose proof Ho as Ho'. unfold reveal in *. destruct (pw_by_value p !! v) as [a'|] eqn:Ev; [|done].
  destruct (pw_by_attachment p !! a') as [w|] eqn:Ew; [|done]. destruct (find_record v (wn_records w)) as [r|] eqn:Ef; [|done].
  destruct (wr_state r); [|by destruct (beq _ _)]. destruct (_ <=? now); [done|]. destruct (negb _); [done|]. cbn [snd].
  unfold last_record. cbn [pw_by_attachment]. destruct (decide (b = a')) as [->|Hb].
  - rewrite lookup_insert_eq, Ew. cbn [mbind option_bind wn_records]. rewrite set_first_map by (by eapply wv_nodup). apply fmap_last.
  - rewrite lookup_insert_ne by done. destruct (pw_by_attachment p !! b) as [w'|] eqn:Eb; [|done]. cbn [mbind option_bind].
    destruct (list.last (wn_records w')) as [x|] eqn:El; [|done]. cbn. f_equal. unfold mark. destruct (beq (wr_value x) v) eqn:Ex; [|done].
    apply beq_true in Ex. exfalso. apply Hb. apply (record_attachment p b a' x r Hi).
    + exists w'. split; [done|]. by apply last_Some_elem_of.
    + exists w. split; [done|]. apply find_some in Ef as [? _]. by apply list_elem_of_In.
    + apply find_some in Ef as [_ Hr%beq_true]. congruence.
Qed.

(** ** What the events say *)

Definition fresh_of (v : list Z) (e : @window_event A) : Prop :=
  match e with We_Revealed v' _ _ (Rv_Fresh _) => v' = v | _ => False end.

(** The value [v] was issued on [a] at [t] and not forgotten; [post] came after. *)
Definition opening tr (a : A) (v : list Z) (t : Z) (post : list window_event) : Prop :=
  (∃ pre, tr = pre ++ We_Opened a v t :: post) ∧ We_Forgot a ∉ post.

Definition justified tr (a : A) (r : WindowRecord) : Prop :=
  ∃ post, opening tr a (wr_value r) (wr_opened r) post ∧
    match wr_state r with
    | Ws_Open => Forall (λ e, ¬ fresh_of (wr_value r) e) post
    | Ws_Paired n => ∃ t, We_Revealed (wr_value r) n t (Rv_Fresh a) ∈ post
    end.

Definition opens_since (a : A) tr : Z :=
  foldl (λ n e, match e with
                | We_Opened b _ _ => if decide (b = a) then n + 1 else n
                | We_Paired b | We_Forgot b => if decide (b = a) then 0 else n
                | We_Revealed _ _ _ _ => n
                end) 0 tr.

Record trace_inv tr p : Prop := {
  tv_state : windows_inv p;
  tv_record a r : has_record p a r → justified tr a r;
  tv_since a : since p a = opens_since a tr;
  tv_last a v t post : opening tr a v t post → (∀ v' t', We_Opened a v' t' ∉ post) →
    ∃ r, last_record p a = Some r ∧ wr_value r = v ∧ wr_opened r = t ∧
      (wr_state r = Ws_Open ∨ ∃ n t', We_Revealed v n t' (Rv_Fresh a) ∈ post) }.

Lemma justified_snoc tr a r e :
  justified tr a r → e ≠ We_Forgot a → (wr_state r = Ws_Open → ¬ fresh_of (wr_value r) e) → justified (tr ++ [e]) a r.
Proof.
  intros (post & [[pre ->] Hf] & Hs) He Hfr. exists (post ++ [e]). split.
  - split; [exists pre; by rewrite <- app_assoc|]. rewrite elem_of_app, list_elem_of_singleton. naive_solver.
  - destruct (wr_state r) as [|n].
    + rewrite Forall_app, Forall_singleton. split; [done|by apply Hfr].
    + destruct Hs as [t Ht]. exists t. apply elem_of_app. by left.
Qed.

Lemma opening_snoc tr e a v t post :
  opening (tr ++ [e]) a v t post → (∃ post', post = post' ++ [e] ∧ opening tr a v t post') ∨ (post = [] ∧ e = We_Opened a v t).
Proof.
  intros [[pre Hp] Hf]. destruct post as [|x post _] using rev_ind.
  - right. apply app_inj_tail in Hp as [_ ->]. done.
  - left. rewrite app_comm_cons, app_assoc in Hp. apply app_inj_tail in Hp as [-> ->]. exists post. split; [done|]. split; [by exists pre|].
    rewrite elem_of_app in Hf. tauto.
Qed.

(** Events that change no record. *)
Lemma trace_quiet tr p p' e :
  trace_inv tr p → windows_inv p' → (∀ b r, has_record p' b r → has_record p b r ∧ e ≠ We_Forgot b) →
  (∀ v, ¬ fresh_of v e) → (∀ a v t, e ≠ We_Opened a v t) → (∀ a, since p' a = opens_since a (tr ++ [e])) →
  (∀ b, e ≠ We_Forgot b → last_record p' b = last_record p b) → trace_inv (tr ++ [e]) p'.
Proof.
  intros [Hi Hj Hs Hl] Hi' Hr Hf Ho Hs' Hl'. split; [done| |done|].
  - intros a r Hx. destruct (Hr a r Hx) as [Hx' He]. apply justified_snoc; auto.
  - intros a v t post Hop Hno. pose proof Hop as [_ Hnf].
    apply opening_snoc in Hop as [(post' & -> & Hop)|[_ ->]]; [|by destruct (Ho a v t)].
    rewrite elem_of_app, list_elem_of_singleton in Hnf. destruct (Hl a v t post' Hop) as (r & H1 & H2 & H3 & H4).
    { intros v' t' Hin. apply (Hno v' t'), elem_of_app. by left. }
    exists r. rewrite Hl' by naive_solver. split_and!; try done. destruct H4 as [?|(n & t' & Hin)]; [by left|right].
    exists n, t'. apply elem_of_app. by left.
Qed.

Lemma opens_since_snoc a tr e :
  opens_since a (tr ++ [e]) = match e with
                              | We_Opened b _ _ => if decide (b = a) then opens_since a tr + 1 else opens_since a tr
                              | We_Paired b | We_Forgot b => if decide (b = a) then 0 else opens_since a tr
                              | We_Revealed _ _ _ _ => opens_since a tr
                              end.
Proof. unfold opens_since. by rewrite foldl_snoc. Qed.

Lemma trace_opened tr p a v now :
  trace_inv tr p → pw_by_value p !! v = None → since p a < MAX_WINDOWS →
  trace_inv (tr ++ [We_Opened a v now]) (open_window a v now p).
Proof.
  intros [Hi Hj Hs Hl] Hv Hlt. destruct (open_window_spec a v now p Hi Hv Hlt) as (Hi' & _ & Hr & Hsa & Hsb & w & Hw & Hlast). split.
  - done.
  - intros b r [Hx|[-> ->]]%Hr; [apply justified_snoc; [by apply Hj|done|by intros _ []]|]. exists []. split; [|constructor]. split; [by exists tr|apply not_elem_of_nil].
  - intros b. rewrite opens_since_snoc. case_decide as E; [subst b; by rewrite Hsa, Hs|]. rewrite <- Hs. unfold since. by rewrite Hsb.
  - intros b u t post Hop Hno. apply opening_snoc in Hop as [(post' & -> & Hop)|[-> [= -> -> ->]]].
    + destruct (decide (b = a)) as [->|Hb]; [destruct (Hno v now); apply elem_of_app; right; by apply list_elem_of_singleton|].
      destruct (Hl b u t post' Hop) as (r & H1 & H2 & H3 & H4).
      { intros v' t' Hin. apply (Hno v' t'), elem_of_app. by left. }
      exists r. unfold last_record in *. rewrite Hsb by done. split_and!; try done. destruct H4 as [?|(n & t' & Hin)]; [by left|right].
      exists n, t'. apply elem_of_app. by left.
    + exists (mkWindow u t Ws_Open). unfold last_record. rewrite Hw. cbn. auto.
Qed.

Lemma trace_fresh tr p v n now acceptable a :
  trace_inv tr p → (reveal v n now acceptable p).1 = Rv_Fresh a →
  trace_inv (tr ++ [We_Revealed v n now (Rv_Fresh a)]) (reveal v n now acceptable p).2.
Proof.
  intros [Hi Hj Hs Hl] Ho. pose proof (reveal_spec v n now acceptable p Hi) as Hr. pose proof (reveal_last v n now acceptable p a Hi Ho) as Hlast.
  destruct (reveal v n now acceptable p) as [out p'] eqn:E. cbn [fst snd] in *. subst out.
  destruct Hr as (r & Hr & Hrv & _ & _ & _ & Hi' & _ & Hsince & _ & Hrec). split.
  - done.
  - intros b x [[Hx Hxv]|[-> ->]]%Hrec.
    + apply justified_snoc; [by apply Hj|done|]. intros _ Hf. cbn in Hf. congruence.
    + destruct (Hj a r Hr) as (post & [[pre Hp] Hf] & _). exists (post ++ [We_Revealed v n now (Rv_Fresh a)]). cbn [wr_value wr_opened wr_state].
      split; [split; [exists pre; rewrite Hp, <- app_assoc, Hrv; done|rewrite elem_of_app, list_elem_of_singleton; naive_solver]|].
      exists now. apply elem_of_app. right. by apply list_elem_of_singleton.
  - intros b. by rewrite opens_since_snoc, Hsince.
  - intros b u t post Hop Hno. apply opening_snoc in Hop as [(post' & -> & Hop)|[_ ?]]; [|done].
    destruct (Hl b u t post' Hop) as (x & H1 & H2 & H3 & H4).
    { intros v' t' Hin. apply (Hno v' t'), elem_of_app. by left. }
    exists (mark v n x). rewrite Hlast, H1. split; [done|]. unfold mark. destruct (beq (wr_value x) v) eqn:Ev.
    + apply beq_true in Ev. split_and!; try done. right. exists n, now. apply elem_of_app. right. apply list_elem_of_singleton.
      assert (has_record p b x) as Hbx.
      { unfold last_record in H1. destruct (pw_by_attachment p !! b) as [w|] eqn:Eb; [|done]. exists w. split; [done|]. by apply last_Some_elem_of. }
      destruct (record_attachment p b a x r Hi Hbx Hr ltac:(congruence)). congruence.
    + split_and!; try done. destruct H4 as [?|(n' & t' & Hin)]; [by left|right]. exists n', t'. apply elem_of_app. by left.
Qed.

(** ** Every step *)

Lemma trace_same tr p v n now out :
  trace_inv tr p → (∀ a, out ≠ Rv_Fresh a) → trace_inv (tr ++ [We_Revealed v n now out]) p.
Proof.
  intros Ht Ho. apply (trace_quiet tr p p); try done; [by apply Ht| |].
  - intros u. destruct out as [| | | | |a]; cbn; try tauto. by destruct (Ho a).
  - intros a. rewrite opens_since_snoc. apply Ht.
Qed.

Lemma issue_cases a now random p :
  windows_inv p →
  let '(v, p') := issue a now random p in
  (∃ r, p' = p ∧ v = Some (wr_value r) ∧ last_record p a = Some r ∧ live p r now = true ∧ is_some (pw_by_value p !! wr_value r) = true) ∨
  (p' = p ∧ v = None) ∨
  ∃ u, v = Some u ∧ p' = open_window a u now p ∧ pw_by_value p !! u = None ∧ since p a < MAX_WINDOWS ∧
    ∀ r, last_record p a = Some r → live p r now = false.
Proof.
  intros Hi. unfold issue. change (w ← pw_by_attachment p !! a; opt_filter (λ r, live p r now) (list.last (wn_records w)))
    with (pw_by_attachment p !! a ≫= λ w, opt_filter (λ r, live p r now) (list.last (wn_records w))).
  assert ((pw_by_attachment p !! a ≫= λ w, opt_filter (λ r, live p r now) (list.last (wn_records w))) =
    opt_filter (λ r, live p r now) (last_record p a)) as -> by (unfold last_record; by destruct (pw_by_attachment p !! a)).
  destruct (last_record p a) as [r|] eqn:El; cbn [opt_filter].
  - destruct (live p r now) eqn:Elv.
    + left. exists r. split_and!; try done. unfold last_record in El. destruct (pw_by_attachment p !! a) as [w|] eqn:Ew; [|done].
      assert (pw_by_value p !! wr_value r = Some a) as ->; [|done]. apply wv_index; [done|]. exists r. split; [|done]. exists w.
      split; [done|]. by apply last_Some_elem_of.
    + destruct (match pw_by_attachment p !! a with Some w => MAX_WINDOWS <=? wn_since_paired w | None => false end) eqn:Es; [by right; left|].
      destruct (fresh_value random) as [u|]; [|by right; left]. destruct (pw_by_value p !! u) eqn:Eu; cbn [is_some]; [by right; left|].
      right; right. exists u. split_and!; try done; [|intros ? [= <-]; done]. unfold since. destruct (pw_by_attachment p !! a); cbn; bool_hyps; [done|unfold MAX_WINDOWS; lia].
  - destruct (match pw_by_attachment p !! a with Some w => MAX_WINDOWS <=? wn_since_paired w | None => false end) eqn:Es; [by right; left|].
    destruct (fresh_value random) as [u|]; [|by right; left]. destruct (pw_by_value p !! u) eqn:Eu; cbn [is_some]; [by right; left|].
    right; right. exists u. split_and!; try done. unfold since. destruct (pw_by_attachment p !! a); cbn; bool_hyps; [done|unfold MAX_WINDOWS; lia].
Qed.

Lemma window_step_inv o tr p :
  trace_inv tr p → let '(es, p') := window_step o p in trace_inv (tr ++ es) p' ∧ pw_window p' = pw_window p.
Proof.
  intros Ht. pose proof (tv_state _ _ Ht) as Hi. destruct o as [a now random|v n now acc|a|a]; cbn [window_step].
  - pose proof (issue_cases a now random p Hi) as Hc. destruct (issue a now random p) as [v p'].
    destruct Hc as [(r & -> & -> & _ & _ & ->)|[[-> ->]|(u & -> & -> & Hu & Hs & _)]]; rewrite ?app_nil_r; [done|done|].
    rewrite Hu. cbn [is_some]. split; [by apply trace_opened|]. by apply open_window_spec.
  - pose proof (reveal_spec v n now acc p Hi) as Hr. pose proof (trace_fresh tr p v n now acc) as Hf.
    destruct (reveal v n now acc p) as [out p']. cbn [fst snd] in Hf. destruct out as [|a|a|a|a|a]; cbn in Hr.
    1-5: destruct Hr as [-> _]; split; [apply trace_same; [done|by intros]|done].
    split; [by apply Hf|]. destruct Hr as (r & Hr). apply Hr.
  - destruct (paired_spec a p Hi) as (Hi' & Hw & H0 & Hs & Hr). split; [|done]. apply (trace_quiet tr p); try done.
    + intros b r Hx. split; [by apply Hr|done].
    + intros v [].
    + intros b. rewrite opens_since_snoc. case_decide as E; [by subst b|]. rewrite Hs by done. apply Ht.
    + intros b _. unfold last_record, windows_paired. destruct (pw_by_attachment p !! a) as [w|] eqn:Ea; [|done]. cbn.
      destruct (decide (b = a)) as [->|]; [by rewrite lookup_insert_eq, Ea|by rewrite lookup_insert_ne].
  - destruct (forget_spec a p Hi) as (Hi' & Hw & H0 & Hs & Hr). split; [|done]. apply (trace_quiet tr p); try done.
    + intros b r [? ?]%Hr. split; [done|]. intros [= ->]. done.
    + intros v [].
    + intros b. rewrite opens_since_snoc. case_decide as E; [by subst b|]. rewrite Hs by done. apply Ht.
    + intros b Hb. assert (b ≠ a) by congruence. unfold last_record, windows_forget. destruct (pw_by_attachment p !! a) as [w|] eqn:Ea; [|done]. cbn.
      by rewrite lookup_delete_ne.
Qed.

Lemma window_run_snoc window (ops : list (@window_op A)) (o : @window_op A) :
  window_run window (ops ++ [o]) =
    let '(tr, p) := window_run window ops in let '(es, p') := window_step o p in (tr ++ es, p').
Proof. unfold window_run. rewrite foldl_snoc. by destruct (foldl _ _ ops). Qed.

Definition window_length (window : Z) : Z := Z.min (Z.max window 1000000) MAX_WINDOW.

Lemma window_run_inv window (ops : list (@window_op A)) :
  trace_inv (window_run window ops).1 (window_run window ops).2 ∧ pw_window (window_run window ops).2 = window_length window.
Proof.
  induction ops as [|o ops IH] using rev_ind.
  - unfold window_run. cbn. split; [|done]. split.
    + split; cbn; try (by intros ? ?; rewrite lookup_empty). intros v a. rewrite lookup_empty. split; [done|].
      intros (r & (w & Hw & _) & _). cbn in Hw. by rewrite lookup_empty in Hw.
    + intros a r (w & Hw & _). cbn in Hw. by rewrite lookup_empty in Hw.
    + intros a. unfold since. cbn. by rewrite lookup_empty.
    + intros a v t post [[pre Hp] _]. by destruct pre.
  - rewrite window_run_snoc. destruct (window_run window ops) as [tr p]. cbn [fst snd] in IH. destruct IH as [Ht Hw].
    pose proof (window_step_inv o tr p Ht) as Hs. destruct (window_step o p) as [es p']. cbn [fst snd]. destruct Hs as [? ->]. done.
Qed.

(** An event of a run is one of a step, after the events of the steps before it. *)
Lemma run_event window (ops : list (@window_op A)) pre e post :
  (window_run window ops).1 = pre ++ e :: post →
  ∃ ops' o, let '(tr, p) := window_run window ops' in
    tr = pre ∧ trace_inv pre p ∧ pw_window p = window_length window ∧ (window_step o p).1 = [e].
Proof.
  revert post. induction ops as [|o ops IH] using rev_ind; intros post Hp.
  - unfold window_run in Hp. cbn in Hp. by destruct pre.
  - rewrite window_run_snoc in Hp. pose proof (window_run_inv window ops) as [Ht Hw]. destruct (window_run window ops) as [tr p] eqn:Er. cbn [fst snd] in *.
    assert ((window_step o p).1 = [] ∨ ∃ x, (window_step o p).1 = [x]) as Hes.
    { destruct o as [a now random|v n now acc|a|a]; cbn [window_step]; [|destruct (reveal v n now acc p); by right; eexists|by right; eexists|by right; eexists].
      destruct (issue a now random p) as [[u|] ?]; [destruct (is_some _); [by left|by right; eexists]|by left]. }
    destruct (window_step o p) as [es p'] eqn:Eo. cbn [fst] in *. destruct Hes as [->|[x ->]]; [rewrite app_nil_r in Hp; by eapply IH|].
    destruct post as [|y post _] using rev_ind.
    + apply app_inj_tail in Hp as [-> ->]. exists ops, o. by rewrite Er, Eo.
    + rewrite app_comm_cons, app_assoc in Hp. apply app_inj_tail in Hp as [-> _]. by eapply IH.
Qed.

(** What must have happened for a reveal to have its outcome. *)
Definition outcome_justified (window : Z) (pre : list window_event) (v n : list Z) (now : Z) (out : RevealOutcome A) : Prop :=
  match out with
  | Rv_Unknown => True
  | Rv_Fresh a | Rv_Refused a =>
      ∃ t post, opening pre a v t post ∧ Forall (λ e, ¬ fresh_of v e) post ∧ now < t + window
  | Rv_Ended a => ∃ t post, opening pre a v t post ∧ Forall (λ e, ¬ fresh_of v e) post ∧ t + window ≤ now
  | Rv_Replayed a => ∃ t post t', opening pre a v t post ∧ We_Revealed v n t' (Rv_Fresh a) ∈ post
  | Rv_Conflict a => ∃ t post n' t', opening pre a v t post ∧ We_Revealed v n' t' (Rv_Fresh a) ∈ post ∧ n' ≠ n
  end.

Lemma reveal_justified pre p v n now acc :
  trace_inv pre p → outcome_justified (pw_window p) pre v n now (reveal v n now acc p).1.
Proof.
  intros Ht. pose proof (reveal_spec v n now acc p (tv_state _ _ Ht)) as Hr. destruct (reveal v n now acc p) as [out p']. cbn [fst].
  destruct out as [|a|a|a|a|a]; cbn [outcome_justified].
  - done.
  - destruct Hr as (_ & r & Hr & <- & Hs & Hw). destruct (tv_record _ _ Ht a r Hr) as (post & Ho & Hj). rewrite Hs in Hj. eauto 10.
  - destruct Hr as (_ & r & Hr & <- & Hs). destruct (tv_record _ _ Ht a r Hr) as (post & Ho & Hj). rewrite Hs in Hj. destruct Hj as [t' ?]. eauto 10.
  - destruct Hr as (_ & r & n' & Hr & <- & Hs & Hn). destruct (tv_record _ _ Ht a r Hr) as (post & Ho & Hj). rewrite Hs in Hj. destruct Hj as [t' ?]. eauto 15.
  - destruct Hr as (_ & r & Hr & <- & Hs & Hw & _). destruct (tv_record _ _ Ht a r Hr) as (post & Ho & Hj). rewrite Hs in Hj. eauto 10.
  - destruct Hr as (r & Hr & <- & Hs & Hw & _). destruct (tv_record _ _ Ht a r Hr) as (post & Ho & Hj). rewrite Hs in Hj. eauto 10.
Qed.
End Facts.

(** Every outcome of a reveal is justified by what happened before it.  A value pairs
    only with the attachment it was issued on and that has not ended since, before its window
    ends, and only if no reveal of it paired since it was issued; a replay repeats the id that
    paired, a conflict names another, and an ended window had ended. *)
Theorem reveals_justified {A : Type} `{Countable A} (window : Z) (ops : list (@window_op A)) (pre post : list (@window_event A))
    (v n : list Z) (now : Z) (out : RevealOutcome A) :
  (window_run window ops).1 = pre ++ We_Revealed v n now out :: post →
  outcome_justified (window_length window) pre v n now out.
Proof.
  intros Hp. apply run_event in Hp as (ops' & o & He). destruct (window_run window ops') as [tr p]. destruct He as (-> & Ht & <- & Ho).
  destruct o as [a t random|v' n' t acc|a|a]; cbn [window_step] in Ho.
  - destruct (issue a t random p) as [[u|] ?]; [destruct (is_some _)|]; done.
  - pose proof (reveal_justified pre p v' n' t acc Ht) as Hj. destruct (reveal v' n' t acc p). cbn [fst] in *. by simplify_eq.
  - done.
  - done.
Qed.

(** On each attachment at most three windows open between two pairings or ends of it, at
    most sixteen records are kept, and a new window opens only when the last value issued
    there was used up or its window had ended. *)
Theorem windows_bounded {A : Type} `{Countable A} (window : Z) (ops : list (@window_op A)) (a : A) :
  let '(tr, p) := window_run window ops in
  opens_since a tr ≤ MAX_WINDOWS ∧
  (∀ w, pw_by_attachment p !! a = Some w → Z.of_nat (length (wn_records w)) ≤ MAX_RECORDS) ∧
  ∀ pre v t post v0 t0 mid, tr = pre ++ We_Opened a v t :: post → opening pre a v0 t0 mid → (∀ v' t', We_Opened a v' t' ∉ mid) →
    (∃ n t', We_Revealed v0 n t' (Rv_Fresh a) ∈ mid) ∨ t0 + window_length window ≤ t.
Proof.
  pose proof (window_run_inv window ops) as [Ht _]. pose proof (run_event window ops) as Hev.
  destruct (window_run window ops) as [tr p]. cbn [fst snd] in *. split_and!.
  - rewrite <- (tv_since _ _ Ht). unfold since. destruct (pw_by_attachment p !! a) as [w|] eqn:E; cbn; [|done].
    by apply (wv_bounds p (tv_state _ _ Ht) a w).
  - intros w Hw. by apply (wv_bounds p (tv_state _ _ Ht) a w).
  - intros pre v t post v0 t0 mid Hp Hop Hno. apply Hev in Hp as (ops' & o & He). destruct (window_run window ops') as [tr' q].
    destruct He as (-> & Hq & <- & Ho). destruct (tv_last _ _ Hq a v0 t0 mid Hop Hno) as (r & Hl & Hv & Hot & Hst).
    destruct Hst as [Hst|?]; [right|by left]. destruct o as [b t1 random|v' n' t1 acc|b|b]; cbn [window_step] in Ho.
    + pose proof (issue_cases b t1 random q (tv_state _ _ Hq)) as Hc. destruct (issue b t1 random q) as [u p'].
      destruct Hc as [(x & -> & -> & _ & _ & Hin)|[[-> ->]|(y & -> & -> & Hy & _ & Hlive)]]; cbn [fst] in Ho; [by rewrite Hin in Ho|done|].
      rewrite Hy in Ho. cbn in Ho. injection Ho as -> -> ->. specialize (Hlive r Hl). unfold live, is_open in Hlive. rewrite Hst in Hlive.
      cbn [andb] in Hlive. bool_hyps. lia.
    + destruct (reveal v' n' t1 acc q). done.
    + done.
    + done.
Qed.

Definition sample_random : option (list Z) := Some (replicate 16 171).
Definition sample_value : list Z := default [] (fresh_value sample_random).

(** A value is issued, paired by a first reveal, and named again by another thread. *)
Lemma reveals_justified_witness :
  ∃ pre, (window_run (A := nat) 5000000000
      [Wo_Issue 1%nat 0 sample_random; Wo_Reveal sample_value (bs "t-1") 10 (λ _, true);
       Wo_Reveal sample_value (bs "t-2") 20 (λ _, true)]).1 = pre ++ [We_Revealed sample_value (bs "t-2") 20 (Rv_Conflict 1%nat)] ∧
    outcome_justified (A := nat) 5000000000 pre sample_value (bs "t-2") 20 (Rv_Conflict 1%nat).
Proof.
  exists [We_Opened 1%nat sample_value 0; We_Revealed sample_value (bs "t-1") 10 (Rv_Fresh 1%nat)].
  split; [vm_compute; reflexivity|].
  apply (reveals_justified 5000000000 [Wo_Issue 1%nat 0 sample_random; Wo_Reveal sample_value (bs "t-1") 10 (λ _, true);
    Wo_Reveal sample_value (bs "t-2") 20 (λ _, true)] _ []). vm_compute. reflexivity.
Defined.
