(* ===== verification/SessionBinding.v ===== *)
(** * Binding a session to a native id ([core/src/session_binding.rs])

    What one native signal, paired with an attachment or not, does to the bindings of an
    adapter's attachments: the decision by the ordered cases, the change it makes, and the
    records it requires. *)

From S2P Require Import Prelude Ids Json.

(** ** Data *)

(** [ConnectionHandle] ([core/src/adapter.rs]) is its number, which its equality and order
    compare; an [Attachment] is the handle of a connection. *)
Definition ConnectionHandle : Type := Z.

(** [StartKind] and [NativeSignal] ([core/src/adapter.rs]). *)
Inductive StartKind : Type := Sk_Fresh | Sk_Transition | Sk_Unmapped.

Record NativeSignal := mkSignal {
  ns_native_id : list Z; ns_start_kind : option StartKind; ns_cross_check : option (list Z);
  ns_connection : option ConnectionHandle; ns_revealed : option (list Z) }.

Inductive Pairing (A : Type) : Type := Pg_Paired (a : A) | Pg_WindowExpired | Pg_Unpairable.
Arguments Pg_Paired {A} a.
Arguments Pg_WindowExpired {A}.
Arguments Pg_Unpairable {A}.

Record NativeBinding := mkNative { nb_native_id : list Z; nb_session_id : SessionId }.

Record AttachmentState (A : Type) := mkAttachmentState {
  at_attachment : A; at_cross_check : option (list Z); at_binding : option NativeBinding }.
Arguments mkAttachmentState {A}.
Arguments at_attachment {A}.
Arguments at_cross_check {A}.
Arguments at_binding {A}.

Inductive BindingResult : Type := Br_Unchanged | Br_Refused | Br_FailedClosed | Br_Bound | Br_Dropped.

Definition BindingResult_as_str (r : BindingResult) : list Z :=
  match r with
  | Br_Unchanged => bs "unchanged"
  | Br_Refused => bs "refused"
  | Br_FailedClosed => bs "failed-closed"
  | Br_Bound => bs "bound"
  | Br_Dropped => bs "dropped"
  end.

Inductive RecordKind : Type := Rk_Diagnostic | Rk_Finding.

Record BindingRecord := mkBindingRecord { br_kind : RecordKind; br_requirement : string }.

Inductive BindingAction (A : Type) : Type :=
| Ba_None
| Ba_Bind (a : A) (native_id : list Z) (deregister_first : bool)
| Ba_Deregister (a : A).
Arguments Ba_None {A}.
Arguments Ba_Bind {A} a native_id deregister_first.
Arguments Ba_Deregister {A} a.

Record BindingDecision (A : Type) := mkBindingDecision {
  bd_result : BindingResult; bd_action : BindingAction A; bd_records : list BindingRecord }.
Arguments mkBindingDecision {A}.
Arguments bd_result {A}.
Arguments bd_action {A}.
Arguments bd_records {A}.

#[export] Instance RecordKind_eq_dec : EqDecision RecordKind.
Proof. solve_decision. Defined.

(** [BindingDecision::record]: [Iterator::max], where a finding is above a diagnostic. *)
Definition strongest {A} (d : BindingDecision A) : option RecordKind :=
  foldl (λ acc r, match acc, br_kind r with
                  | Some Rk_Finding, _ => Some Rk_Finding
                  | _, k => Some k
                  end) None (bd_records d).

Definition finding (requirement : string) : BindingRecord := mkBindingRecord Rk_Finding requirement.
Definition diagnostic (requirement : string) : BindingRecord := mkBindingRecord Rk_Diagnostic requirement.

(** ** The decision *)

Section Binding.
Context {A : Type} `{EqDecision A}.

Definition binds_to (n : list Z) (s : AttachmentState A) : bool :=
  match at_binding s with Some b => beq (nb_native_id b) n | None => false end.

Definition differs (n : list Z) (e : option (list Z)) : bool :=
  match e with Some e => negb (beq e n) | None => false end.

(** The closures [stale] and [bind] of [decide]. *)
Definition stale (att : AttachmentState A) (result : BindingResult) (records : list BindingRecord) : BindingDecision A :=
  if is_some (at_binding att)
  then mkBindingDecision result (Ba_Deregister (at_attachment att)) (records ++ [finding "SC-ID-153"])
  else mkBindingDecision result Ba_None records.

Definition bind_native (att : AttachmentState A) (n : list Z) (records : list BindingRecord) : BindingDecision A :=
  mkBindingDecision Br_Bound (Ba_Bind (at_attachment att) n (is_some (at_binding att))) records.

Definition decide_paired (attachments : list (AttachmentState A)) (signal : NativeSignal) (att : AttachmentState A)
    : BindingDecision A :=
  let n := ns_native_id signal in
  if binds_to n att then mkBindingDecision Br_Unchanged Ba_None []
  else if existsb (λ s, negb (bool_decide (at_attachment s = at_attachment att)) && binds_to n s) attachments
  then stale att Br_Refused [finding "SC-ID-132"]
  else
    let any_differs := differs n (at_cross_check att) || differs n (ns_cross_check signal) in
    match ns_start_kind signal with
    | Some Sk_Transition => bind_native att n (if any_differs then [diagnostic "SC-ID-142"] else [])
    | Some Sk_Fresh | Some Sk_Unmapped | None =>
        if any_differs then stale att Br_FailedClosed [finding "SC-ID-138"]
        else if is_some (at_cross_check att) then bind_native att n []
        else bind_native att n [diagnostic "SC-ID-141"]
    end.

Definition decide_binding (attachments : list (AttachmentState A)) (signal : NativeSignal) (pairing : Pairing A)
    : BindingDecision A :=
  match pairing with
  | Pg_WindowExpired => mkBindingDecision Br_Dropped Ba_None [diagnostic "SC-ID-128"]
  | Pg_Unpairable => mkBindingDecision Br_FailedClosed Ba_None [finding "SC-ID-129"]
  | Pg_Paired a =>
      match List.find (λ s, bool_decide (at_attachment s = a)) attachments with
      | Some att => decide_paired attachments signal att
      | None => mkBindingDecision Br_FailedClosed Ba_None [finding "SC-ID-129"]
      end
  end.

(** ** The change *)

(** [iter_mut().find(..)] and the binding assigned. *)
Fixpoint set_binding (a : A) (b : option NativeBinding) (l : list (AttachmentState A)) : list (AttachmentState A) :=
  match l with
  | [] => []
  | s :: rest =>
      if bool_decide (at_attachment s = a) then mkAttachmentState (at_attachment s) (at_cross_check s) b :: rest
      else s :: set_binding a b rest
  end.

Definition apply_decision (attachments : list (AttachmentState A)) (decision : BindingDecision A) (new_session : SessionId)
    : list (AttachmentState A) :=
  match bd_action decision with
  | Ba_None => attachments
  | Ba_Bind a native_id _ => set_binding a (Some (mkNative native_id new_session)) attachments
  | Ba_Deregister a => set_binding a None attachments
  end.
End Binding.

(** ** The log in memory *)

Record MemoryBindingLog (E : Type) := mkBindingLog { bl_entries : list E; bl_capacity : nat }.
Arguments mkBindingLog {E}.
Arguments bl_entries {E}.
Arguments bl_capacity {E}.

Definition binding_log_new {E} (capacity : nat) : MemoryBindingLog E := mkBindingLog [] (Nat.max capacity 1).

Definition binding_log_record {E} (entry : E) (l : MemoryBindingLog E) : MemoryBindingLog E :=
  let kept := if (bl_capacity l <=? length (bl_entries l))%nat then drop 1 (bl_entries l) else bl_entries l in
  mkBindingLog (kept ++ [entry]) (bl_capacity l).

(** ** Facts *)

Section Facts.
Context {A : Type} `{EqDecision A}.
Implicit Types l : list (AttachmentState A).

(** The attachments are different, and so are the native ids they are bound to. *)
Record binding_inv l : Prop := {
  bv_attachments : NoDup (map at_attachment l);
  bv_natives s s' b b' : s ∈ l → s' ∈ l → at_binding s = Some b → at_binding s' = Some b' →
    nb_native_id b = nb_native_id b' → s = s' }.

Lemma set_binding_attachments a b l : map at_attachment (set_binding a b l) = map at_attachment l.
Proof. induction l as [|s l IH]; [done|]. cbn [set_binding]. case_bool_decide; cbn [map]; [done|]. by rewrite IH. Qed.

Lemma set_binding_elem a b l x :
  NoDup (map at_attachment l) →
  x ∈ set_binding a b l ↔ (x ∈ l ∧ at_attachment x ≠ a) ∨
    ∃ s, s ∈ l ∧ at_attachment s = a ∧ x = mkAttachmentState a (at_cross_check s) b.
Proof.
  induction l as [|s l IH]; cbn [map set_binding].
  - intros _. split; [by intros ?%not_elem_of_nil|]. intros [[?%not_elem_of_nil _]|(? & ?%not_elem_of_nil & _)]; done.
  - intros [Hs Hn]%NoDup_cons. case_bool_decide as Ea.
    + assert (∀ y, y ∈ l → at_attachment y ≠ a) as Hy by (intros y Hy Hya; apply Hs; rewrite Ea, <- Hya; by apply list_elem_of_fmap_2).
      rewrite elem_of_cons, Ea. split.
      * intros [->|Hx]; [right; exists s; split; [left|done]|left; split; [by right|auto]].
      * intros [[[->|Hx]%elem_of_cons Hxa]|(y & [->|Hyl]%elem_of_cons & Hya & ->)]; [done|by right|by left|by destruct (Hy y Hyl)].
    + rewrite elem_of_cons, (IH Hn). split.
      * intros [->|[[Hx Hxa]|(y & Hyl & Hya & ->)]]; [left; split; [left|done]|left; split; [by right|done]|right; exists y; split; [by right|done]].
      * intros [[[->|Hx]%elem_of_cons Hxa]|(y & [->|Hyl]%elem_of_cons & Hya & ->)]; [by left|right; left; done|done|right; right; by exists y].
Qed.

Lemma find_attachment a l s :
  NoDup (map at_attachment l) → List.find (λ s, bool_decide (at_attachment s = a)) l = Some s ↔ s ∈ l ∧ at_attachment s = a.
Proof.
  intros Hn. split; [intros [Hs Ha]%find_some; bool_hyps; by apply list_elem_of_In in Hs|]. intros [Hs Ha].
  induction l as [|x l IH]; [by apply not_elem_of_nil in Hs|]. cbn [map] in Hn. apply NoDup_cons in Hn as [Hx Hn]. cbn [List.find].
  case_bool_decide as Ex.
  - apply elem_of_cons in Hs as [->|Hs]; [done|]. exfalso. apply Hx. rewrite Ex, <- Ha. by apply list_elem_of_fmap_2.
  - apply elem_of_cons in Hs as [->|Hs]; [done|by apply IH].
Qed.

Lemma binds_to_spec n (s : AttachmentState A) : binds_to n s = true ↔ ∃ b, at_binding s = Some b ∧ nb_native_id b = n.
Proof.
  unfold binds_to. destruct (at_binding s) as [b|]; [rewrite beq_true|]; naive_solver.
Qed.

(** What a decision on a paired attachment is, by what the attachment is bound to after it. *)
Lemma decide_paired_spec l signal (att : AttachmentState A) :
  let d := decide_paired l signal att in
  let n := ns_native_id signal in
  let elsewhere := ∃ s, s ∈ l ∧ at_attachment s ≠ at_attachment att ∧ binds_to n s = true in
  match bd_result d with
  | Br_Unchanged => bd_action d = Ba_None ∧ binds_to n att = true ∧ bd_records d = []
  | Br_Bound => bd_action d = Ba_Bind (at_attachment att) n (is_some (at_binding att)) ∧ binds_to n att = false ∧ ¬ elsewhere ∧
                strongest d ≠ Some Rk_Finding
  | Br_Refused | Br_FailedClosed =>
      binds_to n att = false ∧ (elsewhere ↔ bd_result d = Br_Refused) ∧ strongest d = Some Rk_Finding ∧
      bd_action d = if is_some (at_binding att) then Ba_Deregister (at_attachment att) else Ba_None
  | Br_Dropped => False
  end.
Proof.
  cbn zeta. unfold decide_paired. set (n := ns_native_id signal). destruct (binds_to n att) eqn:Eb; [done|].
  assert (existsb (λ s, negb (bool_decide (at_attachment s = at_attachment att)) && binds_to n s) l = true ↔
    ∃ s, s ∈ l ∧ at_attachment s ≠ at_attachment att ∧ binds_to n s = true) as Hel.
  { rewrite existsb_exists. setoid_rewrite <- list_elem_of_In. split; intros (s & Hs & Hc); exists s; split; try done.
    - bool_hyps. done.
    - destruct Hc as [Hc ->]. by rewrite bool_decide_false. }
  destruct (existsb _ l) eqn:Ed.
  - unfold stale. assert (∃ s, s ∈ l ∧ at_attachment s ≠ at_attachment att ∧ binds_to n s = true) by (by apply Hel).
    by destruct (is_some (at_binding att)).
  - assert (¬ ∃ s, s ∈ l ∧ at_attachment s ≠ at_attachment att ∧ binds_to n s = true) by (by rewrite <- Hel).
    unfold stale, bind_native. destruct (_ || _), (ns_start_kind signal) as [[]|], (is_some (at_cross_check att)), (is_some (at_binding att)); cbn; naive_solver.
Qed.

(** A signal's step. *)
Definition on_signal l (signal : NativeSignal) (pairing : Pairing A) (new_session : SessionId) : list (AttachmentState A) :=
  apply_decision l (decide_binding l signal pairing) new_session.

Lemma set_binding_inv l a b :
  binding_inv l → (∀ x s, b = Some x → s ∈ l → at_attachment s ≠ a → binds_to (nb_native_id x) s = false) → binding_inv (set_binding a b l).
Proof.
  intros [Hn Hu] Hb. split; [by rewrite set_binding_attachments|].
  assert (∀ s y x, b = Some x → s ∈ l → at_attachment s ≠ a → at_binding s = Some y → nb_native_id y ≠ nb_native_id x) as Hx.
  { intros s y x Hbx Hs Ha Hy Hne. specialize (Hb x s Hbx Hs Ha). apply not_true_iff_false in Hb. apply Hb, binds_to_spec. by exists y. }
  intros s s' y y'. rewrite !set_binding_elem by done.
  intros [[Hs Ha]|(u & Hu1 & Hu2 & ->)] [[Hs' Ha']|(u' & Hu1' & Hu2' & ->)] Hy Hy' He; cbn [at_binding] in *.
  - by eapply Hu.
  - by destruct (Hx s y y' Hy' Hs Ha Hy).
  - by destruct (Hx s' y' y Hy Hs' Ha' Hy').
  - f_equal. assert (u = u'); [|by subst]. pose proof (proj2 (find_attachment a l u Hn) (conj Hu1 Hu2)).
    pose proof (proj2 (find_attachment a l u' Hn) (conj Hu1' Hu2')). congruence.
Qed.

Lemma on_signal_inv l signal pairing new : binding_inv l → binding_inv (on_signal l signal pairing new).
Proof.
  intros Hi. unfold on_signal, apply_decision, decide_binding. destruct pairing as [a| |]; [|done|done].
  destruct (List.find _ l) as [att|] eqn:Ef; [|done]. pose proof (decide_paired_spec l signal att) as Hd. cbn zeta in Hd.
  destruct (bd_action (decide_paired l signal att)) as [|b n f|b] eqn:Ea; [done| |by apply set_binding_inv].
  destruct (bd_result (decide_paired l signal att)); [by destruct Hd as [? _]|destruct Hd as (_ & _ & _ & Hd); by destruct (is_some _)
    |destruct Hd as (_ & _ & _ & Hd); by destruct (is_some _)| |done].
  destruct Hd as ([= -> -> _] & _ & Hno & _). apply set_binding_inv; [done|]. intros x s [= <-] Hs Hne. cbn [nb_native_id].
  apply not_true_iff_false. intros Hb. apply Hno. by exists s.
Qed.
End Facts.

(** ** What signals do *)

(** Signals keep the bindings of an adapter's attachments one to one.  From attachments
    with different native ids, after any sequence of signals, however paired, the attachments
    are the same and no two are bound to one native id. *)
Theorem bindings_one_to_one {A : Type} `{EqDecision A} (l : list (AttachmentState A))
    (signals : list (NativeSignal * Pairing A * SessionId)) :
  binding_inv l →
  let l' := foldl (λ l '(signal, pairing, new), on_signal l signal pairing new) l signals in
  binding_inv l' ∧ map at_attachment l' = map at_attachment l.
Proof.
  revert l. induction signals as [|[[signal pairing] new] signals IH]; intros l Hi; [done|]. cbn [foldl].
  destruct (IH (on_signal l signal pairing new)) as [H1 H2]; [by apply on_signal_inv|]. split; [done|]. rewrite H2.
  unfold on_signal, apply_decision. destruct (bd_action _); [done|apply set_binding_attachments|apply set_binding_attachments].
Qed.

(** What one signal does, on every branch.  A signal that is not paired with a known
    attachment changes nothing and is recorded.  A paired one touches only its attachment,
    which it leaves bound to the signal's native id or unbound, never to another id: bound
    under the new session id exactly when the result is [bound], as it was when it is
    [unchanged], unbound when the signal is refused or fails closed, which is then a finding;
    and it is refused exactly when another attachment holds the id. *)
Theorem signal_effect {A : Type} `{EqDecision A} (l : list (AttachmentState A)) (signal : NativeSignal) (pairing : Pairing A)
    (new : SessionId) :
  binding_inv l →
  let d := decide_binding l signal pairing in
  let l' := apply_decision l d new in
  match pairing with
  | Pg_Paired a =>
      match List.find (λ s, bool_decide (at_attachment s = a)) l with
      | None => bd_result d = Br_FailedClosed ∧ l' = l ∧ strongest d = Some Rk_Finding
      | Some att =>
          (∀ s, at_attachment s ≠ a → s ∈ l' ↔ s ∈ l) ∧
          ∃ att', att' ∈ l' ∧ at_attachment att' = a ∧ at_cross_check att' = at_cross_check att ∧
            match bd_result d with
            | Br_Bound => at_binding att' = Some (mkNative (ns_native_id signal) new) ∧ strongest d ≠ Some Rk_Finding
            | Br_Unchanged => at_binding att' = at_binding att ∧ binds_to (ns_native_id signal) att = true ∧ bd_records d = []
            | Br_Refused | Br_FailedClosed => at_binding att' = None ∧ strongest d = Some Rk_Finding
            | Br_Dropped => False
            end ∧
            (binds_to (ns_native_id signal) att = false →
             (bd_result d = Br_Refused ↔ ∃ s, s ∈ l ∧ at_attachment s ≠ a ∧ binds_to (ns_native_id signal) s = true))
      end
  | Pg_WindowExpired => bd_result d = Br_Dropped ∧ l' = l ∧ strongest d = Some Rk_Diagnostic
  | Pg_Unpairable => bd_result d = Br_FailedClosed ∧ l' = l ∧ strongest d = Some Rk_Finding
  end.
Proof.
  intros [Hn _]. cbn zeta. destruct pairing as [a| |]; [|done|done]. unfold decide_binding, apply_decision.
  destruct (List.find _ l) as [att|] eqn:Ef; [|done]. apply find_attachment in Ef as [Hatt Ha]; [|done].
  pose proof (decide_paired_spec l signal att) as Hd. cbn zeta in Hd. rewrite Ha in Hd.
  assert (∀ b, (∀ s, at_attachment s ≠ a → s ∈ set_binding a b l ↔ s ∈ l) ∧
    mkAttachmentState a (at_cross_check att) b ∈ set_binding a b l) as Hset.
  { intros b. split; [intros s Hs|]; rewrite set_binding_elem by done; [|right; by exists att].
    split; [intros [[? _]|(? & _ & _ & ->)]; done|by left]. }
  destruct (bd_result (decide_paired l signal att)).
  - destruct Hd as (-> & Hb & ->). split; [done|]. exists att. split_and!; try done. by rewrite Hb.
  - destruct Hd as (Hb & Hel & Hs & ->). destruct (at_binding att) as [x|] eqn:Ex; cbn [is_some].
    + destruct (Hset None) as [H1 H2]. split; [done|]. eexists. split; [done|]. split_and!; try done; intros _; by rewrite Hel.
    + split; [done|]. exists att. split_and!; try done; intros _; by rewrite Hel.
  - destruct Hd as (Hb & Hel & Hs & ->). destruct (at_binding att) as [x|] eqn:Ex; cbn [is_some].
    + destruct (Hset None) as [H1 H2]. split; [done|]. eexists. split; [done|]. split_and!; try done; intros _; by rewrite Hel.
    + split; [done|]. exists att. split_and!; try done; intros _; by rewrite Hel.
  - destruct Hd as (-> & Hb & Hno & Hs). destruct (Hset (Some (mkNative (ns_native_id signal) new))) as [H1 H2].
    split; [done|]. eexists. split; [done|]. split_and!; try done.
  - done.
Qed.

Definition sample_attachments : list (AttachmentState Z) :=
  [mkAttachmentState 1 (Some (bs "n-1")) None;
   mkAttachmentState 2 None (Some (mkNative (bs "n-2") (bs "s-2")))].
Definition sample_signal : NativeSignal := mkSignal (bs "n-2") (Some Sk_Fresh) None None None.

Lemma sample_attachments_inv : binding_inv sample_attachments.
Proof.
  split; [apply (bool_decide_unpack _); vm_compute; exact I|]. intros s s' b b'.
  unfold sample_attachments. rewrite !elem_of_cons, !elem_of_nil. intros [->|[->|[]]] [->|[->|[]]]; done.
Qed.

Lemma bindings_one_to_one_witness :
  binding_inv (on_signal sample_attachments sample_signal (Pg_Paired 1) (bs "s-1")).
Proof. apply (bindings_one_to_one sample_attachments [(sample_signal, Pg_Paired 1, bs "s-1")] sample_attachments_inv). Defined.

Lemma signal_effect_witness :
  ∃ att', att' ∈ apply_decision sample_attachments (decide_binding sample_attachments sample_signal (Pg_Paired 1)) (bs "s-1") ∧
    at_attachment att' = 1 ∧ at_binding att' = None.
Proof.
  pose proof (signal_effect sample_attachments sample_signal (Pg_Paired 1) (bs "s-1") sample_attachments_inv) as H. cbn zeta in H.
  cbn [List.find sample_attachments] in H. destruct H as (_ & att' & H1 & H2 & _ & H3 & _). exists att'. split; [exact H1|]. split; [exact H2|].
  vm_compute in H3. apply H3.
Defined.
