(* ===== verification/TrustFile.v ===== *)
(** * The trust file's format ([cli/src/trust_store.rs])

    What [trust.json] holds, the canonical text [encode] writes and the strict reader
    [decode].  A reason for a refusal is a constructor with the words that vary; the text
    shown to the operator is not modelled. *)

From Stdlib Require Import Sorting.Sorted.
From S2P Require Import Prelude Ordered Base64url Ids Utf8 Json JsonFacts JsonReader JsonText Canonical Envelope EnvelopeFacts Keys Trust Signing.
From S2P Require Import Replay SignedObject Agreement Pairing PairingFacts.

Definition TRUST_FILE_NAME : list Z := bs "trust.json".
Definition MAX_TRUST_FILE_BYTES : Z := 1024 * 1024.
Definition FORMAT_VERSION : Z := 1.
Definition VERSION_MEMBER : list Z := bs "oac_trust_store".
Definition ROOT_MEMBERS : list (list Z) :=
  [bs "agreement_seq_floor"; bs "device_key_id"; bs "grants"; bs "oac_trust_store"; bs "paired"; bs "relay_enabled";
   bs "statements"].
Definition ROOT_REQUIRED : list (list Z) :=
  [bs "grants"; bs "oac_trust_store"; bs "paired"; bs "relay_enabled"; bs "statements"].

Record SeqFloor := mkFloor { fl_key_id : KeyId; fl_seq : Z }.

Record TrustFile := mkTrustFile {
  tf_device_key_id : option KeyId; tf_snapshot : PairingSnapshot; tf_agreement_seq_floor : option SeqFloor }.

Inductive Reason : Type :=
| Noncharacter
| NotCanonical (e : CanonicalError)
| UnknownMember (what : string) (shown : list Z)
| MissingMember (what : string) (name : list Z)
| NotAString (what : string) (name : list Z)
| NotAnObject (what : string) (name : list Z)
| NotAnArray (what : string) (name : list Z)
| ElementNotAnObject (what : string)
| NotAKeyId (what : string) (name : list Z)
| NotASessionId (what : string) (name : list Z)
| NotATimestamp (what : string) (name : list Z)
| NotAcceptable (what : string) (name : list Z)
| SeqNotInteger (what : string)
| SeqOutOfRange (what : string)
| UnknownKind (what : string)
| UnknownDirection (what : string)
| NotTheDigest (what : string)
| NotAToken (what : string) (name : list Z)
| NotADocument (what : string) (e : JsonError)
| NotARoot (what : string)
| UnknownVersion (what : string)
| NoVersion (what : string)
| RelayNotASessionId.

(** ** Writing *)

(** [Members]: the names and the rendered values, in the order they were put. *)
Abbreviation Members := (list (list Z * list Z)) (only parsing).

Definition put (name : list Z) (rendered : list Z) (o : Members) : Members := o ++ [(name, rendered)].

(** The loop of [finish], over the sorted members. *)
Fixpoint write_members (first : bool) (l : Members) : list Z :=
  match l with
  | [] => []
  | (name, value) :: r => (if first then [] else [44]) ++ [34] ++ name ++ [34; 58] ++ value ++ write_members false r
  end.

Definition finish (o : Members) : list Z := [123] ++ write_members true (sort_by_key fst o) ++ [125].

(** [array]: [items.join(",")] in brackets. *)
Fixpoint join (first : bool) (items : list (list Z)) : list Z :=
  match items with [] => [] | x :: r => (if first then [] else [44]) ++ x ++ join false r end.

Definition array (items : list (list Z)) : list Z := [91] ++ join true items ++ [93].

(** [iter().map(f).collect::<Result<Vec<_>, _>>()]: the first error, or every result. *)
Fixpoint collect_results {E A B} (f : A → result E B) (l : list A) : result E (list B) :=
  match l with
  | [] => Ok []
  | x :: r => y ← f x; ys ← collect_results f r; Ok (y :: ys)
  end.

Section Encode.
Context `{C : Crypto}.

Definition quoted (value : list Z) : result Reason (list Z) :=
  if negb (is_ijson_string value) then Err Noncharacter
  else map_err NotCanonical (canonical jcs_string jcs_f64 (JString value)).

Definition put_string (name value : list Z) (o : Members) : result Reason Members :=
  rendered ← quoted value; Ok (put name rendered o).

Definition encode_peer_side (side : PeerSide) : result Reason (list Z) :=
  o ← put_string (bs "key_id") (pe_key_id side) [];
  o ← (match pe_session_id side with
       | Some session => put_string (bs "session_id") session o
       | None => Ok o
       end);
  Ok (finish o).

Definition encode_local_side (side : LocalSide) : result Reason (list Z) :=
  o ← (match side with
       | LS_Session id => o ← put_string (bs "kind") (bs "session") []; put_string (bs "session_id") id o
       | LS_Scope scope => o ← put_string (bs "kind") (bs "scope") []; put_string (bs "scope") scope o
       | LS_Device => put_string (bs "kind") (bs "device") []
       end);
  Ok (finish o).

Definition encode_grant (grant : Grant) : result Reason (list Z) :=
  o ← (match grant with
       | Inbound writer target =>
           o ← put_string (bs "direction") (bs "inbound") [];
           w ← encode_peer_side writer;
           let o := put (bs "writer") w o in
           t ← encode_local_side target;
           Ok (put (bs "target") t o)
       | Outbound writer target =>
           o ← put_string (bs "direction") (bs "outbound") [];
           w ← encode_local_side writer;
           let o := put (bs "writer") w o in
           t ← encode_peer_side target;
           Ok (put (bs "target") t o)
       end);
  Ok (finish o).

Definition encode_confirmed (confirmed : ConfirmedValues) : result Reason (list Z) :=
  o ← put_string (bs "agreement_key") (agreement_to_base64url (cv_agreement_key confirmed)) [];
  o ← put_string (bs "issued_at") (ts_text (cv_issued_at confirmed)) o;
  Ok (finish (put (bs "seq") (to_dec (cv_seq confirmed)) o)).

Definition encode_record (record : PairingRecord) : result Reason (list Z) :=
  o ← put_string (bs "key_id") (record_key_id record) [];
  o ← put_string (bs "paired_at") (ts_text (pr_paired_at record)) o;
  o ← put_string (bs "principal") (pr_principal record) o;
  o ← put_string (bs "public_key") (to_base64url (pr_public_key record)) o;
  o ← (match pr_confirmed record with
       | Some confirmed => c ← encode_confirmed confirmed; Ok (put (bs "confirmed") c o)
       | None => Ok o
       end);
  Ok (finish o).

Definition encode_statement (held : HeldStatement) : result Reason (list Z) :=
  o ← put_string (bs "agreement_key") (agreement_to_base64url (hs_agreement_key held)) [];
  o ← put_string (bs "issued_at") (ts_text (hs_issued_at held)) o;
  o ← put_string (bs "key_id") (hs_key_id held) o;
  Ok (finish (put (bs "seq") (to_dec (hs_seq held)) o)).

Definition encode_floor (floor : SeqFloor) : result Reason (list Z) :=
  o ← put_string (bs "key_id") (fl_key_id floor) [];
  Ok (finish (put (bs "seq") (to_dec (fl_seq floor)) o)).

(** [encode]. *)
Definition trust_encode (file : TrustFile) : result Reason (list Z) :=
  let snapshot := tf_snapshot file in
  root ← (match tf_agreement_seq_floor file with
          | Some floor => f ← encode_floor floor; Ok (put (bs "agreement_seq_floor") f [])
          | None => Ok []
          end);
  root ← (match tf_device_key_id file with
          | Some id => put_string (bs "device_key_id") id root
          | None => Ok root
          end);
  let root := put VERSION_MEMBER (to_dec FORMAT_VERSION) root in
  paired ← collect_results encode_record (sort_by_key record_key_id (sp_paired snapshot));
  let root := put (bs "paired") (array paired) root in
  grants ← collect_results encode_grant (sp_grants snapshot);
  let root := put (bs "grants") (array grants) root in
  relay ← collect_results quoted (dedup (sort (sp_relay_enabled snapshot)));
  let root := put (bs "relay_enabled") (array relay) root in
  statements ← collect_results encode_statement (sort_by_key hs_key_id (sp_agreement_statements snapshot));
  let root := put (bs "statements") (array statements) root in
  Ok (finish root).
End Encode.

(** ** Reading *)

Fixpoint first_unknown (what : string) (required optional names : list (list Z)) : result Reason unit :=
  match names with
  | [] => Ok tt
  | name :: names =>
      if negb (bool_decide (name ∈ required)) && negb (bool_decide (name ∈ optional))
      then Err (UnknownMember what (mjoin (map utf8_encode (take 40 (chars name)))))
      else first_unknown what required optional names
  end.

Fixpoint first_missing (what : string) (object : JsonObject) (required : list (list Z)) : result Reason unit :=
  match required with
  | [] => Ok tt
  | name :: required => if negb (obj_contains object name) then Err (MissingMember what name) else first_missing what object required
  end.

Definition exact (object : JsonObject) (required optional : list (list Z)) (what : string) : result Reason unit :=
  _ ← first_unknown what required optional (obj_names object);
  first_missing what object required.

Definition text (object : JsonObject) (name : list Z) (what : string) : result Reason (list Z) :=
  ok_or (v ← obj_get object name; as_str v) (NotAString what name).

Definition object_member (object : JsonObject) (name : list Z) (what : string) : result Reason JsonObject :=
  ok_or (v ← obj_get object name; as_object v) (NotAnObject what name).

Definition list_member (object : JsonObject) (name : list Z) (what : string) : result Reason (list Json) :=
  ok_or (v ← obj_get object name; as_array v) (NotAnArray what name).

Definition element (value : Json) (what : string) : result Reason JsonObject :=
  ok_or (as_object value) (ElementNotAnObject what).

Definition read_key_id (object : JsonObject) (name : list Z) (what : string) : result Reason KeyId :=
  t ← text object name what; ok_or (KeyId_parse t) (NotAKeyId what name).

Definition read_session_id (object : JsonObject) (name : list Z) (what : string) : result Reason SessionId :=
  t ← text object name what; ok_or (SessionId_parse t) (NotASessionId what name).

Definition read_timestamp (object : JsonObject) (name : list Z) (what : string) : result Reason Timestamp :=
  t ← text object name what; ok_or (Timestamp_parse t) (NotATimestamp what name).

Definition read_agreement_key (object : JsonObject) (what : string) : result Reason AgreementPublicKey :=
  t ← text object (bs "agreement_key") what;
  ok_or (AgreementPublicKey_from_base64url t) (NotAcceptable what (bs "agreement_key")).

Definition read_seq (object : JsonObject) (what : string) : result Reason Z :=
  ok_or (v ← obj_get object (bs "seq"); n ← as_number v; plain_integer_in n 0 MAX_STATEMENT_SEQ) (SeqNotInteger what).

Definition decode_peer_side (o : JsonObject) : result Reason PeerSide :=
  let what := "a grant's peer side"%string in
  _ ← exact o [bs "key_id"] [bs "session_id"] what;
  key ← read_key_id o (bs "key_id") what;
  if obj_contains o (bs "session_id")
  then s ← read_session_id o (bs "session_id") what; Ok (peer_session key s)
  else Ok (peer_device key).

Definition decode_local_side (o : JsonObject) : result Reason LocalSide :=
  let what := "a grant's local side"%string in
  kind ← text o (bs "kind") what;
  if beq kind (bs "session") then
    _ ← exact o [bs "kind"; bs "session_id"] [] what;
    s ← read_session_id o (bs "session_id") what; Ok (LS_Session s)
  else if beq kind (bs "scope") then
    _ ← exact o [bs "kind"; bs "scope"] [] what;
    s ← text o (bs "scope") what; Ok (LS_Scope s)
  else if beq kind (bs "device") then
    _ ← exact o [bs "kind"] [] what; Ok LS_Device
  else Err (UnknownKind what).

Definition decode_grant (o : JsonObject) : result Reason Grant :=
  let what := "a grant"%string in
  _ ← exact o [bs "direction"; bs "target"; bs "writer"] [] what;
  writer ← object_member o (bs "writer") what;
  target ← object_member o (bs "target") what;
  direction ← text o (bs "direction") what;
  if beq direction (bs "inbound") then
    w ← decode_peer_side writer; t ← decode_local_side target; Ok (Inbound w t)
  else if beq direction (bs "outbound") then
    w ← decode_local_side writer; t ← decode_peer_side target; Ok (Outbound w t)
  else Err (UnknownDirection what).

Definition decode_confirmed (value : Json) : result Reason ConfirmedValues :=
  let what := "confirmed values"%string in
  c ← element value what;
  _ ← exact c [bs "agreement_key"; bs "issued_at"; bs "seq"] [] what;
  k ← read_agreement_key c what;
  n ← read_seq c what;
  t ← read_timestamp c (bs "issued_at") what;
  ok_or (ConfirmedValues_from_store k n t) (SeqOutOfRange what).

Section Decode.
Context `{C : Crypto}.

Definition decode_record (o : JsonObject) : result Reason PairingRecord :=
  let what := "a paired record"%string in
  _ ← exact o [bs "key_id"; bs "paired_at"; bs "principal"; bs "public_key"] [bs "confirmed"] what;
  public_key ← (t ← text o (bs "public_key") what; ok_or (PublicKey_from_base64url t) (NotAcceptable what (bs "public_key")));
  id ← read_key_id o (bs "key_id") what;
  if negb (beq (key_id public_key) id) then Err (NotTheDigest what)
  else
    principal ← (t ← text o (bs "principal") what; ok_or (Token_parse t) (NotAToken what (bs "principal")));
    confirmed ← (match obj_get o (bs "confirmed") with
                 | None => Ok None
                 | Some value => c ← decode_confirmed value; Ok (Some c)
                 end);
    t ← read_timestamp o (bs "paired_at") what;
    Ok (with_confirmed (PairingRecord_from_store principal public_key t) confirmed).

Definition decode_statement (o : JsonObject) : result Reason HeldStatement :=
  let what := "a held statement"%string in
  _ ← exact o [bs "agreement_key"; bs "issued_at"; bs "key_id"; bs "seq"] [] what;
  id ← read_key_id o (bs "key_id") what;
  k ← read_agreement_key o what;
  n ← read_seq o what;
  t ← read_timestamp o (bs "issued_at") what;
  ok_or (HeldStatement_from_store id k n t) (SeqOutOfRange what).

Definition decode_all {T} (items : list Json) (what : string) (one : JsonObject → result Reason T) : result Reason (list T) :=
  collect_results (λ v, o ← element v what; one o) items.

Definition decode_floor (value : Json) : result Reason SeqFloor :=
  let what := "the agreement seq floor"%string in
  f ← element value what;
  _ ← exact f [bs "key_id"; bs "seq"] [] what;
  k ← read_key_id f (bs "key_id") what;
  n ← read_seq f what;
  Ok (mkFloor k n).

(** [decode] on the parsed document. *)
Definition decode_root (parsed : Json) : result Reason TrustFile :=
  let what := "the trust file"%string in
  root ← ok_or (as_object parsed) (NotARoot what);
  _ ← (match v ← obj_get root VERSION_MEMBER; as_number v with
       | Some n => if bool_decide (plain_integer_in n 0 U64_MAX = Some FORMAT_VERSION) then Ok tt else Err (UnknownVersion what)
       | None => Err (NoVersion what)
       end);
  _ ← exact root ROOT_REQUIRED ROOT_MEMBERS what;
  device_key_id ← (if obj_contains root (bs "device_key_id")
                   then k ← read_key_id root (bs "device_key_id") what; Ok (Some k) else Ok None);
  floor ← (match obj_get root (bs "agreement_seq_floor") with
           | None => Ok None
           | Some value => f ← decode_floor value; Ok (Some f)
           end);
  paired ← (l ← list_member root (bs "paired") what; decode_all l "paired" decode_record);
  grants ← (l ← list_member root (bs "grants") what; decode_all l "grants" decode_grant);
  relay_enabled ← (l ← list_member root (bs "relay_enabled") what;
                   collect_results (λ v, ok_or (s ← as_str v; SessionId_parse s) RelayNotASessionId) l);
  statements ← (l ← list_member root (bs "statements") what; decode_all l "statements" decode_statement);
  Ok (mkTrustFile device_key_id (mkSnapshot paired grants relay_enabled statements) floor).

Definition trust_decode (octets : list Z) : result Reason TrustFile :=
  parsed ← map_err (NotADocument "the trust file") (parse octets);
  decode_root parsed.
End Decode.

(** ** The trust file is read back as it was written

    The text [encode] writes is the compact text of a JSON tree; the reader gives the tree
    back, and [decode] the values it was made of, the lists in their order. *)

(** Documented behaviour of [serde_jcs]: a string is written with the escapes of RFC 8785,
    section 3.2.2.2. *)
Class JcsStrings (C : Crypto) : Prop := {
  jcs_string_text s : is_utf8 s = true → jcs_string s = Ok (write_string s) }.

#[export] Instance sample_pair_strings : JcsStrings sample_pair.
Proof. by split. Qed.

(** ** What the types of the values guarantee *)

Definition wf_key_id (k : KeyId) : Prop := KeyId_parse k = Some k.
Definition wf_session_id (s : SessionId) : Prop := SessionId_parse s = Some s.
Definition wf_timestamp (t : Timestamp) : Prop := Timestamp_parse (ts_text t) = Some t.
Definition wf_agreement_key (k : AgreementPublicKey) : Prop :=
  AgreementPublicKey_from_base64url (agreement_to_base64url k) = Some k.
Definition wf_seq (n : Z) : Prop := 0 ≤ n ≤ MAX_STATEMENT_SEQ.

Definition wf_peer_side (p : PeerSide) : Prop :=
  wf_key_id (pe_key_id p) ∧ ∀ s, pe_session_id p = Some s → wf_session_id s.
Definition wf_local_side (l : LocalSide) : Prop :=
  match l with LS_Session s => wf_session_id s | LS_Scope scope => is_utf8 scope = true | LS_Device => True end.
Definition wf_grant (g : Grant) : Prop :=
  match g with Inbound w t => wf_peer_side w ∧ wf_local_side t | Outbound w t => wf_local_side w ∧ wf_peer_side t end.
Definition wf_confirmed (c : ConfirmedValues) : Prop :=
  wf_agreement_key (cv_agreement_key c) ∧ wf_seq (cv_seq c) ∧ wf_timestamp (cv_issued_at c).
Definition wf_held (h : HeldStatement) : Prop :=
  wf_key_id (hs_key_id h) ∧ wf_agreement_key (hs_agreement_key h) ∧ wf_seq (hs_seq h) ∧ wf_timestamp (hs_issued_at h).
Definition wf_floor (f : SeqFloor) : Prop := wf_key_id (fl_key_id f) ∧ wf_seq (fl_seq f).

Section Wf.
Context `{C : Crypto}.

Definition wf_record (r : PairingRecord) : Prop :=
  is_token (pr_principal r) = true ∧ PublicKey_from_base64url (to_base64url (pr_public_key r)) = Some (pr_public_key r) ∧
  wf_timestamp (pr_paired_at r) ∧ ∀ c, pr_confirmed r = Some c → wf_confirmed c.

Record wf_snapshot (s : PairingSnapshot) : Prop := {
  wfs_paired : Forall wf_record (sp_paired s);
  wfs_grants : Forall wf_grant (sp_grants s);
  wfs_relay : Forall wf_session_id (sp_relay_enabled s);
  wfs_statements : Forall wf_held (sp_agreement_statements s) }.

Record wf_file (f : TrustFile) : Prop := {
  wff_device k : tf_device_key_id f = Some k → wf_key_id k;
  wff_snapshot : wf_snapshot (tf_snapshot f);
  wff_floor x : tf_agreement_seq_floor f = Some x → wf_floor x }.

(** The snapshot as the file orders it. *)
Definition ordered (s : PairingSnapshot) : PairingSnapshot :=
  mkSnapshot (sort_by_key record_key_id (sp_paired s)) (sp_grants s) (dedup (sort (sp_relay_enabled s)))
    (sort_by_key hs_key_id (sp_agreement_statements s)).

Definition ordered_file (f : TrustFile) : TrustFile :=
  mkTrustFile (tf_device_key_id f) (ordered (tf_snapshot f)) (tf_agreement_seq_floor f).
End Wf.

(** ** Text and tree *)

Lemma sort_by_key_map {A B K} `{Order K} (f : A → B) (key : B → K) l :
  sort_by_key key (map f l) = map f (sort_by_key (key ∘ f) l).
Proof.
  induction l as [|x l IH]; cbn; [done|]. rewrite IH. generalize (sort_by_key (key ∘ f) l) as k. intros k.
  induction k as [|y k IHk]; cbn; [done|]. destruct (leb _ _); cbn; [done|]. by rewrite IHk.
Qed.

Lemma join_items first l : join first l = items_text first l.
Proof. revert first. induction l as [|x l IH]; intros first; cbn; [done|]. by rewrite IH. Qed.

Lemma array_compact a : array (map compact a) = compact (JArray a).
Proof. unfold array, compact. cbn. by rewrite join_items. Qed.

(** A member name that needs no escape. *)
Definition plain_name (n : list Z) : Prop := write_string n = [34] ++ n ++ [34] ∧ ijson_text n.

Definition rendered (o : JsonObject) : list (list Z * list Z) := map (λ m, (m.1, compact m.2)) o.

Lemma finish_compact o : Forall (λ m, plain_name m.1) o → finish (rendered o) = compact (JObject (sort_by_key fst o)).
Proof.
  intros Ho. unfold finish, rendered. rewrite (sort_by_key_map _ fst).
  rewrite <- (sort_by_key_perm fst) in Ho. change (fst ∘ (λ m : list Z * Json, (m.1, compact m.2))) with (fst : list Z * Json → list Z).
  revert Ho. generalize (sort_by_key fst o) as l. intros l Hl.
  assert (∀ first, write_members first (map (λ m, (m.1, compact m.2)) l) =
    items_text first (map (λ m, write_string m.1 ++ [58] ++ m.2) (map (λ m, (m.1, compact m.2)) l))) as E.
  { induction Hl as [|[n v] l [Hn _] _ IH]; intros first; cbn [map write_members items_text fst snd]; [done|]. cbn [fst] in Hn. rewrite IH, Hn.
    by rewrite <- !app_assoc. }
  by rewrite E.
Qed.

Lemma object_wf o :
  NoDup (obj_names o) → Forall (λ m, plain_name m.1) o → Forall (λ m, wf_json m.2) o → wf_json (JObject (sort_by_key fst o)).
Proof.
  intros Hnd Hn Hv. assert (sort_by_key fst o ≡ₚ o) as Hp by apply sort_by_key_perm. constructor; unfold obj_names in *.
  - by rewrite Hp.
  - rewrite Hp. clear -Hn. induction Hn as [|m o [_ Hm] _ IH]; by constructor.
  - by rewrite Hp.
Qed.

Lemma collect_results_Forall2 {E A B} (f : A → result E B) l k :
  collect_results f l = Ok k ↔ Forall2 (λ x y, f x = Ok y) l k.
Proof.
  revert k. induction l as [|x l IH]; intros k; cbn.
  - split; [by intros [= <-]|]. intros H. by inversion H.
  - destruct (f x) as [y|e] eqn:Ex; cbn.
    + destruct (collect_results f l) as [ys|e] eqn:El; cbn.
      * split; [intros [= <-]; constructor; [done|]; by apply IH|]. intros H. inversion H as [|? y' ? k' Hy Hk]; subst.
        apply IH in Hk. congruence.
      * split; [done|]. intros H. inversion H as [|? y' ? k' Hy Hk]; subst. by apply IH in Hk.
    + split; [done|]. intros H. inversion H; subst. congruence.
Qed.

(** ** The trees *)

Section Trees.
Context `{C : Crypto}.

Definition peer_members (p : PeerSide) : JsonObject :=
  [(bs "key_id", JString (pe_key_id p))] ++
  match pe_session_id p with Some s => [(bs "session_id", JString s)] | None => [] end.

Definition local_members (l : LocalSide) : JsonObject :=
  match l with
  | LS_Session s => [(bs "kind", JString (bs "session")); (bs "session_id", JString s)]
  | LS_Scope scope => [(bs "kind", JString (bs "scope")); (bs "scope", JString scope)]
  | LS_Device => [(bs "kind", JString (bs "device"))]
  end.

Definition tree (o : JsonObject) : Json := JObject (sort_by_key fst o).

Definition grant_members (g : Grant) : JsonObject :=
  match g with
  | Inbound w t => [(bs "direction", JString (bs "inbound")); (bs "writer", tree (peer_members w)); (bs "target", tree (local_members t))]
  | Outbound w t => [(bs "direction", JString (bs "outbound")); (bs "writer", tree (local_members w)); (bs "target", tree (peer_members t))]
  end.

Definition confirmed_members (c : ConfirmedValues) : JsonObject :=
  [(bs "agreement_key", JString (agreement_to_base64url (cv_agreement_key c)));
   (bs "issued_at", JString (ts_text (cv_issued_at c))); (bs "seq", JNumber (from_u64 (cv_seq c)))].

Definition record_members (r : PairingRecord) : JsonObject :=
  [(bs "key_id", JString (record_key_id r)); (bs "paired_at", JString (ts_text (pr_paired_at r)));
   (bs "principal", JString (pr_principal r)); (bs "public_key", JString (to_base64url (pr_public_key r)))] ++
  match pr_confirmed r with Some c => [(bs "confirmed", tree (confirmed_members c))] | None => [] end.

Definition held_members (h : HeldStatement) : JsonObject :=
  [(bs "agreement_key", JString (agreement_to_base64url (hs_agreement_key h)));
   (bs "issued_at", JString (ts_text (hs_issued_at h))); (bs "key_id", JString (hs_key_id h));
   (bs "seq", JNumber (from_u64 (hs_seq h)))].

Definition floor_members (f : SeqFloor) : JsonObject :=
  [(bs "key_id", JString (fl_key_id f)); (bs "seq", JNumber (from_u64 (fl_seq f)))].

Definition root_members (f : TrustFile) : JsonObject :=
  match tf_agreement_seq_floor f with Some x => [(bs "agreement_seq_floor", tree (floor_members x))] | None => [] end ++
  match tf_device_key_id f with Some k => [(bs "device_key_id", JString k)] | None => [] end ++
  [(VERSION_MEMBER, JNumber (from_u64 FORMAT_VERSION));
   (bs "paired", JArray (map (tree ∘ record_members) (sp_paired (tf_snapshot f))));
   (bs "grants", JArray (map (tree ∘ grant_members) (sp_grants (tf_snapshot f))));
   (bs "relay_enabled", JArray (map JString (sp_relay_enabled (tf_snapshot f))));
   (bs "statements", JArray (map (tree ∘ held_members) (sp_agreement_statements (tf_snapshot f))))].
End Trees.

(** ** Writing gives the tree's text *)

Lemma put_rendered n v o : put n (compact v) (rendered o) = rendered (o ++ [(n, v)]).
Proof. unfold put, rendered. by rewrite map_app. Qed.

Lemma seq_number n : wf_seq n → wf_json (JNumber (from_u64 n)) ∧ plain_integer_in (from_u64 n) 0 MAX_STATEMENT_SEQ = Some n.
Proof.
  unfold wf_seq, MAX_STATEMENT_SEQ. intros Hn. split.
  - apply wf_number, from_u64_rfc. unfold U64_MAX. lia.
  - apply plain_integer_from; unfold U64_MAX; lia.
Qed.

(** [renders r v]: the text, when there is one, is the text of the I-JSON value [v]. *)
Definition renders (r : result Reason (list Z)) (v : Json) : Prop := ∀ t, r = Ok t → t = compact v ∧ wf_json v.

Lemma finish_renders o :
  bool_decide (NoDup (obj_names o)) = true → Forall (λ m, plain_name m.1) o → Forall (λ m, wf_json m.2) o →
  finish (rendered o) = compact (tree o) ∧ wf_json (tree o).
Proof. intros Hnd%bool_decide_eq_true Hn Hv. split; [by apply finish_compact|by apply object_wf]. Qed.

Lemma collect_renders {A} (f : A → result Reason (list Z)) (g : A → Json) l ts :
  Forall (λ x, renders (f x) (g x)) l → collect_results f l = Ok ts → ts = map compact (map g l) ∧ Forall wf_json (map g l).
Proof.
  intros Hl H%collect_results_Forall2. induction H as [|x t l ts Hx _ IH]; cbn; [by split|]. inv_Forall.
  destruct IH as [-> IH]; [done|]. destruct (H t Hx) as [-> Hw]. split; [done|by constructor].
Qed.

(** Names of members are literals. *)
Ltac names := repeat constructor; cbn [fst]; (reflexivity || (apply ascii_bs; reflexivity)).

Section Written.
Context `{C : Crypto} `{!JcsStrings C} `{!CryptoLaws C}.

Lemma quoted_renders s : is_utf8 s = true → renders (quoted s) (JString s).
Proof.
  intros Hs t H. unfold quoted in H. destruct (is_ijson_string s) eqn:Ei; [|done]. cbn [negb] in H.
  assert (canonical jcs_string jcs_f64 (JString s) = jcs (jcs_string s)) as E.
  { unfold canonical, events_sorted. rewrite walk_ref. cbn. by destruct (jcs_string s). }
  rewrite E, jcs_string_text in H by done. cbn in H. injection H as <-. split; [done|]. by constructor.
Qed.

Lemma put_string_rendered n s o m :
  is_utf8 s = true → put_string n s (rendered o) = Ok m → m = rendered (o ++ [(n, JString s)]) ∧ wf_json (JString s).
Proof.
  intros Hs H. unfold put_string in H. apply result_bind_Ok in H as (t & Ht & [= <-]).
  destruct (quoted_renders s Hs t Ht) as [-> Hw]. split; [apply put_rendered|done].
Qed.

Lemma parsed_utf8 :
  (∀ k, wf_key_id k → is_utf8 k = true) ∧ (∀ s, wf_session_id s → is_utf8 s = true) ∧
  (∀ t, wf_timestamp t → is_utf8 (ts_text t) = true) ∧ (∀ s, is_token s = true → is_utf8 s = true) ∧
  (∀ o, is_utf8 (Base64url.encode o) = true).
Proof.
  split_and!.
  - intros k Hk. by eapply ascii_utf8, key_id_ascii.
  - intros s Hs. unfold wf_session_id, SessionId_parse, then_some in Hs. destruct (is_session_id s) eqn:E; [|done].
    by apply ascii_utf8, session_id_ascii.
  - intros t Ht. by eapply ascii_utf8, timestamp_ascii.
  - intros s Hs. by apply ascii_utf8, token_ascii.
  - intros o. apply ascii_utf8, encode_ascii.
Qed.

(** Every string of the file is UTF-8. *)
Ltac utf8 :=
  destruct parsed_utf8 as (? & ? & ? & ? & ?); unfold agreement_to_base64url, to_base64url;
  solve [reflexivity | auto].

(** Replays the members put, one after the other. *)
Ltac puts :=
  repeat match goal with
  | H : put_string ?n ?s [] = Ok _ |- _ => apply (put_string_rendered n s []) in H as [-> ?]; [|utf8]
  | H : put_string ?n ?s (rendered ?o) = Ok _ |- _ => apply (put_string_rendered n s o) in H as [-> ?]; [|utf8]
  | |- context [put ?n (to_dec ?v) ?o] =>
      change (put n (to_dec v) o) with (put n (compact (JNumber (from_u64 v))) o)
  | |- context [put ?n (compact ?v) (rendered ?o)] => rewrite (put_rendered n v o)
  end.

Ltac finishes :=
  match goal with |- finish (rendered ?o) = _ ∧ _ =>
    apply (finish_renders o); [reflexivity|names|repeat (apply Forall_cons; split; [done|]); apply Forall_nil; done] end.

#[local] Arguments bs : simpl never.
#[local] Arguments finish : simpl never.
#[local] Arguments compact : simpl never.
#[local] Arguments tree : simpl never.
#[local] Arguments to_dec : simpl never.
#[local] Arguments put : simpl never.
#[local] Arguments put_string : simpl never.

Lemma peer_side_renders p : wf_peer_side p → renders (encode_peer_side p) (tree (peer_members p)).
Proof.
  intros [Hk Hs] t H. unfold encode_peer_side in H. destruct p as [k [s|]]; cbn in *; inv_binds; puts.
  - specialize (Hs s eq_refl). puts. finishes.
  - finishes.
Qed.

Lemma local_side_renders l : wf_local_side l → renders (encode_local_side l) (tree (local_members l)).
Proof. intros Hl t H. unfold encode_local_side in H. destruct l; cbn in *; inv_binds; puts; finishes. Qed.

Lemma grant_renders g : wf_grant g → renders (encode_grant g) (tree (grant_members g)).
Proof.
  intros Hg t H. unfold encode_grant in H. destruct g as [w l|w l]; cbn in *; destruct Hg as [Hw Hl]; inv_binds; puts.
  all: repeat match goal with
    | H : encode_peer_side ?p = Ok _ |- _ => apply (peer_side_renders p) in H as [-> ?]; [|done]
    | H : encode_local_side ?p = Ok _ |- _ => apply (local_side_renders p) in H as [-> ?]; [|done]
    end; puts; finishes.
Qed.

Lemma confirmed_renders c : wf_confirmed c → renders (encode_confirmed c) (tree (confirmed_members c)).
Proof.
  intros (_ & Hs & Ht) t H. unfold encode_confirmed in H. destruct (seq_number _ Hs). inv_binds. puts. finishes.
Qed.

Lemma record_renders r : wf_record r → renders (encode_record r) (tree (record_members r)).
Proof.
  intros (Ht & _ & Hp & Hc) t H. unfold encode_record in H. inv_binds.
  assert (wf_key_id (record_key_id r)) by (apply key_id_parse). unfold record_members.
  destruct (pr_confirmed r) as [c|]; inv_binds; puts; [|finishes].
  match goal with H : encode_confirmed c = Ok _ |- _ => apply (confirmed_renders c) in H as [-> ?]; [|auto] end. puts. finishes.
Qed.

Lemma held_renders h : wf_held h → renders (encode_statement h) (tree (held_members h)).
Proof.
  intros (Hk & _ & Hs & Ht) t H. unfold encode_statement in H. destruct (seq_number _ Hs). inv_binds. puts. finishes.
Qed.

Lemma floor_renders f : wf_floor f → renders (encode_floor f) (tree (floor_members f)).
Proof. intros [Hk Hs] t H. unfold encode_floor in H. destruct (seq_number _ Hs). inv_binds. puts. finishes. Qed.

Lemma all_rendered {A} (P : A → Prop) (f : A → result Reason (list Z)) (g : A → Json) l ts :
  (∀ x, P x → renders (f x) (g x)) → Forall P l → collect_results f l = Ok ts →
  array ts = compact (JArray (map g l)) ∧ wf_json (JArray (map g l)).
Proof.
  intros Hf Hl H. destruct (collect_renders f g l ts) as [-> Hw]; [by eapply Forall_impl|done|].
  split; [apply array_compact|by constructor].
Qed.

Lemma wf_ordered f : wf_file f → wf_file (ordered_file f).
Proof.
  intros [Hd [Hp Hg Hr Hs] Hf]. split; [exact Hd| |exact Hf]. split; cbn.
  - by rewrite sort_by_key_perm.
  - done.
  - apply dedup_Forall. unfold sort. by rewrite sort_by_key_perm.
  - by rewrite sort_by_key_perm.
Qed.

Lemma file_renders f : wf_file f → renders (trust_encode f) (tree (root_members (ordered_file f))).
Proof.
  intros Hf t H. destruct (wf_ordered f Hf) as [Hd [Hp Hg Hr Hs] Hx]. unfold trust_encode in H. cbv zeta in H.
  apply result_bind_Ok in H as (m1 & H1 & H). apply result_bind_Ok in H as (m2 & H2 & H).
  apply result_bind_Ok in H as (paired & E1 & H). apply result_bind_Ok in H as (grants & E2 & H).
  apply result_bind_Ok in H as (relay & E3 & H). apply result_bind_Ok in H as (statements & E4 & H). injection H as <-.
  apply (all_rendered _ _ (tree ∘ record_members) _ _ record_renders Hp) in E1 as [-> W1].
  apply (all_rendered _ _ (tree ∘ grant_members) _ _ grant_renders Hg) in E2 as [-> W2].
  apply (all_rendered _ _ JString _ _ (λ s Hs, quoted_renders s (proj1 (proj2 parsed_utf8) s Hs)) Hr) in E3 as [-> W3].
  apply (all_rendered _ _ (tree ∘ held_members) _ _ held_renders Hs) in E4 as [-> W4].
  change (to_dec FORMAT_VERSION) with (compact (JNumber (from_u64 FORMAT_VERSION))).
  assert (wf_json (JNumber (from_u64 FORMAT_VERSION))) as W5 by (apply seq_number; by vm_compute).
  unfold root_members. cbn [ordered_file tf_device_key_id tf_agreement_seq_floor] in *. cbn [tf_snapshot ordered_file ordered sp_grants].
  destruct (tf_agreement_seq_floor f) as [x|].
  - apply result_bind_Ok in H1 as (fl & E & H1). apply floor_renders in E as [-> ?]; [|by apply Hx]. injection H1 as <-.
    change (put (bs "agreement_seq_floor") (compact (tree (floor_members x))) []) with (rendered [(bs "agreement_seq_floor", tree (floor_members x))]) in H2.
    destruct (tf_device_key_id f) as [k|].
    + specialize (Hd k eq_refl). puts. finishes.
    + assert (m2 = rendered [(bs "agreement_seq_floor", tree (floor_members x))]) as -> by (by injection H2). puts. finishes.
  - injection H1 as <-. destruct (tf_device_key_id f) as [k|].
    + specialize (Hd k eq_refl). puts. finishes.
    + injection H2 as <-. change (put VERSION_MEMBER ?x []) with (rendered [(VERSION_MEMBER, JNumber (from_u64 FORMAT_VERSION))]).
      puts. finishes.
Qed.
End Written.

(** ** Reading the tree *)

Lemma obj_get_unique (o : JsonObject) n v : NoDup (obj_names o) → obj_get o n = Some v ↔ (n, v) ∈ o.
Proof.
  unfold obj_names. induction o as [|[k w] o IH]; cbn [map fst]; [intros _; split; [done|intros H; by apply elem_of_nil in H]|].
  intros [Hk Hnd]%NoDup_cons. rewrite obj_get_cons, elem_of_cons. destruct (beq k n) eqn:E.
  - apply beq_true in E as ->. split; [intros [= ->]; by left|]. intros [[= ->]|Hin]; [done|]. destruct Hk.
    apply list_elem_of_In, in_map_iff. exists (n, v). split; [done|]. by apply list_elem_of_In.
  - rewrite IH by done. split; [by right|]. intros [[= -> ->]|]; [|done]. by rewrite beq_refl in E.
Qed.

Lemma sorted_get o n : bool_decide (NoDup (obj_names o)) = true → obj_get (sort_by_key fst o) n = obj_get o n.
Proof.
  intros Hnd%bool_decide_eq_true.
  assert (NoDup (obj_names (sort_by_key fst o))) as Hnd' by (unfold obj_names in *; by rewrite sort_by_key_perm).
  apply option_eq. intros v. rewrite !obj_get_unique by done. by rewrite sort_by_key_perm.
Qed.

Lemma first_unknown_Ok what req opt names :
  forallb (λ n, bool_decide (n ∈ req) || bool_decide (n ∈ opt)) names = true → first_unknown what req opt names = Ok tt.
Proof.
  induction names as [|n names IH]; cbn; [done|]. intros [H Hn]%andb_true_iff. rewrite <- negb_orb, H. by apply IH.
Qed.

Lemma first_missing_Ok what o req : forallb (obj_contains o) req = true → first_missing what o req = Ok tt.
Proof. induction req as [|n req IH]; cbn; [done|]. intros [-> Hn]%andb_true_iff. by apply IH. Qed.

Lemma sorted_exact o req opt what :
  bool_decide (NoDup (obj_names o)) && forallb (λ n, bool_decide (n ∈ req) || bool_decide (n ∈ opt)) (obj_names o) &&
    forallb (obj_contains o) req = true →
  exact (sort_by_key fst o) req opt what = Ok tt.
Proof.
  intros [[Hnd Hn]%andb_true_iff Hr]%andb_true_iff. unfold exact. rewrite first_unknown_Ok.
  - cbn. apply first_missing_Ok. rewrite forallb_forall in Hr |- *. intros n Hin. unfold obj_contains. rewrite sorted_get by done. by apply Hr.
  - rewrite forallb_forall in Hn |- *. intros n Hin. apply Hn. unfold obj_names in *. rewrite <- list_elem_of_In in Hin |- *.
    by rewrite sort_by_key_perm in Hin.
Qed.

(** Looks up the members of literal objects. *)
Ltac gets :=
  unfold read_key_id, read_session_id, read_timestamp, read_agreement_key, read_seq, object_member, list_member, text, obj_contains;
  repeat (match goal with
  | |- context [exact (sort_by_key fst ?o) ?r ?p ?w] => rewrite (sorted_exact o r p w) by reflexivity
  | |- context [obj_get (sort_by_key fst ?o) ?n] =>
      rewrite (sorted_get o n) by reflexivity; let r := eval hnf in (obj_get o n) in change (obj_get o n) with r
  end; cbn [mbind result_bind option_bind ok_or as_str as_object as_array as_number snd is_some]).

Lemma peer_side_read p : wf_peer_side p → decode_peer_side (sort_by_key fst (peer_members p)) = Ok p.
Proof.
  intros [Hk Hs]. unfold decode_peer_side. destruct p as [k [s|]]; cbn [pe_key_id pe_session_id peer_members app] in *; gets;
    rewrite Hk; cbn [ok_or mbind result_bind]; [|done].
  rewrite (Hs s eq_refl). done.
Qed.

Lemma local_side_read l : wf_local_side l → decode_local_side (sort_by_key fst (local_members l)) = Ok l.
Proof.
  intros Hl. unfold decode_local_side. destruct l as [s|s|]; cbn [local_members] in *; gets.
  - change (beq (bs "session") (bs "session")) with true. cbv iota. gets. rewrite Hl. done.
  - change (beq (bs "scope") (bs "session")) with false. change (beq (bs "scope") (bs "scope")) with true. cbv iota. by gets.
  - change (beq (bs "device") (bs "session")) with false. change (beq (bs "device") (bs "scope")) with false.
    change (beq (bs "device") (bs "device")) with true. cbv iota. by gets.
Qed.

Lemma grant_read g : wf_grant g → decode_grant (sort_by_key fst (grant_members g)) = Ok g.
Proof.
  intros Hg. unfold decode_grant. destruct g as [w t|w t]; destruct Hg as [Hw Ht]; cbn [grant_members tree] in *; gets; unfold tree;
    cbn [as_object ok_or mbind result_bind].
  - change (beq (bs "inbound") (bs "inbound")) with true. cbv iota. rewrite peer_side_read, local_side_read by done. done.
  - change (beq (bs "outbound") (bs "inbound")) with false. change (beq (bs "outbound") (bs "outbound")) with true. cbv iota.
    rewrite peer_side_read, local_side_read by done. done.
Qed.

Lemma confirmed_read c : wf_confirmed c → decode_confirmed (tree (confirmed_members c)) = Ok c.
Proof.
  intros (Hk & Hs & Ht). unfold decode_confirmed, tree, element. cbn [as_object ok_or mbind result_bind confirmed_members]. gets.
  rewrite Hk. cbn [ok_or mbind result_bind]. rewrite (proj2 (seq_number _ Hs)). cbn [ok_or mbind result_bind]. rewrite Ht.
  cbn [ok_or mbind result_bind]. unfold ConfirmedValues_from_store. rewrite (proj2 (Z.leb_le _ _)) by apply Hs. by destruct c.
Qed.

Lemma held_read h : wf_held h → decode_statement (sort_by_key fst (held_members h)) = Ok h.
Proof.
  intros (Hi & Hk & Hs & Ht). unfold decode_statement. cbn [held_members]. gets.
  rewrite Hi. cbn [ok_or mbind result_bind]. rewrite Hk. cbn [ok_or mbind result_bind]. rewrite (proj2 (seq_number _ Hs)).
  cbn [ok_or mbind result_bind]. rewrite Ht. cbn [ok_or mbind result_bind]. unfold HeldStatement_from_store.
  rewrite (proj2 (Z.leb_le _ _)) by apply Hs. by destruct h.
Qed.

Lemma floor_read f : wf_floor f → decode_floor (tree (floor_members f)) = Ok f.
Proof.
  intros [Hk Hs]. unfold decode_floor, tree, element. cbn [as_object ok_or mbind result_bind floor_members]. gets.
  rewrite Hk. cbn [ok_or mbind result_bind]. rewrite (proj2 (seq_number _ Hs)). by destruct f.
Qed.

Lemma collect_read {A} (P : A → Prop) (m : A → Json) (one : Json → result Reason A) l :
  (∀ x, P x → one (m x) = Ok x) → Forall P l → collect_results one (map m l) = Ok l.
Proof. intros Hone Hl. apply collect_results_Forall2. induction Hl as [|x l Hx _ IH]; cbn; constructor; auto. Qed.

Section Read.
Context `{C : Crypto} `{!JcsStrings C} `{!CryptoLaws C}.

Lemma record_read r : wf_record r → decode_record (sort_by_key fst (record_members r)) = Ok r.
Proof.
  intros (Ht & Hk & Hp & Hc). unfold decode_record. destruct r as [pr pk at_ [c|]];
    cbn [record_members pr_confirmed pr_principal pr_public_key pr_paired_at app] in *; gets; rewrite Hk; cbn [ok_or mbind result_bind];
    unfold record_key_id; cbn [pr_public_key]; rewrite (proj2 (key_id_parse pk)); cbn [ok_or mbind result_bind];
    rewrite beq_refl; cbn [negb]; unfold Token_parse; rewrite Ht; cbn [then_some ok_or mbind result_bind].
  - rewrite confirmed_read by (by apply Hc). cbn [mbind result_bind]. by rewrite Hp.
  - by rewrite Hp.
Qed.

Lemma root_read f : wf_file f → decode_root (tree (root_members f)) = Ok f.
Proof.
  intros [Hd [Hp Hg Hr Hs] Hf]. unfold decode_root, tree, decode_all. cbn [as_object ok_or mbind result_bind].
  assert (∀ l, Forall wf_record l → collect_results (λ v, o ← element v "paired"; decode_record o) (map (tree ∘ record_members) l) = Ok l) as Ep
    by (intros l; apply collect_read; exact record_read).
  assert (∀ l, Forall wf_grant l → collect_results (λ v, o ← element v "grants"; decode_grant o) (map (tree ∘ grant_members) l) = Ok l) as Eg
    by (intros l; apply collect_read; exact grant_read).
  assert (∀ l, Forall wf_held l → collect_results (λ v, o ← element v "statements"; decode_statement o) (map (tree ∘ held_members) l) = Ok l) as Eh
    by (intros l; apply collect_read; exact held_read).
  assert (∀ l, Forall wf_session_id l → collect_results (λ v, ok_or (s ← as_str v; SessionId_parse s) RelayNotASessionId) (map JString l) = Ok l) as Es.
  { intros l. apply collect_read. intros s Hs'. cbn. by rewrite Hs'. }
  destruct f as [dk [sp sg sr sh] fl]. cbn [tf_snapshot sp_paired sp_grants sp_relay_enabled sp_agreement_statements tf_device_key_id
    tf_agreement_seq_floor] in *.
  assert (plain_integer_in (from_u64 FORMAT_VERSION) 0 U64_MAX = Some FORMAT_VERSION) as Ev by reflexivity.
  destruct fl as [x|], dk as [k|]; cbn [root_members tf_snapshot sp_paired sp_grants sp_relay_enabled sp_agreement_statements tf_device_key_id
    tf_agreement_seq_floor app]; gets; rewrite Ev, bool_decide_true by done; cbn [mbind result_bind];
    rewrite ?(Hd _ eq_refl); cbn [ok_or mbind result_bind]; rewrite ?floor_read by auto; cbn [mbind result_bind];
    rewrite Ep by done; cbn [mbind result_bind]; rewrite Eg by done; cbn [mbind result_bind]; rewrite Es by done; cbn [mbind result_bind];
    rewrite Eh by done; done.
Qed.

Lemma file_read f t : wf_file f → trust_encode f = Ok t → trust_decode t = Ok (ordered_file f).
Proof.
  intros Hf H. destruct (file_renders f Hf t H) as [-> Hw]. unfold trust_decode. rewrite parse_compact by done. cbn [map_err mbind result_bind].
  by apply root_read, wf_ordered.
Qed.
End Read.

(** ** When there is a text *)

Definition local_side_of (g : Grant) : LocalSide := match g with Inbound _ t => t | Outbound w _ => w end.

(** A scope without the code points I-JSON forbids. *)
Definition ijson_scope (g : Grant) : Prop :=
  match local_side_of g with LS_Scope scope => is_ijson_string scope = true | _ => True end.

Section Total.
Context `{C : Crypto} `{!JcsStrings C} `{!CryptoLaws C}.

Lemma quoted_ok s : ijson_text s → quoted s = Ok (write_string s).
Proof.
  intros [Hu Hi]. unfold quoted. rewrite Hi. cbn [negb]. unfold canonical, events_sorted. rewrite walk_ref. cbn.
  by rewrite jcs_string_text.
Qed.

Lemma put_string_ok n s o : ijson_text s → put_string n s o = Ok (put n (write_string s) o).
Proof. intros Hs. unfold put_string. by rewrite quoted_ok. Qed.

Lemma parsed_ijson :
  (∀ k, wf_key_id k → ijson_text k) ∧ (∀ s, wf_session_id s → ijson_text s) ∧ (∀ t, wf_timestamp t → ijson_text (ts_text t)) ∧
  (∀ s, is_token s = true → ijson_text s) ∧ (∀ o, ijson_text (Base64url.encode o)).
Proof.
  split_and!.
  - intros k Hk. by eapply ascii_ijson, key_id_ascii.
  - intros s Hs. unfold wf_session_id, SessionId_parse, then_some in Hs. destruct (is_session_id s) eqn:E; [|done].
    by apply ascii_ijson, session_id_ascii.
  - intros t Ht. by eapply ascii_ijson, timestamp_ascii.
  - intros s Hs. by apply ascii_ijson, token_ascii.
  - intros o. apply ascii_ijson, encode_ascii.
Qed.

Ltac strings :=
  destruct parsed_ijson as (? & ? & ? & ? & ?); unfold agreement_to_base64url, to_base64url;
  cbn [mbind result_bind]; repeat (rewrite put_string_ok by solve [auto | apply ascii_bs; reflexivity]; cbn [mbind result_bind]).

Lemma peer_side_ok p : wf_peer_side p → ∃ t, encode_peer_side p = Ok t.
Proof.
  intros [Hk Hs]. unfold encode_peer_side. strings. destruct (pe_session_id p) as [s|]; [|eauto]. specialize (Hs s eq_refl). strings. eauto.
Qed.

Lemma local_side_ok l :
  wf_local_side l → match l with LS_Scope scope => is_ijson_string scope = true | _ => True end → ∃ t, encode_local_side l = Ok t.
Proof.
  intros Hl Hi. unfold encode_local_side. destruct l as [s|s|]; cbn [wf_local_side] in Hl; strings; [eauto| |eauto].
  assert (ijson_text s) by (by split). strings. eauto.
Qed.

Lemma grant_ok g : wf_grant g → ijson_scope g → ∃ t, encode_grant g = Ok t.
Proof.
  intros Hg Hi. unfold encode_grant, ijson_scope in *. destruct g as [w l|w l]; destruct Hg as [Hw Hl]; cbn [local_side_of] in Hi; strings.
  - destruct (peer_side_ok w Hw) as [x ->], (local_side_ok l Hl Hi) as [y ->]. cbn [mbind result_bind]. eauto.
  - destruct (local_side_ok w Hw Hi) as [x ->], (peer_side_ok l Hl) as [y ->]. cbn [mbind result_bind]. eauto.
Qed.

Lemma record_ok r : wf_record r → ∃ t, encode_record r = Ok t.
Proof.
  intros (Ht & _ & Hp & Hc). unfold encode_record. assert (wf_key_id (record_key_id r)) by (apply key_id_parse). strings.
  destruct (pr_confirmed r) as [c|]; [|eauto]. destruct (Hc c eq_refl) as (_ & _ & Hi). unfold encode_confirmed. strings. eauto.
Qed.

Lemma held_ok h : wf_held h → ∃ t, encode_statement h = Ok t.
Proof. intros (Hi & _ & _ & Ht). unfold encode_statement. strings. eauto. Qed.

Lemma collect_ok {E A B} (P : A → Prop) (f : A → result E B) l : (∀ x, P x → ∃ t, f x = Ok t) → Forall P l → ∃ ts, collect_results f l = Ok ts.
Proof.
  intros Hf. induction 1 as [|x l Hx _ [ts IH]]; cbn; [eauto|]. destruct (Hf x Hx) as [t ->]. cbn. rewrite IH. cbn. eauto.
Qed.

Lemma file_ok f : wf_file f → Forall ijson_scope (sp_grants (tf_snapshot f)) → ∃ t, trust_encode f = Ok t.
Proof.
  intros Hf Hi. destruct (wf_ordered f Hf) as [Hd [Hp Hg Hr Hs] Hx].
  cbn [ordered_file ordered tf_device_key_id tf_snapshot sp_paired sp_grants sp_relay_enabled sp_agreement_statements tf_agreement_seq_floor] in *.
  destruct (collect_ok _ _ _ record_ok Hp) as [t1 E1].
  destruct (collect_ok (λ g, wf_grant g ∧ ijson_scope g) encode_grant (sp_grants (tf_snapshot f))) as [t2 E2];
    [intros g []; by apply grant_ok|by apply Forall_and|].
  destruct (collect_ok wf_session_id quoted _ (λ s Hs, ex_intro _ _ (quoted_ok s (proj1 (proj2 parsed_ijson) s Hs))) Hr) as [t3 E3].
  destruct (collect_ok _ _ _ held_ok Hs) as [t4 E4]. unfold trust_encode. cbv zeta.
  assert (∃ m, (match tf_agreement_seq_floor f with
    | Some floor => f ← encode_floor floor; Ok (put (bs "agreement_seq_floor") f [])
    | None => Ok [] end) = Ok m) as [m1 ->].
  { destruct (tf_agreement_seq_floor f) as [x|]; [|eauto]. destruct (Hx x eq_refl) as [Hk _]. unfold encode_floor. strings. eauto. }
  cbn [mbind result_bind].
  assert (∃ m, (match tf_device_key_id f with Some id => put_string (bs "device_key_id") id m1 | None => Ok m1 end) = Ok m) as [m2 ->].
  { destruct (tf_device_key_id f) as [k|]; [|eauto]. specialize (Hd k eq_refl). strings. eauto. }
  cbn [mbind result_bind]. rewrite E1. cbn [mbind result_bind]. rewrite E2. cbn [mbind result_bind]. rewrite E3. cbn [mbind result_bind].
  rewrite E4. cbn [mbind result_bind]. eauto.
Qed.
End Total.

(** ** The file's text does not depend on the order of the snapshot *)

(** Two snapshots that hold the same, under distinct key ids. *)
Record same_snapshot `{C : Crypto} (a b : PairingSnapshot) : Prop := {
  ss_paired : sp_paired a ≡ₚ sp_paired b;
  ss_paired_ids : NoDup (map record_key_id (sp_paired a));
  ss_grants : sp_grants a = sp_grants b;
  ss_relay x : x ∈ sp_relay_enabled a ↔ x ∈ sp_relay_enabled b;
  ss_statements : sp_agreement_statements a ≡ₚ sp_agreement_statements b;
  ss_statements_ids : NoDup (map hs_key_id (sp_agreement_statements a)) }.

Lemma dedup_sort_unique (a b : list (list Z)) : (∀ x, x ∈ a ↔ x ∈ b) → dedup (sort a) = dedup (sort b).
Proof.
  intros Hab. destruct (dedup_sorted (sort a)) as [N1 S1]; [apply (sort_by_key_sorted id)|].
  destruct (dedup_sorted (sort b)) as [N2 S2]; [apply (sort_by_key_sorted id)|].
  apply (sorted_unique id); [done|done|by rewrite map_id|]. apply NoDup_Permutation; [done|done|]. intros x.
  rewrite !elem_of_dedup. unfold sort. by rewrite !sort_by_key_perm.
Qed.

Lemma ordered_same `{C : Crypto} a b : same_snapshot a b → ordered a = ordered b.
Proof.
  intros [Hp Np Hg Hr Hs Ns]. unfold ordered.
  rewrite (sort_by_key_unique record_key_id _ _ Np Hp), (sort_by_key_unique hs_key_id _ _ Ns Hs), (dedup_sort_unique _ _ Hr). by rewrite Hg.
Qed.

Lemma encode_ordered `{C : Crypto} f : trust_encode (ordered_file f) = trust_encode f.
Proof.
  unfold trust_encode, ordered_file, ordered. cbn [tf_device_key_id tf_snapshot tf_agreement_seq_floor sp_paired sp_grants sp_relay_enabled
    sp_agreement_statements]. rewrite !sort_by_key_idem by apply _.
  destruct (dedup_sorted (sort (sp_relay_enabled (tf_snapshot f)))) as [N1 S1]; [apply (sort_by_key_sorted id)|].
  assert (sort (dedup (sort (sp_relay_enabled (tf_snapshot f)))) = dedup (sort (sp_relay_enabled (tf_snapshot f)))) as ->
    by (apply (sort_by_key_fix id), S1).
  by rewrite (dedup_fix _ N1).
Qed.

(** The trust file is read back as it was written, and equal stores give equal files: for
    values of the types the store holds, [encode] fails only for a scope with a Unicode
    noncharacter; what it writes is read by [decode] to the same device key id, floor, grants,
    pairings, relay settings and statements, the lists in the file's order; and every snapshot
    with the same contents, in whatever order, gives the very same octets. *)
Theorem trust_file_round_trip `{C : Crypto} (HC : CryptoLaws C) (HJ : JcsStrings C) (f : TrustFile) :
  wf_file f → Forall ijson_scope (sp_grants (tf_snapshot f)) →
  ∃ text, trust_encode f = Ok text ∧ trust_decode text = Ok (ordered_file f) ∧
    (∀ f', tf_device_key_id f' = tf_device_key_id f → tf_agreement_seq_floor f' = tf_agreement_seq_floor f →
           same_snapshot (tf_snapshot f) (tf_snapshot f') → trust_encode f' = Ok text).
Proof.
  intros Hf Hi. destruct (file_ok f Hf Hi) as [t Ht]. exists t. split_and!; [done|by apply file_read|].
  intros f' Hd Hfl Hs. rewrite <- encode_ordered in Ht |- *. unfold ordered_file in *. by rewrite Hd, Hfl, <- (ordered_same _ _ Hs).
Qed.

(** A file with every member, for the witnesses. *)
Definition sample_key_id : KeyId := bs "00112233445566778899aabbccddeeff00112233445566778899aabbccddeeff".
Definition sample_stamp : Timestamp := default (mkTimestamp [] 0) (Timestamp_parse (bs "2026-11-04T12:00:00Z")).
Definition sample_record : PairingRecord := mkPairing (bs "peer") (mkPublicKey (replicate 31 7 ++ [0])) sample_stamp
  (Some (mkConfirmed (mkAgreement (9 :: replicate 31 0)) 3 sample_stamp)).
Definition sample_trust_file : TrustFile := mkTrustFile (Some sample_key_id)
  (mkSnapshot [sample_record]
    [Inbound (peer_device sample_key_id) (LS_Scope (bs "/home/a")); Outbound LS_Device (peer_session sample_key_id (from_random_octets (replicate 16 5)))]
    [from_random_octets (replicate 16 5); from_random_octets (replicate 16 2)]
    [mkHeld sample_key_id (mkAgreement (9 :: replicate 31 0)) 4 sample_stamp])
  (Some (mkFloor sample_key_id 7)).

Lemma sample_trust_file_wf : wf_file (C := sample_pair) sample_trust_file.
Proof.
  split.
  - intros k [= <-]. by vm_compute.
  - assert (wf_key_id sample_key_id ∧ wf_timestamp sample_stamp ∧ wf_agreement_key (mkAgreement (9 :: replicate 31 0)) ∧
      Forall wf_session_id [from_random_octets (replicate 16 5); from_random_octets (replicate 16 2)] ∧
      PublicKey_from_base64url (C := sample_pair) (to_base64url (pr_public_key sample_record)) = Some (pr_public_key sample_record))
      as (Hk & Ht & Ha & Hs & Hp).
    { split_and!; [vm_compute; reflexivity..| |vm_compute; reflexivity].
      apply Forall_cons. split; [vm_compute; reflexivity|]. apply Forall_cons. split; [vm_compute; reflexivity|]. by apply Forall_nil. }
    apply Forall_cons in Hs as Hs5. destruct Hs5 as [Hs5 _].
    assert (∀ n, 0 ≤ n ≤ 10 → wf_seq n) as Hn by (unfold wf_seq, MAX_STATEMENT_SEQ; lia).
    split; cbn [sample_trust_file tf_snapshot sp_paired sp_grants sp_relay_enabled sp_agreement_statements].
    + apply Forall_singleton. split_and!; [vm_compute; reflexivity|exact Hp|exact Ht|]. intros c [= <-]. split_and!; [exact Ha|apply (Hn 3); lia|exact Ht].
    + apply Forall_cons. split; [split; [split; [exact Hk|done]|vm_compute; reflexivity]|]. apply Forall_singleton.
      split; [done|]. split; [exact Hk|]. cbn [peer_session pe_session_id]. intros s E. by rewrite <- (inj Some _ _ E).
    + exact Hs.
    + apply Forall_singleton. split_and!; [exact Hk|exact Ha|apply (Hn 4); lia|exact Ht].
  - intros x [= <-]. split; [by vm_compute|]. split; by vm_compute.
Qed.

Lemma trust_file_round_trip_witness : ∃ text,
  trust_encode (C := sample_pair) sample_trust_file = Ok text ∧
  trust_decode (C := sample_pair) text = Ok (ordered_file (C := sample_pair) sample_trust_file).
Proof.
  destruct (trust_file_round_trip (C := sample_pair) sample_pair_laws sample_pair_strings sample_trust_file sample_trust_file_wf) as (t & H1 & H2 & _).
  - repeat constructor.
  - exists t. split; [exact H1|exact H2].
Defined.
