(* ===== verification/AtRest.v ===== *)
(** * The agreement keys at rest ([core/src/at_rest.rs])

    The octets of the file that keeps a device's agreement keys: the state as plaintext, and
    the seal under values derived from the device key's seed.  The [hpke] crate in PSK mode is
    a parameter. *)

From S2P Require Import Prelude Ids Utf8 Json JsonFacts JsonReader JsonText Canonical Envelope EnvelopeFacts Keys Trust Signing Replay SignedObject.
From S2P Require Import Agreement Pairing PairingFacts RecordBook Bindings Authorization Transport Sealing AgreementKeys.

(** [derive_keypair], and the single-shot functions in PSK mode: the random source, the PSK,
    its id, the key, [info], the text, the associated data. *)
Class HpkePsk := {
  psk_derive_keypair : list Z → list Z * list Z;
  psk_seal : list Z → list Z → list Z → list Z → list Z → list Z → list Z → option (list Z * list Z * list Z);
  psk_open : list Z → list Z → list Z → list Z → list Z → list Z → list Z → list Z → option (list Z) }.

Definition AT_REST_INFO : list Z := bs "oac-agreement-store-v1".
Definition KEM_LABEL : list Z := bs "oac-agreement-store-kem-v1".
Definition PSK_LABEL : list Z := bs "oac-agreement-store-psk-v1".
Definition MAGIC : list Z := bs "OACR".
Definition VERSION : Z := 1.
Definition KIND_AGREEMENT_KEYS : Z := 1.
Definition HEADER_LEN : nat := 4 + 1 + 1 + 64.
Definition REST_ENC_LEN : nat := 32.
Definition REST_TAG_LEN : nat := 16.
Definition MIN_FILE : nat := HEADER_LEN + REST_ENC_LEN + REST_TAG_LEN.
Definition MAX_KEYS : nat := 1024.
Definition MAX_TIMESTAMP_TEXT : nat := 40.
Definition MAX_PLAINTEXT : nat := 1 + 8 + 2 + MAX_KEYS * (32 + 8 + 1 + MAX_TIMESTAMP_TEXT).
Definition MAX_FILE_LEN : nat := HEADER_LEN + REST_ENC_LEN + MAX_PLAINTEXT + REST_TAG_LEN.

Inductive AtRestError : Type :=
| AR_TooLarge | AR_Malformed | AR_Unsupported | AR_NotThisDevice | AR_Authentication | AR_Corrupt | AR_Seal.

(** ** The plaintext *)

(** [u64::to_be_bytes] and [u16::to_be_bytes]. *)
Definition be64 (v : Z) : list Z := be_digits 256 8 v.
Definition be16 (v : Z) : list Z := be_digits 256 2 v.

(** The checks and the sum of [encoded_len]. *)
Fixpoint encoded_keys_len (highest : option Z) (keys : list StoredAgreementKey) (total : nat) : result AtRestError nat :=
  match keys with
  | [] => Ok total
  | key :: keys =>
      if match highest with Some h => h <? sk_seq key | None => true end then Err AR_Corrupt
      else
        let len := length (ts_text (sk_issued_at key)) in
        if bool_decide (len = 0%nat) || bool_decide (MAX_TIMESTAMP_TEXT < len)%nat then Err AR_Corrupt
        else encoded_keys_len highest keys (total + (32 + 8 + 1 + len))
  end.

Definition encoded_len (state : AgreementKeyState) : result AtRestError nat :=
  if bool_decide (MAX_KEYS < length (kst_keys state))%nat then Err AR_TooLarge
  else encoded_keys_len (kst_highest_seq state) (kst_keys state) (1 + 8 + 2).

Definition encode_key (key : StoredAgreementKey) : list Z :=
  let text := ts_text (sk_issued_at key) in
  sk_private_key key ++ be64 (sk_seq key) ++ [Z.of_nat (length text)] ++ text.

(** [encode_state]; the conversions of the count and of the lengths do not fail after
    [encoded_len]. *)
Definition encode_state (state : AgreementKeyState) : result AtRestError (list Z) :=
  _ ← encoded_len state;
  Ok ([if is_some (kst_highest_seq state) then 1 else 0] ++ be64 (default 0 (kst_highest_seq state)) ++
      be16 (Z.of_nat (length (kst_keys state))) ++ mjoin (map encode_key (kst_keys state))).

(** [Reader::take] and [Reader::u64]: what was read, and what is left. *)
Definition reader_take (n : nat) (r : list Z) : result AtRestError (list Z * list Z) :=
  if bool_decide (length r < n)%nat then Err AR_Corrupt else Ok (take n r, drop n r).

Definition reader_u64 (r : list Z) : result AtRestError (Z * list Z) :=
  '(b, r) ← reader_take 8 r; Ok (be_value 256 b, r).

Definition decode_key (r : list Z) : result AtRestError (StoredAgreementKey * list Z) :=
  '(octets, r) ← reader_take 32 r;
  '(seq, r) ← reader_u64 r;
  '(len, r) ← reader_take 1 r;
  let len := Z.to_nat (default 0 (head len)) in
  if bool_decide (len = 0%nat) || bool_decide (MAX_TIMESTAMP_TEXT < len)%nat then Err AR_Corrupt
  else
    '(text, r) ← reader_take len r;
    if negb (is_utf8 text) then Err AR_Corrupt
    else
      issued_at ← ok_or (opt_filter (λ t, beq (ts_text t) text) (Timestamp_parse text)) AR_Corrupt;
      Ok (mkStoredKey octets seq issued_at, r).

Fixpoint decode_keys (count : nat) (r : list Z) : result AtRestError (list StoredAgreementKey * list Z) :=
  match count with
  | O => Ok ([], r)
  | S count =>
      '(key, r) ← decode_key r;
      '(keys, r) ← decode_keys count r;
      Ok (key :: keys, r)
  end.

Definition decode_state (plaintext : list Z) : result AtRestError AgreementKeyState :=
  '(flag, r) ← reader_take 1 plaintext;
  '(highest, r) ← reader_u64 r;
  highest_seq ← (match head flag with
                 | Some 0 => if highest =? 0 then Ok None else Err AR_Corrupt
                 | Some 1 => Ok (Some highest)
                 | _ => Err AR_Corrupt
                 end);
  '(count, r) ← reader_take 2 r;
  let count := Z.to_nat (be_value 256 count) in
  if bool_decide (MAX_KEYS < count)%nat then Err AR_Corrupt
  else
    '(keys, r) ← decode_keys count r;
    if bool_decide (r ≠ []) then Err AR_Corrupt else Ok (mkKeyState keys highest_seq).

(** ** The file *)

Record AtRest := mkAtRest { ar_key_id : KeyId; ar_private : list Z; ar_public : list Z; ar_psk : list Z }.

Definition header (key_id : KeyId) : list Z := MAGIC ++ [VERSION; KIND_AGREEMENT_KEYS] ++ key_id.

Definition file_name (a : AtRest) : list Z := bs "agreement-" ++ ar_key_id a ++ bs ".sealed".

Section AtRest.
Context `{C : Crypto} `{H : Hpke} `{P : HpkePsk}.

(** [AtRest::derive]; [DeviceIdentity::at_rest] gives it the device's seed and key id. *)
Definition AtRest_derive (seed : list Z) (key_id : KeyId) : AtRest :=
  let '(private, public) := psk_derive_keypair (KEM_LABEL ++ [0] ++ seed) in
  mkAtRest key_id private public (sha256 (PSK_LABEL ++ [0] ++ seed)).

(** [seal_raw] in PSK mode: the PSK and its id are the mode's. *)
Definition seal_raw (a : AtRest) (rnd : list Z) (header_key_id : KeyId) (psk psk_id info plaintext : list Z) : result AtRestError (list Z) :=
  let header := header header_key_id in
  '(enc, ciphertext, tag) ← ok_or (psk_seal rnd psk psk_id (ar_public a) info plaintext header) AR_Seal;
  Ok (header ++ enc ++ ciphertext ++ tag).

Definition seal_agreement_state (a : AtRest) (rnd : list Z) (state : AgreementKeyState) : result AtRestError (list Z) :=
  plaintext ← encode_state state;
  seal_raw a rnd (ar_key_id a) (ar_psk a) AT_REST_INFO AT_REST_INFO plaintext.

Definition open_raw (a : AtRest) (file psk psk_id info : list Z) : result AtRestError AgreementKeyState :=
  if bool_decide (MAX_FILE_LEN < length file)%nat then Err AR_TooLarge
  else if bool_decide (length file < MIN_FILE)%nat || negb (beq (take 4 file) MAGIC) then Err AR_Malformed
  else if negb (default 0 (file !! 4%nat) =? VERSION) || negb (default 0 (file !! 5%nat) =? KIND_AGREEMENT_KEYS)
  then Err AR_Unsupported
  else
    let head := take HEADER_LEN file in
    let rest := drop HEADER_LEN file in
    if negb (beq (drop 6 head) (ar_key_id a)) then Err AR_NotThisDevice
    else
      enc ← ok_or (hpke_encapped (take REST_ENC_LEN rest)) AR_Malformed;
      let body := drop REST_ENC_LEN rest in
      let at_ := (length rest - REST_ENC_LEN - REST_TAG_LEN)%nat in
      tag ← ok_or (hpke_tag (drop at_ body)) AR_Malformed;
      plaintext ← ok_or (psk_open psk psk_id (ar_private a) enc info (take at_ body) head tag) AR_Authentication;
      decode_state plaintext.

Definition open_agreement_state (a : AtRest) (file : list Z) : result AtRestError AgreementKeyState :=
  open_raw a file (ar_psk a) AT_REST_INFO AT_REST_INFO.
End AtRest.

(** ** The agreement keys at rest: round trips and refusals *)

Lemma timestamp_length s t : Timestamp_parse s = Some t → (20 ≤ length s ≤ 30)%nat.
Proof.
  unfold Timestamp_parse. intros H. destruct (_ || _) eqn:E; [done|]. repeat (apply orb_false_iff in E as [E _]). apply Nat.ltb_ge in E.
  inv_binds. match goal with H : frac_nanos (slice 19 _ s) = Some _ |- _ => rename H into Hf end.
  assert (length (slice 19 (length s - 1) s) = (length s - 20)%nat) as Hl by (unfold slice; rewrite length_take, length_drop; lia).
  destruct (slice 19 (length s - 1) s) as [|c f] eqn:Es; cbn [length] in Hl; [lia|]. unfold frac_nanos in Hf.
  destruct ((c =? 46) && _) eqn:Ei; [|done]. apply andb_true_iff in Ei as [_ Ei%in_range_true]. lia.
Qed.

(** ** The plaintext *)

Lemma reader_take_app n a b : length a = n → reader_take n (a ++ b) = Ok (a, b).
Proof.
  intros <-. unfold reader_take. rewrite bool_decide_false by (rewrite length_app; lia).
  by rewrite take_app_length, drop_app_length.
Qed.

Lemma reader_u64_app v b : 0 ≤ v ≤ U64_MAX → reader_u64 (be64 v ++ b) = Ok (v, b).
Proof.
  intros Hv. unfold reader_u64, be64. rewrite reader_take_app by apply length_be_digits. cbn [mbind result_bind].
  rewrite be_value_digits, Z.mod_small; [done| |lia]. unfold U64_MAX in Hv. change (256 ^ Z.of_nat 8) with 18446744073709551616. lia.
Qed.

Lemma decode_key_app k b : typed_stored k → decode_key (encode_key k ++ b) = Ok (k, b).
Proof.
  intros ((Hl & _) & Hs & Ht). unfold typed_time in Ht. unfold decode_key, encode_key. rewrite <- !app_assoc. rewrite reader_take_app by done. cbn [mbind result_bind].
  rewrite reader_u64_app by done. cbn [mbind result_bind]. rewrite (reader_take_app 1) by done. cbn [mbind result_bind].
  pose proof (timestamp_length _ _ Ht). change (default 0 (head [Z.of_nat (length (ts_text (sk_issued_at k)))])) with (Z.of_nat (length (ts_text (sk_issued_at k)))).
  rewrite Nat2Z.id. rewrite (bool_decide_false (_ = 0%nat)) by lia.
  rewrite (bool_decide_false (MAX_TIMESTAMP_TEXT < _)%nat) by (unfold MAX_TIMESTAMP_TEXT; lia). cbn [orb]. rewrite reader_take_app by done.
  cbn [mbind result_bind]. assert (is_utf8 (ts_text (sk_issued_at k)) = true) as -> by (by eapply ascii_utf8, timestamp_ascii). cbn [negb].
  rewrite Ht. cbn [opt_filter]. rewrite beq_refl. cbn [ok_or mbind result_bind]. by destruct k.
Qed.

Lemma decode_keys_app ks b : Forall typed_stored ks → decode_keys (length ks) (mjoin (map encode_key ks) ++ b) = Ok (ks, b).
Proof.
  induction 1 as [|k ks Hk _ IH]; [done|]. cbn [length decode_keys map].
  change (mjoin (encode_key k :: map encode_key ks)) with (encode_key k ++ mjoin (map encode_key ks)).
  rewrite <- app_assoc, decode_key_app by done. cbn [mbind result_bind]. by rewrite IH.
Qed.

Lemma encoded_keys_len_inv highest ks total n :
  encoded_keys_len highest ks total = Ok n → Forall (λ k, ∃ h, highest = Some h ∧ sk_seq k ≤ h) ks ∧
  (n ≤ total + length ks * (32 + 8 + 1 + MAX_TIMESTAMP_TEXT))%nat.
Proof.
  revert total. induction ks as [|k ks IH]; intros total H; cbn [encoded_keys_len] in H.
  - injection H as ->. split; [constructor|lia].
  - destruct (match highest with Some h => h <? sk_seq k | None => true end) eqn:Eh; [done|].
    destruct (bool_decide (length (ts_text (sk_issued_at k)) = 0%nat)); [done|]. cbn [orb] in H.
    case_bool_decide as Et; [done|]. apply IH in H as [H1 H2]. split.
    + constructor; [|done]. destruct highest as [h|]; [|done]. exists h. split; [done|]. lia.
    + cbn [length]. lia.
Qed.

Lemma encode_state_inv st p :
  encode_state st = Ok p → (length (kst_keys st) ≤ MAX_KEYS)%nat ∧
  Forall (λ k, ∃ h, kst_highest_seq st = Some h ∧ sk_seq k ≤ h) (kst_keys st) ∧
  p = [if is_some (kst_highest_seq st) then 1 else 0] ++ be64 (default 0 (kst_highest_seq st)) ++
      be16 (Z.of_nat (length (kst_keys st))) ++ mjoin (map encode_key (kst_keys st)).
Proof.
  unfold encode_state, encoded_len. intros H. apply result_bind_Ok in H as (n & Hn & H). case_bool_decide as E; [done|].
  apply encoded_keys_len_inv in Hn as [Hn _]. injection H as <-. split_and!; [lia|done|done].
Qed.

Lemma encoded_keys_refused highest ks total e :
  Forall typed_stored ks → encoded_keys_len highest ks total = Err e →
  e = AR_Corrupt ∧ ∃ k, k ∈ ks ∧ ∀ h, highest = Some h → h < sk_seq k.
Proof.
  intros Hk. revert total. induction Hk as [|k ks (_ & _ & Ht) _ IH]; intros total H; cbn [encoded_keys_len] in H; [done|].
  pose proof (timestamp_length _ _ Ht) as Hl. destruct (match highest with Some h => h <? sk_seq k | None => true end) eqn:Eh.
  - injection H as <-. split; [done|]. exists k. split; [left|]. intros h ->. lia.
  - rewrite (bool_decide_false (_ = 0%nat)) in H by lia. rewrite bool_decide_false in H by (unfold MAX_TIMESTAMP_TEXT; lia).
    apply IH in H as (? & x & ? & ?). split; [done|]. exists x. split; [by right|done].
Qed.

Lemma encode_refused st e :
  typed_state st → encode_state st = Err e →
  (e = AR_TooLarge ∧ (MAX_KEYS < length (kst_keys st))%nat) ∨
  (e = AR_Corrupt ∧ ∃ k, k ∈ kst_keys st ∧ ∀ h, kst_highest_seq st = Some h → h < sk_seq k).
Proof.
  intros [Hk _] H. unfold encode_state, encoded_len in H. case_bool_decide as E; [injection H as <-; by left|]. right.
  destruct (encoded_keys_len _ _ _) as [|e'] eqn:El; [done|]. injection H as <-. by eapply encoded_keys_refused.
Qed.

Lemma state_round_trip st p : typed_state st → encode_state st = Ok p → decode_state p = Ok st.
Proof.
  intros [Hk Hh] H. apply encode_state_inv in H as (Hl & _ & ->). unfold decode_state. rewrite (reader_take_app 1) by done. cbn [mbind result_bind].
  rewrite reader_u64_app by (destruct (kst_highest_seq st) as [h|]; cbn; [by apply Hh|unfold U64_MAX; lia]). cbn [mbind result_bind head].
  assert (be_value 256 (be16 (Z.of_nat (length (kst_keys st)))) = Z.of_nat (length (kst_keys st))) as Hc.
  { unfold be16. rewrite be_value_digits, Z.mod_small; [done| |lia]. change (256 ^ Z.of_nat 2) with 65536. unfold MAX_KEYS in Hl. lia. }
  assert (reader_take 2 (be16 (Z.of_nat (length (kst_keys st))) ++ mjoin (map encode_key (kst_keys st))) =
    Ok (be16 (Z.of_nat (length (kst_keys st))), mjoin (map encode_key (kst_keys st)))) as Ht by (apply reader_take_app, length_be_digits).
  assert ((if is_some (kst_highest_seq st) then Ok (Some (default 0 (kst_highest_seq st)))
           else if default 0 (kst_highest_seq st) =? 0 then Ok None else Err AR_Corrupt) = Ok (E := AtRestError) (kst_highest_seq st)) as Hf
    by (by destruct (kst_highest_seq st)).
  assert ((match Some (if is_some (kst_highest_seq st) then 1 else 0) with
           | Some 0 => if default 0 (kst_highest_seq st) =? 0 then Ok None else Err AR_Corrupt
           | Some 1 => Ok (Some (default 0 (kst_highest_seq st)))
           | _ => Err AR_Corrupt
           end) = Ok (E := AtRestError) (kst_highest_seq st)) as Hm by (by destruct (kst_highest_seq st)).
  rewrite Hm. cbn [mbind result_bind]. rewrite Ht. cbn [mbind result_bind]. rewrite Hc, Nat2Z.id. rewrite bool_decide_false by lia.
  rewrite <- (app_nil_r (mjoin _)). rewrite decode_keys_app by done. cbn [mbind result_bind]. by destruct st.
Qed.

Lemma be_u8 n v : Forall is_u8 (be_digits 256 n v).
Proof. eapply Forall_impl; [by apply be_digits_bound|]. unfold is_u8. cbn. lia. Qed.

Lemma be_octets n l : length l = n → Forall is_u8 l → be_digits 256 n (be_value 256 l) = l.
Proof. intros <- Hl. apply be_digits_value; [done|]. eapply Forall_impl; [exact Hl|]. unfold is_u8. cbn. lia. Qed.

Lemma be_octets_range n l : length l = n → Forall is_u8 l → 0 ≤ be_value 256 l < 256 ^ Z.of_nat n.
Proof.
  intros Hn Hl. assert (be_value 256 l = be_value 256 l mod 256 ^ Z.of_nat n) as ->
    by (by rewrite <- be_value_digits, be_octets).
  apply Z.mod_pos_bound. lia.
Qed.

Lemma encoded_octets k : typed_stored k → Forall is_u8 (encode_key k) ∧ (length (encode_key k) ≤ 32 + 8 + 1 + MAX_TIMESTAMP_TEXT)%nat.
Proof.
  intros ((Hl & H8) & Hs & Ht). pose proof (timestamp_length _ _ Ht). unfold encode_key. split.
  - rewrite !Forall_app, Forall_singleton. split; [done|]. split; [apply be_u8|]. split; [unfold is_u8; lia|].
    eapply Forall_impl; [by eapply timestamp_ascii|]. unfold is_u8. cbn. lia.
  - rewrite !length_app, Hl. unfold be64, MAX_TIMESTAMP_TEXT. rewrite length_be_digits. cbn [length]. lia.
Qed.

(** The plaintext of a state, as [encode_state] writes it. *)
Definition plain_of (st : AgreementKeyState) : list Z :=
  [if is_some (kst_highest_seq st) then 1 else 0] ++ be64 (default 0 (kst_highest_seq st)) ++
  be16 (Z.of_nat (length (kst_keys st))) ++ mjoin (map encode_key (kst_keys st)).

Lemma reader_take_inv n r a b : reader_take n r = Ok (a, b) → r = a ++ b ∧ length a = n.
Proof.
  unfold reader_take. case_bool_decide; [done|]. intros [= <- <-]. rewrite take_drop, length_take. split; [done|lia].
Qed.

Lemma reader_u64_inv r v b : Forall is_u8 r → reader_u64 r = Ok (v, b) → r = be64 v ++ b ∧ 0 ≤ v ≤ U64_MAX.
Proof.
  unfold reader_u64. intros Hr Hv. apply result_bind_Ok in Hv as ([x y] & [-> Hx]%reader_take_inv & [= <- <-]).
  apply Forall_app in Hr as [Hr _]. unfold be64. rewrite be_octets by done. split; [done|].
  pose proof (be_octets_range 8 x Hx Hr) as Hb. change (256 ^ Z.of_nat 8) with 18446744073709551616 in Hb. unfold U64_MAX. lia.
Qed.

Lemma decode_key_inv r k b : Forall is_u8 r → decode_key r = Ok (k, b) → r = encode_key k ++ b ∧ typed_stored k.
Proof.
  unfold decode_key. intros Hr H. apply result_bind_Ok in H as ([octets r1] & [-> Ho]%reader_take_inv & H).
  apply Forall_app in Hr as [Hr8 Hr]. apply result_bind_Ok in H as ([seq r2] & [-> Hs]%reader_u64_inv & H); [|done].
  apply Forall_app in Hr as [_ Hr]. apply result_bind_Ok in H as ([len r3] & [-> Hlen]%reader_take_inv & H).
  apply Forall_app in Hr as [Hl Hr]. destruct len as [|n [|]]; [done| |done]. rewrite Forall_singleton in Hl. cbv zeta in H.
  change (default 0 (head [n])) with n in H. destruct (_ || _) eqn:E; [done|]. apply orb_false_iff in E as [_ E].
  apply result_bind_Ok in H as ([text r4] & [-> Ht]%reader_take_inv & H). destruct (negb (is_utf8 text)); [done|].
  apply result_bind_Ok in H as (t & Hp & [= <- <-]). destruct (Timestamp_parse text) as [t'|] eqn:Et; [|done].
  cbn [opt_filter] in Hp. destruct (beq (ts_text t') text) eqn:Eb; [|done]. injection Hp as <-. apply beq_true in Eb.
  unfold encode_key. cbn [sk_private_key sk_seq sk_issued_at]. unfold is_u8 in Hl. rewrite Eb, Ht, (Z2Nat.id n) by lia.
  split; [by rewrite <- !app_assoc|]. split; [by split|]. split; [done|].
  unfold typed_time. cbn [sk_issued_at]. by rewrite Eb.
Qed.

Lemma decode_keys_inv n r ks b : Forall is_u8 r → decode_keys n r = Ok (ks, b) →
  r = mjoin (map encode_key ks) ++ b ∧ Forall typed_stored ks ∧ length ks = n.
Proof.
  revert r ks b. induction n as [|n IH]; intros r ks b Hr H; cbn [decode_keys] in H; [by injection H as <- <-|].
  apply result_bind_Ok in H as ([k r1] & [-> Hk]%decode_key_inv & H); [|done]. apply Forall_app in Hr as [_ Hr].
  apply result_bind_Ok in H as ([ks' r2] & (-> & Hks & Hn)%IH & [= <- <-]); [|done]. split_and!; [|by constructor|by f_equal/=].
  cbn [map]. change (mjoin (encode_key k :: map encode_key ks')) with (encode_key k ++ mjoin (map encode_key ks')). by rewrite <- app_assoc.
Qed.

(** A reader accepts exactly the plaintexts of states, and nothing after them. *)
Lemma decode_exactly p st : Forall is_u8 p → decode_state p = Ok st →
  p = plain_of st ∧ typed_state st ∧ (length (kst_keys st) ≤ MAX_KEYS)%nat.
Proof.
  unfold decode_state. intros Hp H. apply result_bind_Ok in H as ([flag r1] & [-> Hf]%reader_take_inv & H).
  apply Forall_app in Hp as [_ Hp]. apply result_bind_Ok in H as ([h r2] & [-> Hh]%reader_u64_inv & H); [|done].
  apply Forall_app in Hp as [_ Hp]. apply result_bind_Ok in H as (hs & Hhs & H).
  apply result_bind_Ok in H as ([c r3] & [-> Hc]%reader_take_inv & H). apply Forall_app in Hp as [Hc8 Hp]. cbv zeta in H.
  case_bool_decide as Hm; [done|]. apply result_bind_Ok in H as ([ks r4] & (-> & Hk & Hn)%decode_keys_inv & H); [|done].
  case_bool_decide as Hr; [done|]. injection H as <-. subst r4. cbn [kst_keys kst_highest_seq].
  pose proof (be_octets_range 2 c Hc Hc8). split_and!; [|split; [done|]|lia].
  - unfold plain_of. cbn [kst_keys kst_highest_seq]. rewrite Hn, Z2Nat.id by lia. unfold be16. rewrite be_octets by done. rewrite app_nil_r.
    destruct flag as [|f [|]]; [done| |done]. cbn [head] in Hhs. destruct f as [|[]|]; try done; [destruct (h =? 0) eqn:E; [|done]|];
      injection Hhs as <-; cbn [is_some default]; [|done]. by apply Z.eqb_eq in E as ->.
  - cbn [kst_highest_seq]. intros x ->. destruct (head flag) as [[|[]|]|]; try done; [by destruct (h =? 0)|by injection Hhs as <-].
Qed.

Lemma plain_typed st p : typed_state st → encode_state st = Ok p → p = plain_of st ∧ Forall is_u8 p ∧ (length p ≤ MAX_PLAINTEXT)%nat.
Proof.
  intros [Hk Hh] (Hl & _ & ->)%encode_state_inv. split; [done|].
  assert (∀ ks, Forall typed_stored ks → Forall is_u8 (mjoin (map encode_key ks)) ∧
    (length (mjoin (map encode_key ks)) ≤ length ks * (32 + 8 + 1 + MAX_TIMESTAMP_TEXT))%nat) as Hj.
  { induction 1 as [|k ks Hx _ [IH1 IH2]]; [split; [constructor|cbn; lia]|]. destruct (encoded_octets k Hx) as [H1 H2]. cbn [map length].
    change (mjoin (encode_key k :: map encode_key ks)) with (encode_key k ++ mjoin (map encode_key ks)).
    rewrite Forall_app, length_app. split; [done|lia]. }
  destruct (Hj _ Hk) as [H1 H2]. unfold be64, be16, MAX_PLAINTEXT. split.
  - rewrite !Forall_app, Forall_singleton. split; [by case_match|]. split; [apply be_u8|]. split; [apply be_u8|done].
  - rewrite !length_app, !length_be_digits. cbn [length]. unfold MAX_KEYS, MAX_TIMESTAMP_TEXT in *. lia.
Qed.

(** ** The file *)

(** What the [hpke] crate promises in PSK mode (RFC 9180): the lengths of what a seal gives,
    and that the holder of the key pair and the PSK opens it. *)
Class HpkePskLaws (H : Hpke) (P : HpkePsk) : Prop := {
  psk_seal_form rnd psk id pk info pt aad enc ct tag :
    psk_seal rnd psk id pk info pt aad = Some (enc, ct, tag) →
    length enc = 32%nat ∧ length ct = length pt ∧ length tag = 16%nat ∧ is_Some (hpke_encapped enc) ∧ is_Some (hpke_tag tag);
  psk_open_seal ikm rnd psk id info pt aad enc ct tag enc' tag' :
    Forall is_u8 pt →
    psk_seal rnd psk id (psk_derive_keypair ikm).2 info pt aad = Some (enc, ct, tag) →
    hpke_encapped enc = Some enc' → hpke_tag tag = Some tag' →
    psk_open psk id (psk_derive_keypair ikm).1 enc' info ct aad tag' = Some pt;
  psk_open_form psk id sk enc info ct aad tag pt : psk_open psk id sk enc info ct aad tag = Some pt → Forall is_u8 pt }.

Section File.
Context `{C : Crypto} `{H : Hpke} `{P : HpkePsk} `{HP : !HpkePskLaws H P}.

Lemma header_length k : length k = 64%nat → length (header k) = HEADER_LEN.
Proof. intros Hk. unfold header. rewrite !length_app, Hk. reflexivity. Qed.

(** The checks of [open_raw] before the seal is opened, on a file with a whole header. *)
Lemma open_parts a k enc ct tag :
  length k = 64%nat → length enc = REST_ENC_LEN → length tag = REST_TAG_LEN → (length ct ≤ MAX_PLAINTEXT)%nat →
  open_agreement_state a (header k ++ enc ++ ct ++ tag) =
  (if negb (beq k (ar_key_id a)) then Err AR_NotThisDevice
   else
     enc ← ok_or (hpke_encapped enc) AR_Malformed;
     tag ← ok_or (hpke_tag tag) AR_Malformed;
     plaintext ← ok_or (psk_open (ar_psk a) AT_REST_INFO (ar_private a) enc AT_REST_INFO ct (header k) tag) AR_Authentication;
     decode_state plaintext).
Proof.
  intros Hk He Ht Hc. pose proof (header_length k Hk) as Hh. unfold open_agreement_state, open_raw.
  rewrite (bool_decide_false (MAX_FILE_LEN < _)%nat) by (rewrite !length_app, Hh, He, Ht; unfold MAX_FILE_LEN; lia).
  rewrite (bool_decide_false (_ < MIN_FILE)%nat) by (rewrite !length_app, Hh, He, Ht; unfold MIN_FILE; lia).
  assert (take 4 (header k ++ enc ++ ct ++ tag) = MAGIC) as -> by (unfold header; rewrite <- !app_assoc; by rewrite (take_app_length' MAGIC)).
  rewrite beq_refl. cbn [orb negb].
  assert ((header k ++ enc ++ ct ++ tag) !! 4%nat = Some VERSION) as -> by reflexivity.
  assert ((header k ++ enc ++ ct ++ tag) !! 5%nat = Some KIND_AGREEMENT_KEYS) as -> by reflexivity. cbn [default from_option id].
  rewrite !Z.eqb_refl. cbn [negb orb]. rewrite take_app_length', drop_app_length' by done. cbv zeta.
  assert (drop 6 (header k) = k) as -> by reflexivity. destruct (negb _); [done|].
  rewrite take_app_length', (drop_app_length' enc) by done.
  assert (length (enc ++ ct ++ tag) - REST_ENC_LEN - REST_TAG_LEN = length ct)%nat as -> by (rewrite !length_app; lia).
  by rewrite take_app_length, drop_app_length.
Qed.

(** [seal_agreement_state] on every branch. *)
Lemma seal_cases a rnd st :
  length (ar_key_id a) = 64%nat → typed_state st →
  match seal_agreement_state a rnd st with
  | Ok file => ∃ enc ct tag, file = header (ar_key_id a) ++ enc ++ ct ++ tag ∧
      psk_seal rnd (ar_psk a) AT_REST_INFO (ar_public a) AT_REST_INFO (plain_of st) (header (ar_key_id a)) = Some (enc, ct, tag) ∧
      length enc = REST_ENC_LEN ∧ length tag = REST_TAG_LEN ∧ (length ct ≤ MAX_PLAINTEXT)%nat ∧ encode_state st = Ok (plain_of st) ∧
      is_Some (hpke_encapped enc) ∧ is_Some (hpke_tag tag)
  | Err e => encode_state st = Err e ∨ e = AR_Seal
  end.
Proof.
  intros Hk Hst. unfold seal_agreement_state, seal_raw. destruct (encode_state st) as [p|e] eqn:Ep; cbn [mbind result_bind]; [|by left].
  pose proof (plain_typed st p Hst Ep) as (-> & Hu & Hl).
  destruct (psk_seal _ _ _ _ _ _ _) as [[[enc ct] tag]|] eqn:Es; cbn [ok_or mbind result_bind]; [|by right].
  destruct (psk_seal_form _ _ _ _ _ _ _ _ _ _ Es) as (H1 & H2 & H3 & H4 & H5). exists enc, ct, tag. split_and!; try done. lia.
Qed.

Lemma derive_key_id seed k : ar_key_id (AtRest_derive seed k) = k.
Proof. unfold AtRest_derive. by destruct (psk_derive_keypair _). Qed.

Lemma derived_opens seed k rnd st file :
  length k = 64%nat → typed_state st → seal_agreement_state (AtRest_derive seed k) rnd st = Ok file →
  open_agreement_state (AtRest_derive seed k) file = Ok st ∧ (length file ≤ MAX_FILE_LEN)%nat.
Proof.
  intros Hk Hst Hf. pose proof (seal_cases (AtRest_derive seed k) rnd st ltac:(by rewrite derive_key_id) Hst) as Hc. rewrite Hf, !derive_key_id in Hc.
  destruct Hc as (enc & ct & tag & -> & Hs & He & Ht & Hl & Hp & [enc' He'] & [tag' Ht']). split.
  - rewrite open_parts by done. rewrite derive_key_id, beq_refl. cbn [negb]. rewrite He', Ht'. cbn [ok_or mbind result_bind].
    unfold AtRest_derive in *. pose proof (psk_open_seal (KEM_LABEL ++ [0] ++ seed)) as Ho.
    destruct (psk_derive_keypair _) as [sk pk]. cbn [ar_psk ar_private ar_public fst snd] in *.
    pose proof (plain_typed st _ Hst Hp) as (_ & Hu & _).
    rewrite (Ho _ _ _ _ _ _ _ _ _ _ _ Hu Hs He' Ht'). cbn [ok_or mbind result_bind]. by apply state_round_trip.
  - rewrite !length_app, header_length, He, Ht by done. unfold MAX_FILE_LEN. lia.
Qed.

Lemma other_device_refused seed seed' k k' rnd st file :
  length k = 64%nat → typed_state st → seal_agreement_state (AtRest_derive seed k) rnd st = Ok file → k' ≠ k →
  open_agreement_state (AtRest_derive seed' k') file = Err AR_NotThisDevice.
Proof.
  intros Hk Hst Hf Hne. pose proof (seal_cases (AtRest_derive seed k) rnd st ltac:(by rewrite derive_key_id) Hst) as Hc. rewrite Hf, !derive_key_id in Hc.
  destruct Hc as (enc & ct & tag & -> & _ & He & Ht & Hl & _). rewrite open_parts, derive_key_id by done.
  assert (beq k k' = false) as -> by (destruct (beq k k') eqn:E; [apply beq_true in E; congruence|done]). done.
Qed.

Lemma opened_typed a file st : open_agreement_state a file = Ok st →
  typed_state st ∧ (length (kst_keys st) ≤ MAX_KEYS)%nat ∧ (length file ≤ MAX_FILE_LEN)%nat.
Proof.
  unfold open_agreement_state, open_raw. case_bool_decide as Hm; [done|]. intros Ho. do 2 (destruct (_ || _); [done|]). cbv zeta in Ho. destruct (negb _); [done|].
  apply result_bind_Ok in Ho as (enc & _ & Ho). apply result_bind_Ok in Ho as (tag & _ & Ho). apply result_bind_Ok in Ho as (p & Hp & Ho).
  destruct (psk_open _ _ _ _ _ _ _ _) as [p'|] eqn:Eo; [|done]. injection Hp as ->.
  apply decode_exactly in Ho as (_ & ? & ?); [|by eapply psk_open_form]. split_and!; [done|done|lia].
Qed.
End File.

(** The file of a device's agreement keys reads back as it was written: what the device
    seals, it opens to the same state, in a file no longer than a reader takes; the handle of
    any other key id refuses it, whatever its seed.  A state is refused only because it has
    too many keys, because a key's number is above the highest, or by the seal; and whatever
    opens, written by whomever, is a state of the types' values. *)
Theorem at_rest_round_trip `{C : Crypto} `{H : Hpke} `{P : HpkePsk} (HP : HpkePskLaws H P) (seed rnd : list Z) (key_id : KeyId)
    (state : AgreementKeyState) :
  length key_id = 64%nat → typed_state state →
  match seal_agreement_state (AtRest_derive seed key_id) rnd state with
  | Ok file =>
      open_agreement_state (AtRest_derive seed key_id) file = Ok state ∧ (length file ≤ MAX_FILE_LEN)%nat ∧
      ∀ seed' key_id', key_id' ≠ key_id → open_agreement_state (AtRest_derive seed' key_id') file = Err AR_NotThisDevice
  | Err e =>
      (e = AR_TooLarge ∧ (MAX_KEYS < length (kst_keys state))%nat) ∨
      (e = AR_Corrupt ∧ ∃ k, k ∈ kst_keys state ∧ ∀ h, kst_highest_seq state = Some h → h < sk_seq k) ∨
      e = AR_Seal
  end ∧
  ∀ seed' key_id' file state', open_agreement_state (AtRest_derive seed' key_id') file = Ok state' →
    typed_state state' ∧ (length (kst_keys state') ≤ MAX_KEYS)%nat.
Proof.
  intros Hk Hst. split; [|by intros seed' key_id' file state' (? & ? & _)%opened_typed].
  destruct (seal_agreement_state _ _ _) as [file|e] eqn:E.
  - destruct (derived_opens seed key_id rnd state file Hk Hst E) as [Ho Hl]. split_and!; [done|done|].
    intros seed' key_id' Hne. by eapply other_device_refused.
  - pose proof (seal_cases (AtRest_derive seed key_id) rnd state ltac:(by rewrite derive_key_id) Hst) as Hc. rewrite E in Hc.
    destruct Hc as [Hc| ->]; [|by right; right]. by apply encode_refused in Hc as [?|?]; auto.
Qed.

(** ** An instance *)

#[export] Instance sample_psk : HpkePsk := {|
  psk_derive_keypair ikm := (ikm, ikm);
  psk_seal _ psk _ _ _ pt _ := then_some (forallb (in_range 0 255) pt) (replicate 32 7, pt, replicate 16 0);
  psk_open psk _ _ _ _ ct _ _ := then_some (forallb (in_range 0 255) ct) ct |}.

#[export] Instance sample_psk_laws : HpkePskLaws sample_hpke sample_psk.
Proof.
  split; unfold psk_seal, psk_open, psk_derive_keypair, hpke_encapped, hpke_tag, sample_psk, sample_hpke, then_some.
  - intros rnd psk id pk info pt aad enc ct tag Hs. destruct (forallb _ _); [|done]. simplify_eq. by split_and!.
  - intros ikm rnd psk id info pt aad enc ct tag enc' tag' Hu Hs _ _. destruct (forallb (in_range 0 255) pt) eqn:E; [|done]. simplify_eq.
    by rewrite E.
  - intros psk id sk enc info ct aad tag pt Ho. destruct (forallb _ _) eqn:E; [|done]. simplify_eq. by apply octets_u8.
Qed.

Definition sample_state : AgreementKeyState := mkKeyState [mkStoredKey sample_agreement 3 sample_time] (Some 4).

Lemma sample_state_typed : typed_state sample_state.
Proof.
  split; [repeat constructor; vm_compute; congruence|]. intros h [= <-]. vm_compute. split; congruence.
Qed.

Lemma at_rest_round_trip_witness :
  ∃ file, seal_agreement_state (AtRest_derive (C := sample_pair) [1] (replicate 64 97)) [] sample_state = Ok file ∧
    open_agreement_state (AtRest_derive (C := sample_pair) [1] (replicate 64 97)) file = Ok sample_state ∧
    open_agreement_state (AtRest_derive (C := sample_pair) [1] (replicate 64 98)) file = Err AR_NotThisDevice.
Proof.
  destruct (at_rest_round_trip (C := sample_pair) sample_psk_laws [1] [] (replicate 64 97) sample_state eq_refl sample_state_typed) as [Hr _].
  destruct (seal_agreement_state _ _ _) as [file|] eqn:E; [|exfalso; vm_compute in E; discriminate E].
  exists file. split; [reflexivity|]. destruct Hr as (Ho & _ & Hn). split; [exact Ho|]. apply Hn. discriminate.
Defined.
