(* ===== verification/AtomicFile.v ===== *)
(** * Files replaced atomically ([cli/src/trust_store.rs], [cli/src/agreement_file.rs],
      [cli/src/private_file.rs])

    What the two durable stores do to their file, word for word the same: the checks before it
    is read, and the steps of a save through a temporary file that is renamed over it.  The
    disk is explicit, with the state before each step kept, so that a crash between two steps
    can be asked about.  What the operating system answers to each call of one operation is a
    record of outcomes; the checks of files and directories are those of Unix. *)

From S2P Require Import Prelude Ids Json Keys.

(** ** Temporary names *)

Definition strip_prefix (p s : list Z) : option (list Z) := then_some (starts_with p s) (drop (length p) s).

Definition strip_suffix (p s : list Z) : option (list Z) :=
  let n := (length s - length p)%nat in then_some (beq (drop n s) p && bool_decide (length p ≤ length s)%nat) (take n s).

Definition is_ascii_hexdigit (b : Z) : bool := is_ascii_digit b || in_range 97 102 b || in_range 65 70 b.

Definition is_temp_name (file_name name : list Z) : bool :=
  match (rest ← strip_prefix file_name name; rest ← strip_prefix (bs ".") rest; strip_suffix (bs ".tmp") rest) with
  | Some hex => bool_decide (length hex = 32%nat) && forallb is_ascii_hexdigit hex
  | None => false
  end.

(** ** The disk *)

Inductive FileType : Type := FT_File | FT_Dir | FT_Link.

#[export] Instance FileType_eq_dec : EqDecision FileType.
Proof. solve_decision. Defined.

(** What [symlink_metadata] tells: [me_owned] whether the owner is the user. *)
Record Meta := mkMeta { me_type : FileType; me_owned : bool; me_mode : Z }.

Definition meta_private (m : Meta) : bool :=
  negb (bool_decide (me_type m = FT_Link)) && me_owned m && (Z.land (me_mode m) 63 =? 0).

(** The directories by path, and the entries of the store's directory by name. *)
Record Disk := mkDisk { dk_dirs : gmap (list Z) Meta; dk_files : gmap (list Z) (Meta * list Z) }.

(** The disk now, and before each step that changed it, the latest first. *)
Record Fs := mkFs { fs_disk : Disk; fs_seen : list Disk }.

Definition fs_step (d : Disk) (fs : Fs) : Fs := mkFs d (fs_disk fs :: fs_seen fs).

Definition set_file (name : list Z) (e : Meta * list Z) (d : Disk) : Disk := mkDisk (dk_dirs d) (<[ name := e ]> (dk_files d)).
Definition remove_file (name : list Z) (d : Disk) : Disk := mkDisk (dk_dirs d) (delete name (dk_files d)).
Definition set_dir (path : list Z) (m : Meta) (d : Disk) : Disk := mkDisk (<[ path := m ]> (dk_dirs d)) (dk_files d).

(** [fs::rename] within the directory: one step, over the target if it is there. *)
Definition rename_file (from to : list Z) (d : Disk) : Disk :=
  match dk_files d !! from with
  | Some e => mkDisk (dk_dirs d) (<[ to := e ]> (delete from (dk_files d)))
  | None => d
  end.

(** What the calls of one operation answer: whether each fails for a reason of the operating
    system, how far a failing write got, and what is drawn for temporary names. *)
Record Io := mkIo {
  io_inspect_fails : bool; io_access_fails : bool; io_directory_access_fails : bool;
  io_open_fails : bool; io_read_fails : bool; io_mkdir_fails : list Z → bool; io_list_fails : bool;
  io_sweep_fails : list Z → bool; io_draws : list (list Z); io_create_fails : list Z → bool; io_harden_fails : bool; io_write_fails : option nat;
  io_sync_fails : bool; io_rename_fails : bool; io_sync_directory_fails : bool; io_remove_fails : bool }.

(** [make_private_directory], for [top] and then the directory. *)
Fixpoint make_private_directories (io : Io) (dirs : list (list Z)) (fs : Fs) : bool * Fs :=
  match dirs with
  | [] => (true, fs)
  | dir :: dirs =>
      if io_mkdir_fails io dir then (false, fs)
      else
        let fs := match dk_dirs (fs_disk fs) !! dir with
                  | Some _ => fs
                  | None => fs_step (set_dir dir (mkMeta FT_Dir true 448) (fs_disk fs)) fs
                  end in
        match dk_dirs (fs_disk fs) !! dir with
        | Some m =>
            if negb (bool_decide (me_type m = FT_Dir)) then (false, fs)
            else if negb (me_owned m) then (false, fs)
            else if negb (Z.land (me_mode m) 63 =? 0) then (false, fs)
            else make_private_directories io dirs fs
        | None => (false, fs)
        end
  end.

(** ** Reading *)

Definition existing_file_is_private (io : Io) (name : list Z) (d : Disk) : result string (option bool) :=
  if io_inspect_fails io then Err "inspecting the file"
  else
    match dk_files d !! name with
    | None => Ok None
    | Some (meta, _) =>
        if negb (bool_decide (me_type meta = FT_File)) then Err "not a regular file"
        else if io_access_fails io then Err "checking the file's access"
        else Ok (Some (meta_private meta))
    end%string.

(** [read]: opened without following a link, and at most one octet more than the limit taken. *)
Definition read_octets (io : Io) (name : list Z) (limit : Z) (d : Disk) : result string (list Z) :=
  match dk_files d !! name with
  | None => Err "opening the file"
  | Some (meta, octets) =>
      if io_open_fails io || bool_decide (me_type meta = FT_Link) then Err "opening the file"
      else if io_read_fails io then Err "reading the file"
      else Ok (take (Z.to_nat (limit + 1)) octets)
  end%string.

(** What a reader asks before it reads: whether the file is there, and whether it and its
    directory are private to the user. *)
Definition check_private (io : Io) (name directory : list Z) (d : Disk) : result string bool :=
  private ← existing_file_is_private io name d;
  match private with
  | None => Ok false
  | Some false => Err "the file is accessible to other users"
  | Some true =>
      if io_directory_access_fails io then Err "checking the directory's access"
      else if negb (match dk_dirs d !! directory with Some m => meta_private m | None => false end)
      then Err "the directory is accessible to other users"
      else Ok true
  end%string.

(** ** Replacing *)

(** [sweep_stale_temp_files], over the entries of the directory. *)
Definition sweep_one (io : Io) (file_name : list Z) (fs : Fs) (e : list Z * (Meta * list Z)) : Fs :=
  let '(name, (meta, _)) := e in
  if is_temp_name file_name name && bool_decide (me_type meta = FT_File) && negb (io_sweep_fails io name)
  then fs_step (remove_file name (fs_disk fs)) fs else fs.

Definition sweep_stale_temp_files (io : Io) (file_name : list Z) (fs : Fs) : Fs :=
  if io_list_fails io then fs else foldl (sweep_one io file_name) fs (map_to_list (dk_files (fs_disk fs))).

Definition discard (io : Io) (name : list Z) (fs : Fs) : Fs :=
  if io_remove_fails io then fs else fs_step (remove_file name (fs_disk fs)) fs.

Inductive Created : Type := CR_Created | CR_AlreadyExists | CR_Failed.

(** [create_private_exclusive], which is [WriteSteps::create]: exclusive, then hardened and
    checked, and removed again when that fails. *)
Definition create_private_exclusive (io : Io) (name : list Z) (fs : Fs) : Created * Fs :=
  if io_create_fails io name then (CR_Failed, fs)
  else if is_some (dk_files (fs_disk fs) !! name) then (CR_AlreadyExists, fs)
  else
    let fs := fs_step (set_file name (mkMeta FT_File true 384, []) (fs_disk fs)) fs in
    if io_harden_fails io then (CR_Failed, discard io name fs) else (CR_Created, fs).

(** [create_temp], over the names it tries. *)
Fixpoint create_temp (io : Io) (names : list (list Z)) (fs : Fs) : result string (list Z) * Fs :=
  match names with
  | [] => (Err "no free temporary file name"%string, fs)
  | name :: names =>
      match create_private_exclusive io name fs with
      | (CR_Created, fs) => (Ok name, fs)
      | (CR_AlreadyExists, fs) => create_temp io names fs
      | (CR_Failed, fs) => (Err "creating the temporary file"%string, fs)
      end
  end.

(** From the check of the directories to the rename, which commits, and the sync of the
    directory: [Ok true] when that failed. *)
Definition replace_file (io : Io) (file_name top directory : list Z) (names : list (list Z)) (octets : list Z) (fs : Fs)
    : result string bool * Fs :=
  let '(made, fs) := make_private_directories io [top; directory] fs in
  if negb made then (Err "making the directory private"%string, fs)
  else
    match existing_file_is_private io file_name (fs_disk fs) with
    | Err e => (Err e, fs)
    | Ok (Some false) => (Err "the file is accessible to other users"%string, fs)
    | Ok _ =>
        let fs := sweep_stale_temp_files io file_name fs in
        match create_temp io names fs with
        | (Err e, fs) => (Err e, fs)
        | (Ok temp, fs) =>
            let written := match io_write_fails io with Some n => take n octets | None => octets end in
            let fs := fs_step (set_file temp (mkMeta FT_File true 384, written) (fs_disk fs)) fs in
            if is_some (io_write_fails io) then (Err "writing the temporary file"%string, discard io temp fs)
            else if io_sync_fails io then (Err "syncing the temporary file"%string, discard io temp fs)
            else if io_rename_fails io then (Err "replacing the file"%string, discard io temp fs)
            else (Ok (io_sync_directory_fails io), fs_step (rename_file temp file_name (fs_disk fs)) fs)
        end
    end.

(** ** Files replaced atomically: what a save passes through

    Up to its rename a save touches nothing but temporary files, and the rename puts the whole
    content in place: so a crash at any step leaves the old file or the new one. *)

(** ** Temporary names *)

Lemma starts_with_app p r : starts_with p (p ++ r) = true.
Proof. induction p as [|b p IH]; cbn; [done|]. by rewrite Z.eqb_refl. Qed.

Lemma strip_prefix_app p r : strip_prefix p (p ++ r) = Some r.
Proof. unfold strip_prefix. by rewrite starts_with_app, drop_app_length. Qed.

Lemma strip_suffix_app p r : strip_suffix p (r ++ p) = Some r.
Proof.
  unfold strip_suffix. rewrite length_app. replace (length r + length p - length p)%nat with (length r) by lia.
  rewrite drop_app_length, beq_refl, bool_decide_true by lia. cbn. by rewrite take_app_length.
Qed.

(** A name with 32 hexadecimal digits is one; the file's own is not. *)
Lemma temp_name_recognised file_name hex :
  length hex = 32%nat → forallb (λ b, is_ascii_digit b || in_range 97 102 b) hex = true →
  is_temp_name file_name (file_name ++ bs "." ++ hex ++ bs ".tmp") = true.
Proof.
  intros Hl Hf. unfold is_temp_name. rewrite strip_prefix_app. cbn [mbind option_bind]. rewrite strip_prefix_app. cbn [mbind option_bind].
  rewrite strip_suffix_app, bool_decide_true by done. cbn [andb]. rewrite forallb_forall in Hf |- *. intros b Hb. unfold is_ascii_hexdigit.
  by rewrite (Hf b Hb).
Qed.

Lemma target_not_temp file_name : is_temp_name file_name file_name = false.
Proof. unfold is_temp_name. rewrite <- (app_nil_r file_name) at 2. by rewrite strip_prefix_app. Qed.

(** ** The steps of a save *)

Section Replace.
Context (file_name : list Z).

#[local] Abbreviation is_temp := (is_temp_name file_name).

Definition target (d : Disk) : option (Meta * list Z) := dk_files d !! file_name.

Definition private_file : Meta := mkMeta FT_File true 384.

(** What no step before the rename touches: the target, and every name that is not a
    temporary one; directories that are there stay as they are. *)
Record untouched (d d' : Disk) : Prop := {
  un_files n : is_temp n = false → dk_files d' !! n = dk_files d !! n;
  un_dirs p m : dk_dirs d !! p = Some m → dk_dirs d' !! p = Some m }.

#[export] Instance untouched_preorder : PreOrder untouched.
Proof.
  split.
  - by split.
  - intros a b c [F1 D1] [F2 D2]. split; [intros n Hn; by rewrite F2, F1|auto].
Qed.

Lemma untouched_target d d' : untouched d d' → target d' = target d.
Proof. intros [H _]. apply H, target_not_temp. Qed.

(** [passes d fs fs']: from [fs], whose disk left [d] untouched, to [fs'], through disks that did too. *)
Definition passes (fs fs' : Fs) : Prop :=
  untouched (fs_disk fs) (fs_disk fs') ∧ ∃ new, fs_seen fs' = new ++ fs_seen fs ∧ Forall (untouched (fs_disk fs)) new.

Lemma passes_refl fs : passes fs fs.
Proof. split; [done|]. by exists []. Qed.

Lemma passes_trans a b c : passes a b → passes b c → passes a c.
Proof.
  intros [H1 (n1 & E1 & F1)] [H2 (n2 & E2 & F2)]. split; [by etransitivity|]. exists (n2 ++ n1). rewrite E2, E1, app_assoc. split; [done|].
  apply Forall_app. split; [|done]. eapply Forall_impl; [exact F2|]. intros d Hd. by etransitivity.
Qed.

Lemma passes_step fs d : untouched (fs_disk fs) d → passes fs (fs_step d fs).
Proof. intros Hd. split; [done|]. exists [fs_disk fs]. split; [done|]. by apply Forall_singleton. Qed.

Lemma set_temp n e d : is_temp n = true → untouched d (set_file n e d).
Proof. intros Hn. split; [|done]. intros x Hx. cbn. rewrite lookup_insert_ne; [done|]. congruence. Qed.

Lemma remove_temp n d : is_temp n = true → untouched d (remove_file n d).
Proof. intros Hn. split; [|done]. intros x Hx. cbn. rewrite lookup_delete_ne; [done|]. congruence. Qed.

Lemma make_directories_passes io dirs fs b fs' :
  make_private_directories io dirs fs = (b, fs') → passes fs fs' ∧
  (b = true → ∀ p, p ∈ dirs → ∃ m, dk_dirs (fs_disk fs') !! p = Some m ∧ meta_private m = true).
Proof.
  revert fs. induction dirs as [|p dirs IH]; intros fs; cbn [make_private_directories].
  { intros [= <- <-]. split; [apply passes_refl|]. intros _ p Hp. by apply elem_of_nil in Hp. }
  destruct (io_mkdir_fails io p); [intros [= <- <-]; split; [apply passes_refl|done]|].
  set (fs1 := match dk_dirs (fs_disk fs) !! p with Some _ => fs | None => _ end).
  assert (passes fs fs1) as H1.
  { unfold fs1. destruct (dk_dirs (fs_disk fs) !! p) as [m|] eqn:E; [apply passes_refl|]. apply passes_step. split; [done|].
    intros q m Hq. cbn. rewrite lookup_insert_ne; [done|]. congruence. }
  destruct (dk_dirs (fs_disk fs1) !! p) as [m|] eqn:E; [|intros [= <- <-]; by split].
  destruct (negb (bool_decide _)) eqn:E1; [intros [= <- <-]; by split|].
  destruct (negb (me_owned m)) eqn:E2; [intros [= <- <-]; by split|].
  destruct (negb (Z.land _ _ =? 0)) eqn:E3; [intros [= <- <-]; by split|].
  intros H. destruct (IH fs1 H) as [H2 Hp]. split; [by eapply passes_trans|]. intros Hb q [->|Hq]%elem_of_cons; [|by apply Hp].
  exists m. split; [by apply H2|]. unfold meta_private. apply negb_false_iff in E1, E2, E3. apply bool_decide_eq_true in E1.
  by rewrite E1, E2, E3.
Qed.

Lemma sweep_passes io fs : passes fs (sweep_stale_temp_files io file_name fs).
Proof.
  unfold sweep_stale_temp_files. destruct (io_list_fails io); [apply passes_refl|].
  generalize (map_to_list (dk_files (fs_disk fs))) as l. intros l. revert fs.
  induction l as [|[n [m o]] l IH]; intros fs; cbn [foldl]; [apply passes_refl|].
  eapply passes_trans; [|apply IH]. unfold sweep_one. destruct (_ && _ && _) eqn:E; [|apply passes_refl].
  apply andb_true_iff in E as [[E _]%andb_true_iff _]. by apply passes_step, remove_temp.
Qed.

Lemma discard_passes io n fs : is_temp n = true → passes fs (discard io n fs).
Proof. intros Hn. unfold discard. destruct (io_remove_fails io); [apply passes_refl|]. by apply passes_step, remove_temp. Qed.

Lemma create_passes io n fs c fs' :
  is_temp n = true → create_private_exclusive io n fs = (c, fs') → passes fs fs'.
Proof.
  intros Hn. unfold create_private_exclusive. destruct (io_create_fails _ _); [intros [= <- <-]; apply passes_refl|].
  destruct (is_some _); [intros [= <- <-]; apply passes_refl|].
  assert (passes fs (fs_step (set_file n (mkMeta FT_File true 384, []) (fs_disk fs)) fs)) as H by (by apply passes_step, set_temp).
  destruct (io_harden_fails io); intros [= <- <-]; [|done]. eapply passes_trans; [exact H|by apply discard_passes].
Qed.

Lemma create_temp_passes io names fs r fs' :
  Forall (λ n, is_temp n = true) names → create_temp io names fs = (r, fs') →
  passes fs fs' ∧ (∀ n, r = Ok n → is_temp n = true).
Proof.
  intros Hs. revert fs. induction Hs as [|name names Hname _ IH]; intros fs; cbn [create_temp].
  { intros [= <- <-]. split; [apply passes_refl|done]. }
  destruct (create_private_exclusive _ _ _) as [c fs1] eqn:Ec. apply create_passes in Ec; [|done]. destruct c.
  - intros [= <- <-]. split; [done|]. by intros n [= <-].
  - intros H. destruct (IH fs1 H) as [H1 H2]. split; [by eapply passes_trans|done].
  - intros [= <- <-]. by split.
Qed.

(** [replace_file]: before the rename nothing but temporary files has changed; the rename
    puts all of the content in place. *)
Lemma replace_file_spec io top directory names octets fs r fs' :
  Forall (λ n, is_temp n = true) names → replace_file io file_name top directory names octets fs = (r, fs') →
  match r with
  | Err _ => passes fs fs'
  | Ok _ => ∃ fs1, passes fs fs1 ∧ fs_seen fs' = fs_disk fs1 :: fs_seen fs1 ∧ target (fs_disk fs') = Some (private_file, octets) ∧
      dk_dirs (fs_disk fs') = dk_dirs (fs_disk fs1) ∧
      (∃ m, dk_dirs (fs_disk fs') !! directory = Some m ∧ meta_private m = true) ∧
      (∀ n, is_temp n = false → n ≠ file_name → dk_files (fs_disk fs') !! n = dk_files (fs_disk fs) !! n)
  end.
Proof.
  intros Hs H. unfold replace_file in H.
  destruct (make_private_directories _ _ _) as [b fs1] eqn:Ed. destruct (make_directories_passes _ _ _ _ _ Ed) as [P1 Hd].
  destruct b; cbn [negb] in H; [|injection H as <- <-; done].
  destruct (existing_file_is_private _ _ _) as [pr|e]; [|injection H as <- <-; done].
  assert (pr = Some false ∨ pr ≠ Some false) as [->|Hpr] by (destruct pr as [[]|]; auto); [injection H as <- <-; done|].
  pose proof (sweep_passes io fs1) as P2. set (fs2 := sweep_stale_temp_files io file_name fs1) in *.
  assert (match create_temp io names fs2 with
    | (Err e, fs) => (Err e, fs)
    | (Ok temp, fs) =>
        let written := match io_write_fails io with Some n => take n octets | None => octets end in
        let fs := fs_step (set_file temp (mkMeta FT_File true 384, written) (fs_disk fs)) fs in
        if is_some (io_write_fails io) then (Err "writing the temporary file"%string, discard io temp fs)
        else if io_sync_fails io then (Err "syncing the temporary file"%string, discard io temp fs)
        else if io_rename_fails io then (Err "replacing the file"%string, discard io temp fs)
        else (Ok (io_sync_directory_fails io), fs_step (rename_file temp file_name (fs_disk fs)) fs)
    end = (r, fs')) as H' by (by destruct pr as [[]|]). clear H. rename H' into H.
  destruct (create_temp io names fs2) as [cr fs3] eqn:Ec. destruct (create_temp_passes _ _ _ _ _ Hs Ec) as [P3 Ht].
  pose proof (passes_trans _ _ _ P1 (passes_trans _ _ _ P2 P3)) as P.
  destruct cr as [temp|e]; [|injection H as <- <-; done]. specialize (Ht temp eq_refl). cbv zeta in H.
  set (fs4 := fs_step (set_file temp _ _) fs3) in *.
  assert (passes fs fs4) as P4 by (eapply passes_trans; [exact P|]; by apply passes_step, set_temp).
  pose proof (passes_trans _ _ _ P4 (discard_passes io temp fs4 Ht)) as P5.
  destruct (io_write_fails io) as [n|]; cbn [is_some] in H; [injection H as <- <-; done|].
  destruct (io_sync_fails io); [injection H as <- <-; done|].
  destruct (io_rename_fails io); [injection H as <- <-; done|]. apply pair_equal_spec in H as [<- <-].
  assert (temp ≠ file_name) as Hne by (intros ->; by rewrite target_not_temp in Ht).
  assert (rename_file temp file_name (fs_disk fs4) =
    mkDisk (dk_dirs (fs_disk fs4)) (<[ file_name := (private_file, octets) ]> (delete temp (dk_files (fs_disk fs4))))) as Er.
  { unfold rename_file, fs4. cbn. by rewrite lookup_insert_eq. }
  assert (passes fs1 fs4) as P6 by (eapply passes_trans; [exact P2|]; eapply passes_trans; [exact P3|]; by apply passes_step, set_temp).
  clearbody fs4. exists fs4. unfold fs_step. cbn [fs_seen fs_disk]. rewrite Er. unfold target. cbn [dk_files dk_dirs]. rewrite lookup_insert_eq.
  split_and!; try done.
  - destruct (Hd eq_refl directory) as (m & Hm & Hpm); [set_solver|]. exists m. split; [|done]. by apply P6.
  - intros n Hn Hx. rewrite lookup_insert_ne by done. rewrite lookup_delete_ne by congruence. by apply P4.
Qed.
(** ** Reading what a save left *)

(** No call of the operating system fails. *)
Definition quiet : Io :=
  mkIo false false false false false (λ _, false) false (λ _, false) [replicate 32 0] (λ _, false) false None false false false false.

Lemma check_quiet d directory o m :
  target d = Some (private_file, o) → dk_dirs d !! directory = Some m → meta_private m = true →
  check_private quiet file_name directory d = Ok true.
Proof.
  unfold target, check_private, existing_file_is_private. intros -> -> ->. cbn [quiet io_inspect_fails io_access_fails private_file me_type].
  by rewrite bool_decide_true.
Qed.

Lemma read_quiet_octets d limit o :
  target d = Some (private_file, o) → read_octets quiet file_name limit d = Ok (take (Z.to_nat (limit + 1)) o).
Proof.
  unfold target, read_octets. intros ->. cbn [quiet io_open_fails io_read_fails orb private_file me_type]. by rewrite bool_decide_false.
Qed.
End Replace.

Definition empty_disk : Disk := mkDisk ∅ ∅.
