(* ===== verification/AgreementFile.v ===== *)
(** * The durable agreement-key store ([cli/src/agreement_file.rs])

    [AgreementFileStore] over the directory that holds a device's [agreement-<key id>.sealed]:
    what loads and saves do to the disk, as an [AgreementKeyStore].  It handles the sealed
    octets only. *)

From stdpp Require Import sorting.
From S2P Require Import Prelude Ids Utf8 Json JsonFacts Canonical Envelope EnvelopeFacts Keys Trust Signing Replay SignedObject Agreement Pairing.
From S2P Require Import PairingFacts RecordBook Bindings Authorization Transport Sealing AgreementKeys AtRest.
From S2P Require Import AtomicFile.

Definition AGREEMENT_TEMP_NAME_ATTEMPTS : nat := 16.

(** [{:08x}] and [{:016x}]. *)
Definition hex_padded (width : nat) (v : Z) : list Z := map hex_digit (be_digits 16 width v).

(** [temp_name]: the process, a counter and the time. *)
Definition agreement_temp_name (file_name : list Z) (pid count nanos : Z) : list Z :=
  file_name ++ bs "." ++ (hex_padded 8 pid ++ hex_padded 8 (count mod 2 ^ 32) ++ hex_padded 16 nanos) ++ bs ".tmp".

(** What one call of the store meets: the answers of the operating system, the process's id,
    what each fetch of the process's counter and of the clock gives, and the random octets of
    the seal. *)
Record Call := mkCall { ca_io : Io; ca_pid : Z; ca_names : list (Z * Z); ca_rnd : list Z }.

Record AgreementFileStore := mkAgreementFile { af_directory : list Z; af_top : list Z; af_at_rest : AtRest }.

(** The disk, the calls to come, and how often [warn] was told. *)
Record AgreementWorld := mkAgreementWorld { aw_fs : Fs; aw_calls : nat → Call; aw_at : nat; aw_warnings : nat }.

Section Store.
Context `{H : Hpke} `{P : HpkePsk} (store : AgreementFileStore).

(** [AgreementFileStore::path]: the name in the directory. *)
Definition agreement_file : list Z := file_name (af_at_rest store).

Definition at_rest_text (e : AtRestError) : string :=
  match e with
  | AR_TooLarge => "larger than an agreement-key file may be"
  | AR_Malformed => "not an agreement-key file"
  | AR_Unsupported => "an agreement-key file of another version or kind"
  | AR_NotThisDevice => "an agreement-key file of another device key id"
  | AR_Authentication => "it did not authenticate under this device's key: it was edited, or was not sealed by this device"
  | AR_Corrupt => "authentic, but not a state this version wrote"
  | AR_Seal => "the state could not be sealed"
  end.

Definition agreement_load (io : Io) (d : Disk) : result KeyStoreError (option AgreementKeyState) :=
  match check_private io agreement_file (af_directory store) d with
  | Err e => Err (Failed e)
  | Ok false => Ok None
  | Ok true =>
      match read_octets io agreement_file (Z.of_nat MAX_FILE_LEN) d with
      | Err e => Err (Failed e)
      | Ok octets =>
          match open_agreement_state (af_at_rest store) octets with
          | Err why => Err (Keys.Corrupt (at_rest_text why))
          | Ok state => Ok (Some state)
          end
      end
  end.

(** The names [create_temp] tries. *)
Definition temp_names (c : Call) : list (list Z) :=
  map (λ '(count, nanos), agreement_temp_name agreement_file (ca_pid c) count nanos) (take AGREEMENT_TEMP_NAME_ATTEMPTS (ca_names c)).

(** [Ok true] when the directory could not be synced after the rename: a warning. *)
Definition agreement_save (c : Call) (state : AgreementKeyState) (fs : Fs) : result KeyStoreError bool * Fs :=
  match seal_agreement_state (af_at_rest store) (ca_rnd c) state with
  | Err e => (Err (Failed (at_rest_text e)), fs)
  | Ok octets =>
      match replace_file (ca_io c) agreement_file (af_top store) (af_directory store) (temp_names c) octets fs with
      | (Err e, fs) => (Err (Failed e), fs)
      | (Ok unsynced, fs) => (Ok unsynced, fs)
      end
  end.

(** [impl AgreementKeyStore for AgreementFileStore]. *)
Definition FileAgreementKeyStore : AgreementKeyStore AgreementWorld :=
  mkAgreementKeyStore _
    (λ w, agreement_load (ca_io (aw_calls w (aw_at w))) (fs_disk (aw_fs w)))
    (λ state w,
       let '(r, fs) := agreement_save (aw_calls w (aw_at w)) state (aw_fs w) in
       (match r with Err e => Err e | Ok _ => Ok tt end,
        mkAgreementWorld fs (aw_calls w) (S (aw_at w)) (match r with Ok true => S (aw_warnings w) | _ => aw_warnings w end))).
End Store.

(** ** The durable agreement-key store: what its file holds

    A save is one replacement of the file, so a crash at any step leaves the state before it
    or the new one, and the store promises what the device's agreement keys need of it. *)

Section Store.
Context `{C : Crypto} `{H : Hpke} `{P : HpkePsk} `{HP : !HpkePskLaws H P} (directory top : list Z) (seed : list Z) (key_id : KeyId).
Context (Hk : length key_id = 64%nat).

Definition the_store : AgreementFileStore := mkAgreementFile directory top (AtRest_derive seed key_id).

(** What the file holds: the state a load gives, when nothing refuses it. *)
Definition disk_held (d : Disk) : option AgreementKeyState :=
  match target (agreement_file the_store) d with
  | Some (_, octets) => match open_agreement_state (af_at_rest the_store) octets with Ok st => Some st | Err _ => None end
  | None => None
  end.

Definition world_held (w : AgreementWorld) : option AgreementKeyState := disk_held (fs_disk (aw_fs w)).

Lemma disk_held_untouched d d' : untouched (agreement_file the_store) d d' → disk_held d' = disk_held d.
Proof. intros Hu. unfold disk_held. by rewrite (untouched_target _ _ _ Hu). Qed.

Lemma temp_names_recognised c :
  Forall (λ n, is_temp_name (agreement_file the_store) n = true) (temp_names the_store c).
Proof.
  unfold temp_names. apply Forall_fmap, Forall_forall. intros [count nanos] _. unfold agreement_temp_name.
  apply temp_name_recognised.
  - unfold hex_padded. by rewrite !length_app, !length_map, !length_be_digits.
  - rewrite !forallb_app. assert (∀ w v, forallb (λ b, is_ascii_digit b || in_range 97 102 b) (hex_padded w v) = true) as Hx.
    { intros w v. unfold hex_padded. apply forallb_forall. intros b (x & <- & Hin)%in_map_iff. apply hex_digit_ok.
      pose proof (be_digits_bound 16 w v ltac:(lia)) as Hb. rewrite Forall_forall in Hb. apply Hb. by apply list_elem_of_In. }
    by rewrite !Hx.
Qed.

Lemma agreement_load_held io d x : agreement_load the_store io d = Ok x → x = disk_held d.
Proof.
  unfold agreement_load, check_private, existing_file_is_private, read_octets, disk_held, target.
  destruct (io_inspect_fails io); [done|]. destruct (dk_files d !! _) as [[meta octets]|]; cbn [mbind result_bind]; [|by intros [= <-]].
  destruct (negb (bool_decide _)); cbn [mbind result_bind]; [done|]. destruct (io_access_fails io); cbn [mbind result_bind]; [done|].
  destruct (meta_private meta); [|done]. destruct (io_directory_access_fails io); [done|].
  destruct (negb match dk_dirs d !! _ with Some m => meta_private m | None => false end); [done|]. destruct (_ || _); [done|].
  destruct (io_read_fails io); [done|]. destruct (open_agreement_state _ (take _ octets)) as [st|] eqn:E; [|done]. intros [= <-].
  pose proof (opened_typed _ _ _ E) as (_ & _ & Hl). rewrite take_ge in E; [by rewrite E|].
  rewrite length_take in Hl. lia.
Qed.

Lemma agreement_save_spec c state fs r fs' :
  typed_state state → agreement_save the_store c state fs = (r, fs') →
  match r with
  | Err _ => passes (agreement_file the_store) fs fs'
  | Ok _ => ∃ fs1 octets m, passes (agreement_file the_store) fs fs1 ∧ fs_seen fs' = fs_disk fs1 :: fs_seen fs1 ∧
      target (agreement_file the_store) (fs_disk fs') = Some (private_file, octets) ∧
      open_agreement_state (af_at_rest the_store) octets = Ok state ∧ (length octets ≤ MAX_FILE_LEN)%nat ∧
      dk_dirs (fs_disk fs') !! directory = Some m ∧ meta_private m = true
  end.
Proof.
  intros Hst Hs. unfold agreement_save in Hs. destruct (seal_agreement_state _ _ _) as [octets|e] eqn:E.
  2: { injection Hs as <- <-. apply passes_refl. }
  destruct (replace_file _ _ _ _ _ _ _) as [rr fs1] eqn:Er. apply replace_file_spec in Er; [|apply temp_names_recognised].
  destruct rr; injection Hs as <- <-; [|done]. destruct Er as (fs2 & H1 & H2 & H3 & _ & (m & Hm & Hp) & _).
  destruct (derived_opens seed key_id (ca_rnd c) state octets Hk Hst E) as [Ho Hl]. by exists fs2, octets, m.
Qed.

(** No step of a save, and no failure of one, leaves the file holding anything else. *)
Lemma agreement_save_held c state fs r fs' :
  typed_state state → agreement_save the_store c state fs = (r, fs') →
  disk_held (fs_disk fs') = (if is_ok r then Some state else disk_held (fs_disk fs)) ∧
  ∃ new, fs_seen fs' = new ++ fs_seen fs ∧ Forall (λ d, disk_held d = disk_held (fs_disk fs)) new.
Proof.
  intros Hst Hs. pose proof (agreement_save_spec _ _ _ _ _ Hst Hs) as Hc.
  assert (∀ l, Forall (untouched (agreement_file the_store) (fs_disk fs)) l → Forall (λ d, disk_held d = disk_held (fs_disk fs)) l) as Hu
    by (intros l Hl; eapply Forall_impl; [exact Hl|]; intros d; apply disk_held_untouched).
  destruct r as [b|e]; cbn [is_ok].
  - destruct Hc as (fs1 & octets & m & [H1 (new & En & Hn)] & H2 & H3 & Ho & _). split; [unfold disk_held; by rewrite H3, Ho|].
    exists (fs_disk fs1 :: new). rewrite H2, En. split; [done|]. constructor; [by apply disk_held_untouched|by apply Hu].
  - destruct Hc as [H1 (new & En & Hn)]. split; [by apply disk_held_untouched|]. exists new. split; [done|by apply Hu].
Qed.

#[export] Instance agreement_file_atomic : AtomicStore (FileAgreementKeyStore the_store) world_held.
Proof.
  split.
  - intros w x Hl. by apply agreement_load_held in Hl.
  - intros st w r w' Hst. cbn [FileAgreementKeyStore aks_save]. destruct (agreement_save _ _ _ _) as [rr fs] eqn:E. intros [= <- <-].
    apply agreement_save_held in E as [Hh _]; [|done]. unfold world_held. cbn [aw_fs]. rewrite Hh. destruct rr; cbn [is_ok]; auto.
Qed.
End Store.

(** A save of the agreement keys is atomic.  Every disk it passes through before the last
    has the file as it was, and so has the last when the save fails; when it succeeds, even
    with a warning, a load gives the state saved.  What a load gives at any time is what the
    file holds, so a crash at any step leaves the state before the save or the new one. *)
Theorem agreement_save_atomic `{C : Crypto} `{H : Hpke} `{P : HpkePsk} (HP : HpkePskLaws H P) (directory top seed : list Z) (key_id : KeyId)
    (c : Call) (state : AgreementKeyState) (d : Disk) (r : result KeyStoreError bool) (fs' : Fs) :
  let store := mkAgreementFile directory top (AtRest_derive seed key_id) in
  length key_id = 64%nat → typed_state state → agreement_save store c state (mkFs d []) = (r, fs') →
  Forall (λ d', dk_files d' !! agreement_file store = dk_files d !! agreement_file store) (fs_seen fs') ∧
  (∀ io d' x, agreement_load store io d' = Ok x → x = disk_held directory top seed key_id d') ∧
  match r with
  | Err _ => dk_files (fs_disk fs') !! agreement_file store = dk_files d !! agreement_file store
  | Ok _ => agreement_load store quiet (fs_disk fs') = Ok (Some state)
  end.
Proof.
  intros store Hk Hst Hs. split_and!.
  - pose proof (agreement_save_spec directory top seed key_id Hk _ _ _ _ _ Hst Hs) as Hc. destruct r as [b|e].
    + destruct Hc as (fs1 & octets & m & [H1 (new & En & Hn)] & -> & _). rewrite En. cbn [fs_seen]. rewrite app_nil_r.
      constructor; [by apply (untouched_target (agreement_file store))|]. eapply Forall_impl; [exact Hn|]. intros x. apply untouched_target.
    + destruct Hc as [_ (new & En & Hn)]. rewrite En. cbn [fs_seen]. rewrite app_nil_r. eapply Forall_impl; [exact Hn|]. intros x. apply untouched_target.
  - intros io d' x Hl. by apply (agreement_load_held directory top seed key_id Hk io).
  - pose proof (agreement_save_spec directory top seed key_id Hk _ _ _ _ _ Hst Hs) as Hc. destruct r as [b|e]; [|by apply (untouched_target (agreement_file store)), Hc].
    destruct Hc as (fs1 & octets & m & _ & _ & Ht & Ho & Hl & Hd & Hm). change store with (the_store directory top seed key_id).
    unfold agreement_load. change (af_directory _) with directory.
    rewrite (check_quiet _ _ _ _ m Ht Hd Hm), (read_quiet_octets _ _ _ _ Ht), take_ge by lia. by rewrite Ho.
Qed.

(** ** A save whose directory could not be synced, and a first start over the file *)

Definition unsynced : Io :=
  mkIo false false false false false (λ _, false) false (λ _, false) [] (λ _, false) false None false false true false.

Definition sample_call (io : Io) : Call := mkCall io 77 [(4, 5)] [].

Lemma agreement_save_atomic_witness :
  let store := mkAgreementFile (bs "/d") (bs "/t") (AtRest_derive (C := sample_pair) [1] (replicate 64 97)) in
  ∃ fs', agreement_save store (sample_call unsynced) sample_state (mkFs empty_disk []) = (Ok true, fs') ∧
    agreement_load store quiet (fs_disk fs') = Ok (Some sample_state) ∧ length (fs_seen fs') = 5%nat.
Proof.
  intros store. destruct (agreement_save store (sample_call unsynced) sample_state (mkFs empty_disk [])) as [r fs'] eqn:E.
  pose proof (agreement_save_atomic (C := sample_pair) sample_psk_laws (bs "/d") (bs "/t") [1] (replicate 64 97) (sample_call unsynced)
    sample_state empty_disk r fs' eq_refl sample_state_typed E) as (_ & _ & Hr).
  assert (r = Ok true ∧ length (fs_seen fs') = 5%nat) as [-> Hn].
  { assert ((agreement_save store (sample_call unsynced) sample_state (mkFs empty_disk [])).1 = Ok true ∧
      length (fs_seen (agreement_save store (sample_call unsynced) sample_state (mkFs empty_disk [])).2) = 5%nat) as Hx
      by (vm_compute; split; reflexivity). by rewrite E in Hx. }
  exists fs'. split; [reflexivity|]. split; [exact Hr|exact Hn].
Defined.

(** A device that starts over an empty directory, is stopped, and starts again: the same
    statement twice. *)
Definition file_store : AgreementFileStore :=
  the_store (C := sample_pair) (bs "/d") (bs "/t") [1] (replicate 64 97).

Definition first_world : AgreementWorld := mkAgreementWorld (mkFs empty_disk []) (λ _, sample_call unsynced) 0 0.

Definition start_over (w : AgreementWorld) : option (result AgreementKeyError AgreementKeys * AgreementWorld) :=
  keys_load_or_generate (C := sample_pair) (FileAgreementKeyStore file_store) (sample_device "alice" 1) [sample_agreement] sample_time w.

Definition started (r : option (result AgreementKeyError AgreementKeys * AgreementWorld)) : bool :=
  match r with Some (Ok _, _) => true | _ => false end.

Lemma start_over_gives w : started (start_over w) = true → ∃ ks w', start_over w = Some (Ok ks, w').
Proof. destruct (start_over w) as [[[ks|] w']|]; [eauto|done..]. Qed.

Lemma statements_never_contradict_witness :
  ∃ ks w ks' w', start_over first_world = Some (Ok ks, w) ∧ start_over w = Some (Ok ks', w') ∧
    StronglySorted (λ a b, ok_seq a < ok_seq b ∨ a = b) (lf_given (give ks' w' (lf_given (give ks w [])))) ∧ aw_warnings w' = 1%nat.
Proof.
  assert (started (start_over first_world) = true ∧
    match start_over first_world with
    | Some (_, w) => started (start_over w) = true ∧ match start_over w with Some (_, w') => aw_warnings w' = 1%nat | None => False end
    | None => False
    end) as [H1 H2] by (vm_compute; repeat split; reflexivity).
  destruct (start_over_gives _ H1) as (ks & w & E1). rewrite E1 in H2. destruct H2 as [H2 H3].
  destruct (start_over_gives _ H2) as (ks' & w' & E2). rewrite E2 in H3. exists ks, w, ks', w'.
  split; [exact E1|]. split; [exact E2|]. split; [|exact H3].
  apply (statements_never_contradict (C := sample_pair) sample_pair_laws (sample_device "alice" 1) (FileAgreementKeyStore file_store)
    (world_held (C := sample_pair) (bs "/d") (bs "/t") [1] (replicate 64 97))
    (agreement_file_atomic (C := sample_pair) (HP := sample_psk_laws) (bs "/d") (bs "/t") [1] (replicate 64 97) eq_refl)
    first_world (give ks' w' (lf_given (give ks w []))) eq_refl).
  assert (Forall typed_octets [sample_agreement]) as Hd by (repeat constructor; vm_compute; congruence).
  assert (typed_time sample_time) as Ht by (vm_compute; reflexivity).
  eapply rtc_l; [exact (Li_start_ok _ _ _ _ _ _ _ _ _ Hd Ht E1)|]. eapply rtc_l; [apply Li_stop|].
  apply rtc_once. exact (Li_start_ok _ _ _ _ _ _ _ _ _ Hd Ht E2).
Defined.
