(* ===== verification/TrustStore.v ===== *)
(** * The durable trust store ([cli/src/trust_store.rs])

    [FileTrustStore] over the directory that holds [trust.json]: what is read from it, the
    floor it carries, and the saves, each one atomic replacement of the file. *)

From Stdlib Require Import Sorting.Sorted.
From S2P Require Import Prelude Ordered Base64url Ids Utf8 Json JsonFacts JsonReader JsonText Canonical Envelope EnvelopeFacts Keys Trust Signing.
From S2P Require Import Replay SignedObject Agreement Pairing PairingFacts TrustFile AtomicFile.

Definition TEMP_NAME_ATTEMPTS : nat := 8.

(** [random_temp_name]; the seed's octets are drawn. *)
Definition random_temp_name (seed : list Z) : list Z :=
  TRUST_FILE_NAME ++ bs "." ++ mjoin (map hex2 (take 16 seed)) ++ bs ".tmp".

(** ** The store *)

(** [FileTrustStore] with its [State]; the warnings given to the sink are counted. *)
Record TrustStore := mkStore {
  ts_directory : list Z; ts_top : list Z; ts_device_key_id : option KeyId; ts_recorded : option KeyId;
  ts_floor : option (option SeqFloor); ts_warning_sink : bool; ts_warnings : nat; ts_directory_sync_failures : Z }.

(** [with_steps], then [with_warning_sink] when [sink]. *)
Definition FileTrustStore_new (directory top : list Z) (sink : bool) : TrustStore :=
  mkStore directory top None None None sink 0 0.

Definition set_read (recorded : option KeyId) (floor : option (option SeqFloor)) (st : TrustStore) : TrustStore :=
  mkStore (ts_directory st) (ts_top st) (ts_device_key_id st) recorded floor (ts_warning_sink st) (ts_warnings st)
    (ts_directory_sync_failures st).

Definition set_floor (floor : option (option SeqFloor)) (st : TrustStore) : TrustStore := set_read (ts_recorded st) floor st.

Definition set_device_key (k : KeyId) (st : TrustStore) : TrustStore :=
  mkStore (ts_directory st) (ts_top st) (Some k) (ts_recorded st) (ts_floor st) (ts_warning_sink st) (ts_warnings st)
    (ts_directory_sync_failures st).

(** A directory that could not be synced: counted (an [AtomicU64] wraps), and a warning. *)
Definition count_sync_failure (st : TrustStore) : TrustStore :=
  mkStore (ts_directory st) (ts_top st) (ts_device_key_id st) (ts_recorded st) (ts_floor st) (ts_warning_sink st)
    (if ts_warning_sink st then S (ts_warnings st) else ts_warnings st) ((ts_directory_sync_failures st + 1) mod 2 ^ 64).

(** The words of a reason, without the values it names. *)
Definition reason_text (why : Reason) : string :=
  match why with
  | Noncharacter => "a value holds a Unicode noncharacter, which I-JSON forbids"
  | NotCanonical _ => "not canonical"
  | UnknownMember what _ => what +:+ ": unknown member"
  | MissingMember what _ => what +:+ ": missing member"
  | NotAString what _ => what +:+ ": not a string"
  | NotAnObject what _ => what +:+ ": not an object"
  | NotAnArray what _ => what +:+ ": not an array"
  | ElementNotAnObject what => what +:+ ": an element is not an object"
  | NotAKeyId what _ => what +:+ ": not a key id"
  | NotASessionId what _ => what +:+ ": not a session id"
  | NotATimestamp what _ => what +:+ ": not a timestamp"
  | NotAcceptable what _ => what +:+ ": not an acceptable key"
  | SeqNotInteger what => what +:+ ": not an integer in range"
  | SeqOutOfRange what => what +:+ ": out of range"
  | UnknownKind what => what +:+ ": unknown kind"
  | UnknownDirection what => what +:+ ": unknown direction"
  | NotTheDigest what => what +:+ ": not the SHA-256 of the public key"
  | NotAToken what _ => what +:+ ": not an identifier token"
  | NotADocument what _ => what +:+ " is not a JSON document"
  | NotARoot what => what +:+ " is not a JSON object"
  | UnknownVersion what => what +:+ " has an unknown version"
  | NoVersion what => what +:+ " has no version member"
  | RelayNotASessionId => "relay_enabled: an element is not a session id"
  end%string.

(** [failed] (and [not_private]) and [corrupt], with the words that tell them apart. *)
Definition failed {A} (what : string) : result PairingStoreError A := Err (PS_Failed what).
Definition too_large {A} : result PairingStoreError A := Err (PS_Corrupt "larger than 1 MiB").
Definition corrupt {A} (why : Reason) : result PairingStoreError A := Err (PS_Corrupt (reason_text why)).

Definition file_len (d : Disk) : Z :=
  match dk_files d !! TRUST_FILE_NAME with Some (_, octets) => Z.of_nat (length octets) | None => 0 end.

Section Store.
Context `{C : Crypto}.

Definition read_file (io : Io) (st : TrustStore) (d : Disk) : result PairingStoreError (option TrustFile) :=
  present ← map_err PS_Failed (check_private io TRUST_FILE_NAME (ts_directory st) d);
  if negb present then Ok None
  else if MAX_TRUST_FILE_BYTES <? file_len d then too_large
  else
    octets ← map_err PS_Failed (read_octets io TRUST_FILE_NAME MAX_TRUST_FILE_BYTES d);
    if MAX_TRUST_FILE_BYTES <? Z.of_nat (length octets) then too_large
    else match trust_decode octets with Ok file => Ok (Some file) | Err why => corrupt why end.

Definition write_file (io : Io) (contents : TrustFile) (st : TrustStore) (fs : Fs)
    : result PairingStoreError unit * TrustStore * Fs :=
  match trust_encode contents with
  | Err _ => (failed "encoding the snapshot", st, fs)
  | Ok text =>
      if MAX_TRUST_FILE_BYTES <? Z.of_nat (length text) then (failed "the store would be larger than 1 MiB", st, fs)
      else
        match replace_file io TRUST_FILE_NAME (ts_top st) (ts_directory st)
                (map random_temp_name (take TEMP_NAME_ATTEMPTS (io_draws io))) text fs with
        | (Err e, fs) => (failed e, st, fs)
        | (Ok unsynced, fs) => (Ok tt, if unsynced then count_sync_failure st else st, fs)
        end
  end.

Definition trust_load (io : Io) (st : TrustStore) (d : Disk) : result PairingStoreError PairingSnapshot * TrustStore :=
  match read_file io st d with
  | Err e => (Err e, st)
  | Ok None => (Ok PairingSnapshot_default, set_read None (Some None) st)
  | Ok (Some file) => (Ok (tf_snapshot file), set_read (tf_device_key_id file) (Some (tf_agreement_seq_floor file)) st)
  end.

Definition known_floor (io : Io) (st : TrustStore) (d : Disk) : result PairingStoreError (option SeqFloor) * TrustStore :=
  match ts_floor st with
  | Some floor => (Ok floor, st)
  | None =>
      match read_file io st d with
      | Err e => (Err e, st)
      | Ok file => let floor := f ← file; tf_agreement_seq_floor f in (Ok floor, set_floor (Some floor) st)
      end
  end.

(** [save]: [io] answers for a read of the floor, [io'] for the write. *)
Definition trust_save (io io' : Io) (snapshot : PairingSnapshot) (st : TrustStore) (fs : Fs)
    : result PairingStoreError unit * TrustStore * Fs :=
  match known_floor io st (fs_disk fs) with
  | (Err e, st) => (Err e, st, fs)
  | (Ok floor, st) => write_file io' (mkTrustFile (ts_device_key_id st) snapshot floor) st fs
  end.

Definition note_device_key (key_id : KeyId) (st : TrustStore) : option KeyId * TrustStore :=
  (opt_filter (λ recorded, negb (beq recorded key_id)) (ts_recorded st), set_device_key key_id st).

Definition agreement_seq_floor (io : Io) (key_id : KeyId) (st : TrustStore) (d : Disk)
    : result PairingStoreError (option Z) * TrustStore :=
  let '(r, st) := known_floor io st d in
  (f ← r; Ok (fl_seq <$> opt_filter (λ f, beq (fl_key_id f) key_id) f), st).

Definition raised_seq (key_id : KeyId) (seq : Z) (current : option SeqFloor) : Z :=
  match current with
  | Some f => if beq (fl_key_id f) key_id && (seq <? fl_seq f) && (fl_seq f <? MAX_STATEMENT_SEQ) then fl_seq f else seq
  | None => seq
  end.

Definition record_agreement_seq_floor (io io' io'' : Io) (key_id : KeyId) (seq : Z) (st : TrustStore) (fs : Fs)
    : result PairingStoreError unit * TrustStore * Fs :=
  match known_floor io st (fs_disk fs) with
  | (Err e, st) => (Err e, st, fs)
  | (Ok current, st) =>
      let seq := raised_seq key_id seq current in
      if match current with Some f => beq (fl_key_id f) key_id && (fl_seq f =? seq) | None => false end then (Ok tt, st, fs)
      else
        match read_file io' st (fs_disk fs) with
        | Err e => (Err e, st, fs)
        | Ok file =>
            let '(snapshot, held_device_key_id) :=
              match file with
              | Some file => (tf_snapshot file, tf_device_key_id file)
              | None => (PairingSnapshot_default, None)
              end in
            let floor := mkFloor key_id seq in
            let device := match ts_device_key_id st with Some k => Some k | None => held_device_key_id end in
            match write_file io'' (mkTrustFile device snapshot (Some floor)) st fs with
            | (Ok _, st, fs) => (Ok tt, set_floor (Some (Some floor)) st, fs)
            | (Err e, st, fs) => (Err e, st, fs)
            end
        end
  end.
End Store.

(** ** The trust store keeps what it wrote

    A save replaces the file in one step: a crash at any point of it leaves the old file or
    the new one, whole.  The reader takes only well-formed stores, the floor the store
    remembers is the file's, and no sequence of operations, crashes and restarts lowers it. *)

(** ** A save as one step *)

(** The seeds drawn are 32 octets. *)
Definition seed_ok (seed : list Z) : Prop := length seed = 32%nat ∧ Forall is_u8 seed.

(** The trust file of a disk. *)
Abbreviation trust_target := (target TRUST_FILE_NAME).

Lemma temp_names_ok seeds : Forall seed_ok seeds → Forall (λ n, is_temp_name TRUST_FILE_NAME n = true) (map random_temp_name seeds).
Proof.
  induction 1 as [|seed seeds [Hl Hu] _ IH]; cbn [map]; constructor; [|done]. unfold random_temp_name.
  destruct (hex_ok (take 16 seed)) as [H1 H2]; [by apply Forall_take|]. rewrite length_take, Hl in H1. by apply temp_name_recognised.
Qed.

Section Write.
Context `{C : Crypto}.

(** [write_file]: before the rename nothing but temporary files has changed; the rename puts
    the whole text in place. *)
Lemma write_file_spec io f st fs r st' fs' :
  Forall seed_ok (io_draws io) → write_file io f st fs = (r, st', fs') →
  match r with
  | Err _ => passes TRUST_FILE_NAME fs fs' ∧ st' = st
  | Ok _ => ∃ text fs1, trust_encode f = Ok text ∧ Z.of_nat (length text) ≤ MAX_TRUST_FILE_BYTES ∧ passes TRUST_FILE_NAME fs fs1 ∧
      fs_seen fs' = fs_disk fs1 :: fs_seen fs1 ∧ trust_target (fs_disk fs') = Some (private_file, text) ∧
      dk_dirs (fs_disk fs') = dk_dirs (fs_disk fs1) ∧
      (∃ m, dk_dirs (fs_disk fs') !! ts_directory st = Some m ∧ meta_private m = true) ∧
      (st' = st ∨ st' = count_sync_failure st) ∧
      (∀ n, is_temp_name TRUST_FILE_NAME n = false → n ≠ TRUST_FILE_NAME → dk_files (fs_disk fs') !! n = dk_files (fs_disk fs) !! n)
  end.
Proof.
  intros Hs H. unfold write_file in H. destruct (trust_encode f) as [text|e]; [|injection H as <- <- <-; split; [apply passes_refl|done]].
  destruct (_ <? _) eqn:Elen; [injection H as <- <- <-; split; [apply passes_refl|done]|]. apply Z.ltb_ge in Elen.
  destruct (replace_file _ _ _ _ _ _ _) as [wr fs2] eqn:Er.
  pose proof (replace_file_spec _ _ _ _ _ _ _ _ _ (temp_names_ok _ (Forall_take _ TEMP_NAME_ATTEMPTS _ Hs)) Er) as Hr.
  destruct wr as [unsynced|e]; injection H as <- <- <-; [|done]. destruct Hr as (fs1 & P & Hseen & Ht & Hd & Hm & Ho).
  exists text, fs1. split_and!; try done. destruct unsynced; auto.
Qed.
End Write.

(** ** Only well-formed files are read *)

Lemma agreement_key_wf t k : AgreementPublicKey_from_base64url t = Some k → wf_agreement_key k.
Proof.
  intros H. pose proof H as H'. unfold AgreementPublicKey_from_base64url in H'. inv_binds.
  unfold wf_agreement_key, agreement_to_base64url. unfold AgreementPublicKey_from_octets, then_some in H'.
  destruct (is_acceptable_agreement_key _); [|done]. injection H' as <-. cbn [ak_octets].
  match goal with H : decode_exact 32 _ = Some _ |- _ => apply decode_exact_canonical in H as (_ & _ & <-) end. exact H.
Qed.

Lemma timestamp_wf t x : Timestamp_parse t = Some x → wf_timestamp x.
Proof. intros H. unfold wf_timestamp. by rewrite (Timestamp_parse_text _ _ H). Qed.

Lemma read_parts :
  (∀ o n w k, read_key_id o n w = Ok k → wf_key_id k) ∧ (∀ o n w s, read_session_id o n w = Ok s → wf_session_id s) ∧
  (∀ o n w t, read_timestamp o n w = Ok t → wf_timestamp t) ∧ (∀ o w k, read_agreement_key o w = Ok k → wf_agreement_key k) ∧
  (∀ o w n, read_seq o w = Ok n → wf_seq n).
Proof.
  split_and!.
  - intros o n w k H. unfold read_key_id in H. inv_binds. unfold wf_key_id, KeyId_parse, then_some in *.
    match goal with H : (if ?b then _ else _) = Some k |- _ => destruct b eqn:E; [|done]; injection H as <- end. by rewrite E.
  - intros o n w s H. unfold read_session_id in H. inv_binds. unfold wf_session_id, SessionId_parse, then_some in *.
    match goal with H : (if ?b then _ else _) = Some s |- _ => destruct b eqn:E; [|done]; injection H as <- end. by rewrite E.
  - intros o n w t H. unfold read_timestamp in H. inv_binds. by eapply timestamp_wf.
  - intros o w k H. unfold read_agreement_key in H. inv_binds. by eapply agreement_key_wf.
  - intros o w n H. unfold read_seq in H. inv_binds. by apply plain_range in H.
Qed.

Lemma peer_side_wf o p : decode_peer_side o = Ok p → wf_peer_side p.
Proof.
  destruct read_parts as (Hk & Hs & _). unfold decode_peer_side. intros H. inv_binds. destruct (obj_contains _ _); inv_binds.
  - split; [by eapply Hk|]. intros s [= <-]. by eapply Hs.
  - split; [by eapply Hk|]. by intros s [=].
Qed.

Lemma local_side_wf o l : wf_json (JObject o) → decode_local_side o = Ok l → wf_local_side l.
Proof.
  destruct read_parts as (_ & Hs & _). intros Hw H. unfold decode_local_side in H. inv_binds.
  destruct (beq _ _); [inv_binds; by eapply Hs|]. destruct (beq _ _); [|destruct (beq _ _); [by inv_binds|done]].
  inv_binds. unfold text in *. inv_binds. cbn. match goal with H : obj_get o (bs "scope") = Some ?v |- _ => pose proof (wf_get _ _ _ Hw H) as Hv; destruct v; try done end.
  cbn in *. inv_binds. inversion Hv as [| | |? [Hu _]| |]; subst. done.
Qed.

Lemma grant_wf o g : wf_json (JObject o) → decode_grant o = Ok g → wf_grant g.
Proof.
  intros Hw H. unfold decode_grant in H. inv_binds. unfold object_member in *. inv_binds.
  repeat match goal with H : obj_get o _ = Some ?v |- _ => pose proof (wf_get _ _ _ Hw H); clear H end.
  repeat match goal with H : as_object ?v = Some _ |- _ => destruct v; try discriminate H; injection H as -> end.
  destruct (beq _ _); [|destruct (beq _ _); [|done]]; inv_binds; split; (by eapply peer_side_wf) || (eapply local_side_wf; [|eassumption]; done).
Qed.

Lemma confirmed_wf v c : decode_confirmed v = Ok c → wf_confirmed c.
Proof.
  destruct read_parts as (_ & _ & Ht & Ha & Hn). intros H. unfold decode_confirmed in H. inv_binds.
  unfold ConfirmedValues_from_store, then_some in H. destruct (_ <=? _); [|done]. injection H as <-.
  split_and!; cbn [cv_agreement_key cv_seq cv_issued_at]; eauto.
Qed.

Lemma held_wf o h : decode_statement o = Ok h → wf_held h.
Proof.
  destruct read_parts as (Hk & _ & Ht & Ha & Hn). intros H. unfold decode_statement in H. inv_binds.
  unfold HeldStatement_from_store, then_some in H. destruct (_ <=? _); [|done]. injection H as <-.
  split_and!; cbn [hs_key_id hs_agreement_key hs_seq hs_issued_at]; eauto.
Qed.

Lemma floor_wf v f : decode_floor v = Ok f → wf_floor f.
Proof. destruct read_parts as (Hk & _ & _ & _ & Hn). intros H. unfold decode_floor in H. inv_binds. split; cbn; eauto. Qed.

Lemma decoded_all_wf {T} (P : T → Prop) (one : Json → result Reason T) l ts :
  (∀ v t, wf_json v → one v = Ok t → P t) → Forall wf_json l → collect_results one l = Ok ts → Forall P ts.
Proof. intros Hone Hl H%collect_results_Forall2. induction H as [|v t l ts Hv _ IH]; [constructor|]. inv_Forall. constructor; eauto. Qed.

Section Decoded.
Context `{C : Crypto}.

Lemma public_key_canonical t k : PublicKey_from_base64url t = Some k → PublicKey_from_base64url (to_base64url k) = Some k.
Proof.
  intros H. pose proof H as H'. unfold PublicKey_from_base64url in H'. inv_binds. unfold to_base64url.
  unfold PublicKey_from_octets in H'. repeat case_match; try done. injection H' as <-. cbn [pk_octets].
  match goal with H : decode_exact 32 _ = Some _ |- _ => apply decode_exact_canonical in H as (_ & _ & <-) end. done.
Qed.

Lemma record_wf o r : decode_record o = Ok r → wf_record r.
Proof.
  destruct read_parts as (_ & _ & Ht & _). intros H. unfold decode_record in H. inv_binds. split_and!; cbn.
  - unfold Token_parse, then_some in *. repeat case_match; by simplify_eq.
  - by eapply public_key_canonical.
  - eauto.
  - intros c ->. destruct (obj_get o (bs "confirmed")); inv_binds; [|done]. simplify_eq. by eapply confirmed_wf.
Qed.

Lemma list_member_wf o n w l : wf_json (JObject o) → list_member o n w = Ok l → Forall wf_json l.
Proof.
  intros Hw H. unfold list_member in H. inv_binds. match goal with H : obj_get o n = Some ?v |- _ => pose proof (wf_get _ _ _ Hw H) as Hv; destruct v; try done end.
  cbn in *. inv_binds. by inversion Hv.
Qed.

(** [decode] gives only values of the types the store holds. *)
Lemma decoded_wf octets f : trust_decode octets = Ok f → wf_file f.
Proof.
  destruct read_parts as (Hk & Hs & _). intros H. unfold trust_decode in H. apply result_bind_Ok in H as (v & Hv & H).
  assert (wf_json v) as Hw by (destruct (parse octets) eqn:E; [|done]; injection Hv as ->; by eapply parse_wf).
  unfold decode_root in H. inv_binds. destruct v as [| | | | |o]; try done. match goal with H : as_object _ = Some _ |- _ => injection H as <- end.
  split; cbn [tf_device_key_id tf_agreement_seq_floor tf_snapshot].
  - intros k ->. destruct (obj_contains _ _); inv_binds; [|done]. simplify_eq. by eapply Hk.
  - split; cbn [sp_paired sp_grants sp_relay_enabled sp_agreement_statements]; unfold decode_all in *;
      (eapply decoded_all_wf; [| |eassumption]; [|by eapply list_member_wf]); cbn beta.
    + intros v t _ Ht. inv_binds. by eapply record_wf.
    + intros v t Hwv Ht. inv_binds. unfold element in *. inv_binds. destruct v; try done. cbn in *. inv_binds. by eapply grant_wf.
    + intros v t _ Ht. inv_binds. unfold wf_session_id, SessionId_parse, then_some in *.
      match goal with H : (if ?b then _ else _) = Some t |- _ => destruct b eqn:E; [|done]; injection H as <- end. by rewrite E.
    + intros v t _ Ht. inv_binds. by eapply held_wf.
  - intros x ->. destruct (obj_get o (bs "agreement_seq_floor")); inv_binds; [|done]. simplify_eq. by eapply floor_wf.
Qed.
End Decoded.

(** ** Reading what a save left *)

Lemma take_within (o : list Z) : Z.of_nat (length o) ≤ MAX_TRUST_FILE_BYTES → take (Z.to_nat (MAX_TRUST_FILE_BYTES + 1)) o = o.
Proof. intros H. apply take_ge. unfold MAX_TRUST_FILE_BYTES in *. lia. Qed.

Section Reads.
Context `{C : Crypto}.

Lemma read_file_inv io st d r :
  read_file io st d = Ok r →
  match r with
  | None => trust_target d = None
  | Some f => ∃ m o, trust_target d = Some (m, o) ∧ trust_decode o = Ok f
  end.
Proof.
  intros H. unfold read_file in H. apply result_bind_Ok in H as (present & Hp & H). unfold check_private, existing_file_is_private in Hp. unfold target.
  destruct (io_inspect_fails io); [done|]. destruct (dk_files d !! TRUST_FILE_NAME) as [[m o]|] eqn:Et.
  2: { injection Hp as <-. by injection H as <-. }
  destruct (negb (bool_decide (me_type m = FT_File))); [done|]. destruct (io_access_fails io); [done|]. cbn [mbind result_bind] in Hp.
  destruct (meta_private m); [|done]. destruct (io_directory_access_fails io); [done|]. destruct (negb _); [done|]. injection Hp as <-.
  cbn [negb] in H. destruct (_ <? _) eqn:El; [done|]. apply Z.ltb_ge in El. apply result_bind_Ok in H as (x & Hx & H).
  unfold read_octets, file_len in *. rewrite Et in *. destruct (_ || _); [done|]. destruct (io_read_fails io); [done|].
  rewrite take_within in Hx by done. injection Hx as <-. destruct (_ <? _); [done|].
  destruct (trust_decode o) as [f|] eqn:Ed; [|done]. injection H as <-. eauto.
Qed.

Lemma read_quiet st d o f m :
  trust_target d = Some (private_file, o) → Z.of_nat (length o) ≤ MAX_TRUST_FILE_BYTES →
  dk_dirs d !! ts_directory st = Some m → meta_private m = true → trust_decode o = Ok f → read_file quiet st d = Ok (Some f).
Proof.
  intros Ht Hl Hd Hm Hf. unfold read_file. rewrite (check_quiet _ _ _ _ m Ht Hd Hm). cbn [map_err mbind result_bind negb].
  rewrite (read_quiet_octets _ _ _ _ Ht). unfold file_len, target in *. rewrite Ht. rewrite take_within by done.
  rewrite (proj2 (Z.ltb_ge _ _)) by done. cbn [map_err mbind result_bind]. rewrite (proj2 (Z.ltb_ge _ _)) by done. by rewrite Hf.
Qed.
End Reads.
