(* ===== verification/TrustStoreLife.v ===== *)
(** * Lives of the trust store

    The store through any sequence of its operations, with calls of the operating system
    failing anywhere, crashes between any two steps of a save, and restarts. *)

From S2P Require Import Prelude Ordered Base64url Ids Utf8 Json JsonFacts JsonReader JsonText.
From S2P Require Import Canonical Envelope EnvelopeFacts Keys Trust Signing Replay SignedObject Agreement Pairing PairingFacts.
From S2P Require Import TrustFile AtomicFile TrustStore.

(** ** A save is atomic *)

(** [C22] A save of the trust store is atomic: whatever call of the operating system fails,
    and at whatever step a crash stops it, every disk it passes through still holds the old
    [trust.json] up to the rename, which puts the new one in place whole.  A save that
    returns [Ok] is the one a later start reads back, also when the directory sync after the
    rename failed; a save that fails leaves the old file.  No entry of the directory but the
    target and the store's own temporary files is ever touched. *)
Theorem trust_save_atomic `{C : Crypto} (HC : CryptoLaws C) (HJ : JcsStrings C)
    (io : Io) (f : TrustFile) (st st' : TrustStore) (fs fs' : Fs) (r : result PairingStoreError unit) :
  wf_file f → Forall seed_ok (io_draws io) → write_file io f st fs = (r, st', fs') →
  (∃ passed, fs_seen fs' = passed ++ fs_seen fs ∧ Forall (λ d, trust_target d = trust_target (fs_disk fs)) passed) ∧
  match r with
  | Ok _ => read_file quiet st' (fs_disk fs') = Ok (Some (ordered_file f))
  | Err _ => trust_target (fs_disk fs') = trust_target (fs_disk fs)
  end ∧
  (∀ n, is_temp_name TRUST_FILE_NAME n = false → n ≠ TRUST_FILE_NAME → dk_files (fs_disk fs') !! n = dk_files (fs_disk fs) !! n).
Proof.
  intros Hf Hs H. apply write_file_spec in H; [|done]. destruct r as [[]|e].
  - destruct H as (text & fs1 & He & Hl & [P (new & Hn & HP)] & Hseen & Ht & _ & (m & Hm & Hpm) & Hst & Ho). split_and!.
    + exists (fs_disk fs1 :: new). rewrite Hseen, Hn. split; [done|]. constructor; [by apply untouched_target|].
      eapply Forall_impl; [exact HP|]. intros d Hd. by apply untouched_target.
    + assert (ts_directory st' = ts_directory st) as Hd by (by destruct Hst as [->| ->]).
      eapply read_quiet; [done|done|by rewrite Hd|done|]. by apply file_read.
    + done.
  - destruct H as [[P (new & Hn & HP)] ->]. split_and!.
    + exists new. split; [done|]. eapply Forall_impl; [exact HP|]. intros d Hd. by apply untouched_target.
    + by apply untouched_target.
    + intros n Hx _. by apply P.
Qed.


(** A directory sync that fails after the rename. *)
Definition sync_fails : Io :=
  mkIo false false false false false (λ _, false) false (λ _, false) [replicate 32 0] (λ _, false) false None false false true false.

Lemma trust_save_atomic_witness :
  ∃ st' fs', write_file (C := sample_pair) sync_fails sample_trust_file (FileTrustStore_new (bs "/d") (bs "/t") true) (mkFs empty_disk []) =
    (Ok tt, st', fs') ∧ ts_directory_sync_failures st' = 1 ∧
    read_file (C := sample_pair) quiet st' (fs_disk fs') = Ok (Some (ordered_file (C := sample_pair) sample_trust_file)).
Proof.
  assert (Forall seed_ok (io_draws sync_fails)) as Hs.
  { apply Forall_singleton. split; [done|]. apply Forall_replicate. unfold is_u8. lia. }
  destruct (write_file (C := sample_pair) sync_fails sample_trust_file (FileTrustStore_new (bs "/d") (bs "/t") true) (mkFs empty_disk []))
    as [[r st'] fs'] eqn:E.
  pose proof (trust_save_atomic (C := sample_pair) sample_pair_laws sample_pair_strings sync_fails sample_trust_file _ st' _ fs' r
    sample_trust_file_wf Hs E) as (_ & H & _).
  assert (is_ok (write_file (C := sample_pair) sync_fails sample_trust_file (FileTrustStore_new (bs "/d") (bs "/t") true) (mkFs empty_disk [])).1.1 = true ∧
    ts_directory_sync_failures (write_file (C := sample_pair) sync_fails sample_trust_file (FileTrustStore_new (bs "/d") (bs "/t") true) (mkFs empty_disk [])).1.2 = 1)
    as [H1 H2] by (split; vm_compute; reflexivity).
  rewrite E in H1, H2. cbn [fst snd] in H1, H2. destruct r as [[]|e]; [|done]. exists st', fs'. split; [done|]. split; [exact H2|exact H].
Defined.

(** ** The floor on the disk *)

Section Life.
Context `{C : Crypto} {HC : CryptoLaws C} {HJ : JcsStrings C}.

Definition disk_floor (d : Disk) : option SeqFloor :=
  match trust_target d with
  | Some (_, o) => match trust_decode o with Ok f => tf_agreement_seq_floor f | Err _ => None end
  | None => None
  end.

Inductive store_op : Type :=
| SLoad (io : Io)
| SSave (io io' : Io) (snapshot : PairingSnapshot)
| SRecord (io io' io'' : Io) (key_id : KeyId) (seq : Z)
| SNote (key_id : KeyId)
| SFloor (io : Io) (key_id : KeyId).

Definition run_store (o : store_op) (st : TrustStore) (fs : Fs) : TrustStore * Fs :=
  match o with
  | SLoad io => ((trust_load io st (fs_disk fs)).2, fs)
  | SSave io io' snapshot => let '(_, st, fs) := trust_save io io' snapshot st fs in (st, fs)
  | SRecord io io' io'' k n => let '(_, st, fs) := record_agreement_seq_floor io io' io'' k n st fs in (st, fs)
  | SNote k => ((note_device_key k st).2, fs)
  | SFloor io k => ((agreement_seq_floor io k st (fs_disk fs)).2, fs)
  end.

(** The values an operation is called with are values of their types. *)
Definition asked (o : store_op) : Prop :=
  match o with
  | SSave _ io' snapshot => wf_snapshot snapshot ∧ Forall seed_ok (io_draws io')
  | SRecord _ _ io'' k n => wf_key_id k ∧ 0 ≤ n ≤ MAX_STATEMENT_SEQ ∧ Forall seed_ok (io_draws io'')
  | SNote k => wf_key_id k
  | _ => True
  end.

(** An operation that ends, or a crash in the course of one and a start from what it left. *)
Inductive life_step (o : store_op) : TrustStore * Disk → TrustStore * Disk → Prop :=
| life_runs st d st' fs' :
    asked o → run_store o st (mkFs d []) = (st', fs') → life_step o (st, d) (st', fs_disk fs')
| life_crashes st d st' fs' d' sink :
    asked o → run_store o st (mkFs d []) = (st', fs') → d' ∈ fs_disk fs' :: fs_seen fs' →
    life_step o (st, d) (FileTrustStore_new (ts_directory st) (ts_top st) sink, d').

(** The life of a store over a sequence of operations. *)
Inductive life : list store_op → TrustStore * Disk → TrustStore * Disk → Prop :=
| life_nil s : life [] s s
| life_cons o os s1 s2 s3 : life_step o s1 s2 → life os s2 s3 → life (o :: os) s1 s3.

(** The operations by which the floor of [k] may be given up: a record of another key, whose
    floor takes its place, and a record of the maximum, from which a count starts again. *)
Definition gives_up (k : KeyId) (o : store_op) : Prop :=
  match o with SRecord _ _ _ k' n => k' ≠ k ∨ n = MAX_STATEMENT_SEQ | _ => False end.

(** What the store remembers is what the file says. *)
Record in_sync (st : TrustStore) (d : Disk) : Prop := {
  sy_device k : ts_device_key_id st = Some k → wf_key_id k;
  sy_floor fl : ts_floor st = Some fl → disk_floor d = fl;
  sy_floor_wf fl : ts_floor st = Some (Some fl) → wf_floor fl }.

Lemma same_target_floor d d' : trust_target d' = trust_target d → disk_floor d' = disk_floor d.
Proof. unfold disk_floor. by intros ->. Qed.

Lemma read_floor io st d r : read_file io st d = Ok r → (f ← r; tf_agreement_seq_floor f) = disk_floor d ∧ (∀ f, r = Some f → wf_file f).
Proof.
  intros H. apply read_file_inv in H. unfold disk_floor. destruct r as [f|].
  - destruct H as (m & o & -> & Ho). rewrite Ho. split; [done|]. intros f' [= <-]. by eapply decoded_wf.
  - by rewrite H.
Qed.

Lemma known_floor_spec io st d r st' :
  in_sync st d → known_floor io st d = (r, st') →
  in_sync st' d ∧ ts_directory st' = ts_directory st ∧ ts_top st' = ts_top st ∧ ts_device_key_id st' = ts_device_key_id st ∧
  (∀ fl, r = Ok fl → disk_floor d = fl ∧ ts_floor st' = Some fl ∧ ∀ x, fl = Some x → wf_floor x).
Proof.
  intros Hs H. pose proof Hs as [Hd Hf Hw]. unfold known_floor in H. destruct (ts_floor st) as [fl|] eqn:Ef.
  - injection H as <- <-. split_and!; try done. intros x [= ->]. split_and!; [by apply Hf|done|]. intros y ->. by apply Hw.
  - destruct (read_file io st d) as [file|e] eqn:Er; injection H as <- <-; [|done].
    destruct (read_floor _ _ _ _ Er) as [Hfl Hwf].
    assert (∀ x, (f ← file; tf_agreement_seq_floor f) = Some x → wf_floor x) as Hx.
    { intros x Hx. destruct file as [f|]; [|done]. by apply (Hwf f eq_refl). }
    split_and!; try done.
    + split; cbn; [done|by intros fl [= <-]|]. intros fl [= Hfl']. by apply Hx.
    + intros fl [= <-]. done.
Qed.

Lemma write_floor io f st fs r st' fs' :
  wf_file f → Forall seed_ok (io_draws io) → write_file io f st fs = (r, st', fs') →
  (st' = st ∨ st' = count_sync_failure st) ∧
  Forall (λ d, disk_floor d = disk_floor (fs_disk fs)) (take (length (fs_seen fs') - length (fs_seen fs)) (fs_seen fs')) ∧
  disk_floor (fs_disk fs') = (if is_ok r then tf_agreement_seq_floor f else disk_floor (fs_disk fs)).
Proof.
  intros Hf Hs H. apply write_file_spec in H; [|done]. destruct r as [[]|e]; cbn [is_ok].
  - destruct H as (text & fs1 & He & _ & [P (new & Hn & HP)] & Hseen & Ht & _ & _ & Hst & _). split_and!; [done| |].
    + rewrite Hseen, Hn. change (fs_disk fs1 :: new ++ fs_seen fs) with ((fs_disk fs1 :: new) ++ fs_seen fs).
      rewrite length_app. replace (length (fs_disk fs1 :: new) + length (fs_seen fs) - length (fs_seen fs))%nat
        with (length (fs_disk fs1 :: new)) by lia. rewrite take_app_length. constructor; [by apply same_target_floor, untouched_target|].
      eapply Forall_impl; [exact HP|]. intros d Hd. by apply same_target_floor, untouched_target.
    + unfold disk_floor at 1. rewrite Ht. by rewrite (file_read f text).
  - destruct H as [[P (new & Hn & HP)] ->]. split_and!; [by left| |by apply same_target_floor, untouched_target].
    rewrite Hn, length_app. replace (length new + length (fs_seen fs) - length (fs_seen fs))%nat with (length new) by lia.
    rewrite take_app_length. eapply Forall_impl; [exact HP|]. intros d Hd. by apply same_target_floor, untouched_target.
Qed.
(** A disk on which the floor of [k] is at least where it was. *)
Definition keeps_floor (k : KeyId) (d d' : Disk) : Prop :=
  ∀ n, disk_floor d = Some (mkFloor k n) → n < MAX_STATEMENT_SEQ →
  ∃ n', n ≤ n' < MAX_STATEMENT_SEQ ∧ disk_floor d' = Some (mkFloor k n').

Lemma keeps_floor_same k d d' : disk_floor d' = disk_floor d → keeps_floor k d d'.
Proof. intros E n Hn Hm. exists n. rewrite E. split; [lia|done]. Qed.

Lemma sync_counted st d : in_sync st d → in_sync (count_sync_failure st) d.
Proof. by intros [A B D]. Qed.

Lemma in_sync_same st d d' : disk_floor d' = disk_floor d → in_sync st d → in_sync st d'.
Proof. intros E [A B D]. split; [done|by rewrite E|done]. Qed.

Lemma save_life k io io' snapshot st d r st' fs' :
  in_sync st d → wf_snapshot snapshot → Forall seed_ok (io_draws io') →
  trust_save io io' snapshot st (mkFs d []) = (r, st', fs') →
  in_sync st' (fs_disk fs') ∧ Forall (keeps_floor k d) (fs_disk fs' :: fs_seen fs').
Proof.
  intros Hs Hw Hseeds H. unfold trust_save in H. cbn [fs_disk] in H. destruct (known_floor io st d) as [kr st1] eqn:Ek.
  destruct (known_floor_spec _ _ _ _ _ Hs Ek) as (Hs1 & _ & _ & _ & Hfl).
  destruct kr as [fl|e]; [|injection H as <- <- <-; split; [done|]; apply Forall_singleton; by apply keeps_floor_same].
  destruct (Hfl fl eq_refl) as (Hd & Hfs & Hx).
  assert (wf_file (mkTrustFile (ts_device_key_id st1) snapshot fl)) as Hf by (split; [apply Hs1|done|done]).
  destruct (write_floor _ _ _ _ _ _ _ Hf Hseeds H) as (Hst & Hseen & Hd'). cbn [fs_disk fs_seen length tf_agreement_seq_floor] in *.
  rewrite Nat.sub_0_r, take_ge in Hseen by lia.
  assert (disk_floor (fs_disk fs') = disk_floor d) as Hsame by (rewrite Hd'; by destruct (is_ok r)).
  split.
  - apply (in_sync_same st' d); [done|]. destruct Hst as [->| ->]; [done|by apply sync_counted].
  - constructor; [by apply keeps_floor_same|]. eapply Forall_impl; [exact Hseen|]. intros x Hx'. by apply keeps_floor_same.
Qed.

Lemma record_life io io' io'' k n st d r st' fs' :
  in_sync st d → wf_key_id k → 0 ≤ n ≤ MAX_STATEMENT_SEQ → Forall seed_ok (io_draws io'') →
  record_agreement_seq_floor io io' io'' k n st (mkFs d []) = (r, st', fs') →
  in_sync st' (fs_disk fs') ∧ (n < MAX_STATEMENT_SEQ → Forall (keeps_floor k d) (fs_disk fs' :: fs_seen fs')) ∧
  (is_ok r = true → ∃ n', n ≤ n' ∧ (n < MAX_STATEMENT_SEQ → n' < MAX_STATEMENT_SEQ) ∧ disk_floor (fs_disk fs') = Some (mkFloor k n')).
Proof.
  intros Hs Hk Hn Hseeds H. unfold record_agreement_seq_floor in H. cbn [fs_disk] in H.
  destruct (known_floor io st d) as [kr st1] eqn:Ek. destruct (known_floor_spec _ _ _ _ _ Hs Ek) as (Hs1 & _ & _ & _ & Hfl).
  destruct kr as [fl|e]; [|injection H as <- <- <-; split_and!; [done| |done]; intros _; apply Forall_singleton; by apply keeps_floor_same].
  destruct (Hfl fl eq_refl) as (Hd & Hfs & Hx). set (m := raised_seq k n fl) in *.
  assert (n ≤ m ≤ MAX_STATEMENT_SEQ ∧ (n < MAX_STATEMENT_SEQ → m < MAX_STATEMENT_SEQ) ∧
    ∀ x, fl = Some (mkFloor k x) → x < MAX_STATEMENT_SEQ → x ≤ m) as (Hm & Hmax & Hcur).
  { unfold m, raised_seq. destruct fl as [[k' x]|]; [|split_and!; [lia..|done|done]]. cbn [fl_key_id fl_seq].
    destruct (beq k' k) eqn:Eb, (n <? x) eqn:E1, (x <? MAX_STATEMENT_SEQ) eqn:E2; cbn [andb]; bool_hyps;
      (split_and!; [lia..|]; intros y [= -> ->] Hy; rewrite ?beq_refl in Eb; (done || lia)). }
  destruct (match fl with Some f => beq (fl_key_id f) k && (fl_seq f =? m) | None => false end) eqn:Es.
  { injection H as <- <- <-. split_and!; [done| |].
    - intros _. apply Forall_singleton. by apply keeps_floor_same.
    - intros _. exists m. cbn [fs_disk]. rewrite Hd. destruct fl as [[k' x]|]; [|done]. cbn in Es. apply andb_true_iff in Es as [E1 E2].
      apply beq_true in E1 as ->. apply Z.eqb_eq in E2 as ->. split_and!; [lia|done|done]. }
  destruct (read_file io' st1 d) as [file|e] eqn:Er;
    [|injection H as <- <- <-; split_and!; [done| |done]; intros _; apply Forall_singleton; by apply keeps_floor_same].
  destruct (read_floor _ _ _ _ Er) as [_ Hwf].
  set (sd := match file with Some f => (tf_snapshot f, tf_device_key_id f) | None => (PairingSnapshot_default, None) end) in *.
  assert (wf_snapshot sd.1 ∧ ∀ x, sd.2 = Some x → wf_key_id x) as [Hsd1 Hsd2].
  { unfold sd. destruct file as [f|]; [destruct (Hwf f eq_refl); by split|]. split; [split; constructor|done]. }
  destruct sd as [snapshot held]. cbn [fst snd] in *.
  set (f := mkTrustFile _ snapshot (Some (mkFloor k m))) in *.
  assert (wf_file f) as Hf.
  { split; cbn; [|done|intros x [= <-]; split; [done|cbn; unfold wf_seq; lia]].
    intros x. destruct (ts_device_key_id st1) eqn:Edk; [intros [= <-]; by apply Hs1|apply Hsd2]. }
  destruct (write_file io'' f st1 (mkFs d [])) as [[wr st2] fs2] eqn:Ew.
  destruct (write_floor _ _ _ _ _ _ _ Hf Hseeds Ew) as (Hst & Hseen & Hd'). cbn [fs_disk fs_seen length] in *.
  rewrite Nat.sub_0_r, take_ge in Hseen by lia.
  assert (in_sync st2 d) as Hs2 by (destruct Hst as [->| ->]; [done|by apply sync_counted]).
  assert (Forall (keeps_floor k d) (fs_seen fs2)) as Hold.
  { eapply Forall_impl; [exact Hseen|]. intros x Hx'. by apply keeps_floor_same. }
  destruct wr as [[]|e]; injection H as <- <- <-; cbn [is_ok] in *.
  - change (tf_agreement_seq_floor f) with (Some (mkFloor k m)) in Hd'. split_and!.
    + destruct Hs2 as [A _ _]. split; cbn; [done|by intros fl' [= <-]|]. intros x [= <-]. split; [done|]. cbn. unfold wf_seq. lia.
    + intros Hlt. constructor; [|done]. intros x Hx1 Hx2. exists m. rewrite Hd in Hx1. pose proof (Hcur x Hx1 Hx2). split; [lia|done].
    + intros _. exists m. split_and!; [lia|done|done].
  - split_and!; [by apply (in_sync_same st2 d)| |done]. intros _. constructor; [by apply keeps_floor_same|done].
Qed.

Lemma life_kept k o st d st' fs' :
  in_sync st d → asked o → run_store o st (mkFs d []) = (st', fs') →
  in_sync st' (fs_disk fs') ∧ (¬ gives_up k o → Forall (keeps_floor k d) (fs_disk fs' :: fs_seen fs')).
Proof.
  intros Hs Ha H. assert (∀ st1, in_sync st1 d → in_sync st1 (fs_disk (mkFs d [])) ∧
    (¬ gives_up k o → Forall (keeps_floor k d) (fs_disk (mkFs d []) :: fs_seen (mkFs d []))))
    as Hsame by (intros st1 H1; split; [done|]; intros _; apply Forall_singleton; by apply keeps_floor_same).
  destruct o as [io|io io' snap|io io' io'' k' n|k'|io k']; cbn [run_store] in H.
  - injection H as <- <-. apply Hsame. unfold trust_load. cbn [fs_disk].
    destruct (read_file io st d) as [[f|]|e] eqn:E; [| |done]; destruct (read_floor _ _ _ _ E) as [Hfl Hwf]; destruct Hs as [A B D].
    + split; cbn; [done|by intros fl [= <-]|]. intros fl [= Hx]. by apply (Hwf f eq_refl).
    + split; cbn; [done|by intros fl [= <-]|done].
  - destruct (trust_save io io' snap st (mkFs d [])) as [[r s1] f1] eqn:E. injection H as <- <-. destruct Ha.
    destruct (save_life k _ _ _ _ _ _ _ _ Hs ltac:(done) ltac:(done) E) as [H1 H2]. by split.
  - destruct (record_agreement_seq_floor io io' io'' k' n st (mkFs d [])) as [[r s1] f1] eqn:E. injection H as <- <-.
    destruct Ha as (Hk & Hn & Hse). destruct (record_life io io' io'' k' n st d r s1 f1) as (H1 & H2 & _); try done.
    split; [done|]. intros Hg. cbn [gives_up] in Hg.
    destruct (decide (k' = k)) as [->|]; [|exfalso; tauto]. apply H2. destruct (decide (n = MAX_STATEMENT_SEQ)); [tauto|lia].
  - injection H as <- <-. apply Hsame. destruct Hs as [A B D]. split; cbn; [|done|done]. by intros x [= <-].
  - injection H as <- <-. apply Hsame. unfold agreement_seq_floor. cbn [fs_disk]. destruct (known_floor io st d) as [kr s1] eqn:E. cbn.
    by destruct (known_floor_spec _ _ _ _ _ Hs E).
Qed.

Lemma life_step_kept k o s s' :
  life_step o s s' → in_sync s.1 s.2 → in_sync s'.1 s'.2 ∧ (¬ gives_up k o → keeps_floor k s.2 s'.2).
Proof.
  intros H Hs. destruct H as [st d st' fs' Ha Hr|st d st' fs' d' sink Ha Hr Hd]; cbn [fst snd] in *;
    destruct (life_kept k _ _ _ _ _ Hs Ha Hr) as [H1 H2].
  - split; [done|]. intros Hg. apply H2 in Hg. by apply Forall_cons in Hg as [Hg _].
  - split; [by split|]. intros Hg. apply H2 in Hg. rewrite Forall_forall in Hg. by apply Hg.
Qed.

Lemma life_keeps k os s s' :
  life os s s' → in_sync s.1 s.2 → Forall (λ o, ¬ gives_up k o) os → keeps_floor k s.2 s'.2.
Proof.
  induction 1 as [s|o os s1 s2 s3 Hstep _ IH]; intros Hs Hos; [by apply keeps_floor_same|].
  apply Forall_cons in Hos as [Ho Hos]. destruct (life_step_kept k _ _ _ Hstep Hs) as [Hs2 Hk].
  intros n Hn Hm. destruct (Hk Ho n Hn Hm) as (n1 & Hn1 & Hf1). destruct (IH Hs2 Hos n1 Hf1 ltac:(lia)) as (n2 & Hn2 & Hf2).
  exists n2. split; [lia|done].
Qed.

Global Instance gives_up_dec k o : Decision (gives_up k o).
Proof. destruct o; cbn; apply _. Defined.
End Life.

(** [C23] The agreement count is never reopened: once the store has recorded that the device
    key [k] issues the statement number [n], below the maximum, then over every later sequence
    of operations of the store, for any keys, with any calls of the operating system failing,
    crashes at any step of any of them and any number of restarts, the file holds a floor of
    [k] of at least [n], unless an operation of the sequence records the floor of another key,
    which replaces it, or the maximum itself, from which the count starts again. *)
Theorem floor_never_lowered `{C : Crypto} (HC : CryptoLaws C) (HJ : JcsStrings C) (k : KeyId) (n : Z)
    (io io' io'' : Io) (st st1 : TrustStore) (fs1 : Fs) (d : Disk) (os : list store_op) (s2 : TrustStore * Disk) :
  in_sync st d → wf_key_id k → 0 ≤ n < MAX_STATEMENT_SEQ → Forall seed_ok (io_draws io'') →
  record_agreement_seq_floor io io' io'' k n st (mkFs d []) = (Ok tt, st1, fs1) →
  life os (st1, fs_disk fs1) s2 →
  (∃ n', n ≤ n' < MAX_STATEMENT_SEQ ∧ disk_floor s2.2 = Some (mkFloor k n')) ∨
  (∃ io1 io2 io3 k' n', SRecord io1 io2 io3 k' n' ∈ os ∧ (k' ≠ k ∨ n' = MAX_STATEMENT_SEQ)).
Proof.
  intros Hs Hk Hn Hse Hr Hlife.
  destruct (record_life io io' io'' k n st d _ _ _ Hs Hk ltac:(lia) Hse Hr) as (H1 & _ & H3).
  destruct (H3 eq_refl) as (m & Hm & Hlt & Hf). specialize (Hlt ltac:(lia)).
  destruct (decide (Exists (gives_up k) os)) as [Hex|Hno].
  - right. apply Exists_exists in Hex as (o & Ho & Hg). destruct o; try done. eauto 10.
  - left. apply not_Exists_Forall in Hno; [|apply _].
    destruct (life_keeps k _ _ _ Hlife H1 Hno m Hf ltac:(lia)) as (n' & Hn' & Hf'). exists n'. split; [lia|done].
Qed.

(** The floor is recorded, a lower number is recorded after it, the daemon crashes in the
    course of a load and starts again: the floor is still there. *)
Lemma floor_never_lowered_witness :
  let st := FileTrustStore_new (bs "/d") (bs "/t") false in
  let low := SRecord quiet quiet quiet sample_key_id 5 in
  ∃ st1 fs1 s2, record_agreement_seq_floor (C := sample_pair) quiet quiet quiet sample_key_id 7 st (mkFs empty_disk []) = (Ok tt, st1, fs1) ∧
  life (C := sample_pair) [low; SLoad quiet] (st1, fs_disk fs1) s2 ∧
  ∃ n', 7 ≤ n' ∧ disk_floor (C := sample_pair) s2.2 = Some (mkFloor sample_key_id n').
Proof.
  cbv zeta. set (st := FileTrustStore_new (bs "/d") (bs "/t") false). set (low := SRecord quiet quiet quiet sample_key_id 5).
  assert (is_ok (record_agreement_seq_floor (C := sample_pair) quiet quiet quiet sample_key_id 7 st (mkFs empty_disk [])).1.1 = true) as Hok
    by (vm_compute; reflexivity).
  destruct (record_agreement_seq_floor (C := sample_pair) quiet quiet quiet sample_key_id 7 st (mkFs empty_disk [])) as [[r st1] fs1] eqn:E.
  cbn [fst] in Hok. destruct r as [[]|e]; [|discriminate Hok].
  destruct (run_store (C := sample_pair) low st1 (mkFs (fs_disk fs1) [])) as [st3 fs3] eqn:E3.
  destruct (run_store (C := sample_pair) (SLoad quiet) st3 (mkFs (fs_disk fs3) [])) as [st4 fs4] eqn:E4.
  assert (Forall seed_ok (io_draws quiet)) as Hseeds
    by (apply Forall_singleton; split; [reflexivity|]; apply Forall_replicate; unfold is_u8; lia).
  assert (wf_key_id sample_key_id) as Hkey by (vm_compute; reflexivity).
  assert (asked (C := sample_pair) low) as Hlow by (split; [exact Hkey|]; split; [unfold MAX_STATEMENT_SEQ; lia|exact Hseeds]).
  set (s2 := (FileTrustStore_new (ts_directory st3) (ts_top st3) false, fs_disk fs4)).
  assert (life (C := sample_pair) [low; SLoad quiet] (st1, fs_disk fs1) s2) as Hlife.
  { eapply life_cons; [apply (life_runs (C := sample_pair) _ _ _ _ _ Hlow E3)|].
    eapply life_cons; [|apply life_nil]. apply (life_crashes (C := sample_pair) _ _ _ _ _ (fs_disk fs4) false (I : asked (C := sample_pair) (SLoad quiet)) E4). left. }
  exists st1, fs1, s2. split; [reflexivity|]. split; [exact Hlife|].
  destruct (floor_never_lowered (C := sample_pair) sample_pair_laws sample_pair_strings sample_key_id 7 quiet quiet quiet st st1 fs1 empty_disk
    [low; SLoad quiet] s2) as [(n' & Hn & Hf)|(io1 & io2 & io3 & k' & n' & Hin & Hg)].
  - split; [intros k [=]|intros fl [=]|intros fl [=]].
  - exact Hkey.
  - unfold MAX_STATEMENT_SEQ. lia.
  - exact Hseeds.
  - exact E.
  - exact Hlife.
  - exists n'. split; [lia|exact Hf].
  - exfalso. apply list_elem_of_In in Hin. destruct Hin as [Hin|[Hin|[]]]; [|discriminate Hin].
    injection Hin as _ _ _ <- <-. destruct Hg as [Hg|Hg]; [by apply Hg|discriminate Hg].
Defined.
