(* ===== verification/DurableRestart.v ===== *)
(** * The authorization engine over a store whose saves may fail

    What a pairing store promises when its writes can fail, and the engine a restart gives
    back: a failed save of an addition is taken back, so only a withdrawal that could not be
    written sets the engine and the store apart, until the next save that succeeds.  The
    trust file keeps the promise, whatever the operating system answers. *)

From S2P Require Import Prelude Ordered Base64url Ids Utf8 Json JsonFacts JsonReader JsonText.
From S2P Require Import Delivery Canonical Envelope EnvelopeFacts Keys Trust Signing Replay Receipt Reply Receiver.
From S2P Require Import SignedObject Agreement Pairing PairingFacts Registration RecordBook.
From S2P Require Import Bindings Authorization AuthorizationFacts AuthorizationSpec AuthorizationSteps AuthorizationRestart.
From S2P Require Import TrustFile AtomicFile TrustStore TrustStoreLife.

(** ** The promise *)

(** The same contents, the lists of pairings and statements in any order. *)
Record same_contents (a b : PairingSnapshot) : Prop := {
  sc_paired : sp_paired a ≡ₚ sp_paired b;
  sc_grants : sp_grants a = sp_grants b;
  sc_relay x : x ∈ sp_relay_enabled a ↔ x ∈ sp_relay_enabled b;
  sc_statements : sp_agreement_statements a ≡ₚ sp_agreement_statements b }.

Lemma describes_same `{C : Crypto} a b e : same_contents a b → describes a e → describes b e.
Proof.
  intros [Hp Hg Hr Hs] [A B D E F G]. split.
  - intros r. rewrite <- A. by rewrite Hp.
  - by rewrite <- Hp.
  - by rewrite <- Hg.
  - intros x. by rewrite <- Hr.
  - intros h. rewrite <- F. by rewrite Hs.
  - by rewrite <- Hs.
Qed.

(** In the states [I], a save that succeeds is the one loaded next, and a save that fails
    changes nothing that is loaded. *)
Class RecoverableStore `{C : Crypto} {S : Type} (store : PairingStore S) (I : S → Prop) : Prop := {
  recoverable_save snap s : I s → wf_snapshot snap →
    let '(r, s') := pst_save S store snap s in
    I s' ∧ match r with
           | Ok _ => ∃ snap', pst_load S store s' = Ok snap' ∧ same_contents snap snap'
           | Err _ => pst_load S store s' = pst_load S store s
           end }.

(** ** Values of their types *)

Section Values.
Context `{C : Crypto} {HC : CryptoLaws C}.

Record engine_wf (e : Engine) : Prop := {
  ew_trusted : keyset_inv (trusted e);
  ew_paired k r : paired e !! k = Some r → wf_record r;
  ew_grants : Forall wf_grant (grants e);
  ew_relay x : x ∈ relay e → wf_session_id x;
  ew_held k h : agreements e !! k = Some h → wf_held h }.

Lemma engine_snapshot_wf e : engine_wf e → wf_snapshot (snapshot e).
Proof.
  intros [_ A B D E]. split; cbn [snapshot sp_paired sp_grants sp_relay_enabled sp_agreement_statements].
  - apply Forall_forall. intros r Hr. apply elem_of_values in Hr as [k Hk]. eauto.
  - done.
  - apply Forall_forall. intros x Hx. apply elem_of_set_items in Hx. auto.
  - apply Forall_forall. intros h Hh. apply filter_elem in Hh as [Hh _]. apply elem_of_values in Hh as [k Hk]. eauto.
Qed.

Lemma check_statement_wf st trusted held now h :
  keyset_inv trusted → check_statement st trusted held now = Ok h → wf_held h.
Proof.
  intros Hk H. destruct (check_statement_Ok _ _ _ _ _ Hk H) as ((entry & Hv & Hid) & _ & _ & Hseq & _).
  assert (wf_key_id (hs_key_id h)) as Hkid.
  { destruct Hv as (sec & sig & o & input & _ & _ & _ & _ & He & _). destruct (Hk _ _ He) as (_ & Hpk & _). rewrite Hid, Hpk. apply key_id_parse. }
  clear Hid Hv. unfold check_statement in H. inv_binds.
  match goal with H : match ?x with _ => _ end = Ok _ |- _ => destruct x as [s|] eqn:Es; [|discriminate H] end.
  inv_binds. cbn [hs_key_id hs_seq] in *. split_and!; cbn [hs_key_id hs_agreement_key hs_seq hs_issued_at]; [done| |done|].
  - by eapply agreement_key_wf.
  - by eapply timestamp_wf.
Qed.
End Values.

(** ** Every operation *)

Section Live.
Context `{C : Crypto} {HC : CryptoLaws C} {S : Type} (store : PairingStore S) (I : S → Prop) `{!RecoverableStore store I} (own : DeviceIdentity).

(** The values an operation is given are of their types. *)
Definition op_wf (o : engine_op) : Prop :=
  match o with
  | EPair peer _ => wf_record (with_confirmed (pp_record peer) None)
  | EAddGrant g => wf_grant g
  | ESetRelay x _ => wf_session_id x
  | _ => True
  end.

(** What became of the save an operation made, by what it answered: [Some true] when it was
    written, [Some false] when it was a withdrawal that could not be; [None] when there was
    nothing to save or the change was taken back. *)
Definition outcome (es : Engine * S) (o : engine_op) : option bool :=
  let '(e, s) := es in
  match o with
  | EPair peer now => if is_ok (pair_key store peer now e s).1.1 then Some true else None
  | EAdmit st now =>
      match (admit_statement store st now e s).1.1 with
      | Ok (Some h) => if beq (hs_key_id h) (own_key e) then None else Some true
      | _ => None
      end
  | ERemoveKey k => match (remove_key store k e s).1.1 with Ok _ => Some true | Err (RK_NotSaved _) => Some false | Err _ => None end
  | EAddGrant g => match (add_grant store g e s).1.1 with Ok true => Some true | _ => None end
  | ERemoveGrant g => match (remove_grant store g e s).1.1 with Ok true => Some true | Ok false => None | Err _ => Some false end
  | ESetRelay x enabled => if is_ok (engine_set_relay store x enabled e s).1.1 then Some true else if enabled then None else Some false
  | _ => None
  end.

Record live (es : Engine * S) : Prop := {
  lv_keys : keys_inv own es.1;
  lv_wf : engine_wf es.1;
  lv_state : I es.2 }.

(** A start from [s] would load what [e] holds. *)
Definition holds (s : S) (e : Engine) : Prop := ∃ snap, pst_load S store s = Ok snap ∧ describes snap e.

(** The same but for the own statement, which is not saved. *)
Definition same_saved (e e' : Engine) : Prop :=
  own_key e' = own_key e ∧ trusted e' = trusted e ∧ paired e' = paired e ∧ grants e' = grants e ∧ relay e' = relay e ∧
  ∀ k, k ≠ own_key e → agreements e' !! k = agreements e !! k.

(** What [e'] has of keys, pairings, grants, settings and peers' statements, [e] has too. *)
Record within (e' e : Engine) : Prop := {
  wi_own : own_key e' = own_key e;
  wi_trusted : ts_entries (trusted e') ⊆ ts_entries (trusted e);
  wi_paired : paired e' ⊆ paired e;
  wi_grants : grants e' `sublist_of` grants e;
  wi_relay : relay e' ⊆ relay e;
  wi_agreements k h : k ≠ own_key e → agreements e' !! k = Some h → agreements e !! k = Some h }.

Definition follows (es : Engine * S) (out : option bool) (es' : Engine * S) : Prop :=
  live es' ∧
  match out with
  | Some true => holds es'.2 es'.1 ∧ own_key es'.1 = own_key es.1
  | Some false => pst_load S store es'.2 = pst_load S store es.2 ∧ within es'.1 es.1
  | None => pst_load S store es'.2 = pst_load S store es.2 ∧ same_saved es.1 es'.1
  end.

#[export] Instance within_preorder : PreOrder within.
Proof.
  split.
  - intros e. by split.
  - intros a b c [A1 A2 A3 A4 A5 A6] [B1 B2 B3 B4 B5 B6]. split; [congruence|by etrans..|].
    intros k h Hk H. apply B6; [done|]. apply A6; [by rewrite B1|done].
Qed.

Lemma same_within e e' : same_saved e e' → within e' e.
Proof. intros (A & B & D & E & F & G). split; rewrite ?A, ?B, ?D, ?E, ?F; try done. intros k h Hk. by rewrite G. Qed.

Lemma same_keys_saved e e' : same_keys e e' → same_saved e e'.
Proof. intros (A & B & D & E & F & G). unfold same_saved. rewrite A, B, D, E, F, G. done. Qed.

Lemma stored e s r s' :
  keys_inv own e → engine_wf e → I s → save store e s = (r, s') →
  I s' ∧ match r with Ok _ => holds s' e | Err _ => pst_load S store s' = pst_load S store s end.
Proof.
  intros Hk He Hs H. unfold save in H. pose proof (recoverable_save (snapshot e) s Hs (engine_snapshot_wf e He)) as Hr. rewrite H in Hr.
  destruct Hr as [H1 H2]. split; [done|]. destruct r as [[]|]; [|done]. destruct H2 as (snap & Hl & Hc). exists snap. split; [done|].
  eapply describes_same; [exact Hc|]. by eapply snapshot_describes.
Qed.

Lemma same_wf e e' : same_keys e e' → engine_wf e → engine_wf e'.
Proof. intros (H1 & H2 & H3 & H4 & H5 & H6) [A B D E F]. split; by rewrite ?H2, ?H3, ?H4, ?H5, ?H6. Qed.

Lemma live_same e e' s : same_keys e e' → live (e, s) → live (e', s).
Proof. intros Hs [A B D]. split; [by eapply same_keys_inv|by eapply same_wf|done]. Qed.

Lemma holds_same e e' s : same_saved e e' → holds s e → holds s e'.
Proof. intros (A & B & D & E & F & G) (snap & H1 & H2). exists snap. split; [done|]. by apply (describes_frame snap e). Qed.

Lemma follows_same e e' s out : same_keys e e' → live (e, s) → out = None → follows (e, s) out (e', s).
Proof. intros Hs Hl ->. split; [by eapply live_same|]. split; [done|by apply same_keys_saved]. Qed.

(** An addition: saved, or taken back. *)
Lemma follows_added e e' s r s' e1 e2 :
  live (e, s) → keys_inv own e' → engine_wf e' → save store e' s = (r, s') → same_keys e' e1 → same_keys e e2 →
  follows (e, s) (if is_ok r then Some true else None) (if is_ok r then e1 else e2, s').
Proof.
  intros [A B D] Hk Hw Hs H1 H2. cbn [fst snd] in *. destruct (stored _ _ _ _ Hk Hw D Hs) as [Hi Hr]. destruct r as [[]|x]; cbn [is_ok].
  - split; [|split; [by apply (holds_same e'), Hr; apply same_keys_saved|]].
    + split; [by eapply same_keys_inv|by eapply same_wf|done].
    + cbn. destruct H1 as [-> _], Hk as [[-> _] _ _ _ _], A as [[-> _] _ _ _ _]. done.
  - split; [|split; [done|by apply same_keys_saved]]. split; [by eapply same_keys_inv|by eapply same_wf|done].
Qed.

(** A withdrawal stays, whether or not it was saved. *)
Lemma follows_withdrawn e e' s r s' :
  live (e, s) → keys_inv own e' → engine_wf e' → within e' e → save store e' s = (r, s') → follows (e, s) (Some (is_ok r)) (e', s').
Proof.
  intros [A B D] Hk Hw Hin Hs. cbn [fst snd] in *. destruct (stored _ _ _ _ Hk Hw D Hs) as [Hi Hr].
  split; [by split|]. destruct r as [[]|]; (split; [done|]); [apply Hin|done].
Qed.

Lemma pair_follows peer now e s :
  live (e, s) → wf_record (with_confirmed (pp_record peer) None) →
  follows (e, s) (outcome (e, s) (EPair peer now)) (run_engine store (e, s) (EPair peer now)).
Proof.
  intros Hl (W1 & W2 & W3 & _). pose proof Hl as [He Hw Hst]. cbn [fst snd] in He, Hw, Hst. cbn [outcome run_engine]. unfold pair_key.
  destruct (add_paired_key _ _ _) as [[t0|] t] eqn:Ea; [|by apply follows_same].
  assert (ts_entries (trusted e) !! record_key_id (pp_record peer) = None ∧ t0 = entry_of (pp_record peer) ∧
    t = (add_paired_key (pr_principal (pp_record peer)) (pr_public_key (pp_record peer)) (trusted e)).2) as (Hnew & -> & Ht).
  { rewrite Ea. unfold add_paired_key in Ea. cbn [TrustedKey_new tk_key_id] in Ea. unfold record_key_id.
    destruct (ts_entries (trusted e) !! _); [done|]. by injection Ea as <- <-. }
  assert (keyset_inv t) as Hkt.
  { rewrite Ht. apply (run_op_inv (OpAdd _ _)); [exact W1|apply Hw]. }
  set (admitted := x ← pp_statement peer; _).
  assert (∀ h, admitted = Some h → hs_key_id h = record_key_id (pp_record peer) ∧ wf_held h) as Hadm.
  { intros h. subst admitted. destruct (pp_statement peer) as [x|]; [|done]. cbn [mbind option_bind].
    destruct (check_statement _ _ _ _) as [h'|] eqn:Ec; [|done]. cbn [ok opt_filter]. destruct (beq _ _) eqn:E; [|done].
    intros [= <-]. split; [by apply beq_true in E|by eapply check_statement_wf]. }
  pose proof (add_pair_keys own e t (pp_record peer) _ admitted He Ea eq_refl (λ h Hh, proj1 (Hadm h Hh))) as Hk.
  set (k := record_key_id (pp_record peer)) in *. set (e' := set_keys _ _ _ e) in *.
  assert (engine_wf e') as Hw'.
  { destruct Hw as [A B D E F]. split; [done| |done|done|].
    - intros k' r Hr. cbn in Hr. apply lookup_insert_Some in Hr as [[<- <-]|[_ Hr]]; [|eauto]. split_and!; try done.
      intros c Hc. cbn in Hc. destruct admitted as [h|]; [|done]. injection Hc as <-. destruct (Hadm h eq_refl) as [_ (_ & H1 & H2 & H3)]. done.
    - intros k' h Hh. cbn in Hh. destruct admitted as [h'|]; [|eauto]. apply lookup_insert_Some in Hh as [[<- <-]|[_ Hh]]; [|eauto].
      by apply (Hadm h'). }
  destruct (untrusted_absent own e k He Hnew) as (Hp & Hg & _).
  assert (same_keys e (set_keys (keyset_remove k (trusted e')).2 (delete k (paired e')) (delete k (agreements e')) e')) as Hback.
  { unfold same_keys, e'. cbn. split_and!; try done.
    - rewrite Ht. unfold add_paired_key. cbn [TrustedKey_new tk_key_id]. fold (record_key_id (pp_record peer)) k. rewrite Hnew. unfold keyset_remove. cbn.
      destruct (trusted e) as [m]. cbn in *. f_equal. by apply delete_insert_id.
    - by rewrite delete_insert_id.
    - destruct admitted; [by rewrite delete_insert_id|by rewrite delete_id]. }
  destruct (save store e' s) as [r s'] eqn:Es.
  pose proof (follows_added e e' s r s' (change (Ch_Paired k (is_some admitted)) e') _ Hl Hk Hw' Es ltac:(done) Hback) as H.
  by destruct r as [[]|].
Qed.

Lemma admit_own_follows st now e s : live (e, s) → follows (e, s) None ((admit_own_statement st now e).2, s).
Proof.
  intros Hl. pose proof Hl as [He Hw Hst]. cbn [fst snd] in He, Hw, Hst. unfold admit_own_statement.
  destruct (check_statement _ _ _ _) as [h|] eqn:Ec; [|by apply follows_same].
  destruct (negb (beq (hs_key_id h) (own_key e))) eqn:Ek; [by apply follows_same|]. apply negb_false_iff, beq_true in Ek.
  assert (follows (e, s) None (set_keys (trusted e) (paired e) (<[ own_key e := h ]> (agreements e)) (change (Ch_OwnStatement (hs_seq h)) e), s)) as Hadd.
  { split.
    - split; [| |done]; cbn [fst].
      + rewrite <- Ek. apply (same_keys_inv own (set_keys (trusted e) (paired e) (<[ hs_key_id h := h ]> (agreements e)) e)); [done|].
        apply set_statement_keys; [done|by left].
      + destruct Hw as [A B D E F]. split; try done. intros k' x Hx. cbn in Hx. apply lookup_insert_Some in Hx as [[<- <-]|[_ Hx]]; [|eauto].
        by eapply check_statement_wf.
    - split; [done|]. split_and!; try done. intros k' Hk'. cbn in *. by rewrite lookup_insert_ne. }
  destruct (agreements e !! own_key e) as [h'|]; [|done]. case_bool_decide; [by apply follows_same|].
  destruct (_ <=? _); [by apply follows_same|done].
Qed.

Lemma admit_own_answer st now e h : (admit_own_statement st now e).1 = Ok (Some h) → hs_key_id h = own_key e.
Proof.
  unfold admit_own_statement. destruct (check_statement _ _ _ _) as [h'|]; [|done].
  destruct (negb (beq (hs_key_id h') (own_key e))) eqn:Ek; [done|]. apply negb_false_iff, beq_true in Ek.
  destruct (agreements e !! own_key e) as [x|]; [case_bool_decide; [cbn; congruence|]; destruct (_ <=? _); [done|]|]; cbn; congruence.
Qed.

Lemma admit_follows st now e s :
  live (e, s) → follows (e, s) (outcome (e, s) (EAdmit st now)) (run_engine store (e, s) (EAdmit st now)).
Proof.
  intros Hl. pose proof Hl as [He Hw Hst]. cbn [fst snd] in He, Hw, Hst. cbn [outcome run_engine]. unfold admit_statement.
  destruct (check_statement _ _ _ _) as [h|] eqn:Ec; [|by apply follows_same]. destruct (beq (hs_key_id h) (own_key e)) eqn:Eo.
  { pose proof (admit_own_follows st now e s Hl) as H. pose proof (admit_own_answer st now e) as Ha.
    destruct (admit_own_statement st now e) as [[[x|]|] e']; cbn [fst snd] in *; try done. by rewrite (Ha x eq_refl), beq_refl. }
  destruct (check_confirmed h _) as [[]|] eqn:Ecc; [|by apply follows_same].
  assert (keys_inv own (set_keys (trusted e) (paired e) (<[ hs_key_id h := h ]> (agreements e)) e)) as Hk.
  { apply set_statement_keys; [done|]. right. destruct (paired e !! hs_key_id h) as [r|]; [eauto|done]. }
  set (e' := set_keys _ _ _ e) in *.
  assert (engine_wf e') as Hw'.
  { pose proof (ew_trusted _ Hw) as Ht. destruct Hw as [A B D E F]. split; try done. intros k' x Hx. cbn in Hx.
    apply lookup_insert_Some in Hx as [[<- <-]|[_ Hx]]; [|eauto]. by eapply check_statement_wf. }
  destruct (save store e' s) as [r s'] eqn:Es.
  assert (same_keys e (set_keys (trusted e') (paired e') (match agreements e !! hs_key_id h with
    | Some p => <[ hs_key_id h := p ]> (agreements e') | None => delete (hs_key_id h) (agreements e') end) e')) as Hback.
  { unfold same_keys, e'. cbn. split_and!; try done. destruct (agreements e !! hs_key_id h) eqn:E.
    - by rewrite insert_insert_eq, insert_id.
    - by rewrite delete_insert_id. }
  pose proof (follows_added e e' s r s' (change (Ch_Admitted (hs_seq h) (hs_key_id h)) e') _ Hl Hk Hw' Es ltac:(done) Hback) as H.
  destruct r as [[]|]; cbn [is_ok fst] in *; [by rewrite Eo|done].
Qed.

Lemma remove_key_follows k e s :
  engine_inv e → live (e, s) → follows (e, s) (outcome (e, s) (ERemoveKey k)) (run_engine store (e, s) (ERemoveKey k)).
Proof.
  intros Hinv Hl. pose proof Hl as [He Hw Hst]. cbn [fst snd] in He, Hw, Hst. cbn [outcome run_engine].
  destruct (remove_key store k e s) as [[r e'] s'] eqn:E. cbn [fst]. pose proof (remove_key_purged store e s k r e' s' Hinv E) as H.
  assert (k = own_key e → r = Err RK_OwnKey) as Hown.
  { intros ->. unfold remove_key in E. rewrite beq_refl in E. by injection E. }
  assert (names_nowhere k e' → keeps_others k e e' → k ≠ own_key e → keys_inv own e' ∧ engine_wf e' ∧ within e' e) as Hkeys.
  { intros Hn Hk Hne.
    assert (ts_entries (trusted e') = delete k (ts_entries (trusted e))) as Ht.
    { apply map_eq. intros k'. destruct (decide (k' = k)) as [->|Hkk].
      - rewrite lookup_delete_eq. apply Hn.
      - rewrite lookup_delete_ne by done. by apply Hk. }
    split_and!.
    - apply (removed_keys own e e' k He Hne); try apply Hk; [done|].
      rewrite (ko_grants _ _ _ Hk). eapply sublist_NoDup; [apply He|]. apply filter_sublist.
    - destruct Hw as [A B D X F]. split.
      + unfold keyset_inv. rewrite Ht. by apply map_Forall_delete.
      + rewrite (ko_paired _ _ _ Hk). intros k' x [_ Hx]%lookup_delete_Some. eauto.
      + rewrite (ko_grants _ _ _ Hk). apply Forall_forall. intros g Hg. apply filter_elem in Hg as [Hg _]. rewrite Forall_forall in D. auto.
      + by rewrite (ko_relay _ _ _ Hk).
      + rewrite (ko_agreements _ _ _ Hk). intros k' x [_ Hx]%lookup_delete_Some. eauto.
    - destruct Hk. split; [done|rewrite Ht; apply delete_subseteq|rewrite ko_paired; apply delete_subseteq| |by rewrite ko_relay|].
      + rewrite ko_grants. apply filter_sublist.
      + intros k' x _. rewrite ko_agreements. by intros [_ Hx]%lookup_delete_Some. }
  destruct r as [rem|[| |err]].
  - destruct H as (Hn & Hk & Hsave & _). destruct Hkeys as (K1 & K2 & K3); [done|done|naive_solver|].
    exact (follows_withdrawn e e' s _ s' Hl K1 K2 K3 Hsave).
  - destruct H as (_ & -> & ->). by apply follows_same.
  - destruct H as (_ & _ & -> & ->). by apply follows_same.
  - destruct H as (Hn & Hk & Hsave). destruct Hkeys as (K1 & K2 & K3); [done|done|naive_solver|].
    exact (follows_withdrawn e e' s _ s' Hl K1 K2 K3 Hsave).
Qed.
Lemma add_grant_follows g e s :
  live (e, s) → wf_grant g → follows (e, s) (outcome (e, s) (EAddGrant g)) (run_engine store (e, s) (EAddGrant g)).
Proof.
  intros Hl Hg. pose proof Hl as [He Hw Hst]. cbn [fst snd] in He, Hw, Hst. cbn [outcome run_engine]. unfold add_grant.
  case_bool_decide as Hin; [by apply follows_same|]. set (e' := set_grants _ e).
  assert (keys_inv own e') as Hk.
  { apply set_grants_keys; [done|]. apply NoDup_app. split_and!; [apply He| |apply NoDup_singleton].
    intros x Hx Hx'. apply list_elem_of_singleton in Hx'. congruence. }
  assert (engine_wf e') as Hw'.
  { destruct Hw as [A B D E F]. split; try done. cbn. apply Forall_app. split; [done|by apply Forall_singleton]. }
  assert (same_keys e (set_grants (removelast (grants e')) e')) as Hback.
  { unfold same_keys, e'. cbn. split_and!; try done. apply removelast_last. }
  destruct (save store e' s) as [r s'] eqn:Es.
  pose proof (follows_added e e' s r s' (change (Ch_AddedGrant (List.last (map Some (grants e')) None)) e') _ Hl Hk Hw' Es ltac:(done) Hback) as H.
  by destruct r as [[]|].
Qed.

Lemma remove_grant_follows g e s : live (e, s) → follows (e, s) (outcome (e, s) (ERemoveGrant g)) (run_engine store (e, s) (ERemoveGrant g)).
Proof.
  intros Hl. pose proof Hl as [He Hw Hst]. cbn [fst snd] in He, Hw, Hst. cbn [outcome run_engine]. unfold remove_grant. set (e' := set_grants _ e).
  assert (keys_inv own e') as Hk by (apply set_grants_keys; [done|]; eapply sublist_NoDup; [apply He|apply filter_sublist]).
  assert (engine_wf e') as Hw'.
  { destruct Hw as [A B D E F]. split; try done. cbn. apply Forall_forall. intros x Hx. apply filter_elem in Hx as [Hx _]. rewrite Forall_forall in D. auto. }
  case_bool_decide as Hlen.
  { apply follows_same; [|done|done]. unfold same_keys, e'. cbn. split_and!; try done. by apply filter_same_length. }
  destruct (save store (change (Ch_RemovedGrant g) e') s) as [r s'] eqn:Es.
  pose proof (follows_withdrawn e (change (Ch_RemovedGrant g) e') s r s' Hl) as H. cbv zeta.
  assert (follows (e, s) (Some (is_ok r)) (change (Ch_RemovedGrant g) e', s')) as H'
    by (apply H; [by apply (same_keys_inv own e')|by apply (same_wf e')|split; try done; apply filter_sublist|done]).
  by destruct r as [[]|].
Qed.

Lemma set_relay_follows x enabled e s :
  live (e, s) → wf_session_id x → follows (e, s) (outcome (e, s) (ESetRelay x enabled)) (run_engine store (e, s) (ESetRelay x enabled)).
Proof.
  intros Hl Hx. pose proof Hl as [He Hw Hst]. cbn [fst snd] in He, Hw, Hst. cbn [outcome run_engine]. unfold engine_set_relay.
  destruct enabled; set (e' := set_relay _ e); assert (keys_inv own e') as Hk by (by destruct He).
  - assert (engine_wf e') as Hw' by (destruct Hw as [A B D E F]; split; try done; cbn; set_solver).
    assert (same_keys e (if negb (bool_decide (x ∈ relay e)) then set_relay (relay e' ∖ {[ x ]}) e' else e')) as Hback.
    { unfold same_keys, e'. case_bool_decide as Hin; cbn; split_and!; try done; set_solver. }
    destruct (save store e' s) as [r s'] eqn:Es.
    pose proof (follows_added e e' s r s' (change (Ch_Relay x true) e') _ Hl Hk Hw' Es ltac:(done) Hback) as H. by destruct r as [[]|].
  - assert (engine_wf e') as Hw' by (destruct Hw as [A B D E F]; split; try done; cbn; set_solver).
    destruct (save store e' s) as [r s'] eqn:Es. destruct (follows_withdrawn e e' s r s' Hl Hk Hw') as [H1 H2]; [split; try done; cbn; set_solver|done|].
    destruct r as [[]|]; cbn [fst is_ok] in *; [|by split]. destruct H2 as [H2 H3].
    split; [by apply (live_same e')|]. split; [|done]. by apply (holds_same e').
Qed.

Lemma run_engine_follows es o :
  engine_inv es.1 → live es → op_wf o → follows es (outcome es o) (run_engine store es o).
Proof.
  destruct es as [e s]. cbn [fst]. intros Hi Hl Ho. destruct (table_ops_same e) as (T1 & T2 & T3 & T4 & T5).
  destruct o; cbn [op_wf] in Ho; try (by apply follows_same).
  - by apply pair_follows.
  - by apply admit_follows.
  - by apply admit_own_follows.
  - by apply remove_key_follows.
  - by apply add_grant_follows.
  - by apply remove_grant_follows.
  - by apply set_relay_follows.
  - apply follows_same; [apply record_handoff_same|done|done].
  - apply follows_same; [apply forget_handoff_same|done|done].
  - apply follows_same; [apply authorize_same|done|done].
Qed.

(** The engine as it was when a save was last written, [saved] before the operations. *)
Fixpoint last_saved (saved : Engine) (es : Engine * S) (ops : list engine_op) : Engine :=
  match ops with
  | [] => saved
  | o :: ops =>
      let es' := run_engine store es o in
      last_saved (match outcome es o with Some true => es'.1 | _ => saved end) es' ops
  end.

(** Whether a withdrawal is still unsaved after the operations. *)
Fixpoint unsaved (pending : bool) (es : Engine * S) (ops : list engine_op) : bool :=
  match ops with
  | [] => pending
  | o :: ops =>
      unsaved (match outcome es o with Some written => negb written | None => pending end) (run_engine store es o) ops
  end.

(** The store holds [saved], the running engine no more than that, and no less unless a
    withdrawal is [pending]. *)
Record tracks (saved : Engine) (pending : bool) (es : Engine * S) : Prop := {
  tr_keys : keys_inv own saved;
  tr_holds : holds es.2 saved;
  tr_within : within es.1 saved;
  tr_same : pending = false → same_saved saved es.1 }.

Lemma tracks_step saved pending es out es' :
  tracks saved pending es → follows es out es' →
  tracks (match out with Some true => es'.1 | _ => saved end) (match out with Some written => negb written | None => pending end) es'.
Proof.
  intros [K H W P] [L F]. destruct out as [[]|].
  - split; [apply L|apply F|reflexivity|intros _; by unfold same_saved; split_and!].
  - destruct F as [Hl Hw]. split; [done| |by etrans|done]. unfold holds. by rewrite Hl.
  - destruct F as [Hl Hs]. split; [done| | |].
    + unfold holds. by rewrite Hl.
    + etrans; [by apply same_within|done].
    + intros Hp. destruct (P Hp) as (A & B & D & E & F & G), Hs as (A' & B' & D' & E' & F' & G').
      split_and!; try congruence. intros k Hk. rewrite G' by congruence. by apply G.
Qed.

Lemma run_all_tracks ops : ∀ saved pending es,
  engine_inv es.1 → live es → tracks saved pending es → Forall op_wf ops →
  tracks (last_saved saved es ops) (unsaved pending es ops) (foldl (run_engine store) es ops).
Proof.
  induction ops as [|o ops IH]; intros saved pending es Hi Hl Hc Ho; cbn [foldl unsaved last_saved]; [done|]. apply Forall_cons in Ho as [Ho1 Ho2].
  pose proof (run_engine_follows es o Hi Hl Ho1) as H. apply IH; [by apply run_engine_inv|by apply H| |done].
  by apply (tracks_step saved pending es).
Qed.
End Live.

(** [e'] is [e] started anew: all but the own statement. *)
Record restored (e e' : Engine) : Prop := {
  re_own : own_key e' = own_key e;
  re_trusted : trusted e' = trusted e;
  re_paired : paired e' = paired e;
  re_grants : grants e' = grants e;
  re_relay : relay e' = relay e;
  re_agreements : agreements e' = delete (own_key e) (agreements e) }.

(** [C6] A restart over a store whose saves fail gives back the last state that was written.
    After any operations, each save of which was written or failed, a restart (whose own load
    succeeds) gives an engine with exactly the trusted keys, pairings, grants, relay settings
    and peers' statements of the engine as it was when a save was last written.  Nothing the
    running engine holds is missing from it: a failed pairing, grant, relay setting or
    statement is taken back in memory.  And it is the running engine's state unless the last
    withdrawal (of a key, a grant or a relay setting) could not be written and no save was
    written since. *)
Theorem restart_over_failing_store `{C : Crypto} (HC : CryptoLaws C) {S : Type} (store : PairingStore S) (I : S → Prop)
    (HS : RecoverableStore store I) (own : DeviceIdentity) (s : S) (ops : list engine_op) :
  identity_ok own → I s → pst_load S store s = Ok PairingSnapshot_default → Forall op_wf ops →
  let start := (Engine_new own, s) in
  let '(e, s') := run_engine_all store own s ops in
  ∃ e', restore store own s' = Ok e' ∧ restored (last_saved store (Engine_new own) start ops) e' ∧ within e e' ∧
    (unsaved store false start ops = false → restored e e').
Proof.
  intros Hown Hi Hl Ho. unfold run_engine_all.
  assert (live I own (Engine_new own, s)) as Hlive.
  { split; [apply new_keys| |done]. split; cbn; [by apply keyset_new_inv| |constructor| |].
    - intros k r. by rewrite lookup_empty.
    - intros x. set_solver.
    - intros k h. by rewrite lookup_empty. }
  assert (tracks store own (Engine_new own) false (Engine_new own, s)) as Htr.
  { split; [apply new_keys| |reflexivity|intros _; by unfold same_saved; split_and!]. exists PairingSnapshot_default. split; [done|].
    exact (snapshot_describes own (Engine_new own) (new_keys own)). }
  destruct (run_all_tracks store I own ops _ _ (Engine_new own, s) (new_inv own) Hlive Htr Ho) as [K (snap & Hs & Hd) W P].
  destruct (foldl _ _ _) as [e s']. cbn [fst snd] in *. set (saved := last_saved _ _ _ _) in *.
  destruct (restore_described store own saved s' snap K Hs Hd) as (e' & Hr & A & B & D & E & F & G).
  exists e'. split; [done|]. split; [by split|]. split.
  - destruct W as [W1 W2 W3 W4 W5 W6]. split; rewrite ?A, ?B, ?D, ?E, ?F, ?G; try done. intros k h Hk Hx. rewrite lookup_delete_ne by done. auto.
  - intros Hp. destruct (P Hp) as (A' & B' & D' & E' & F' & G'). split; try congruence.
    rewrite G, A'. apply map_eq. intros k. destruct (decide (k = own_key saved)) as [->|Hk]; [by rewrite !lookup_delete_eq|].
    rewrite !lookup_delete_ne by done. symmetry. auto.
Qed.

(** ** The trust file as the engine's store *)

Section FileStore.
Context `{C : Crypto} {HC : CryptoLaws C} {HJ : JcsStrings C}.

(** The store, the disk, and what the operating system will answer to the saves to come; when
    nothing is left of it, no call fails.  A load is that of a start with no call failing. *)
Definition file_state : Type := TrustStore * Fs * list (Io * Io).

Definition file_load (s : file_state) : result PairingStoreError PairingSnapshot :=
  (trust_load quiet s.1.1 (fs_disk s.1.2)).1.

Definition file_save (snapshot : PairingSnapshot) (s : file_state) : result PairingStoreError unit * file_state :=
  let '(st, fs, ios) := s in
  let '(io, io', ios) := match ios with (io, io') :: ios => (io, io', ios) | [] => (quiet, quiet, []) end in
  let '(r, st, fs) := trust_save io io' snapshot st fs in
  (r, (st, fs, ios)).

Definition FileStore : PairingStore file_state := mkPairingStore _ file_load file_save.

(** The file is missing, or one the store wrote in a private directory. *)
Definition readable (st : TrustStore) (d : Disk) : Prop :=
  trust_target d = None ∨
  ∃ o f m, trust_target d = Some (private_file, o) ∧ Z.of_nat (length o) ≤ MAX_TRUST_FILE_BYTES ∧
    dk_dirs d !! ts_directory st = Some m ∧ meta_private m = true ∧ trust_decode o = Ok f.

Definition file_inv (s : file_state) : Prop :=
  in_sync s.1.1 (fs_disk s.1.2) ∧ readable s.1.1 (fs_disk s.1.2) ∧ Forall (λ x, Forall seed_ok (io_draws x.2)) s.2.

Definition disk_snapshot (d : Disk) : option PairingSnapshot :=
  match trust_target d with
  | Some (_, o) => tf_snapshot <$> ok (trust_decode o)
  | None => Some PairingSnapshot_default
  end.

Lemma load_readable st d : readable st d → ok (trust_load quiet st d).1 = disk_snapshot d ∧ is_ok (trust_load quiet st d).1 = true.
Proof.
  unfold trust_load, disk_snapshot. intros [Ht|(o & f & m & Ht & Hl & Hd & Hm & Hf)].
  - assert (read_file quiet st d = Ok None) as ->.
    { unfold read_file, check_private, existing_file_is_private. unfold target in Ht. by rewrite Ht. }
    by rewrite Ht.
  - rewrite (read_quiet st d o f m) by done. by rewrite Ht, Hf.
Qed.

Lemma load_same st d st' d' : readable st d → readable st' d' → trust_target d' = trust_target d → (trust_load quiet st' d').1 = (trust_load quiet st d).1.
Proof.
  intros H1 H2 Ht. destruct (load_readable st d H1) as [E1 O1], (load_readable st' d' H2) as [E2 O2].
  unfold disk_snapshot in *. rewrite Ht in E2. rewrite <- E1 in E2.
  destruct (trust_load quiet st d).1, (trust_load quiet st' d').1; cbn in *; congruence.
Qed.

Lemma readable_untouched st st' d d' : ts_directory st' = ts_directory st → untouched TRUST_FILE_NAME d d' → readable st d → readable st' d'.
Proof.
  intros Hst Hu [Ht|(o & f & m & Ht & Hl & Hd & Hm & Hf)].
  - left. by rewrite (untouched_target TRUST_FILE_NAME d d').
  - right. exists o, f, m. rewrite (untouched_target TRUST_FILE_NAME d d') by done. rewrite Hst. split_and!; try done. by apply Hu.
Qed.

Lemma ordered_same_contents snap : same_contents snap (ordered snap).
Proof.
  split; cbn; [by rewrite sort_by_key_perm|done| |by rewrite sort_by_key_perm].
  intros x. rewrite elem_of_dedup. unfold sort. by rewrite sort_by_key_perm.
Qed.

#[export] Instance file_store_recoverable : RecoverableStore FileStore file_inv.
Proof.
  split. intros snap [[st fs] ios] (Hs & Hr & Hios) Hw. cbn [fst snd] in *. cbn [FileStore pst_save pst_load]. unfold file_save.
  set (pick := match ios with (io, io') :: ios => (io, io', ios) | [] => (quiet, quiet, []) end).
  assert (Forall seed_ok (io_draws pick.1.2) ∧ Forall (λ x, Forall seed_ok (io_draws x.2)) pick.2) as [Hseed Hrest].
  { unfold pick. destruct ios as [|[a b] ios]; [|by apply Forall_cons in Hios]. split; [|constructor]. apply Forall_singleton.
    split; [done|]. apply Forall_replicate. unfold is_u8. lia. }
  destruct pick as [[io io'] rest]. cbn [fst snd] in *. destruct (trust_save io io' snap st fs) as [[r st'] fs'] eqn:E.
  unfold trust_save in E. destruct (known_floor io st (fs_disk fs)) as [kr st1] eqn:Ek.
  destruct (known_floor_spec _ _ _ _ _ Hs Ek) as (Hs1 & Hdir & _ & _ & Hfl). unfold file_inv, file_load. cbn [fst snd].
  destruct kr as [fl|e].
  2: { injection E as <- <- <-. assert (readable st1 (fs_disk fs)) as Hr1 by (by eapply readable_untouched). split; [done|]. by apply load_same. }
  destruct (Hfl fl eq_refl) as (Hd & Hfs & Hx).
  assert (wf_file (mkTrustFile (ts_device_key_id st1) snap fl)) as Hf by (split; [apply Hs1|done|done]).
  destruct (write_floor _ _ _ _ _ _ _ Hf Hseed E) as (Hst & _ & Hd').
  assert (ts_directory st' = ts_directory st) as Hdir' by (rewrite <- Hdir; by destruct Hst as [->| ->]).
  assert (in_sync st' (fs_disk fs')) as Hs'.
  { apply (in_sync_same st' (fs_disk fs)); [rewrite Hd'; by destruct (is_ok r)|]. destruct Hst as [->| ->]; [done|by apply sync_counted]. }
  pose proof E as E'. apply write_file_spec in E'; [|done]. destruct r as [[]|e].
  - destruct E' as (text & fs1 & He & Hl & _ & _ & Ht & _ & (m & Hm & Hpm) & _). pose proof (file_read _ _ Hf He) as Hdec.
    assert (readable st' (fs_disk fs')) as Hr'.
    { right. exists text, (ordered_file (mkTrustFile (ts_device_key_id st1) snap fl)), m. rewrite Hdir', <- Hdir. done. }
    split; [done|]. exists (ordered snap). split; [|apply ordered_same_contents].
    destruct (load_readable _ _ Hr') as [E1 E2]. unfold disk_snapshot in E1. rewrite Ht, Hdec in E1. cbn in E1.
    destruct (trust_load quiet st' (fs_disk fs')).1; [|done]. cbn in E1. by injection E1 as ->.
  - destruct E' as [[Hu _] ->]. assert (readable st1 (fs_disk fs')) as Hr1 by (by eapply readable_untouched).
    split; [done|]. apply load_same; [done|done|]. by apply untouched_target.
Qed.
End FileStore.

(** The withdrawal of a grant meets a rename that fails: a restart has the grant still. *)
Definition rename_fails : Io :=
  mkIo false false false false false (λ _, false) false (λ _, false) [replicate 32 0] (λ _, false) false None false true false false.
Definition sample_file_state : file_state :=
  (FileTrustStore_new (bs "/d") (bs "/t") true, mkFs empty_disk [], [(quiet, quiet); (quiet, rename_fails)]).
Definition sample_file_grant : Grant := Inbound (peer_device sample_key_id) LS_Device.
Definition sample_file_ops : list engine_op := [EAddGrant sample_file_grant; ERemoveGrant sample_file_grant].

Lemma restart_over_failing_store_witness :
  let own := sample_device "alice" 1 in
  let '(e, s') := run_engine_all (C := sample_pair) (FileStore (C := sample_pair)) own sample_file_state sample_file_ops in
  grants e = [] ∧ ∃ e', restore (C := sample_pair) (FileStore (C := sample_pair)) own s' = Ok e' ∧ grants e' = [sample_file_grant].
Proof.
  cbv zeta.
  pose proof (restart_over_failing_store (C := sample_pair) sample_pair_laws (FileStore (C := sample_pair)) (file_inv (C := sample_pair))
    (file_store_recoverable (C := sample_pair) (HC := sample_pair_laws) (HJ := sample_pair_strings)) (sample_device "alice" 1) sample_file_state sample_file_ops) as H.
  assert (grants (last_saved (C := sample_pair) (FileStore (C := sample_pair)) (Engine_new (sample_device "alice" 1))
    (Engine_new (sample_device "alice" 1), sample_file_state) sample_file_ops) = [sample_file_grant]) as Hg by (vm_compute; reflexivity).
  assert (grants (run_engine_all (C := sample_pair) (FileStore (C := sample_pair)) (sample_device "alice" 1) sample_file_state sample_file_ops).1 = []) as He
    by (vm_compute; reflexivity).
  destruct (run_engine_all _ _ _ _) as [e s'] eqn:E.
  destruct H as (e' & H1 & H2 & _).
  - split; reflexivity.
  - split_and!.
    + split; [intros k [=]|intros fl [=]|intros fl [=]].
    + left. reflexivity.
    + apply Forall_forall. intros x [->|[->| []%elem_of_nil]%elem_of_cons]%elem_of_cons;
        (apply Forall_singleton; split; [reflexivity|]; apply Forall_replicate; unfold is_u8; lia).
  - reflexivity.
  - apply Forall_cons. split; [|apply Forall_singleton; done].
    split; [split; [vm_compute; reflexivity|done]|done].
  - split; [exact He|]. exists e'. split; [exact H1|]. rewrite (re_grants _ _ H2). exact Hg.
Defined.
