(* ===== verification/WebSocket.v ===== *)
(** * The WebSocket client ([adapters/codex/src/ws.rs])

    The upgrade of a connected stream, masked client frames, and the reader that assembles
    text messages and answers pings and closes.  A stream to read from is the octets that will
    come and how it ends; a stream to write to keeps what was written and may break.  The
    random seed of the process's hasher is a parameter: what a draw gives depends on it and on
    a counter. *)

From S2P Require Import Prelude Base64url Ids Utf8 Json.

Definition MAX_MESSAGE : Z := 16 * 1024 * 1024.
Definition MAX_HEAD : Z := 16 * 1024.
Definition ACCEPT_GUID : list Z := bs "258EAFA5-E914-47DA-95CA-C5AB0DC85B11".

Inductive WsError : Type :=
| WS_Io (e : string) | WS_Handshake (e : string) | WS_Protocol (e : string) | WS_InvalidPayload | WS_TooLarge | WS_Closed.

(** ** SHA-1 and base64 *)

Definition w32 (v : Z) : Z := v mod 2 ^ 32.
Definition rotate_left (v n : Z) : Z := Z.lor (w32 (Z.shiftl v n)) (Z.shiftr v (32 - n)).

(** The message, the octet 0x80, zeros up to 56 modulo 64, and the length in bits. *)
Definition sha1_padded (data : list Z) : list Z :=
  let n := Z.of_nat (length data) in
  data ++ [128] ++ replicate (Z.to_nat ((55 - n) mod 64)) 0 ++ be_digits 256 8 ((n * 8) mod 2 ^ 64).

(** [w\[16..80\]], latest first while it is built. *)
Fixpoint sha1_schedule (n : nat) (w : list Z) : list Z :=
  match n with
  | O => w
  | S n =>
      let at_ i := default 0 (w !! i) in
      sha1_schedule n (rotate_left (Z.lxor (Z.lxor (Z.lxor (at_ 2%nat) (at_ 7%nat)) (at_ 13%nat)) (at_ 15%nat)) 1 :: w)
  end.

Definition sha1_words (block : list Z) : list Z :=
  rev (sha1_schedule 64 (rev (map (be_value 256) (chunks 4 block)))).

Definition sha1_not (v : Z) : Z := 4294967295 - v.

Definition sha1_round (s : Z * Z * Z * Z * Z) (x : nat * Z) : Z * Z * Z * Z * Z :=
  let '(a, b, c, d, e) := s in
  let '(i, wi) := x in
  let '(f, k) :=
    if (i <=? 19)%nat then (Z.lor (Z.land b c) (Z.land (sha1_not b) d), 1518500249)
    else if (i <=? 39)%nat then (Z.lxor (Z.lxor b c) d, 1859775393)
    else if (i <=? 59)%nat then (Z.lor (Z.lor (Z.land b c) (Z.land b d)) (Z.land c d), 2400959708)
    else (Z.lxor (Z.lxor b c) d, 3395469782) in
  let t := w32 (rotate_left a 5 + f + e + k + wi) in
  (t, a, rotate_left b 30, c, d).

Definition sha1_block (h : list Z) (block : list Z) : list Z :=
  match h with
  | [h0; h1; h2; h3; h4] =>
      let '(a, b, c, d, e) := foldl sha1_round (h0, h1, h2, h3, h4) (imap pair (sha1_words block)) in
      [w32 (h0 + a); w32 (h1 + b); w32 (h2 + c); w32 (h3 + d); w32 (h4 + e)]
  | _ => h
  end.

Definition sha1 (data : list Z) : list Z :=
  mjoin (map (be_digits 256 4)
    (foldl sha1_block [1732584193; 4023233417; 2562383102; 271733878; 3285377520] (chunks 64 (sha1_padded data)))).

Definition BASE64_ALPHABET : list Z := bs "ABCDEFGHIJKLMNOPQRSTUVWXYZabcdefghijklmnopqrstuvwxyz0123456789+/".

Definition base64_chunk (c : list Z) : list Z :=
  let b k := default 0 (c !! k) in
  let n := Z.lor (Z.lor (Z.shiftl (b 0%nat) 16) (Z.shiftl (b 1%nat) 8)) (b 2%nat) in
  imap (λ i shift, if bool_decide (i ≤ length c)%nat then default 0 (BASE64_ALPHABET !! Z.to_nat (Z.land (Z.shiftr n shift) 63)) else 61)
    [18; 12; 6; 0].

Definition base64 (data : list Z) : list Z := mjoin (map base64_chunk (chunks 3 data)).

Definition accept_value (key : list Z) : list Z := base64 (sha1 (key ++ ACCEPT_GUID)).

Example sha1_abc : mjoin (map (λ b, [hex_digit (b / 16); hex_digit (b mod 16)]) (sha1 (bs "abc"))) = bs "a9993e364706816aba3e25717850c26c9cd0d89d".
Proof. vm_compute. reflexivity. Qed.
Example base64_foob : base64 (bs "foob") = bs "Zm9vYg==".
Proof. vm_compute. reflexivity. Qed.
Example accept_rfc : accept_value (bs "dGhlIHNhbXBsZSBub25jZQ==") = bs "s3pPLMBiTxaQ9kYGzzhZRbK+xOo=".
Proof. vm_compute. reflexivity. Qed.

(** ** Writing *)

(** One client frame: FIN set, masked. *)
Definition masked (mask payload : list Z) : list Z := imap (λ i b, Z.lxor b (default 0 (mask !! (i mod 4)%nat))) payload.

Definition frame_length (bit : Z) (n : Z) : list Z :=
  if n <? 126 then [Z.lor bit n]
  else if n <=? 65535 then Z.lor bit 126 :: be_digits 256 2 n
  else Z.lor bit 127 :: be_digits 256 8 n.

Definition encode_frame (opcode : Z) (payload mask : list Z) : list Z :=
  [Z.lor 128 (Z.land opcode 15)] ++ frame_length 128 (Z.of_nat (length payload)) ++ mask ++ masked mask payload.

(** [WsWriter]: its [WriterState] and the counter of its [Noise].  [wr_room] is how many more
    frames the stream takes before it breaks, if it does. *)
Record WsWriter := mkWriter { wr_written : list (list Z); wr_closed : bool; wr_room : option nat; wr_counter : Z }.

Section Noise.
(** What the seeded hasher gives for a counter. *)
Context (noise : Z → Z).

Definition next_u64 (w : WsWriter) : Z * WsWriter :=
  (noise (wr_counter w) mod 2 ^ 64, mkWriter (wr_written w) (wr_closed w) (wr_room w) ((wr_counter w + 1) mod 2 ^ 64)).

Definition to_le_bytes (v : Z) : list Z := rev (be_digits 256 8 v).

Definition noise_mask (w : WsWriter) : list Z * WsWriter := let '(v, w) := next_u64 w in (take 4 (to_le_bytes v), w).

Definition noise_key (w : WsWriter) : list Z * WsWriter :=
  let '(a, w) := next_u64 w in
  let '(b, w) := next_u64 w in
  (to_le_bytes a ++ to_le_bytes b, w).

Definition write_all (octets : list Z) (w : WsWriter) : result WsError unit * WsWriter :=
  match wr_room w with
  | Some O => (Err (WS_Io "stream"), w)
  | Some (S n) => (Ok tt, mkWriter (wr_written w ++ [octets]) (wr_closed w) (Some n) (wr_counter w))
  | None => (Ok tt, mkWriter (wr_written w ++ [octets]) (wr_closed w) None (wr_counter w))
  end.

(** [WsWriter::send]: the frame is made, and its mask drawn, before the lock is taken. *)
Definition ws_send (opcode : Z) (payload : list Z) (w : WsWriter) : result WsError unit * WsWriter :=
  let '(mask, w) := noise_mask w in
  let frame := encode_frame opcode payload mask in
  if wr_closed w then (Err WS_Closed, w)
  else
    let w := if opcode =? 8 then mkWriter (wr_written w) true (wr_room w) (wr_counter w) else w in
    write_all frame w.

Definition send_text (text : list Z) (w : WsWriter) : result WsError unit * WsWriter :=
  if MAX_MESSAGE <? Z.of_nat (length text) then (Err WS_TooLarge, w) else ws_send 1 text w.

Definition ws_close (w : WsWriter) : WsWriter := (ws_send 8 (be_digits 256 2 1000) w).2.

(** ** Reading *)

(** A stream: the octets to come, and whether it then fails or ends. *)
Record Stream := mkStream { sm_octets : list Z; sm_fails : option string }.

(** [read_exact]; [UnexpectedEof] is [Closed]. *)
Definition read_exact (n : nat) (s : Stream) : result WsError (list Z) * Stream :=
  if (n <=? length (sm_octets s))%nat
  then (Ok (take n (sm_octets s)), mkStream (drop n (sm_octets s)) (sm_fails s))
  else (match sm_fails s with Some e => Err (WS_Io e) | None => Err WS_Closed end, mkStream [] (sm_fails s)).

(** The reading of the length: as it is, or in the two or eight octets that follow. *)
Definition read_length (len : Z) (s : Stream) : result WsError Z * Stream :=
  if len =? 126 then
    match read_exact 2 s with (Ok x, s) => (Ok (be_value 256 x), s) | (Err e, s) => (Err e, s) end
  else if len =? 127 then
    match read_exact 8 s with (Ok x, s) => (Ok (be_value 256 x), s) | (Err e, s) => (Err e, s) end
  else (Ok len, s).

(** [WsReader::frame]: FIN, the opcode and the payload. *)
Definition ws_frame (s : Stream) : result WsError (bool * Z * list Z) * Stream :=
  match read_exact 2 s with
  | (Err e, s) => (Err e, s)
  | (Ok h, s) =>
      let h0 := default 0 (h !! 0%nat) in
      let h1 := default 0 (h !! 1%nat) in
      let fin := negb (Z.land h0 128 =? 0) in
      if negb (Z.land h0 112 =? 0) then (Err (WS_Protocol "a reserved bit is set and no extension was negotiated"), s)
      else
        let opcode := Z.land h0 15 in
        if negb (Z.land h1 128 =? 0) then (Err (WS_Protocol "a masked frame from the server"), s)
        else
          match read_length (Z.land h1 127) s with
          | (Err e, s) => (Err e, s)
          | (Ok len, s) =>
              if (8 <=? opcode) && (negb fin || (125 <? len))
              then (Err (WS_Protocol "a control frame that is fragmented or over 125 bytes"), s)
              else if MAX_MESSAGE <? len then (Err WS_TooLarge, s)
              else
                match read_exact (Z.to_nat len) s with
                | (Err e, s) => (Err e, s)
                | (Ok p, s) => (Ok (fin, opcode, p), s)
                end
          end
  end.

(** [WsReader::fail]: the close frame that answers a broken peer. *)
Definition ws_fail (e : WsError) (w : WsWriter) : WsWriter :=
  match e with
  | WS_TooLarge => (ws_send 8 (be_digits 256 2 1009) w).2
  | WS_Protocol _ => (ws_send 8 (be_digits 256 2 1002) w).2
  | WS_InvalidPayload => (ws_send 8 (be_digits 256 2 1007) w).2
  | _ => w
  end.

Definition valid_close_code (code : Z) : bool := in_range 1000 1003 code || in_range 1007 1011 code || in_range 3000 4999 code.

(** The arm of [next_text] for a close frame. *)
Definition on_close (payload : list Z) (w : WsWriter) : WsError * WsWriter :=
  let broken e := (e, ws_fail e w) in
  if bool_decide (length payload = 1%nat) then broken (WS_Protocol "a one-byte close payload")
  else if bool_decide (2 ≤ length payload)%nat && negb (valid_close_code (be_value 256 (take 2 payload)))
  then broken (WS_Protocol "an invalid close status code")
  else if bool_decide (2 ≤ length payload)%nat && negb (is_utf8 (drop 2 payload)) then broken WS_InvalidPayload
  else (WS_Closed, (ws_send 8 (take 2 payload) w).2).

(** [format!("unknown opcode {other:#x}")] for an opcode of four bits. *)
Definition unknown_opcode (opcode : Z) : string :=
  ("unknown opcode 0x" ++ String (Ascii.ascii_of_nat (Z.to_nat (hex_digit opcode))) "")%string.

(** What one frame does to the message being assembled. *)
Inductive Turn : Type :=
| TU_Continue (message : option (list Z))
| TU_Message (message : option (list Z))
| TU_Stop (e : WsError).

Definition on_frame (opcode : Z) (payload : list Z) (message : option (list Z)) (w : WsWriter) : Turn * WsWriter :=
  let broken e := (TU_Stop e, ws_fail e w) in
  if opcode =? 1 then
    (if is_some message then broken (WS_Protocol "a text frame inside a fragmented message") else (TU_Message (Some payload), w))
  else if opcode =? 0 then
    (match message with
     | Some m =>
         if MAX_MESSAGE <? Z.of_nat (length m) + Z.of_nat (length payload) then broken WS_TooLarge
         else (TU_Message (Some (m ++ payload)), w)
     | None => broken (WS_Protocol "a continuation frame with no message")
     end)
  else if opcode =? 8 then (let '(e, w) := on_close payload w in (TU_Stop e, w))
  else if opcode =? 9 then (TU_Continue message, (ws_send 10 payload w).2)
  else if opcode =? 10 then (TU_Continue message, w)
  else if opcode =? 2 then broken (WS_Protocol "a binary message; the app-server sends text")
  else broken (WS_Protocol (unknown_opcode opcode)).

(** [WsReader::next_text]: [None] when [fuel] turns were not enough. *)
Fixpoint next_text_loop (fuel : nat) (message : option (list Z)) (s : Stream) (w : WsWriter)
    : option (result WsError (list Z) * Stream * WsWriter) :=
  match fuel with
  | O => None
  | S fuel =>
      match ws_frame s with
      | (Err e, s) => Some (Err e, s, ws_fail e w)
      | (Ok (fin, opcode, payload), s) =>
          match on_frame opcode payload message w with
          | (TU_Stop e, w) => Some (Err e, s, w)
          | (TU_Continue message, w) => next_text_loop fuel message s w
          | (TU_Message message, w) =>
              if fin then
                let bytes := default [] message in
                if is_utf8 bytes then Some (Ok bytes, s, w)
                else let e := WS_Protocol "a text message that is not UTF-8" in Some (Err e, s, ws_fail e w)
              else next_text_loop fuel message s w
          end
      end
  end.

Definition next_text (s : Stream) (w : WsWriter) : option (result WsError (list Z) * Stream * WsWriter) :=
  next_text_loop (S (length (sm_octets s))) None s w.

(** ** The upgrade *)

(** [char::is_whitespace], and [str::trim] over characters. *)
Definition is_whitespace (c : Z) : bool :=
  in_range 9 13 c || (c =? 32) || (c =? 133) || (c =? 160) || (c =? 5760) || in_range 8192 8202 c || (c =? 8232) || (c =? 8233) ||
  (c =? 8239) || (c =? 8287) || (c =? 12288).

Fixpoint trim_start (s : list Z) : list Z :=
  match s with
  | [] => []
  | c :: r => if is_whitespace c then trim_start r else s
  end.

Definition trim (s : list Z) : list Z := rev (trim_start (rev (trim_start s))).

Definition to_ascii_lowercase (s : list Z) : list Z := map (λ c, if in_range 65 90 c then c + 32 else c) s.

Definition eq_ignore_ascii_case (a b : list Z) : bool := beq (to_ascii_lowercase a) (to_ascii_lowercase b).

(** [str::split("\r\n")]. *)
Fixpoint split_crlf (s : list Z) : list (list Z) :=
  match s with
  | [] => [[]]
  | b :: rest =>
      match rest with
      | 10 :: rest' =>
          if b =? 13 then [] :: split_crlf rest'
          else match split_crlf rest with [] => [[b]] | p :: ps => (b :: p) :: ps end
      | _ => match split_crlf rest with [] => [[b]] | p :: ps => (b :: p) :: ps end
      end
  end.

(** The headers seen so far. *)
Record Seen := mkSeen { se_upgrade : bool; se_connection : bool; se_accept : option (list Z) }.

Definition read_header (line : list Z) (seen : Seen) : result WsError Seen :=
  match split_once 58 line with
  | None => Ok seen
  | Some (name, value) =>
      let value := trim value in
      let name := to_ascii_lowercase (trim name) in
      if beq name (bs "upgrade") then Ok (mkSeen (eq_ignore_ascii_case value (bs "websocket")) (se_connection seen) (se_accept seen))
      else if beq name (bs "connection") then
        Ok (mkSeen (se_upgrade seen) (existsb (λ t, eq_ignore_ascii_case (trim t) (bs "upgrade")) (split_at 44 value)) (se_accept seen))
      else if beq name (bs "sec-websocket-accept") then Ok (mkSeen (se_upgrade seen) (se_connection seen) (Some value))
      else if beq name (bs "sec-websocket-extensions") then Err (WS_Handshake "an extension the client did not offer")
      else if beq name (bs "sec-websocket-protocol") then Err (WS_Handshake "a subprotocol the client did not offer")
      else Ok seen
  end.

Fixpoint read_headers (lines : list (list Z)) (seen : Seen) : result WsError Seen :=
  match lines with
  | [] => Ok seen
  | line :: lines => seen ← read_header line seen; read_headers lines seen
  end.

(** The first two parts of [splitn(3, ' ')]. *)
Definition version_and_code (status : list Z) : list Z * option (list Z) :=
  match split_once 32 status with
  | None => (status, None)
  | Some (version, rest) => (version, Some (match split_once 32 rest with Some (code, _) => code | None => rest end))
  end.

Definition check_upgrade_response (head key : list Z) : result WsError unit :=
  text ← ok_or (utf8_decode head) (WS_Handshake "response head is not UTF-8");
  let lines := split_crlf text in
  let '(version, code) := version_and_code (default [] (list.head lines)) in
  if negb (beq version (bs "HTTP/1.1")) || negb (bool_decide (code = Some (bs "101"))) then Err (WS_Handshake "status line")
  else
    seen ← read_headers (tail lines) (mkSeen false false None);
    if negb (se_upgrade seen) || negb (se_connection seen) then Err (WS_Handshake "no Upgrade: websocket / Connection: Upgrade")
    else if negb (bool_decide (se_accept seen = Some (accept_value key))) then Err (WS_Handshake "wrong Sec-WebSocket-Accept")
    else Ok tt.

Definition CRLF : list Z := [13; 10].
Definition HEAD_END : list Z := CRLF ++ CRLF.

Definition ends_with (suffix s : list Z) : bool := beq (drop (length s - length suffix) s) suffix.

(** The loop that reads the head of the response, an octet at a time. *)
Fixpoint read_head (head octets : list Z) (fails : option string) : result WsError (list Z) * Stream :=
  if ends_with HEAD_END head then (Ok head, mkStream octets fails)
  else if MAX_HEAD <=? Z.of_nat (length head) then (Err (WS_Handshake "response head too long"), mkStream octets fails)
  else
    match octets with
    | [] => (match fails with Some e => Err (WS_Io e) | None => Err WS_Closed end, mkStream [] fails)
    | b :: rest => read_head (head ++ [b]) rest fails
    end.

Definition upgrade_request (host key : list Z) : list Z :=
  bs "GET / HTTP/1.1" ++ CRLF ++ bs "Host: " ++ host ++ CRLF ++ bs "Upgrade: websocket" ++ CRLF ++ bs "Connection: Upgrade" ++ CRLF ++
  bs "Sec-WebSocket-Key: " ++ key ++ CRLF ++ bs "Sec-WebSocket-Version: 13" ++ HEAD_END.

Definition is_ascii_control (b : Z) : bool := in_range 0 31 b || (b =? 127).

(** [handshake]: what is left to read, and the writer. *)
Definition handshake (s : Stream) (room : option nat) (host : list Z) : result WsError (Stream * WsWriter) :=
  if bool_decide (host = []) || existsb (λ b, is_ascii_control b || (b =? 32)) host then Err (WS_Handshake "an empty or malformed host")
  else
    let '(octets, w) := noise_key (mkWriter [] false room 0) in
    let key := base64 octets in
    match write_all (upgrade_request host key) w with
    | (Err e, _) => Err e
    | (Ok _, w) =>
        match read_head [] (sm_octets s) (sm_fails s) with
        | (Err e, _) => Err e
        | (Ok head, s) => _ ← check_upgrade_response head key; Ok (s, w)
        end
    end.
End Noise.

(** ** What the frames of a server are (RFC 6455 5.2 and 5.4) *)

(** The length in one of its three forms. *)
Definition length_form (n : Z) (l : list Z) : Prop :=
  (n < 126 ∧ l = [n]) ∨ (n ≤ 65535 ∧ l = 126 :: be_digits 256 2 n) ∨ l = 127 :: be_digits 256 8 n.

(** An unmasked frame with no reserved bit, and the octets that say it. *)
Definition server_frame : Type := bool * Z * list Z.

Definition encodes (f : server_frame) (octets : list Z) : Prop :=
  let '(fin, opcode, payload) := f in
  0 ≤ opcode < 16 ∧
  ∃ l, length_form (Z.of_nat (length payload)) l ∧ octets = ((if fin : bool then 128 else 0) + opcode) :: l ++ payload.

(** Data frames up to the largest message; control frames whole and short. *)
Definition frame_allowed (f : server_frame) : bool :=
  let '(fin, opcode, payload) := f in
  let n := Z.of_nat (length payload) in
  (n <=? MAX_MESSAGE) && implb (8 <=? opcode) (fin && (n <=? 125)).

(** The text a run of frames carries: a text frame, continuations up to the one with FIN,
    pings and pongs anywhere before it. *)
Fixpoint assemble (started : bool) (frames : list server_frame) : option (list Z) :=
  match frames with
  | [] => None
  | (fin, opcode, payload) :: rest =>
      if (opcode =? 9) || (opcode =? 10) then assemble started rest
      else if opcode =? (if started then 0 else 1) then
        (if fin then (if bool_decide (rest = []) then Some payload else None) else app payload <$> assemble true rest)
      else None
  end.

Definition pongs (noise : Z → Z) (frames : list server_frame) (w : WsWriter) : WsWriter :=
  foldl (λ w '(_, opcode, payload), if opcode =? 9 then (ws_send noise 10 payload w).2 else w) w frames.

(** The message that has begun after frames none of which ends one: the text so far, if a text
    frame has come. *)
Fixpoint begun (message : option (list Z)) (frames : list server_frame) : option (option (list Z)) :=
  match frames with
  | [] => Some message
  | (fin, opcode, payload) :: rest =>
      if (opcode =? 9) || (opcode =? 10) then begun message rest
      else if (opcode =? (if is_some message then 0 else 1)) && negb fin then begun (Some (default [] message ++ payload)) rest
      else None
  end.

(** *** What breaks a connection, and the answer (RFC 6455 5.2, 5.4, 5.5.1, 7.4) *)

Definition first_of (fin : bool) (opcode b : Z) : Prop := 0 ≤ opcode < 16 ∧ b = (if fin then 128 else 0) + opcode.

(** A frame of this first octet may have a payload of [n] octets. *)
Definition size_allowed (fin : bool) (opcode n : Z) : Prop := n ≤ MAX_MESSAGE ∧ (8 ≤ opcode → fin = true ∧ n ≤ 125).

(** The octets end inside a frame: before its second octet, in its length, or in its payload. *)
Inductive cut_short : list Z → Prop :=
| Cu_Head octets : (length octets < 2)%nat → cut_short octets
| Cu_Length fin opcode b0 b1 r : first_of fin opcode b0 → b1 = 126 ∧ (length r < 2)%nat ∨ b1 = 127 ∧ (length r < 8)%nat → cut_short (b0 :: b1 :: r)
| Cu_Payload fin opcode b0 n l r :
    first_of fin opcode b0 → 0 ≤ n → length_form n l → size_allowed fin opcode n → Z.of_nat (length r) < n → cut_short (b0 :: l ++ r).

Definition sendable_status (code : Z) : Prop := 1000 ≤ code ≤ 1003 ∨ 1007 ≤ code ≤ 1011 ∨ 3000 ≤ code ≤ 4999.

Definition status (code : Z) : list Z := be_digits 256 2 code.

(** A whole frame that may be read. *)
Definition reads (f : server_frame) (enc : list Z) : Prop := encodes f enc ∧ frame_allowed f = true.

(** With [message] begun, the octets break the connection: the error, and the payload of the close
    frame that is sent, if one is. *)
Inductive fault (message : option (list Z)) (fails : option string) : list Z → WsError → option (list Z) → Prop :=
| Fa_Cut octets : cut_short octets → fault message fails octets (match fails with Some e => WS_Io e | None => WS_Closed end) None
| Fa_Reserved b0 b1 r : (∀ fin opcode, ¬ first_of fin opcode b0) →
    fault message fails (b0 :: b1 :: r) (WS_Protocol "a reserved bit is set and no extension was negotiated") (Some (status 1002))
| Fa_Masked fin opcode b0 b1 r : first_of fin opcode b0 → 128 ≤ b1 →
    fault message fails (b0 :: b1 :: r) (WS_Protocol "a masked frame from the server") (Some (status 1002))
| Fa_Control fin opcode b0 n l r : first_of fin opcode b0 → 0 ≤ n → length_form n l → 8 ≤ opcode → fin = false ∨ 125 < n →
    fault message fails (b0 :: l ++ r) (WS_Protocol "a control frame that is fragmented or over 125 bytes") (Some (status 1002))
| Fa_Large fin opcode b0 n l r : first_of fin opcode b0 → length_form n l → opcode < 8 → MAX_MESSAGE < n →
    fault message fails (b0 :: l ++ r) WS_TooLarge (Some (status 1009))
| Fa_Text m fin p enc r : reads (fin, 1, p) enc → message = Some m →
    fault message fails (enc ++ r) (WS_Protocol "a text frame inside a fragmented message") (Some (status 1002))
| Fa_Continuation fin p enc r : reads (fin, 0, p) enc → message = None →
    fault message fails (enc ++ r) (WS_Protocol "a continuation frame with no message") (Some (status 1002))
| Fa_Long m fin p enc r : reads (fin, 0, p) enc → message = Some m → MAX_MESSAGE < Z.of_nat (length (m ++ p)) →
    fault message fails (enc ++ r) WS_TooLarge (Some (status 1009))
| Fa_Binary fin p enc r : reads (fin, 2, p) enc →
    fault message fails (enc ++ r) (WS_Protocol "a binary message; the app-server sends text") (Some (status 1002))
| Fa_Unknown fin opcode p enc r : reads (fin, opcode, p) enc → 3 ≤ opcode ≤ 7 ∨ 11 ≤ opcode →
    fault message fails (enc ++ r) (WS_Protocol (unknown_opcode opcode)) (Some (status 1002))
| Fa_NotUtf8 opcode p enc r : reads (true, opcode, p) enc → opcode = (if message then 0 else 1) → is_utf8 (default [] message ++ p) = false →
    fault message fails (enc ++ r) (WS_Protocol "a text message that is not UTF-8") (Some (status 1002))
| Fa_CloseOne b enc r : reads (true, 8, [b]) enc →
    fault message fails (enc ++ r) (WS_Protocol "a one-byte close payload") (Some (status 1002))
| Fa_CloseStatus a b reason enc r : reads (true, 8, a :: b :: reason) enc → ¬ sendable_status (256 * a + b) →
    fault message fails (enc ++ r) (WS_Protocol "an invalid close status code") (Some (status 1002))
| Fa_CloseReason a b reason enc r : reads (true, 8, a :: b :: reason) enc → sendable_status (256 * a + b) → is_utf8 reason = false →
    fault message fails (enc ++ r) WS_InvalidPayload (Some (status 1007))
| Fa_CloseBare enc r : reads (true, 8, []) enc → fault message fails (enc ++ r) WS_Closed (Some [])
| Fa_Close a b reason enc r : reads (true, 8, a :: b :: reason) enc → sendable_status (256 * a + b) → is_utf8 reason = true →
    fault message fails (enc ++ r) WS_Closed (Some [a; b]).

Definition answer_close (noise : Z → Z) (close : option (list Z)) (w : WsWriter) : WsWriter :=
  match close with Some payload => (ws_send noise 8 payload w).2 | None => w end.

(** ** One frame *)

Lemma first_octet b : 0 ≤ b < 256 → Z.land b 112 = 0 →
  b = (if negb (Z.land b 128 =? 0) then 128 else 0) + Z.land b 15 ∧ 0 ≤ Z.land b 15 < 16.
Proof.
  intros Hb Hz. assert (forallb (λ n, let b := Z.of_nat n in implb (Z.land b 112 =? 0)
    ((b =? (if negb (Z.land b 128 =? 0) then 128 else 0) + Z.land b 15) && (0 <=? Z.land b 15) && (Z.land b 15 <? 16))) (seq 0 256) = true) as H
    by (vm_compute; reflexivity).
  rewrite forallb_forall in H. specialize (H (Z.to_nat b)). rewrite in_seq, Z2Nat.id in H by lia. specialize (H ltac:(lia)). cbv zeta in H.
  rewrite Hz in H. cbn [Z.eqb implb] in H. destruct (negb _); lia.
Qed.

Lemma first_octet_of fin op : 0 ≤ op < 16 →
  let b := (if fin : bool then 128 else 0) + op in
  0 ≤ b < 256 ∧ Z.land b 112 = 0 ∧ negb (Z.land b 128 =? 0) = fin ∧ Z.land b 15 = op.
Proof.
  intros Hop b. assert (forallb (λ n, let op := Z.of_nat n in forallb (λ fin : bool, let b := (if fin then 128 else 0) + op in
    (0 <=? b) && (b <? 256) && (Z.land b 112 =? 0) && eqb (negb (Z.land b 128 =? 0)) fin && (Z.land b 15 =? op)) [true; false]) (seq 0 16) = true) as H
    by (vm_compute; reflexivity).
  rewrite forallb_forall in H. specialize (H (Z.to_nat op)). rewrite in_seq, Z2Nat.id in H by lia. specialize (H ltac:(lia)). cbv zeta in H.
  cbn [forallb] in H. unfold b. destruct fin; rewrite !andb_true_iff in H; destruct_and!;
    match goal with E : eqb _ _ = true |- _ => idtac end; repeat match goal with E : eqb _ _ = true |- _ => apply eqb_prop in E end; split_and!; try done; lia.
Qed.

Lemma second_octet b : 0 ≤ b < 256 → Z.land b 128 = 0 → b = Z.land b 127 ∧ b < 128.
Proof.
  intros Hb Hz. assert (forallb (λ n, let b := Z.of_nat n in implb (Z.land b 128 =? 0) ((b =? Z.land b 127) && (b <? 128))) (seq 0 256) = true) as H
    by (vm_compute; reflexivity).
  rewrite forallb_forall in H. specialize (H (Z.to_nat b)). rewrite in_seq, Z2Nat.id in H by lia. specialize (H ltac:(lia)). cbv zeta in H.
  rewrite Hz in H. cbn [Z.eqb implb] in H. lia.
Qed.

Lemma second_octet_of b : 0 ≤ b < 128 → Z.land b 128 = 0 ∧ Z.land b 127 = b.
Proof.
  intros Hb. assert (forallb (λ n, let b := Z.of_nat n in (Z.land b 128 =? 0) && (Z.land b 127 =? b)) (seq 0 128) = true) as H by (vm_compute; reflexivity).
  rewrite forallb_forall in H. specialize (H (Z.to_nat b)). rewrite in_seq, Z2Nat.id in H by lia. specialize (H ltac:(lia)). cbv zeta in H. lia.
Qed.

Lemma read_exact_app n a b fails : length a = n → read_exact n (mkStream (a ++ b) fails) = (Ok a, mkStream b fails).
Proof.
  intros <-. unfold read_exact. cbn [sm_octets sm_fails]. rewrite (proj2 (Nat.leb_le _ _)) by (rewrite length_app; lia).
  by rewrite take_app_length, drop_app_length.
Qed.

Lemma read_exact_inv n s a s' : read_exact n s = (Ok a, s') → sm_octets s = a ++ sm_octets s' ∧ length a = n ∧ sm_fails s' = sm_fails s.
Proof.
  unfold read_exact. destruct (n <=? _)%nat eqn:E; [|by destruct (sm_fails s)]. apply Nat.leb_le in E. intros [= <- <-]. cbn.
  rewrite take_drop, length_take. split_and!; [done|lia|done].
Qed.

Lemma be_octets_value n l : length l = n → Forall is_u8 l → be_digits 256 n (be_value 256 l) = l.
Proof. intros <- Hl. apply be_digits_value; [done|]. eapply Forall_impl; [exact Hl|]. unfold is_u8. cbn. lia. Qed.

Lemma be_small n v : 0 ≤ v < 256 ^ Z.of_nat n → be_value 256 (be_digits 256 n v) = v.
Proof. intros Hv. rewrite be_value_digits by lia. by apply Z.mod_small. Qed.

Lemma ws_frame_complete f enc rest fails :
  encodes f enc → frame_allowed f = true → ws_frame (mkStream (enc ++ rest) fails) = (Ok f, mkStream rest fails).
Proof.
  destruct f as [[fin op] p]. intros (Hop & l & Hl & ->) Ha. unfold frame_allowed in Ha. cbv zeta in Ha. apply andb_true_iff in Ha as [Hm Hc].
  apply Z.leb_le in Hm. destruct (first_octet_of fin op Hop) as (_ & H112 & H128 & H15). cbv zeta in *.
  set (b0 := (if fin then 128 else 0) + op) in *. assert (∃ b1 l', l = b1 :: l' ∧ 0 ≤ b1 < 128 ∧
    ∀ r, read_length b1 (mkStream (l' ++ r) fails) = (Ok (Z.of_nat (length p)), mkStream r fails)) as (b1 & l' & -> & Hb1 & Hrl).
  { unfold MAX_MESSAGE in Hm. destruct Hl as [[Hn ->]|[[Hn ->]| ->]].
    - exists (Z.of_nat (length p)), []. split; [done|]. split; [lia|]. intros r. unfold read_length.
      rewrite (proj2 (Z.eqb_neq _ 126)), (proj2 (Z.eqb_neq _ 127)) by lia. done.
    - exists 126, (be_digits 256 2 (Z.of_nat (length p))). split; [done|]. split; [lia|]. intros r. unfold read_length. cbn [Z.eqb].
      change (126 =? 126) with true. cbv iota. rewrite read_exact_app by apply length_be_digits. rewrite be_small by (cbn; lia). done.
    - exists 127, (be_digits 256 8 (Z.of_nat (length p))). split; [done|]. split; [lia|]. intros r. unfold read_length.
      change (127 =? 126) with false. change (127 =? 127) with true. cbv iota. rewrite read_exact_app by apply length_be_digits.
      rewrite be_small by (cbn; lia). done. }
  unfold ws_frame. change ((b0 :: (b1 :: l') ++ p) ++ rest) with ([b0; b1] ++ (l' ++ p) ++ rest). rewrite (read_exact_app 2 [b0; b1]) by done. cbv zeta. change (default 0 ([b0; b1] !! 0%nat)) with b0.
  change (default 0 ([b0; b1] !! 1%nat)) with b1. rewrite H112, H128, H15. change (negb (0 =? 0)) with false. cbv iota.
  destruct (second_octet_of b1 Hb1) as [-> ->]. change (negb (0 =? 0)) with false. cbv iota. rewrite <- app_assoc, Hrl.
  assert ((8 <=? op) && (negb fin || (125 <? Z.of_nat (length p))) = false) as ->.
  { destruct (8 <=? op), fin; cbn [implb andb orb negb] in *; lia. }
  rewrite (proj2 (Z.ltb_ge _ _)) by lia. rewrite read_exact_app by lia. done.
Qed.

Lemma read_length_inv b1 s n s' :
  0 ≤ b1 < 128 → Forall is_u8 (sm_octets s) → read_length b1 s = (Ok n, s') →
  ∃ l, sm_octets s = l ++ sm_octets s' ∧ sm_fails s' = sm_fails s ∧ length_form n (b1 :: l) ∧ 0 ≤ n.
Proof.
  intros Hb Hu Hr. unfold read_length in Hr. destruct (b1 =? 126) eqn:E6; [|destruct (b1 =? 127) eqn:E7].
  - apply Z.eqb_eq in E6 as ->. destruct (read_exact 2 s) as [[x|] s1] eqn:Ex; [|done]. injection Hr as <- <-.
    apply read_exact_inv in Ex as (Hs & Hl & Hf). rewrite Hs in Hu. apply Forall_app in Hu as [Hx _]. exists x. split_and!; try done.
    + right; left. split.
      * rewrite <- (be_octets_value 2 x Hl Hx), be_value_digits by lia. change (256 ^ Z.of_nat 2) with 65536. pose proof (Z.mod_pos_bound (be_value 256 x) 65536). lia.
      * by rewrite be_octets_value.
    + rewrite <- (be_octets_value 2 x Hl Hx), be_value_digits by lia. apply Z.mod_pos_bound. lia.
  - apply Z.eqb_eq in E7 as ->. destruct (read_exact 8 s) as [[x|] s1] eqn:Ex; [|done]. injection Hr as <- <-.
    apply read_exact_inv in Ex as (Hs & Hl & Hf). rewrite Hs in Hu. apply Forall_app in Hu as [Hx _]. exists x. split_and!; try done.
    + right; right. by rewrite be_octets_value.
    + rewrite <- (be_octets_value 8 x Hl Hx), be_value_digits by lia. apply Z.mod_pos_bound. lia.
  - injection Hr as <- <-. exists []. split_and!; try done; [|lia]. left. split; [lia|done].
Qed.

Lemma ws_frame_sound s f s' :
  Forall is_u8 (sm_octets s) → ws_frame s = (Ok f, s') →
  ∃ enc, encodes f enc ∧ frame_allowed f = true ∧ sm_octets s = enc ++ sm_octets s' ∧ sm_fails s' = sm_fails s.
Proof.
  intros Hu Hf. unfold ws_frame in Hf. destruct (read_exact 2 s) as [[h|] s1] eqn:Eh; [|done]. apply read_exact_inv in Eh as (Hs & Hl & Hf1).
  destruct h as [|b0 [|b1 [|]]]; try done. rewrite Hs in Hu. apply Forall_app in Hu as [Hb Hu]. inv_Forall. cbv zeta in Hf.
  change (default 0 ([b0; b1] !! 0%nat)) with b0 in Hf. change (default 0 ([b0; b1] !! 1%nat)) with b1 in Hf.
  destruct (negb (Z.land b0 112 =? 0)) eqn:E0; [done|]. apply negb_false_iff, Z.eqb_eq in E0.
  destruct (negb (Z.land b1 128 =? 0)) eqn:E1; [done|]. apply negb_false_iff, Z.eqb_eq in E1.
  destruct (first_octet b0) as [Hb0 Hop]; [done|done|]. destruct (second_octet b1) as [Hb1 Hlt]; [done|done|].
  destruct (read_length _ s1) as [[n|] s2] eqn:El; [|done]. rewrite <- Hb1 in El. unfold is_u8 in *.
  apply read_length_inv in El as (l & Hs1 & Hf2 & Hform & Hn); [|lia|done].
  destruct (_ && _) eqn:Ec; [done|]. destruct (MAX_MESSAGE <? n) eqn:Em; [done|].
  destruct (read_exact (Z.to_nat n) s2) as [[p|] s3] eqn:Ep; [|done]. apply pair_equal_spec in Hf as [[= <-] <-].
  apply read_exact_inv in Ep as (Hs2 & Hp & Hf3). assert (Z.of_nat (length p) = n) as Hlen by lia.
  exists (b0 :: (b1 :: l) ++ p). split_and!.
  - cbn [encodes]. split; [done|]. exists (b1 :: l). rewrite Hlen. split; [done|]. by rewrite <- Hb0.
  - unfold frame_allowed. cbv zeta. rewrite Hlen. destruct (8 <=? Z.land b0 15), (negb (Z.land b0 128 =? 0)); cbn [implb andb orb negb] in *; lia.
  - rewrite Hs, Hs1, Hs2. cbn [app]. by rewrite <- !app_assoc.
  - congruence.
Qed.

(** ** Messages *)

Section Messages.
Context (noise : Z → Z).

(** What [on_frame] does with a frame a message may hold here. *)
Lemma on_frame_step opcode payload message w m w' :
  on_frame noise opcode payload message w = (m, w') →
  match m with
  | TU_Continue message' => (opcode =? 9) || (opcode =? 10) = true ∧ message' = message ∧
      w' = (if opcode =? 9 then (ws_send noise 10 payload w).2 else w)
  | TU_Message message' => opcode = (if is_some message then 0 else 1) ∧ message' = Some (default [] message ++ payload) ∧ w' = w ∧
      (is_some message = true → Z.of_nat (length (default [] message ++ payload)) ≤ MAX_MESSAGE)
  | TU_Stop _ => True
  end.
Proof.
  unfold on_frame. destruct (opcode =? 1) eqn:E1; [|destruct (opcode =? 0) eqn:E0; [|destruct (opcode =? 8) eqn:E8; [|destruct (opcode =? 9) eqn:E9;
    [|destruct (opcode =? 10) eqn:E10; [|by destruct (opcode =? 2); intros [= <- <-]]]]]].
  - apply Z.eqb_eq in E1 as ->. destruct message; intros [= <- <-]; [done|]. done.
  - apply Z.eqb_eq in E0 as ->. destruct message as [x|]; [|by intros [= <- <-]]. destruct (_ <? _) eqn:El; intros [= <- <-]; [done|].
    cbn [is_some default from_option id]. split_and!; try done. intros _. rewrite length_app. lia.
  - destruct (on_close noise payload w). intros [= <- <-]. done.
  - intros [= <- <-]. done.
  - intros [= <- <-]. done.
Qed.

Lemma on_frame_data payload message w :
  (is_some message = true → Z.of_nat (length (default [] message ++ payload)) ≤ MAX_MESSAGE) →
  on_frame noise (if is_some message then 0 else 1) payload message w = (TU_Message (Some (default [] message ++ payload)), w).
Proof.
  intros Hm. unfold on_frame. destruct message as [x|]; cbn [is_some default from_option id] in *; [|done].
  change (0 =? 1) with false. change (0 =? 0) with true. cbv iota. specialize (Hm eq_refl). rewrite length_app in Hm.
  by rewrite (proj2 (Z.ltb_ge _ _)) by lia.
Qed.

Lemma on_frame_control opcode payload message w :
  (opcode =? 9) || (opcode =? 10) = true →
  on_frame noise opcode payload message w = (TU_Continue message, if opcode =? 9 then (ws_send noise 10 payload w).2 else w).
Proof.
  intros Ho. unfold on_frame. apply orb_true_iff in Ho as [Ho|Ho]; apply Z.eqb_eq in Ho as ->; done.
Qed.

Lemma loop_sound fuel message s w text s' w' :
  Forall is_u8 (sm_octets s) → next_text_loop noise fuel message s w = Some (Ok text, s', w') →
  ∃ frames encs t, Forall2 encodes frames encs ∧ forallb frame_allowed frames = true ∧ sm_octets s = mjoin encs ++ sm_octets s' ∧
    sm_fails s' = sm_fails s ∧ assemble (is_some message) frames = Some t ∧ text = default [] message ++ t ∧
    is_utf8 text = true ∧ Z.of_nat (length text) ≤ MAX_MESSAGE ∧ w' = pongs noise frames w.
Proof.
  revert message s w. induction fuel as [|fuel IH]; intros message s w Hu H; [done|]. cbn [next_text_loop] in H.
  destruct (ws_frame s) as [[[[fin op] p]|] s1] eqn:Ef; [|done]. destruct (ws_frame_sound _ _ _ Hu Ef) as (enc & Henc & Hal & Hs & Hfail).
  assert (Forall is_u8 (sm_octets s1)) as Hu1 by (rewrite Hs in Hu; by apply Forall_app in Hu as [_ ?]).
  destruct (on_frame _ op p message w) as [m w1] eqn:Eo. apply on_frame_step in Eo.
  assert (∀ fs es, Forall2 encodes fs es → forallb frame_allowed fs = true → sm_octets s1 = mjoin es ++ sm_octets s' →
    Forall2 encodes ((fin, op, p) :: fs) (enc :: es) ∧ forallb frame_allowed ((fin, op, p) :: fs) = true ∧
    sm_octets s = mjoin (enc :: es) ++ sm_octets s') as Hcons.
  { intros fs es H1 H2 H3. split; [by constructor|]. split; [cbn [forallb]; by rewrite Hal|].
    change (mjoin (enc :: es)) with (enc ++ mjoin es). by rewrite Hs, H3, <- app_assoc. }
  destruct m as [message'|message'|e]; [| |done].
  - destruct Eo as (Hop & -> & ->). apply IH in H as (fs & es & t & H1 & H2 & H3 & H4 & H5 & H6 & H7 & H8 & H9); [|done].
    exists ((fin, op, p) :: fs), (enc :: es), t. destruct (Hcons fs es H1 H2 H3) as (? & ? & ?). split_and!; try done; try congruence. cbn [assemble]. by rewrite Hop.
  - destruct Eo as (Hop & -> & -> & Hmax). assert ((op =? 9) || (op =? 10) = false) as Hnc by (destruct (is_some message); lia).
    assert (op =? (if is_some message then 0 else 1) = true) as Hop' by (by apply Z.eqb_eq).
    assert (op =? 9 = false) as H9 by (destruct (is_some message); lia). destruct fin.
    + change (default [] (Some (default [] message ++ p))) with (default [] message ++ p) in H. cbv zeta in H.
      destruct (is_utf8 (default [] message ++ p)) eqn:Eu; [|discriminate H]. injection H as <- <- <-.
      exists [(true, op, p)], [enc], p. destruct (Hcons [] []) as (? & ? & ?); [constructor|done|reflexivity|]. split_and!; try done.
      * cbn [assemble]. by rewrite Hnc, Hop', bool_decide_true.
      * destruct (is_some message) eqn:Em; [by apply Hmax|]. destruct message; [done|]. cbn [default from_option id app].
        unfold frame_allowed in Hal. cbv zeta in Hal. apply andb_true_iff in Hal as [Hal%Z.leb_le _]. done.
      * cbn [pongs foldl]. by rewrite H9.
    + apply IH in H as (fs & es & t & H1 & H2 & H3 & H4 & H5 & H6 & H7 & H8 & Hw); [|done].
      exists ((false, op, p) :: fs), (enc :: es), (p ++ t). destruct (Hcons fs es H1 H2 H3) as (? & ? & ?). split_and!; try done; try congruence.
      * cbn [assemble]. rewrite Hnc, Hop'. cbn [is_some] in H5. by rewrite H5.
      * rewrite H6. cbn [default from_option id]. by rewrite <- app_assoc.
      * rewrite Hw. cbn [pongs foldl]. by rewrite H9.
Qed.

Lemma loop_complete frames encs message rest fails fuel w t :
  Forall2 encodes frames encs → forallb frame_allowed frames = true → assemble (is_some message) frames = Some t →
  is_utf8 (default [] message ++ t) = true → Z.of_nat (length (default [] message ++ t)) ≤ MAX_MESSAGE → (length frames ≤ fuel)%nat →
  next_text_loop noise fuel message (mkStream (mjoin encs ++ rest) fails) w = Some (Ok (default [] message ++ t), mkStream rest fails, pongs noise frames w).
Proof.
  intros Hf. revert message fuel w t. induction Hf as [|[[fin op] p] enc frames encs Henc Hrest IH]; intros message fuel w t Hal Has Hu Hmax Hfuel; [done|].
  destruct fuel as [|fuel]; [cbn in Hfuel; lia|]. cbn [forallb] in Hal. apply andb_true_iff in Hal as [Hal Hal'].
  change (mjoin (enc :: encs)) with (enc ++ mjoin encs). rewrite <- app_assoc. cbn [next_text_loop].
  rewrite (ws_frame_complete (fin, op, p)) by done. cbn [assemble length] in *. destruct ((op =? 9) || (op =? 10)) eqn:Ec.
  - rewrite on_frame_control by done. apply IH; try done. lia.
  - destruct (op =? (if is_some message then 0 else 1)) eqn:Eo; [|done]. apply Z.eqb_eq in Eo. subst op.
    assert ((if is_some message then 0 else 1) =? 9 = false) as H9 by (by destruct (is_some message)).
    assert (∀ u, t = p ++ u → Z.of_nat (length (default [] message ++ p)) ≤ MAX_MESSAGE) as Hp.
    { intros u ->. rewrite !length_app in *. lia. }
    destruct fin.
    + case_bool_decide as Er; [|done]. injection Has as <-. subst frames. rewrite on_frame_data by (intros _; apply (Hp []); by rewrite app_nil_r).
      inversion Hrest; subst encs. change (default [] (Some (default [] message ++ p))) with (default [] message ++ p). cbv zeta.
      rewrite Hu. cbn [pongs foldl]. rewrite H9. reflexivity.
    + destruct (assemble true frames) as [u|] eqn:Eu; [|done]. injection Has as <-.
      rewrite on_frame_data by (intros _; by eapply Hp). rewrite app_assoc in *.
      rewrite (IH (Some (default [] message ++ p)) fuel w u) by (try done; lia). cbn [default from_option id pongs foldl]. by rewrite H9.
Qed.
End Messages.

(** ** How reading ends *)

Lemma read_length_shorter b s n s' : read_length b s = (Ok n, s') → (length (sm_octets s') ≤ length (sm_octets s))%nat.
Proof.
  unfold read_length. destruct (_ =? 126); [|destruct (_ =? 127); [|by intros [= <- <-]]].
  - destruct (read_exact 2 s) as [[x|] s1] eqn:E; [|done]. intros [= _ <-]. apply read_exact_inv in E as (-> & _ & _). rewrite length_app. lia.
  - destruct (read_exact 8 s) as [[x|] s1] eqn:E; [|done]. intros [= _ <-]. apply read_exact_inv in E as (-> & _ & _). rewrite length_app. lia.
Qed.

Lemma ws_frame_shorter s f s' : ws_frame s = (Ok f, s') → (length (sm_octets s') + 2 ≤ length (sm_octets s))%nat.
Proof.
  unfold ws_frame. destruct (read_exact 2 s) as [[h|] s1] eqn:Eh; [|done]. apply read_exact_inv in Eh as (Hs & Hl & _). cbv zeta.
  destruct (negb _); [done|]. destruct (negb _); [done|]. destruct (read_length _ s1) as [[n|] s2] eqn:El; [|done]. apply read_length_shorter in El.
  destruct (_ && _); [done|]. destruct (_ <? _); [done|]. destruct (read_exact _ s2) as [[p|] s3] eqn:Ep; [|done]. intros [= _ <-].
  apply read_exact_inv in Ep as (Hp & _ & _). rewrite Hs, length_app, Hl. rewrite Hp, length_app in El. lia.
Qed.

Lemma valid_close_code_spec code : valid_close_code code = true ↔ sendable_status code.
Proof. unfold valid_close_code, in_range, sendable_status. rewrite !orb_true_iff, !andb_true_iff, !Z.leb_le. tauto. Qed.

Lemma first_octet_bad b fin opcode : first_of fin opcode b → Z.land b 112 = 0.
Proof. intros [Hop ->]. apply (first_octet_of fin opcode Hop). Qed.

Section Ends.
Context (noise : Z → Z).

(** A frame that cannot be read. *)
Lemma ws_frame_fault s e s' :
  Forall is_u8 (sm_octets s) → ws_frame s = (Err e, s') →
  ∃ close, (∀ message, fault message (sm_fails s) (sm_octets s) e close) ∧ ∀ w, ws_fail noise e w = answer_close noise close w.
Proof.
  intros Hu Hf. assert (∀ octets, cut_short octets → ∃ close, (∀ message, fault message (sm_fails s) octets (match sm_fails s with Some x => WS_Io x | None => WS_Closed end) close) ∧
    ∀ w, ws_fail noise (match sm_fails s with Some x => WS_Io x | None => WS_Closed end) w = answer_close noise close w) as Hcut.
  { intros octets Hc. exists None. split; [intros; by constructor|]. intros w. by destruct (sm_fails s). }
  unfold ws_frame in Hf. destruct (read_exact 2 s) as [[h|x] s1] eqn:Eh.
  2: { unfold read_exact in Eh. destruct (2 <=? _)%nat eqn:E2; [done|]. apply Nat.leb_gt in E2.
       assert (e = match sm_fails s with Some x => WS_Io x | None => WS_Closed end) as -> by (destruct (sm_fails s); congruence). apply Hcut. by constructor. }
  apply read_exact_inv in Eh as (Hs & Hl & Hf1). destruct h as [|b0 [|b1 [|]]]; try done. rewrite Hs in Hu |- *. apply Forall_app in Hu as [Hb Hu]. inv_Forall.
  cbv zeta in Hf. change (default 0 ([b0; b1] !! 0%nat)) with b0 in Hf. change (default 0 ([b0; b1] !! 1%nat)) with b1 in Hf.
  change ([b0; b1] ++ sm_octets s1) with (b0 :: b1 :: sm_octets s1).
  destruct (negb (Z.land b0 112 =? 0)) eqn:E0.
  { injection Hf as <- <-. exists (Some (status 1002)). split; [|done]. intros message. constructor. intros fin opcode Hfo%first_octet_bad. lia. }
  apply negb_false_iff, Z.eqb_eq in E0. destruct (first_octet b0) as [Hb0 Hop]; [done|done|].
  set (fin := negb (Z.land b0 128 =? 0)) in *. set (op := Z.land b0 15) in *. assert (first_of fin op b0) as Hfo by done.
  destruct (negb (Z.land b1 128 =? 0)) eqn:E1.
  { injection Hf as <- <-. exists (Some (status 1002)). split; [|done]. intros message. eapply Fa_Masked; [exact Hfo|].
    destruct (Z.leb_spec 128 b1); [done|]. destruct (second_octet_of b1) as [Hz _]; [unfold is_u8 in *; lia|]. lia. }
  apply negb_false_iff, Z.eqb_eq in E1. destruct (second_octet b1) as [Hb1 Hlt]; [done|done|]. rewrite <- Hb1 in Hf. unfold is_u8 in *.
  destruct (read_length b1 s1) as [[n|x] s2] eqn:El.
  2: { injection Hf as -> ->. rewrite <- Hf1. rewrite <- Hf1 in Hcut. unfold read_length in El.
       assert (∀ k, read_exact k s1 = (Err e, s') → (length (sm_octets s1) < k)%nat ∧ e = match sm_fails s1 with Some x => WS_Io x | None => WS_Closed end) as Hre.
       { intros k. unfold read_exact. destruct (k <=? _)%nat eqn:Ek; [done|]. apply Nat.leb_gt in Ek. intros Hx. split; [done|]. destruct (sm_fails s1); congruence. }
       destruct (b1 =? 126) eqn:E6; [|destruct (b1 =? 127) eqn:E7; [|done]].
       - destruct (read_exact 2 s1) as [[]] eqn:E; [done|]. injection El as -> ->. destruct (Hre 2%nat E) as [? ->]. apply Hcut. eapply Cu_Length; [exact Hfo|lia].
       - destruct (read_exact 8 s1) as [[]] eqn:E; [done|]. injection El as -> ->. destruct (Hre 8%nat E) as [? ->]. apply Hcut. eapply Cu_Length; [exact Hfo|lia]. }
  apply read_length_inv in El as (l & Hs1 & Hf2 & Hform & Hn); [|lia|done]. rewrite Hs1. change (b0 :: b1 :: l ++ sm_octets s2) with (b0 :: (b1 :: l) ++ sm_octets s2).
  destruct ((8 <=? op) && (negb fin || (125 <? n))) eqn:Ec.
  { injection Hf as <- <-. exists (Some (status 1002)). split; [|done]. intros message. apply (Fa_Control _ _ fin op _ n); [done|done|done|lia|].
    destruct fin; [right; lia|by left]. }
  destruct (MAX_MESSAGE <? n) eqn:Em.
  { injection Hf as <- <-. exists (Some (status 1009)). split; [|done]. intros message. apply (Fa_Large _ _ fin op _ n); [done|done| |lia].
    destruct (Z.leb_spec 8 op); [|lia]. unfold MAX_MESSAGE in Em. destruct fin; cbn in Ec; lia. }
  unfold read_exact in Hf. destruct (Z.to_nat n <=? length (sm_octets s2))%nat eqn:Ep; [done|]. apply Nat.leb_gt in Ep.
  assert (e = match sm_fails s with Some x => WS_Io x | None => WS_Closed end) as -> by (rewrite <- Hf1, <- Hf2; destruct (sm_fails s2); congruence).
  apply Hcut. apply (Cu_Payload fin op b0 n); [done|done|done| |lia]. split; [lia|]. intros H8. rewrite (proj2 (Z.leb_le _ _) H8) in Ec. cbn in Ec.
  apply orb_false_iff in Ec as [? ?]. split; [by destruct fin|lia].
Qed.

(** A frame that is read and breaks the connection. *)
Lemma on_frame_fault fin opcode payload enc rest fails message w e w' :
  encodes (fin, opcode, payload) enc → frame_allowed (fin, opcode, payload) = true →
  on_frame noise opcode payload message w = (TU_Stop e, w') →
  ∃ close, fault message fails (enc ++ rest) e close ∧ w' = answer_close noise close w.
Proof.
  intros Hen Hal. assert (reads (fin, opcode, payload) enc) as Henc by done. assert (∀ e0 close, fault message fails (enc ++ rest) e0 close → ws_fail noise e0 w = answer_close noise close w →
    (TU_Stop e0, ws_fail noise e0 w) = (TU_Stop e, w') → ∃ close, fault message fails (enc ++ rest) e close ∧ w' = answer_close noise close w) as Hb.
  { intros e0 close Hf Hw [= <- <-]. by exists close. }
  unfold on_frame. destruct (opcode =? 1) eqn:E1.
  { apply Z.eqb_eq in E1 as ->. destruct message as [m|] eqn:Em; cbn [is_some]; [|done]. apply (Hb _ (Some (status 1002))); [by eapply Fa_Text|done]. }
  destruct (opcode =? 0) eqn:E0.
  { apply Z.eqb_eq in E0 as ->. destruct message as [m|] eqn:Em.
    - destruct (_ <? _) eqn:El; [|done]. apply (Hb _ (Some (status 1009))); [|done]. eapply Fa_Long; [exact Henc|done|]. rewrite length_app. lia.
    - apply (Hb _ (Some (status 1002))); [by eapply Fa_Continuation|done]. }
  destruct (opcode =? 8) eqn:E8.
  { apply Z.eqb_eq in E8 as ->. assert (fin = true) as -> by (destruct fin; [done|]; unfold frame_allowed in Hal; by rewrite andb_false_r in Hal).
    assert (∀ e0 close, fault message fails (enc ++ rest) e0 close → ws_fail noise e0 w = answer_close noise close w →
      (let '(e, w) := (e0, ws_fail noise e0 w) in (TU_Stop e, w)) = (TU_Stop e, w') → ∃ close, fault message fails (enc ++ rest) e close ∧ w' = answer_close noise close w) as Hb' by (cbn; exact Hb).
    unfold on_close. destruct payload as [|a [|b reason]].
    - rewrite !bool_decide_false by (cbn; lia). cbn [andb take]. intros [= <- <-]. exists (Some []). split; [by constructor|done].
    - rewrite bool_decide_true by done. apply (Hb' _ (Some (status 1002))); [by econstructor|done].
    - rewrite bool_decide_false by done. rewrite bool_decide_true by (cbn; lia). cbn [andb take drop]. rewrite take_0, drop_0.
      assert (be_value 256 [a; b] = 256 * a + b) as -> by (unfold be_value; cbn; lia).
      destruct (valid_close_code (256 * a + b)) eqn:Ev; cbn [negb].
      + apply valid_close_code_spec in Ev. destruct (is_utf8 reason) eqn:Er; cbn [negb].
        * intros [= <- <-]. exists (Some [a; b]). split; [by eapply Fa_Close|]. by destruct reason.
        * apply (Hb' _ (Some (status 1007))); [by eapply Fa_CloseReason|done].
      + apply (Hb' _ (Some (status 1002))); [|done]. eapply Fa_CloseStatus; [exact Henc|]. rewrite <- valid_close_code_spec. congruence. }
  destruct (opcode =? 9) eqn:E9; [done|]. destruct (opcode =? 10) eqn:E10; [done|]. destruct (opcode =? 2) eqn:E2.
  { apply Z.eqb_eq in E2 as ->. apply (Hb _ (Some (status 1002))); [by eapply Fa_Binary|done]. }
  apply (Hb _ (Some (status 1002))); [|done]. eapply Fa_Unknown; [exact Henc|]. destruct Hen as [? _]. lia.
Qed.

(** Reading ends, and an error is that of a fault after good frames. *)
Lemma loop_ends fuel message s w :
  Forall is_u8 (sm_octets s) → (length (sm_octets s) < fuel)%nat →
  ∃ r s' w', next_text_loop noise fuel message s w = Some (r, s', w') ∧
    ∀ e, r = Err e → ∃ frames encs rest message' close, Forall2 encodes frames encs ∧ forallb frame_allowed frames = true ∧
      sm_octets s = mjoin encs ++ rest ∧ begun message frames = Some message' ∧ fault message' (sm_fails s) rest e close ∧
      w' = answer_close noise close (pongs noise frames w).
Proof.
  revert message s w. induction fuel as [|fuel IH]; intros message s w Hu Hl; [lia|]. cbn [next_text_loop].
  destruct (ws_frame s) as [[[[fin op] p]|e] s1] eqn:Ef.
  - pose proof (ws_frame_shorter _ _ _ Ef) as Hsh. destruct (ws_frame_sound _ _ _ Hu Ef) as (enc & Henc & Hal & Hs & Hfail).
    assert (Forall is_u8 (sm_octets s1)) as Hu1 by (rewrite Hs in Hu; by apply Forall_app in Hu as [_ ?]).
    assert (∀ message1 w1, begun message [(fin, op, p)] = Some message1 → w1 = pongs noise [(fin, op, p)] w →
      ∃ r s' w', next_text_loop noise fuel message1 s1 w1 = Some (r, s', w') ∧
        ∀ e, r = Err e → ∃ frames encs rest message' close, Forall2 encodes frames encs ∧ forallb frame_allowed frames = true ∧
          sm_octets s = mjoin encs ++ rest ∧ begun message frames = Some message' ∧ fault message' (sm_fails s) rest e close ∧
          w' = answer_close noise close (pongs noise frames w)) as Hnext.
    { intros m1 w1 Hbg ->. destruct (IH m1 s1 (pongs noise [(fin, op, p)] w) Hu1 ltac:(lia)) as (r & s' & w' & E & He). exists r, s', w'. split; [done|].
      intros e ->. destruct (He e eq_refl) as (fs & es & rest & m2 & close & H1 & H2 & H3 & H4 & H5 & ->).
      exists ((fin, op, p) :: fs), (enc :: es), rest, m2, close. split_and!; [by constructor|cbn [forallb]; by rewrite Hal| | |by rewrite <- Hfail|done].
      - change (mjoin (enc :: es)) with (enc ++ mjoin es). by rewrite Hs, H3, <- app_assoc.
      - cbn [begun] in Hbg |- *. destruct (_ || _); [injection Hbg as <-; done|]. destruct (_ && _); [injection Hbg as <-; done|done]. }
    assert (∀ e close (w' : WsWriter), fault message (sm_fails s) (enc ++ sm_octets s1) e close → w' = answer_close noise close w →
      ∃ frames encs rest message' close, Forall2 encodes frames encs ∧ forallb frame_allowed frames = true ∧
        sm_octets s = mjoin encs ++ rest ∧ begun message frames = Some message' ∧ fault message' (sm_fails s) rest e close ∧
        w' = answer_close noise close (pongs noise frames w)) as Hhere.
    { intros e close w' Hfa ->. exists [], [], (sm_octets s), message, close. rewrite Hs. split_and!; done. }
    destruct (on_frame _ op p message w) as [[m|m|e] w1] eqn:Eo.
    + pose proof (on_frame_step _ _ _ _ _ _ _ Eo) as (Hop & -> & ->). apply Hnext; [cbn [begun]; by rewrite Hop|]. cbn. done.
    + pose proof (on_frame_step _ _ _ _ _ _ _ Eo) as (Hop & -> & -> & _).
      assert ((op =? 9) || (op =? 10) = false) as Hnc by (destruct (is_some message); lia). assert (op =? 9 = false) as H9 by (destruct (is_some message); lia).
      destruct fin; [|apply Hnext; [cbn [begun]; rewrite Hnc, (proj2 (Z.eqb_eq _ _) Hop); done|cbn [pongs foldl]; by rewrite H9]].
      change (default [] (Some (default [] message ++ p))) with (default [] message ++ p). cbv zeta.
      destruct (is_utf8 (default [] message ++ p)) eqn:Eu; do 3 eexists; (split; [reflexivity|]); intros e [= <-].
      eapply (Hhere _ (Some (status 1002))); [|done]. eapply Fa_NotUtf8; [by split| |done]. rewrite Hop. by destruct message.
    + do 3 eexists. split; [reflexivity|]. intros e' [= <-]. destruct (on_frame_fault fin op p enc (sm_octets s1) (sm_fails s) message w e w1 Henc Hal Eo) as (close & ? & ?).
      by eapply Hhere.
  - do 3 eexists. split; [reflexivity|]. intros e' [= <-]. destruct (ws_frame_fault _ _ _ Hu Ef) as (close & Hfa & Hw).
    exists [], [], (sm_octets s), message, close. split_and!; [constructor|done|done|done|done|]. cbn. by apply Hw.
Qed.
End Ends.

Lemma encs_length frames encs : Forall2 encodes frames encs → (length frames ≤ length (mjoin encs))%nat.
Proof.
  induction 1 as [|[[fin op] p] enc frames encs (_ & l & _ & ->) _ IH]; [cbn; lia|].
  change (mjoin (?a :: encs)) with (a ++ mjoin encs). rewrite length_app. cbn [length]. lia.
Qed.



(** ** What a server reads of the client's frames *)

(** RFC 6455 5.2 for a masked frame with FIN and no reserved bit: the opcode, the unmasked
    payload, and what is left. *)
Definition server_read (octets : list Z) : option (Z * list Z * list Z) :=
  match octets with
  | b0 :: b1 :: r =>
      if negb (Z.land b0 240 =? 128) || (Z.land b1 128 =? 0) then None
      else
        let l := Z.land b1 127 in
        let k := if l =? 126 then 2%nat else if l =? 127 then 8%nat else 0%nat in
        let n := Z.to_nat (if l <? 126 then l else be_value 256 (take k r)) in
        let r := drop k r in
        if (length r <? 4 + n)%nat then None
        else Some (Z.land b0 15, masked (take 4 r) (take n (drop 4 r)), drop (4 + n) r)
  | _ => None
  end.

Lemma masked_masked mask p : length p = length (masked mask p) ∧ masked mask (masked mask p) = p.
Proof.
  unfold masked. split; [by rewrite length_imap|]. rewrite imap_imap || idtac.
  apply list_eq. intros i. rewrite !list_lookup_imap. destruct (p !! i) as [b|]; cbn; [|done].
  by rewrite Z.lxor_assoc, Z.lxor_nilpotent, Z.lxor_0_r.
Qed.

Lemma client_octets b : 0 ≤ b < 128 → Z.land (Z.lor 128 b) 128 = 128 ∧ Z.land (Z.lor 128 b) 127 = b.
Proof.
  intros Hb. assert (forallb (λ n, let b := Z.of_nat n in (Z.land (Z.lor 128 b) 128 =? 128) && (Z.land (Z.lor 128 b) 127 =? b)) (seq 0 128) = true) as H
    by (vm_compute; reflexivity).
  rewrite forallb_forall in H. specialize (H (Z.to_nat b)). rewrite in_seq, Z2Nat.id in H by lia. specialize (H ltac:(lia)). cbv zeta in H. lia.
Qed.

Lemma client_first b : 0 ≤ b < 16 → Z.land (Z.lor 128 (Z.land b 15)) 240 = 128 ∧ Z.land (Z.lor 128 (Z.land b 15)) 15 = b.
Proof.
  intros Hb. assert (forallb (λ n, let b := Z.of_nat n in (Z.land (Z.lor 128 (Z.land b 15)) 240 =? 128) && (Z.land (Z.lor 128 (Z.land b 15)) 15 =? b)) (seq 0 16) = true) as H
    by (vm_compute; reflexivity).
  rewrite forallb_forall in H. specialize (H (Z.to_nat b)). rewrite in_seq, Z2Nat.id in H by lia. specialize (H ltac:(lia)). cbv zeta in H. lia.
Qed.

Lemma server_reads opcode payload mask rest :
  0 ≤ opcode < 16 → length mask = 4%nat → Z.of_nat (length payload) < 2 ^ 64 →
  server_read (encode_frame opcode payload mask ++ rest) = Some (opcode, payload, rest).
Proof.
  intros Hop Hm Hl. destruct (client_first opcode Hop) as [H240 H15]. destruct (masked_masked mask payload) as [Hlen Hmm].
  set (n := Z.of_nat (length payload)) in *.
  assert (∃ b1 l', frame_length 128 n = Z.lor 128 b1 :: l' ∧ 0 ≤ b1 < 128 ∧
    length l' = (if b1 =? 126 then 2%nat else if b1 =? 127 then 8%nat else 0%nat) ∧ (if b1 <? 126 then b1 else be_value 256 l') = n)
    as (b1 & l' & Hfl & Hb1 & Hk & Hn).
  { unfold frame_length. destruct (n <? 126) eqn:E1; [|destruct (n <=? 65535) eqn:E2].
    - exists n, []. rewrite E1. split; [done|]. split; [lia|]. rewrite (proj2 (Z.eqb_neq _ 126)), (proj2 (Z.eqb_neq _ 127)) by lia. done.
    - exists 126, (be_digits 256 2 n). split; [done|]. split; [lia|]. split; [apply length_be_digits|]. change (126 <? 126) with false. cbv iota.
      apply be_small. change (256 ^ Z.of_nat 2) with 65536. lia.
    - exists 127, (be_digits 256 8 n). split; [done|]. split; [lia|]. split; [apply length_be_digits|]. change (127 <? 126) with false. cbv iota.
      apply be_small. change (256 ^ Z.of_nat 8) with (2 ^ 64). lia. }
  unfold encode_frame. fold n. rewrite Hfl. cbn [app]. unfold server_read. destruct (client_octets b1 Hb1) as [H128 H127]. rewrite H240, H15, H128, H127.
  change (128 =? 128) with true. change (128 =? 0) with false. cbn [negb orb]. cbv zeta. rewrite <- Hk, <- !app_assoc.
  rewrite take_app_length, drop_app_length, Hn. replace (Z.to_nat n) with (length (masked mask payload)) by (unfold n; lia).
  assert (length (mask ++ masked mask payload ++ rest) <? 4 + length (masked mask payload) = false)%nat as -> by (apply Nat.ltb_ge; rewrite !length_app; lia).
  rewrite (take_app_length' mask), (drop_app_length' mask) by done. rewrite take_app_length, Hmm.
  replace (4 + length (masked mask payload))%nat with (length (mask ++ masked mask payload)) by (rewrite length_app; lia).
  by rewrite app_assoc, drop_app_length.
Qed.

(** What is sent, in order: up to the first close. *)
Fixpoint until_close (ops : list (Z * list Z)) : list (Z * list Z) :=
  match ops with
  | [] => []
  | (opcode, payload) :: ops => if opcode =? 8 then [(opcode, payload)] else (opcode, payload) :: until_close ops
  end.

Definition sends (noise : Z → Z) (ops : list (Z * list Z)) (w : WsWriter) : WsWriter :=
  foldl (λ w '(opcode, payload), (ws_send noise opcode payload w).2) w ops.

(** As many as the stream takes. *)
Definition within (room : option nat) {A} (l : list A) : list A := match room with Some n => take n l | None => l end.

Definition read_as (frame : list Z) (op : Z * list Z) : Prop := ∀ rest, server_read (frame ++ rest) = Some (op.1, op.2, rest).

Section Sends.
Context (noise : Z → Z).

Lemma mask_length w : length (noise_mask noise w).1 = 4%nat.
Proof. unfold noise_mask, next_u64, to_le_bytes. cbn [fst]. rewrite length_take, length_rev, length_be_digits. done. Qed.

Lemma sends_closed ops w : wr_closed w = true → wr_written (sends noise ops w) = wr_written w.
Proof.
  revert w. induction ops as [|[op p] ops IH]; intros w Hc; [done|]. cbn [sends foldl]. fold (sends noise ops).
  assert (wr_closed (ws_send noise op p w).2 = true ∧ wr_written (ws_send noise op p w).2 = wr_written w) as [H1 H2].
  { unfold ws_send, noise_mask, next_u64. cbn [wr_closed]. by rewrite Hc. }
  change (foldl _ (ws_send noise op p w).2 ops) with (sends noise ops (ws_send noise op p w).2). by rewrite IH, H2.
Qed.

Lemma sends_spec ops w :
  wr_closed w = false → Forall (λ o, 0 ≤ o.1 < 16 ∧ Z.of_nat (length o.2) < 2 ^ 64) ops →
  ∃ frames, wr_written (sends noise ops w) = wr_written w ++ frames ∧ Forall2 read_as frames (within (wr_room w) (until_close ops)).
Proof.
  revert w. induction ops as [|[op p] ops IH]; intros w Hc Hf.
  { exists []. rewrite app_nil_r. split; [done|]. unfold within. destruct (wr_room w) as [[]|]; constructor. }
  inv_Forall. destruct_and!. cbn [fst snd] in *. change (sends noise ((op, p) :: ops) w) with (sends noise ops (ws_send noise op p w).2).
  pose proof (mask_length w) as Hml. destruct (noise_mask noise w) as [mask w1] eqn:Em. cbn [fst] in Hml.
  assert (wr_written w1 = wr_written w ∧ wr_closed w1 = false ∧ wr_room w1 = wr_room w) as (Hw1 & Hw2 & Hw3).
  { unfold noise_mask, next_u64 in Em. cbn in Em. injection Em as _ <-. done. }
  assert (∀ rest, server_read (encode_frame op p mask ++ rest) = Some (op, p, rest)) as Hr by (intros rest; by apply server_reads).
  unfold ws_send. rewrite Em, Hw2. cbv zeta. unfold write_all. cbn [until_close]. destruct (op =? 8) eqn:E8.
  - cbn [wr_room wr_written wr_counter wr_closed]. rewrite Hw3. destruct (wr_room w) as [[|n]|]; cbn [snd].
    + exists []. rewrite sends_closed by done. cbn [wr_written]. rewrite app_nil_r. split; [done|constructor].
    + exists [encode_frame op p mask]. rewrite sends_closed by done. cbn [wr_written]. rewrite Hw1. split; [done|]. cbn [within take]. rewrite take_nil. by repeat constructor.
    + exists [encode_frame op p mask]. rewrite sends_closed by done. cbn [wr_written]. rewrite Hw1. split; [done|]. by repeat constructor.
  - rewrite Hw3. destruct (wr_room w) as [[|n]|] eqn:Er; cbn [snd].
    + destruct (IH w1 Hw2) as (fs & -> & Hfs); [done|]. rewrite Hw3 in Hfs. cbn [within take] in Hfs. inversion Hfs; subst fs.
      exists []. rewrite Hw1. split; [done|constructor].
    + destruct (IH (mkWriter (wr_written w1 ++ [encode_frame op p mask]) (wr_closed w1) (Some n) (wr_counter w1)) Hw2) as (fs & -> & Hfs); [done|].
      exists (encode_frame op p mask :: fs). cbn [wr_written wr_room] in *. rewrite Hw1, <- app_assoc. split; [done|]. by constructor.
    + destruct (IH (mkWriter (wr_written w1 ++ [encode_frame op p mask]) (wr_closed w1) None (wr_counter w1)) Hw2) as (fs & -> & Hfs); [done|].
      exists (encode_frame op p mask :: fs). cbn [wr_written wr_room] in *. rewrite Hw1, <- app_assoc. split; [done|]. by constructor.
Qed.
End Sends.

(** What the client sends is read as it was sent.  Whatever the masks drawn, a server
    that reads as RFC 6455 says gets every frame with its opcode and payload, in order; after
    the first close nothing more is written, and a stream that breaks cuts what is sent and
    reorders nothing. *)
Theorem client_frames_read (noise : Z → Z) (room : option nat) (ops : list (Z * list Z)) :
  Forall (λ o, 0 ≤ o.1 < 16 ∧ Z.of_nat (length o.2) < 2 ^ 64) ops →
  Forall2 (λ frame op, ∀ rest, server_read (frame ++ rest) = Some (op.1, op.2, rest))
    (wr_written (sends noise ops (mkWriter [] false room 0))) (within room (until_close ops)).
Proof. intros Hf. destruct (sends_spec noise ops (mkWriter [] false room 0) eq_refl Hf) as (fs & -> & Hfs). exact Hfs. Qed.

Lemma client_frames_read_witness :
  Forall2 (λ frame op, ∀ rest, server_read (frame ++ rest) = Some (op.1, op.2, rest))
    (wr_written (sends (λ n, n * 65537) [(1, bs "hi"); (8, [3; 232]); (1, bs "late")] (mkWriter [] false None 0))) [(1, bs "hi"); (8, [3; 232])].
Proof.
  exact (client_frames_read (λ n, n * 65537) None [(1, bs "hi"); (8, [3; 232]); (1, bs "late")] ltac:(repeat constructor; vm_compute; congruence)).
Defined.
