(* ===== verification/MemoryNetwork.v ===== *)
(** * The in-memory transport ([transports/memory/src/network.rs], [faults.rs], [transport.rs])

    The network that endpoints join, with its queue of copies, and the endpoint that keeps the
    transport contract over it.  A function is one hold of the network's lock; the clock's
    reading is an argument.  Handlers are numbers.  The delivery thread's run, and the waits of
    [leave] and [unsubscribe], are in [MemoryRuns]. *)

From S2P Require Import Prelude Ordered Ids Transport.

Definition DEFAULT_MAX_PAYLOAD_OCTETS : Z := MIN_MAX_PAYLOAD_OCTETS.

(** ** Health ([core/src/health.rs]) *)

Inductive HealthState : Type := HS_Healthy | HS_Degraded | HS_Unavailable.

Definition HealthState_as_str (s : HealthState) : list Z :=
  match s with HS_Healthy => bs "healthy" | HS_Degraded => bs "degraded" | HS_Unavailable => bs "unavailable" end.

Record HealthStatus := mkHealth { hs_state : HealthState; hs_detail : option (list Z) }.

(** ** Faults *)

Record PublishInfo := mkPublishInfo { pi_destination : Destination; pi_kind : PayloadKind; pi_len : Z }.

(** One delay per copy, in nanoseconds. *)
Class FaultInjector (F : Type) := {
  fault_copies : PublishInfo → F → list Z * F;
  fault_preserves_order : F → bool }.

Inductive NoFaults : Type := mkNoFaults.
#[export] Instance NoFaults_injector : FaultInjector NoFaults := {| fault_copies _ f := ([0], f); fault_preserves_order _ := true |}.

Record FixedDelay := mkFixedDelay { fd_delay : Z }.
#[export] Instance FixedDelay_injector : FaultInjector FixedDelay :=
  {| fault_copies _ f := ([fd_delay f], f); fault_preserves_order _ := true |}.

(** [ScriptedFaults], with the operations that add to its script. *)
Record ScriptedFaults := mkScripted { sf_script : list (list Z) }.
#[export] Instance ScriptedFaults_injector : FaultInjector ScriptedFaults :=
  {| fault_copies _ f := match sf_script f with d :: rest => (d, mkScripted rest) | [] => ([0], f) end;
     fault_preserves_order _ := false |}.

Definition scripted_push (delays : list Z) (f : ScriptedFaults) : ScriptedFaults := mkScripted (sf_script f ++ [delays]).
Definition scripted_lose : ScriptedFaults → ScriptedFaults := scripted_push [].
Definition scripted_duplicate (copies : nat) : ScriptedFaults → ScriptedFaults := scripted_push (replicate copies 0).

(** ** The network *)

Definition EndpointId : Type := Z.
Definition SubId : Type := Z.

Inductive To : Type := To_Sub (sub : SubId) | To_Watchers.
#[export] Instance To_eq_dec : EqDecision To.
Proof. solve_decision. Defined.

Inductive Item : Type :=
| It_Copy (source : EndpointId) (recipients : list (EndpointId * To)) (payload : Payload) (deadline : Deadline)
| It_CarrierLoss (source target : EndpointId)
| It_CarrierAppeared (source target : EndpointId).

Definition item_expired (now : Z) (item : Item) : bool :=
  match item with It_Copy _ _ _ deadline => has_passed_at deadline now | _ => false end.

(** [Item::forget_endpoint] and [Item::forget_subscription]: what is left, if it is kept. *)
Definition forget_endpoint (endpoint : EndpointId) (item : Item) : option Item :=
  match item with
  | It_Copy source recipients payload deadline =>
      let recipients := List.filter (λ r, negb (r.1 =? endpoint)) recipients in
      then_some (negb (source =? endpoint) && negb (bool_decide (recipients = []))) (It_Copy source recipients payload deadline)
  | It_CarrierLoss _ target => then_some (negb (target =? endpoint)) item
  | It_CarrierAppeared source target => then_some (negb (source =? endpoint) && negb (target =? endpoint)) item
  end.

Definition forget_subscription (endpoint : EndpointId) (sub : SubId) (item : Item) : option Item :=
  match item with
  | It_Copy source recipients payload deadline =>
      let recipients := List.filter (λ r, negb (bool_decide (r = (endpoint, To_Sub sub)))) recipients in
      then_some (negb (bool_decide (recipients = []))) (It_Copy source recipients payload deadline)
  | _ => Some item
  end.

Record Endpoint := mkEndpoint {
  ep_key : KeyId; ep_subs : gmap SubId (Destination * Z); ep_watchers : list Z; ep_links_from : gset EndpointId;
  ep_unreported : list EndpointId }.

Definition set_subs (subs : gmap SubId (Destination * Z)) (e : Endpoint) : Endpoint :=
  mkEndpoint (ep_key e) subs (ep_watchers e) (ep_links_from e) (ep_unreported e).
Definition set_links (links : gset EndpointId) (e : Endpoint) : Endpoint :=
  mkEndpoint (ep_key e) (ep_subs e) (ep_watchers e) links (ep_unreported e).
Definition set_unreported (l : list EndpointId) (e : Endpoint) : Endpoint :=
  mkEndpoint (ep_key e) (ep_subs e) (ep_watchers e) (ep_links_from e) l.
Definition add_watcher (h : Z) (e : Endpoint) : Endpoint :=
  mkEndpoint (ep_key e) (ep_subs e) (ep_watchers e ++ [h]) (ep_links_from e) (ep_unreported e).

(** What does not change: the fields of [Shared] beside the lock. *)
Record NetConfig := mkNetConfig { nc_reach : Reach; nc_max_payload_octets : Z; nc_ordering : bool; nc_last_instant : Z }.

(** The builder's settings: the largest payload is at least the floor. *)
Definition build_config {F} `{FaultInjector F} (reach : Reach) (max_payload_octets last_instant : Z) (faults : F) : NetConfig :=
  mkNetConfig reach (Z.max max_payload_octets DEFAULT_MAX_PAYLOAD_OCTETS) (fault_preserves_order faults) last_instant.

(** [State], under the lock. *)
Record Net (F : Type) := mkNet {
  nt_endpoints : gmap EndpointId Endpoint; nt_local_key : option KeyId; nt_next_id : Z;
  nt_queue : gmap (Z * Z) Item; nt_delivering : option (EndpointId * option SubId); nt_faults : F }.
Arguments mkNet {F}.
Arguments nt_endpoints {F}.
Arguments nt_local_key {F}.
Arguments nt_next_id {F}.
Arguments nt_queue {F}.
Arguments nt_delivering {F}.
Arguments nt_faults {F}.

Definition build_net {F} (faults : F) : Net F := mkNet ∅ None 0 ∅ None faults.

Definition carrier (source target : EndpointId) : CarrierHandle := be_digits 256 8 source ++ be_digits 256 8 target.

(** [now.checked_add(delay)]. *)
Definition checked_add (cfg : NetConfig) (now delay : Z) : option Z := then_some (now + delay <=? nc_last_instant cfg) (now + delay).

(** What the delivery thread calls: a handler, and what it is given. *)
Inductive NetEvent : Type := NE_Inbound (i : InboundPayload) | NE_Presence (e : PresenceEvent).

Definition capabilities (cfg : NetConfig) : TransportCapabilities :=
  mkTransportCaps false false false (nc_ordering cfg) false false (nc_reach cfg) false (nc_max_payload_octets cfg) false.

Section Network.
Context {F : Type} `{FI : FaultInjector F} `{MO : MapOrder} (cfg : NetConfig).

Definition set_queue (q : gmap (Z * Z) Item) (st : Net F) : Net F :=
  mkNet (nt_endpoints st) (nt_local_key st) (nt_next_id st) q (nt_delivering st) (nt_faults st).
Definition set_endpoints (m : gmap EndpointId Endpoint) (st : Net F) : Net F :=
  mkNet m (nt_local_key st) (nt_next_id st) (nt_queue st) (nt_delivering st) (nt_faults st).
Definition set_delivering (d : option (EndpointId * option SubId)) (st : Net F) : Net F :=
  mkNet (nt_endpoints st) (nt_local_key st) (nt_next_id st) (nt_queue st) d (nt_faults st).
Definition set_faults (f : F) (st : Net F) : Net F :=
  mkNet (nt_endpoints st) (nt_local_key st) (nt_next_id st) (nt_queue st) (nt_delivering st) f.

(** [st.next_id += 1], a [u64], and what is queued or made under it. *)
Definition next_id (st : Net F) : Z * Net F :=
  let id := nt_next_id st + 1 in
  (id, mkNet (nt_endpoints st) (nt_local_key st) id (nt_queue st) (nt_delivering st) (nt_faults st)).

Definition enqueue (due : Z) (item : Item) (st : Net F) : Net F :=
  let '(seq, st) := next_id st in set_queue (<[ (due, seq) := item ]> (nt_queue st)) st.

Definition purge_expired (now : Z) (st : Net F) : Net F :=
  set_queue (filter (λ x, item_expired now x.2 = false) (nt_queue st)) st.

Definition next_deadline (st : Net F) : option Z :=
  list_min (omap (λ x, match x.2 with It_Copy _ _ _ deadline => Some deadline | _ => None end) (map_to_list (nt_queue st))).

Definition next_event (st : Net F) : option Z :=
  match fst <$> first (dom (nt_queue st)), next_deadline st with
  | Some a, Some b => Some (Z.min a b)
  | Some a, None => Some a
  | None, b => b
  end.

Definition queue_appearances (now : Z) (target : EndpointId) (st : Net F) : Net F :=
  match nt_endpoints st !! target with
  | None => st
  | Some e =>
      if bool_decide (ep_watchers e = []) || bool_decide (ep_unreported e = []) then st
      else
        let st := set_endpoints (<[ target := set_unreported [] e ]> (nt_endpoints st)) st in
        foldl (λ st source, enqueue now (It_CarrierAppeared source target) st) st (ep_unreported e)
  end.

(** One peer of [join]: it has a new link to report. *)
Definition join_peer (now id : Z) (st : Net F) (peer : EndpointId) : Net F :=
  let st := match nt_endpoints st !! peer with
            | Some e => set_endpoints (<[ peer := set_unreported (ep_unreported e ++ [id]) e ]> (nt_endpoints st)) st
            | None => st
            end in
  queue_appearances now peer st.

Definition net_join (now : Z) (key : KeyId) (st : Net F) : result TransportError EndpointId * Net F :=
  if match nc_reach cfg with LocalOnly => match nt_local_key st with Some k => negb (beq k key) | None => false end | _ => false end
  then (Err (TE_InvalidConfiguration "a local-only network carries payloads for one device key"), st)
  else if existsb (λ x, beq (ep_key x.2) key) (map_items (nt_endpoints st))
  then (Err (TE_InvalidConfiguration "that device key already has a running transport on this network"), st)
  else
    let local := match nt_local_key st with Some k => Some k | None => Some key end in
    let '(id, st) := next_id (mkNet (nt_endpoints st) local (nt_next_id st) (nt_queue st) (nt_delivering st) (nt_faults st)) in
    let peers := map_keys (nt_endpoints st) in
    let st := set_endpoints (<[ id := mkEndpoint key ∅ [] ∅ peers ]> (nt_endpoints st)) st in
    (Ok id, foldl (join_peer now id) st peers).

(** [leave] up to its wait. *)
Definition net_leave (now : Z) (id : EndpointId) (st : Net F) : Net F :=
  match nt_endpoints st !! id with
  | None => st
  | Some _ =>
      let st := set_endpoints (delete id (nt_endpoints st)) st in
      let st := set_queue (omap (forget_endpoint id) (nt_queue st)) st in
      let st := set_endpoints ((λ e, set_unreported (List.filter (λ p, negb (p =? id)) (ep_unreported e)) e) <$> nt_endpoints st) st in
      let peers := map fst (List.filter (λ x, bool_decide (id ∈ ep_links_from x.2)) (map_items (nt_endpoints st))) in
      let st := set_endpoints ((λ e, set_links (ep_links_from e ∖ {[ id ]}) e) <$> nt_endpoints st) st in
      foldl (λ st target, enqueue now (It_CarrierLoss id target) st) st peers
  end.

(** Whom a payload is bound to: presence to watchers of the device, all else to subscriptions. *)
Definition recipients_of (destination : Destination) (presence : bool) (st : Net F) : list (EndpointId * To) :=
  mjoin (map (λ '(id, e),
    if presence then
      (if bool_decide (destination = Dest_Device (ep_key e)) && negb (bool_decide (ep_watchers e = [])) then [(id, To_Watchers)] else [])
    else
      map (λ x, (id, To_Sub x.1)) (List.filter (λ x, bool_decide (x.2.1 = destination)) (map_items (ep_subs e))))
    (map_items (nt_endpoints st))).

(** One copy of [publish]. *)
Definition publish_copy (now : Z) (source : EndpointId) (recipients : list (EndpointId * To)) (payload : Payload) (deadline : Deadline)
    (st : Net F) (delay : Z) : Net F :=
  match checked_add cfg now delay with
  | None => st
  | Some due => if has_passed_at deadline due then st else enqueue due (It_Copy source recipients payload deadline) st
  end.

Definition net_publish (now : Z) (source : EndpointId) (destination : Destination) (payload : Payload) (deadline : Deadline)
    (presence : bool) (st : Net F) : PublishResult * Net F :=
  if negb (is_some (nt_endpoints st !! source)) || negb (eqb (bool_decide (pl_kind payload = PK_Presence)) presence) ||
     negb (payload_fits (pl_kind payload) destination) || (nc_max_payload_octets cfg <? Z.of_nat (length (pl_octets payload)))
  then (NotTaken, st)
  else if has_passed_at deadline now then (NotTaken, st)
  else
    let '(delays, faults) := fault_copies (mkPublishInfo destination (pl_kind payload) (Z.of_nat (length (pl_octets payload)))) (nt_faults st) in
    let st := set_faults faults st in
    (Taken, foldl (publish_copy now source (recipients_of destination presence st) payload deadline) st delays).

Definition net_subscribe (endpoint : EndpointId) (destination : Destination) (handler : Z) (st : Net F)
    : result TransportError SubId * Net F :=
  let '(sub, st) := next_id st in
  match nt_endpoints st !! endpoint with
  | None => (Err TE_NotStarted, st)
  | Some e =>
      if match destination with Dest_Device k => negb (beq k (ep_key e)) | Dest_Session _ => false end then (Err TE_NotLocalDevice, st)
      else (Ok sub, set_endpoints (<[ endpoint := set_subs (<[ sub := (destination, handler) ]> (ep_subs e)) e ]> (nt_endpoints st)) st)
  end.

(** [unsubscribe] up to its wait. *)
Definition net_unsubscribe (endpoint : EndpointId) (sub : SubId) (st : Net F) : Net F :=
  match nt_endpoints st !! endpoint with
  | None => st
  | Some e =>
      match ep_subs e !! sub with
      | None => st
      | Some _ =>
          let st := set_endpoints (<[ endpoint := set_subs (delete sub (ep_subs e)) e ]> (nt_endpoints st)) st in
          set_queue (omap (forget_subscription endpoint sub) (nt_queue st)) st
      end
  end.

Definition net_watch (now : Z) (endpoint : EndpointId) (handler : Z) (st : Net F) : result TransportError unit * Net F :=
  match nt_endpoints st !! endpoint with
  | None => (Err TE_NotStarted, st)
  | Some e => (Ok tt, queue_appearances now endpoint (set_endpoints (<[ endpoint := add_watcher handler e ]> (nt_endpoints st)) st))
  end.

(** What [net_resolve] returns: the calls, and the handler's place, which is [delivering]. *)
Record Running := mkRunning { rn_calls : list (Z * NetEvent); rn_endpoint : EndpointId; rn_sub : option SubId }.

Definition watchers_run (target : EndpointId) (e : Endpoint) (event : PresenceEvent) : Running :=
  mkRunning (map (λ h, (h, NE_Presence event)) (ep_watchers e)) target None.

Definition link (source target : EndpointId) (e : Endpoint) (st : Net F) : Net F :=
  set_endpoints (<[ target := set_links (ep_links_from e ∪ {[ source ]}) e ]> (nt_endpoints st)) st.

Definition net_resolve (key : Z * Z) (st : Net F) : option Running * Net F :=
  match nt_queue st !! key with
  | None => (None, st)
  | Some item =>
      let st := set_queue (delete key (nt_queue st)) st in
      match item with
      | It_Copy source recipients payload deadline =>
          match recipients with
          | [] => (None, st)
          | (target, to) :: recipients =>
              let st := if bool_decide (recipients = []) then st
                        else set_queue (<[ key := It_Copy source recipients payload deadline ]> (nt_queue st)) st in
              match nt_endpoints st !! target with
              | None => (None, st)
              | Some e =>
                  match to with
                  | To_Sub sub =>
                      match ep_subs e !! sub with
                      | None => (None, st)
                      | Some (_, handler) =>
                          (Some (mkRunning [(handler, NE_Inbound (mkInbound payload (carrier source target)))] target (Some sub)), link source target e st)
                      end
                  | To_Watchers => (Some (watchers_run target e (PE_Record payload (carrier source target))), link source target e st)
                  end
              end
          end
      | It_CarrierLoss source target =>
          match nt_endpoints st !! target with
          | None => (None, st)
          | Some e => (Some (watchers_run target e (PE_CarrierLoss (carrier source target))), st)
          end
      | It_CarrierAppeared source target =>
          match nt_endpoints st !! target with
          | None => (None, st)
          | Some e => (Some (watchers_run target e (PE_CarrierAppeared (carrier source target))), link source target e st)
          end
      end
  end.

(** One turn of [run] under the lock: the expired copies go, and the first due item is taken. *)
Definition deliver_turn (now : Z) (st : Net F) : option Running * Net F :=
  let st := purge_expired now st in
  match first (dom (nt_queue st)) with
  | Some key =>
      if key.1 <=? now then
        let '(r, st) := net_resolve key st in
        (r, match r with Some r => set_delivering (Some (rn_endpoint r, rn_sub r)) st | None => st end)
      else (None, st)
  | None => (None, st)
  end.

(** ** One endpoint: [MemoryTransport] *)

Inductive Phase : Type := Ph_NotStarted | Ph_Running (endpoint : EndpointId) | Ph_ShutDown.

(** [start]; [memory] is whether the configuration is one of this transport. *)
Definition transport_start (now : Z) (local_device : KeyId) (memory : bool) (p : Phase) (st : Net F)
    : result TransportError TransportCapabilities * Phase * Net F :=
  match p with
  | Ph_Running _ => (Err TE_AlreadyStarted, p, st)
  | _ =>
      if negb memory then (Err (TE_InvalidConfiguration "not an in-memory transport configuration"), p, st)
      else
        match net_join now local_device st with
        | (Err e, st) => (Err e, p, st)
        | (Ok endpoint, st) => (Ok (capabilities cfg), Ph_Running endpoint, st)
        end
  end.

Definition transport_publish (now : Z) (presence : bool) (destination : Destination) (payload : Payload) (deadline : Deadline)
    (p : Phase) (st : Net F) : PublishResult * Net F :=
  match p with
  | Ph_Running endpoint => net_publish now endpoint destination payload deadline presence st
  | _ => (NotTaken, st)
  end.

Definition transport_subscribe (destination : Destination) (handler : Z) (p : Phase) (st : Net F) : result TransportError SubId * Net F :=
  match p with
  | Ph_Running endpoint => net_subscribe endpoint destination handler st
  | _ => (Err TE_NotStarted, st)
  end.

Definition transport_watch_presence (now : Z) (handler : Z) (p : Phase) (st : Net F) : result TransportError unit * Net F :=
  match p with
  | Ph_Running endpoint => net_watch now endpoint handler st
  | _ => (Err TE_NotStarted, st)
  end.

Definition transport_health (p : Phase) : HealthStatus :=
  match p with
  | Ph_NotStarted => mkHealth HS_Unavailable (Some (bs "not started"))
  | Ph_Running _ => mkHealth HS_Healthy None
  | Ph_ShutDown => mkHealth HS_Unavailable (Some (bs "shut down"))
  end.

(** [shutdown] up to the wait of [leave]. *)
Definition transport_shutdown (now : Z) (p : Phase) (st : Net F) : Phase * Net F :=
  match p with
  | Ph_Running endpoint => (Ph_ShutDown, net_leave now endpoint st)
  | _ => (p, st)
  end.
End Network.
