(* ===== verification/MemoryRuns.v ===== *)
(** * Runs of the in-memory network

    The delivery thread ([Shared::run]) and the callers of any number of endpoints, in any
    interleaving: a step is one hold of the lock, one call of a handler, or the return of a
    [leave] or [unsubscribe] that waited for the delivery thread. *)

From stdpp Require Import sorting.
From S2P Require Import Prelude Ordered Ids Transport MemoryNetwork.

(** A copy handed over: when, under which key of the queue, to whom. *)
Record Handed := mkHanded { ha_at : Z; ha_key : Z * Z; ha_target : EndpointId; ha_to : To; ha_destination : Destination;
  ha_source : EndpointId; ha_payload : Payload; ha_deadline : Z }.

(** A payload taken: when, from whom, and the numbers its copies may have. *)
Record Published := mkPublished {
  pu_at : Z; pu_source : EndpointId; pu_destination : Destination; pu_payload : Payload; pu_deadline : Z; pu_after : Z; pu_last : Z }.

(** A call of a handler: of which endpoint, and of which subscription of it. *)
Record HandlerCall := mkCall { hc_endpoint : EndpointId; hc_sub : option SubId; hc_handler : Z; hc_event : NetEvent }.

Record Sys (F : Type) := mkSys {
  sy_net : Net F; sy_now : Z;
  sy_pending : list HandlerCall;  (** the calls the delivery thread has still to make *)
  sy_called : list HandlerCall;
  sy_handed : list Handed;
  sy_published : list Published;
  sy_left : list EndpointId;  (** endpoints whose [leave] has returned after its wait *)
  sy_ended : list (EndpointId * SubId)  (** subscriptions whose [unsubscribe] has *) }.
Arguments mkSys {F}.
Arguments sy_net {F}.
Arguments sy_now {F}.
Arguments sy_pending {F}.
Arguments sy_called {F}.
Arguments sy_handed {F}.
Arguments sy_published {F}.
Arguments sy_left {F}.
Arguments sy_ended {F}.

Section Runs.
Context {F : Type} `{FI : FaultInjector F} `{MO : MapOrder} (cfg : NetConfig).

Definition with_net (n : Net F) (s : Sys F) : Sys F :=
  mkSys n (sy_now s) (sy_pending s) (sy_called s) (sy_handed s) (sy_published s) (sy_left s) (sy_ended s).

(** What a recipient is there for. *)
Definition destination_of (to : To) (e : Endpoint) : option Destination :=
  match to with
  | To_Sub sub => fst <$> ep_subs e !! sub
  | To_Watchers => Some (Dest_Device (ep_key e))
  end.

(** The copy the next turn of the delivery thread hands over, if it does. *)
Definition handing (now : Z) (st : Net F) : option Handed :=
  key ← first (dom (nt_queue (purge_expired now st)));
  match nt_queue st !! key with
  | Some (It_Copy source ((target, to) :: _) payload deadline) =>
      e ← nt_endpoints st !! target;
      d ← destination_of to e;
      Some (mkHanded now key target to d source payload deadline)
  | _ => None
  end.

Definition calls_of (r : Running) : list HandlerCall :=
  map (λ '(h, e), mkCall (rn_endpoint r) (rn_sub r) h e) (rn_calls r).

Definition delivering_to (id : EndpointId) (st : Net F) : bool :=
  match nt_delivering st with Some (e, _) => e =? id | None => false end.

(** What a caller does under the lock. *)
Inductive op_step (now : Z) : Net F → Net F → option Published → Prop :=
| Op_join key st : op_step now st (net_join cfg now key st).2 None
| Op_leave id st : op_step now st (net_leave now id st) None
| Op_publish source destination payload deadline presence st st' :
    net_publish cfg now source destination payload deadline presence st = (Taken, st') →
    op_step now st st' (Some (mkPublished now source destination payload deadline (nt_next_id st) (nt_next_id st')))
| Op_not_taken source destination payload deadline presence st st' :
    net_publish cfg now source destination payload deadline presence st = (NotTaken, st') → op_step now st st' None
| Op_subscribe endpoint destination handler st : op_step now st (net_subscribe endpoint destination handler st).2 None
| Op_unsubscribe endpoint sub st : op_step now st (net_unsubscribe endpoint sub st) None
| Op_watch endpoint handler st : op_step now st (net_watch now endpoint handler st).2 None.

(** The delivery thread ([Shared::run]): its turns under the lock, the calls it makes of what a
    turn took, each outside the lock, and the hold that ends them. *)
Inductive delivery_step : Sys F → Sys F → Prop :=
| Th_deliver s r n : nt_delivering (sy_net s) = None → deliver_turn (sy_now s) (sy_net s) = (Some r, n) →
    delivery_step s (mkSys n (sy_now s) (calls_of r) (sy_called s) (sy_handed s ++ option_list (handing (sy_now s) (sy_net s)))
      (sy_published s) (sy_left s) (sy_ended s))
| Th_idle s n : nt_delivering (sy_net s) = None → deliver_turn (sy_now s) (sy_net s) = (None, n) → delivery_step s (with_net n s)
| Th_call s c cs : sy_pending s = c :: cs →
    delivery_step s (mkSys (sy_net s) (sy_now s) cs (sy_called s ++ [c]) (sy_handed s) (sy_published s) (sy_left s) (sy_ended s))
| Th_done s : nt_delivering (sy_net s) ≠ None → sy_pending s = [] → delivery_step s (with_net (set_delivering None (sy_net s)) s).

(** The network's own threads: the delivery thread and the purge thread ([Shared::reap]). *)
Inductive thread_step : Sys F → Sys F → Prop :=
| Th_delivery s s' : delivery_step s s' → thread_step s s'
| Th_purge s : thread_step s (with_net (purge_expired (sy_now s) (sy_net s)) s).

Inductive sys_step : Sys F → Sys F → Prop :=
| Ss_tick s t : sy_now s ≤ t →
    sys_step s (mkSys (sy_net s) t (sy_pending s) (sy_called s) (sy_handed s) (sy_published s) (sy_left s) (sy_ended s))
| Ss_op s n p : op_step (sy_now s) (sy_net s) n p →
    sys_step s (mkSys n (sy_now s) (sy_pending s) (sy_called s) (sy_handed s) (sy_published s ++ option_list p) (sy_left s) (sy_ended s))
| Ss_thread s s' : thread_step s s' → sys_step s s'
| Ss_leave_returns s (id : EndpointId) :
    nt_endpoints (sy_net s) !! id = None → id ≤ nt_next_id (sy_net s) → delivering_to id (sy_net s) = false →
    sys_step s (mkSys (sy_net s) (sy_now s) (sy_pending s) (sy_called s) (sy_handed s) (sy_published s) (id :: sy_left s) (sy_ended s))
| Ss_unsubscribe_returns s (id : EndpointId) (sub : SubId) :
    (∀ e, nt_endpoints (sy_net s) !! id = Some e → ep_subs e !! sub = None) → id ≤ nt_next_id (sy_net s) → sub ≤ nt_next_id (sy_net s) →
    nt_delivering (sy_net s) ≠ Some (id, Some sub) →
    sys_step s (mkSys (sy_net s) (sy_now s) (sy_pending s) (sy_called s) (sy_handed s) (sy_published s) (sy_left s) ((id, sub) :: sy_ended s)).

Definition sys_start (now : Z) (faults : F) : Sys F := mkSys (build_net faults) now [] [] [] [] [] [].

Definition reachable (s : Sys F) : Prop := ∃ now faults, rtc sys_step (sys_start now faults) s.
End Runs.

(** ** What an operation changes *)

Section Changes.
Context {F : Type} `{FI : FaultInjector F} `{MO : MapOrder} (cfg : NetConfig).

(** Every number in use was drawn. *)
Record ids_ok (st : Net F) : Prop := {
  io_endpoint (id : EndpointId) e : nt_endpoints st !! id = Some e → id ≤ nt_next_id st;
  io_sub (id : EndpointId) e (sub : SubId) x : nt_endpoints st !! id = Some e → ep_subs e !! sub = Some x → sub ≤ nt_next_id st;
  io_queue key item : nt_queue st !! key = Some item → key.2 ≤ nt_next_id st }.

(** A recipient that is there, for this destination. *)
Definition bound (st : Net F) (d : Destination) (r : EndpointId * To) : Prop :=
  ∃ e, nt_endpoints st !! r.1 = Some e ∧ destination_of r.2 e = Some d.

(** What every step but the taking of a payload does: numbers only grow, what is gone stays
    gone, and a copy in the queue was there, with those of its recipients that are still there. *)
Record calm (st st' : Net F) : Prop := {
  cm_ids : nt_next_id st ≤ nt_next_id st';
  cm_still : nt_delivering st' = nt_delivering st ∧ nt_faults st' = nt_faults st;
  cm_old (id : EndpointId) e' : nt_endpoints st' !! id = Some e' → id ≤ nt_next_id st →
    ∃ e, nt_endpoints st !! id = Some e ∧ ∀ (sub : SubId) x, ep_subs e' !! sub = Some x → sub ≤ nt_next_id st → ep_subs e !! sub = Some x;
  cm_new : ids_ok st → ids_ok st';
  cm_copy key source recs p d : nt_queue st' !! key = Some (It_Copy source recs p d) →
    ∃ recs0, nt_queue st !! key = Some (It_Copy source recs0 p d) ∧ recs `sublist_of` recs0 ∧
      ∀ dest r, r ∈ recs → bound st dest r → bound st' dest r }.

#[export] Instance calm_preorder : PreOrder calm.
Proof.
  split.
  - intros st. split; [done|done| |done|].
    + intros id e' He _. eauto.
    + intros key source recs p d Hq. exists recs. split_and!; [done|done|auto].
  - intros a b c [I1 [D1 F1] O1 N1 C1] [I2 [D2 F2] O2 N2 C2]. split; [lia|split; congruence| |auto|].
    + intros id e'' He Hid. destruct (O2 id e'' He ltac:(lia)) as (e' & He' & Hs'). destruct (O1 id e' He' Hid) as (e & He0 & Hs).
      exists e. split; [done|]. intros sub x Hx Hsub. apply Hs; [|done]. apply Hs'; [done|lia].
    + intros key source recs p d Hq. destruct (C2 _ _ _ _ _ Hq) as (r1 & Hq1 & Hs1 & Hb1). destruct (C1 _ _ _ _ _ Hq1) as (r0 & Hq0 & Hs0 & Hb0).
      exists r0. split_and!; [done|by etrans|]. intros dest r Hr Hb. apply Hb1; [done|]. apply Hb0; [|done]. by eapply elem_of_sublist.
Qed.

(** An endpoint changed in place keeps its key and subscriptions. *)
Definition same_place (e e' : Endpoint) : Prop := ep_key e' = ep_key e ∧ ep_subs e' = ep_subs e.

Lemma calm_endpoint st id e e' :
  nt_endpoints st !! id = Some e → same_place e e' → calm st (set_endpoints (<[ id := e' ]> (nt_endpoints st)) st).
Proof.
  intros He [Hk Hs]. assert (∀ i x', <[ id := e' ]> (nt_endpoints st) !! i = Some x' → ∃ x, nt_endpoints st !! i = Some x ∧ ep_subs x' = ep_subs x) as Hl.
  { intros i x' Hi. destruct (decide (i = id)) as [->|Hne]; [rewrite lookup_insert_eq in Hi; injection Hi as <-; eauto|].
    rewrite lookup_insert_ne in Hi by done. eauto. }
  split; [done|done| | |].
  - intros i x' Hi _. destruct (Hl i x' Hi) as (x & Hx & Hsub). exists x. split; [done|]. rewrite Hsub. auto.
  - intros [I1 I2 I3]. split; [| |done]; cbn.
    + intros i x' Hi. destruct (Hl i x' Hi) as (x & Hx & _). eauto.
    + intros i x' sub y Hi Hy. destruct (Hl i x' Hi) as (x & Hx & Hsub). rewrite Hsub in Hy. eauto.
  - intros key source recs p d Hq. exists recs. split_and!; [done|done|]. intros dest [t to] _ (x & Hx & Hd). cbn in Hx, Hd |- *. unfold bound. cbn.
    destruct (decide (t = id)) as [->|Hne]; [rewrite lookup_insert_eq|rewrite lookup_insert_ne by done; eauto].
    exists e'. split; [done|]. rewrite He in Hx. injection Hx as <-. unfold destination_of in *. by rewrite Hk, Hs.
Qed.

Lemma calm_enqueue st due item : (∀ s r p d, item ≠ It_Copy s r p d) → calm st (enqueue due item st).
Proof.
  intros Hi. unfold enqueue, next_id. cbn. split; cbn; [lia|done|eauto| |].
  - intros [I1 I2 I3]. split; cbn.
    + intros id e He. specialize (I1 id e He). lia.
    + intros id e sub x He Hx. specialize (I2 id e sub x He Hx). lia.
    + intros key x Hq. apply lookup_insert_Some in Hq as [[<- _]|[_ Hq]]; [cbn; lia|]. specialize (I3 key x Hq). lia.
  - intros key source recs p d Hq. apply lookup_insert_Some in Hq as [[_ Hq]|[_ Hq]]; [by destruct (Hi source recs p d)|].
    exists recs. split_and!; [done|done|auto].
Qed.

Lemma calm_fold {A} (f : Net F → A → Net F) l st : (∀ st x, calm st (f st x)) → calm st (foldl f st l).
Proof. intros Hf. revert st. induction l as [|x l IH]; intros st; cbn; [done|]. etrans; [apply Hf|apply IH]. Qed.

Lemma calm_appearances now target st : calm st (queue_appearances now target st).
Proof.
  unfold queue_appearances. destruct (nt_endpoints st !! target) as [e|] eqn:Ee; [|done]. destruct (_ || _); [done|].
  etrans; [by eapply (calm_endpoint _ _ e (set_unreported [] e))|]. apply calm_fold. intros st' source. by apply calm_enqueue.
Qed.

Lemma calm_watch now endpoint handler st : calm st (net_watch now endpoint handler st).2.
Proof.
  unfold net_watch. destruct (nt_endpoints st !! endpoint) as [e|] eqn:Ee; [|done]. cbn [snd].
  etrans; [by eapply (calm_endpoint _ _ e (add_watcher handler e))|apply calm_appearances].
Qed.

Lemma calm_join_peer now id st peer : calm st (join_peer now id st peer).
Proof.
  unfold join_peer. destruct (nt_endpoints st !! peer) as [e|] eqn:Ee; [|apply calm_appearances].
  etrans; [by eapply (calm_endpoint _ _ e (set_unreported (ep_unreported e ++ [id]) e))|apply calm_appearances].
Qed.

(** A number drawn, and an endpoint that is new under it. *)
Lemma calm_new_endpoint st local key peers :
  let st1 := mkNet (nt_endpoints st) local (nt_next_id st + 1) (nt_queue st) (nt_delivering st) (nt_faults st) in
  ids_ok st → calm st (set_endpoints (<[ nt_next_id st + 1 := mkEndpoint key ∅ [] ∅ peers ]> (nt_endpoints st1)) st1).
Proof.
  intros st1 [I1 I2 I3]. split; cbn; [lia|done| | |].
  - intros id e' He Hid. rewrite lookup_insert_ne in He by lia. eauto.
  - intros _. split; cbn.
    + intros id e He. apply lookup_insert_Some in He as [[<- _]|[_ He]]; [lia|]. specialize (I1 id e He). lia.
    + intros id e sub x He Hx. apply lookup_insert_Some in He as [[_ <-]|[_ He]]; [cbn in Hx; by rewrite lookup_empty in Hx|]. specialize (I2 id e sub x He Hx). lia.
    + intros k item Hq. specialize (I3 k item Hq). lia.
  - intros k source recs p d Hq. exists recs. split_and!; [done|done|]. intros dest r _ (e & He & Hd). exists e. split; [|done]. cbn.
    rewrite lookup_insert_ne; [done|]. specialize (I1 _ _ He). lia.
Qed.

Lemma calm_join now key st : ids_ok st → calm st (net_join cfg now key st).2.
Proof.
  intros Hi. unfold net_join. destruct (match nc_reach cfg with LocalOnly => _ | _ => _ end); [done|]. destruct (existsb _ _); [done|].
  unfold next_id. cbn [snd nt_next_id nt_endpoints nt_queue nt_delivering nt_faults nt_local_key].
  etrans; [by apply (calm_new_endpoint st (match nt_local_key st with Some k => Some k | None => Some key end) key (map_keys (nt_endpoints st)))|].
  apply calm_fold. intros st' peer. apply calm_join_peer.
Qed.

Lemma calm_subscribe endpoint destination handler st : ids_ok st → calm st (net_subscribe endpoint destination handler st).2.
Proof.
  intros [I1 I2 I3]. unfold net_subscribe, next_id. cbn [nt_endpoints nt_next_id].
  assert (calm st (mkNet (nt_endpoints st) (nt_local_key st) (nt_next_id st + 1) (nt_queue st) (nt_delivering st) (nt_faults st))) as Hc.
  { split; cbn; [lia|done|eauto| |].
    - intros _. split; cbn; [intros id e He; specialize (I1 id e He)|intros id e sub x He Hx; specialize (I2 id e sub x He Hx)|intros k item Hq; specialize (I3 k item Hq)]; lia.
    - intros k source recs p d Hq. exists recs. split_and!; [done|done|auto]. }
  destruct (nt_endpoints st !! endpoint) as [e|] eqn:Ee; [|done]. destruct (match destination with Dest_Device _ => _ | _ => _ end); [done|]. cbn [snd].
  split; cbn; [lia|done| | |].
  - intros id e' He Hid. apply lookup_insert_Some in He as [[<- <-]|[_ He]]; [|eauto]. exists e. split; [done|]. cbn. intros sub x Hx Hs.
    by rewrite lookup_insert_ne in Hx by lia.
  - intros _. split; cbn.
    + intros id e' He. apply lookup_insert_Some in He as [[<- _]|[_ He]]; [specialize (I1 _ _ Ee)|specialize (I1 _ _ He)]; lia.
    + intros id e' sub x He Hx. apply lookup_insert_Some in He as [[<- <-]|[_ He]]; [|specialize (I2 _ _ _ _ He Hx); lia]. cbn in Hx.
      apply lookup_insert_Some in Hx as [[<- _]|[_ Hx]]; [lia|]. specialize (I2 _ _ _ _ Ee Hx). lia.
    + intros k item Hq. specialize (I3 k item Hq). lia.
  - intros k source recs p d Hq. exists recs. split_and!; [done|done|]. intros dest [t to] _ (x & Hx & Hd). cbn in Hx, Hd. unfold bound. cbn.
    destruct (decide (t = endpoint)) as [->|Hne]; [rewrite lookup_insert_eq|rewrite lookup_insert_ne by done; eauto].
    rewrite Ee in Hx. injection Hx as <-. eexists. split; [done|]. destruct to as [sub|]; cbn in *; [|done].
    destruct (ep_subs e !! sub) as [y|] eqn:Ey; [|done]. rewrite lookup_insert_ne; [by rewrite Ey|]. specialize (I2 _ _ _ _ Ee Ey). lia.
Qed.

Lemma calm_purge now st : calm st (purge_expired now st).
Proof.
  split; cbn; [lia|done|eauto| |].
  - intros [I1 I2 I3]. split; cbn; [done|done|]. intros k item [Hq _]%map_lookup_filter_Some. eauto.
  - intros k source recs p d [Hq _]%map_lookup_filter_Some. exists recs. split_and!; [done|done|auto].
Qed.

Lemma list_filter_sublist {A} (f : A → bool) l : List.filter f l `sublist_of` l.
Proof. induction l as [|x l IH]; cbn; [done|]. destruct (f x); by constructor. Qed.

Lemma elem_of_filter_true {A} (f : A → bool) l x : x ∈ List.filter f l → f x = true ∧ x ∈ l.
Proof. rewrite !list_elem_of_In, filter_In. tauto. Qed.

Lemma calm_unsubscribe endpoint sub st : calm st (net_unsubscribe endpoint sub st).
Proof.
  unfold net_unsubscribe. destruct (nt_endpoints st !! endpoint) as [e|] eqn:Ee; [|done]. destruct (ep_subs e !! sub) as [y|] eqn:Ey; [|done].
  split; cbn; [lia|done| | |].
  - intros id e' He Hid. apply lookup_insert_Some in He as [[<- <-]|[_ He]]; [|eauto]. exists e. split; [done|]. cbn. intros s x Hx _.
    by apply lookup_delete_Some in Hx as [_ ?].
  - intros [I1 I2 I3]. split; cbn.
    + intros id e' He. apply lookup_insert_Some in He as [[<- _]|[_ He]]; eauto.
    + intros id e' s x He Hx. apply lookup_insert_Some in He as [[<- <-]|[_ He]]; [|eauto]. cbn in Hx. apply lookup_delete_Some in Hx as [_ Hx]. eauto.
    + intros k item Hq. rewrite lookup_omap in Hq. destruct (nt_queue st !! k) as [x|] eqn:Ex; [|done]. eauto.
  - intros k source recs p d Hq. rewrite lookup_omap in Hq. destruct (nt_queue st !! k) as [x|] eqn:Ex; [|done]. cbn in Hq.
    destruct x as [s0 r0 p0 d0| |]; cbn in Hq; [|done|done]. unfold then_some in Hq. destruct (negb _); [|done]. injection Hq as <- <- <- <-.
    exists r0. split; [done|]. split; [apply list_filter_sublist|]. intros dest [t to] [Hf _]%elem_of_filter_true (x & Hx & Hd). cbn in Hx, Hd. unfold bound. cbn.
    apply negb_true_iff, bool_decide_eq_false in Hf.
    destruct (decide (t = endpoint)) as [->|Hne]; [rewrite lookup_insert_eq|rewrite lookup_insert_ne by done; eauto].
    rewrite Ee in Hx. injection Hx as <-. eexists. split; [done|]. destruct to as [s|]; cbn in *; [|done].
    rewrite lookup_delete_ne; [done|]. congruence.
Qed.

Lemma calm_leave now id st : calm st (net_leave now id st).
Proof.
  unfold net_leave. destruct (nt_endpoints st !! id) as [e0|] eqn:Ee; [|done]. cbv zeta. etrans; [|apply calm_fold; intros ??; by apply calm_enqueue].
  assert (∀ i x, (λ e, set_links (ep_links_from e ∖ {[id]}) e) <$> ((λ e, set_unreported (List.filter (λ p, negb (p =? id)) (ep_unreported e)) e) <$>
    delete id (nt_endpoints st)) !! i = Some x → i ≠ id ∧ ∃ y, nt_endpoints st !! i = Some y ∧ ep_subs x = ep_subs y ∧ ep_key x = ep_key y) as Hl.
  { intros i x Hi. rewrite lookup_fmap in Hi. destruct (_ !! i) as [z|] eqn:Ez in Hi; [|done]. injection Hi as <-.
    apply lookup_delete_Some in Ez as [Hne Hz]. split; [done|]. by exists z. }
  split; cbn; [lia|done| | |].
  - intros i x Hi _. rewrite lookup_fmap in Hi. destruct (Hl i x Hi) as (_ & y & Hy & Hs & _). exists y. split; [done|]. rewrite Hs. auto.
  - intros [I1 I2 I3]. split; cbn.
    + intros i x Hi. rewrite lookup_fmap in Hi. destruct (Hl i x Hi) as (_ & y & Hy & _). eauto.
    + intros i x sub z Hi Hz. rewrite lookup_fmap in Hi. destruct (Hl i x Hi) as (_ & y & Hy & Hs & _). rewrite Hs in Hz. eauto.
    + intros k item Hq. rewrite lookup_omap in Hq. destruct (nt_queue st !! k) as [x|] eqn:Ex; [|done]. eauto.
  - intros k source recs p d Hq. rewrite lookup_omap in Hq. destruct (nt_queue st !! k) as [x|] eqn:Ex; [|done]. cbn in Hq.
    destruct x as [s0 r0 p0 d0| |]; cbn in Hq; [|unfold then_some in Hq; by case_match..]. unfold then_some in Hq. destruct (_ && _); [|done]. injection Hq as <- <- <- <-.
    exists r0. split; [done|]. split; [apply list_filter_sublist|]. intros dest [t to] [Hf _]%elem_of_filter_true (x & Hx & Hd). cbn in Hx, Hd, Hf. unfold bound. cbn.
    apply negb_true_iff, Z.eqb_neq in Hf. rewrite !lookup_fmap, lookup_delete_ne, Hx by congruence. cbn. eexists. split; [done|]. by destruct to.
Qed.

Lemma calm_link source target e st : nt_endpoints st !! target = Some e → calm st (link source target e st).
Proof. intros He. unfold link. by eapply (calm_endpoint _ _ e). Qed.

Lemma calm_drop_queue st q :
  (∀ k item, q !! k = Some item → nt_queue st !! k = Some item ∨
     ∃ s r rs p d, item = It_Copy s rs p d ∧ nt_queue st !! k = Some (It_Copy s (r :: rs) p d)) → calm st (set_queue q st).
Proof.
  intros Hq. split; cbn; [lia|done|eauto| |].
  - intros [I1 I2 I3]. split; cbn; [done|done|]. intros k item Hk. destruct (Hq k item Hk) as [?|(?&?&?&?&?&_&?)]; eauto.
  - intros k source recs p d Hk. destruct (Hq k _ Hk) as [H0|(s&r&rs&p0&d0&[= <- <- <- <-]&H0)].
    + exists recs. split_and!; [done|done|auto].
    + exists (r :: recs). split_and!; [done|by constructor|auto].
Qed.

Lemma calm_resolve key st : calm st (net_resolve key st).2.
Proof.
  unfold net_resolve. destruct (nt_queue st !! key) as [item|] eqn:Ek; [|done].
  assert (calm st (set_queue (delete key (nt_queue st)) st)) as H0.
  { apply calm_drop_queue. intros k x [_ Hx]%lookup_delete_Some. by left. }
  destruct item as [source recs p d|source target|source target].
  - destruct recs as [|[target to] recs]; [done|]. cbv zeta.
    set (st1 := if bool_decide (recs = []) then _ else _). assert (calm st st1) as H1.
    { unfold st1. case_bool_decide; [done|]. apply (calm_drop_queue st). intros k x Hx. cbn in Hx.
      apply lookup_insert_Some in Hx as [[<- <-]|[_ [_ Hx]%lookup_delete_Some]]; [right|by left]. by do 5 eexists. }
    clearbody st1. destruct (nt_endpoints st1 !! target) as [e|] eqn:Ee; [|done]. destruct to as [sub|].
    + destruct (ep_subs e !! sub) as [[? h]|]; [|done]. etrans; [done|by apply calm_link].
    + etrans; [done|by apply calm_link].
  - cbv zeta. by destruct (nt_endpoints _ !! target).
  - cbv zeta. destruct (nt_endpoints _ !! target) as [e|] eqn:Ee; [|done]. etrans; [done|by apply calm_link].
Qed.

Lemma calm_not_taken now source destination payload deadline presence st st' :
  net_publish cfg now source destination payload deadline presence st = (NotTaken, st') → st' = st.
Proof.
  unfold net_publish. destruct (_ || _ || _ || _); [by intros [= <-]|]. destruct (has_passed_at _ _); [by intros [= <-]|].
  by destruct (fault_copies _ _).
Qed.
End Changes.

(** ** What a payload taken changes *)

(** The laws of an injector: delays are not negative, and one that preserves order gives every
    copy the same delay. *)
Class FaultLaws (F : Type) `{FaultInjector F} := {
  faults_ok : F → Prop;
  faults_delay : F → Z;
  faults_nonneg i f d : faults_ok f → d ∈ (fault_copies i f).1 → 0 ≤ d;
  faults_next i f : faults_ok f → faults_ok (fault_copies i f).2;
  faults_order i f d : fault_preserves_order f = true → d ∈ (fault_copies i f).1 → d = faults_delay f;
  faults_same i f : fault_preserves_order (fault_copies i f).2 = fault_preserves_order f ∧ faults_delay (fault_copies i f).2 = faults_delay f }.

#[export] Program Instance NoFaults_laws : FaultLaws NoFaults := {| faults_ok _ := True; faults_delay _ := 0 |}.
Next Obligation. by intros ? ? ? ? ->%list_elem_of_singleton. Qed.
Next Obligation. done. Qed.
Next Obligation. by intros ? ? ? ? ->%list_elem_of_singleton. Qed.
Next Obligation. done. Qed.

#[export] Program Instance FixedDelay_laws : FaultLaws FixedDelay := {| faults_ok f := 0 ≤ fd_delay f; faults_delay := fd_delay |}.
Next Obligation. by intros ? ? ? ? ->%list_elem_of_singleton. Qed.
Next Obligation. done. Qed.
Next Obligation. by intros ? ? ? ? ->%list_elem_of_singleton. Qed.
Next Obligation. done. Qed.

#[export] Program Instance ScriptedFaults_laws : FaultLaws ScriptedFaults :=
  {| faults_ok f := Forall (Forall (Z.le 0)) (sf_script f); faults_delay _ := 0 |}.
Next Obligation.
  intros i [[|ds rest]] d Hok Hd; cbn in *; [by apply list_elem_of_singleton in Hd as ->|].
  apply Forall_cons in Hok as [Hds _]. rewrite Forall_forall in Hds. auto.
Qed.
Next Obligation. intros i [[|ds rest]] Hok; cbn in *; [done|]. by apply Forall_cons in Hok as [_ ?]. Qed.
Next Obligation. done. Qed.
Next Obligation. by intros i [[|ds rest]]. Qed.

Section Publishing.
Context {F : Type} `{FL : FaultLaws F} `{MO : MapOrder} (cfg : NetConfig).

(** What a step keeps, a payload taken included. *)
Record keeps (st st' : Net F) : Prop := {
  ks_ids : nt_next_id st ≤ nt_next_id st';
  ks_delivering : nt_delivering st' = nt_delivering st;
  ks_old (id : EndpointId) e' : nt_endpoints st' !! id = Some e' → id ≤ nt_next_id st →
    ∃ e, nt_endpoints st !! id = Some e ∧ ∀ (sub : SubId) x, ep_subs e' !! sub = Some x → sub ≤ nt_next_id st → ep_subs e !! sub = Some x;
  ks_new : ids_ok st → ids_ok st' }.

Lemma calm_keeps st st' : calm st st' → keeps st st'.
Proof. intros [? [? ?] ? ? ?]. by split. Qed.

(** The copies of a payload: each under a number of its own, due after one of the delays and
    before the deadline. *)
Record publishes (now : Z) (source : EndpointId) (recs : list (EndpointId * To)) (payload : Payload) (deadline : Deadline)
    (delays : list Z) (st st' : Net F) : Prop := {
  pb_ids : nt_next_id st ≤ nt_next_id st';
  pb_rest : nt_endpoints st' = nt_endpoints st ∧ nt_delivering st' = nt_delivering st ∧ nt_faults st' = nt_faults st;
  pb_queue key item : nt_queue st' !! key = Some item →
    nt_queue st !! key = Some item ∨
    item = It_Copy source recs payload deadline ∧ nt_next_id st < key.2 ≤ nt_next_id st' ∧ key.1 < deadline ∧ ∃ d, d ∈ delays ∧ key.1 = now + d }.

Lemma publish_copies now source recs payload deadline delays st :
  publishes now source recs payload deadline delays st (foldl (publish_copy cfg now source recs payload deadline) st delays).
Proof.
  revert st. induction delays as [|d delays IH]; intros st; cbn [foldl]; [split; [done|done|auto]|].
  set (st1 := publish_copy _ _ _ _ _ _ st d). specialize (IH st1) as [I2 (E2 & D2 & F2) Q2].
  assert (publishes now source recs payload deadline [d] st st1) as [I1 (E1 & D1 & F1) Q1].
  { unfold st1, publish_copy. destruct (checked_add cfg now d) as [due|] eqn:Ed; [|split; [done|done|auto]].
    destruct (has_passed_at deadline due) eqn:Ep; [split; [done|done|auto]|].
    unfold checked_add, then_some in Ed. destruct (_ <=? _); [|done]. injection Ed as <-. unfold has_passed_at in Ep. apply Z.leb_gt in Ep.
    split; cbn; [lia|done|]. intros key item Hq. apply lookup_insert_Some in Hq as [[<- <-]|[_ Hq]]; [right|by left].
    cbn. split_and!; [done|lia|lia|lia|]. exists d. by split; [left|]. }
  clearbody st1. split; [lia|split_and!; congruence|]. intros key item Hq.
  destruct (Q2 key item Hq) as [Hq1|(-> & ? & ? & d' & Hd & ?)]; [|right; split_and!; [done|lia|lia|lia|exists d'; by split; [right|]]].
  destruct (Q1 key item Hq1) as [?|(-> & ? & ? & d' & ->%list_elem_of_singleton & ?)]; [by left|].
  right. split_and!; [done|lia|lia|lia|]. exists d. by split; [left|].
Qed.

(** A payload taken, with what its fate is drawn from. *)
Lemma publish_taken now source destination payload deadline presence st st' :
  net_publish cfg now source destination payload deadline presence st = (Taken, st') →
  let i := mkPublishInfo destination (pl_kind payload) (Z.of_nat (length (pl_octets payload))) in
  is_Some (nt_endpoints st !! source) ∧ now < deadline ∧
  publishes now source (recipients_of destination presence st) payload deadline (fault_copies i (nt_faults st)).1
    (set_faults (fault_copies i (nt_faults st)).2 st) st'.
Proof.
  unfold net_publish. destruct (_ || _ || _ || _) eqn:Eg; [done|]. destruct (has_passed_at _ _) eqn:Ep; [done|].
  destruct (fault_copies _ _) as [delays faults] eqn:Ef. intros [= <-]. cbn [fst snd].
  unfold has_passed_at in Ep. apply Z.leb_gt in Ep.
  rewrite !orb_false_iff, negb_false_iff in Eg. destruct Eg as [[[Hs _] _] _].
  split_and!; [by destruct (nt_endpoints st !! source)|lia|]. apply publish_copies.
Qed.

Lemma keeps_publishes now source recs payload deadline delays f st st' :
  publishes now source recs payload deadline delays (set_faults f st) st' → keeps st st'.
Proof.
  intros [I (E & D & _) Q]. cbn in *. split; [done|done|rewrite E; eauto|]. intros [I1 I2 I3]. split; rewrite ?E.
  - intros id e He. specialize (I1 id e He). lia.
  - intros id e sub x He Hx. specialize (I2 id e sub x He Hx). lia.
  - intros key item Hq. destruct (Q key item Hq) as [Hq0|(_ & ? & _)]; [|lia]. specialize (I3 key item Hq0). lia.
Qed.

(** An operation that takes no payload is calm. *)
Lemma op_calm now st st' p : ids_ok st → op_step cfg now st st' p → p = None → calm st st'.
Proof.
  intros Hi Hop. destruct Hop; intros Hp; try done.
  - by apply calm_join.
  - apply calm_leave.
  - by match goal with H : net_publish _ _ _ _ _ _ _ _ = _ |- _ => apply calm_not_taken in H as -> end.
  - by apply calm_subscribe.
  - apply calm_unsubscribe.
  - apply calm_watch.
Qed.

Lemma op_keeps now st st' p : ids_ok st → op_step cfg now st st' p → keeps st st'.
Proof.
  intros Hi Hop. destruct p as [pb|]; [|by eapply calm_keeps, op_calm]. inversion Hop as [| |? ? ? ? ? ? ? Hp| | | |]; subst.
  apply publish_taken in Hp as (_ & _ & Hp). by eapply keeps_publishes.
Qed.

(** A turn of the delivery thread is calm but for what it says it is delivering. *)
Lemma turn_calm now (st : Net F) r st' :
  deliver_turn now st = (r, st') →
  ∃ st1, calm st st1 ∧ st' = match r with Some r => set_delivering (Some (rn_endpoint r, rn_sub r)) st1 | None => st1 end.
Proof.
  unfold deliver_turn. pose proof (calm_purge now st) as Hc. destruct (first _) as [key|]; [|intros [= <- <-]; eauto].
  destruct (_ <=? _); [|intros [= <- <-]; eauto]. pose proof (calm_resolve key (purge_expired now st)) as Hr.
  destruct (net_resolve key _) as [r1 st1]. intros [= <- <-]. exists st1. split; [by etrans|done].
Qed.
End Publishing.

(** ** After a [leave] or an [unsubscribe] *)

Section Quiet.
Context {F : Type} `{FL : FaultLaws F} `{MO : MapOrder} (cfg : NetConfig).

(** Nothing is left of an endpoint, and of a subscription. *)
Definition gone (id : EndpointId) (st : Net F) : Prop :=
  nt_endpoints st !! id = None ∧ id ≤ nt_next_id st ∧ ∀ sub, nt_delivering st ≠ Some (id, sub).

Definition gone_sub (x : EndpointId * SubId) (st : Net F) : Prop :=
  (∀ e, nt_endpoints st !! x.1 = Some e → ep_subs e !! x.2 = None) ∧ x.1 ≤ nt_next_id st ∧ x.2 ≤ nt_next_id st ∧
  nt_delivering st ≠ Some (x.1, Some x.2).

Record quiet_inv (s : Sys F) : Prop := {
  qi_ids : ids_ok (sy_net s);
  qi_pending c : c ∈ sy_pending s → nt_delivering (sy_net s) = Some (hc_endpoint c, hc_sub c);
  qi_left id : id ∈ sy_left s → gone id (sy_net s);
  qi_ended x : x ∈ sy_ended s → gone_sub x (sy_net s) }.

Lemma keeps_gone st st' id : keeps st st' → gone id st → gone id st'.
Proof.
  intros [I D O N] (He & Hid & Hd). split_and!; [|lia|by rewrite D]. destruct (nt_endpoints st' !! id) as [e'|] eqn:E; [|done].
  destruct (O id e' E Hid) as (e & He0 & _). by rewrite He in He0.
Qed.

Lemma keeps_gone_sub st st' x : keeps st st' → gone_sub x st → gone_sub x st'.
Proof.
  intros [I D O N] (He & Hid & Hs & Hd). split_and!; [|lia|lia|by rewrite D]. intros e' E.
  destruct (O _ e' E Hid) as (e & He0 & Hsub). destruct (ep_subs e' !! x.2) as [y|] eqn:Ey; [|done].
  specialize (Hsub _ _ Ey Hs). specialize (He e He0). congruence.
Qed.

(** What is delivered to is there. *)
Lemma resolve_there (key : Z * Z) (st st' : Net F) r :
  net_resolve key st = (Some r, st') →
  ∃ e, nt_endpoints st !! rn_endpoint r = Some e ∧ (∀ sub, rn_sub r = Some sub → is_Some (ep_subs e !! sub)).
Proof.
  unfold net_resolve. destruct (nt_queue st !! key) as [item|]; [|done]. cbv zeta.
  destruct item as [source [|[target to] recs] p d|source target|source target]; [done| | |].
  - assert (∀ b : bool, nt_endpoints (if b then set_queue (delete key (nt_queue st)) st
      else set_queue (<[key:=It_Copy source recs p d]> (nt_queue (set_queue (delete key (nt_queue st)) st))) (set_queue (delete key (nt_queue st)) st)) =
      nt_endpoints st) as -> by by intros [].
    destruct (nt_endpoints st !! target) as [e|] eqn:Ee; [|done]. destruct to as [sub|].
    + destruct (ep_subs e !! sub) as [[? h]|] eqn:Es; [|done]. intros [= <- _]. exists e. cbn. split; [done|]. intros ? [= <-]. by rewrite Es.
    + intros [= <- _]. by exists e.
  - cbn. destruct (nt_endpoints st !! target) as [e|] eqn:Ee; [|done]. intros [= <- _]. by exists e.
  - cbn. destruct (nt_endpoints st !! target) as [e|] eqn:Ee; [|done]. intros [= <- _]. by exists e.
Qed.

Lemma turn_there now (st st' : Net F) r :
  deliver_turn now st = (Some r, st') →
  ∃ e, nt_endpoints st !! rn_endpoint r = Some e ∧ (∀ sub, rn_sub r = Some sub → is_Some (ep_subs e !! sub)).
Proof.
  unfold deliver_turn. destruct (first _) as [key|]; [|done]. destruct (_ <=? _); [|done].
  destruct (net_resolve key _) as [r1 st1] eqn:Er. intros [= -> _]. by apply resolve_there in Er.
Qed.

Lemma turn_gone now (st : Net F) r st' id : deliver_turn now st = (r, st') → gone id st → gone id st'.
Proof.
  intros Ht Hg. destruct (turn_calm _ _ _ _ Ht) as (st1 & Hc%calm_keeps & ->). pose proof (keeps_gone _ _ _ Hc Hg) as (He & Hid & Hd).
  destruct r as [r|]; [|done]. split_and!; [done|done|]. intros sub [= H0 _]. destruct (turn_there _ _ _ _ Ht) as (e & He0 & _).
  destruct Hg as (Hn & _). congruence.
Qed.

Lemma turn_gone_sub now (st : Net F) r st' x : deliver_turn now st = (r, st') → gone_sub x st → gone_sub x st'.
Proof.
  intros Ht Hg. destruct (turn_calm _ _ _ _ Ht) as (st1 & Hc%calm_keeps & ->). pose proof (keeps_gone_sub _ _ _ Hc Hg) as (He & Hid & Hs & Hd).
  destruct r as [r|]; [|done]. split_and!; [done|done|done|]. intros [= H0 H1]. destruct (turn_there _ _ _ _ Ht) as (e & He0 & Hsub).
  destruct Hg as (Hn & _). rewrite H0 in He0. specialize (Hn e He0). destruct (Hsub _ H1) as [y Hy]. congruence.
Qed.

Lemma ids_ok_delivering d (st : Net F) : ids_ok st → ids_ok (set_delivering d st).
Proof. intros [? ? ?]. by split. Qed.

Lemma turn_ids now (st : Net F) r st' : deliver_turn now st = (r, st') → ids_ok st → ids_ok st'.
Proof.
  intros Ht Hi. destruct (turn_calm _ _ _ _ Ht) as (st1 & Hc%calm_keeps & ->). pose proof (ks_new _ _ Hc Hi).
  destruct r; [by apply ids_ok_delivering|done].
Qed.

Lemma quiet_begins now faults : quiet_inv (sys_start now faults).
Proof. split; cbn; [by split|by intros ? ?%not_elem_of_nil..]. Qed.

Lemma quiet_step s s' : sys_step cfg s s' → quiet_inv s → quiet_inv s'.
Proof.
  intros [s1 t Ht|s1 n p Hop|s1 s2 [? ? [s0 r n Hd Ht|s0 n Hd Ht|s0 c cs Hp|s0 Hdl Hp]|s0]|s1 id He Hid Hn|s1 id sub He Hid Hsub Hn] [Qi Qp Ql Qe].
  - by split.
  - pose proof (op_keeps cfg _ _ _ _ Qi Hop) as Hk. split; cbn.
    + by apply (ks_new _ _ Hk).
    + rewrite (ks_delivering _ _ Hk). auto.
    + intros id Hid. eapply keeps_gone; eauto.
    + intros x Hx. eapply keeps_gone_sub; eauto.
  - split; cbn.
    + by eapply turn_ids.
    + intros c Hc. destruct (turn_calm _ _ _ _ Ht) as (st1 & _ & ->). unfold calls_of in Hc. apply list_elem_of_fmap in Hc as ([h e] & -> & _). done.
    + intros id Hid. eapply turn_gone; eauto.
    + intros x Hx. eapply turn_gone_sub; eauto.
  - assert (nt_delivering n = None) as Hn. { destruct (turn_calm _ _ _ _ Ht) as (st1 & Hc & ->). by rewrite (proj1 (cm_still _ _ Hc)). }
    split; cbn.
    + by eapply turn_ids.
    + intros c Hc. specialize (Qp c Hc). congruence.
    + intros id Hid. eapply turn_gone; eauto.
    + intros x Hx. eapply turn_gone_sub; eauto.
  - split; cbn; [done| |done|done]. intros c0 Hc0. apply Qp. rewrite Hp. by right.
  - split; cbn; [by apply ids_ok_delivering|by rewrite Hp; intros ? ?%not_elem_of_nil| |].
    + intros id Hid. destruct (Ql id Hid) as (? & ? & ?). by split_and!.
    + intros x Hx. destruct (Qe x Hx) as (? & ? & ? & ?). by split_and!.
  - pose proof (calm_keeps _ _ (calm_purge (sy_now s0) (sy_net s0))) as Hk. split; cbn.
    + by apply (ks_new _ _ Hk).
    + auto.
    + intros id Hid. eapply keeps_gone; eauto.
    + intros x Hx. eapply keeps_gone_sub; eauto.
  - split; cbn; [done|done| |done]. intros i [->|Hi]%elem_of_cons; [|auto]. split_and!; [done|done|]. intros sub Hs. unfold delivering_to in Hn.
    rewrite Hs in Hn. by apply Z.eqb_neq in Hn.
  - split; cbn; [done|done|done|]. intros x [->|Hx]%elem_of_cons; [|auto]. by split_and!.
Qed.

Lemma quiet_reachable s : reachable cfg s → quiet_inv s.
Proof.
  intros (now & faults & Hr). revert Hr. generalize (quiet_begins now faults). generalize (sys_start now faults). intros s0 Hq Hr.
  induction Hr as [|a b c Hab _ IH]; [done|]. apply IH. by eapply quiet_step.
Qed.

(** What is said to be gone is said so ever after, and a call is of what is not. *)
Lemma step_calls s s' :
  quiet_inv s → sys_step cfg s s' →
  (sy_left s ⊆ sy_left s' ∧ sy_ended s ⊆ sy_ended s') ∧
  ∃ l, sy_called s' = sy_called s ++ l ∧
    ∀ c, c ∈ l → hc_endpoint c ∉ sy_left s ∧ ∀ sub, hc_sub c = Some sub → (hc_endpoint c, sub) ∉ sy_ended s.
Proof.
  intros [Qi Qp Ql Qe] Hs.
  destruct Hs as [s t Ht|s n p Hop|s s' [? ? [s0 r n Hd Ht|s0 n Hd Ht|s0 c cs Hp|s0 Hdl Hp]|s0]|s id He Hid Hn|s id sub He Hid Hsub Hn]; cbn.
  5: { split; [done|]. exists [c]. split; [done|]. intros ? ->%list_elem_of_singleton. specialize (Qp c). rewrite Hp in Qp. specialize (Qp (list_elem_of_here _ _)).
       split; [intros Hl; destruct (Ql _ Hl) as (_ & _ & Hd); by destruct (Hd (hc_sub c))|].
       intros sub Hsub Hx. destruct (Qe _ Hx) as (_ & _ & _ & Hd). apply Hd. cbn. by rewrite Qp, Hsub. }
  all: (split; [split; set_solver|]; exists []; rewrite app_nil_r; split; [done|]; by intros ? ?%not_elem_of_nil).
Qed.
End Quiet.

(** [C8] After a [leave] or an [unsubscribe] that waited for the delivery thread has returned,
    no handler of that endpoint, or of that subscription, is called again, whatever the callers
    and the delivery thread do: for the rest of any run every call is of another one. *)
Theorem no_call_after_leave {F : Type} `{FL : FaultLaws F} `{MO : MapOrder} (cfg : NetConfig) (s s' : Sys F) :
  reachable cfg s → rtc (sys_step cfg) s s' →
  ∃ l, sy_called s' = sy_called s ++ l ∧
    ∀ c, c ∈ l → hc_endpoint c ∉ sy_left s ∧ ∀ sub, hc_sub c = Some sub → (hc_endpoint c, sub) ∉ sy_ended s.
Proof.
  intros Hq%quiet_reachable Hr. induction Hr as [s|a b c Hab _ IH].
  - exists []. rewrite app_nil_r. split; [done|]. by intros ? ?%not_elem_of_nil.
  - destruct (step_calls cfg _ _ Hq Hab) as ([Hl He] & l1 & E1 & H1). destruct (IH (quiet_step cfg _ _ Hab Hq)) as (l2 & E2 & H2).
    exists (l1 ++ l2). rewrite E2, E1, app_assoc. split; [done|]. intros x [Hx|Hx]%elem_of_app; [by apply H1|].
    destruct (H2 x Hx) as [Ha Hb]. split; [set_solver|]. intros sub Hs. specialize (Hb sub Hs). set_solver.
Qed.

(** ** What is handed over, and in which order *)

(** The order of the queue's keys. *)
Definition lex_lt (a b : Z * Z) : Prop := a.1 < b.1 ∨ a.1 = b.1 ∧ a.2 < b.2.

Lemma leb_lex_lt (a b : Z * Z) : leb a b = true → a ≠ b → lex_lt a b.
Proof.
  destruct a as [a1 a2], b as [b1 b2]. unfold leb, prod_order, leb, Z_order, lex_lt. cbn [fst snd]. intros Hl Hn.
  destruct (decide (a1 = b1)) as [->|Hne]; apply Z.leb_le in Hl; [right|left; lia]. split; [done|].
  assert (a2 ≠ b2) by congruence. lia.
Qed.

Lemma NoDup_mjoin_keys {K V B} (f : K * V → list (K * B)) (l : list (K * V)) :
  NoDup (map fst l) → (∀ x, NoDup (f x) ∧ ∀ r, r ∈ f x → r.1 = x.1) → NoDup (mjoin (map f l)).
Proof.
  intros Hl Hf. induction l as [|x l IH]; cbn in *; [constructor|]. apply NoDup_cons in Hl as [Hx Hl].
  apply NoDup_app. split_and!; [apply Hf| |by apply IH]. intros r Hr (y & Hy & Hry)%list_elem_of_join. apply list_elem_of_fmap in Hry as (z & -> & Hz).
  apply Hx. apply list_elem_of_fmap. exists z. split; [|done]. by rewrite <- (proj2 (Hf x) r Hr), (proj2 (Hf z) r Hy).
Qed.

Section HandOver.
Context {F : Type} `{FL : FaultLaws F} `{MO : MapOrder} (cfg : NetConfig).

Lemma NoDup_recipients destination presence (st : Net F) : NoDup (recipients_of destination presence st).
Proof.
  unfold recipients_of. apply NoDup_mjoin_keys; [apply NoDup_map_keys|]. intros [id e]. cbn [fst snd]. destruct presence.
  - destruct (_ && _); [|split; [constructor|by intros ? ?%not_elem_of_nil]]. split; [apply NoDup_singleton|]. by intros ? ->%list_elem_of_singleton.
  - split.
    + rewrite <- (map_map fst (λ s, (id, To_Sub s))). apply NoDup_fmap_2; [by intros ?? [=]|].
      eapply sublist_NoDup; [apply (NoDup_map_keys (ep_subs e))|]. apply (fmap_sublist fst), list_filter_sublist.
    + by intros ? ([sub x] & -> & _)%list_elem_of_fmap.
Qed.

Lemma bound_recipients destination presence (st : Net F) r : r ∈ recipients_of destination presence st → bound st destination r.
Proof.
  intros (l & Hr & Hl)%list_elem_of_join. apply list_elem_of_fmap in Hl as ([id e] & -> & He%elem_of_map_items). destruct presence.
  - destruct (bool_decide (destination = Dest_Device (ep_key e))) eqn:Ed; cbn in Hr; [|by apply not_elem_of_nil in Hr].
    apply bool_decide_eq_true in Ed as ->. destruct (negb _); [|by apply not_elem_of_nil in Hr]. apply list_elem_of_singleton in Hr as ->. by exists e.
  - apply list_elem_of_fmap in Hr as ([sub [d h]] & -> & [Hd Hs%elem_of_map_items]%elem_of_filter_true). apply bool_decide_eq_true in Hd. cbn in Hd. subst d.
    exists e. split; [done|]. cbn. by rewrite Hs.
Qed.

(** A copy is one of those a payload was published in. *)
Definition from_publication (f : F) (pb : Published) (key : Z * Z) (source : EndpointId) (payload : Payload) (deadline : Deadline) : Prop :=
  pu_source pb = source ∧ pu_payload pb = payload ∧ pu_deadline pb = deadline ∧ pu_at pb ≤ key.1 < deadline ∧ pu_after pb < key.2 ≤ pu_last pb ∧
  (fault_preserves_order f = true → key.1 = pu_at pb + faults_delay f).

Definition pub_before (p q : Published) : Prop := pu_at p ≤ pu_at q ∧ pu_last p ≤ pu_after q.
Definition recipient_of (h : Handed) : EndpointId * To := (ha_target h, ha_to h).
Definition hand_before (h h' : Handed) : Prop := recipient_of h = recipient_of h' → lex_lt (ha_key h) (ha_key h').

(** What was handed over was published to the destination the recipient is there for, was due,
    and its deadline had not passed. *)
Definition justified (f : F) (h : Handed) (pb : Published) : Prop :=
  from_publication f pb (ha_key h) (ha_source h) (ha_payload h) (ha_deadline h) ∧ ha_destination h = pu_destination pb ∧
  (ha_key h).1 ≤ ha_at h < ha_deadline h.

(** The call of a handler that hands a copy over. *)
Definition call_of (h : Handed) (c : HandlerCall) : Prop :=
  hc_endpoint c = ha_target h ∧
  match ha_to h with
  | To_Sub sub => hc_sub c = Some sub ∧ hc_event c = NE_Inbound (mkInbound (ha_payload h) (carrier (ha_source h) (ha_target h)))
  | To_Watchers => hc_sub c = None ∧ hc_event c = NE_Presence (PE_Record (ha_payload h) (carrier (ha_source h) (ha_target h)))
  end.

Definition carries (c : HandlerCall) : bool :=
  match hc_event c with NE_Inbound _ | NE_Presence (PE_Record _ _) => true | _ => false end.

Record hand_inv (s : Sys F) : Prop := {
  hi_faults : faults_ok (nt_faults (sy_net s));
  hi_pubs : StronglySorted pub_before (sy_published s);
  hi_pub pb : pb ∈ sy_published s → pu_at pb ≤ sy_now s ∧ pu_last pb ≤ nt_next_id (sy_net s);
  hi_queue key source recs p d : nt_queue (sy_net s) !! key = Some (It_Copy source recs p d) →
    NoDup recs ∧ ∃ pb, pb ∈ sy_published s ∧ from_publication (nt_faults (sy_net s)) pb key source p d ∧ ∀ r, r ∈ recs → bound (sy_net s) (pu_destination pb) r;
  hi_handed h : h ∈ sy_handed s → ∃ pb, pb ∈ sy_published s ∧ justified (nt_faults (sy_net s)) h pb;
  hi_now h : h ∈ sy_handed s → ha_at h ≤ sy_now s;
  hi_ahead h key source recs p d : h ∈ sy_handed s → nt_queue (sy_net s) !! key = Some (It_Copy source recs p d) →
    recipient_of h ∈ recs → lex_lt (ha_key h) key;
  hi_order : StronglySorted hand_before (sy_handed s);
  hi_calls c : c ∈ sy_called s ++ sy_pending s → carries c = true → ∃ h, h ∈ sy_handed s ∧ call_of h c }.

Lemma hand_start now faults : faults_ok faults → hand_inv (sys_start now faults).
Proof. split; cbn; [done|constructor|by intros ? ?%not_elem_of_nil|done|by intros ? ?%not_elem_of_nil..|done|constructor|by intros ? ?%not_elem_of_nil]. Qed.

(** Time passing, what is no payload taken, and what the delivery thread says it delivers. *)
Lemma hand_calm s now n :
  sy_now s ≤ now → calm (sy_net s) n → hand_inv s →
  hand_inv (mkSys n now (sy_pending s) (sy_called s) (sy_handed s) (sy_published s) (sy_left s) (sy_ended s)).
Proof.
  intros Hn [I [D Fa] O N C] [Hf Hp Hpn Hq Hh Hhn Ha Ho Hc]. split; cbn; rewrite ?Fa; try done.
  - intros pb Hpb. destruct (Hpn pb Hpb). lia.
  - intros key source recs p d Hk. destruct (C _ _ _ _ _ Hk) as (recs0 & Hk0 & Hs & Hb). destruct (Hq _ _ _ _ _ Hk0) as (Hnd & pb & Hpb & Hfr & Hbd).
    split; [by eapply sublist_NoDup|]. exists pb. split_and!; [done|done|]. intros r Hr. apply Hb; [done|]. apply Hbd. by eapply elem_of_sublist.
  - intros h Hin. specialize (Hhn h Hin). lia.
  - intros h key source recs p d Hin Hk Hr. destruct (C _ _ _ _ _ Hk) as (recs0 & Hk0 & Hs & _). eapply Ha; [done|done|]. by eapply elem_of_sublist.
Qed.

Lemma hand_delivering s d : hand_inv s → hand_inv (with_net (set_delivering d (sy_net s)) s).
Proof. intros []. by split. Qed.

Lemma StronglySorted_snoc {A} (R : A → A → Prop) l x : StronglySorted R l → (∀ y, y ∈ l → R y x) → StronglySorted R (l ++ [x]).
Proof.
  intros Hl Hx. induction Hl as [|a l Hl IH Ha]; cbn; [by repeat constructor|]. constructor; [apply IH; intros; apply Hx; by right|].
  apply Forall_app. split; [done|]. constructor; [apply Hx; by left|constructor].
Qed.

Lemma StronglySorted_lookup {A} (R : A → A → Prop) l (i j : nat) x y :
  StronglySorted R l → l !! i = Some x → l !! j = Some y → (i < j)%nat → R x y.
Proof.
  intros Hl. revert i j. induction Hl as [|a l Hl IH Ha]; intros i j Hi Hj Hij; [done|]. destruct j as [|j]; [lia|]. destruct i as [|i]; cbn in *.
  - injection Hi as <-. rewrite Forall_forall in Ha. apply Ha. by eapply list_elem_of_lookup_2.
  - eapply IH; eauto. lia.
Qed.

(** A payload taken. *)
Lemma hand_publish s source destination payload deadline presence n :
  quiet_inv s → net_publish cfg (sy_now s) source destination payload deadline presence (sy_net s) = (Taken, n) → hand_inv s →
  hand_inv (mkSys n (sy_now s) (sy_pending s) (sy_called s) (sy_handed s)
    (sy_published s ++ [mkPublished (sy_now s) source destination payload deadline (nt_next_id (sy_net s)) (nt_next_id n)]) (sy_left s) (sy_ended s)).
Proof.
  intros [Qi _ _ _] (_ & _ & Hpb)%publish_taken [Hf Hp Hpn Hq Hh Hhn Ha Ho Hc]. set (i := mkPublishInfo _ _ _) in Hpb.
  destruct Hpb as [I (E & D & Fa) Q]. cbn in I, E, D, Fa, Q. destruct (faults_same i (nt_faults (sy_net s))) as [Fo Fd].
  assert (∀ pb key src p d, from_publication (nt_faults (sy_net s)) pb key src p d → from_publication (nt_faults n) pb key src p d) as Hfr.
  { intros pb key src p d. unfold from_publication. by rewrite Fa, Fo, Fd. }
  set (new := mkPublished _ _ _ _ _ _ _).
  assert (∀ key, nt_next_id (sy_net s) < key.2 ≤ nt_next_id n → key.1 < deadline → (∃ d, d ∈ (fault_copies i (nt_faults (sy_net s))).1 ∧ key.1 = sy_now s + d) →
    from_publication (nt_faults n) new key source payload deadline ∧ sy_now s ≤ key.1) as Hnew.
  { intros key Hk Hd (d & Hin & Hkd). pose proof (faults_nonneg i _ d Hf Hin). unfold from_publication. cbn. split_and!; try done; try lia.
    rewrite Fa, Fo, Fd. intros Ho'. by rewrite Hkd, (faults_order i _ d Ho' Hin). }
  split; cbn; rewrite ?Fa; try done.
  - by apply faults_next.
  - apply StronglySorted_snoc; [done|]. intros y Hy. unfold pub_before. cbn. by apply Hpn.
  - intros pb [Hpb | ->%list_elem_of_singleton]%elem_of_app; [destruct (Hpn pb Hpb); lia|cbn; lia].
  - intros key src recs p d Hk. destruct (Q _ _ Hk) as [Hk0|([= -> -> -> ->] & Hi & Hd & Hdel)].
    + destruct (Hq _ _ _ _ _ Hk0) as (Hnd & pb & Hin & Hfp & Hb). split; [done|]. exists pb. split_and!; [by apply elem_of_app; left| |].
      * rewrite <- Fa. by apply Hfr.
      * intros r Hr. unfold bound. rewrite E. by apply Hb.
    + split; [apply NoDup_recipients|]. exists new. split_and!; [apply elem_of_app; right; by left| |].
      * rewrite <- Fa. by apply Hnew.
      * intros r Hr. cbn. apply (bound_recipients _ presence) in Hr. unfold bound. by rewrite E.
  - intros h Hin. destruct (Hh h Hin) as (pb & Hpb & Hj & Hrest). exists pb. split; [by apply elem_of_app; left|]. split; [|done].
    rewrite <- Fa. by apply Hfr.
  - intros h key src recs p d Hin Hk Hr. destruct (Q _ _ Hk) as [Hk0|(_ & Hi & Hd & Hdel)]; [by eapply Ha|].
    destruct (Hnew key Hi Hd Hdel) as [_ Hkn]. destruct (Hh h Hin) as (pb & Hpb & (_ & _ & _ & _ & Hl & _) & _ & Hat).
    specialize (Hhn h Hin). destruct (Hpn pb Hpb) as [_ Hlast]. unfold lex_lt. lia.
Qed.

(** The copy a turn hands over, its call, and the queue that is left of it. *)
Lemma resolve_copy (key : Z * Z) source target to recs p d (st st' : Net F) r :
  nt_queue st !! key = Some (It_Copy source ((target, to) :: recs) p d) → net_resolve key st = (Some r, st') →
  nt_queue st' = (if bool_decide (recs = []) then delete key (nt_queue st) else <[ key := It_Copy source recs p d ]> (delete key (nt_queue st))) ∧
  ∃ e dest, nt_endpoints st !! target = Some e ∧ destination_of to e = Some dest ∧
    ∀ c at_, c ∈ calls_of r → call_of (mkHanded at_ key target to dest source p d) c.
Proof.
  unfold net_resolve. intros ->. cbv zeta. set (st1 := if bool_decide (recs = []) then _ else _).
  assert (nt_endpoints st1 = nt_endpoints st ∧ nt_queue st1 =
    (if bool_decide (recs = []) then delete key (nt_queue st) else <[ key := It_Copy source recs p d ]> (delete key (nt_queue st)))) as [E Q].
  { unfold st1. by case_bool_decide. }
  clearbody st1. rewrite E. destruct (nt_endpoints st !! target) as [e|] eqn:Ee; [|done]. destruct to as [sub|].
  - destruct (ep_subs e !! sub) as [[dest h]|] eqn:Es; [|done]. intros [= <- <-]. split; [done|]. exists e, dest. cbn. rewrite Es. split_and!; [done|done|].
    by intros c at_ ->%list_elem_of_singleton.
  - intros [= <- <-]. split; [done|]. exists e, (Dest_Device (ep_key e)). split_and!; [done|done|]. intros c at_ Hc. unfold calls_of, watchers_run in Hc. cbn in Hc.
    rewrite map_map in Hc. by apply list_elem_of_fmap in Hc as (h & -> & _).
Qed.

(** A turn that hands no copy over calls no handler with a payload. *)
Lemma resolve_other (key : Z * Z) (st st' : Net F) r item :
  nt_queue st !! key = Some item → (∀ s recs p d, item ≠ It_Copy s recs p d) → net_resolve key st = (Some r, st') → ∀ c, c ∈ calls_of r → carries c = false.
Proof.
  unfold net_resolve. intros -> Hi. destruct item as [s recs p d|source target|source target]; [by destruct (Hi s recs p d)| |]; cbv zeta.
  all: destruct (nt_endpoints _ !! target) as [e|]; [|done]; intros [= <- <-] c Hc; unfold calls_of, watchers_run in Hc; cbn in Hc;
    rewrite map_map in Hc; by apply list_elem_of_fmap in Hc as (h & -> & _).
Qed.

Lemma turn_hands now (st st' : Net F) r :
  deliver_turn now st = (Some r, st') →
  (handing now st = None ∧ ∀ c, c ∈ calls_of r → carries c = false) ∨
  ∃ h recs, handing now st = Some h ∧ nt_queue st !! ha_key h = Some (It_Copy (ha_source h) (recipient_of h :: recs) (ha_payload h) (ha_deadline h)) ∧
    ha_at h = now ∧ (ha_key h).1 ≤ now < ha_deadline h ∧ bound st (ha_destination h) (recipient_of h) ∧ (∀ c, c ∈ calls_of r → call_of h c) ∧
    ∀ key' s' recs' p' d', recipient_of h ∉ recs → nt_queue st' !! key' = Some (It_Copy s' recs' p' d') → recipient_of h ∈ recs' → lex_lt (ha_key h) key'.
Proof.
  unfold deliver_turn, handing. destruct (first _) as [key|] eqn:Ef; [|done]. destruct (key.1 <=? now) eqn:El; [|done]. apply Z.leb_le in El.
  destruct (net_resolve key _) as [r1 st1] eqn:Er. intros [= -> <-]. apply first_Some in Ef as [Hk Hmin]. apply elem_of_dom in Hk as [item Hk].
  pose proof Hk as [Hk0 Hx]%map_lookup_filter_Some. cbn [mbind option_bind]. rewrite Hk0.
  destruct item as [source [|[target to] recs] p d|source target|source target]; [| |left; split; [done|by apply (resolve_other _ _ _ _ _ Hk ltac:(done) Er)]..].
  { unfold net_resolve in Er. by rewrite Hk in Er. }
  right. destruct (resolve_copy _ _ _ _ _ _ _ _ _ _ Hk Er) as (Hq & e & dest & He & Hd & Hc).
  change (nt_endpoints (purge_expired now st)) with (nt_endpoints st) in He.
  exists (mkHanded now key target to dest source p d), recs. cbn in Hx. unfold has_passed_at in Hx. apply Z.leb_gt in Hx. cbn.
  rewrite He. cbn. rewrite Hd. cbn. split_and!; [done|done|done|lia|lia|by exists e|auto|].
  intros key' s' recs' p' d' Hni Hk' Hr. rewrite Hq in Hk'.
  assert (∀ k, k ≠ key → is_Some (nt_queue (purge_expired now st) !! k) → lex_lt key k) as Hlt.
  { intros k Hne Hs. apply leb_lex_lt; [|done]. apply Hmin. by apply elem_of_dom. }
  case_bool_decide.
  - apply lookup_delete_Some in Hk' as [Hne Hk']. apply Hlt; [done|]. by rewrite Hk'.
  - apply lookup_insert_Some in Hk' as [[-> [= -> -> -> ->]]|[Hne [_ Hk']%lookup_delete_Some]]; [done|]. apply Hlt; [done|]. by rewrite Hk'.
Qed.

(** The delivery thread's turn, with the calls it is about to make. *)
Lemma hand_turn s r n :
  nt_delivering (sy_net s) = None → quiet_inv s → deliver_turn (sy_now s) (sy_net s) = (Some r, n) → hand_inv s →
  hand_inv (mkSys n (sy_now s) (calls_of r) (sy_called s) (sy_handed s ++ option_list (handing (sy_now s) (sy_net s))) (sy_published s) (sy_left s) (sy_ended s)).
Proof.
  intros Hno Hqi Ht Hi. destruct (turn_calm _ _ _ _ Ht) as (st1 & Hc & En).
  assert (hand_inv (mkSys n (sy_now s) (sy_pending s) (sy_called s) (sy_handed s) (sy_published s) (sy_left s) (sy_ended s))) as Hn.
  { pose proof (hand_calm s (sy_now s) st1 ltac:(lia) Hc Hi) as H1. rewrite En. by apply (hand_delivering _ (Some (rn_endpoint r, rn_sub r))) in H1. }
  assert (nt_faults n = nt_faults (sy_net s)) as Hfn by (rewrite En; apply (cm_still _ _ Hc)).
  destruct (turn_hands _ _ _ _ Ht) as [[-> Hcalls]|(h & recs & -> & Hk & Hat & Hdue & Hb & Hcalls & Hahead)]; cbn [option_list];
    destruct Hn as [Hf Hp Hpn Hq Hh Hhn Ha Ho Hc0]; cbn in *.
  - rewrite app_nil_r. split; cbn; try done. intros c [Hin|Hin]%elem_of_app Hca; [|by rewrite Hcalls in Hca].
    apply Hc0; [|done]. apply elem_of_app. by left.
  - destruct (hi_queue _ Hi _ _ _ _ _ Hk) as (Hnd & pb & Hpb & Hfr & Hbd). apply NoDup_cons in Hnd as [Hni _].
    assert (ha_destination h = pu_destination pb) as Hdest.
    { destruct (Hbd _ (list_elem_of_here _ _)) as (e & He & Hd), Hb as (e' & He' & Hd'). rewrite He in He'. injection He' as <-. congruence. }
    split; cbn; try done.
    + intros h' [Hin | ->%list_elem_of_singleton]%elem_of_app; [auto|]. exists pb. split; [done|]. unfold justified. rewrite Hfn. split_and!; [done|done|lia|lia].
    + intros h' [Hin | ->%list_elem_of_singleton]%elem_of_app; [auto|lia].
    + intros h' key src recs' p d [Hin | ->%list_elem_of_singleton]%elem_of_app Hk' Hr; [by eapply Ha|]. by eapply Hahead.
    + apply StronglySorted_snoc; [done|]. intros h' Hin Hr. eapply (hi_ahead _ Hi); [done|done|]. rewrite Hr. by left.
    + intros c [Hin|Hin]%elem_of_app Hca.
      * destruct (Hc0 c (proj2 (elem_of_app _ _ _) (or_introl Hin)) Hca) as (h' & Hh' & Hco). exists h'. split; [|done]. apply elem_of_app. by left.
      * exists h. split; [apply elem_of_app; right; by left|]. by apply Hcalls.
Qed.

Lemma hand_step s s' : sys_step cfg s s' → quiet_inv s → hand_inv s → hand_inv s'.
Proof.
  intros Hs Hqi Hi. destruct Hs as [s t Ht|s n p Hop|s s' [? ? [s0 r n Hd Ht|s0 n Hd Ht|s0 c cs Hp|s0 Hdl Hp]|s0]|s id He Hid Hn|s id sub He Hid Hsub Hn].
  - by apply hand_calm.
  - destruct p as [pb|].
    + inversion Hop as [| |? ? ? ? ? ? ? Hp| | | |]; subst. by eapply hand_publish.
    + cbn [option_list]. rewrite app_nil_r. apply hand_calm; [lia| |done]. eapply op_calm; [|done|done]. apply Hqi.
  - by apply hand_turn.
  - destruct (turn_calm _ _ _ _ Ht) as (st1 & Hc & ->). by apply hand_calm.
  - destruct Hi as [Hf Hpu Hpn Hq Hh Hhn Ha Ho Hc]. split; cbn; try done. intros c0. rewrite <- app_assoc. cbn. intros Hin. apply Hc. by rewrite Hp.
  - by apply hand_delivering.
  - apply hand_calm; [lia|apply calm_purge|done].
  - destruct Hi as [Hf Hpu Hpn Hq Hh Hhn Ha Ho Hc]. by split.
  - destruct Hi as [Hf Hpu Hpn Hq Hh Hhn Ha Ho Hc]. by split.
Qed.

(** Reached from an empty network whose injector is within its laws. *)
Definition runs_to (s : Sys F) : Prop := ∃ now faults, faults_ok faults ∧ rtc (sys_step cfg) (sys_start now faults) s.

Lemma hand_runs s : runs_to s → hand_inv s.
Proof.
  intros (now & faults & Hf & Hr). revert Hr. generalize (hand_start now faults Hf) (quiet_begins now faults). generalize (sys_start now faults).
  intros s0 Hh Hq Hr. induction Hr as [|a b c Hab _ IH]; [done|]. apply IH; [by eapply hand_step|by eapply quiet_step].
Qed.

Lemma runs_quiet s : runs_to s → quiet_inv s.
Proof. intros (now & faults & _ & Hr). apply (quiet_reachable cfg). by exists now, faults. Qed.

(** Two hand-overs to one recipient, of publications that are in the order of the copies' keys. *)
Lemma order_of_publications (l : list Published) f a b p q h h' :
  StronglySorted pub_before l → l !! a = Some p → l !! b = Some q → fault_preserves_order f = true →
  justified f h p → justified f h' q → lex_lt (ha_key h) (ha_key h') → (a <= b)%nat.
Proof.
  intros Hs Ha Hb Ho ((_ & _ & _ & _ & Hr1 & H1) & _) ((_ & _ & _ & _ & Hr2 & H2) & _) Hlt. specialize (H1 Ho). specialize (H2 Ho).
  destruct (decide (a <= b)%nat) as [|Hn]; [done|]. apply Nat.nle_gt in Hn. destruct (StronglySorted_lookup _ _ _ _ _ _ Hs Hb Ha Hn) as [Hat Hlast].
  unfold lex_lt in Hlt. lia.
Qed.
End HandOver.

(** ** Nothing due is left waiting *)

Section Draining.
Context {F : Type} `{FL : FaultLaws F} `{MO : MapOrder} (cfg : NetConfig).

(** The calls that hand a payload to one recipient: of the subscription's handler, or of every
    watcher in the order they were added. *)
Definition recipient_calls (st : Net F) (source : EndpointId) (p : Payload) (r : EndpointId * To) : list HandlerCall :=
  match nt_endpoints st !! r.1, r.2 with
  | None, _ => []
  | Some e, To_Sub sub =>
      match ep_subs e !! sub with
      | Some (_, h) => [mkCall r.1 (Some sub) h (NE_Inbound (mkInbound p (carrier source r.1)))]
      | None => []
      end
  | Some e, To_Watchers => map (λ h, mkCall r.1 None h (NE_Presence (PE_Record p (carrier source r.1)))) (ep_watchers e)
  end.

Definition event_calls (st : Net F) (target : EndpointId) (event : PresenceEvent) : list HandlerCall :=
  match nt_endpoints st !! target with
  | Some e => map (λ h, mkCall target None h (NE_Presence event)) (ep_watchers e)
  | None => []
  end.

Definition item_calls (st : Net F) (item : Item) : list HandlerCall :=
  match item with
  | It_Copy source recs p _ => mjoin (map (recipient_calls st source p) recs)
  | It_CarrierLoss source target => event_calls st target (PE_CarrierLoss (carrier source target))
  | It_CarrierAppeared source target => event_calls st target (PE_CarrierAppeared (carrier source target))
  end.

(** What is due and has not expired, and all the calls it takes: copy by copy in the order of
    the queue, and for each copy recipient by recipient. *)
Definition is_due (now : Z) (x : Z * Z * Item) : Prop := x.1.1 ≤ now ∧ item_expired now x.2 = false.
Definition due_queue (now : Z) (st : Net F) : gmap (Z * Z) Item := filter (is_due now) (nt_queue st).
Definition due_calls (now : Z) (st : Net F) : list HandlerCall := mjoin (map (item_calls st) (values (due_queue now st))).

(** The delivery thread has nothing to do. *)
Definition settled (s : Sys F) : Prop :=
  nt_delivering (sy_net s) = None ∧ sy_pending s = [] ∧ due_queue (sy_now s) (sy_net s) = ∅.

(** A bound of the steps that are left: two for each recipient and item, and the calls. *)
Definition item_weight (item : Item) : nat := match item with It_Copy _ recs _ _ => S (length recs) | _ => 1 end.
Definition due_work (now : Z) (st : Net F) : nat :=
  sum_list_with (λ item, 2 * item_weight item + length (item_calls st item))%nat (values (due_queue now st)).
Definition work (s : Sys F) : nat :=
  (length (sy_pending s) + (if nt_delivering (sy_net s) then 1 else 0) + due_work (sy_now s) (sy_net s))%nat.

(** [n] steps of the delivery thread, with any steps of the purge thread between them. *)
Inductive thread_run : nat → Sys F → Sys F → Prop :=
| Tr_start s : thread_run 0 s s
| Tr_delivery n s s1 s2 : thread_run n s s1 → delivery_step s1 s2 → thread_run (S n) s s2
| Tr_purge n s s1 : thread_run n s s1 → thread_run n s (with_net (purge_expired (sy_now s1) (sy_net s1)) s1).

Lemma items_first (m : gmap (Z * Z) Item) k v :
  m !! k = Some v → (∀ k', k' ∈ dom m → leb k k' = true) → items m = (k, v) :: items (delete k m).
Proof.
  intros Hk Hmin. apply (sorted_unique fst); [apply items_sorted| | |].
  - constructor; [apply items_sorted|]. apply Forall_forall. intros [k' v'] [_ Hx]%elem_of_items%lookup_delete_Some.
    apply Hmin, elem_of_dom. by exists v'.
  - apply NoDup_keys.
  - rewrite !items_perm. symmetry. apply (map_to_list_delete m k v Hk).
Qed.

(** The calls depend on subscriptions and watchers alone. *)
Definition handlers_of (st : Net F) (id : EndpointId) : option (gmap SubId (Destination * Z) * list Z) :=
  (λ e, (ep_subs e, ep_watchers e)) <$> nt_endpoints st !! id.
Definition same_handlers (st st' : Net F) : Prop := ∀ id, handlers_of st' id = handlers_of st id.

Lemma same_item_calls st st' item : same_handlers st st' → item_calls st' item = item_calls st item.
Proof.
  intros Hs. assert (∀ source p r, recipient_calls st' source p r = recipient_calls st source p r) as Hr.
  { intros source p [target to]. specialize (Hs target). unfold handlers_of in Hs. unfold recipient_calls. cbn [fst snd].
    destruct (nt_endpoints st' !! target) as [e'|], (nt_endpoints st !! target) as [e|]; cbn in Hs; try done. by injection Hs as -> ->. }
  assert (∀ target event, event_calls st' target event = event_calls st target event) as He.
  { intros target event. specialize (Hs target). unfold handlers_of in Hs. unfold event_calls.
    destruct (nt_endpoints st' !! target) as [e'|], (nt_endpoints st !! target) as [e|]; cbn in Hs; try done. by injection Hs as _ ->. }
  destruct item; cbn; [|done..]. f_equal. by apply map_ext.
Qed.

Lemma link_handlers source target e st : nt_endpoints st !! target = Some e → same_handlers st (link source target e st).
Proof.
  intros He id. unfold handlers_of, link. cbn. destruct (decide (id = target)) as [->|]; [by rewrite lookup_insert_eq, He|by rewrite lookup_insert_ne].
Qed.

(** Taking the item under a key: its first calls are made, and what is left of it stays. *)
Lemma resolve_calls key item (st st' : Net F) r :
  nt_queue st !! key = Some item → net_resolve key st = (r, st') →
  ∃ rest, nt_queue st' = partial_alter (λ _, rest) key (nt_queue st) ∧ same_handlers st st' ∧
    item_calls st item = from_option calls_of [] r ++ from_option (item_calls st) [] rest ∧
    (from_option item_weight 0 rest < item_weight item)%nat ∧ ∀ i, rest = Some i → ∀ now, item_expired now i = item_expired now item.
Proof.
  unfold net_resolve. intros ->. destruct item as [source [|[target to] recs] p d|source target|source target]; cbv zeta.
  - intros [= <- <-]. exists None. split_and!; [done|done|done|cbn; lia|done].
  - set (st1 := if bool_decide (recs = []) then _ else _). set (rest := if bool_decide (recs = []) then None else Some (It_Copy source recs p d)).
    assert (nt_queue st1 = partial_alter (λ _, rest) key (nt_queue st) ∧ nt_endpoints st1 = nt_endpoints st) as [Hq He].
    { unfold st1, rest. case_bool_decide; [done|]. split; [|done]. cbn. by rewrite insert_delete_eq. }
    assert (∀ calls, recipient_calls st source p (target, to) = calls → item_calls st (It_Copy source ((target, to) :: recs) p d) =
      calls ++ from_option (item_calls st) [] rest) as Hc.
    { intros calls <-. unfold rest. cbn. f_equal. by case_bool_decide as Hn; [rewrite Hn|]. }
    assert ((from_option item_weight 0 rest < item_weight (It_Copy source ((target, to) :: recs) p d))%nat ∧
      ∀ i, rest = Some i → ∀ now, item_expired now i = has_passed_at d now) as [Hw Hx].
    { unfold rest. case_bool_decide; cbn; (split; [lia|]); [done|]. by intros i [= <-]. }
    rewrite He. clearbody st1. intros Hr. exists rest. unfold recipient_calls in Hc. cbn [fst snd] in Hc.
    assert (same_handlers st st1) as Hs by (intros id; unfold handlers_of; by rewrite He).
    destruct (nt_endpoints st !! target) as [e|] eqn:Ee; [|injection Hr as <- <-; split_and!; auto].
    destruct to as [sub|]; [destruct (ep_subs e !! sub) as [[dest h]|]; [|injection Hr as <- <-; split_and!; auto]|].
    + injection Hr as <- <-. split_and!; [done| |by apply Hc|done|done]. intros id. rewrite (link_handlers source target e); [apply Hs|by rewrite He].
    + injection Hr as <- <-. split_and!; [done| |apply Hc; cbn; unfold calls_of; cbn; by rewrite map_map|done|done].
      intros id. rewrite (link_handlers source target e); [apply Hs|by rewrite He].
  - intros Hr. exists None. cbn [nt_endpoints set_queue] in Hr. cbn [item_calls]. unfold event_calls.
    destruct (nt_endpoints st !! target) as [e|]; injection Hr as <- <-; (split_and!; [done|done| |cbn; lia|done]); [|done].
    cbn. unfold calls_of. cbn. by rewrite map_map, app_nil_r.
  - intros Hr. exists None. cbn [nt_endpoints set_queue] in Hr. cbn [item_calls]. unfold event_calls.
    destruct (nt_endpoints st !! target) as [e|] eqn:Ee; injection Hr as <- <-; (split_and!; [done| | |cbn; lia|done]); try done.
    + intros id. by rewrite (link_handlers source target e).
    + cbn. unfold calls_of. cbn. by rewrite map_map, app_nil_r.
Qed.

Lemma due_alter now key rest item (st st' : Net F) :
  nt_queue st' = partial_alter (λ _, rest) key (nt_queue st) → nt_queue st !! key = Some item → is_due now (key, item) →
  (∀ i, rest = Some i → item_expired now i = item_expired now item) →
  due_queue now st' = partial_alter (λ _, rest) key (due_queue now st).
Proof.
  intros Hq Hk [Hd Hx] Hi. unfold due_queue. rewrite Hq. apply map_eq. intros k. destruct (decide (k = key)) as [->|Hne].
  - rewrite lookup_partial_alter_eq. destruct rest as [i|].
    + apply map_lookup_filter_Some. split; [apply lookup_partial_alter_eq|]. split; [done|]. cbn. by rewrite (Hi i).
    + apply map_lookup_filter_None. left. apply lookup_partial_alter_eq.
  - rewrite lookup_partial_alter_ne by done. apply option_eq. intros i. by rewrite !map_lookup_filter_Some, lookup_partial_alter_ne.
Qed.

(** A turn takes the calls from the front of those that are due, and the work of them. *)
Lemma turn_due now (st st' : Net F) r :
  deliver_turn now st = (r, st') →
  same_handlers st st' ∧ due_calls now st = from_option calls_of [] r ++ due_calls now st' ∧
  (r = None ∧ due_queue now st' = ∅ ∨ (due_work now st' + 2 + length (from_option calls_of [] r) ≤ due_work now st)%nat).
Proof.
  assert (due_queue now (purge_expired now st) = due_queue now st) as Hp.
  { unfold due_queue. cbn. rewrite map_filter_filter_l; [done|]. by intros k i _ [_ ?]. }
  assert (due_queue now st = ∅ → purge_expired now st = st' → same_handlers st st' ∧ due_calls now st = due_calls now st' ∧ due_queue now st' = ∅) as Hempty.
  { intros He <-. split; [done|]. split; [|by rewrite Hp]. unfold due_calls. by rewrite Hp, He. }
  unfold deliver_turn. destruct (first _) as [key|] eqn:Ef.
  2: { intros [= <- <-]. destruct Hempty as (? & ? & ?); [|done|by split_and!; [| |left]]. apply first_None, dom_empty_iff_L in Ef. rewrite <- Hp. unfold due_queue. by rewrite Ef. }
  apply first_Some in Ef as [[item Hk]%elem_of_dom Hmin]. destruct (key.1 <=? now) eqn:El.
  2: { apply Z.leb_gt in El. intros [= <- <-]. destruct Hempty as (? & ? & ?); [|done|by split_and!; [| |left]]. rewrite <- Hp.
       apply map_empty. intros k. apply map_lookup_filter_None. right. intros i Hi [Hd _]. cbn in Hd.
       assert (leb key k = true) as Hle by (apply Hmin, elem_of_dom; by rewrite Hi). destruct (decide (key = k)) as [->|Hne]; [lia|].
       apply leb_lex_lt in Hle; [|done]. unfold lex_lt in Hle. lia. }
  apply Z.leb_le in El. set (st0 := purge_expired now st) in *. destruct (net_resolve key st0) as [r1 st1] eqn:Er. intros [= <- Hst'].
  destruct (resolve_calls _ _ _ _ _ Hk Er) as (rest & Hq & Hs & Hc & Hw & Hx).
  assert (is_due now (key, item)) as Hdue. { split; [done|]. by apply map_lookup_filter_Some in Hk as [_ ?]. }
  assert (same_handlers st0 st' ∧ nt_queue st' = nt_queue st1) as [Hs' Hq'] by (rewrite <- Hst'; by destruct r1).
  rewrite <- Hq' in Hq. pose proof (due_alter now key rest item _ _ Hq Hk Hdue (λ i Hi, Hx i Hi now)) as Hd. split; [done|].
  assert (due_queue now st0 !! key = Some item) as Hdk by (by apply map_lookup_filter_Some).
  assert (∀ k, k ∈ dom (due_queue now st0) → leb key k = true) as Hm.
  { intros k [i [Hi _]%map_lookup_filter_Some]%elem_of_dom. apply Hmin, elem_of_dom. by rewrite Hi. }
  pose proof (items_first _ _ _ Hdk Hm) as H0.
  assert (items (due_queue now st') = from_option (λ i, [(key, i)]) [] rest ++ items (delete key (due_queue now st0))) as H1.
  { rewrite Hd. destruct rest as [i|]; cbn; [|done]. change (partial_alter (λ _, Some i) key (due_queue now st0)) with (<[key:=i]> (due_queue now st0)). rewrite (items_first (<[key:=i]> (due_queue now st0)) key i).
    - by rewrite delete_insert_eq.
    - apply lookup_insert_eq.
    - intros k. rewrite dom_insert_L. intros [->%elem_of_singleton|Hi]%elem_of_union; [|by apply Hm]. by destruct (leb_total key key). }
  assert (∀ i, item_calls st' i = item_calls st0 i) as Hsc by (intros i; by apply same_item_calls).
  assert (due_calls now st = item_calls st0 item ++ mjoin (map (item_calls st0) (map snd (items (delete key (due_queue now st0)))))) as E0.
  { unfold due_calls, values. rewrite <- Hp. fold st0. rewrite H0. done. }
  assert (due_calls now st' = from_option (item_calls st0) [] rest ++ mjoin (map (item_calls st0) (map snd (items (delete key (due_queue now st0)))))) as E1.
  { unfold due_calls, values. rewrite H1. rewrite (map_ext _ _ Hsc). by destruct rest; cbn; [rewrite ?app_nil_r|]. }
  split; [by rewrite E0, E1, Hc, app_assoc|right]. unfold due_work, values. rewrite <- Hp. fold st0. rewrite H0, H1.
  assert (∀ l, sum_list_with (λ i, 2 * item_weight i + length (item_calls st' i))%nat l = sum_list_with (λ i, 2 * item_weight i + length (item_calls st0 i))%nat l) as Hsum.
  { intros l. induction l as [|i l IH]; cbn [sum_list_with]; [done|]. by rewrite IH, Hsc. }
  rewrite fmap_app, sum_list_with_app, !Hsum, fmap_cons. cbn [sum_list_with snd].
  change (length (item_calls st item)) with (length (item_calls st0 item)). rewrite Hc, length_app.
  change (λ i, 2 * item_weight i + length (item_calls st i))%nat with (λ i, 2 * item_weight i + length (item_calls st0 i))%nat.
  destruct rest as [i|]; cbn [from_option fmap list_fmap sum_list_with snd length] in *; lia.
Qed.

(** The delivery thread's calls come off the front of those it owes, and its work goes down
    until it has none. *)
Lemma delivery_due (s s' : Sys F) :
  quiet_inv s → delivery_step s s' →
  sy_now s' = sy_now s ∧ same_handlers (sy_net s) (sy_net s') ∧
  sy_called s' ++ sy_pending s' ++ due_calls (sy_now s') (sy_net s') = sy_called s ++ sy_pending s ++ due_calls (sy_now s) (sy_net s) ∧
  ((work s' < work s)%nat ∨ settled s').
Proof.
  intros Hq Hst. destruct Hst as [s0 r n Hd Ht|s0 n Hd Ht|s0 c cs Hp|s0 Hdl Hp].
  1,2: assert (sy_pending s0 = []) as Hp by
    (destruct (sy_pending s0) as [|c cs] eqn:E; [done|]; pose proof (qi_pending _ Hq c) as Hx; rewrite E in Hx; specialize (Hx (list_elem_of_here _ _)); congruence).
  - destruct (turn_due _ _ _ _ Ht) as (Hs & Hc & Hw). split; [done|]. split; [done|]. split; cbn; [by rewrite Hp, Hc|]. left.
    destruct Hw as [[? _]|Hw]; [done|]. unfold work. cbn. rewrite Hp, Hd. cbn in *. destruct (turn_calm _ _ _ _ Ht) as (st1 & _ & ->). cbn in *. lia.
  - destruct (turn_due _ _ _ _ Ht) as (Hs & Hc & Hw). split; [done|]. split; [done|]. split; cbn; [by rewrite Hc|].
    assert (nt_delivering n = None) as Hn. { destruct (turn_calm _ _ _ _ Ht) as (st1 & Hk & ->). by rewrite (proj1 (cm_still _ _ Hk)). }
    destruct Hw as [[_ Hw]|Hw]; [right; by split_and!|left]. unfold work. cbn in *. rewrite Hp, Hd, Hn. cbn. lia.
  - split_and!; [done|done|cbn; by rewrite Hp, <- app_assoc|left]. unfold work. cbn. rewrite Hp. cbn. lia.
  - split_and!; [done|done|done|left]. unfold work. cbn. rewrite Hp. destruct (nt_delivering (sy_net s0)); [|done]. cbn.
    change (due_work (sy_now s0) (set_delivering None (sy_net s0))) with (due_work (sy_now s0) (sy_net s0)). lia.
Qed.

Lemma settled_work (s : Sys F) : settled s → work s = 0%nat.
Proof. intros (H1 & H2 & H3). unfold work, due_work. by rewrite H1, H2, H3. Qed.

Lemma work_settled (s : Sys F) : quiet_inv s → work s = 0%nat → settled s.
Proof.
  unfold work, due_work, settled. intros Hq Hw. destruct (nt_delivering (sy_net s)); [lia|]. destruct (sy_pending s); [|cbn in Hw; lia].
  split_and!; [done|done|]. destruct (values (due_queue (sy_now s) (sy_net s))) as [|i l] eqn:E.
  - apply head_values_None. by rewrite E.
  - cbn in Hw. destruct i; cbn in Hw; lia.
Qed.

Lemma purge_due now (st : Net F) : due_queue now (purge_expired now st) = due_queue now st.
Proof. unfold due_queue. cbn. rewrite map_filter_filter_l; [done|]. by intros k i _ [_ ?]. Qed.

Lemma thread_run_due n (s s' : Sys F) :
  quiet_inv s → thread_run n s s' →
  quiet_inv s' ∧ sy_now s' = sy_now s ∧ same_handlers (sy_net s) (sy_net s') ∧
  sy_called s' ++ sy_pending s' ++ due_calls (sy_now s') (sy_net s') = sy_called s ++ sy_pending s ++ due_calls (sy_now s) (sy_net s) ∧
  (work s' + n ≤ work s ∨ settled s')%nat.
Proof.
  intros Hq Hr. induction Hr as [s|n s s1 s2 _ IH Hs|n s s1 _ IH].
  - split_and!; try done. left. lia.
  - destruct (IH Hq) as (Hq1 & Hn1 & Hh1 & Hc1 & Hw1). destruct (delivery_due _ _ Hq1 Hs) as (Hn2 & Hh2 & Hc2 & Hw2). split_and!.
    + eapply (quiet_step cfg); [|done]. by apply Ss_thread, Th_delivery.
    + congruence.
    + intros id. by rewrite Hh2, Hh1.
    + congruence.
    + destruct Hw2 as [Hw2|?]; [|by right]. destruct Hw1 as [Hw1|Hw1%settled_work]; [left|]; lia.
  - destruct (IH Hq) as (Hq1 & Hn1 & Hh1 & Hc1 & Hw1). split_and!.
    + eapply (quiet_step cfg); [|done]. by apply Ss_thread, Th_purge.
    + done.
    + done.
    + rewrite <- Hc1. unfold due_calls. cbn. by rewrite purge_due.
    + unfold work, settled, due_work in *. cbn. by rewrite purge_due.
Qed.

(** The delivery thread can always go on. *)
Lemma delivery_progress (s : Sys F) : quiet_inv s → ∃ s', delivery_step s s'.
Proof.
  intros Hq. destruct (sy_pending s) as [|c cs] eqn:Ep; [|eexists; by apply Th_call].
  destruct (nt_delivering (sy_net s)) as [d|] eqn:Ed; [eexists; apply Th_done; congruence|].
  destruct (deliver_turn (sy_now s) (sy_net s)) as [[r|] n] eqn:Et; eexists; [by apply Th_deliver|by apply Th_idle].
Qed.
End Draining.

(** Every call that hands a payload to a handler is of a copy of a payload that was
    published, to the destination the handler is there for: not before it was published nor
    before the copy was due, and before its deadline. *)
Theorem hand_over_justified {F : Type} `{FL : FaultLaws F} `{MO : MapOrder} (cfg : NetConfig) (s : Sys F) c :
  runs_to cfg s → c ∈ sy_called s → carries c = true →
  ∃ h pb, h ∈ sy_handed s ∧ call_of h c ∧ pb ∈ sy_published s ∧
    pu_source pb = ha_source h ∧ pu_payload pb = ha_payload h ∧ pu_destination pb = ha_destination h ∧
    pu_at pb ≤ (ha_key h).1 ≤ ha_at h ∧ ha_at h < pu_deadline pb ∧ ha_at h ≤ sy_now s.
Proof.
  intros Hi%hand_runs Hc Hca. destruct (hi_calls _ Hi c (proj2 (elem_of_app _ _ _) (or_introl Hc)) Hca) as (h & Hh & Hco).
  destruct (hi_handed _ Hi h Hh) as (pb & Hpb & (E1 & E2 & E3 & Hat & _) & Hd & Hdue). pose proof (hi_now _ Hi h Hh).
  exists h, pb. split_and!; (done || lia).
Qed.

(** [C7] What is due is handed over, on every schedule of the network's threads.  From any state
    of any run, as long as no caller acts and the clock stands still, and however the purge
    thread comes between: the delivery thread can always go on; once it has made more steps
    than a bound fixed by what was due, nothing is due any more; and then the handlers called
    since are exactly, and in this order, those of the calls it was making, then those of what
    was due and unexpired, item by item in the order of the queue and recipient by recipient.
    In particular each recipient of each such copy has had its call with the copy's payload:
    the handler of its subscription, or every watcher. *)
Theorem due_copies_delivered {F : Type} `{FL : FaultLaws F} `{MO : MapOrder} (cfg : NetConfig) (s s' : Sys F) (n : nat) :
  runs_to cfg s → thread_run n s s' →
  (∃ s'', delivery_step s' s'') ∧ ((work s < n)%nat → settled s') ∧
  (settled s' →
   sy_called s' = sy_called s ++ sy_pending s ++ due_calls (sy_now s) (sy_net s) ∧
   ∀ key source recs p d target to, nt_queue (sy_net s) !! key = Some (It_Copy source recs p d) → key.1 ≤ sy_now s < d → (target, to) ∈ recs →
     ∃ e, nt_endpoints (sy_net s) !! target = Some e ∧
       match to with
       | To_Sub sub => ∃ dest h, ep_subs e !! sub = Some (dest, h) ∧
           mkCall target (Some sub) h (NE_Inbound (mkInbound p (carrier source target))) ∈ due_calls (sy_now s) (sy_net s)
       | To_Watchers => ∀ h, h ∈ ep_watchers e →
           mkCall target None h (NE_Presence (PE_Record p (carrier source target))) ∈ due_calls (sy_now s) (sy_net s)
       end).
Proof.
  intros Hr Ht. pose proof (runs_quiet cfg s Hr) as Hq. destruct (thread_run_due cfg n s s' Hq Ht) as (Hq' & Hn & Hs & Hc & Hw).
  split; [by apply delivery_progress|]. split; [intros ?; destruct Hw; [lia|done]|].
  intros (_ & Hp & Hd). split.
  - rewrite <- Hc, Hp. unfold due_calls at 1. by rewrite Hd, app_nil_r.
  - intros key source recs p d target to Hk Hdue Hin. destruct (hi_queue _ (hand_runs cfg s Hr) _ _ _ _ _ Hk) as (_ & pb & _ & _ & Hb).
    destruct (Hb _ Hin) as (e & He & Hdest). cbn in He, Hdest. exists e. split; [done|].
    assert (∀ c, c ∈ recipient_calls (sy_net s) source p (target, to) → c ∈ due_calls (sy_now s) (sy_net s)) as Hcalls.
    { intros c Hcin. apply list_elem_of_join. exists (item_calls (sy_net s) (It_Copy source recs p d)). split.
      - apply list_elem_of_join. exists (recipient_calls (sy_net s) source p (target, to)). split; [done|]. by apply list_elem_of_fmap_2.
      - apply list_elem_of_fmap_2, elem_of_values. exists key. apply map_lookup_filter_Some. split; [done|]. split; [cbn; lia|].
        cbn. unfold has_passed_at. apply Z.leb_gt. lia. }
    unfold recipient_calls in Hcalls. cbn [fst snd] in Hcalls. rewrite He in Hcalls. destruct to as [sub|]; cbn in Hdest.
    + destruct (ep_subs e !! sub) as [[dest h]|]; [|done]. exists dest, h. split; [done|]. apply Hcalls. by left.
    + intros h Hh. apply Hcalls. by apply (list_elem_of_fmap_2 (λ h, mkCall target None h _)).
Qed.

(** The copies handed to one recipient are in the strict order of their keys, so none is
    handed to it twice; and on a network that declares [ordering], in the order in which the
    payloads were published. *)
Theorem hand_over_order {F : Type} `{FL : FaultLaws F} `{MO : MapOrder} (cfg : NetConfig) (s : Sys F) (i j : nat) h h' :
  runs_to cfg s → sy_handed s !! i = Some h → sy_handed s !! j = Some h' → (i < j)%nat → recipient_of h = recipient_of h' →
  lex_lt (ha_key h) (ha_key h') ∧
  (fault_preserves_order (nt_faults (sy_net s)) = true →
   ∃ (a b : nat) p q, (a <= b)%nat ∧ sy_published s !! a = Some p ∧ sy_published s !! b = Some q ∧
     justified (nt_faults (sy_net s)) h p ∧ justified (nt_faults (sy_net s)) h' q).
Proof.
  intros Hi%hand_runs Eh Eh' Hij Hr. assert (lex_lt (ha_key h) (ha_key h')) as Hlt by exact (StronglySorted_lookup _ _ _ _ _ _ (hi_order _ Hi) Eh Eh' Hij Hr).
  split; [done|]. intros Ho. destruct (hi_handed _ Hi h (list_elem_of_lookup_2 _ _ _ Eh)) as (p & [a Ha]%list_elem_of_lookup & Hp).
  destruct (hi_handed _ Hi h' (list_elem_of_lookup_2 _ _ _ Eh')) as (q & [b Hb]%list_elem_of_lookup & Hq).
  exists a, b, p, q. split_and!; try done. by eapply order_of_publications; [apply Hi|..].
Qed.

(** Two networks that differ, at most, in who is subscribed and who watches. *)
Record same_outside {F} (source : EndpointId) (st st' : Net F) : Prop := {
  so_id : nt_next_id st' = nt_next_id st;
  so_faults : nt_faults st' = nt_faults st;
  so_source : is_Some (nt_endpoints st !! source) ↔ is_Some (nt_endpoints st' !! source);
  so_queue : dom (nt_queue st') = dom (nt_queue st) }.

(** What a publisher sees of a [publish] does not depend on subscriptions or watchers:
    the result, the numbers drawn, the fates used and the times of the queue are the same on two
    networks that differ only in those. *)
Theorem publish_blind {F : Type} `{FI : FaultInjector F} `{MO : MapOrder} (cfg : NetConfig) now source destination payload deadline presence (st st' : Net F) :
  same_outside source st st' →
  (net_publish cfg now source destination payload deadline presence st).1 = (net_publish cfg now source destination payload deadline presence st').1 ∧
  same_outside source (net_publish cfg now source destination payload deadline presence st).2
    (net_publish cfg now source destination payload deadline presence st').2.
Proof.
  intros Hs. pose proof Hs as [Hi Hf Hsrc Hq]. unfold net_publish. rewrite Hf.
  assert (is_some (nt_endpoints st !! source) = is_some (nt_endpoints st' !! source)) as ->.
  { destruct (nt_endpoints st !! source), (nt_endpoints st' !! source); try done; [by destruct (proj1 Hsrc) | by destruct (proj2 Hsrc)]. }
  destruct (_ || _ || _ || _); [done|]. destruct (has_passed_at _ _); [done|]. destruct (fault_copies _ _) as [delays faults]. cbn [fst snd]. split; [done|].
  generalize (recipients_of destination presence (set_faults faults st)) (recipients_of destination presence (set_faults faults st')).
  assert (same_outside source (set_faults faults st) (set_faults faults st')) as H0 by by split.
  revert H0. generalize (set_faults faults st) (set_faults faults st'). clear. induction delays as [|d delays IH]; intros st st' Hs r r'; [done|]. cbn [foldl]. apply IH.
  unfold publish_copy. destruct (checked_add _ _ _) as [due|]; [|done]. destruct (has_passed_at _ _); [done|].
  destruct Hs as [Hi Hf Hsrc Hq]. split; cbn; rewrite ?Hi; try done. by rewrite !dom_insert_L, Hq.
Qed.

(** ** Runs that can be computed *)

Inductive Act : Type :=
| A_tick (t : Z) | A_join (key : KeyId) | A_leave (id : EndpointId)
| A_publish (source : EndpointId) (destination : Destination) (payload : Payload) (deadline : Z) (presence : bool)
| A_subscribe (endpoint : EndpointId) (destination : Destination) (handler : Z) | A_unsubscribe (endpoint : EndpointId) (sub : SubId)
| A_watch (endpoint : EndpointId) (handler : Z) | A_turn | A_call | A_done
| A_leave_returns (id : EndpointId).

Section Computed.
Context {F : Type} `{FI : FaultInjector F} `{MO : MapOrder} (cfg : NetConfig).

Definition op_sys (n : Net F) (p : option Published) (s : Sys F) : Sys F :=
  mkSys n (sy_now s) (sy_pending s) (sy_called s) (sy_handed s) (sy_published s ++ option_list p) (sy_left s) (sy_ended s).

(** One step, when it can be taken. *)
Definition exec (a : Act) (s : Sys F) : option (Sys F) :=
  let st := sy_net s in let now := sy_now s in
  match a with
  | A_tick t => then_some (now <=? t) (mkSys st t (sy_pending s) (sy_called s) (sy_handed s) (sy_published s) (sy_left s) (sy_ended s))
  | A_join key => Some (op_sys (net_join cfg now key st).2 None s)
  | A_leave id => Some (op_sys (net_leave now id st) None s)
  | A_publish source destination payload deadline presence =>
      let '(r, n) := net_publish cfg now source destination payload deadline presence st in
      Some (op_sys n (match r with Taken => Some (mkPublished now source destination payload deadline (nt_next_id st) (nt_next_id n)) | NotTaken => None end) s)
  | A_subscribe endpoint destination handler => Some (op_sys (net_subscribe endpoint destination handler st).2 None s)
  | A_unsubscribe endpoint sub => Some (op_sys (net_unsubscribe endpoint sub st) None s)
  | A_watch endpoint handler => Some (op_sys (net_watch now endpoint handler st).2 None s)
  | A_turn =>
      match nt_delivering st, deliver_turn now st with
      | None, (Some r, n) => Some (mkSys n now (calls_of r) (sy_called s) (sy_handed s ++ option_list (handing now st)) (sy_published s) (sy_left s) (sy_ended s))
      | None, (None, n) => Some (with_net n s)
      | Some _, _ => None
      end
  | A_call =>
      match sy_pending s with
      | c :: cs => Some (mkSys st now cs (sy_called s ++ [c]) (sy_handed s) (sy_published s) (sy_left s) (sy_ended s))
      | [] => None
      end
  | A_done => match nt_delivering st, sy_pending s with Some _, [] => Some (with_net (set_delivering None st) s) | _, _ => None end
  | A_leave_returns id =>
      then_some (negb (is_some (nt_endpoints st !! id)) && (id <=? nt_next_id st) && negb (delivering_to id st))
        (mkSys st now (sy_pending s) (sy_called s) (sy_handed s) (sy_published s) (id :: sy_left s) (sy_ended s))
  end.

Definition by_delivery (a : Act) : bool := match a with A_turn | A_call | A_done => true | _ => false end.

Lemma exec_delivery a s s' : by_delivery a = true → exec a s = Some s' → delivery_step s s'.
Proof.
  destruct a; try done; intros _; cbn [exec]; cbv zeta.
  - destruct (nt_delivering _) eqn:Ed; [done|]. destruct (deliver_turn _ _) as [[r|] n] eqn:Et; intros [= <-]; [by apply Th_deliver|by apply Th_idle].
  - destruct (sy_pending s) eqn:Ep; [done|]. intros [= <-]. by apply Th_call.
  - destruct (nt_delivering _) eqn:Ed; [|done]. destruct (sy_pending s) eqn:Ep; [|done]. intros [= <-]. apply Th_done; congruence.
Qed.

Lemma exec_step a s s' : exec a s = Some s' → sys_step cfg s s'.
Proof.
  destruct (by_delivery a) eqn:Eb; [intros; by eapply Ss_thread, Th_delivery, exec_delivery|revert Eb].
  destruct a; cbn [exec by_delivery]; cbv zeta; unfold then_some; try done; intros _.
  - destruct (_ <=? _) eqn:E; [|done]. intros [= <-]. apply Ss_tick. by apply Z.leb_le.
  - intros [= <-]. apply Ss_op, Op_join.
  - intros [= <-]. apply Ss_op, Op_leave.
  - destruct (net_publish _ _ _ _ _ _ _ _) as [[] n] eqn:E; intros [= <-]; apply Ss_op; [by eapply Op_publish|by eapply Op_not_taken].
  - intros [= <-]. apply Ss_op, Op_subscribe.
  - intros [= <-]. apply Ss_op, Op_unsubscribe.
  - intros [= <-]. apply Ss_op, Op_watch.
  - destruct (_ && _ && _) eqn:E; [|done]. intros [= <-]. rewrite !andb_true_iff, !negb_true_iff in E. destruct E as [[E1 E2%Z.leb_le] E3].
    apply Ss_leave_returns; [by destruct (_ !! id)|done|done].
Qed.

Fixpoint execs (l : list Act) (s : Sys F) : option (Sys F) :=
  match l with [] => Some s | a :: l => s ← exec a s; execs l s end.

Lemma execs_thread l s s' : forallb by_delivery l = true → execs l s = Some s' → thread_run (length l) s s'.
Proof.
  revert s'. induction l as [|a l IH] using rev_ind; intros s' Hb Hl; [injection Hl as <-; constructor|].
  rewrite forallb_app, andb_true_iff in Hb. destruct Hb as [Hb Ha]. cbn in Ha. rewrite andb_true_r in Ha.
  assert (∃ s1, execs l s = Some s1 ∧ exec a s1 = Some s') as (s1 & H1 & H2).
  { clear -Hl. revert s Hl. induction l as [|b l IH]; cbn; intros s.
    - destruct (exec a s) eqn:E; [|done]. cbn. intros [= ->]. eauto.
    - destruct (exec b s) as [s2|]; [|done]. cbn. apply IH. }
  rewrite length_app, Nat.add_comm. eapply Tr_delivery; [by apply IH|by eapply exec_delivery].
Qed.

Lemma execs_steps l s s' : execs l s = Some s' → rtc (sys_step cfg) s s'.
Proof.
  revert s. induction l as [|a l IH]; cbn; intros s; [by intros [= <-]|]. destruct (exec a s) as [s1|] eqn:E; [|done]. intros Hl. eapply rtc_l; [by apply exec_step in E|auto].
Qed.
End Computed.

(** Two endpoints, a subscription at the second, and two payloads that reach it five ticks after
    they are published; then it leaves. *)
#[local] Instance listed_order : MapOrder := {| map_items := λ K V _ _ m, map_to_list m; map_items_perm := λ K V _ _ m, reflexivity _ |}.

Definition example_config : NetConfig := build_config CrossImplementation 0 1000000 (mkFixedDelay 5).
Definition example_payload (x : Z) : Payload := mkPayload PK_Receipt [x].
Definition example_sends : list Act :=
  [A_join [1]; A_join [2]; A_subscribe 2 (Dest_Device [2]) 7; A_publish 1 (Dest_Device [2]) (example_payload 40) 100 false;
   A_tick 2; A_publish 1 (Dest_Device [2]) (example_payload 41) 100 false].
Definition example_receives : list Act := [A_tick 8; A_turn; A_call; A_done; A_turn; A_call; A_done].
Definition example_start : Sys FixedDelay := sys_start 0 (mkFixedDelay 5).
Definition example_at (l : list Act) : Sys FixedDelay := match execs example_config l example_start with Some s => s | None => example_start end.

Example example_called :
  map (λ c, (hc_endpoint c, hc_sub c, hc_handler c)) (sy_called (example_at (example_sends ++ example_receives))) = [(2, Some 3, 7); (2, Some 3, 7)] ∧
  sy_left (example_at (example_sends ++ example_receives ++ [A_leave 2; A_leave_returns 2])) = [2].
Proof. split; vm_compute; reflexivity. Qed.

(** A [leave] from inside a presence handler does not wait, and the watchers that come after it
    in the same event are still called. *)
Example leave_inside_watcher :
  match execs example_config [A_join [1]; A_join [2]; A_watch 1 10; A_watch 1 11; A_turn; A_call; A_leave 1; A_call] example_start with
  | Some s => nt_endpoints (sy_net s) !! 1 = None ∧ map hc_handler (sy_called s) = [10; 11]
  | None => False
  end.
Proof. vm_compute. split; reflexivity. Qed.

(** A network that declares no order: two copies of the first payload, of which the second one
    overtakes nothing, and a lost one. *)
Example scripted_fates :
  match execs example_config [A_join [1]; A_join [2]; A_subscribe 2 (Dest_Device [2]) 7; A_publish 1 (Dest_Device [2]) (example_payload 40) 100 false;
      A_publish 1 (Dest_Device [2]) (example_payload 41) 100 false; A_tick 9; A_turn; A_call; A_done; A_turn; A_call; A_done]
      (sys_start 0 (scripted_lose (scripted_push [3; 9] (mkScripted [])))) with
  | Some s => map (λ h, (ha_key h, pl_octets (ha_payload h))) (sy_handed s) = [((3, 4), [40]); ((9, 5), [40])]
  | None => False
  end.
Proof. vm_compute. reflexivity. Qed.

Lemma example_execs : execs example_config (example_sends ++ example_receives) example_start = Some (example_at (example_sends ++ example_receives)).
Proof. vm_compute. reflexivity. Qed.

Lemma example_runs : runs_to example_config (example_at (example_sends ++ example_receives)).
Proof. exists 0, (mkFixedDelay 5). split; [vm_compute; discriminate|]. apply (execs_steps example_config _ _ _ example_execs). Qed.

Lemma example_sends_runs : runs_to example_config (example_at (example_sends ++ [A_tick 8])).
Proof.
  exists 0, (mkFixedDelay 5). split; [vm_compute; discriminate|]. apply (execs_steps example_config (example_sends ++ [A_tick 8])). vm_compute. reflexivity.
Qed.

Lemma no_call_after_leave_witness :
  ∃ l, sy_called (example_at (example_sends ++ example_receives ++ [A_leave 2; A_leave_returns 2; A_publish 1 (Dest_Device [2]) (example_payload 42) 100 false; A_tick 20; A_turn])) =
    sy_called (example_at (example_sends ++ example_receives ++ [A_leave 2; A_leave_returns 2])) ++ l ∧
    ∀ c, c ∈ l → hc_endpoint c ∉ sy_left (example_at (example_sends ++ example_receives ++ [A_leave 2; A_leave_returns 2])) ∧
      ∀ sub, hc_sub c = Some sub → (hc_endpoint c, sub) ∉ sy_ended (example_at (example_sends ++ example_receives ++ [A_leave 2; A_leave_returns 2])).
Proof.
  apply (no_call_after_leave example_config).
  - exists 0, (mkFixedDelay 5). apply (execs_steps example_config (example_sends ++ example_receives ++ [A_leave 2; A_leave_returns 2])). vm_compute. reflexivity.
  - apply (execs_steps example_config [A_publish 1 (Dest_Device [2]) (example_payload 42) 100 false; A_tick 20; A_turn]). vm_compute. reflexivity.
Defined.

Definition example_end : Sys FixedDelay := example_at (example_sends ++ example_receives).
Definition example_due : Sys FixedDelay := example_at (example_sends ++ [A_tick 8]).
Definition example_call : HandlerCall :=
  match head (sy_called example_end) with Some c => c | None => mkCall 0 None 0 (NE_Presence (PE_CarrierLoss [])) end.
Definition example_handed (i : nat) : Handed :=
  match sy_handed example_end !! i with Some h => h | None => mkHanded 0 (0, 0) 0 To_Watchers (Dest_Device []) 0 (example_payload 0) 0 end.

Lemma hand_over_justified_witness :
  ∃ h pb, h ∈ sy_handed example_end ∧ call_of h example_call ∧ pb ∈ sy_published example_end ∧
    pu_source pb = ha_source h ∧ pu_payload pb = ha_payload h ∧ pu_destination pb = ha_destination h ∧
    pu_at pb ≤ (ha_key h).1 ≤ ha_at h ∧ ha_at h < pu_deadline pb ∧ ha_at h ≤ sy_now example_end.
Proof.
  apply (hand_over_justified example_config example_end example_call example_runs); [|vm_compute; reflexivity].
  apply head_Some_elem_of. vm_compute. reflexivity.
Defined.

Lemma example_thread_run : thread_run 7 example_due (example_at (example_sends ++ example_receives ++ [A_turn])).
Proof. apply (execs_thread example_config (tail example_receives ++ [A_turn])); vm_compute; reflexivity. Qed.

Lemma due_copies_delivered_witness :
  sy_called (example_at (example_sends ++ example_receives ++ [A_turn])) = sy_called example_due ++ sy_pending example_due ++ due_calls (sy_now example_due) (sy_net example_due) ∧
  length (due_calls (sy_now example_due) (sy_net example_due)) = 2%nat.
Proof.
  split; [|vm_compute; reflexivity].
  apply (due_copies_delivered example_config example_due _ 7 example_sends_runs example_thread_run). repeat split; vm_compute; reflexivity.
Defined.

Lemma hand_over_order_witness :
  lex_lt (ha_key (example_handed 0)) (ha_key (example_handed 1)) ∧
  (fault_preserves_order (nt_faults (sy_net example_end)) = true →
   ∃ (a b : nat) p q, (a <= b)%nat ∧ sy_published example_end !! a = Some p ∧ sy_published example_end !! b = Some q ∧
     justified (nt_faults (sy_net example_end)) (example_handed 0) p ∧ justified (nt_faults (sy_net example_end)) (example_handed 1) q).
Proof. apply (hand_over_order example_config example_end 0 1 _ _ example_runs); [vm_compute; reflexivity..|lia|vm_compute; reflexivity]. Defined.

Definition example_net : Net FixedDelay := sy_net (example_at [A_join [1]; A_join [2]; A_subscribe 2 (Dest_Device [2]) 7]).

Lemma publish_blind_witness :
  (net_publish example_config 0 1 (Dest_Device [2]) (example_payload 40) 100 false example_net).1 =
    (net_publish example_config 0 1 (Dest_Device [2]) (example_payload 40) 100 false (net_unsubscribe 2 3 example_net)).1 ∧
  same_outside 1 (net_publish example_config 0 1 (Dest_Device [2]) (example_payload 40) 100 false example_net).2
    (net_publish example_config 0 1 (Dest_Device [2]) (example_payload 40) 100 false (net_unsubscribe 2 3 example_net)).2.
Proof.
  apply (publish_blind example_config). split; [reflexivity|reflexivity| |reflexivity].
  split; intros _; vm_compute; eexists; reflexivity.
Defined.
