(* ===== verification/Connections.v ===== *)
(** * Connections ([core/src/connection.rs])

    The closure barrier of a local connection, its reading half and its writing half, and the
    connection as a system in which the relay, one reader, one writer and any number of
    closers take turns.  A turn is one hold of the closure's lock, one wait on the channel, or
    one atomic update. *)

From S2P Require Import Prelude.

(** ** The barrier *)

Record Closure := mkClosure { cl_closed : bool; cl_pending : Z; cl_closed_at : option Z }.

Definition Closure_default : Closure := mkClosure false 0 None.
Definition begin_close (now : Z) (c : Closure) : Closure :=
  mkClosure true (cl_pending c) (match cl_closed_at c with Some t => Some t | None => Some now end).
Definition if_open {A} (c : Closure) (select : A) : option A :=
  match cl_closed_at c with Some _ => None | None => Some select end.
Definition closure_begin (c : Closure) : option Closure :=
  if cl_closed c then None else Some (mkClosure (cl_closed c) (cl_pending c + 1) (cl_closed_at c)).

(** The drop of a [Pending]. *)
Definition settle (c : Closure) : Closure := mkClosure (cl_closed c) (cl_pending c - 1) (cl_closed_at c).

(** ** The reading half *)

(** The channel's messages and whether its sender is alive, the chunk in hand and the place in it. *)
Record ConnectionReader := mkReader { cr_queue : list (list Z); cr_sender : bool; cr_buf : list Z; cr_pos : nat }.

Inductive ReadTurn : Type :=
| RT_return (octets : list Z) (r : ConnectionReader)
| RT_recv.

(** The loop of [read] up to its [drop(s)], with [len] octets asked for. *)
Definition read_turn (c : Closure) (len : nat) (r : ConnectionReader) : ReadTurn :=
  if cl_closed c then RT_return [] r
  else if (cr_pos r <? length (cr_buf r))%nat then
    let n := Nat.min len (length (cr_buf r) - cr_pos r) in
    RT_return (take n (drop (cr_pos r) (cr_buf r))) (mkReader (cr_queue r) (cr_sender r) (cr_buf r) (cr_pos r + n))
  else RT_recv.

(** [recv_timeout]: a chunk, [None] at the end of the stream, or nothing yet. *)
Definition recv_turn (r : ConnectionReader) : option ConnectionReader :=
  match cr_queue r with
  | b :: q => Some (mkReader q (cr_sender r) b 0)
  | [] => if cr_sender r then Some r else None
  end.

(** ** The writing half *)

Record WriteControl := mkControl { wc_paused : bool; wc_after : Z; wc_pending : Z }.
Definition pause (paused : bool) (w : WriteControl) : WriteControl := mkControl paused (wc_after w) (wc_pending w).
Definition pause_after (octets : Z) (w : WriteControl) : WriteControl := mkControl (wc_paused w) octets (wc_pending w).
Definition flow_add (n : Z) (w : WriteControl) : WriteControl := mkControl (wc_paused w) (wc_after w) (wc_pending w + n).

Inductive WriteOutcome : Type := WO_Completed (transferred : nat) | WO_Closed (transferred : nat).
Inductive IoError : Type := Io_RelayEnded | Io_ClosedWrite (transferred : nat) | Io_ConnectionClosed.
Abbreviation transfer_result := (result IoError WriteOutcome).

Definition CHUNK : nat := Z.to_nat 8192.

(** What is on the channel, and whether the relay still holds its other end. *)
Record Channel := mkChannel { ch_sent : list (list Z); ch_relay : bool }.

Inductive WriteTurn : Type :=
| WT_wait
| WT_return (r : transfer_result) (transferred : nat) (ch : Channel)
| WT_more (transferred : nat) (ch : Channel).

(** One turn of the loop of [transfer]. *)
Definition write_turn (c : Closure) (w : WriteControl) (buf : list Z) (transferred : nat) (ch : Channel) : WriteTurn :=
  if cl_closed c then WT_return (Ok (WO_Closed transferred)) transferred ch
  else if wc_paused w || (wc_after w <=? Z.of_nat transferred) then WT_wait
  else
    let e := Nat.min (transferred + CHUNK) (length buf) in
    if ch_relay ch then
      let ch := mkChannel (ch_sent ch ++ [take (e - transferred) (drop transferred buf)]) true in
      if (e =? length buf)%nat then WT_return (Ok (WO_Completed e)) e ch else WT_more e ch
    else WT_return (Err Io_RelayEnded) transferred ch.

(** [Write::write], of what [transfer] returned, and [flush]. *)
Definition connection_write (r : transfer_result) : result IoError nat :=
  match r with
  | Ok (WO_Completed n) => Ok n
  | Ok (WO_Closed n) => Err (Io_ClosedWrite n)
  | Err e => Err e
  end.
Definition connection_flush (c : Closure) : result IoError unit := if cl_closed c then Err Io_ConnectionClosed else Ok tt.

(** ** The connection as a system *)

(** Where the reader and the writer are; each half is used by one call at a time. *)
Inductive ReadAt : Type := Rd_idle | Rd_turn (len : nat) | Rd_recv (len : nat) | Rd_settle (octets : list Z).
Inductive WriteAt : Type :=
| Wr_idle
| Wr_begun (buf : list Z)
| Wr_turn (buf : list Z) (transferred : nat)
| Wr_flow (buf : list Z) (transferred : nat) (r : transfer_result)
| Wr_settle (buf : list Z) (transferred : nat) (r : transfer_result).

Record Conn := mkConn {
  cn_now : Z; cn_closure : Closure; cn_reader : ConnectionReader; cn_read_at : ReadAt;
  cn_control : WriteControl; cn_channel : Channel; cn_write_at : WriteAt;
  cn_arrived : list Z;  (** what the relay put on the reader's channel *)
  cn_reads : list (list Z);  (** what each read returned *)
  cn_writes : list (list Z * nat * transfer_result);  (** each transfer: its octets, how many it sent, its result *)
  cn_close_returned : bool }.

Definition conn_start (now : Z) : Conn :=
  mkConn now Closure_default (mkReader [] true [] 0) Rd_idle (mkControl false (2 ^ 64 - 1) 0) (mkChannel [] true) Wr_idle [] [] [] false.

Definition set_read (r : ConnectionReader) (at_ : ReadAt) (s : Conn) : Conn :=
  mkConn (cn_now s) (cn_closure s) r at_ (cn_control s) (cn_channel s) (cn_write_at s) (cn_arrived s) (cn_reads s) (cn_writes s) (cn_close_returned s).
Definition set_write (w : WriteControl) (ch : Channel) (at_ : WriteAt) (s : Conn) : Conn :=
  mkConn (cn_now s) (cn_closure s) (cn_reader s) (cn_read_at s) w ch at_ (cn_arrived s) (cn_reads s) (cn_writes s) (cn_close_returned s).
Definition set_closure (c : Closure) (s : Conn) : Conn :=
  mkConn (cn_now s) c (cn_reader s) (cn_read_at s) (cn_control s) (cn_channel s) (cn_write_at s) (cn_arrived s) (cn_reads s) (cn_writes s) (cn_close_returned s).
Definition did_read (octets : list Z) (s : Conn) : Conn :=
  mkConn (cn_now s) (cn_closure s) (cn_reader s) Rd_idle (cn_control s) (cn_channel s) (cn_write_at s) (cn_arrived s) (cn_reads s ++ [octets]) (cn_writes s) (cn_close_returned s).
Definition did_write (buf : list Z) (n : nat) (r : transfer_result) (s : Conn) : Conn :=
  mkConn (cn_now s) (cn_closure s) (cn_reader s) (cn_read_at s) (cn_control s) (cn_channel s) Wr_idle (cn_arrived s) (cn_reads s) (cn_writes s ++ [(buf, n, r)]) (cn_close_returned s).

(** The calls of the two halves, one turn at a time. *)
Inductive half_step : Conn → Conn → Prop :=
| Hs_read_refused s : cn_read_at s = Rd_idle → closure_begin (cn_closure s) = None → half_step s (did_read [] s)
| Hs_read_begins s len c : cn_read_at s = Rd_idle → closure_begin (cn_closure s) = Some c →
    half_step s (set_read (cn_reader s) (if (len =? 0)%nat then Rd_settle [] else Rd_turn len) (set_closure c s))
| Hs_read_turn s len octets r : cn_read_at s = Rd_turn len → read_turn (cn_closure s) len (cn_reader s) = RT_return octets r →
    half_step s (set_read r (Rd_settle octets) s)
| Hs_read_waits s len : cn_read_at s = Rd_turn len → read_turn (cn_closure s) len (cn_reader s) = RT_recv →
    half_step s (set_read (cn_reader s) (Rd_recv len) s)
| Hs_recv s len r : cn_read_at s = Rd_recv len → recv_turn (cn_reader s) = Some r → half_step s (set_read r (Rd_turn len) s)
| Hs_recv_ended s len : cn_read_at s = Rd_recv len → recv_turn (cn_reader s) = None → half_step s (set_read (cn_reader s) (Rd_settle []) s)
| Hs_read_ends s octets : cn_read_at s = Rd_settle octets → half_step s (did_read octets (set_closure (settle (cn_closure s)) s))
| Hs_write_refused s buf : cn_write_at s = Wr_idle → closure_begin (cn_closure s) = None → half_step s (did_write buf 0 (Ok (WO_Closed 0)) s)
| Hs_write_begins s buf c : cn_write_at s = Wr_idle → closure_begin (cn_closure s) = Some c →
    half_step s (set_write (cn_control s) (cn_channel s) (Wr_begun buf) (set_closure c s))
| Hs_write_flow s buf : cn_write_at s = Wr_begun buf → half_step s (set_write (flow_add 1 (cn_control s)) (cn_channel s) (Wr_turn buf 0) s)
| Hs_write_waits s buf n : cn_write_at s = Wr_turn buf n → write_turn (cn_closure s) (cn_control s) buf n (cn_channel s) = WT_wait → half_step s s
| Hs_write_more s buf n n' ch : cn_write_at s = Wr_turn buf n → write_turn (cn_closure s) (cn_control s) buf n (cn_channel s) = WT_more n' ch →
    half_step s (set_write (cn_control s) ch (Wr_turn buf n') s)
| Hs_write_returns s buf n r n' ch : cn_write_at s = Wr_turn buf n → write_turn (cn_closure s) (cn_control s) buf n (cn_channel s) = WT_return r n' ch →
    half_step s (set_write (cn_control s) ch (Wr_flow buf n' r) s)
| Hs_flow_ends s buf n r : cn_write_at s = Wr_flow buf n r → half_step s (set_write (flow_add (-1) (cn_control s)) (cn_channel s) (Wr_settle buf n r) s)
| Hs_write_ends s buf n r : cn_write_at s = Wr_settle buf n r → half_step s (did_write buf n r (set_closure (settle (cn_closure s)) s)).

(** The relay and the closers. *)
Inductive conn_step : Conn → Conn → Prop :=
| Cs_half s s' : half_step s s' → conn_step s s'
| Cs_tick s t : cn_now s ≤ t →
    conn_step s (mkConn t (cn_closure s) (cn_reader s) (cn_read_at s) (cn_control s) (cn_channel s) (cn_write_at s) (cn_arrived s) (cn_reads s) (cn_writes s) (cn_close_returned s))
| Cs_arrives s b : cr_sender (cn_reader s) = true →
    conn_step s (mkConn (cn_now s) (cn_closure s) (mkReader (cr_queue (cn_reader s) ++ [b]) true (cr_buf (cn_reader s)) (cr_pos (cn_reader s))) (cn_read_at s)
      (cn_control s) (cn_channel s) (cn_write_at s) (cn_arrived s ++ b) (cn_reads s) (cn_writes s) (cn_close_returned s))
| Cs_sender_ends s : conn_step s (set_read (mkReader (cr_queue (cn_reader s)) false (cr_buf (cn_reader s)) (cr_pos (cn_reader s))) (cn_read_at s) s)
| Cs_relay_ends s : conn_step s (set_write (cn_control s) (mkChannel (ch_sent (cn_channel s)) false) (cn_write_at s) s)
| Cs_pause s p : conn_step s (set_write (pause p (cn_control s)) (cn_channel s) (cn_write_at s) s)
| Cs_pause_after s n : conn_step s (set_write (pause_after n (cn_control s)) (cn_channel s) (cn_write_at s) s)
| Cs_close_begins s : conn_step s (set_closure (begin_close (cn_now s) (cn_closure s)) s)
| Cs_close_returns s : cl_closed (cn_closure s) = true → cl_pending (cn_closure s) = 0 →
    conn_step s (mkConn (cn_now s) (cn_closure s) (cn_reader s) (cn_read_at s) (cn_control s) (cn_channel s) (cn_write_at s) (cn_arrived s) (cn_reads s) (cn_writes s) true).

Definition conn_runs (s : Conn) : Prop := ∃ now, rtc conn_step (conn_start now) s.

(** ** The streams are exact *)

(** What a read in progress holds, and what a write in progress has sent. *)
Definition in_hand (r : ReadAt) : list Z := match r with Rd_settle octets => octets | _ => [] end.
Definition sent_of (w : WriteAt) : list Z :=
  match w with Wr_turn buf n | Wr_flow buf n _ | Wr_settle buf n _ => take n buf | _ => [] end.
Definition sent_by (x : list Z * nat * transfer_result) : list Z := take x.1.2 x.1.1.

(** A result tells exactly how much was sent. *)
Definition result_exact (buf : list Z) (n : nat) (r : transfer_result) : Prop :=
  (n <= length buf)%nat ∧
  match r with
  | Ok (WO_Completed m) => m = n ∧ n = length buf
  | Ok (WO_Closed m) => m = n
  | Err e => e = Io_RelayEnded
  end.

Definition write_exact (w : WriteAt) : Prop :=
  match w with
  | Wr_turn buf n => (n <= length buf)%nat
  | Wr_flow buf n r | Wr_settle buf n r => result_exact buf n r
  | _ => True
  end.

Definition reading (r : ReadAt) : Z := match r with Rd_idle => 0 | _ => 1 end.
Definition writing (w : WriteAt) : Z := match w with Wr_idle => 0 | _ => 1 end.

Record conn_inv (s : Conn) : Prop := {
  ci_pending : cl_pending (cn_closure s) = reading (cn_read_at s) + writing (cn_write_at s);
  ci_read : mjoin (cn_reads s) ++ in_hand (cn_read_at s) ++ drop (cr_pos (cn_reader s)) (cr_buf (cn_reader s)) ++ mjoin (cr_queue (cn_reader s)) = cn_arrived s;
  ci_recv len : cn_read_at s = Rd_recv len → (length (cr_buf (cn_reader s)) <= cr_pos (cn_reader s))%nat;
  ci_write : mjoin (ch_sent (cn_channel s)) = mjoin (map sent_by (cn_writes s)) ++ sent_of (cn_write_at s);
  ci_at : write_exact (cn_write_at s);
  ci_writes x : x ∈ cn_writes s → result_exact x.1.1 x.1.2 x.2;
  ci_closed : cn_close_returned s = true → cl_closed (cn_closure s) = true ∧ cl_pending (cn_closure s) = 0 }.

Lemma take_more (buf : list Z) (n e : nat) : (n <= e)%nat → take n buf ++ take (e - n) (drop n buf) = take e buf.
Proof. intros Hn. rewrite take_drop_commute. replace (n + (e - n))%nat with e by lia. rewrite <- (take_drop n (take e buf)) at 2. f_equal. by rewrite take_take, Nat.min_l by lia. Qed.

Lemma conn_inv_start now : conn_inv (conn_start now).
Proof. split; cbn; try done. by intros ? ?%not_elem_of_nil. Qed.

Lemma read_turn_octets c len r octets r' :
  read_turn c len r = RT_return octets r' → octets ++ drop (cr_pos r') (cr_buf r') = drop (cr_pos r) (cr_buf r) ∧ cr_queue r' = cr_queue r.
Proof.
  unfold read_turn. destruct (cl_closed c); [by intros [= <- <-]|]. destruct (_ <? _)%nat; [|done]. intros [= <- <-]. cbn. split; [|done].
  by rewrite <- drop_drop, take_drop.
Qed.

Lemma write_turn_octets c w buf n ch :
  (n <= length buf)%nat →
  match write_turn c w buf n ch with
  | WT_wait => True
  | WT_more n' ch' => (n' <= length buf)%nat ∧ ∃ b, ch_sent ch' = ch_sent ch ++ [b] ∧ take n buf ++ b = take n' buf
  | WT_return r n' ch' => result_exact buf n' r ∧ ∃ l, ch_sent ch' = ch_sent ch ++ l ∧ take n buf ++ mjoin l = take n' buf
  end.
Proof.
  intros Hn. unfold write_turn, result_exact. destruct (cl_closed c); [split; [done|]; exists []; by rewrite !app_nil_r|].
  destruct (_ || _); [done|]. destruct (ch_relay ch); [|split; [done|]; exists []; by rewrite !app_nil_r].
  destruct (_ =? _)%nat eqn:E; cbn [ch_sent].
  - apply Nat.eqb_eq in E. split; [lia|]. eexists. split; [done|]. cbn. rewrite app_nil_r. apply take_more. lia.
  - split; [lia|]. eexists. split; [done|]. apply take_more. lia.
Qed.

Lemma conn_inv_half s s' : half_step s s' → conn_inv s → conn_inv s'.
Proof.
  intros Hs [Ip Ir Iv Iw Ia Ix Ic].
  assert (∀ c, closure_begin (cn_closure s) = Some c → cl_closed (cn_closure s) = false ∧ cl_closed c = false ∧ cl_pending c = cl_pending (cn_closure s) + 1) as Hb.
  { intros c. unfold closure_begin. destruct (cl_closed (cn_closure s)); [done|]. by intros [= <-]. }
  assert (reading (cn_read_at s) + writing (cn_write_at s) ≠ 0 → cn_close_returned s = false) as Hnc.
  { intros Hne. destruct (cn_close_returned s); [|done]. destruct Ic; [done|]. lia. }
  destruct Hs as [s Ha Hc|s len c Ha Hc|s len octets r Ha Ht|s len Ha Ht|s len r Ha Ht|s len Ha Ht|s octets Ha|s buf Ha Hc|s buf c Ha Hc|s buf Ha|s buf n Ha Ht
    |s buf n n' ch Ha Ht|s buf n r n' ch Ha Ht|s buf n r Ha|s buf n r Ha]; rewrite Ha in *.
  - split; cbn; try done. by rewrite join_app; cbn; rewrite !app_nil_r.
  - destruct (Hb c Hc) as (Ho & Hc0 & Hp). split; cbn; try done.
    + rewrite Hp, Ip. destruct (_ =? _)%nat; cbn; lia.
    + by destruct (_ =? _)%nat.
    + intros len0. by destruct (_ =? _)%nat.
    + intros Hr. destruct (Ic Hr). congruence.
  - destruct (read_turn_octets _ _ _ _ _ Ht) as [Ho Hq]. split; cbn; try done. cbn in Ir. rewrite Hq, (assoc_L app octets), Ho. done.
  - split; cbn; try done. intros _ _. unfold read_turn in Ht. destruct (cl_closed _); [done|]. destruct (_ <? _)%nat eqn:E; [done|]. by apply Nat.ltb_ge in E.
  - unfold recv_turn in Ht. split; cbn; try done. cbn in Ir. specialize (Iv len eq_refl). rewrite drop_ge in Ir by done. destruct (cr_queue (cn_reader s)) as [|b q] eqn:Eq.
    + destruct (cr_sender _); [|done]. injection Ht as <-. by rewrite Eq, drop_ge.
    + injection Ht as <-. by cbn in Ir |- *.
  - by split.
  - split; cbn; try done.
    + cbn in Ip. lia.
    + rewrite join_app. cbn. rewrite app_nil_r, <- app_assoc. done.
    + intros Hr. rewrite Hnc in Hr; [done|]. cbn. destruct (cn_write_at s); cbn; lia.
  - split; cbn; try done.
    + rewrite map_app, join_app. cbn. by rewrite !app_nil_r in *.
    + intros x [Hx | ->%list_elem_of_singleton]%elem_of_app; [auto|]. cbn. split; [lia|done].
  - destruct (Hb c Hc) as (Ho & Hc0 & Hp). split; cbn; try done.
    + cbn in Ip. lia.
    + intros Hr. destruct (Ic Hr). congruence.
  - split; cbn; try done. cbn. lia.
  - by split; rewrite ?Ha.
  - cbn in Ia. pose proof (write_turn_octets (cn_closure s) (cn_control s) buf n (cn_channel s) Ia) as Hw. rewrite Ht in Hw. destruct Hw as (Hn' & b & Hs & Hb').
    split; cbn; try done. cbn in Iw. rewrite Hs, join_app, Iw. cbn. by rewrite app_nil_r, <- app_assoc, Hb'.
  - cbn in Ia. pose proof (write_turn_octets (cn_closure s) (cn_control s) buf n (cn_channel s) Ia) as Hw. rewrite Ht in Hw. destruct Hw as (Hn' & l & Hs & Hb').
    split; cbn; try done. cbn in Iw. by rewrite Hs, join_app, Iw, <- app_assoc, Hb'.
  - by split.
  - split; cbn; try done.
    + cbn in Ip. lia.
    + rewrite map_app, join_app. cbn. by rewrite !app_nil_r.
    + intros x [Hx | ->%list_elem_of_singleton]%elem_of_app; [auto|done].
    + intros Hr. rewrite Hnc in Hr; [done|]. cbn. destruct (cn_read_at s); cbn; lia.
Qed.

Lemma conn_inv_step s s' : conn_step s s' → conn_inv s → conn_inv s'.
Proof.
  intros [s1 s2 Hh|s1 t Ht|s1 b Hb|s1|s1|s1 p|s1 n|s1|s1 Hc Hp] Hi; [by eapply conn_inv_half|..]; destruct Hi as [Ip Ir Iv Iw Ia Ix Ic]; split; cbn; try done.
  - rewrite join_app. cbn. rewrite app_nil_r, <- Ir, <- !app_assoc. done.
  - intros Hr. by destruct (Ic Hr).
Qed.

Lemma conn_inv_runs s : conn_runs s → conn_inv s.
Proof.
  intros (now & Hr). generalize (conn_inv_start now). revert Hr. generalize (conn_start now). intros s0 Hr.
  induction Hr as [|a b c Hab _ IH]; [done|]. intros Ha. by eapply IH, conn_inv_step.
Qed.

(** In every run of a connection the reads return what the relay sent, in order, with
    nothing lost, doubled or altered; what is on the writing side is exactly what the transfers
    say they sent: the whole of a completed one, and as many octets of the others as their
    results count. *)
Theorem connection_streams_exact s :
  conn_runs s →
  (∃ rest, cn_arrived s = mjoin (cn_reads s) ++ rest) ∧
  (cn_write_at s = Wr_idle → mjoin (ch_sent (cn_channel s)) = mjoin (map sent_by (cn_writes s))) ∧
  ∀ buf n r, (buf, n, r) ∈ cn_writes s →
    (n <= length buf)%nat ∧
    match r with
    | Ok (WO_Completed m) => m = n ∧ n = length buf
    | Ok (WO_Closed m) => m = n
    | Err e => e = Io_RelayEnded
    end.
Proof.
  intros Hi%conn_inv_runs. split_and!.
  - eexists. symmetry. apply Hi.
  - intros Hw. pose proof (ci_write _ Hi) as H0. rewrite Hw in H0. cbn in H0. by rewrite app_nil_r in H0.
  - intros buf n r Hx. exact (ci_writes _ Hi _ Hx).
Qed.

(** ** The barrier holds *)

(** After a close that has returned: the halves are idle and nothing moves. *)
Record shut (s : Conn) : Prop := {
  sh_closed : cl_closed (cn_closure s) = true; sh_returned : cn_close_returned s = true; sh_read : cn_read_at s = Rd_idle; sh_write : cn_write_at s = Wr_idle }.

Lemma shut_of s : conn_inv s → cn_close_returned s = true → shut s.
Proof.
  intros Hi Hr. destruct (ci_closed _ Hi Hr) as [Hc Hp]. pose proof (ci_pending _ Hi) as H0. rewrite Hp in H0.
  split; [done|done|by destruct (cn_read_at s), (cn_write_at s)|by destruct (cn_read_at s), (cn_write_at s)].
Qed.

(** What a step adds to the logs. *)
Definition only_refusals (s s' : Conn) : Prop :=
  cn_channel s' = cn_channel s ∧
  ∃ reads writes, cn_reads s' = cn_reads s ++ reads ∧ cn_writes s' = cn_writes s ++ writes ∧
    Forall (λ octets, octets = []) reads ∧ Forall (λ x, x.1.2 = 0%nat ∧ x.2 = Ok (WO_Closed 0)) writes.

Lemma only_refusals_same s s' : cn_channel s' = cn_channel s → cn_reads s' = cn_reads s → cn_writes s' = cn_writes s → only_refusals s s'.
Proof. intros Hc Hr Hw. split; [done|]. exists [], []. by rewrite !app_nil_r. Qed.

Lemma shut_half s s' : half_step s s' → shut s → shut s' ∧ only_refusals s s'.
Proof.
  intros Hs [Hc Hr Hrd Hwr]. assert (closure_begin (cn_closure s) = None) as Hn by (unfold closure_begin; by rewrite Hc).
  destruct Hs; try congruence.
  - split; [by split|]. split; [done|]. exists [[]], []. cbn. rewrite app_nil_r. by repeat constructor.
  - split; [by split|]. split; [done|]. exists [], [(buf, 0%nat, Ok (WO_Closed 0))]. cbn. rewrite app_nil_r. by repeat constructor.
Qed.

Lemma shut_step s s' : conn_step s s' → shut s → shut s' ∧ (only_refusals s s' ∨ ∃ b, cn_channel s' = mkChannel (ch_sent (cn_channel s)) b ∧ cn_reads s' = cn_reads s ∧ cn_writes s' = cn_writes s).
Proof.
  intros [s1 s2 Hh|s1 t Ht|s1 b Hb|s1|s1|s1 p|s1 n|s1|s1 Hc Hp] Hsh.
  1: { destruct (shut_half _ _ Hh Hsh). auto. }
  4: { destruct Hsh. split; [by split|]. right. by exists false. }
  all: destruct Hsh; (split; [by split|]; left; by apply only_refusals_same).
Qed.

(** [C9] Once a close has returned, for the rest of any run: no octet is put on the channel,
    every read that returns gives nothing and every transfer that returns was closed with
    nothing sent. *)
Theorem close_is_a_barrier s s' :
  conn_runs s → cn_close_returned s = true → rtc conn_step s s' →
  ch_sent (cn_channel s') = ch_sent (cn_channel s) ∧
  ∃ reads writes, cn_reads s' = cn_reads s ++ reads ∧ cn_writes s' = cn_writes s ++ writes ∧
    Forall (λ octets, octets = []) reads ∧ Forall (λ x, x.1.2 = 0%nat ∧ x.2 = Ok (WO_Closed 0)) writes.
Proof.
  intros Hi%conn_inv_runs Hret Hr. pose proof (shut_of s Hi Hret) as Hs. clear Hi Hret. induction Hr as [s|a b c Hab _ IH].
  { split; [done|]. exists [], []. by rewrite !app_nil_r. }
  destruct (shut_step _ _ Hab Hs) as [Hb Hd]. destruct (IH Hb) as (Hc & r2 & w2 & Hr2 & Hw2 & Fr2 & Fw2).
  destruct Hd as [(Hch & r1 & w1 & Hr1 & Hw1 & Fr1 & Fw1)|(x & Hch & Hr1 & Hw1)].
  - split; [by rewrite Hc, Hch|]. exists (r1 ++ r2), (w1 ++ w2). rewrite Hr2, Hw2, Hr1, Hw1, !app_assoc, !Forall_app. done.
  - split; [by rewrite Hc, Hch|]. exists r2, w2. by rewrite Hr2, Hw2, Hr1, Hw1.
Qed.

(** ** A close returns *)

(** How many turns of their own the calls in progress still take, once closure has begun. *)
Definition read_left (r : ReadAt) : nat := match r with Rd_idle => 0 | Rd_settle _ => 1 | Rd_turn _ => 2 | Rd_recv _ => 3 end.
Definition write_left (w : WriteAt) : nat := match w with Wr_idle => 0 | Wr_settle _ _ _ => 1 | Wr_flow _ _ _ => 2 | Wr_turn _ _ => 3 | Wr_begun _ => 4 end.
Definition turns_left (s : Conn) : nat := read_left (cn_read_at s) + write_left (cn_write_at s).

Lemma closed_half_step s s' :
  cl_closed (cn_closure s) = true → half_step s s' →
  (turns_left s' < turns_left s)%nat ∨ s' = did_read [] s ∨ ∃ buf, s' = did_write buf 0 (Ok (WO_Closed 0)) s.
Proof.
  intros Hc Hs. assert (closure_begin (cn_closure s) = None) as Hn by (unfold closure_begin; by rewrite Hc).
  destruct Hs as [s Ha Hb|s len c Ha Hb|s len octets r Ha Ht|s len Ha Ht|s len r Ha Ht|s len Ha Ht|s octets Ha|s buf Ha Hb|s buf c Ha Hb|s buf Ha|s buf n Ha Ht
    |s buf n n' ch Ha Ht|s buf n r n' ch Ha Ht|s buf n r Ha|s buf n r Ha]; try congruence; try (left; unfold turns_left; cbn; rewrite ?Ha; cbn; lia).
  - by right; left.
  - unfold read_turn in Ht. by rewrite Hc in Ht.
  - right; right. by exists buf.
  - unfold write_turn in Ht. by rewrite Hc in Ht.
  - unfold write_turn in Ht. by rewrite Hc in Ht.
Qed.

Lemma closed_step s s' :
  cl_closed (cn_closure s) = true → conn_step s s' → cl_closed (cn_closure s') = true ∧ (turns_left s' <= turns_left s)%nat.
Proof.
  intros Hc Hs. destruct Hs as [s s' Hh|s t Ht|s b Hb|s|s|s p|s n|s|s Hc' Hp]; try (by split).
  split; [destruct Hh; cbn; try done; unfold closure_begin in *; by rewrite Hc in *|].
  destruct (closed_half_step s s' Hc Hh) as [?|[->|[buf ->]]]; [lia| |]; unfold turns_left; cbn; lia.
Qed.

Lemma closed_can_turn s : cl_closed (cn_closure s) = true → turns_left s ≠ 0%nat → ∃ s', half_step s s' ∧ (turns_left s' < turns_left s)%nat.
Proof.
  intros Hc Hn. unfold turns_left in *. destruct (cn_read_at s) as [|len|len|octets] eqn:Er.
  - destruct (cn_write_at s) as [|buf|buf n|buf n r|buf n r] eqn:Ew; [done|..]; eexists.
    + split; [by eapply Hs_write_flow|]. cbn. rewrite Er. cbn. lia.
    + split; [eapply Hs_write_returns; [done|]; unfold write_turn; by rewrite Hc|]. cbn. rewrite Er. cbn. lia.
    + split; [by eapply Hs_flow_ends|]. cbn. rewrite Er. cbn. lia.
    + split; [by eapply Hs_write_ends|]. cbn. rewrite Er. cbn. lia.
  - eexists. split; [eapply Hs_read_turn; [done|]; unfold read_turn; by rewrite Hc|]. cbn. lia.
  - destruct (recv_turn (cn_reader s)) as [r|] eqn:Et; eexists.
    + split; [by eapply Hs_recv|]. cbn. lia.
    + split; [by eapply Hs_recv_ended|]. cbn. lia.
  - eexists. split; [by eapply Hs_read_ends|]. cbn. lia.
Qed.

(** [C10] Once closure has begun, a close returns after at most seven turns of the calls in
    progress, whatever the relay does and however the writer is paused: while a call is in
    progress a turn of it can be taken, each such turn brings the end nearer, nothing else puts it
    off, and at the end the close can return. *)
Theorem close_returns s :
  conn_runs s → cl_closed (cn_closure s) = true →
  (turns_left s <= 7)%nat ∧
  (∀ s', conn_step s s' → cl_closed (cn_closure s') = true ∧ (turns_left s' <= turns_left s)%nat) ∧
  (turns_left s ≠ 0%nat → ∃ s', half_step s s' ∧ (turns_left s' < turns_left s)%nat) ∧
  (turns_left s = 0%nat → ∃ s', conn_step s s' ∧ cn_close_returned s' = true).
Proof.
  intros Hi%conn_inv_runs Hc. split_and!.
  - unfold turns_left. destruct (cn_read_at s), (cn_write_at s); cbn; lia.
  - intros s' Hs. by apply closed_step.
  - by apply closed_can_turn.
  - intros H0. eexists. split; [apply Cs_close_returns; [done|]|done]. rewrite (ci_pending _ Hi). unfold turns_left in H0.
    by destruct (cn_read_at s), (cn_write_at s).
Qed.

(** ** A run *)

(** A transfer of three octets and a read of two of three, closed while a second read waits. *)
Definition run_end : Conn :=
  mkConn 0 (mkClosure true 0 (Some 0)) (mkReader [] true [5; 6; 7] 2) Rd_idle (mkControl false (2 ^ 64 - 1) 0) (mkChannel [[1; 2; 3]] true) Wr_idle
    [5; 6; 7] [[5; 6]; []] [([1; 2; 3], 3%nat, Ok (WO_Completed 3))] true.

Lemma run_end_runs : conn_runs run_end.
Proof.
  exists 0. eapply rtc_l; [apply Cs_half, (Hs_write_begins _ [1; 2; 3] (mkClosure false 1 None)); reflexivity|].
  eapply rtc_l; [apply Cs_half, (Hs_write_flow _ [1; 2; 3]); reflexivity|].
  eapply rtc_l; [apply Cs_half, (Hs_write_returns _ [1; 2; 3] 0 (Ok (WO_Completed 3)) 3 (mkChannel [[1; 2; 3]] true)); vm_compute; reflexivity|].
  eapply rtc_l; [apply Cs_half, (Hs_flow_ends _ [1; 2; 3] 3 (Ok (WO_Completed 3))); reflexivity|].
  eapply rtc_l; [apply Cs_half, (Hs_write_ends _ [1; 2; 3] 3 (Ok (WO_Completed 3))); reflexivity|].
  eapply rtc_l; [apply (Cs_arrives _ [5; 6; 7]); reflexivity|].
  eapply rtc_l; [apply Cs_half, (Hs_read_begins _ 2 (mkClosure false 1 None)); reflexivity|].
  eapply rtc_l; [apply Cs_half, (Hs_read_waits _ 2); reflexivity|].
  eapply rtc_l; [apply Cs_half, (Hs_recv _ 2 (mkReader [] true [5; 6; 7] 0)); reflexivity|].
  eapply rtc_l; [apply Cs_half, (Hs_read_turn _ 2 [5; 6] (mkReader [] true [5; 6; 7] 2)); reflexivity|].
  eapply rtc_l; [apply Cs_half, (Hs_read_ends _ [5; 6]); reflexivity|].
  eapply rtc_l; [apply Cs_half, (Hs_read_begins _ 2 (mkClosure false 1 None)); reflexivity|]. eapply rtc_l; [apply Cs_close_begins|].
  eapply rtc_l; [apply Cs_half, (Hs_read_turn _ 2 [] (mkReader [] true [5; 6; 7] 2)); reflexivity|].
  eapply rtc_l; [apply Cs_half, (Hs_read_ends _ []); reflexivity|].
  eapply rtc_l; [apply Cs_close_returns; reflexivity|]. vm_compute. reflexivity.
Qed.

Lemma connection_streams_exact_witness :
  (∃ rest, cn_arrived run_end = mjoin (cn_reads run_end) ++ rest) ∧
  (cn_write_at run_end = Wr_idle → mjoin (ch_sent (cn_channel run_end)) = mjoin (map sent_by (cn_writes run_end))) ∧
  ∀ buf n r, (buf, n, r) ∈ cn_writes run_end →
    (n <= length buf)%nat ∧
    match r with
    | Ok (WO_Completed m) => m = n ∧ n = length buf
    | Ok (WO_Closed m) => m = n
    | Err e => e = Io_RelayEnded
    end.
Proof. exact (connection_streams_exact run_end run_end_runs). Defined.

Lemma close_is_a_barrier_witness :
  ch_sent (cn_channel (did_write [9] 0 (Ok (WO_Closed 0)) run_end)) = ch_sent (cn_channel run_end) ∧
  ∃ reads writes, cn_reads (did_write [9] 0 (Ok (WO_Closed 0)) run_end) = cn_reads run_end ++ reads ∧
    cn_writes (did_write [9] 0 (Ok (WO_Closed 0)) run_end) = cn_writes run_end ++ writes ∧
    Forall (λ octets, octets = []) reads ∧ Forall (λ x, x.1.2 = 0%nat ∧ x.2 = Ok (WO_Closed 0)) writes.
Proof. apply (close_is_a_barrier run_end); [exact run_end_runs|reflexivity|]. by apply rtc_once, Cs_half, Hs_write_refused. Defined.

Lemma close_returns_witness :
  (turns_left run_end <= 7)%nat ∧
  (∀ s', conn_step run_end s' → cl_closed (cn_closure s') = true ∧ (turns_left s' <= turns_left run_end)%nat) ∧
  (turns_left run_end ≠ 0%nat → ∃ s', half_step run_end s' ∧ (turns_left s' < turns_left run_end)%nat) ∧
  (turns_left run_end = 0%nat → ∃ s', conn_step run_end s' ∧ cn_close_returned s' = true).
Proof. exact (close_returns run_end run_end_runs eq_refl). Defined.
