(* ===== verification/LocalCalls.v ===== *)
(** * Local calls ([core/src/local_call.rs])

    The admission, cancellation and commit of calls from adapters into the core.  The calls of
    any number of threads over any number of admissions and attachments are a system: a step
    is one hold of an admission's lock, one reading of an attachment's closure or of the
    clock, and a commit keeps the lock of its admission from its first reading to its end. *)

From S2P Require Import Prelude Connections.

Inductive LocalResult (A : Type) : Type := Completed (a : A) | Closed | ShuttingDown | TimedOut.
Arguments Completed {A}.
Arguments Closed {A}.
Arguments ShuttingDown {A}.
Arguments TimedOut {A}.

Record AdmissionState := mkAdmission { ad_stopped : option Z; ad_pending : Z }.
Definition MAX_PENDING_CALLS : Z := 64.
Definition CORE_CALL_BOUND_MS : Z := 1000.
Definition STOP_CALL_BOUND_MS : Z := 100.

(** Instants are in nanoseconds. *)
Definition from_millis (ms : Z) : Z := ms * 1000000.

Definition AdmissionId : Type := Z.
Definition AttachmentId : Type := Z.

Record CallContext := mkContext {
  cc_admission : AdmissionId; cc_attachment : option AttachmentId; cc_deadline : Z; cc_committed : bool;
  cc_terminal : option (LocalResult unit); cc_final_report : bool; cc_admitted : bool }.

Definition admission_default : AdmissionState := mkAdmission None 0.
Definition admission_stop (now : Z) (a : AdmissionState) : AdmissionState :=
  mkAdmission (match ad_stopped a with Some t => Some t | None => Some now end) (ad_pending a).
Definition add_pending (n : Z) (a : AdmissionState) : AdmissionState := mkAdmission (ad_stopped a) (ad_pending a + n).

(** [CallAdmission::call]. *)
Definition admission_call (now : Z) (id : AdmissionId) (attachment : option AttachmentId) (bound_ms : Z) (a : AdmissionState) : CallContext * AdmissionState :=
  let admitted := ad_pending a <? MAX_PENDING_CALLS in
  (mkContext id attachment (now + from_millis bound_ms) false (if admitted then None else Some TimedOut) false admitted,
   if admitted then add_pending 1 a else a).

Definition final_report (c : CallContext) : CallContext :=
  mkContext (cc_admission c) (cc_attachment c) (cc_deadline c) (cc_committed c) None true (cc_admitted c).

(** [min_by_key] of the instant: the first of the least. *)
Fixpoint min_by_instant {A} (l : list (Z * A)) : option (Z * A) :=
  match l with
  | [] => None
  | x :: l => match min_by_instant l with Some y => if x.1 <=? y.1 then Some x else Some y | None => Some x end
  end.

Definition at_instant {A} (t : option Z) (r : A) : list (Z * A) := match t with Some t => [(t, r)] | None => [] end.

Definition set_terminal (t : option (LocalResult unit)) (c : CallContext) : CallContext :=
  mkContext (cc_admission c) (cc_attachment c) (cc_deadline c) (cc_committed c) t (cc_final_report c) (cc_admitted c).
Definition set_committed (c : CallContext) : CallContext :=
  mkContext (cc_admission c) (cc_attachment c) (cc_deadline c) true (cc_terminal c) (cc_final_report c) (cc_admitted c).

(** The end of [cancellation], of what it has read. *)
Definition decide_cancellation (now : Z) (stopped closed : option Z) (c : CallContext) : option (LocalResult unit) :=
  snd <$> min_by_instant (
    (if cc_final_report c then [] else at_instant closed Closed ++ at_instant stopped ShuttingDown) ++
    (if cc_deadline c <=? now then [(cc_deadline c, TimedOut)] else [])).

(** The same in [commit], under the lock, in the order there. *)
Definition decide_commit (now : Z) (stopped closed : option Z) (c : CallContext) : option (LocalResult unit) :=
  snd <$> min_by_instant (
    (if cc_final_report c then [] else at_instant stopped ShuttingDown ++ at_instant closed Closed) ++
    (if cc_deadline c <=? now then [(cc_deadline c, TimedOut)] else [])).

(** [bind_scope] over its new admission, and the least of the two deadlines. *)
Definition bind_enter (now : Z) (id : AdmissionId) (attachment : option AttachmentId) (c : CallContext) (a : AdmissionState) : CallContext * AdmissionState :=
  let admitted := ad_pending a <? MAX_PENDING_CALLS in
  (mkContext id attachment (Z.min (cc_deadline c) (now + from_millis CORE_CALL_BOUND_MS)) (cc_committed c)
     (if admitted then cc_terminal c else Some TimedOut) (cc_final_report c) admitted,
   if admitted then add_pending 1 a else a).
Definition bind_same (now : Z) (attachment : option AttachmentId) (c : CallContext) : CallContext :=
  mkContext (cc_admission c) attachment (Z.min (cc_deadline c) (now + from_millis CORE_CALL_BOUND_MS)) (cc_committed c)
    (cc_terminal c) (cc_final_report c) (cc_admitted c).

(** [ShutdownGuarantee] and its sum, in a [u64]. *)
Record ShutdownGuarantee := mkGuarantee { sg_adapter_ms : Z; sg_core_ms : Z; sg_publish_ms : option Z; sg_max_publications : Z }.
Definition checked_u64 (n : Z) : option Z := then_some (n <? 2 ^ 64) n.
Definition composed_ms (g : ShutdownGuarantee) : option Z :=
  if sg_max_publications g =? 0 then checked_u64 (sg_adapter_ms g + sg_core_ms g)
  else
    p ← sg_publish_ms g;
    n ← checked_u64 (p * sg_max_publications g);
    n ← checked_u64 (n + sg_core_ms g);
    checked_u64 (n + sg_adapter_ms g).

(** ** The calls as a system *)

(** What a [cancellation] is part of. *)
Inductive After : Type := Af_answer | Af_commit | Af_bind (id : AdmissionId) (attachment : option AttachmentId).

(** Where a call is: what it has read so far, and whether it holds its admission's lock. *)
Inductive CallAt : Type :=
| At_ready
| At_stopped (stopped : option Z) (k : After)
| At_closed (stopped closed : option Z) (k : After)
| At_commit
| At_held (stopped : option Z)
| At_held_closed (stopped closed : option Z)
| At_select
| At_bind (id : AdmissionId) (attachment : option AttachmentId)
| At_enter (id : AdmissionId) (attachment : option AttachmentId).

Definition holds_lock (at_ : CallAt) : bool := match at_ with At_held _ | At_held_closed _ _ | At_select => true | _ => false end.

(** A commit that selected: which call, its context then, and what it had read. *)
Record Selection := mkSelection { se_call : Z; se_context : CallContext; se_stopped : option Z; se_closed : option Z }.

Record Calls := mkCalls {
  ca_now : Z; ca_admissions : gmap AdmissionId AdmissionState; ca_closures : gmap AttachmentId Closure; ca_contexts : gmap Z (CallContext * CallAt);
  ca_answers : list (Z * LocalResult unit);  (** what commits returned *)
  ca_selected : list Selection }.

Definition admission_of (s : Calls) (a : AdmissionId) : AdmissionState := match ca_admissions s !! a with Some x => x | None => admission_default end.
Definition closure_of (s : Calls) (a : AttachmentId) : Closure := match ca_closures s !! a with Some c => c | None => Closure_default end.
Definition closed_at (s : Calls) (c : CallContext) : option Z := match cc_attachment c with Some a => cl_closed_at (closure_of s a) | None => None end.

(** No commit holds the lock of the admission. *)
Definition lock_free (s : Calls) (a : AdmissionId) : Prop :=
  ∀ k c at_, ca_contexts s !! k = Some (c, at_) → cc_admission c = a → holds_lock at_ = false.

Definition set_call (k : Z) (c : CallContext) (at_ : CallAt) (s : Calls) : Calls :=
  mkCalls (ca_now s) (ca_admissions s) (ca_closures s) (<[ k := (c, at_) ]> (ca_contexts s)) (ca_answers s) (ca_selected s).
Definition set_admission (a : AdmissionId) (x : AdmissionState) (s : Calls) : Calls :=
  mkCalls (ca_now s) (<[ a := x ]> (ca_admissions s)) (ca_closures s) (ca_contexts s) (ca_answers s) (ca_selected s).
Definition answered (k : Z) (r : LocalResult unit) (s : Calls) : Calls :=
  mkCalls (ca_now s) (ca_admissions s) (ca_closures s) (ca_contexts s) (ca_answers s ++ [(k, r)]) (ca_selected s).
Definition selected (x : Selection) (s : Calls) : Calls :=
  mkCalls (ca_now s) (ca_admissions s) (ca_closures s) (ca_contexts s) (ca_answers s) (ca_selected s ++ [x]).

(** After a cancellation that gave [r]. *)
Definition after_cancellation (k : Z) (c : CallContext) (r : option (LocalResult unit)) (f : After) (s : Calls) : Calls :=
  match f with
  | Af_answer => set_call k c At_ready s
  | Af_commit => match r with Some r => answered k r (set_call k c At_ready s) | None => set_call k c At_commit s end
  | Af_bind id attachment => set_call k c (At_bind id attachment) s
  end.

Definition stopped_of (s : Calls) (c : CallContext) : option Z := ad_stopped (admission_of s (cc_admission c)).

Inductive call_step : Calls → Calls → Prop :=
| Ca_tick s t : ca_now s ≤ t → call_step s (mkCalls t (ca_admissions s) (ca_closures s) (ca_contexts s) (ca_answers s) (ca_selected s))
| Ca_close s a : call_step s (mkCalls (ca_now s) (ca_admissions s) (<[ a := begin_close (ca_now s) (closure_of s a) ]> (ca_closures s)) (ca_contexts s) (ca_answers s) (ca_selected s))
| Ca_stop s a : lock_free s a → call_step s (set_admission a (admission_stop (ca_now s) (admission_of s a)) s)
| Ca_call s k a attachment bound_ms c x :
    ca_contexts s !! k = None → k ∉ map se_call (ca_selected s) → k ∉ map fst (ca_answers s) → 0 < bound_ms → lock_free s a →
    admission_call (ca_now s) a attachment bound_ms (admission_of s a) = (c, x) → call_step s (set_call k c At_ready (set_admission a x s))
| Ca_final s k c : ca_contexts s !! k = Some (c, At_ready) → cc_committed c = false → call_step s (set_call k (final_report c) At_ready s)
| Ca_committed s k c : ca_contexts s !! k = Some (c, At_ready) → cc_committed c = true → call_step s (after_cancellation k c None Af_answer s)
| Ca_terminal s k c r f : ca_contexts s !! k = Some (c, At_ready) → cc_committed c = false → cc_terminal c = Some r → call_step s (after_cancellation k c (Some r) f s)
| Ca_reads_stopped s k c f :
    ca_contexts s !! k = Some (c, At_ready) → cc_committed c = false → cc_terminal c = None → lock_free s (cc_admission c) →
    call_step s (set_call k c (At_stopped (stopped_of s c) f) s)
| Ca_reads_closed s k c st f : ca_contexts s !! k = Some (c, At_stopped st f) → call_step s (set_call k c (At_closed st (closed_at s c) f) s)
| Ca_decides s k c st cl f : ca_contexts s !! k = Some (c, At_closed st cl f) →
    call_step s (after_cancellation k (set_terminal (decide_cancellation (ca_now s) st cl c) c) (decide_cancellation (ca_now s) st cl c) f s)
| Ca_locks s k c : ca_contexts s !! k = Some (c, At_commit) → lock_free s (cc_admission c) → call_step s (set_call k c (At_held (stopped_of s c)) s)
| Ca_held_reads s k c st : ca_contexts s !! k = Some (c, At_held st) → call_step s (set_call k c (At_held_closed st (closed_at s c)) s)
| Ca_held_refuses s k c st cl r : ca_contexts s !! k = Some (c, At_held_closed st cl) → decide_commit (ca_now s) st cl c = Some r →
    call_step s (answered k r (set_call k (set_terminal (Some r) c) At_ready s))
| Ca_held_passes s k c st cl : ca_contexts s !! k = Some (c, At_held_closed st cl) → decide_commit (ca_now s) st cl c = None →
    call_step s (set_call k c At_select s)
| Ca_select_closed s k c a : ca_contexts s !! k = Some (c, At_select) → cc_final_report c = false → cc_attachment c = Some a →
    if_open (closure_of s a) tt = None → call_step s (answered k Closed (set_call k c At_ready s))
| Ca_selects s k c : ca_contexts s !! k = Some (c, At_select) →
    (cc_final_report c = true ∨ ∀ a, cc_attachment c = Some a → if_open (closure_of s a) tt = Some tt) →
    call_step s (selected (mkSelection k c (stopped_of s c) (closed_at s c)) (answered k (Completed tt) (set_call k (set_committed c) At_ready s)))
| Ca_bind_same s k c attachment : ca_contexts s !! k = Some (c, At_bind (cc_admission c) attachment) → call_step s (set_call k (bind_same (ca_now s) attachment c) At_ready s)
| Ca_bind_leaves s k c id attachment : ca_contexts s !! k = Some (c, At_bind id attachment) → cc_admission c ≠ id → cc_admitted c = true → lock_free s (cc_admission c) →
    call_step s (set_call k c (At_enter id attachment) (set_admission (cc_admission c) (add_pending (-1) (admission_of s (cc_admission c))) s))
| Ca_bind_unadmitted s k c id attachment : ca_contexts s !! k = Some (c, At_bind id attachment) → cc_admission c ≠ id → cc_admitted c = false →
    call_step s (set_call k c (At_enter id attachment) s)
| Ca_bind_enters s k c id attachment c' x : ca_contexts s !! k = Some (c, At_enter id attachment) → lock_free s id →
    bind_enter (ca_now s) id attachment c (admission_of s id) = (c', x) → call_step s (set_call k c' At_ready (set_admission id x s))
| Ca_drops s k c : ca_contexts s !! k = Some (c, At_ready) → lock_free s (cc_admission c) →
    call_step s (let s' := if cc_admitted c then set_admission (cc_admission c) (add_pending (-1) (admission_of s (cc_admission c))) s else s in
      mkCalls (ca_now s') (ca_admissions s') (ca_closures s') (delete k (ca_contexts s')) (ca_answers s') (ca_selected s')).

Definition calls_start (now : Z) : Calls := mkCalls now ∅ ∅ ∅ [] [].
Definition calls_run (s : Calls) : Prop := ∃ now, rtc call_step (calls_start now) s.

(** ** The bound of pending calls *)

(** A call counted in an admission: not while it moves to another one. *)
Definition moving (at_ : CallAt) : bool := match at_ with At_enter _ _ => true | _ => false end.
Definition counted (a : AdmissionId) (x : CallContext * CallAt) : bool := cc_admitted x.1 && (cc_admission x.1 =? a) && negb (moving x.2).

Definition count_in (a : AdmissionId) (m : gmap Z (CallContext * CallAt)) : nat := sum_list_with (λ x, if counted a x.2 then 1 else 0)%nat (map_to_list m).

Lemma count_new a m k x : m !! k = None → count_in a (<[ k := x ]> m) = ((if counted a x then 1 else 0) + count_in a m)%nat.
Proof. intros Hk. unfold count_in. by rewrite (map_to_list_insert m k x Hk). Qed.

Lemma count_without a m k x : m !! k = Some x → count_in a m = ((if counted a x then 1 else 0) + count_in a (delete k m))%nat.
Proof. intros Hk. unfold count_in. by rewrite <- (map_to_list_delete m k x Hk). Qed.

Lemma count_change a m k x y : m !! k = Some x → (count_in a (<[ k := y ]> m) + (if counted a x then 1 else 0) = count_in a m + if counted a y then 1 else 0)%nat.
Proof. intros Hk. rewrite <- (insert_delete_eq m k y), count_new by apply lookup_delete_eq. rewrite (count_without a m k x Hk). lia. Qed.

Definition pending_inv (s : Calls) : Prop :=
  ∀ a, ad_pending (admission_of s a) = Z.of_nat (count_in a (ca_contexts s)) ∧ ad_pending (admission_of s a) ≤ MAX_PENDING_CALLS.

Lemma admission_set a x s b : admission_of (set_admission a x s) b = if a =? b then x else admission_of s b.
Proof.
  unfold admission_of, set_admission. cbn. destruct (Z.eqb_spec a b) as [->|Hne]; [by rewrite lookup_insert_eq|by rewrite lookup_insert_ne].
Qed.

(** A call that only goes on to its next place. *)
Lemma pending_moves s s' k x y :
  ca_contexts s !! k = Some x → (∀ a, counted a y = counted a x) → ca_admissions s' = ca_admissions s → ca_contexts s' = <[ k := y ]> (ca_contexts s) →
  pending_inv s → pending_inv s'.
Proof.
  intros Hk Hc Ha Hm Hi a. destruct (Hi a) as [H1 H2]. unfold admission_of in *. rewrite Ha, Hm. pose proof (count_change a _ k x y Hk) as H0. rewrite Hc in H0.
  split; [lia|done].
Qed.

Lemma counted_same a c c' at_ at' :
  cc_admitted c' = cc_admitted c → cc_admission c' = cc_admission c → moving at' = moving at_ → counted a (c', at') = counted a (c, at_).
Proof. intros H1 H2 H3. unfold counted. cbn. by rewrite H1, H2, H3. Qed.

Lemma pending_after s k c at_ c' r f :
  ca_contexts s !! k = Some (c, at_) → moving at_ = false → cc_admitted c' = cc_admitted c → cc_admission c' = cc_admission c →
  pending_inv s → pending_inv (after_cancellation k c' r f s).
Proof.
  intros Hk Hat H1 H2. destruct f as [| |id att]; cbn; [|destruct r as [r|]|].
  all: eapply pending_moves; [exact Hk| |reflexivity|reflexivity]; intros a; by apply counted_same.
Qed.

(** A call counted in one admission or no longer, with the count of that admission. *)
Lemma pending_counts s s' a x m :
  (∀ b, admission_of s' b = if a =? b then x else admission_of s b) → ca_contexts s' = m →
  ad_pending x = Z.of_nat (count_in a m) → ad_pending x ≤ MAX_PENDING_CALLS → (∀ b, a ≠ b → count_in b m = count_in b (ca_contexts s)) →
  pending_inv s → pending_inv s'.
Proof.
  intros Ha Hm Hx Hb Ho Hi b. rewrite Ha, Hm. destruct (Z.eqb_spec a b) as [->|Hne]; [done|]. rewrite Ho by done. apply Hi.
Qed.

Lemma counted_other a b c at_ : cc_admission c = a → a ≠ b → counted b (c, at_) = false.
Proof. intros Hc Hne. unfold counted. cbn. rewrite Hc. apply Z.eqb_neq in Hne. rewrite Hne. by destruct (cc_admitted c). Qed.

Ltac moves_on :=
  match goal with
  | Hk : ca_contexts _ !! _ = Some _, Hi : pending_inv _ |- _ =>
      eapply pending_moves; [exact Hk| |reflexivity|reflexivity|exact Hi]; intros ?; by apply counted_same
  end.

Lemma pending_step s s' : call_step s s' → pending_inv s → pending_inv s'.
Proof.
  intros Hs Hi. destruct Hs as [s t Ht|s a|s a Hl|s k a att bound c x Hk Hk1 Hk2 Hb Hl Hc|s k c Hk Hcm|s k c Hk Hcm|s k c r f Hk Hcm Ht|s k c f Hk Hcm Ht Hl
    |s k c st f Hk|s k c st cl f Hk|s k c Hk Hl|s k c st Hk|s k c st cl r Hk Hd|s k c st cl Hk Hd|s k c a Hk Hf Ha Ho|s k c Hk Ho
    |s k c att Hk|s k c id att Hk Hne Hadm Hl|s k c id att Hk Hne Hadm|s k c id att c' x Hk Hl Hc|s k c Hk Hl];
    try exact Hi; try (by eapply pending_after); try solve [moves_on].
  - intros b. rewrite admission_set. destruct (Z.eqb_spec a b) as [->|_]; apply (Hi _).
  - unfold admission_call in Hc. destruct (Hi a) as [H1 H2].
    eapply (pending_counts s _ a x); [apply admission_set|reflexivity| | | |exact Hi]; cbn [set_call set_admission ca_contexts].
    + rewrite count_new by done. destruct (ad_pending _ <? _); injection Hc as <- <-; unfold counted; cbn; rewrite ?Z.eqb_refl; cbn; lia.
    + destruct (ad_pending _ <? _) eqn:E; injection Hc as <- <-; cbn; [|done]. apply Z.ltb_lt in E. lia.
    + intros b Hne. rewrite count_new by done. rewrite (counted_other a) by (done || by destruct (ad_pending _ <? _); injection Hc as <- <-). done.
  - destruct (Hi (cc_admission c)) as [H1 H2]. eapply (pending_counts s _ (cc_admission c)); [apply admission_set|reflexivity| | | |exact Hi]; cbn.
    + pose proof (count_change (cc_admission c) _ k _ (c, At_enter id att) Hk) as H0. unfold counted in H0. cbn in H0. rewrite Hadm, Z.eqb_refl in H0. cbn in H0. lia.
    + lia.
    + intros b Hb. pose proof (count_change b _ k _ (c, At_enter id att) Hk) as H0. rewrite !(counted_other (cc_admission c)) in H0 by done. lia.
  - eapply pending_moves; [exact Hk| |reflexivity|reflexivity|exact Hi]. intros a. unfold counted. cbn. by rewrite Hadm.
  - unfold bind_enter in Hc. destruct (Hi id) as [H1 H2]. eapply (pending_counts s _ id x); [apply admission_set|reflexivity| | | |exact Hi]; cbn.
    + pose proof (count_change id _ k _ (c', At_ready) Hk) as H0. unfold counted at 1 in H0. cbn in H0. rewrite andb_false_r in H0.
      destruct (ad_pending _ <? _); injection Hc as <- <-; unfold counted in H0; cbn in H0 |- *; rewrite ?Z.eqb_refl in H0; cbn in H0; lia.
    + destruct (ad_pending _ <? _) eqn:E; injection Hc as <- <-; cbn; [|done]. apply Z.ltb_lt in E. lia.
    + intros b Hb. pose proof (count_change b _ k _ (c', At_ready) Hk) as H0. unfold counted at 1 in H0. cbn in H0. rewrite andb_false_r in H0.
      rewrite (counted_other id) in H0 by (done || by destruct (ad_pending _ <? _); injection Hc as <- <-). lia.
  - destruct (cc_admitted c) eqn:Hadm.
    + destruct (Hi (cc_admission c)) as [H1 H2]. eapply (pending_counts s _ (cc_admission c)); [apply admission_set|reflexivity| | | |exact Hi]; cbn.
      * pose proof (count_without (cc_admission c) _ k _ Hk) as H0. unfold counted in H0. cbn in H0. rewrite Hadm, Z.eqb_refl in H0. cbn in H0. lia.
      * lia.
      * intros b Hb. pose proof (count_without b _ k _ Hk) as H0. rewrite (counted_other (cc_admission c)) in H0 by done. lia.
    + intros a. destruct (Hi a) as [H1 H2]. cbn. pose proof (count_without a _ k _ Hk) as H0. unfold counted in H0. cbn in H0. rewrite Hadm in H0. cbn in H0.
      change (admission_of _ a) with (admission_of s a). split; [lia|done].
Qed.

Lemma pending_runs s : calls_run s → pending_inv s.
Proof.
  intros (now & Hr). assert (pending_inv (calls_start now)) as H0 by by intros a.
  revert H0 Hr. generalize (calls_start now). intros s0 H0 Hr. induction Hr as [|x y z Hxy _ IH]; [done|]. by eapply IH, pending_step.
Qed.

(** ** A commit excludes a stop and a closure *)

(** What a call at its place has read is still so, and a call is committed once. *)
Definition place_ok (s : Calls) (k : Z) (c : CallContext) (at_ : CallAt) : Prop :=
  match at_ with
  | At_ready => True
  | At_held st | At_held_closed st _ => cc_committed c = false ∧ st = stopped_of s c
  | At_select => cc_committed c = false ∧ (cc_final_report c = false → stopped_of s c = None)
  | _ => cc_committed c = false
  end ∧ (cc_committed c = false → k ∉ map se_call (ca_selected s)) ∧ cc_terminal c ≠ Some (Completed tt).

Definition selection_ok (x : Selection) : Prop :=
  cc_final_report (se_context x) = false → se_stopped x = None ∧ se_closed x = None.

Record select_inv (s : Calls) : Prop := {
  si_place k c at_ : ca_contexts s !! k = Some (c, at_) → place_ok s k c at_;
  si_once : NoDup (map se_call (ca_selected s));
  si_selected x : x ∈ ca_selected s → selection_ok x;
  si_answers k : (k, Completed tt) ∈ ca_answers s ↔ k ∈ map se_call (ca_selected s) }.

Lemma min_by_instant_None {A} (l : list (Z * A)) : min_by_instant l = None → l = [].
Proof. destruct l as [|x l]; cbn; [done|]. destruct (min_by_instant l); [by destruct (_ <=? _)|done]. Qed.

Lemma decide_commit_None now st cl c : decide_commit now st cl c = None → cc_final_report c = false → st = None ∧ cl = None ∧ now < cc_deadline c.
Proof.
  unfold decide_commit. intros Hd Hf. rewrite Hf in Hd. destruct (min_by_instant _) eqn:E; [done|]. apply min_by_instant_None in E.
  apply app_eq_nil in E as [[E1 E2]%app_eq_nil E3]. destruct st, cl; try done. destruct (_ <=? _) eqn:El; [done|]. apply Z.leb_gt in El. done.
Qed.

Lemma min_by_instant_elem {A} (l : list (Z * A)) x : min_by_instant l = Some x → x ∈ l.
Proof.
  revert x. induction l as [|y l IH]; cbn; intros x; [done|]. destruct (min_by_instant l) as [z|]; [|intros [= <-]; by left].
  destruct (_ <=? _); intros [= <-]; [by left|right; by apply IH].
Qed.

(** No cancellation is a completion. *)
Lemma stops_never_complete (l : list (Z * LocalResult unit)) : Forall (λ x, x.2 ≠ Completed tt) l → snd <$> min_by_instant l ≠ Some (Completed tt).
Proof.
  intros Hl Hm. destruct (min_by_instant l) as [x|] eqn:E; [|done]. apply min_by_instant_elem in E. rewrite Forall_forall in Hl.
  apply (Hl x E). by injection Hm.
Qed.

Lemma decide_never_completes now st cl c : decide_cancellation now st cl c ≠ Some (Completed tt) ∧ decide_commit now st cl c ≠ Some (Completed tt).
Proof.
  split; apply stops_never_complete; destruct (cc_final_report c), st, cl; cbn; destruct (_ <=? _); repeat constructor; done.
Qed.

Lemma place_ok_other s s' k c at_ :
  place_ok s k c at_ → (holds_lock at_ = true → stopped_of s' c = stopped_of s c) →
  (cc_committed c = false → k ∉ map se_call (ca_selected s) → k ∉ map se_call (ca_selected s')) → place_ok s' k c at_.
Proof.
  intros [Hp [Hk Ht]] Hst Hsel. split_and!; [|auto|done]. destruct at_; cbn in *; try done; destruct Hp as [Hc Hp]; rewrite (Hst eq_refl); auto.
Qed.

(** Steps that touch one call and no stopped admission. *)
Lemma select_moves s s' k c at_ c' at' :
  select_inv s → ca_contexts s !! k = Some (c, at_) → ca_contexts s' = <[ k := (c', at') ]> (ca_contexts s) →
  (∀ x, stopped_of s' x = stopped_of s x) → ca_selected s' = ca_selected s → place_ok s' k c' at' →
  (∀ j, (j, Completed tt) ∈ ca_answers s' ↔ (j, Completed tt) ∈ ca_answers s) → select_inv s'.
Proof.
  intros [Ip Io Is Ia] Hk Hm Hst Hsel Hp Hans. split; rewrite ?Hsel; [|done|done|intros j; rewrite Hans; apply Ia].
  intros j x at0. rewrite Hm. intros [[<- [= <- <-]]|[Hne Hj]]%lookup_insert_Some; [done|].
  eapply place_ok_other; [by apply Ip|by intros _|]. by rewrite Hsel.
Qed.

Lemma answers_snoc (l : list (Z * LocalResult unit)) k r j : r ≠ Completed tt → (j, Completed tt) ∈ l ++ [(k, r)] ↔ (j, Completed tt) ∈ l.
Proof. intros Hr. rewrite elem_of_app, list_elem_of_singleton. split; [intros [?|[= _ ?]]; congruence|auto]. Qed.

Lemma select_after s k c at_ c' r f :
  select_inv s → ca_contexts s !! k = Some (c, at_) → place_ok s k c at_ → cc_committed c' = cc_committed c → cc_terminal c' ≠ Some (Completed tt) →
  (f = Af_answer ∨ cc_committed c' = false) → (r ≠ Some (Completed tt)) → select_inv (after_cancellation k c' r f s).
Proof.
  intros Hi Hk (Hp & Hsel & Ht) Hc Ht' Hf Hr.
  assert (∀ at', holds_lock at' = false → (at' = At_ready ∨ cc_committed c' = false) → place_ok s k c' at') as Hat.
  { intros at' Hh Ha. split_and!; [|by rewrite Hc|done]. destruct at'; try done; by destruct Ha. }
  destruct f as [| |id att]; cbn; [|destruct r as [r|]|]; (eapply select_moves; [exact Hi|exact Hk|reflexivity|done|done| |]).
  all: try done.
  - apply Hat; [done|by left].
  - apply Hat; [done|by left].
  - intros j. cbn. apply answers_snoc. congruence.
  - apply Hat; [done|]. right. by destruct Hf.
  - apply Hat; [done|]. right. by destruct Hf.
Qed.

Lemma stopped_kept a x s c : ad_stopped x = ad_stopped (admission_of s a) → stopped_of (set_admission a x s) c = stopped_of s c.
Proof. intros Hx. unfold stopped_of. rewrite admission_set. by destruct (Z.eqb_spec a (cc_admission c)) as [->|_]. Qed.

Lemma select_stop s a : select_inv s → lock_free s a → select_inv (set_admission a (admission_stop (ca_now s) (admission_of s a)) s).
Proof.
  intros [Ip Io Is Ia] Hl. split; try done. intros k c at_ Hk. eapply place_ok_other; [by apply Ip| |done].
  intros Hh. unfold stopped_of. rewrite admission_set. destruct (Z.eqb_spec a (cc_admission c)) as [->|_]; [|done].
  rewrite (Hl k c at_ Hk eq_refl) in Hh. done.
Qed.

Lemma select_call s k a att bound c x :
  select_inv s → ca_contexts s !! k = None → k ∉ map se_call (ca_selected s) →
  admission_call (ca_now s) a att bound (admission_of s a) = (c, x) → select_inv (set_call k c At_ready (set_admission a x s)).
Proof.
  intros [Ip Io Is Ia] Hk Hs Hc. assert (ad_stopped x = ad_stopped (admission_of s a) ∧ cc_terminal c ≠ Some (Completed tt)) as [Hx Ht].
  { unfold admission_call in Hc. destruct (_ <? _); by injection Hc as <- <-. }
  split; cbn; try done. intros j c' at_ [[<- [= <- <-]]|[Hne Hj]]%lookup_insert_Some; [done|]. eapply place_ok_other; [by apply Ip| |done].
  intros _. by apply (stopped_kept a x s).
Qed.

Lemma select_selects s k c :
  select_inv s → ca_contexts s !! k = Some (c, At_select) →
  (cc_final_report c = true ∨ ∀ a, cc_attachment c = Some a → if_open (closure_of s a) tt = Some tt) →
  select_inv (selected (mkSelection k c (stopped_of s c) (closed_at s c)) (answered k (Completed tt) (set_call k (set_committed c) At_ready s))).
Proof.
  intros [Ip Io Is Ia] Hk Ho. destruct (Ip k c _ Hk) as ([Hcm Hst] & Hn & Ht). specialize (Hn Hcm). split; cbn.
  - intros j c' at_ [[<- [= <- <-]]|[Hne Hj]]%lookup_insert_Some; [done|]. eapply place_ok_other; [by apply Ip|done|].
    intros _ Hj'. cbn. rewrite map_app. cbn. rewrite elem_of_app, list_elem_of_singleton. intros [?| ->]; done.
  - rewrite map_app. cbn. apply NoDup_app. split_and!; [done|by intros y Hy ->%list_elem_of_singleton|apply NoDup_singleton].
  - intros y [Hy | ->%list_elem_of_singleton]%elem_of_app; [by apply Is|]. intros Hf. cbn in *. split; [by apply Hst|].
    destruct Ho as [Ho|Ho]; [congruence|]. unfold closed_at. destruct (cc_attachment c) as [a|]; [|done]. specialize (Ho a eq_refl). unfold if_open in Ho. by destruct (cl_closed_at _).
  - intros j. rewrite map_app. cbn [map se_call]. rewrite !elem_of_app, !list_elem_of_singleton, Ia. split; intros [Hj|Hj]; auto; right; congruence.
Qed.

Lemma select_drop s k c x : select_inv s → (∀ y, stopped_of x y = stopped_of s y) → ca_contexts x = ca_contexts s → ca_selected x = ca_selected s → ca_answers x = ca_answers s →
  ca_contexts s !! k = Some (c, At_ready) → select_inv (mkCalls (ca_now x) (ca_admissions x) (ca_closures x) (delete k (ca_contexts x)) (ca_answers x) (ca_selected x)).
Proof.
  intros [Ip Io Is Ia] Hst Hm Hsel Hans Hk. split; cbn; rewrite ?Hsel, ?Hans; [|done|done|done]. rewrite Hm. intros j c' at_ [Hne Hj]%lookup_delete_Some.
  eapply place_ok_other; [by apply Ip|intros _; apply Hst|done].
Qed.

Lemma select_step s s' : call_step s s' → select_inv s → select_inv s'.
Proof.
  intros Hs Hi. destruct Hs as [s t Ht|s a|s a Hl|s k a att bound c x Hk Hk1 Hk2 Hb Hl Hc|s k c Hk Hcm|s k c Hk Hcm|s k c r f Hk Hcm Ht|s k c f Hk Hcm Ht Hl
    |s k c st f Hk|s k c st cl f Hk|s k c Hk Hl|s k c st Hk|s k c st cl r Hk Hd|s k c st cl Hk Hd|s k c a Hk Hf Ha Ho|s k c Hk Ho
    |s k c att Hk|s k c id att Hk Hne Hadm Hl|s k c id att Hk Hne Hadm|s k c id att c' x Hk Hl Hc|s k c Hk Hl];
    try (pose proof (si_place s Hi k c _ Hk) as Hp; cbn in Hp).
  - destruct Hi as [Ip Io Is Ia]. by split.
  - destruct Hi as [Ip Io Is Ia]. by split.
  - by apply select_stop.
  - by eapply select_call.
  - eapply select_moves; [exact Hi|exact Hk|reflexivity|done|done| |done]. by destruct Hp as (_ & ? & _).
  - eapply select_after; [exact Hi|exact Hk|exact Hp|done|apply Hp|by left|done].
  - eapply select_after; [exact Hi|exact Hk|exact Hp|done|apply Hp|by right|]. rewrite <- Ht. apply Hp.
  - eapply select_moves; [exact Hi|exact Hk|reflexivity|done|done| |done]. by destruct Hp as (_ & ? & ?).
  - eapply select_moves; [exact Hi|exact Hk|reflexivity|done|done| |done]. by destruct Hp as (? & ? & ?).
  - eapply select_after; [exact Hi|exact Hk|exact Hp|done|apply decide_never_completes|right; apply Hp|apply decide_never_completes].
  - eapply select_moves; [exact Hi|exact Hk|reflexivity|done|done| |done]. by destruct Hp as (? & ? & ?).
  - eapply select_moves; [exact Hi|exact Hk|reflexivity|done|done| |done]. by destruct Hp as ([? ?] & ? & ?).
  - pose proof (proj2 (decide_never_completes (ca_now s) st cl c)) as Hn. rewrite Hd in Hn. eapply select_moves; [exact Hi|exact Hk|reflexivity|done|done| |].
    + by destruct Hp as ([? ?] & ? & ?).
    + intros j. cbn. apply answers_snoc. congruence.
  - eapply select_moves; [exact Hi|exact Hk|reflexivity|done|done| |done]. destruct Hp as ([Hc Hst] & ? & ?). split_and!; try done.
    intros Hf. destruct (decide_commit_None _ _ _ _ Hd Hf) as (-> & _ & _). done.
  - eapply select_moves; [exact Hi|exact Hk|reflexivity|done|done| |]; [by destruct Hp as ([? ?] & ? & ?)|]. intros j. cbn. by apply answers_snoc.
  - by apply select_selects.
  - eapply select_moves; [exact Hi|exact Hk|reflexivity|done|done| |done]. by destruct Hp as (? & ? & ?).
  - eapply select_moves; [exact Hi|exact Hk|reflexivity| |done| |done]; [intros y; by apply (stopped_kept _ (add_pending (-1) _) s)|by destruct Hp as (? & ? & ?)].
  - eapply select_moves; [exact Hi|exact Hk|reflexivity|done|done| |done]. by destruct Hp as (? & ? & ?).
  - assert (ad_stopped x = ad_stopped (admission_of s id) ∧ cc_committed c' = cc_committed c ∧ cc_terminal c' ≠ Some (Completed tt)) as (Hx & Hcm & Htm).
    { unfold bind_enter in Hc. destruct (_ <? _); injection Hc as <- <-; split_and!; try done. apply Hp. }
    eapply select_moves; [exact Hi|exact Hk|reflexivity| |done| |done]; [intros y; by apply (stopped_kept id x s)|]. destruct Hp as (? & Hn & ?).
    split_and!; [done|by rewrite Hcm|done].
  - cbv zeta. destruct (cc_admitted c); (eapply select_drop; [exact Hi| | | | |exact Hk]); try done. intros y. by apply stopped_kept.
Qed.

Lemma select_runs s : calls_run s → select_inv s.
Proof.
  intros (now & Hr). assert (select_inv (calls_start now)) as H0.
  { split; cbn; [done|constructor|by intros ? ?%not_elem_of_nil|]. intros k. by rewrite !elem_of_nil. }
  revert H0 Hr. generalize (calls_start now). intros s0 H0 Hr. induction Hr as [|x y z Hxy _ IH]; [done|]. by eapply IH, select_step.
Qed.

(** In every run each admission's count is the number of the calls it admitted that have
    not ended or moved to another one, and never above the bound. *)
Theorem pending_calls_bounded s a :
  calls_run s → ad_pending (admission_of s a) = Z.of_nat (count_in a (ca_contexts s)) ∧ 0 ≤ ad_pending (admission_of s a) ≤ MAX_PENDING_CALLS.
Proof. intros Hi%pending_runs. destruct (Hi a) as [H1 H2]. split; [done|lia]. Qed.

(** A call commits at most once, and a commit answers that it completed exactly when the
    selection ran. *)
Theorem commit_once s :
  calls_run s → NoDup (map se_call (ca_selected s)) ∧ ∀ k, (k, Completed tt) ∈ ca_answers s ↔ k ∈ map se_call (ca_selected s).
Proof. intros Hi%select_runs. split; [apply Hi|apply Hi]. Qed.

(** *** A stop and a closure are for good *)

Definition stopped (a : AdmissionId) (s : Calls) : Prop := is_Some (ad_stopped (admission_of s a)).
Definition closed (b : AttachmentId) (s : Calls) : Prop := is_Some (cl_closed_at (closure_of s b)).

Lemma stopped_set a x s b : (is_Some (ad_stopped (admission_of s a)) → is_Some (ad_stopped x)) → stopped b s → stopped b (set_admission a x s).
Proof. intros Hx. unfold stopped. rewrite admission_set. by destruct (Z.eqb_spec a b) as [->|_]. Qed.

Lemma stopped_step s s' a : call_step s s' → stopped a s → stopped a s'.
Proof.
  intros Hs Hst. destruct Hs as [| | | | | |s k c r f Hk Hcm Ht| | |s k c st cl f Hk| | | | | | | | | | |s k c Hk Hl]; try exact Hst.
  - apply stopped_set; [|done]. intros [t Ht]. cbn. by rewrite Ht.
  - apply (stopped_set a0 x s); [|done]. match goal with H : admission_call _ _ _ _ _ = _ |- _ => unfold admission_call in H; destruct (_ <? _); by injection H as <- <- end.
  - destruct f; exact Hst.
  - destruct f; cbn; [exact Hst|destruct (decide_cancellation _ _ _ _); exact Hst|exact Hst].
  - apply (stopped_set (cc_admission c) (add_pending (-1) (admission_of s (cc_admission c))) s); done.
  - apply (stopped_set id x s); [|done]. match goal with H : bind_enter _ _ _ _ _ = _ |- _ => unfold bind_enter in H; destruct (_ <? _); by injection H as <- <- end.
  - cbv zeta. destruct (cc_admitted c); [|exact Hst]. by apply (stopped_set (cc_admission c) (add_pending (-1) (admission_of s (cc_admission c))) s).
Qed.

Lemma closed_step_of s s' b : call_step s s' → closed b s → closed b s'.
Proof.
  intros Hs Hc. destruct Hs as [|s a| | | | |s k c r f Hk Hcm Ht| | |s k c st cl f Hk| | | | | | | | | | |s k c Hk Hl]; try exact Hc.
  - unfold closed, closure_of in *. cbn. destruct (decide (a = b)) as [->|Hne]; [|by rewrite lookup_insert_ne].
    rewrite lookup_insert_eq. unfold begin_close. cbn. destruct Hc as [t Ht]. by rewrite Ht.
  - destruct f; exact Hc.
  - destruct f; cbn; [exact Hc|destruct (decide_cancellation _ _ _ _); exact Hc|exact Hc].
  - cbv zeta. destruct (cc_admitted c); exact Hc.
Qed.

(** What a step selects, it selects of a call that was neither stopped nor closed, unless it is a final report. *)
Lemma step_selects s s' :
  select_inv s → call_step s s' →
  ∃ l, ca_selected s' = ca_selected s ++ l ∧
    ∀ x, x ∈ l → cc_final_report (se_context x) = false →
      ¬ stopped (cc_admission (se_context x)) s ∧ ∀ b, cc_attachment (se_context x) = Some b → ¬ closed b s.
Proof.
  intros Hi Hs. assert (ca_selected s' = ca_selected s ∨ ∃ k c, s' = selected (mkSelection k c (stopped_of s c) (closed_at s c)) (answered k (Completed tt) (set_call k (set_committed c) At_ready s))) as [E|(k & c & ->)].
  { destruct Hs as [| | | | | |s k c r f Hk Hcm Ht| | |s k c st cl f Hk| | | | | |s k c Hk Ho| | | | |s k c Hk Hl]; try (by left).
    - left. by destruct f. - left. destruct f; try done. cbn. by destruct (decide_cancellation _ _ _ _).
    - right. by exists k, c. - left. cbv zeta. by destruct (cc_admitted c). }
  - exists []. rewrite app_nil_r. split; [done|]. by intros ? ?%not_elem_of_nil.
  - exists [mkSelection k c (stopped_of s c) (closed_at s c)]. split; [done|]. intros x ->%list_elem_of_singleton Hf.
    pose proof (select_step _ _ Hs Hi) as Hi'. destruct (si_selected _ Hi' (mkSelection k c (stopped_of s c) (closed_at s c)) ltac:(apply elem_of_app; right; by left) Hf) as [H1 H2].
    cbn in *. unfold stopped, closed, stopped_of, closed_at in *. split; [rewrite H1; by intros [? ?]|]. intros b Hb. rewrite Hb in H2. rewrite H2. by intros [? ?].
Qed.

(** [C11] After an admission was stopped, or an attachment began to close, no ordinary call over
    it commits for the rest of any run, however its readings and its commit are interleaved with
    the stop and the closure. *)
Theorem no_commit_after_stop s s' a b :
  calls_run s → rtc call_step s s' →
  ∃ l, ca_selected s' = ca_selected s ++ l ∧
    ∀ x, x ∈ l → cc_final_report (se_context x) = false →
      (stopped a s → cc_admission (se_context x) ≠ a) ∧ (closed b s → cc_attachment (se_context x) ≠ Some b).
Proof.
  intros Hi%select_runs Hr. induction Hr as [s|x y z Hxy _ IH].
  - exists []. rewrite app_nil_r. split; [done|]. by intros ? ?%not_elem_of_nil.
  - destruct (step_selects _ _ Hi Hxy) as (l1 & E1 & H1). destruct (IH (select_step _ _ Hxy Hi)) as (l2 & E2 & H2).
    exists (l1 ++ l2). rewrite E2, E1, app_assoc. split; [done|]. intros w [Hw|Hw]%elem_of_app Hf.
    + destruct (H1 w Hw Hf) as [Ha Hb]. split; [by intros Hst <-|]. intros Hc Hat. by apply (Hb b Hat).
    + destruct (H2 w Hw Hf) as [Ha Hb]. split; intros Hst; [apply Ha; by eapply stopped_step|apply Hb; by eapply closed_step_of].
Qed.

(** The composed shutdown budget is the exact sum, and it is withheld exactly when an
    awaited publication has no bound or the sum is not a [u64]. *)
Theorem composed_ms_exact g :
  0 ≤ sg_adapter_ms g → 0 ≤ sg_core_ms g → 0 ≤ sg_max_publications g → (∀ p, sg_publish_ms g = Some p → 0 ≤ p) →
  composed_ms g =
    match (if sg_max_publications g =? 0 then Some 0 else sg_publish_ms g) with
    | Some p => then_some (sg_adapter_ms g + sg_core_ms g + p * sg_max_publications g <? 2 ^ 64) (sg_adapter_ms g + sg_core_ms g + p * sg_max_publications g)
    | None => None
    end.
Proof.
  intros Ha Hc Hm Hp. unfold composed_ms, checked_u64, then_some. destruct (sg_max_publications g =? 0) eqn:E.
  - rewrite Z.mul_0_l, Z.add_0_r. done.
  - destruct (sg_publish_ms g) as [p|]; [|done]. specialize (Hp p eq_refl). assert (0 ≤ p * sg_max_publications g) by nia. cbn [mbind option_bind].
    generalize dependent (p * sg_max_publications g). intros q Hq. repeat (match goal with |- context [if ?x <? ?y then _ else _] => destruct (Z.ltb_spec x y) end; cbn [mbind option_bind]); try lia; try done; f_equal; lia.
Qed.

(** ** A run *)

(** One call over admission 0 and attachment 5 that commits; then the admission is stopped. *)
Definition sample_context : CallContext := mkContext 0 (Some 5) (from_millis 1000) false None false true.

Lemma lock_free_single s k c at_ a : ca_contexts s = {[ k := (c, at_) ]} → holds_lock at_ = false → lock_free s a.
Proof. intros Hm Hh j c' at' Hj _. rewrite Hm in Hj. by apply lookup_singleton_Some in Hj as [_ [= <- <-]]. Qed.

Lemma set_call_single k c at_ x s : ca_contexts s = {[ k := x ]} → set_call k c at_ s = mkCalls (ca_now s) (ca_admissions s) (ca_closures s) {[ k := (c, at_) ]} (ca_answers s) (ca_selected s).
Proof. intros Hm. unfold set_call. by rewrite Hm, insert_singleton_eq. Qed.

Definition sample_calls (at_ : CallAt) : Calls := mkCalls 0 {[ 0 := mkAdmission None 1 ]} ∅ {[ 1 := (sample_context, at_) ]} [] [].
Definition sample_committed : Calls :=
  mkCalls 0 {[ 0 := mkAdmission None 1 ]} ∅ {[ 1 := (set_committed sample_context, At_ready) ]} [(1, Completed tt)] [mkSelection 1 sample_context None None].
Definition sample_stopped : Calls :=
  mkCalls 0 {[ 0 := mkAdmission (Some 0) 1 ]} ∅ {[ 1 := (set_committed sample_context, At_ready) ]} [(1, Completed tt)] [mkSelection 1 sample_context None None].

Lemma sample_steps : rtc call_step (sample_calls At_ready) sample_committed.
Proof.
  assert (∀ at_, ca_contexts (sample_calls at_) !! 1 = Some (sample_context, at_)) as Hk by (intros; apply lookup_singleton_eq).
  assert (∀ at_ at', set_call 1 sample_context at' (sample_calls at_) = sample_calls at') as Hm by (intros; by erewrite set_call_single).
  eapply rtc_l; [apply (Ca_reads_stopped _ 1 sample_context Af_commit); [apply Hk|done|done|by eapply lock_free_single]|]. rewrite Hm.
  eapply rtc_l; [eapply (Ca_reads_closed _ 1 sample_context _ Af_commit); apply Hk|]. rewrite Hm.
  eapply rtc_l; [eapply (Ca_decides _ 1 sample_context _ _ Af_commit); apply Hk|].
  match goal with |- rtc _ ?s _ => assert (s = sample_calls At_commit) as -> by (etrans; [|apply (Hm (At_closed None None Af_commit))]; reflexivity) end.
  eapply rtc_l; [apply (Ca_locks _ 1 sample_context); [apply Hk|by eapply lock_free_single]|]. rewrite Hm.
  eapply rtc_l; [eapply (Ca_held_reads _ 1 sample_context); apply Hk|]. rewrite Hm.
  eapply rtc_l; [eapply (Ca_held_passes _ 1 sample_context); [apply Hk|reflexivity]|]. rewrite Hm.
  eapply rtc_l; [apply (Ca_selects _ 1 sample_context); [apply Hk|right; by intros a [= <-]]|]. erewrite set_call_single by done. reflexivity.
Qed.

Lemma sample_begins : calls_run (sample_calls At_ready).
Proof.
  exists 0. eapply rtc_once. assert (sample_calls At_ready = set_call 1 sample_context At_ready (set_admission 0 (mkAdmission None 1) (calls_start 0))) as ->.
  { unfold set_call, set_admission, sample_calls. cbn. by rewrite !insert_empty. }
  eapply (Ca_call _ 1 0 (Some 5) 1000); [done|by apply not_elem_of_nil|by apply not_elem_of_nil|lia|intros ? ? ? H0; cbn in H0; by rewrite lookup_empty in H0|reflexivity].
Qed.

Lemma sample_runs : calls_run sample_committed.
Proof. destruct sample_begins as [now H0]. exists now. etrans; [exact H0|exact sample_steps]. Qed.

Lemma sample_stops : rtc call_step sample_committed sample_stopped.
Proof.
  apply rtc_once. assert (sample_stopped = set_admission 0 (admission_stop (ca_now sample_committed) (admission_of sample_committed 0)) sample_committed) as ->.
  { unfold set_admission, sample_stopped, sample_committed. cbn. by rewrite insert_singleton_eq. }
  apply Ca_stop. by eapply lock_free_single.
Qed.

Lemma pending_calls_bounded_witness :
  ad_pending (admission_of sample_committed 0) = Z.of_nat (count_in 0 (ca_contexts sample_committed)) ∧ 0 ≤ ad_pending (admission_of sample_committed 0) ≤ MAX_PENDING_CALLS.
Proof. exact (pending_calls_bounded sample_committed 0 sample_runs). Defined.

Lemma commit_once_witness :
  NoDup (map se_call (ca_selected sample_committed)) ∧ ∀ k, (k, Completed tt) ∈ ca_answers sample_committed ↔ k ∈ map se_call (ca_selected sample_committed).
Proof. exact (commit_once sample_committed sample_runs). Defined.

Lemma no_commit_after_stop_witness :
  ∃ l, ca_selected sample_stopped = ca_selected sample_committed ++ l ∧
    ∀ x, x ∈ l → cc_final_report (se_context x) = false →
      (stopped 0 sample_committed → cc_admission (se_context x) ≠ 0) ∧ (closed 5 sample_committed → cc_attachment (se_context x) ≠ Some 5).
Proof. exact (no_commit_after_stop sample_committed sample_stopped 0 5 sample_runs sample_stops). Defined.

Lemma composed_ms_exact_witness :
  composed_ms (mkGuarantee 1000 6800 (Some 10) 128) =
    match (if 128 =? 0 then Some 0 else Some 10) with
    | Some p => then_some (1000 + 6800 + p * 128 <? 2 ^ 64) (1000 + 6800 + p * 128)
    | None => None
    end.
Proof. apply (composed_ms_exact (mkGuarantee 1000 6800 (Some 10) 128)); cbn; try lia. intros p [= <-]. lia. Defined.
