(* ===== verification/ZenohTransport.v ===== *)
(** * The peer transport ([transports/zenoh/src/addressing.rs], [gate.rs], [presence.rs], [transport.rs])

    What the peer transport does around the zenoh session: the names of keys and tokens, the
    gate in front of the core's handlers with the threads that pass and close it, the
    subscriptions and their dispatch, the liveliness samples and the signals to the reporter
    thread.  The session itself, its threads and its ring channels are the library's: samples
    arrive in any order, and a put answers as an argument says. *)

From S2P Require Import Prelude Ids Json Keys Transport Presence AtomicFile MemoryNetwork.

(** ** Addressing *)

Definition ROOT : list Z := bs "oac/1".
Definition PARTITION_TAG : list Z := bs "oac transport partition v1" ++ [0].
Definition LINK_TAG : list Z := bs "oac transport link v1" ++ [0].
Definition TOKEN_TAG : list Z := bs "oac transport liveness v1" ++ [0].
Definition TOKEN_HEX : nat := 32.

Definition hex (octets : list Z) : list Z := mjoin (map hex2 octets).

Section Addressing.
Context `{C : Crypto}.

Definition digest (tag input : list Z) : list Z := sha256 (tag ++ input).
Definition link_octets (native_peer_id : list Z) : list Z := take 16 (digest LINK_TAG native_peer_id).
Definition token_name (native_peer_id : list Z) : list Z := hex (take (TOKEN_HEX / 2) (digest TOKEN_TAG native_peer_id)).

(** [Partition], as its prefix. *)
Definition Partition_new (label : list Z) : list Z := ROOT ++ bs "/" ++ hex (take 8 (digest PARTITION_TAG label)).
End Addressing.

Definition Partition_key (prefix : list Z) : list Z := prefix ++ bs "/frames".
Definition token_key (prefix token : list Z) : list Z := prefix ++ bs "/live/" ++ token.
Definition token_pattern (prefix : list Z) : list Z := prefix ++ bs "/live/*".

Definition is_token_digit (b : Z) : bool := is_ascii_digit b || in_range 97 102 b.
Definition token_of (prefix key : list Z) : option (list Z) :=
  name ← strip_prefix prefix key;
  name ← strip_prefix (bs "/live/") name;
  then_some (bool_decide (length name = TOKEN_HEX) && forallb is_token_digit name) name.

(** ** Links: which tokens were seen alive *)

Inductive SampleKind : Type := SK_Put | SK_Delete.

Record Links := mkLinks { li_partition : list Z; li_own : list Z; li_online : gset (list Z) }.
Definition Links_new (partition own_token : list Z) : Links := mkLinks partition own_token ∅.
Definition set_online (o : gset (list Z)) (l : Links) : Links := mkLinks (li_partition l) (li_own l) o.

Definition links_transition (kind : SampleKind) (key : list Z) (l : Links) : option (PresenceState * bool) * Links :=
  match token_of (li_partition l) key with
  | None => (None, l)
  | Some name =>
      if beq name (li_own l) then (None, l)
      else
        match kind with
        | SK_Put => (Some (PS_Online, negb (bool_decide (name ∈ li_online l))), set_online (li_online l ∪ {[ name ]}) l)
        | SK_Delete =>
            if bool_decide (name ∈ li_online l) then (Some (PS_Unreachable, true), set_online (li_online l ∖ {[ name ]}) l)
            else (Some (PS_Unknown, false), l)
        end
  end.

(** What the liveliness callback of [start] does with a sample: nothing, [appeared] or [lost]. *)
Inductive Signal : Type := Sg_appeared | Sg_lost.
Definition on_sample (kind : SampleKind) (key : list Z) (l : Links) : option Signal * Links :=
  match links_transition kind key l with
  | (Some (PS_Online, true), l) => (Some Sg_appeared, l)
  | (Some (PS_Unreachable, _), l) => (Some Sg_lost, l)
  | (_, l) => (None, l)
  end.

Fixpoint on_samples (samples : list (SampleKind * list Z)) (l : Links) : list (option Signal) * Links :=
  match samples with
  | [] => ([], l)
  | (kind, key) :: samples => let '(g, l) := on_sample kind key l in let '(gs, l) := on_samples samples l in (g :: gs, l)
  end.

(** ** What is published and subscribed *)

Definition MAX_PAYLOAD_OCTETS : Z := 2 ^ 20.

(** [put]: the two readings of the clock, and what the session answers. *)
Definition peer_put (running : bool) (now1 now2 : Z) (answer : bool) (destination : Destination) (payload : Payload) (deadline : Deadline) : PublishResult :=
  if negb running then NotTaken
  else if negb (bool_decide (pl_kind payload = PK_Sealed)) || negb (payload_fits (pl_kind payload) destination) then NotTaken
  else if MAX_PAYLOAD_OCTETS <? Z.of_nat (length (pl_octets payload)) then NotTaken
  else if has_passed_at deadline now1 then NotTaken
  else if has_passed_at deadline now2 then NotTaken
  else if answer then Taken else NotTaken.

Definition peer_capabilities (multicast : bool) : TransportCapabilities :=
  mkTransportCaps false false false false multicast false CrossImplementation false MAX_PAYLOAD_OCTETS true.

Definition GateId : Type := Z.
Definition Thread : Type := Z.

#[export] Instance Destination_countable : Countable Destination.
Proof.
  refine (inj_countable' (λ d, match d with Dest_Session s => inl (s : list Z) | Dest_Device k => inr (k : list Z) end)
    (λ x, match x with inl s => Dest_Session s | inr k => Dest_Device k end) _).
  by intros [].
Defined.

Record Entry := mkEntry { en_id : Z; en_handler : Z; en_gate : GateId }.
Record Subs := mkSubs { su_next : Z; su_map : gmap Destination (list Entry) }.

(** [Subs::add], with the new gate [g], and [Subs::remove]. *)
Definition subs_add (g : GateId) (destination : Destination) (handler : Z) (s : Subs) : Entry * Subs :=
  let e := mkEntry (su_next s) handler g in
  (e, mkSubs (su_next s + 1) (<[ destination := default [] (su_map s !! destination) ++ [e] ]> (su_map s))).
Definition subs_remove (destination : Destination) (id : Z) (s : Subs) : Subs :=
  match su_map s !! destination with
  | None => s
  | Some v =>
      let v := List.filter (λ e, negb (en_id e =? id)) v in
      mkSubs (su_next s) (if bool_decide (v = []) then delete destination (su_map s) else <[ destination := v ]> (su_map s))
  end.

(** [subscribe]: the entry it adds, if the transport runs and the destination is its own. *)
Definition peer_subscribe (local : option KeyId) (g : GateId) (destination : Destination) (handler : Z) (s : Subs) : result TransportError Entry * Subs :=
  match local with
  | None => (Err TE_NotStarted, s)
  | Some k =>
      if match destination with Dest_Device d => negb (beq d k) | Dest_Session _ => false end then (Err TE_NotLocalDevice, s)
      else let '(e, s) := subs_add g destination handler s in (Ok e, s)
  end.

Inductive PeerState : Type := Pe_NotStarted | Pe_Running (session_closed : bool) | Pe_ShutDown.
Definition peer_health (s : PeerState) : HealthStatus :=
  match s with
  | Pe_NotStarted => mkHealth HS_Unavailable (Some (bs "not started"))
  | Pe_ShutDown => mkHealth HS_Unavailable (Some (bs "shut down"))
  | Pe_Running true => mkHealth HS_Unavailable (Some (bs "peer session closed"))
  | Pe_Running false => mkHealth HS_Healthy (Some (bs "running"))
  end.

(** ** The gate *)

Record Gate := mkGate { ga_open : bool; ga_inside : nat }.
Definition Gate_new : Gate := mkGate true 0.

(** The last place of a value, and [swap_remove]. *)
Fixpoint rposition (g : GateId) (h : list GateId) : option nat :=
  match h with
  | [] => None
  | x :: h => match rposition g h with Some i => Some (S i) | None => if x =? g then Some 0%nat else None end
  end.
Definition swap_remove (i : nat) (h : list GateId) : list GateId :=
  match List.last (map Some h) None with
  | Some x => take (length h - 1) (<[ i := x ]> h)
  | None => h
  end.

Definition held_count (g : GateId) (h : list GateId) : nat := length (List.filter (Z.eqb g) h).

(** What a thread runs behind gates: a pass, a handler, the drop of a pass. *)
Inductive Prog : Type :=
| P_ret
| P_enter (g : GateId) (k refused : Prog)
| P_call (h : Z) (k : Prog)
| P_drop (g : GateId) (k : Prog).

(** [Subs::dispatch], of the entries found, and [Watchers::report]. *)
Fixpoint dispatch_entries (entries : list Entry) (k : Prog) : Prog :=
  match entries with
  | [] => k
  | e :: entries => let rest := dispatch_entries entries k in P_enter (en_gate e) (P_call (en_handler e) (P_drop (en_gate e) rest)) rest
  end.
Definition dispatch (gate : GateId) (destination : Destination) (s : Subs) : Prog :=
  match default [] (su_map s !! destination) with
  | [] => P_ret
  | entries => P_enter gate (dispatch_entries entries (P_drop gate P_ret)) P_ret
  end.
Fixpoint call_all (handlers : list Z) (k : Prog) : Prog := match handlers with [] => k | h :: hs => P_call h (call_all hs k) end.
Definition report (gate : GateId) (handlers : list Z) : Prog :=
  match handlers with [] => P_ret | _ => P_enter gate (call_all handlers (P_drop gate P_ret)) P_ret end.

(** ** Threads at the gates *)

(** A thread: the passes it holds ([HELD]), what it runs, and the close it waits in, with the passes it does not wait for. *)
Record ThreadState := mkThread { th_held : list GateId; th_prog : Prog; th_closing : option (GateId * nat) }.

Record GateSys := mkGateSys {
  gs_gates : gmap GateId Gate; gs_threads : gmap Thread ThreadState;
  gs_calls : list (Thread * Z); gs_closed : list (Thread * GateId)  (** the closes that have returned *) }.

Definition gate_of (s : GateSys) (g : GateId) : Gate := match gs_gates s !! g with Some x => x | None => Gate_new end.
Definition set_gate (g : GateId) (x : Gate) (s : GateSys) : GateSys := mkGateSys (<[ g := x ]> (gs_gates s)) (gs_threads s) (gs_calls s) (gs_closed s).
Definition set_thread (t : Thread) (x : ThreadState) (s : GateSys) : GateSys := mkGateSys (gs_gates s) (<[ t := x ]> (gs_threads s)) (gs_calls s) (gs_closed s).
Definition called (t : Thread) (h : Z) (s : GateSys) : GateSys := mkGateSys (gs_gates s) (gs_threads s) (gs_calls s ++ [(t, h)]) (gs_closed s).
Definition close_returned (t : Thread) (g : GateId) (s : GateSys) : GateSys := mkGateSys (gs_gates s) (gs_threads s) (gs_calls s) (gs_closed s ++ [(t, g)]).

Definition gate_enter (s : GateSys) (g : GateId) : option Gate :=
  let x := gate_of s g in if ga_open x then Some (mkGate true (ga_inside x + 1)) else None.
Definition gate_leave (s : GateSys) (g : GateId) : Gate := mkGate (ga_open (gate_of s g)) (ga_inside (gate_of s g) - 1).
Definition gate_shut (s : GateSys) (g : GateId) : Gate := mkGate false (ga_inside (gate_of s g)).

(** The drop of a pass, from the thread's list. *)
Definition let_go (g : GateId) (h : list GateId) : list GateId := match rposition g h with Some i => swap_remove i h | None => h end.

Section Gates.
(** The transport's gate. *)
Context (G : GateId).

Inductive gate_step : GateSys → GateSys → Prop :=
| Gt_spawn s t : gs_threads s !! t = None → gate_step s (set_thread t (mkThread [] P_ret None) s)
| Gt_dispatch s t h destination subs : gs_threads s !! t = Some (mkThread h P_ret None) → gate_step s (set_thread t (mkThread h (dispatch G destination subs) None) s)
| Gt_report s t h handlers : gs_threads s !! t = Some (mkThread h P_ret None) → gate_step s (set_thread t (mkThread h (report G handlers) None) s)
| Gt_enter s t h g k r x : gs_threads s !! t = Some (mkThread h (P_enter g k r) None) → gate_enter s g = Some x →
    gate_step s (set_gate g x (set_thread t (mkThread (h ++ [g]) k None) s))
| Gt_refused s t h g k r : gs_threads s !! t = Some (mkThread h (P_enter g k r) None) → gate_enter s g = None →
    gate_step s (set_thread t (mkThread h r None) s)
| Gt_call s t h f k : gs_threads s !! t = Some (mkThread h (P_call f k) None) → gate_step s (called t f (set_thread t (mkThread h k None) s))
| Gt_drop s t h g k : gs_threads s !! t = Some (mkThread h (P_drop g k) None) →
    gate_step s (set_gate g (gate_leave s g) (set_thread t (mkThread (let_go g h) k None) s))
| Gt_close s t h p g : gs_threads s !! t = Some (mkThread h p None) →
    gate_step s (set_gate g (gate_shut s g) (set_thread t (mkThread h p (Some (g, held_count g h))) s))
| Gt_close_returns s t h p g mine : gs_threads s !! t = Some (mkThread h p (Some (g, mine))) → (ga_inside (gate_of s g) <= mine)%nat →
    gate_step s (close_returned t g (set_thread t (mkThread h p None) s)).

Definition gates_run (s : GateSys) : Prop := rtc gate_step (mkGateSys ∅ ∅ [] []) s.

(** A program runs with the passes [hs] in hand, drops what it took, and calls handlers only behind the gate. *)
Fixpoint owns (hs : list GateId) (p : Prog) : Prop :=
  match p with
  | P_ret => hs = []
  | P_enter g k r => owns (g :: hs) k ∧ owns hs r
  | P_call _ k => G ∈ hs ∧ owns hs k
  | P_drop g k => match hs with g' :: hs' => g' = g ∧ owns hs' k | [] => False end
  end.

Lemma owns_dispatch_entries entries hs k : G ∈ hs → owns hs k → owns hs (dispatch_entries entries k).
Proof. intros HG Hk. induction entries as [|e entries IH]; cbn; [done|]. split_and!; try done. by right. Qed.

Lemma owns_dispatch destination subs : owns [] (dispatch G destination subs).
Proof.
  unfold dispatch. destruct (default [] _) as [|e entries]; [done|]. split; [|done]. apply owns_dispatch_entries; [by left|done].
Qed.

Lemma owns_report handlers : owns [] (report G handlers).
Proof.
  unfold report. destruct handlers as [|h0 hs]; [done|]. split; [|done]. generalize (h0 :: hs). intros l. induction l as [|h l IH]; cbn; [done|]. split; [by left|done].
Qed.

(** *** The list of passes *)

Lemma rposition_lookup g h i : rposition g h = Some i → h !! i = Some g.
Proof.
  revert i. induction h as [|x h IH]; cbn; intros i; [done|]. destruct (rposition g h) as [j|]; [intros [= <-]; by apply IH|].
  destruct (Z.eqb_spec x g) as [->|_]; [by intros [= <-]|done].
Qed.

Lemma rposition_elem g h : g ∈ h → is_Some (rposition g h).
Proof.
  induction h as [|x h IH]; cbn; [by intros ?%not_elem_of_nil|]. intros [->|Hg]%elem_of_cons.
  - destruct (rposition x h); [done|by rewrite Z.eqb_refl].
  - destruct (IH Hg) as [j Hj]. by rewrite Hj.
Qed.

Lemma swap_remove_perm i g h : h !! i = Some g → g :: swap_remove i h ≡ₚ h.
Proof.
  destruct h as [|x l _] using rev_ind; [done|]. intros Hi. unfold swap_remove. rewrite map_app. cbn [map]. rewrite List.last_last, length_app.
  replace (length l + length [x] - 1)%nat with (length l) by (cbn; lia). apply lookup_app_Some in Hi as [Hi|[Hle Hi]].
  - pose proof (lookup_lt_Some _ _ _ Hi). rewrite insert_app_l by done. rewrite take_app_length' by (by rewrite length_insert).
    rewrite insert_take_drop by done. assert (l ++ [x] ≡ₚ x :: g :: take i l ++ drop (S i) l) as ->.
    { rewrite Permutation_app_comm. cbn. by rewrite <- (take_drop_middle l i g Hi) at 1; rewrite <- Permutation_middle. }
    rewrite <- Permutation_middle. apply perm_swap.
  - apply list_lookup_singleton_Some in Hi as [Hz ->]. replace i with (length l + 0)%nat by lia. rewrite insert_app_r. cbn. rewrite take_app_length.
    by rewrite Permutation_app_comm.
Qed.

Lemma let_go_perm g h : g ∈ h → g :: let_go g h ≡ₚ h.
Proof. intros Hg. unfold let_go. destruct (rposition_elem g h Hg) as [i Hi]. rewrite Hi. by apply swap_remove_perm, rposition_lookup. Qed.

#[local] Instance held_count_proper g : Proper ((≡ₚ) ==> eq) (held_count g).
Proof.
  intros h h' Hp. unfold held_count. induction Hp as [|x h h' _ IH|x y h|h1 h2 h3 _ IH1 _ IH2]; cbn; [done| | |congruence].
  - destruct (_ =? _); cbn; lia.
  - by destruct (_ =? _), (_ =? _).
Qed.

Lemma held_count_elem g h : held_count g h ≠ 0%nat ↔ g ∈ h.
Proof.
  unfold held_count. induction h as [|x h IH]; cbn; [split; [done|by intros ?%not_elem_of_nil]|]. destruct (Z.eqb_spec g x) as [->|Hne]; cbn.
  - split; [by left|lia]. - rewrite IH, elem_of_cons. naive_solver.
Qed.

(** *** The invariant *)

Definition passes (g : GateId) (m : gmap Thread ThreadState) : nat := sum_list_with (λ x, held_count g (th_held x.2)) (map_to_list m).

Lemma passes_new g m t x : m !! t = None → passes g (<[ t := x ]> m) = (held_count g (th_held x) + passes g m)%nat.
Proof. intros Ht. unfold passes. by rewrite (map_to_list_insert m t x Ht). Qed.

Lemma passes_without g m t x : m !! t = Some x → passes g m = (held_count g (th_held x) + passes g (delete t m))%nat.
Proof. intros Ht. unfold passes. by rewrite <- (map_to_list_delete m t x Ht). Qed.

Lemma passes_change g m t x y : m !! t = Some x → (passes g (<[ t := y ]> m) + held_count g (th_held x) = passes g m + held_count g (th_held y))%nat.
Proof. intros Ht. rewrite <- (insert_delete_eq m t y), passes_new by apply lookup_delete_eq. rewrite (passes_without g m t x Ht). lia. Qed.

Record gate_inv (s : GateSys) : Prop := {
  gi_inside g : ga_inside (gate_of s g) = passes g (gs_threads s);
  gi_owns t x : gs_threads s !! t = Some x → ∃ hs, owns hs (th_prog x) ∧ th_held x ≡ₚ hs;
  gi_closing t x g mine : gs_threads s !! t = Some x → th_closing x = Some (g, mine) → mine = held_count g (th_held x) ∧ ga_open (gate_of s g) = false;
  gi_closed t g : (t, g) ∈ gs_closed s → ga_open (gate_of s g) = false ∧ ∀ t' x, gs_threads s !! t' = Some x → t' ≠ t → held_count g (th_held x) = 0%nat }.

Lemma gate_set g x s g' : gate_of (set_gate g x s) g' = if g =? g' then x else gate_of s g'.
Proof. unfold gate_of, set_gate. cbn. destruct (Z.eqb_spec g g') as [->|Hne]; [by rewrite lookup_insert_eq|by rewrite lookup_insert_ne]. Qed.

(** A thread that goes on with the passes it holds. *)
Lemma gate_goes_on s s' t x y :
  gate_inv s → gs_threads s !! t = Some x → gs_threads s' = <[ t := y ]> (gs_threads s) → th_held y = th_held x →
  (∀ g, ga_inside (gate_of s' g) = ga_inside (gate_of s g) ∧ (ga_open (gate_of s g) = false → ga_open (gate_of s' g) = false)) → gs_closed s' = gs_closed s →
  (∃ hs, owns hs (th_prog y) ∧ th_held y ≡ₚ hs) →
  (∀ g mine, th_closing y = Some (g, mine) → mine = held_count g (th_held y) ∧ ga_open (gate_of s' g) = false) → gate_inv s'.
Proof.
  intros [I1 I2 I3 I4] Hx Hm Hh Hg Hcl Ho Hc. split.
  - intros g. rewrite (proj1 (Hg g)), I1, Hm. pose proof (passes_change g _ t x y Hx) as H0. rewrite Hh in H0. lia.
  - intros t' z. rewrite Hm. intros [[<- <-]|[_ Hz]]%lookup_insert_Some; [done|by eapply I2].
  - intros t' z g mine. rewrite Hm. intros [[<- <-]|[_ Hz]]%lookup_insert_Some Hcz; [by apply Hc|]. destruct (I3 t' z g mine Hz Hcz). split; [done|by apply Hg].
  - intros t' g. rewrite Hcl. intros Hin. destruct (I4 t' g Hin) as [Hop Hz]. split; [by apply Hg|]. intros t2 z. rewrite Hm.
    intros [[<- <-]|[_ Hz2]]%lookup_insert_Some Hne; [rewrite Hh|]; by eapply Hz.
Qed.

Lemma gate_inv_spawn s t : gate_inv s → gs_threads s !! t = None → gate_inv (set_thread t (mkThread [] P_ret None) s).
Proof.
  intros [I1 I2 I3 I4] Ht. split; cbn.
  - intros g. rewrite passes_new by done. apply I1.
  - intros t' z [[<- <-]|[_ Hz]]%lookup_insert_Some; [by exists []|by eapply I2].
  - intros t' z g mine [[<- <-]|[_ Hz]]%lookup_insert_Some; [done|by eapply I3].
  - intros t' g Hin. destruct (I4 t' g Hin) as [Hop Hz]. split; [done|]. intros t2 z [[<- <-]|[_ Hz2]]%lookup_insert_Some Hne; [done|by eapply Hz].
Qed.

(** A pass taken at an open gate, or dropped: one more or one less, of the thread and of the gate. *)
Lemma gate_inv_pass s t x y g z (up : bool) :
  gate_inv s → gs_threads s !! t = Some x → th_closing y = None → ga_open z = ga_open (gate_of s g) →
  (up = true → ga_open z = true) → (∃ hs, owns hs (th_prog y) ∧ th_held y ≡ₚ hs) →
  (if up then th_held y ≡ₚ g :: th_held x ∧ ga_inside z = (ga_inside (gate_of s g) + 1)%nat
   else th_held x ≡ₚ g :: th_held y ∧ ga_inside z = (ga_inside (gate_of s g) - 1)%nat) →
  gate_inv (set_gate g z (set_thread t y s)).
Proof.
  intros [I1 I2 I3 I4] Hx Hyc Hzo Hup Ho Hd.
  assert (∀ g', held_count g' (g :: th_held y) = ((if (g' =? g)%Z then 1 else 0) + held_count g' (th_held y))%nat ∧ held_count g' (g :: th_held x) = ((if (g' =? g)%Z then 1 else 0) + held_count g' (th_held x))%nat) as Hcons.
  { intros g'. unfold held_count. cbn. by destruct (g' =? g). }
  assert (∀ g', ga_open (gate_of s g') = false → ga_open (gate_of (set_gate g z (set_thread t y s)) g') = false) as Hop.
  { intros g' H0. rewrite gate_set. destruct (Z.eqb_spec g g') as [->|_]; [congruence|done]. }
  split; cbn.
  - intros g'. rewrite gate_set. pose proof (passes_change g' _ t x y Hx) as H0. destruct (Hcons g') as [C1 C2]. pose proof (I1 g') as Hi. pose proof (I1 g) as Hg.
    pose proof (passes_without g' _ t x Hx) as Hw. rewrite (Z.eqb_sym g g'). destruct up, Hd as [Hp Hz].
    + rewrite Hp in H0. destruct (Z.eqb_spec g' g) as [->|Hne]; [lia|]. change (gate_of (set_thread t y s) g') with (gate_of s g'). lia.
    + rewrite Hp in H0, Hw. destruct (Z.eqb_spec g' g) as [->|Hne]; [lia|]. change (gate_of (set_thread t y s) g') with (gate_of s g'). lia.
  - intros t' w [[<- <-]|[_ Hw]]%lookup_insert_Some; [done|by eapply I2].
  - intros t' w g' mine [[<- <-]|[_ Hw]]%lookup_insert_Some Hc; [congruence|]. destruct (I3 t' w g' mine Hw Hc). split; [done|by apply Hop].
  - intros t' g' Hin. destruct (I4 t' g' Hin) as [Hc Hz]. split; [by apply Hop|]. intros t2 w [[<- <-]|[_ Hw]]%lookup_insert_Some Hne; [|by eapply Hz].
    specialize (Hz t x Hx Hne). destruct (Hcons g') as [C1 C2], up, Hd as [Hp _].
    + rewrite Hp, C2. destruct (Z.eqb_spec g' g) as [->|_]; [|lia]. rewrite Hup in Hzo by done. congruence.
    + rewrite Hp, C1 in Hz. lia.
Qed.

Lemma gate_inv_returns s t h p g mine :
  gate_inv s → gs_threads s !! t = Some (mkThread h p (Some (g, mine))) → (ga_inside (gate_of s g) <= mine)%nat →
  gate_inv (close_returned t g (set_thread t (mkThread h p None) s)).
Proof.
  intros Hi Hx Hle. destruct (gi_closing _ Hi _ _ _ _ Hx eq_refl) as [Hm Ho]. cbn in Hm.
  assert (gate_inv (set_thread t (mkThread h p None) s)) as [I1 I2 I3 I4] by (eapply gate_goes_on; [exact Hi|exact Hx|done|done|done|done|by apply (gi_owns _ Hi _ _ Hx)|done]).
  split; [exact I1|exact I2|exact I3|]. intros t' g' [Hin|[= -> ->]%list_elem_of_singleton]%elem_of_app; [by apply I4|]. split; [exact Ho|].
  intros t2 w Hw Hne. cbn in Hw. rewrite lookup_insert_ne in Hw by done. pose proof (gi_inside _ Hi g) as Hg. rewrite (passes_without g _ t _ Hx) in Hg. cbn in Hg.
  assert (delete t (gs_threads s) !! t2 = Some w) as Hd by by rewrite lookup_delete_ne. rewrite (passes_without g _ t2 _ Hd) in Hg. lia.
Qed.

Lemma gate_inv_step s s' : gate_step s s' → gate_inv s → gate_inv s'.
Proof.
  intros Hs Hi. destruct Hs as [s t Ht|s t h dest subs Hx|s t h hs Hx|s t h g k r x Hx He|s t h g k r Hx He|s t h f k Hx|s t h g k Hx|s t h p g Hx|s t h p g mine Hx Hle].
  - by apply gate_inv_spawn.
  - destruct (gi_owns _ Hi _ _ Hx) as (l & Hl & Hp). cbn in Hl, Hp. subst l.
    eapply gate_goes_on; [exact Hi|exact Hx|done|done|done|done| |done]. exists []. split; [apply owns_dispatch|done].
  - destruct (gi_owns _ Hi _ _ Hx) as (l & Hl & Hp). cbn in Hl, Hp. subst l.
    eapply gate_goes_on; [exact Hi|exact Hx|done|done|done|done| |done]. exists []. split; [apply owns_report|done].
  - destruct (gi_owns _ Hi _ _ Hx) as (l & [Hl _] & Hp). cbn in Hp. unfold gate_enter in He. destruct (ga_open (gate_of s g)) eqn:Eo; [|done]. injection He as <-.
    eapply (gate_inv_pass s t _ _ g _ true); [exact Hi|exact Hx|done|by rewrite Eo|done| |].
    + exists (g :: l). split; [done|]. cbn. by rewrite Hp, Permutation_app_comm.
    + split; [cbn; by rewrite Permutation_app_comm|done].
  - destruct (gi_owns _ Hi _ _ Hx) as (l & [_ Hl] & Hp). eapply gate_goes_on; [exact Hi|exact Hx|done|done|done|done|by exists l|done].
  - destruct (gi_owns _ Hi _ _ Hx) as (l & [_ Hl] & Hp). eapply gate_goes_on; [exact Hi|exact Hx|done|done|done|done|by exists l|done].
  - destruct (gi_owns _ Hi _ _ Hx) as ([|g' l] & Hl & Hp); [done|]. cbn in Hl, Hp. destruct Hl as [-> Hl].
    assert (g ∈ h) as Hg by (rewrite Hp; by left). pose proof (let_go_perm g h Hg) as Hlg.
    eapply (gate_inv_pass s t _ _ g _ false); [exact Hi|exact Hx|done|done|done| |].
    + exists l. split; [done|]. cbn. apply (Permutation_cons_inv (a := g)). by rewrite Hlg.
    + split; [cbn; by rewrite Hlg|done].
  - eapply gate_goes_on; [exact Hi|exact Hx|done|done| |done|by apply (gi_owns _ Hi _ _ Hx)|].
    + intros g'. rewrite gate_set. by destruct (Z.eqb_spec g g') as [->|_].
    + intros g' mine [= <- <-]. rewrite gate_set, Z.eqb_refl. done.
  - by apply gate_inv_returns with (mine := mine).
Qed.

Lemma gate_inv_runs s : gates_run s → gate_inv s.
Proof.
  intros Hr. assert (gate_inv (mkGateSys ∅ ∅ [] [])) as H0.
  { split; cbn; [by intros g|by intros t x H0; rewrite lookup_empty in H0|by intros t x g m H0; rewrite lookup_empty in H0|by intros t g ?%not_elem_of_nil]. }
  unfold gates_run in Hr. revert H0 Hr. generalize (mkGateSys ∅ ∅ [] []). intros s0 H0 Hr. induction Hr as [|x y z Hxy _ IH]; [done|]. by eapply IH, gate_inv_step.
Qed.

(** *** After a close *)

(** The passes a thread holds at the transport's gate. *)
Definition inside (t : Thread) (s : GateSys) : nat := match gs_threads s !! t with Some x => held_count G (th_held x) | None => 0 end.

(** At a closed gate the passes of a thread only go, and who has none calls nothing. *)
Lemma closed_gate_step s s' :
  gate_inv s → gate_step s s' → ga_open (gate_of s G) = false →
  ga_open (gate_of s' G) = false ∧ (∀ t, (inside t s' <= inside t s)%nat) ∧
  ∃ l, gs_calls s' = gs_calls s ++ l ∧ ∀ c, c ∈ l → inside c.1 s ≠ 0%nat.
Proof.
  intros Hi Hs Hc. assert (∀ t x (y : ThreadState), gs_threads s !! t = Some x → (held_count G (th_held y) <= held_count G (th_held x))%nat →
    ∀ t', (match <[ t := y ]> (gs_threads s) !! t' with Some x => held_count G (th_held x) | None => 0 end <= inside t' s)%nat) as Hin.
  { intros t x y Hx Hy t'. unfold inside. destruct (decide (t = t')) as [->|Hne]; [by rewrite lookup_insert_eq, Hx|by rewrite lookup_insert_ne]. }
  assert (gs_calls s ++ [] = gs_calls s) as Hnil by apply app_nil_r.
  assert (∀ c : Thread * Z, c ∈ [] → inside c.1 s ≠ 0%nat) as Hno by by intros c ?%not_elem_of_nil.
  destruct Hs as [s t Ht|s t h dest subs Hx|s t h hs Hx|s t h g k r x Hx He|s t h g k r Hx He|s t h f k Hx|s t h g k Hx|s t h p g Hx|s t h p g mine Hx Hle].
  - split_and!; [done| |by exists []]. intros t'. unfold inside. cbn. destruct (decide (t = t')) as [->|Hne]; [rewrite lookup_insert_eq; cbn; lia|by rewrite lookup_insert_ne].
  - split_and!; [done|by eapply Hin|by exists []].
  - split_and!; [done|by eapply Hin|by exists []].
  - unfold gate_enter in He. destruct (ga_open (gate_of s g)) eqn:Eo; [|done]. injection He as <-. assert (g ≠ G) as Hne by congruence.
    split_and!; [by rewrite gate_set; destruct (Z.eqb_spec g G)| |by exists []]. eapply Hin; [exact Hx|]. cbn [th_held]. rewrite Permutation_app_comm. unfold held_count. cbn.
    destruct (Z.eqb_spec G g) as [->|_]; [done|lia].
  - split_and!; [done|by eapply Hin|by exists []].
  - split_and!; [done|by eapply Hin|]. exists [(t, f)]. split; [done|]. intros c ->%list_elem_of_singleton. cbn. unfold inside. rewrite Hx. cbn.
    destruct (gi_owns _ Hi _ _ Hx) as (l & [HG _] & Hp). cbn in Hp. apply held_count_elem. by rewrite Hp.
  - destruct (gi_owns _ Hi _ _ Hx) as ([|g' l] & Hl & Hp); [done|]. cbn in Hl, Hp. destruct Hl as [-> Hl]. assert (g ∈ h) as Hg by (rewrite Hp; by left).
    split_and!; [rewrite gate_set; destruct (Z.eqb_spec g G) as [->|_]; [exact Hc|done]| |by exists []]. eapply Hin; [exact Hx|]. cbn [th_held]. rewrite <- (let_go_perm g h Hg) at 2.
    unfold held_count. cbn. destruct (G =? g); cbn; lia.
  - split_and!; [rewrite gate_set; by destruct (Z.eqb_spec g G)|by eapply Hin|by exists []].
  - split_and!; [done|by eapply Hin|by exists []].
Qed.
End Gates.

(** [C12] After a close of the transport's gate by a thread has returned, as in [shutdown], every
    handler called in the rest of any run is called by that thread, and only if that thread
    itself held a pass then: by what it was in the middle of. *)
Theorem gate_closed_quiet G t s s' :
  gates_run G s → (t, G) ∈ gs_closed s → rtc (gate_step G) s s' →
  ∃ l, gs_calls s' = gs_calls s ++ l ∧ ∀ c, c ∈ l → c.1 = t ∧ inside G t s ≠ 0%nat.
Proof.
  intros Hi%gate_inv_runs Hin Hr. destruct (gi_closed _ _ Hi t G Hin) as [Hc Hothers].
  assert (∃ l, gs_calls s' = gs_calls s ++ l ∧ ∀ c, c ∈ l → inside G c.1 s ≠ 0%nat) as (l & El & Hl).
  { clear Hin Hothers. induction Hr as [s|a b c Hab _ IH]; [exists []; rewrite app_nil_r; split; [done|]; by intros ? ?%not_elem_of_nil|].
    destruct (closed_gate_step G _ _ Hi Hab Hc) as (Hb & Hle & l1 & E1 & H1). destruct (IH (gate_inv_step G _ _ Hab Hi) Hb) as (l2 & E2 & H2).
    exists (l1 ++ l2). rewrite E2, E1, app_assoc. split; [done|]. intros x [Hx|Hx]%elem_of_app; [by apply H1|]. specialize (Hle x.1). specialize (H2 x Hx). lia. }
  exists l. split; [done|]. intros c Hcl. specialize (Hl c Hcl). assert (c.1 = t) as <-; [|done]. destruct (decide (c.1 = t)) as [|Hne]; [done|].
  unfold inside in Hl. destruct (gs_threads s !! c.1) as [x|] eqn:Ex; [|done]. by rewrite (Hothers _ _ Ex Hne) in Hl.
Qed.

(** ** Tokens and samples *)

Definition token_wf (name : list Z) : bool := bool_decide (length name = TOKEN_HEX) && forallb is_token_digit name.

Lemma starts_with_Some p s : starts_with p s = true → s = p ++ drop (length p) s.
Proof.
  revert s. induction p as [|b p IH]; intros [|c s]; cbn; try done. intros [->%Z.eqb_eq Hs]%andb_true_iff. f_equal. by apply IH.
Qed.

Lemma strip_prefix_Some p s r : strip_prefix p s = Some r ↔ s = p ++ r.
Proof.
  split; [|intros ->; apply strip_prefix_app]. unfold strip_prefix, then_some. destruct (starts_with p s) eqn:E; [|done]. intros [= <-]. by apply starts_with_Some.
Qed.

Lemma token_of_Some prefix key name : token_of prefix key = Some name ↔ key = token_key prefix name ∧ token_wf name = true.
Proof.
  unfold token_of, token_key, token_wf, then_some. split.
  - destruct (strip_prefix prefix key) as [x|] eqn:E1; [|done]. cbn [mbind option_bind]. destruct (strip_prefix (bs "/live/") x) as [y|] eqn:E2; [|done]. cbn [mbind option_bind].
    apply strip_prefix_Some in E1, E2. destruct (_ && _) eqn:E3; [|done]. intros [= <-]. split; [by rewrite E1, E2|done].
  - intros [-> Hw]. rewrite strip_prefix_app. cbn [mbind option_bind]. rewrite strip_prefix_app. cbn [mbind option_bind]. by rewrite Hw.
Qed.

(** What the last sample on a transport's token says. *)
Fixpoint last_kind (prefix name : list Z) (samples : list (SampleKind * list Z)) : option SampleKind :=
  match samples with
  | [] => None
  | (kind, key) :: samples =>
      match last_kind prefix name samples with
      | Some k => Some k
      | None => if bool_decide (token_of prefix key = Some name) then Some kind else None
      end
  end.

Lemma on_sample_fields kind key l : li_partition (on_sample kind key l).2 = li_partition l ∧ li_own (on_sample kind key l).2 = li_own l.
Proof.
  unfold on_sample, links_transition. destruct (token_of _ _); [|done]. destruct (beq _ _); [done|]. destruct kind.
  - by destruct (negb _). - by destruct (bool_decide _).
Qed.

Lemma on_sample_online kind key l name :
  name ∈ li_online (on_sample kind key l).2 ↔
  if bool_decide (token_of (li_partition l) key = Some name) && negb (beq name (li_own l)) then kind = SK_Put else name ∈ li_online l.
Proof.
  unfold on_sample, links_transition. destruct (token_of (li_partition l) key) as [n|] eqn:Et; [|done].
  destruct (decide (n = name)) as [->|Hne].
  - rewrite (bool_decide_true (Some name = Some name)) by done. destruct (beq name (li_own l)) eqn:Eb; [done|]. cbn [negb andb]. destruct kind.
    + destruct (negb _); cbn; set_solver.
    + destruct (bool_decide (name ∈ li_online l)) eqn:Eo; cbn; [set_solver|]. apply bool_decide_eq_false in Eo. set_solver.
  - rewrite (bool_decide_false (Some n = Some name)) by congruence. cbn [andb]. destruct (beq n (li_own l)); [done|]. destruct kind.
    + destruct (negb _); cbn; set_solver.
    + destruct (bool_decide (n ∈ li_online l)); cbn; set_solver.
Qed.

Lemma on_samples_online samples l name :
  name ≠ li_own l →
  name ∈ li_online (on_samples samples l).2 ↔ match last_kind (li_partition l) name samples with Some k => k = SK_Put | None => name ∈ li_online l end.
Proof.
  revert l. induction samples as [|[kind key] samples IH]; intros l Hn; [done|]. cbn [on_samples last_kind].
  destruct (on_sample kind key l) as [g l1] eqn:E1. destruct (on_sample_fields kind key l) as [Hp Ho]. rewrite E1 in Hp, Ho. cbn in Hp, Ho.
  pose proof (on_sample_online kind key l name) as H1. rewrite E1 in H1. cbn in H1. specialize (IH l1). rewrite Hp, Ho in IH. specialize (IH Hn).
  destruct (on_samples samples l1) as [gs l2]. cbn in *. rewrite IH. destruct (last_kind (li_partition l) name samples) as [k|]; [done|]. rewrite H1.
  destruct (beq name (li_own l)) eqn:Eb; [by apply beq_true in Eb|]. rewrite andb_true_r. by destruct (bool_decide _).
Qed.

(** After any liveliness samples, in any order and with repetitions, the transports held
    online are exactly those other than this one whose last sample, under a key that is a token
    of the partition, was a declaration. *)
Theorem links_follow_samples prefix own samples name :
  name ∈ li_online (on_samples samples (Links_new prefix own)).2 ↔ name ≠ own ∧ last_kind prefix name samples = Some SK_Put.
Proof.
  destruct (decide (name = own)) as [->|Hn].
  - split; [|by intros [? _]]. intros Hin. exfalso. revert Hin. assert (own ∉ li_online (Links_new prefix own) ∧ li_own (Links_new prefix own) = own) as [H0 H1] by (split; [set_solver|done]).
    revert H0 H1. generalize (Links_new prefix own). induction samples as [|[kind key] samples IH]; intros l H0 H1; [done|]. cbn [on_samples].
    pose proof (on_sample_online kind key l own) as H2. destruct (on_sample_fields kind key l) as [_ Ho]. destruct (on_sample kind key l) as [g l1]. specialize (IH l1). cbn in *.
    destruct (on_samples samples l1) as [gs l2]. cbn in *. apply IH; [|congruence]. rewrite H2, H1, beq_refl, andb_false_r. done.
  - rewrite on_samples_online by done. cbn. destruct (last_kind prefix name samples) as [k|]; [split; [by intros ->|by intros [_ [= ->]]]|]. split; [set_solver|by intros [_ ?]].
Qed.

(** ** Signals to the reporter *)

(** Where the reporter thread ([presence_loop]) is. *)
Inductive ReporterAt : Type := Rp_wait | Rp_any | Rp_take (watched : bool) | Rp_report (lost appeared : bool).

(** The two flags, the watchers, the one slot of the wake-up, the threads that have yet to wake, and the events handed on. *)
Record Reporting := mkReporting {
  rp_lost : bool; rp_appeared : bool; rp_watchers : list Z; rp_wake : bool; rp_wakers : nat; rp_at : ReporterAt; rp_events : list Signal }.

(** [Signals::lost] and [Signals::appeared] up to their wake, [watch_presence] up to its, and the wake. *)
Definition raise_flag (g : Signal) (r : Reporting) : Reporting :=
  mkReporting (match g with Sg_lost => true | _ => rp_lost r end) (match g with Sg_appeared => true | _ => rp_appeared r end)
    (rp_watchers r) (rp_wake r) (S (rp_wakers r)) (rp_at r) (rp_events r).
Definition add_handler (h : Z) (r : Reporting) : Reporting :=
  mkReporting (rp_lost r) (rp_appeared r) (rp_watchers r ++ [h]) (rp_wake r) (S (rp_wakers r)) (rp_at r) (rp_events r).
Definition wake (r : Reporting) : Reporting :=
  mkReporting (rp_lost r) (rp_appeared r) (rp_watchers r) true (rp_wakers r - 1) (rp_at r) (rp_events r).

(** [Signals::take]. *)
Definition signals_take (watched : bool) (r : Reporting) : bool * bool * Reporting :=
  if watched then (rp_lost r, rp_appeared r, mkReporting false false (rp_watchers r) (rp_wake r) (rp_wakers r) (rp_at r) (rp_events r))
  else (false, false, r).

Definition reporter_at (a : ReporterAt) (r : Reporting) : Reporting :=
  mkReporting (rp_lost r) (rp_appeared r) (rp_watchers r) (rp_wake r) (rp_wakers r) a (rp_events r).

Inductive reporter_step : Reporting → Reporting → Prop :=
| Rs_recv r : rp_at r = Rp_wait → rp_wake r = true →
    reporter_step r (mkReporting (rp_lost r) (rp_appeared r) (rp_watchers r) false (rp_wakers r) Rp_any (rp_events r))
| Rs_any r : rp_at r = Rp_any → reporter_step r (reporter_at (Rp_take (negb (bool_decide (rp_watchers r = [])))) r)
| Rs_take r w l a r' : rp_at r = Rp_take w → signals_take w r = (l, a, r') → reporter_step r (reporter_at (Rp_report l a) r')
| Rs_report r l a : rp_at r = Rp_report l a →
    reporter_step r (mkReporting (rp_lost r) (rp_appeared r) (rp_watchers r) (rp_wake r) (rp_wakers r) Rp_wait
      (rp_events r ++ (if l then [Sg_lost] else []) ++ (if a then [Sg_appeared] else []))).

Inductive reporting_step : Reporting → Reporting → Prop :=
| Rt_raise r g : reporting_step r (raise_flag g r)
| Rt_watch r h : reporting_step r (add_handler h r)
| Rt_wake r : rp_wakers r ≠ 0%nat → reporting_step r (wake r)
| Rt_reporter r r' : reporter_step r r' → reporting_step r r'.

Definition reporting_start : Reporting := mkReporting false false [] false 0 Rp_wait [].

(** What is pending is on its way to the reporter, or waits for a watcher. *)
Definition on_its_way (r : Reporting) : Prop :=
  rp_lost r || rp_appeared r = true → rp_watchers r ≠ [] →
  rp_wake r = true ∨ rp_wakers r ≠ 0%nat ∨ rp_at r = Rp_any ∨ rp_at r = Rp_take true.

Lemma on_its_way_step r r' : reporting_step r r' → on_its_way r → on_its_way r'.
Proof.
  intros Hs Hi. destruct Hs as [r g|r h|r Hw|r r' Hs]; [by right; left|by right; left|by left|].
  destruct Hs as [r Ha Hw|r Ha|r w l a r' Ha Ht|r l a Ha]; intros Hf Hne; cbn in *.
  - by right; right; left.
  - destruct (Hi Hf Hne) as [?|[?|[?|?]]]; try congruence; auto; right; right; right; by rewrite bool_decide_false.
  - unfold signals_take in Ht. destruct w; injection Ht as <- <- <-; [done|]. destruct (Hi Hf Hne) as [?|[?|[?|?]]]; try congruence; auto.
  - destruct (Hi Hf Hne) as [?|[?|[?|?]]]; try congruence; auto.
Qed.

Lemma on_its_way_runs r : rtc reporting_step reporting_start r → on_its_way r.
Proof.
  assert (on_its_way reporting_start) as H0 by done. revert H0. generalize reporting_start. intros r0 H0 Hr.
  induction Hr as [|x y z Hxy _ IH]; [done|]. by eapply IH, on_its_way_step.
Qed.

(** The reporter comes to rest, with what was pending handed on. *)
Definition comes_to_rest (r r' : Reporting) : Prop :=
  rtc reporter_step r r' ∧ rp_at r' = Rp_wait ∧ rp_lost r' = false ∧ rp_appeared r' = false ∧
  (rp_lost r = true → Sg_lost ∈ rp_events r') ∧ (rp_appeared r = true → Sg_appeared ∈ rp_events r').

Lemma rests_from_any r : rp_watchers r ≠ [] → rp_at r = Rp_any → ∃ r', comes_to_rest r r'.
Proof.
  intros Hne Ha. eexists. split.
  { eapply rtc_l; [by apply Rs_any|]. rewrite bool_decide_false by done. eapply rtc_l; [by eapply Rs_take|]. eapply rtc_l; [by eapply Rs_report|]. reflexivity. }
  cbn. split_and!; try done; intros H0; rewrite H0; set_solver.
Qed.

Lemma rests_from_wait r : rp_watchers r ≠ [] → rp_at r = Rp_wait → (rp_lost r || rp_appeared r = true → rp_wake r = true) → ∃ r', comes_to_rest r r'.
Proof.
  intros Hne Ha Hk. destruct (rp_lost r || rp_appeared r) eqn:Ef.
  - destruct (rests_from_any (mkReporting (rp_lost r) (rp_appeared r) (rp_watchers r) false (rp_wakers r) Rp_any (rp_events r)) Hne eq_refl) as (r' & Hr & Hrest).
    exists r'. split; [eapply rtc_l; [apply Rs_recv; auto|exact Hr]|exact Hrest].
  - apply orb_false_iff in Ef as [El Ea]. exists r. unfold comes_to_rest. rewrite El, Ea. by split_and!.
Qed.

Lemma rests_from_report r l a : rp_watchers r ≠ [] → rp_at r = Rp_report l a → (rp_lost r || rp_appeared r = true → rp_wake r = true) → ∃ r', comes_to_rest r r'.
Proof.
  intros Hne Ha Hk. pose proof (Rs_report r l a Ha) as Hs. match type of Hs with reporter_step _ ?x => destruct (rests_from_wait x Hne eq_refl Hk) as (r' & Hr & Hrest) end.
  exists r'. split; [by eapply rtc_l|exact Hrest].
Qed.

(** No event waits for ever: in every interleaving of the samples, of new watchers and of
    the reporter, when every caller has ended its call and there is a watcher, the reporter by
    itself comes to hand on every event that is pending, and it never rests before. *)
Theorem pending_events_reported r :
  rtc reporting_step reporting_start r → rp_wakers r = 0%nat → rp_watchers r ≠ [] →
  (rp_at r = Rp_wait → rp_wake r = false → rp_lost r = false ∧ rp_appeared r = false) ∧
  ∃ r', rtc reporter_step r r' ∧ rp_at r' = Rp_wait ∧ rp_lost r' = false ∧ rp_appeared r' = false ∧
    (rp_lost r = true → Sg_lost ∈ rp_events r') ∧ (rp_appeared r = true → Sg_appeared ∈ rp_events r').
Proof.
  intros Hi%on_its_way_runs Hw Hne. split.
  { intros Ha Hk. destruct (rp_lost r) eqn:El, (rp_appeared r) eqn:Ea; try done.
    all: destruct Hi as [?|[?|[?|?]]]; rewrite ?El, ?Ea; try done; congruence. }
  change (∃ r', comes_to_rest r r'). destruct (rp_at r) as [| |w|l a] eqn:Ea.
  - apply rests_from_wait; [done|done|]. intros Hf. destruct (Hi Hf Hne) as [?|[?|[?|?]]]; congruence.
  - by apply rests_from_any.
  - destruct (signals_take w r) as [[l a] r1] eqn:Et. pose proof (Rs_take r w l a r1 Ea Et) as Hs. unfold signals_take in Et. destruct w; injection Et as <- <- <-.
    + eexists. split; [eapply rtc_l; [exact Hs|]; eapply rtc_l; [by eapply Rs_report|]; reflexivity|]. cbn. split_and!; try done; intros H0; rewrite H0; set_solver.
    + destruct (rests_from_report (reporter_at (Rp_report false false) r) false false Hne eq_refl) as (r' & Hr & Hrest).
      { cbn. intros Hf. destruct (Hi Hf Hne) as [?|[?|[?|?]]]; congruence. }
      exists r'. split; [by eapply rtc_l|exact Hrest].
  - apply (rests_from_report r l a); [done|done|]. intros Hf. destruct (Hi Hf Hne) as [?|[?|[?|?]]]; congruence.
Qed.

(** ** Runs *)

Inductive GateAct : Type :=
| Ga_spawn (t : Thread) | Ga_dispatch (t : Thread) (destination : Destination) (subs : Subs) | Ga_report (t : Thread) (handlers : list Z)
| Ga_go (t : Thread) | Ga_close (t : Thread) (g : GateId) | Ga_returns (t : Thread).

Definition gate_exec (G : GateId) (a : GateAct) (s : GateSys) : option GateSys :=
  match a with
  | Ga_spawn t => match gs_threads s !! t with None => Some (set_thread t (mkThread [] P_ret None) s) | Some _ => None end
  | Ga_dispatch t destination subs =>
      match gs_threads s !! t with Some (mkThread h P_ret None) => Some (set_thread t (mkThread h (dispatch G destination subs) None) s) | _ => None end
  | Ga_report t handlers => match gs_threads s !! t with Some (mkThread h P_ret None) => Some (set_thread t (mkThread h (report G handlers) None) s) | _ => None end
  | Ga_go t =>
      match gs_threads s !! t with
      | Some (mkThread h (P_enter g k r) None) =>
          match gate_enter s g with Some x => Some (set_gate g x (set_thread t (mkThread (h ++ [g]) k None) s)) | None => Some (set_thread t (mkThread h r None) s) end
      | Some (mkThread h (P_call f k) None) => Some (called t f (set_thread t (mkThread h k None) s))
      | Some (mkThread h (P_drop g k) None) => Some (set_gate g (gate_leave s g) (set_thread t (mkThread (let_go g h) k None) s))
      | _ => None
      end
  | Ga_close t g => match gs_threads s !! t with Some (mkThread h p None) => Some (set_gate g (gate_shut s g) (set_thread t (mkThread h p (Some (g, held_count g h))) s)) | _ => None end
  | Ga_returns t =>
      match gs_threads s !! t with
      | Some (mkThread h p (Some (g, mine))) => then_some (ga_inside (gate_of s g) <=? mine)%nat (close_returned t g (set_thread t (mkThread h p None) s))
      | _ => None
      end
  end.

Lemma gate_exec_step G a s s' : gate_exec G a s = Some s' → gate_step G s s'.
Proof.
  destruct a as [t|t d subs|t hs|t|t g|t]; cbn [gate_exec]; destruct (gs_threads s !! t) as [[h p c]|] eqn:Ex; try done.
  - intros [= <-]. by apply Gt_spawn.
  - destruct p, c; try done. intros [= <-]. by apply Gt_dispatch.
  - destruct p, c; try done. intros [= <-]. by apply Gt_report.
  - destruct p as [|g k r|f k|g k], c; try done.
    + destruct (gate_enter s g) eqn:Ee; intros [= <-]; [by eapply Gt_enter|by eapply Gt_refused].
    + intros [= <-]. by apply Gt_call.
    + intros [= <-]. by apply Gt_drop.
  - destruct c; [done|]. intros [= <-]. by apply Gt_close.
  - destruct c as [[g mine]|]; [|done]. unfold then_some. destruct (_ <=? _)%nat eqn:El; [|done]. intros [= <-]. by eapply Gt_close_returns; [done|apply Nat.leb_le].
Qed.

Fixpoint gate_execs (G : GateId) (l : list GateAct) (s : GateSys) : option GateSys :=
  match l with [] => Some s | a :: l => s ← gate_exec G a s; gate_execs G l s end.

Lemma gate_execs_steps G l s s' : gate_execs G l s = Some s' → rtc (gate_step G) s s'.
Proof.
  revert s. induction l as [|a l IH]; cbn; intros s; [by intros [= <-]|]. destruct (gate_exec G a s) as [s1|] eqn:E; [|done]. intros Hl. eapply rtc_l; [by apply gate_exec_step in E|auto].
Qed.

(** Two subscriptions of one destination; the first one's handler shuts the transport down. *)
Definition two_subs : Subs := (subs_add 12 (Dest_Device [1]) 21 (subs_add 11 (Dest_Device [1]) 20 (mkSubs 0 ∅)).2).2.
Definition shut_inside : list GateAct := [Ga_spawn 1; Ga_dispatch 1 (Dest_Device [1]) two_subs; Ga_go 1; Ga_go 1; Ga_go 1; Ga_close 1 10; Ga_returns 1].
Definition after_shut : list GateAct := [Ga_go 1; Ga_go 1; Ga_go 1].
Definition gates_at (l : list GateAct) : GateSys := match gate_execs 10 l (mkGateSys ∅ ∅ [] []) with Some s => s | None => mkGateSys ∅ ∅ [] [] end.

(** The close returns, and the second handler is called after it. *)
Example shutdown_inside_handler :
  gs_closed (gates_at shut_inside) = [(1, 10)] ∧ gs_calls (gates_at shut_inside) = [(1, 20)] ∧ gs_calls (gates_at (shut_inside ++ after_shut)) = [(1, 20); (1, 21)].
Proof. vm_compute. split_and!; reflexivity. Qed.

Lemma gate_closed_quiet_witness :
  ∃ l, gs_calls (gates_at (shut_inside ++ after_shut)) = gs_calls (gates_at shut_inside) ++ l ∧ ∀ c, c ∈ l → c.1 = 1 ∧ inside 10 1 (gates_at shut_inside) ≠ 0%nat.
Proof.
  apply (gate_closed_quiet 10 1).
  - apply (gate_execs_steps 10 shut_inside). vm_compute. reflexivity.
  - assert (gs_closed (gates_at shut_inside) = [(1, 10)]) as -> by (vm_compute; reflexivity). by left.
  - apply (gate_execs_steps 10 after_shut). vm_compute. reflexivity.
Defined.

Lemma pending_events_reported_witness :
  let r := mkReporting true false [7] true 0 Rp_wait [] in
  (rp_at r = Rp_wait → rp_wake r = false → rp_lost r = false ∧ rp_appeared r = false) ∧
  ∃ r', rtc reporter_step r r' ∧ rp_at r' = Rp_wait ∧ rp_lost r' = false ∧ rp_appeared r' = false ∧
    (rp_lost r = true → Sg_lost ∈ rp_events r') ∧ (rp_appeared r = true → Sg_appeared ∈ rp_events r').
Proof.
  apply (pending_events_reported (mkReporting true false [7] true 0 Rp_wait [])); [|reflexivity|done].
  eapply rtc_l; [apply (Rt_raise _ Sg_lost)|]. eapply rtc_l; [apply Rt_wake; done|]. eapply rtc_l; [apply Rt_reporter, Rs_recv; done|].
  eapply rtc_l; [apply Rt_reporter, Rs_any; done|]. eapply rtc_l; [eapply Rt_reporter, (Rs_take _ false false false); reflexivity|].
  eapply rtc_l; [apply Rt_reporter, (Rs_report _ false false); reflexivity|].
  eapply rtc_l; [apply (Rt_watch _ 7)|]. eapply rtc_l; [apply Rt_wake; done|]. reflexivity.
Defined.

(** A peer's token is read back from its key, and is not this transport's frame key. *)
Lemma token_key_read `{C : Crypto} {CL : CryptoLaws C} prefix id : token_of prefix (token_key prefix (token_name id)) = Some (token_name id).
Proof.
  apply token_of_Some. split; [done|]. unfold token_wf, token_name, hex, digest. set (m := sha256 _).
  assert (Forall is_u8 (take (TOKEN_HEX / 2) m)) as Hu by (apply Forall_take, sha256_u8). destruct (hex_ok _ Hu) as [Hl Hd].
  pose proof (sha256_len (TOKEN_TAG ++ id)) as H32. fold m in H32. rewrite Hl, length_take, H32. exact Hd.
Qed.
