(* ===== verification/Concurrent.v ===== *)
(** * Threads around one shared state

    The programs of threads that share a state behind a lock: a program runs regions, each
    under one hold of the lock, makes calls to its surroundings with no lock held, starts
    further jobs, and takes and gives back a turn that one thread has at a time.  Then the
    runs of any number of such threads, in any order, and the rule by which what each program
    keeps of the state is kept by all of them together (rely and guarantee). *)

From S2P Require Import Prelude.

Section Programs.
Context {W : Type} {X : Type → Type} {J : Type}.

Inductive prog (A : Type) : Type :=
| Ret (a : A)
| Region {B : Type} (f : W → B * W) (k : B → prog A)
| Call {R : Type} (x : X R) (k : R → prog A)
| Spawn (j : J) (k : prog A)
| TryTurn (k : bool → prog A)
| TakeTurn (k : prog A)
| GiveTurn (k : prog A)
| Spin.
Arguments Ret {A} a.
Arguments Region {A B} f k.
Arguments Call {A R} x k.
Arguments Spawn {A} j k.
Arguments TryTurn {A} k.
Arguments TakeTurn {A} k.
Arguments GiveTurn {A} k.
Arguments Spin {A}.

Fixpoint then_do {A B} (m : prog A) (f : A → prog B) : prog B :=
  match m with
  | Ret a => f a
  | Region g k => Region g (λ b, then_do (k b) f)
  | Call x k => Call x (λ r, then_do (k r) f)
  | Spawn j k => Spawn j (then_do k f)
  | TryTurn k => TryTurn (λ b, then_do (k b) f)
  | TakeTurn k => TakeTurn (then_do k f)
  | GiveTurn k => GiveTurn (then_do k f)
  | Spin => Spin
  end.

Definition region {B} (f : W → B * W) : prog B := Region f Ret.
Definition call {R} (x : X R) : prog R := Call x Ret.

Fixpoint each {A} (l : list A) (body : A → prog unit) : prog unit :=
  match l with
  | [] => Ret tt
  | a :: rest => then_do (body a) (λ _, each rest body)
  end.

(** ** Runs *)

(** [environment] is what the surroundings may do to the state on their own, [job] the program
    of a job. *)
Context (environment : W → W → Prop) (job : J → prog unit).

Record System := mkSystem { sy_state : W; sy_turn : option nat; sy_threads : list (prog unit) }.

Inductive step : System → System → Prop :=
| step_environment w w' turn ts : environment w w' → step (mkSystem w turn ts) (mkSystem w' turn ts)
| step_start w turn ts j : step (mkSystem w turn ts) (mkSystem w turn (ts ++ [job j]))
| step_region w turn ts i B (f : W → B * W) k :
    ts !! i = Some (Region f k) → step (mkSystem w turn ts) (mkSystem (f w).2 turn (<[ i := k (f w).1 ]> ts))
| step_call w turn ts i R (x : X R) k r :
    ts !! i = Some (Call x k) → step (mkSystem w turn ts) (mkSystem w turn (<[ i := k r ]> ts))
| step_spawn w turn ts i j k :
    ts !! i = Some (Spawn j k) → step (mkSystem w turn ts) (mkSystem w turn (<[ i := k ]> ts ++ [job j]))
| step_try_taken w n ts i k :
    ts !! i = Some (TryTurn k) → step (mkSystem w (Some n) ts) (mkSystem w (Some n) (<[ i := k false ]> ts))
| step_try_free w ts i k :
    ts !! i = Some (TryTurn k) → step (mkSystem w None ts) (mkSystem w (Some i) (<[ i := k true ]> ts))
| step_take w ts i k :
    ts !! i = Some (TakeTurn k) → step (mkSystem w None ts) (mkSystem w (Some i) (<[ i := k ]> ts))
| step_give w ts i k :
    ts !! i = Some (GiveTurn k) → step (mkSystem w (Some i) ts) (mkSystem w None (<[ i := k ]> ts)).

Definition system_init (w : W) : System := mkSystem w None [].

(** ** A thread on its own

    What a program does when no other thread runs and [answer] gives the results of its calls;
    the jobs it starts are listed.  [None] is a thread that ends without a result, or waits for
    a turn it has itself. *)
Section Alone.
Context (answer : ∀ R, X R → R).

Fixpoint alone {A} (p : prog A) (mine : bool) (w : W) : option (A * bool * W) :=
  match p with
  | Ret a => Some (a, mine, w)
  | Region f k => alone (k (f w).1) mine (f w).2
  | Call x k => alone (k (answer _ x)) mine w
  | Spawn j k => alone k mine w
  | TryTurn k => alone (k (negb mine)) true w
  | TakeTurn k => if mine then None else alone k true w
  | GiveTurn k => if mine then alone k false w else None
  | Spin => None
  end.

Lemma alone_steps (p : prog unit) mine w mine' w' ts i :
  alone p mine w = Some (tt, mine', w') → ts !! i = Some p →
  ∃ ts', rtc step (mkSystem w (if mine then Some i else None) ts) (mkSystem w' (if mine' then Some i else None) ts').
Proof.
  revert mine w ts. induction p as [[]|B f k IH|R x k IH|j k IH|k IH|k IH|k IH|]; intros mine w ts Ha Hi; cbn [alone] in Ha; [..|done].
  all: assert (∀ q, <[ i := q ]> ts !! i = Some q) as Hq by (intros q; apply list_lookup_insert_eq; by eapply lookup_lt_Some).
  - injection Ha as <- <-. by exists ts.
  - destruct (IH _ _ _ _ Ha (Hq _)) as [ts' Hr]. exists ts'. eapply rtc_l; [by apply step_region|exact Hr].
  - destruct (IH _ _ _ _ Ha (Hq _)) as [ts' Hr]. exists ts'. eapply rtc_l; [by eapply step_call|exact Hr].
  - destruct (IH mine w (<[ i := k ]> ts ++ [job j]) Ha) as [ts' Hr]; [by rewrite lookup_app_l_Some with (x := k)|].
    exists ts'. eapply rtc_l; [by apply step_spawn|exact Hr].
  - destruct (IH _ _ _ _ Ha (Hq _)) as [ts' Hr]. exists ts'. destruct mine; (eapply rtc_l; [|exact Hr]).
    + by apply step_try_taken.
    + by apply step_try_free.
  - destruct mine; [done|]. destruct (IH _ _ _ Ha (Hq _)) as [ts' Hr]. exists ts'. eapply rtc_l; [by apply step_take|exact Hr].
  - destruct mine; [|done]. destruct (IH _ _ _ Ha (Hq _)) as [ts' Hr]. exists ts'. eapply rtc_l; [by apply step_give|exact Hr].
Qed.

(** Jobs run one after the other. *)
Fixpoint in_turn (js : list J) (w : W) : option W :=
  match js with
  | [] => Some w
  | j :: rest => match alone (job j) false w with Some (tt, false, w') => in_turn rest w' | _ => None end
  end.

Lemma in_turn_steps js w w' ts : in_turn js w = Some w' → ∃ ts', rtc step (mkSystem w None ts) (mkSystem w' None ts').
Proof.
  revert w ts. induction js as [|j js IH]; intros w ts; cbn [in_turn]; [intros [= <-]; by exists ts|].
  destruct (alone (job j) false w) as [[[[] []] w1]|] eqn:Ea; try done. intros Hr.
  destruct (alone_steps (job j) false w false w1 (ts ++ [job j]) (length ts) Ea) as [ts1 H1].
  { rewrite lookup_app_r by lia. by rewrite Nat.sub_diag. }
  destruct (IH w1 ts1 Hr) as [ts' H2]. exists ts'. eapply rtc_l; [apply step_start|]. by etrans.
Qed.

(** Threads in a given interleaving: a job starts, or a thread goes on for some steps. *)
Inductive Move : Type := Begin (j : J) | Go (i steps : nat).

Definition advance (i : nat) (s : System) : option System :=
  let '(mkSystem w turn ts) := s in
  let on p := <[ i := p ]> ts in
  match ts !! i, turn with
  | Some (Region f k), _ => Some (mkSystem (f w).2 turn (on (k (f w).1)))
  | Some (Call x k), _ => Some (mkSystem w turn (on (k (answer _ x))))
  | Some (Spawn j k), _ => Some (mkSystem w turn (on k ++ [job j]))
  | Some (TryTurn k), Some n => Some (mkSystem w (Some n) (on (k false)))
  | Some (TryTurn k), None => Some (mkSystem w (Some i) (on (k true)))
  | Some (TakeTurn k), None => Some (mkSystem w (Some i) (on k))
  | Some (GiveTurn k), Some n => if decide (n = i) then Some (mkSystem w None (on k)) else None
  | _, _ => None
  end.

Lemma advance_step i s s' : advance i s = Some s' → step s s'.
Proof.
  destruct s as [w turn ts]. cbn [advance]. destruct (ts !! i) as [p|] eqn:Ei; [|done].
  destruct p as [a|B f k|R x k|j k|k|k|k|]; try done; [intros [= <-]..| | |].
  - by apply step_region.
  - by eapply step_call.
  - by apply step_spawn.
  - destruct turn; intros [= <-]; [by apply step_try_taken|by apply step_try_free].
  - destruct turn; [done|]. intros [= <-]. by apply step_take.
  - destruct turn as [n|]; [|done]. destruct (decide (n = i)) as [->|]; [|done]. intros [= <-]. by apply step_give.
Qed.

(** A thread goes on until it can no more, or for the given number of steps. *)
Fixpoint go (i n : nat) (s : System) : System :=
  match n with
  | 0%nat => s
  | S n => match advance i s with Some s' => go i n s' | None => s end
  end.

Definition move (s : System) (m : Move) : System :=
  match m with
  | Begin j => mkSystem (sy_state s) (sy_turn s) (sy_threads s ++ [job j])
  | Go i n => go i n s
  end.

Lemma schedule_steps ms s : rtc step s (foldl move s ms).
Proof.
  revert s. induction ms as [|m ms IH]; intros s; [done|]. cbn [foldl]. etrans; [|apply IH]. destruct m as [j|i n]; cbn [move].
  - destruct s as [w turn ts]. apply rtc_once, step_start.
  - revert s. induction n as [|n IHn]; intros s; cbn [go]; [done|]. destruct (advance i s) as [s'|] eqn:Ea; [|done].
    eapply rtc_l; [by eapply advance_step|apply IHn].
Qed.
End Alone.

(** ** Rely and guarantee

    [inv] is what every region keeps, [guarantee mine] how a region changes the state when its
    thread has the turn ([mine]) or not. *)
Section Logic.
Context (inv : W → Prop) (guarantee : bool → W → W → Prop).

(** [P] stays true whatever the other threads do. *)
Definition stable (mine : bool) (P : W → Prop) : Prop :=
  ∀ w w', inv w → inv w' → P w → guarantee false w w' ∨ (mine = false ∧ guarantee true w w') → P w'.

Fixpoint keeps {A} (mine : bool) (P : W → Prop) (p : prog A) (mine' : bool) (Q : A → W → Prop) : Prop :=
  match p with
  | Ret a => mine = mine' ∧ ∀ w, inv w → P w → Q a w
  | Region f k => ∀ w, inv w → P w →
      inv (f w).2 ∧ guarantee mine w (f w).2 ∧ ∃ P', stable mine P' ∧ P' (f w).2 ∧ keeps mine P' (k (f w).1) mine' Q
  | Call x k => ∀ r, keeps mine P (k r) mine' Q
  | Spawn j k => keeps mine P k mine' Q
  | TryTurn k => mine = false ∧ keeps false P (k false) mine' Q ∧ keeps true P (k true) mine' Q
  | TakeTurn k => mine = false ∧ keeps true P k mine' Q
  | GiveTurn k => mine = true ∧ ∃ P', stable false P' ∧ (∀ w, inv w → P w → P' w) ∧ keeps false P' k mine' Q
  | Spin => True
  end.

Lemma keeps_mono {A} (p : prog A) mine (P P' : W → Prop) mine' (Q Q' : A → W → Prop) :
  (∀ w, inv w → P' w → P w) → (∀ a w, inv w → Q a w → Q' a w) → keeps mine P p mine' Q → keeps mine P' p mine' Q'.
Proof.
  revert mine P P'. induction p as [a|B f k IH|R x k IH|j k IH|k IH|k IH|k IH|]; intros mine P P' HP HQ; cbn [keeps].
  - intros [-> H]. split; [done|]. intros w Hw Hp. apply HQ; [done|]. apply H; auto.
  - intros H w Hw Hp. destruct (H w Hw (HP w Hw Hp)) as (Hi & Hg & P1 & Hs & H1 & Hk). split; [done|]. split; [done|].
    exists P1. split_and!; [done|done|]. by apply (IH _ _ P1 P1).
  - intros H r. by apply (IH r mine P).
  - by apply IH.
  - intros (Hm & H1 & H2). split_and!; [done|by apply (IH false false P)|by apply (IH true true P)].
  - intros [Hm H]. split; [done|]. by apply (IH true P).
  - intros (Hm & P1 & Hs & Hpp & Hk). split; [done|]. exists P1. split_and!; [done|auto|]. by apply (IH false P1).
  - done.
Qed.

Lemma keeps_then {A B} (m : prog A) (f : A → prog B) mine P mine1 Q1 mine2 Q2 :
  keeps mine P m mine1 Q1 → (∀ a, keeps mine1 (Q1 a) (f a) mine2 Q2) → keeps mine P (then_do m f) mine2 Q2.
Proof.
  intros Hm Hf. revert mine P Hm. induction m as [a|C g k IH|R x k IH|j k IH|k IH|k IH|k IH|]; intros mine P; cbn [keeps then_do].
  - intros [-> H]. apply (keeps_mono (f a) mine1 (Q1 a) P mine2 Q2 Q2); auto.
  - intros H w Hw Hp. destruct (H w Hw Hp) as (Hi & Hg & P1 & Hs & H1 & Hk). split; [done|]. split; [done|].
    exists P1. split_and!; [done|done|]. by apply IH.
  - intros H r. by apply IH.
  - by apply IH.
  - intros (Hmine & H1 & H2). split_and!; [done|by apply IH|by apply IH].
  - intros [Hmine H]. split; [done|]. by apply IH.
  - intros (Hmine & P1 & Hs & Hpp & Hk). split; [done|]. exists P1. split_and!; [done|done|]. by apply IH.
  - done.
Qed.

(** A loop body that keeps an assertion is repeated with it. *)
Lemma keeps_each {A} (l : list A) (body : A → prog unit) mine P :
  (∀ a, a ∈ l → keeps mine P (body a) mine (λ _, P)) → keeps mine P (each l body) mine (λ _, P).
Proof.
  induction l as [|a l IH]; intros Hb; cbn [each keeps]; [done|]. eapply keeps_then; [apply Hb; left|].
  intros []. apply IH. intros x Hx. apply Hb. by right.
Qed.

Lemma stable_true mine : stable mine (λ _, True).
Proof. done. Qed.

Lemma keeps_region {B} (f : W → B * W) mine P (Q : B → W → Prop) :
  (∀ b, stable mine (Q b)) →
  (∀ w, inv w → P w → inv (f w).2 ∧ guarantee mine w (f w).2 ∧ Q (f w).1 (f w).2) →
  keeps mine P (region f) mine Q.
Proof.
  intros Hs H w Hw Hp. destruct (H w Hw Hp) as (Hi & Hg & Hq). split; [done|]. split; [done|].
  exists (Q (f w).1). split_and!; [done|done|]. cbn [keeps]. done.
Qed.

Lemma keeps_call {R} (x : X R) mine P : keeps mine P (call x) mine (λ _, P).
Proof. cbn. done. Qed.

(** *** What the threads keep together *)

Context (inv_environment : ∀ w w', inv w → environment w w' → inv w' ∧ guarantee false w w').
Context (guarantee_refl : ∀ mine w, guarantee mine w w).
Context (job_keeps : ∀ j, keeps false (λ _, True) (job j) false (λ _ _, True)).

Definition has_turn (s : System) (i : nat) : bool := bool_decide (sy_turn s = Some i).

Definition thread_ok (s : System) (i : nat) (t : prog unit) : Prop :=
  ∃ P, stable (has_turn s i) P ∧ P (sy_state s) ∧ keeps (has_turn s i) P t false (λ _ _, True).

Record system_ok (s : System) : Prop := {
  so_inv : inv (sy_state s);
  so_turn i : sy_turn s = Some i → (i < length (sy_threads s))%nat;
  so_threads i t : sy_threads s !! i = Some t → thread_ok s i t }.

(** How the whole system changes the state: as a thread with the turn or without it does. *)
Definition changes (w w' : W) : Prop := guarantee false w w' ∨ guarantee true w w'.

Lemma system_ok_init w : inv w → system_ok (system_init w).
Proof. intros Hw. split; [done|done|]. intros i t Hi. cbn in Hi. by rewrite lookup_nil in Hi. Qed.

(** Threads that do not move keep their assertions when one that does moves. *)
Lemma others_keep (s : System) w' ts' turn' i mine :
  system_ok s → inv w' → has_turn s i = mine → guarantee mine (sy_state s) w' →
  (∀ j, j ≠ i → bool_decide (turn' = Some j) = has_turn s j) →
  ∀ j t, j ≠ i → sy_threads s !! j = Some t → thread_ok (mkSystem w' turn' ts') j t.
Proof.
  intros Hok Hw' Hmine Hg Hturn j t Hne Hj. destruct (so_threads s Hok j t Hj) as (P & Hs & Hp & Hk).
  exists P. change (has_turn (mkSystem w' turn' ts') j) with (bool_decide (turn' = Some j)). cbn [sy_state]. rewrite (Hturn j Hne). split_and!; [done| |done].
  apply (Hs (sy_state s)); [apply (so_inv s Hok)|done|done|]. destruct mine; [right|by left]. split; [|done].
  unfold has_turn in *. apply bool_decide_eq_false_2. apply bool_decide_eq_true in Hmine. rewrite Hmine. congruence.
Qed.

Lemma lookup_moved (ts : list (prog unit)) i p j t :
  (i < length ts)%nat → <[ i := p ]> ts !! j = Some t → (j = i ∧ t = p) ∨ (j ≠ i ∧ ts !! j = Some t).
Proof.
  intros Hi. destruct (decide (j = i)) as [->|Hne].
  - rewrite list_lookup_insert_eq by done. intros [= ->]. by left.
  - rewrite list_lookup_insert_ne by done. by right.
Qed.

(** A thread moves: it keeps its own assertion, and so do the others. *)
Lemma system_ok_move (s : System) i (p' : prog unit) w' turn' mine P' :
  system_ok s → (i < length (sy_threads s))%nat → has_turn s i = mine → inv w' → guarantee mine (sy_state s) w' →
  (∀ j, j ≠ i → bool_decide (turn' = Some j) = has_turn s j) →
  stable (bool_decide (turn' = Some i)) P' → P' w' → keeps (bool_decide (turn' = Some i)) P' p' false (λ _ _, True) →
  system_ok (mkSystem w' turn' (<[ i := p' ]> (sy_threads s))).
Proof.
  intros Hok Hi Hmine Hw' Hg Hturn Hs Hp Hk. split; [done| |].
  - intros j. cbn [sy_turn sy_threads]. rewrite length_insert. intros Hj. destruct (decide (j = i)) as [->|Hne]; [done|].
    apply (so_turn s Hok). specialize (Hturn j Hne). unfold has_turn in Hturn. rewrite Hj, bool_decide_true in Hturn by done.
    symmetry in Hturn. by apply bool_decide_eq_true in Hturn.
  - intros j t. cbn [sy_threads]. intros [[-> ->]|[Hne Hj]]%lookup_moved; [|by eapply others_keep|done]. by exists P'.
Qed.

Lemma system_ok_append (s : System) j : system_ok s → system_ok (mkSystem (sy_state s) (sy_turn s) (sy_threads s ++ [job j])).
Proof.
  intros Hok. split; [apply (so_inv s Hok)| |].
  - intros i Hi. cbn [sy_threads]. rewrite length_app. apply (so_turn s Hok) in Hi. lia.
  - intros i t. cbn [sy_threads]. rewrite lookup_app_Some. intros [Hi|[Hlen Hi]]; [by apply (so_threads s Hok)|].
    apply list_lookup_singleton_Some in Hi as [Hz <-]. exists (λ _, True). split_and!; [by intros ?|done|].
    unfold has_turn. cbn [sy_turn]. rewrite bool_decide_false; [done|]. intros Ht. apply (so_turn s Hok) in Ht. lia.
Qed.

Lemma turn_other {s : System} {i j : nat} : sy_turn s = Some i → j ≠ i → has_turn s j = false.
Proof. intros Hi Hne. unfold has_turn. rewrite Hi. apply bool_decide_eq_false_2. congruence. Qed.

(** The soundness of the rule. *)
Theorem system_ok_step (s s' : System) : system_ok s → step s s' → system_ok s' ∧ changes (sy_state s) (sy_state s').
Proof.
  intros Hok Hstep.
  assert (∀ i p, sy_threads s !! i = Some p → (i < length (sy_threads s))%nat) as Hlen by (intros i p Hi; by eapply lookup_lt_Some).
  assert (∀ mine w, changes w w ∧ guarantee mine w w) as Hrefl by (intros mine w; unfold changes; auto).
  pose proof (so_inv s Hok) as Hw.
  destruct Hstep as [w w' turn ts He|w turn ts j|w turn ts i B f k Hi|w turn ts i R x k r Hi|w turn ts i j k Hi
    |w n ts i k Hi|w ts i k Hi|w ts i k Hi|w ts i k Hi]; cbn [sy_state] in *.
  - destruct (inv_environment w w' Hw He) as [Hw' Hg]. split; [|by left]. split; [done|apply (so_turn _ Hok)|].
    intros i t Hi. destruct (so_threads _ Hok i t Hi) as (P & Hs & Hp & Hk). exists P. split_and!; [done| |done].
    apply (Hs w); auto.
  - split; [|apply (Hrefl true)]. apply (system_ok_append (mkSystem w turn ts) j Hok).
  - destruct (so_threads _ Hok i _ Hi) as (P & Hs & Hp & Hk). destruct (Hk w Hw Hp) as (Hi' & Hg & P' & Hs' & Hp' & Hk').
    split; [|unfold changes; destruct (has_turn _ i); auto].
    by eapply (system_ok_move (mkSystem w turn ts) i _ _ turn _ P' Hok (Hlen _ _ Hi)).
  - destruct (so_threads _ Hok i _ Hi) as (P & Hs & Hp & Hk). split; [|apply (Hrefl true)].
    by eapply (system_ok_move (mkSystem w turn ts) i _ _ turn _ P Hok (Hlen _ _ Hi)); auto.
  - destruct (so_threads _ Hok i _ Hi) as (P & Hs & Hp & Hk). split; [|apply (Hrefl true)].
    apply (system_ok_append (mkSystem w turn (<[ i := k ]> ts)) j).
    by eapply (system_ok_move (mkSystem w turn ts) i _ _ turn _ P Hok (Hlen _ _ Hi)); auto.
  - destruct (so_threads _ Hok i _ Hi) as (P & Hs & Hp & Hk). destruct Hk as (Hm & Hf & Ht). split; [|apply (Hrefl true)].
    eapply (system_ok_move (mkSystem w (Some n) ts) i _ _ (Some n) _ P Hok (Hlen _ _ Hi)); auto.
    change (bool_decide (Some n = Some i)) with (has_turn (mkSystem w (Some n) ts) i). by rewrite Hm.
  - destruct (so_threads _ Hok i _ Hi) as (P & Hs & Hp & Hk). destruct Hk as (Hm & Hf & Ht). split; [|apply (Hrefl true)].
    eapply (system_ok_move (mkSystem w None ts) i _ _ (Some i) _ P Hok (Hlen _ _ Hi)); auto.
    + intros j Hne. unfold has_turn. cbn [sy_turn]. rewrite !bool_decide_false; congruence.
    + rewrite bool_decide_true by done. intros w1 w2 H1 H2 H3 [H4|[? _]]; [|done]. apply (Hs w1 w2 H1 H2 H3). by left.
    + by rewrite bool_decide_true.
  - destruct (so_threads _ Hok i _ Hi) as (P & Hs & Hp & Hk). destruct Hk as (Hm & Ht). split; [|apply (Hrefl true)].
    eapply (system_ok_move (mkSystem w None ts) i _ _ (Some i) _ P Hok (Hlen _ _ Hi)); auto.
    + intros j Hne. unfold has_turn. cbn [sy_turn]. rewrite !bool_decide_false; congruence.
    + rewrite bool_decide_true by done. intros w1 w2 H1 H2 H3 [H4|[? _]]; [|done]. apply (Hs w1 w2 H1 H2 H3). by left.
    + by rewrite bool_decide_true.
  - destruct (so_threads _ Hok i _ Hi) as (P & Hs & Hp & Hk). destruct Hk as (Hm & P' & Hs' & Hpp & Hk'). split; [|apply (Hrefl true)].
    eapply (system_ok_move (mkSystem w (Some i) ts) i _ _ None _ P' Hok (Hlen _ _ Hi)); auto.
    intros j Hne. rewrite bool_decide_false by done. by rewrite (turn_other (s := mkSystem w (Some i) ts) eq_refl Hne).
Qed.

(** Every run from a state with the invariant keeps it, and so does [R], which follows from the
    changes and adds up. *)
Theorem run_ok (R : W → W → Prop) (s s' : System) :
  (∀ w, R w w) → (∀ w1 w2 w3, inv w1 → inv w2 → inv w3 → changes w1 w2 → R w2 w3 → R w1 w3) →
  system_ok s → rtc step s s' → system_ok s' ∧ R (sy_state s) (sy_state s').
Proof.
  intros Hrefl Htrans Hok Hrun. induction Hrun as [s|s s1 s2 Hstep _ IH]; [done|].
  destruct (system_ok_step s s1 Hok Hstep) as [Hok1 Hc]. destruct (IH Hok1) as [Hok2 Hr]. split; [done|].
  by apply (Htrans _ (sy_state s1)); [apply (so_inv s Hok)|apply (so_inv s1 Hok1)|apply (so_inv s2 Hok2)| |].
Qed.
End Logic.
End Programs.
Arguments prog W X J A : clear implicits.
Arguments Ret {W X J A} a.
Arguments Region {W X J A B} f k.
Arguments Call {W X J A R} x k.
Arguments Spawn {W X J A} j k.
Arguments TryTurn {W X J A} k.
Arguments TakeTurn {W X J A} k.
Arguments GiveTurn {W X J A} k.
Arguments Spin {W X J A}.
Arguments System W X J : clear implicits.

(** ** Field updates of records

    [r <| f := v |>] is [r] with the field [f] set to [v], for a record whose constructor
    applied to its own fields is declared as its [Eta].  The update of a field is found by
    replacing that field in the expansion, so that it computes like a hand-written one. *)

Class Eta (R : Type) := eta : R → R.

Class Update {R T : Type} (proj : R → T) := update : (T → T) → R → R.

Ltac build_update :=
  match goal with
  | |- @Update ?R ?T ?proj =>
      let f := fresh "f" in
      let r := fresh "r" in
      intros f r;
      let expansion := eval hnf in (@eta R _) in
      let body := eval cbv beta in (expansion r) in
      match body with context [proj r] => idtac end;
      match eval pattern (proj r) in body with
      | ?context_of _ => let result := eval cbv beta in (context_of (f (proj r))) in exact result
      end
  end.

#[export] Hint Extern 1 (Update _) => build_update : typeclass_instances.

Declare Scope record_scope.
Open Scope record_scope.

Notation "r <| f := v |>" := (update (proj := f) (λ _, v) r)
  (at level 12, f at next level, left associativity, format "r  <| f  :=  v |>") : record_scope.

(** An update sets its field and no other. *)
Record fields := mkFields { fd_first : nat; fd_second : list nat }.
Definition fields_eta (s : fields) : fields := mkFields (fd_first s) (fd_second s).
#[local] Instance fields_Eta : Eta fields := fields_eta.

Example update_sample : mkFields 1 [2%nat] <| fd_second := [3%nat] |> = mkFields 1 [3%nat].
Proof. reflexivity. Qed.
