(* ===== verification/PipelineData.v ===== *)
(** * The data of the pipelines ([core/src/pipeline.rs])

    The settings, errors and tables of the send and receive pipelines, the state under the
    core lock, the state beside it, and the functions over them that touch one table alone:
    the share of pending signals, the sets of announcements for carrier appearances, the
    retry of a save, and the tracking of sent envelopes.  Instants and durations are
    nanoseconds; an [AdapterId] is the adapter's place in the list of adapters. *)

From S2P Require Import Prelude Ordered Ids Json Delivery Capabilities Envelope Keys Agreement Trust Replay Receipt Receiver Sender.
From S2P Require Import Pairing Authorization Transport Presence Registry AgreementKeys IssuedPairing SessionBinding.
From S2P Require Import Concurrent.

Definition NANOS_PER_SEC : Z := 1000000000.
Definition CARRIER_APPEARANCE_HOLD_OFF : Z := 1 * NANOS_PER_SEC.
Definition CARRIER_APPEARANCE_BOUND : Z := 2 * NANOS_PER_SEC.
Definition TRUST_SAVE_RETRY_FIRST : Z := 1 * NANOS_PER_SEC.
Definition TRUST_SAVE_RETRY_CAP : Z := 60 * NANOS_PER_SEC.

#[export] Instance MapOrder_HashOrder `{MapOrder} : HashOrder :=
  {| hash_items := λ V m, map_items m; hash_items_perm := λ V m, map_items_perm m |}.

(** [Iterator::min_by_key]: the first of the least. *)
Definition min_by_key {A} (key : A → Z) (l : list A) : option A :=
  foldl (λ acc x, match acc with Some b => if key x <? key b then Some x else Some b | None => Some x end) None l.

(** ** Settings and errors *)

Record PipelineConfig := mkConfig {
  cf_implemented : list Implemented; cf_limits : EnvelopeLimits; cf_presence_lifetime_ms : Z; cf_max_trackers : Z;
  cf_receipt_stream_capacity : Z; cf_max_announcements : Z; cf_max_connections : Z; cf_max_requeued : Z;
  cf_control_ttl : Z; cf_native_signal_window : Z; cf_max_pending_signals : Z; cf_pairing_window : Z }.

Definition PipelineConfig_default : PipelineConfig :=
  mkConfig [mkImplemented EXTENSION_ID_V0 (major IMPLEMENTED_VERSION) IMPLEMENTED_VERSION] EnvelopeLimits_default
    CROSS_IMPLEMENTATION_PRESENCE_CAP_MS 4096 16 4096 1024 1024 (60 * NANOS_PER_SEC) (10 * NANOS_PER_SEC) 64 (30 * NANOS_PER_SEC).

Definition AdapterId : Type := nat.

Inductive PipelineError : Type :=
| Pe_Transport (e : TransportError)
| Pe_Declaration (ids : list string)
| Pe_UnknownAdapter | Pe_ClosureBound | Pe_TooManyConnections | Pe_UnknownAttachment | Pe_AlreadyBound
| Pe_InvalidRegistration | Pe_InvalidCapabilities | Pe_NoAgreementKey
| Pe_OwnStatement (e : StatementRefusal).

Inductive TrustChangeError : Type :=
| Tc_Closed
| Tc_Pair (e : PairError)
| Tc_Remove (e : RemoveKeyError)
| Tc_Store (e : PairingStoreError).

Inductive Unpaired : Type := Up_Durable (removal : KeyRemoval) | Up_NotDurable (e : PairingStoreError).

(** ** What the core holds of the adapters *)

(** What the core reads of a [ProviderAdapter] besides its calls. *)
Record AdapterInfo := mkAdapter { ai_local_calls : bool; ai_connection_limit : Z; ai_shutdown_bound_ms : Z }.

(** [AdapterCapabilities] and [AdapterEvent] ([core/src/adapter.rs]). *)
Record AdapterCapabilities := mkAdapterCaps {
  ac_active_inbound : bool; ac_content_types : list (list Z); ac_max_envelope_octets : option Z }.

Inductive AdapterEvent : Type :=
| Ae_AttachmentOpened (attachment : ConnectionHandle) (cross_check : option (list Z))
| Ae_NativeSignal (signal : NativeSignal)
| Ae_CapabilitiesChanged (attachment : ConnectionHandle)
| Ae_AttachmentClosed (attachment : ConnectionHandle)
| Ae_AttachmentUnconfirmed (attachment : ConnectionHandle).

(** [PairingKey] and [PeerObservation] ([core/src/session_binding.rs]). *)
Definition PairingKey : Type := list Z.

Record PeerObservation := mkObservation {
  po_pairing_key : option PairingKey; po_harness_label : option Token; po_working_directory : option (list Z) }.

Definition PeerObservation_none : PeerObservation := mkObservation None None None.

#[export] Instance PeerObservation_eq_dec : EqDecision PeerObservation.
Proof. solve_decision. Defined.

Record AttachmentEntry := mkAttachment {
  ae_adapter : AdapterId; ae_open : bool; ae_session : option SessionId; ae_native_id : option (list Z);
  ae_cross_check : option (list Z); ae_withheld : bool; ae_withheld_by : option Z; ae_paired_seq : option Z }.

Definition AttachmentEntry_eta (e : AttachmentEntry) : AttachmentEntry :=
  mkAttachment (ae_adapter e) (ae_open e) (ae_session e) (ae_native_id e) (ae_cross_check e) (ae_withheld e)
    (ae_withheld_by e) (ae_paired_seq e).
#[export] Instance AttachmentEntry_Eta : Eta AttachmentEntry := AttachmentEntry_eta.

(** The entry an [attachment-opened] event makes. *)
Definition opened_entry (adapter : AdapterId) (cross_check : option (list Z)) : AttachmentEntry :=
  mkAttachment adapter true None None cross_check false None None.

(** [withheld_until_after] and [answers]. *)
Definition withheld_until_after (withheld_by : option Z) (seq : Z) : Z :=
  match withheld_by with None => seq | Some w => Z.max w seq end.

Definition answers (withheld_by seq : option Z) : bool :=
  match withheld_by, seq with
  | None, _ => true
  | Some w, Some s => w <? s
  | Some _, None => false
  end.

(** ** Native signals waiting for their decision *)

Inductive Reveal : Type :=
| Re_None
| Re_Issued (a : ConnectionHandle)
| Re_Conflict (a : ConnectionHandle)
| Re_Rejected (requirement : string).

(** [Reveal::narrow]. *)
Definition narrow (r : Reveal) : option ConnectionHandle := match r with Re_Issued a => Some a | _ => None end.

Record QueuedSignal := mkQueued {
  qs_adapter : AdapterId; qs_signal : NativeSignal; qs_key : option PairingKey; qs_seq : Z; qs_reveal : Reveal }.

Record HeldSignal := mkHeldSignal {
  hg_adapter : AdapterId; hg_signal : NativeSignal; hg_key : PairingKey; hg_held_at : Z; hg_seq : Z }.

Inductive SignalHolder : Type :=
| Sh_Key (adapter : AdapterId) (key : PairingKey)
| Sh_Connection (c : ConnectionHandle)
| Sh_Unattributed.

#[export] Instance SignalHolder_eq_dec : EqDecision SignalHolder.
Proof. solve_decision. Defined.
#[export] Instance SignalHolder_countable : Countable SignalHolder.
Proof.
  refine (inj_countable'
    (λ h, match h with Sh_Key a k => inl (a, k) | Sh_Connection c => inr (Some c) | Sh_Unattributed => inr None end)
    (λ x : nat * list Z + option Z, match x with inl (a, k) => Sh_Key a k | inr (Some c) => Sh_Connection c | inr None => Sh_Unattributed end) _).
  by intros [].
Defined.

(** [SignalHolder::of] and [QueuedSignal::holder]. *)
Definition SignalHolder_of (adapter : AdapterId) (key : option PairingKey) (connection : option ConnectionHandle) : SignalHolder :=
  match key, connection with
  | Some k, _ => Sh_Key adapter k
  | None, Some c => Sh_Connection c
  | None, None => Sh_Unattributed
  end.

Definition holder (q : QueuedSignal) : SignalHolder := SignalHolder_of (qs_adapter q) (qs_key q) (ns_connection (qs_signal q)).

(** [fair_share_victim]: per holder, how many signals it has pending, and the [seq] of its latest
    and its oldest. *)
Record Share := mkShare { sr_count : Z; sr_latest : Z; sr_oldest : Z }.

Definition count_signal {H} `{Countable H} (counts : gmap H Share) (x : H * Z) : gmap H Share :=
  let c := default (mkShare 0 x.2 x.2) (counts !! x.1) in
  <[ x.1 := mkShare (sr_count c + 1) (Z.max (sr_latest c) x.2) (Z.min (sr_oldest c) x.2) ]> counts.

Definition fair_share_victim `{MapOrder} {H} `{Countable H} (pending : list (H * Z)) (holder : H) : option Z :=
  let counts := foldl count_signal ∅ pending in
  let mine := default 0 (sr_count <$> counts !! holder) in
  let values := map snd (map_items counts) in
  let most := default 0 (sr_count <$> max_by_key sr_count values) in
  if mine + 2 <=? most then sr_oldest <$> max_by_key sr_latest (List.filter (λ c, sr_count c =? most) values)
  else sr_oldest <$> counts !! holder.

Inductive PairAttempt : Type :=
| Pt_Paired (a : ConnectionHandle)
| Pt_NotYet (key : PairingKey)
| Pt_Unpairable (bound : list ConnectionHandle)
| Pt_Rejected (requirement : string)
| Pt_Conflict (a : ConnectionHandle).

(** [BindingLogEntry] ([core/src/session_binding.rs]). *)
Record BindingLogEntry := mkLogEntry {
  le_record : BindingRecord; le_result : BindingResult; le_attachment : option ConnectionHandle; le_session : option SessionId }.

(** ** Sent envelopes *)

(** A tracker with its receipt stream: the receipts not yet read, and whether it is still read. *)
Record TrackerEntry := mkTrackerEntry { te_tracker : EnvelopeTracker; te_unread : list DeliveryReceipt; te_reader : bool }.

Definition TrackerKey : Type := Token * SessionId.

(** ** Announcements *)

Record Announced := mkAnnounced { an_at : Z; an_taken : bool }.

Inductive TrackingUpdate : Type :=
| Tu_Passed (key : TrackerKey)
| Tu_Untrack (key : TrackerKey)
| Tu_Announcement (session : SessionId) (device : KeyId) (at_ : Z) (result : PublishResult).

Record AppearanceSets := mkAppearances { as_last_began : option Z; as_uncovered : bool; as_starting : option Z }.

Definition AppearanceSets_default : AppearanceSets := mkAppearances None false None.

Definition may_begin (a : AppearanceSets) (now : Z) : bool :=
  negb (is_some (as_starting a)) &&
  match as_last_began a with None => true | Some t => t + CARRIER_APPEARANCE_HOLD_OFF <=? now end.

(** [AppearanceSets::decide], [first_passed] and [settle]. *)
Definition decide_set (now : Z) (a : AppearanceSets) : bool * AppearanceSets :=
  if as_uncovered a && may_begin a now then (true, mkAppearances (as_last_began a) false (Some now)) else (false, a).

Definition first_passed (at_ : Z) (a : AppearanceSets) : AppearanceSets :=
  match as_starting a with
  | Some decided => mkAppearances (Some (Z.max decided at_)) (as_uncovered a) None
  | None => a
  end.

Definition settle_set (a : AppearanceSets) : AppearanceSets := mkAppearances (as_last_began a) (as_uncovered a) None.

(** How a payload goes to the transport. *)
Inductive Carriage : Type := Ca_Plain | Ca_Sealed (key : AgreementPublicKey) (max_frame_octets : Z).

(** ** The core and the state beside it *)

Record TrustSaveRetry := mkRetry { tr_failures : Z; tr_due : Z }.

(** A subscription of the transport; [None] is the one that ends nothing. *)
Definition Subscription : Type := option Z.

Record Core := mkCore {
  c_engine : Engine; c_registry : PresenceRegistry; c_issuer : PresenceIssuer; c_limiter : ReceiptLimiter;
  c_adapters : list AdapterInfo; c_connections : gmap ConnectionHandle AdapterId;
  c_attachments : gmap ConnectionHandle AttachmentEntry; c_sessions : gmap SessionId ConnectionHandle;
  c_subscriptions : gmap SessionId Subscription; c_trackers : gmap TrackerKey TrackerEntry;
  c_tracker_order : list TrackerKey; c_announced : gmap (SessionId * KeyId) Announced;
  c_appearances : AppearanceSets; c_transport_caps : option TransportCapabilities;
  c_device_subscription : option Subscription; c_observed : gmap ConnectionHandle PeerObservation;
  c_signals : list QueuedSignal; c_held : list HeldSignal; c_next_signal_seq : Z;
  c_carriers : gmap ConnectionHandle AdapterId; c_pairing : @PairingWindows ConnectionHandle _ _;
  c_closed : bool; c_trust_retry : option TrustSaveRetry }.

Definition Core_eta (c : Core) : Core :=
  mkCore (c_engine c) (c_registry c) (c_issuer c) (c_limiter c) (c_adapters c) (c_connections c) (c_attachments c)
    (c_sessions c) (c_subscriptions c) (c_trackers c) (c_tracker_order c) (c_announced c) (c_appearances c)
    (c_transport_caps c) (c_device_subscription c) (c_observed c) (c_signals c) (c_held c) (c_next_signal_seq c)
    (c_carriers c) (c_pairing c) (c_closed c) (c_trust_retry c).
#[export] Instance Core_Eta : Eta Core := Core_eta.

(** [Core::trust_save_failed]: a [u32] count that saturates, and the shift bounded by 16. *)
Definition trust_save_failed (now : Z) (c : Core) : Core :=
  let failures := match c_trust_retry c with None => 1 | Some r => Z.min (tr_failures r + 1) U32_MAX end in
  let wait := Z.min (TRUST_SAVE_RETRY_FIRST * Z.shiftl 1 (Z.min (failures - 1) 16)) TRUST_SAVE_RETRY_CAP in
  c <| c_trust_retry := Some (mkRetry failures (now + wait)) |>.

(** The work a closure leaves: the subscription to end, and the withdrawal with its audiences. *)
Definition ClosureWork : Type := option Subscription * option PresenceRecord * list (KeyId * Carriage).

Record LocalClosures := mkClosures {
  lc_connections : gmap ConnectionHandle AdapterId; lc_pending : gmap ConnectionHandle AdapterId;
  lc_peer_work : list ClosureWork }.

Definition LocalClosures_eta (l : LocalClosures) : LocalClosures :=
  mkClosures (lc_connections l) (lc_pending l) (lc_peer_work l).
#[export] Instance LocalClosures_Eta : Eta LocalClosures := LocalClosures_eta.

(** [Inner], with what its parts share: the messages that wait on a twin by the number of
    their callback, the connections whose handle is closed, the number of the next
    connection, and the readings of the clocks. *)
Record World := mkWorld {
  w_core : Core; w_closures : LocalClosures; w_tracking : list TrackingUpdate;
  w_committed_sends : gmap AdapterId Z; w_store : Replay.Inner;
  w_notify : list (AuthorizedMessage AuthorizationDecision);
  w_requeued : list (AuthorizedMessage AuthorizationDecision); w_waiting : Z; w_repair_needed : bool;
  w_agreement : option AgreementKeys; w_discarded_frames : Z; w_local_workers : Z;
  w_shut : gset ConnectionHandle; w_next_handle : ConnectionHandle; w_clock : Timestamp; w_mono : Z }.

Definition World_eta (w : World) : World :=
  mkWorld (w_core w) (w_closures w) (w_tracking w) (w_committed_sends w) (w_store w) (w_notify w) (w_requeued w)
    (w_waiting w) (w_repair_needed w) (w_agreement w) (w_discarded_frames w) (w_local_workers w) (w_shut w)
    (w_next_handle w) (w_clock w) (w_mono w).
#[export] Instance World_Eta : Eta World := World_eta.

(** What one device's pipelines are built with. *)
Class PipelineEnv := { pe_identity : DeviceIdentity; pe_config : PipelineConfig }.

Definition own_key_id `{PipelineEnv} : KeyId := tk_key_id (di_entry pe_identity).

(** [Pipelines::new], at the readings of the clocks. *)
Definition Core_new `{PipelineEnv} (engine : Engine) : option Core :=
  issuer ← match PresenceIssuer_new (cf_presence_lifetime_ms pe_config) with
           | Some i => Some i
           | None => PresenceIssuer_new CROSS_IMPLEMENTATION_PRESENCE_CAP_MS
           end;
  Some (mkCore engine PresenceRegistry_new issuer ReceiptLimiter_default [] ∅ ∅ ∅ ∅ ∅ [] ∅ AppearanceSets_default None None
          ∅ [] [] 0 ∅ (windows_new (cf_pairing_window pe_config)) false None).

Definition Pipelines_new `{PipelineEnv} (engine : Engine) (clock : Timestamp) (mono : Z) : option World :=
  core ← Core_new engine;
  Some (mkWorld core (mkClosures ∅ ∅ []) [] ∅ inner_default [] [] 0 false None 0 0 ∅ 1 clock mono).
