(* ===== verification/PipelinePresence.v ===== *)
(** * The pipelines: locks, carriage and announcements ([core/src/pipeline.rs])

    The calls the pipelines make to the transport, the adapters, the binding log and the
    operating system; the jobs their threads run; what every hold of the core lock applies
    first; how a payload goes to the transport; and the announcements and withdrawals of own
    sessions.  A panic of an [expect] ends the thread. *)

From S2P Require Import Prelude Ordered Ids Json Delivery Capabilities Envelope Keys Agreement Trust Replay Receipt Receiver Sender.
From S2P Require Import Registration Pairing Authorization Transport Presence Registry PresenceAuth Sealing AgreementKeys.
From S2P Require Import IssuedPairing SessionBinding Concurrent PipelineData.

(** ** Calls and jobs *)

(** A terminal [LocalResult] ([core/src/local_call.rs]). *)
Inductive LocalStop : Type := Ls_Closed | Ls_ShuttingDown | Ls_TimedOut.

Inductive pcall : Type → Type :=
| X_Capabilities (adapter : AdapterId) (a : ConnectionHandle) : pcall (option AdapterCapabilities)
| X_SetBinding (adapter : AdapterId) (a : ConnectionHandle) (session : option SessionId) : pcall unit
| X_Deliver (adapter : AdapterId) (a : ConnectionHandle) (msg : ChannelMessage) : pcall (option HandOffOutcome)
| X_TakeConnection (adapter : AdapterId) (c : ConnectionHandle) : pcall unit
| X_AdapterShutdown (adapter : AdapterId) : pcall unit
| X_TransportStart : pcall (result TransportError TransportCapabilities)
| X_TransportShutdown : pcall unit
| X_Subscribe (d : Destination) : pcall (result TransportError Z)
| X_WatchPresence : pcall (result TransportError unit)
| X_EndSubscription (s : Z) : pcall unit
| X_SendPresence (d : Destination) (p : Payload) (deadline : Deadline) : pcall PublishResult
| X_Publish (d : Destination) (p : Payload) (deadline : Deadline) : pcall PublishResult
| X_Log (entry : BindingLogEntry) : pcall unit
| X_Random (octets : nat) : pcall (option (list Z))
| X_SessionIds : pcall (list SessionId)
| X_LocalLock : pcall (option LocalStop)
| X_Commit : pcall (option LocalStop)
| X_SaveAnswer : pcall (result PairingStoreError unit).

(** What is left to do of an event once it is reported. *)
Inductive LocalWork : Type :=
| Lw_Event (event : AdapterEvent)
| Lw_Signal (dropped : option (NativeSignal * PairAttempt * Z))
| Lw_Unconfirmed (a : ConnectionHandle) (stopped : option (AdapterId * option SessionId)).

Inductive Job : Type :=
| J_AdapterEvent (adapter : AdapterId) (event : AdapterEvent)
| J_LocalEvent (adapter : AdapterId) (event : AdapterEvent)
| J_LocalWork (adapter : AdapterId) (work : LocalWork)
| J_PeerWork
| J_AddAdapter (info : AdapterInfo)
| J_Connect (adapter : AdapterId) (observation : PeerObservation) (carrier : bool) (close_bound_ms : Z) (live_workers : Z)
| J_Disconnect (c : ConnectionHandle)
| J_Bind (a : ConnectionHandle) (record : RegistrationRecord) (display_name : option (list Z))
| J_Unbind (a : ConnectionHandle)
| J_ExpireNativeSignals
| J_Send (adapter : AdapterId) (a : ConnectionHandle) (request : SendRequest)
| J_Discover (adapter : AdapterId) (a : ConnectionHandle)
| J_Identity (adapter : AdapterId) (a : ConnectionHandle)
| J_Envelope (inbound : InboundPayload)
| J_DevicePayload (inbound : InboundPayload)
| J_Presence (event : PresenceEvent)
| J_RefreshPresence
| J_BeginDueAppearanceSet
| J_Pair (peer : PairedPeer)
| J_Unpair (key_id : KeyId)
| J_RetrySave
| J_AdmitStatement (statement : AgreementStatement)
| J_SetAgreementKeys (keys : AgreementKeys)
| J_WithEngine (f : Engine → Engine)
| J_Start
| J_Shutdown.

Definition pipe : Type → Type := prog World pcall Job.
#[export] Instance pipe_bind : MBind pipe := λ A B f m, then_do m f.

(** A panic ends the thread. *)
Definition or_panic {A} (o : option A) : pipe A := match o with Some a => Ret a | None => Spin end.

Definition monotonic : pipe Z := region (λ w, (w_mono w, w)).
Definition clock_now : pipe Timestamp := region (λ w, (w_clock w, w)).

Section Presence.
Context `{C : Crypto} `{HK : Hpke} `{MO : MapOrder} `{E : PipelineEnv}.

(** ** What a hold of the core lock applies first *)

(** [Inner::carriage]. *)
Definition carriage (c : Core) (device : KeyId) : option Carriage :=
  match c_transport_caps c with
  | Some caps =>
      if tc_sealing caps then (λ h, Ca_Sealed (hs_agreement_key h) (tc_max_payload_octets caps)) <$> agreements (c_engine c) !! device
      else Some Ca_Plain
  | None => None
  end.

(** The devices a session was announced to, and the announcements of other sessions. *)
Definition announced_devices (session : SessionId) (c : Core) : list KeyId :=
  map snd (List.filter (λ x, beq x.1 session) (map_keys (c_announced c))).
Definition retain_announced (p : SessionId * KeyId → bool) (m : gmap (SessionId * KeyId) Announced) : gmap (SessionId * KeyId) Announced :=
  filter (λ x, p x.1 = true) m.

(** What [unbind] and [apply_closure] do alike, under one hold of the lock: the session's tables
    go, and the withdrawal is issued for the devices it was announced to. *)
Definition end_own_session (session : SessionId) (now : Timestamp) (c : Core)
    : option Subscription * option PresenceRecord * list KeyId * Core :=
  let c := c <| c_sessions := delete session (c_sessions c) |> in
  let c := c <| c_engine := prune now (end_session session (c_engine c)).2 |> in
  let c := c <| c_registry := (deregister_own session (c_registry c)).2 |> in
  let sub := c_subscriptions c !! session in
  let c := c <| c_subscriptions := delete session (c_subscriptions c) |> in
  let devices := announced_devices session c in
  let c := c <| c_announced := retain_announced (λ x, negb (beq x.1 session)) (c_announced c) |> in
  let '(record, issuer) := withdraw session now true (c_issuer c) in
  (sub, record, devices, c <| c_issuer := issuer |>).

Definition apply_closure (attachment : ConnectionHandle) (adapter : AdapterId) (now : Timestamp) (c : Core) : option ClosureWork * Core :=
  if negb (bool_decide (c_connections c !! attachment = Some adapter)) then (None, c)
  else
    let session := e ← c_attachments c !! attachment; ae_session e in
    let c := c <| c_attachments := delete attachment (c_attachments c) |>
               <| c_connections := delete attachment (c_connections c) |>
               <| c_carriers := delete attachment (c_carriers c) |>
               <| c_pairing := windows_forget attachment (c_pairing c) |>
               <| c_observed := delete attachment (c_observed c) |> in
    match session with
    | None => (None, c)
    | Some session =>
        let '(sub, record, devices, c) := end_own_session session now c in
        (Some (sub, record, omap (λ d, pair d <$> carriage c d) devices), c)
    end.

(** [apply_closures]: each pending closure, in the order the map gives them. *)
Definition apply_one_closure (w : World) (x : ConnectionHandle * AdapterId) : World :=
  let '(work, c) := apply_closure x.1 x.2 (w_clock w) (w_core w) in
  let l := w_closures w in
  w <| w_core := c |>
    <| w_closures := l <| lc_pending := delete x.1 (lc_pending l) |>
                       <| lc_peer_work := lc_peer_work l ++ match work with Some x => [x] | None => [] end |> |>.

Definition apply_closures (w : World) : World := foldl apply_one_closure w (map_items (lc_pending (w_closures w))).

(** [announcement_taken], and the same step of [apply_tracking]. *)
Definition announcement_settled (session : SessionId) (device : KeyId) (at_ : Z) (result : PublishResult) (c : Core) : Core :=
  let pair := (session, device) in
  match c_announced c !! pair with
  | Some a =>
      if an_at a =? at_ then
        match result with
        | Taken => c <| c_announced := <[ pair := mkAnnounced (an_at a) true ]> (c_announced c) |>
        | NotTaken => c <| c_announced := delete pair (c_announced c) |>
        end
      else c
  | None => c
  end.

Definition apply_update (c : Core) (u : TrackingUpdate) : Core :=
  match u with
  | Tu_Passed key =>
      match c_trackers c !! key with
      | Some t => c <| c_trackers := <[ key := mkTrackerEntry (tracker_passed (te_tracker t)) (te_unread t) (te_reader t) ]> (c_trackers c) |>
      | None => c
      end
  | Tu_Untrack key => c <| c_trackers := delete key (c_trackers c) |>
  | Tu_Announcement session device at_ result => announcement_settled session device at_ result c
  end.

Definition apply_tracking (w : World) : World :=
  w <| w_core := foldl apply_update (w_core w) (w_tracking w) |> <| w_tracking := [] |>.

(** [Inner::lock] and a region under it. *)
Definition lock (w : World) : World := apply_tracking (apply_closures w).

Definition locked_world {B} (f : World → B * World) : pipe B := region (λ w, f (lock w)).
Definition on_core {B} (f : Core → B * Core) (w : World) : B * World :=
  let '(b, c) := f (w_core w) in (b, w <| w_core := c |>).
Definition locked {B} (f : Core → B * Core) : pipe B := locked_world (on_core f).
Definition reading {B} (f : Core → B) : pipe B := locked (λ c, (f c, c)).

(** [settle_tracking]: the update is recorded, and applied at once or by the core's next hold of
    the lock. *)
Definition settle_tracking (update : TrackingUpdate) : pipe unit :=
  region (λ w, (tt, w <| w_tracking := w_tracking w ++ [update] |>)) ≫= λ _,
  region (λ w, (tt, apply_tracking w)).

(** ** Payloads to the transport *)

Definition refresh_interval : Z := cf_presence_lifetime_ms pe_config * 2 / 5 * 1000000.

Definition deadline_at (unix : Z) : pipe Deadline :=
  now ← clock_now;
  let ahead := Z.min (Z.max (unix - unix_nanos now) 0) U64_MAX in
  mono ← monotonic;
  Ret (mono + ahead).

Definition control_deadline : pipe Deadline := mono ← monotonic; Ret (mono + cf_control_ttl pe_config).

Definition pass (carriage : Carriage) (device : KeyId) (destination : Destination) (payload : Payload) (deadline : Deadline)
    : pipe PublishResult :=
  match carriage with
  | Ca_Plain =>
      if bool_decide (pl_kind payload = PK_Presence) then call (X_SendPresence destination payload deadline)
      else call (X_Publish destination payload deadline)
  | Ca_Sealed key max =>
      rnd ← call (X_Random 32);
      rnd ← or_panic rnd;
      match seal rnd key (pl_kind payload) (pl_octets payload) max with
      | Ok frame => call (X_Publish (Dest_Device device) (mkPayload PK_Sealed frame) deadline)
      | Err _ => Ret NotTaken
      end
  end.

(** ** Announcements *)

(** [Inner::announcement]: what is issued, where [None] inside is a panic. *)
Definition announcement (session : SessionId) (device : KeyId) (mono : Z) (refresh : bool) (now : Timestamp) (c : Core)
    : option (option (Destination * Payload)) * Core :=
  match c_transport_caps c with
  | None => (None, c)
  | Some caps =>
      if negb (match tc_reach caps with CrossImplementation => true | LocalOnly => false end) || negb (tc_destination_restricted caps || tc_sealing caps) then (None, c)
      else
        let pair := (session, device) in
        let fresh := match c_announced c !! pair with Some a => an_taken a && (mono <? an_at a + refresh_interval) | None => false end in
        if negb refresh && fresh then (None, c)
        else
          let '(d, engine) := decide_at (Q_ReleasePresence session device) now (c_engine c) in
          let c := c <| c_engine := engine |> in
          if negb (permits d K_ReleasePresence) then (None, c)
          else
            match ow_descriptor <$> rr_own (c_registry c) !! session with
            | None => (None, c)
            | Some descriptor =>
                let '(record, issuer) := announce descriptor now mono (c_issuer c) in
                let c := c <| c_issuer := issuer |> in
                match record with
                | None => (None, c)
                | Some record =>
                    match presence_issue pe_identity record device with
                    | None => (Some None, c)
                    | Some issued =>
                        match apr_to_payload issued with
                        | None => (None, c)
                        | Some payload =>
                            let oldest :=
                              if negb (is_some (c_announced c !! pair)) &&
                                 (Z.max (cf_max_announcements pe_config) 1 <=? Z.of_nat (size (c_announced c)))
                              then fst <$> min_by_key (λ x, an_at x.2) (map_items (c_announced c)) else None in
                            let m := match oldest with Some k => delete k (c_announced c) | None => c_announced c end in
                            (Some (Some payload), c <| c_announced := <[ pair := mkAnnounced mono false ]> m |>)
                        end
                    end
                end
            end
  end.

(** The hold of the lock in [announce_to_noting]. *)
Definition announcement_region (session : SessionId) (device : KeyId) (mono : Z) (refresh : bool) (w : World)
    : option (option (Destination * Payload) * Carriage) * World :=
  match carriage (w_core w) device with
  | None => (None, w)
  | Some carriage =>
      let '(next, w) := on_core (announcement session device mono refresh (w_clock w)) w in
      ((λ p, (p, carriage)) <$> next, w)
  end.

(** [announce_to_noting], with [passing] as the program that runs just before the transport call. *)
Definition announce_to_noting {B} (session : SessionId) (device : KeyId) (refresh : bool) (nothing : B) (passing : Z → pipe B) : pipe B :=
  mono ← monotonic;
  next ← locked_world (announcement_region session device mono refresh);
  match next with
  | None => Ret nothing
  | Some (payload, carriage) =>
      '(destination, payload) ← or_panic payload;
      at_ ← monotonic;
      noted ← passing at_;
      deadline ← control_deadline;
      result ← pass carriage device destination payload deadline;
      locked (λ c, (noted, announcement_settled session device mono result c))
  end.

Definition announce_to (session : SessionId) (device : KeyId) (refresh : bool) : pipe unit :=
  announce_to_noting session device refresh tt (λ _, Ret tt).

(** The trusted keys but this device's own, in key order. *)
Definition peer_devices (c : Core) : list KeyId :=
  List.filter (λ k, negb (beq k own_key_id)) (map tk_key_id (values (ts_entries (trusted (c_engine c))))).

(** [announce_set]; the loop carries whether the set began. *)
Fixpoint announce_each (pairs : list (SessionId * KeyId)) (began : bool) : pipe bool :=
  match pairs with
  | [] => Ret began
  | (session, device) :: rest =>
      began ← announce_to_noting session device true began (λ at_,
        if began then Ret true
        else locked (λ c, (true, c <| c_appearances := first_passed at_ (c_appearances c) |>)));
      announce_each rest began
  end.

Definition announce_set : pipe unit :=
  '(sessions, devices) ← reading (λ c, (map_keys (c_sessions c), peer_devices c));
  began ← announce_each (flat_map (λ s, map (pair s) devices) sessions) false;
  if (began : bool) then Ret tt else locked (λ c, (tt, c <| c_appearances := settle_set (c_appearances c) |>)).

Definition on_carrier_appeared : pipe unit :=
  now ← monotonic;
  begin ← locked (λ c,
    let '(b, a) := decide_set now (mkAppearances (as_last_began (c_appearances c)) true (as_starting (c_appearances c))) in
    (b, c <| c_appearances := a |>));
  if (begin : bool) then announce_set else Ret tt.

(** [Pipelines::begin_due_appearance_set] and [next_appearance_set_at]. *)
Definition begin_due_appearance_set : pipe unit :=
  now ← monotonic;
  begin ← locked (λ c, let '(b, a) := decide_set now (c_appearances c) in (b, c <| c_appearances := a |>));
  if (begin : bool) then announce_set else Ret tt.

Definition next_appearance_set_at (now : Z) (a : AppearanceSets) : option Z :=
  if negb (as_uncovered a) || is_some (as_starting a) then None
  else Some (match as_last_began a with None => now | Some t => t + CARRIER_APPEARANCE_HOLD_OFF end).

(** [withdrawals_to]: the loop over the sessions announced to the device; [None] is a panic. *)
Fixpoint withdraw_sessions (sessions : list SessionId) (device : KeyId) (carriage : Carriage) (now : Timestamp) (issuer : PresenceIssuer)
    : option (list (Carriage * Destination * Payload)) * PresenceIssuer :=
  match sessions with
  | [] => (Some [], issuer)
  | session :: rest =>
      let '(record, issuer) := withdraw session now false issuer in
      match record with
      | None => withdraw_sessions rest device carriage now issuer
      | Some record =>
          match presence_issue pe_identity record device with
          | None => (None, issuer)
          | Some issued =>
              let '(l, issuer) := withdraw_sessions rest device carriage now issuer in
              ((λ l, match apr_to_payload issued with Some (d, p) => (carriage, d, p) :: l | None => l end) <$> l, issuer)
          end
      end
  end.

Definition withdrawals_to (device : KeyId) (now : Timestamp) (c : Core) : option (list (Carriage * Destination * Payload)) * Core :=
  let sessions := map fst (List.filter (λ x, beq x.2 device) (map_keys (c_announced c))) in
  let c := c <| c_announced := retain_announced (λ x, negb (beq x.2 device)) (c_announced c) |> in
  match carriage c device with
  | None => (Some [], c)
  | Some carriage =>
      let '(l, issuer) := withdraw_sessions sessions device carriage now (c_issuer c) in
      (l, c <| c_issuer := issuer |>)
  end.

Definition release_presence (session : SessionId) : pipe unit :=
  devices ← reading peer_devices;
  each devices (λ d, announce_to session d false).

(** [Pipelines::refresh_presence] and [next_presence_refresh_at]. *)
Definition refresh_presence : pipe unit :=
  now ← monotonic;
  due ← reading (λ c, map fst (List.filter (λ x, an_at x.2 + refresh_interval <=? now) (map_items (c_announced c))));
  each due (λ x, announce_to x.1 x.2 true).

Definition next_presence_refresh_at (c : Core) : option Z :=
  min_by_key id (map (λ x, an_at x.2 + refresh_interval) (map_items (c_announced c))).

End Presence.
