(* ===== verification/PipelineSignals.v ===== *)
(** * The pipelines: native signals and bindings ([core/src/pipeline.rs])

    How native signals are queued, paired, decided and dropped, what binds an attachment to a
    session and what ends the binding, and what an adapter's events do.  Each function is the
    sequence of the regions it runs under the core lock and of the calls between them. *)

From S2P Require Import Prelude Ordered Ids Json Delivery Capabilities Envelope Keys Agreement Trust Replay Receipt Receiver Sender.
From S2P Require Import Registration Pairing Authorization Transport Presence Registry PresenceAuth Sealing AgreementKeys.
From S2P Require Import IssuedPairing SessionBinding Concurrent PipelineData PipelinePresence.

Definition MAX_PENDING_CALLS : Z := 64.

(** [VecDeque::iter().position(..)] and [remove]. *)
Fixpoint take_first {A} (p : A → bool) (l : list A) : option (A * list A) :=
  match l with
  | [] => None
  | x :: rest => if p x then Some (x, rest) else '(y, rest') ← take_first p rest; Some (y, x :: rest')
  end.

Definition log (entry : BindingLogEntry) : pipe unit := call (X_Log entry).
Definition end_subscription (sub : Subscription) : pipe unit :=
  match sub with Some s => call (X_EndSubscription s) | None => Ret tt end.

(** [get_mut] on an attachment's entry. *)
Definition set_entry (a : ConnectionHandle) (e : AttachmentEntry) (c : Core) : Core :=
  c <| c_attachments := <[ a := e ]> (c_attachments c) |>.

Section Signals.
Context `{C : Crypto} `{HK : Hpke} `{MO : MapOrder} `{E : PipelineEnv}.

(** ** Pairing *)

Definition observed_pairing_key (c : Core) (a : ConnectionHandle) : option PairingKey := o ← c_observed c !! a; po_pairing_key o.

(** [Inner::observed_key]. *)
Definition observed_key (c : Core) (adapter : AdapterId) (signal : NativeSignal) : option PairingKey :=
  a ← opt_filter (λ a, bool_decide (c_connections c !! a = Some adapter)) (ns_connection signal);
  observed_pairing_key c a.

Definition is_candidate (c : Core) (adapter : AdapterId) (key : PairingKey) (narrowed : option ConnectionHandle)
    (x : ConnectionHandle * AttachmentEntry) : bool :=
  match narrowed with None => true | Some n => n =? x.1 end &&
  bool_decide (ae_adapter x.2 = adapter) && ae_open x.2 && bool_decide (observed_pairing_key c x.1 = Some key).

Definition pair_by_key (c : Core) (adapter : AdapterId) (key : PairingKey) (narrowed : option ConnectionHandle) : PairAttempt :=
  match List.filter (is_candidate c adapter key narrowed) (map_items (c_attachments c)) with
  | [] => Pt_NotYet key
  | [one] => Pt_Paired one.1
  | many => Pt_Unpairable (map fst (List.filter (λ x, is_some (ae_session x.2)) many))
  end.

Definition pair_signal (c : Core) (adapter : AdapterId) (key : option PairingKey) (narrowed : option ConnectionHandle) : PairAttempt :=
  match key with
  | None => Pt_Unpairable []
  | Some key =>
      match pair_by_key c adapter key narrowed, narrowed with
      | Pt_NotYet _, Some _ => Pt_Unpairable []
      | attempt, _ => attempt
      end
  end.

Definition attempt (c : Core) (adapter : AdapterId) (key : option PairingKey) (reveal : Reveal) : PairAttempt :=
  match reveal with
  | Re_Rejected requirement => Pt_Rejected requirement
  | Re_Conflict a => Pt_Conflict a
  | reveal => pair_signal c adapter key (narrow reveal)
  end.

Definition classify_reveal (adapter : AdapterId) (signal : NativeSignal) (key : option PairingKey) (now : Z) (c : Core) : Reveal * Core :=
  match ns_revealed signal with
  | None => (Re_None, c)
  | Some value =>
      let on_carrier := match ns_connection signal with Some x => bool_decide (c_carriers c !! x = Some adapter) | None => false end in
      match on_carrier, key with
      | true, Some key =>
          let acceptable a :=
            match c_attachments c !! a with Some e => bool_decide (ae_adapter e = adapter) && ae_open e | None => false end &&
            bool_decide (observed_pairing_key c a = Some key) in
          let '(outcome, pairing) := reveal value (ns_native_id signal) now acceptable (c_pairing c) in
          (match outcome with
           | Rv_Fresh a => Re_Issued a
           | Rv_Conflict a => Re_Conflict a
           | Rv_Ended _ => Re_Rejected "MCPB-ATT-009"
           | Rv_Replayed _ => Re_Rejected "MCPB-ATT-010"
           | Rv_Refused _ => Re_Rejected "MCPB-ATT-022"
           | Rv_Unknown => Re_Rejected "MCPB-ATT-007"
           end, c <| c_pairing := pairing |>)
      | _, _ => (Re_Rejected "MCPB-ATT-006", c)
      end
  end.

(** [pairing_value_for]; [shut] are the handles that are closed. *)
Definition pairing_value_for (adapter : AdapterId) (a : ConnectionHandle) (now : Z) (random : option (list Z)) (shut : gset ConnectionHandle)
    (c : Core) : option (list Z) * Core :=
  let carried key :=
    existsb (λ x, bool_decide (x.2 = adapter) && bool_decide (c_connections c !! x.1 = Some adapter) &&
                  bool_decide (observed_pairing_key c x.1 = Some key)) (map_items (c_carriers c)) in
  match c_attachments c !! a with
  | None => (None, c)
  | Some e =>
      if negb (bool_decide (ae_adapter e = adapter)) || negb (ae_open e) || bool_decide (a ∈ shut) then (None, c)
      else
        match observed_pairing_key c a with
        | None => (None, c)
        | Some key =>
            if negb (carried key) then (None, c)
            else let '(v, pairing) := issue a now random (c_pairing c) in (v, c <| c_pairing := pairing |>)
        end
  end.

(** ** The queue *)

Definition pending_victim (c : Core) (h : SignalHolder) : option Z :=
  fair_share_victim (map (λ h, (Sh_Key (hg_adapter h) (hg_key h), hg_seq h)) (c_held c) ++
                     map (λ q, (holder q, qs_seq q)) (c_signals c)) h.

Definition take_pending (seq : Z) (c : Core) : option (NativeSignal * PairAttempt * Z) * Core :=
  match take_first (λ h, hg_seq h =? seq) (c_held c) with
  | Some (h, rest) =>
      let c := c <| c_held := rest |> in
      (Some (hg_signal h, pair_by_key c (hg_adapter h) (hg_key h) None, seq), c)
  | None =>
      match take_first (λ q, qs_seq q =? seq) (c_signals c) with
      | Some (q, rest) =>
          let c := c <| c_signals := rest |> in
          (Some (qs_signal q, attempt c (qs_adapter q) (qs_key q) (qs_reveal q), seq), c)
      | None => (None, c)
      end
  end.

(** The next arrival number, a [u64]; [None] is the [expect] on its overflow. *)
Definition next_seq_after (seq : Z) : option Z := then_some (seq + 1 <=? U64_MAX) (seq + 1).

(** [queue_signal]; [None] outside is a panic. *)
Definition queue_signal (adapter : AdapterId) (signal : NativeSignal) (now : Z) (c : Core)
    : option (option (NativeSignal * PairAttempt * Z)) * Core :=
  let key := observed_key c adapter signal in
  let '(reveal, c) := classify_reveal adapter signal key now c in
  let seq := c_next_signal_seq c in
  match next_seq_after seq with
  | None => (None, c)
  | Some next =>
      let c := c <| c_next_signal_seq := next |> in
      match reveal with
      | Re_Rejected requirement => (Some (Some (signal, Pt_Rejected requirement, seq)), c)
      | _ =>
          let queued := mkQueued adapter signal key seq reveal in
          let push c := c <| c_signals := c_signals c ++ [queued] |> in
          if Z.of_nat (length (c_signals c) + length (c_held c)) <? Z.max (cf_max_pending_signals pe_config) 1 then (Some None, push c)
          else
            match pending_victim c (holder queued) with
            | Some victim => let '(dropped, c) := take_pending victim c in (Some dropped, push c)
            | None => (Some (Some (signal, attempt c adapter key reveal, seq)), c)
            end
      end
  end.

(** ** Withholding *)

Definition stop_unconfirmed (adapter : AdapterId) (a : ConnectionHandle) (c : Core) : option (option (AdapterId * option SessionId)) * Core :=
  match opt_filter (λ e, bool_decide (ae_adapter e = adapter)) (c_attachments c !! a) with
  | None => (Some None, c)
  | Some e =>
      let seq := c_next_signal_seq c in
      match next_seq_after seq with
      | None => (None, c)
      | Some next =>
          let e := e <| ae_withheld_by := Some (withheld_until_after (ae_withheld_by e) seq) |> in
          let e := if is_some (ae_session e) then e <| ae_withheld := true |> else e in
          (Some (Some (adapter, ae_session e)), set_entry a e (c <| c_next_signal_seq := next |>))
      end
  end.

Definition finish_unconfirmed (a : ConnectionHandle) (stopped : option (AdapterId * option SessionId)) : pipe unit :=
  match stopped with
  | None => Ret tt
  | Some (adapter, session) =>
      (if is_some session then call (X_SetBinding adapter a None) else Ret tt) ≫= λ _,
      log (mkLogEntry (finding "IFC-ADP-093") Br_FailedClosed (Some a) session)
  end.

Definition withhold_region (a : ConnectionHandle) (seq : Z) (c : Core) : option (AdapterId * SessionId) * Core :=
  match c_attachments c !! a with
  | None => (None, c)
  | Some e =>
      if match ae_paired_seq e with Some p => seq <? p | None => false end then (None, c)
      else
        let e := e <| ae_withheld_by := Some (withheld_until_after (ae_withheld_by e) seq) |> in
        match ae_session e with
        | None => (None, set_entry a e c)
        | Some s => (Some (ae_adapter e, s), set_entry a (e <| ae_withheld := true |>) c)
        end
  end.

Definition withhold (a : ConnectionHandle) (seq : Z) : pipe unit :=
  stopped ← locked (withhold_region a seq);
  match stopped with
  | None => Ret tt
  | Some (adapter, session) =>
      call (X_SetBinding adapter a None) ≫= λ _,
      log (mkLogEntry (finding "SC-ID-154") Br_FailedClosed (Some a) (Some session))
  end.

Definition release_region (a : ConnectionHandle) (seq : Z) (c : Core) : option (AdapterId * SessionId) * Core :=
  match c_attachments c !! a with
  | None => (None, c)
  | Some e =>
      if negb (answers (ae_withheld_by e) (Some seq)) then (None, c)
      else
        let e := e <| ae_withheld_by := None |> in
        if negb (ae_withheld e) then (None, set_entry a e c)
        else
          let e := e <| ae_withheld := false |> in
          (pair (ae_adapter e) <$> ae_session e, set_entry a e c)
  end.

Definition release_withheld (a : ConnectionHandle) (seq : Z) : pipe unit :=
  released ← locked (release_region a seq);
  match released with
  | Some (adapter, session) => call (X_SetBinding adapter a (Some session))
  | None => Ret tt
  end.

Definition log_decision (d : BindingDecision ConnectionHandle) (a : option ConnectionHandle) (session : option SessionId) : pipe unit :=
  each (bd_records d) (λ r, log (mkLogEntry r (bd_result d) a session)).

(** ** The end of a binding *)

(** The two holds of the lock in [unbind]. *)
Definition unbind_read (a : ConnectionHandle) (c : Core) : option (AdapterId * SessionId) :=
  e ← c_attachments c !! a; pair (ae_adapter e) <$> ae_session e.

(** The withdrawals for the devices with a carriage; [None] is a panic. *)
Fixpoint issue_withdrawals (devices : list KeyId) (record : PresenceRecord) (c : Core)
    : option (list (KeyId * Carriage * Destination * Payload)) :=
  match devices with
  | [] => Some []
  | d :: rest =>
      match carriage c d with
      | None => issue_withdrawals rest record c
      | Some ca =>
          issued ← presence_issue pe_identity record d;
          l ← issue_withdrawals rest record c;
          Some (match apr_to_payload issued with Some (dest, p) => (d, ca, dest, p) :: l | None => l end)
      end
  end.

Definition unbind_write (a : ConnectionHandle) (session : SessionId) (now : Timestamp) (c : Core)
    : option (option Subscription * list (KeyId * Carriage * Destination * Payload)) * Core :=
  let c :=
    match c_attachments c !! a with
    | Some e => set_entry a (e <| ae_session := None |> <| ae_native_id := None |> <| ae_withheld := false |>) c
    | None => c
    end in
  let '(sub, record, devices, c) := end_own_session session now c in
  (pair sub <$> match record with Some record => issue_withdrawals devices record c | None => Some [] end, c).

Definition unbind (a : ConnectionHandle) : pipe unit :=
  bound ← reading (unbind_read a);
  match bound with
  | None => Ret tt
  | Some (adapter, session) =>
      out ← locked_world (λ w, on_core (unbind_write a session (w_clock w)) w);
      '(sub, withdrawals) ← or_panic out;
      call (X_SetBinding adapter a None) ≫= λ _,
      (match sub with Some s => end_subscription s | None => Ret tt end) ≫= λ _,
      each withdrawals (λ '(d, ca, dest, p), deadline ← control_deadline; pass ca d dest p deadline ≫= λ _, Ret tt)
  end.

Definition bound_session (a : ConnectionHandle) (c : Core) : option SessionId := e ← c_attachments c !! a; ae_session e.

Definition end_conflicted (a : ConnectionHandle) : pipe unit :=
  session ← reading (bound_session a);
  unbind a ≫= λ _,
  log (mkLogEntry (finding "MCPB-ATT-012") Br_FailedClosed (Some a) session).

Definition mark_closed (a : ConnectionHandle) (c : Core) : Core :=
  match c_attachments c !! a with Some e => set_entry a (e <| ae_open := false |>) c | None => c end.

Definition remove_connection (x : ConnectionHandle) (w : World) : World :=
  let c := w_core w in
  let c := c <| c_attachments := delete x (c_attachments c) |> <| c_connections := delete x (c_connections c) |>
             <| c_carriers := delete x (c_carriers c) |> <| c_pairing := windows_forget x (c_pairing c) |>
             <| c_observed := delete x (c_observed c) |> in
  let l := w_closures w in
  w <| w_core := c |> <| w_closures := l <| lc_connections := delete x (lc_connections l) |> |>.

Definition end_connection (x : ConnectionHandle) : pipe unit :=
  locked (λ c, (tt, mark_closed x c)) ≫= λ _,
  unbind x ≫= λ _,
  locked_world (λ w, (tt, remove_connection x w)).

(** [drop_signal]. *)
Definition attributed_to (t : PairAttempt) : list ConnectionHandle :=
  match t with Pt_Paired a => [a] | Pt_Unpairable bound => bound | _ => [] end.

Definition drop_signal (signal : NativeSignal) (t : PairAttempt) (seq : Z) : pipe unit :=
  match t with
  | Pt_Rejected requirement => log (mkLogEntry (diagnostic requirement) Br_Dropped None None)
  | Pt_Conflict a => end_conflicted a
  | _ =>
      log_decision (decide_binding [] signal Pg_WindowExpired) None None ≫= λ _,
      each (attributed_to t) (λ a, withhold a seq)
  end.
End Signals.
