(* ===== verification/PipelineBinding.v ===== *)
(** * The pipelines: binding and adapter events ([core/src/pipeline.rs])

    The binding of an attachment to a registered session, the decision of one signal and the
    pass over the pending signals under the binding turn, and what an adapter's events and the
    daemon's connections do. *)

From S2P Require Import Prelude Ordered Ids Json Delivery Capabilities Envelope Keys Agreement Trust Replay Receipt Receiver Sender.
From S2P Require Import Registration Pairing Authorization Transport Presence Registry PresenceAuth Sealing AgreementKeys.
From S2P Require Import IssuedPairing SessionBinding Concurrent PipelineData PipelinePresence PipelineSignals.

Definition is_shut (a : ConnectionHandle) : pipe bool := region (λ w, (bool_decide (a ∈ w_shut w), w)).

Section Binding.
Context `{C : Crypto} `{HK : Hpke} `{MO : MapOrder} `{E : PipelineEnv}.

(** ** Declarations *)

(** [envelope_limit] and [declared_limit]. *)
Definition envelope_limit (caps : option TransportCapabilities) : option Z :=
  (λ c, Z.max (tc_max_payload_octets c - FRAME_OVERHEAD) 0) <$> opt_filter tc_sealing caps.

Definition declared_limit (stated limit : option Z) : option Z :=
  match stated, limit with Some m, Some l => Some (Z.min m l) | m, _ => m end.

(** What [descriptor_for] and [capabilities_changed] declare alike. *)
Definition declaration_of (caps : AdapterCapabilities) (limit : option Z) : option SessionCapabilities :=
  let entry := CapabilitiesEntry_new IMPLEMENTED_VERSION (ac_active_inbound caps) in
  entry ← match ac_content_types caps with [] => Some entry | types => with_content_types entry types end;
  entry ← match declared_limit (ac_max_envelope_octets caps) limit with
          | Some m => with_max_envelope_octets entry m
          | None => Some entry
          end;
  declare [(EXTENSION_ID_V0, entry)].

Definition descriptor_for (adapter : AdapterId) (a : ConnectionHandle) (record : RegistrationRecord) (display_name : option (list Z))
    (limit : option Z) : pipe (result PipelineError SessionDescriptor) :=
  caps ← call (X_Capabilities adapter a);
  match caps with
  | None => Ret (Err Pe_InvalidCapabilities)
  | Some caps =>
      closed ← is_shut a;
      if (closed : bool) then Ret (Err Pe_InvalidCapabilities)
      else
        Ret (ok_or (declaration ← declaration_of caps limit;
                    SessionDescriptor_new (rg_session_id record) declaration display_name (Some (rg_harness_label record)))
               Pe_InvalidCapabilities)
  end.

(** ** Binding *)

(** The two holds of the lock in [bind_record]. *)
Definition bind_check (a : ConnectionHandle) (sid : SessionId) (c : Core)
    : result PipelineError (AdapterId * option TransportCapabilities) :=
  match opt_filter ae_open (c_attachments c !! a) with
  | None => Err Pe_UnknownAttachment
  | Some e =>
      if is_some (ae_session e) || is_some (c_sessions c !! sid) then Err Pe_AlreadyBound
      else Ok (ae_adapter e, c_transport_caps c)
  end.

Definition bind_write (a : ConnectionHandle) (record : RegistrationRecord) (descriptor : SessionDescriptor) (sub : Subscription)
    (seq : option Z) (c : Core) : result PipelineError bool * Core :=
  let sid := rg_session_id record in
  match opt_filter (λ e, ae_open e && negb (is_some (ae_session e))) (c_attachments c !! a) with
  | None => (Err Pe_AlreadyBound, c)
  | Some e =>
      if is_some (c_sessions c !! sid) then (Err Pe_AlreadyBound, c)
      else
        let '(registered, engine) := register_session record pe_identity (c_engine c) in
        let c := c <| c_engine := engine |> in
        if negb registered then (Err Pe_InvalidRegistration, c)
        else
          let c := c <| c_registry := register_own descriptor (c_registry c) |>
                     <| c_sessions := <[ sid := a ]> (c_sessions c) |>
                     <| c_subscriptions := <[ sid := sub ]> (c_subscriptions c) |> in
          let by_ := if answers (ae_withheld_by e) seq then None else ae_withheld_by e in
          let e := e <| ae_session := Some sid |> <| ae_native_id := Some (native_id record) |>
                     <| ae_withheld_by := by_ |> <| ae_withheld := is_some by_ |> in
          (Ok (ae_withheld e), set_entry a e c)
  end.

Definition bind_record (a : ConnectionHandle) (record : RegistrationRecord) (display_name : option (list Z)) (seq : option Z)
    : pipe (result PipelineError unit) :=
  let sid := rg_session_id record in
  checked ← reading (bind_check a sid);
  match checked with
  | Err e => Ret (Err e)
  | Ok (adapter, caps) =>
      descriptor ← descriptor_for adapter a record display_name (envelope_limit caps);
      match descriptor with
      | Err e => Ret (Err e)
      | Ok descriptor =>
          sub ← (if match caps with Some c => tc_sealing c | None => false end then Ret (Ok None)
                 else r ← call (X_Subscribe (Dest_Session sid));
                      Ret (match r with Ok s => Ok (Some s) | Err e => Err (Pe_Transport e) end));
          match (sub : result PipelineError Subscription) with
          | Err e => Ret (Err e)
          | Ok sub =>
              bound ← locked (bind_write a record descriptor sub seq);
              match bound with
              | Err e => end_subscription sub ≫= λ _, Ret (Err e)
              | Ok withheld =>
                  (if (withheld : bool) then log (mkLogEntry (finding "SC-ID-154") Br_FailedClosed (Some a) (Some sid))
                   else call (X_SetBinding adapter a (Some sid))) ≫= λ _,
                  release_presence sid ≫= λ _, Ret (Ok tt)
              end
          end
      end
  end.

(** The scope and the fresh session id under one hold of the lock; [draws] are what
    [fresh_session_id] gives, and [None] stands for no draw being free. *)
Definition fresh_scope (a : ConnectionHandle) (draws : list SessionId) (c : Core) : option (Token * list Z) * option SessionId :=
  (o ← c_observed c !! a; label ← po_harness_label o; wd ← po_working_directory o; Some (label, wd),
   List.find (λ sid, negb (is_some (c_sessions c !! sid))) draws).

Definition bind_from_signal (a : ConnectionHandle) (native : list Z) (seq : Z) : pipe unit :=
  draws ← call X_SessionIds;
  '(scope, sid) ← reading (fresh_scope a draws);
  sid ← or_panic sid;
  record ← match (scope : option (Token * list Z)) with
           | None => Ret None
           | Some (label, wd) =>
               now ← clock_now;
               match register pe_identity sid label native wd now with
               | None => Ret None
               | Some record => r ← or_panic record; Ret (Some r)
               end
           end;
  bound ← match record with
          | None => Ret false
          | Some record => r ← bind_record a record None (Some seq); Ret (match r with Ok _ => true | Err _ => false end)
          end;
  if (bound : bool) then Ret tt
  else log (mkLogEntry (diagnostic "SC-ID-009") Br_FailedClosed (Some a) None).

(** ** The decision of one signal *)

Definition attachment_states (c : Core) (adapter : AdapterId) : list (AttachmentState ConnectionHandle) :=
  map (λ x, mkAttachmentState x.1 (ae_cross_check x.2)
              (s ← ae_session x.2; n ← ae_native_id x.2; Some (mkNative n s)))
    (List.filter (λ x, bool_decide (ae_adapter x.2 = adapter) && ae_open x.2) (map_items (c_attachments c))).

Definition is_superseded (adapter : AdapterId) (key : PairingKey) (seq : Z) (h : HeldSignal) : bool :=
  bool_decide (hg_adapter h = adapter) && beq (hg_key h) key && (hg_seq h <? seq).

Definition supersede_region (adapter : AdapterId) (a : ConnectionHandle) (seq : Z) (c : Core) : list HeldSignal * Core :=
  let c :=
    match c_attachments c !! a with
    | Some e => set_entry a (e <| ae_paired_seq := Some (match ae_paired_seq e with None => seq | Some p => Z.max p seq end) |>) c
    | None => c
    end in
  match observed_pairing_key c a with
  | Some key =>
      (List.filter (is_superseded adapter key seq) (c_held c),
       c <| c_held := List.filter (λ h, negb (is_superseded adapter key seq h)) (c_held c) |>)
  | None => ([], c)
  end.

Definition decide_region (adapter : AdapterId) (signal : NativeSignal) (pairing : Pairing ConnectionHandle) (c : Core)
    : BindingDecision ConnectionHandle * option SessionId :=
  (decide_binding (attachment_states c adapter) signal pairing,
   match pairing with Pg_Paired a => bound_session a c | _ => None end).

Definition resolve_paired (adapter : AdapterId) (signal : NativeSignal) (pairing : Pairing ConnectionHandle)
    (attributed : list ConnectionHandle) (seq : Z) : pipe unit :=
  let paired := match pairing with Pg_Paired a => Some a | _ => None end in
  match paired with
  | Some a =>
      superseded ← locked (supersede_region adapter a seq);
      each superseded (λ h, drop_signal (hg_signal h) (Pt_Unpairable []) (hg_seq h))
  | None => Ret tt
  end ≫= λ _,
  '(decision, session) ← reading (decide_region adapter signal pairing);
  log_decision decision paired session ≫= λ _,
  each attributed (λ a, withhold a seq) ≫= λ _,
  match bd_action decision with
  | Ba_None => Ret tt
  | Ba_Deregister a => unbind a
  | Ba_Bind a native deregister_first =>
      (if (deregister_first : bool) then unbind a else Ret tt) ≫= λ _,
      bind_from_signal a native seq
  end ≫= λ _,
  match paired with
  | Some a => release_withheld a seq
  | None => Ret tt
  end.

Definition resolve (adapter : AdapterId) (signal : NativeSignal) (t : PairAttempt) (seq : Z) : pipe unit :=
  match t with
  | Pt_Paired a => resolve_paired adapter signal (Pg_Paired a) [] seq
  | Pt_Unpairable bound => resolve_paired adapter signal Pg_Unpairable bound seq
  | Pt_NotYet _ | Pt_Rejected _ | Pt_Conflict _ => Ret tt
  end.

(** ** The pass over the pending signals *)

Definition expire_region (now : Z) (c : Core) : (list (HeldSignal * PairAttempt) * nat) * Core :=
  let expired h := hg_held_at h + cf_native_signal_window pe_config <=? now in
  let gone := List.filter expired (c_held c) in
  let c := c <| c_held := List.filter (λ h, negb (expired h)) (c_held c) |> in
  ((map (λ h, (h, pair_by_key c (hg_adapter h) (hg_key h) None)) gone, length (c_signals c)), c).

Definition held_region (seq : Z) (c : Core) : option (HeldSignal * PairAttempt) * Core :=
  match take_first (λ h, hg_seq h =? seq) (c_held c) with
  | None => (None, c)
  | Some (h, rest) =>
      match pair_by_key c (hg_adapter h) (hg_key h) None with
      | Pt_NotYet _ => (None, c)
      | t => (Some (h, t), c <| c_held := rest |>)
      end
  end.

Definition pop_signal (c : Core) : option QueuedSignal * Core :=
  match c_signals c with
  | [] => (None, c)
  | q :: rest => (Some q, c <| c_signals := rest |>)
  end.

(** One signal taken from the front of the queue. *)
Definition decide_queued (now : Z) (q : QueuedSignal) : pipe unit :=
  t ← reading (λ c, attempt c (qs_adapter q) (qs_key q) (qs_reveal q));
  match t with
  | Pt_Rejected _ | Pt_Conflict _ => drop_signal (qs_signal q) t (qs_seq q)
  | _ =>
      (match qs_reveal q, t with
       | Re_Issued _, Pt_Paired a => locked (λ c, (tt, c <| c_pairing := windows_paired a (c_pairing c) |>))
       | _, _ => Ret tt
       end) ≫= λ _,
      match t with
      | Pt_NotYet key =>
          locked (λ c, (tt, c <| c_held := c_held c ++ [mkHeldSignal (qs_adapter q) (qs_signal q) key now (qs_seq q)] |>))
      | t => resolve (qs_adapter q) (qs_signal q) t (qs_seq q)
      end
  end.

Fixpoint decide_front (n : nat) (now : Z) : pipe unit :=
  match n with
  | 0%nat => Ret tt
  | S n =>
      q ← locked pop_signal;
      match q with
      | None => Ret tt
      | Some q => decide_queued now q ≫= λ _, decide_front n now
      end
  end.

Definition binding_pass : pipe unit :=
  region (λ w, (tt, w <| w_repair_needed := false |>)) ≫= λ _,
  now ← monotonic;
  '(expired, queued) ← locked (expire_region now);
  each expired (λ '(h, t), drop_signal (hg_signal h) t (hg_seq h)) ≫= λ _,
  held ← reading (λ c, map hg_seq (c_held c));
  each held (λ seq,
    decided ← locked (held_region seq);
    match decided with
    | Some (h, t) => resolve (hg_adapter h) (hg_signal h) t (hg_seq h)
    | None => Ret tt
    end) ≫= λ _,
  decide_front queued now.

(** [drain_binding], followed for at most [passes] passes. *)
Fixpoint drain_binding (passes : nat) : pipe unit :=
  match passes with
  | 0%nat => Spin
  | S n =>
      TryTurn (λ got : bool,
        if got then
          binding_pass ≫= λ _,
          GiveTurn (
            empty ← reading (λ c, bool_decide (c_signals c = []));
            if (empty : bool) then
              repair ← region (λ w, (w_repair_needed w, w));
              if (repair : bool) then drain_binding n else Ret tt
            else drain_binding n)
        else Ret tt)
  end.

Definition after_queued_signal (passes : nat) (dropped : option (NativeSignal * PairAttempt * Z)) : pipe unit :=
  match dropped with
  | Some (s, t, seq) => drop_signal s t seq
  | None => Ret tt
  end ≫= λ _,
  drain_binding passes.
End Binding.
