(* ===== verification/PipelineEvents.v ===== *)
(** * The pipelines: adapter events and connections ([core/src/pipeline.rs])

    What an adapter's events do, on the thread that reports them and on the worker that
    finishes them; the closing of a local connection; and how the daemon adds adapters and
    gives them connections. *)

From S2P Require Import Prelude Ordered Ids Json Delivery Capabilities Envelope Keys Agreement Trust Replay Receipt Receiver Sender.
From S2P Require Import Registration Pairing Authorization Transport Presence Registry PresenceAuth Sealing AgreementKeys.
From S2P Require Import IssuedPairing SessionBinding Concurrent PipelineData PipelinePresence PipelineSignals PipelineBinding.

Section Events.
Context `{C : Crypto} `{HK : Hpke} `{MO : MapOrder} `{E : PipelineEnv}.

(** What [capabilities_changed] reads, and the descriptor it declares. *)
Definition declared_session (adapter : AdapterId) (a : ConnectionHandle) (c : Core) : option (SessionId * SessionDescriptor * option Z) :=
  e ← opt_filter (λ e, bool_decide (ae_adapter e = adapter)) (c_attachments c !! a);
  s ← ae_session e;
  own ← rr_own (c_registry c) !! s;
  Some (s, ow_descriptor own, envelope_limit (c_transport_caps c)).

Definition updated_descriptor (session : SessionId) (descriptor : SessionDescriptor) (caps : AdapterCapabilities) (limit : option Z)
    : option SessionDescriptor :=
  declaration ← declaration_of caps limit;
  SessionDescriptor_new session declaration (display_name descriptor) (harness_label descriptor).

Definition capabilities_changed (adapter : AdapterId) (a : ConnectionHandle) : pipe unit :=
  found ← reading (declared_session adapter a);
  match found with
  | None => Ret tt
  | Some (session, descriptor, limit) =>
      caps ← call (X_Capabilities adapter a);
      match caps with
      | None => Ret tt
      | Some caps =>
          closed ← is_shut a;
          if (closed : bool) then Ret tt
          else
            match updated_descriptor session descriptor caps limit with
            | None => Ret tt
            | Some updated =>
                devices ← locked (λ c, let c := c <| c_registry := register_own updated (c_registry c) |> in (announced_devices session c, c));
                each devices (λ d, announce_to session d true)
            end
      end
  end.

(** The entry an [attachment-opened] event adds for a connection given to the adapter. *)
Definition open_attachment (adapter : AdapterId) (a : ConnectionHandle) (cross_check : option (list Z)) (c : Core) : Core :=
  if bool_decide (c_connections c !! a = Some adapter) && negb (is_some (c_attachments c !! a))
  then set_entry a (opened_entry adapter cross_check) c else c.

Definition on_adapter_event (passes : nat) (adapter : AdapterId) (event : AdapterEvent) : pipe unit :=
  match event with
  | Ae_AttachmentOpened a cross_check =>
      locked (λ c, (tt, open_attachment adapter a cross_check c)) ≫= λ _,
      region (λ w, (tt, w <| w_repair_needed := true |>)) ≫= λ _,
      drain_binding passes
  | Ae_AttachmentClosed a =>
      owned ← reading (λ c, match c_attachments c !! a with Some e => bool_decide (ae_adapter e = adapter) | None => false end);
      if (owned : bool) then end_connection a else Ret tt
  | Ae_CapabilitiesChanged a => capabilities_changed adapter a
  | Ae_AttachmentUnconfirmed a =>
      stopped ← locked (stop_unconfirmed adapter a);
      stopped ← or_panic stopped;
      finish_unconfirmed a stopped
  | Ae_NativeSignal signal =>
      now ← monotonic;
      dropped ← locked (queue_signal adapter signal now);
      dropped ← or_panic dropped;
      after_queued_signal passes dropped
  end.

(** The worker for a closed connection: the closure is materialized, and its withdrawals are
    passed. *)
Definition peer_work : pipe unit :=
  locked (λ c, (tt, c)) ≫= λ _,
  work ← region (λ w, let l := w_closures w in (lc_peer_work l, w <| w_closures := l <| lc_peer_work := [] |> |>));
  each work (λ '(sub, record, audiences),
    (match (sub : option Subscription) with Some s => end_subscription s | None => Ret tt end) ≫= λ _,
    match (record : option PresenceRecord) with
    | None => Ret tt
    | Some record =>
        each audiences (λ '(device, ca),
          issued ← or_panic (presence_issue pe_identity record device);
          match apr_to_payload issued with
          | None => Ret tt
          | Some (destination, payload) =>
              deadline ← control_deadline;
              pass ca device destination payload deadline ≫= λ _, Ret tt
          end)
    end).

(** What [on_local_adapter_event] commits under the core lock; [None] is a panic. *)
Definition local_event_commit (adapter : AdapterId) (event : AdapterEvent) (mono : Z) (c : Core) : option LocalWork * Core :=
  let c := match event with Ae_AttachmentOpened a cross_check => open_attachment adapter a cross_check c | _ => c end in
  match event with
  | Ae_AttachmentUnconfirmed a =>
      let '(stopped, c) := stop_unconfirmed adapter a c in (Lw_Unconfirmed a <$> stopped, c)
  | Ae_NativeSignal signal =>
      let '(dropped, c) := queue_signal adapter signal mono c in (Lw_Signal <$> dropped, c)
  | event => (Some (Lw_Event event), c)
  end.

(** The region of [on_local_adapter_event]: the worker's place, and the commit unless the call
    was stopped.  The result is [None] when no worker starts, [Some None] for a panic. *)
Definition local_event_region (adapter : AdapterId) (event : AdapterEvent) (stop : option LocalStop) (w : World)
    : option (option LocalWork) * World :=
  if MAX_PENDING_CALLS <=? w_local_workers w then (None, w)
  else
    match stop with
    | Some _ => (None, w)
    | None =>
        let w := w <| w_local_workers := w_local_workers w + 1 |> in
        let '(work, w) := on_core (local_event_commit adapter event (w_mono w)) w in
        (Some work, w)
    end.

(** A closure is recorded beside the core lock. *)
Definition record_closure (adapter : AdapterId) (a : ConnectionHandle) (w : World) : bool * World :=
  let l := w_closures w in
  if bool_decide (lc_connections l !! a = Some adapter)
  then (true, w <| w_closures := l <| lc_connections := delete a (lc_connections l) |> <| lc_pending := <[ a := adapter ]> (lc_pending l) |> |>)
  else (false, w).

Definition on_local_adapter_event (adapter : AdapterId) (event : AdapterEvent) : pipe unit :=
  match event with
  | Ae_AttachmentClosed a =>
      recorded ← region (record_closure adapter a);
      call X_Commit ≫= λ _,
      if (recorded : bool) then Spawn J_PeerWork (Ret tt) else Ret tt
  | event =>
      stop ← call X_LocalLock;
      match stop with
      | Some _ => Ret tt
      | None =>
          stop ← call X_Commit;
          work ← locked_world (local_event_region adapter event stop);
          match work with
          | None => Ret tt
          | Some work => work ← or_panic work; Spawn (J_LocalWork adapter work) (Ret tt)
          end
      end
  end.

Definition local_work (passes : nat) (adapter : AdapterId) (work : LocalWork) : pipe unit :=
  match work with
  | Lw_Event event => on_adapter_event passes adapter event
  | Lw_Signal dropped => after_queued_signal passes dropped
  | Lw_Unconfirmed a stopped => finish_unconfirmed a stopped
  end ≫= λ _,
  region (λ w, (tt, w <| w_local_workers := w_local_workers w - 1 |>)).

(** ** Adapters and connections *)

Definition add_adapter (info : AdapterInfo) : pipe AdapterId :=
  locked (λ c, (length (c_adapters c), c <| c_adapters := c_adapters c ++ [info] |>)).

(** [connect_designated] under the lock.  The number of the connection's handle, which only
    tells connections apart, is drawn here; [live_workers] is the number of peer workers that
    have not finished. *)
Definition connect_region (adapter : AdapterId) (observation : PeerObservation) (carrier : bool)
    (close_bound_ms live_workers : Z) (w : World) : result PipelineError ConnectionHandle * World :=
  let c := w_core w in
  let handle := w_next_handle w in
  let w := w <| w_next_handle := handle + 1 |> in
  match c_adapters c !! adapter with
  | None => (Err Pe_UnknownAdapter, w)
  | Some info =>
      if (ai_shutdown_bound_ms info =? 0) || (ai_shutdown_bound_ms info <? close_bound_ms)
      then (Err Pe_ClosureBound, w <| w_shut := {[ handle ]} ∪ w_shut w |>)
      else if (cf_max_connections pe_config <=? Z.of_nat (size (c_connections c))) || (MAX_PENDING_CALLS <=? live_workers) ||
              (ai_connection_limit info <=? Z.of_nat (size (filter (λ x : ConnectionHandle * AdapterId, x.2 = adapter) (c_connections c))))
      then (Err Pe_TooManyConnections, w)
      else
        let c := if bool_decide (observation = PeerObservation_none) then c
                 else c <| c_observed := <[ handle := observation ]> (c_observed c) |> in
        let l := w_closures w in
        let w := w <| w_closures := l <| lc_connections := <[ handle := adapter ]> (lc_connections l) |> |> in
        let c := if carrier then c <| c_carriers := <[ handle := adapter ]> (c_carriers c) |> else c in
        (Ok handle, w <| w_core := c <| c_connections := <[ handle := adapter ]> (c_connections c) |> |>)
  end.

Definition connect (adapter : AdapterId) (observation : PeerObservation) (carrier : bool) (close_bound_ms live_workers : Z)
    : pipe (result PipelineError unit) :=
  r ← locked_world (connect_region adapter observation carrier close_bound_ms live_workers);
  match r with
  | Err e => Ret (Err e)
  | Ok handle => call (X_TakeConnection adapter handle) ≫= λ _, Ret (Ok tt)
  end.

(** [Pipelines::bind], [disconnect], [expire_native_signals] and [next_native_signal_expiry]. *)
Definition pipelines_bind (passes : nat) (a : ConnectionHandle) (record : RegistrationRecord) (display_name : option (list Z))
    : pipe (result PipelineError unit) :=
  TakeTurn (
    r ← bind_record a record display_name None;
    GiveTurn (drain_binding passes ≫= λ _, Ret r)).

Definition disconnect (x : ConnectionHandle) : pipe unit := end_connection x.

Definition expire_native_signals (passes : nat) : pipe unit := drain_binding passes.

Definition next_native_signal_expiry (c : Core) : option Z :=
  min_by_key id (map (λ h, hg_held_at h + cf_native_signal_window pe_config) (c_held c)).
End Events.
