(* ===== verification/PipelineSend.v ===== *)
(** * The pipelines: requests of the harness ([core/src/pipeline.rs])

    The send path of one request, from its attribution to the publication of the envelope and
    the tracker kept for it; discovery and identity requests; and the receipts that reach a
    tracker. *)

From S2P Require Import Prelude Ordered Base64url Ids Json Delivery Capabilities Envelope Keys Agreement Trust Replay Receipt Reply Receiver Sender.
From S2P Require Import Pairing RecordBook Bindings Registration Authorization Transport Presence Registry PresenceAuth Sealing AgreementKeys.
From S2P Require Import IssuedPairing SessionBinding Concurrent PipelineData PipelinePresence PipelineSignals.

(** [SendRequestResult], [DiscoveryRequestResult] and [IdentityRequestResult] ([core/src/adapter.rs]). *)
Inductive SendRequestResult : Type :=
| Sr_Refused (error : ErrorCode) (pairing_value : option (list Z))
| Sr_NotPassed (id : Token) (error : ErrorCode)
| Sr_Sent (id : Token) (correlation : option Correlation).

Inductive DiscoveryRequestResult : Type :=
| Dr_Result (sessions : list SessionDescriptor)
| Dr_Refused (error : ErrorCode) (pairing_value : option (list Z)).

Inductive IdentityRequestResult : Type :=
| Ir_LocalIdentity (session_id : SessionId) (device_fingerprint : KeyId)
| Ir_Refused (error : ErrorCode) (pairing_value : option (list Z)).

(** [LocalResult]. *)
Inductive LocalResult (A : Type) : Type := Lr_Completed (a : A) | Lr_Stopped (s : LocalStop).
Arguments Lr_Completed {A} a.
Arguments Lr_Stopped {A} s.

(** [fresh_id], of 16 random octets. *)
Definition fresh_id (octets : list Z) : Token := bs "msg-" ++ encode octets.

(** [Inner::requester]. *)
Definition requester (c : Core) (shut : gset ConnectionHandle) (adapter : AdapterId) (a : ConnectionHandle) : option SessionId :=
  e ← opt_filter (λ e, bool_decide (ae_adapter e = adapter) && ae_open e && negb (ae_withheld e) && negb (bool_decide (a ∈ shut)))
        (c_attachments c !! a);
  ae_session e.

Section Send.
Context `{C : Crypto} `{HK : Hpke} `{MO : MapOrder} `{E : PipelineEnv}.

(** ** Trackers *)

(** [while trackers.len() >= cap]: the oldest in the order go. *)
Fixpoint forget_oldest (cap : Z) (order : list TrackerKey) (trackers : gmap TrackerKey TrackerEntry)
    : list TrackerKey * gmap TrackerKey TrackerEntry :=
  if cap <=? Z.of_nat (size trackers) then
    match order with
    | old :: rest => forget_oldest cap rest (delete old trackers)
    | [] => ([], trackers)
    end
  else (order, trackers).

Definition track (key : TrackerKey) (entry : TrackerEntry) (now : Timestamp) (c : Core) : Core :=
  let cap := Z.max (cf_max_trackers pe_config) 1 in
  let trackers :=
    if cap <=? Z.of_nat (size (c_trackers c))
    then filter (λ x : TrackerKey * TrackerEntry, retry_deadline_passed (te_tracker x.2) now = false) (c_trackers c)
    else c_trackers c in
  let '(order, trackers) := forget_oldest cap (c_tracker_order c) trackers in
  let order := if 2 * cap <=? Z.of_nat (length order) then List.filter (λ k, is_some (trackers !! k)) order else order in
  c <| c_tracker_order := order ++ [key] |> <| c_trackers := <[ key := entry ]> trackers |>.

(** [receipt_observed]: into the tracker, and onto the stream while it is read and has room. *)
Definition receipt_observed (observed : ObservedReceipt) (c : Core) : Core :=
  let r := ob_receipt observed in
  match SessionId_parse (rc_envelope_from r) with
  | None => c
  | Some from =>
      let key := (rc_envelope_id r, from) in
      match c_trackers c !! key with
      | None => c
      | Some t =>
          let '(changed, tracker) := tracker_receipt observed (te_tracker t) in
          let room := te_reader t && (Z.of_nat (length (te_unread t)) <? Z.max (cf_receipt_stream_capacity pe_config) 1) in
          let unread := if (changed : bool) && room then te_unread t ++ [r] else te_unread t in
          c <| c_trackers := <[ key := mkTrackerEntry tracker unread (te_reader t) ]> (c_trackers c) |>
      end
  end.

(** ** Sending *)

(** What the region of [send_local] leaves to do. *)
Inductive SendStart : Type :=
| Sd_Refused (error : ErrorCode) (pairing_value : option (list Z))
| Sd_NotPassed (id : Token) (error : ErrorCode)
| Sd_Pass (envelope : Envelope) (correlation : option Correlation) (to_key : KeyId) (ca : Carriage)
    (announcement : option (Destination * Payload)).

(** Whether the send stage reaches its presence step, which asks the engine once. *)
Definition reaches_presence (requester : option SessionId) (request : SendRequest) (reply : ReplyHeaders) : bool :=
  is_some requester && negb (bool_decide (length (rq_content request) = 0%nat)) &&
  match request_headers request reply with Ok _ => true | Err _ => false end.

(** From a prepared envelope on. *)
Definition send_prepared (prepared : PreparedSend) (mono : Z) (w : World) : option SendStart * World :=
  let env := ps_envelope prepared in
  match bindings (c_engine (w_core w)) !! env_to env with
  | Some (BKey to_key) =>
      match carriage (w_core w) to_key with
      | None => (Some (Sd_NotPassed (env_id env) E_TransportFailure), w)
      | Some ca =>
          let '(issued, c) :=
            if beq to_key own_key_id then (None, w_core w)
            else announcement (env_from env) to_key mono false (w_clock w) (w_core w) in
          let w := w <| w_core := c |> in
          match issued with
          | Some None => (None, w)
          | _ =>
              let c := c <| c_engine := record_sent (w_clock w) (SentRecord_of env to_key) (c_engine c) |> in
              let c := track (env_id env, env_from env) (mkTrackerEntry (EnvelopeTracker_new env) [] true) (w_clock w) c in
              (Some (Sd_Pass env (ps_correlation prepared) to_key ca (x ← issued; x)), w <| w_core := c |>)
          end
      end
  | _ => (Some (Sd_NotPassed (env_id env) E_InternalError), w)
  end.

(** The hold of the lock in [send_local]; [None] is a panic. *)
Definition send_region (adapter : AdapterId) (a : ConnectionHandle) (request : SendRequest) (mono : Z) (now : Timestamp)
    (id : Token) (nonce : list Z) (random : option (list Z)) (w : World) : option SendStart * World :=
  let c := w_core w in
  let from := requester c (w_shut w) adapter a in
  let reply :=
    match from, rq_requested_target request with
    | Some from, Some t => engine_reply_headers (c_engine c) from (rq_to request) (Some t)
    | _, _ => mkHeaders None None None
    end in
  let ask := decide_at (Q_Discover (Rq_Session (default [] from)) (rq_to request)) (w_clock w) (c_engine c) in
  let presence r t := send_presence (c_registry c) r t (λ _ _, permits ask.1 K_Discover) mono in
  let prepared := prepare_send from request presence (cf_implemented pe_config) reply pe_identity id now nonce in
  let c := if reaches_presence from request reply then c <| c_engine := ask.2 |> else c in
  let w := w <| w_core := c |> in
  match prepared with
  | None => (None, w)
  | Some (Err error) =>
      if negb (is_some from) && bool_decide (error = E_Unauthorized) then
        let '(value, c) := pairing_value_for adapter a mono random (w_shut w) c in
        (Some (Sd_Refused error value), w <| w_core := c |>)
      else (Some (Sd_Refused error None), w)
  | Some (Ok prepared) => send_prepared prepared mono w
  end.

(** The count of the adapter's committed sends, while one is under way. *)
Definition count_send (adapter : AdapterId) (w : World) : World :=
  w <| w_committed_sends := <[ adapter := default 0 (w_committed_sends w !! adapter) + 1 ]> (w_committed_sends w) |>.
Definition uncount_send (adapter : AdapterId) (w : World) : World :=
  match w_committed_sends w !! adapter with
  | Some n => w <| w_committed_sends := if n - 1 =? 0 then delete adapter (w_committed_sends w)
                                       else <[ adapter := n - 1 ]> (w_committed_sends w) |>
  | None => w
  end.

(** The publications of a send, with no lock held. *)
Definition publish_send (env : Envelope) (correlation : option Correlation) (to_key : KeyId) (ca : Carriage)
    (announcement : option (Destination * Payload)) (mono : Z) : pipe SendRequestResult :=
  let key := (env_id env, env_from env) in
  let not_passed := settle_tracking (Tu_Untrack key) ≫= λ _, Ret (Sr_NotPassed (env_id env) E_TransportFailure) in
  let publish :=
    deadline ← deadline_at (hd_unix_nanos (HandOffDeadline_of env));
    result ← pass ca to_key (Dest_Session (env_to env)) (mkPayload PK_Envelope (env_octets env)) deadline;
    match result with
    | Taken => settle_tracking (Tu_Passed key) ≫= λ _, Ret (Sr_Sent (env_id env) correlation)
    | NotTaken => not_passed
    end in
  match announcement with
  | None => publish
  | Some (destination, payload) =>
      deadline ← control_deadline;
      result ← pass ca to_key destination payload deadline;
      settle_tracking (Tu_Announcement (env_from env) to_key mono result) ≫= λ _,
      match result with Taken => publish | NotTaken => not_passed end
  end.

Definition send_local (adapter : AdapterId) (a : ConnectionHandle) (request : SendRequest) : pipe (LocalResult SendRequestResult) :=
  mono ← monotonic;
  now ← clock_now;
  stop ← call X_LocalLock;
  match stop with
  | Some s => Ret (Lr_Stopped s)
  | None =>
      stop ← call X_Commit;
      match stop with
      | Some s => Ret (Lr_Stopped s)
      | None =>
          id ← call (X_Random 16);
          id ← or_panic id;
          nonce ← call (X_Random 16);
          nonce ← or_panic nonce;
          random ← call (X_Random 16);
          start ← locked_world (λ w, let '(s, w) := send_region adapter a request mono now (fresh_id id) nonce random w in
                                     (s, match s with Some (Sd_Pass _ _ _ _ _) => count_send adapter w | _ => w end));
          start ← or_panic start;
          match start with
          | Sd_Refused error value => Ret (Lr_Completed (Sr_Refused error value))
          | Sd_NotPassed id error => Ret (Lr_Completed (Sr_NotPassed id error))
          | Sd_Pass env correlation to_key ca announcement =>
              result ← publish_send env correlation to_key ca announcement mono;
              region (λ w, (tt, uncount_send adapter w)) ≫= λ _,
              Ret (Lr_Completed result)
          end
      end
  end.

(** [Inner::send]. *)
Definition send (adapter : AdapterId) (a : ConnectionHandle) (request : SendRequest) : pipe SendRequestResult :=
  r ← send_local adapter a request;
  Ret (match r with Lr_Completed v => v | Lr_Stopped _ => Sr_Refused E_InternalError None end).

(** ** Discovery and identity *)

(** The engine's answers to a list of questions, logged in order. *)
Definition ask_each (from : SessionId) (sessions : list SessionId) (now : Timestamp) (e : Engine) : Engine :=
  foldl (λ e s, (decide_at (Q_Discover (Rq_Session from) s) now e).2) e sessions.

(** [discovery_snapshot]: the registry asks the engine for each online session. *)
Definition discovery_snapshot (adapter : AdapterId) (a : ConnectionHandle) (random : option (list Z)) (w : World)
    : DiscoveryRequestResult * World :=
  let c := w_core w in
  let from := requester c (w_shut w) adapter a in
  let may_discover r s := permits (decide_at (Q_Discover (Rq_Session r) s) (w_clock w) (c_engine c)).1 K_Discover in
  let asked :=
    match from with
    | Some _ => List.filter (λ s, bool_decide (registry_state (c_registry c) s (w_mono w) = PS_Online)) (registry_sessions (c_registry c))
    | None => []
    end in
  let result := registry_discover (c_registry c) from may_discover (w_mono w) in
  let c := c <| c_engine := ask_each (default [] from) asked (w_clock w) (c_engine c) |> in
  match result with
  | Ok sessions => (Dr_Result sessions, w <| w_core := c |>)
  | Err error =>
      if negb (is_some from) && bool_decide (error = E_Unauthorized) then
        let '(value, c) := pairing_value_for adapter a (w_mono w) random (w_shut w) c in
        (Dr_Refused error value, w <| w_core := c |>)
      else (Dr_Refused error None, w <| w_core := c |>)
  end.

Definition discover (adapter : AdapterId) (a : ConnectionHandle) : pipe DiscoveryRequestResult :=
  random ← call (X_Random 16);
  locked_world (discovery_snapshot adapter a random).

Definition identity_region (adapter : AdapterId) (a : ConnectionHandle) (random : option (list Z)) (w : World) : IdentityRequestResult * World :=
  match requester (w_core w) (w_shut w) adapter a with
  | Some session => (Ir_LocalIdentity session own_key_id, w)
  | None =>
      let '(value, c) := pairing_value_for adapter a (w_mono w) random (w_shut w) (w_core w) in
      (Ir_Refused E_Unauthorized value, w <| w_core := c |>)
  end.

Definition identity (adapter : AdapterId) (a : ConnectionHandle) : pipe IdentityRequestResult :=
  random ← call (X_Random 16);
  locked_world (identity_region adapter a random).

(** [discover_local] and [identity_local], whose call may be stopped first. *)
Definition stoppable {A} (body : pipe A) : pipe (LocalResult A) :=
  stop ← call X_LocalLock;
  match stop with
  | Some s => Ret (Lr_Stopped s)
  | None =>
      stop ← call X_Commit;
      match stop with
      | Some s => Ret (Lr_Stopped s)
      | None => r ← body; Ret (Lr_Completed r)
      end
  end.

(** [Pipelines::delivery_state]. *)
Definition delivery_state (id : Token) (from : SessionId) (now : Timestamp) (c : Core) : option DeliveryState :=
  (λ t, tracker_state (te_tracker t) now) <$> c_trackers c !! (id, from).
End Send.
