(* ===== verification/PipelineReceive.v ===== *)
(** * The pipelines: the receive path ([core/src/pipeline.rs])

    What a payload from the transport does: the envelope stage, the security steps under the
    engine, the delivery stage with the hand-off to the adapter, the copies that wait on a twin,
    the receipts both ways, presence records, and the payloads of a sealing transport.  The
    receiver's programs ([Receiver]) run here over the duplicate store and the core. *)

From S2P Require Import Prelude Ordered Ids Json Delivery Capabilities Envelope Keys Agreement Trust Signing Replay Receipt Reply Receiver Sender.
From S2P Require Import Pairing RecordBook Bindings Registration Authorization Transport Presence Registry PresenceAuth ReceiptAuth Sealing AgreementKeys.
From S2P Require Import IssuedPairing SessionBinding Concurrent PipelineData PipelinePresence PipelineSignals PipelineSend.

Section Receive.
Context `{C : Crypto} `{HK : Hpke} `{MO : MapOrder} `{E : PipelineEnv}.

(** The limits of [DuplicateStore::new]. *)
Definition store_limits : Limits := Replay.with_capacity DEFAULT_CAPACITY.

(** ** The hand-off *)

(** [target]: what the region reads, and the adapter's capabilities. *)
Definition target_region (to : SessionId) (w : World) : option (AdapterId * ConnectionHandle * bool) :=
  let c := w_core w in
  a ← c_sessions c !! to;
  e ← c_attachments c !! a;
  let online := bool_decide (registry_state (c_registry c) to (w_mono w) = PS_Online) in
  Some (ae_adapter e, a, ae_open e && negb (ae_withheld e) && online).

Definition target (to : SessionId) : pipe (option DeliveryTarget) :=
  found ← locked_world (λ w, (target_region to w, w));
  match found with
  | None => Ret None
  | Some (adapter, a, accepting) =>
      caps ← call (X_Capabilities adapter a);
      Ret ((λ k, mkTarget accepting (ac_active_inbound k) (ac_content_types k) (ac_max_envelope_octets k)) <$> caps)
  end.

Definition hand_off_target (to : SessionId) (c : Core) : option (AdapterId * ConnectionHandle) :=
  a ← c_sessions c !! to;
  e ← opt_filter (λ e, negb (ae_withheld e)) (c_attachments c !! a);
  Some (ae_adapter e, a).

Definition hand_off (msg : ChannelMessage) : pipe HandOffOutcome :=
  found ← reading (hand_off_target (env_to (cm_envelope msg)));
  match found with
  | None => Ret HO_NotNow
  | Some (adapter, a) =>
      if negb (is_some (cm_verified_by msg)) then Ret HO_Refused
      else
        let record := HandOffRecord_of (cm_envelope msg) in
        locked_world (λ w, let c := w_core w in
          (tt, w <| w_core := c <| c_engine := record_handoff (w_clock w) record D_HandedToHarness (c_engine c) |> |>)) ≫= λ _,
        delivered ← call (X_Deliver adapter a msg);
        let outcome := default HO_Indeterminate delivered in
        (if may_be_handed_off outcome then Ret tt
         else locked (λ c, (tt, c <| c_engine := (forget_handoff record (c_engine c)).2 |>))) ≫= λ _,
        Ret outcome
  end.

(** ** The receiver's programs over this state *)

(** [try_admit] and [settle] on the store; a settled key's callbacks put their copies on the
    queue. *)
Definition admit_region (msg : AuthorizedMessage AuthorizationDecision) (w : World)
    : result SecurityRejection (option Admission) * World :=
  let '(r, store) := try_admit store_limits (unix_nanos (w_clock w)) (am_message msg) (w_store w) in (r, w <| w_store := store |>).

Definition run_callbacks (callbacks : list nat) (w : World) : World :=
  w <| w_requeued := w_requeued w ++ omap (λ n, w_notify w !! n) callbacks |>.

Definition settle_region (key : DuplicateKey) (handed_off : bool) (w : World) : World :=
  let '(callbacks, store) := settle key handed_off (w_store w) in
  run_callbacks callbacks (w <| w_store := store |>).

(** A program that touches the engine and the clock only, under one hold of the lock. *)
Fixpoint under_engine {A} (p : Receiver.prog AuthorizationDecision A) (now : Timestamp) (e : Engine) : option A * Engine :=
  match p with
  | Receiver.Ret a => (Some a, e)
  | Now k => under_engine (k (Some now)) now e
  | TrustedKeys k => under_engine (k (trusted e)) now e
  | AuthorizeDelivery msg k => let '(r, e) := authorize_delivery msg now e in under_engine (k r) now e
  | RecordHandOff record state k => under_engine k now (record_handoff now record state e)
  | Unwound | TryAdmit _ _ | Settle _ _ _ | Target _ _ | HandOffCall _ _ => (None, e)
  end.

(** A program of the delivery stage: each call where it is made. *)
Fixpoint interpret {A} (p : Receiver.prog AuthorizationDecision A) : pipe A :=
  match p with
  | Receiver.Ret a => Ret a
  | Unwound => Spin
  | TryAdmit msg k => r ← region (admit_region msg); interpret (k r)
  | Settle key b k => region (λ w, (tt, settle_region key b w)) ≫= λ _, interpret k
  | Now k => t ← clock_now; interpret (k (Some t))
  | Target to k => t ← target to; interpret (k (Some t))
  | HandOffCall msg k => o ← hand_off msg; interpret (k (Some o))
  | TrustedKeys k => keys ← reading (λ c, trusted (c_engine c)); interpret (k keys)
  | AuthorizeDelivery msg k =>
      r ← locked_world (λ w, let c := w_core w in
            let '(r, e) := authorize_delivery msg (w_clock w) (c_engine c) in (r, w <| w_core := c <| c_engine := e |> |>));
      interpret (k r)
  | RecordHandOff record state k =>
      locked_world (λ w, let c := w_core w in
        (tt, w <| w_core := c <| c_engine := record_handoff (w_clock w) record state (c_engine c) |> |>)) ≫= λ _,
      interpret k
  end.

(** ** Receipts *)

(** The hold of the lock in [receipt]: the limiter, then the tracker of an own envelope, or the
    carriage of a receipt for another device. *)
Definition receipt_region (env : Envelope) (report : ReceiverReport) (device : KeyId) (mono : Z) (observed_at : Timestamp) (c : Core)
    : option Carriage * Core :=
  let '(gate, limiter) := may_send_receipt (Some device) report (c_limiter c) mono in
  let c := c <| c_limiter := limiter |> in
  match gate with
  | Err _ => (None, c)
  | Ok _ =>
      if beq device own_key_id then
        (None, match report_receipt report env observed_at with Ok r => receipt_observed (mkObserved r) c | Err _ => c end)
      else (carriage c device, c)
  end.

Definition send_receipt (env : Envelope) (out : ReceiveOutcome AuthorizationDecision) : pipe unit :=
  match ro_received out, ro_verified_by out with
  | RReported report, Some device =>
      mono ← monotonic;
      observed_at ← clock_now;
      ca ← locked (receipt_region env report device mono observed_at);
      match (ca : option Carriage), report_receipt report env observed_at with
      | Some ca, Ok receipt =>
          issued ← or_panic (receipt_issue pe_identity receipt env);
          let '(destination, payload) := ar_to_payload issued device in
          deadline ← control_deadline;
          pass ca device destination payload deadline ≫= λ _, Ret tt
      | _, _ => Ret tt
      end
  | _, _ => Ret tt
  end.

(** [requeue]: within the cap, the copy waits on its twin. *)
Definition when_settled_region (key : DuplicateKey) (msg : AuthorizedMessage AuthorizationDecision) (w : World) : World :=
  let n := length (w_notify w) in
  let '(callbacks, store) := when_settled key n (w_store w) in
  run_callbacks callbacks (w <| w_notify := w_notify w ++ [msg] |> <| w_store := store |>).

Definition requeue (key : DuplicateKey) (msg : AuthorizedMessage AuthorizationDecision) (env : Envelope) : pipe unit :=
  waiting ← region (λ w, (w_waiting w, w <| w_waiting := w_waiting w + 1 |>));
  if Z.max (cf_max_requeued pe_config) 1 <=? waiting then
    region (λ w, (tt, w <| w_waiting := w_waiting w - 1 |>)) ≫= λ _,
    send_receipt env (mkOutcome (RReported (ReceiverReport_of D_Failed (Some E_InternalError))) None (verified_key (am_message msg)) false)
  else region (λ w, (tt, when_settled_region key msg w)).

(** ** One copy *)

Definition deliver_now (msg : AuthorizedMessage AuthorizationDecision) : pipe unit :=
  let env := cm_envelope (am_message msg) in
  '(out, _) ← interpret (deliver_unrecorded msg);
  match ro_received out, ro_requeue out with
  | RInFlight key, Some msg => requeue key msg env
  | _, _ => send_receipt env out
  end.

(** [drain_requeued], followed for at most [n] copies. *)
Fixpoint drain_requeued (n : nat) : pipe unit :=
  match n with
  | 0%nat => Spin
  | S n =>
      next ← region (λ w, match w_requeued w with [] => (None, w) | m :: rest => (Some m, w <| w_requeued := rest |>) end);
      match next with
      | None => Ret tt
      | Some msg =>
          region (λ w, (tt, w <| w_waiting := w_waiting w - 1 |>)) ≫= λ _,
          deliver_now msg ≫= λ _,
          drain_requeued n
      end
  end.

(** [receiver_limits]: the configured part types with those some bound session takes, in order
    and without duplicates. *)
Definition session_types (c : Core) (s : SessionId) : list (list Z) :=
  match own ← rr_own (c_registry c) !! s;
        agreed ← agree (sd_capabilities (ow_descriptor own)) (cf_implemented pe_config);
        ce_content_types (ag_entry agreed) with
  | Some listed => List.filter (λ t, negb (beq t (bs "text"))) listed
  | None => []
  end.

Definition receiver_limits (c : Core) : EnvelopeLimits :=
  let limits := cf_limits pe_config in
  let types := part_types limits ++ flat_map (session_types c) (map_keys (c_sessions c)) in
  default limits (with_part_types limits (set_items (list_to_set types : gset (list Z)))).

Definition security_region (msg : ChannelMessage) (w : World)
    : option (result (ReceiveOutcome AuthorizationDecision) (AuthorizedMessage AuthorizationDecision)) * World :=
  let c := w_core w in
  let '(r, e) := under_engine (security_steps msg) (w_clock w) (c_engine c) in
  (r, w <| w_core := c <| c_engine := e |> |>).

Definition receive_envelope_octets (copies : nat) (octets : list Z) (opened : bool) : pipe unit :=
  limits ← reading receiver_limits;
  now ← clock_now;
  match receive_envelope octets limits now with
  | Err _ => Ret tt
  | Ok msg =>
      if opened && passed_at (HandOffDeadline_of (cm_envelope msg)) now then Ret tt
      else
        let env := cm_envelope msg in
        steps ← locked_world (security_region msg);
        steps ← or_panic steps;
        match steps with
        | Ok authorized => deliver_now authorized
        | Err refused => send_receipt env refused
        end ≫= λ _,
        drain_requeued copies
  end.

(** [Inner::sealing]. *)
Definition sealing : pipe bool := reading (λ c, match c_transport_caps c with Some caps => tc_sealing caps | None => false end).

Definition on_envelope (copies : nat) (inbound : InboundPayload) : pipe unit :=
  if negb (bool_decide (pl_kind (ib_payload inbound) = PK_Envelope)) then Ret tt
  else
    sealed ← sealing;
    if (sealed : bool) then Ret tt else receive_envelope_octets copies (pl_octets (ib_payload inbound)) false.

(** ** Receipts and presence records that arrive *)

Definition accept_receipt_octets (octets : list Z) : pipe unit :=
  match (v ← ok (parse octets); ar_from_json v) with
  | None => Ret tt
  | Some ar =>
      locked (λ c, (tt, match accept_receipt ar (c_engine c) with Ok observed => receipt_observed observed c | Err _ => c end))
  end.

Definition accept_presence (rec : AuthenticatedPresenceRecord) (carrier : CarrierHandle) : pipe unit :=
  mono ← monotonic;
  locked_world (λ w, let c := w_core w in
    let '(_, e, r) := accept_authenticated_record rec carrier (w_clock w) mono (c_engine c) (c_registry c) in
    (tt, w <| w_core := c <| c_engine := e |> <| c_registry := r |> |>)).

Definition presence_record (octets : list Z) : option AuthenticatedPresenceRecord := v ← ok (parse octets); apr_from_json v.

Definition issued_at_of (rec : AuthenticatedPresenceRecord) : option Timestamp :=
  inner ← obj_get (apw_wire rec) (bs "record");
  r ← as_object inner;
  s ← get_str r (bs "issued_at");
  Timestamp_parse s.

Definition on_opened_presence (octets : list Z) (carrier : CarrierHandle) : pipe unit :=
  match presence_record octets with
  | None => Ret tt
  | Some rec =>
      now ← clock_now;
      if match issued_at_of rec with Some t => unix_nanos t + REPLAY_WINDOW_MS * 1000000 <=? unix_nanos now | None => false end
      then Ret tt else accept_presence rec carrier
  end.

Definition receipt_deadline (octets : list Z) (c : Core) : option Z :=
  r ← sent_record_for_receipt octets (c_engine c); Some (handoff_deadline_unix_nanos r).

Definition on_opened_receipt (octets : list Z) : pipe unit :=
  deadline ← reading (receipt_deadline octets);
  match deadline with
  | None => Ret tt
  | Some deadline =>
      now ← clock_now;
      if deadline <=? unix_nanos now then Ret tt else accept_receipt_octets octets
  end.

Definition on_presence (event : PresenceEvent) : pipe unit :=
  match event with
  | PE_Record payload carrier =>
      if negb (bool_decide (pl_kind payload = PK_Presence)) then Ret tt
      else
        sealed ← sealing;
        if (sealed : bool) then Ret tt
        else match presence_record (pl_octets payload) with Some rec => accept_presence rec carrier | None => Ret tt end
  | PE_CarrierLoss carrier => locked (λ c, (tt, c <| c_registry := (carrier_loss carrier (c_registry c)).2 |>))
  | PE_CarrierAppeared _ => on_carrier_appeared
  end.

(** ** A sealing transport *)

Definition on_opened (copies : nat) (opened : Opened) (carrier : CarrierHandle) : pipe unit :=
  match op_kind opened with
  | PK_Envelope => receive_envelope_octets copies (op_payload opened) true
  | PK_Presence => on_opened_presence (op_payload opened) carrier
  | PK_Receipt => on_opened_receipt (op_payload opened)
  | PK_Sealed => Ret tt
  end.

(** [AgreementKeys::open] when keys are held. *)
Definition open_with (keys : option AgreementKeys) (frame : list Z) : option Opened := k ← keys; keys_open k frame.

Definition on_sealed (copies : nat) (inbound : InboundPayload) : pipe unit :=
  if negb (bool_decide (pl_kind (ib_payload inbound) = PK_Sealed)) then Ret tt
  else
    keys ← region (λ w, (w_agreement w, w));
    match open_with keys (pl_octets (ib_payload inbound)) with
    | None => region (λ w, (tt, w <| w_discarded_frames := w_discarded_frames w + 1 |>))
    | Some opened =>
        recipient ← reading (λ c, recipient_of (op_kind opened) (op_payload opened) (c_engine c));
        match recipient with
        | Rc_Another => Ret tt
        | Rc_Own | Rc_Unnamed => on_opened copies opened (ib_carrier inbound)
        end
    end.

Definition on_device_payload (copies : nat) (inbound : InboundPayload) : pipe unit :=
  sealed ← sealing;
  if (sealed : bool) then on_sealed copies inbound
  else if negb (bool_decide (pl_kind (ib_payload inbound) = PK_Receipt)) then Ret tt
  else accept_receipt_octets (pl_octets (ib_payload inbound)).
End Receive.
