(* ===== verification/PipelineApi.v ===== *)
(** * The pipelines: the owner's operations ([core/src/pipeline.rs])

    What the daemon calls: the trusted keys and agreement statements, the start and the end of
    the transport, the timers and the status; then the job each thread runs, what the
    surroundings do on their own, and the system of all threads. *)

From S2P Require Import Prelude Ordered Ids Json Delivery Capabilities Envelope Keys Agreement Trust Signing Replay Receipt Reply Receiver Sender.
From S2P Require Import Pairing RecordBook Bindings Registration Authorization Transport Presence Registry PresenceAuth ReceiptAuth Sealing AgreementKeys.
From S2P Require Import IssuedPairing SessionBinding Concurrent PipelineData PipelinePresence PipelineSignals PipelineBinding.
From S2P Require Import PipelineEvents PipelineSend PipelineReceive.

(** The caller's store, whose next save has the given result. *)
Definition answering_store : PairingStore (result PairingStoreError unit) :=
  mkPairingStore _ (λ _, Err (PS_Failed "not read")) (λ _ answer, (answer, answer)).

Section Api.
Context `{C : Crypto} `{HK : Hpke} `{MO : MapOrder} `{E : PipelineEnv}.

(** ** Trusted keys and statements *)

Definition set_agreement_keys (keys : AgreementKeys) : pipe (result PipelineError unit) :=
  statement ← or_panic (keys_statement keys);
  r ← locked_world (λ w, let c := w_core w in
        let '(r, e) := admit_own_statement statement (w_clock w) (c_engine c) in (r, w <| w_core := c <| c_engine := e |> |>));
  match r with
  | Err e => Ret (Err (Pe_OwnStatement e))
  | Ok _ => region (λ w, (Ok tt, w <| w_agreement := Some keys |>))
  end.

Definition agreement_statement (w : World) : option AgreementStatement := keys ← w_agreement w; keys_statement keys.

Definition admit_statement_region (statement : AgreementStatement) (answer : result PairingStoreError unit) (w : World)
    : result StatementRefusal (option HeldStatement * list SessionId) * World :=
  let c := w_core w in
  let '(r, e, _) := admit_statement answering_store statement (w_clock w) (c_engine c) answer in
  let c := c <| c_engine := e |> in
  match r with
  | Err err => (Err err, w <| w_core := c |>)
  | Ok held =>
      let c := match held with
               | Some h => if beq (hs_key_id h) own_key_id then c else c <| c_trust_retry := None |>
               | None => c
               end in
      (Ok (held, map_keys (c_sessions c)), w <| w_core := c |>)
  end.

Definition pipelines_admit_statement (statement : AgreementStatement) : pipe (result StatementRefusal (option HeldStatement)) :=
  answer ← call X_SaveAnswer;
  r ← locked_world (admit_statement_region statement answer);
  match r with
  | Err e => Ret (Err e)
  | Ok (held, sessions) =>
      match (held : option HeldStatement) with
      | Some h => if beq (hs_key_id h) own_key_id then Ret tt else each sessions (λ s, announce_to s (hs_key_id h) true)
      | None => Ret tt
      end ≫= λ _, Ret (Ok held)
  end.

Definition pair_region (peer : PairedPeer) (answer : result PairingStoreError unit) (w : World)
    : result TrustChangeError (list SessionId) * World :=
  let c := w_core w in
  if c_closed c then (Err Tc_Closed, w)
  else
    let '(r, e, _) := pair_key answering_store peer (w_clock w) (c_engine c) answer in
    let c := c <| c_engine := e |> in
    match r with
    | Err err => (Err (Tc_Pair err), w <| w_core := c |>)
    | Ok _ => (Ok (map_keys (c_sessions c)), w <| w_core := c <| c_trust_retry := None |> |>)
    end.

Definition pipelines_pair (peer : PairedPeer) : pipe (result TrustChangeError unit) :=
  answer ← call X_SaveAnswer;
  r ← locked_world (pair_region peer answer);
  match r with
  | Err e => Ret (Err e)
  | Ok sessions => each sessions (λ s, announce_to s (record_key_id (pp_record peer)) false) ≫= λ _, Ret (Ok tt)
  end.

(** [unpair] under the lock; the inner [None] is a panic in issuing a withdrawal. *)
Definition unpair_region (key_id : KeyId) (now : Z) (answer : result PairingStoreError unit) (w : World)
    : result TrustChangeError (option (Unpaired * list (Carriage * Destination * Payload))) * World :=
  let c := w_core w in
  if c_closed c then (Err Tc_Closed, w)
  else if beq key_id own_key_id then (Err (Tc_Remove RK_OwnKey), w)
  else if negb (is_some (keyset_get (trusted (c_engine c)) key_id)) then (Err (Tc_Remove RK_NotTrusted), w)
  else
    let '(withdrawals, c) := withdrawals_to key_id (w_clock w) c in
    match withdrawals with
    | None => (Ok None, w <| w_core := c |>)
    | Some withdrawals =>
        let '(r, e, _) := remove_key answering_store key_id (c_engine c) answer in
        let c := c <| c_engine := e |> in
        match r with
        | Ok removal => (Ok (Some (Up_Durable removal, withdrawals)), w <| w_core := c <| c_trust_retry := None |> |>)
        | Err (RK_NotSaved err) => (Ok (Some (Up_NotDurable err, withdrawals)), w <| w_core := trust_save_failed now c |>)
        | Err err => (Err (Tc_Remove err), w <| w_core := c |>)
        end
    end.

Definition unpair (key_id : KeyId) : pipe (result TrustChangeError Unpaired) :=
  now ← monotonic;
  answer ← call X_SaveAnswer;
  r ← locked_world (unpair_region key_id now answer);
  match r with
  | Err e => Ret (Err e)
  | Ok out =>
      '(outcome, withdrawals) ← or_panic out;
      each withdrawals (λ '(ca, destination, payload),
        deadline ← control_deadline;
        pass ca key_id destination payload deadline ≫= λ _, Ret tt) ≫= λ _,
      Ret (Ok outcome)
  end.

Definition retry_save_region (now : Z) (answer : result PairingStoreError unit) (c : Core) : result TrustChangeError unit * Core :=
  if c_closed c then (Err Tc_Closed, c)
  else if negb (is_some (c_trust_retry c)) then (Ok tt, c)
  else
    match (save answering_store (c_engine c) answer).1 with
    | Ok _ => (Ok tt, c <| c_trust_retry := None |>)
    | Err e => (Err (Tc_Store e), trust_save_failed now c)
    end.

Definition retry_save : pipe (result TrustChangeError unit) :=
  now ← monotonic;
  answer ← call X_SaveAnswer;
  locked (retry_save_region now answer).

Definition next_trust_retry_at (c : Core) : option Z := tr_due <$> c_trust_retry c.

(** ** The transport *)

Definition set_transport_caps (caps : option TransportCapabilities) : pipe unit := locked (λ c, (tt, c <| c_transport_caps := caps |>)).

Definition start : pipe (result PipelineError TransportCapabilities) :=
  let failed e := set_transport_caps None ≫= λ _, call X_TransportShutdown ≫= λ _, Ret (Err (Pe_Transport e)) in
  set_transport_caps None ≫= λ _,
  started ← call X_TransportStart;
  match started with
  | Err e => failed e
  | Ok caps =>
      match contract_violations caps with
      | _ :: _ => call X_TransportShutdown ≫= λ _, Ret (Err (Pe_Declaration (contract_violations caps)))
      | [] =>
          held ← region (λ w, (is_some (w_agreement w), w));
          if tc_sealing caps && negb held then call X_TransportShutdown ≫= λ _, Ret (Err Pe_NoAgreementKey)
          else
            set_transport_caps (Some caps) ≫= λ _,
            sub ← call (X_Subscribe (Dest_Device own_key_id));
            match sub with
            | Err e => failed e
            | Ok sub =>
                watched ← call X_WatchPresence;
                match watched with
                | Err e => failed e
                | Ok _ => locked (λ c, (Ok caps, c <| c_device_subscription := Some (Some sub) |>))
                end
            end
      end
  end.

(** [shutdown], the join of the workers apart. *)
Definition shutdown : pipe unit :=
  locked (λ c, (tt, c <| c_closed := true |>)) ≫= λ _,
  adapters ← reading (λ c, seq 0 (length (c_adapters c)));
  each adapters (λ a, call (X_AdapterShutdown a)) ≫= λ _,
  attachments ← reading (λ c, map_keys (c_attachments c));
  each attachments unbind ≫= λ _,
  device ← locked (λ c, (c_device_subscription c, c <| c_device_subscription := None |>));
  (match device with Some sub => end_subscription sub | None => Ret tt end) ≫= λ _,
  call X_TransportShutdown.

(** [Pipelines::binding]. *)
Definition pipelines_binding (a : ConnectionHandle) : pipe (option SessionId) :=
  pending ← region (λ w, (is_some (lc_pending (w_closures w) !! a), w));
  if (pending : bool) then Ret None else reading (bound_session a).

(** ** Status *)

Inductive SessionState : Type := Ss_Online | Ss_Withheld.

Record SessionStatus := mkSessionStatus {
  ss_session_id : SessionId; ss_harness_label : option Token; ss_capabilities : option Agreed; ss_state : SessionState }.

Record StatusCounts := mkCounts {
  sc_open_connections : nat; sc_unbound_attachments : nat; sc_pending_signals : nat; sc_held_signals : nat;
  sc_trusted_devices : nat; sc_grants : nat; sc_discarded_frames : Z }.

Definition session_status (own : Own) : SessionStatus :=
  mkSessionStatus (sd_session_id (ow_descriptor own)) (harness_label (ow_descriptor own))
    (agree (sd_capabilities (ow_descriptor own)) (cf_implemented pe_config))
    (if ow_withheld own then Ss_Withheld else Ss_Online).

Definition status_sessions (c : Core) : list SessionStatus := map session_status (values (rr_own (c_registry c))).

Definition unbound_attachments (c : Core) (p : AttachmentEntry → bool) : nat :=
  size (filter (λ x : ConnectionHandle * AttachmentEntry, ae_open x.2 && negb (is_some (ae_session x.2)) && p x.2 = true) (c_attachments c)).

Definition status_counts (w : World) : StatusCounts :=
  let c := w_core w in
  mkCounts (size (c_connections c)) (unbound_attachments c (λ _, true)) (length (c_signals c)) (length (c_held c))
    (size (ts_entries (trusted (c_engine c))) - 1) (length (grants (c_engine c))) (w_discarded_frames w).

(** ** The system *)

(** The program of a job; a loop is followed for [fuel] rounds. *)
Definition run_job (fuel : nat) (j : Job) : pipe unit :=
  match j with
  | J_AdapterEvent adapter event => on_adapter_event fuel adapter event
  | J_LocalEvent adapter event => on_local_adapter_event adapter event
  | J_LocalWork adapter work => local_work fuel adapter work
  | J_PeerWork => peer_work
  | J_AddAdapter info => add_adapter info ≫= λ _, Ret tt
  | J_Connect adapter observation carrier bound live => connect adapter observation carrier bound live ≫= λ _, Ret tt
  | J_Disconnect x => disconnect x
  | J_Bind a record name => pipelines_bind fuel a record name ≫= λ _, Ret tt
  | J_Unbind a => unbind a
  | J_ExpireNativeSignals => expire_native_signals fuel
  | J_Send adapter a request => send_local adapter a request ≫= λ _, Ret tt
  | J_Discover adapter a => stoppable (discover adapter a) ≫= λ _, Ret tt
  | J_Identity adapter a => stoppable (identity adapter a) ≫= λ _, Ret tt
  | J_Envelope inbound => on_envelope fuel inbound
  | J_DevicePayload inbound => on_device_payload fuel inbound
  | J_Presence event => on_presence event
  | J_RefreshPresence => refresh_presence
  | J_BeginDueAppearanceSet => begin_due_appearance_set
  | J_Pair peer => pipelines_pair peer ≫= λ _, Ret tt
  | J_Unpair key => unpair key ≫= λ _, Ret tt
  | J_RetrySave => retry_save ≫= λ _, Ret tt
  | J_AdmitStatement statement => pipelines_admit_statement statement ≫= λ _, Ret tt
  | J_SetAgreementKeys keys => set_agreement_keys keys ≫= λ _, Ret tt
  | J_WithEngine f => locked (λ c, (tt, c <| c_engine := f (c_engine c) |>))
  | J_Start => start ≫= λ _, Ret tt
  | J_Shutdown => shutdown
  end.

(** What happens beside the threads: the clocks go on, a connection's handle is closed, and a
    receipt stream is read or dropped. *)
Inductive surroundings : World → World → Prop :=
| su_time w clock mono : w_mono w ≤ mono → surroundings w (w <| w_clock := clock |> <| w_mono := mono |>)
| su_shut w a : surroundings w (w <| w_shut := {[ a ]} ∪ w_shut w |>)
| su_read w key t unread reader :
    c_trackers (w_core w) !! key = Some t →
    surroundings w (w <| w_core := w_core w <| c_trackers := <[ key := mkTrackerEntry (te_tracker t) unread reader ]> (c_trackers (w_core w)) |> |>).
End Api.
