(* ===== verification/PipelineInv.v ===== *)
(** * What every region of the pipelines keeps

    The invariant of the pipelines' state, how a region may change the state with and without
    the binding turn, and the two of them for the regions that all programs share: applying
    closures and tracking updates, and changes that leave the attachments and the pending
    signals alone. *)

From stdpp Require Import sorting.
From S2P Require Import Prelude Ordered Ids Json Delivery Capabilities Envelope Keys Agreement Trust Signing Replay Receipt Reply Receiver Sender.
From S2P Require Import Pairing RecordBook Bindings Registration Authorization Transport Presence Registry PresenceAuth ReceiptAuth Sealing AgreementKeys.
From S2P Require Import IssuedPairing SessionBinding Concurrent PipelineData PipelinePresence PipelineSignals PipelineBinding.
From S2P Require Import PipelineEvents PipelineSend PipelineReceive PipelineApi.

Section Inv.
Context `{C : Crypto} `{HK : Hpke} `{MO : MapOrder} `{E : PipelineEnv}.
Implicit Types w : World.

Definition attachments w := c_attachments (w_core w).
Definition connections w := c_connections (w_core w).
Definition signals w := c_signals (w_core w).
Definition held w := c_held (w_core w).
Definition next_seq w := c_next_signal_seq (w_core w).
Definition key_of w (a : ConnectionHandle) : option PairingKey := observed_pairing_key (w_core w) a.
Definition pending w : Z := Z.of_nat (length (signals w) + length (held w)).
Definition pending_cap : Z := Z.max (cf_max_pending_signals pe_config) 1.
Definition last_began w := as_last_began (c_appearances (w_core w)).

(** ** The invariant *)

(** An entry is withheld exactly when it is bound and a signal that withholds it is unanswered. *)
Definition entry_ok (e : AttachmentEntry) : Prop := ae_withheld e = is_some (ae_session e) && is_some (ae_withheld_by e).

(** No pending signal is older than a signal of its adapter and key that paired with the
    attachment. *)
Definition ordered w (adapter : AdapterId) (k : PairingKey) (p : Z) : Prop :=
  (∀ h, h ∈ held w → hg_adapter h = adapter → hg_key h = k → p < hg_seq h) ∧
  (∀ q, q ∈ signals w → qs_adapter q = adapter → qs_key q = Some k → p < qs_seq q).

(** The trackers are within their cap, and all are in the order they are forgotten in. *)
Definition trackers_ok (c : Core) : Prop :=
  Z.of_nat (size (c_trackers c)) ≤ Z.max (cf_max_trackers pe_config) 1 ∧
  ∀ k, is_Some (c_trackers c !! k) → k ∈ c_tracker_order c.

Definition registry_ok (c : Core) : Prop := ∀ s o, rr_own (c_registry c) !! s = Some o → ow_withheld o = false.

Definition appearances_ok (a : AppearanceSets) : Prop :=
  ∀ d t, as_starting a = Some d → as_last_began a = Some t → t + CARRIER_APPEARANCE_HOLD_OFF ≤ d.

Record inv w : Prop := {
  iv_entry a e : attachments w !! a = Some e → entry_ok e;
  iv_connected a : is_Some (attachments w !! a) → is_Some (connections w !! a);
  iv_handles (a : ConnectionHandle) : is_Some (connections w !! a) → a < w_next_handle w;
  iv_sorted : StronglySorted Z.lt (map qs_seq (signals w));
  iv_signals q : q ∈ signals w → qs_seq q < next_seq w;
  iv_held h : h ∈ held w → hg_seq h < next_seq w ∧ ∀ q, q ∈ signals w → hg_seq h < qs_seq q;
  iv_nodup : NoDup (map hg_seq (held w));
  iv_paired a e p : attachments w !! a = Some e → ae_paired_seq e = Some p → p < next_seq w;
  iv_order a e k p : attachments w !! a = Some e → key_of w a = Some k → ae_paired_seq e = Some p → ordered w (ae_adapter e) k p;
  iv_bound : pending w ≤ pending_cap + 1;
  iv_registry : registry_ok (w_core w);
  iv_trackers : trackers_ok (w_core w);
  iv_appearances : appearances_ok (c_appearances (w_core w)) }.

(** ** How a region changes the state *)

Definition opt_le (x y : option Z) : Prop := ∀ p, x = Some p → ∃ q, y = Some q ∧ p ≤ q.

(** An entry keeps its adapter; the latest signal that paired with it only grows, and only under
    the turn; a withholding stays until a signal that arrived later has paired. *)
Record entry_step (mine : bool) (e e' : AttachmentEntry) : Prop := {
  es_adapter : ae_adapter e' = ae_adapter e;
  es_paired : opt_le (ae_paired_seq e) (ae_paired_seq e');
  es_quiet : mine = false → ae_paired_seq e' = ae_paired_seq e;
  es_withheld x : ae_withheld_by e = Some x →
    (∃ y, ae_withheld_by e' = Some y ∧ x ≤ y) ∨ ∃ p, ae_paired_seq e' = Some p ∧ x < p }.

Record guarantee (mine : bool) (w w' : World) : Prop := {
  gu_next : next_seq w ≤ next_seq w';
  gu_handle : w_next_handle w ≤ w_next_handle w';
  gu_dead (a : ConnectionHandle) : a < w_next_handle w → connections w !! a = None → connections w' !! a = None;
  gu_removed a : is_Some (attachments w !! a) → attachments w' !! a = None → connections w' !! a = None;
  gu_entry a e e' : attachments w !! a = Some e → attachments w' !! a = Some e' → entry_step mine e e' ∧ key_of w' a = key_of w a;
  gu_new a e' : attachments w !! a = None → attachments w' !! a = Some e' → mine = false → ae_paired_seq e' = None;
  gu_signals q : q ∈ signals w' → q ∈ signals w ∨ next_seq w ≤ qs_seq q;
  gu_held h : mine = false → h ∈ held w' → h ∈ held w;
  gu_bound : mine = false → pending w ≤ pending_cap → pending w' ≤ pending_cap;
  gu_appearances : last_began w' = last_began w ∨
    ∃ t', last_began w' = Some t' ∧ ∀ t, last_began w = Some t → t + CARRIER_APPEARANCE_HOLD_OFF ≤ t' }.

Lemma opt_le_refl x : opt_le x x.
Proof. intros p ->. by exists p. Qed.

Lemma opt_le_trans x y z : opt_le x y → opt_le y z → opt_le x z.
Proof. intros H1 H2 p Hp. destruct (H1 p Hp) as (q & Hq & ?). destruct (H2 q Hq) as (r & -> & ?). exists r. split; [done|lia]. Qed.

Lemma entry_step_refl mine e : entry_step mine e e.
Proof. split; [done|apply opt_le_refl|done|]. intros x Hx. left. exists x. split; [done|lia]. Qed.

Lemma entry_step_trans mine e1 e2 e3 : entry_step mine e1 e2 → entry_step mine e2 e3 → entry_step mine e1 e3.
Proof.
  intros [A1 P1 Q1 W1] [A2 P2 Q2 W2]. split; [congruence|by eapply opt_le_trans|intros Hm; rewrite Q2, Q1; done|].
  intros x Hx. destruct (W1 x Hx) as [(y & Hy & Hle)|(p & Hp1 & Hlt)].
  - destruct (W2 y Hy) as [(z & Hz & ?)|(p & Hp1 & ?)]; [left; exists z|right; exists p]; (split; [done|lia]).
  - destruct (P2 p Hp1) as (q & Hq & ?). right. exists q. split; [done|lia].
Qed.

Lemma guarantee_refl mine w : guarantee mine w w.
Proof.
  split; try done; try lia.
  - intros a [e He]. by rewrite He.
  - intros a e e' He He'. rewrite He in He'. injection He' as <-. split; [apply entry_step_refl|done].
  - intros a e' Hn He. by rewrite Hn in He.
  - intros q Hq. by left.
  - by left.
Qed.

Lemma guarantee_weaken mine w w' : guarantee false w w' → guarantee mine w w'.
Proof.
  intros [G1 G2 G3 G4 G5 G6 G7 G8 G9 G10]. split; try done; [|intros; by eapply G6|intros; by apply G8|intros; by apply G9].
  intros a e e' He He'. destruct (G5 a e e' He He') as [[A P Q W] Hk]. split; [|done]. split; auto.
Qed.

(** A removed attachment does not come back. *)
Lemma removed_stays w1 w2 w3 mine a :
  inv w1 → inv w3 → guarantee mine w1 w2 → guarantee mine w2 w3 →
  is_Some (attachments w1 !! a) → attachments w2 !! a = None → attachments w3 !! a = None.
Proof.
  intros I1 I3 G1 G2 Hs Hn. pose proof (iv_handles _ I1 a (iv_connected _ I1 a Hs)) as Hh.
  pose proof (gu_removed _ _ _ G1 a Hs Hn) as Hc. pose proof (gu_handle _ _ _ G1) as Hle.
  assert (connections w3 !! a = None) as Hc3 by (apply (gu_dead _ _ _ G2); [lia|done]).
  destruct (attachments w3 !! a) as [e|] eqn:He; [|done]. destruct (iv_connected _ I3 a (ex_intro _ e He)) as [x Hx]. congruence.
Qed.

Lemma guarantee_trans mine w1 w2 w3 :
  inv w1 → inv w3 → guarantee mine w1 w2 → guarantee mine w2 w3 → guarantee mine w1 w3.
Proof.
  intros I1 I3 G1 G2. pose proof (gu_next _ _ _ G1). pose proof (gu_handle _ _ _ G1).
  split.
  - pose proof (gu_next _ _ _ G2). lia.
  - pose proof (gu_handle _ _ _ G2). lia.
  - intros a Ha Hn. apply (gu_dead _ _ _ G2); [lia|]. by apply (gu_dead _ _ _ G1).
  - intros a Hs Hn. destruct (attachments w2 !! a) as [e2|] eqn:E2; [by apply (gu_removed _ _ _ G2); [eexists|]|].
    apply (gu_dead _ _ _ G2); [|by apply (gu_removed _ _ _ G1)].
    pose proof (iv_handles _ I1 a (iv_connected _ I1 a Hs)). lia.
  - intros a e1 e3 H1 H3. destruct (attachments w2 !! a) as [e2|] eqn:E2.
    + destruct (gu_entry _ _ _ G1 a e1 e2 H1 E2) as [S1 K1]. destruct (gu_entry _ _ _ G2 a e2 e3 E2 H3) as [S2 K2].
      split; [by eapply entry_step_trans|congruence].
    + pose proof (removed_stays w1 w2 w3 mine a I1 I3 G1 G2 (ex_intro _ e1 H1) E2). congruence.
  - intros a e3 Hn H3 Hm. destruct (attachments w2 !! a) as [e2|] eqn:E2; [|by apply (gu_new _ _ _ G2 a)].
    destruct (gu_entry _ _ _ G2 a e2 e3 E2 H3) as [S2 _]. rewrite (es_quiet _ _ _ S2 Hm). by apply (gu_new _ _ _ G1 a).
  - intros q Hq. apply (gu_signals _ _ _ G2) in Hq as [Hq|Hq]; [by apply (gu_signals _ _ _ G1)|right; lia].
  - intros h Hm Hh. apply (gu_held _ _ _ G1); [done|]. by apply (gu_held _ _ _ G2).
  - intros Hm Hb. apply (gu_bound _ _ _ G2); [done|]. by apply (gu_bound _ _ _ G1).
  - destruct (gu_appearances _ _ _ G2) as [E2|(t2 & E2 & H2)]; destruct (gu_appearances _ _ _ G1) as [E1|(t1 & E1 & H1)].
    + left. congruence.
    + right. exists t1. split; [congruence|done].
    + right. exists t2. split; [done|]. rewrite <- E1. done.
    + right. exists t2. split; [done|]. intros t Ht. specialize (H1 t Ht). specialize (H2 t1 E1).
      unfold CARRIER_APPEARANCE_HOLD_OFF, NANOS_PER_SEC in *. lia.
Qed.

(** A change of the state by a thread that does not use the turn. *)
Definition quiet_step w w' : Prop := inv w' ∧ guarantee false w w'.

Lemma quiet_step_refl w : inv w → quiet_step w w.
Proof. intros Hi. split; [done|apply guarantee_refl]. Qed.

Lemma quiet_step_trans w1 w2 w3 : inv w1 → quiet_step w1 w2 → quiet_step w2 w3 → quiet_step w1 w3.
Proof. intros I1 [I2 G1] [I3 G2]. split; [done|]. by apply (guarantee_trans _ w1 w2 w3). Qed.

(** ** Regions that leave the attachments and the signals alone *)

Record core_frame (c c' : Core) : Prop := {
  fr_attachments : c_attachments c' = c_attachments c;
  fr_connections : c_connections c' = c_connections c;
  fr_observed : c_observed c' = c_observed c;
  fr_signals : c_signals c' = c_signals c;
  fr_held : c_held c' = c_held c;
  fr_next : c_next_signal_seq c' = c_next_signal_seq c;
  fr_appearances : c_appearances c' = c_appearances c;
  fr_registry : registry_ok c → registry_ok c';
  fr_trackers : trackers_ok c → trackers_ok c' }.

Definition frame w w' : Prop := core_frame (w_core w) (w_core w') ∧ w_next_handle w' = w_next_handle w.

Lemma core_frame_refl c : core_frame c c.
Proof. by split. Qed.

Lemma core_frame_trans c1 c2 c3 : core_frame c1 c2 → core_frame c2 c3 → core_frame c1 c3.
Proof. intros [] []. split; [congruence..|auto|auto]. Qed.

(** [core_frame], with the fields that matter removed from the attachments [gone]. *)
Lemma frame_removal (gone : option ConnectionHandle) w w' c :
  core_frame c (w_core w') → w_next_handle w' = w_next_handle w →
  c_attachments c = match gone with Some a => delete a (attachments w) | None => attachments w end →
  c_connections c = match gone with Some a => delete a (connections w) | None => connections w end →
  (∀ a, Some a ≠ gone → c_observed c !! a = c_observed (w_core w) !! a) →
  c_signals c = signals w → c_held c = held w → c_next_signal_seq c = next_seq w → c_appearances c = c_appearances (w_core w) →
  (registry_ok (w_core w) → registry_ok c) → (trackers_ok (w_core w) → trackers_ok c) →
  inv w → quiet_step w w'.
Proof.
  intros [F1 F2 F3 F4 F5 F6 F8 F9 F10] H7 H1 H2 H3 H4 H5 H6 H8 H9 H10 Hi.
  assert (∀ a e, attachments w' !! a = Some e → attachments w !! a = Some e ∧ Some a ≠ gone) as Ha.
  { intros a e. unfold attachments at 1. rewrite F1, H1. destruct gone as [g|]; [|done].
    rewrite lookup_delete_Some. intros [Hne He]. split; [done|congruence]. }
  assert (∀ a, is_Some (connections w' !! a) ↔ is_Some (connections w !! a) ∧ Some a ≠ gone) as Hc.
  { intros a. unfold connections at 1. rewrite F2, H2. destruct gone as [g|]; [|naive_solver].
    destruct (decide (a = g)) as [->|Hne]; [rewrite lookup_delete_eq; by split; [intros []|intros [_ []]]|].
    rewrite lookup_delete_ne by done. split; [intros Hs; split; [done|congruence]|by intros [? _]]. }
  assert (∀ a, Some a ≠ gone → key_of w' a = key_of w a) as Hk.
  { intros a Hg. unfold key_of, observed_pairing_key. by rewrite F3, H3. }
  assert (signals w' = signals w) as Hs by (unfold signals at 1; by rewrite F4, H4).
  assert (held w' = held w) as Hh by (unfold held at 1; by rewrite F5, H5).
  assert (next_seq w' = next_seq w) as Hn by (unfold next_seq at 1; by rewrite F6, H6).
  assert (pending w' = pending w) as Hp by (unfold pending; by rewrite Hs, Hh).
  assert (last_began w' = last_began w) as Hl by (unfold last_began; by rewrite F8, H8).
  split.
  - split.
    + intros a e [He _]%Ha. by apply (iv_entry _ Hi a).
    + intros a [e [He Hg]%Ha]. apply Hc. split; [|done]. apply (iv_connected _ Hi). by exists e.
    + intros a [Hs' _]%Hc. rewrite H7. by apply (iv_handles _ Hi).
    + rewrite Hs. apply (iv_sorted _ Hi).
    + rewrite Hs, Hn. apply (iv_signals _ Hi).
    + rewrite Hs, Hh, Hn. apply (iv_held _ Hi).
    + rewrite Hh. apply (iv_nodup _ Hi).
    + intros a e p [He _]%Ha. rewrite Hn. by apply (iv_paired _ Hi a).
    + intros a e k p [He Hg]%Ha. unfold ordered. rewrite Hk, Hs, Hh by done. by apply (iv_order _ Hi a).
    + rewrite Hp. apply (iv_bound _ Hi).
    + apply F9, H9, Hi.
    + apply F10, H10, Hi.
    + rewrite F8, H8. apply Hi.
  - split.
    + rewrite Hn. lia.
    + rewrite H7. lia.
    + intros a _ Hnone. apply eq_None_not_Some. intros [[x Hx] _]%Hc. congruence.
    + intros a Hsome Hnone. apply eq_None_not_Some. intros [_ Hg]%Hc. destruct Hsome as [e He].
      unfold attachments at 1 in Hnone. rewrite F1, H1 in Hnone. destruct gone as [g|]; [|congruence].
      rewrite lookup_delete_ne in Hnone by congruence. congruence.
    + intros a e e' He [He' Hg]%Ha. rewrite He in He'. injection He' as <-. split; [apply entry_step_refl|by apply Hk].
    + intros a e' Hnone [He' _]%Ha. congruence.
    + rewrite Hs. by left.
    + by rewrite Hh.
    + by rewrite Hp.
    + by left.
Qed.

Lemma frame_ok w w' : frame w w' → inv w → quiet_step w w'.
Proof. intros [Hf Hh]. by apply (frame_removal None w w' (w_core w)). Qed.
End Inv.
