(* ===== verification/PipelineQuiet.v ===== *)
(** * Programs that do not use the binding turn

    A program is quiet when all its regions keep the invariant and change the state only as a
    thread without the turn may; then it keeps whatever assertion is stable.  All programs of
    the pipelines are quiet but those of the pass over the pending signals. *)

From stdpp Require Import sorting.
From S2P Require Import Prelude Ordered Ids Json Delivery Capabilities Envelope Keys Trust Signing Replay Receipt Reply Receiver Agreement Pairing.
From S2P Require Import Registration Sender RecordBook Bindings Authorization Transport Presence Registry PresenceAuth ReceiptAuth Sealing.
From S2P Require Import AgreementKeys IssuedPairing SessionBinding Concurrent PipelineData PipelinePresence PipelineSignals PipelineBinding.
From S2P Require Import PipelineEvents PipelineSend PipelineReceive PipelineApi PipelineInv.

Section Quiet.
Context `{C : Crypto} `{HK : Hpke} `{MO : MapOrder} `{E : PipelineEnv}.
Implicit Types w : World.

(** ** The registry's own sessions are never marked withheld *)

Lemma evict_own s r : rr_own (Registry.evict s r) = rr_own r.
Proof. unfold Registry.evict. by destruct (is_some _). Qed.

Lemma foldl_own {A} (f : PresenceRegistry → A → PresenceRegistry) l r :
  (∀ r a, rr_own (f r a) = rr_own r) → rr_own (foldl f r l) = rr_own r.
Proof. intros Hf. revert r. induction l as [|a l IH]; intros r; [done|]. cbn [foldl]. by rewrite IH, Hf. Qed.

Lemma make_room_own issuer now r : rr_own (registry_make_room issuer now r).2 = rr_own r.
Proof.
  assert (∀ r, rr_own (evict_own_stale issuer now r) = rr_own r) as H1 by (intros; apply foldl_own; intros; apply evict_own).
  assert (∀ r, rr_own (registry_sweep now r) = rr_own r) as H2 by (intros; by apply foldl_own).
  assert (∀ r, rr_own (fair_share issuer r).2 = rr_own r) as H3.
  { intros r1. unfold fair_share. destruct (_ <? _); [done|]. destruct (fair_victim _ _); [apply evict_own|done]. }
  unfold registry_make_room. repeat case_match; cbn [snd]; rewrite ?H3, ?H2, ?H1; done.
Qed.

Lemma accept_signed_own record carrier issuer now r : rr_own (accept_signed record carrier issuer now r).2 = rr_own r.
Proof.
  unfold accept_signed, registry_insert. case_match; [done|].
  destruct (is_some (rr_held r !! _)) eqn:Ei.
  - by destruct (rr_held r !! pn_session_id record).
  - pose proof (make_room_own (Some issuer) now r) as Hm. destruct (registry_make_room _ _ _) as [[u|e] r'] eqn:Er; cbn [snd] in Hm |- *; [|done].
    by destruct (rr_held r' !! _).
Qed.

Lemma accept_record_own rec carrier at_ now e r : rr_own (accept_authenticated_record rec carrier at_ now e r).2 = rr_own r.
Proof.
  unfold accept_authenticated_record, accept_parsed.
  repeat (case_match; simplify_eq; cbn [snd]; try done).
  all: match goal with H : accept_signed ?a ?b ?c ?d ?x = _, Ht : take_forgotten _ = _ |- _ =>
         pose proof (accept_signed_own a b c d x) as Ho; rewrite H in Ho; injection Ht as _ <-; exact Ho end.
Qed.

Lemma deregister_registry_ok c s : registry_ok c → ∀ c', rr_own (c_registry c') = rr_own (deregister_own s (c_registry c)).2 → registry_ok c'.
Proof.
  intros Hr c' Ho s' o. rewrite Ho. unfold deregister_own. destruct (rr_own (c_registry c) !! s) as [x|]; [|apply Hr]. cbn [snd].
  intros H. apply (Hr s'). revert H. case_match; cbn; rewrite lookup_delete_Some; by intros [_ ?].
Qed.

Lemma register_registry_ok c d c' : registry_ok c → rr_own (c_registry c') = rr_own (register_own d (c_registry c)) → registry_ok c'.
Proof.
  intros Hr Ho s o. rewrite Ho. unfold register_own. cbn. rewrite lookup_insert_Some. intros [[<- <-]|[_ H]]; [|by apply (Hr s)].
  cbn. destruct (rr_own (c_registry c) !! sd_session_id d) as [o|] eqn:Eo; [by apply (Hr (sd_session_id d))|done].
Qed.

(** ** What a hold of the lock applies first *)

Lemma end_own_session_frame session now c : core_frame c (end_own_session session now c).2.
Proof.
  unfold end_own_session. destruct (withdraw session now true _) as [record issuer]. cbn [snd].
  split; try done. intros Hr. by eapply (deregister_registry_ok c session).
Qed.

Lemma apply_one_closure_ok w x : inv w → quiet_step w (apply_one_closure w x).
Proof.
  intros Hi. unfold apply_one_closure, apply_closure. destruct x as [a adapter]. cbn [fst snd].
  case_bool_decide as Ec; cbn [negb]; [|by apply frame_ok; [split; [split|]|]].
  set (c := w_core w). set (session := e ← c_attachments c !! a; ae_session e).
  set (c1 := c <| c_attachments := _ |> <| c_connections := _ |> <| c_carriers := _ |> <| c_pairing := _ |> <| c_observed := _ |>).
  assert (∀ w', core_frame c1 (w_core w') → w_next_handle w' = w_next_handle w → quiet_step w w') as Hq.
  { intros w' Hf Hh. apply (frame_removal (Some a) w w' c1); try done. intros b Hb. subst c1. cbn.
    rewrite lookup_delete_ne by congruence. done. }
  destruct session as [s|]; [|apply Hq; [apply core_frame_refl|done]].
  pose proof (end_own_session_frame s (w_clock w) c1) as Hf.
  destruct (end_own_session s (w_clock w) c1) as [[[sub record] devices] c2]. by apply Hq.
Qed.

Lemma apply_closures_ok w : inv w → quiet_step w (apply_closures w).
Proof.
  unfold apply_closures. generalize (map_items (lc_pending (w_closures w))). intros l. revert w.
  induction l as [|x l IH]; intros w Hi; [by apply quiet_step_refl|]. cbn [foldl].
  pose proof (apply_one_closure_ok w x Hi) as H1. eapply quiet_step_trans; [done|exact H1|]. apply IH, H1.
Qed.

Lemma trackers_ok_same c c' :
  c_tracker_order c' = c_tracker_order c → (∀ k, is_Some (c_trackers c' !! k) → is_Some (c_trackers c !! k)) → trackers_ok c → trackers_ok c'.
Proof.
  intros Ho Hk [Hs Hin]. split; [|intros k Hs'; rewrite Ho; by apply Hin, Hk].
  assert (dom (c_trackers c') ⊆ dom (c_trackers c)) as Hd by (intros k; rewrite !elem_of_dom; apply Hk).
  apply subseteq_size in Hd. rewrite !size_dom in Hd. lia.
Qed.

(** A tracker replaced in place. *)
Lemma trackers_ok_insert c k t : is_Some (c_trackers c !! k) → trackers_ok c → trackers_ok (c <| c_trackers := <[ k := t ]> (c_trackers c) |>).
Proof.
  intros Hk. apply trackers_ok_same; [done|]. intros k' Hs. cbn in Hs. destruct (decide (k' = k)) as [->|Hne]; [done|].
  by rewrite lookup_insert_ne in Hs.
Qed.

Lemma announcement_settled_frame session device at_ result c : core_frame c (announcement_settled session device at_ result c).
Proof. unfold announcement_settled. destruct (c_announced c !! _) as [x|]; [|done]. destruct (_ =? _); [|done]. by destruct result. Qed.

Lemma apply_update_frame c u : core_frame c (apply_update c u).
Proof.
  destruct u as [k|k|s d t r]; cbn [apply_update].
  - destruct (c_trackers c !! k) as [t|] eqn:Et; [|done]. split; try done. intros Ht. by apply trackers_ok_insert; [exists t|].
  - split; try done. apply trackers_ok_same; [done|]. intros k' Hs. cbn in Hs. destruct (decide (k' = k)) as [->|Hne].
    + rewrite lookup_delete_eq in Hs. by destruct Hs.
    + by rewrite lookup_delete_ne in Hs.
  - apply announcement_settled_frame.
Qed.

Lemma apply_tracking_ok w : inv w → quiet_step w (apply_tracking w).
Proof.
  intros Hi. apply frame_ok; [|done]. split; [|done]. unfold apply_tracking. cbn. generalize (w_tracking w) as l. intros l.
  generalize (w_core w) as c. induction l as [|u l IH]; intros c; cbn [foldl]; [done|].
  eapply core_frame_trans; [apply (apply_update_frame c u)|apply IH].
Qed.

Lemma lock_ok w : inv w → quiet_step w (lock w).
Proof.
  intros Hi. pose proof (apply_closures_ok w Hi) as H1. eapply quiet_step_trans; [done|exact H1|]. apply apply_tracking_ok, H1.
Qed.

(** ** Quiet programs *)

Definition quiet {A} (p : pipe A) : Prop :=
  ∀ mine P, stable inv guarantee mine P → keeps inv guarantee mine P p mine (λ _, P).

Lemma stable_quiet_step mine P w w' : stable inv guarantee mine P → inv w → P w → quiet_step w w' → P w'.
Proof. intros Hs Hi Hp [Hi' Hg]. apply (Hs w w'); auto. Qed.

Lemma quiet_ret {A} (a : A) : quiet (Ret a).
Proof. intros mine P Hs. by split. Qed.

Lemma quiet_spin {A} : quiet (Spin : pipe A).
Proof. by intros mine P Hs. Qed.

Lemma quiet_call {R} (x : pcall R) : quiet (call x).
Proof. intros mine P Hs. apply keeps_call. Qed.

Lemma quiet_then {A B} (m : pipe A) (f : A → pipe B) : quiet m → (∀ a, quiet (f a)) → quiet (m ≫= f).
Proof. intros Hm Hf mine P Hs. eapply keeps_then; [by apply Hm|]. intros a. by apply Hf. Qed.

Lemma quiet_each {A} (l : list A) (body : A → pipe unit) : (∀ a, quiet (body a)) → quiet (each l body).
Proof. intros Hb mine P Hs. apply keeps_each. intros a _. by apply Hb. Qed.

Lemma quiet_or_panic {A} (o : option A) : quiet (or_panic o).
Proof. destruct o; [apply quiet_ret|apply quiet_spin]. Qed.

Lemma quiet_spawn {A} (j : Job) (k : pipe A) : quiet k → quiet (Spawn j k).
Proof. intros Hk mine P Hs. by apply Hk. Qed.

Lemma quiet_region {B} (f : World → B * World) : (∀ w, inv w → quiet_step w (f w).2) → quiet (region f).
Proof.
  intros Hf mine P Hs. apply keeps_region; [done|]. intros w Hi Hp. pose proof (Hf w Hi) as Hq.
  split_and!; [apply Hq|by apply guarantee_weaken, Hq|by eapply stable_quiet_step].
Qed.

Lemma quiet_locked_world {B} (f : World → B * World) : (∀ w, inv w → quiet_step w (f w).2) → quiet (locked_world f).
Proof.
  intros Hf. apply quiet_region. intros w Hi. pose proof (lock_ok w Hi) as Hl.
  eapply quiet_step_trans; [done|exact Hl|]. apply Hf, Hl.
Qed.

Lemma quiet_locked {B} (f : Core → B * Core) : (∀ c, core_frame c (f c).2) → quiet (locked f).
Proof.
  intros Hf. apply quiet_locked_world. intros w Hi. apply frame_ok; [|done]. unfold on_core.
  specialize (Hf (w_core w)). destruct (f (w_core w)) as [b c]. by split.
Qed.

Lemma quiet_reading {B} (f : Core → B) : quiet (reading f).
Proof. apply quiet_locked. intros c. apply core_frame_refl. Qed.

Lemma quiet_mono : quiet monotonic.
Proof. apply quiet_region. intros w Hi. by apply quiet_step_refl. Qed.

Lemma quiet_clock : quiet clock_now.
Proof. apply quiet_region. intros w Hi. by apply quiet_step_refl. Qed.
End Quiet.

(** ** Changes of the pipelines' state, one kind at a time

    For each kind of change a region makes (an attachment's entry, the pending signals, a new
    attachment or connection, the sets of announcements), what keeps the invariant. *)

Section Moves.
Context `{C : Crypto} `{HK : Hpke} `{MO : MapOrder} `{E : PipelineEnv}.
Implicit Types w : World.

(** ** An entry *)

Lemma entry_change mine w w' a e e' n :
  attachments w !! a = Some e → entry_ok e' → entry_step mine e e' → next_seq w ≤ n →
  (∀ p, ae_paired_seq e' = Some p → p < n) →
  (∀ k p, key_of w a = Some k → ae_paired_seq e' = Some p → ordered w (ae_adapter e') k p) →
  core_frame (set_entry a e' (w_core w <| c_next_signal_seq := n |>)) (w_core w') → w_next_handle w' = w_next_handle w →
  inv w → inv w' ∧ guarantee mine w w'.
Proof.
  intros He Hok Hstep Hn Hpaired Hord Hf Hh Hi.
  assert (∀ b x, attachments w' !! b = Some x → (b = a ∧ x = e') ∨ (b ≠ a ∧ attachments w !! b = Some x)) as Hl.
  { intros b x. unfold attachments at 1. rewrite (fr_attachments _ _ Hf). cbn. rewrite lookup_insert_Some. intros [[<- <-]|[Hne Hx]]; auto. }
  assert (∀ b, is_Some (attachments w' !! b) ↔ is_Some (attachments w !! b)) as Hsome.
  { intros b. unfold attachments at 1. rewrite (fr_attachments _ _ Hf). cbn. destruct (decide (b = a)) as [->|Hne].
    - rewrite lookup_insert_eq. rewrite He. by split.
    - by rewrite lookup_insert_ne. }
  assert (∀ b, key_of w' b = key_of w b) as Hk by (intros b; unfold key_of, observed_pairing_key; by rewrite (fr_observed _ _ Hf)).
  assert (connections w' = connections w) as Hc by (unfold connections; by rewrite (fr_connections _ _ Hf)).
  assert (signals w' = signals w) as Hs by (unfold signals; by rewrite (fr_signals _ _ Hf)).
  assert (held w' = held w) as Hd by (unfold held; by rewrite (fr_held _ _ Hf)).
  assert (next_seq w' = n) as Hnx by (unfold next_seq; by rewrite (fr_next _ _ Hf)).
  assert (c_appearances (w_core w') = c_appearances (w_core w)) as Ha by (by rewrite (fr_appearances _ _ Hf)).
  split.
  - split.
    + intros b x [[-> ->]|[_ Hx]]%Hl; [done|by apply (iv_entry _ Hi b)].
    + intros b. rewrite Hsome, Hc. apply (iv_connected _ Hi).
    + rewrite Hc, Hh. apply (iv_handles _ Hi).
    + rewrite Hs. apply (iv_sorted _ Hi).
    + rewrite Hs, Hnx. intros q Hq. pose proof (iv_signals _ Hi q Hq). lia.
    + rewrite Hs, Hd, Hnx. intros h Hh'. destruct (iv_held _ Hi h Hh'). split; [lia|done].
    + rewrite Hd. apply (iv_nodup _ Hi).
    + intros b x p [[-> ->]|[_ Hx]]%Hl Hp; rewrite Hnx; [by apply Hpaired|]. pose proof (iv_paired _ Hi b x p Hx Hp). lia.
    + intros b x k p. rewrite Hk. unfold ordered. rewrite Hs, Hd. intros [[-> ->]|[_ Hx]]%Hl; [by apply Hord|by apply (iv_order _ Hi b)].
    + unfold pending. rewrite Hs, Hd. apply (iv_bound _ Hi).
    + apply (fr_registry _ _ Hf). apply Hi.
    + apply (fr_trackers _ _ Hf). apply Hi.
    + rewrite Ha. apply Hi.
  - split.
    + rewrite Hnx. lia.
    + rewrite Hh. lia.
    + by rewrite Hc.
    + intros b Hb Hnone. apply Hsome in Hb. rewrite Hnone in Hb. by destruct Hb.
    + intros b x x' Hx [[-> ->]|[_ Hx']]%Hl; (split; [|by apply Hk]); [by simplify_eq|]. simplify_eq. apply entry_step_refl.
    + intros b x Hnone [[-> ->]|[_ Hx]]%Hl; congruence.
    + rewrite Hs. by left.
    + by rewrite Hd.
    + unfold pending. by rewrite Hs, Hd.
    + left. unfold last_began. by rewrite Ha.
Qed.

(** An entry whose pairing stays as it was. *)
Lemma entry_quiet w w' a e e' n :
  attachments w !! a = Some e → entry_ok e' → ae_adapter e' = ae_adapter e → ae_paired_seq e' = ae_paired_seq e →
  (∀ x, ae_withheld_by e = Some x → ∃ y, ae_withheld_by e' = Some y ∧ x ≤ y) → next_seq w ≤ n →
  core_frame (set_entry a e' (w_core w <| c_next_signal_seq := n |>)) (w_core w') → w_next_handle w' = w_next_handle w →
  inv w → quiet_step w w'.
Proof.
  intros He Hok Had Hp Hw Hn Hf Hh Hi. eapply (entry_change false w w' a e e' n); try done.
  - split; [done|rewrite Hp; apply opt_le_refl|done|]. intros x Hx. left. by apply Hw.
  - rewrite Hp. intros p Hpp. pose proof (iv_paired _ Hi a e p He Hpp). lia.
  - rewrite Hp, Had. intros k p Hk Hpp. by apply (iv_order _ Hi a).
Qed.

(** ** The pending signals *)

Lemma sorted_sublist (l1 l2 : list Z) : l1 `sublist_of` l2 → StronglySorted Z.lt l2 → StronglySorted Z.lt l1.
Proof.
  induction 1 as [|x l1 l2 Hsub IH|x l1 l2 Hsub IH]; [done| |]; intros Hs; apply StronglySorted_inv in Hs as [Hs Hx].
  - constructor; [by apply IH|]. rewrite Forall_forall in Hx |- *. intros y Hy. by eapply Hx, elem_of_sublist.
  - by apply IH.
Qed.

(** Pending signals go, and at most a newest one comes. *)
Lemma pending_change w w' c s1 held1 new n :
  s1 `sublist_of` signals w → held1 `sublist_of` held w →
  (new = [] ∨ ∃ q, new = [q] ∧ next_seq w ≤ qs_seq q < n) → next_seq w ≤ n →
  (pending w ≤ pending_cap → Z.of_nat (length (s1 ++ new) + length held1) ≤ pending_cap) →
  (pending w ≤ pending_cap + 1 → Z.of_nat (length (s1 ++ new) + length held1) ≤ pending_cap + 1) →
  core_frame (w_core w) c →
  core_frame (c <| c_signals := s1 ++ new |> <| c_held := held1 |> <| c_next_signal_seq := n |>) (w_core w') →
  w_next_handle w' = w_next_handle w → inv w → quiet_step w w'.
Proof.
  intros Hs1 Hh1 Hnew Hn Hb1 Hb2 Hf0 Hf Hh Hi.
  assert (attachments w' = attachments w) as Ha by (unfold attachments; rewrite (fr_attachments _ _ Hf); apply (fr_attachments _ _ Hf0)).
  assert (connections w' = connections w) as Hc by (unfold connections; rewrite (fr_connections _ _ Hf); apply (fr_connections _ _ Hf0)).
  assert (∀ b, key_of w' b = key_of w b) as Hk.
  { intros b. unfold key_of, observed_pairing_key. rewrite (fr_observed _ _ Hf). cbn. by rewrite (fr_observed _ _ Hf0). }
  assert (signals w' = s1 ++ new) as Hs by (unfold signals; by rewrite (fr_signals _ _ Hf)).
  assert (held w' = held1) as Hd by (unfold held; by rewrite (fr_held _ _ Hf)).
  assert (next_seq w' = n) as Hnx by (unfold next_seq; by rewrite (fr_next _ _ Hf)).
  assert (c_appearances (w_core w') = c_appearances (w_core w)) as Hap by (rewrite (fr_appearances _ _ Hf); apply (fr_appearances _ _ Hf0)).
  assert (∀ q, q ∈ s1 ++ new → q ∈ signals w ∨ next_seq w ≤ qs_seq q < n) as Hq.
  { intros q [Hq|Hq]%elem_of_app; [left; by eapply elem_of_sublist|]. destruct Hnew as [->|(x & -> & Hx)]; [by apply not_elem_of_nil in Hq|].
    apply list_elem_of_singleton in Hq as ->. by right. }
  split.
  - split.
    + rewrite Ha. apply (iv_entry _ Hi).
    + rewrite Ha, Hc. apply (iv_connected _ Hi).
    + rewrite Hc, Hh. apply (iv_handles _ Hi).
    + rewrite Hs, map_app. apply StronglySorted_app. split_and!.
      * intros x y (q & -> & Hq1)%list_elem_of_fmap Hy. destruct Hnew as [->|(z & -> & Hz)]; [by apply not_elem_of_nil in Hy|].
        apply list_elem_of_singleton in Hy as ->. pose proof (iv_signals _ Hi q (elem_of_sublist _ _ _ Hq1 Hs1)). lia.
      * eapply sorted_sublist; [|apply (iv_sorted _ Hi)]. by apply fmap_sublist.
      * destruct Hnew as [->|(z & -> & Hz)]; repeat constructor.
    + rewrite Hs, Hnx. intros q [Hq1|?]%Hq; [|lia]. pose proof (iv_signals _ Hi q Hq1). lia.
    + rewrite Hs, Hd, Hnx. intros h Hh'. destruct (iv_held _ Hi h (elem_of_sublist _ _ _ Hh' Hh1)) as [Hlt Hall]. split; [lia|].
      intros q [Hq1|?]%Hq; [by apply Hall|lia].
    + rewrite Hd. eapply sublist_NoDup; [apply (iv_nodup _ Hi)|]. by apply fmap_sublist.
    + rewrite Ha, Hnx. intros a e p He Hp. pose proof (iv_paired _ Hi a e p He Hp). lia.
    + rewrite Ha. intros a e k p He. rewrite Hk. intros Hka Hp. destruct (iv_order _ Hi a e k p He Hka Hp) as [H1 H2].
      pose proof (iv_paired _ Hi a e p He Hp). unfold ordered. rewrite Hs, Hd. split.
      * intros h Hh'. apply H1. by eapply elem_of_sublist.
      * intros q [Hq1|?]%Hq; [by apply H2|lia].
    + unfold pending. rewrite Hs, Hd. apply Hb2, Hi.
    + apply (fr_registry _ _ Hf). apply (fr_registry _ _ Hf0), Hi.
    + apply (fr_trackers _ _ Hf). apply (fr_trackers _ _ Hf0), Hi.
    + rewrite Hap. apply Hi.
  - split.
    + rewrite Hnx. lia.
    + rewrite Hh. lia.
    + by rewrite Hc.
    + intros a [e He]. by rewrite Ha, He.
    + rewrite Ha. intros a e e' He He'. simplify_eq. split; [apply entry_step_refl|apply Hk].
    + rewrite Ha. intros a e' Hnone He'. simplify_eq.
    + rewrite Hs. intros q [?|?]%Hq; [by left|right; lia].
    + rewrite Hd. intros h _ Hh'. by eapply elem_of_sublist.
    + intros _. unfold pending at 2. rewrite Hs, Hd. apply Hb1.
    + left. unfold last_began. by rewrite Hap.
Qed.

(** ** New attachments and connections *)

Lemma open_change w w' adapter a cross_check :
  connections w !! a = Some adapter → attachments w !! a = None →
  core_frame (set_entry a (opened_entry adapter cross_check) (w_core w)) (w_core w') → w_next_handle w' = w_next_handle w →
  inv w → quiet_step w w'.
Proof.
  intros Hconn Hnone Hf Hh Hi.
  assert (∀ b x, attachments w' !! b = Some x → (b = a ∧ x = opened_entry adapter cross_check) ∨ (b ≠ a ∧ attachments w !! b = Some x)) as Hl.
  { intros b x. unfold attachments at 1. rewrite (fr_attachments _ _ Hf). cbn. rewrite lookup_insert_Some. intros [[<- <-]|[Hne Hx]]; auto. }
  assert (∀ b, key_of w' b = key_of w b) as Hk by (intros b; unfold key_of, observed_pairing_key; by rewrite (fr_observed _ _ Hf)).
  assert (connections w' = connections w) as Hc by (unfold connections; by rewrite (fr_connections _ _ Hf)).
  assert (signals w' = signals w) as Hs by (unfold signals; by rewrite (fr_signals _ _ Hf)).
  assert (held w' = held w) as Hd by (unfold held; by rewrite (fr_held _ _ Hf)).
  assert (next_seq w' = next_seq w) as Hnx by (unfold next_seq; by rewrite (fr_next _ _ Hf)).
  assert (c_appearances (w_core w') = c_appearances (w_core w)) as Ha by (by rewrite (fr_appearances _ _ Hf)).
  split.
  - split.
    + intros b x [[-> ->]|[_ Hx]]%Hl; [done|by apply (iv_entry _ Hi b)].
    + intros b [x [[-> ->]|[_ Hx]]%Hl]; rewrite Hc; [by rewrite Hconn|]. apply (iv_connected _ Hi). by exists x.
    + rewrite Hc, Hh. apply (iv_handles _ Hi).
    + rewrite Hs. apply (iv_sorted _ Hi).
    + rewrite Hs, Hnx. apply (iv_signals _ Hi).
    + rewrite Hs, Hd, Hnx. apply (iv_held _ Hi).
    + rewrite Hd. apply (iv_nodup _ Hi).
    + intros b x p [[-> ->]|[_ Hx]]%Hl Hp; [done|]. rewrite Hnx. by apply (iv_paired _ Hi b x).
    + intros b x k p. rewrite Hk. unfold ordered. rewrite Hs, Hd. intros [[-> ->]|[_ Hx]]%Hl; [done|by apply (iv_order _ Hi b)].
    + unfold pending. rewrite Hs, Hd. apply (iv_bound _ Hi).
    + apply (fr_registry _ _ Hf). apply Hi.
    + apply (fr_trackers _ _ Hf). apply Hi.
    + rewrite Ha. apply Hi.
  - split.
    + rewrite Hnx. lia.
    + rewrite Hh. lia.
    + by rewrite Hc.
    + intros b [x Hx] Hn. unfold attachments at 1 in Hn. rewrite (fr_attachments _ _ Hf) in Hn. cbn in Hn.
      apply lookup_insert_None in Hn as [Hn _]. unfold attachments in Hx. congruence.
    + intros b x x' Hx [[-> ->]|[_ Hx']]%Hl; [congruence|]. simplify_eq. split; [apply entry_step_refl|by apply Hk].
    + intros b x Hn0 [[-> ->]|[_ Hx]]%Hl; [done|congruence].
    + rewrite Hs. by left.
    + by rewrite Hd.
    + unfold pending. by rewrite Hs, Hd.
    + left. unfold last_began. by rewrite Ha.
Qed.

(** A connection under the next handle, observed or not. *)
Lemma connect_change w w' c adapter :
  let handle := w_next_handle w in
  core_frame c (w_core w') → w_next_handle w' = handle + 1 →
  c_attachments c = attachments w → c_connections c = <[ handle := adapter ]> (connections w) →
  (∀ a, a ≠ handle → c_observed c !! a = c_observed (w_core w) !! a) →
  c_signals c = signals w → c_held c = held w → c_next_signal_seq c = next_seq w → c_appearances c = c_appearances (w_core w) →
  (registry_ok (w_core w) → registry_ok c) → (trackers_ok (w_core w) → trackers_ok c) →
  inv w → quiet_step w w'.
Proof.
  intros handle Hf Hh Ha Hc Ho Hs Hd Hnx Hap Hr Ht Hi.
  assert (attachments w' = attachments w) as Ha' by (unfold attachments at 1; by rewrite (fr_attachments _ _ Hf)).
  assert (connections w' = <[ handle := adapter ]> (connections w)) as Hc' by (unfold connections at 1; by rewrite (fr_connections _ _ Hf)).
  assert (∀ b, is_Some (attachments w !! b) → key_of w' b = key_of w b) as Hk.
  { intros b Hb. unfold key_of, observed_pairing_key. rewrite (fr_observed _ _ Hf), Ho; [done|].
    pose proof (iv_handles _ Hi b (iv_connected _ Hi b Hb)). unfold handle. lia. }
  assert (signals w' = signals w) as Hs' by (unfold signals at 1; by rewrite (fr_signals _ _ Hf)).
  assert (held w' = held w) as Hd' by (unfold held at 1; by rewrite (fr_held _ _ Hf)).
  assert (next_seq w' = next_seq w) as Hnx' by (unfold next_seq at 1; by rewrite (fr_next _ _ Hf)).
  assert (c_appearances (w_core w') = c_appearances (w_core w)) as Hap' by (by rewrite (fr_appearances _ _ Hf)).
  split.
  - split.
    + rewrite Ha'. apply (iv_entry _ Hi).
    + rewrite Ha', Hc'. intros a Hs1. apply (iv_connected _ Hi) in Hs1. rewrite lookup_insert_is_Some'. by right.
    + rewrite Hc', Hh. intros a [<-|Hs1]%lookup_insert_is_Some'; [lia|]. pose proof (iv_handles _ Hi a Hs1). unfold handle. lia.
    + rewrite Hs'. apply (iv_sorted _ Hi).
    + rewrite Hs', Hnx'. apply (iv_signals _ Hi).
    + rewrite Hs', Hd', Hnx'. apply (iv_held _ Hi).
    + rewrite Hd'. apply (iv_nodup _ Hi).
    + rewrite Ha', Hnx'. apply (iv_paired _ Hi).
    + rewrite Ha'. intros a e k p He. rewrite Hk by (by exists e). unfold ordered. rewrite Hs', Hd'. by apply (iv_order _ Hi a).
    + unfold pending. rewrite Hs', Hd'. apply (iv_bound _ Hi).
    + apply (fr_registry _ _ Hf). apply Hr, Hi.
    + apply (fr_trackers _ _ Hf). apply Ht, Hi.
    + rewrite Hap'. apply Hi.
  - split.
    + rewrite Hnx'. lia.
    + rewrite Hh. unfold handle. lia.
    + intros a Hlt Hn. rewrite Hc', lookup_insert_ne; [done|]. unfold handle. lia.
    + intros a [e He]. by rewrite Ha', He.
    + rewrite Ha'. intros a e e' He He'. simplify_eq. split; [apply entry_step_refl|]. apply Hk. by eexists.
    + rewrite Ha'. intros a e' Hn He'. simplify_eq.
    + rewrite Hs'. by left.
    + by rewrite Hd'.
    + unfold pending. by rewrite Hs', Hd'.
    + left. unfold last_began. by rewrite Hap'.
Qed.

(** ** The sets of announcements *)

Lemma appearances_change w w' x :
  core_frame (w_core w <| c_appearances := x |>) (w_core w') → w_next_handle w' = w_next_handle w → appearances_ok x →
  (as_last_began x = last_began w ∨
   ∃ t', as_last_began x = Some t' ∧ ∀ t, last_began w = Some t → t + CARRIER_APPEARANCE_HOLD_OFF ≤ t') →
  inv w → quiet_step w w'.
Proof.
  intros Hf Hh Hx Hl Hi.
  (* The same state but for the appearances, which nothing else reads. *)
  destruct (frame_ok w (w' <| w_core := w_core w' <| c_appearances := c_appearances (w_core w) |> |>)) as [Hi' Hg]; [|done|].
  { split; [|done]. destruct Hf as [F1 F2 F3 F4 F5 F6 F7 F8 F9]. split; try done. }
  split.
  - destruct Hi'. split; try done. by rewrite (fr_appearances _ _ Hf).
  - destruct Hg. split; try done. unfold last_began in *. rewrite (fr_appearances _ _ Hf). exact Hl.
Qed.
End Moves.
