(* ===== verification/PipelinePrograms.v ===== *)
(** * The quiet programs of the pipelines

    Every program but those of the pass over the pending signals keeps the invariant, and
    changes the state only as a thread without the binding turn may. *)

From stdpp Require Import sorting.
From S2P Require Import Prelude Ordered Ids Json Delivery Capabilities Envelope Keys Agreement Trust Signing Replay Receipt Reply Receiver Sender.
From S2P Require Import Pairing RecordBook Bindings Registration Authorization Transport Presence Registry PresenceAuth ReceiptAuth Sealing AgreementKeys.
From S2P Require Import IssuedPairing SessionBinding Concurrent PipelineData PipelinePresence PipelineSignals PipelineBinding.
From S2P Require Import PipelineEvents PipelineSend PipelineReceive PipelineApi PipelineInv PipelineQuiet.

Create HintDb quiet.
#[export] Hint Resolve quiet_ret quiet_spin quiet_call quiet_or_panic quiet_mono quiet_clock quiet_reading : quiet.

(** The shape of a program, down to the programs the hints know and the regions. *)
Ltac quiet_tac :=
  repeat first
    [ solve [auto with quiet]
    | apply quiet_then; [|intros ?]
    | apply quiet_each; intros ?
    | match goal with |- quiet (match ?x with _ => _ end) => destruct x end ].

(** A region that leaves the attachments and the signals alone, by cases. *)
Ltac frame_tac := repeat (case_match; simplify_eq; cbn [snd fst] in *); try done; try (by split).

Section Programs.
Context `{C : Crypto} `{HK : Hpke} `{MO : MapOrder} `{E : PipelineEnv}.
Implicit Types w : World.

Lemma quiet_world_frame {B} (f : World → B * World) : (∀ w, frame w (f w).2) → quiet (region f).
Proof. intros Hf. apply quiet_region. intros w Hi. by apply frame_ok. Qed.

Lemma quiet_locked_frame {B} (f : World → B * World) : (∀ w, frame w (f w).2) → quiet (locked_world f).
Proof. intros Hf. apply quiet_locked_world. intros w Hi. by apply frame_ok. Qed.

(** ** Announcements *)

Lemma quiet_settle_tracking u : quiet (settle_tracking u).
Proof.
  unfold settle_tracking. apply quiet_then; [by apply quiet_world_frame|]. intros _. apply quiet_region.
  intros w Hi. by apply apply_tracking_ok.
Qed.

Lemma quiet_deadline_at unix : quiet (deadline_at unix).
Proof. unfold deadline_at. quiet_tac. Qed.

Lemma quiet_control_deadline : quiet control_deadline.
Proof. unfold control_deadline. quiet_tac. Qed.

Lemma quiet_pass ca device destination payload deadline : quiet (pass ca device destination payload deadline).
Proof. unfold pass. quiet_tac. Qed.
#[local] Hint Resolve quiet_settle_tracking quiet_deadline_at quiet_control_deadline quiet_pass : quiet.

Lemma announcement_frame session device mono refresh now c : core_frame c (PipelinePresence.announcement session device mono refresh now c).2.
Proof. unfold PipelinePresence.announcement. frame_tac. Qed.

Lemma announcement_region_frame session device mono refresh w : frame w (announcement_region session device mono refresh w).2.
Proof.
  unfold announcement_region. destruct (carriage _ _) as [ca|]; [|by split]. unfold on_core.
  pose proof (announcement_frame session device mono refresh (w_clock w) (w_core w)) as Hf.
  destruct (PipelinePresence.announcement _ _ _ _ _ _) as [next c]. by split.
Qed.

Lemma quiet_announce_to_noting {B} session device refresh (nothing : B) passing :
  (∀ t, quiet (passing t)) → quiet (announce_to_noting session device refresh nothing passing).
Proof.
  intros Hp. unfold announce_to_noting. apply quiet_then; [apply quiet_mono|]. intros mono. apply quiet_then.
  { apply quiet_locked_frame. intros w. apply announcement_region_frame. }
  intros [[payload ca]|]; [|apply quiet_ret]. quiet_tac.
  apply quiet_locked. intros c. apply announcement_settled_frame.
Qed.

Lemma quiet_announce_to session device refresh : quiet (announce_to session device refresh).
Proof. apply quiet_announce_to_noting. intros t. apply quiet_ret. Qed.
#[local] Hint Resolve quiet_announce_to : quiet.

(** The regions that change the sets of announcements. *)
Lemma quiet_appearances {B} (b : AppearanceSets → B) (f : AppearanceSets → AppearanceSets) :
  (∀ a, appearances_ok a → appearances_ok (f a) ∧
    (as_last_began (f a) = as_last_began a ∨
     ∃ t', as_last_began (f a) = Some t' ∧ ∀ t, as_last_began a = Some t → t + CARRIER_APPEARANCE_HOLD_OFF ≤ t')) →
  quiet (locked (λ c, (b (c_appearances c), c <| c_appearances := f (c_appearances c) |>))).
Proof.
  intros Hf. apply quiet_locked_world. intros w Hi. destruct (Hf _ (iv_appearances _ Hi)) as [H1 H2].
  by apply (appearances_change w _ (f (c_appearances (w_core w)))).
Qed.

Lemma decide_set_ok now a :
  appearances_ok a → appearances_ok (decide_set now a).2 ∧ as_last_began (decide_set now a).2 = as_last_began a.
Proof.
  intros Ha. unfold decide_set, may_begin. destruct (as_uncovered a); [|done]. cbn [andb].
  destruct (as_starting a) as [d|] eqn:Es; [done|]. cbn [is_some negb andb].
  destruct (as_last_began a) as [t|] eqn:El; [|split; [|done]; intros d t; cbn; congruence].
  destruct (_ <=? _) eqn:Eb; [|done]. split; [|done]. intros d t'. cbn. intros [= <-] [= <-]. lia.
Qed.

Lemma first_passed_ok at_ a :
  appearances_ok a → appearances_ok (first_passed at_ a) ∧
    (as_last_began (first_passed at_ a) = as_last_began a ∨
     ∃ t', as_last_began (first_passed at_ a) = Some t' ∧ ∀ t, as_last_began a = Some t → t + CARRIER_APPEARANCE_HOLD_OFF ≤ t').
Proof.
  intros Ha. unfold first_passed. destruct (as_starting a) as [d|] eqn:Es; [|by split; [|left]]. split; [done|]. right.
  exists (Z.max d at_). split; [done|]. intros t Ht. pose proof (Ha d t Es Ht). lia.
Qed.

Lemma quiet_begin_set {B} (b : AppearanceSets → B) (x : AppearanceSets → AppearanceSets) now :
  (∀ a, appearances_ok a → appearances_ok (x a) ∧ as_last_began (x a) = as_last_began a) →
  quiet (locked (λ c, let '(begin, a) := decide_set now (x (c_appearances c)) in (begin, c <| c_appearances := a |>))).
Proof.
  intros Hx. apply quiet_locked_world. intros w Hi. unfold on_core. destruct (Hx _ (iv_appearances _ Hi)) as [H1 H2].
  destruct (decide_set_ok now _ H1) as [H3 H4]. destruct (decide_set now _) as [begin a]. cbn [snd] in *.
  apply (appearances_change w _ a); [done|done|done| |done]. left. by rewrite H4.
Qed.

Lemma quiet_announce_each pairs began : quiet (announce_each pairs began).
Proof.
  revert began. induction pairs as [|[s d] pairs IH]; intros began; cbn [announce_each]; [apply quiet_ret|].
  apply quiet_then; [|intros b; apply IH]. apply quiet_announce_to_noting. intros t. destruct began; [apply quiet_ret|].
  apply (quiet_appearances (λ _, true) (first_passed t)). intros a. apply first_passed_ok.
Qed.

Lemma quiet_announce_set : quiet announce_set.
Proof.
  unfold announce_set. apply quiet_then; [apply quiet_reading|]. intros [sessions devices]. apply quiet_then; [apply quiet_announce_each|].
  intros []; [apply quiet_ret|]. apply (quiet_appearances (λ _, tt) settle_set). intros a Ha. split; [|by left]. intros d t. done.
Qed.

Lemma quiet_on_carrier_appeared : quiet on_carrier_appeared.
Proof.
  unfold on_carrier_appeared. apply quiet_then; [apply quiet_mono|]. intros now. apply quiet_then.
  - apply (quiet_begin_set (λ _, true) (λ a, mkAppearances (as_last_began a) true (as_starting a))). by intros a Ha.
  - intros []; [apply quiet_announce_set|apply quiet_ret].
Qed.

Lemma quiet_begin_due : quiet begin_due_appearance_set.
Proof.
  unfold begin_due_appearance_set. apply quiet_then; [apply quiet_mono|]. intros now. apply quiet_then.
  - by apply (quiet_begin_set (λ _, true) (λ a, a)).
  - intros []; [apply quiet_announce_set|apply quiet_ret].
Qed.

Lemma quiet_release_presence session : quiet (release_presence session).
Proof. unfold release_presence. quiet_tac. Qed.

Lemma quiet_refresh_presence : quiet refresh_presence.
Proof. unfold refresh_presence. quiet_tac. Qed.
#[local] Hint Resolve quiet_on_carrier_appeared quiet_begin_due quiet_release_presence quiet_refresh_presence : quiet.

(** ** Withholding and the end of a binding *)

Lemma quiet_step_same w : inv w → quiet_step w (w <| w_core := w_core w |>).
Proof. intros Hi. by apply frame_ok. Qed.

(** A region that changes one entry and nothing else of the core. *)
Lemma set_entry_quiet w a e e' c' :
  attachments w !! a = Some e → entry_ok e' → ae_adapter e' = ae_adapter e → ae_paired_seq e' = ae_paired_seq e →
  (∀ x, ae_withheld_by e = Some x → ∃ y, ae_withheld_by e' = Some y ∧ x ≤ y) →
  core_frame (set_entry a e' (w_core w)) c' → inv w → quiet_step w (w <| w_core := c' |>).
Proof.
  intros He Hok Had Hp Hw Hf Hi. by apply (entry_quiet w _ a e e' (next_seq w)).
Qed.

Lemma later_withholds (o : option Z) seq x : o = Some x → ∃ y, Some (withheld_until_after o seq) = Some y ∧ x ≤ y.
Proof. intros ->. eexists. split; [done|]. cbn. lia. Qed.

Lemma withhold_region_ok a seq w : inv w → quiet_step w (on_core (withhold_region a seq) w).2.
Proof.
  intros Hi. unfold on_core, withhold_region. destruct (c_attachments (w_core w) !! a) as [e|] eqn:He; [|by apply quiet_step_same].
  destruct (match ae_paired_seq e with Some p => _ | None => _ end); [by apply quiet_step_same|].
  pose proof (iv_entry _ Hi a e He) as Hok. unfold entry_ok in Hok. set (e1 := e <| ae_withheld_by := _ |>).
  change (ae_session e1) with (ae_session e). destruct (ae_session e) as [s|] eqn:Es.
  - apply (set_entry_quiet w a e (e1 <| ae_withheld := true |>) _ He); try done; [|by cbn; apply later_withholds].
    unfold entry_ok. cbn. by rewrite Es.
  - apply (set_entry_quiet w a e e1 _ He); try done; [|by cbn; apply later_withholds].
    unfold entry_ok. cbn. by rewrite Hok, Es.
Qed.

Lemma quiet_withhold a seq : quiet (withhold a seq).
Proof. unfold withhold. apply quiet_then; [apply quiet_locked_world; apply withhold_region_ok|]. intros o. quiet_tac; apply quiet_call. Qed.

Lemma stop_unconfirmed_ok adapter a w : inv w → quiet_step w (on_core (stop_unconfirmed adapter a) w).2.
Proof.
  intros Hi. unfold on_core, stop_unconfirmed. destruct (opt_filter _ _) as [e|] eqn:Ef; [|by apply quiet_step_same].
  assert (c_attachments (w_core w) !! a = Some e) as He.
  { unfold opt_filter in Ef. destruct (c_attachments _ !! a) as [x|]; [|done]. by destruct (bool_decide _); simplify_eq. }
  unfold next_seq_after, then_some. destruct (_ <=? _); [|by apply quiet_step_same].
  pose proof (iv_entry _ Hi a e He) as Hok. unfold entry_ok in Hok. set (e1 := e <| ae_withheld_by := _ |>).
  set (e2 := if is_some (ae_session e1) then e1 <| ae_withheld := true |> else e1).
  assert (entry_ok e2 ∧ ae_adapter e2 = ae_adapter e ∧ ae_paired_seq e2 = ae_paired_seq e ∧ ae_withheld_by e2 = ae_withheld_by e1) as (H1 & H2 & H3 & H4).
  { subst e2. change (ae_session e1) with (ae_session e). unfold entry_ok. destruct (ae_session e) eqn:Es; cbn; by rewrite ?Es, ?Hok, ?Es. }
  apply (entry_quiet w _ a e e2 (next_seq w + 1)); try done; [|lia]. rewrite H4. cbn. intros x. apply later_withholds.
Qed.

Lemma quiet_finish_unconfirmed a stopped : quiet (finish_unconfirmed a stopped).
Proof. unfold finish_unconfirmed. quiet_tac; apply quiet_call. Qed.

Lemma quiet_end_subscription sub : quiet (end_subscription sub).
Proof. unfold end_subscription. quiet_tac. Qed.

Lemma quiet_log entry : quiet (log entry).
Proof. apply quiet_call. Qed.
#[local] Hint Resolve quiet_withhold quiet_finish_unconfirmed quiet_end_subscription quiet_log : quiet.

Lemma quiet_log_decision d a session : quiet (log_decision d a session).
Proof. unfold log_decision. quiet_tac. Qed.

Lemma unbind_write_ok a session w : inv w → quiet_step w (on_core (unbind_write a session (w_clock w)) w).2.
Proof.
  intros Hi. unfold on_core, unbind_write.
  set (c := match c_attachments (w_core w) !! a with Some e => _ | None => _ end).
  pose proof (end_own_session_frame session (w_clock w) c) as Hf.
  destruct (end_own_session session (w_clock w) c) as [[[sub record] devices] c'] eqn:Ee. cbn [snd] in *.
  subst c. destruct (c_attachments (w_core w) !! a) as [e|] eqn:He; [|by apply frame_ok; [split|]].
  apply (set_entry_quiet w a e _ _ He) in Hf; try done. cbn. intros x ->. exists x. split; [done|lia].
Qed.

Lemma quiet_unbind a : quiet (unbind a).
Proof.
  unfold unbind. apply quiet_then; [apply quiet_reading|]. intros [[adapter session]|]; [|apply quiet_ret]. apply quiet_then.
  { apply quiet_locked_world. apply unbind_write_ok. }
  intros out. quiet_tac.
Qed.
#[local] Hint Resolve quiet_log_decision quiet_unbind : quiet.

Lemma quiet_end_conflicted a : quiet (end_conflicted a).
Proof. unfold end_conflicted. quiet_tac. Qed.

Lemma mark_closed_ok a w : inv w → quiet_step w (on_core (λ c, (tt, mark_closed a c)) w).2.
Proof.
  intros Hi. unfold on_core, mark_closed. cbn [snd]. destruct (c_attachments (w_core w) !! a) as [e|] eqn:He; [|by apply quiet_step_same].
  apply (set_entry_quiet w a e (e <| ae_open := false |>) _ He); try done; [apply (iv_entry _ Hi a e He)|].
  cbn. intros x ->. exists x. split; [done|lia].
Qed.

Lemma remove_connection_ok x w : inv w → quiet_step w (remove_connection x w).
Proof.
  intros Hi. eapply (frame_removal (Some x) w _ (w_core (remove_connection x w))); try done.
  intros b Hb. cbn. rewrite lookup_delete_ne by congruence. done.
Qed.

Lemma quiet_end_connection x : quiet (end_connection x).
Proof.
  unfold end_connection. apply quiet_then; [apply quiet_locked_world; apply mark_closed_ok|]. intros _.
  apply quiet_then; [apply quiet_unbind|]. intros _. apply quiet_locked_world. intros w Hi. by apply remove_connection_ok.
Qed.
#[local] Hint Resolve quiet_end_conflicted quiet_end_connection : quiet.

Lemma quiet_drop_signal signal t seq : quiet (drop_signal signal t seq).
Proof. unfold drop_signal. quiet_tac. Qed.
End Programs.

#[export] Hint Resolve quiet_settle_tracking quiet_deadline_at quiet_control_deadline quiet_pass quiet_announce_to
  quiet_on_carrier_appeared quiet_begin_due quiet_release_presence quiet_refresh_presence quiet_withhold quiet_finish_unconfirmed
  quiet_end_subscription quiet_log quiet_log_decision quiet_unbind quiet_end_conflicted quiet_end_connection quiet_drop_signal : quiet.
