(* ===== verification/PipelineShare.v ===== *)
(** * The share of the pending signals

    Which pending signal makes room for a new one, in terms of what each holder has pending. *)

From stdpp Require Import sorting.
From S2P Require Import Prelude Ordered Ids PipelineData.

Section Share.
Context `{MO : MapOrder} {H : Type} `{Countable H}.
Implicit Types (l : list (H * Z)) (h : H).

(** What a holder has pending, in the order it is listed. *)
Definition seqs_of h l : list Z := map snd (List.filter (λ x, bool_decide (x.1 = h)) l).
Definition count_of h l : Z := Z.of_nat (length (seqs_of h l)).

Definition share_of (s : list Z) : option Share :=
  match s with
  | [] => None
  | x :: rest => Some (mkShare (Z.of_nat (length s)) (foldl Z.max x rest) (foldl Z.min x rest))
  end.

Lemma elem_of_seqs h l s : s ∈ seqs_of h l ↔ (h, s) ∈ l.
Proof.
  unfold seqs_of. rewrite list_elem_of_fmap. split.
  - intros ([h' s'] & -> & Hx). apply list_elem_of_In in Hx. apply List.filter_In in Hx as [Hx Hb].
    bool_hyps. cbn in *. subst. by apply list_elem_of_In.
  - intros Hx. exists (h, s). split; [done|]. apply list_elem_of_In, List.filter_In. split; [by apply list_elem_of_In|]. by apply bool_decide_eq_true.
Qed.

Lemma seqs_snoc h l x : seqs_of h (l ++ [x]) = if bool_decide (x.1 = h) then seqs_of h l ++ [x.2] else seqs_of h l.
Proof. unfold seqs_of. rewrite List.filter_app, map_app. cbn. destruct (bool_decide _); cbn; [done|]. by rewrite app_nil_r. Qed.

Lemma share_snoc s x :
  share_of (s ++ [x]) = let c := default (mkShare 0 x x) (share_of s) in Some (mkShare (sr_count c + 1) (Z.max (sr_latest c) x) (Z.min (sr_oldest c) x)).
Proof.
  destruct s as [|y s]; cbn; [by rewrite Z.max_id, Z.min_id|]. rewrite !foldl_app, !length_app. cbn. do 2 f_equal. lia.
Qed.

Lemma counts_spec l h : foldl count_signal (∅ : gmap H Share) l !! h = share_of (seqs_of h l).
Proof.
  induction l as [|x l IH] using rev_ind; [done|]. rewrite foldl_app, seqs_snoc. cbn [foldl]. unfold count_signal at 1.
  case_bool_decide as Ex.
  - subst h. by rewrite lookup_insert_eq, share_snoc, IH.
  - by rewrite lookup_insert_ne.
Qed.

(** The least and the greatest of a share are among what is pending. *)
Lemma fold_bound (s : list Z) x :
  let m := foldl Z.max x s in let n := foldl Z.min x s in
  m ∈ x :: s ∧ n ∈ x :: s ∧ ∀ y, y ∈ x :: s → n ≤ y ≤ m.
Proof.
  induction s as [|z s IH] using rev_ind; cbn; [split_and!; [left|left|intros y [->|[]%not_elem_of_nil]%elem_of_cons; lia]|].
  rewrite !foldl_app. cbn. destruct IH as (Hm & Hn & Hy).
  assert (∀ y, y ∈ x :: s ++ [z] ↔ y ∈ x :: s ∨ y = z) as Hs.
  { intros y. rewrite !elem_of_cons, elem_of_app, list_elem_of_singleton. tauto. }
  split_and!.
  - destruct (Z.max_spec (foldl Z.max x s) z) as [[_ ->]|[_ ->]]; apply Hs; auto.
  - destruct (Z.min_spec (foldl Z.min x s) z) as [[_ ->]|[_ ->]]; apply Hs; auto.
  - intros y [Hys| ->]%Hs; [specialize (Hy y Hys); lia|]. assert (x ∈ x :: s) as Hx by left. specialize (Hy x Hx). lia.
Qed.

Lemma share_of_spec s c :
  share_of s = Some c → sr_count c = Z.of_nat (length s) ∧ sr_latest c ∈ s ∧ sr_oldest c ∈ s ∧ ∀ y, y ∈ s → sr_oldest c ≤ y ≤ sr_latest c.
Proof. destruct s as [|x s]; [done|]. cbn. intros [= <-]. cbn. by destruct (fold_bound s x) as (H1 & H2 & H3). Qed.

Lemma count_none h l : share_of (seqs_of h l) = None → count_of h l = 0.
Proof. unfold count_of. by destruct (seqs_of h l). Qed.

(** The shares in the order the map gives them are those of the holders. *)
Lemma shares_spec l c :
  c ∈ map snd (map_items (foldl count_signal (∅ : gmap H Share) l)) ↔ ∃ h, share_of (seqs_of h l) = Some c.
Proof.
  rewrite list_elem_of_fmap. split.
  - intros ([h c'] & -> & Hx). exists h. rewrite map_items_perm in Hx. apply elem_of_map_to_list in Hx. by rewrite counts_spec in Hx.
  - intros [h Hh]. exists (h, c). split; [done|]. rewrite map_items_perm. apply elem_of_map_to_list. by rewrite counts_spec.
Qed.

Definition most_of l : Z := default 0 (sr_count <$> max_by_key sr_count (map snd (map_items (foldl count_signal (∅ : gmap H Share) l)))).

Lemma count_le_most h l : count_of h l ≤ most_of l.
Proof.
  unfold most_of. set (cs := map snd _). destruct (max_by_key sr_count cs) as [c|] eqn:Em.
  - cbn. destruct (share_of (seqs_of h l)) as [c'|] eqn:Es.
    + pose proof (max_by_key_max sr_count cs c Em c' (proj2 (shares_spec l c') (ex_intro _ h Es))) as Hle.
      apply Z.leb_le in Hle. destruct (share_of_spec _ _ Es) as [Hc _]. unfold count_of. lia.
    + rewrite (count_none _ _ Es). pose proof (max_by_key_elem sr_count cs c Em) as [g Hg]%shares_spec.
      destruct (share_of_spec _ _ Hg) as [-> _]. lia.
  - assert (cs = []) as Hn. { destruct cs as [|c cs'] eqn:Ec; [done|]. exfalso. clear -Em. unfold max_by_key in Em. cbn in Em.
      revert Em. generalize c. induction cs' as [|d cs' IH]; intros c0; [done|]. cbn. destruct (leb _ _); apply IH. }
    destruct (share_of (seqs_of h l)) as [c'|] eqn:Es; [|cbn; by rewrite (count_none _ _ Es)].
    assert (c' ∈ cs) as Hc by (apply shares_spec; by exists h). rewrite Hn in Hc. by apply not_elem_of_nil in Hc.
Qed.

(** [oldest g v l]: [v] is the oldest signal [g] has pending. *)
Definition oldest (g : H) (v : Z) l : Prop := (g, v) ∈ l ∧ ∀ s, (g, s) ∈ l → v ≤ s.

Lemma share_oldest g l c : share_of (seqs_of g l) = Some c → oldest g (sr_oldest c) l.
Proof.
  intros Hc. destruct (share_of_spec _ _ Hc) as (_ & _ & Ho & Hb). split; [by apply elem_of_seqs|].
  intros s Hs. apply Hb. by apply elem_of_seqs.
Qed.

Lemma share_victim_spec l h :
  match fair_share_victim l h with
  | Some v => ∃ g, oldest g v l ∧
      ((g = h ∧ ∀ g', count_of g' l ≤ count_of h l + 1) ∨
       (count_of h l + 2 ≤ count_of g l ∧ (∀ g', count_of g' l ≤ count_of g l) ∧
        ∀ g' s', count_of g' l = count_of g l → (g', s') ∈ l → ∃ s, (g, s) ∈ l ∧ s' ≤ s))
  | None => count_of h l = 0 ∧ ∀ g, count_of g l ≤ 1
  end.
Proof.
  unfold fair_share_victim. rewrite counts_spec. fold (most_of l).
  assert (default 0 (sr_count <$> share_of (seqs_of h l)) = count_of h l) as Hmine.
  { destruct (share_of (seqs_of h l)) as [c|] eqn:Es; cbn; [by destruct (share_of_spec _ _ Es) as [-> _]|by rewrite (count_none _ _ Es)]. }
  rewrite Hmine. destruct (_ <=? _) eqn:El.
  - apply Z.leb_le in El. set (cs := List.filter _ _).
    assert (∀ c, c ∈ cs ↔ (∃ g, share_of (seqs_of g l) = Some c) ∧ sr_count c = most_of l) as Hcs.
    { intros c. subst cs. rewrite list_elem_of_In, List.filter_In, <- list_elem_of_In, shares_spec. by rewrite Z.eqb_eq. }
    destruct (max_by_key sr_latest cs) as [c|] eqn:Em; cbn.
    + pose proof (max_by_key_elem sr_latest cs c Em) as [[g Hg] Hmost]%Hcs. exists g. split; [by apply share_oldest|]. right.
      destruct (share_of_spec _ _ Hg) as (Hc & Hl & _ & _). assert (count_of g l = most_of l) as Hcg by (unfold count_of; lia).
      split_and!; [lia|intros g'; rewrite Hcg; apply count_le_most|].
      intros g' s' Heq Hs'. exists (sr_latest c). split; [by apply elem_of_seqs|].
      destruct (share_of (seqs_of g' l)) as [c'|] eqn:Ec'.
      * destruct (share_of_spec _ _ Ec') as (Hc' & _ & _ & Hb'). assert (c' ∈ cs) as Hin.
        { apply Hcs. split; [by exists g'|]. unfold count_of in Heq. lia. }
        pose proof (max_by_key_max sr_latest cs c Em c' Hin) as Hle. apply Z.leb_le in Hle.
        apply elem_of_seqs in Hs'. destruct (Hb' s' Hs'). lia.
      * apply elem_of_seqs in Hs'. destruct (seqs_of g' l); [by apply not_elem_of_nil in Hs'|done].
    + exfalso. assert (∃ c, c ∈ cs) as [c Hc].
      { unfold most_of in El. destruct (max_by_key sr_count _) as [c|] eqn:Ec.
        - exists c. apply Hcs. pose proof (max_by_key_elem _ _ _ Ec) as Hin%shares_spec. split; [done|]. unfold most_of. by rewrite Ec.
        - cbn in El. unfold count_of in El. lia. }
      destruct cs as [|d cs'] eqn:Ed; [by apply not_elem_of_nil in Hc|]. clear -Em. unfold max_by_key in Em. cbn in Em.
      revert Em. generalize d. induction cs' as [|x cs' IH]; intros d0; [done|]. cbn. destruct (leb _ _); apply IH.
  - apply Z.leb_gt in El. destruct (share_of (seqs_of h l)) as [c|] eqn:Es; cbn.
    + exists h. split; [by apply share_oldest|]. left. split; [done|]. intros g'. pose proof (count_le_most g' l). lia.
    + rewrite (count_none _ _ Es) in *. split; [done|]. intros g. pose proof (count_le_most g l). lia.
Qed.

Lemma victim_pending l h v : fair_share_victim l h = Some v → ∃ g, (g, v) ∈ l.
Proof. intros Hv. pose proof (share_victim_spec l h) as Hs. rewrite Hv in Hs. destruct Hs as (g & [Hg _] & _). by exists g. Qed.
End Share.
