(* ===== verification/PipelineJobs.v ===== *)
(** * The other programs of the pipelines

    The events of the adapters up to the pass over the pending signals, the connections, the
    trusted keys, sending and receiving: all of them are quiet. *)

From stdpp Require Import sorting.
From S2P Require Import Prelude Ordered Ids Json Delivery Capabilities Envelope Keys Agreement Trust Signing Replay Receipt Reply Receiver Sender.
From S2P Require Import Pairing RecordBook Bindings Registration Authorization Transport Presence Registry PresenceAuth ReceiptAuth Sealing AgreementKeys.
From S2P Require Import IssuedPairing SessionBinding Concurrent PipelineData PipelinePresence PipelineSignals PipelineBinding.
From S2P Require Import PipelineEvents PipelineSend PipelineReceive PipelineApi PipelineInv PipelineQuiet PipelinePrograms PipelineShare.

Section Jobs.
Context `{C : Crypto} `{HK : Hpke} `{MO : MapOrder} `{E : PipelineEnv}.
Implicit Types w : World.

(** ** The queue of signals *)

Lemma take_first_sublist {A} (p : A → bool) l x rest :
  take_first p l = Some (x, rest) → p x = true ∧ x ∈ l ∧ rest `sublist_of` l ∧ length l = S (length rest).
Proof.
  revert rest. induction l as [|y l IH]; intros rest; [done|]. cbn. destruct (p y) eqn:Ep.
  - intros [= <- <-]. split_and!; [done|left|by apply sublist_cons|done].
  - destruct (take_first p l) as [[z r]|]; [|done]. cbn. intros [= -> <-]. destruct (IH r eq_refl) as (H1 & H2 & H3 & H4).
    split_and!; [done|by right|by apply sublist_skip|cbn; lia].
Qed.

Lemma take_first_none {A} (p : A → bool) l : take_first p l = None → ∀ x, x ∈ l → p x = false.
Proof.
  induction l as [|y l IH]; intros Hn x; [by intros ?%not_elem_of_nil|]. cbn in Hn. destruct (p y) eqn:Ep; [done|].
  destruct (take_first p l) as [[z r]|]; [done|]. intros [->|Hx]%elem_of_cons; [done|by apply IH].
Qed.

(** What is taken for room is one pending signal. *)
Lemma take_pending_spec seq c :
  let c' := (take_pending seq c).2 in
  ((∃ h, h ∈ c_held c ∧ hg_seq h = seq) ∨ (∃ q, q ∈ c_signals c ∧ qs_seq q = seq) →
    (length (c_held c') + length (c_signals c') + 1 = length (c_held c) + length (c_signals c))%nat) ∧
  c_held c' `sublist_of` c_held c ∧ c_signals c' `sublist_of` c_signals c ∧
  c' = c <| c_signals := c_signals c' |> <| c_held := c_held c' |>.
Proof.
  unfold take_pending. destruct (take_first _ (c_held c)) as [[h rest]|] eqn:E1.
  - destruct (take_first_sublist _ _ _ _ E1) as (_ & _ & Hs & Hl). cbn. split_and!; [lia|done|done|by destruct c].
  - destruct (take_first _ (c_signals c)) as [[q rest]|] eqn:E2.
    + destruct (take_first_sublist _ _ _ _ E2) as (_ & _ & Hs & Hl). cbn. split_and!; [lia|done|done|by destruct c].
    + cbn. split_and!; [|done|done|by destruct c]. intros [(h & Hh & Heq)|(q & Hq & Heq)].
      * pose proof (take_first_none _ _ E1 h Hh) as Hf. cbn in Hf. lia.
      * pose proof (take_first_none _ _ E2 q Hq) as Hf. cbn in Hf. lia.
Qed.

Lemma pending_victim_pending c h v :
  pending_victim c h = Some v → (∃ x, x ∈ c_held c ∧ hg_seq x = v) ∨ (∃ q, q ∈ c_signals c ∧ qs_seq q = v).
Proof.
  intros Hv. destruct (victim_pending _ _ _ Hv) as [g [Hg|Hg]%elem_of_app]; apply list_elem_of_fmap in Hg as (x & Hx & Hin);
    simplify_eq; [left|right]; by exists x.
Qed.

Lemma classify_reveal_frame adapter signal key now c : core_frame c (classify_reveal adapter signal key now c).2.
Proof. unfold classify_reveal. frame_tac. Qed.

Lemma queue_signal_ok adapter signal now w : inv w → quiet_step w (on_core (queue_signal adapter signal now) w).2.
Proof.
  intros Hi. unfold on_core, queue_signal. set (key := observed_key _ _ _).
  pose proof (classify_reveal_frame adapter signal key now (w_core w)) as Hf.
  destruct (classify_reveal _ _ _ _ _) as [reveal c] eqn:Er. cbn [snd] in Hf.
  unfold next_seq_after, then_some. destruct (_ <=? _); [|by apply frame_ok; [split|]].
  assert (c_next_signal_seq c = next_seq w) as Hn by apply (fr_next _ _ Hf).
  assert (c_signals c = signals w) as Hs by apply (fr_signals _ _ Hf).
  assert (c_held c = held w) as Hh by apply (fr_held _ _ Hf).
  set (c1 := c <| c_next_signal_seq := _ |>). set (queued := mkQueued _ _ _ _ _).
  assert (∀ w', w' = w <| w_core := c1 |> → quiet_step w w') as Hsame.
  { intros w' ->. apply (pending_change w _ c (signals w) (held w) [] (next_seq w + 1)); try done; [by left|lia| | |].
    - unfold pending. rewrite app_nil_r. lia.
    - unfold pending. rewrite app_nil_r. lia.
    - rewrite app_nil_r. cbn. subst c1. rewrite <- Hs, <- Hh, <- Hn. by destruct c. }
  assert (∀ w' s1 held1, s1 `sublist_of` signals w → held1 `sublist_of` held w →
    (pending w < pending_cap ∨ (length s1 + length held1 + 1 = length (signals w) + length (held w))%nat) →
    w' = w <| w_core := c <| c_signals := s1 ++ [queued] |> <| c_held := held1 |> <| c_next_signal_seq := next_seq w + 1 |> |> → quiet_step w w') as Hpush.
  { intros w' s1 held1 H1 H2 Hlt ->.
    assert (length s1 ≤ length (signals w))%nat as L1 by (by apply sublist_length).
    assert (length held1 ≤ length (held w))%nat as L2 by (by apply sublist_length).
    apply (pending_change w _ c s1 held1 [queued] (next_seq w + 1)); try done; [|lia| |].
    - right. exists queued. split; [done|]. cbn. lia.
    - unfold pending in *. rewrite length_app. cbn. lia.
    - unfold pending in *. rewrite length_app. cbn. lia. }
  destruct reveal; try (by apply Hsame).
  all: destruct (_ <? _) eqn:Eb; cbn [snd].
  all: try (apply (Hpush _ (signals w) (held w)); [done|done|left; unfold pending, pending_cap; rewrite <- Hs, <- Hh; apply Z.ltb_lt in Eb; exact Eb|];
            subst c1; cbn; rewrite <- Hs, <- Hh, <- Hn; by destruct c).
  all: destruct (pending_victim c1 (holder queued)) as [v|] eqn:Ev; [|by apply Hsame].
  all: destruct (take_pending_spec v c1) as (T1 & T2 & T3 & T4); apply pending_victim_pending in Ev; specialize (T1 Ev).
  all: destruct (take_pending v c1) as [dropped c2]; cbn [snd] in *.
  all: change (c_held c1) with (c_held c) in *; change (c_signals c1) with (c_signals c) in *; rewrite Hs, Hh in *.
  all: apply (Hpush _ (c_signals c2) (c_held c2)); [done|done|right; lia|].
  all: rewrite T4; subst c1; cbn; rewrite <- Hn; by destruct c.
Qed.

(** ** Events and connections *)

Lemma open_attachment_ok adapter a cross_check w : inv w → quiet_step w (w <| w_core := open_attachment adapter a cross_check (w_core w) |>).
Proof.
  intros Hi. unfold open_attachment. case_bool_decide as Ec; [|by apply quiet_step_same].
  destruct (c_attachments (w_core w) !! a) as [e|] eqn:Ea; cbn; [by apply quiet_step_same|].
  by apply (open_change w _ adapter a cross_check).
Qed.

Lemma quiet_is_shut a : quiet (is_shut a).
Proof. by apply quiet_world_frame. Qed.

Lemma quiet_capabilities_changed adapter a : quiet (capabilities_changed adapter a).
Proof.
  unfold capabilities_changed. apply quiet_then; [apply quiet_reading|]. intros [[[session descriptor] limit]|]; [|apply quiet_ret].
  apply quiet_then; [apply quiet_call|]. intros [caps|]; [|apply quiet_ret]. apply quiet_then; [apply quiet_is_shut|].
  intros []; [apply quiet_ret|]. destruct (updated_descriptor _ _ _ _) as [updated|]; [|apply quiet_ret]. quiet_tac.
  apply quiet_locked. intros c. split; try done. intros Hr. by apply (register_registry_ok c updated).
Qed.

Lemma quiet_peer_work : quiet peer_work.
Proof.
  unfold peer_work. apply quiet_then; [by apply quiet_locked|]. intros _. apply quiet_then; [by apply quiet_world_frame|].
  intros work. quiet_tac.
Qed.

Lemma local_event_commit_ok adapter event mono w : inv w → quiet_step w (on_core (local_event_commit adapter event mono) w).2.
Proof.
  intros Hi. unfold on_core, local_event_commit. destruct event as [a x|signal|a|a|a]; cbn [snd].
  - by apply open_attachment_ok.
  - pose proof (queue_signal_ok adapter signal mono w Hi) as Hq. unfold on_core in Hq. by destruct (queue_signal _ _ _ _).
  - by apply quiet_step_same.
  - by apply quiet_step_same.
  - pose proof (stop_unconfirmed_ok adapter a w Hi) as Hq. unfold on_core in Hq. by destruct (stop_unconfirmed _ _ _).
Qed.

Lemma local_event_region_ok adapter event stop w : inv w → quiet_step w (local_event_region adapter event stop w).2.
Proof.
  intros Hi. unfold local_event_region. destruct (_ <=? _); [by apply quiet_step_refl|]. destruct stop; [by apply quiet_step_refl|].
  set (w1 := w <| w_local_workers := _ |>). assert (quiet_step w w1) as H1 by (by apply frame_ok).
  pose proof (local_event_commit_ok adapter event (w_mono w1) w1 (proj1 H1)) as H2.
  destruct (on_core _ w1) as [work w2]. by apply (quiet_step_trans w w1 w2).
Qed.

Lemma quiet_on_local_event adapter event : quiet (on_local_adapter_event adapter event).
Proof.
  assert (∀ event, quiet (stop ← call X_LocalLock;
    match stop with
    | Some _ => Ret tt
    | None => stop ← call X_Commit;
        work ← locked_world (local_event_region adapter event stop);
        match work with
        | None => Ret tt
        | Some work => work ← or_panic work; Spawn (J_LocalWork adapter work) (Ret tt)
        end
    end)) as Hcommit.
  { intros ev. quiet_tac; [|by apply quiet_spawn, quiet_ret]. apply quiet_locked_world. intros w Hi. by apply local_event_region_ok. }
  destruct event; try apply Hcommit. cbn [on_local_adapter_event].
  quiet_tac; [|by apply quiet_spawn, quiet_ret]. apply quiet_world_frame. intros w. unfold record_closure. by case_bool_decide.
Qed.

Lemma quiet_add_adapter info : quiet (add_adapter info).
Proof. by apply quiet_locked. Qed.

Lemma connect_region_ok adapter observation carrier bound live w : inv w → quiet_step w (connect_region adapter observation carrier bound live w).2.
Proof.
  intros Hi. unfold connect_region.
  assert (∀ shut, quiet_step w (w <| w_next_handle := w_next_handle w + 1 |> <| w_shut := shut |>)) as Hdraw.
  { intros shut. split.
    - destruct Hi as [? ? Hh]. split; try done. intros a Hs. cbn. pose proof (Hh a Hs). lia.
    - destruct (guarantee_refl false w). split; try done. cbn. lia. }
  destruct (c_adapters (w_core w) !! adapter) as [info|]; [|apply (Hdraw (w_shut w))].
  destruct (_ || _); [apply Hdraw|]. destruct (_ || _); [apply (Hdraw (w_shut w))|]. cbn [snd].
  eapply (connect_change w _ _ adapter); [apply core_frame_refl|done|..|done]; cbn.
  all: try (by destruct carrier; case_bool_decide).
  intros a Hne. destruct carrier; case_bool_decide; cbn; try done; by rewrite lookup_insert_ne.
Qed.

Lemma quiet_connect adapter observation carrier bound live : quiet (connect adapter observation carrier bound live).
Proof. unfold connect. quiet_tac. apply quiet_locked_world. intros w Hi. by apply connect_region_ok. Qed.

(** ** Trusted keys, statements and the transport *)

Lemma quiet_set_agreement_keys keys : quiet (set_agreement_keys keys).
Proof.
  unfold set_agreement_keys. quiet_tac; [|by apply quiet_world_frame].
  apply quiet_locked_frame. intros w. by destruct (admit_own_statement _ _ _).
Qed.

Lemma quiet_admit_statement statement : quiet (pipelines_admit_statement statement).
Proof.
  unfold pipelines_admit_statement. quiet_tac. apply quiet_locked_frame. intros w. unfold admit_statement_region.
  destruct (admit_statement _ _ _ _ _) as [[[held|err] e] answer]; [|by split]. destruct held as [h|]; [|by split]. by destruct (beq _ _).
Qed.

Lemma quiet_pair peer : quiet (pipelines_pair peer).
Proof.
  unfold pipelines_pair. quiet_tac. apply quiet_locked_frame. intros w. unfold pair_region.
  destruct (c_closed _); [by split|]. by destruct (pair_key _ _ _ _ _) as [[[held|err] e] answer].
Qed.

Lemma withdrawals_to_frame device now c : core_frame c (withdrawals_to device now c).2.
Proof. unfold withdrawals_to. destruct (carriage _ _); [|done]. by destruct (withdraw_sessions _ _ _ _ _). Qed.

Lemma quiet_unpair key : quiet (unpair key).
Proof.
  unfold unpair. quiet_tac. apply quiet_locked_frame. intros w. unfold unpair_region.
  destruct (c_closed _); [by split|]. destruct (beq _ _); [by split|]. destruct (negb _); [by split|].
  pose proof (withdrawals_to_frame key (w_clock w) (w_core w)) as Hf. destruct (withdrawals_to _ _ _) as [[l|] c]; [|by split].
  cbn [snd] in Hf. destruct (remove_key _ _ _ _) as [[[r|err] e] answer]; [|destruct err]; cbn [snd]; split; try done; by destruct Hf.
Qed.

Lemma quiet_retry_save : quiet retry_save.
Proof.
  unfold retry_save. quiet_tac. apply quiet_locked. intros c. unfold retry_save_region.
  destruct (c_closed c); [done|]. destruct (negb _); [done|]. by destruct (save _ _ _).1.
Qed.

Lemma quiet_set_caps caps : quiet (set_transport_caps caps).
Proof. by apply quiet_locked. Qed.
#[local] Hint Resolve quiet_set_caps quiet_is_shut : quiet.

Lemma quiet_start : quiet start.
Proof. unfold start. quiet_tac; [by apply quiet_world_frame|by apply quiet_locked]. Qed.

Lemma quiet_shutdown : quiet shutdown.
Proof. unfold shutdown. quiet_tac; by apply quiet_locked. Qed.

(** ** Sending *)

Lemma forget_oldest_spec cap order trackers :
  1 ≤ cap → (∀ k, is_Some (trackers !! k) → k ∈ order) →
  let '(order', trackers') := forget_oldest cap order trackers in
  Z.of_nat (size trackers') < cap ∧ ∀ k, is_Some (trackers' !! k) → k ∈ order'.
Proof.
  intros Hcap. revert trackers. induction order as [|old rest IH]; intros trackers Hin; cbn [forget_oldest].
  - assert (trackers = ∅) as ->.
    { apply map_empty. intros k. destruct (trackers !! k) as [t|] eqn:Ek; [|done].
      by apply (ex_intro (λ t, _ = Some t)), Hin, not_elem_of_nil in Ek. }
    destruct (_ <=? _) eqn:El; rewrite map_size_empty in El; (split; [rewrite map_size_empty; lia|]); intros k; rewrite lookup_empty; by intros [].
  - destruct (_ <=? _) eqn:El; [|split; [lia|done]]. apply IH. intros k Hk. destruct (decide (k = old)) as [->|Hne].
    + rewrite lookup_delete_eq in Hk. by destruct Hk.
    + rewrite lookup_delete_ne in Hk by done. apply Hin in Hk. by apply elem_of_cons in Hk as [?|?].
Qed.

Lemma track_ok key entry now c : trackers_ok c → trackers_ok (track key entry now c).
Proof.
  intros [Hs Hin]. unfold track. set (cap := Z.max _ 1). set (m := if _ <=? _ then filter _ _ else _).
  assert (∀ k, is_Some (m !! k) → k ∈ c_tracker_order c) as Hm.
  { intros k Hk. apply Hin. subst m. destruct (_ <=? _); [|done]. destruct Hk as [t Ht]. apply map_lookup_filter_Some in Ht as [Ht _]. by exists t. }
  pose proof (forget_oldest_spec cap (c_tracker_order c) m ltac:(lia) Hm) as Hf.
  destruct (forget_oldest cap (c_tracker_order c) m) as [order m']. destruct Hf as [Hlt Hin'].
  set (order' := if _ <=? _ then List.filter _ _ else _). split; cbn.
  - pose proof (map_size_insert key entry m') as Hsz. rewrite Hsz. fold cap. destruct (m' !! key); cbn; lia.
  - intros k Hk. apply elem_of_app. destruct (decide (k = key)) as [->|Hne]; [right; by apply list_elem_of_singleton|left].
    rewrite lookup_insert_ne in Hk by done. subst order'. clear -Hk Hin'. destruct (_ <=? _); [|by apply Hin'].
    apply list_elem_of_In, List.filter_In. split; [by apply list_elem_of_In, Hin'|by destruct Hk as [x ->]].
Qed.

Lemma receipt_observed_frame observed c : core_frame c (receipt_observed observed c).
Proof.
  unfold receipt_observed. destruct (SessionId_parse _) as [from|]; [|done]. destruct (c_trackers c !! _) as [t|] eqn:Et; [|done].
  destruct (tracker_receipt _ _) as [changed tracker]. split; try done. intros Ht. apply trackers_ok_insert; [by exists t|done].
Qed.

Lemma pairing_value_frame adapter a now random shut c : core_frame c (pairing_value_for adapter a now random shut c).2.
Proof. unfold pairing_value_for. frame_tac. Qed.

Lemma frame_core w c : core_frame (w_core w) c → frame w (w <| w_core := c |>).
Proof. by split. Qed.

Lemma send_prepared_frame prepared mono w : frame w (send_prepared prepared mono w).2.
Proof.
  unfold send_prepared. destruct (bindings _ !! _) as [[to_key|]|]; try (by split).
  destruct (carriage _ _) as [ca|]; [|by split].
  match goal with |- context [if beq to_key own_key_id then ?x else ?y] =>
    assert (core_frame (w_core w) (if beq to_key own_key_id then x else y).2) as Hf
      by (destruct (beq _ _); [done|apply announcement_frame]);
    destruct (if beq to_key own_key_id then x else y) as [issued c] end.
  cbn [snd] in Hf. assert (∀ e t, frame w (w <| w_core := c |> <| w_core := track e t (w_clock w)
    (c <| c_engine := record_sent (w_clock w) (SentRecord_of (ps_envelope prepared) to_key) (c_engine c) |>) |>)) as Ht.
  { intros e t. split; [|done]. destruct Hf as [? ? ? ? ? ? ? Hr Hk]. unfold track. cbn.
    assert (trackers_ok (w_core w) → trackers_ok (track e t (w_clock w) (c <| c_engine := record_sent (w_clock w) (SentRecord_of (ps_envelope prepared) to_key) (c_engine c) |>))) as Hok
      by (intros H; by apply track_ok, Hk).
    unfold track in Hok. cbn in Hok. destruct (forget_oldest _ _ _) as [order m]. by split. }
  destruct issued as [[p|]|]; [apply Ht|by split|apply Ht].
Qed.

Lemma frame_trans w1 w2 w3 : frame w1 w2 → frame w2 w3 → frame w1 w3.
Proof. intros [F1 H1] [F2 H2]. split; [by eapply core_frame_trans|congruence]. Qed.

Lemma send_region_frame adapter a request mono now id nonce random w : frame w (send_region adapter a request mono now id nonce random w).2.
Proof.
  unfold send_region. set (reply := match requester _ _ _ _, _ with Some _, Some _ => _ | _, _ => _ end).
  destruct (decide_at _ _ _) as [d e]. cbn [fst snd].
  set (c := if reaches_presence _ _ _ then _ else _).
  assert (core_frame (w_core w) c) as Hf by (subst c; by destruct (reaches_presence _ _ _)).
  destruct (prepare_send _ _ _ _ _ _ _ _ _) as [[prepared|error]|]; cbn [snd]; [| |by apply frame_core].
  - apply (frame_trans _ (w <| w_core := c |>)); [by apply frame_core|apply send_prepared_frame].
  - destruct (negb _ && _); [|by apply frame_core].
    pose proof (pairing_value_frame adapter a mono random (w_shut (w <| w_core := c |>)) c) as Hp.
    destruct (pairing_value_for _ _ _ _ _ _) as [v c']. cbn [snd] in *. split; [|done]. by apply (core_frame_trans _ c).
Qed.

Lemma quiet_publish_send env correlation to_key ca announcement mono : quiet (publish_send env correlation to_key ca announcement mono).
Proof. unfold publish_send. quiet_tac. Qed.
#[local] Hint Resolve quiet_publish_send : quiet.

Lemma quiet_send_local adapter a request : quiet (send_local adapter a request).
Proof.
  unfold send_local. quiet_tac.
  - apply quiet_locked_frame. intros w.
    match goal with |- context [send_region ?x1 ?x2 ?x3 ?x4 ?x5 ?x6 ?x7 ?x8 ?x9] =>
      pose proof (send_region_frame x1 x2 x3 x4 x5 x6 x7 x8 x9) as Hf; destruct (send_region x1 x2 x3 x4 x5 x6 x7 x8 x9) as [s w'] end.
    cbn [snd] in *. destruct s as [[]|]; done.
  - apply quiet_world_frame. intros w. unfold uncount_send. by destruct (w_committed_sends w !! adapter).
Qed.

Lemma quiet_discover adapter a : quiet (discover adapter a).
Proof.
  unfold discover. quiet_tac. apply quiet_locked_frame. intros w. unfold discovery_snapshot. set (c := w_core w <| c_engine := _ |>).
  destruct (registry_discover _ _ _ _) as [sessions|error]; [by split|]. destruct (negb _ && _); [|by split].
  pose proof (pairing_value_frame adapter a (w_mono w) a0 (w_shut w) c) as Hp. destruct (pairing_value_for _ _ _ _ _ _) as [v c'].
  split; [|done]. by apply (core_frame_trans _ c).
Qed.

Lemma quiet_identity adapter a : quiet (identity adapter a).
Proof.
  unfold identity. quiet_tac. apply quiet_locked_frame. intros w. unfold identity_region.
  destruct (requester _ _ _ _); [by split|].
  pose proof (pairing_value_frame adapter a (w_mono w) a0 (w_shut w) (w_core w)) as Hp. by destruct (pairing_value_for _ _ _ _ _ _) as [v c'].
Qed.

Lemma quiet_stoppable {A} (body : pipe A) : quiet body → quiet (stoppable body).
Proof. intros Hb. unfold stoppable. quiet_tac. Qed.

(** ** Receiving *)

Lemma quiet_target to : quiet (target to).
Proof. unfold target. quiet_tac. by apply quiet_locked_frame. Qed.

Lemma quiet_hand_off msg : quiet (hand_off msg).
Proof. unfold hand_off. quiet_tac; [by apply quiet_locked_frame|by apply quiet_locked]. Qed.

Lemma quiet_settle_region key b : quiet (region (λ w, (tt, settle_region key b w))).
Proof. apply quiet_world_frame. intros w. unfold settle_region. by destruct (settle _ _ _). Qed.
#[local] Hint Resolve quiet_target quiet_hand_off quiet_settle_region : quiet.

Lemma quiet_interpret {A} (p : Receiver.prog AuthorizationDecision A) : quiet (interpret p).
Proof.
  induction p; cbn [interpret]; quiet_tac; auto.
  - apply quiet_world_frame. intros w. unfold admit_region. by destruct (try_admit _ _ _ _).
  - apply quiet_locked_frame. intros w. by destruct (authorize_delivery _ _ _).
  - by apply quiet_locked_frame.
Qed.

Lemma receipt_region_frame env report device mono at_ c : core_frame c (receipt_region env report device mono at_ c).2.
Proof.
  unfold receipt_region. destruct (may_send_receipt _ _ _ _) as [[u|e] limiter]; [|done]. destruct (beq _ _); [|done]. cbn [snd].
  destruct (report_receipt _ _ _) as [r|e]; [|done].
  eapply core_frame_trans; [|apply receipt_observed_frame]. done.
Qed.

Lemma quiet_send_receipt env out : quiet (send_receipt env out).
Proof. unfold send_receipt. quiet_tac. apply quiet_locked. intros c. apply receipt_region_frame. Qed.
#[local] Hint Resolve quiet_interpret quiet_send_receipt : quiet.

Lemma quiet_requeue key msg env : quiet (requeue key msg env).
Proof.
  unfold requeue. quiet_tac; try (by apply quiet_world_frame). apply quiet_world_frame. intros w. unfold when_settled_region.
  by destruct (when_settled _ _ _).
Qed.
#[local] Hint Resolve quiet_requeue : quiet.

Lemma quiet_deliver_now msg : quiet (deliver_now msg).
Proof. unfold deliver_now. quiet_tac. Qed.
#[local] Hint Resolve quiet_deliver_now : quiet.

Lemma quiet_drain_requeued n : quiet (drain_requeued n).
Proof.
  induction n as [|n IH]; cbn [drain_requeued]; [apply quiet_spin|]. quiet_tac; try done.
  - apply quiet_world_frame. intros w. by destruct (w_requeued w).
  - by apply quiet_world_frame.
Qed.
#[local] Hint Resolve quiet_drain_requeued : quiet.

Lemma quiet_receive copies octets opened : quiet (receive_envelope_octets copies octets opened).
Proof.
  unfold receive_envelope_octets. quiet_tac. apply quiet_locked_frame. intros w. unfold security_region.
  by destruct (under_engine _ _ _).
Qed.

Lemma quiet_sealing : quiet sealing.
Proof. apply quiet_reading. Qed.
#[local] Hint Resolve quiet_receive quiet_sealing : quiet.

Lemma quiet_on_envelope copies inbound : quiet (on_envelope copies inbound).
Proof. unfold on_envelope. quiet_tac. Qed.

Lemma quiet_accept_receipt octets : quiet (accept_receipt_octets octets).
Proof.
  unfold accept_receipt_octets. quiet_tac. apply quiet_locked. intros c. destruct (accept_receipt _ _); [apply receipt_observed_frame|done].
Qed.

Lemma quiet_accept_presence rec carrier : quiet (accept_presence rec carrier).
Proof.
  unfold accept_presence. quiet_tac. apply quiet_locked_frame. intros w.
  pose proof (accept_record_own rec carrier (w_clock w) a (c_engine (w_core w)) (c_registry (w_core w))) as Ho.
  destruct (accept_authenticated_record _ _ _ _ _ _) as [[x e] r]. cbn [snd] in *. split; [|done]. split; try done.
  intros Hr s o. cbn. rewrite Ho. apply Hr.
Qed.
#[local] Hint Resolve quiet_accept_receipt quiet_accept_presence : quiet.

Lemma quiet_on_presence event : quiet (on_presence event).
Proof.
  unfold on_presence. quiet_tac. apply quiet_locked. intros c. split; try done.
Qed.

Lemma quiet_on_device_payload copies inbound : quiet (on_device_payload copies inbound).
Proof. unfold on_device_payload, on_sealed, on_opened, on_opened_presence, on_opened_receipt. quiet_tac; by apply quiet_world_frame. Qed.
End Jobs.

#[export] Hint Resolve quiet_is_shut quiet_capabilities_changed quiet_peer_work quiet_on_local_event quiet_add_adapter quiet_connect
  quiet_set_agreement_keys quiet_admit_statement quiet_pair quiet_unpair quiet_retry_save quiet_start quiet_shutdown
  quiet_send_local quiet_discover quiet_identity quiet_stoppable quiet_on_envelope quiet_on_presence quiet_on_device_payload : quiet.
