(* ===== verification/PipelineTurn.v ===== *)
(** * The pass over the pending signals

    What the thread with the binding turn knows of a signal it has taken and of the attachment
    the signal pairs with, and that with it every region of the pass keeps the invariant.  So
    every job of the pipelines does. *)

From stdpp Require Import sorting.
From S2P Require Import Prelude Ordered Ids Json Delivery Capabilities Envelope Keys Agreement Trust Signing Replay Receipt Reply Receiver Sender.
From S2P Require Import Pairing RecordBook Bindings Registration Authorization Transport Presence Registry PresenceAuth ReceiptAuth Sealing AgreementKeys.
From S2P Require Import IssuedPairing SessionBinding Concurrent PipelineData PipelinePresence PipelineSignals PipelineBinding.
From S2P Require Import PipelineEvents PipelineSend PipelineReceive PipelineApi PipelineInv PipelineQuiet PipelinePrograms PipelineJobs.

Section Turn.
Context `{C : Crypto} `{HK : Hpke} `{MO : MapOrder} `{E : PipelineEnv}.
Implicit Types w : World.

Local Abbreviation keeps := (Concurrent.keeps inv guarantee).
Local Abbreviation stable := (Concurrent.stable inv guarantee).

(** ** What the thread with the turn knows *)

(** The signal [s] is taken: it arrived, the queue has later ones only, and it is not held. *)
Definition taken (s : Z) w : Prop :=
  s < next_seq w ∧ (∀ q, q ∈ signals w → s < qs_seq q) ∧ ∀ h, h ∈ held w → hg_seq h ≠ s.

(** No signal after [s] has paired with an attachment of the adapter and key. *)
Definition unanswered (adapter : AdapterId) (k : PairingKey) (s : Z) w : Prop :=
  ∀ a e p, attachments w !! a = Some e → ae_adapter e = adapter → key_of w a = Some k → ae_paired_seq e = Some p → p < s.

(** The pending signals are within their cap. *)
Definition room w : Prop := pending w ≤ pending_cap.

(** The attachment [a], while its entry is there, satisfies [F]; a removed entry does not come
    back. *)
Definition while_open (a : ConnectionHandle) (F : AttachmentEntry → Prop) w : Prop :=
  match attachments w !! a with Some e => F e | None => a < w_next_handle w ∧ connections w !! a = None end.

Definition of_adapter (adapter : AdapterId) (e : AttachmentEntry) : Prop := ae_adapter e = adapter.
Definition paired_from (s : Z) (e : AttachmentEntry) : Prop := ∃ p, ae_paired_seq e = Some p ∧ s ≤ p.

Lemma stable_taken s : stable true (taken s).
Proof.
  intros w w' Hi Hi' (H1 & H2 & H3) [Hg|[? _]]; [|done]. pose proof (gu_next _ _ _ Hg). split_and!; [lia| |].
  - intros q [Hq|Hq]%(gu_signals _ _ _ Hg); [by apply H2|lia].
  - intros h Hh. apply H3. by apply (gu_held _ _ _ Hg).
Qed.

Lemma stable_unanswered adapter k s : stable true (unanswered adapter k s).
Proof.
  intros w w' Hi Hi' Hu [Hg|[? _]]; [|done]. intros a e' p He' Had Hk Hp. destruct (attachments w !! a) as [e|] eqn:He.
  - destruct (gu_entry _ _ _ Hg a e e' He He') as [[A P Q W] Hkey]. apply (Hu a e p); [done|congruence|congruence|]. by rewrite <- Q.
  - rewrite (gu_new _ _ _ Hg a e' He He' eq_refl) in Hp. done.
Qed.

Lemma stable_room : stable true room.
Proof. intros w w' Hi Hi' Hr [Hg|[? _]]; [|done]. by apply (gu_bound _ _ _ Hg). Qed.

Lemma while_open_step mine a (F : AttachmentEntry → Prop) w w' :
  (∀ e e', entry_step mine e e' → F e → F e') → inv w → inv w' → guarantee mine w w' → while_open a F w → while_open a F w'.
Proof.
  intros HF Hi Hi' Hg. unfold while_open. destruct (attachments w !! a) as [e|] eqn:He.
  - intros Hf. destruct (attachments w' !! a) as [e'|] eqn:He'.
    + destruct (gu_entry _ _ _ Hg a e e' He He') as [Hs _]. by apply (HF e).
    + pose proof (gu_removed _ _ _ Hg a (ex_intro _ e He) He') as Hc. split; [|done].
      pose proof (iv_handles _ Hi a (iv_connected _ Hi a (ex_intro _ e He))). pose proof (gu_handle _ _ _ Hg). lia.
  - intros [Hlt Hc]. pose proof (gu_dead _ _ _ Hg a Hlt Hc) as Hc'. pose proof (gu_handle _ _ _ Hg).
    destruct (attachments w' !! a) as [e'|] eqn:He'; [|split; [lia|done]].
    destruct (iv_connected _ Hi' a (ex_intro _ e' He')) as [x Hx]. congruence.
Qed.

Lemma of_adapter_step adapter mine e e' : entry_step mine e e' → of_adapter adapter e → of_adapter adapter e'.
Proof. intros [A _ _ _] H. unfold of_adapter in *. congruence. Qed.

Lemma paired_from_step s mine e e' : entry_step mine e e' → paired_from s e → paired_from s e'.
Proof. intros [_ P _ _] (p & Hp & Hle). destruct (P p Hp) as (q & Hq & ?). exists q. split; [done|lia]. Qed.

Lemma stable_while_open mine a (F : AttachmentEntry → Prop) :
  (∀ mine e e', entry_step mine e e' → F e → F e') → stable mine (while_open a F).
Proof. intros HF w w' Hi Hi' Hp [Hg|[_ Hg]]; by eapply (while_open_step _ a F w w' (HF _)). Qed.

Lemma stable_and mine (P Q : World → Prop) : stable mine P → stable mine Q → stable mine (λ w, P w ∧ Q w).
Proof. intros H1 H2 w w' Hi Hi' [Hp Hq] Hg. split; [by apply (H1 w)|by apply (H2 w)]. Qed.

(** ** Programs that are quiet while an assertion holds *)

Definition quiet_under {A} (F : World → Prop) (p : pipe A) : Prop :=
  ∀ mine P, stable mine P → (∀ w, inv w → P w → F w) → keeps mine P p mine (λ _, P).

Lemma quiet_weaken {A} F (p : pipe A) : quiet p → quiet_under F p.
Proof. intros Hq mine P Hs _. by apply Hq. Qed.

Lemma under_then {A B} F (m : pipe A) (f : A → pipe B) : quiet_under F m → (∀ a, quiet_under F (f a)) → quiet_under F (m ≫= f).
Proof. intros Hm Hf mine P Hs HF. eapply keeps_then; [by apply Hm|]. intros a. by apply Hf. Qed.

Lemma under_locked_world {B} F (f : World → B * World) : (∀ w, inv w → F w → quiet_step w (f w).2) → quiet_under F (locked_world f).
Proof.
  intros Hf mine P Hs HF. apply keeps_region; [done|]. intros w Hi Hp. pose proof (lock_ok w Hi) as Hl.
  pose proof (stable_quiet_step mine P w (lock w) Hs Hi Hp Hl) as Hpl. pose proof (Hf (lock w) (proj1 Hl) (HF _ (proj1 Hl) Hpl)) as Hstep.
  pose proof (quiet_step_trans w (lock w) _ Hi Hl Hstep) as Ht.
  split_and!; [apply Ht|by apply guarantee_weaken, Ht|by eapply stable_quiet_step].
Qed.

Lemma quiet_under_true {A} (p : pipe A) : quiet_under (λ _, True) p → quiet p.
Proof. intros Hq mine P Hs. by apply Hq. Qed.

(** ** Binding an attachment *)

(** A signal may answer the withholding of [a] only once it, or a later one, has paired. *)
Definition may_answer (a : ConnectionHandle) (seq : option Z) w : Prop :=
  match seq with Some s => while_open a (paired_from s) w | None => True end.

Lemma answered_entry a seq e w x :
  may_answer a seq w → attachments w !! a = Some e → answers (ae_withheld_by e) seq = true → ae_withheld_by e = Some x →
  ∃ p, ae_paired_seq e = Some p ∧ x < p.
Proof.
  intros Hm He Ha Hx. rewrite Hx in Ha. destruct seq as [s|]; [|done]. cbn in Ha. unfold may_answer, while_open in Hm. rewrite He in Hm.
  destruct Hm as (p & Hp & Hle). exists p. split; [done|]. apply Z.ltb_lt in Ha. lia.
Qed.

Lemma bind_write_ok a record descriptor sub seq w :
  inv w → may_answer a seq w → quiet_step w (on_core (bind_write a record descriptor sub seq) w).2.
Proof.
  intros Hi Hm. unfold on_core, bind_write. destruct (opt_filter _ _) as [e|] eqn:Ef; [|by apply quiet_step_same].
  assert (attachments w !! a = Some e) as He.
  { unfold opt_filter in Ef. unfold attachments. destruct (c_attachments _ !! a) as [x|]; [|done]. by destruct (ae_open x && _); simplify_eq. }
  destruct (is_some _); [by apply quiet_step_same|]. destruct (register_session _ _ _) as [registered engine].
  destruct registered; cbn [negb snd]; [|by apply frame_ok].
  set (e' := e <| ae_session := _ |> <| ae_native_id := _ |> <| ae_withheld_by := _ |> <| ae_withheld := _ |>).
  eapply (entry_change false w _ a e e' (next_seq w)); try done.
  - split; [done|apply opt_le_refl|done|]. intros x Hx. subst e'. cbn. destruct (answers _ _) eqn:Ea; [right|left].
    + by eapply answered_entry.
    + exists x. split; [done|lia].
  - intros p Hp. by apply (iv_paired _ Hi a e).
  - intros k p Hk Hp. by apply (iv_order _ Hi a e).
  - split; try done. intros Hr. by apply (register_registry_ok (w_core w) descriptor).
Qed.

Lemma release_region_ok a seq w : inv w → may_answer a (Some seq) w → quiet_step w (on_core (release_region a seq) w).2.
Proof.
  intros Hi Hm. unfold on_core, release_region. destruct (c_attachments (w_core w) !! a) as [e|] eqn:He; [|by apply quiet_step_same].
  destruct (answers _ _) eqn:Ea; cbn [negb snd]; [|by apply quiet_step_same].
  pose proof (iv_entry _ Hi a e He) as Hok. unfold entry_ok in Hok.
  assert (∀ e', entry_ok e' → ae_adapter e' = ae_adapter e → ae_paired_seq e' = ae_paired_seq e →
    quiet_step w (w <| w_core := set_entry a e' (w_core w) |>)) as Hq.
  { intros e' He' Had Hp. eapply (entry_change false w _ a e e' (next_seq w)); try done.
    - split; [done|rewrite Hp; apply opt_le_refl|done|]. intros x Hx. right. rewrite Hp. by eapply answered_entry.
    - intros p. rewrite Hp. apply (iv_paired _ Hi a e _ He).
    - intros k p Hk. rewrite Hp, Had. by apply (iv_order _ Hi a). }
  change (ae_withheld (e <| ae_withheld_by := None |>)) with (ae_withheld e).
  destruct (ae_withheld e) eqn:Ew; cbn [negb snd]; apply Hq; try done; unfold entry_ok; cbn; by rewrite ?Ew, andb_false_r.
Qed.

Lemma quiet_descriptor_for adapter a record name limit : quiet (descriptor_for adapter a record name limit).
Proof. unfold descriptor_for. quiet_tac. Qed.

Lemma under_bind_record a record name seq : quiet_under (may_answer a seq) (bind_record a record name seq).
Proof.
  unfold bind_record. apply under_then; [apply quiet_weaken, quiet_reading|]. intros [[adapter caps]|e]; [|apply quiet_weaken, quiet_ret].
  apply under_then; [apply quiet_weaken, quiet_descriptor_for|]. intros [descriptor|e]; [|apply quiet_weaken, quiet_ret].
  apply under_then; [apply quiet_weaken; quiet_tac|]. intros [sub|e]; [|apply quiet_weaken, quiet_ret].
  apply under_then; [apply under_locked_world; intros w Hi Hm; by apply bind_write_ok|].
  intros r. apply quiet_weaken. quiet_tac.
Qed.

Lemma under_bind_from_signal a native seq : quiet_under (may_answer a (Some seq)) (bind_from_signal a native seq).
Proof.
  unfold bind_from_signal. apply under_then; [apply quiet_weaken, quiet_call|]. intros draws.
  apply under_then; [apply quiet_weaken, quiet_reading|]. intros [scope sid].
  apply under_then; [apply quiet_weaken, quiet_or_panic|]. intros s.
  apply under_then; [apply quiet_weaken; quiet_tac|]. intros record.
  apply under_then; [|intros b; apply quiet_weaken; quiet_tac].
  destruct record as [record|]; [|apply quiet_weaken, quiet_ret].
  apply under_then; [apply under_bind_record|intros r; apply quiet_weaken, quiet_ret].
Qed.

Lemma under_release_withheld a seq : quiet_under (may_answer a (Some seq)) (release_withheld a seq).
Proof.
  unfold release_withheld. apply under_then; [apply under_locked_world; intros w Hi Hm; by apply release_region_ok|].
  intros r. apply quiet_weaken. quiet_tac.
Qed.

Lemma quiet_bind_record_none a record name : quiet (bind_record a record name None).
Proof. apply quiet_under_true. apply (under_bind_record a record name None). Qed.

(** ** The regions of the pass *)

(** Pending signals go. *)
Lemma shrink_ok w s1 held1 :
  s1 `sublist_of` signals w → held1 `sublist_of` held w → inv w →
  quiet_step w (w <| w_core := w_core w <| c_signals := s1 |> <| c_held := held1 |> |>).
Proof.
  intros H1 H2 Hi. pose proof (sublist_length _ _ H1). pose proof (sublist_length _ _ H2).
  apply (pending_change w _ (w_core w) s1 held1 [] (next_seq w)); try done; [by left| | |].
  - unfold pending. rewrite app_nil_r. lia.
  - unfold pending. rewrite app_nil_r. lia.
  - by rewrite app_nil_r.
Qed.

Lemma same_held w c' : c' = w_core w <| c_signals := c_signals c' |> <| c_held := c_held c' |> →
  c_signals c' `sublist_of` signals w → c_held c' `sublist_of` held w → inv w → quiet_step w (w <| w_core := c' |>).
Proof. intros -> H1 H2 Hi. by apply shrink_ok. Qed.

Lemma expire_region_ok now w : inv w → quiet_step w (on_core (expire_region now) w).2.
Proof. intros Hi. apply same_held; [by destruct (w_core w)|done|apply filter_sublist|done]. Qed.

Lemma pop_ok w q c :
  pop_signal (w_core w) = (Some q, c) → inv w →
  let w' := w <| w_core := c |> in
  quiet_step w w' ∧ taken (qs_seq q) w' ∧ room w' ∧ ∀ k, qs_key q = Some k → unanswered (qs_adapter q) k (qs_seq q) w'.
Proof.
  intros Hp Hi. unfold pop_signal in Hp. destruct (c_signals (w_core w)) as [|q0 rest] eqn:Es; [done|]. injection Hp as -> <-.
  assert (q ∈ signals w) as Hin by (unfold signals; rewrite Es; left).
  split_and!.
  - apply same_held; [by destruct (w_core w)|unfold signals; rewrite Es; by apply sublist_cons|done|done].
  - split_and!; [by apply (iv_signals _ Hi)| |].
    + cbn. intros q' Hq'. pose proof (iv_sorted _ Hi) as Hs. unfold signals in Hs. rewrite Es in Hs. cbn in Hs.
      apply StronglySorted_inv in Hs as [_ Hall]. rewrite Forall_forall in Hall. apply Hall. apply list_elem_of_fmap. by exists q'.
    + cbn. intros h Hh. destruct (iv_held _ Hi h Hh) as [_ Hlt]. specialize (Hlt q Hin). lia.
  - pose proof (iv_bound _ Hi) as Hb. unfold room, pending, signals, held in *. rewrite Es in Hb. cbn in *. lia.
  - intros k Hk a e p He Had Hka Hpd. destruct (iv_order _ Hi a e k p He Hka Hpd) as [_ Ho]. by apply Ho.
Qed.

Lemma held_region_ok s w : inv w → quiet_step w (on_core (held_region s) w).2.
Proof.
  intros Hi. unfold on_core, held_region. destruct (take_first _ _) as [[h rest]|] eqn:Et; [|by apply quiet_step_same].
  apply take_first_sublist in Et as (_ & _ & Hsub & _).
  destruct (pair_by_key _ _ _ _); try (by apply quiet_step_same).
  all: apply same_held; [by destruct (w_core w)|done|done|done].
Qed.

Lemma held_taken s w h t c : held_region s (w_core w) = (Some (h, t), c) → inv w → taken (hg_seq h) (w <| w_core := c |>).
Proof.
  unfold held_region. destruct (take_first _ _) as [[h' rest]|] eqn:Et; [|done].
  intros Hr Hi. assert (h' = h ∧ c = w_core w <| c_held := rest |>) as [-> ->] by (by destruct (pair_by_key _ _ _ _); simplify_eq).
  destruct (iv_held _ Hi h) as [Hlt Hall]; [by apply take_first_sublist in Et as (_ & ? & _)|].
  split_and!; [done|done|]. cbn. intros x Hx Heq.
  assert (∃ l1, map hg_seq (c_held (w_core w)) ≡ₚ hg_seq h :: l1 ∧ hg_seq h ∈ l1) as (l1 & Hperm & Hin).
  { exists (map hg_seq rest). split; [|rewrite <- Heq; apply list_elem_of_fmap; by exists x].
    revert Et. generalize (c_held (w_core w)) as l. clear. intros l. revert rest. induction l as [|y l IH]; intros rest; [done|]. cbn.
    destruct (_ =? _); [by intros [= -> ->]|]. destruct (take_first _ l) as [[z r]|]; [|done]. cbn. intros [= -> <-]. cbn.
    rewrite (IH r eq_refl). apply perm_swap. }
  pose proof (iv_nodup _ Hi) as Hnd. unfold held in Hnd. rewrite Hperm in Hnd. by apply NoDup_cons in Hnd as [? _].
Qed.

(** The attachment a signal pairs with is one of the adapter's. *)
Lemma pair_by_key_adapter c adapter key narrowed a :
  pair_by_key c adapter key narrowed = Pt_Paired a → ∃ e, c_attachments c !! a = Some e ∧ ae_adapter e = adapter.
Proof.
  unfold pair_by_key. destruct (List.filter _ _) as [|[a' e] [|y l]] eqn:Ef; [done| |done]. cbn. intros [= ->].
  assert ((a, e) ∈ List.filter (is_candidate c adapter key narrowed) (map_items (c_attachments c))) as Hin by (rewrite Ef; left).
  apply list_elem_of_In, List.filter_In in Hin as [Hin Hc]. apply list_elem_of_In in Hin. rewrite map_items_perm in Hin.
  apply elem_of_map_to_list in Hin. exists e. split; [done|]. unfold is_candidate in Hc.
  repeat (apply andb_true_iff in Hc as [Hc ?]). by bool_hyps.
Qed.

Lemma attempt_adapter c adapter key reveal a :
  attempt c adapter key reveal = Pt_Paired a → ∃ e, c_attachments c !! a = Some e ∧ ae_adapter e = adapter.
Proof.
  unfold attempt, pair_signal. destruct reveal; try done; (destruct key as [key|]; [|done]).
  all: destruct (pair_by_key _ _ _ _) eqn:Ep; cbn; try done; intros [= ->]; by eapply pair_by_key_adapter.
Qed.

Lemma attempt_not_yet c adapter key reveal k : attempt c adapter key reveal = Pt_NotYet k → key = Some k.
Proof.
  unfold attempt, pair_signal. destruct reveal; try done; (destruct key as [key|]; [|done]).
  all: unfold pair_by_key; destruct (List.filter _ _) as [|x [|y l]]; cbn; try done; by intros [= ->].
Qed.

Lemma paired_open c w a adapter : (∃ e, c_attachments c !! a = Some e ∧ ae_adapter e = adapter) → w_core w = c → while_open a (of_adapter adapter) w.
Proof. intros (e & He & Had) Hw. unfold while_open, attachments. rewrite Hw, He. done. Qed.

(** Superseding the older signals of the attachment the signal paired with. *)
Lemma supersede_region_ok adapter a s w :
  inv w → taken s w → while_open a (of_adapter adapter) w →
  let w' := (on_core (supersede_region adapter a s) w).2 in
  inv w' ∧ guarantee true w w' ∧ while_open a (paired_from s) w'.
Proof.
  intros Hi (T1 & T2 & T3) Hopen w'.
  set (held1 := match key_of w a with Some k => List.filter (λ h, negb (is_superseded adapter k s h)) (held w) | None => held w end).
  assert (held1 `sublist_of` held w) as Hsub by (subst held1; destruct (key_of w a); [apply filter_sublist|done]).
  set (w1 := w <| w_core := w_core w <| c_signals := signals w |> <| c_held := held1 |> |>).
  destruct (shrink_ok w (signals w) held1 ltac:(done) Hsub Hi) as [Hi1 Hg1]. fold w1 in Hi1, Hg1.
  unfold while_open in Hopen. destruct (attachments w !! a) as [e|] eqn:He.
  - set (p' := match ae_paired_seq e with None => s | Some p => Z.max p s end). set (e' := e <| ae_paired_seq := Some p' |>).
    assert (w' = w1 <| w_core := set_entry a e' (w_core w1) |>) as Hw'.
    { unfold w', on_core, supersede_region. change (c_attachments (w_core w) !! a) with (attachments w !! a). rewrite He.
      change (observed_pairing_key _ a) with (key_of w a). subst w1 held1. destruct (key_of w a); by destruct w as [[]]. }
    assert (ae_paired_seq e = None ∨ ∃ p, ae_paired_seq e = Some p ∧ p ≤ p') as Hle.
    { subst p'. destruct (ae_paired_seq e) as [p|]; [right; exists p|by left]. split; [done|lia]. }
    assert (s ≤ p') as Hs by (subst p'; destruct (ae_paired_seq e); lia).
    destruct (entry_change true w1 w' a e e' (next_seq w)) as [Hi' Hg']; try done.
    + apply (iv_entry _ Hi a e He).
    + split; [done|intros p Hp; destruct Hle as [?|(p0 & ? & ?)]; [congruence|]; exists p'; split; [done|congruence]|done|].
      intros x Hx. left. exists x. split; [done|lia].
    + cbn. intros p [= <-]. subst p'. destruct (ae_paired_seq e) as [p|] eqn:Ep; [|done].
      pose proof (iv_paired _ Hi a e p He Ep). unfold next_seq in *. lia.
    + cbn [ae_paired_seq]. intros k p Hk [= <-]. change (key_of w1 a) with (key_of w a) in Hk.
      assert (ae_paired_seq e = None ∨ ∃ p, ae_paired_seq e = Some p ∧ ordered w (ae_adapter e) k p) as Hord.
      { destruct (ae_paired_seq e) as [p|] eqn:Ep; [right; exists p|by left]. split; [done|]. by apply (iv_order _ Hi a). }
      split.
      * intros h Hh Had Hkey. change (held w1) with held1 in Hh. subst held1. rewrite Hk in Hh.
        apply list_elem_of_In, List.filter_In in Hh as [Hh Hsup]. apply list_elem_of_In in Hh. change (ae_adapter e') with (ae_adapter e) in Had.
        assert (s < hg_seq h) as Hlt.
        { pose proof (T3 h Hh). unfold is_superseded in Hsup. rewrite bool_decide_true in Hsup by (unfold of_adapter in Hopen; congruence).
          rewrite Hkey in Hsup. rewrite beq_refl in Hsup. cbn in Hsup. apply negb_true_iff, Z.ltb_ge in Hsup. lia. }
        subst p'. destruct Hord as [->|(p & -> & Ho & _)]; [done|]. specialize (Ho h Hh Had Hkey). lia.
      * intros q Hq Had Hkey. specialize (T2 q Hq). subst p'. destruct Hord as [->|(p & -> & _ & Ho)]; [done|].
        specialize (Ho q Hq Had Hkey). lia.
    + by rewrite Hw'.
    + by rewrite Hw'.
    + split_and!; [done|by apply (guarantee_trans true w w1 w'); [| |apply guarantee_weaken|]|].
      rewrite Hw'. unfold while_open, attachments. cbn. rewrite lookup_insert_eq. by exists p'.
  - assert (w' = w1) as ->.
    { unfold w', on_core, supersede_region. change (c_attachments (w_core w) !! a) with (attachments w !! a). rewrite He.
      change (observed_pairing_key _ a) with (key_of w a). subst w1 held1. destruct (key_of w a); by destruct w as [[]]. }
    split_and!; [done|by apply guarantee_weaken|]. unfold while_open. change (attachments w1) with (attachments w). rewrite He. done.
Qed.

(** Holding a signal that no attachment pairs with yet. *)
Lemma hold_ok adapter signal key now s w :
  inv w → taken s w → unanswered adapter key s w → room w →
  let w' := w <| w_core := w_core w <| c_held := held w ++ [mkHeldSignal adapter signal key now s] |> |> in
  inv w' ∧ guarantee true w w'.
Proof.
  intros Hi (T1 & T2 & T3) Hu Hr w'. set (x := mkHeldSignal _ _ _ _ _) in *.
  assert (∀ h, h ∈ held w' → h ∈ held w ∨ h = x) as Hh.
  { intros h [Hh|Hh]%elem_of_app; [by left|right; by apply list_elem_of_singleton]. }
  split.
  - destruct Hi as [I1 I2 I3 I4 I5 I6 I7 I8 I9 I10 I11 I12 I13]. split; try done.
    + intros h [?| ->]%Hh; [by apply I6|done].
    + unfold held. cbn. rewrite map_app. apply NoDup_app. split_and!; [done| |apply NoDup_singleton].
      intros y (h & -> & Hy)%list_elem_of_fmap Hz. apply list_elem_of_singleton in Hz. by apply (T3 h Hy).
    + intros a e k p He Hk Hp. destruct (I9 a e k p He Hk Hp) as [O1 O2]. split; [|done].
      intros h [?| ->]%Hh Had Hkey; [by apply O1|]. apply (Hu a e p); [done|by symmetry| |done]. change (key_of w a) with (key_of w' a). rewrite Hk. f_equal. by symmetry.
    + unfold room, pending, held in *. cbn. rewrite length_app. cbn. unfold signals in *. cbn. lia.
  - destruct (guarantee_refl true w). by split.
Qed.

(** ** The programs of the pass *)

Abbreviation owner_quiet := (λ (P : World → Prop) (p : pipe unit), keeps true P p true (λ _, P)).

(** A locked region of the thread with the turn. *)
Lemma keeps_locked {B} (f : Core → B * Core) P (Q : B → World → Prop) :
  stable true P → (∀ b, stable true (Q b)) →
  (∀ w, inv w → P w → let '(b, w') := on_core f w in inv w' ∧ guarantee true w w' ∧ Q b w') →
  keeps true P (locked f) true Q.
Proof.
  intros HsP HsQ Hf. apply keeps_region; [done|]. intros w Hi Hp. pose proof (lock_ok w Hi) as [Hil Hgl].
  assert (P (lock w)) as Hpl by (apply (HsP w); auto). specialize (Hf (lock w) Hil Hpl). destruct (on_core f (lock w)) as [b w'].
  destruct Hf as (Hi' & Hg' & Hq). split_and!; [done| |done].
  by apply (guarantee_trans true w (lock w) w'); [| |apply guarantee_weaken|].
Qed.

Lemma keeps_quiet_then {A B} (m : pipe A) (f : A → pipe B) P mine Q :
  quiet m → stable true P → (∀ a, keeps true P (f a) mine Q) → keeps true P (m ≫= f) mine Q.
Proof. intros Hm Hs Hf. eapply keeps_then; [by apply Hm|done]. Qed.

(** A quiet program may follow, whatever is known. *)
Lemma keeps_forget {A} (p : pipe A) mine P Q (Q' : A → World → Prop) :
  keeps mine P p mine Q → (∀ a w, inv w → Q a w → Q' a w) → keeps mine P p mine Q'.
Proof. intros Hk HQ. eapply keeps_mono; [| |exact Hk]; auto. Qed.

Lemma keeps_any {A} (p : pipe A) mine P : quiet p → keeps mine P p mine (λ _ _, True).
Proof. intros Hq. apply (keeps_mono _ _ p mine (λ _, True) P mine (λ _ _, True)); [done|done|]. by apply Hq. Qed.

(** Only the attachment the signal paired with is bound. *)
Lemma decide_binds_paired (l : list (AttachmentState ConnectionHandle)) signal pairing a native d :
  bd_action (decide_binding l signal pairing) = Ba_Bind a native d → pairing = Pg_Paired a.
Proof.
  unfold decide_binding. destruct pairing as [b| |]; try done. destruct (List.find _ l) as [att|] eqn:Ef; [|done].
  apply List.find_some in Ef as [_ Hb]. bool_hyps. unfold decide_paired, stale, bind_native.
  destruct (binds_to _ _); [done|]. destruct (existsb _ _); [by destruct (is_some _)|].
  destruct (ns_start_kind signal) as [[]|]; cbn; try (by intros [= <- _ _]; subst);
    (destruct (_ || _); [by destruct (is_some _)|]); destruct (is_some _); cbn; intros [= <- _ _]; by subst.
Qed.

(** The part of the decision that is the same whatever the signal paired with. *)
Lemma resolve_rest_keeps adapter signal pairing attributed s P :
  stable true P → (∀ a, pairing = Pg_Paired a → ∀ w, inv w → P w → may_answer a (Some s) w) →
  let paired := match pairing with Pg_Paired a => Some a | _ => None end in
  owner_quiet P (
    '(decision, session) ← reading (decide_region adapter signal pairing);
    log_decision decision paired session ≫= λ _,
    each attributed (λ a, withhold a s) ≫= λ _,
    match bd_action decision with
    | Ba_None => Ret tt
    | Ba_Deregister a => unbind a
    | Ba_Bind a native deregister_first =>
        (if (deregister_first : bool) then unbind a else Ret tt) ≫= λ _,
        bind_from_signal a native s
    end ≫= λ _,
    match paired with
    | Some a => release_withheld a s
    | None => Ret tt
    end).
Proof.
  intros Hs Hans paired.
  set (good := λ (d : BindingDecision ConnectionHandle), ∀ a native b, bd_action d = Ba_Bind a native b → pairing = Pg_Paired a).
  eapply (keeps_then _ _ (reading (decide_region adapter signal pairing)) _ true P true (λ r w, P w ∧ good r.1)).
  { apply keeps_locked; [done|intros r; apply stable_and; [done|by intros ????]|].
    intros w Hi Hp. destruct (quiet_step_same w Hi) as [Hi' Hg]. split_and!; [done|by apply guarantee_weaken| |].
    - apply (Hs w); auto.
    - cbn. intros a native b. apply decide_binds_paired. }
  intros [decision session]. cbn [fst].
  set (P1 := λ w, P w ∧ good decision). apply (keeps_mono _ _ _ true P1 P1 true (λ _, P1)); [done|by intros ??? []|].
  assert (stable true P1) as Hs1 by (apply stable_and; [done|by intros ????]).
  apply keeps_quiet_then; [auto with quiet|done|]. intros _.
  apply keeps_quiet_then; [quiet_tac|done|]. intros _.
  apply (keeps_then _ _ _ _ true P1 true (λ _, P1)).
  - destruct (bd_action decision) as [|a native d|a] eqn:Eb; [by apply quiet_ret| |by apply quiet_unbind].
    apply keeps_quiet_then; [quiet_tac|done|]. intros _. apply under_bind_from_signal; [done|].
    intros w Hi [Hp Hw]. apply (Hans a (Hw a native d Eb) w Hi Hp).
  - intros _. subst paired. destruct pairing as [a| |]; try (by apply quiet_ret). apply under_release_withheld; [done|].
    intros w Hi [Hp _]. by apply Hans.
Qed.

Lemma resolve_paired_keeps adapter signal a s :
  keeps true (λ w, taken s w ∧ while_open a (of_adapter adapter) w) (resolve_paired adapter signal (Pg_Paired a) [] s) true (λ _ _, True).
Proof.
  unfold resolve_paired. set (P := while_open a (paired_from s)).
  assert (stable true P) as HsP by (apply stable_while_open; apply paired_from_step).
  eapply (keeps_then _ _ _ _ true _ true (λ _, P)).
  - eapply (keeps_then _ _ (locked (supersede_region adapter a s)) _ true _ true (λ _, P)).
    + apply keeps_locked; [apply stable_and; [apply stable_taken|apply stable_while_open; apply of_adapter_step]|done|].
      intros w Hi [Ht Ho]. pose proof (supersede_region_ok adapter a s w Hi Ht Ho) as Hr. by destruct (on_core _ w).
    + intros l. apply (quiet_each l); [|done]. intros h. auto with quiet.
  - intros _. apply (keeps_forget _ _ _ (λ _, P)); [|done].
    apply (resolve_rest_keeps adapter signal (Pg_Paired a) [] s P HsP). intros b [= <-]. done.
Qed.

Lemma resolve_unpaired_keeps adapter signal bound s P :
  stable true P → owner_quiet P (resolve_paired adapter signal Pg_Unpairable bound s).
Proof.
  intros Hs. unfold resolve_paired. apply keeps_quiet_then; [apply quiet_ret|done|]. intros _.
  by apply (resolve_rest_keeps adapter signal Pg_Unpairable bound s P Hs).
Qed.

Lemma resolve_keeps adapter signal t s P :
  stable true P → (∀ a, t = Pt_Paired a → ∀ w, inv w → P w → taken s w ∧ while_open a (of_adapter adapter) w) →
  keeps true P (resolve adapter signal t s) true (λ _ _, True).
Proof.
  intros Hs Hp. destruct t as [a|k|bound|r|a]; cbn [resolve].
  - eapply keeps_mono; [|by intros|apply resolve_paired_keeps]. by apply Hp.
  - by apply keeps_any, quiet_ret.
  - eapply keeps_forget; [by apply (resolve_unpaired_keeps _ _ _ _ P)|done].
  - by apply keeps_any, quiet_ret.
  - by apply keeps_any, quiet_ret.
Qed.

(** The signal taken from the front of the queue. *)
Definition in_hand (q : QueuedSignal) w : Prop :=
  taken (qs_seq q) w ∧ room w ∧ ∀ k, qs_key q = Some k → unanswered (qs_adapter q) k (qs_seq q) w.

Lemma stable_in_hand q : stable true (in_hand q).
Proof.
  apply stable_and; [apply stable_taken|]. apply stable_and; [apply stable_room|].
  intros w w' Hi Hi' Hu Hg k Hk. by apply (stable_unanswered _ k _ w w' Hi Hi' (Hu k Hk)).
Qed.

(** What the attempt to pair says of the state. *)
Definition attempted (q : QueuedSignal) (t : PairAttempt) w : Prop :=
  (∀ a, t = Pt_Paired a → while_open a (of_adapter (qs_adapter q)) w) ∧ ∀ k, t = Pt_NotYet k → qs_key q = Some k.

Lemma stable_attempted q t : stable true (attempted q t).
Proof.
  intros w w' Hi Hi' [Ha Hk] Hg. split; [|done]. intros a Ht.
  apply (stable_while_open true a (of_adapter (qs_adapter q)) (of_adapter_step _) w w' Hi Hi' (Ha a Ht) Hg).
Qed.

Lemma decide_queued_keeps now q : keeps true (in_hand q) (decide_queued now q) true (λ _ _, True).
Proof.
  unfold decide_queued. set (P := λ t w, in_hand q w ∧ attempted q t w).
  assert (∀ t, stable true (P t)) as HsP by (intros t; apply stable_and; [apply stable_in_hand|apply stable_attempted]).
  eapply (keeps_then _ _ (reading (λ c, attempt c (qs_adapter q) (qs_key q) (qs_reveal q))) _ true _ true P).
  { apply keeps_locked; [apply stable_in_hand|done|]. intros w Hi Hp. destruct (quiet_step_same w Hi) as [Hi' Hg].
    split; [done|]. split; [by apply guarantee_weaken|]. split; [apply (stable_in_hand q w); auto|]. split; intros x Hx.
    - by eapply paired_open; [eapply attempt_adapter|].
    - by eapply attempt_not_yet. }
  intros t. destruct t as [a|k|bound|r|a]; try (by apply keeps_any; auto with quiet).
  all: match goal with |- keeps true _ (?m ≫= _) _ _ => apply (keeps_quiet_then m); [|apply HsP|intros _] end;
    try (destruct (qs_reveal q); first [by apply quiet_locked|apply quiet_ret]).
  - apply (resolve_keeps _ _ _ _ (P (Pt_Paired a)) (HsP _)). intros b [= <-] w Hi [[Ht _] [Ha _]]. split; [done|by apply Ha].
  - apply keeps_locked; [apply HsP|by intros ????|]. intros w Hi [(Ht & Hr & Hu) [_ Hk]].
    destruct (hold_ok (qs_adapter q) (qs_signal q) k now (qs_seq q) w Hi Ht (Hu k (Hk k eq_refl)) Hr) as [Hi' Hg]. done.
  - by apply (resolve_keeps _ _ _ _ (P (Pt_Unpairable bound)) (HsP _)).
Qed.

Lemma decide_front_keeps n now : owner_quiet (λ _, True) (decide_front n now).
Proof.
  induction n as [|n IH]; cbn [decide_front]; [by apply quiet_ret|].
  eapply (keeps_then _ _ (locked pop_signal) _ true _ true (λ r w, match r with Some q => in_hand q w | None => True end)).
  - apply keeps_locked; [by intros ????|intros [q|]; [apply stable_in_hand|by intros ????]|].
    intros w Hi _. unfold on_core. destruct (pop_signal (w_core w)) as [[q|] c] eqn:Ep.
    + destruct (pop_ok w q c Ep Hi) as [[Hi' Hg] Hr]. split_and!; [done|by apply guarantee_weaken|done].
    + unfold pop_signal in Ep. destruct (c_signals (w_core w)); simplify_eq. destruct (quiet_step_same w Hi) as [Hi' Hg].
      split_and!; [done|by apply guarantee_weaken|done].
  - intros [q|]; [|by apply quiet_ret]. apply (keeps_then _ _ _ _ true _ true (λ _ _, True)); [apply decide_queued_keeps|]. intros _. exact IH.
Qed.

Lemma decide_held_keeps s :
  owner_quiet (λ _, True) (decided ← locked (held_region s);
    match decided with
    | Some (h, t) => resolve (hg_adapter h) (hg_signal h) t (hg_seq h)
    | None => Ret tt
    end).
Proof.
  set (P := λ (h : HeldSignal) (t : PairAttempt) w, taken (hg_seq h) w ∧ ∀ a, t = Pt_Paired a → while_open a (of_adapter (hg_adapter h)) w).
  assert (∀ h t, stable true (P h t)) as HsP.
  { intros h t. apply stable_and; [apply stable_taken|]. intros w w' Hi Hi' Ha Hg a Ht.
    apply (stable_while_open true a (of_adapter (hg_adapter h)) (of_adapter_step _) w w' Hi Hi' (Ha a Ht) Hg). }
  eapply (keeps_then _ _ (locked (held_region s)) _ true _ true (λ r w, match r with Some (h, t) => P h t w | None => True end)).
  - apply keeps_locked; [by intros ????|intros [[h t]|]; [apply HsP|by intros ????]|].
    intros w Hi _. pose proof (held_region_ok s w Hi) as [Hi' Hg]. unfold on_core in *.
    destruct (held_region s (w_core w)) as [r c] eqn:Er. split_and!; [done|by apply guarantee_weaken|].
    destruct r as [[h t]|]; [|done]. split; [by eapply held_taken|]. intros a ->.
    unfold held_region in Er. destruct (take_first _ _) as [[h' rest]|]; [|done].
    destruct (pair_by_key _ _ _ _) eqn:Ep; simplify_eq. by apply (paired_open (w_core w <| c_held := rest |>)); [eapply pair_by_key_adapter in Ep|].
  - intros [[h t]|]; [|by apply quiet_ret]. apply (resolve_keeps _ _ _ _ (P h t) (HsP h t)). intros a Ht w Hi [H1 H2]. split; [done|by apply H2].
Qed.

Lemma binding_pass_keeps : owner_quiet (λ _, True) binding_pass.
Proof.
  unfold binding_pass. apply keeps_quiet_then; [by apply quiet_world_frame|by intros ????|]. intros _.
  apply keeps_quiet_then; [apply quiet_mono|by intros ????|]. intros now.
  apply keeps_quiet_then; [apply quiet_locked_world; apply expire_region_ok|by intros ????|]. intros [expired queued].
  apply keeps_quiet_then; [apply quiet_each; intros [h t]; auto with quiet|by intros ????|]. intros _.
  apply keeps_quiet_then; [apply quiet_reading|by intros ????|]. intros l.
  eapply (keeps_then _ _ _ _ true _ true (λ _ _, True)); [|intros _; apply decide_front_keeps].
  apply keeps_each. intros s _. apply decide_held_keeps.
Qed.

(** ** Every job keeps the invariant *)

Abbreviation job_ok := (λ p : pipe unit, keeps false (λ _, True) p false (λ _ _, True)).

Lemma quiet_job (p : pipe unit) : quiet p → job_ok p.
Proof. intros Hq. by apply Hq. Qed.

Lemma drain_binding_ok passes : job_ok (drain_binding passes).
Proof.
  induction passes as [|n IH]; [done|]. cbn [drain_binding keeps]. split; [done|]. split; [done|].
  apply (keeps_then _ _ _ _ true _ true (λ _ _, True)); [apply binding_pass_keeps|]. intros _. cbn [keeps]. split; [done|]. exists (λ _, True). split; [by intros ????|]. split; [done|].
  eapply keeps_then; [apply (quiet_reading _ false (λ _, True)); by intros ????|]. intros [].
  - eapply keeps_then; [apply (quiet_world_frame (λ w, (w_repair_needed w, w)) ltac:(done) false (λ _, True)); by intros ????|].
    intros []; [exact IH|done].
  - exact IH.
Qed.

Lemma then_drain {A} (m : pipe A) (f : A → pipe unit) : quiet m → (∀ a, job_ok (f a)) → job_ok (m ≫= f).
Proof. intros Hm Hf. eapply keeps_then; [apply (Hm false (λ _, True)); by intros ????|done]. Qed.

Lemma after_queued_signal_ok passes dropped : job_ok (after_queued_signal passes dropped).
Proof. unfold after_queued_signal. apply then_drain; [quiet_tac|]. intros _. apply drain_binding_ok. Qed.

Lemma on_adapter_event_ok passes adapter event : job_ok (on_adapter_event passes adapter event).
Proof.
  destruct event as [a x|signal|a|a|a]; cbn [on_adapter_event].
  - apply then_drain; [apply quiet_locked_world; intros w Hi; by apply open_attachment_ok|]. intros _.
    apply then_drain; [by apply quiet_world_frame|]. intros _. apply drain_binding_ok.
  - apply then_drain; [apply quiet_mono|]. intros now. apply then_drain; [apply quiet_locked_world; intros w Hi; by apply queue_signal_ok|].
    intros r. apply then_drain; [apply quiet_or_panic|]. intros dropped. apply after_queued_signal_ok.
  - apply quiet_job. auto with quiet.
  - apply quiet_job. quiet_tac.
  - apply quiet_job. apply quiet_then; [apply quiet_locked_world; intros w Hi; by apply stop_unconfirmed_ok|]. intros r. quiet_tac.
Qed.

Lemma drain_then_ok {A} passes (a : A) : keeps false (λ _, True) (drain_binding passes ≫= λ _, Ret a) false (λ _ _, True).
Proof. apply (keeps_then _ _ _ (λ _, Ret a) false _ false (λ _ _, True)); [apply drain_binding_ok|done]. Qed.

Lemma pipelines_bind_ok passes a record name : job_ok (pipelines_bind passes a record name ≫= λ _, Ret tt).
Proof.
  split; [done|]. change (keeps true (λ _, True) ((bind_record a record name None ≫= λ r, GiveTurn (drain_binding passes ≫= λ _, Ret r)) ≫= λ _, Ret tt)
    false (λ _ _, True)).
  apply (keeps_then _ _ _ _ true _ false (λ _ _, True)); [|by intros _].
  apply (keeps_then _ _ _ _ true _ true (λ _ _, True)); [by apply (quiet_bind_record_none a record name true (λ _, True))|].
  intros r. split; [done|]. exists (λ _, True). split; [by intros ????|]. split; [done|].
  apply drain_then_ok.
Qed.

Lemma local_work_ok passes adapter work : job_ok (local_work passes adapter work).
Proof.
  apply (keeps_then _ _ _ _ false _ false (λ _ _, True)); [|intros _; by apply quiet_job, quiet_world_frame].
  destruct work as [event|dropped|a stopped]; [apply on_adapter_event_ok|apply after_queued_signal_ok|apply quiet_job; auto with quiet].
Qed.

(** Every job a thread of the pipelines runs. *)
Theorem run_job_ok fuel j : job_ok (run_job fuel j).
Proof.
  destruct j; cbn [run_job]; first
    [ apply on_adapter_event_ok | apply local_work_ok | apply pipelines_bind_ok | apply drain_binding_ok
    | by apply quiet_job, quiet_locked | by apply quiet_job; auto with quiet
    | apply quiet_job, quiet_then; [by auto with quiet|intros ?; apply quiet_ret] ].
Qed.

(** What happens beside the threads keeps it as well. *)
Lemma surroundings_ok w w' : inv w → surroundings w w' → quiet_step w w'.
Proof.
  intros Hi Hs. apply frame_ok; [|done]. destruct Hs as [w clock mono Hm|w a|w key t unread reader Ht]; [by split|by split|].
  split; [|done]. split; try done. intros Hk. apply trackers_ok_insert; [by exists t|done].
Qed.

Lemma Pipelines_new_inv engine clock mono w : Pipelines_new engine clock mono = Some w → inv w.
Proof.
  unfold Pipelines_new, Core_new. intros Hn. destruct (match _ with Some i => _ | None => _ end) as [issuer|]; [|done].
  injection Hn as <-. split; cbn; try done.
  - intros a [e He]. by rewrite lookup_empty in He.
  - intros a [x Hx]. by rewrite lookup_empty in Hx.
  - constructor.
  - by intros q ?%not_elem_of_nil.
  - by intros h ?%not_elem_of_nil.
  - constructor.
  - unfold pending, pending_cap. cbn. lia.
  - split; [|intros k [x Hx]; cbn in Hx; by rewrite lookup_empty in Hx]. cbn. rewrite map_size_empty. lia.
Qed.
End Turn.
