(* ===== verification/PipelineSystem.v ===== *)
(** * Runs of the pipelines

    What holds in every state that any number of threads reach from new pipelines, in any
    interleaving of their holds of the core lock, whatever the adapters, the transport and the
    other calls answer: the jobs are those of [run_job], for any number of rounds of their
    loops. *)

From stdpp Require Import sorting.
From S2P Require Import Prelude Ordered Ids Json Delivery Capabilities Envelope EnvelopeFacts Keys Trust Signing Replay Receipt Reply Receiver.
From S2P Require Import Agreement Pairing PairingFacts Registration Sender RecordBook Bindings Authorization Transport Presence Registry.
From S2P Require Import PresenceAuth ReceiptAuth Sealing AgreementKeys IssuedPairing SessionBinding Concurrent PipelineData PipelinePresence.
From S2P Require Import PipelineSignals PipelineBinding PipelineEvents PipelineSend PipelineReceive PipelineApi PipelineInv PipelineQuiet.
From S2P Require Import PipelinePrograms PipelineShare PipelineJobs PipelineTurn.

Section System.
Context `{C : Crypto} `{HK : Hpke} `{MO : MapOrder} `{E : PipelineEnv}.
Implicit Types w : World.

Definition runs (fuel : nat) : relation (System World pcall Job) := rtc (step surroundings (run_job fuel)).

Definition reachable (fuel : nat) (s : System World pcall Job) : Prop :=
  ∃ engine clock mono w, Pipelines_new engine clock mono = Some w ∧ runs fuel (system_init w) s.

(** ** The invariant in every run *)

Lemma system_keeps fuel s s' :
  system_ok inv guarantee s → runs fuel s s' → system_ok inv guarantee s' ∧ guarantee true (sy_state s) (sy_state s').
Proof.
  apply (run_ok surroundings (run_job fuel) inv guarantee surroundings_ok guarantee_refl (run_job_ok fuel) (guarantee true)).
  - apply guarantee_refl.
  - intros w1 w2 w3 H1 H2 H3 Hc Hg. apply (guarantee_trans true w1 w2 w3); [done|done| |done].
    destruct Hc as [Hc|Hc]; [by apply guarantee_weaken|done].
Qed.

Lemma reachable_ok fuel s : reachable fuel s → system_ok inv guarantee s.
Proof.
  intros (engine & clock & mono & w & Hn & Hr). eapply system_keeps in Hr as [Hok _]; [done|].
  apply system_ok_init. by eapply Pipelines_new_inv.
Qed.

Lemma reachable_inv fuel s : reachable fuel s → inv (sy_state s).
Proof. intros Hr. by eapply so_inv, reachable_ok. Qed.

Lemma reachable_change fuel s s' : reachable fuel s → runs fuel s s' → inv (sy_state s') ∧ guarantee true (sy_state s) (sy_state s').
Proof.
  intros Hr Hs. destruct (system_keeps fuel s s' (reachable_ok fuel s Hr) Hs) as [Hok Hg]. split; [apply (so_inv _ _ _ Hok)|done].
Qed.

(** ** Withholding *)

(** What an attachment is withheld from: no request has a session, and no message is handed to
    the session it is bound to. *)
Definition kept_from (a : ConnectionHandle) (e : AttachmentEntry) w : Prop :=
  (∀ shut adapter, requester (w_core w) shut adapter a = None) ∧
  (is_some (ae_session e) = true → ∀ to adapter, hand_off_target to (w_core w) ≠ Some (adapter, a)).

Lemma withheld_kept a e x w : inv w → attachments w !! a = Some e → ae_withheld_by e = Some x → kept_from a e w.
Proof.
  intros Hi He Hx. pose proof (iv_entry _ Hi a e He) as Hok. unfold entry_ok in Hok. rewrite Hx, andb_true_r in Hok. split.
  - intros shut adapter. unfold requester. change (c_attachments (w_core w) !! a) with (attachments w !! a). rewrite He. cbn.
    destruct (ae_session e) eqn:Es; rewrite Hok; cbn; [by rewrite andb_false_r|]. by destruct (_ && _ && _ && _).
  - intros Hs to adapter. unfold hand_off_target. destruct (c_sessions (w_core w) !! to) as [b|] eqn:Eb; [|done]. cbn.
    destruct (decide (b = a)) as [->|Hne].
    + change (c_attachments (w_core w) !! a) with (attachments w !! a). rewrite He. cbn. by rewrite Hok, Hs.
    + destruct (opt_filter _ _) as [e'|]; [|done]. cbn. congruence.
Qed.

(** [C1] Withholding is safe in every interleaving.  Once an attachment is withheld by the signal
    with arrival number [x], then for as long as its entry lives, however the threads interleave,
    either a signal that arrived later than [x] has paired with it, or it is still withheld: by
    [x] or by a later signal, no request through it has a session, and no message is handed to
    the session it is bound to. *)
Theorem withheld_until_later_signal fuel s s' a e e' x :
  reachable fuel s → runs fuel s s' →
  c_attachments (w_core (sy_state s)) !! a = Some e → ae_withheld_by e = Some x →
  c_attachments (w_core (sy_state s')) !! a = Some e' →
  (∃ p, ae_paired_seq e' = Some p ∧ x < p) ∨
  (∃ y, ae_withheld_by e' = Some y ∧ x ≤ y) ∧ kept_from a e' (sy_state s').
Proof.
  intros Hr Hs He Hx He'. destruct (reachable_change fuel s s' Hr Hs) as [Hi Hg].
  destruct (gu_entry _ _ _ Hg a e e' He He') as [[_ _ _ Hw] _]. destruct (Hw x Hx) as [(y & Hy & Hle)|Hp]; [right|by left].
  split; [by exists y|by eapply withheld_kept].
Qed.

(** The pending signals never overtake the pairing.  In every reachable state the queue is in
    the order of arrival, the held signals arrived before all queued ones, and no pending signal,
    queued or held, is older than a signal of its adapter and pairing key that has paired with an
    attachment. *)
Theorem pending_never_outdated fuel s :
  reachable fuel s →
  let c := w_core (sy_state s) in
  StronglySorted Z.lt (map qs_seq (c_signals c)) ∧
  (∀ h q, h ∈ c_held c → q ∈ c_signals c → hg_seq h < qs_seq q) ∧
  ∀ a e k p, c_attachments c !! a = Some e → observed_pairing_key c a = Some k → ae_paired_seq e = Some p →
    (∀ h, h ∈ c_held c → hg_adapter h = ae_adapter e → hg_key h = k → p < hg_seq h) ∧
    (∀ q, q ∈ c_signals c → qs_adapter q = ae_adapter e → qs_key q = Some k → p < qs_seq q).
Proof.
  intros Hr c. pose proof (reachable_inv fuel s Hr) as Hi. split_and!.
  - apply (iv_sorted _ Hi).
  - intros h q Hh Hq. by apply (iv_held _ Hi h Hh).
  - intros a e k p. apply (iv_order _ Hi).
Qed.

(** What peers and adapters can make the pipelines keep is bounded in every reachable state:
    the pending signals by their cap and one more, which a signal taken from the queue and then
    held takes, and the trackers of sent envelopes by theirs. *)
Theorem pending_bounded fuel s :
  reachable fuel s →
  let c := w_core (sy_state s) in
  Z.of_nat (length (c_signals c) + length (c_held c)) ≤ Z.max (cf_max_pending_signals pe_config) 1 + 1 ∧
  Z.of_nat (size (c_trackers c)) ≤ Z.max (cf_max_trackers pe_config) 1.
Proof. intros Hr c. pose proof (reachable_inv fuel s Hr) as Hi. split; [apply (iv_bound _ Hi)|apply (iv_trackers _ Hi)]. Qed.

(** The sets of announcements that carrier appearances start begin at least a second apart,
    in every run: when the start of the last set changes from [t], it changes to an instant at
    least [CARRIER_APPEARANCE_HOLD_OFF] later. *)
Theorem appearance_sets_apart fuel s s' t :
  reachable fuel s → runs fuel s s' → as_last_began (c_appearances (w_core (sy_state s))) = Some t →
  ∃ t', as_last_began (c_appearances (w_core (sy_state s'))) = Some t' ∧ (t' = t ∨ t + CARRIER_APPEARANCE_HOLD_OFF ≤ t').
Proof.
  intros Hr Hs Ht. destruct (reachable_change fuel s s' Hr Hs) as [_ Hg].
  destruct (gu_appearances _ _ _ Hg) as [Heq|(t' & Ht' & Hle)].
  - exists t. split; [|by left]. unfold last_began in Heq. by rewrite Heq.
  - exists t'. split; [done|]. right. by apply Hle.
Qed.

(** [C37] The registry never learns of a withholding: in every reachable state every own session
    reads as not withheld, so the status shows each of them online even while its attachment is
    withheld. *)
Theorem status_never_withheld fuel s :
  reachable fuel s →
  ∀ status, status ∈ status_sessions (w_core (sy_state s)) → ss_state status = Ss_Online.
Proof.
  intros Hr status Hin. pose proof (iv_registry _ (reachable_inv fuel s Hr)) as Hreg.
  unfold status_sessions in Hin. apply list_elem_of_fmap in Hin as (o & -> & Ho). unfold values in Ho.
  apply list_elem_of_fmap in Ho as ([k o'] & -> & Hl). apply elem_of_items in Hl. unfold session_status. cbn.
  by rewrite (Hreg k o' Hl).
Qed.
End System.

(** ** A run *)

#[local] Instance sample_map_order : MapOrder := {| map_items := λ K V _ _ m, map_to_list m; map_items_perm := λ K V _ _ m, reflexivity _ |}.
#[local] Instance sample_env : PipelineEnv := {| pe_identity := sample_device "alice" 1; pe_config := PipelineConfig_default |}.
#[local] Instance sample_primitives : Crypto := sample_pair.

(** What the calls answer; [draws] are the session ids drawn. *)
Definition answer_with (draws : list SessionId) (R : Type) (x : pcall R) : R :=
  match x in pcall R return R with
  | X_Capabilities _ _ => Some (mkAdapterCaps true [] None)
  | X_SetBinding _ _ _ => tt
  | X_Deliver _ _ _ => None
  | X_TakeConnection _ _ => tt
  | X_AdapterShutdown _ => tt
  | X_TransportStart => Ok (mkTransportCaps true false false true false false CrossImplementation true 2000000 false)
  | X_TransportShutdown => tt
  | X_Subscribe _ => Ok 1
  | X_WatchPresence => Ok tt
  | X_EndSubscription _ => tt
  | X_SendPresence _ _ _ => Taken
  | X_Publish _ _ _ => Taken
  | X_Log _ => tt
  | X_Random n => Some (replicate n 7)
  | X_SessionIds => draws
  | X_LocalLock => None
  | X_Commit => None
  | X_SaveAnswer => Ok tt
  end.

Definition sample_answer : ∀ R, pcall R → R := answer_with [sample_session].

(** An adapter is added, a connection is made and its attachment opens. *)
Definition sample_opening : list Job :=
  [J_AddAdapter (mkAdapter false 8 1000);
   J_Connect 0%nat (mkObservation (Some (bs "k")) (Some (bs "claude")) (Some (bs "/work"))) false 1000 0;
   J_AdapterEvent 0%nat (Ae_AttachmentOpened 1 None)].

(** A native signal from the same process, and the attachment unconfirmed. *)
Definition sample_signalled : list Job := [J_AdapterEvent 0%nat (Ae_NativeSignal (mkSignal (bs "n1") (Some Sk_Fresh) None (Some 1) None))].
Definition sample_unconfirmed : list Job := [J_AdapterEvent 0%nat (Ae_AttachmentUnconfirmed 1)].

(** The device trusts a peer whose device may write to its sessions. *)
Definition sample_peer_entry : TrustedKey := di_entry (sample_device "bob" 2).
Definition sample_trusting : Engine :=
  let e := Engine_new (sample_device "alice" 1) in
  set_grants [Inbound (peer_device (tk_key_id sample_peer_entry)) LS_Device]
    (set_keys (mkKeySet (<[ tk_key_id sample_peer_entry := sample_peer_entry ]> (ts_entries (trusted e)))) (paired e) (agreements e) e).

Definition sample_new : option World := Pipelines_new sample_trusting sample_time 0.
Definition sample_run (js : list Job) (w : option World) : option World := w ← w; in_turn (run_job 2) sample_answer js w.

Lemma sample_reached js w : sample_run js sample_new = Some w → ∃ ts, reachable 2 (mkSystem w None ts).
Proof.
  unfold sample_run. destruct sample_new as [w0|] eqn:En; [|done]. cbn. intros Hr.
  destruct (in_turn_steps surroundings (run_job 2) sample_answer js w0 w [] Hr) as [ts Hs].
  exists ts. by exists sample_trusting, sample_time, 0, w0.
Qed.

Lemma sample_goes_on js w w' ts : sample_run js (Some w) = Some w' → ∃ ts', runs 2 (mkSystem w None ts) (mkSystem w' None ts').
Proof. apply in_turn_steps. Qed.

(** The attachment's entry after some jobs. *)
Definition sample_entry (w : option World) : option AttachmentEntry := w ← w; c_attachments (w_core w) !! 1.

Lemma sample_entry_some w e : sample_entry w = Some e → ∃ w0, w = Some w0 ∧ c_attachments (w_core w0) !! 1 = Some e.
Proof. unfold sample_entry. destruct w as [w0|]; [|done]. cbn. intros He. by exists w0. Qed.

Definition sample_bound (w : bool) (by_ : option Z) (paired : Z) : AttachmentEntry :=
  mkAttachment 0%nat true (Some sample_session) (Some (bs "n1")) None w by_ (Some paired).

Definition sample_withheld : option World := sample_run (sample_opening ++ sample_signalled ++ sample_unconfirmed) sample_new.

(** The attachment is withheld by the second arrival, another unconfirmed event leaves it so, and
    a request through it is refused. *)
Lemma withheld_until_later_signal_witness :
  sample_entry sample_withheld = Some (sample_bound true (Some 1) 0) ∧
  ∃ w e, sample_run sample_unconfirmed sample_withheld = Some w ∧ c_attachments (w_core w) !! 1 = Some e ∧
    ((∃ p, ae_paired_seq e = Some p ∧ 1 < p) ∨ (∃ y, ae_withheld_by e = Some y ∧ 1 ≤ y) ∧ kept_from 1 e w).
Proof.
  assert (sample_entry sample_withheld = Some (sample_bound true (Some 1) 0)) as H1 by (vm_compute; reflexivity).
  assert (sample_entry (sample_run sample_unconfirmed sample_withheld) = Some (sample_bound true (Some 2) 0)) as H2 by (vm_compute; reflexivity).
  split; [exact H1|]. destruct (sample_entry_some _ _ H1) as (w & Hw & He). destruct (sample_entry_some _ _ H2) as (w' & Hw' & He').
  rewrite Hw in Hw'. destruct (sample_reached _ _ Hw) as [ts Hr]. destruct (sample_goes_on _ _ _ ts Hw') as [ts' Hs].
  exists w', (sample_bound true (Some 2) 0). rewrite Hw. split; [exact Hw'|]. split; [exact He'|].
  exact (withheld_until_later_signal 2 _ _ 1 _ _ 1 Hr Hs He eq_refl He').
Defined.

(** A signal with no attachment yet is held. *)
Definition sample_pending : option World := sample_run (firstn 2 sample_opening ++ sample_signalled) sample_new.

Definition sample_counts (w : option World) : option (nat * nat) := w ← w; Some (length (c_signals (w_core w)), length (c_held (w_core w))).

Lemma pending_never_outdated_witness :
  sample_entry (sample_run (sample_opening ++ sample_signalled) sample_new) = Some (sample_bound false None 0) ∧
  ∃ w, sample_run (sample_opening ++ sample_signalled) sample_new = Some w ∧
    StronglySorted Z.lt (map qs_seq (c_signals (w_core w))).
Proof.
  assert (sample_entry (sample_run (sample_opening ++ sample_signalled) sample_new) = Some (sample_bound false None 0)) as H1 by (vm_compute; reflexivity).
  split; [exact H1|]. destruct (sample_entry_some _ _ H1) as (w & Hw & _). destruct (sample_reached _ _ Hw) as [ts Hr].
  exists w. split; [exact Hw|]. exact (proj1 (pending_never_outdated 2 _ Hr)).
Defined.

Lemma pending_bounded_witness :
  sample_counts sample_pending = Some (0%nat, 1%nat) ∧
  ∃ w, sample_pending = Some w ∧ Z.of_nat (length (c_signals (w_core w)) + length (c_held (w_core w))) ≤ 65.
Proof.
  assert (sample_counts sample_pending = Some (0%nat, 1%nat)) as H1 by (vm_compute; reflexivity). split; [exact H1|].
  destruct sample_pending as [w|] eqn:Ew; [|discriminate H1]. exists w. split; [reflexivity|].
  destruct (sample_reached _ _ Ew) as [ts Hr]. exact (proj1 (pending_bounded 2 _ Hr)).
Defined.

Lemma status_never_withheld_witness :
  sample_entry sample_withheld = Some (sample_bound true (Some 1) 0) ∧
  ∃ w status, sample_withheld = Some w ∧ status ∈ status_sessions (w_core w) ∧ ss_state status = Ss_Online.
Proof.
  assert (sample_entry sample_withheld = Some (sample_bound true (Some 1) 0)) as H1 by (vm_compute; reflexivity). split; [exact H1|].
  assert ((λ w, length (status_sessions (w_core w))) <$> sample_withheld = Some 1%nat) as H2 by (vm_compute; reflexivity).
  destruct sample_withheld as [w|] eqn:Ew; [|discriminate H1]. destruct (sample_reached _ _ Ew) as [ts Hr]. cbn in H2.
  destruct (status_sessions (w_core w)) as [|status l] eqn:Es; [discriminate H2|]. exists w, status.
  split; [reflexivity|]. assert (status ∈ status_sessions (w_core w)) as Hin by (rewrite Es; apply list_elem_of_here).
  split; [rewrite Es; apply list_elem_of_here|]. exact (status_never_withheld 2 _ Hr status Hin).
Defined.

(** A carrier appears, and another one two seconds later. *)
Definition sample_appeared : list Job := [J_Presence (PE_CarrierAppeared [])].
Definition sample_later (w : World) : World := w <| w_clock := sample_time |> <| w_mono := 2 * NANOS_PER_SEC |>.
Definition sample_began (w : option World) : option Z := w ← w; as_last_began (c_appearances (w_core w)).

Lemma sample_began_some w t : sample_began w = Some t → ∃ w0, w = Some w0 ∧ as_last_began (c_appearances (w_core w0)) = Some t.
Proof. unfold sample_began. destruct w as [w0|]; [|done]. cbn. intros He. by exists w0. Qed.

Lemma appearance_sets_apart_witness :
  ∃ w w' t', sample_run (sample_opening ++ sample_signalled ++ J_Start :: sample_appeared) sample_new = Some w ∧
    as_last_began (c_appearances (w_core w)) = Some 0 ∧ sample_run sample_appeared (Some (sample_later w)) = Some w' ∧
    as_last_began (c_appearances (w_core w')) = Some t' ∧ (t' = 0 ∨ 0 + CARRIER_APPEARANCE_HOLD_OFF ≤ t').
Proof.
  set (first := sample_run (sample_opening ++ sample_signalled ++ J_Start :: sample_appeared) sample_new).
  assert (sample_began first = Some 0) as H1 by (vm_compute; reflexivity).
  assert (sample_began (sample_run sample_appeared (sample_later <$> first)) = Some (2 * NANOS_PER_SEC)) as H2 by (vm_compute; reflexivity).
  assert ((λ w, w_mono w) <$> first = Some 0) as H3 by (vm_compute; reflexivity).
  destruct (sample_began_some _ _ H1) as (w & Hw & Ht). rewrite Hw in H2, H3.
  destruct (sample_began_some _ _ H2) as (w' & Hw' & Ht'). injection H3 as H3.
  destruct (sample_reached _ _ Hw) as [ts Hr]. destruct (sample_goes_on _ _ _ ts Hw') as [ts' Hs].
  assert (runs 2 (mkSystem w None ts) (mkSystem w' None ts')) as Hrun.
  { eapply rtc_l; [apply (step_environment _ _ w (sample_later w)), su_time|exact Hs]. rewrite H3. unfold NANOS_PER_SEC. lia. }
  destruct (appearance_sets_apart 2 _ _ 0 Hr Hrun Ht) as (t' & Hb & Hor). exists w, w', t'. auto.
Defined.

(** ** The end of a binding and a new one *)

(** The process starts another native session: the attachment is bound to a new one. *)
Definition sample_transition : Job :=
  J_AdapterEvent 0%nat (Ae_NativeSignal (mkSignal (bs "n2") (Some Sk_Transition) None (Some 1) None)).

(** Four jobs one after the other; then an unbind reads the attachment's session, the transition
    binds the attachment to a new one, and the unbind goes on. *)
Definition sample_before : list (Move (J := Job)) :=
  flat_map (λ x, [Begin x.2; Go x.1 400]) (zip (seq 0 4) (sample_opening ++ sample_signalled)).
Definition sample_race : list (Move (J := Job)) := [Begin (J_Unbind 1); Go 4 1; Begin sample_transition; Go 5 400; Go 4 1].

Definition sample_raced (w : World) : System World pcall Job :=
  foldl (move (run_job 2) (answer_with [sample_peer])) (foldl (move (run_job 2) sample_answer) (system_init w) sample_before) sample_race.

(** [C38] The end of a binding can undo a binding it did not read.  An unbind holds the core lock
    twice, to read the attachment's session and to end it; when a native signal binds the
    attachment to another session in between, the second hold clears the new session from the
    attachment's entry but ends the old session only: a state is reachable in which a session is
    registered, listed and the target of hand-offs for an attachment whose entry is bound to
    none. *)
Theorem unbind_can_orphan_a_session :
  ∃ s a e session, reachable 2 s ∧
    let c := w_core (sy_state s) in
    c_attachments c !! a = Some e ∧ ae_session e = None ∧ c_sessions c !! session = Some a ∧
    is_Some (own_sessions (c_engine c) !! session) ∧ is_Some (rr_own (c_registry c) !! session) ∧
    hand_off_target session c = Some (ae_adapter e, a).
Proof.
  set (facts := λ s : System World pcall Job, let c := w_core (sy_state s) in
    (c_attachments c !! 1, c_sessions c !! sample_peer, is_some (own_sessions (c_engine c) !! sample_peer),
     is_some (rr_own (c_registry c) !! sample_peer), hand_off_target sample_peer c)).
  assert ((λ w, facts (sample_raced w)) <$> sample_new =
    Some (Some (mkAttachment 0%nat true None None None false None (Some 1)), Some 1, true, true, Some (0%nat, 1))) as Hf
    by (vm_compute; reflexivity).
  destruct sample_new as [w|] eqn:En; [|discriminate Hf]. apply (inj Some) in Hf.
  assert (reachable 2 (sample_raced w)) as Hr.
  { exists sample_trusting, sample_time, 0, w. split; [exact En|]. unfold runs, sample_raced. etrans; apply schedule_steps. }
  revert Hr Hf. generalize (sample_raced w) as s. intros s Hr Hf. unfold facts in Hf. injection Hf as H1 H2 H3 H4 H5.
  exists s, 1, (mkAttachment 0%nat true None None None false None (Some 1)), sample_peer. split; [exact Hr|].
  split_and!; try done; [by destruct (own_sessions _ !! _)|by destruct (rr_own _ !! _)].
Qed.

(** ** Compositions of the pipelines with their parts

    A sealed payload is received as the payload it seals; the share of the pending signals is
    fair; a save of the trusted keys that fails is retried ever later, up to a minute. *)

Section Facts.
Context `{C : Crypto} `{HK : Hpke} `{MO : MapOrder} `{E : PipelineEnv}.
Implicit Types w : World.

(** ** A hold of the lock right after another *)

Lemma closures_pending l w :
  lc_pending (w_closures (foldl apply_one_closure w l)) = foldl (λ m x, delete x.1 m) (lc_pending (w_closures w)) l.
Proof.
  revert w. induction l as [|x l IH]; intros w; [done|]. cbn [foldl]. rewrite IH. f_equal. unfold apply_one_closure.
  by destruct (apply_closure _ _ _ _).
Qed.

Lemma delete_all {K A} `{Countable K} (l : list (K * A)) (m : gmap K A) :
  (∀ k, is_Some (m !! k) → k ∈ l.*1) → foldl (λ m x, delete x.1 m) m l = ∅.
Proof.
  revert m. induction l as [|[k v] l IH]; intros m Hm; cbn [foldl].
  - apply map_empty. intros k. destruct (m !! k) as [x|] eqn:Ex; [|done]. exfalso. by eapply not_elem_of_nil, Hm.
  - apply IH. intros k' [x Hx]. cbn in Hx. apply lookup_delete_Some in Hx as [Hne Hx].
    specialize (Hm k' (ex_intro _ x Hx)). cbn in Hm. by apply elem_of_cons in Hm as [?|?].
Qed.

Lemma closures_none w : lc_pending (w_closures (apply_closures w)) = ∅.
Proof.
  unfold apply_closures. rewrite closures_pending. apply delete_all. intros k [x Hx].
  apply list_elem_of_fmap. exists (k, x). split; [done|]. rewrite map_items_perm. by apply elem_of_map_to_list.
Qed.

Lemma map_items_empty {K A} `{Countable K} : map_items (∅ : gmap K A) = [].
Proof. apply Permutation_nil. by rewrite map_items_perm, map_to_list_empty. Qed.

Lemma lock_again w : lock (lock w) = lock w.
Proof.
  unfold lock at 1. set (w1 := lock w). assert (apply_closures w1 = w1) as ->.
  { unfold apply_closures. assert (lc_pending (w_closures w1) = ∅) as -> by apply closures_none. by rewrite map_items_empty. }
  assert (w_tracking w1 = []) as Ht by done. unfold apply_tracking. rewrite Ht. cbn [foldl]. destruct w1. cbn in *. by subst.
Qed.

Lemma alone_bind {A B} (answer : ∀ R, pcall R → R) (m : pipe A) (f : A → pipe B) mine w :
  alone answer (m ≫= f) mine w = match alone answer m mine w with Some (a, mine', w') => alone answer (f a) mine' w' | None => None end.
Proof.
  unfold mbind, pipe_bind. revert mine w. induction m as [a|D g k IH|R x k IH|j k IH|k IH|k IH|k IH|]; intros mine w; cbn [then_do alone]; try done.
  - by destruct mine.
  - by destruct mine.
Qed.

Lemma alone_reading {A} (answer : ∀ R, pcall R → R) (f : Core → A) mine w :
  alone answer (reading f) mine w = Some (f (w_core (lock w)), mine, lock w).
Proof. unfold reading, locked, locked_world, region. cbn [alone]. generalize (lock w) as w1. by intros []. Qed.

(** ** A sealed payload *)

(** What [on_envelope], [on_presence] and [on_device_payload] do with a payload that arrives
    unsealed over a transport that does not seal, past the test of the transport. *)
Definition plainly (copies : nat) (kind : PayloadKind) (payload : list Z) (carrier : CarrierHandle) : pipe unit :=
  match kind with
  | PK_Envelope => receive_envelope_octets copies payload false
  | PK_Presence => match presence_record payload with Some rec => accept_presence rec carrier | None => Ret tt end
  | PK_Receipt => accept_receipt_octets payload
  | PK_Sealed => Ret tt
  end.

(** The arrival of a payload that is not sealed. *)
Definition arrival (copies : nat) (kind : PayloadKind) (payload : list Z) (carrier : CarrierHandle) : pipe unit :=
  match kind with
  | PK_Envelope => on_envelope copies (mkInbound (mkPayload kind payload) carrier)
  | PK_Presence => on_presence (PE_Record (mkPayload kind payload) carrier)
  | _ => on_device_payload copies (mkInbound (mkPayload kind payload) carrier)
  end.

(** A payload an opened frame gave is too late by the device's clock ([SEC-SEL-036]): an
    envelope at its hand-off deadline, a presence record at the end of its replay window, a
    receipt at the hand-off deadline of the envelope it is about. *)
Definition outlived (kind : PayloadKind) (payload : list Z) (w : World) : bool :=
  match kind with
  | PK_Envelope =>
      match receive_envelope payload (receiver_limits (w_core w)) (w_clock w) with
      | Ok msg => passed_at (HandOffDeadline_of (cm_envelope msg)) (w_clock w)
      | Err _ => false
      end
  | PK_Presence =>
      match (rec ← presence_record payload; issued_at_of rec) with
      | Some t => unix_nanos t + REPLAY_WINDOW_MS * 1000000 <=? unix_nanos (w_clock w)
      | None => false
      end
  | PK_Receipt => match receipt_deadline payload (w_core w) with Some t => t <=? unix_nanos (w_clock w) | None => true end
  | PK_Sealed => true
  end.

(** A payload sealed to an agreement key of the device that no key before it opens. *)
Lemma opens_held (HL : HpkeLaws HK) rnd ks before k rest pub recipient kind payload max frame :
  ag_keys ks = before ++ k :: rest → Forall (λ k', open_under (ok_hpke_key k') frame = None) before →
  public_of (ok_private_key k) = Some (ok_hpke_key k, pub) →
  AgreementPublicKey_from_octets pub = Some recipient → Forall is_u8 payload → Z.of_nat (length payload) ≤ U32_MAX →
  seal rnd recipient kind payload max = Ok frame → kind ≠ PK_Sealed ∧ keys_open ks frame = Some (mkOpened kind payload).
Proof.
  intros Hk Hb Hpub Hr Hu Hl Hs. pose proof (seal_spec HL rnd _ _ _ recipient kind payload max Hpub Hr Hu Hl) as H. rewrite Hs in H.
  destruct H as (Hkind & Ho & _). split; [done|]. unfold open_frame in Ho. rewrite Hpub in Ho. cbn in Ho.
  unfold keys_open. rewrite Hk, omap_app. assert (omap (λ k', open_under (ok_hpke_key k') frame) before = []) as ->.
  { clear Hk. induction Hb as [|k' l Hk' _ IH]; [done|]. csimpl. by rewrite Hk'. }
  cbn. by rewrite Ho.
Qed.

(** Over a transport that does not seal, the arrival of a payload is [plainly]. *)
Lemma arrival_plainly (answer : ∀ R, pcall R → R) w copies kind payload carrier :
  match c_transport_caps (w_core (lock w)) with Some caps => tc_sealing caps | None => false end = false →
  kind ≠ PK_Sealed →
  alone answer (arrival copies kind payload carrier) false w = alone answer (plainly copies kind payload carrier) false (lock w).
Proof.
  intros Hc Hkind. destruct kind; [..|done]; cbn [arrival plainly]; unfold on_envelope, on_presence, on_device_payload, sealing;
    cbn [ib_payload pl_kind pl_octets]; rewrite ?bool_decide_true by done; cbn [negb]; rewrite alone_bind, alone_reading, Hc; done.
Qed.

Lemma opened_envelope (answer : ∀ R, pcall R → R) w copies payload carrier :
  alone answer (receive_envelope_octets copies payload true) false (lock w) =
    if outlived PK_Envelope payload (lock w) then Some (tt, false, lock w)
    else alone answer (plainly copies PK_Envelope payload carrier) false (lock w).
Proof.
  cbn [plainly outlived]. unfold receive_envelope_octets. rewrite !alone_bind, alone_reading, lock_again, !alone_bind.
  unfold clock_now. cbn [alone region fst snd]. destruct (receive_envelope _ _ _) as [msg|e]; [|done]. cbn [andb]. by destruct (passed_at _ _).
Qed.

Lemma opened_presence (answer : ∀ R, pcall R → R) w copies payload carrier :
  alone answer (on_opened_presence payload carrier) false (lock w) =
    if outlived PK_Presence payload (lock w) then Some (tt, false, lock w)
    else alone answer (plainly copies PK_Presence payload carrier) false (lock w).
Proof.
  cbn [plainly outlived]. unfold on_opened_presence. destruct (presence_record payload) as [rec|]; [|done]. cbn [mbind option_bind].
  rewrite alone_bind. unfold clock_now. cbn [alone region fst snd]. destruct (issued_at_of rec); [|done]. by destruct (_ <=? _).
Qed.

Lemma opened_receipt (answer : ∀ R, pcall R → R) w copies payload carrier :
  alone answer (on_opened_receipt payload) false (lock w) =
    if outlived PK_Receipt payload (lock w) then Some (tt, false, lock w)
    else alone answer (plainly copies PK_Receipt payload carrier) false (lock w).
Proof.
  cbn [plainly outlived]. unfold on_opened_receipt. rewrite alone_bind, alone_reading, lock_again. destruct (receipt_deadline _ _) as [t|]; [|done].
  rewrite alone_bind. unfold clock_now. cbn [alone region fst snd]. by destruct (_ <=? _).
Qed.

(** [C27] Sealing is transparent to the receiving pipeline.  A payload sealed, as the sending
    pipeline seals it, to the public part of any agreement key a device holds, where no key the
    device tries before it opens the frame, and received while no other thread runs: it is
    dropped, with nothing changed but what taking the lock applies, if it names another device
    or is too late by the device's clock ([SEC-SEL-036]); otherwise the device does with it, in
    the same state, exactly what it does with a payload of that kind that arrives unsealed. *)
Theorem sealed_payload_received (HL : HpkeLaws HK) (answer : ∀ R, pcall R → R) w ks before k rest pub recipient caps
    rnd kind payload max frame carrier copies :
  w_agreement (lock w) = Some ks → ag_keys ks = before ++ k :: rest →
  Forall (λ k', open_under (ok_hpke_key k') frame = None) before →
  public_of (ok_private_key k) = Some (ok_hpke_key k, pub) →
  AgreementPublicKey_from_octets pub = Some recipient →
  c_transport_caps (w_core (lock w)) = Some caps → tc_sealing caps = true →
  Forall is_u8 payload → Z.of_nat (length payload) ≤ U32_MAX → seal rnd recipient kind payload max = Ok frame →
  alone answer (on_device_payload copies (mkInbound (mkPayload PK_Sealed frame) carrier)) false w =
    match recipient_of kind payload (c_engine (w_core (lock w))) with
    | Rc_Another => Some (tt, false, lock w)
    | _ => if outlived kind payload (lock w) then Some (tt, false, lock w)
           else alone answer (plainly copies kind payload carrier) false (lock w)
    end.
Proof.
  intros Hks Hk Hb Hpub Hrec Hcaps Hseal Hu Hl Hs.
  destruct (opens_held HL rnd ks before k rest pub recipient kind payload max frame Hk Hb Hpub Hrec Hu Hl Hs) as [Hkind Ho].
  unfold on_device_payload. rewrite alone_bind. unfold sealing. rewrite alone_reading, Hcaps, Hseal. unfold on_sealed. cbn [ib_payload pl_kind].
  rewrite bool_decide_true by done. cbn [negb]. rewrite alone_bind. cbn [alone region fst snd]. rewrite Hks.
  cbn [open_with mbind option_bind pl_octets ib_payload]. rewrite Ho, alone_bind, alone_reading, lock_again. cbn [op_kind op_payload].
  destruct (recipient_of kind payload _); [|done|]; unfold on_opened; cbn [op_kind op_payload ib_carrier];
    destruct kind; (done || apply opened_envelope || apply opened_presence || apply opened_receipt).
Qed.

(** ** The share of the pending signals *)

(** Room for a signal is made fairly.  Among the pending signals, a signal of a holder evicts the
    oldest one of the same holder, unless some holder has at least two more pending than it: then
    it evicts the oldest one of the holder with the most, and among those with the most, of the
    one whose latest signal is the latest.  Nothing is evicted only when the holder has none and
    no holder more than one. *)
Theorem pending_victim_fair c h :
  let pending := map (λ h, (Sh_Key (hg_adapter h) (hg_key h), hg_seq h)) (c_held c) ++ map (λ q, (holder q, qs_seq q)) (c_signals c) in
  match pending_victim c h with
  | Some v => ∃ g, ((g, v) ∈ pending ∧ ∀ s, (g, s) ∈ pending → v ≤ s) ∧
      ((g = h ∧ ∀ g', count_of g' pending ≤ count_of h pending + 1) ∨
       (count_of h pending + 2 ≤ count_of g pending ∧ (∀ g', count_of g' pending ≤ count_of g pending) ∧
        ∀ g' s', count_of g' pending = count_of g pending → (g', s') ∈ pending → ∃ s, (g, s) ∈ pending ∧ s' ≤ s))
  | None => count_of h pending = 0 ∧ ∀ g, count_of g pending ≤ 1
  end.
Proof. intros pending. unfold pending_victim. fold pending. apply (share_victim_spec pending h). Qed.

(** ** Saving the trusted keys again *)

Lemma shift_wait n : 1 ≤ n → Z.min (TRUST_SAVE_RETRY_FIRST * Z.shiftl 1 (Z.min (n - 1) 16)) TRUST_SAVE_RETRY_CAP =
  Z.min (2 ^ (n - 1)) 60 * NANOS_PER_SEC.
Proof.
  intros Hn. unfold TRUST_SAVE_RETRY_FIRST, TRUST_SAVE_RETRY_CAP, NANOS_PER_SEC. rewrite Z.shiftl_1_l.
  destruct (decide (n - 1 ≤ 16)) as [Hle|Hgt]; [rewrite (Z.min_l (n - 1) 16) by lia; lia|].
  rewrite (Z.min_r (n - 1) 16) by lia. pose proof (Z.pow_le_mono_r 2 16 (n - 1) ltac:(lia) ltac:(lia)) as H. change (2 ^ 16) with 65536 in *. lia.
Qed.

(** The retry of a failed save backs off.  After [n] failures in a row with no saved change
    between them, the next retry is due [min (2^(n-1)) 60] seconds after the last of them: one
    second, two, four, and from the seventh on a minute. *)
Theorem trust_save_backs_off c (failed : list Z) (last : Z) :
  c_trust_retry c = None → Z.of_nat (length failed) < U32_MAX →
  next_trust_retry_at (foldl (λ c now, trust_save_failed now c) c (failed ++ [last])) =
    Some (last + Z.min (2 ^ Z.of_nat (length failed)) 60 * NANOS_PER_SEC).
Proof.
  intros Hc. assert (∀ l x, Z.of_nat (length l) < U32_MAX →
    c_trust_retry (foldl (λ c now, trust_save_failed now c) c (l ++ [x])) =
      Some (mkRetry (Z.of_nat (length l) + 1) (x + Z.min (2 ^ Z.of_nat (length l)) 60 * NANOS_PER_SEC))) as Hall.
  { intros l. induction l as [|y l IH] using rev_ind; intros x Hl; rewrite foldl_app; cbn [foldl]; unfold trust_save_failed at 1.
    - cbn [foldl]. rewrite Hc. done.
    - rewrite length_app in *. cbn [length] in *. rewrite (IH y) by lia. cbn [tr_failures]. rewrite Z.min_l by lia. cbn.
      rewrite shift_wait by lia. rewrite Nat2Z.inj_add. replace (Z.of_nat (length l) + 1 + 1 - 1) with (Z.of_nat (length l) + Z.of_nat 1) by lia. done. }
  intros Hl. unfold next_trust_retry_at. by rewrite (Hall failed last Hl).
Qed.
End Facts.

(** ** Samples *)

#[local] Existing Instances sample_map_order sample_env sample_primitives.

Lemma trust_save_backs_off_witness :
  ∃ c, Core_new sample_trusting = Some c ∧
    next_trust_retry_at (foldl (λ c now, trust_save_failed now c) c ([0; 1; 2; 3; 4; 5] ++ [10])) = Some (10 + 60 * NANOS_PER_SEC).
Proof.
  assert ((λ c, is_some (c_trust_retry c)) <$> Core_new sample_trusting = Some false) as Hc by (vm_compute; reflexivity).
  destruct (Core_new sample_trusting) as [c|]; [|discriminate Hc]. exists c. split; [reflexivity|]. apply (inj Some) in Hc.
  refine (trust_save_backs_off c [0; 1; 2; 3; 4; 5] 10 _ ltac:(vm_compute; reflexivity)).
  destruct (c_trust_retry c); [discriminate Hc|reflexivity].
Defined.

(** The agreement keys of a device that has replaced its first. *)
Definition sample_own : OwnKey := mkOwnKey [] [] 0 sample_time (mkStatement []).
Definition sample_rotated : AgreementKeys :=
  match keys_replace (C := sample_pair) MemoryAgreementKeyStore (sample_device "alice" 1) [5 :: replicate 31 0] sample_time sample_first sample_held with
  | Some (_, ks, _) => ks
  | None => sample_first
  end.

(** A device over a sealing transport, with two agreement keys. *)
Definition sample_sealing : option World :=
  (λ w, w <| w_agreement := Some sample_rotated |>
          <| w_core := w_core w <| c_transport_caps := Some (mkTransportCaps true false false true false false CrossImplementation true 2000000 true) |> |>)
    <$> sample_new.

(** A record sealed to its older key. *)
Definition sample_frame : list Z := default [] (ok (seal (replicate 32 3) (mkAgreement sample_agreement) PK_Presence (bs "{}") 2000000)).

Lemma sealed_payload_received_witness :
  ∃ w, sample_sealing = Some w ∧
    alone sample_answer (on_device_payload 2 (mkInbound (mkPayload PK_Sealed sample_frame) [])) false w =
    alone sample_answer (plainly 2 PK_Presence (bs "{}") []) false (lock w).
Proof.
  assert ((λ w, (w_agreement (lock w), c_transport_caps (w_core (lock w)), recipient_of PK_Presence (bs "{}") (c_engine (w_core (lock w))))) <$> sample_sealing =
    Some (Some sample_rotated, Some (mkTransportCaps true false false true false false CrossImplementation true 2000000 true), Rc_Unnamed)) as Hf
    by (vm_compute; reflexivity).
  destruct sample_sealing as [w|]; [|discriminate Hf]. apply (inj Some) in Hf. exists w. split; [reflexivity|].
  set (w1 := lock w) in *.
  pose proof (f_equal (λ x, x.1.1) Hf) as H1. pose proof (f_equal (λ x, x.1.2) Hf) as H2. pose proof (f_equal snd Hf) as H3. cbn [fst snd] in H1, H2, H3.
  pose proof (sealed_payload_received sample_hpke_laws sample_answer w sample_rotated [nth 0 (ag_keys sample_rotated) sample_own] (nth 1 (ag_keys sample_rotated) sample_own) []
    sample_agreement (mkAgreement sample_agreement) _ (replicate 32 3) PK_Presence (bs "{}") 2000000 sample_frame [] 2
    H1 ltac:(vm_compute; reflexivity) ltac:(apply Forall_singleton; vm_compute; reflexivity) ltac:(vm_compute; reflexivity) ltac:(vm_compute; reflexivity) H2 eq_refl
    ltac:(apply octets_u8; vm_compute; reflexivity) ltac:(vm_compute; discriminate) ltac:(vm_compute; reflexivity)) as Hr.
  fold w1 in Hr. rewrite H3 in Hr. exact Hr.
Defined.
