(* ===== verification/McpTools.v ===== *)
(** * The tool surface every harness sees ([adapters/mcp-tools/src/lib.rs])

    The four tools with their [inputSchema], the parsing of a call's arguments, the request a
    call becomes, and the results rendered back.  The JSON tree and the map of the protocol
    crate are code outside the repository: they are the parameters [Value] and [Map] with the
    operations the source calls, and the documented behaviour of those operations is the class
    [McpJsonLaws].  The tool schemas are data in that tree; what they mean is given by
    [conforms], an interpreter of the JSON Schema keywords they use. *)

From Stdlib Require Import SpecFloat.
From S2P Require Import Prelude Ids Utf8 Json JsonFacts JsonReader JsonText Delivery Canonical Capabilities Envelope IssuedPairing AtomicFile Sender PipelineSend.

(** ** The tree of the protocol crate *)

Class McpJson (Value Map : Type) := {
  Value_null : Value;
  Value_bool : bool → Value;
  Value_i64 : Z → Value;
  Value_f64 : spec_float → Value;
  Value_str : list Z → Value;
  Value_u64 : Z → Value;
  Value_array : list Value → Value;
  Value_object : Map → Value;
  value_as_str : Value → option (list Z);
  value_as_u64 : Value → option Z;
  value_as_array : Value → option (list Value);
  value_as_object : Value → option Map;
  map_new : Map;
  map_insert : Map → list Z → Value → Map;
  map_get : Map → list Z → option Value;
  map_members : Map → list (list Z * Value);
  value_to_string : Value → list Z }.

(** What the documentation of the tree and of the map says of those operations. *)
Class McpJsonLaws (Value Map : Type) `{McpJson Value Map} := {
  as_str_str s : is_utf8 s = true → value_as_str (Value_str s) = Some s;
  as_str_utf8 v s : value_as_str v = Some s → is_utf8 s = true;
  as_u64_u64 n : 0 ≤ n ≤ U64_MAX → value_as_u64 (Value_u64 n) = Some n;
  as_array_array l : value_as_array (Value_array l) = Some l;
  as_object_object m : value_as_object (Value_object m) = Some m;
  get_new k : map_get map_new k = None;
  get_insert m k v k' : map_get (map_insert m k v) k' = if beq k k' then Some v else map_get m k';
  members_get m k v : (k, v) ∈ map_members m ↔ map_get m k = Some v }.

Definition SEND : list Z := bs "send".
Definition REPLY : list Z := bs "reply".
Definition LIST_SESSIONS : list Z := bs "list_sessions".
Definition WHOAMI : list Z := bs "whoami".
Definition TOOL_NAMES : list (list Z) := [SEND; REPLY; LIST_SESSIONS; WHOAMI].

(** A parsed tool call, and why a call could not be parsed. *)
Inductive ToolCall : Type :=
| Tc_Send (to : SessionId) (content : list ContentPart) (conversation_id correlation_id : option (list Z))
| Tc_Reply (in_reply_to : option (list Z)) (to : option SessionId) (content : list ContentPart)
| Tc_ListSessions
| Tc_Whoami.

Inductive CallError : Type := Ce_UnknownTool (name : list Z) | Ce_Invalid (reason : string).

Section McpTools.
Context {Value Map : Type} `{McpJson Value Map}.

(** ** Tool definitions *)

Record Tool := mkTool { tool_name : list Z; tool_description : string; tool_input_schema : Map }.

Definition object (members : list (string * Value)) : Map :=
  foldl (λ o m, map_insert o (bs m.1) m.2) map_new members.

Definition string_schema (description : string) : Value :=
  Value_object (object [("type", Value_str (bs "string")); ("description", Value_str (bs description))]%string).

(** The [part] of [content_schema]. *)
Definition part_schema : Map :=
  object
    [("type", Value_str (bs "object"));
     ("properties", Value_object (object
       [("type", Value_object (object [("const", Value_str (bs "text"))]));
        ("text", Value_object (object [("type", Value_str (bs "string")); ("minLength", Value_u64 1)]))]));
     ("required", Value_array [Value_str (bs "type"); Value_str (bs "text")])]%string.

Definition content_schema : Value :=
  Value_object (object
    [("type", Value_str (bs "array"));
     ("minItems", Value_u64 1);
     ("items", Value_object part_schema);
     ("description", Value_str (bs "The message: one or more text parts. It is sent as written."))]%string).

Definition schema (properties : list (string * Value)) (required : list string) : Map :=
  let members := [("type", Value_str (bs "object")); ("properties", Value_object (object properties))]%string in
  let members := match required with
    | [] => members
    | _ => members ++ [("required", Value_array (map (λ r, Value_str (bs r)) required))]%string
    end in
  object members.

Definition tools : list Tool :=
  [mkTool SEND
     "Send a new OAC message to another session. The result carries the message id and the state accepted-by-adapter: the message was passed on, not that it was read."
     (schema
       [("to", string_schema "The addressed session id.");
        ("content", content_schema);
        ("conversation_id", string_schema "Optional: a conversation id to group messages.");
        ("correlation_id", string_schema "Optional: a value every reply to this message carries back.")]%string
       ["to"; "content"]%string);
   mkTool REPLY
     "Reply to an OAC message you received. Name it by its oac_message_id in in_reply_to. Without in_reply_to, name the session in to: the reply is then sent uncorrelated, not linked to any message."
     (schema
       [("in_reply_to", string_schema "Optional: the oac_message_id of the message you are answering. Without it, to is required and the reply is sent uncorrelated.");
        ("content", content_schema);
        ("to", string_schema "The session to reply to (the oac_sender of the message). Required when in_reply_to is absent.")]%string
       ["content"]%string);
   mkTool LIST_SESSIONS "List the OAC sessions this session may discover." (schema [] []);
   mkTool WHOAMI "Return this session's own OAC session id and device fingerprint. Never a credential." (schema [] [])].

(** ** Arguments *)

Definition str_arg (args : option Map) (name : list Z) : result CallError (option (list Z)) :=
  match a ← args; map_get a name with
  | None => Ok None
  | Some v => s ← ok_or (value_as_str v) (Ce_Invalid "an argument that must be a string is not one"); Ok (Some s)
  end.

Definition session_arg (args : option Map) (name : list Z) : result CallError (option SessionId) :=
  s ← str_arg args name;
  match s with
  | None => Ok None
  | Some s => i ← ok_or (SessionId_parse s) (Ce_Invalid "a session argument is not a session id"); Ok (Some i)
  end.

(** The closure [content_arg] maps over the parts, and [collect] into a [Result]. *)
Definition part_arg (p : Value) : result CallError ContentPart :=
  p ← ok_or (value_as_object p) (Ce_Invalid "a content part must be an object");
  if negb (bool_decide ((t ← map_get p (bs "type"); value_as_str t) = Some (bs "text")))
  then Err (Ce_Invalid "only text parts are carried")
  else
    text ← ok_or (t ← map_get p (bs "text"); value_as_str t) (Ce_Invalid "a text part must have a string text");
    t ← ok_or (TextPart_new text) (Ce_Invalid "a text part must be non-empty I-JSON text");
    Ok (CText t).

Fixpoint collect_parts (parts : list Value) : result CallError (list ContentPart) :=
  match parts with
  | [] => Ok []
  | p :: parts => c ← part_arg p; cs ← collect_parts parts; Ok (c :: cs)
  end.

Definition content_arg (args : option Map) : result CallError (list ContentPart) :=
  parts ← ok_or (a ← args; v ← map_get a (bs "content"); value_as_array v)
            (Ce_Invalid "content must be an array of text parts");
  match parts with
  | [] => Err (Ce_Invalid "content must hold at least one part")
  | _ => collect_parts parts
  end.

Definition parse (name : list Z) (arguments : option Map) : result CallError ToolCall :=
  if beq name SEND then
    to ← session_arg arguments (bs "to");
    to ← ok_or to (Ce_Invalid "to is required");
    content ← content_arg arguments;
    conversation_id ← str_arg arguments (bs "conversation_id");
    correlation_id ← str_arg arguments (bs "correlation_id");
    Ok (Tc_Send to content conversation_id correlation_id)
  else if beq name REPLY then
    in_reply_to ← str_arg arguments (bs "in_reply_to");
    let in_reply_to := opt_filter (λ t, negb (bool_decide (t = []))) in_reply_to in
    to ← session_arg arguments (bs "to");
    if negb (is_some in_reply_to) && negb (is_some to)
    then Err (Ce_Invalid "to is required when in_reply_to is absent")
    else
      content ← content_arg arguments;
      Ok (Tc_Reply in_reply_to to content)
  else if beq name LIST_SESSIONS then Ok Tc_ListSessions
  else if beq name WHOAMI then Ok Tc_Whoami
  else Err (Ce_UnknownTool name).

(** The requests; the attachment they are labelled with travels beside them. *)
Definition send_request (to : SessionId) (content : list ContentPart) (conversation_id correlation_id : option (list Z))
    : SendRequest :=
  mkRequest to content None conversation_id correlation_id.

Definition reply_request (to : SessionId) (content : list ContentPart) (in_reply_to : option (list Z)) : SendRequest :=
  mkRequest to content (Some (default [] in_reply_to)) None None.

(** ** Results *)

Inductive ContentBlock : Type := Cb_Text (text : list Z) | Cb_Other.

Record CallToolResult := mkCallResult {
  cr_content : list ContentBlock; cr_structured_content : option Value; cr_is_error : bool }.

Definition mcp_result (value : Value) (is_error : bool) : CallToolResult :=
  mkCallResult [Cb_Text (value_to_string value)] (Some value) is_error.

Definition error_object (code : ErrorCode) : Value :=
  Value_object (object [("error", Value_str (ErrorCode_as_str code))]%string).

Definition refusal (code : ErrorCode) : CallToolResult :=
  mkCallResult [Cb_Text (ErrorCode_as_str code ++ bs ": the request was refused.")] (Some (error_object code)) true.

(** [b'0'..=b'9' | b'a'..=b'f']. *)
Definition is_lower_hex (b : Z) : bool := in_range 48 57 b || in_range 97 102 b.

Definition is_pairing_value (s : list Z) : bool :=
  match strip_prefix PAIRING_VALUE_PREFIX s with
  | None => false
  | Some hex => bool_decide (length hex = 32%nat) && forallb is_lower_hex hex
  end.

Definition pairing_refusal_text (value : list Z) : list Z :=
  bs "unauthorized: this connection is not yet paired with a session; pairing value " ++ value ++
  bs ". You can call the tool once more.".

Definition pairing_refusal (value : list Z) : CallToolResult :=
  mkCallResult [Cb_Text (pairing_refusal_text value)] (Some (error_object E_Unauthorized)) true.

Definition refusal_with (code : ErrorCode) (pairing_value : option (list Z)) : CallToolResult :=
  match pairing_value with
  | Some v => if bool_decide (code = E_Unauthorized) && is_pairing_value v then pairing_refusal v else refusal code
  | None => refusal code
  end.

Definition single_text (r : CallToolResult) : option (list Z) :=
  match cr_content r with [Cb_Text t] => Some t | _ => None end.

Definition arguments_json (arguments : option Map) : option Json :=
  match arguments with
  | None => Some JNull
  | Some o => ok (Json.parse (value_to_string (Value_object o)))
  end.

Definition send_result (r : SendRequestResult) : CallToolResult :=
  match r with
  | Sr_Refused error pairing_value => refusal_with error pairing_value
  | Sr_NotPassed id error =>
      mkCallResult
        [Cb_Text (ErrorCode_as_str error ++ bs ": message " ++ id ++ bs " was created but not passed to a transport.")]
        (Some (Value_object (object
          [("error", Value_str (ErrorCode_as_str error)); ("id", Value_str id);
           ("state", Value_str (DeliveryState_as_str D_Failed))]%string)))
        true
  | Sr_Sent id correlation =>
      let members := [("id", Value_str id); ("state", Value_str (DeliveryState_as_str D_AcceptedByAdapter))]%string in
      let members := match correlation with
        | None => members
        | Some c => members ++ [("correlation",
            Value_str (match c with Correlated => bs "correlated" | Uncorrelated => bs "uncorrelated" end))]%string
        end in
      mcp_result (Value_object (object members)) false
  end.

Definition whoami_result (r : IdentityRequestResult) : CallToolResult :=
  match r with
  | Ir_Refused error pairing_value => refusal_with error pairing_value
  | Ir_LocalIdentity session_id device_fingerprint =>
      mcp_result (Value_object (object
        [("session_id", Value_str session_id); ("device_fingerprint", Value_str device_fingerprint)]%string)) false
  end.

(** [str::parse::<u64>] and [str::parse::<i64>]: an optional sign ([+] alone for the unsigned
    one), digits, and the range of the width. *)
Definition parse_u64 (s : list Z) : option Z :=
  v ← Ids.digits (match s with 43 :: r => r | _ => s end);
  then_some (v <=? U64_MAX) v.

Definition parse_i64 (s : list Z) : option Z :=
  v ← match s with
      | 45 :: r => Z.opp <$> Ids.digits r
      | 43 :: r => Ids.digits r
      | _ => Ids.digits s
      end;
  then_some (in_range (-2 ^ 63) (2 ^ 63 - 1) v) v.

Definition number_of (raw : list Z) : Value :=
  match parse_u64 raw with
  | Some u => Value_u64 u
  | None => match parse_i64 raw with Some i => Value_i64 i | None => Value_f64 (to_f64 raw) end
  end.

(** [value_of] with [object_of] written out in its last case. *)
Fixpoint value_of (j : Json) : Value :=
  match j with
  | JNull => Value_null
  | JBool b => Value_bool b
  | JNumber raw => number_of raw
  | JString s => Value_str s
  | JArray a => Value_array (map value_of a)
  | JObject o => Value_object (foldl (λ out m, map_insert out m.1 m.2) map_new (map (λ m, (m.1, value_of m.2)) o))
  end.

Definition object_of (o : JsonObject) : Map :=
  foldl (λ out m, map_insert out m.1 (value_of m.2)) map_new o.

Definition discovery_result (r : DiscoveryRequestResult) : CallToolResult :=
  match r with
  | Dr_Refused error pairing_value => refusal_with error pairing_value
  | Dr_Result sessions =>
      let list := map (λ d, Value_object (object_of (sd_wire d))) sessions in
      mcp_result (Value_object (object [("sessions", Value_array list)]%string)) false
  end.

(** ** What a schema accepts

    The JSON Schema keywords of the tool schemas: [type] of the three used types, [const] of a
    string, [minLength] in characters, [minItems], [items], [properties] and [required]; other
    keywords say nothing about a value.  The depth bounds the nesting of the schema. *)

Definition keyword (s : Map) (name : string) (holds : Value → bool) : bool :=
  match map_get s (bs name) with None => true | Some k => holds k end.

Definition has_type (t : list Z) (v : Value) : bool :=
  if beq t (bs "string") then is_some (value_as_str v)
  else if beq t (bs "array") then is_some (value_as_array v)
  else if beq t (bs "object") then is_some (value_as_object v)
  else false.

Definition on {A} (o : option A) (f : A → bool) : bool := match o with Some a => f a | None => true end.
Definition ons {A} (o : option A) (f : A → bool) : bool := match o with Some a => f a | None => false end.

Fixpoint conforms (depth : nat) (s : Map) (v : Value) : bool :=
  match depth with
  | O => false
  | S d =>
      keyword s "type" (λ k, ons (value_as_str k) (λ t, has_type t v)) &&
      keyword s "const" (λ k, ons (value_as_str k) (λ c, bool_decide (value_as_str v = Some c))) &&
      keyword s "minLength" (λ k, ons (value_as_u64 k) (λ n, on (value_as_str v) (λ x, n <=? Z.of_nat (length (chars x))))) &&
      keyword s "minItems" (λ k, ons (value_as_u64 k) (λ n, on (value_as_array v) (λ l, n <=? Z.of_nat (length l)))) &&
      keyword s "items" (λ k, ons (value_as_object k) (λ s', on (value_as_array v) (forallb (conforms d s')))) &&
      keyword s "properties" (λ k, ons (value_as_object k) (λ p, on (value_as_object v) (λ o,
        forallb (λ m, ons (value_as_object m.2) (λ s', on (map_get o m.1) (conforms d s'))) (map_members p)))) &&
      keyword s "required" (λ k, ons (value_as_array k) (λ l, on (value_as_object v) (λ o,
        forallb (λ r, ons (value_as_str r) (λ n, is_some (map_get o n))) l)))
  end.

(** The string an argument holds, and the texts of the parts of [content], as written. *)
Definition written (args : option Map) (name : string) : option (list Z) :=
  a ← args; v ← map_get a (bs name); value_as_str v.

Definition part_text (p : Value) : option (list Z) :=
  o ← value_as_object p; t ← map_get o (bs "text"); value_as_str t.

Definition written_texts (args : option Map) : list (list Z) :=
  omap part_text (default [] (a ← args; v ← map_get a (bs "content"); value_as_array v)).

(** What a call must satisfy beyond its schema: the rules that a schema of these keywords does
    not say. *)
Definition beyond_schema (name : list Z) (args : option Map) : bool :=
  if beq name SEND then
    on (written args "to") is_session_id && forallb is_ijson_string (written_texts args)
  else if beq name REPLY then
    on (written args "to") is_session_id && forallb is_ijson_string (written_texts args) &&
    (is_some (written args "to") || negb (bool_decide (default [] (written args "in_reply_to") = [])))
  else true.

End McpTools.

(** ** The schemas and the parser agree *)

Lemma bs_eqb k k' : beq (bs k) (bs k') = String.eqb k k'.
Proof.
  destruct (String.eqb_spec k k') as [->|Hn]; [apply beq_refl|].
  destruct (beq (bs k) (bs k')) eqn:E; [|done]. apply beq_true in E. destruct Hn.
  revert k' E. induction k as [|a k IH]; intros [|b k'] [=]; [done|]. f_equal; [|by apply IH].
  rewrite <-(Ascii.ascii_N_embedding a), <-(Ascii.ascii_N_embedding b). f_equal. lia.
Qed.

Section Schemas.
Context {Value Map : Type} `{McpJsonLaws Value Map}.
Implicit Types (v : Value) (args : option Map).

(** The value a literal member list gives a name: the last one. *)
Fixpoint lit (l : list (string * Value)) (k : string) : option Value :=
  match l with
  | [] => None
  | m :: r => match lit r k with Some v => Some v | None => if String.eqb m.1 k then Some m.2 else None end
  end.

Lemma get_object l k : map_get (object l) (bs k) = lit l k.
Proof.
  unfold object. assert (∀ o, map_get (foldl (λ o m, map_insert o (bs m.1) m.2) o l) (bs k) =
    match lit l k with Some v => Some v | None => map_get o (bs k) end) as Hf.
  { induction l as [|[k' v] l IH]; intros o; [done|]. simpl. rewrite IH, get_insert, bs_eqb. simpl.
    by destruct (lit l k), (String.eqb k' k). }
  rewrite Hf, get_new. by destruct (lit l k).
Qed.

Lemma keyword_object l name f : keyword (object l) name f = on (lit l name) f.
Proof. unfold keyword. rewrite get_object. by destruct (lit l name). Qed.

Lemma get_object_inv l k v : map_get (object l) k = Some v → ∃ k', k = bs k' ∧ lit l k' = Some v.
Proof.
  intros Hk. assert (∃ k', k = bs k') as [k' ->]; [|exists k'; by rewrite <-get_object].
  revert Hk. unfold object. generalize (get_new k). generalize (map_new (Value := Value) (Map := Map)).
  induction l as [|[k' w] l IH]; intros o Ho Hk; simpl in Hk; [congruence|].
  destruct (beq (bs k') k) eqn:E; [apply beq_true in E as <-; by eexists|].
  apply (IH _ (eq_trans (get_insert o (bs k') w k) ltac:(by rewrite E)) Hk).
Qed.

Lemma members_object l f :
  NoDup l.*1 → forallb f (map_members (object l)) = forallb (λ m, f (bs m.1, m.2)) l.
Proof.
  intros Hnd. apply eq_bool_prop_intro. rewrite !forallb_True, !Forall_forall.
  assert (∀ k v, (k, v) ∈ l ↔ lit l k = Some v) as Hl.
  { intros k. induction l as [|[k' w] l IH]; intros v; cbn [lit]; [set_solver|]. apply NoDup_cons in Hnd as [Hk Hnd].
    rewrite elem_of_cons, (IH Hnd). destruct (lit l k) as [x|] eqn:E; simpl;
      destruct (String.eqb_spec k' k) as [->|Hne]; try naive_solver.
    destruct Hk. apply list_elem_of_fmap. exists (k, x). by rewrite (IH Hnd). }
  split.
  - intros Hm [k v] Hin. apply (Hm (bs k, v)). by rewrite members_get, get_object, <-Hl.
  - intros Hm [k v] (k' & -> & Hk)%members_get%get_object_inv. apply (Hm (k', v)). by rewrite Hl.
Qed.

Lemma conforms_S d s v :
  conforms (S d) s v =
    keyword s "type" (λ k, ons (value_as_str k) (λ t, has_type t v)) &&
    keyword s "const" (λ k, ons (value_as_str k) (λ c, bool_decide (value_as_str v = Some c))) &&
    keyword s "minLength" (λ k, ons (value_as_u64 k) (λ n, on (value_as_str v) (λ x, n <=? Z.of_nat (length (chars x))))) &&
    keyword s "minItems" (λ k, ons (value_as_u64 k) (λ n, on (value_as_array v) (λ l, n <=? Z.of_nat (length l)))) &&
    keyword s "items" (λ k, ons (value_as_object k) (λ s', on (value_as_array v) (forallb (conforms d s')))) &&
    keyword s "properties" (λ k, ons (value_as_object k) (λ p, on (value_as_object v) (λ o,
      forallb (λ m, ons (value_as_object m.2) (λ s', on (map_get o m.1) (conforms d s'))) (map_members p)))) &&
    keyword s "required" (λ k, ons (value_as_array k) (λ l, on (value_as_object v) (λ o,
      forallb (λ r, ons (value_as_str r) (λ n, is_some (map_get o n))) l))).
Proof. done. Qed.

Ltac kw1 :=
  rewrite ?keyword_object; cbn [lit String.eqb Ascii.eqb Bool.eqb fst snd on];
  rewrite ?as_object_object, ?as_array_array, ?as_str_str, ?as_u64_u64 by (done || vm_compute; done);
  cbn [ons on]; rewrite ?andb_true_l, ?andb_true_r.
Ltac kw := rewrite conforms_S; kw1.

Lemma has_string v : has_type (bs "string") v = is_some (value_as_str v).
Proof. done. Qed.
Lemma has_array v : has_type (bs "array") v = is_some (value_as_array v).
Proof. done. Qed.
Lemma has_object v : has_type (bs "object") v = is_some (value_as_object v).
Proof. done. Qed.

Lemma conforms_string d text v :
  conforms (S d) (object [("type", Value_str (bs "string")); ("description", Value_str (bs text))]%string) v =
  is_some (value_as_str v).
Proof. kw. apply has_string. Qed.

Lemma chars_nonempty s : is_utf8 s = true → (1 <=? Z.of_nat (length (chars s))) = negb (bool_decide (s = [])).
Proof.
  intros [Hs _]%chars_spec. destruct (chars s) as [|c cs] eqn:E.
  - simpl in Hs. by rewrite Hs.
  - rewrite bool_decide_eq_false_2; [apply Z.leb_le; simpl; lia|]. by intros ->.
Qed.

Lemma conforms_part d v :
  conforms (S (S d)) part_schema v =
  ons (value_as_object v) (λ o,
    bool_decide ((t ← map_get o (bs "type"); value_as_str t) = Some (bs "text")) &&
    ons (t ← map_get o (bs "text"); value_as_str t) (λ s, negb (bool_decide (s = [])))).
Proof.
  unfold part_schema. kw. rewrite has_object. destruct (value_as_object v) as [o|]; [|done]. cbn [is_some on ons].
  rewrite members_object by (repeat constructor; set_solver). cbn [forallb fst snd]. kw1.
  destruct (map_get o (bs "type")) as [ty|], (map_get o (bs "text")) as [tx|]; cbn [on mbind option_bind is_some ons].
  - kw. rewrite conforms_S. kw1. rewrite has_string. destruct (value_as_str tx) as [s|] eqn:Es; [|cbn [is_some on ons andb]; by rewrite ?andb_false_r].
    cbn [is_some on ons]. by rewrite andb_true_l, chars_nonempty by eauto using as_str_utf8.
  - by rewrite !andb_false_r.
  - by rewrite bool_decide_eq_false_2, !andb_false_r by done.
  - by rewrite !andb_false_r.
Qed.

Lemma part_arg_ok d p :
  is_ok (part_arg p) = conforms (S (S d)) part_schema p && on (part_text p) is_ijson_string.
Proof.
  rewrite conforms_part. unfold part_arg, part_text. destruct (value_as_object p) as [o|]; [|done].
  cbn [ok_or mbind result_bind option_bind ons].
  destruct (bool_decide (_ = Some (bs "text"))); cbn [negb andb]; [|done].
  destruct (map_get o (bs "text") ≫= _) as [s|]; [|done]. cbn [ok_or mbind result_bind ons on].
  unfold TextPart_new. by destruct (bool_decide (s = [])), (is_ijson_string s).
Qed.

Lemma collect_parts_ok l : is_ok (collect_parts l) = forallb (λ p, is_ok (part_arg p)) l.
Proof.
  induction l as [|p l IH]; [done|]. cbn [collect_parts forallb]. rewrite <-IH.
  by destruct (part_arg p); cbn [mbind result_bind is_ok andb]; [|done]; destruct (collect_parts l).
Qed.

Lemma forallb_omap {A B} (f : A → option B) (q : B → bool) l : forallb q (omap f l) = forallb (λ a, on (f a) q) l.
Proof.
  induction l as [|a l IH]; [done|]. change (omap f (a :: l)) with (match f a with Some b => b :: omap f l | None => omap f l end).
  cbn [forallb]. rewrite <-IH. by destruct (f a).
Qed.

Lemma forallb_eq {A} (f g : A → bool) l : (∀ a, f a = g a) → forallb f l = forallb g l.
Proof. intros Hfg. induction l as [|a l IH]; [done|]. cbn [forallb]. by rewrite Hfg, IH. Qed.

Lemma forallb_and {A} (f g : A → bool) l : forallb (λ a, f a && g a) l = forallb f l && forallb g l.
Proof. induction l as [|a l IH]; [done|]. simpl. rewrite IH. by destruct (f a), (g a), (forallb f l). Qed.

Definition content_members : list (string * Value) :=
  [("type", Value_str (bs "array")); ("minItems", Value_u64 1); ("items", Value_object part_schema);
   ("description", Value_str (bs "The message: one or more text parts. It is sent as written."))]%string.

Lemma conforms_content d v :
  conforms (S d) (object content_members) v =
  ons (value_as_array v) (λ l, (1 <=? Z.of_nat (length l)) && forallb (conforms d part_schema) l).
Proof. unfold content_members. kw. rewrite has_array. by destruct (value_as_array v). Qed.

Lemma content_arg_ok d args :
  is_ok (content_arg args) =
  ons (a ← args; map_get a (bs "content")) (conforms (S (S (S d))) (object content_members)) &&
  forallb is_ijson_string (written_texts args).
Proof.
  unfold content_arg, written_texts. destruct args as [a|]; [|done]. cbn [mbind option_bind].
  destruct (map_get a (bs "content")) as [v|]; [|done]. cbn [mbind option_bind ons]. rewrite conforms_content.
  destruct (value_as_array v) as [l|]; [|done]. cbn [ok_or mbind result_bind ons default].
  destruct l as [|p l]; [done|]. rewrite collect_parts_ok, forallb_omap.
  replace (1 <=? Z.of_nat (length (p :: l))) with true by (symmetry; apply Z.leb_le; simpl; lia).
  rewrite andb_true_l, <-forallb_and. apply forallb_eq. intros q. apply part_arg_ok.
Qed.

Lemma conforms_schema d props req a :
  NoDup props.*1 → Forall (λ r, is_utf8 (bs r) = true) req →
  conforms (S d) (schema props req) (Value_object a) =
  forallb (λ m, ons (value_as_object m.2) (λ s', on (map_get a (bs m.1)) (conforms d s'))) props &&
  forallb (λ r, is_some (map_get a (bs r))) req.
Proof.
  intros Hnd Hreq. unfold schema. destruct req as [|r req]; cbn [app].
  - kw. rewrite has_object, as_object_object. cbn [is_some on]. by rewrite members_object, ?andb_true_r by done.
  - kw. rewrite has_object, as_object_object. cbn [is_some on]. rewrite members_object by done. f_equal.
    generalize (r :: req), Hreq. intros l Hl. induction Hl as [|x l Hx Hl IH]; [done|].
    cbn [map forallb]. rewrite as_str_str by done. cbn [ons]. by rewrite IH.
Qed.

Lemma arg_default args k : (a ← args; map_get a k) = map_get (default map_new args) k.
Proof. destruct args; [done|]. symmetry. apply get_new. Qed.

Lemma str_arg_ok args n :
  is_ok (str_arg args (bs n)) = on (map_get (default map_new args) (bs n)) (λ v, is_some (value_as_str v)).
Proof.
  unfold str_arg. rewrite arg_default. destruct (map_get _ _) as [v|]; [|done]. cbn [on]. by destruct (value_as_str v).
Qed.

Lemma str_arg_written args n x : str_arg args (bs n) = Ok x → x = written args n.
Proof.
  unfold str_arg, written. destruct args as [a|]; [|by intros [=]]. cbn [mbind option_bind].
  destruct (map_get a (bs n)) as [v|]; [|by intros [=]]. cbn [mbind option_bind].
  destruct (value_as_str v); [|done]. by intros [=].
Qed.

Lemma session_arg_ok args n :
  is_ok (session_arg args (bs n)) = is_ok (str_arg args (bs n)) && on (written args n) is_session_id.
Proof.
  unfold session_arg. destruct (str_arg args (bs n)) as [x|] eqn:E; [|done]. cbn [mbind result_bind is_ok andb].
  apply str_arg_written in E as <-. destruct x as [s|]; [|done]. cbn [on]. unfold SessionId_parse. by destruct (is_session_id s).
Qed.

Lemma session_arg_written args n x : session_arg args (bs n) = Ok x → x = written args n.
Proof.
  unfold session_arg. intros Hx. inv_binds. apply str_arg_written in H1 as <-.
  destruct x0 as [s|]; [|by injection Hx]. inv_binds. unfold SessionId_parse, then_some in H1. by case_in H1.
Qed.

Lemma on_string d text o : on o (conforms (S d) (object [("type", Value_str (bs "string")); ("description", Value_str (bs text))]%string)) =
  on o (λ v, is_some (value_as_str v)).
Proof. destruct o; [|done]. apply conforms_string. Qed.

Lemma string_property d text o :
  ons (value_as_object (string_schema text)) (λ s', on o (conforms (S d) s')) = on o (λ v, is_some (value_as_str v)).
Proof. unfold string_schema. rewrite as_object_object. cbn [ons]. apply on_string. Qed.

Lemma content_property d o :
  ons (value_as_object content_schema) (λ s', on o (conforms d s')) = on o (conforms d (object content_members)).
Proof. unfold content_schema. by rewrite as_object_object. Qed.

Lemma written_is_some args n :
  is_ok (str_arg args (bs n)) = true → is_some (written args n) = is_some (map_get (default map_new args) (bs n)).
Proof.
  rewrite str_arg_ok. unfold written. destruct args as [a|]; [|simpl; by rewrite get_new]. cbn [mbind option_bind].
  change (default map_new (Some a)) with a.
  destruct (map_get _ _) as [v|]; [|done]. cbn [on mbind option_bind]. done.
Qed.

Lemma parse_send_ok args :
  is_ok (parse SEND args) =
  is_ok (session_arg args (bs "to")) && is_some (written args "to") && is_ok (content_arg args) &&
  is_ok (str_arg args (bs "conversation_id")) && is_ok (str_arg args (bs "correlation_id")).
Proof.
  unfold parse. change (beq SEND SEND) with true. cbn iota.
  destruct (session_arg args (bs "to")) as [to|] eqn:E; [|done]. apply session_arg_written in E as <-.
  cbn [mbind result_bind is_ok]. destruct to as [to|]; [|done]. cbn [ok_or mbind result_bind is_some andb].
  destruct (content_arg args); [|done]. cbn [mbind result_bind is_ok andb].
  destruct (str_arg args (bs "conversation_id")); [|done]. cbn [mbind result_bind is_ok andb].
  by destruct (str_arg args (bs "correlation_id")).
Qed.

Lemma parse_reply_ok args :
  is_ok (parse REPLY args) =
  is_ok (str_arg args (bs "in_reply_to")) && is_ok (session_arg args (bs "to")) &&
  (is_some (written args "to") || negb (bool_decide (default [] (written args "in_reply_to") = []))) &&
  is_ok (content_arg args).
Proof.
  unfold parse. change (beq REPLY SEND) with false. change (beq REPLY REPLY) with true. cbn iota.
  destruct (str_arg args (bs "in_reply_to")) as [x|] eqn:Ex; [|done]. apply str_arg_written in Ex as <-.
  cbn [mbind result_bind is_ok andb].
  destruct (session_arg args (bs "to")) as [to|] eqn:E; [|done]. apply session_arg_written in E as <-.
  cbn [mbind result_bind is_ok andb].
  destruct to as [to|], x as [[|z x]|]; cbn; by destruct (content_arg args).
Qed.

Lemma send_exact d args :
  is_ok (parse SEND args) =
  conforms (4 + d) (schema
    [("to", string_schema "The addressed session id.");
     ("content", content_schema);
     ("conversation_id", string_schema "Optional: a conversation id to group messages.");
     ("correlation_id", string_schema "Optional: a value every reply to this message carries back.")]%string
    ["to"; "content"]%string) (Value_object (default map_new args)) && beyond_schema SEND args.
Proof.
  rewrite parse_send_ok, session_arg_ok, (content_arg_ok d), arg_default.
  rewrite (conforms_schema (3 + d)) by (repeat constructor; set_solver || (vm_compute; done)).
  cbn [forallb fst snd plus]. rewrite !string_property, content_property, !str_arg_ok.
  pose proof (written_is_some args "to") as Hw. rewrite str_arg_ok in Hw. unfold beyond_schema.
  change (beq SEND SEND) with true. cbn iota.
  destruct (map_get _ (bs "to")) as [to|] eqn:Et; cbn [on ons is_some] in *.
  - destruct (is_some (value_as_str to)); [|done]. rewrite Hw by done.
    destruct (map_get _ (bs "content")) as [co|]; cbn [on ons is_some]; [|by rewrite !andb_false_r].
    destruct (on (written args "to") _), (conforms _ _ co), (forallb _ _); cbn [andb]; rewrite ?andb_false_r, ?andb_true_r; try done.
  - rewrite Hw by done. by rewrite ?andb_false_r.
Qed.

Lemma reply_exact d args :
  is_ok (parse REPLY args) =
  conforms (4 + d) (schema
    [("in_reply_to", string_schema "Optional: the oac_message_id of the message you are answering. Without it, to is required and the reply is sent uncorrelated.");
     ("content", content_schema);
     ("to", string_schema "The session to reply to (the oac_sender of the message). Required when in_reply_to is absent.")]%string
    ["content"]%string) (Value_object (default map_new args)) && beyond_schema REPLY args.
Proof.
  rewrite parse_reply_ok, session_arg_ok, (content_arg_ok d), arg_default.
  rewrite (conforms_schema (3 + d)) by (repeat constructor; set_solver || (vm_compute; done)).
  cbn [forallb fst snd plus]. rewrite !string_property, content_property, !str_arg_ok. unfold beyond_schema.
  change (beq REPLY SEND) with false. change (beq REPLY REPLY) with true. cbn iota.
  destruct (map_get _ (bs "content")) as [co|]; cbn [on ons is_some]; [|by rewrite !andb_false_r].
  destruct (on (map_get _ (bs "in_reply_to")) _); [|done]. destruct (on (map_get _ (bs "to")) _); [|by rewrite !andb_false_r].
  destruct (on (written args "to") _), (conforms _ _ co), (forallb _ _); cbn [andb];
    rewrite ?andb_false_r, ?andb_true_r; try done.
Qed.

(** A result that does not name an unknown tool. *)
Definition known {A} (r : result CallError A) : bool := match r with Err (Ce_UnknownTool _) => false | _ => true end.

Lemma known_bind {A B} (r : result CallError A) (k : A → result CallError B) :
  known r = true → (∀ a, known (k a) = true) → known (r ≫= k) = true.
Proof. destruct r; naive_solver. Qed.

Lemma known_ok_or {A} (o : option A) reason : known (ok_or o (Ce_Invalid reason)) = true.
Proof. by destruct o. Qed.

Lemma known_str args k : known (str_arg args k) = true.
Proof. unfold str_arg. destruct (_ ≫= _); [|done]. by apply known_bind; [apply known_ok_or|]. Qed.

Lemma known_session args k : known (session_arg args k) = true.
Proof.
  apply known_bind; [apply known_str|]. intros [s|]; [|done]. by apply known_bind; [apply known_ok_or|].
Qed.

Lemma known_part p : known (part_arg p) = true.
Proof.
  apply known_bind; [apply known_ok_or|]. intros o. destruct (negb _); [done|].
  apply known_bind; [apply known_ok_or|]. intros s. by apply known_bind; [apply known_ok_or|].
Qed.

Lemma known_content args : known (content_arg args) = true.
Proof.
  apply known_bind; [apply known_ok_or|]. intros l. destruct l as [|p l]; [done|]. generalize (p :: l). clear p l.
  intros l. induction l as [|p l IH]; [done|]. apply known_bind; [apply known_part|]. intros c. by apply known_bind.
Qed.

Lemma known_parse name args : name ∈ TOOL_NAMES → known (parse name args) = true.
Proof.
  unfold TOOL_NAMES. rewrite !elem_of_cons. intros [->|[->|[->|[->|[]%not_elem_of_nil]]]]; [| |done|done].
  - apply known_bind; [apply known_session|]. intros to. apply known_bind; [apply known_ok_or|]. intros to'.
    apply known_bind; [apply known_content|]. intros c. apply known_bind; [apply known_str|]. intros x.
    by apply known_bind; [apply known_str|].
  - apply known_bind; [apply known_str|]. intros x. apply known_bind; [apply known_session|]. intros to.
    destruct (_ && _); [done|]. by apply known_bind; [apply known_content|].
Qed.

(** [C18] The schema and the parser say the same: for each of the four listed tools and any
    arguments, [parse] succeeds exactly when the arguments conform to the tool's
    [inputSchema] and satisfy the rules the schema does not state (a session argument has the form of
    a session id, every text is I-JSON, and a reply names a message or a session); a name
    outside the list, and only such a name, is an unknown tool. *)
Theorem parse_exact d args :
  Forall (λ t, is_ok (parse (tool_name t) args) =
               conforms (4 + d) (tool_input_schema t) (Value_object (default map_new args)) &&
               beyond_schema (tool_name t) args) tools ∧
  (∀ name, parse name args = Err (Ce_UnknownTool name) ↔ name ∉ map tool_name tools).
Proof.
  split.
  - unfold tools. repeat apply List.Forall_cons; try apply List.Forall_nil; cbn [tool_name tool_input_schema];
      [apply send_exact|apply reply_exact| |];
      by rewrite (conforms_schema (3 + d)) by (repeat constructor).
  - intros name. change (map tool_name tools) with TOOL_NAMES. unfold TOOL_NAMES. rewrite !not_elem_of_cons. split.
    + intros Hp. assert (name ∉ TOOL_NAMES) as Hn by (intros Hk%(known_parse _ args); by rewrite Hp in Hk).
      unfold TOOL_NAMES in Hn. by rewrite !not_elem_of_cons in Hn.
    + intros (? & ? & ? & ? & _). unfold parse.
      destruct (beq name SEND) eqn:E1; [by apply beq_true in E1|].
      destruct (beq name REPLY) eqn:E2; [by apply beq_true in E2|].
      destruct (beq name LIST_SESSIONS) eqn:E3; [by apply beq_true in E3|].
      destruct (beq name WHOAMI) eqn:E4; [by apply beq_true in E4|]. done.
Qed.

End Schemas.

(** ** What a call carries, and what a refusal tells *)

Section Carried.
Context {Value Map : Type} `{McpJsonLaws Value Map}.
Implicit Types (args : option Map).

(** The parts of new text parts: one for each text, as written. *)
Definition text_parts (texts : list (list Z)) : option (list ContentPart) :=
  mapM (λ s, CText <$> TextPart_new s) texts.

(** A converted object has the names of the core's object, each with its converted value. *)
Lemma object_of_get (o : JsonObject) k :
  NoDup (obj_names o) → map_get (object_of o) k = value_of <$> obj_get o k.
Proof.
  unfold object_of. intros Hn.
  assert (∀ m : Map, map_get (foldl (λ out m, map_insert out m.1 (value_of m.2)) m o) k =
    match obj_get o k with Some v => Some (value_of v) | None => map_get m k end) as Hf.
  { induction o as [|[k' v] o IH]; intros m; [done|]. apply NoDup_cons in Hn as [Hk Hn]. cbn [foldl fst snd].
    rewrite (IH Hn), get_insert, obj_get_cons. destruct (beq k' k) eqn:E; [|done]. apply beq_true in E as ->.
    by rewrite (proj2 (obj_get_None o k) Hk). }
  rewrite Hf, get_new. by destruct (obj_get o k).
Qed.

Lemma part_arg_text p c : part_arg p = Ok c → ∃ s, part_text p = Some s ∧ CText <$> TextPart_new s = Some c.
Proof.
  unfold part_arg, part_text. destruct (value_as_object p) as [o|]; [|done]. cbn [ok_or mbind result_bind option_bind].
  destruct (negb _); [done|]. destruct (map_get o (bs "text") ≫= _) as [s|]; [|done]. cbn [ok_or mbind result_bind].
  destruct (TextPart_new s) eqn:E; [|done]. intros [=<-]. exists s. by rewrite E.
Qed.

Lemma collect_parts_text l cs : collect_parts l = Ok cs → text_parts (omap part_text l) = Some cs.
Proof.
  revert cs. induction l as [|p l IH]; intros cs Hc; cbn [collect_parts] in Hc; [by injection Hc as <-|]. inv_binds.
  apply part_arg_text in H1 as (s & Hs & Ht). apply IH in H2.
  change (omap part_text (p :: l)) with (match part_text p with Some b => b :: omap part_text l | None => omap part_text l end).
  rewrite Hs. unfold text_parts in *. cbn [mapM]. rewrite Ht. cbn [mbind option_bind]. by rewrite H2.
Qed.

Lemma content_arg_text args cs : content_arg args = Ok cs → text_parts (written_texts args) = Some cs ∧ cs ≠ [].
Proof.
  unfold content_arg, written_texts. destruct (args ≫= _) as [x|]; [|done]. cbn [ok_or mbind result_bind].
  change (default [] (Some x)) with x. intros Hc.
  destruct x as [|p l]; [done|]. split; [by apply collect_parts_text|]. intros ->. cbn [collect_parts] in Hc. by inv_binds.
Qed.

(** The request a parsed call becomes, with the session a correlated reply is addressed to when
    the call names none. *)
Definition request_of (record : option SessionId) (call : ToolCall) : option SendRequest :=
  match call with
  | Tc_Send to content conversation_id correlation_id => Some (send_request to content conversation_id correlation_id)
  | Tc_Reply in_reply_to to content =>
      to ← (match to with Some to => Some to | None => record end);
      Some (reply_request to content in_reply_to)
  | _ => None
  end.

(** Nothing is added to a call and nothing is lost from it: the request of a parsed [send] or
    [reply] carries the written session, one text part per written text and in that order, the
    written conversation and correlation ids for a new message and none for a reply, whose target
    is the written [in_reply_to] (the empty string when there is none) and never absent. *)
Theorem request_as_written name args call record rq :
  parse name args = Ok call → request_of record call = Some rq →
  text_parts (written_texts args) = Some (rq_content rq) ∧ rq_content rq ≠ [] ∧
  ((name = SEND ∧ written args "to" = Some (rq_to rq) ∧ rq_requested_target rq = None ∧
    rq_conversation_id rq = written args "conversation_id" ∧ rq_correlation_id rq = written args "correlation_id") ∨
   (name = REPLY ∧ (match written args "to" with Some to => Some to | None => record end) = Some (rq_to rq) ∧
    rq_requested_target rq = Some (default [] (written args "in_reply_to")) ∧
    rq_conversation_id rq = None ∧ rq_correlation_id rq = None)).
Proof.
  unfold parse. intros Hp Hr. destruct (beq name SEND) eqn:E1; [|destruct (beq name REPLY) eqn:E2].
  - apply beq_true in E1. inv_binds. apply session_arg_written in H1. apply content_arg_text in H3 as [Ht Hn].
    apply str_arg_written in H4, H5. cbn [request_of] in Hr. injection Hr as <-. cbn. subst. naive_solver.
  - apply beq_true in E2. apply result_bind_Ok in Hp as (x & Hx%str_arg_written & Hp).
    apply result_bind_Ok in Hp as (to & Ht%session_arg_written & Hp). destruct (_ && _); [done|].
    apply result_bind_Ok in Hp as (c & [Hc Hn]%content_arg_text & Hp). injection Hp as <-. cbn [request_of] in Hr.
    rewrite <-Ht. destruct (match to with Some _ => _ | None => _ end) as [t|]; [|done].
    cbn [mbind option_bind] in Hr. injection Hr as <-. cbn. split; [done|]. split; [done|]. right. repeat split; [done|].
    rewrite <-Hx. by destruct x as [[|]|].
  - destruct (beq name LIST_SESSIONS); [by injection Hp as <-|]. destruct (beq name WHOAMI); [by injection Hp as <-|done].
Qed.

(** The pairing value a refusal shows. *)
Definition shown (code : ErrorCode) (pairing_value : option (list Z)) : option (list Z) :=
  if bool_decide (code = E_Unauthorized) then opt_filter is_pairing_value pairing_value else None.

Lemma refusal_with_shown code pv :
  refusal_with code pv = match shown code pv with Some v => pairing_refusal v | None => refusal code end.
Proof. unfold refusal_with, shown. destruct pv as [v|]; cbn; repeat case_match; naive_solver. Qed.

Lemma refusal_code_inj c c' :
  ErrorCode_as_str c ++ bs ": the request was refused." = ErrorCode_as_str c' ++ bs ": the request was refused." → c = c'.
Proof.
  intros E%(inj (.++ _))%ErrorCode_parse_spec. rewrite (proj2 (ErrorCode_parse_spec _ c) eq_refl) in E. by injection E.
Qed.

Lemma refusal_not_pairing c v : ErrorCode_as_str c ++ bs ": the request was refused." ≠ pairing_refusal_text v.
Proof. destruct c; vm_compute; discriminate. Qed.

Lemma refusal_text_shown c pv :
  single_text (refusal_with c pv) =
  Some (match shown c pv with
        | Some v => pairing_refusal_text v
        | None => ErrorCode_as_str c ++ bs ": the request was refused."
        end).
Proof. rewrite refusal_with_shown. by destruct (shown c pv). Qed.

Lemma shown_unauthorized c pv v : shown c pv = Some v → c = E_Unauthorized.
Proof. unfold shown. by case_bool_decide. Qed.

(** The text of a refusal identifies the refusal: two refusals with the same text have the
    same code and show the same pairing value, whatever the call or the core put in them; a
    value is shown only with [unauthorized] and only in its own form, and otherwise the
    refusal depends on the code alone. *)
Theorem refusal_identifies c pv c' pv' :
  (single_text (refusal_with c pv) = single_text (refusal_with c' pv') ↔ c = c' ∧ shown c pv = shown c' pv') ∧
  (shown c pv = None → refusal_with c pv = refusal c) ∧
  (∀ v, shown c pv = Some v → c = E_Unauthorized ∧ pv = Some v ∧ is_pairing_value v = true).
Proof.
  split; [split|split].
  - rewrite !refusal_text_shown. intros [=E].
    destruct (shown c pv) as [v|] eqn:Ev, (shown c' pv') as [v'|] eqn:Ev'.
    + rewrite (shown_unauthorized _ _ _ Ev), (shown_unauthorized _ _ _ Ev'). split; [done|].
      unfold pairing_refusal_text in E. apply (inj (_ ++.)) in E. by apply (inj (.++ _)) in E as ->.
    + symmetry in E. by apply refusal_not_pairing in E.
    + by apply refusal_not_pairing in E.
    + by apply refusal_code_inj in E.
  - intros [<- E]. by rewrite !refusal_text_shown, E.
  - rewrite refusal_with_shown. by intros ->.
  - intros v Hv. split; [by eapply shown_unauthorized|]. unfold shown in Hv. case_bool_decide; [|done].
    destruct pv as [w|]; [|done]. cbn in Hv. destruct (is_pairing_value w) eqn:E; [|done]. by injection Hv as <-.
Qed.

Lemma hex_digit_lower x : 0 ≤ x < 16 → is_lower_hex (hex_digit x) = true.
Proof. intros Hx. unfold is_lower_hex, hex_digit, in_range. destruct (x <? 10) eqn:E; bool_hyps; lia. Qed.

Lemma nibbles o : 0 ≤ o < 256 → 0 ≤ Z.shiftr o 4 < 16 ∧ 0 ≤ Z.land o 15 < 16 ∧ o = Z.shiftr o 4 * 16 + Z.land o 15.
Proof.
  intros Ho. change 15 with (Z.ones 4). rewrite Z.land_ones, Z.shiftr_div_pow2 by lia. change (2 ^ 4) with 16. dlia.
Qed.

(** The value the core issues has the form. *)
Lemma issued_form octets v :
  Forall is_u8 octets → length octets = 16%nat → fresh_value (Some octets) = Some v → is_pairing_value v = true.
Proof.
  intros Ho Hl Hv. unfold fresh_value in Hv. cbn [mbind option_bind] in Hv. apply (inj Some) in Hv as <-.
  unfold is_pairing_value. rewrite strip_prefix_app.
  apply andb_true_iff. split.
  - apply bool_decide_eq_true. assert (∀ l : list Z, length (mjoin (map (λ o, [hex_digit (Z.shiftr o 4); hex_digit (Z.land o 15)]) l)) = (2 * length l)%nat) as Hlen.
    { intros l. induction l as [|o l IH]; [done|].
      change (length ([hex_digit (Z.shiftr o 4); hex_digit (Z.land o 15)] ++
        mjoin (map (λ o, [hex_digit (Z.shiftr o 4); hex_digit (Z.land o 15)]) l)) = (2 * length (o :: l))%nat).
      rewrite length_app, IH. simpl. lia. }
    by rewrite Hlen, Hl.
  - clear Hl. induction Ho as [|o l Ho _ IH]; [done|]. apply nibbles in Ho as (? & ? & _).
    change (forallb is_lower_hex ([hex_digit (Z.shiftr o 4); hex_digit (Z.land o 15)] ++
      mjoin (map (λ o, [hex_digit (Z.shiftr o 4); hex_digit (Z.land o 15)]) l)) = true).
    rewrite forallb_app, IH. simpl. by rewrite !hex_digit_lower by lia.
Qed.

End Carried.

(** ** A tree that has the documented behaviour

    The core's own tree, with the objects as maps by name; fractions are left out. *)

Fixpoint first_members (o : JsonObject) : JsonObject :=
  match o with
  | [] => []
  | (k, v) :: r => (k, v) :: List.filter (λ m, negb (beq k m.1)) (first_members r)
  end.

#[export] Instance Json_McpJson : McpJson Json JsonObject := {
  Value_null := JNull;
  Value_bool := JBool;
  Value_i64 := λ i, JNumber (if i <? 0 then 45 :: to_dec (- i) else to_dec i);
  Value_f64 := λ _, JNull;
  Value_str := JString;
  Value_u64 := λ n, JNumber (from_u64 n);
  Value_array := JArray;
  Value_object := JObject;
  value_as_str := λ v, opt_filter is_utf8 (as_str v);
  value_as_u64 := λ v, n ← as_number v; plain_integer_in n 0 U64_MAX;
  value_as_array := as_array;
  value_as_object := as_object;
  map_new := [];
  map_insert := obj_insert;
  map_get := obj_get;
  map_members := first_members;
  value_to_string := to_compact }.

Lemma first_members_get o k v : (k, v) ∈ first_members o ↔ obj_get o k = Some v.
Proof.
  induction o as [|[k' w] o IH]; [set_solver|]. cbn [first_members]. rewrite obj_get_cons, elem_of_cons.
  rewrite list_elem_of_In, filter_In, <-list_elem_of_In, IH. cbn [fst].
  destruct (beq k' k) eqn:E; [apply beq_true in E as ->|]; [naive_solver|].
  split; [intros [[=-> ->]|[? _]]; [by rewrite beq_refl in E|done]|naive_solver].
Qed.

#[export] Instance Json_McpJsonLaws : McpJsonLaws Json JsonObject.
Proof.
  split; try done.
  - intros s Hs. cbn. by rewrite Hs.
  - intros v s. cbn. destruct (as_str v); [|done]. cbn. destruct (is_utf8 l) eqn:E; [|done]. by intros [=<-].
  - intros n Hn. cbn. by apply plain_integer_from.
  - apply obj_get_insert.
  - apply first_members_get.
Qed.

Definition sample_session : list Z := bs "01j9z8e7h0k3m5n7p9q1r3s5t7".
Definition sample_part (text : string) : Json := JObject [(bs "type", JString (bs "text")); (bs "text", JString (bs text))].
Definition sample_args : JsonObject :=
  [(bs "content", JArray [sample_part "one"; sample_part "two"]); (bs "to", JString sample_session);
   (bs "extra", JNull)].

(** The tools accept a call with two parts and an unknown member, and refuse one whose [to] is
    not a string, exactly as their schemas do. *)
Lemma parse_exact_witness :
  Forall (λ t, is_ok (parse (tool_name t) (Some sample_args)) =
               conforms 4 (tool_input_schema t) (Value_object sample_args) &&
               beyond_schema (tool_name t) (Some sample_args)) (tools (Value := Json)) ∧
  is_ok (parse SEND (Some sample_args)) = true ∧
  is_ok (parse SEND (Some [(bs "content", JArray [sample_part "one"]); (bs "to", JNull)])) = false.
Proof. split; [exact (proj1 (parse_exact 0 (Some sample_args)))|]. split; reflexivity. Defined.

Definition sample_reply : ToolCall := default Tc_Whoami (ok (parse (Value := Json) REPLY (Some sample_args))).
Definition sample_request : SendRequest := default (mkRequest [] [] None None None) (request_of None sample_reply).

Lemma request_as_written_witness :
  rq_requested_target sample_request = Some [] ∧ rq_to sample_request = sample_session ∧
  text_parts (written_texts (Value := Json) (Some sample_args)) = Some (rq_content sample_request).
Proof.
  split; [vm_compute; reflexivity|]. split; [vm_compute; reflexivity|].
  assert (parse (Value := Json) REPLY (Some sample_args) = Ok sample_reply) as Hp by (vm_compute; reflexivity).
  assert (request_of None sample_reply = Some sample_request) as Hr by (vm_compute; reflexivity).
  exact (proj1 (request_as_written REPLY (Some sample_args) sample_reply None sample_request Hp Hr)).
Defined.
