(* ===== verification/CodexReports.v ===== *)
(** * What the Codex carrier reports ([adapters/codex/src/schema.rs], [threads.rs],
    [events.rs], [client.rs])

    The shapes of the app-server's messages and their check, the registry of served threads,
    the translation of a notification into an event about a served thread, and the client: the
    dispatch of a received message, and the calls that list, subscribe and unsubscribe threads.
    What the app-server answers to a call is an argument of the operation that makes the
    call. *)

From S2P Require Import Prelude Ids Utf8 Json JsonFacts JsonReader JsonText Delivery AtomicFile WebSocket McpTools.

(** ** Shapes *)

Inductive Kind : Type := Kind_Str | Kind_Obj | Kind_Arr | Kind_Num | Kind_Bool.

Definition Kind_holds (k : Kind) (v : Json) : bool :=
  match k with
  | Kind_Str => is_some (as_str v)
  | Kind_Obj => is_some (as_object v)
  | Kind_Arr => is_some (as_array v)
  | Kind_Num => is_some (as_number v)
  | Kind_Bool => is_some (as_bool v)
  end.

Record Shape := mkShape {
  sh_name : string; sh_file : string; sh_definition : option string; sh_required : list string;
  sh_relied_on : list (string * Kind); sh_sent : list string }.

Record Checked := mkChecked { ck_broken : list string; ck_drift : list string }.

Definition usable (c : Checked) : bool := bool_decide (ck_broken c = []).

Definition Shape_check (s : Shape) (v : Json) : Checked :=
  match as_object v with
  | None => mkChecked ["(not an object)"%string] []
  | Some o =>
      let broken := map fst (List.filter (λ m, negb (match obj_get o (bs m.1) with Some x => Kind_holds m.2 x | None => false end))
                               (sh_relied_on s)) in
      mkChecked broken
        (List.filter (λ name, negb (obj_contains o (bs name)) && negb (existsb (String.eqb name) broken)) (sh_required s))
  end.

Open Scope string_scope.
Definition INITIALIZE_PARAMS : Shape :=
  mkShape "InitializeParams" "v1/InitializeParams.json" None ["clientInfo"]
    [] ["capabilities"; "clientInfo"].
Definition CLIENT_INFO : Shape :=
  mkShape "ClientInfo" "v1/InitializeParams.json" (Some "ClientInfo") ["name"; "version"]
    [] ["name"; "title"; "version"].
Definition INITIALIZE_CAPABILITIES : Shape :=
  mkShape "InitializeCapabilities" "v1/InitializeParams.json" (Some "InitializeCapabilities") []
    [] ["experimentalApi"].
Definition THREAD_RESUME_PARAMS : Shape :=
  mkShape "ThreadResumeParams" "v2/ThreadResumeParams.json" None ["threadId"]
    [] ["excludeTurns"; "threadId"].
Definition THREAD_UNSUBSCRIBE_PARAMS : Shape :=
  mkShape "ThreadUnsubscribeParams" "v2/ThreadUnsubscribeParams.json" None ["threadId"]
    [] ["threadId"].
Definition THREAD_LOADED_LIST_PARAMS : Shape :=
  mkShape "ThreadLoadedListParams" "v2/ThreadLoadedListParams.json" None []
    [] ["cursor"].
Definition TEXT_USER_INPUT : Shape :=
  mkShape "TextUserInput" "v2/TurnStartParams.json" (Some "UserInput/text") ["text"; "type"]
    [] ["text"; "type"].
Definition INITIALIZE_RESPONSE : Shape :=
  mkShape "InitializeResponse" "v1/InitializeResponse.json" None ["codexHome"; "platformFamily"; "platformOs"; "userAgent"]
    [("userAgent", Kind_Str)] [].
Definition THREAD_RESUME_RESPONSE : Shape :=
  mkShape "ThreadResumeResponse" "v2/ThreadResumeResponse.json" None ["approvalPolicy"; "approvalsReviewer"; "cwd"; "model"; "modelProvider"; "sandbox"; "thread"]
    [("thread", Kind_Obj)] [].
Definition THREAD_LOADED_LIST_RESPONSE : Shape :=
  mkShape "ThreadLoadedListResponse" "v2/ThreadLoadedListResponse.json" None ["data"]
    [("data", Kind_Arr)] [].
Definition THREAD : Shape :=
  mkShape "Thread" "v2/ThreadResumeResponse.json" (Some "Thread") ["cliVersion"; "createdAt"; "cwd"; "ephemeral"; "id"; "modelProvider"; "preview"; "projectId"; "sessionId"; "source"; "status"; "turns"; "updatedAt"]
    [("id", Kind_Str)] [].
Definition ITEM_STARTED : Shape :=
  mkShape "ItemStartedNotification" "v2/ItemStartedNotification.json" None ["item"; "startedAtMs"; "threadId"; "turnId"]
    [("item", Kind_Obj); ("threadId", Kind_Str); ("turnId", Kind_Str)] [].
Definition ITEM_COMPLETED : Shape :=
  mkShape "ItemCompletedNotification" "v2/ItemCompletedNotification.json" None ["completedAtMs"; "item"; "threadId"; "turnId"]
    [("item", Kind_Obj); ("threadId", Kind_Str); ("turnId", Kind_Str)] [].
Definition TURN_STARTED : Shape :=
  mkShape "TurnStartedNotification" "v2/TurnStartedNotification.json" None ["threadId"; "turn"]
    [("threadId", Kind_Str); ("turn", Kind_Obj)] [].
Definition TURN_COMPLETED : Shape :=
  mkShape "TurnCompletedNotification" "v2/TurnCompletedNotification.json" None ["threadId"; "turn"]
    [("threadId", Kind_Str); ("turn", Kind_Obj)] [].
Definition TURN : Shape :=
  mkShape "Turn" "v2/TurnCompletedNotification.json" (Some "Turn") ["id"; "items"; "status"]
    [("id", Kind_Str); ("status", Kind_Str)] [].
Definition THREAD_STATUS_CHANGED : Shape :=
  mkShape "ThreadStatusChangedNotification" "v2/ThreadStatusChangedNotification.json" None ["status"; "threadId"]
    [("status", Kind_Obj); ("threadId", Kind_Str)] [].
Definition AGENT_MESSAGE_DELTA : Shape :=
  mkShape "AgentMessageDeltaNotification" "v2/AgentMessageDeltaNotification.json" None ["delta"; "itemId"; "threadId"; "turnId"]
    [("threadId", Kind_Str)] [].
Definition USER_MESSAGE_ITEM : Shape :=
  mkShape "UserMessageThreadItem" "v2/ItemCompletedNotification.json" (Some "ThreadItem/userMessage") ["content"; "id"; "type"]
    [("content", Kind_Arr); ("id", Kind_Str)] [].
Definition AGENT_MESSAGE_ITEM : Shape :=
  mkShape "AgentMessageThreadItem" "v2/ItemCompletedNotification.json" (Some "ThreadItem/agentMessage") ["id"; "text"; "type"]
    [("id", Kind_Str); ("text", Kind_Str)] [].
Definition MCP_TOOL_CALL_ITEM : Shape :=
  mkShape "McpToolCallThreadItem" "v2/ItemCompletedNotification.json" (Some "ThreadItem/mcpToolCall") ["arguments"; "id"; "server"; "status"; "tool"; "type"]
    [("id", Kind_Str); ("server", Kind_Str); ("tool", Kind_Str)] [].
Definition ANY_ITEM : Shape :=
  mkShape "ThreadItem" "v2/ItemCompletedNotification.json" (Some "ThreadItem/contextCompaction") ["id"; "type"]
    [("id", Kind_Str); ("type", Kind_Str)] [].
Close Scope string_scope.

(** ** Threads *)

Abbreviation ThreadKey := Z (only parsing).
Abbreviation NativeRef := (list Z) (only parsing).

Inductive ThreadState : Type := Ts_Unknown | Ts_NotLoaded | Ts_Idle | Ts_Active | Ts_SystemError.

Definition ThreadState_from_type (t : list Z) : option ThreadState :=
  if beq t (bs "notLoaded") then Some Ts_NotLoaded
  else if beq t (bs "idle") then Some Ts_Idle
  else if beq t (bs "active") then Some Ts_Active
  else if beq t (bs "systemError") then Some Ts_SystemError
  else None.

Inductive TurnEnd : Type := Te_Completed | Te_Interrupted | Te_Failed.

Definition TurnEnd_from_status (s : list Z) : option TurnEnd :=
  if beq s (bs "completed") then Some Te_Completed
  else if beq s (bs "interrupted") then Some Te_Interrupted
  else if beq s (bs "failed") then Some Te_Failed
  else None.

Record ThreadEntry := mkThread {
  te_native : list Z; te_state : ThreadState; te_active_turn : option NativeRef; te_last_turn : option TurnEnd }.

Record ThreadView := mkView {
  tv_key : ThreadKey; tv_state : ThreadState; tv_turn_running : bool; tv_last_turn : option TurnEnd }.

Record Registry := mkRegistry {
  rg_by_key : gmap Z ThreadEntry; rg_by_native : gmap (list Z) Z; rg_next : Z }.

Definition Registry_default : Registry := mkRegistry ∅ ∅ 0.

(** [Registry::serve]: the key, and whether the thread is newly served. *)
Definition Registry_serve (native : list Z) (r : Registry) : (ThreadKey * bool) * Registry :=
  match rg_by_native r !! native with
  | Some k => ((k, false), r)
  | None =>
      let k := rg_next r + 1 in
      ((k, true),
       mkRegistry (<[k := mkThread native Ts_Unknown None None]> (rg_by_key r)) (<[native := k]> (rg_by_native r)) k)
  end.

Definition drop_key (key : ThreadKey) (r : Registry) : option (list Z) * Registry :=
  match rg_by_key r !! key with
  | None => (None, r)
  | Some e => (Some (te_native e), mkRegistry (delete key (rg_by_key r)) (delete (te_native e) (rg_by_native r)) (rg_next r))
  end.

Definition key_of (r : Registry) (native : list Z) : option ThreadKey := rg_by_native r !! native.
Definition native_of (r : Registry) (key : ThreadKey) : option (list Z) := te_native <$> rg_by_key r !! key.
Definition Registry_len (r : Registry) : nat := size (rg_by_key r).

Definition Registry_view (r : Registry) (key : ThreadKey) : option ThreadView :=
  (λ e, mkView key (te_state e) (is_some (te_active_turn e)) (te_last_turn e)) <$> rg_by_key r !! key.

(** [get_mut] and an assignment to the entry, when there is one. *)
Definition update_thread (key : ThreadKey) (f : ThreadEntry → ThreadEntry) (r : Registry) : Registry :=
  mkRegistry (alter f key (rg_by_key r)) (rg_by_native r) (rg_next r).

Definition set_state (key : ThreadKey) (s : ThreadState) : Registry → Registry :=
  update_thread key (λ e, mkThread (te_native e) s (te_active_turn e) (te_last_turn e)).

Definition turn_started (key : ThreadKey) (turn : NativeRef) : Registry → Registry :=
  update_thread key (λ e, mkThread (te_native e) (te_state e) (Some turn) (te_last_turn e)).

Definition turn_ended (key : ThreadKey) (turn : NativeRef) (end_ : TurnEnd) : Registry → Registry :=
  update_thread key (λ e,
    mkThread (te_native e) (te_state e)
      (if bool_decide (te_active_turn e = Some turn) then None else te_active_turn e) (Some end_)).

(** ** Events *)

Inductive CompletedItem : Type :=
| Ci_UserMessage (id : NativeRef) (text : list Z) (client_id : option (list Z))
| Ci_AgentMessage (id : NativeRef) (text : list Z)
| Ci_McpToolCall (id : NativeRef) (server tool : list Z) (arguments result : option Json)
| Ci_Other (id : NativeRef) (kind : list Z).

Record McpCallStart := mkCallStart { mc_server : list Z; mc_tool : list Z; mc_arguments : option Json }.

Inductive CodexEvent : Type :=
| Ev_Status (thread : ThreadKey) (state : ThreadState)
| Ev_TurnStarted (thread : ThreadKey) (turn : NativeRef)
| Ev_TurnCompleted (thread : ThreadKey) (turn : NativeRef) (end_ : TurnEnd)
| Ev_ItemStarted (thread : ThreadKey) (turn item : NativeRef) (kind : list Z) (call : option McpCallStart)
| Ev_ItemCompleted (thread : ThreadKey) (turn : NativeRef) (item : CompletedItem)
| Ev_Closed.

Inductive Dropped : Type := Dr_Delta | Dr_NotServed | Dr_Malformed | Dr_Unused.

Definition member (v : Json) (name : string) : option Json := o ← as_object v; obj_get o (bs name).
Definition member_str (v : Json) (name : string) : option (list Z) := m ← member v name; as_str m.

Definition served (r : Registry) (params : Json) : option ThreadKey :=
  o ← as_object params; t ← obj_get o (bs "threadId"); s ← as_str t; key_of r s.

(** The closure [translate] runs: a result, and the drift its checks found on the way. *)
Definition Chk (A : Type) : Type := (list string * result Dropped A)%type.

Definition chk_ret {A} (r : result Dropped A) : Chk A := ([], r).
Definition chk_bind {A B} (m : Chk A) (k : A → Chk B) : Chk B :=
  match m.2 with
  | Ok a => let n := k a in (m.1 ++ n.1, n.2)
  | Err e => (m.1, Err e)
  end.

(** [if !checked(shape, v) { return Err(Dropped::Malformed) }]. *)
Definition checked (s : Shape) (v : Json) : Chk unit :=
  let c := Shape_check s v in
  (ck_drift c, if usable c then Ok tt else Err Dr_Malformed).

(** [ok_or(Dropped::Malformed)?]. *)
Definition or_malformed {A} (o : option A) : Chk A := chk_ret (ok_or o Dr_Malformed).

(** [[String]::join] with a line feed. *)
Fixpoint join_lines (l : list (list Z)) : list Z :=
  match l with
  | [] => []
  | [s] => s
  | s :: r => s ++ [10] ++ join_lines r
  end.

Definition completed_item (it : Json) : Chk CompletedItem :=
  chk_bind (or_malformed (member_str it "id")) (λ id,
  chk_bind (or_malformed (member_str it "type")) (λ kind,
  if beq kind (bs "userMessage") then
    chk_bind (checked USER_MESSAGE_ITEM it) (λ _,
    chk_bind (or_malformed (c ← member it "content"; as_array c)) (λ parts,
    let texts := omap (λ p, member_str p "text")
                   (List.filter (λ p, bool_decide (member_str p "type" = Some (bs "text"))) parts) in
    chk_ret (Ok (Ci_UserMessage id (join_lines texts) (member_str it "clientId")))))
  else if beq kind (bs "agentMessage") then
    chk_bind (checked AGENT_MESSAGE_ITEM it) (λ _,
    chk_bind (or_malformed (member_str it "text")) (λ text, chk_ret (Ok (Ci_AgentMessage id text))))
  else if beq kind (bs "mcpToolCall") then
    chk_bind (checked MCP_TOOL_CALL_ITEM it) (λ _,
    chk_bind (or_malformed (member_str it "server")) (λ server,
    chk_bind (or_malformed (member_str it "tool")) (λ tool,
    chk_ret (Ok (Ci_McpToolCall id server tool (member it "arguments") (member it "result"))))))
  else chk_ret (Ok (Ci_Other id kind)))).

Definition notification_shape (method : list Z) : option Shape :=
  if beq method (bs "thread/status/changed") then Some THREAD_STATUS_CHANGED
  else if beq method (bs "turn/started") then Some TURN_STARTED
  else if beq method (bs "turn/completed") then Some TURN_COMPLETED
  else if beq method (bs "item/started") then Some ITEM_STARTED
  else if beq method (bs "item/completed") then Some ITEM_COMPLETED
  else None.

(** The [mcpToolCall] of a started item. *)
Definition started_call (it : Json) (kind : list Z) : Chk (option McpCallStart) :=
  if beq kind (bs "mcpToolCall") then
    chk_bind (checked MCP_TOOL_CALL_ITEM it) (λ _,
    chk_bind (or_malformed (member_str it "server")) (λ server,
    chk_bind (or_malformed (member_str it "tool")) (λ tool,
    chk_ret (Ok (Some (mkCallStart server tool (member it "arguments")))))))
  else chk_ret (Ok None).

(** [translate]: the drift and the event, with the registry after it. *)
Definition translate (method : list Z) (params : option Json) (r : Registry) : Chk (CodexEvent * Registry) :=
  let params := default JNull params in
  if is_some (strip_suffix (bs "/delta") method) then chk_ret (Err Dr_Delta)
  else
    match notification_shape method with
    | None => chk_ret (Err Dr_Unused)
    | Some shape =>
        chk_bind (chk_ret (ok_or (served r params) Dr_NotServed)) (λ thread,
        chk_bind (checked shape params) (λ _,
        if beq method (bs "thread/status/changed") then
          chk_bind (or_malformed (member params "status")) (λ status,
          chk_bind (or_malformed (t ← member_str status "type"; ThreadState_from_type t)) (λ state,
          chk_ret (Ok (Ev_Status thread state, set_state thread state r))))
        else if beq method (bs "turn/started") || beq method (bs "turn/completed") then
          chk_bind (or_malformed (member params "turn")) (λ t,
          chk_bind (checked TURN t) (λ _,
          chk_bind (or_malformed (member_str t "id")) (λ turn,
          if beq method (bs "turn/started")
          then chk_ret (Ok (Ev_TurnStarted thread turn, turn_started thread turn r))
          else
            chk_bind (or_malformed (s ← member_str t "status"; TurnEnd_from_status s)) (λ end_,
            chk_ret (Ok (Ev_TurnCompleted thread turn end_, turn_ended thread turn end_ r))))))
        else if beq method (bs "item/started") then
          chk_bind (or_malformed (member params "item")) (λ it,
          chk_bind (checked ANY_ITEM it) (λ _,
          let kind := default [] (member_str it "type") in
          chk_bind (started_call it kind) (λ call,
          chk_ret (Ok (Ev_ItemStarted thread (default [] (member_str params "turnId"))
                         (default [] (member_str it "id")) kind call, r)))))
        else
          chk_bind (or_malformed (member params "item")) (λ it,
          chk_bind (checked ANY_ITEM it) (λ _,
          chk_bind (completed_item it) (λ item,
          chk_ret (Ok (Ev_ItemCompleted thread (default [] (member_str params "turnId")) item, r)))))))
    end.

(** ** The client *)

Inductive ClientError : Type :=
| Cl_Connect (e : WsError) | Cl_Closed | Cl_LostAnswer | Cl_NoAnswer | Cl_Refused (code : Z) (message : list Z)
| Cl_Shape (name : string) | Cl_NotAllowed (method : list Z) | Cl_NotServed | Cl_InvalidThreadId.

Definition STABLE_METHODS : list (list Z) :=
  [bs "initialize"; bs "thread/loaded/list"; bs "thread/resume"; bs "thread/unsubscribe"].
Definition THREAD_QUEUE_ADD : list Z := bs "thread/queue/add".
Definition EXPERIMENTAL_METHODS : list (list Z) := [THREAD_QUEUE_ADD].
Definition LOADED_THREADS_MAX : nat := 256.
Definition LOADED_PAGES_MAX : nat := 8.

Record Diagnostics := mkDiagnostics {
  dg_schema_drift : Z; dg_malformed : Z; dg_unparseable : Z; dg_not_served : Z; dg_deltas : Z;
  dg_server_requests : Z; dg_stray_responses : Z; dg_consecutive_no_answers : Z }.

Definition Diagnostics_default : Diagnostics := mkDiagnostics 0 0 0 0 0 0 0 0.

Definition diag_unparseable (d : Diagnostics) : Diagnostics :=
  mkDiagnostics (dg_schema_drift d) (dg_malformed d) (dg_unparseable d + 1) (dg_not_served d) (dg_deltas d)
    (dg_server_requests d) (dg_stray_responses d) (dg_consecutive_no_answers d).
Definition diag_server_request (d : Diagnostics) : Diagnostics :=
  mkDiagnostics (dg_schema_drift d) (dg_malformed d) (dg_unparseable d) (dg_not_served d) (dg_deltas d)
    (dg_server_requests d + 1) (dg_stray_responses d) (dg_consecutive_no_answers d).
Definition diag_stray (d : Diagnostics) : Diagnostics :=
  mkDiagnostics (dg_schema_drift d) (dg_malformed d) (dg_unparseable d) (dg_not_served d) (dg_deltas d)
    (dg_server_requests d) (dg_stray_responses d + 1) (dg_consecutive_no_answers d).
Definition diag_no_answers (n : Z) (d : Diagnostics) : Diagnostics :=
  mkDiagnostics (dg_schema_drift d) (dg_malformed d) (dg_unparseable d) (dg_not_served d) (dg_deltas d)
    (dg_server_requests d) (dg_stray_responses d) n.
(** The counts of one translated notification. *)
Definition diag_translated {A} (drift : nat) (event : result Dropped A) (d : Diagnostics) : Diagnostics :=
  mkDiagnostics (dg_schema_drift d + Z.of_nat drift)
    (dg_malformed d + match event with Err Dr_Malformed => 1 | _ => 0 end)
    (dg_unparseable d)
    (dg_not_served d + match event with Err Dr_NotServed => 1 | _ => 0 end)
    (dg_deltas d + match event with Err Dr_Delta => 1 | _ => 0 end)
    (dg_server_requests d) (dg_stray_responses d) (dg_consecutive_no_answers d).

(** [Inner]: the calls that wait are named by their ids. *)
Record Client := mkClient {
  cl_registry : Registry; cl_pending : gset Z; cl_stats : Diagnostics; cl_open : bool; cl_down : bool; cl_next_id : Z }.

Definition Client_new : Client := mkClient Registry_default ∅ Diagnostics_default true false 1.

Definition set_stats (d : Diagnostics) (c : Client) : Client :=
  mkClient (cl_registry c) (cl_pending c) d (cl_open c) (cl_down c) (cl_next_id c).
Definition set_registry (r : Registry) (c : Client) : Client :=
  mkClient r (cl_pending c) (cl_stats c) (cl_open c) (cl_down c) (cl_next_id c).
Definition set_pending (p : gset Z) (c : Client) : Client :=
  mkClient (cl_registry c) p (cl_stats c) (cl_open c) (cl_down c) (cl_next_id c).

(** What a received message makes the reader thread do outside the client: pass an event to the
    handler, or wake the call of an id with its reply. *)
Inductive ClientOut : Type :=
| Co_Event (e : CodexEvent)
| Co_Reply (id : Z) (reply : result (Z * list Z) Json).

Definition response (id : Json) (res err : option Json) (c : Client) : Client * list ClientOut :=
  let unparseable := (set_stats (diag_unparseable (cl_stats c)) c, []) in
  match n ← as_number id; plain_integer_in n 0 U64_MAX with
  | None => unparseable
  | Some id =>
      let settle reply :=
        if bool_decide (id ∈ cl_pending c)
        then (set_pending (cl_pending c ∖ {[id]}) (set_stats (diag_no_answers 0 (cl_stats c)) c), [Co_Reply id reply])
        else (set_stats (diag_stray (cl_stats c)) c, []) in
      match res, err with
      | Some r, None => settle (Ok r)
      | None, Some e =>
          let eo := as_object e in
          let code := default 0 (o ← eo; v ← obj_get o (bs "code"); n ← as_number v; parse_i64 n) in
          let message := default [] (o ← eo; v ← obj_get o (bs "message"); as_str v) in
          settle (Err (code, message))
      | _, _ => unparseable
      end
  end.

Definition notification (method : list Z) (params : option Json) (c : Client) : Client * list ClientOut :=
  let '(drift, r) := translate method params (cl_registry c) in
  let c := set_stats (diag_translated (length drift) r (cl_stats c)) c in
  match r with
  | Ok (e, reg) => (set_registry reg c, if cl_down c then [] else [Co_Event e])
  | Err _ => (c, [])
  end.

Definition dispatch (text : list Z) (c : Client) : Client * list ClientOut :=
  let unparseable := (set_stats (diag_unparseable (cl_stats c)) c, []) in
  match Json.parse text with
  | Err _ => unparseable
  | Ok v =>
      match as_object v with
      | None => unparseable
      | Some o =>
          match (m ← obj_get o (bs "method"); as_str m), obj_get o (bs "id") with
          | Some _, Some _ => (set_stats (diag_server_request (cl_stats c)) c, [])
          | Some m, None => notification m (obj_get o (bs "params")) c
          | None, Some id => response id (obj_get o (bs "result")) (obj_get o (bs "error")) c
          | None, None => unparseable
          end
      end
  end.

(** [Inner::closed] and [CodexClient::shutdown]: the waiting calls lose their answers. *)
Definition client_closed (c : Client) : Client * list ClientOut :=
  (mkClient (cl_registry c) ∅ (cl_stats c) false (cl_down c) (cl_next_id c),
   if cl_down c then [] else [Co_Event Ev_Closed]).

Definition client_shutdown (c : Client) : Client :=
  mkClient (cl_registry c) ∅ (cl_stats c) (cl_open c) true (cl_next_id c).

(** [Inner::frame], and the string literal of its method. *)
Definition json_str (s : list Z) : list Z := to_compact (JString s).

Definition client_frame (id : Z) (method params : list Z) : list Z :=
  jtext "{`jsonrpc`:`2.0`,`id`:" ++ to_dec id ++ jtext ",`method`:" ++ json_str method ++ jtext ",`params`:" ++
  params ++ bs "}".

(** [shim::queue_add]: the params of the call. *)
Definition queue_add_params (thread text client_user_message_id : list Z) : list Z :=
  jtext "{`threadId`:" ++ json_str thread ++ jtext ",`input`:[{`type`:`text`,`text`:" ++ json_str text ++
  jtext "}],`clientUserMessageId`:" ++ json_str client_user_message_id ++ bs "}".

(** [CodexClient::call]: what the app-server answers to a call of a method is an argument. *)
Section Calls.
Variable answer : nat → list Z → list Z → result ClientError Json.

Definition client_call (n : nat) (method params : list Z) : result ClientError Json :=
  if existsb (beq method) STABLE_METHODS then answer n method params else Err (Cl_NotAllowed method).

Definition client_call_experimental (n : nat) (method params : list Z) : result ClientError Json :=
  if existsb (beq method) EXPERIMENTAL_METHODS then answer n method params else Err (Cl_NotAllowed method).

Definition is_thread_id (s : list Z) : bool :=
  bool_decide (length s = 36%nat) &&
  forallb (λ p : nat * Z,
    if existsb (Nat.eqb p.1) [8; 13; 18; 23]%nat then p.2 =? 45 else is_ascii_hexdigit p.2) (zip (seq 0 (length s)) s).

(** The result of [thread/resume] that [subscribe] accepts, and the drift counted. *)
Definition resumed (thread : list Z) (r : Json) : result ClientError unit * nat :=
  let c := Shape_check THREAD_RESUME_RESPONSE r in
  if negb (usable c) then (Err (Cl_Shape (sh_name THREAD_RESUME_RESPONSE)), length (ck_drift c))
  else
    let t := default JNull (o ← as_object r; obj_get o (bs "thread")) in
    let c' := Shape_check THREAD t in
    let id := o ← as_object t; i ← obj_get o (bs "id"); as_str i in
    (if negb (usable c') || negb (bool_decide (id = Some thread)) then Err (Cl_Shape (sh_name THREAD)) else Ok tt,
     (length (ck_drift c) + length (ck_drift c'))%nat).

(** [CodexClient::subscribe] on the registry; the drift counts go to the diagnostics and decide
    nothing. *)
Definition subscribe (n : nat) (thread : list Z) (reg : Registry) : result ClientError ThreadKey * Registry :=
  if negb (is_thread_id thread) then (Err Cl_InvalidThreadId, reg)
  else
    let '((key, new), reg) := Registry_serve thread reg in
    if negb new then (Ok key, reg)
    else
      let params := jtext "{`threadId`:" ++ json_str thread ++ jtext ",`excludeTurns`:true}" in
      match r ← client_call n (bs "thread/resume") params; (resumed thread r).1 with
      | Ok _ => (Ok key, reg)
      | Err e => (Err e, (drop_key key reg).2)
      end.

(** One page: the ids added until the cap; [true] when the cap was reached. *)
Fixpoint add_ids (page : list (list Z)) (ids : list (list Z)) : list (list Z) * bool :=
  match page with
  | [] => (ids, false)
  | id :: page =>
      if (LOADED_THREADS_MAX <=? length ids)%nat then (ids, true)
      else add_ids page (if existsb (beq id) ids then ids else ids ++ [id])
  end.

Fixpoint loaded_pages (pages n : nat) (cursor : option (list Z)) (ids : list (list Z)) : result ClientError (list (list Z)) :=
  match pages with
  | O => Ok ids
  | S pages =>
      let params := match cursor with
        | None => bs "{}"
        | Some c => jtext "{`cursor`:" ++ json_str c ++ bs "}"
        end in
      r ← client_call n (bs "thread/loaded/list") params;
      if negb (usable (Shape_check THREAD_LOADED_LIST_RESPONSE r))
      then Err (Cl_Shape (sh_name THREAD_LOADED_LIST_RESPONSE))
      else
        let o := as_object r in
        let data := default [] (o ← o; v ← obj_get o (bs "data"); as_array v) in
        let '(ids, full) := add_ids (List.filter is_thread_id (omap as_str data)) ids in
        if full then Ok ids
        else
          match o ← o; v ← obj_get o (bs "nextCursor"); as_str v with
          | None => Ok ids
          | cursor => loaded_pages pages (S n) cursor ids
          end
  end.

Definition loaded_threads : result ClientError (list (list Z)) := loaded_pages LOADED_PAGES_MAX 0 None [].

Definition queue_add (n : nat) (key : ThreadKey) (text client_user_message_id : list Z) (reg : Registry)
    : result ClientError unit :=
  native ← ok_or (native_of reg key) Cl_NotServed;
  r ← client_call_experimental n THREAD_QUEUE_ADD (queue_add_params native text client_user_message_id);
  if is_some (o ← as_object r; v ← obj_get o (bs "queuedSubmission"); as_object v) then Ok tt
  else Err (Cl_Shape "ThreadQueueAddResponse").

(** [unsubscribe]: the thread is dropped first, and then the call is sent without waiting. *)
Definition unsubscribe (key : ThreadKey) (reg : Registry) : result ClientError (list Z) * Registry :=
  match drop_key key reg with
  | (Some native, reg) => (Ok (jtext "{`threadId`:" ++ json_str native ++ bs "}"), reg)
  | (None, reg) => (Err Cl_NotServed, reg)
  end.

End Calls.

(** ** The registry *)

(** The two maps are inverse to each other, and every key was issued. *)
Definition registry_ok (r : Registry) : Prop :=
  (∀ k e, rg_by_key r !! k = Some e → rg_by_native r !! te_native e = Some k ∧ k ≤ rg_next r) ∧
  (∀ n k, rg_by_native r !! n = Some k → native_of r k = Some n).

Lemma registry_ok_default : registry_ok Registry_default.
Proof. split; intros ??; cbn; by rewrite lookup_empty. Qed.

Lemma key_native r k n : registry_ok r → native_of r k = Some n ↔ key_of r n = Some k.
Proof.
  intros [Hk Hn]. unfold native_of, key_of in *. split; [|by apply Hn].
  destruct (rg_by_key r !! k) as [e|] eqn:E; [|done]. intros [=<-]. by apply Hk.
Qed.

Lemma registry_serve_ok native r : registry_ok r → registry_ok (Registry_serve native r).2.
Proof.
  intros Hok. pose proof Hok as [Hk Hn]. unfold Registry_serve. destruct (rg_by_native r !! native) as [k|] eqn:E; [done|].
  split; cbn; [intros k e|intros n k; unfold native_of; cbn]; rewrite lookup_insert_Some.
  - intros [[<- <-]|[Hne [H1 H2]%Hk]]; cbn; [rewrite lookup_insert_eq; split; [done|lia]|].
    rewrite lookup_insert_ne by congruence. split; [done|lia].
  - intros [[<- <-]|[Hne H1]]; [by rewrite lookup_insert_eq|]. pose proof H1 as H2%Hn.
    rewrite lookup_insert_ne; [done|]. intros <-. unfold native_of in H2.
    destruct (rg_by_key r !! (rg_next r + 1)) as [e|] eqn:Ee; [|done]. apply Hk in Ee as [_ ?]. lia.
Qed.

Lemma drop_key_ok key r : registry_ok r → registry_ok (drop_key key r).2.
Proof.
  intros Hok. pose proof Hok as [Hk Hn]. unfold drop_key. destruct (rg_by_key r !! key) as [e|] eqn:E; [|done].
  apply Hk in E as [E1 E2]. split; cbn; [intros k f|intros n k; unfold native_of; cbn]; rewrite lookup_delete_Some.
  - intros [Hne Hf]. apply Hk in Hf as [H1 H2]. split; [|done]. rewrite lookup_delete_Some. split; [congruence|done].
  - intros [Hne H1]. rewrite lookup_delete_ne; [by apply Hn|]. intros <-.
    apply Hn, key_native in H1; [|done]. unfold key_of in H1. pose proof (Hn _ _ E1) as H2. pose proof (Hn _ _ H1) as H3. congruence.
Qed.

Lemma native_of_update key f r k : (∀ e, te_native (f e) = te_native e) → native_of (update_thread key f r) k = native_of r k.
Proof.
  intros Hf. unfold native_of. cbn. destruct (decide (key = k)) as [->|Hne].
  - rewrite lookup_alter_eq. destruct (rg_by_key r !! k); cbn; [by rewrite Hf|done].
  - by rewrite lookup_alter_ne.
Qed.

Lemma update_thread_ok key f r : (∀ e, te_native (f e) = te_native e) → registry_ok r → registry_ok (update_thread key f r).
Proof.
  intros Hf [Hk Hn]. split.
  - intros k e. cbn. destruct (decide (key = k)) as [->|Hne]; [rewrite lookup_alter_eq|rewrite lookup_alter_ne by done; apply Hk].
    destruct (rg_by_key r !! k) as [e'|] eqn:E; [|done]. intros [=<-]. rewrite Hf. by apply Hk.
  - intros n k Hnk. rewrite native_of_update by done. by apply Hn.
Qed.

(** ** Only served threads are reported *)

Definition event_thread (e : CodexEvent) : option ThreadKey :=
  match e with
  | Ev_Status t _ | Ev_TurnStarted t _ | Ev_TurnCompleted t _ _ | Ev_ItemStarted t _ _ _ _ | Ev_ItemCompleted t _ _ => Some t
  | Ev_Closed => None
  end.

(** What an [mcpToolCall] event says is what the item of the notification says. *)
Definition call_reported (params : Json) (e : CodexEvent) : Prop :=
  match e with
  | Ev_ItemStarted _ turn item _ (Some c) =>
      ∃ it, member params "item" = Some it ∧ member_str params "turnId" = Some turn ∧ member_str it "id" = Some item ∧
        member_str it "type" = Some (bs "mcpToolCall") ∧
        member_str it "server" = Some (mc_server c) ∧ member_str it "tool" = Some (mc_tool c) ∧ member it "arguments" = mc_arguments c
  | Ev_ItemCompleted _ turn (Ci_McpToolCall id server tool arguments res) =>
      ∃ it, member params "item" = Some it ∧ member_str params "turnId" = Some turn ∧ member_str it "id" = Some id ∧
        member_str it "type" = Some (bs "mcpToolCall") ∧ member_str it "server" = Some server ∧ member_str it "tool" = Some tool ∧
        member it "arguments" = arguments ∧ member it "result" = res
  | _ => True
  end.

Lemma chk_bind_Ok {A B} (m : Chk A) (k : A → Chk B) d b :
  chk_bind m k = (d, Ok b) → ∃ d1 a d2, m = (d1, Ok a) ∧ k a = (d2, Ok b).
Proof.
  destruct m as [d1 [a|e]]; cbn; [|done]. unfold chk_bind. cbn. destruct (k a) as [d2 r] eqn:E. cbn. intros [=<- ->]. eauto 10.
Qed.

Lemma or_malformed_Ok {A} (o : option A) d a : or_malformed o = (d, Ok a) → o = Some a.
Proof. unfold or_malformed. destruct o; [|done]. by intros [=_ ->]. Qed.

Lemma chk_ret_Ok {A} (r : result Dropped A) d a : chk_ret r = (d, Ok a) → r = Ok a.
Proof. by intros [=_ ->]. Qed.

(** A relied-on member of a usable message is there, with its type. *)
Lemma checked_Ok s v d u name kind :
  checked s v = (d, Ok u) → (name, kind) ∈ sh_relied_on s → ∃ m, member v name = Some m ∧ Kind_holds kind m = true.
Proof.
  unfold checked, Shape_check, usable, member. destruct (as_object v) as [o|]; [|done]. cbn [ck_drift ck_broken mbind option_bind].
  case_bool_decide as Hb; [|done]. intros _ Hin%list_elem_of_In. apply map_eq_nil in Hb.
  destruct (match obj_get o (bs name) with Some x => Kind_holds kind x | None => false end) eqn:E.
  - destruct (obj_get o (bs name)) as [m|]; [eauto|done].
  - exfalso. eapply (in_nil (a := (name, kind))). rewrite <-Hb. apply filter_In. split; [done|]. cbn [fst snd]. by rewrite E.
Qed.

Ltac inv_chk :=
  repeat match goal with
  | H : chk_bind _ _ = (_, Ok _) |- _ => apply chk_bind_Ok in H as (? & ? & ? & ? & H)
  | H : or_malformed _ = (_, Ok _) |- _ => apply or_malformed_Ok in H
  | H : chk_ret _ = (_, Ok _) |- _ => apply chk_ret_Ok in H
  | H : Ok _ = Ok _ |- _ => injection H as H; try subst
  | H : ok_or _ _ = Ok _ |- _ => apply ok_or_Ok in H
  end.

Lemma member_str_default v name d u s :
  checked s v = (d, Ok u) → (name, Kind_Str) ∈ sh_relied_on s → member_str v name = Some (default [] (member_str v name)).
Proof.
  intros Hc Hin. destruct (checked_Ok _ _ _ _ _ _ Hc Hin) as (m & Hm & Hk). unfold member_str. rewrite Hm.
  cbn [mbind option_bind] in *. cbn in Hk. by destruct (as_str m).
Qed.

Lemma started_call_reported it kind d call :
  started_call it kind = (d, Ok (Some call)) →
  kind = bs "mcpToolCall" ∧ member_str it "server" = Some (mc_server call) ∧ member_str it "tool" = Some (mc_tool call) ∧
  member it "arguments" = mc_arguments call.
Proof.
  unfold started_call. destruct (beq kind _) eqn:E; [|by intros [=]]. apply beq_true in E as ->. intros Hs. by inv_chk.
Qed.

Lemma completed_call_reported it d id server tool arguments res :
  completed_item it = (d, Ok (Ci_McpToolCall id server tool arguments res)) →
  member_str it "id" = Some id ∧ member_str it "type" = Some (bs "mcpToolCall") ∧ member_str it "server" = Some server ∧
  member_str it "tool" = Some tool ∧ member it "arguments" = arguments ∧ member it "result" = res.
Proof.
  unfold completed_item. intros Hc. inv_chk.
  destruct (beq _ (bs "userMessage")); [by inv_chk|]. destruct (beq _ (bs "agentMessage")); [by inv_chk|].
  destruct (beq _ (bs "mcpToolCall")) eqn:E; [|by inv_chk]. apply beq_true in E. inv_chk. naive_solver.
Qed.

Lemma served_native r params thread :
  served r params = Some thread → ∃ native, member_str params "threadId" = Some native ∧ key_of r native = Some thread.
Proof.
  unfold served, member_str, member. destruct (as_object params) as [o|]; [|done]. cbn [mbind option_bind].
  destruct (obj_get o (bs "threadId")) as [v|]; [|done]. cbn [mbind option_bind]. destruct (as_str v); [|done]. eauto.
Qed.

(** The registry of an event: the same threads under the same keys. *)
Definition same_threads (r r' : Registry) : Prop :=
  rg_by_native r' = rg_by_native r ∧ rg_next r' = rg_next r ∧ (∀ k, native_of r' k = native_of r k) ∧ (registry_ok r → registry_ok r').

Lemma same_threads_refl r : same_threads r r.
Proof. by split_and!. Qed.

Lemma same_threads_update key f r : (∀ e, te_native (f e) = te_native e) → same_threads r (update_thread key f r).
Proof. intros Hf. split_and!; [done|done|intros k; by apply native_of_update|by apply update_thread_ok]. Qed.

Lemma translate_body method params r d e r' :
  translate method (Some params) r = (d, Ok (e, r')) →
  ∃ thread, served r params = Some thread ∧ event_thread e = Some thread ∧ same_threads r r' ∧ call_reported params e.
Proof.
  unfold translate. change (default JNull (Some params)) with params.
  destruct (is_some _); [done|]. unfold notification_shape.
  destruct (beq method (bs "thread/status/changed")) eqn:E1; [|destruct (beq method (bs "turn/started")) eqn:E2;
    [|destruct (beq method (bs "turn/completed")) eqn:E3; [|destruct (beq method (bs "item/started")) eqn:E4;
    [|destruct (beq method (bs "item/completed")) eqn:E5; [|done]]]]]; cbn [orb]; intros Ht; inv_chk; eexists; (split; [eassumption|]).
  - split; [done|]. split; [by apply same_threads_update|done].
  - split; [done|]. split; [by apply same_threads_update|done].
  - split; [done|]. split; [by apply same_threads_update|done].
  - split; [done|]. split; [apply same_threads_refl|]. cbn [call_reported]. destruct x12 as [c|]; [|done].
    apply started_call_reported in H3 as (Hk & ? & ? & ?).
    exists x6. split; [done|]. split; [eapply member_str_default; [exact H0|set_solver]|].
    split; [eapply member_str_default; [exact H2|set_solver]|]. split; [|done].
    rewrite <-Hk. eapply member_str_default; [exact H2|set_solver].
  - split; [done|]. split; [apply same_threads_refl|]. cbn [call_reported]. destruct x12; try done.
    apply completed_call_reported in H3 as (? & ? & ? & ? & ? & ?).
    exists x6. split; [done|]. split; [eapply member_str_default; [exact H0|set_solver]|]. done.
Qed.

(** A notification becomes an event only for a thread the client serves, named by its own
    key: the event's thread is the key of the notification's [threadId], an [mcpToolCall] event
    carries the server, tool, arguments and result of the notification's item, and the same
    threads are served after it as before.  A notification of any other thread is dropped
    before its shape is looked at: no drift is counted and it is never called malformed. *)
Theorem report_served method params r :
  (∀ d e r', translate method params r = (d, Ok (e, r')) →
    ∃ thread native, event_thread e = Some thread ∧ member_str (default JNull params) "threadId" = Some native ∧
      key_of r native = Some thread ∧ same_threads r r' ∧ call_reported (default JNull params) e) ∧
  (served r (default JNull params) = None →
    ∃ why, translate method params r = ([], Err why) ∧ why ≠ Dr_Malformed).
Proof.
  change (translate method params r) with (translate method (Some (default JNull params)) r).
  generalize (default JNull params). clear params. intros params. split.
  - intros d e r' (thread & Hs & He & Hr & Hc)%translate_body. apply served_native in Hs as (native & Hn & Hk). eauto 10.
  - intros Hs. unfold translate. change (default JNull (Some params)) with params.
    destruct (is_some _); [by eexists|]. destruct (notification_shape method) as [s|]; [|by eexists].
    rewrite Hs. by eexists.
Qed.

(** ** What is sent reads back *)

Lemma compact_str s : json_str s = write_string s.
Proof. unfold json_str. by rewrite to_compact_ref. Qed.

Definition queue_add_value (thread text client_user_message_id : list Z) : Json :=
  JObject [(bs "threadId", JString thread);
           (bs "input", JArray [JObject [(bs "type", JString (bs "text")); (bs "text", JString text)]]);
           (bs "clientUserMessageId", JString client_user_message_id)].

Definition frame_value (id : Z) (method : list Z) (params : Json) : Json :=
  JObject [(bs "jsonrpc", JString (bs "2.0")); (bs "id", JNumber (from_u64 id)); (bs "method", JString method); (bs "params", params)].

Lemma queue_add_compact thread text cid : queue_add_params thread text cid = compact (queue_add_value thread text cid).
Proof.
  unfold queue_add_params, queue_add_value, compact. rewrite (compact_str thread), (compact_str text), (compact_str cid).
  cbn [print_with map items_text fst snd write_scalar]. rewrite <-!app_assoc.
  generalize (write_string thread), (write_string text), (write_string cid). intros a b c. vm_compute. reflexivity.
Qed.

Lemma frame_compact id method params : client_frame id method (compact params) = compact (frame_value id method params).
Proof.
  unfold client_frame, frame_value, from_u64. rewrite compact_str. unfold compact at 2.
  cbn [print_with map items_text fst snd write_scalar].
  fold (compact params). rewrite <-!app_assoc.
  generalize (compact params), (write_string method), (to_dec id). intros a b c. vm_compute. reflexivity.
Qed.

Ltac nodup_const := refine (bool_decide_eq_true_1 _ _); vm_compute; reflexivity.
Ltac ijson_const := split; vm_compute; reflexivity.

Lemma wf_members l :
  NoDup (obj_names l) → Forall (λ m, ijson_text m.1 ∧ wf_json m.2) l → wf_json (JObject l).
Proof.
  intros Hn Hl. constructor; [done| |by eapply Forall_impl; [exact Hl|intros m [? ?]]].
  unfold obj_names. apply Forall_map. by eapply Forall_impl; [exact Hl|intros m [? ?]].
Qed.

(** The frame the queue add writes reads back as exactly its call: whatever characters the
    text, the thread id and the message id hold, the strict reader finds the four members of the
    frame, the method [thread/queue/add] and the three members of its params with those
    strings, and no other member: a text cannot add or change a setting of the thread. *)
Theorem queue_add_reads_back id thread text client_user_message_id :
  0 ≤ id ≤ U64_MAX → ijson_text thread → ijson_text text → ijson_text client_user_message_id →
  Json.parse (client_frame id THREAD_QUEUE_ADD (queue_add_params thread text client_user_message_id)) =
  Ok (frame_value id THREAD_QUEUE_ADD (queue_add_value thread text client_user_message_id)).
Proof.
  intros Hid Hth Htx Hci. rewrite queue_add_compact, frame_compact. apply parse_compact.
  apply wf_members; [nodup_const|].
  repeat (apply Forall_cons; split; [split; [ijson_const|]|]); [..|apply Forall_nil_2]; cbn [snd].
  - constructor. ijson_const.
  - constructor. by apply from_u64_rfc.
  - constructor. ijson_const.
  - apply wf_members; [nodup_const|].
    repeat (apply Forall_cons; split; [split; [ijson_const|]|]); [..|apply Forall_nil_2]; cbn [snd].
    + by constructor.
    + constructor. apply Forall_singleton. apply wf_members; [nodup_const|].
      repeat (apply Forall_cons; split; [split; [ijson_const|]|]); [..|apply Forall_nil_2]; constructor; [ijson_const|done].
    + by constructor.
Qed.

Lemma queue_add_reads_back_witness :
  Json.parse (client_frame 7 THREAD_QUEUE_ADD (queue_add_params (bs "t") (jtext "hi`],`x`:[`") (bs "oac-1"))) =
  Ok (frame_value 7 THREAD_QUEUE_ADD (queue_add_value (bs "t") (jtext "hi`],`x`:[`") (bs "oac-1"))).
Proof. apply queue_add_reads_back; [unfold U64_MAX; lia|ijson_const..]. Defined.

(** ** Listing and serving *)

Section Serving.
Variable answer : nat → list Z → list Z → result ClientError Json.

Lemma add_ids_spec page ids :
  NoDup ids → (length ids ≤ LOADED_THREADS_MAX)%nat → Forall (λ i, is_thread_id i = true) (page ++ ids) →
  let r := add_ids page ids in
  NoDup r.1 ∧ (length r.1 ≤ LOADED_THREADS_MAX)%nat ∧ Forall (λ i, is_thread_id i = true) r.1.
Proof.
  revert ids. induction page as [|id page IH]; intros ids Hn Hl Hf; cbn [add_ids]; [done|].
  cbn [app] in Hf. apply Forall_cons in Hf as [Hid Hf]. pose proof Hf as [Hp Hi]%Forall_app.
  destruct (Nat.leb_spec LOADED_THREADS_MAX (length ids)) as [Hm|Hm]; [done|].
  destruct (existsb (beq id) ids) eqn:E; [by apply IH|].
  apply IH.
  - apply NoDup_app. split; [done|]. split; [|apply NoDup_singleton].
      intros x Hx ->%list_elem_of_singleton. apply not_true_iff_false in E. apply E, existsb_exists. exists id.
      by rewrite <-list_elem_of_In, beq_refl.
  - rewrite length_app. simpl. lia.
  - by rewrite !Forall_app, Forall_singleton.
Qed.

Lemma loaded_pages_spec pages n cursor ids r :
  NoDup ids → (length ids ≤ LOADED_THREADS_MAX)%nat → Forall (λ i, is_thread_id i = true) ids →
  loaded_pages answer pages n cursor ids = Ok r →
  NoDup r ∧ (length r ≤ LOADED_THREADS_MAX)%nat ∧ Forall (λ i, is_thread_id i = true) r.
Proof.
  revert n cursor ids. induction pages as [|pages IH]; intros n cursor ids Hn Hl Hf Hr; cbn [loaded_pages] in Hr; [by injection Hr as <-|].
  apply result_bind_Ok in Hr as (v & _ & Hr). destruct (negb _); [done|].
  destruct (add_ids _ ids) as [ids' full] eqn:E.
  assert (NoDup ids' ∧ (length ids' ≤ LOADED_THREADS_MAX)%nat ∧ Forall (λ i, is_thread_id i = true) ids') as (Hn' & Hl' & Hf').
  { pose proof (add_ids_spec (List.filter is_thread_id (omap as_str (default [] (o ← as_object v; w ← obj_get o (bs "data"); as_array w)))) ids Hn Hl) as Ha.
    rewrite E in Ha. apply Ha. apply Forall_app. split; [|done]. apply Forall_forall. intros i Hi%list_elem_of_In%filter_In. by destruct Hi. }
  destruct full; [by injection Hr as <-|]. 
  destruct (o ← as_object v; w ← obj_get o (bs "nextCursor"); as_str w) as [c|]; [|by injection Hr as <-]. by eapply IH in Hr.
Qed.
(** What serving gives: after [Ok] the thread is served under the key, and other threads keep
    theirs; after an error the same threads are served as before. *)
Lemma subscribe_spec n thread reg :
  registry_ok reg →
  let '(res, reg') := subscribe answer n thread reg in
  registry_ok reg' ∧
  (∀ k native, key_of reg native = Some k → key_of reg' native = Some k) ∧
  match res with
  | Ok key => key_of reg' thread = Some key ∧
      (∀ k native, key_of reg' native = Some k → key_of reg native = Some k ∨ (native = thread ∧ k = key ∧ rg_next reg < k))
  | Err _ => rg_by_native reg' = rg_by_native reg
  end.
Proof.
  intros Hok. unfold subscribe. destruct (is_thread_id thread); cbn [negb]; [|done].
  pose proof (registry_serve_ok thread reg Hok) as Hok'. unfold Registry_serve, key_of in *.
  destruct (rg_by_native reg !! thread) as [k|] eqn:E; cbn [negb]; [naive_solver|]. cbn [snd] in Hok'.
  destruct (_ ≫= _) as [u|e].
  - split; [done|]. cbn. split; [intros k native Hk; rewrite lookup_insert_ne by congruence; done|].
    rewrite lookup_insert_eq. split; [done|]. intros k native. rewrite lookup_insert_Some. intros [[-> <-]|[_ ?]]; [right|by left].
    split; [done|]. split; [done|]. lia.
  - split; [by apply drop_key_ok|]. unfold drop_key. cbn [rg_by_key]. rewrite lookup_insert_eq. cbn.
    rewrite delete_insert_id by done. done.
Qed.

(** The listing is bounded and only ids are taken from it, and serving a thread is all or
    nothing: at most 256 distinct well-formed ids over at most eight calls; a subscription that
    succeeds serves the thread under a key that no thread had and one that fails leaves exactly
    the threads that were served, whatever the app-server answers; keys and native ids stay in
    one-to-one correspondence. *)
Theorem served_exactly ids n thread reg :
  loaded_threads answer = Ok ids → registry_ok reg →
  (NoDup ids ∧ (length ids ≤ 256)%nat ∧ Forall (λ i, is_thread_id i = true) ids) ∧
  (let '(res, reg') := subscribe answer n thread reg in
   registry_ok reg' ∧
   (∀ k native, native_of reg' k = Some native ↔ key_of reg' native = Some k) ∧
   match res with
   | Ok key => ∀ k native, key_of reg' native = Some k ↔
       key_of reg native = Some k ∨ (native = thread ∧ k = key ∧ (key_of reg thread = Some key ∨ native_of reg key = None))
   | Err _ => ∀ native, key_of reg' native = key_of reg native
   end).
Proof.
  intros Hl Hok. split.
  { apply (loaded_pages_spec _ _ _ [] _ (NoDup_nil_2) ltac:(cbn; lia) (Forall_nil_2 _)) in Hl. exact Hl. }
  pose proof (subscribe_spec n thread reg Hok) as Hs. destruct (subscribe answer n thread reg) as [[key|e] reg'].
  - destruct Hs as (Hok' & Hk & Ht & Hi). split; [done|]. split; [intros; by apply key_native|].
    intros k native. split.
    + intros [?|(-> & -> & Hlt)]%Hi; [by left|right]. split; [done|]. split; [done|]. right.
      destruct (native_of reg key) as [x|] eqn:E; [|done]. unfold native_of in E.
      destruct (rg_by_key reg !! key) as [f|] eqn:Ef; [|done]. apply (proj1 Hok) in Ef as [_ ?]. lia.
    + intros [?|(-> & -> & _)]; [by apply Hk|done].
  - destruct Hs as (Hok' & _ & He). split; [done|]. split; [intros; by apply key_native|].
    intros native. unfold key_of. by rewrite He.
Qed.
End Serving.

Definition sample_answer (n : nat) (method params : list Z) : result ClientError Json :=
  if beq method (bs "thread/loaded/list")
  then Ok (JObject [(bs "data", JArray [JString (bs "01a1186d-b327-74f2-ac20-e3c5d0a9e81c"); JString (bs "no id");
                                       JString (bs "01a1186d-b327-74f2-ac20-e3c5d0a9e81c")])])
  else Err Cl_NoAnswer.

Lemma served_exactly_witness :
  NoDup [bs "01a1186d-b327-74f2-ac20-e3c5d0a9e81c"] ∧
  (subscribe sample_answer 1 (bs "01a1186d-b327-74f2-ac20-e3c5d0a9e81c") Registry_default).1 = Err Cl_NoAnswer.
Proof.
  assert (loaded_threads sample_answer = Ok [bs "01a1186d-b327-74f2-ac20-e3c5d0a9e81c"]) as Hl by (vm_compute; reflexivity).
  split; [|vm_compute; reflexivity].
  exact (proj1 (proj1 (served_exactly sample_answer _ 1 (bs "01a1186d-b327-74f2-ac20-e3c5d0a9e81c") _ Hl registry_ok_default))).
Defined.

(** ** What a received message does *)

Definition is_server_request (text : list Z) : bool :=
  match Json.parse text with
  | Ok (JObject o) => is_some (m ← obj_get o (bs "method"); as_str m) && obj_contains o (bs "id")
  | _ => false
  end.

Definition out_ok (c c' : Client) (o : ClientOut) : Prop :=
  match o with
  | Co_Event e => cl_down c = false ∧ ∃ thread native, event_thread e = Some thread ∧ key_of (cl_registry c) native = Some thread
  | Co_Reply id _ => id ∈ cl_pending c ∧ cl_pending c' = cl_pending c ∖ {[id]}
  end.

Definition quiet (c c' : Client) : Prop := cl_registry c' = cl_registry c ∧ cl_pending c' = cl_pending c.

Lemma response_ok id res err c :
  let '(c', outs) := response id res err c in
  cl_registry c' = cl_registry c ∧ cl_pending c' ⊆ cl_pending c ∧ (length outs ≤ 1)%nat ∧ Forall (out_ok c c') outs.
Proof.
  unfold response. destruct (_ ≫= _) as [i|]; [|by split_and!; cbn; auto].
  destruct res as [r|], err as [e|]; try (by split_and!; cbn; auto); case_bool_decide;
    (split; [done|]); (split; [cbn; set_solver|]); (split; [cbn; lia|by repeat constructor]).
Qed.

Lemma notification_ok method params c :
  let '(c', outs) := notification method params c in
  cl_pending c' = cl_pending c ∧ same_threads (cl_registry c) (cl_registry c') ∧ (length outs ≤ 1)%nat ∧ Forall (out_ok c c') outs.
Proof.
  unfold notification. destruct (translate method params (cl_registry c)) as [drift [[e reg]|w]] eqn:E; cbn.
  - change (translate method params (cl_registry c)) with (translate method (Some (default JNull params)) (cl_registry c)) in E.
    apply translate_body in E as (thread & Hs & He & Hr & _). apply served_native in Hs as (native & _ & Hk).
    destruct (cl_down c) eqn:Ed; cbn; (split; [done|split; [done|]]); split; try lia; [by constructor|].
    apply Forall_singleton. cbn. eauto.
  - split; [done|]. split; [apply same_threads_refl|]. split; [lia|constructor].
Qed.

(** Each received message does one thing at most: it passes one event of a served thread
    to the handler, and none once the client was shut down, or it wakes one waiting call, which
    then waits no more, so no call is answered twice; a request of the app-server (an approval)
    is never answered and wakes nothing; and no message changes which threads are served. *)
Theorem dispatch_exact text c :
  let '(c', outs) := dispatch text c in
  (length outs ≤ 1)%nat ∧ Forall (out_ok c c') outs ∧ same_threads (cl_registry c) (cl_registry c') ∧
  cl_pending c' ⊆ cl_pending c ∧ cl_down c' = cl_down c ∧
  (is_server_request text = true → outs = [] ∧ quiet c c').
Proof.
  unfold dispatch, is_server_request. destruct (Json.parse text) as [v|e]; [|by split_and!; cbn; auto using same_threads_refl].
  destruct v; cbn [as_object]; try (by split_and!; cbn; auto using same_threads_refl).
  unfold obj_contains. destruct (obj_get members (bs "method") ≫= as_str) as [m|], (obj_get members (bs "id")) as [i|];
    cbn [is_some andb]; try (by split_and!; cbn; auto using same_threads_refl).
  - pose proof (notification_ok m (obj_get members (bs "params")) c) as Hn.
    assert (cl_down (notification m (obj_get members (bs "params")) c).1 = cl_down c) as Hd
      by (unfold notification; destruct (translate _ _ _) as [? [[]|]]; done).
    destruct (notification _ _ c) as [c' outs]. destruct Hn as (Hp & Hs & Hl & Hf). split_and!; auto; [by rewrite Hp|done].
  - pose proof (response_ok i (obj_get members (bs "result")) (obj_get members (bs "error")) c) as Hr.
    assert (cl_down (response i (obj_get members (bs "result")) (obj_get members (bs "error")) c).1 = cl_down c) as Hd
      by (unfold response; repeat case_match; done).
    destruct (response _ _ _ c) as [c' outs]. destruct Hr as (Hg & Hp & Hl & Hf).
    split_and!; auto; [rewrite Hg; apply same_threads_refl|done].
Qed.
