(* ===== verification/CodexPairing.v ===== *)
(** * Pairing Codex connections with threads ([adapters/codex/src/confirm.rs],
    [reveal.rs], [serving.rs], [pairing.rs])

    The adapter's half of the issued-value pairing: the confirmations Codex reports and a call
    claims, the records of refused calls and the reveals that match them, the threads served
    while a connection is being paired, and the module that joins them.  Calls, carrier events
    and the core's bindings run on threads of their own and meet only at the locks: an operation
    is a program of micro-steps, each the work done under one lock (or one call of the port),
    and a run interleaves the programs in any way.  Times are nanoseconds; the clock, the answers
    of the core and of the app-server and the end of a wait are inputs of a step. *)

From S2P Require Import Prelude Ordered Ids Utf8 Json JsonFacts JsonReader Delivery Canonical TrustFile Concurrent McpTools CodexReports.

(** ** Matching ([confirm.rs]) *)

Definition MAX_DEPTH : nat := 64.

Fixpoint json_equal_at (depth : nat) (a b : Json) : bool :=
  if (MAX_DEPTH <? depth)%nat then false
  else
    match a, b with
    | JNull, JNull => true
    | JBool x, JBool y => Bool.eqb x y
    | JNumber x, JNumber y => beq x y
    | JString x, JString y => beq x y
    | JArray x, JArray y =>
        (length x =? length y)%nat &&
        (fix all x y := match x, y with p :: x, q :: y => json_equal_at (S depth) p q && all x y | _, _ => true end) x y
    | JObject x, JObject y =>
        (length x =? length y)%nat &&
        (fix all x := match x with
           | [] => true
           | m :: x => (match obj_get y m.1 with Some w => json_equal_at (S depth) m.2 w | None => false end) && all x
           end) x
    | _, _ => false
    end.

Definition json_equal (a b : Json) : bool := json_equal_at 0 a b.

Definition arguments_match (call : Json) (item : option Json) : bool := json_equal call (default JNull item).

(** [Instant::saturating_duration_since]. *)
Definition since (now t : Z) : Z := Z.max 0 (now - t).

(** ** Confirmations *)

Definition MAX_CONFIRMATIONS : nat := 1024.

(** [Entry] of [confirm.rs]. *)
Record Confirmation := mkConfirmation {
  cn_thread : Z; cn_turn : list Z; cn_item : list Z; cn_tool : list Z; cn_arguments : Json; cn_arrived : Z; cn_claimed : bool }.

Record Confirmations := mkConfirmations { cs_entries : list Confirmation; cs_closed : bool }.

Definition confirm_live (life : Z) (e : Confirmation) (now : Z) : bool := since now (cn_arrived e) <? life.

Definition same_item (thread : Z) (item : list Z) (e : Confirmation) : bool := (cn_thread e =? thread) && beq (cn_item e) item.

Definition confirm_started (life : Z) (e : Confirmation) (now : Z) (c : Confirmations) : Confirmations :=
  let entries := List.filter (λ x, confirm_live life x now) (cs_entries c) in
  if existsb (same_item (cn_thread e) (cn_item e)) entries then mkConfirmations entries (cs_closed c)
  else
    let entries := if (MAX_CONFIRMATIONS <=? length entries)%nat then drop 1 entries else entries in
    mkConfirmations (entries ++ [e]) (cs_closed c).

Definition confirm_completed (thread : Z) (item : list Z) (c : Confirmations) : Confirmations :=
  mkConfirmations (List.filter (λ e, negb (same_item thread item e)) (cs_entries c)) (cs_closed c).

Definition confirm_turn_completed (thread : Z) (turn : list Z) (c : Confirmations) : Confirmations :=
  mkConfirmations (List.filter (λ e, negb ((cn_thread e =? thread) && beq (cn_turn e) turn)) (cs_entries c)) (cs_closed c).

Definition confirm_forget_thread (thread : Z) (c : Confirmations) : Confirmations :=
  mkConfirmations (List.filter (λ e, negb (cn_thread e =? thread)) (cs_entries c)) (cs_closed c).

Definition claim_of (e : Confirmation) : Confirmation :=
  mkConfirmation (cn_thread e) (cn_turn e) (cn_item e) (cn_tool e) (cn_arguments e) (cn_arrived e) true.

(** The test of [Confirmations::find]. *)
Definition claimable (life thread : Z) (tool : list Z) (arguments : Json) (now : Z) (e : Confirmation) : bool :=
  (cn_thread e =? thread) && negb (cn_claimed e) && (since now (cn_arrived e) <? life) && beq (cn_tool e) tool &&
  arguments_match arguments (Some (cn_arguments e)).

(** [Confirmations::find]: the oldest claimable entry, and the entries with it claimed. *)
Fixpoint claim_first (f : Confirmation → bool) (l : list Confirmation) : option (Confirmation * list Confirmation) :=
  match l with
  | [] => None
  | e :: l => if f e then Some (e, claim_of e :: l) else '(x, l) ← claim_first f l; Some (x, e :: l)
  end.

Definition confirm_find (life thread : Z) (tool : list Z) (arguments : Json) (now : Z) (c : Confirmations)
    : option (Confirmation * Confirmations) :=
  '(e, entries) ← claim_first (claimable life thread tool arguments now) (cs_entries c);
  Some (e, mkConfirmations entries (cs_closed c)).

Definition confirm_unclaimed (life now : Z) (c : Confirmations) : nat :=
  length (List.filter (λ e, negb (cn_claimed e) && confirm_live life e now) (cs_entries c)).

Definition confirm_close (c : Confirmations) : Confirmations := mkConfirmations (cs_entries c) true.

(** ** Bounded maps *)

Section Bounded.
Context {V : Type}.
Abbreviation ItemKey := (Z * list Z)%type (only parsing).

Record Bounded := mkBounded { bd_cap : nat; bd_order : list ItemKey; bd_map : gmap ItemKey V }.

Definition bounded_new (cap : nat) : Bounded := mkBounded cap [] ∅.

(** The [while] loop of [insert]: each round takes the oldest key. *)
Fixpoint bounded_trim (rounds cap : nat) (order : list ItemKey) (m : gmap ItemKey V) : list ItemKey * gmap ItemKey V :=
  match rounds with
  | O => (order, m)
  | S rounds =>
      if (cap <? length order)%nat then
        match order with [] => (order, m) | old :: order => bounded_trim rounds cap order (delete old m) end
      else (order, m)
  end.

Definition bounded_insert (k : ItemKey) (v : V) (b : Bounded) : Bounded :=
  let m := <[k := v]> (bd_map b) in
  if is_some (bd_map b !! k) then mkBounded (bd_cap b) (bd_order b) m
  else
    let '(order, m) := bounded_trim (S (length (bd_order b))) (bd_cap b) (bd_order b ++ [k]) m in
    mkBounded (bd_cap b) order m.

Definition bounded_remove (k : ItemKey) (b : Bounded) : option V * Bounded :=
  match bd_map b !! k with
  | None => (None, b)
  | Some v => (Some v, mkBounded (bd_cap b) (List.filter (λ x, negb (bool_decide (x = k))) (bd_order b)) (delete k (bd_map b)))
  end.

Definition bounded_contains (k : ItemKey) (b : Bounded) : bool := is_some (bd_map b !! k).

End Bounded.
Arguments Bounded V : clear implicits.

(** ** Refused calls ([reveal.rs]) *)

Definition MAX_RECORDS : nat := 16.
Definition MAX_CONNECTIONS : nat := 64.

Record RefusalRecord := mkRefusal {
  rd_tool : list Z; rd_arguments : Json; rd_text : list Z; rd_value : list Z; rd_at : Z }.

Definition single_text_content (res : Json) : option (list Z) :=
  o ← as_object res; c ← obj_get o (bs "content"); content ← as_array c;
  match content with
  | [block] =>
      block ← as_object block;
      if negb (length block =? 2)%nat || negb (bool_decide ((t ← obj_get block (bs "type"); as_str t) = Some (bs "text")))
      then None
      else t ← obj_get block (bs "text"); as_str t
  | _ => None
  end.

Section Refusals.
Context `{MapOrder} {K : Type} `{Countable K}.

Record Refusals := mkRefusals { rf_by_key : gmap K (list RefusalRecord); rf_life : Z }.

Inductive Found : Type := Fd_Reveal (key : K) (r : RefusalRecord) | Fd_Late | Fd_None.

(** The order of [Option<Instant>]: [None] is least. *)
Definition at_lt (a b : option Z) : bool :=
  match a, b with
  | None, Some _ => true
  | Some x, Some y => x <? y
  | _, None => false
  end.

(** [min_by_key] of the time of the newest record: the first of the least. *)
Definition oldest_connection (l : list (K * list RefusalRecord)) : option K :=
  fst <$> foldl (λ acc x, match acc with
    | Some b => if at_lt (rd_at <$> list.last x.2) (rd_at <$> list.last b.2) then Some x else Some b
    | None => Some x
    end) None l.

Definition refusals_record (key : K) (r : RefusalRecord) (s : Refusals) : Refusals :=
  let by_key :=
    if negb (is_some (rf_by_key s !! key)) && (MAX_CONNECTIONS <=? size (rf_by_key s))%nat
    then match oldest_connection (map_items (rf_by_key s)) with
         | Some old => delete old (rf_by_key s)
         | None => rf_by_key s
         end
    else rf_by_key s in
  let q := List.filter (λ x, since (rd_at r) (rd_at x) <? rf_life s) (default [] (by_key !! key)) ++ [r] in
  mkRefusals (<[key := drop (length q - MAX_RECORDS) q]> by_key) (rf_life s).

Definition record_matches (tool : list Z) (arguments : option Json) (text : list Z) (r : RefusalRecord) : bool :=
  beq (rd_tool r) tool && beq (rd_text r) text && arguments_match (rd_arguments r) arguments.

(** The first live match of one connection's records, with the records without it. *)
Fixpoint take_first (f : RefusalRecord → bool) (q : list RefusalRecord) : option (RefusalRecord * list RefusalRecord) :=
  match q with
  | [] => None
  | r :: q => if f r then Some (r, q) else '(x, q) ← take_first f q; Some (x, r :: q)
  end.

Fixpoint find_live (f : RefusalRecord → bool) (l : list (K * list RefusalRecord)) : option (K * (RefusalRecord * list RefusalRecord)) :=
  match l with
  | [] => None
  | (k, q) :: l => match take_first f q with Some x => Some (k, x) | None => find_live f l end
  end.

Definition refusals_find (tool : list Z) (arguments : option Json) (text : list Z) (now : Z) (s : Refusals) : Found * Refusals :=
  let matches := record_matches tool arguments text in
  match find_live (λ r, matches r && (since now (rd_at r) <? rf_life s)) (map_items (rf_by_key s)) with
  | Some (k, (r, q)) => (Fd_Reveal k r, mkRefusals (<[k := q]> (rf_by_key s)) (rf_life s))
  | None => (if existsb (λ p, existsb matches p.2) (map_items (rf_by_key s)) then Fd_Late else Fd_None, s)
  end.

Definition refusals_forget (key : K) (s : Refusals) : Refusals := mkRefusals (delete key (rf_by_key s)) (rf_life s).

End Refusals.
Arguments Refusals K {_ _}.
Arguments Found K : clear implicits.

(** ** Served threads ([serving.rs]) *)

Definition MAX_NEW_PER_WINDOW : nat := 64.

Record Opened := mkOpened { op_subscribed : nat; op_served : nat; op_failed : nat }.

Section ServingState.
Context `{MapOrder} {K : Type} `{Countable K}.

Record Serving := mkServing { sv_tentative : gmap Z Z; sv_held : gmap Z (gset K) }.

Definition take_due (now : Z) (s : Serving) : list Z * Serving :=
  let due := map fst (List.filter (λ p, p.2 <=? now) (map_items (sv_tentative s))) in
  (List.filter (λ t, negb (is_some (sv_held s !! t))) due,
   mkServing (foldl (λ m t, delete t m) (sv_tentative s) due) (sv_held s)).

Definition serving_keep (key deadline : Z) (s : Serving) : Serving :=
  mkServing (alter (λ d, Z.max d deadline) key (sv_tentative s)) (sv_held s).

Definition serving_tentative (key deadline : Z) (s : Serving) : Serving :=
  mkServing (<[key := deadline]> (sv_tentative s)) (sv_held s).

Definition serving_hold (holder : K) (thread : Z) (s : Serving) : Serving :=
  let ours := is_some (sv_tentative s !! thread) || is_some (sv_held s !! thread) in
  let tentative := delete thread (sv_tentative s) in
  mkServing tentative
    (if ours then <[thread := {[holder]} ∪ default ∅ (sv_held s !! thread)]> (sv_held s) else sv_held s).

(** [release]: [retain] on the map of holders, and the threads it freed. *)
Definition serving_release (holder : K) (s : Serving) : list Z * Serving :=
  let left := (λ h : gset K, h ∖ {[holder]}) <$> sv_held s in
  (map fst (List.filter (λ p, bool_decide (p.2 = ∅)) (map_items left)),
   mkServing (sv_tentative s) (filter (λ p : Z * gset K, p.2 ≠ ∅) left)).

Definition serving_managed (s : Serving) : nat :=
  (length (List.filter (λ t, negb (is_some (sv_held s !! t))) (map fst (map_items (sv_tentative s)))) + size (sv_held s))%nat.

End ServingState.
Arguments Serving K {_ _}.

(** ** The pairing ([pairing.rs]) *)

Definition WINDOW : Z := 30 * 1000000000.
Definition MAX_CONFIRM_WAIT : Z := 10 * 1000000000.
Definition MAX_PAIRING_WINDOW : Z := 60 * 1000000000.
Definition CONFIRM_WAIT : Z := 5 * 1000000000.
Definition CONFIRM_LIFE : Z := 600 * 1000000000.
Definition MAX_CLAIMS : nat := 1024.
Definition MAX_REGISTERED_NAME : nat := 64.
Definition MAX_LOGGED_OTHER_SERVERS : nat := 16.

Inductive RegisteredNameError : Type := Rn_Empty | Rn_TooLong | Rn_BadCharacter.

Definition name_char (c : Z) : bool :=
  is_ascii_digit c || in_range 97 122 c || in_range 65 90 c || existsb (Z.eqb c) (bs "-_:@/.").

Definition validate_registered_name (name : list Z) : result RegisteredNameError unit :=
  if bool_decide (name = []) then Err Rn_Empty
  else if (MAX_REGISTERED_NAME <? length name)%nat then Err Rn_TooLong
  else if negb (forallb name_char (chars name)) then Err Rn_BadCharacter
  else Ok tt.

Record PairingConfig := mkPairingConfig {
  pc_registered_name : list Z; pc_window : Z; pc_confirm_wait : Z; pc_confirm_life : Z }.

Definition PairingConfig_new (name : list Z) : PairingConfig := mkPairingConfig name WINDOW CONFIRM_WAIT CONFIRM_LIFE.

Definition PairingConfig_try_new (name : list Z) : result RegisteredNameError PairingConfig :=
  _ ← validate_registered_name name; Ok (PairingConfig_new name).

(** The bounds [CodexPairing::start] applies. *)
Definition bounded_config (c : PairingConfig) : PairingConfig :=
  mkPairingConfig (pc_registered_name c) (Z.min (Z.max (pc_window c) 1000000) MAX_PAIRING_WINDOW)
    (Z.min (pc_confirm_wait c) MAX_CONFIRM_WAIT) (Z.min (pc_confirm_life c) CONFIRM_LIFE).

Record PairingDiagnostics := mkPairingDiagnostics {
  pd_windows : Z; pd_unpairable : Z; pd_reveals : Z; pd_late_reveals : Z; pd_confirmed : Z; pd_unconfirmed : Z;
  pd_content_mismatches : Z; pd_other_server : Z; pd_unmatched_reports : Z; pd_unknown_threads : Z }.

Inductive Count : Type :=
| Ct_windows | Ct_unpairable | Ct_reveals | Ct_late_reveals | Ct_confirmed | Ct_unconfirmed | Ct_content_mismatches
| Ct_other_server | Ct_unmatched_reports | Ct_unknown_threads.

#[export] Instance Count_eq_dec : EqDecision Count.
Proof. solve_decision. Defined.

(** [lock(&self.diag).count += 1]. *)
Definition diag_count (c : Count) (d : PairingDiagnostics) : PairingDiagnostics :=
  let one k := if bool_decide (c = k) then 1 else 0 in
  mkPairingDiagnostics (pd_windows d + one Ct_windows) (pd_unpairable d + one Ct_unpairable) (pd_reveals d + one Ct_reveals)
    (pd_late_reveals d + one Ct_late_reveals) (pd_confirmed d + one Ct_confirmed) (pd_unconfirmed d + one Ct_unconfirmed)
    (pd_content_mismatches d + one Ct_content_mismatches) (pd_other_server d + one Ct_other_server)
    (pd_unmatched_reports d + one Ct_unmatched_reports) (pd_unknown_threads d + one Ct_unknown_threads).

Record Conn := mkConn {
  co_thread : option Z; co_bound : bool; co_stopped : bool; co_window_until : option Z }.

Definition Conn_default : Conn := mkConn None false false None.

Inductive Route : Type := Ro_Unbound (list_ : bool) | Ro_Confirm (thread : Z) | Ro_Missing.

(** The match of [Inner::serve] on the connection. *)
Definition route (now : Z) (c : Conn) : Route :=
  match co_bound c, co_stopped c, co_thread c with
  | _, false, Some t => Ro_Confirm t
  | true, false, None => Ro_Missing
  | _, _, _ => Ro_Unbound (match co_window_until c with None => true | Some u => u <=? now end)
  end.

Section Pairing.
Context `{MapOrder} {K : Type} `{Countable K} {Value Map : Type} `{McpJson Value Map}.

Record Answer := mkAnswer {
  an_result : CallToolResult (Value := Value); an_pairing_value : option (list Z); an_unauthorized : bool }.

Record Claimed := mkClaimed { cd_key : K; cd_expected : option (list Z) }.

(** [Inner], with the client's registry and the count of unsubscribed threads. *)
Record Pairing := mkPairing {
  pi_cfg : PairingConfig; pi_registry : Registry; pi_serving : Serving K; pi_unsubscribed : list Z;
  pi_confirmations : Confirmations; pi_conns : gmap K Conn; pi_refusals : Refusals K; pi_claims : Bounded Claimed;
  pi_diag : PairingDiagnostics; pi_others : gset (list Z) }.

Definition Pairing_eta (s : Pairing) : Pairing :=
  mkPairing (pi_cfg s) (pi_registry s) (pi_serving s) (pi_unsubscribed s) (pi_confirmations s) (pi_conns s) (pi_refusals s)
    (pi_claims s) (pi_diag s) (pi_others s).
#[export] Instance Pairing_Eta : Eta Pairing := Pairing_eta.

(** One call of [CodexPairing::serve] whose arguments are I-JSON. *)
Record Call := mkCall { ca_key : K; ca_tool : list Z; ca_args : Json; ca_call : ToolCall }.

(** Why a call is passed to the core. *)
Inductive Passed : Type := Pa_Unbound (now : Z) | Pa_Confirmed (e : Confirmation) | Pa_Unconfirmed.

(** The micro-steps: the programs of [serve], [set_bound], [connection_closed], [sweep],
    [shutdown] and [on_event], cut at each lock and at each call of the port; the counters of the
    diagnostics, which nothing else reads, are with the step beside them. *)
Inductive Micro : Type :=
| Mi_Serve (key : K) (tool : list Z) (arguments : option Json) (call : ToolCall)
| Mi_List (c : Call) (now : Z)
| Mi_Open (c : Call) (now : Z) (ids : list (list Z)) (out : Opened)
| Mi_Subscribe (c : Call) (now : Z) (id : list Z) (ids : list (list Z)) (out : Opened)
| Mi_Keep (c : Call) (now : Z) (thread : Z) (ids : list (list Z)) (out : Opened)
| Mi_Resume (c : Call) (now : Z) (thread : Z) (ids : list (list Z)) (out : Opened)
| Mi_Tentative (c : Call) (now : Z) (thread : Z) (ids : list (list Z)) (out : Opened)
| Mi_Opened (c : Call) (now : Z) (out : option Opened)
| Mi_Claim (c : Call) (thread : Z)
| Mi_Stop (c : Call)
| Mi_Report (c : Call)
| Mi_Request (c : Call) (why : Passed)
| Mi_KeepClaim (c : Call) (e : Confirmation) (a : Answer)
| Mi_Unpair (key : K)
| Mi_Release (key : K)
| Mi_Unsubscribe (threads : list Z)
| Mi_Record (c : Call) (a : Answer) (now : option Z)
| Mi_Event (e : CodexEvent)
| Mi_On (e : CodexEvent) (now : Z)
| Mi_Find (thread : Z) (id tool : list Z) (arguments : option Json) (reported : option (list Z)) (now : Z)
| Mi_Reveal (key : K) (thread : Z) (value : list Z)
| Mi_SetThread (key : K) (thread : Z) (native value : list Z)
| Mi_Hold (key : K) (thread : Z)
| Mi_PortReveal (key : K) (native value : list Z)
| Mi_Settle (thread : Z) (id : list Z) (reported : option (list Z))
| Mi_Mismatch (key : K)
| Mi_PortUnconfirmed (key : K)
| Mi_Done (thread : Z) (id : list Z)
| Mi_SetBound (key : K) (bound : bool)
| Mi_Closed (key : K)
| Mi_Forget (key : K)
| Mi_Sweep
| Mi_Shutdown.

(** What a run shows: the calls of the port, with exactly what the port is given, and the steps
    they rest on: a report of a call's start, the connection a call was routed on, a confirmation
    claimed at a reading of the clock, a refusal recorded, a report of a call's end. *)
Inductive Obs : Type :=
| Ob_Started (e : Confirmation)
| Ob_Claimed (c : Call) (e : Confirmation) (now : Z)
| Ob_Routed (c : Call) (conn : Conn)
| Ob_Request (c : Call) (why : Passed)
| Ob_Unconfirmed (key : K)
| Ob_Recorded (key : K) (r : RefusalRecord)
| Ob_Reported (thread : Z) (tool : list Z) (arguments : option Json) (text : list Z) (now : Z)
| Ob_Reveal (key : K) (native value : list Z)
| Ob_Returned (key : K) (r : CallToolResult (Value := Value))
| Ob_CarrierClosed.

(** What one micro-step is told from outside: the time, whether the wait is over, the core's
    answer, the loaded threads, and whether a subscription succeeded. *)
Record Input := mkInput {
  in_now : Z; in_over : bool; in_answer : Answer; in_loaded : option (list (list Z)); in_resumed : bool }.

Definition get_mut_conn (key : K) (f : Conn → Conn) (s : Pairing) : Pairing := s <| pi_conns := alter f key (pi_conns s) |>.
Definition entry_conn (key : K) (f : Conn → Conn) (s : Pairing) : Pairing :=
  s <| pi_conns := <[key := f (default Conn_default (pi_conns s !! key))]> (pi_conns s) |>.
Definition count (c : Count) (s : Pairing) : Pairing := s <| pi_diag := diag_count c (pi_diag s) |>.

Definition stop_conn (c : Conn) : Conn := mkConn (co_thread c) (co_bound c) true (co_window_until c).
Definition unpair_conn (c : Conn) : Conn := mkConn None false false (co_window_until c).
Definition bind_conn (c : Conn) : Conn := mkConn (co_thread c) true (co_stopped c) (co_window_until c).
Definition window_conn (u : Z) (c : Conn) : Conn := mkConn (co_thread c) (co_bound c) (co_stopped c) (Some u).
Definition reveal_conn (thread : Z) (c : Conn) : Conn := mkConn (Some thread) (co_bound c) false (co_window_until c).

(** [Inner::other_server]. *)
Definition other_server (server : list Z) (counted : bool) (s : Pairing) : Pairing :=
  let s := if counted then count Ct_other_server s else s in
  if (size (pi_others s) <? MAX_LOGGED_OTHER_SERVERS)%nat then s <| pi_others := {[server]} ∪ pi_others s |> else s.

(** [Inner::serve] up to the release of the lock on the connections. *)
Definition exec_serve (i : Input) (key : K) (tool : list Z) (arguments : option Json) (call : ToolCall) (s : Pairing)
    : Pairing * list Micro * list Obs :=
  match arguments with
  | None => (s, [], [Ob_Returned key (refusal E_InvalidRequest)])
  | Some args =>
      let c := mkCall key tool args call in
      let conn := default Conn_default (pi_conns s !! key) in
      let s := entry_conn key (λ c, c) s in
      (s, match route (in_now i) conn with
          | Ro_Confirm t => [Mi_Claim c t]
          | Ro_Missing => [Mi_Stop c]
          | Ro_Unbound true => [Mi_List c (in_now i)]
          | Ro_Unbound false => [Mi_Request c (Pa_Unbound (in_now i))]
          end, [Ob_Routed c conn])
  end.

(** The rest of [unbound_call] before the request: [open_window] thread by thread, and what it
    decides. *)
Definition exec_open (i : Input) (c : Call) (now : Z) (ids : list (list Z)) (out : Opened) (s : Pairing)
    : Pairing * list Micro * list Obs :=
  match ids with
  | [] => (s, [Mi_Opened c now (Some (mkOpened (op_subscribed out) (Registry_len (pi_registry s)) (op_failed out)))], [])
  | id :: ids =>
      match key_of (pi_registry s) id with
      | Some t => (s, [Mi_Keep c now t ids out], [])
      | None =>
          if (MAX_NEW_PER_WINDOW <=? op_subscribed out)%nat then (s, [Mi_Open c now ids out], [])
          else (s, [Mi_Subscribe c now id ids out], [])
      end
  end.

Definition exec_opened (c : Call) (now : Z) (out : option Opened) (s : Pairing) : Pairing * list Micro * list Obs :=
  match out with
  | Some o =>
      if (0 <? op_served o)%nat
      then (count Ct_windows (get_mut_conn (ca_key c) (window_conn (now + pc_window (pi_cfg s))) s), [Mi_Request c (Pa_Unbound now)], [])
      else (count Ct_unpairable s, [], [Ob_Returned (ca_key c) (refusal E_Unauthorized)])
  | None => (count Ct_unpairable s, [], [Ob_Returned (ca_key c) (refusal E_Unauthorized)])
  end.

(** One round of [claim_wait]. *)
Definition exec_claim (i : Input) (c : Call) (thread : Z) (s : Pairing) : Pairing * list Micro * list Obs :=
  match confirm_find (pc_confirm_life (pi_cfg s)) thread (ca_tool c) (ca_args c) (in_now i) (pi_confirmations s) with
  | Some (e, cs) => (count Ct_confirmed (s <| pi_confirmations := cs |>), [Mi_Request c (Pa_Confirmed e)], [Ob_Claimed c e (in_now i)])
  | None => (s, if cs_closed (pi_confirmations s) || in_over i then [Mi_Stop c] else [Mi_Claim c thread], [])
  end.

(** What follows the core's answer. *)
Definition after_request (c : Call) (why : Passed) (a : Answer) : list Micro :=
  match why with
  | Pa_Unbound now => [Mi_Record c a (Some now)]
  | Pa_Confirmed e =>
      [Mi_KeepClaim c e a] ++ (if an_unauthorized a then [Mi_Unpair (ca_key c); Mi_Release (ca_key c)] else []) ++ [Mi_Record c a None]
  | Pa_Unconfirmed => [Mi_Record c a None]
  end.

(** [keep_record], and the result returned to Codex. *)
Definition exec_record (i : Input) (c : Call) (a : Answer) (now : option Z) (s : Pairing) : Pairing * list Micro * list Obs :=
  let now := default (in_now i) now in
  match an_pairing_value a, single_text (an_result a) with
  | Some value, Some text =>
      let r := mkRefusal (ca_tool c) (ca_args c) text value now in
      (s <| pi_refusals := refusals_record (ca_key c) r (pi_refusals s) |>, [],
       [Ob_Recorded (ca_key c) r; Ob_Returned (ca_key c) (an_result a)])
  | _, _ => (s, [], [Ob_Returned (ca_key c) (an_result a)])
  end.

(** [on_event] once it has read the clock. *)
Definition exec_event (now : Z) (e : CodexEvent) (s : Pairing) : Pairing * list Micro * list Obs :=
  let name := pc_registered_name (pi_cfg s) in
  match e with
  | Ev_ItemStarted thread turn item _ (Some c) =>
      if beq (mc_server c) name then
        let e := mkConfirmation thread turn item (mc_tool c) (default JNull (mc_arguments c)) now false in
        (s <| pi_confirmations := confirm_started (pc_confirm_life (pi_cfg s)) e now (pi_confirmations s) |>, [], [Ob_Started e])
      else (other_server (mc_server c) false s, [], [])
  | Ev_TurnCompleted thread turn _ => (s <| pi_confirmations := confirm_turn_completed thread turn (pi_confirmations s) |>, [], [])
  | Ev_Closed => (s, [], [Ob_CarrierClosed])
  | Ev_ItemCompleted thread _ (Ci_McpToolCall id server tool arguments res) =>
      if beq server name
      then (s, [Mi_Find thread id tool arguments (r ← res; single_text_content r) now], [])
      else (other_server server true s, [], [])
  | _ => (s, [], [])
  end.

(** The first half of [call_completed]. *)
Definition exec_find (thread : Z) (id tool : list Z) (arguments : option Json) (reported : option (list Z)) (now : Z) (s : Pairing)
    : Pairing * list Micro * list Obs :=
  match reported with
  | None => (s, [Mi_Settle thread id reported], [])
  | Some text =>
      let '(found, refusals) := refusals_find tool arguments text now (pi_refusals s) in
      let s := s <| pi_refusals := refusals |> in
      let obs := [Ob_Reported thread tool arguments text now] in
      match found with
      | Fd_Reveal key r => (s, [Mi_Reveal key thread (rd_value r); Mi_Settle thread id reported], obs)
      | Fd_Late => (count Ct_late_reveals s, [Mi_Settle thread id reported], obs)
      | Fd_None =>
          (if bounded_contains (thread, id) (pi_claims s) then s else count Ct_unmatched_reports s,
           [Mi_Settle thread id reported], obs)
      end
  end.

(** The second half: the content check of a served call. *)
Definition exec_settle (thread : Z) (id : list Z) (reported : option (list Z)) (s : Pairing) : Pairing * list Micro * list Obs :=
  let '(claimed, claims) := bounded_remove (thread, id) (pi_claims s) in
  (s <| pi_claims := claims |>,
   (match claimed with
    | Some (mkClaimed key (Some expected)) => if bool_decide (reported = Some expected) then [] else [Mi_Mismatch key]
    | _ => []
    end) ++ [Mi_Done thread id], []).

(** One micro-step: the state after it, what the program does next, and what it shows. *)
Definition exec (i : Input) (m : Micro) (s : Pairing) : Pairing * list Micro * list Obs :=
  match m with
  | Mi_Serve key tool arguments call => exec_serve i key tool arguments call s
  | Mi_List c now =>
      (s, match in_loaded i with Some ids => [Mi_Open c now ids (mkOpened 0 0 0)] | None => [Mi_Opened c now None] end, [])
  | Mi_Open c now ids out => exec_open i c now ids out s
  | Mi_Subscribe c now id ids out =>
      if negb (is_thread_id id) then (s, [Mi_Open c now ids (mkOpened (op_subscribed out) 0 (S (op_failed out)))], [])
      else
        let '((t, new), reg) := Registry_serve id (pi_registry s) in
        (s <| pi_registry := reg |>, [if new then Mi_Resume c now t ids out else Mi_Tentative c now t ids out], [])
  | Mi_Keep c now t ids out =>
      (s <| pi_serving := serving_keep t (now + pc_window (pi_cfg s)) (pi_serving s) |>, [Mi_Open c now ids out], [])
  | Mi_Resume c now t ids out =>
      if in_resumed i then (s, [Mi_Tentative c now t ids out], [])
      else (s <| pi_registry := (drop_key t (pi_registry s)).2 |>,
            [Mi_Open c now ids (mkOpened (op_subscribed out) 0 (S (op_failed out)))], [])
  | Mi_Tentative c now t ids out =>
      (s <| pi_serving := serving_tentative t (now + pc_window (pi_cfg s)) (pi_serving s) |>,
       [Mi_Open c now ids (mkOpened (S (op_subscribed out)) 0 (op_failed out))], [])
  | Mi_Opened c now out => exec_opened c now out s
  | Mi_Claim c thread => exec_claim i c thread s
  | Mi_Stop c => (count Ct_unconfirmed (get_mut_conn (ca_key c) stop_conn s), [Mi_Report c], [])
  | Mi_Report c => (s, [Mi_Request c Pa_Unconfirmed], [Ob_Unconfirmed (ca_key c)])
  | Mi_Request c why => (s, after_request c why (in_answer i), [Ob_Request c why])
  | Mi_KeepClaim c e a =>
      (s <| pi_claims := bounded_insert (cn_thread e, cn_item e) (mkClaimed (ca_key c) (single_text (an_result a))) (pi_claims s) |>, [], [])
  | Mi_Unpair key => (get_mut_conn key unpair_conn s, [], [])
  | Mi_Release key =>
      let '(free, serving) := serving_release key (pi_serving s) in
      (s <| pi_serving := serving |>, [Mi_Unsubscribe free], [])
  | Mi_Unsubscribe ts =>
      match ts with
      | [] => (s, [], [])
      | t :: ts =>
          let '(native, reg) := drop_key t (pi_registry s) in
          let s := s <| pi_registry := reg |> in
          (if is_some native then s <| pi_unsubscribed := pi_unsubscribed s ++ [t] |> else s, [Mi_Unsubscribe ts], [])
      end
  | Mi_Record c a now => exec_record i c a now s
  | Mi_Event e => (s, [Mi_On e (in_now i)], [])
  | Mi_On e now => exec_event now e s
  | Mi_Find thread id tool arguments reported now => exec_find thread id tool arguments reported now s
  | Mi_Reveal key thread value =>
      match native_of (pi_registry s) thread with
      | None => (count Ct_unknown_threads s, [], [])
      | Some native => (s, [Mi_SetThread key thread native value], [])
      end
  | Mi_SetThread key thread native value =>
      (entry_conn key (reveal_conn thread) s, [Mi_Hold key thread; Mi_PortReveal key native value], [])
  | Mi_Hold key thread => (s <| pi_serving := serving_hold key thread (pi_serving s) |>, [], [])
  | Mi_PortReveal key native value => (count Ct_reveals s, [], [Ob_Reveal key native value])
  | Mi_Settle thread id reported => exec_settle thread id reported s
  | Mi_Mismatch key => (count Ct_content_mismatches (get_mut_conn key stop_conn s), [Mi_PortUnconfirmed key], [])
  | Mi_PortUnconfirmed key => (s, [], [Ob_Unconfirmed key])
  | Mi_Done thread id => (s <| pi_confirmations := confirm_completed thread id (pi_confirmations s) |>, [], [])
  | Mi_SetBound key true => (entry_conn key bind_conn s, [], [])
  | Mi_SetBound key false => (s, [Mi_Unpair key; Mi_Release key], [])
  | Mi_Closed key => (s <| pi_conns := delete key (pi_conns s) |>, [Mi_Forget key; Mi_Release key], [])
  | Mi_Forget key => (s <| pi_refusals := refusals_forget key (pi_refusals s) |>, [], [])
  | Mi_Sweep =>
      let '(due, serving) := take_due (in_now i) (pi_serving s) in
      (s <| pi_serving := serving |>, [Mi_Unsubscribe due], [])
  | Mi_Shutdown => (s <| pi_confirmations := confirm_close (pi_confirmations s) |>, [], [])
  end.

(** The operations programs start with. *)
Definition is_entry (m : Micro) : bool :=
  match m with
  | Mi_Serve _ _ _ _ | Mi_Event _ | Mi_SetBound _ _ | Mi_Closed _ | Mi_Sweep | Mi_Shutdown => true
  | _ => false
  end.

(** A state of the system: the clock, the shared state, the programs that run, and what was shown,
    newest first. *)
Record System := mkSystem { sy_clock : Z; sy_state : Pairing; sy_pool : list (list Micro); sy_trace : list Obs }.

Definition Pairing_start (cfg : PairingConfig) (reg : Registry) : Pairing :=
  let cfg := bounded_config cfg in
  mkPairing cfg reg (mkServing ∅ ∅) [] (mkConfirmations [] false) ∅ (mkRefusals ∅ (pc_window cfg)) (bounded_new MAX_CLAIMS)
    (mkPairingDiagnostics 0 0 0 0 0 0 0 0 0 0) ∅.

(** An operation begins; a program does its next micro-step, which reads the clock as it is then;
    time passes; the client learns of threads, or its owner serves or drops some. *)
Inductive step : System → System → Prop :=
| St_begin m t s pool tr : is_entry m = true → step (mkSystem t s pool tr) (mkSystem t s (pool ++ [[m]]) tr)
| St_exec i n m k t s s' next obs pool tr :
    in_now i = t → pool !! n = Some (m :: k) → exec i m s = (s', next, obs) →
    step (mkSystem t s pool tr) (mkSystem t s' (<[n := next ++ k]> pool) (rev obs ++ tr))
| St_tick t' t s pool tr : t ≤ t' → step (mkSystem t s pool tr) (mkSystem t' s pool tr)
| St_client reg t s pool tr : step (mkSystem t s pool tr) (mkSystem t (s <| pi_registry := reg |>) pool tr).

Inductive reachable (cfg : PairingConfig) : System → Prop :=
| Re_start t reg : reachable cfg (mkSystem t (Pairing_start cfg reg) [] [])
| Re_step x y : reachable cfg x → step x y → reachable cfg y.

End Pairing.

(** ** Invariants of all runs *)

Lemma json_eq_spec v w : json_eq v w = true ↔ v = w.
Proof.
  unfold json_eq, events. rewrite !walk_ref.
  rewrite <-(app_nil_r (ref_events false v)), <-(app_nil_r (ref_events false w)), events_eq_ref. naive_solver.
Qed.

#[export] Instance Json_eq_dec : EqDecision Json.
Proof.
  intros v w. destruct (json_eq v w) eqn:E; [left; by apply json_eq_spec|right]. intros Hv%json_eq_spec. congruence.
Defined.

#[export] Instance Confirmation_eq_dec : EqDecision Confirmation.
Proof. solve_decision. Defined.

#[export] Instance RefusalRecord_eq_dec : EqDecision RefusalRecord.
Proof. solve_decision. Defined.

(** The sum of a weight over a list. *)
Definition total {A} (w : A → Z) (l : list A) : Z := foldr (λ a n, w a + n) 0 l.

Lemma total_cons {A} (w : A → Z) a l : total w (a :: l) = w a + total w l.
Proof. done. Qed.

Lemma total_app {A} (w : A → Z) l k : total w (l ++ k) = total w l + total w k.
Proof. unfold total. induction l as [|a l IH]; simpl; [done|]. rewrite IH. lia. Qed.

Lemma total_rev {A} (w : A → Z) l : total w (rev l) = total w l.
Proof. induction l as [|a l IH]; [done|]. simpl rev. rewrite total_app, IH. unfold total. simpl. lia. Qed.

Lemma total_zero {A} (w : A → Z) l : (∀ a, a ∈ l → w a = 0) → total w l = 0.
Proof. induction l as [|a l IH]; intros Hl; [done|]. cbn. fold (total w l). rewrite IH by set_solver. rewrite Hl by set_solver. done. Qed.

Lemma total_filter {A} (w : A → Z) f l : (∀ a, 0 ≤ w a) → total w (List.filter f l) ≤ total w l.
Proof.
  intros Hw. induction l as [|a l IH]; [done|]. cbn [List.filter total foldr]. fold (total w l).
  specialize (Hw a). destruct (f a); cbn [total foldr]; fold (total w (List.filter f l)); lia.
Qed.

Lemma total_weights_nonneg {A} (w : A → Z) l : (∀ a, 0 ≤ w a) → 0 ≤ total w l.
Proof. intros Hw. induction l as [|a l IH]; [done|]. cbn. fold (total w l). specialize (Hw a). lia. Qed.

Lemma total_drop {A} (w : A → Z) n l : (∀ a, 0 ≤ w a) → total w (drop n l) ≤ total w l.
Proof.
  intros Hw. rewrite <-(take_drop n l) at 2. rewrite total_app. pose proof (total_weights_nonneg w (take n l) Hw). lia.
Qed.

(** One program of a pool replaces its first element. *)
Lemma total_pool {A} (w : A → Z) pool n a k next :
  pool !! n = Some (a :: k) → total (total w) (<[n := next ++ k]> pool) = total (total w) pool + total w next - w a.
Proof.
  revert n. induction pool as [|p pool IH]; intros [|n] Hn; try done.
  - injection Hn as ->. change (<[0%nat := next ++ k]> ((a :: k) :: pool)) with ((next ++ k) :: pool).
    rewrite !total_cons, total_app. lia.
  - change (<[S n := next ++ k]> (p :: pool)) with (p :: <[n := next ++ k]> pool). rewrite !total_cons, (IH n Hn). lia.
Qed.

Section Runs.
Context `{MapOrder} {K : Type} `{Countable K} {Value Map : Type} `{McpJson Value Map}.
Abbreviation Micro := (Micro (K := K) (Value := Value)).
Abbreviation Obs := (Obs (K := K) (Value := Value)).
Abbreviation Pairing := (Pairing (K := K)).
Abbreviation System := (System (K := K) (Value := Value)).

(** A balance: what is shown, what programs hold and what the state holds never gain. *)
Lemma balance (wo : Obs → Z) (wm : Micro → Z) (ws : Pairing → Z) cfg x :
  (∀ reg, ws (Pairing_start cfg reg) = 0) →
  (∀ reg s, ws (s <| pi_registry := reg |>) = ws s) →
  (∀ m, is_entry m = true → wm m = 0) →
  (∀ i m s s' next obs, exec i m s = (s', next, obs) → total wo obs + total wm next + ws s' ≤ wm m + ws s) →
  reachable cfg x → total wo (sy_trace x) + total (total wm) (sy_pool x) + ws (sy_state x) ≤ 0.
Proof.
  intros Hs Hr He Hx. induction 1 as [t reg|x y Hreach IH Hstep]; [cbn; rewrite Hs; lia|].
  destruct Hstep as [m t s pool tr Hm|i n m k t s s' next obs pool tr Hi Hn Hex|t' t s pool tr Ht|reg t s pool tr]; cbn [sy_state sy_pool sy_trace] in *.
  - rewrite total_app, !total_cons, He by done. cbn. lia.
  - apply Hx in Hex. rewrite total_app, total_rev, (total_pool wm pool n m k next Hn). lia.
  - done.
  - by rewrite Hr.
Qed.

Definition one {A} `{EqDecision A} (e x : A) : Z := if bool_decide (x = e) then 1 else 0.

Lemma one_nonneg {A} `{EqDecision A} (e x : A) : 0 ≤ one e x.
Proof. unfold one. case_bool_decide; lia. Qed.

Definition start_weight (e : Confirmation) (o : Obs) : Z :=
  match o with Ob_Started x => - one e x | Ob_Request _ (Pa_Confirmed x) => one e x | _ => 0 end.
Definition request_weight (e : Confirmation) (m : Micro) : Z :=
  match m with Mi_Request _ (Pa_Confirmed x) => one e x | _ => 0 end.
Definition entry_weight (e : Confirmation) (s : Pairing) : Z := total (one e) (cs_entries (pi_confirmations s)).

Lemma claim_first_weight e f l x k :
  cn_claimed e = false → claim_first f l = Some (x, k) → total (one e) l = one e x + total (one e) k.
Proof.
  intros He. revert k. induction l as [|y l IH]; intros k Hc; cbn [claim_first] in Hc; [done|]. destruct (f y).
  - injection Hc as -> <-. rewrite !total_cons.
    assert (one e (claim_of x) = 0) as -> by (unfold one; rewrite bool_decide_eq_false_2; [done|by intros <-]). lia.
  - destruct (claim_first f l) as [[z k']|]; [|done]. injection Hc as -> <-. rewrite !total_cons, (IH k') by done. lia.
Qed.

Lemma confirm_started_weight e life x now c :
  total (one e) (cs_entries (confirm_started life x now c)) ≤ total (one e) (cs_entries c) + one e x.
Proof.
  unfold confirm_started. pose proof (total_filter (one e) (λ y, confirm_live life y now) (cs_entries c) (one_nonneg e)) as Hf.
  pose proof (one_nonneg e x). destruct (existsb _ _); cbn [cs_entries]; [lia|]. rewrite total_app, total_cons. cbn [total foldr].
  destruct (_ <=? _)%nat; [|lia]. pose proof (total_drop (one e) 1 (List.filter (λ y, confirm_live life y now) (cs_entries c)) (one_nonneg e)). lia.
Qed.

Ltac step_cases Hx := injection Hx as <- <- <-; cbn in *; rewrite ?Z.add_0_r, ?Z.add_0_l; try lia.

Lemma exec_confirm_balance e i (m : Micro) s s' next obs :
  cn_claimed e = false → exec i m s = (s', next, obs) →
  total (start_weight e) obs + total (request_weight e) next + entry_weight e s' ≤ request_weight e m + entry_weight e s.
Proof.
  intros He Hx. unfold entry_weight. destruct m; cbn [exec] in Hx.
  all: try (unfold exec_serve, exec_open, exec_opened, exec_record, exec_find, exec_settle in Hx; repeat case_match; step_cases Hx; fail).
  - unfold exec_claim, confirm_find in Hx. destruct (claim_first _ _) as [[x k]|] eqn:Ec; cbn [mbind option_bind] in Hx.
    + apply (claim_first_weight e _ _ _ _ He) in Ec. injection Hx as <- <- <-. cbn [pi_confirmations cs_entries count update].
      rewrite !total_cons. cbn. fold (total (one e) k). lia.
    + destruct (_ || _); injection Hx as <- <- <-; cbn; fold (total (one e) (cs_entries (pi_confirmations s))); lia.
  - injection Hx as <- <- <-. rewrite total_cons. destruct why as [?|x|]; cbn; try lia. destruct (an_unauthorized _); cbn; lia.
  - unfold exec_event, other_server in Hx. repeat case_match; injection Hx as <- <- <-; cbn; try (fold (total (one e) (cs_entries (pi_confirmations s))); lia).
    + pose proof (total_filter (one e) (λ y, negb ((cn_thread y =? thread) && beq (cn_turn y) turn)) (cs_entries (pi_confirmations s)) (one_nonneg e)) as Hf.
      unfold total in *. lia.
    + pose proof (confirm_started_weight e (pc_confirm_life (pi_cfg s)) (mkConfirmation thread turn item (mc_tool m) (default JNull (mc_arguments m)) now false)
        now (pi_confirmations s)) as Hf. unfold total in *. lia.
  - injection Hx as <- <- <-. cbn.
    pose proof (total_filter (one e) (λ y, negb (same_item thread id y)) (cs_entries (pi_confirmations s)) (one_nonneg e)) as Hf. unfold total in *. lia.
  - injection Hx as <- <- <-. apply Z.le_refl.
Qed.

Lemma confirm_balance cfg x e :
  cn_claimed e = false → reachable cfg x →
  total (start_weight e) (sy_trace x) + total (total (request_weight e)) (sy_pool x) + entry_weight e (sy_state x) ≤ 0.
Proof.
  intros He Hr. apply (balance (start_weight e) (request_weight e) (entry_weight e) cfg x); try done.
  - by intros [].
  - intros. by eapply exec_confirm_balance.
Qed.

(** *** Reveals *)

Definition records (s : Refusals K) (key : K) : list RefusalRecord := default [] (rf_by_key s !! key).

Lemma take_first_spec f q r q' :
  take_first f q = Some (r, q') → f r = true ∧ r ∈ q ∧ (∀ x, x ∈ q' → x ∈ q) ∧ ∀ w, total w q = w r + total w q'.
Proof.
  revert q'. induction q as [|x q IH]; intros q' Ht; cbn [take_first] in Ht; [done|]. destruct (f x) eqn:E.
  - injection Ht as -> ->. split; [done|]. split; [set_solver|]. split; [set_solver|done].
  - destruct (take_first f q) as [[y q'']|]; [|done]. injection Ht as -> <-. destruct (IH q'' eq_refl) as (Hf & Hr & Hq & Hw).
    split; [done|]. split; [set_solver|]. split; [set_solver|]. intros w. rewrite !total_cons, Hw. lia.
Qed.

Lemma find_live_spec f (l : list (K * list RefusalRecord)) k r q' :
  find_live f l = Some (k, (r, q')) → ∃ q, (k, q) ∈ l ∧ take_first f q = Some (r, q').
Proof.
  induction l as [|[k' q] l IH]; intros Hf; cbn [find_live] in Hf; [done|]. destruct (take_first f q) as [x|] eqn:E.
  - injection Hf as -> ->. exists q. set_solver.
  - destruct (IH Hf) as (q0 & Hin & Hq). exists q0. set_solver.
Qed.

Lemma refusals_find_spec tool arguments text now (s : Refusals K) key r s' :
  refusals_find tool arguments text now s = (Fd_Reveal key r, s') →
  r ∈ records s key ∧ record_matches tool arguments text r = true ∧ since now (rd_at r) < rf_life s ∧ rf_life s' = rf_life s ∧
  (∀ k w, total w (records s k) = (if bool_decide (k = key) then w r else 0) + total w (records s' k)) ∧
  (∀ k x, x ∈ records s' k → x ∈ records s k).
Proof.
  unfold refusals_find. destruct (find_live _ _) as [[k [r0 q']]|] eqn:E; [|by destruct (existsb _ _)]. intros [= -> -> <-].
  apply find_live_spec in E as (q & Hq%elem_of_map_items & Ht). apply take_first_spec in Ht as (Hf & Hr & Hsub & Hw). bool_hyps.
  unfold records. cbn. rewrite Hq. split; [done|]. split; [done|]. split; [lia|]. split; [done|]. split.
  - intros k w. case_bool_decide as Hk; [subst; rewrite Hq, lookup_insert_eq; apply Hw|]. by rewrite lookup_insert_ne.
  - intros k x. destruct (decide (k = key)) as [->|Hk]; [rewrite Hq, lookup_insert_eq; apply Hsub|by rewrite lookup_insert_ne].
Qed.

Lemma refusals_find_other tool arguments text now (s : Refusals K) f s' :
  refusals_find tool arguments text now s = (f, s') → (∀ k r, f ≠ Fd_Reveal k r) → s' = s.
Proof.
  unfold refusals_find. destruct (find_live _ _) as [[k [r0 q']]|] eqn:E; [intros [= <- _] Hn; by destruct (Hn k r0)|].
  by intros [= _ <-].
Qed.

(** A record adds itself and may drop others. *)
Lemma refusals_record_spec key r (s : Refusals K) :
  rf_life (refusals_record key r s) = rf_life s ∧
  (∀ k w, (∀ x, 0 ≤ w x) →
    total w (records (refusals_record key r s) k) ≤ total w (records s k) + (if bool_decide (k = key) then w r else 0)) ∧
  (∀ k x, x ∈ records (refusals_record key r s) k → x ∈ records s k ∨ (k = key ∧ x = r)).
Proof.
  unfold refusals_record, records. cbn. set (by_key := if _ && _ then _ else _).
  assert (∀ k, by_key !! k = rf_by_key s !! k ∨ by_key !! k = None) as Hb.
  { intros k. unfold by_key. destruct (_ && _); [|by left]. destruct (oldest_connection _) as [old|]; [|by left].
    destruct (decide (old = k)) as [->|Hne]; [right; apply lookup_delete_eq|left; by apply lookup_delete_ne]. }
  split; [done|]. split.
  - intros k w Hw. case_bool_decide as Hk; [subst k; rewrite lookup_insert_eq|rewrite lookup_insert_ne by done].
    + cbn [default]. etrans; [by apply total_drop|]. rewrite total_app, total_cons. cbn [total foldr].
      etrans; [apply Z.add_le_mono_r; by apply total_filter|]. pose proof (total_weights_nonneg w (default [] (rf_by_key s !! key)) Hw).
      destruct (Hb key) as [->| ->]; cbn [default from_option]; unfold total in *; cbn in *; lia.
    + pose proof (total_weights_nonneg w (default [] (rf_by_key s !! k)) Hw). destruct (Hb k) as [->| ->]; [lia|]. cbn. lia.
  - intros k x. destruct (decide (k = key)) as [->|Hk]; [rewrite lookup_insert_eq|rewrite lookup_insert_ne by done].
    + cbn [default]. intros Hx%(subseteq_drop _ _ _)%elem_of_app.
      destruct Hx as [Hx%list_elem_of_In%filter_In|Hx%list_elem_of_singleton]; [|by right]. destruct Hx as [Hx%list_elem_of_In _].
      left. destruct (Hb key) as [Hk|Hk]; rewrite Hk in Hx; [done|]. by apply not_elem_of_nil in Hx.
    + destruct (Hb k) as [->| ->]; [by left|]. by intros ?%not_elem_of_nil.
Qed.

Definition of_value (value : list Z) (r : RefusalRecord) : Z := one value (rd_value r).

Definition pair_one (key k : K) (value v : list Z) : Z := if bool_decide (k = key) then one value v else 0.

Definition record_weight (key : K) (value : list Z) (o : Obs) : Z :=
  match o with Ob_Recorded k r => - pair_one key k value (rd_value r) | Ob_Reveal k _ v => pair_one key k value v | _ => 0 end.
Definition reveal_weight (key : K) (value : list Z) (m : Micro) : Z :=
  match m with
  | Mi_Reveal k _ v | Mi_SetThread k _ _ v | Mi_PortReveal k _ v => pair_one key k value v
  | _ => 0
  end.
Definition records_weight (key : K) (value : list Z) (s : Pairing) : Z := total (of_value value) (records (pi_refusals s) key).

Lemma of_value_nonneg value x : 0 ≤ of_value value x.
Proof. apply one_nonneg. Qed.

Lemma pair_one_nonneg key k value v : 0 ≤ pair_one key k value v.
Proof. unfold pair_one. case_bool_decide; [apply one_nonneg|done]. Qed.

Lemma pair_one_if (key k : K) value r :
  (if bool_decide (key = k) then of_value value r else 0) = pair_one key k value (rd_value r).
Proof. unfold pair_one, of_value. by repeat case_bool_decide; congruence. Qed.

Lemma exec_reveal_balance key value i (m : Micro) s s' next obs :
  exec i m s = (s', next, obs) →
  total (record_weight key value) obs + total (reveal_weight key value) next + records_weight key value s' ≤
  reveal_weight key value m + records_weight key value s.
Proof.
  intros Hx. unfold records_weight. destruct m; cbn [exec] in Hx.
  all: try (unfold exec_serve, exec_open, exec_opened, exec_claim, exec_event, exec_settle, other_server in Hx; repeat case_match; step_cases Hx; fail).
  - injection Hx as <- <- <-. destruct why; cbn; try lia. destruct (an_unauthorized _); cbn; lia.
  - unfold exec_record in Hx. destruct (an_pairing_value a) as [v|]; [|injection Hx as <- <- <-; cbn; lia].
    destruct (single_text (an_result a)) as [text|]; [|injection Hx as <- <- <-; cbn; lia]. injection Hx as <- <- <-.
    pose proof (proj1 (proj2 (refusals_record_spec (ca_key c) (mkRefusal (ca_tool c) (ca_args c) text v (default (in_now i) now)) (pi_refusals s)))
      key (of_value value) (of_value_nonneg value)) as Hr. rewrite pair_one_if in Hr.
    cbn -[total records pair_one]. cbn -[records pair_one refusals_record] in *. lia.
  - unfold exec_find in Hx. destruct reported as [text|]; [|step_cases Hx].
    destruct (refusals_find _ _ _ _ _) as [[k r| |] rf] eqn:E.
    + apply refusals_find_spec in E as (_ & _ & _ & _ & Hw & _). specialize (Hw key (of_value value)). rewrite pair_one_if in Hw.
      injection Hx as <- <- <-. cbn -[records pair_one] in *. lia.
    + apply refusals_find_other in E as ->; [|done]. injection Hx as <- <- <-. cbn. lia.
    + apply refusals_find_other in E as ->; [|done]. destruct (bounded_contains _ _); injection Hx as <- <- <-; cbn; lia.
  - pose proof (pair_one_nonneg key key0 value value0). case_match; step_cases Hx.
  - injection Hx as <- <- <-. cbn -[records]. unfold records. cbn. destruct (decide (key0 = key)) as [->|Hne].
    + rewrite lookup_delete_eq. cbn. apply (total_weights_nonneg (of_value value)). apply of_value_nonneg.
    + rewrite lookup_delete_ne by done. lia.
Qed.

Lemma reveal_balance cfg x key value :
  reachable cfg x →
  total (record_weight key value) (sy_trace x) + total (total (reveal_weight key value)) (sy_pool x) +
  records_weight key value (sy_state x) ≤ 0.
Proof.
  intros Hr. apply (balance (record_weight key value) (reveal_weight key value) (records_weight key value) cfg x); try done.
  - by intros [].
  - intros. by eapply exec_reveal_balance.
Qed.

(** *** Justifications *)

(** The connection needed no confirmation when the call came: it had no thread and the core had
    not bound it, or it was stopped. *)
Definition needed_none (tr : list Obs) (c : Call) : Prop :=
  ∃ conn, Ob_Routed c conn ∈ tr ∧ (co_stopped conn = true ∨ (co_thread conn = None ∧ co_bound conn = false)).

(** The connection's thread was [thread] when the call came. *)
Definition routed_to (tr : list Obs) (c : Call) (thread : Z) : Prop :=
  ∃ conn, Ob_Routed c conn ∈ tr ∧ co_stopped conn = false ∧ co_thread conn = Some thread.

(** What is taken for granted at a point of a run: the confirmation life, the pairing window, the
    clock, and which thread had which native id. *)
Record Env := mkEnv { ev_life : Z; ev_window : Z; ev_clock : Z; ev_named : list Obs → Z → list Z → Prop }.

(** A report of the call's thread, of its tool and with its arguments, which the call claimed when
    it was younger than the confirmation life. *)
Definition confirms (life : Z) (tr : list Obs) (c : Call) (e : Confirmation) : Prop :=
  routed_to tr c (cn_thread e) ∧ Ob_Started e ∈ tr ∧ cn_claimed e = false ∧ cn_tool e = ca_tool c ∧
  arguments_match (ca_args c) (Some (cn_arguments e)) = true ∧
  ∃ now, Ob_Claimed c e now ∈ tr ∧ cn_arrived e ≤ now < cn_arrived e + life.

Definition why_ok (life : Z) (tr : list Obs) (c : Call) (why : Passed) : Prop :=
  match why with
  | Pa_Unbound _ => needed_none tr c
  | Pa_Confirmed e => confirms life tr c e
  | Pa_Unconfirmed => Ob_Unconfirmed (ca_key c) ∈ tr
  end.

(** A refused call of the connection carried the value, and Codex reported that call's refusal
    for the thread within the window. *)
Definition revealed (window : Z) (tr : list Obs) (key : K) (thread : Z) (value : list Z) : Prop :=
  ∃ r tool arguments text now, Ob_Recorded key r ∈ tr ∧ Ob_Reported thread tool arguments text now ∈ tr ∧ rd_value r = value ∧
    rd_tool r = tool ∧ rd_text r = text ∧ arguments_match (rd_arguments r) arguments = true ∧ since now (rd_at r) < window.

(** As [revealed], for the thread that had this native id. *)
Definition revealed_as (v : Env) (tr : list Obs) (key : K) (native value : list Z) : Prop :=
  ∃ thread, revealed (ev_window v) tr key thread value ∧ ev_named v tr thread native.

Definition obs_ok (v : Env) (tr : list Obs) (o : Obs) : Prop :=
  match o with
  | Ob_Request c why => why_ok (ev_life v) tr c why
  | Ob_Reveal key native value => revealed_as v tr key native value
  | _ => True
  end.

Definition micro_ok (v : Env) (tr : list Obs) (m : Micro) : Prop :=
  match m with
  | Mi_Claim c t => routed_to tr c t
  | Mi_List c _ | Mi_Open c _ _ _ | Mi_Subscribe c _ _ _ _ | Mi_Keep c _ _ _ _ | Mi_Resume c _ _ _ _ | Mi_Tentative c _ _ _ _ | Mi_Opened c _ _ =>
      needed_none tr c
  | Mi_Request c why => why_ok (ev_life v) tr c why
  | Mi_On _ now => now ≤ ev_clock v
  | Mi_Reveal key thread value => revealed (ev_window v) tr key thread value
  | Mi_SetThread key thread native value => revealed (ev_window v) tr key thread value ∧ ev_named v tr thread native
  | Mi_PortReveal key native value => revealed_as v tr key native value
  | _ => True
  end.

Definition unclaimed (e : Confirmation) : Confirmation :=
  mkConfirmation (cn_thread e) (cn_turn e) (cn_item e) (cn_tool e) (cn_arguments e) (cn_arrived e) false.

(** A connection is paired with a thread only after a reveal for the two. *)
Definition paired_ok (window : Z) (tr : list Obs) (conns : gmap K Conn) : Prop :=
  ∀ key c t, conns !! key = Some c → co_thread c = Some t → ∃ value, revealed window tr key t value.

Definition state_ok (v : Env) (tr : list Obs) (s : Pairing) : Prop :=
  pc_confirm_life (pi_cfg s) = ev_life v ∧ rf_life (pi_refusals s) = ev_window v ∧
  (∀ e, e ∈ cs_entries (pi_confirmations s) → Ob_Started (unclaimed e) ∈ tr ∧ cn_arrived e ≤ ev_clock v) ∧
  (∀ key r, r ∈ records (pi_refusals s) key → Ob_Recorded key r ∈ tr) ∧
  paired_ok (ev_window v) tr (pi_conns s).

(** More is shown, time has passed, and what had a native id had it. *)
Definition env_le (v w : Env) : Prop :=
  ev_life w = ev_life v ∧ ev_window w = ev_window v ∧ ev_clock v ≤ ev_clock w ∧
  ∀ tr new t n, ev_named v tr t n → ev_named w (new ++ tr) t n.

Lemma needed_none_mono tr new c : needed_none tr c → needed_none (new ++ tr) c.
Proof. intros (conn & ? & ?). exists conn. set_solver. Qed.
Lemma routed_to_mono tr new c t : routed_to tr c t → routed_to (new ++ tr) c t.
Proof. intros (conn & ? & ?). exists conn. set_solver. Qed.
Lemma why_ok_mono life tr new c why : why_ok life tr c why → why_ok life (new ++ tr) c why.
Proof.
  destruct why; cbn; [apply needed_none_mono| |set_solver]. intros (Hr & Hs & Hc & Ht & Ha & now & Hn & Hrest).
  split; [by apply routed_to_mono|]. split; [set_solver|]. split_and!; [done..|]. exists now. split; [set_solver|done].
Qed.
Lemma revealed_mono window tr new key thread value : revealed window tr key thread value → revealed window (new ++ tr) key thread value.
Proof. intros (r & tool & args & text & now & ? & ? & ?). exists r, tool, args, text, now. set_solver. Qed.
Lemma revealed_as_mono v w tr new key native value : env_le v w → revealed_as v tr key native value → revealed_as w (new ++ tr) key native value.
Proof. intros (_ & Hw & _ & Hn) (t & Hr & Ht). exists t. rewrite Hw. split; [by apply revealed_mono|by apply Hn]. Qed.
Lemma obs_ok_mono v w tr new o : env_le v w → obs_ok v tr o → obs_ok w (new ++ tr) o.
Proof. intros Hv. pose proof Hv as (Hl & _). destruct o; cbn; rewrite ?Hl; eauto using why_ok_mono, revealed_as_mono. Qed.
Lemma micro_ok_mono v w tr new m : env_le v w → micro_ok v tr m → micro_ok w (new ++ tr) m.
Proof.
  intros Hv. pose proof Hv as (Hl & Hw & Hc & Hn). destruct m; cbn; rewrite ?Hl, ?Hw; eauto using why_ok_mono, revealed_mono, revealed_as_mono, needed_none_mono, routed_to_mono.
  - lia.
  - intros [? ?]. split; [by apply revealed_mono|by apply Hn].
Qed.
Lemma paired_ok_mono window tr new conns : paired_ok window tr conns → paired_ok window (new ++ tr) conns.
Proof. intros Hp key c t Hc Ht. destruct (Hp key c t Hc Ht) as [value Hv]. exists value. by apply revealed_mono. Qed.
Lemma state_ok_mono v w tr new s : env_le v w → state_ok v tr s → state_ok w (new ++ tr) s.
Proof.
  intros (Hl & Hw & Hc & _) (? & ? & He & Hr & Hp). unfold state_ok. rewrite Hl, Hw.
  split_and!; [done|done|intros e [? ?]%He; split; [set_solver|lia]|intros k r ?%Hr; set_solver|by apply paired_ok_mono].
Qed.

Lemma env_le_refl v : (∀ tr new t n, ev_named v tr t n → ev_named v (new ++ tr) t n) → env_le v v.
Proof. intros Hn. by split_and!. Qed.

Lemma claim_first_spec f l x k :
  claim_first f l = Some (x, k) → f x = true ∧ x ∈ l ∧ ∀ y, y ∈ k → y ∈ l ∨ y = claim_of x.
Proof.
  revert k. induction l as [|y l IH]; intros k Hc; cbn [claim_first] in Hc; [done|]. destruct (f y) eqn:E.
  - injection Hc as -> <-. set_solver.
  - destruct (claim_first f l) as [[z k']|]; [|done]. injection Hc as -> <-. destruct (IH k' eq_refl) as (? & ? & Hk). set_solver.
Qed.

Lemma confirm_started_elem life e now c x : x ∈ cs_entries (confirm_started life e now c) → x ∈ cs_entries c ∨ x = e.
Proof.
  unfold confirm_started. destruct (existsb _ _); cbn.
  - intros [? _]%list_elem_of_In%filter_In. left. by apply list_elem_of_In.
  - intros [Hx|Hx%list_elem_of_singleton]%elem_of_app; [left|by right]. revert Hx; case_match; intros Hx; [apply (subseteq_drop 1) in Hx|];
      apply list_elem_of_In, filter_In in Hx as [? _]; by apply list_elem_of_In.
Qed.

(** A connection keeps its thread, loses it, or gets one from a reveal. *)
Lemma paired_entry window tr conns key f :
  paired_ok window tr conns →
  (∀ c t, co_thread (f c) = Some t → co_thread c = Some t ∨ ∃ value, revealed window tr key t value) →
  paired_ok window tr (<[key := f (default Conn_default (conns !! key))]> conns).
Proof.
  intros Hp Hf k c t Hk Ht. apply lookup_insert_Some in Hk as [[<- <-]|[_ Hk]]; [|by apply (Hp k c)].
  apply Hf in Ht as [Ht|?]; [|done]. destruct (conns !! key) as [c|] eqn:E; [by apply (Hp key c)|done].
Qed.

Lemma paired_alter window tr conns key f :
  paired_ok window tr conns → (∀ c t, co_thread (f c) = Some t → co_thread c = Some t) → paired_ok window tr (alter f key conns).
Proof.
  intros Hp Hf k c t Hk Ht. apply lookup_alter_Some in Hk as [(<- & c0 & Hk & ->)|[_ Hk]]; [|by apply (Hp k c)]. apply (Hp key c0); auto.
Qed.

Lemma paired_delete window tr conns key : paired_ok window tr conns → paired_ok window tr (delete key conns).
Proof. intros Hp k c t [_ Hk]%lookup_delete_Some Ht. by apply (Hp k c). Qed.

(** A state whose confirmations and records are of before is as justified. *)
Lemma state_ok_same v tr new s s' :
  state_ok v tr s → pi_cfg s' = pi_cfg s → pi_refusals s' = pi_refusals s → paired_ok (ev_window v) tr (pi_conns s') →
  (∀ e, e ∈ cs_entries (pi_confirmations s') → e ∈ cs_entries (pi_confirmations s) ∨ Ob_Started (unclaimed e) ∈ new ∧ cn_arrived e ≤ ev_clock v) →
  state_ok v (new ++ tr) s'.
Proof.
  intros (? & ? & He & Hr & _) Hc Hf Hp Hn. unfold state_ok. rewrite Hc, Hf. split_and!; [done|done| | |by apply paired_ok_mono].
  - intros e [[? ?]%He|[? ?]]%Hn; (split; [set_solver|done]).
  - intros k r ?%Hr. set_solver.
Qed.

Ltac conns_kept Hs :=
  destruct Hs as (_ & _ & _ & _ & ?); cbn;
  first [done | apply paired_alter; [done|by intros [] ?] | apply paired_entry; [done|by intros [] ? ?; left]
        | apply (paired_entry _ _ _ _ (λ c, c)); [done|by left] | by apply paired_delete].
Ltac kept Hs := eapply state_ok_same; [exact Hs|done|done|conns_kept Hs|intros ??; by left].

Lemma exec_state_ok v tr i (m : Micro) s s' next obs :
  ev_clock v = in_now i → micro_ok v tr m → state_ok v tr s → exec i m s = (s', next, obs) → state_ok v (rev obs ++ tr) s'.
Proof.
  intros Hck Hm Hs Hx. destruct m; cbn [exec] in Hx.
  all: try (unfold exec_serve, exec_open, exec_opened, exec_settle in Hx; repeat case_match; injection Hx as <- <- <-;
            kept Hs; fail).
  - unfold exec_claim, confirm_find in Hx. destruct (claim_first _ _) as [[x k]|] eqn:E; cbn in Hx; injection Hx as <- <- <-;
      [|kept Hs]. pose proof Hs as (Hl & Hw & He & Hr & Hp). apply claim_first_spec in E as (_ & Hx & Hk).
    split_and!; [done|done| |intros k0 r0 ?%Hr; set_solver|by apply (paired_ok_mono _ _ [_])]. cbn.
    intros e [[? ?]%He| ->]%Hk; [split; [set_solver|done]|]. destruct (He x Hx). split; [set_solver|done].
  - unfold exec_record in Hx. repeat case_match; injection Hx as <- <- <-; try (kept Hs).
    destruct Hs as (Hl & Hw & He & Hr & Hp). split_and!; [done| |intros e [? ?]%He; split; [set_solver|done]| |by apply (paired_ok_mono _ _ [_; _])].
    + etrans; [apply (proj1 (refusals_record_spec _ _ _))|done].
    + intros k r Hk. apply (proj2 (proj2 (refusals_record_spec _ _ _))) in Hk as [?%Hr|[-> ->]]; set_solver.
  - unfold exec_event, other_server in Hx. cbn in Hm. repeat case_match; injection Hx as <- <- <-; try (kept Hs).
    + eapply state_ok_same; [exact Hs|done|done|conns_kept Hs|]. cbn. intros e' [? _]%list_elem_of_In%filter_In. left. by apply list_elem_of_In.
    + eapply state_ok_same; [exact Hs|done|done|conns_kept Hs|]. cbn [pi_confirmations update]. intros e' [?| ->]%confirm_started_elem; [by left|right].
      split; [set_solver|done].
  - unfold exec_find in Hx. destruct reported as [text|]; [|injection Hx as <- <- <-; kept Hs].
    destruct (refusals_find _ _ _ _ _) as [[k r| |] rf] eqn:E.
    + apply refusals_find_spec in E as (_ & _ & _ & Hlife & _ & Hsub). injection Hx as <- <- <-.
      destruct Hs as (Hl & Hw & He & Hr & Hp). split_and!; cbn; [done|congruence|intros e [? ?]%He; split; [set_solver|done]|intros k0 r0 ?%Hsub%Hr; set_solver|].
      by apply (paired_ok_mono _ _ [_]).
    + apply refusals_find_other in E as ->; [|done]. injection Hx as <- <- <-. kept Hs.
    + apply refusals_find_other in E as ->; [|done].
      destruct (bounded_contains _ _); injection Hx as <- <- <-; (kept Hs).
  - injection Hx as <- <- <-. eapply state_ok_same; [exact Hs|done|done| |intros ??; by left]. destruct Hs as (_ & _ & _ & _ & Hp). cbn.
    apply paired_entry; [done|]. intros c t [= <-]. right. exists value. apply Hm.
  - injection Hx as <- <- <-. eapply state_ok_same; [exact Hs|done|done|conns_kept Hs|]. cbn. intros e [? _]%list_elem_of_In%filter_In. left. by apply list_elem_of_In.
  - injection Hx as <- <- <-. destruct Hs as (Hl & Hw & He & Hr & Hp). split_and!; cbn; [done|done|done| |done].
    intros k r. unfold records. cbn. destruct (decide (key = k)) as [->|Hne]; [rewrite lookup_delete_eq; by intros ?%not_elem_of_nil|].
    rewrite lookup_delete_ne by done. apply Hr.
Qed.

Lemma exec_serve_ok v tr i key tool arguments call s s' next obs :
  exec_serve i key tool arguments call s = (s', next, obs) →
  Forall (obs_ok v tr) obs ∧ Forall (micro_ok v (rev obs ++ tr)) next.
Proof.
  unfold exec_serve. destruct arguments as [args|]; [|intros [= <- <- <-]; by repeat constructor].
  set (conn := default Conn_default (pi_conns s !! key)). set (c := mkCall key tool args call). intros Hx.
  assert (Ob_Routed c conn ∈ rev [Ob_Routed c conn] ++ tr) as Hin by (cbn; set_solver).
  destruct (route (in_now i) conn) as [[|]|t|] eqn:Er; injection Hx as <- <- <-; (split; [by repeat constructor|]); apply Forall_singleton;
    cbn [micro_ok why_ok]; try done.
  - exists conn. split; [done|]. unfold route in Er. repeat case_match; naive_solver.
  - exists conn. split; [done|]. unfold route in Er. repeat case_match; naive_solver.
  - exists conn. split; [done|]. unfold route in Er. repeat case_match; naive_solver.
Qed.

Lemma exec_ok v tr i (m : Micro) s s' next obs :
  ev_clock v = in_now i → (∀ t n, native_of (pi_registry s) t = Some n → ev_named v tr t n) →
  state_ok v tr s → micro_ok v tr m → exec i m s = (s', next, obs) →
  Forall (obs_ok v tr) obs ∧ Forall (micro_ok v (rev obs ++ tr)) next.
Proof.
  intros Hck Hnat Hs Hm Hx. destruct m; cbn [exec] in Hx; try (by eapply exec_serve_ok in Hx); cbn [micro_ok] in Hm.
  all: try (unfold exec_open, exec_opened, exec_record, exec_event, exec_settle in Hx; repeat case_match; injection Hx as <- <- <-;
            split; repeat constructor; assumption || done || (cbn; lia); fail).
  - unfold exec_claim, confirm_find in Hx. destruct (claim_first _ _) as [[e k]|] eqn:E; cbn in Hx; injection Hx as <- <- <-.
    + apply claim_first_spec in E as (Hc & Hin & _). unfold claimable in Hc. bool_hyps.
      destruct Hs as (Hl & _ & He & _). apply He in Hin as [Hin Harr].
      split; [by repeat constructor|]. apply Forall_singleton. cbn. split; [apply (routed_to_mono _ [_]); by subst|].
      split; [|split; [done|]; split; [by apply beq_true|]].
      * destruct e; cbn in *; subst. set_solver.
      * split; [done|]. exists (in_now i). unfold since in *. split; [set_solver|lia].
    + split; [constructor|]. destruct (_ || _); by repeat constructor.
  - injection Hx as <- <- <-. split; [by repeat constructor|]. destruct why; cbn; [by repeat constructor| |by repeat constructor].
    destruct (an_unauthorized _); by repeat constructor.
  - unfold exec_find in Hx. destruct reported as [text|]; [|injection Hx as <- <- <-; by repeat constructor].
    destruct (refusals_find _ _ _ _ _) as [[k r| |] rf] eqn:E.
    + apply refusals_find_spec in E as (Hr & Hm' & Hl & _). destruct Hs as (_ & Hw & _ & Hrec & _). apply Hrec in Hr.
      unfold record_matches in Hm'. bool_hyps. injection Hx as <- <- <-. split; [by repeat constructor|].
      repeat constructor. cbn. exists r, tool, arguments, text, now. split; [set_solver|]. split; [set_solver|].
      split; [done|]. split; [by apply beq_true|]. split; [by apply beq_true|]. split; [done|lia].
    + injection Hx as <- <- <-. by repeat constructor.
    + injection Hx as <- <- <-. by repeat constructor.
  - destruct (native_of _ _) as [n|] eqn:E; injection Hx as <- <- <-; (split; [constructor|]); repeat constructor; [done|by apply Hnat].
  - injection Hx as <- <- <-. split; [constructor|]. repeat constructor. cbn. exists thread. exact Hm.
Qed.

(** The thread had this native id in some state the run had been through when the trace was [tr]. *)
Definition had_native (cfg : PairingConfig) (x : System) (tr : list Obs) (t : Z) (n : list Z) : Prop :=
  ∃ y more, reachable cfg y ∧ rtc step y x ∧ tr = more ++ sy_trace y ∧ native_of (pi_registry (sy_state y)) t = Some n.

Definition env_of (cfg : PairingConfig) (x : System) : Env :=
  let cfg' := bounded_config cfg in mkEnv (pc_confirm_life cfg') (pc_window cfg') (sy_clock x) (had_native cfg x).

Lemma env_step cfg x y : step x y → sy_clock x ≤ sy_clock y → env_le (env_of cfg x) (env_of cfg y).
Proof.
  intros Hs Hc. split_and!; [done|done|done|]. intros tr new t n (z & more & Hz & Hr & -> & Hn). exists z, (new ++ more).
  split_and!; [done|by eapply rtc_r|by rewrite app_assoc|done].
Qed.

(** The invariant of all runs, on traces newest first. *)
Definition justified (cfg : PairingConfig) (x : System) : Prop :=
  let v := env_of cfg x in
  (∀ post o pre, sy_trace x = post ++ o :: pre → obs_ok v pre o) ∧
  Forall (Forall (micro_ok v (sy_trace x))) (sy_pool x) ∧
  state_ok v (sy_trace x) (sy_state x).

Lemma snoc_justified (P : list Obs → Obs → Prop) new tr :
  (∀ pre more o, P pre o → P (more ++ pre) o) → Forall (P tr) new →
  (∀ post o pre, tr = post ++ o :: pre → P pre o) → ∀ post o pre, rev new ++ tr = post ++ o :: pre → P pre o.
Proof.
  intros Hmono Hnew Htr. induction new as [|a new IH] using rev_ind; [done|].
  apply Forall_app in Hnew as [Hnew [Ha _]%Forall_cons]. rewrite rev_app_distr. cbn.
  intros [|b post] o pre [=-> Heq]; [by subst; apply Hmono|by eapply IH].
Qed.

(** A later state is as justified, with more shown. *)
Lemma justified_later cfg x y new :
  env_le (env_of cfg x) (env_of cfg y) → justified cfg x →
  (∀ post o pre, sy_trace x = post ++ o :: pre → obs_ok (env_of cfg y) pre o) ∧
  Forall (Forall (micro_ok (env_of cfg y) (new ++ sy_trace x))) (sy_pool x) ∧
  state_ok (env_of cfg y) (new ++ sy_trace x) (sy_state x).
Proof.
  intros Hle (Ho & Hm & Hs). split_and!.
  - intros post o pre Heq. apply (obs_ok_mono _ _ pre [] o Hle). by eapply Ho.
  - eapply Forall_impl; [exact Hm|]. intros p Hp. eapply Forall_impl; [exact Hp|]. intros m. by apply micro_ok_mono.
  - by eapply state_ok_mono.
Qed.

Lemma run_justified cfg x : reachable cfg x → justified cfg x.
Proof.
  induction 1 as [t reg|x y Hreach Hj Hstep].
  - split_and!; [by intros [|] ? ?|constructor|]. unfold state_ok. cbn. split_and!; [done|done|by intros e ?%not_elem_of_nil| |].
    + intros k r. unfold records. cbn. rewrite lookup_empty. by intros ?%not_elem_of_nil.
    + intros k c t'. by rewrite lookup_empty.
  - assert (env_le (env_of cfg x) (env_of cfg y)) as Hle by (apply env_step; [done|]; destruct Hstep; cbn; lia).
    pose proof Hj as (Ho & Hm & Hs). pose proof (justified_later cfg x y [] Hle Hj) as (Ho1 & Hm1 & Hs1). pose proof Hreach as Hreach'.
    destruct Hstep as [m t s pool tr He|i n m k t s s' next obs pool tr Hi Hn Hex|t' t s pool tr Ht|reg t s pool tr];
      unfold justified; cbn [sy_state sy_pool sy_trace sy_clock app] in *.
    + split_and!; [done| |done]. apply Forall_app. split; [done|]. apply Forall_singleton, Forall_singleton. by destruct m.
    + pose proof (Forall_lookup_1 _ _ _ _ Hm1 Hn) as Hk. apply Forall_cons in Hk as [Hmi Hk]. set (v := env_of cfg (mkSystem t s' _ _)) in *.
      assert (∀ tr new t n, ev_named v tr t n → ev_named v (new ++ tr) t n) as Hnm.
      { intros tr0 new t0 n0 (z & more & ? & ? & -> & ?). exists z, (new ++ more). by rewrite app_assoc. }
      destruct (exec_ok v tr i m s s' next obs) as [Hobs Hnext]; [done| |done|done|done|].
      { intros t0 n0 Hn0. exists (mkSystem t s pool tr), []. split_and!; [done|apply rtc_once; by econstructor|done|done]. }
      split; [apply (snoc_justified (obs_ok v)); [intros; apply (obs_ok_mono v); [by apply env_le_refl|done]|done|exact Ho1]|].
      split; [|eapply exec_state_ok; [|exact Hmi|exact Hs1|exact Hex]; done].
      apply Forall_insert; [|apply Forall_app; split; [done|]; eapply Forall_impl; [exact Hk|intros; apply (micro_ok_mono v); [by apply env_le_refl|done]]].
      eapply Forall_impl; [exact Hm1|]. intros p Hp. eapply Forall_impl; [exact Hp|intros; apply (micro_ok_mono v); [by apply env_le_refl|done]].
    + by split_and!.
    + split_and!; [done|done|]. destruct Hs1 as (? & ? & ? & ? & ?). by split_and!.
Qed.

(** *** Repeated reports *)

Definition item_key (e : Confirmation) : Z * list Z := (cn_thread e, cn_item e).

Lemma same_item_true t item e : same_item t item e = true ↔ item_key e = (t, item).
Proof. unfold same_item, item_key. rewrite andb_true_iff, Z.eqb_eq, beq_true. naive_solver. Qed.

Lemma NoDup_filter_keys f l : NoDup (map item_key l) → NoDup (map item_key (List.filter f l)).
Proof.
  induction l as [|e l IH]; cbn; [done|]. intros [Hn Hl]%NoDup_cons. destruct (f e); [|by apply IH]. cbn. apply NoDup_cons. split; [|by apply IH].
  intros (x & Hk & Hx)%list_elem_of_fmap. apply Hn. rewrite Hk. apply list_elem_of_In, filter_In in Hx as [Hx _]. by apply list_elem_of_fmap_2, list_elem_of_In.
Qed.

Lemma claim_first_keys f l x k : claim_first f l = Some (x, k) → map item_key k = map item_key l.
Proof.
  revert k. induction l as [|y l IH]; intros k Hc; cbn [claim_first] in Hc; [done|]. destruct (f y).
  - by injection Hc as -> <-.
  - destruct (claim_first f l) as [[z k']|]; [|done]. injection Hc as -> <-. cbn. by rewrite (IH k').
Qed.

Lemma confirm_started_keys life e now c :
  NoDup (map item_key (cs_entries c)) → NoDup (map item_key (cs_entries (confirm_started life e now c))).
Proof.
  intros Hn. unfold confirm_started. pose proof (NoDup_filter_keys (λ x, confirm_live life x now) _ Hn) as Hf.
  set (l := List.filter _ _) in *. destruct (existsb _ l) eqn:Ex; [done|]. cbn [cs_entries].
  assert (item_key e ∉ map item_key l) as Hnew.
  { intros (x & Hk & Hx)%list_elem_of_fmap. assert (existsb (same_item (cn_thread e) (cn_item e)) l = true) as Ht; [|congruence].
    apply existsb_exists. exists x. split; [by apply list_elem_of_In|]. by apply same_item_true. }
  rewrite map_app. apply NoDup_app. split_and!; [| |apply NoDup_singleton].
  - destruct (_ <=? _)%nat; [|done]. rewrite <-(take_drop 1 l), map_app in Hf. by apply NoDup_app in Hf as (_ & _ & ?).
  - intros k Hk ->%list_elem_of_singleton. apply Hnew. destruct (_ <=? _)%nat; [|done].
    rewrite <-(take_drop 1 l), map_app. apply elem_of_app. by right.
Qed.

(** What ends a confirmation: the item's completion, its turn's, its age when a report comes, or a
    report that finds [MAX_CONFIRMATIONS] live ones. *)
Definition confirmation_over (s : Pairing) (m : Micro) (e : Confirmation) : Prop :=
  m = Mi_Done (cn_thread e) (cn_item e) ∨
  (∃ status now, m = Mi_On (Ev_TurnCompleted (cn_thread e) (cn_turn e) status) now) ∨
  ∃ thread turn item kind call now, m = Mi_On (Ev_ItemStarted thread turn item kind (Some call)) now ∧
    (pc_confirm_life (pi_cfg s) ≤ since now (cn_arrived e) ∨
     (MAX_CONFIRMATIONS ≤ length (List.filter (λ x, confirm_live (pc_confirm_life (pi_cfg s)) x now) (cs_entries (pi_confirmations s))))%nat).

Lemma claim_first_claimed f l x k e : claim_first f l = Some (x, k) → f e = false → e ∈ l → e ∈ k.
Proof.
  revert k. induction l as [|y l IH]; intros k Hc Hf He; cbn [claim_first] in Hc; [done|]. destruct (f y) eqn:E.
  - injection Hc as -> <-. apply elem_of_cons in He as [->|He]; [congruence|]. by right.
  - destruct (claim_first f l) as [[z k']|]; [|done]. injection Hc as -> <-. apply elem_of_cons in He as [->|He]; [by left|right]. by apply IH.
Qed.

Lemma elem_of_filtered {A} (f : A → bool) l x : x ∈ l → f x = true → x ∈ List.filter f l.
Proof. rewrite !list_elem_of_In, filter_In. tauto. Qed.

(** One micro-step: items stay distinct, and what is claimed stays so until it is over. *)
Lemma exec_claimed i (m : Micro) s s' next obs :
  exec i m s = (s', next, obs) →
  (NoDup (map item_key (cs_entries (pi_confirmations s))) → NoDup (map item_key (cs_entries (pi_confirmations s')))) ∧
  ∀ e, e ∈ cs_entries (pi_confirmations s) → cn_claimed e = true → e ∈ cs_entries (pi_confirmations s') ∨ confirmation_over s m e.
Proof.
  intros Hx. destruct m; cbn [exec] in Hx.
  all: try (unfold exec_serve, exec_open, exec_opened, exec_record, exec_find, exec_settle in Hx; repeat case_match; injection Hx as <- <- <-;
            (split; [done|by left]); fail).
  - unfold exec_claim, confirm_find in Hx. destruct (claim_first _ _) as [[x k]|] eqn:E; cbn in Hx; injection Hx as <- <- <-; [|split; [done|by left]].
    split; cbn; [by rewrite (claim_first_keys _ _ _ _ E)|]. intros e He Hc. left. eapply claim_first_claimed; [exact E| |done].
    unfold claimable. by rewrite Hc, andb_false_r.
  - unfold exec_event, other_server in Hx. repeat case_match; injection Hx as <- <- <-; try (split; [done|by left]).
    + split; cbn; [apply NoDup_filter_keys|]. intros y He Hc. destruct ((cn_thread y =? thread) && beq (cn_turn y) turn) eqn:Ek.
      * right. right. left. apply andb_true_iff in Ek as [Ht%Z.eqb_eq Hu%beq_true]. subst. by do 2 eexists.
      * left. apply elem_of_filtered; [done|]. by rewrite Ek.
    + split; cbn [pi_confirmations update]; [apply confirm_started_keys|]. intros y He Hc. unfold confirm_started.
      set (l := List.filter _ _). destruct (confirm_live (pc_confirm_life (pi_cfg s)) y now) eqn:El.
      * assert (y ∈ l) as Hel by (by apply elem_of_filtered). destruct (existsb _ l); [by left|]. cbn [cs_entries].
        destruct (MAX_CONFIRMATIONS <=? length l)%nat eqn:Ecap; [|left; apply elem_of_app; by left]. apply Nat.leb_le in Ecap.
        right. right. right. do 6 eexists. split; [done|]. by right.
      * right. right. right. do 6 eexists. split; [done|left]. unfold confirm_live in El. lia.
  - injection Hx as <- <- <-. split; cbn; [apply NoDup_filter_keys|]. intros e He Hc. destruct (same_item thread id e) eqn:Ek.
    + right. left. apply same_item_true in Ek. by injection Ek as -> ->.
    + left. apply elem_of_filtered; [done|]. by rewrite Ek.
Qed.

Lemma run_items_distinct cfg (x : System) : reachable cfg x → NoDup (map item_key (cs_entries (pi_confirmations (sy_state x)))).
Proof.
  induction 1 as [t reg|x y _ IH Hstep]; [constructor|]. destruct Hstep; cbn in *; [done| |done|done].
  by eapply exec_claimed.
Qed.

(** How often a trace shows a start, a request on it, a record of a value and its reveal. *)
Definition starts_of (e : Confirmation) (tr : list Obs) : Z := total (λ o, match o with Ob_Started x => one e x | _ => 0 end) tr.
Definition requests_on (e : Confirmation) (tr : list Obs) : Z :=
  total (λ o, match o with Ob_Request _ (Pa_Confirmed x) => one e x | _ => 0 end) tr.
Definition records_of (key : K) (value : list Z) (tr : list Obs) : Z :=
  total (λ o, match o with Ob_Recorded k r => pair_one key k value (rd_value r) | _ => 0 end) tr.
Definition reveals_of (key : K) (value : list Z) (tr : list Obs) : Z :=
  total (λ o, match o with Ob_Reveal k _ v => pair_one key k value v | _ => 0 end) tr.

Lemma total_sub {A} (u v w : A → Z) l : (∀ a, u a = v a - w a) → total u l = total v l - total w l.
Proof. intros Hu. induction l as [|a l IH]; [done|]. rewrite !total_cons, IH, Hu. lia. Qed.

(** [C13] A call on a paired connection reaches the core only on a live confirmation of its own,
    in every interleaving of calls, carrier events, bindings and ticks of the clock.  Whenever the
    module passes a call to the core, one of three holds: Codex reported, for the thread the
    connection was paired with when the call came, a call of the same tool with matching arguments,
    and the call claimed that report at a reading of the clock at which it had come, less than the
    confirmation life before (at most 600 s); or the connection was reported unconfirmed to the
    core first; or it needed no confirmation when the call came, being stopped or neither bound nor
    paired.  And one report serves one call, also when it is repeated: no report is the ground of
    more requests than it was received; a repeat adds nothing while the confirmation of its item
    is kept; and a claimed confirmation is kept, claimed, until it is over: its item or its turn
    completed, its life passed, or 1024 live ones were there when another report came. *)
Theorem confirmed_requests cfg x :
  reachable cfg x →
  (∀ post c why pre, sy_trace x = post ++ Ob_Request c why :: pre → why_ok (pc_confirm_life (bounded_config cfg)) pre c why) ∧
  (∀ e, cn_claimed e = false → requests_on e (sy_trace x) ≤ starts_of e (sy_trace x)) ∧
  NoDup (map item_key (cs_entries (pi_confirmations (sy_state x)))) ∧
  (∀ i m s' next obs, exec i m (sy_state x) = (s', next, obs) →
    ∀ e, e ∈ cs_entries (pi_confirmations (sy_state x)) → cn_claimed e = true →
      e ∈ cs_entries (pi_confirmations s') ∨ confirmation_over (sy_state x) m e) ∧
  pc_confirm_life (bounded_config cfg) ≤ CONFIRM_LIFE.
Proof.
  intros Hr. split_and!.
  - intros post c why pre Heq. exact (proj1 (run_justified cfg x Hr) _ _ _ Heq).
  - intros e He. pose proof (confirm_balance cfg x e He Hr) as Hb.
    rewrite (total_sub _ (λ o, match o with Ob_Request _ (Pa_Confirmed x) => one e x | _ => 0 end)
      (λ o, match o with Ob_Started x => one e x | _ => 0 end)) in Hb by (intros []; cbn; try lia; case_match; lia).
    assert (0 ≤ total (total (request_weight e)) (sy_pool x)) by (apply total_weights_nonneg; intros p; apply total_weights_nonneg; intros []; cbn; try done; case_match; apply one_nonneg || done).
    assert (0 ≤ entry_weight e (sy_state x)) by (apply total_weights_nonneg, one_nonneg). unfold requests_on, starts_of. lia.
  - by eapply run_items_distinct.
  - intros i m s' next obs Hx. by eapply exec_claimed.
  - cbn. lia.
Qed.

(** [C14] A reveal names the connection it belongs to and the thread Codex named.  Each reveal the
    core is given, a connection, a native thread id and a value, is of a value that a refusal on
    that very connection carried; Codex reported, for a thread which had that native id at a state
    the run had been through, the same tool, matching arguments and exactly the text of that
    refusal, within the pairing window of the refusal (at most 60 s).  A connection is only ever
    paired with a thread for which that holds.  And one refused call is revealed at most once. *)
Theorem reveals_genuine cfg x :
  reachable cfg x →
  (∀ post key native value pre, sy_trace x = post ++ Ob_Reveal key native value :: pre →
    ∃ thread, revealed (pc_window (bounded_config cfg)) pre key thread value ∧ had_native cfg x pre thread native) ∧
  (∀ key c thread, pi_conns (sy_state x) !! key = Some c → co_thread c = Some thread →
    ∃ value, revealed (pc_window (bounded_config cfg)) (sy_trace x) key thread value) ∧
  (∀ key value, reveals_of key value (sy_trace x) ≤ records_of key value (sy_trace x)) ∧
  pc_window (bounded_config cfg) ≤ MAX_PAIRING_WINDOW.
Proof.
  intros Hr. pose proof (run_justified cfg x Hr) as (Ho & _ & _ & _ & _ & _ & Hp). split_and!.
  - intros post key native value pre Heq. exact (Ho _ _ _ Heq).
  - exact Hp.
  - intros key value. pose proof (reveal_balance cfg x key value Hr) as Hb.
    rewrite (total_sub _ (λ o, match o with Ob_Reveal k _ v => pair_one key k value v | _ => 0 end)
      (λ o, match o with Ob_Recorded k r => pair_one key k value (rd_value r) | _ => 0 end)) in Hb by (intros []; cbn; lia).
    assert (0 ≤ total (total (reveal_weight key value)) (sy_pool x)) by (apply total_weights_nonneg; intros p; apply total_weights_nonneg; intros []; cbn; done || apply pair_one_nonneg).
    assert (0 ≤ records_weight key value (sy_state x)) by (apply total_weights_nonneg, of_value_nonneg). unfold reveals_of, records_of. lia.
  - cbn. lia.
Qed.

(** *** The stop *)

(** The micro-steps that lift a connection's stop: a reveal for it, its unbinding and its end. *)
Definition lifts (key : K) (m : Micro) : bool :=
  match m with
  | Mi_SetThread k _ _ _ | Mi_Unpair k | Mi_Closed k => bool_decide (k = key)
  | _ => false
  end.

Definition stopped (key : K) (s : Pairing) : bool := match pi_conns s !! key with Some c => co_stopped c | None => false end.

Lemma alter_stopped (f : Conn → Conn) key k s :
  (∀ c, co_stopped c = true → co_stopped (f c) = true) → stopped key s = true → stopped key (get_mut_conn k f s) = true.
Proof.
  unfold stopped. cbn. intros Hf Hs. destruct (decide (k = key)) as [->|Hne]; [rewrite lookup_alter_eq|by rewrite lookup_alter_ne].
  destruct (pi_conns s !! key) as [c|]; [by apply Hf|done].
Qed.

Lemma entry_stopped (f : Conn → Conn) key k s :
  (k = key → ∀ c, co_stopped c = true → co_stopped (f c) = true) → stopped key s = true → stopped key (entry_conn k f s) = true.
Proof.
  unfold stopped. cbn. intros Hf Hs. destruct (decide (k = key)) as [->|Hne]; [rewrite lookup_insert_eq|by rewrite lookup_insert_ne].
  destruct (pi_conns s !! key) as [c|]; [by apply Hf|done].
Qed.

(** [C15] Once a call of a connection could not be confirmed, or the content reported for a served
    call was not the content returned, the connection stays stopped through every micro-step of
    every program until a reveal for it, its unbinding or its end; and a call that comes while it
    is stopped asks for no confirmation, so the core, which was told, decides on it alone. *)
Theorem stop_holds key i (m : Micro) s s' next obs :
  exec i m s = (s', next, obs) →
  (stopped key s = true → lifts key m = false → stopped key s' = true) ∧
  (∀ c, (m = Mi_Stop c ∧ ca_key c = key ∨ m = Mi_Mismatch key) → is_Some (pi_conns s !! key) → stopped key s' = true) ∧
  (stopped key s = true → ∀ tool arguments call, m = Mi_Serve key tool arguments call →
    Forall (λ n, match n with Mi_Claim _ _ => False | _ => True end) next).
Proof.
  intros Hx. split; [|split].
  - intros Hs Hl. destruct m; cbn [exec] in Hx; cbn [lifts] in Hl.
    all: try (unfold exec_serve, exec_open, exec_opened, exec_claim, exec_record, exec_event, exec_find, exec_settle, other_server in Hx;
              repeat case_match; injection Hx as <- <- <-; first [exact Hs | by apply entry_stopped | by apply (alter_stopped _ _ _ s)]; fail).
    + injection Hx as <- <- <-. bool_hyps. unfold stopped in *. cbn. by rewrite lookup_alter_ne.
    + injection Hx as <- <- <-. bool_hyps. by apply entry_stopped.
    + injection Hx as <- <- <-. bool_hyps. unfold stopped in *. cbn. by rewrite lookup_delete_ne.
  - intros c [[-> <-]| ->] [conn Hc]; cbn [exec] in Hx; injection Hx as <- <- <-; unfold stopped; cbn; by rewrite lookup_alter_eq, Hc.
  - intros Hs tool arguments call ->. cbn [exec] in Hx. unfold exec_serve in Hx.
    destruct arguments as [args|]; [|injection Hx as <- <- <-; constructor]. unfold stopped in Hs.
    destruct (pi_conns s !! key) as [c|]; [|done]. cbn [default from_option id] in Hx. unfold route in Hx. rewrite Hs in Hx.
    repeat case_match; injection Hx as <- <- <-; by repeat constructor.
Qed.

(** *** The wait *)

(** A call that waits takes its confirmation as soon as there is one, and waits for nothing
    else: one round of the wait passes the call to the core on the oldest live unclaimed report
    of its thread, tool and arguments if there is one, and that report is then claimed; and it
    leaves the wait for the refusal, marking the connection stopped, exactly when there is none
    and the wait is over or the module was shut down. *)
Theorem wait_round i (c : Call) thread (s s' : Pairing) (next : list Micro) (obs : list Obs) :
  exec i (Mi_Claim c thread) s = (s', next, obs) →
  let life := pc_confirm_life (pi_cfg s) in
  let fits := claimable life thread (ca_tool c) (ca_args c) (in_now i) in
  match find fits (cs_entries (pi_confirmations s)) with
  | Some e => next = [Mi_Request c (Pa_Confirmed e)] ∧
      (∃ l1 l2, cs_entries (pi_confirmations s) = l1 ++ e :: l2 ∧ cs_entries (pi_confirmations s') = l1 ++ claim_of e :: l2)
  | None => cs_entries (pi_confirmations s') = cs_entries (pi_confirmations s) ∧
      next = if cs_closed (pi_confirmations s) || in_over i then [Mi_Stop c] else [Mi_Claim c thread]
  end.
Proof.
  cbn [exec]. unfold exec_claim, confirm_find. intros Hx. cbn zeta.
  set (f := claimable _ _ _ _ _) in *. clearbody f.
  assert (match claim_first f (cs_entries (pi_confirmations s)) with
    | Some (e, k) => find f (cs_entries (pi_confirmations s)) = Some e ∧ ∃ l1 l2, cs_entries (pi_confirmations s) = l1 ++ e :: l2 ∧ k = l1 ++ claim_of e :: l2
    | None => find f (cs_entries (pi_confirmations s)) = None end) as Hf.
  { generalize (cs_entries (pi_confirmations s)). intros l. induction l as [|e l IH]; [done|]. cbn [claim_first find].
    destruct (f e); [split; [done|]; by exists [], l|]. destruct (claim_first f l) as [[x k]|]; [|done]. cbn [mbind option_bind].
    destruct IH as (Hx' & l1 & l2 & -> & ->). split; [done|]. by exists (e :: l1), l2. }
  destruct (claim_first f (cs_entries (pi_confirmations s))) as [[e k]|]; cbn [mbind option_bind] in Hx; injection Hx as <- <- <-.
  - destruct Hf as (-> & l1 & l2 & Hl & ->). split; [done|]. by exists l1, l2.
  - by rewrite Hf.
Qed.

End Runs.

(** ** Memory *)

Section Memory.
Context `{MapOrder} {K : Type} `{Countable K} {Value Map : Type} `{McpJson Value Map}.
Abbreviation Micro := (Micro (K := K) (Value := Value)).
Abbreviation Pairing := (Pairing (K := K)).

(** The order of a bounded map lists its keys once. *)
Definition bounded_ok {V} (b : Bounded V) : Prop :=
  NoDup (bd_order b) ∧ (∀ k, k ∈ bd_order b ↔ is_Some (bd_map b !! k)) ∧ (length (bd_order b) ≤ bd_cap b)%nat.

Lemma bounded_size {V} (b : Bounded V) : bounded_ok b → (size (bd_map b) ≤ bd_cap b)%nat.
Proof.
  intros (Hn & Hk & Hl). etrans; [|exact Hl]. rewrite <-size_dom, <-(size_list_to_set (C := gset (Z * list Z))) by done.
  apply subseteq_size. intros k Hd%elem_of_dom. rewrite elem_of_list_to_set. by apply Hk.
Qed.

Lemma bounded_insert_ok {V} k (v : V) b : bounded_ok b → bounded_ok (bounded_insert k v b) ∧ bd_cap (bounded_insert k v b) = bd_cap b.
Proof.
  intros (Hn & Hk & Hl). unfold bounded_insert. destruct (bd_map b !! k) as [w|] eqn:E; cbn [is_some].
  - split; [|done]. split; [done|]. split; [|done]. intros x. cbn. rewrite Hk, lookup_insert_is_Some. split; [|naive_solver].
    intros Hx. destruct (decide (k = x)); [by left|by right].
  - assert (k ∉ bd_order b) as Hf by (rewrite Hk, E; by intros []).
    assert (NoDup (bd_order b ++ [k])) as Hn' by (apply NoDup_app; split; [done|]; split; [set_solver|apply NoDup_singleton]).
    assert (∀ x, x ∈ bd_order b ++ [k] ↔ is_Some (<[k:=v]> (bd_map b) !! x)) as Hk'.
    { intros x. rewrite elem_of_app, Hk, list_elem_of_singleton, lookup_insert_is_Some. destruct (decide (k = x)); naive_solver. }
    cbn [bounded_trim]. rewrite length_app. cbn [length]. destruct (Nat.ltb_spec (bd_cap b) (length (bd_order b) + 1)) as [Hc|Hc].
    + destruct (bd_order b ++ [k]) as [|old order] eqn:Eo; [by destruct (bd_order b)|].
      assert (length (old :: order) = length (bd_order b) + 1)%nat as Hlen by (rewrite <-Eo, length_app; done). cbn [length] in Hlen.
      destruct (bounded_trim (length (bd_order b)) (bd_cap b) order (delete old (<[k:=v]> (bd_map b)))) as [o m] eqn:Et.
      assert (o = order ∧ m = delete old (<[k:=v]> (bd_map b))) as [-> ->].
      { destruct (length (bd_order b)) as [|n]; cbn [bounded_trim] in Et; [by injection Et|].
        destruct (Nat.ltb_spec (bd_cap b) (length order)); [lia|by injection Et]. }
      apply NoDup_cons in Hn' as [Ho Hn']. split; [|done]. split; [done|]. split; [|cbn; lia]. intros x. cbn. split.
      * intros Hx. assert (old ≠ x) by (by intros ->). rewrite lookup_delete_ne by done. apply Hk'. set_solver.
      * intros [u [Hne Hu]%lookup_delete_Some]. assert (x ∈ old :: order) as Hx by (apply Hk'; by eexists). set_solver.
    + split; [|done]. split; [done|]. split; [exact Hk'|]. cbn. rewrite length_app. cbn. lia.
Qed.

Lemma bounded_remove_ok {V} k (b : Bounded V) : bounded_ok b → bounded_ok (bounded_remove k b).2 ∧ bd_cap (bounded_remove k b).2 = bd_cap b.
Proof.
  intros (Hn & Hk & Hl). unfold bounded_remove. destruct (bd_map b !! k) as [v|] eqn:E; cbn; [|by split_and!].
  split; [|done]. split; [by apply NoDup_ListNoDup, List.NoDup_filter, NoDup_ListNoDup|]. split.
  - intros x. cbn. rewrite list_elem_of_In, filter_In, <-list_elem_of_In, Hk, lookup_delete_is_Some, negb_true_iff, bool_decide_eq_false. naive_solver.
  - cbn. etrans; [apply List.filter_length_le|done].
Qed.

(** The sizes of everything the module keeps. *)
Definition state_bounded (s : Pairing) : Prop :=
  (length (cs_entries (pi_confirmations s)) ≤ 1024)%nat ∧ (bounded_ok (pi_claims s) ∧ bd_cap (pi_claims s) = 1024%nat) ∧
  (size (rf_by_key (pi_refusals s)) ≤ 64)%nat ∧ (∀ k, length (records (pi_refusals s) k) ≤ 16)%nat ∧ (size (pi_others s) ≤ 16)%nat.

Lemma filter_len {A} (f : A → bool) l : (length (List.filter f l) ≤ length l)%nat.
Proof. apply List.filter_length_le. Qed.

Lemma confirm_started_len life e now c :
  (length (cs_entries c) ≤ 1024)%nat → (length (cs_entries (confirm_started life e now c)) ≤ 1024)%nat.
Proof.
  intros Hl. unfold confirm_started. pose proof (filter_len (λ x, confirm_live life x now) (cs_entries c)) as Hf.
  destruct (existsb _ _); cbn [cs_entries]; [lia|]. rewrite length_app. cbn [length].
  change MAX_CONFIRMATIONS with 1024%nat. destruct (Nat.leb_spec 1024 (length (List.filter (λ x, confirm_live life x now) (cs_entries c)))); [rewrite length_drop|]; lia.
Qed.

Lemma claim_first_len f l x k : claim_first f l = Some (x, k) → length k = length l.
Proof.
  revert k. induction l as [|y l IH]; intros k Hc; cbn [claim_first] in Hc; [done|]. destruct (f y).
  - by injection Hc as -> <-.
  - destruct (claim_first f l) as [[z k']|]; [|done]. injection Hc as -> <-. cbn [length]. f_equal. by apply IH.
Qed.

Lemma oldest_in (l : list (K * list RefusalRecord)) : l ≠ [] → ∃ k q, oldest_connection l = Some k ∧ (k, q) ∈ l.
Proof.
  unfold oldest_connection. set (f := λ acc x, _). intros Hl.
  assert (∀ l acc, (∀ y, acc = Some y → y ∈ l ∨ True) → (acc ≠ None ∨ l ≠ []) →
    ∃ y, foldl f acc l = Some y ∧ (y ∈ l ∨ acc = Some y)) as Hg.
  { clear. induction l as [|x l IH]; intros acc _ Hn; cbn [foldl].
    - destruct acc as [y|]; [eauto|]. by destruct Hn.
    - destruct (IH (f acc x)) as (y & Hy & Hin); [by right|left; destruct acc; cbn; [by case_match|done]|].
      exists y. split; [done|]. destruct Hin as [?|Hf]; [left; set_solver|]. destruct acc as [b|]; cbn in Hf; [|left; injection Hf as <-; set_solver].
      destruct (at_lt _ _); injection Hf as <-; [left; set_solver|by right]. }
  destruct (Hg l None) as ([k q] & Hy & Hin); [done|by right|]. exists k, q. split; [by rewrite Hy|]. by destruct Hin.
Qed.

Lemma refusals_record_bounded key r (s : Refusals K) :
  (size (rf_by_key s) ≤ 64)%nat → (∀ k, length (records s k) ≤ 16)%nat →
  (size (rf_by_key (refusals_record key r s)) ≤ 64)%nat ∧ (∀ k, length (records (refusals_record key r s) k) ≤ 16)%nat.
Proof.
  intros Hs Hr. unfold refusals_record, records. cbn [rf_by_key]. change MAX_CONNECTIONS with 64%nat. change MAX_RECORDS with 16%nat.
  set (by_key := if _ && _ then _ else _). split.
  - destruct (rf_by_key s !! key) as [q|] eqn:E.
    + assert (by_key = rf_by_key s) as -> by done. rewrite map_size_insert, E. cbn. lia.
    + unfold by_key. cbn [is_some negb andb]. destruct (Nat.leb_spec 64 (size (rf_by_key s))).
      * destruct (oldest_in (map_items (rf_by_key s))) as (old & q & -> & Hin%elem_of_map_items).
        { intros Hnil. assert (rf_by_key s = ∅) as He; [|rewrite He, map_size_empty in *; lia].
          apply map_to_list_empty_iff, Permutation_nil. rewrite <-map_items_perm, Hnil. done. }
        rewrite map_size_insert, lookup_delete_ne by congruence. rewrite E, map_size_delete, Hin. lia.
      * rewrite map_size_insert, E. lia.
  - assert (∀ k, length (default [] (by_key !! k)) ≤ 16)%nat as Hb.
    { intros k. unfold by_key. destruct (_ && _); [|apply Hr]. destruct (oldest_connection _) as [old|]; [|apply Hr].
      destruct (decide (old = k)) as [->|Hne]; [rewrite lookup_delete_eq; cbn; lia|rewrite lookup_delete_ne by done; apply Hr]. }
    intros k. destruct (decide (key = k)) as [->|Hne]; [rewrite lookup_insert_eq|rewrite lookup_insert_ne by done; apply Hb].
    match goal with |- context [default [] (Some ?q)] => change (default [] (Some q)) with q end. rewrite length_drop. lia.
Qed.

Lemma refusals_find_bounded tool arguments text now (s : Refusals K) f s' :
  refusals_find tool arguments text now s = (f, s') →
  (size (rf_by_key s) ≤ 64)%nat → (∀ k, length (records s k) ≤ 16)%nat →
  (size (rf_by_key s') ≤ 64)%nat ∧ (∀ k, length (records s' k) ≤ 16)%nat.
Proof.
  intros Hf Hs Hr. unfold refusals_find in Hf. destruct (find_live _ _) as [[k [r q']]|] eqn:E; injection Hf as <- <-; [|done].
  apply find_live_spec in E as (q & Hq%elem_of_map_items & Ht). apply take_first_spec in Ht as (_ & _ & _ & Hw).
  specialize (Hw (λ _, 1)). assert (∀ l : list RefusalRecord, total (λ _, 1) l = Z.of_nat (length l)) as Ht
    by (intros l; induction l as [|? ? IH]; [done|]; rewrite total_cons, IH; cbn; lia). rewrite !Ht in Hw.
  split; [cbn; rewrite map_size_insert, Hq; cbn; lia|]. intros k'. unfold records. cbn. destruct (decide (k = k')) as [->|Hne].
  - rewrite lookup_insert_eq. cbn. specialize (Hr k'). unfold records in Hr. rewrite Hq in Hr. cbn in Hr. lia.
  - rewrite lookup_insert_ne by done. apply Hr.
Qed.

(** A step that leaves the records, the claims and the names alone and does not add reports. *)
Lemma bounded_same (s s' : Pairing) :
  state_bounded s → pi_claims s' = pi_claims s → pi_refusals s' = pi_refusals s → pi_others s' = pi_others s →
  (length (cs_entries (pi_confirmations s')) ≤ length (cs_entries (pi_confirmations s)))%nat → state_bounded s'.
Proof. intros (? & ? & ? & ? & ?) Hc Hr Ho Hl. unfold state_bounded. rewrite Hc, Hr, Ho. split_and!; auto; lia || naive_solver. Qed.

Lemma other_server_bounded server counted (s : Pairing) : state_bounded s → state_bounded (other_server server counted s).
Proof.
  intros Hs. assert (state_bounded (if counted then count Ct_other_server s else s)) as Hs' by (by destruct counted).
  unfold other_server. set (u := if counted then _ else _) in *. clearbody u.
  change MAX_LOGGED_OTHER_SERVERS with 16%nat. destruct (Nat.ltb_spec (size (pi_others u)) 16); [|done].
  destruct Hs' as (? & ? & ? & ? & ?). split_and!; cbn; auto; [naive_solver..|]. rewrite size_union_alt, size_singleton.
  pose proof (subseteq_size (pi_others u ∖ {[server]}) (pi_others u) ltac:(set_solver)). lia.
Qed.

Ltac bounded_kept Hs := apply (bounded_same _ _ Hs); [done..|cbn; lia].

Lemma exec_bounded i (m : Micro) (s s' : Pairing) next obs : exec i m s = (s', next, obs) → state_bounded s → state_bounded s'.
Proof.
  intros Hx Hs. destruct m; cbn [exec] in Hx.
  all: try (unfold exec_serve, exec_open, exec_opened in Hx; repeat case_match; injection Hx as <- <- <-; bounded_kept Hs; fail).
  - unfold exec_claim, confirm_find in Hx. destruct (claim_first _ _) as [[x k]|] eqn:E; cbn in Hx; injection Hx as <- <- <-;
      [|bounded_kept Hs]. apply claim_first_len in E. apply (bounded_same _ _ Hs); [done..|cbn; lia].
  - injection Hx as <- <- <-. destruct Hs as (? & [Hb Hc] & ? & ? & ?). split_and!; cbn; auto.
    + by apply bounded_insert_ok.
    + rewrite (proj2 (bounded_insert_ok _ _ _ Hb)). done.
  - unfold exec_record in Hx. repeat case_match; injection Hx as <- <- <-; try (bounded_kept Hs).
    destruct Hs as (? & ? & Hz & Hr & ?). destruct (refusals_record_bounded (ca_key c)
      (mkRefusal (ca_tool c) (ca_args c) l0 l (default (in_now i) now)) (pi_refusals s) Hz Hr). split_and!; auto; naive_solver.
  - unfold exec_event in Hx. repeat case_match; injection Hx as <- <- <-; try (bounded_kept Hs); try (by apply other_server_bounded).
    + apply (bounded_same _ _ Hs); [done..|cbn; apply filter_len].
    + destruct Hs as (? & ? & ? & ? & ?). split_and!; auto; [by apply confirm_started_len|naive_solver..].
  - unfold exec_find in Hx. destruct reported as [text|]; [|injection Hx as <- <- <-; bounded_kept Hs].
    destruct (refusals_find _ _ _ _ _) as [f rf] eqn:E. destruct Hs as (? & ? & Hz & Hr & ?).
    destruct (refusals_find_bounded _ _ _ _ _ _ _ E Hz Hr). destruct f; [| |destruct (bounded_contains _ _)];
      injection Hx as <- <- <-; split_and!; auto; naive_solver.
  - unfold exec_settle in Hx. destruct Hs as (? & [Hb Hc] & ? & ? & ?). pose proof (bounded_remove_ok (thread, id) _ Hb) as [Hb' Hc'].
    destruct (bounded_remove _ _) as [cl claims] eqn:E. injection Hx as <- <- <-. cbn in Hb', Hc'. split_and!; cbn; auto. congruence.
  - injection Hx as <- <- <-. apply (bounded_same _ _ Hs); [done..|cbn; apply filter_len].
  - injection Hx as <- <- <-. destruct Hs as (? & ? & Hz & Hr & ?). split_and!; cbn; auto; [naive_solver..| |].
    + rewrite map_size_delete. destruct (rf_by_key _ !! key); cbn; lia.
    + intros k. unfold records. cbn. destruct (decide (key = k)) as [->|Hne]; [rewrite lookup_delete_eq; cbn; lia|].
      rewrite lookup_delete_ne by done. apply Hr.
Qed.

Lemma start_bounded cfg reg : state_bounded (Pairing_start cfg reg).
Proof.
  unfold state_bounded. cbn. split; [lia|]. split; [|split; [rewrite map_size_empty; lia|split; [|rewrite size_empty; lia]]].
  - split; [|done]. split; [by apply NoDup_nil_2|]. split; [|cbn; lia]. intros k. cbn. rewrite lookup_empty.
    split; [by intros ?%not_elem_of_nil|by intros []].
  - intros k. unfold records. cbn. rewrite lookup_empty. cbn. lia.
Qed.

(** [C17] Nothing a harness or a carrier does makes the module keep more than its bounds, in any
    run: at most 1024 confirmations, 1024 claimed items, 16 refusal records for each of at most
    64 connections, and 16 names of other servers. *)
Theorem pairing_memory cfg (x : System (K := K) (Value := Value)) :
  reachable cfg x →
  let s := sy_state x in
  (length (cs_entries (pi_confirmations s)) ≤ 1024)%nat ∧ (size (bd_map (pi_claims s)) ≤ 1024)%nat ∧
  (size (rf_by_key (pi_refusals s)) ≤ 64)%nat ∧ (∀ k, length (records (pi_refusals s) k) ≤ 16)%nat ∧ (size (pi_others s) ≤ 16)%nat.
Proof.
  intros Hr. assert (state_bounded (sy_state x)) as (? & [Hb Hc] & ? & ? & ?).
  { induction Hr as [t reg|x y Hr IH Hstep].
    - apply start_bounded.
    - destruct Hstep; cbn in *; [done|by eapply exec_bounded|done..]. }
  split_and!; auto. rewrite <-Hc. by apply bounded_size.
Qed.
End Memory.

(** ** Matching is equality up to the order of members *)

Fixpoint height (v : Json) : nat :=
  match v with
  | JArray a => foldr (λ x n, Nat.max (S (height x)) n) 0%nat a
  | JObject o => foldr (λ m n, Nat.max (S (height m.2)) n) 0%nat o
  | _ => 0%nat
  end.

Lemma json_equal_array d x y :
  json_equal_at d (JArray x) (JArray y) =
  negb (64 <? d)%nat && ((length x =? length y)%nat && forallb (λ p, json_equal_at (S d) p.1 p.2) (zip x y)).
Proof.
  cbn [json_equal_at]. change MAX_DEPTH with 64%nat. destruct (64 <? d)%nat; [done|]. cbn [negb andb]. f_equal.
  revert y. induction x as [|p x IH]; intros [|q y]; try done. cbn [zip zip_with forallb fst snd]. by rewrite IH.
Qed.

Lemma json_equal_object d x y :
  json_equal_at d (JObject x) (JObject y) =
  negb (64 <? d)%nat && ((length x =? length y)%nat &&
    forallb (λ m, match obj_get y m.1 with Some w => json_equal_at (S d) m.2 w | None => false end) x).
Proof.
  cbn [json_equal_at]. change MAX_DEPTH with 64%nat. destruct (64 <? d)%nat; done.
Qed.

Lemma height_foldr {A} (f : A → nat) l n : (foldr (λ x n, Nat.max (S (f x)) n) 0 l ≤ n)%nat ↔ Forall (λ x, S (f x) ≤ n)%nat l.
Proof.
  induction l as [|x l IH]; cbn [foldr]; [split; [constructor|lia]|]. rewrite Forall_cons, <-IH. lia.
Qed.

Lemma wf_object_inv o : wf_json (JObject o) → NoDup (obj_names o) ∧ Forall (λ m, wf_json m.2) o.
Proof. by inversion 1. Qed.

Lemma obj_get_wf o k v : wf_json (JObject o) → obj_get o k = Some v → wf_json v.
Proof. intros [Hn Hw]%wf_object_inv Hg%obj_get_unique; [|done]. rewrite Forall_forall in Hw. by apply (Hw (k, v)). Qed.

(** The members of [y] in the order of the members of [x]. *)
Lemma objects_reordered (R : Json → Json → Prop) (x y : JsonObject) :
  NoDup (obj_names x) → NoDup (obj_names y) → length x = length y →
  Forall (λ m, ∃ w, obj_get y m.1 = Some w ∧ R m.2 w) x →
  ∃ o', Forall2 (λ m n, m.1 = n.1) x o' ∧ Forall2 (λ m n, R m.2 n.2) x o' ∧ o' ≡ₚ y.
Proof.
  intros Hx Hy Hl Hf.
  assert (∃ o', Forall2 (λ m n, m.1 = n.1) x o' ∧ Forall2 (λ m n, R m.2 n.2) x o' ∧ (∀ n, n ∈ o' → n ∈ y)) as (o' & Hn & Hr & Hsub).
  { clear Hx Hl. induction Hf as [|m x (w & Hg & Hw) _ (o' & Hn & Hr & Hs)]; [exists []; split_and!; [constructor..|by intros ? ?%not_elem_of_nil]|].
    exists ((m.1, w) :: o'). split_and!; [by constructor|by constructor|]. intros n [->|Hin]%elem_of_cons; [|by apply Hs]. by apply obj_get_unique. }
  exists o'. split_and!; [done|done|]. assert (obj_names o' = obj_names x) as Hnames.
  { unfold obj_names. clear -Hn. induction Hn; cbn; congruence. }
  apply submseteq_length_Permutation; [apply NoDup_submseteq; [|done]|rewrite <-Hl, (Forall2_length _ _ _ Hn); done].
  apply (NoDup_fmap_1 fst). change (fst <$> o') with (obj_names o'). by rewrite Hnames.
Qed.

Definition equal_spec (a : Json) : Prop := ∀ d b, wf_json a → wf_json b →
  json_equal_at d a b = true ↔ reordered a b ∧ (d + height a ≤ 64)%nat.

Lemma arrays_equal d a b :
  Forall equal_spec a → Forall wf_json a → Forall wf_json b →
  (length a = length b ∧ forallb (λ p, json_equal_at (S d) p.1 p.2) (zip a b) = true) ↔
  Forall2 reordered a b ∧ Forall (λ x, S (height x) ≤ 64 - d)%nat a ∧ length a = length b.
Proof.
  intros Hs. revert b. induction Hs as [|x a Hx Hs IH]; intros [|y b] Ha Hb; [|split; [by intros [] | by intros (_ & _ & ?)]..|].
  { split; [intros _; split; [constructor|split; [constructor|done]]|done]. }
  apply Forall_cons in Ha as [Ha1 Ha], Hb as [Hb1 Hb]. cbn [zip zip_with forallb fst snd length].
  rewrite andb_true_iff, (Hx (S d) y Ha1 Hb1). specialize (IH b Ha Hb). split.
  - intros [Hl [[Hr Hh] Hf]]. destruct (proj1 IH) as (H2 & H3 & H4); [split; [lia|done]|]. split_and!; [by constructor|constructor; [lia|done]|lia].
  - intros (H2 & H3 & H4). inversion H2; subst. apply Forall_cons in H3 as [? ?].
    destruct (proj2 IH) as [? ?]; [split_and!; [done|done|lia]|]. split; [lia|]. split; [split; [done|lia]|done].
Qed.

Lemma objects_equal d o p :
  Forall (λ m, equal_spec m.2) o → wf_json (JObject o) → wf_json (JObject p) →
  (length o = length p ∧ forallb (λ m, match obj_get p m.1 with Some w => json_equal_at (S d) m.2 w | None => false end) o = true) ↔
  reordered (JObject o) (JObject p) ∧ Forall (λ m, S (height m.2) ≤ 64 - d)%nat o.
Proof.
  intros Hs Ho Hp. pose proof (wf_object_inv _ Ho) as [Hno Hwo]. pose proof (wf_object_inv _ Hp) as [Hnp Hwp].
  assert (∀ m, m ∈ o → ∀ w, obj_get p m.1 = Some w → json_equal_at (S d) m.2 w = true ↔ reordered m.2 w ∧ (S (height m.2) ≤ 64 - d)%nat) as He.
  { intros m Hm w Hg. rewrite Forall_forall in Hs, Hwo. rewrite (Hs m Hm (S d) w (Hwo m Hm) (obj_get_wf _ _ _ Hp Hg)). split; intros [? ?]; (split; [done|lia]). }
  rewrite forallb_forall. split.
  - intros [Hl Hf]. assert (∀ m, m ∈ o → ∃ w, obj_get p m.1 = Some w ∧ reordered m.2 w ∧ (S (height m.2) ≤ 64 - d)%nat) as Hm.
    { intros m Hm. pose proof (Hf m (proj1 (list_elem_of_In _ _) Hm)) as Hx. destruct (obj_get p m.1) as [w|] eqn:E; [|done].
      exists w. split; [done|]. by apply (He m Hm w E). }
    split; [|rewrite Forall_forall; intros m Hi; by destruct (Hm m Hi) as (? & ? & ? & ?)].
    destruct (objects_reordered reordered o p Hno Hnp Hl) as (o' & H1 & H2 & H3); [|by econstructor].
    apply Forall_forall. intros m Hi. destruct (Hm m Hi) as (w & ? & ? & _). eauto.
  - intros [Hr Hh]. inversion Hr as [| | | | |? o' ? Hn Hre Hperm]; subst.
    split; [by rewrite (Forall2_length _ _ _ Hn), Hperm|]. intros m Hm%list_elem_of_In.
    apply list_elem_of_lookup in Hm as [i Hi]. destruct (Forall2_lookup_l _ _ _ _ _ Hn Hi) as (n & Hni & Hname).
    destruct (Forall2_lookup_l _ _ _ _ _ Hre Hi) as (n' & Hni' & Hren). assert (n' = n) as -> by congruence.
    assert (obj_get p m.1 = Some n.2) as Hg.
    { apply obj_get_unique; [done|]. rewrite Hname, <-Hperm, <-surjective_pairing. by eapply list_elem_of_lookup_2. }
    rewrite Hg. rewrite Forall_forall in Hh. assert (m ∈ o) as Hmo by (by eapply list_elem_of_lookup_2). apply (He m Hmo _ Hg). split; [done|by apply Hh].
Qed.

Lemma json_equal_at_spec a : equal_spec a.
Proof.
  unfold equal_spec. induction a as [|x|x|x|a IH|o IH] using Json_nested_ind; intros d b Ha Hb; fold equal_spec in IH || idtac.
  all: destruct (Nat.ltb_spec 64 d) as [Hd|Hd]; [assert ((64 <? d)%nat = true) as Hlt by (by apply Nat.ltb_lt)|assert ((64 <? d)%nat = false) as Hlt by (by apply Nat.ltb_ge)];
    [split; [destruct b; cbn [json_equal_at]; change MAX_DEPTH with 64%nat; by rewrite Hlt|intros [_ ?]; lia]|].
  1-4: destruct b as [|y|y|y|y|y]; cbn [json_equal_at height]; change MAX_DEPTH with 64%nat; rewrite Hlt;
       try (split; [done|by intros [Hr _]; inversion Hr]); rewrite ?Nat.add_0_r, ?Bool.eqb_true_iff, ?beq_true;
       (split; [intros Heq; try subst; split; [constructor|done]|intros [Hr _]; by inversion Hr]).
  - destruct b as [|y|y|y|b|y]; try (cbn [json_equal_at]; change MAX_DEPTH with 64%nat; rewrite Hlt; split; [done|by intros [Hr _]; inversion Hr]).
    rewrite json_equal_array, Hlt, andb_true_l, andb_true_iff, Nat.eqb_eq. inversion Ha; subst. inversion Hb; subst.
    rewrite (arrays_equal d a b IH) by done. cbn [height].
    assert ((d + foldr (λ x n, Nat.max (S (height x)) n) 0 a ≤ 64)%nat ↔ Forall (λ x, S (height x) ≤ 64 - d)%nat a) as -> by (rewrite <-height_foldr; lia).
    split; [intros (? & ? & ?); split; [by constructor|done]|]. intros [Hr ?]. inversion Hr; subst. split_and!; [done|done|by eapply Forall2_length].
  - destruct b as [|y|y|y|y|p]; try (cbn [json_equal_at]; change MAX_DEPTH with 64%nat; rewrite Hlt; split; [done|by intros [Hr _]; inversion Hr]).
    rewrite json_equal_object, Hlt, andb_true_l, andb_true_iff, Nat.eqb_eq. cbn [height].
    assert ((d + foldr (λ m n, Nat.max (S (height m.2)) n) 0 o ≤ 64)%nat ↔ Forall (λ m, S (height m.2) ≤ 64 - d)%nat o) as ->
      by (rewrite <-(height_foldr (λ m, height m.2)); lia).
    by apply objects_equal.
Qed.

(** [C16] The arguments of a call match those of a report exactly when they are the same JSON value
    up to the order of the members of objects, with an absent value as [null], nested at most 64
    levels deep: for I-JSON values [arguments_match] decides that relation, and deeper values
    match nothing. *)
Theorem arguments_match_exact call item :
  wf_json call → (∀ v, item = Some v → wf_json v) →
  arguments_match call item = true ↔ reordered call (default JNull item) ∧ (height call ≤ 64)%nat.
Proof.
  intros Hc Hi. unfold arguments_match, json_equal. rewrite (json_equal_at_spec call 0%nat); [done|done|].
  destruct item as [v|]; [by apply Hi|constructor].
Qed.

Lemma arguments_match_exact_witness :
  reordered (JObject [(bs "a", JNull); (bs "b", JArray [JBool true])]) (JObject [(bs "b", JArray [JBool true]); (bs "a", JNull)]).
Proof.
  refine (proj1 (proj1 (arguments_match_exact (JObject [(bs "a", JNull); (bs "b", JArray [JBool true])])
    (Some (JObject [(bs "b", JArray [JBool true]); (bs "a", JNull)])) _ _) _)).
  - apply wf_members; [nodup_const|]. repeat constructor; cbn; by vm_compute.
  - intros v [=<-]. apply wf_members; [nodup_const|]. repeat constructor; cbn; by vm_compute.
  - vm_compute. reflexivity.
Defined.

(** ** A window that ends inside a reveal *)

Section Swept.
Context `{MapOrder} {K : Type} `{Countable K} {Value Map : Type} `{McpJson Value Map}.
Abbreviation System := (System (K := K) (Value := Value)).

Definition idle_input (now : Z) : Input (Value := Value) := mkInput now false (mkAnswer (mkCallResult [] None false) None false) None false.

(** One program's micro-step. *)
Lemma step_exec n m k (x : System) s' next obs :
  sy_pool x !! n = Some (m :: k) → exec (idle_input (sy_clock x)) m (sy_state x) = (s', next, obs) →
  step x (mkSystem (sy_clock x) s' (<[n := next ++ k]> (sy_pool x)) (rev obs ++ sy_trace x)).
Proof. destruct x as [t s pool tr]. cbn. intros Hn He. eapply (St_exec (idle_input t)); [done|exact Hn|exact He]. Qed.

Lemma drop_key_gone t u r : rg_by_key r !! u = None ∨ t = u → rg_by_key (drop_key t r).2 !! u = None.
Proof.
  unfold drop_key. destruct (rg_by_key r !! t) as [e|] eqn:E; cbn; [|by intros [?| ->]].
  intros [Hu| ->]; [|apply lookup_delete_eq]. destruct (decide (t = u)) as [->|]; [apply lookup_delete_eq|by rewrite lookup_delete_ne].
Qed.

(** Unsubscribing leaves none of the threads served, and changes nothing else that is asked of. *)
Lemma unsubscribe_runs n ts (x : System) :
  sy_pool x !! n = Some [Mi_Unsubscribe ts] →
  ∃ y, rtc step x y ∧ sy_clock y = sy_clock x ∧ (∀ i, i ≠ n → sy_pool y !! i = sy_pool x !! i) ∧
    pi_conns (sy_state y) = pi_conns (sy_state x) ∧ pi_serving (sy_state y) = pi_serving (sy_state x) ∧
    ∀ t, t ∈ ts ∨ rg_by_key (pi_registry (sy_state x)) !! t = None → rg_by_key (pi_registry (sy_state y)) !! t = None.
Proof.
  revert x. induction ts as [|t ts IH]; intros x Hn.
  - exists x. split_and!; try done. by intros t [?%not_elem_of_nil|?].
  - destruct (exec (idle_input (sy_clock x)) (Mi_Unsubscribe (t :: ts)) (sy_state x)) as [[s' next] obs] eqn:E.
    pose proof (step_exec n _ [] x s' next obs Hn E) as Hs. cbn [exec] in E. destruct (drop_key t (pi_registry (sy_state x))) as [native reg] eqn:Ed.
    assert (next = [Mi_Unsubscribe ts] ∧ pi_conns s' = pi_conns (sy_state x) ∧ pi_serving s' = pi_serving (sy_state x) ∧ pi_registry s' = reg) as (-> & Hc & Hv & Hg).
    { destruct native; injection E as <- <- <-; done. }
    destruct (IH (mkSystem (sy_clock x) s' (<[n := [Mi_Unsubscribe ts]]> (sy_pool x)) (rev obs ++ sy_trace x))
      ltac:(cbn [sy_pool]; apply list_lookup_insert_eq; by eapply lookup_lt_Some)) as (y & Hr & Ht & Hp & Hc' & Hv' & Hg').
    exists y. cbn in *. split_and!; [by eapply rtc_l|done| |congruence|congruence|].
    + intros i Hi. rewrite Hp by done. by rewrite list_lookup_insert_ne.
    + intros u Hu. apply Hg'. destruct (decide (u ∈ ts)) as [?|Hnu]; [by left|right]. rewrite Hg. change reg with (native, reg).2. rewrite <-Ed.
      apply drop_key_gone. destruct Hu as [[->|?]%elem_of_cons|?]; [by right|done|by left].
Qed.

Lemma take_due_spec now (s : Serving K) t deadline :
  sv_tentative s !! t = Some deadline → deadline ≤ now → sv_held s !! t = None →
  t ∈ (take_due now s).1 ∧ sv_tentative (take_due now s).2 !! t = None ∧ sv_held (take_due now s).2 = sv_held s.
Proof.
  intros Ht Hd Hh. unfold take_due. set (due := map fst _). assert (t ∈ due) as Hin.
  { unfold due. apply list_elem_of_fmap. exists (t, deadline). split; [done|]. apply list_elem_of_In, filter_In.
    split; [by apply list_elem_of_In, elem_of_map_items|]. cbn. lia. }
  cbn. split_and!; [apply list_elem_of_In, filter_In; split; [by apply list_elem_of_In|by rewrite Hh]| |done].
  clearbody due. clear -Hin. revert Hin. generalize (sv_tentative s). induction due as [|u due IH]; intros m Hin; cbn; [by apply not_elem_of_nil in Hin|].
  destruct (decide (t ∈ due)) as [?|Hn]; [by apply IH|]. apply elem_of_cons in Hin as [Heq|]; [subst u|done].
  assert (∀ l (m : gmap Z Z), m !! t = None → foldl (λ m t, delete t m) m l !! t = None) as Hk.
  { clear. induction l as [|v l IH]; intros m Hm; cbn; [done|]. apply IH. destruct (decide (v = t)) as [->|]; [apply lookup_delete_eq|by rewrite lookup_delete_ne]. }
  apply Hk, lookup_delete_eq.
Qed.
End Swept.

(** [C19] The hold of a reveal does not protect its thread from the end of its window.  In any run,
    once a reveal has looked its thread up and before it records the pairing, if the window of the
    thread is over and no other connection holds it, the run can go on, by a sweep and then the
    reveal's own steps, to a state where the connection is paired with the thread and not stopped
    and the core was given the reveal, while the carrier does not serve the thread and the serving
    manager keeps no trace of it: no report of that thread, and so no confirmation of a call on the
    connection, can come. *)
Theorem swept_reveal_unserved `{MapOrder} {K : Type} `{Countable K} {Value Map : Type} `{McpJson Value Map}
    cfg (x : System (K := K) (Value := Value)) n key thread native value k deadline :
  reachable cfg x → sy_pool x !! n = Some (Mi_SetThread key thread native value :: k) →
  sv_tentative (pi_serving (sy_state x)) !! thread = Some deadline → deadline ≤ sy_clock x →
  sv_held (pi_serving (sy_state x)) !! thread = None →
  ∃ y, rtc step x y ∧ sy_pool y !! n = Some k ∧ Ob_Reveal key native value ∈ sy_trace y ∧
    (∃ c, pi_conns (sy_state y) !! key = Some c ∧ co_thread c = Some thread ∧ co_stopped c = false) ∧
    native_of (pi_registry (sy_state y)) thread = None ∧
    sv_tentative (pi_serving (sy_state y)) !! thread = None ∧ sv_held (pi_serving (sy_state y)) !! thread = None.
Proof.
  intros _ Hn Ht Hd Hh. destruct (take_due_spec (sy_clock x) _ _ _ Ht Hd Hh) as (Hdue & Ht' & Hh').
  set (w := length (sy_pool x)). assert (n < w)%nat as Hlt by (by eapply lookup_lt_Some).
  assert (step x (mkSystem (sy_clock x) (sy_state x) (sy_pool x ++ [[Mi_Sweep]]) (sy_trace x))) as S1 by (destruct x; by apply St_begin).
  set (x1 := mkSystem _ _ _ _) in S1.
  assert (sy_pool x1 !! w = Some [Mi_Sweep]) as Hw1 by (cbn; apply list_lookup_middle; done).
  destruct (exec (idle_input (sy_clock x1)) (Mi_Sweep (K := K) (Value := Value)) (sy_state x1)) as [[s2 next2] obs2] eqn:E2.
  pose proof (step_exec w _ [] x1 _ _ _ Hw1 E2) as S2. set (x2 := mkSystem _ _ _ _) in S2. cbn [exec] in E2.
  destruct (take_due (in_now (idle_input (Value := Value) (sy_clock x1))) (pi_serving (sy_state x1))) as [due serving] eqn:Etd.
  change (take_due (sy_clock x) (pi_serving (sy_state x)) = (due, serving)) in Etd. rewrite Etd in Hdue, Ht', Hh'. cbn in Hdue, Ht', Hh'.
  injection E2 as <- <- <-.
  assert (sy_pool x2 !! w = Some [Mi_Unsubscribe due]) as Hw2 by (cbn; apply list_lookup_insert_eq; rewrite length_app; cbn; lia).
  destruct (unsubscribe_runs w due x2 Hw2) as (x3 & S3 & Hc3 & Hp3 & Hco3 & Hsv3 & Hg3).
  assert (sy_pool x3 !! n = Some (Mi_SetThread key thread native value :: k)) as Hn3.
  { rewrite Hp3 by lia. cbn. rewrite list_lookup_insert_ne, lookup_app_l by lia. done. }
  pose proof (step_exec n _ k x3 _ _ _ Hn3 eq_refl) as S4. set (x4 := mkSystem _ _ _ _) in S4.
  assert (n < length (sy_pool x3))%nat as Hl3 by (by eapply lookup_lt_Some).
  assert (sy_pool x4 !! n = Some (Mi_Hold key thread :: Mi_PortReveal key native value :: k)) as Hn4 by (cbn; by apply list_lookup_insert_eq).
  pose proof (step_exec n _ _ x4 _ _ _ Hn4 eq_refl) as S5. set (x5 := mkSystem _ _ _ _) in S5.
  assert (sy_pool x5 !! n = Some (Mi_PortReveal key native value :: k)) as Hn5 by (cbn; apply list_lookup_insert_eq; by rewrite length_insert).
  pose proof (step_exec n _ _ x5 _ _ _ Hn5 eq_refl) as S6. set (x6 := mkSystem _ _ _ _) in S6.
  exists x6. split_and!.
  - eapply rtc_l; [exact S1|]. eapply rtc_l; [exact S2|]. etrans; [exact S3|]. eapply rtc_l; [exact S4|]. eapply rtc_l; [exact S5|]. by apply rtc_once.
  - cbn. apply list_lookup_insert_eq. by rewrite !length_insert.
  - cbn. set_solver.
  - eexists. split; [cbn; apply lookup_insert_eq|done].
  - unfold native_of. cbn. rewrite Hg3; [done|by left].
  - cbn. rewrite Hsv3. cbn. apply lookup_delete_eq.
  - cbn. rewrite Hsv3. cbn. unfold serving_hold. cbn. rewrite Ht', Hh', Hh. done.
Qed.

(** ** Sample runs *)

Section Moves.
Context `{MapOrder} {K : Type} `{Countable K} {Value Map : Type} `{McpJson Value Map}.

(** A run as a list of moves: an operation begins, or a program does one micro-step at the time of
    its input. *)
Inductive Move : Type := Mv_begin (m : Micro (K := K) (Value := Value)) | Mv_exec (n : nat) (i : Input (Value := Value)).

Abbreviation System := (System (K := K) (Value := Value)).

Definition move (v : Move) (x : System) : option System :=
  match v with
  | Mv_begin m => then_some (is_entry m) (mkSystem (sy_clock x) (sy_state x) (sy_pool x ++ [[m]]) (sy_trace x))
  | Mv_exec n i =>
      match sy_pool x !! n with
      | Some (m :: k) =>
          let '(s, next, obs) := exec i m (sy_state x) in
          then_some (sy_clock x <=? in_now i) (mkSystem (in_now i) s (<[n := next ++ k]> (sy_pool x)) (rev obs ++ sy_trace x))
      | _ => None
      end
  end.

Fixpoint moves (l : list Move) (x : System) : option System :=
  match l with
  | [] => Some x
  | v :: l => x ← move v x; moves l x
  end.

Lemma moves_reachable cfg l x y : reachable cfg x → moves l x = Some y → reachable cfg y.
Proof.
  revert x. induction l as [|v l IH]; intros x Hr Hm; cbn [moves] in Hm; [by injection Hm as <-|].
  destruct (move v x) as [z|] eqn:E; [|done]. cbn [mbind option_bind] in Hm. apply (IH z); [|done].
  destruct x as [t s pool tr]. unfold then_some in E. destruct v as [m|n i]; cbn in E.
  - destruct (is_entry m) eqn:Em; [|done]. injection E as <-. eapply Re_step; [exact Hr|]. by constructor.
  - destruct (pool !! n) as [[|m k]|] eqn:En; [done| |done]. destruct (exec i m s) as [[s' next] obs] eqn:Ex.
    destruct (Z.leb_spec t (in_now i)); [|done]. injection E as <-.
    eapply Re_step; [eapply Re_step; [exact Hr|by apply (St_tick (in_now i))]|by eapply St_exec].
Qed.
End Moves.

#[local] Instance sample_order : MapOrder := {| map_items := λ K V _ _ m, map_to_list m; map_items_perm := λ K V _ _ m, reflexivity _ |}.

Definition sample_thread : list Z := bs "01a1186d-b327-74f2-ac20-e3c5d0a9e81c".
Definition sample_value : list Z := bs "oac-pair-00112233445566778899aabbccddeeff".
Definition sample_refusal : Answer (Value := Json) := mkAnswer (pairing_refusal sample_value) (Some sample_value) true.
Definition sample_served : Answer (Value := Json) := mkAnswer (mkCallResult [Cb_Text (bs "done")] None false) None false.
Definition at_time (now : Z) (a : Answer (Value := Json)) : Input := mkInput now false a (Some [sample_thread]) true.
Definition sample_config : PairingConfig := PairingConfig_new (bs "oac").
Definition sample_system : System (K := nat) (Value := Json) := mkSystem 0 (Pairing_start sample_config Registry_default) [] [].

Definition reported_call (text : list Z) : CodexEvent :=
  Ev_ItemCompleted 1 (bs "turn-1") (Ci_McpToolCall (bs "item-1") (bs "oac") WHOAMI (Some (JObject []))
    (Some (JObject [(bs "content", JArray [JObject [(bs "type", JString (bs "text")); (bs "text", JString text)]])]))).

(** A first call on connection 7 is refused with a value: the loaded thread is subscribed for it. *)
Definition refused_first : list (Move (K := nat) (Value := Json)) :=
  Mv_begin (Mi_Serve 7%nat WHOAMI (Some (JObject [])) Tc_Whoami) :: replicate 10 (Mv_exec 0 (at_time 0 sample_refusal)).

(** Codex reports it, the connection is paired with thread 1, and a second call waits for its own
    report and is served on it. *)
Definition paired_and_served : list (Move (K := nat) (Value := Json)) :=
  refused_first ++ Mv_begin (Mi_Event (reported_call (pairing_refusal_text sample_value))) ::
  replicate 9 (Mv_exec 1 (at_time 5 sample_served)) ++
  [Mv_begin (Mi_Serve 7%nat WHOAMI (Some (JObject [])) Tc_Whoami); Mv_exec 2 (at_time 6 sample_served); Mv_exec 2 (at_time 7 sample_served);
   Mv_begin (Mi_Event (Ev_ItemStarted 1 (bs "turn-2") (bs "item-2") (bs "mcpToolCall") (Some (mkCallStart (bs "oac") WHOAMI (Some (JObject []))))));
   Mv_exec 3 (at_time 8 sample_served); Mv_exec 3 (at_time 8 sample_served); Mv_exec 2 (at_time 9 sample_served); Mv_exec 2 (at_time 9 sample_served)].

Definition sample_end : System (K := nat) (Value := Json) := default sample_system (moves paired_and_served sample_system).
Definition sample_report : Confirmation := mkConfirmation 1 (bs "turn-2") (bs "item-2") WHOAMI (JObject []) 8 false.

Lemma sample_moves : moves paired_and_served sample_system = Some sample_end.
Proof. vm_compute. reflexivity. Qed.

Lemma sample_reachable : reachable sample_config sample_end.
Proof. eapply moves_reachable; [apply Re_start|exact sample_moves]. Qed.

(** In the sample run a call is served on one report, which serves no other. *)
Lemma confirmed_requests_witness :
  requests_on sample_report (sy_trace sample_end) = 1 ∧ starts_of sample_report (sy_trace sample_end) = 1 ∧
  requests_on sample_report (sy_trace sample_end) ≤ starts_of sample_report (sy_trace sample_end).
Proof.
  split; [vm_compute; reflexivity|]. split; [vm_compute; reflexivity|].
  exact (proj1 (proj2 (confirmed_requests sample_config sample_end sample_reachable)) sample_report eq_refl).
Defined.

Lemma pairing_memory_witness :
  (length (cs_entries (pi_confirmations (sy_state sample_end))) = 1 ∧ length (cs_entries (pi_confirmations (sy_state sample_end))) ≤ 1024)%nat.
Proof.
  split; [vm_compute; reflexivity|]. exact (proj1 (pairing_memory sample_config sample_end sample_reachable)).
Defined.

Lemma reveals_genuine_witness :
  reveals_of 7%nat sample_value (sy_trace sample_end) = 1 ∧
  (∃ thread, revealed 30000000000 (drop 5 (sy_trace sample_end)) 7%nat thread sample_value ∧
    had_native sample_config sample_end (drop 5 (sy_trace sample_end)) thread sample_thread) ∧
  reveals_of 7%nat sample_value (sy_trace sample_end) ≤ records_of 7%nat sample_value (sy_trace sample_end).
Proof.
  split; [vm_compute; reflexivity|]. pose proof (reveals_genuine sample_config sample_end sample_reachable) as (Hg & _ & Hc & _).
  split; [|exact (Hc 7%nat sample_value)]. apply (Hg (take 4 (sy_trace sample_end))). vm_compute. reflexivity.
Defined.

Definition stopped_state : Pairing (K := nat) := sy_state sample_end <| pi_conns := {[7%nat := mkConn (Some 1) true true None]} |>.

Lemma stop_holds_witness :
  ∃ s', exec (at_time 9 sample_served) (Mi_SetBound 7%nat true) stopped_state = (s', [], []) ∧ stopped 7%nat s' = true.
Proof.
  destruct (exec (at_time 9 sample_served) (Mi_SetBound 7%nat true) stopped_state) as [[s' next] obs] eqn:E.
  pose proof (proj1 (stop_holds 7%nat _ _ _ _ _ _ E) ltac:(vm_compute; reflexivity) ltac:(vm_compute; reflexivity)) as Hs.
  exists s'. split; [|exact Hs]. cbn in E. injection E as <- <- <-. reflexivity.
Defined.

Definition waiting_call : Call (K := nat) := mkCall 7%nat WHOAMI (JObject []) Tc_Whoami.
Definition waiting_state : Pairing (K := nat) := sy_state sample_system <| pi_confirmations := mkConfirmations [sample_report] false |>.

Lemma wait_round_witness :
  (exec (at_time 9 sample_served) (Mi_Claim waiting_call 1) waiting_state).1.2 = [Mi_Request waiting_call (Pa_Confirmed sample_report)].
Proof.
  destruct (exec (at_time 9 sample_served) (Mi_Claim waiting_call 1) waiting_state) as [[s' next] obs] eqn:E.
  exact (proj1 (wait_round _ _ _ _ _ _ _ E)).
Defined.

(** The reveal of the sample run, held up until its window is over. *)
Definition late_reveal : list (Move (K := nat) (Value := Json)) :=
  refused_first ++ Mv_begin (Mi_Event (reported_call (pairing_refusal_text sample_value))) ::
  replicate 3 (Mv_exec 1 (at_time 29000000000 sample_served)) ++ [Mv_exec 1 (at_time 30000000000 sample_served)].

Definition late_system : System (K := nat) (Value := Json) := default sample_system (moves late_reveal sample_system).

Lemma late_reachable : reachable sample_config late_system.
Proof. apply (moves_reachable sample_config late_reveal sample_system); [apply Re_start|]. vm_compute. reflexivity. Qed.

Lemma swept_reveal_unserved_witness :
  ∃ y, rtc step late_system y ∧ Ob_Reveal 7%nat sample_thread sample_value ∈ sy_trace y ∧ native_of (pi_registry (sy_state y)) 1 = None.
Proof.
  destruct (swept_reveal_unserved sample_config late_system 1 7%nat 1 sample_thread sample_value
    (match sy_pool late_system !! 1%nat with Some (_ :: k) => k | _ => [] end) 30000000000 late_reachable) as (y & Hr & _ & Ho & _ & Hn & _).
  - vm_compute. reflexivity.
  - vm_compute. reflexivity.
  - vm_compute. discriminate.
  - vm_compute. reflexivity.
  - exists y. split; [exact Hr|]. split; [exact Ho|exact Hn].
Defined.
